(* ===== verification/_CoqProject ===== *)
-Q . S2P
Prelude.v
Slices.v
External.v
Winnow.v
Hash.v
Btoi.v
Actor.v
ObjectParse.v
CommitObject.v
OidLookup.v
PackIndex.v
PackEntry.v
PackDelta.v
PackDecode.v
Packetline.v
Validate.v
RefName.v
ValidatePath.v
Wildmatch.v
Glob.v
Chunk.v
Paths.v
MultiIndex.v
CommitGraph.v
GraphFiles.v
Bitmap.v
IndexEntry.v
IndexExt.v
SingleFloat.v
IndexState.v
IndexAccess.v
ObjectTree.v
TreeEditor.v
TreeWrite.v
ObjectFind.v
TreeDiff.v
TagObject.v
RevGraph.v
MergeBase.v
Traverse.v
PackedRefs.v
ConfigParse.v
ConfigSection.v
ConfigFile.v
RevSpec.v
RefSpec.v
RefMatch.v
