(* ===== verification/Prelude.v ===== *)
(** * Verified models of gitoxide plumbing

    The repository is gitoxide, an implementation of git in Rust as a family of
    crates [gix-*].  This library models the crates that read and write git's
    file and wire formats, which is where untrusted bytes enter the program,
    and proves what their callers rely on.

    ** The parts and how they interact

    - [Prelude] (this file): the result type of Rust functions, machine
      integers, slices and byte strings with the panics of their operations,
      big-endian numbers, the order of byte strings, tactics and hints.
    - [External]: third-party crates ([faster_hex], [bstr], [itoa]) as type
      classes of operations and of documented laws, with instances that satisfy
      the laws; inflating is such a class in [PackDecode].
    - [Hash]: [gix-hash/src]: object ids and abbreviated ids.
    - [OidLookup]: [lookup] and [lookup_prefix] of
      [gix-pack/src/index/access.rs]: bisection in any sorted table of ids, used
      by [PackIndex] and [MultiIndex] through the class [OidTable].
    - [PackIndex]: [gix-pack/src/index]: reading and writing [.idx] files.
    - [PackEntry]: [gix-features/src/decode.rs] and [gix-pack/src/data/entry]:
      variable-length integers and the headers of pack entries.
    - [PackDelta]: [gix-pack/src/data/delta.rs]: delta instructions.
    - [PackDecode]: [gix-pack/src/data/file/decode]: from a pack offset to an
      object along a chain of deltas, with a cache; uses [PackEntry] and
      [PackDelta].
    - [Packetline]: [gix-packetline/src]: the wire format, its reader, the
      side-band demultiplexer and the writer.
    - [Validate], [ValidatePath]: [gix-validate/src]: names of references, tags
      and submodules; path components.
    - [Wildmatch], [Glob]: [gix-glob/src]: the wildcard matcher, and patterns
      with their shortcuts around it.
    - [Chunk]: [gix-chunk/src]: the table of contents of chunk files.
    - [MultiIndex]: [gix-pack/src/multi_index]: writing a multi-pack index from
      pack indices, opening it and searching it; uses [Chunk], [PackIndex] and
      [OidLookup].
    - [Btoi]: [gix-utils/src/btoi.rs]: integers from text.
    - [Bitmap]: [gix-bitmap/src]: EWAH bitmaps.
    - [IndexEntry], [IndexExt], [IndexState], [IndexAccess]: [gix-index/src]:
      entries, extensions (which use [Btoi] and [Bitmap]), the whole index file
      in one or several threads, and lookups and changes of the entries.
    - [SingleFloat]: numbers of the type [f32], in which [IndexState] counts the
      entries of each thread.
    - [ObjectTree]: [gix-object/src]: kinds, tree objects (order, reading,
      writing, searching) and loose object headers.
    - [TreeEditor], [TreeWrite]: [gix-object/src/tree/editor.rs]: edits of
      trees in memory, and writing all changed trees; use [ObjectTree].
    - [Slices]: sorting and searching of slices as in the Rust library, for
      [IndexAccess] and the trees.
    - [Paths]: what the code uses of [std::path] on Unix, for [MultiIndex] and
      [GraphFiles].
    - [CommitGraph], [GraphFiles]: [gix-commitgraph/src]: files of commits over
      [Chunk], and graphs of several files with their verification.
    - [Winnow]: the parser-combinator library that the next four use, as a type
      class with its documented equations.
    - [Actor]: [gix-actor/src] and the times of [gix-date/src]: signatures.
    - [ObjectParse], [CommitObject], [TagObject]: [gix-object/src]: the header
      fields that commits and tags share, and both objects: parsing at once,
      parsing token by token, and writing.
    - [ObjectFind]: [gix-object/src/traits.rs]: objects by kind from a
      database, which is an argument.
    - [TreeDiff]: [gix-diff/src/tree]: the changes between two trees; uses
      [ObjectTree] and [ObjectFind].
    - [RevGraph]: [gix-revwalk/src]: commits with data in memory, looked up in
      a commit-graph ([GraphFiles]) or in the database ([CommitObject]).
    - [MergeBase]: [gix-revision/src/merge_base.rs], over [RevGraph].
    - [Traverse]: [gix-traverse/src/commit]: walks over commits, breadth first
      or by date, over [ObjectFind], [CommitObject] and [GraphFiles].
    - [RefName]: [gix-ref/src]: names of references and their categories, over
      [Validate].
    - [PackedRefs]: [gix-ref/src/store/packed]: the file of packed references,
      searched by bytes, and the transactions that rewrite it; uses [Winnow],
      [Slices], [RefName] and [TagObject].
    - [ConfigParse], [ConfigSection], [ConfigFile]: [gix-config/src]: parsing
      files into events, over [Winnow]; values, sections and their text; and
      files, which are sections in an order with a tree for looking them up.
    - [RevSpec]: [gix-revision/src/spec]: the parser of revision specifications,
      which tells what it reads to a delegate, over [Validate] and [Hash]; and
      the text of specifications and descriptions.
    - [RefSpec], [RefMatch]: [gix-refspec/src]: parsing and writing refspecs
      (with revisions from [RevSpec]), and matching a remote's references.

    ** How code becomes definitions

    A Rust function becomes a definition of the same name (with a prefix where
    two crates use one name).  It returns [res E A]: [Ok], [Err] with the
    function's error, or [Panic].  A function without an error type has
    [E := Empty_set]; one that returns an option and may panic has
    [E := unit].  An out-of-range slice or index, [expect] on [None], a failed
    [assert!] and an allocation beyond [isize::MAX] bytes are panics.
    Arithmetic wraps around at the width of its type, as in a release build;
    [usize] has 64 bits.  State ([&mut self], captured variables of closures)
    is passed explicitly.  A reader is the list of bytes it still has, a writer
    the list of bytes it was given; the only I/O error is then a premature end.
    Threads are modelled by what they return when they share nothing but their
    input.

    Code outside of the repository is a parameter: an instance of a class of
    [External], or an argument such as the hash function, the allocator, the
    number of logical cores, or the closure a caller passes in.  Theorems name
    the laws they assume, and each has a witness with an instance that
    satisfies them.

    ** Fuel

    A loop whose recursion is not structural takes fuel.  Where it runs out the
    model panics or reports a failure the code cannot produce, so a theorem
    that a function returns a given value also says that the fuel was enough.
    The amounts come from the data: the length of the remaining input for
    parsers (every round consumes a byte), the length of the interval for
    bisections, the length of a delta chain for [PackDecode] (there a theorem
    takes the fuel as an argument and gives the bound, as the code itself does
    not return for a delta that is its own base).  [Wildmatch.wildmatch_total]
    shows that the matcher never runs out.

    ** What the theorems show

    - What is written can be read: pack indices, multi-pack indices, chunk
      files, the index file with its extensions, packet lines, pack entry
      headers and delta instructions.  The reader returns exactly what was
      given to the writer, through every accessor.
    - Lookups are exact: bisection by id and by prefix, lookups in the index by
      path, stage, prefix and directory return what is there and nothing else.
    - Optimised code agrees with a reference: pattern shortcuts with the
      matcher, the threaded reader with the sequential one, the streaming
      header decoder with the one over slices, the in-place resolution of delta
      chains with the denotation of deltas.
    - Checks decide their rule: reference names, path components, the order of
      index entries.
    - Absence of panics, termination, and the exact inputs on which the code
      does panic; a few inputs on which it does not do what it means to do are
      examples next to the definitions.
    - Editing a tree changes what is at the edited path and nothing beside it
      (unless the path leads through the left-over tree of a directory that was
      edited and then removed or replaced, whose content returns), and writing
      the edited trees, children first, keeps every file, with left-over trees
      or without ([TreeEditor.upsert_correct], [TreeEditor.remove_correct],
      [TreeEditor.made_wf], [TreeWrite.write_correct]).
    - A commit-graph file yields the commits it was made of, and a graph that
      passes verification has the checksums and base graphs it states, and
      generations that exclude cycles among commits below the highest one
      ([CommitGraph.graph_file_reads], [GraphFiles.verify_integrity_sound]).
    - Commits and tags that are written are read back by both parsers, which
      agree on every input and never panic ([CommitObject.commit_roundtrip],
      [CommitObject.commit_iter_agrees], [CommitObject.commit_parsing_total],
      [TagObject.tag_roundtrip]).
    - The changes between two trees are exactly the differences at every path
      ([TreeDiff.tree_changes_correct]).
    - Merge bases are common ancestors that cover all others, and exactly the
      best ones when dates decrease ([MergeBase.merge_base_correct],
      [MergeBase.merge_base_best]).
    - A walk yields every commit that can be reached exactly once, by date or
      by distance ([Traverse.every_ancestor_yielded],
      [Traverse.newest_first_sorted], [Traverse.breadth_first_closest_first]).
    - A file of packed references is the map of its records: lookups, prefix
      iteration and transactions are those of the map
      ([PackedRefs.packed_find_correct], [PackedRefs.packed_prefix_iteration],
      [PackedRefs.packed_open_sorts], [PackedRefs.packed_transaction_correct]).
    - Parsing a configuration file loses nothing; sections that are written
      are read with the values that were put into them, whatever bytes they
      have ([ConfigParse.config_lossless], [ConfigSection.config_write_read]).
      A file is a list of sections, of which the last one with a value wins.
      The order, the sections and the lookup tree agree in every file that can
      be made by the operations that keep this, which are all but renaming a
      section and removing one through a filter, whose exact effects are stated;
      the edits are what they mean on the list, and a file is loaded again as it
      was written
      ([ConfigFile.reachable_wf], [ConfigFile.section_edits_refine],
      [ConfigFile.raw_value_last_wins], [ConfigFile.set_raw_value_correct],
      [ConfigFile.config_file_write_read]).
    - Specifications, descriptions and refspecs that are written are read back;
      parsing them never panics, and keeps the contract of the delegate
      ([RevSpec.spec_display_parse], [RevSpec.describe_format_parse],
      [RevSpec.delegate_contract], [RefSpec.refspec_write_parse],
      [RefSpec.refspec_parse_well_formed]).
    - Fetching maps exactly the references that specs match and none excludes,
      finds all conflicts, and asks the server for no too narrow prefix
      ([RefMatch.match_remotes_correct],
      [RefMatch.validated_reports_conflicts], [RefMatch.prefixes_cover]).

    ** What is not modelled

    Input and output on files, processes and the network ([gix-fs],
    [gix-lock], [gix-tempfile], [gix-transport], [gix-protocol], the binaries);
    the async variants of [gix-packetline], which repeat the blocking code; the
    object database and loose references ([gix-odb],
    [gix-ref/src/store/file]), which are state on disk;
    blob diffs, merges and the walks that are not named above.  In the modelled crates: progress reporting
    and tracing, [serde] and [Debug] implementations, verification of packs on
    several threads, case-insensitive lookups in the index through an external
    hash table, comparison of index entries with file metadata, and dissolving
    a shared index.  *)

From stdpp Require Export list numbers option strings gmap sorting.
From Stdlib Require Export Lia ZArith Ascii.
#[export] Set Default Goal Selector "!".
Open Scope Z_scope.

(** ** Results

    A Rust function returns a value, returns an error or panics (slice index
    out of range, [expect] on [None], failed [assert!]).  Functions that
    cannot return an error have the error type [Empty_set]. *)

Inductive res (E A : Type) : Type :=
| Ok (a : A)
| Err (e : E)
| Panic.
Arguments Ok {E A} a.
Arguments Err {E A} e.
Arguments Panic {E A}.

#[global] Instance res_ret E : MRet (res E) := λ A x, Ok x.
#[global] Instance res_bind E : MBind (res E) := λ A B f m,
  match m with Ok a => f a | Err e => Err e | Panic => Panic end.
#[global] Instance res_fmap E : FMap (res E) := λ A B f m,
  match m with Ok a => Ok (f a) | Err e => Err e | Panic => Panic end.
#[global] Instance res_eq_dec E A `{EqDecision E, EqDecision A} :
  EqDecision (res E A).
Proof. solve_decision. Defined.

(** [Option::ok_or], [Option::expect] and [Result::map_err]. *)
Definition ok_or {E A} (o : option A) (e : E) : res E A :=
  match o with Some a => Ok a | None => Err e end.
Definition expect {E A} (o : option A) : res E A :=
  match o with Some a => Ok a | None => Panic end.
Definition map_err {E F A} (f : E → F) (m : res E A) : res F A :=
  match m with Ok a => Ok a | Err e => Err (f e) | Panic => Panic end.
(** A panic-or-value computation used where errors are allowed. *)
Definition lift {E A} (m : res Empty_set A) : res E A :=
  match m with Ok a => Ok a | Err e => match e with end | Panic => Panic end.
(** [assert!(b)]. *)
Definition assert_ {E} (b : bool) : res E unit := if b then Ok tt else Panic.

Definition is_ok {E A} (m : res E A) : bool :=
  match m with Ok _ => true | _ => false end.
Definition no_panic {E A} (m : res E A) : Prop := m ≠ Panic.

Lemma bind_Ok {E A B} (a : A) (f : A → res E B) : Ok a ≫= f = f a.
Proof. reflexivity. Qed.

Lemma bind_ok {E A B} (m : res E A) (f : A → res E B) b :
  m ≫= f = Ok b ↔ ∃ a, m = Ok a ∧ f a = Ok b.
Proof. destruct m; simpl; naive_solver. Qed.

Lemma fmap_ok {E A B} (m : res E A) (f : A → B) b :
  f <$> m = Ok b ↔ ∃ a, m = Ok a ∧ b = f a.
Proof. destruct m; simpl; naive_solver. Qed.

(** The function does not panic, and a result satisfies [Q]. *)
Definition safe {E A} (Q : A → Prop) (m : res E A) : Prop :=
  match m with Ok a => Q a | Err _ => True | Panic => False end.
Lemma safe_bind {E A B} (P : A → Prop) (Q : B → Prop) (m : res E A) (f : A → res E B) :
  safe P m → (∀ a, m = Ok a → P a → safe Q (f a)) → safe Q (m ≫= f).
Proof. destruct m; [|done..]. cbn. auto. Qed.
Lemma safe_mono {E A} (P Q : A → Prop) (m : res E A) : safe P m → (∀ a, P a → Q a) → safe Q m.
Proof. destruct m; cbn; auto. Qed.
Lemma safe_map_err {E F A} (Q : A → Prop) (g : E → F) (m : res E A) : safe Q m → safe Q (map_err g m).
Proof. by destruct m. Qed.
Lemma safe_no_panic {E A} (Q : A → Prop) (m : res E A) : safe Q m → m ≠ Panic.
Proof. by destruct m. Qed.

(** ** Bytes and machine integers

    A [u8] is a [Z] in [0, 256), a byte slice a list of them.  Values of
    wider types are [Z]s as well; wrap-around is written with [wrap]. *)

Abbreviation bytes := (list Z) (only parsing).
Abbreviation u8 b := (0 ≤ b < 256) (only parsing).
Abbreviation is_bytes := (Forall (λ b, 0 ≤ b < 256)).

Definition wrap (w z : Z) : Z := z mod 2 ^ w.
Abbreviation u16 z := (0 ≤ z < 2 ^ 16) (only parsing).
Abbreviation u32 z := (0 ≤ z < 2 ^ 32) (only parsing).
Abbreviation u64 z := (0 ≤ z < 2 ^ 64) (only parsing).

Lemma wrap_small w z : 0 ≤ z < 2 ^ w → wrap w z = z.
Proof. apply Z.mod_small. Qed.
Lemma wrap_range w z : 0 ≤ w → 0 ≤ wrap w z < 2 ^ w.
Proof. intros. apply Z.mod_pos_bound. lia. Qed.

(** Byte literals: [ch "/"] is the number 47, [bs "refs/"] the byte string
    [b"refs/"]. *)
Notation "'ch' c" :=
  (ltac:(let v := eval vm_compute in (Z.of_N (Ascii.N_of_ascii c%char)) in
         exact v))
  (at level 1, c at level 0, only parsing).
Definition bs (s : string) : bytes :=
  (λ a, Z.of_N (Ascii.N_of_ascii a)) <$> String.list_ascii_of_string s.

(** ** Slices: [d[i]], [&d[a..]], [&d[..b]], [&d[a..b]], panicking out of
    range, and the [get] forms that return an option. *)

Definition idx {E} (d : bytes) (i : nat) : res E Z := expect (d !! i).
Definition get_from {A} (d : list A) (a : nat) : option (list A) :=
  if (a <=? length d)%nat then Some (drop a d) else None.
Definition get_to {A} (d : list A) (b : nat) : option (list A) :=
  if (b <=? length d)%nat then Some (take b d) else None.
Definition get_range {A} (d : list A) (a b : nat) : option (list A) :=
  if (a <=? b)%nat && (b <=? length d)%nat
  then Some (take (b - a) (drop a d)) else None.
Definition slice_from {E A} (d : list A) (a : nat) : res E (list A) :=
  expect (get_from d a).
Definition slice_to {E A} (d : list A) (b : nat) : res E (list A) :=
  expect (get_to d b).
Definition slice {E A} (d : list A) (a b : nat) : res E (list A) :=
  expect (get_range d a b).

Lemma idx_cons {E} b d : @idx E (b :: d) 0 = Ok b.
Proof. reflexivity. Qed.
Lemma idx_cons_S {E} b d i : @idx E (b :: d) (S i) = idx d i.
Proof. reflexivity. Qed.
Lemma idx_app_r {E} d1 d2 i :
  @idx E (d1 ++ d2) (length d1 + i) = idx d2 i.
Proof.
  unfold idx. rewrite lookup_app_r by lia.
  by replace (length d1 + i - length d1)%nat with i by lia.
Qed.
Lemma idx_app_r0 {E} d1 b d2 : @idx E (d1 ++ b :: d2) (length d1) = Ok b.
Proof.
  replace (length d1) with (length d1 + 0)%nat at 1 by lia. by rewrite idx_app_r.
Qed.

Lemma slice_from_app {E A} (d1 d2 : list A) :
  @slice_from E A (d1 ++ d2) (length d1) = Ok d2.
Proof.
  unfold slice_from, get_from. rewrite length_app.
  rewrite (proj2 (Nat.leb_le _ _)) by lia. simpl. by rewrite drop_app_length.
Qed.
Lemma slice_from_at {E A} (d1 d2 : list A) n :
  n = length d1 → @slice_from E A (d1 ++ d2) n = Ok d2.
Proof. intros ->. apply slice_from_app. Qed.
Lemma slice_from_le {E A} (d : list A) n :
  (n ≤ length d)%nat → @slice_from E A d n = Ok (drop n d).
Proof. intros H. unfold slice_from, get_from. by rewrite (proj2 (Nat.leb_le _ _)). Qed.
Lemma slice_to_le {E A} (d : list A) n :
  (n ≤ length d)%nat → @slice_to E A d n = Ok (take n d).
Proof. intros H. unfold slice_to, get_to. by rewrite (proj2 (Nat.leb_le _ _)). Qed.
Lemma slice_to_app {E A} (d1 d2 : list A) n :
  n = length d1 → @slice_to E A (d1 ++ d2) n = Ok d1.
Proof.
  intros ->. unfold slice_to, get_to. rewrite length_app.
  rewrite (proj2 (Nat.leb_le _ _)) by lia. simpl. by rewrite take_app_length.
Qed.
Lemma get_range_app {A} (d1 d2 d3 : list A) a b :
  a = length d1 → b = (length d1 + length d2)%nat →
  get_range (d1 ++ d2 ++ d3) a b = Some d2.
Proof.
  intros -> ->. unfold get_range. rewrite !length_app.
  rewrite (proj2 (Nat.leb_le _ _)) by lia.
  rewrite (proj2 (Nat.leb_le (length d1 + length d2) _)) by lia. simpl.
  rewrite drop_app_length.
  replace (length d1 + length d2 - length d1)%nat with (length d2) by lia.
  by rewrite take_app_length.
Qed.
Lemma slice_app {E A} (d1 d2 d3 : list A) a b :
  a = length d1 → b = (length d1 + length d2)%nat →
  @slice E A (d1 ++ d2 ++ d3) a b = Ok d2.
Proof. intros Ha Hb. unfold slice. by rewrite get_range_app. Qed.
Lemma get_from_app {A} (d1 d2 : list A) n : n = length d1 → get_from (d1 ++ d2) n = Some d2.
Proof.
  intros ->. unfold get_from. rewrite length_app, (proj2 (Nat.leb_le _ _)) by lia. by rewrite drop_app_length.
Qed.
Lemma slice_ok_iff {E A} (d : list A) a b d' :
  @slice E A d a b = Ok d' ↔
  (a ≤ b)%nat ∧ (b ≤ length d)%nat ∧ d' = take (b - a) (drop a d).
Proof.
  unfold slice, get_range.
  destruct (Nat.leb_spec a b), (Nat.leb_spec b (length d)); simpl;
    naive_solver lia.
Qed.

(** [slice.split_at(n)]. *)
Definition split_at {E A} (l : list A) (n : nat) : res E (list A * list A) :=
  if (n <=? length l)%nat then Ok (take n l, drop n l) else Panic.

Fixpoint mapM_res {E A B} (f : A → res E B) (l : list A) : res E (list B) :=
  match l with
  | [] => Ok []
  | x :: l => y ← f x; ys ← mapM_res f l; Ok (y :: ys)
  end.

Lemma mapM_res_ok {E A B} (f : A → res E B) (g : A → B) l :
  Forall (λ x, f x = Ok (g x)) l → mapM_res f l = Ok (g <$> l).
Proof. induction 1 as [|x l Hx _ IH]; simpl; [done|]. by rewrite Hx, bind_Ok, IH. Qed.

Lemma split_at_app {E A} (a b : list A) n :
  n = length a → @split_at E A (a ++ b) n = Ok (a, b).
Proof.
  intros ->. unfold split_at. rewrite (proj2 (Nat.leb_le _ _)) by (rewrite length_app; lia).
  by rewrite take_app_length, drop_app_length.
Qed.

Lemma split_at_le {E A} (l : list A) n :
  (n ≤ length l)%nat → @split_at E A l n = Ok (take n l, drop n l).
Proof. intros. unfold split_at. by rewrite (proj2 (Nat.leb_le _ _)). Qed.

(** [Vec::resize] with zeros. *)
Definition resize (v : bytes) (n : nat) : bytes :=
  take n v ++ replicate (n - length v) 0.
Lemma length_resize v n : length (resize v n) = n.
Proof. unfold resize. rewrite length_app, length_take, length_replicate. lia. Qed.

(** Filters that keep everything or nothing. *)
Lemma filter_keep_all {A} (P : A → Prop) `{!∀ x, Decision (P x)} l : Forall P l → filter P l = l.
Proof. induction 1 as [|x l Hx _ IH]; [done|]. rewrite filter_cons_True, IH by done. done. Qed.
Lemma filter_keep_none {A} (P : A → Prop) `{!∀ x, Decision (P x)} l : Forall (λ x, ¬ P x) l → filter P l = [].
Proof. induction 1 as [|x l Hx _ IH]; [done|]. by rewrite filter_cons_False. Qed.

(** ** Searching: the index of the first byte with a property *)

Lemma forallb_Forall {A} (f : A → bool) l : forallb f l = true ↔ Forall (λ x, f x = true) l.
Proof. rewrite forallb_forall, Forall_forall. by setoid_rewrite list_elem_of_In. Qed.
Fixpoint find_index {A} (f : A → bool) (l : list A) : option nat :=
  match l with
  | [] => None
  | x :: l => if f x then Some 0%nat else S <$> find_index f l
  end.

Lemma find_index_Some {A} (f : A → bool) l i :
  find_index f l = Some i ↔
  (∃ x, l !! i = Some x ∧ f x = true) ∧
  ∀ j x, (j < i)%nat → l !! j = Some x → f x = false.
Proof.
  revert i. induction l as [|y l IH]; intros i; simpl.
  { split; [done|]. intros [[x [Hx _]] _]. by rewrite lookup_nil in Hx. }
  destruct (f y) eqn:Hy.
  - split.
    + intros [= <-]. split; [by exists y|]. lia.
    + intros [[x [Hx Hfx]] Hmin]. destruct i as [|i]; [done|].
      specialize (Hmin 0%nat y). simpl in Hmin. rewrite Hmin in Hy; [done|lia|done].
  - rewrite fmap_Some. setoid_rewrite IH. split.
    + intros (k & [[x Hx] Hmin] & ->). split; [by exists x|].
      intros [|j] z Hj Hz; simpl in *; [congruence|]. eapply Hmin; [|done]. lia.
    + intros [[x [Hx Hfx]] Hmin]. destruct i as [|i]; simpl in *; [congruence|].
      exists i. split_and!; [by exists x| |done].
      intros j z Hj Hz. apply (Hmin (S j) z); [lia|done].
Qed.

Lemma find_index_None {A} (f : A → bool) l :
  find_index f l = None ↔ Forall (λ x, f x = false) l.
Proof.
  induction l as [|y l IH]; simpl; [done|]. rewrite Forall_cons.
  destruct (f y) eqn:Hy; [naive_solver|]. rewrite fmap_None. naive_solver.
Qed.

Lemma find_index_split {A} (f : A → bool) l i :
  find_index f l = Some i →
  ∃ x, l = take i l ++ x :: drop (S i) l ∧ f x = true ∧
    Forall (λ x, f x = false) (take i l) ∧ length (take i l) = i.
Proof.
  intros [[x [Hx Hfx]] Hmin]%find_index_Some. exists x.
  assert (i < length l)%nat by by eapply lookup_lt_Some.
  split_and!.
  - by rewrite take_drop_middle.
  - done.
  - apply Forall_lookup. intros j y [Hy ?]%lookup_take_Some. eauto.
  - rewrite length_take. lia.
Qed.

Lemma find_index_app {A} (f : A → bool) l1 x l2 :
  Forall (λ x, f x = false) l1 → f x = true →
  find_index f (l1 ++ x :: l2) = Some (length l1).
Proof.
  intros H Hx. induction H as [|y l1 Hy _ IH]; simpl; [by rewrite Hx|].
  by rewrite Hy, IH.
Qed.

(** [slice.starts_with] and [slice.ends_with]. *)
Fixpoint starts_with (l p : bytes) {struct p} : bool :=
  match p, l with
  | [], _ => true
  | y :: p, x :: l => (x =? y) && starts_with l p
  | _ :: _, [] => false
  end.
Definition ends_with (l s : bytes) : bool :=
  (length s <=? length l)%nat &&
  bool_decide (drop (length l - length s) l = s).

Lemma starts_with_spec l p :
  starts_with l p = true ↔ ∃ k, l = p ++ k.
Proof.
  revert l. induction p as [|y p IH]; intros l; simpl.
  { split; [by exists l|done]. }
  destruct l as [|x l]; simpl.
  { split; [done|]. by intros [k ?]. }
  rewrite andb_true_iff, Z.eqb_eq, IH. split.
  - intros [-> [k ->]]. by exists k.
  - intros [k [= -> ->]]. eauto.
Qed.

Lemma ends_with_spec l s :
  ends_with l s = true ↔ ∃ k, l = k ++ s.
Proof.
  unfold ends_with. rewrite andb_true_iff, Nat.leb_le, bool_decide_eq_true. split.
  - intros [Hle Hd]. exists (take (length l - length s) l).
    rewrite <- Hd at 2. by rewrite take_drop.
  - intros [k ->]. rewrite length_app. split; [lia|].
    replace (length k + length s - length s)%nat with (length k) by lia.
    apply drop_app_length.
Qed.

(** [strip_suffix] and [strip_prefix] of slices and strings. *)
Definition strip_suffix (s suffix : bytes) : option bytes :=
  if ends_with s suffix then Some (take (length s - length suffix) s) else None.
Definition strip_prefix (s prefix : bytes) : option bytes :=
  if starts_with s prefix then Some (drop (length prefix) s) else None.

Lemma strip_suffix_app s suffix : strip_suffix (s ++ suffix) suffix = Some s.
Proof.
  unfold strip_suffix. rewrite (proj2 (ends_with_spec _ _)) by (by exists s).
  rewrite length_app. replace (length s + length suffix - length suffix)%nat with (length s) by lia.
  by rewrite take_app_length.
Qed.

(** ** Lexicographic comparison: [<[u8] as Ord>::cmp] *)

Fixpoint bytes_cmp (a b : bytes) : comparison :=
  match a, b with
  | [], [] => Eq
  | [], _ :: _ => Lt
  | _ :: _, [] => Gt
  | x :: a, y :: b =>
      match x ?= y with Eq => bytes_cmp a b | c => c end
  end.

Definition ord_then (c d : comparison) : comparison :=
  match c with Eq => d | _ => c end.

Definition bytes_lt (a b : bytes) : Prop := bytes_cmp a b = Lt.

Lemma bytes_cmp_eq a b : bytes_cmp a b = Eq ↔ a = b.
Proof.
  revert b. induction a as [|x a IH]; intros [|y b]; simpl; try done.
  destruct (Z.compare_spec x y) as [->|?|?].
  - rewrite IH. naive_solver.
  - split; [done|]. intros [= -> ->]. lia.
  - split; [done|]. intros [= -> ->]. lia.
Qed.
Lemma bytes_cmp_refl a : bytes_cmp a a = Eq.
Proof. by apply bytes_cmp_eq. Qed.
Lemma bytes_cmp_antisym a b : bytes_cmp b a = CompOpp (bytes_cmp a b).
Proof.
  revert b. induction a as [|x a IH]; intros [|y b]; simpl; try done.
  rewrite (Z.compare_antisym x y). destruct (x ?= y); simpl; auto.
Qed.
Lemma bytes_cmp_gt a b : bytes_cmp a b = Gt ↔ bytes_lt b a.
Proof.
  unfold bytes_lt. rewrite (bytes_cmp_antisym a b).
  destruct (bytes_cmp a b); naive_solver.
Qed.
#[global] Instance bytes_lt_trans : Transitive bytes_lt.
Proof.
  unfold bytes_lt. intros a. induction a as [|x a IH]; intros [|y b] [|z c];
    simpl; try done.
  destruct (Z.compare_spec x y), (Z.compare_spec y z); subst; intros; try done.
  - rewrite Z.compare_refl. eauto.
  - by rewrite (proj2 (Z.compare_lt_iff _ _)).
  - by rewrite (proj2 (Z.compare_lt_iff _ _)).
  - by rewrite (proj2 (Z.compare_lt_iff x z)) by lia.
Qed.
#[global] Instance bytes_lt_irrefl : Irreflexive bytes_lt.
Proof. intros a Ha. unfold bytes_lt in Ha. by rewrite bytes_cmp_refl in Ha. Qed.

(** ** Big-endian integers: [uN::to_be_bytes] and [uN::from_be_bytes] *)

Fixpoint be_val_acc (acc : Z) (l : bytes) : Z :=
  match l with [] => acc | b :: l => be_val_acc (acc * 256 + b) l end.
Definition be_val (l : bytes) : Z := be_val_acc 0 l.
Fixpoint be_bytes (n : nat) (z : Z) : bytes :=
  match n with
  | O => []
  | S n => be_bytes n (z / 256) ++ [z mod 256]
  end.

Lemma length_be_bytes n z : length (be_bytes n z) = n.
Proof.
  revert z. induction n as [|n IH]; intros z; simpl; [done|].
  rewrite length_app, IH. simpl. lia.
Qed.
Lemma is_bytes_be_bytes n z : is_bytes (be_bytes n z).
Proof.
  revert z. induction n as [|n IH]; intros z; simpl; [constructor|].
  apply Forall_app. split; [done|]. constructor; [|constructor].
  apply Z.mod_pos_bound. lia.
Qed.
Lemma be_val_acc_app acc l1 l2 :
  be_val_acc acc (l1 ++ l2) = be_val_acc (be_val_acc acc l1) l2.
Proof. revert acc. induction l1 as [|b l1 IH]; intros acc; simpl; auto. Qed.
Lemma be_val_be_bytes n z :
  0 ≤ z < 256 ^ Z.of_nat n → be_val (be_bytes n z) = z.
Proof.
  revert z. induction n as [|n IH]; intros z Hz.
  - simpl in *. unfold be_val. simpl. lia.
  - cbn [be_bytes]. unfold be_val in *. rewrite be_val_acc_app, IH.
    + simpl. pose proof (Z.div_mod z 256). lia.
    + rewrite Nat2Z.inj_succ, Z.pow_succ_r in Hz by lia. split.
      * apply Z.div_pos; lia.
      * apply Z.div_lt_upper_bound; lia.
Qed.
Lemma be_val_acc_bound l acc :
  is_bytes l → 0 ≤ acc →
  0 ≤ be_val_acc acc l < (acc + 1) * 256 ^ Z.of_nat (length l).
Proof.
  intros Hl. revert acc. induction Hl as [|b l Hb _ IH]; intros acc Hacc.
  - simpl. lia.
  - cbn [be_val_acc length]. rewrite Nat2Z.inj_succ, Z.pow_succ_r by lia.
    specialize (IH (acc * 256 + b)). nia.
Qed.
Lemma be_val_bound l :
  is_bytes l → 0 ≤ be_val l < 256 ^ Z.of_nat (length l).
Proof. intros Hl. pose proof (be_val_acc_bound l 0 Hl). unfold be_val. lia. Qed.

(** ** Bits of bytes *)

Lemma land_127 z : Z.land z 127 = z mod 128.
Proof. change 127 with (Z.ones 7). by rewrite Z.land_ones by lia. Qed.
Lemma land_15 z : Z.land z 15 = z mod 16.
Proof. change 15 with (Z.ones 4). by rewrite Z.land_ones by lia. Qed.
Lemma land_255 z : Z.land z 255 = z mod 256.
Proof. change 255 with (Z.ones 8). by rewrite Z.land_ones by lia. Qed.
Lemma land_7 z : Z.land z 7 = z mod 8.
Proof. change 7 with (Z.ones 3). by rewrite Z.land_ones by lia. Qed.

Lemma mod_add_self a m : m ≠ 0 → (a mod m + m) mod m = a mod m.
Proof.
  intros. replace (a mod m + m) with (a mod m + 1 * m) by lia.
  by rewrite Z.mod_add, Z.mod_mod.
Qed.

(** Bits that do not overlap are added. *)
Lemma lor_shifted a b k :
  0 ≤ k → 0 ≤ a < 2 ^ k → Z.lor a (b * 2 ^ k) = a + b * 2 ^ k.
Proof.
  intros Hk Ha. symmetry. apply Z.add_nocarry_lor. apply Z.bits_inj'.
  intros n Hn. rewrite Z.land_spec, Z.bits_0.
  destruct (Z.lt_ge_cases n k).
  - rewrite (Z.mul_pow2_bits_low b k n) by lia. apply andb_false_r.
  - rewrite <- (Z.mod_small a (2 ^ k)) by lia.
    by rewrite Z.mod_pow2_bits_high by lia.
Qed.

(** A property of bytes that a boolean test can decide is checked on all of
    them. *)
Definition all_bytes : bytes := Z.of_nat <$> seq 0 256.
Lemma byte_forall (f : Z → bool) :
  forallb f all_bytes = true → ∀ b, u8 b → f b = true.
Proof.
  rewrite forallb_forall. intros H b Hb. apply H. apply list_elem_of_In.
  unfold all_bytes. apply list_elem_of_fmap. exists (Z.to_nat b).
  split; [lia|]. apply elem_of_seq. lia.
Qed.
(** Decide a closed statement about one byte by enumeration: the goal must be
    an equation between booleans or integers that computes. *)
Ltac byte_enum b Hb :=
  let H := fresh in
  lazymatch goal with
  | |- ?l = ?r :> bool =>
      pattern b;
      match goal with |- ?P b =>
        let f := constr:(λ b : Z, Bool.eqb
                   ltac:(let t := eval cbv beta in (P b) in
                         match t with ?x = _ => exact x end)
                   ltac:(let t := eval cbv beta in (P b) in
                         match t with _ = ?y => exact y end)) in
        apply Bool.eqb_prop; apply (byte_forall f); [vm_compute; reflexivity|exact Hb]
      end
  | |- ?l = ?r :> Z =>
      pattern b;
      match goal with |- ?P b =>
        let f := constr:(λ b : Z, Z.eqb
                   ltac:(let t := eval cbv beta in (P b) in
                         match t with ?x = _ => exact x end)
                   ltac:(let t := eval cbv beta in (P b) in
                         match t with _ = ?y => exact y end)) in
        apply Z.eqb_eq; apply (byte_forall f); [vm_compute; reflexivity|exact Hb]
      end
  end.

Lemma land_128 b : u8 b → (Z.land b 128 =? 0) = (b <? 128).
Proof. intros Hb. byte_enum b Hb. Qed.
Lemma lor_128 b : 0 ≤ b < 128 → Z.lor b 128 = b + 128.
Proof.
  intros Hb. assert (H : u8 b) by lia.
  enough ((b <? 128) = false ∨ Z.lor b 128 = b + 128) as [?|?]; [lia|done|].
  destruct (b <? 128) eqn:E; [right|by left].
  enough ((negb (b <? 128) || (Z.lor b 128 =? b + 128)) = true) as He.
  { rewrite E in He. simpl in He. by apply Z.eqb_eq. }
  byte_enum b H.
Qed.

(** ** ASCII classes: the [u8::is_ascii_*] and [to_ascii_*] methods *)

Definition between (lo hi b : Z) : bool := (lo <=? b) && (b <=? hi).
Definition is_ascii_digit (b : Z) : bool := between (ch "0") (ch "9") b.
Definition is_ascii_uppercase (b : Z) : bool := between (ch "A") (ch "Z") b.
Definition is_ascii_lowercase (b : Z) : bool := between (ch "a") (ch "z") b.
Definition is_ascii_alphabetic (b : Z) : bool :=
  is_ascii_uppercase b || is_ascii_lowercase b.
Definition is_ascii_alphanumeric (b : Z) : bool :=
  is_ascii_alphabetic b || is_ascii_digit b.
Definition is_ascii_hexdigit (b : Z) : bool :=
  is_ascii_digit b || between (ch "A") (ch "F") b || between (ch "a") (ch "f") b.
(** space, tab, line feed, form feed, carriage return *)
Definition is_ascii_whitespace (b : Z) : bool :=
  (b =? 32) || (b =? 9) || (b =? 10) || (b =? 12) || (b =? 13).
Definition is_ascii_control (b : Z) : bool := between 0 31 b || (b =? 127).
Definition is_ascii_graphic (b : Z) : bool := between 33 126 b.
Definition is_ascii_punctuation (b : Z) : bool :=
  is_ascii_graphic b && negb (is_ascii_alphanumeric b).
Definition to_ascii_lowercase (b : Z) : Z :=
  if is_ascii_uppercase b then b + 32 else b.
Definition to_ascii_uppercase (b : Z) : Z :=
  if is_ascii_lowercase b then b - 32 else b.
Definition eq_ignore_ascii_case (a b : bytes) : bool :=
  bool_decide (to_ascii_lowercase <$> a = to_ascii_lowercase <$> b).

(** [x ∈ s] for bytes, as a boolean. *)
Definition mem (x : Z) (s : bytes) : bool := existsb (Z.eqb x) s.
Lemma mem_spec x s : mem x s = true ↔ x ∈ s.
Proof.
  unfold mem. rewrite existsb_exists. setoid_rewrite Z.eqb_eq.
  setoid_rewrite <- list_elem_of_In. naive_solver.
Qed.

(** ** Automation *)

(** Case analysis on the boolean comparisons and tests of the context. *)
Ltac bool_simpl :=
  repeat match goal with
  | H : _ && _ = true |- _ => apply andb_true_iff in H as [? ?]
  | H : _ || _ = false |- _ => apply orb_false_iff in H as [? ?]
  | H : negb _ = true |- _ => apply negb_true_iff in H
  | H : negb _ = false |- _ => apply negb_false_iff in H
  | H : (_ =? _) = true |- _ => apply Z.eqb_eq in H
  | H : (_ =? _) = false |- _ => apply Z.eqb_neq in H
  | H : (_ <? _) = true |- _ => apply Z.ltb_lt in H
  | H : (_ <? _) = false |- _ => apply Z.ltb_ge in H
  | H : (_ <=? _) = true |- _ => apply Z.leb_le in H
  | H : (_ <=? _) = false |- _ => apply Z.leb_gt in H
  | H : (_ =? _)%nat = true |- _ => apply Nat.eqb_eq in H
  | H : (_ =? _)%nat = false |- _ => apply Nat.eqb_neq in H
  | H : (_ <? _)%nat = true |- _ => apply Nat.ltb_lt in H
  | H : (_ <? _)%nat = false |- _ => apply Nat.ltb_ge in H
  | H : (_ <=? _)%nat = true |- _ => apply Nat.leb_le in H
  | H : (_ <=? _)%nat = false |- _ => apply Nat.leb_gt in H
  end.

(** Split a successful monadic computation into its steps. *)
Ltac res_inv :=
  repeat match goal with
  | H : mbind _ _ = Ok _ |- _ => apply bind_ok in H as (? & ? & ?)
  | H : fmap _ _ = @Ok _ _ _ |- _ => apply fmap_ok in H as (? & ? & ?)
  | H : Ok _ = Ok _ |- _ => injection H as H
  | H : Err _ = Ok _ |- _ => discriminate H
  | H : Panic = Ok _ |- _ => discriminate H
  | H : Some _ = Some _ |- _ => injection H as H
  | H : None = Some _ |- _ => discriminate H
  | H : Some _ = None |- _ => discriminate H
  end; subst.

Create HintDb gix discriminated.
Create Rewrite HintDb gix_len.
#[export] Hint Resolve is_bytes_be_bytes : gix.
#[export] Hint Rewrite @length_be_bytes @length_app @length_cons @length_nil
  @length_fmap @length_take @length_drop : gix_len.

(** [len] normalises list lengths and calls [lia]. *)
Ltac len := autorewrite with gix_len in *; simpl in *; lia.
(** Closed decidable goals, by evaluation. *)
Ltac by_decision := refine (bool_decide_unpack _ _); vm_compute; exact I.
