(* ===== verification/Slices.v ===== *)
(** * Slices of the standard library

    Binary search, partition points and stable sorting of slices, with what
    the models of sorted tables need: a search in a list of which the elements
    compare less first, then equal, then greater; sorted permutations; the
    order of byte strings and their common prefixes. *)

From S2P Require Import Prelude.

(** ** Operations *)

(** [slice.binary_search_by(f)]: [f] is a closure that may change the
    variables [S] it captured.  The interval halves, so its length bounds the
    rounds. *)
Section BinarySearch.
Context {S A : Type} (f : S → A → res Empty_set (S * comparison)) (l : list A).
Fixpoint binary_search_loop (fuel : nat) (s : S) (left right : nat)
  : res Empty_set (S * (nat + nat)) :=
  match fuel with
  | O => Ok (s, inr left)
  | Datatypes.S fuel =>
      if (left <? right)%nat then
        let mid := (left + (right - left) / 2)%nat in
        x ← expect (l !! mid);
        '(s, c) ← f s x;
        match c with
        | Lt => binary_search_loop fuel s (mid + 1) right
        | Gt => binary_search_loop fuel s left mid
        | Eq => Ok (s, inl mid)
        end
      else Ok (s, inr left)
  end.
Definition binary_search_by (s : S) : res Empty_set (S * (nat + nat)) :=
  binary_search_loop (Datatypes.S (length l)) s 0 (length l).
End BinarySearch.
(** [Vec::insert], [Vec::remove] and [Vec::drain(range)], with what is drained. *)
Definition vec_insert {E A} (i : nat) (x : A) (l : list A) : res E (list A) :=
  if (i <=? length l)%nat then Ok (take i l ++ x :: drop i l) else Panic.
Definition vec_remove {E A} (i : nat) (l : list A) : res E (list A) :=
  if (i <? length l)%nat then Ok (delete i l) else Panic.
Definition vec_drain {E A} (a b : nat) (l : list A) : res E (list A * list A) :=
  if ((a <=? b) && (b <=? length l))%nat then Ok (take (b - a) (drop a l), take a l ++ drop b l) else Panic.
(** [slice.partition_point(pred)]. *)
Definition partition_point {A} (pred : A → res Empty_set bool) (l : list A) : res Empty_set nat :=
  '(_, r) ← binary_search_by (λ _ x, b ← pred x; Ok (tt, if (b : bool) then Lt else Gt)) l tt;
  Ok (match r with inl i | inr i => i end).
(** [slice.sort_by(cmp)], which is stable; the comparison of elements with
    keys. *)
Fixpoint insert_by {A} (cmp : A → A → comparison) (x : A) (l : list A) : list A :=
  match l with
  | [] => [x]
  | y :: l => match cmp x y with Gt => y :: insert_by cmp x l | _ => x :: y :: l end
  end.
Definition sort_by {A} (cmp : A → A → comparison) (l : list A) : list A := foldr (insert_by cmp) [] l.

(** [a <= b] and [a < b] on byte strings. *)
Definition bytes_leb (a b : bytes) : bool := match bytes_cmp a b with Gt => false | _ => true end.
Definition bytes_ltb (a b : bytes) : bool := match bytes_cmp a b with Lt => true | _ => false end.

(** ** Lemmas *)

(** Binary search in a list of which the elements compare [Lt] first, then
    [Eq], then [Gt]. *)
Definition monotone {A} (cmp : A → comparison) (l : list A) : Prop :=
  ∀ i j x y, (i < j)%nat → l !! i = Some x → l !! j = Some y →
    (cmp y = Lt → cmp x = Lt) ∧ (cmp x = Gt → cmp y = Gt).

Section Search.
Context {S A : Type} (f : S → A → res Empty_set (S * comparison)) (l : list A).
Context (cmp : A → comparison) (upd : S → A → S).
Hypothesis Hf : ∀ s x, x ∈ l → f s x = Ok (upd s x, cmp x).
Hypothesis Hmono : monotone cmp l.

(** A hit, with the closure called last for the element that was hit; or the
    place where the elements that compare [Lt] end. *)
Definition search_result (r : S * (nat + nat)) : Prop :=
  match r.2 with
  | inl i => ∃ x s, l !! i = Some x ∧ cmp x = Eq ∧ r.1 = upd s x
  | inr i => (i ≤ length l)%nat ∧ ∀ j x, l !! j = Some x → cmp x = if (j <? i)%nat then Lt else Gt
  end.

Lemma binary_search_loop_spec fuel s left right :
  (left ≤ right)%nat → (right ≤ length l)%nat → (right - left < fuel)%nat →
  (∀ j x, (j < left)%nat → l !! j = Some x → cmp x = Lt) →
  (∀ j x, (right ≤ j)%nat → l !! j = Some x → cmp x = Gt) →
  ∃ r, binary_search_loop f l fuel s left right = Ok r ∧ search_result r.
Proof.
  revert s left right. induction fuel as [|fuel IH]; intros s left right Hlr Hr Hfuel Hlt Hgt; [lia|].
  cbn [binary_search_loop]. destruct (Nat.ltb_spec left right) as [Hlt'|Hge].
  - set (mid := (left + (right - left) / 2)%nat).
    assert (Hmid : (left ≤ mid < right)%nat).
    { unfold mid. pose proof (Nat.div_lt (right - left) 2). lia. }
    destruct (lookup_lt_is_Some_2 l mid) as [x Hx]; [lia|]. rewrite Hx. cbn [expect]. rewrite bind_Ok.
    rewrite Hf by (by eapply list_elem_of_lookup_2). rewrite bind_Ok.
    destruct (cmp x) eqn:Hc.
    + eexists. split; [done|]. exists x, s. done.
    + apply IH; [lia|lia|lia| |done]. intros j y Hj Hy.
      destruct (decide (j = mid)) as [->|]; [congruence|].
      destruct (Hmono j mid y x) as [Hl _]; [lia|done|done|]. by apply Hl.
    + apply IH; [lia|lia|lia|done|]. intros j y Hj Hy.
      destruct (decide (j = mid)) as [->|]; [congruence|].
      destruct (Hmono mid j x y) as [_ Hg]; [lia|done|done|]. by apply Hg.
  - eexists. split; [done|]. unfold search_result. cbn [snd]. split; [lia|]. intros j x Hx.
    destruct (Nat.ltb_spec j left); [by eapply Hlt|]. eapply Hgt; [|done]. lia.
Qed.
Lemma binary_search_spec s : ∃ r, binary_search_by f l s = Ok r ∧ search_result r.
Proof.
  unfold binary_search_by. apply binary_search_loop_spec; [lia|lia|lia|lia|].
  intros j x Hj Hx. apply lookup_lt_Some in Hx. lia.
Qed.
End Search.

(** What every call of the closure keeps holds at the end. *)
Lemma binary_search_loop_state {S A} (f : S → A → res Empty_set (S * comparison)) (P : S → Prop) l fuel s left right r :
  (∀ s x s' c, x ∈ l → P s → f s x = Ok (s', c) → P s') → P s → binary_search_loop f l fuel s left right = Ok r → P r.1.
Proof.
  intros Hf. revert s left right. induction fuel as [|fuel IH]; intros s left right Hs; cbn [binary_search_loop]; [by intros [= <-]|].
  destruct (left <? right)%nat; [|by intros [= <-]]. destruct (l !! _) as [x|] eqn:Hx; [|done]. cbn [expect]. rewrite bind_Ok.
  destruct (f s x) as [[s' c]|[]|] eqn:E; [|done]. rewrite bind_Ok. apply list_elem_of_lookup_2 in Hx. pose proof (Hf _ _ _ _ Hx Hs E).
  destruct c; [by intros [= <-]|by apply IH..].
Qed.
Lemma partition_point_spec {A} (pred : A → res Empty_set bool) (p : A → bool) l :
  (∀ x, x ∈ l → pred x = Ok (p x)) →
  (∀ i j x y, (i < j)%nat → l !! i = Some x → l !! j = Some y → p y = true → p x = true) →
  ∃ n, partition_point pred l = Ok n ∧ (n ≤ length l)%nat ∧
    ∀ j x, l !! j = Some x → p x = (j <? n)%nat.
Proof.
  intros Hp Hmono. unfold partition_point.
  destruct (binary_search_spec (λ _ x, b ← pred x; Ok (tt, if (b : bool) then Lt else Gt)) l
    (λ x, if p x then Lt else Gt) (λ _ _, tt)) with (s := tt) as ([[] r] & -> & Hr).
  - intros [] x Hx. by rewrite Hp.
  - intros i j x y Hij Hx Hy. specialize (Hmono i j x y Hij Hx Hy).
    destruct (p x), (p y); naive_solver.
  - rewrite bind_Ok. destruct r as [i|i]; unfold search_result in Hr; cbn [snd fst] in Hr.
    + destruct Hr as (x & _ & _ & Hc & _). by destruct (p x).
    + exists i. destruct Hr as [Hi Hall]. split_and!; [done|done|]. intros j x Hx.
      specialize (Hall j x Hx). by destruct (p x), (j <? i)%nat.
Qed.

Lemma StronglySorted_at {A} (R : A → A → Prop) l i j x y :
  StronglySorted R l → (i < j)%nat → l !! i = Some x → l !! j = Some y → R x y.
Proof.
  intros Hs. revert i j. induction Hs as [|z l Hs IH Hz]; intros i j Hij Hi Hj; [done|].
  destruct j as [|j]; [lia|]. cbn in Hj. destruct i as [|i]; cbn in Hi.
  - simplify_eq. by eapply Forall_lookup_1.
  - eapply IH; [|done|done]. lia.
Qed.

Lemma StronglySorted_by_lookup {A} (R : A → A → Prop) l :
  (∀ i j x y, (i < j)%nat → l !! i = Some x → l !! j = Some y → R x y) → StronglySorted R l.
Proof.
  induction l as [|x l IH]; intros H; constructor.
  - apply IH. intros i j y z Hij Hy Hz. apply (H (S i) (S j)); [lia|done|done].
  - apply Forall_lookup. intros i y Hy. apply (H 0%nat (S i)); [lia|done|done].
Qed.

(** Insertion keeps a list sorted. *)
Section SortBy.
Context {A : Type} (cmp : A → A → comparison).
Hypothesis Hanti : ∀ a b, cmp a b = Gt → cmp b a ≠ Gt.
Hypothesis Htrans : Transitive (λ a b, cmp a b ≠ Gt).
Lemma insert_by_perm x l : insert_by cmp x l ≡ₚ x :: l.
Proof.
  induction l as [|y l IH]; [done|]. cbn. destruct (cmp x y); [done..|]. rewrite IH. by constructor.
Qed.
Lemma insert_by_sorted x l :
  StronglySorted (λ a b, cmp a b ≠ Gt) l → StronglySorted (λ a b, cmp a b ≠ Gt) (insert_by cmp x l).
Proof.
  induction 1 as [|y l Hs IH Hy]; [repeat constructor|]. cbn.
  assert (Hhead : cmp x y ≠ Gt → StronglySorted (λ a b, cmp a b ≠ Gt) (x :: y :: l)).
  { intros Hxy. constructor; [by constructor|]. constructor; [done|].
    eapply Forall_impl; [exact Hy|]. intros z Hz. by eapply Htrans. }
  destruct (cmp x y) eqn:E; [by apply Hhead..|]. constructor; [done|].
  rewrite insert_by_perm. constructor; [by apply Hanti|done].
Qed.
Lemma sort_by_perm l : sort_by cmp l ≡ₚ l.
Proof. induction l as [|x l IH]; [done|]. cbn. by rewrite insert_by_perm, IH. Qed.
Lemma sort_by_sorted l : StronglySorted (λ a b, cmp a b ≠ Gt) (sort_by cmp l).
Proof. induction l as [|x l IH]; [constructor|]. by apply insert_by_sorted. Qed.
End SortBy.

Lemma StronglySorted_fmap {A B} (R : B → B → Prop) (f : A → B) l :
  StronglySorted (λ a b, R (f a) (f b)) l ↔ StronglySorted R (f <$> l).
Proof.
  induction l as [|x l IH]; [split; constructor|]. rewrite fmap_cons. split.
  - intros [Hs Hx]%StronglySorted_inv. constructor; [by apply IH|]. by apply Forall_fmap.
  - intros [Hs Hx]%StronglySorted_inv. constructor; [by apply IH|]. by rewrite Forall_fmap in Hx.
Qed.

(** ** The order of byte strings *)

(** [p] is not after [q]. *)
Definition bytes_le (p q : bytes) : Prop := bytes_cmp p q ≠ Gt.
Lemma bytes_le_iff p q : bytes_le p q ↔ p = q ∨ bytes_lt p q.
Proof.
  unfold bytes_le, bytes_lt. rewrite <- bytes_cmp_eq. destruct (bytes_cmp p q); naive_solver.
Qed.
Lemma bytes_le_lt_trans p q r : bytes_le p q → bytes_lt q r → bytes_lt p r.
Proof. intros [->|?]%bytes_le_iff ?; [done|by etrans]. Qed.
Lemma bytes_lt_le_trans p q r : bytes_lt p q → bytes_le q r → bytes_lt p r.
Proof. intros ? [<-|?]%bytes_le_iff; [done|by etrans]. Qed.
#[global] Instance bytes_le_trans : Transitive bytes_le.
Proof.
  intros p q r [->|Hpq]%bytes_le_iff Hqr; [done|]. apply bytes_le_iff. right. by eapply bytes_lt_le_trans.
Qed.
Lemma bytes_le_antisym p q : bytes_le p q → bytes_le q p → p = q.
Proof.
  intros [->|Hpq]%bytes_le_iff Hqp; [done|]. by destruct (irreflexivity bytes_lt p (bytes_lt_le_trans _ _ _ Hpq Hqp)).
Qed.
(** Sorting by distinct keys is strict. *)
Lemma sort_by_keys {A} (key : A → bytes) l : NoDup (key <$> l) →
  StronglySorted bytes_lt (key <$> sort_by (λ a b, bytes_cmp (key a) (key b)) l).
Proof.
  intros Hd. set (cmp := λ a b, bytes_cmp (key a) (key b)).
  assert (Hs : StronglySorted (λ a b, bytes_le (key a) (key b)) (sort_by cmp l)).
  { apply sort_by_sorted; unfold cmp.
    - intros a b H. rewrite bytes_cmp_antisym, H. done.
    - intros a b c. apply (transitivity (R := bytes_le)). }
  rewrite (StronglySorted_fmap bytes_le key) in Hs. rewrite <- (sort_by_perm cmp l) in Hd.
  induction Hs as [|k ks Hs IH Hk]; [constructor|]. apply NoDup_cons in Hd as [Hk' Hd]. constructor; [by apply IH|].
  rewrite Forall_forall in *. intros x Hx. destruct (proj1 (bytes_le_iff _ _) (Hk x Hx)) as [->|]; [done|done].
Qed.
Lemma bytes_not_lt p q : ¬ bytes_lt p q ↔ bytes_le q p.
Proof.
  unfold bytes_le. rewrite bytes_cmp_antisym. unfold bytes_lt. destruct (bytes_cmp p q); naive_solver.
Qed.
Lemma bytes_ltb_iff p q : bytes_ltb p q = true ↔ bytes_lt p q.
Proof. unfold bytes_ltb, bytes_lt. destruct (bytes_cmp p q); naive_solver. Qed.
Lemma bytes_leb_iff p q : bytes_leb p q = true ↔ bytes_le p q.
Proof. unfold bytes_leb, bytes_le. destruct (bytes_cmp p q); naive_solver. Qed.

(** Strings with a common prefix are an interval. *)
Lemma bytes_cmp_common p a b : bytes_cmp (p ++ a) (p ++ b) = bytes_cmp a b.
Proof. induction p as [|x p IH]; [done|]. cbn. by rewrite Z.compare_refl. Qed.
Lemma bytes_le_prefix p q : p `prefix_of` q → bytes_le p q.
Proof.
  intros [t ->]. rewrite <- (app_nil_r p) at 1. unfold bytes_le. rewrite bytes_cmp_common. by destruct t.
Qed.
Lemma prefix_interval d p q : bytes_le d p → bytes_le p q → d `prefix_of` q → d `prefix_of` p.
Proof.
  intros Hdp Hpq [t ->]. revert p Hdp Hpq. induction d as [|x d IH]; intros p Hdp Hpq; [apply prefix_nil|].
  destruct p as [|y p]; [done|]. unfold bytes_le in *. cbn in Hdp, Hpq.
  rewrite (Z.compare_antisym x y) in Hpq. revert Hdp Hpq.
  destruct (Z.compare_spec x y) as [->|?|?]; cbn; intros Hdp Hpq; [|done..].
  by apply prefix_cons, IH.
Qed.
Lemma take_lt p d : (length d ≤ length p)%nat → bytes_ltb (take (length d) p) d = bytes_ltb p d.
Proof.
  unfold bytes_ltb. revert p. induction d as [|x d IH]; intros [|y p] H; cbn in *; try lia; [done..|].
  destruct (y ?= x); [|done..]. apply IH. lia.
Qed.
Lemma short_le p d : (length p < length d)%nat → bytes_leb p (take (length p) d) = bytes_ltb p d.
Proof.
  unfold bytes_ltb, bytes_leb. revert d. induction p as [|y p IH]; intros [|x d] H; cbn in *; try lia; [done..|].
  destruct (y ?= x); [|done..]. apply IH. lia.
Qed.
Lemma take_le_prefix p d : (length d ≤ length p)%nat → bytes_le d p →
  bytes_leb (take (length d) p) d = true ↔ d `prefix_of` p.
Proof.
  intros Hl Hdp. rewrite bytes_leb_iff. split.
  - intros Hle. assert (Heq : take (length d) p = d).
    { apply bytes_le_antisym; [done|]. apply bytes_not_lt. intros Hlt%bytes_ltb_iff.
      rewrite take_lt in Hlt by done. apply bytes_ltb_iff in Hlt. by apply bytes_not_lt in Hdp. }
    exists (drop (length d) p). by rewrite <- Heq at 1; rewrite take_drop.
  - intros [t ->]. rewrite take_app_length. unfold bytes_le. by rewrite bytes_cmp_refl.
Qed.
