(* ===== verification/External.v ===== *)
(** * Third-party crates

    The crates below are not part of the repository.  Each is an interface: a
    class of the operations the code calls and a class of the documented
    behaviour it relies on.  The models take the operations as parameters,
    the theorems assume the laws, and the instances at the end of this file
    satisfy them, so that the theorems apply to concrete inputs. *)

From S2P Require Import Prelude.

(** ** Hexadecimal digits *)

(** The lower-case digit of a nibble, and the value of a digit of either
    case. *)
Definition hex_digit (n : Z) : Z := if n <? 10 then ch "0" + n else ch "a" + (n - 10).
Definition hex_val (c : Z) : option Z :=
  if between (ch "0") (ch "9") c then Some (c - ch "0")
  else if between (ch "a") (ch "f") c then Some (c - ch "a" + 10)
  else if between (ch "A") (ch "F") c then Some (c - ch "A" + 10)
  else None.

(** The two nibbles of every byte, most significant first. *)
Fixpoint nibbles (d : bytes) : list Z :=
  match d with [] => [] | b :: d => b / 16 :: b mod 16 :: nibbles d end.
Definition hex (d : bytes) : bytes := hex_digit <$> nibbles d.

(** Decode digit pairs; [None] for a character that is not a digit or a
    digit without a partner. *)
Fixpoint unhex (s : bytes) : option bytes :=
  match s with
  | [] => Some []
  | h :: l :: s =>
      h ← hex_val h; l ← hex_val l; d ← unhex s; Some (h * 16 + l :: d)
  | [_] => None
  end.

(** ** [faster_hex] *)

Module faster_hex.

Inductive Error := InvalidChar | InvalidLength (n : nat) | Overflow.

(** [hex_encode(src, dst)] with a [dst] of twice the length of [src], and
    [hex_decode(src, dst)] with a [dst] of half of it: the content of [dst]. *)
Class Api := {
  hex_encode : bytes → bytes;
  hex_decode : bytes → res Error bytes }.

(** Lower-case output; mixed-case input, where a non-digit is an
    [InvalidChar]. *)
Class Laws `{!Api} : Prop := {
  hex_encode_spec d : is_bytes d → hex_encode d = hex d;
  hex_decode_spec s :
    Nat.even (length s) = true →
    hex_decode s = match unhex s with Some d => Ok d | None => Err InvalidChar end }.

End faster_hex.

(** ** [bstr]: searching in byte strings *)

Module bstr.

Class Api := {
  find_byte : bytes → Z → option nat;
  rfind_byte : bytes → Z → option nat;
  find_byteset : bytes → bytes → option nat;
  find : bytes → bytes → option nat;
  rfind : bytes → bytes → option nat;
  chars : bytes → list Z;
  split_str : bytes → bytes → list bytes;
  lines : bytes → list bytes }.

(** [chars] decodes UTF-8 to code points, with a replacement for what is not
    valid; of its behaviour only that on ASCII text is used. *)

(** The last index with a property. *)
Fixpoint rfind_index {A} (f : A → bool) (l : list A) : option nat :=
  match l with
  | [] => None
  | x :: l =>
      match rfind_index f l with
      | Some i => Some (S i)
      | None => if f x then Some 0%nat else None
      end
  end.
(** The first index at which [p] starts. *)
Fixpoint find_sub (l p : bytes) : option nat :=
  if starts_with l p then Some 0%nat
  else match l with [] => None | _ :: l => S <$> find_sub l p end.

(** The pieces between the occurrences of a byte. *)
Fixpoint split_byte (b : Z) (s : bytes) : list bytes :=
  match s with
  | [] => [[]]
  | c :: s =>
      if c =? b then [] :: split_byte b s
      else match split_byte b s with l :: ls => (c :: l) :: ls | [] => [[c]] end
  end.
(** Lines end in a newline, with or without a carriage return; the last one may
    lack it. *)
Definition strip_cr (l : bytes) : bytes :=
  match last l with Some 13 => removelast l | _ => l end.
Definition lines_of (s : bytes) : list bytes :=
  let parts := split_byte 10 s in
  (strip_cr <$> removelast parts) ++ match last parts with Some (c :: l) => [c :: l] | _ => [] end.

Class Laws `{!Api} : Prop := {
  split_str_spec s b : split_str s [b] = split_byte b s;
  lines_spec s : lines s = lines_of s;
  find_byte_spec s b : find_byte s b = find_index (Z.eqb b) s;
  rfind_byte_spec s b : rfind_byte s b = rfind_index (Z.eqb b) s;
  find_byteset_spec s set : find_byteset s set = find_index (λ b, mem b set) s;
  find_spec s p : find s p = find_sub s p;
  rfind_spec s b : rfind s [b] = rfind_index (Z.eqb b) s;
  chars_ascii s : Forall (λ b, 0 ≤ b < 128) s → chars s = s }.

End bstr.

(** ** [itoa]: integers as text *)

Module itoa.

(** [Buffer::format(n)]. *)
Class Api := { format : Z → bytes }.

(** The decimal digits of a number, without leading zeros; [fuel] bounds their
    number. *)
Fixpoint digits (fuel : nat) (n : Z) (acc : bytes) : bytes :=
  let acc := ch "0" + n mod 10 :: acc in
  match fuel with
  | O => acc
  | S fuel => if n <? 10 then acc else digits fuel (n / 10) acc
  end.
(** A machine integer has at most twenty digits. *)
Definition decimal (n : Z) : bytes :=
  if n <? 0 then ch "-" :: digits 20 (- n) [] else digits 20 n [].

Class Laws `{!Api} : Prop := {
  format_spec n : - 2 ^ 63 ≤ n < 2 ^ 64 → format n = decimal n }.

End itoa.

(** ** Instances *)

Definition hex_impl : faster_hex.Api := {|
  faster_hex.hex_encode := hex;
  faster_hex.hex_decode s :=
    if Nat.even (length s) then
      match unhex s with Some d => Ok d | None => Err faster_hex.InvalidChar end
    else Err (faster_hex.InvalidLength (length s)) |}.
Lemma hex_impl_laws : @faster_hex.Laws hex_impl.
Proof. split; simpl; [done|]. intros s Hs. by rewrite Hs. Qed.

Definition bstr_impl : bstr.Api := {|
  bstr.find_byte s b := find_index (Z.eqb b) s;
  bstr.rfind_byte s b := bstr.rfind_index (Z.eqb b) s;
  bstr.find_byteset s set := find_index (λ b, mem b set) s;
  bstr.find := bstr.find_sub;
  bstr.rfind s p := match p with [b] => bstr.rfind_index (Z.eqb b) s | _ => None end;
  bstr.chars s := s;
  bstr.split_str s p := match p with [b] => bstr.split_byte b s | _ => [s] end;
  bstr.lines := bstr.lines_of |}.
Lemma bstr_impl_laws : @bstr.Laws bstr_impl.
Proof. by split. Qed.

Definition itoa_impl : itoa.Api := {| itoa.format := itoa.decimal |}.
Lemma itoa_impl_laws : @itoa.Laws itoa_impl.
Proof. by split. Qed.

(** ** Lemmas on decimal numbers *)

Definition is_dec (c : Z) : Prop := ch "0" ≤ c ≤ ch "9".
(** The digits in front of [acc] and their value. *)
Lemma digits_spec fuel n acc :
  0 ≤ n < 10 ^ Z.of_nat (S fuel) →
  ∃ ds, itoa.digits fuel n acc = ds ++ acc ∧ ds ≠ [] ∧ Forall is_dec ds ∧
    foldl (λ v c, v * 10 + (c - ch "0")) 0 ds = n.
Proof.
  revert n acc. induction fuel as [|fuel IH]; intros n acc Hn; cbn [itoa.digits].
  - change (10 ^ Z.of_nat 1) with 10 in Hn. rewrite Z.mod_small by lia. exists [48 + n].
    split_and!; [done|done|repeat constructor; unfold is_dec; lia|cbn; lia].
  - destruct (Z.ltb_spec n 10).
    + rewrite Z.mod_small by lia. exists [48 + n].
      split_and!; [done|done|repeat constructor; unfold is_dec; lia|cbn; lia].
    + pose proof (Z.mod_pos_bound n 10). pose proof (Z.div_mod n 10).
      rewrite Nat2Z.inj_succ, Z.pow_succ_r in Hn by lia.
      destruct (IH (n / 10) (48 + n mod 10 :: acc)) as (ds & -> & Hne & Hds & Hv).
      { split; [apply Z.div_pos; lia|apply Z.div_lt_upper_bound; lia]. }
      exists (ds ++ [48 + n mod 10]). rewrite <- app_assoc. split_and!; [done|by destruct ds| |].
      * apply Forall_app. split; [done|]. repeat constructor; unfold is_dec; lia.
      * rewrite foldl_app, Hv. cbn. lia.
Qed.
Lemma decimal_digits n :
  0 ≤ n < 2 ^ 64 →
  itoa.decimal n ≠ [] ∧ Forall is_dec (itoa.decimal n) ∧
  foldl (λ v c, v * 10 + (c - ch "0")) 0 (itoa.decimal n) = n.
Proof.
  intros Hn. unfold itoa.decimal. rewrite (proj2 (Z.ltb_ge _ _)) by lia.
  destruct (digits_spec 20 n []) as (ds & -> & Hne & Hds & Hv).
  { split; [lia|]. change (10 ^ Z.of_nat 21) with 1000000000000000000000. lia. }
  by rewrite app_nil_r.
Qed.

(** ** Lemmas on hexadecimal *)

Lemma hex_val_digit n : 0 ≤ n < 16 → hex_val (hex_digit n) = Some n.
Proof.
  intros Hn. unfold hex_val, hex_digit, between.
  destruct (Z.ltb_spec n 10).
  - rewrite (proj2 (Z.leb_le _ _)), (proj2 (Z.leb_le _ _)) by lia. simpl. f_equal. lia.
  - rewrite (proj2 (Z.leb_gt (97 + (n - 10)) 57)), andb_false_r by lia.
    rewrite (proj2 (Z.leb_le _ _)), (proj2 (Z.leb_le _ _)) by lia. simpl. f_equal. lia.
Qed.
Lemma hex_digit_range n : 0 ≤ n < 16 → u8 (hex_digit n).
Proof. unfold hex_digit. destruct (Z.ltb_spec n 10); lia. Qed.
Lemma hex_val_range c n : hex_val c = Some n → 0 ≤ n < 16.
Proof.
  unfold hex_val, between. intros H. repeat case_match; bool_simpl; simplify_eq; lia.
Qed.

Lemma nibbles_range d : is_bytes d → Forall (λ n, 0 ≤ n < 16) (nibbles d).
Proof.
  induction 1 as [|b d Hb _ IH]; simpl; [constructor|].
  constructor; [|constructor; [|done]].
  - split; [apply Z.div_pos; lia|apply Z.div_lt_upper_bound; lia].
  - apply Z.mod_pos_bound. lia.
Qed.
Lemma length_nibbles d : length (nibbles d) = (2 * length d)%nat.
Proof. induction d as [|b d IH]; simpl; [done|]. rewrite IH. lia. Qed.
Lemma length_hex d : length (hex d) = (2 * length d)%nat.
Proof. unfold hex. rewrite length_fmap. apply length_nibbles. Qed.
Lemma nibbles_app d1 d2 : nibbles (d1 ++ d2) = nibbles d1 ++ nibbles d2.
Proof. induction d1 as [|b d1 IH]; simpl; [done|]. by rewrite IH. Qed.
Lemma nibbles_inj d1 d2 : nibbles d1 = nibbles d2 → d1 = d2.
Proof.
  revert d2. induction d1 as [|b d1 IH]; intros [|c d2]; simpl; try done.
  intros [= Hd Hm H]. f_equal; [|by apply IH].
  rewrite (Z.div_mod b 16), (Z.div_mod c 16) by lia. by rewrite Hd, Hm.
Qed.

Lemma unhex_hex d : is_bytes d → unhex (hex d) = Some d.
Proof.
  unfold hex. induction 1 as [|b d Hb _ IH]; [done|].
  cbn [nibbles]. rewrite !fmap_cons. cbn [unhex].
  assert (0 ≤ b / 16 < 16)
    by (split; [apply Z.div_pos; lia|apply Z.div_lt_upper_bound; lia]).
  pose proof (Z.mod_pos_bound b 16).
  rewrite hex_val_digit by lia. simpl. rewrite hex_val_digit by lia. simpl.
  rewrite IH. simpl. do 2 f_equal. pose proof (Z.div_mod b 16). lia.
Qed.

(** ** Lemmas on searching for a byte *)

Section FindByte.
Context {BA : bstr.Api} {BL : bstr.Laws}.
Lemma byte_not_in b s : b ∉ s → Forall (λ x, (b =? x) = false) s.
Proof. intros Hs. apply Forall_forall. intros x Hx. apply Z.eqb_neq. by intros <-. Qed.
Lemma find_byte_none s b : b ∉ s → bstr.find_byte s b = None.
Proof. intros Hs. rewrite bstr.find_byte_spec. by apply find_index_None, byte_not_in. Qed.
Lemma find_byte_app s b rest : b ∉ s → bstr.find_byte (s ++ b :: rest) b = Some (length s).
Proof. intros Hs. rewrite bstr.find_byte_spec. apply find_index_app; [by apply byte_not_in|apply Z.eqb_refl]. Qed.
Lemma rfind_index_none {A} (f : A → bool) l : Forall (λ x, f x = false) l → bstr.rfind_index f l = None.
Proof. induction 1 as [|x l Hx _ IH]; [done|]. cbn. by rewrite IH, Hx. Qed.
Lemma rfind_byte_app s b rest : b ∉ rest → bstr.rfind_byte (s ++ b :: rest) b = Some (length s).
Proof.
  intros Hs. rewrite bstr.rfind_byte_spec. induction s as [|x s IH]; cbn.
  - by rewrite rfind_index_none, Z.eqb_refl by by apply byte_not_in.
  - by rewrite IH.
Qed.
End FindByte.
