(* ===== verification/Winnow.v ===== *)
(** * Parser combinators: the crate [winnow]

    [winnow] is not part of the repository: an interface of the parsers and
    combinators that the code uses, the documented behaviour of each, and an
    instance that satisfies it.

    A parser takes the input, and returns a value with the rest of the input or
    fails.  A failure is one that alternatives recover from, or not
    ([ErrMode]); the content of errors, with the context that [context] adds,
    is left out, and so is the input behind a failure, which the combinators
    reset. *)

From S2P Require Import Prelude External.

Module winnow.

Inductive ErrMode := Backtrack | Cut.
Definition parser (A : Type) : Type := bytes → res ErrMode (A * bytes).

(** How many leading bytes satisfy a predicate. *)
Fixpoint count_while (f : Z → bool) (s : bytes) : nat :=
  match s with [] => O | b :: s => if f b then S (count_while f s) else O end.

Class Api := {
  (** a byte string used as a parser *)
  literal : bytes → parser bytes;
  (** [take(n)] *)
  take_n : nat → parser bytes;
  (** [take_while(m..=n, f)], or without [n] *)
  take_while : nat → option nat → (Z → bool) → parser bytes;
  (** [take_till(m.., set)] *)
  take_till : nat → bytes → parser bytes;
  (** [take_until(0.., literal)] *)
  take_until : bytes → parser bytes;
  rest : parser bytes;
  eof : parser bytes;
  opt : ∀ {A}, parser A → parser (option A);
  alt : ∀ {A}, parser A → parser A → parser A;
  (** [repeat(n.., p)] *)
  repeat : ∀ {A}, nat → parser A → parser (list A);
  preceded : ∀ {A B}, parser A → parser B → parser B;
  terminated : ∀ {A B}, parser A → parser B → parser A;
  delimited : ∀ {A B C}, parser A → parser B → parser C → parser B;
  separated_pair : ∀ {A B C}, parser A → parser B → parser C → parser (A * C);
  (** a tuple of parsers *)
  pair : ∀ {A B}, parser A → parser B → parser (A * B);
  (** the methods [map], [verify_map], [try_map] and [take] of parsers *)
  map : ∀ {A B}, parser A → (A → B) → parser B;
  verify_map : ∀ {A B}, parser A → (A → option B) → parser B;
  try_map : ∀ {A B E}, parser A → (A → res E B) → parser B;
  taken : ∀ {A}, parser A → parser bytes;
  (** [one_of(f)] *)
  one_of : (Z → bool) → parser Z;
  (** [repeat(m..=n, p)] *)
  repeat_mn : ∀ {A}, nat → nat → parser A → parser (list A);
  (** [repeat(n.., p)] where [p] is a closure that changes what it captured *)
  repeat_mut : ∀ {S A}, nat → (S → bytes → S * res ErrMode (A * bytes)) → S → bytes → S * res ErrMode (list A * bytes) }.

Class Laws `{!Api} : Prop := {
  literal_spec l i : literal l i = if starts_with i l then Ok (l, drop (length l) i) else Err Backtrack;
  take_n_spec n i : take_n n i = if (n <=? length i)%nat then Ok (take n i, drop n i) else Err Backtrack;
  take_while_spec m n f i :
    take_while m n f i =
      let k := match n with Some n => (count_while f i `min` n)%nat | None => count_while f i end in
      if (m <=? k)%nat then Ok (take k i, drop k i) else Err Backtrack;
  take_till_spec m set i :
    take_till m set i =
      let k := count_while (λ b, negb (mem b set)) i in
      if (m <=? k)%nat then Ok (take k i, drop k i) else Err Backtrack;
  take_until_spec l i :
    take_until l i = match bstr.find_sub i l with Some k => Ok (take k i, drop k i) | None => Err Backtrack end;
  rest_spec i : rest i = Ok (i, []);
  eof_spec i : eof i = if bool_decide (i = []) then Ok ([], []) else Err Backtrack;
  opt_spec {A} (p : parser A) i :
    opt p i = match p i with
              | Ok (a, i) => Ok (Some a, i)
              | Err Backtrack => Ok (None, i)
              | Err Cut => Err Cut
              | Panic => Panic
              end;
  alt_spec {A} (p q : parser A) i :
    alt p q i = match p i with Err Backtrack => q i | r => r end;
  repeat_0_spec {A} (p : parser A) i :
    repeat 0 p i = match p i with
                   | Ok (a, i') =>
                       if (length i' <? length i)%nat then '(l, i'') ← repeat 0 p i'; Ok (a :: l, i'') else Err Backtrack
                   | Err Backtrack => Ok ([], i)
                   | Err Cut => Err Cut
                   | Panic => Panic
                   end;
  repeat_S_spec {A} n (p : parser A) i :
    repeat (S n) p i = '(a, i') ← p i;
                       if (length i' <? length i)%nat then '(l, i'') ← repeat n p i'; Ok (a :: l, i'') else Err Backtrack;
  preceded_spec {A B} (p : parser A) (q : parser B) i : preceded p q i = '(_, i) ← p i; q i;
  terminated_spec {A B} (p : parser A) (q : parser B) i : terminated p q i = '(a, i) ← p i; '(_, i) ← q i; Ok (a, i);
  delimited_spec {A B C} (p : parser A) (q : parser B) (r : parser C) i :
    delimited p q r i = '(_, i) ← p i; '(b, i) ← q i; '(_, i) ← r i; Ok (b, i);
  separated_pair_spec {A B C} (p : parser A) (q : parser B) (r : parser C) i :
    separated_pair p q r i = '(a, i) ← p i; '(_, i) ← q i; '(c, i) ← r i; Ok (a, c, i);
  pair_spec {A B} (p : parser A) (q : parser B) i : pair p q i = '(a, i) ← p i; '(b, i) ← q i; Ok (a, b, i);
  map_spec {A B} (p : parser A) (f : A → B) i : map p f i = '(a, i) ← p i; Ok (f a, i);
  verify_map_spec {A B} (p : parser A) (f : A → option B) i :
    verify_map p f i = '(a, i) ← p i; match f a with Some b => Ok (b, i) | None => Err Backtrack end;
  try_map_spec {A B E} (p : parser A) (f : A → res E B) i :
    try_map p f i = '(a, i) ← p i; match f a with Ok b => Ok (b, i) | Err _ => Err Backtrack | Panic => Panic end;
  taken_spec {A} (p : parser A) i : taken p i = '(_, i') ← p i; Ok (take (length i - length i') i, i');
  one_of_spec f i : one_of f i = match i with b :: i => if f b then Ok (b, i) else Err Backtrack | [] => Err Backtrack end;
  repeat_mn_0_spec {A} m (p : parser A) i : repeat_mn m 0 p i = Ok ([], i);
  repeat_mn_S_spec {A} m n (p : parser A) i :
    repeat_mn m (S n) p i = match p i with
                            | Ok (a, i') =>
                                if (length i' <? length i)%nat then '(l, i'') ← repeat_mn (m - 1) n p i'; Ok (a :: l, i'') else Err Backtrack
                            | Err Backtrack => if (m =? 0)%nat then Ok ([], i) else Err Backtrack
                            | Err Cut => Err Cut
                            | Panic => Panic
                            end;
  repeat_mut_0_spec {S A} (p : S → bytes → S * res ErrMode (A * bytes)) s i :
    repeat_mut 0 p s i = match p s i with
                         | (s, Ok (a, i')) =>
                             if (length i' <? length i)%nat then
                               let '(s, r) := repeat_mut 0 p s i' in (s, '(l, i'') ← r; Ok (a :: l, i''))
                             else (s, Err Backtrack)
                         | (s, Err Backtrack) => (s, Ok ([], i))
                         | (s, Err Cut) => (s, Err Cut)
                         | (s, Panic) => (s, Panic)
                         end;
  repeat_mut_S_spec {S A} n (p : S → bytes → S * res ErrMode (A * bytes)) s i :
    repeat_mut (Datatypes.S n) p s i = match p s i with
                             | (s, Ok (a, i')) =>
                                 if (length i' <? length i)%nat then
                                   let '(s, r) := repeat_mut n p s i' in (s, '(l, i'') ← r; Ok (a :: l, i''))
                                 else (s, Err Backtrack)
                             | (s, Err e) => (s, Err e)
                             | (s, Panic) => (s, Panic)
                             end }.

End winnow.

(** ** An instance *)

Section Impl.
Import winnow.
Definition parser_bind {A B} (p : parser A) (f : A → parser B) : parser B := λ i, '(a, i) ← p i; f a i.
Definition count_min (m k : nat) (i : bytes) : res ErrMode (bytes * bytes) :=
  if (m <=? k)%nat then Ok (take k i, drop k i) else Err Backtrack.
(** Every round consumes input, so its length bounds the rounds. *)
Fixpoint repeat_0_impl {A} (fuel : nat) (p : parser A) (i : bytes) : res ErrMode (list A * bytes) :=
  match p i with
  | Ok (a, i') =>
      if (length i' <? length i)%nat then
        match fuel with
        | O => Panic
        | S fuel => '(l, i'') ← repeat_0_impl fuel p i'; Ok (a :: l, i'')
        end
      else Err Backtrack
  | Err Backtrack => Ok ([], i)
  | Err Cut => Err Cut
  | Panic => Panic
  end.
Fixpoint repeat_impl {A} (n : nat) (p : parser A) : parser (list A) :=
  match n with
  | O => λ i, repeat_0_impl (length i) p i
  | S n => λ i, '(a, i') ← p i; if (length i' <? length i)%nat then '(l, i'') ← repeat_impl n p i'; Ok (a :: l, i'') else Err Backtrack
  end.
Fixpoint repeat_mn_impl {A} (m n : nat) (p : parser A) (i : bytes) : res ErrMode (list A * bytes) :=
  match n with
  | O => Ok ([], i)
  | S n =>
      match p i with
      | Ok (a, i') =>
          if (length i' <? length i)%nat then '(l, i'') ← repeat_mn_impl (m - 1) n p i'; Ok (a :: l, i'') else Err Backtrack
      | Err Backtrack => if (m =? 0)%nat then Ok ([], i) else Err Backtrack
      | Err Cut => Err Cut
      | Panic => Panic
      end
  end.
Fixpoint repeat_mut_0_impl {S A} (fuel : nat) (p : S → bytes → S * res ErrMode (A * bytes)) (s : S) (i : bytes)
  : S * res ErrMode (list A * bytes) :=
  match p s i with
  | (s, Ok (a, i')) =>
      if (length i' <? length i)%nat then
        match fuel with
        | O => (s, Panic)
        | Datatypes.S fuel => let '(s, r) := repeat_mut_0_impl fuel p s i' in (s, '(l, i'') ← r; Ok (a :: l, i''))
        end
      else (s, Err Backtrack)
  | (s, Err Backtrack) => (s, Ok ([], i))
  | (s, Err Cut) => (s, Err Cut)
  | (s, Panic) => (s, Panic)
  end.
Fixpoint repeat_mut_impl {S A} (n : nat) (p : S → bytes → S * res ErrMode (A * bytes)) (s : S) (i : bytes)
  : S * res ErrMode (list A * bytes) :=
  match n with
  | O => repeat_mut_0_impl (length i) p s i
  | Datatypes.S n =>
      match p s i with
      | (s, Ok (a, i')) =>
          if (length i' <? length i)%nat then
            let '(s, r) := repeat_mut_impl n p s i' in (s, '(l, i'') ← r; Ok (a :: l, i''))
          else (s, Err Backtrack)
      | (s, Err e) => (s, Err e)
      | (s, Panic) => (s, Panic)
      end
  end.

Definition winnow_impl : Api := {|
  literal l i := if starts_with i l then Ok (l, drop (length l) i) else Err Backtrack;
  take_n n i := if (n <=? length i)%nat then Ok (take n i, drop n i) else Err Backtrack;
  take_while m n f i := count_min m (match n with Some n => (count_while f i `min` n)%nat | None => count_while f i end) i;
  take_till m set i := count_min m (count_while (λ b, negb (mem b set)) i) i;
  take_until l i := match bstr.find_sub i l with Some k => Ok (take k i, drop k i) | None => Err Backtrack end;
  rest i := Ok (i, []);
  eof i := if bool_decide (i = []) then Ok ([], []) else Err Backtrack;
  opt A p i := match p i with
               | Ok (a, i) => Ok (Some a, i)
               | Err Backtrack => Ok (None, i)
               | Err Cut => Err Cut
               | Panic => Panic
               end;
  alt A p q i := match p i with Err Backtrack => q i | r => r end;
  repeat A := repeat_impl;
  preceded A B p q := parser_bind p (λ _, q);
  terminated A B p q := parser_bind p (λ a, parser_bind q (λ _ i, Ok (a, i)));
  delimited A B C p q r := parser_bind p (λ _, parser_bind q (λ b, parser_bind r (λ _ i, Ok (b, i))));
  separated_pair A B C p q r := parser_bind p (λ a, parser_bind q (λ _, parser_bind r (λ c i, Ok (a, c, i))));
  pair A B p q := parser_bind p (λ a, parser_bind q (λ b i, Ok (a, b, i)));
  map A B p f := parser_bind p (λ a i, Ok (f a, i));
  verify_map A B p f := parser_bind p (λ a i, match f a with Some b => Ok (b, i) | None => Err Backtrack end);
  try_map A B E p f := parser_bind p (λ a i, match f a with Ok b => Ok (b, i) | Err _ => Err Backtrack | Panic => Panic end);
  taken A p i := '(_, i') ← p i; Ok (take (length i - length i') i, i');
  one_of f i := match i with b :: i => if f b then Ok (b, i) else Err Backtrack | [] => Err Backtrack end;
  repeat_mn A := repeat_mn_impl;
  repeat_mut S A := repeat_mut_impl |}.

Lemma repeat_0_more {A} (p : parser A) fuel i : (length i ≤ fuel)%nat → repeat_0_impl fuel p i = repeat_0_impl (length i) p i.
Proof.
  remember (length i) as n eqn:Hn. revert i fuel Hn. induction n as [n IH] using lt_wf_ind. intros i fuel -> Hf.
  destruct fuel as [|fuel], (length i) as [|k] eqn:E; try done; try lia; cbn [repeat_0_impl];
    destruct (p i) as [[a i']|[]|]; try done; destruct (Nat.ltb_spec (length i') (length i)); try done; try lia.
  rewrite (IH (length i') ltac:(lia) i' fuel), (IH (length i') ltac:(lia) i' k) by lia. done.
Qed.
Lemma repeat_mut_0_more {S A} (p : S → bytes → S * res ErrMode (A * bytes)) fuel s i :
  (length i ≤ fuel)%nat → repeat_mut_0_impl fuel p s i = repeat_mut_0_impl (length i) p s i.
Proof.
  remember (length i) as n eqn:Hn. revert s i fuel Hn. induction n as [n IH] using lt_wf_ind. intros s i fuel -> Hf.
  destruct fuel as [|fuel], (length i) as [|k] eqn:E; try done; try lia; cbn [repeat_mut_0_impl];
    destruct (p s i) as [s' [[a i']|[]|]]; try done; destruct (Nat.ltb_spec (length i') (length i)); try done; try lia.
  rewrite (IH (length i') ltac:(lia) s' i' fuel), (IH (length i') ltac:(lia) s' i' k) by lia. done.
Qed.
Lemma repeat_mut_0_impl_spec {S A} (p : S → bytes → S * res ErrMode (A * bytes)) s i :
  repeat_mut_impl 0 p s i = match p s i with
                         | (s, Ok (a, i')) =>
                             if (length i' <? length i)%nat then
                               let '(s, r) := repeat_mut_impl 0 p s i' in (s, '(l, i'') ← r; Ok (a :: l, i''))
                             else (s, Err Backtrack)
                         | (s, Err Backtrack) => (s, Ok ([], i))
                         | (s, Err Cut) => (s, Err Cut)
                         | (s, Panic) => (s, Panic)
                         end.
Proof.
  cbn [repeat_mut_impl]. destruct (length i) as [|k] eqn:E; cbn [repeat_mut_0_impl]; rewrite ?E; destruct (p s i) as [s' [[a i']|[]|]]; try done;
    destruct (Nat.ltb_spec (length i') (Datatypes.S k)); try done; try lia.
  by rewrite repeat_mut_0_more by lia.
Qed.
Lemma winnow_impl_laws : @Laws winnow_impl.
Proof.
  split; try done; [|intros S A p s i; apply repeat_mut_0_impl_spec]. intros A p i. cbn [repeat winnow_impl repeat_impl].
  destruct (length i) as [|k] eqn:E; cbn [repeat_0_impl]; rewrite ?E; destruct (p i) as [[a i']|[]|]; try done;
    destruct (Nat.ltb_spec (length i') (length i)); try (destruct (Nat.ltb_spec (length i') 0)); try lia; try done.
  - destruct (Nat.ltb_spec (length i') (S k)); [|lia]. by rewrite repeat_0_more by lia.
  - by destruct (Nat.ltb_spec (length i') (S k)); [lia|].
Qed.
End Impl.

(** ** Lemmas: parsing what was written *)

(** Runs what is bound to a result that is known. *)
Ltac winnow_run := repeat first [rewrite bind_Ok | progress cbv beta iota].

Section Lemmas.
Import winnow.
Context `{WA : !Api} {WL : Laws}.

Lemma literal_app l i : literal l (l ++ i) = Ok (l, i).
Proof.
  rewrite literal_spec. replace (starts_with (l ++ i) l) with true; [by rewrite drop_app_length|].
  symmetry. apply starts_with_spec. by exists i.
Qed.
Lemma literal_one b i : literal [b] (b :: i) = Ok ([b], i).
Proof. apply (literal_app [b]). Qed.
Lemma literal_cons_ne b c l i : b ≠ c → literal (c :: l) (b :: i) = Err Backtrack.
Proof. intros H. rewrite literal_spec. cbn. by destruct (Z.eqb_spec b c). Qed.
Lemma count_while_app f s i : Forall (λ b, f b = true) s → (match i with b :: _ => f b = false | [] => True end) →
  count_while f (s ++ i) = length s.
Proof.
  intros Hs Hi. induction Hs as [|b s Hb _ IH]; cbn; [destruct i; [done|]; cbn; by rewrite Hi|]. by rewrite Hb, IH.
Qed.
Lemma count_while_le f i : (count_while f i ≤ length i)%nat.
Proof. induction i as [|b i IH]; cbn; [done|]. destruct (f b); lia. Qed.
Lemma take_till_app m set s i : (m ≤ length s)%nat → Forall (λ b, b ∉ set) s → (match i with b :: _ => b ∈ set | [] => True end) →
  take_till m set (s ++ i) = Ok (s, i).
Proof.
  intros Hm Hs Hi. rewrite take_till_spec, count_while_app.
  - cbn. rewrite (proj2 (Nat.leb_le _ _)) by done. by rewrite take_app_length, drop_app_length.
  - eapply Forall_impl; [exact Hs|]. intros b Hb. cbn. apply negb_true_iff, not_true_iff_false. by rewrite mem_spec.
  - destruct i; [done|]. apply negb_false_iff. by apply mem_spec.
Qed.
Lemma take_while_app m f s i : (m ≤ length s)%nat → Forall (λ b, f b = true) s → (match i with b :: _ => f b = false | [] => True end) →
  take_while m None f (s ++ i) = Ok (s, i).
Proof.
  intros Hm Hs Hi. rewrite take_while_spec, count_while_app by done. cbn. rewrite (proj2 (Nat.leb_le _ _)) by done.
  by rewrite take_app_length, drop_app_length.
Qed.
Lemma take_while_max m n f s i : Forall (λ b, f b = true) s → length s = n → (m ≤ n)%nat → take_while m (Some n) f (s ++ i) = Ok (s, i).
Proof.
  intros Hs Hn Hm. rewrite take_while_spec. assert (Hc : (length s ≤ count_while f (s ++ i))%nat).
  { clear Hn Hm. induction Hs as [|b s Hb _ IH]; cbn; [lia|]. rewrite Hb. lia. }
  cbn. rewrite Nat.min_r by lia. rewrite (proj2 (Nat.leb_le _ _)) by done. subst n. by rewrite take_app_length, drop_app_length.
Qed.
Lemma repeat_0_stop {A} (p : parser A) i : p i = Err Backtrack → repeat 0 p i = Ok ([], i).
Proof. intros H. by rewrite repeat_0_spec, H. Qed.
Lemma repeat_0_step {A} (p : parser A) a i i' l rest : p i = Ok (a, i') → (length i' < length i)%nat →
  repeat 0 p i' = Ok (l, rest) → repeat 0 p i = Ok (a :: l, rest).
Proof. intros H Hl Hr. rewrite repeat_0_spec, H. rewrite (proj2 (Nat.ltb_lt _ _)) by done. by rewrite Hr. Qed.
Lemma count_while_take f i : Forall (λ b, f b = true) (take (count_while f i) i).
Proof. induction i as [|b i IH]; cbn; [constructor|]. destruct (f b) eqn:E; cbn; by constructor. Qed.
Lemma take_till_inv m set i s i' : take_till m set i = Ok (s, i') → i = s ++ i' ∧ (m ≤ length s)%nat ∧ Forall (λ b, b ∉ set) s.
Proof.
  rewrite take_till_spec. cbv zeta. pose proof (count_while_le (λ b, negb (mem b set)) i).
  destruct (Nat.leb_spec m (count_while (λ b, negb (mem b set)) i)); [|done]. intros [= <- <-].
  rewrite take_drop, length_take. split_and!; [done|lia|]. eapply Forall_impl; [apply count_while_take|].
  intros b Hb. cbv beta in Hb. apply negb_true_iff, not_true_iff_false in Hb. by rewrite mem_spec in Hb.
Qed.
Lemma take_until_byte b s i : b ∉ s → take_until [b] (s ++ b :: i) = Ok (s, b :: i).
Proof.
  intros Hs. rewrite take_until_spec. assert (H : bstr.find_sub (s ++ b :: i) [b] = Some (length s)).
  { clear -Hs. induction s as [|c s IH]; [cbn; by rewrite Z.eqb_refl|]. rewrite not_elem_of_cons in Hs. destruct Hs as [Hb Hs].
    cbn. rewrite (IH Hs). by destruct (Z.eqb_spec c b); [congruence|]. }
  rewrite H. by rewrite take_app_length, drop_app_length.
Qed.
Lemma take_until_byte_inv b i s i' : take_until [b] i = Ok (s, i') → i = s ++ i' ∧ b ∉ s ∧ ∃ r, i' = b :: r.
Proof.
  rewrite take_until_spec. assert (H : ∀ k, bstr.find_sub i [b] = Some k → b ∉ take k i ∧ ∃ r, drop k i = b :: r).
  { induction i as [|c i IH]; intros k; cbn; [done|]. destruct (Z.eqb_spec c b) as [->|Hc]; cbn.
    - intros [= <-]. split; [apply not_elem_of_nil|by exists i].
    - destruct (bstr.find_sub i [b]) as [j|]; [|done]. intros [= <-]. destruct (IH j eq_refl) as [Hn Hr].
      split; [|done]. cbn. rewrite not_elem_of_cons. split; [congruence|done]. }
  destruct (bstr.find_sub i [b]) as [k|]; [|done]. intros [= <- <-]. destruct (H k eq_refl). by rewrite take_drop.
Qed.
End Lemmas.

(** ** Repetition as a relation *)

Section Chain.
Import winnow.
Context `{WA : !Api} {WL : Laws}.

(** [p] reads the values [l] one after the other, and then nothing. *)
Inductive chain {A} (p : parser A) : bytes → list A → bytes → Prop :=
| chain_nil i : p i = Err Backtrack → chain p i [] i
| chain_cons i a i1 l i' : p i = Ok (a, i1) → (length i1 < length i)%nat → chain p i1 l i' → chain p i (a :: l) i'.
Lemma repeat_0_chain {A} (p : parser A) i l i' : repeat 0 p i = Ok (l, i') ↔ chain p i l i'.
Proof.
  split.
  - remember (length i) as k eqn:Hk. revert i l Hk. induction k as [k IH] using lt_wf_ind. intros i l ->. rewrite repeat_0_spec.
    destruct (p i) as [[a i1]|[]|] eqn:E; [|intros [= <- <-]; by constructor|done..].
    destruct (Nat.ltb_spec (length i1) (length i)) as [Hl|]; [|done].
    destruct (repeat 0 p i1) as [[l1 i2]| |] eqn:E1; [|done..]. winnow_run. intros [= <- <-]. econstructor; [done..|]. by eapply IH.
  - induction 1 as [i H|i a i1 l i' H Hl _ IH]; [by apply repeat_0_stop|]. by eapply repeat_0_step.
Qed.
End Chain.

(** ** Parsers that are total: no panic, and what is left is a suffix of the
    input, at least [n] bytes shorter *)

Section Total.
Import winnow.
Context `{WA : !Api} {WL : Laws}.

Definition total {A} (n : nat) (p : parser A) : Prop :=
  ∀ i, match p i with
       | Ok (_, i') => ∃ s, i = s ++ i' ∧ (n ≤ length s)%nat
       | Err _ => True
       | Panic => False
       end.
Lemma total_le {A} m n (p : parser A) : total m p → (n ≤ m)%nat → total n p.
Proof. intros H Hn i. specialize (H i). destruct (p i) as [[a i']| |]; [|done..]. destruct H as (s & Hs & Hl). exists s. split; [done|lia]. Qed.
Lemma total_bind {A B} m n (p : parser A) (f : A → parser B) (q : parser B) :
  (∀ i, q i = '(a, i) ← p i; f a i) → total m p → (∀ a, total n (f a)) → total (m + n) q.
Proof.
  intros E Hp Hf i. rewrite E. specialize (Hp i). destruct (p i) as [[a i']| |]; [|done..]. destruct Hp as (s & -> & Hl).
  cbn. specialize (Hf a i'). destruct (f a i') as [[b i'']| |]; [|done..]. destruct Hf as (s' & -> & Hl').
  exists (s ++ s'). rewrite <- app_assoc, length_app. split; [done|lia].
Qed.
Lemma total_ret {A} (a : A) : total 0 (λ i, Ok (a, i)).
Proof. intros i. by exists []. Qed.
Lemma total_take k (i : bytes) : (k ≤ length i)%nat → ∃ s, i = s ++ drop k i ∧ length s = k.
Proof. intros Hk. exists (take k i). rewrite take_drop, length_take. split; [done|lia]. Qed.
Lemma total_literal l : total (length l) (literal l).
Proof.
  intros i. rewrite literal_spec. destruct (starts_with i l) eqn:E; [|done]. apply starts_with_spec in E as [k ->].
  rewrite drop_app_length. by exists l.
Qed.
Lemma total_take_n n : total n (take_n n).
Proof.
  intros i. rewrite take_n_spec. destruct (Nat.leb_spec n (length i)); [|done].
  destruct (total_take n i) as (s & Hs & Hl); [done|]. exists s. split; [done|lia].
Qed.
Lemma total_take_while m n f : total m (take_while m n f).
Proof.
  intros i. rewrite take_while_spec. cbv zeta. pose proof (count_while_le f i). destruct n as [n|].
  - destruct (Nat.leb_spec m (count_while f i `min` n)); [|done].
    destruct (total_take (count_while f i `min` n) i) as (s & Hs & Hl); [lia|]. exists s. split; [done|lia].
  - destruct (Nat.leb_spec m (count_while f i)); [|done].
    destruct (total_take (count_while f i) i) as (s & Hs & Hl); [lia|]. exists s. split; [done|lia].
Qed.
Lemma total_take_till m set : total m (take_till m set).
Proof.
  intros i. rewrite take_till_spec. cbv zeta. set (f := λ b, negb (mem b set)). pose proof (count_while_le f i).
  destruct (Nat.leb_spec m (count_while f i)); [|done].
  destruct (total_take (count_while f i) i) as (s & Hs & Hl); [lia|]. exists s. split; [done|lia].
Qed.
Lemma total_take_until l : total 0 (take_until l).
Proof.
  intros i. rewrite take_until_spec. destruct (bstr.find_sub i l) as [k|]; [|done]. exists (take k i). rewrite take_drop. split; [done|lia].
Qed.
Lemma total_rest : total 0 rest.
Proof. intros i. rewrite rest_spec. exists i. rewrite app_nil_r. split; [done|lia]. Qed.
Lemma total_eof : total 0 eof.
Proof. intros i. rewrite eof_spec. case_bool_decide as E; [|done]. exists []. by rewrite E. Qed.
Lemma total_opt {A} n (p : parser A) : total n p → total 0 (opt p).
Proof.
  intros Hp i. rewrite opt_spec. specialize (Hp i). destruct (p i) as [[a i']|[]|]; try done; [|by exists []].
  destruct Hp as (s & Hs & _). exists s. split; [done|lia].
Qed.
Lemma total_alt {A} n (p q : parser A) : total n p → total n q → total n (alt p q).
Proof.
  intros Hp Hq i. rewrite alt_spec. specialize (Hp i). specialize (Hq i). by destruct (p i) as [[a i']|[]|].
Qed.
Lemma total_repeat_0 {A} n (p : parser A) : total n p → total 0 (repeat 0 p).
Proof.
  intros Hp i. remember (length i) as k eqn:Hk. revert i Hk. induction k as [k IH] using lt_wf_ind. intros i ->.
  rewrite repeat_0_spec. pose proof (Hp i) as Hpi. destruct (p i) as [[a i']|[]|]; try done; [|by exists []].
  destruct (Nat.ltb_spec (length i') (length i)) as [Hl|]; [|done]. specialize (IH _ Hl i' eq_refl).
  destruct (repeat 0 p i') as [[l i'']| |]; [|done..]. cbn. destruct Hpi as (s & -> & _), IH as (s' & -> & _).
  exists (s ++ s'). rewrite <- app_assoc. split; [done|lia].
Qed.
Lemma total_repeat {A} k n (p : parser A) : total n p → total 0 (repeat k p).
Proof.
  intros Hp. induction k as [|k IH]; [by eapply total_repeat_0|]. intros i. rewrite repeat_S_spec. specialize (Hp i).
  destruct (p i) as [[a i']| |]; [|done..]. winnow_run. destruct (Nat.ltb_spec (length i') (length i)); [|exact I].
  specialize (IH i'). destruct (repeat k p i') as [[l i'']| |]; [|done..]. cbn. destruct Hp as (s & -> & _), IH as (s' & -> & _).
  exists (s ++ s'). rewrite <- app_assoc. split; [done|lia].
Qed.
Lemma total_map {A B} n (p : parser A) (f : A → B) : total n p → total n (map p f).
Proof.
  intros Hp. rewrite <- (Nat.add_0_r n). apply (total_bind n 0 p (λ a i, Ok (f a, i))); [apply map_spec|done|].
  intros a. apply total_ret.
Qed.
Lemma total_verify_map {A B} n (p : parser A) (f : A → option B) : total n p → total n (verify_map p f).
Proof.
  intros Hp i. rewrite verify_map_spec. specialize (Hp i). destruct (p i) as [[a i']| |]; [|done..]. cbn. by destruct (f a).
Qed.
Lemma total_taken {A} n (p : parser A) : total n p → total n (taken p).
Proof. intros Hp i. rewrite taken_spec. specialize (Hp i). by destruct (p i) as [[a i']| |]. Qed.
Lemma total_then {A B} n (p : parser A) (f : A → B) : total n p → total n (λ i, '(a, i) ← p i; Ok (f a, i)).
Proof. intros Hp i. rewrite <- map_spec. by apply total_map. Qed.
Lemma total_pair {A B} m n (p : parser A) (q : parser B) : total m p → total n q → total (m + n) (pair p q).
Proof.
  intros Hp Hq. apply (total_bind m n p (λ a i, '(b, i) ← q i; Ok (a, b, i))); [apply pair_spec|done|].
  intros a. by apply total_then.
Qed.
Lemma total_preceded {A B} m n (p : parser A) (q : parser B) : total m p → total n q → total (m + n) (preceded p q).
Proof. intros Hp Hq. apply (total_bind m n p (λ _, q)); [apply preceded_spec|done|done]. Qed.
Lemma total_terminated {A B} m n (p : parser A) (q : parser B) : total m p → total n q → total (m + n) (terminated p q).
Proof.
  intros Hp Hq. apply (total_bind m n p (λ a i, '(_, i) ← q i; Ok (a, i))); [apply terminated_spec|done|].
  intros a. by apply (total_then n q (λ _, a)).
Qed.
Lemma total_separated_pair {A B C} k m n (p : parser A) (q : parser B) (r : parser C) :
  total k p → total m q → total n r → total (k + (m + n)) (separated_pair p q r).
Proof.
  intros Hp Hq Hr. apply (total_bind k (m + n) p (λ a i, '(_, i) ← q i; '(c, i) ← r i; Ok (a, c, i))); [apply separated_pair_spec|done|].
  intros a. apply (total_bind m n q (λ _ i, '(c, i) ← r i; Ok (a, c, i))); [done|done|]. intros _. by apply total_then.
Qed.
(** Something optional, or else another parser. *)
Lemma total_opt_else {A B} n (p : parser A) (f : A → parser B) (q : parser B) :
  total n (λ i, '(a, i) ← p i; f a i) → total n q →
  total n (λ i, '(o, i) ← opt p i; match o with Some a => f a i | None => q i end).
Proof.
  intros Hp Hq i. specialize (Hp i). specialize (Hq i). cbv beta in Hp. rewrite opt_spec.
  destruct (p i) as [[a i']|[]|]; [exact Hp|exact Hq|exact I|exact Hp].
Qed.
End Total.

Create HintDb parser_total.
#[export] Hint Resolve total_literal total_take_n total_take_while total_take_till total_take_until total_rest total_eof
  total_opt total_alt total_repeat total_map total_verify_map total_taken total_pair total_preceded total_terminated
  total_separated_pair : parser_total.
(** [total n p] for a parser built from combinators. *)
Ltac solve_total := eapply total_le; [eauto 40 with parser_total|cbn; lia].
