(* ===== verification/Hash.v ===== *)
(** * Object ids and prefixes: the crate [gix-hash]

    [Kind], [oid], [ObjectId] ([kind.rs], [oid.rs], [object_id.rs]) and
    [Prefix] ([prefix.rs]), the abbreviated ids that users type.  Hexadecimal
    conversion goes through the [faster_hex] crate. *)

From S2P Require Import Prelude External.

(** ** Kinds *)

Inductive Kind := KSha1.

Definition kind_try_from (value : Z) : res Z Kind :=
  if value =? 1 then Ok KSha1 else Err value.
Definition kind_from_str (s : bytes) : res bytes Kind :=
  if bool_decide (s = bs "sha1") || bool_decide (s = bs "SHA1") then Ok KSha1
  else Err s.
Definition kind_display (k : Kind) : bytes := match k with KSha1 => bs "SHA1" end.

Definition shortest : Kind := KSha1.
Definition longest : Kind := KSha1.
Definition len_in_hex (k : Kind) : nat := match k with KSha1 => 40 end.
Definition len_in_bytes (k : Kind) : nat := match k with KSha1 => 20 end.
Definition from_hex_len (hex_len : nat) : option Kind :=
  if (hex_len <=? 40)%nat then Some KSha1 else None.
Definition from_len_in_bytes (n : nat) : res Empty_set Kind :=
  if (n =? 20)%nat then Ok KSha1 else Panic.

(** ** Owned ids: [ObjectId::Sha1([u8; 20])] *)

Inductive ObjectId := Sha1 (digest : bytes).
#[global] Instance ObjectId_eq_dec : EqDecision ObjectId.
Proof. solve_decision. Defined.

Definition as_slice (id : ObjectId) : bytes := let 'Sha1 d := id in d.
Definition kind (id : ObjectId) : Kind := match id with Sha1 _ => KSha1 end.
Definition null (k : Kind) : ObjectId := match k with KSha1 => Sha1 (replicate 20 0) end.
Definition is_null (id : ObjectId) : bool :=
  bool_decide (as_slice id = replicate 20 0).
Definition empty_blob (k : Kind) : ObjectId :=
  match k with KSha1 =>
    Sha1 [230; 157; 226; 155; 178; 209; 214; 67; 75; 139; 41; 174; 119; 90; 216;
          194; 228; 140; 83; 145] end.
Definition empty_tree (k : Kind) : ObjectId :=
  match k with KSha1 =>
    Sha1 [75; 130; 93; 198; 66; 203; 110; 185; 160; 96; 229; 75; 248; 214; 146;
          136; 251; 238; 73; 4] end.
Definition is_empty_blob (id : ObjectId) : bool :=
  bool_decide (id = empty_blob (kind id)).
Definition is_empty_tree (id : ObjectId) : bool :=
  bool_decide (id = empty_tree (kind id)).

Definition from_bytes_or_panic {E} (b : bytes) : res E ObjectId :=
  if (length b =? 20)%nat then Ok (Sha1 b) else Panic.

(** The array type of the digest. *)
Definition wf_id (id : ObjectId) : Prop :=
  length (as_slice id) = 20%nat ∧ is_bytes (as_slice id).

(** ** Borrowed ids: [oid], an unsized byte slice *)

Inductive Error := InvalidByteSliceLength (n : nat).

Definition try_from_bytes (digest : bytes) : res Error bytes :=
  if (length digest =? 20)%nat then Ok digest
  else Err (InvalidByteSliceLength (length digest)).
Definition oid_kind (o : bytes) : res Empty_set Kind := from_len_in_bytes (length o).
Definition first_byte (o : bytes) : res Empty_set Z := idx o 0.
Definition oid_is_null (o : bytes) : res Empty_set bool :=
  k ← oid_kind o;
  match k with KSha1 => Ok (bool_decide (o = replicate 20 0)) end.
(** [oid::to_owned]. *)
Definition to_owned (o : bytes) : res Empty_set ObjectId :=
  k ← oid_kind o; match k with KSha1 => from_bytes_or_panic o end.

(** ** Hexadecimal form *)

Inductive DecodeError := InvalidHexEncodingLength (n : nat) | Invalid.

Inductive PrefixError := TooShort (hex_len : nat) | TooLong (k : Kind) (hex_len : nat).
Inductive FromHexError :=
| HexTooShort (hex_len : nat) | HexTooLong (hex_len : nat) | HexInvalid.

Record Prefix := mkPrefix { bytes_ : ObjectId; hex_len : nat }.
#[global] Instance Prefix_eq_dec : EqDecision Prefix.
Proof. solve_decision. Defined.

Definition MIN_HEX_LEN : nat := 4.

Section Hex.
Context `{!faster_hex.Api}.

(** [oid::hex_to_buf] for a buffer of [buf_len] bytes: what is written. *)
Definition hex_to_buf (o : bytes) (buf_len : nat) : res Empty_set bytes :=
  let num_hex_bytes := (length o * 2)%nat in
  if (num_hex_bytes <=? buf_len)%nat then Ok (faster_hex.hex_encode o) else Panic.

(** [<HexDisplay as Display>::fmt]. *)
Definition hex_display (inner : bytes) (hex_len : nat) : res Empty_set bytes :=
  hex ← hex_to_buf inner (len_in_hex longest);
  slice_to hex (hex_len `min` length hex)%nat.
Definition to_hex (o : bytes) : res Empty_set bytes :=
  hex_display o (length o * 2).

(** [ObjectId::from_hex]. *)
Definition from_hex (buffer : bytes) : res DecodeError ObjectId :=
  if (length buffer =? 40)%nat then
    match faster_hex.hex_decode buffer with
    | Ok buf => Ok (Sha1 buf)
    | Err (faster_hex.InvalidChar | faster_hex.Overflow) => Err Invalid
    | Err (faster_hex.InvalidLength _) => Panic
    | Panic => Panic
    end
  else Err (InvalidHexEncodingLength (length buffer)).

(** ** Prefixes *)

(** [Prefix::new]. *)
Definition prefix_new (id : bytes) (hex_len : nat) : res PrefixError Prefix :=
  k ← lift (oid_kind id);
  if (len_in_hex k <? hex_len)%nat then Err (TooLong k hex_len)
  else if (hex_len <? MIN_HEX_LEN)%nat then Err (TooShort hex_len)
  else
    let b := as_slice (null k) in
    let copy_len := ((hex_len + 1) / 2)%nat in
    src ← slice_to id copy_len;
    let b := src ++ drop copy_len b in
    b ← (if (hex_len mod 2 =? 1)%nat then
           v ← idx b (hex_len / 2); Ok (<[(hex_len / 2)%nat := Z.land v 240]> b)
         else Ok b);
    Ok (mkPrefix (Sha1 b) hex_len).

Definition as_oid (p : Prefix) : bytes := as_slice (bytes_ p).

(** [Prefix::cmp_oid]. *)
Definition cmp_oid (p : Prefix) (candidate : bytes) : res Empty_set comparison :=
  let common_len := (hex_len p / 2)%nat in
  a ← slice_to (as_oid p) common_len;
  b ← slice_to candidate common_len;
  rest ←
    (if (hex_len p mod 2 =? 1)%nat then
       let half_byte_idx := (hex_len p / 2)%nat in
       x ← idx (as_oid p) half_byte_idx;
       y ← idx candidate half_byte_idx;
       Ok (x ?= Z.land y 240)
     else Ok Eq);
  Ok (ord_then (bytes_cmp a b) rest).

(** [Prefix::from_hex] on the bytes of the string. *)
Definition prefix_from_hex (value : bytes) : res FromHexError Prefix :=
  let hex_len := length value in
  if (len_in_hex longest <? hex_len)%nat then Err (HexTooLong hex_len)
  else if (hex_len <? MIN_HEX_LEN)%nat then Err (HexTooShort hex_len)
  else
    let decoded :=
      if (hex_len mod 2 =? 0)%nat then faster_hex.hex_decode value
      else faster_hex.hex_decode (value ++ [ch "0"]) in
    src ← (match decoded with
           | Ok out => Ok out
           | Err (faster_hex.InvalidChar | faster_hex.Overflow) => Err HexInvalid
           | Err (faster_hex.InvalidLength _) => Panic
           | Panic => Panic
           end);
    k ← expect (from_hex_len (length value));
    let dst := as_slice (null k) in
    _ ← slice_to dst (length src);
    Ok (mkPrefix (Sha1 (src ++ drop (length src) dst)) hex_len).

(** [Display for Prefix]. *)
Definition prefix_display (p : Prefix) : res Empty_set bytes :=
  hex_display (as_oid p) (hex_len p).

End Hex.

(** [From<ObjectId> for Prefix]. *)
Definition prefix_from_id (id : ObjectId) : Prefix :=
  mkPrefix id (len_in_hex (kind id)).

(** ** Lemmas *)

Lemma bytes_cmp_app a b c d :
  length a = length b →
  bytes_cmp (a ++ c) (b ++ d) = ord_then (bytes_cmp a b) (bytes_cmp c d).
Proof.
  revert b. induction a as [|x a IH]; intros [|y b] Hl; simpl in *; try lia; [done|].
  destruct (x ?= y); simpl; auto.
Qed.

Lemma compare_nibbles x y :
  (x ?= y) = ord_then (x / 16 ?= y / 16) (x mod 16 ?= y mod 16).
Proof.
  pose proof (Z.div_mod x 16). pose proof (Z.div_mod y 16).
  pose proof (Z.mod_pos_bound x 16). pose proof (Z.mod_pos_bound y 16).
  destruct (Z.compare_spec (x / 16) (y / 16)); simpl.
  - destruct (Z.compare_spec (x mod 16) (y mod 16)).
    + apply Z.compare_eq_iff. lia.
    + apply Z.compare_lt_iff. lia.
    + apply Z.compare_gt_iff. lia.
  - apply Z.compare_lt_iff. lia.
  - apply Z.compare_gt_iff. lia.
Qed.

Lemma bytes_cmp_nibbles a b :
  length a = length b → bytes_cmp a b = bytes_cmp (nibbles a) (nibbles b).
Proof.
  revert b. induction a as [|x a IH]; intros [|y b] Hl; simpl in *; try lia; [done|].
  rewrite compare_nibbles. destruct (x / 16 ?= y / 16); simpl; [|done..].
  destruct (x mod 16 ?= y mod 16); auto.
Qed.

Lemma take_nibbles_even k d : take (2 * k) (nibbles d) = nibbles (take k d).
Proof.
  revert k. induction d as [|b d IH]; intros [|k]; simpl; try done.
  replace (k + S (k + 0))%nat with (S (2 * k)) by lia. cbn [take]. by rewrite IH.
Qed.
Lemma take_nibbles_odd k d v :
  d !! k = Some v → take (2 * k + 1) (nibbles d) = nibbles (take k d) ++ [v / 16].
Proof.
  revert k. induction d as [|b d IH]; intros [|k]; simpl; try done.
  - intros [= <-]. done.
  - intros Hv. replace (k + S (k + 0) + 1)%nat with (S (2 * k + 1)) by lia.
    cbn [take app]. by rewrite (IH k Hv).
Qed.

Lemma land_240 y : u8 y → Z.land y 240 = y / 16 * 16.
Proof. intros Hy. byte_enum y Hy. Qed.

Lemma mul16_compare x y : (x * 16 ?= y * 16) = (x ?= y).
Proof.
  destruct (Z.compare_spec x y).
  - apply Z.compare_eq_iff. lia.
  - apply Z.compare_lt_iff. lia.
  - apply Z.compare_gt_iff. lia.
Qed.

(** The invariant of [Prefix]: a length the constructors accept, and zeroes
    behind the prefix. *)
Definition wf_prefix (p : Prefix) : Prop :=
  wf_id (bytes_ p) ∧ (MIN_HEX_LEN ≤ hex_len p ≤ 40)%nat ∧
  drop (hex_len p) (nibbles (as_oid p)) = replicate (40 - hex_len p) 0.

(** A borrowed id of the right length. *)
Definition wf_oid (o : bytes) : Prop := length o = 20%nat ∧ is_bytes o.

(** The first [n] hexadecimal digits of an id. *)
Definition abbrev (n : nat) (o : bytes) : list Z := take n (nibbles o).

Lemma even_odd_len n : n = (2 * (n / 2) + n mod 2)%nat ∧ (n mod 2 < 2)%nat.
Proof.
  split; [apply Nat.div_mod_eq|]. apply Nat.mod_upper_bound. lia.
Qed.

Lemma low_nibble_zero o n k v :
  drop n (nibbles o) = replicate (40 - n) 0 → n = (2 * k + 1)%nat → (n < 40)%nat →
  o !! k = Some v → length o = 20%nat → v mod 16 = 0.
Proof.
  intros Hz -> Hn Hv Hlen.
  assert (Hd : nibbles o !! (2 * k + 1)%nat = Some (v mod 16)).
  { rewrite <- (take_drop_middle o k v Hv), nibbles_app.
    rewrite lookup_app_r by (rewrite length_nibbles, length_take; lia).
    rewrite length_nibbles, length_take.
    replace (2 * k + 1 - 2 * (k `min` length o))%nat with 1%nat; [done|].
    apply lookup_lt_Some in Hv. lia. }
  assert (H0 : drop (2 * k + 1) (nibbles o) !! 0%nat = Some (v mod 16)).
  { by rewrite lookup_drop, Nat.add_0_r. }
  rewrite Hz in H0. apply lookup_replicate_1 in H0 as [-> _]. done.
Qed.

Lemma slice_to_ok {E A} (d : list A) n :
  (n ≤ length d)%nat → @slice_to E A d n = Ok (take n d).
Proof.
  intros. unfold slice_to, get_to. by rewrite (proj2 (Nat.leb_le _ _)) by lia.
Qed.

Lemma is_bytes_lookup d i v : is_bytes d → d !! i = Some v → u8 v.
Proof. intros Hd Hv. exact (Forall_lookup_1 _ _ _ _ Hd Hv). Qed.

Lemma cmp_oid_abbrev p o :
  wf_prefix p → wf_oid o →
  cmp_oid p o = Ok (bytes_cmp (abbrev (hex_len p) (as_oid p)) (abbrev (hex_len p) o)).
Proof.
  intros ((Hlp & Hbp) & [Hmin Hmax] & Hz) [Hlo Hbo]. unfold cmp_oid, as_oid in *.
  destruct (even_odd_len (hex_len p)) as [Hn Hm].
  set (k := (hex_len p / 2)%nat) in *.
  rewrite (slice_to_ok (as_slice _) k), (slice_to_ok o k) by lia. rewrite !bind_Ok.
  destruct (Nat.eqb_spec (hex_len p mod 2) 1) as [Hodd|Hev].
  - assert (Hk : (k < 20)%nat) by lia.
    destruct (lookup_lt_is_Some_2 (as_slice (bytes_ p)) k ltac:(lia)) as [x Hx].
    destruct (lookup_lt_is_Some_2 o k ltac:(lia)) as [y Hy].
    unfold idx. rewrite Hx, Hy. cbn [expect]. rewrite !bind_Ok. f_equal. unfold abbrev.
    assert (Hn1 : hex_len p = (2 * k + 1)%nat) by lia.
    rewrite Hn1. rewrite (take_nibbles_odd k _ x Hx), (take_nibbles_odd k _ y Hy).
    rewrite bytes_cmp_app by (rewrite !length_nibbles, !length_take; lia).
    rewrite <- bytes_cmp_nibbles by (rewrite !length_take; lia). f_equal. simpl.
    pose proof (low_nibble_zero _ _ k x Hz Hn1 ltac:(lia) Hx Hlp) as Hx0.
    rewrite land_240 by (eapply is_bytes_lookup; eauto).
    pose proof (Z.div_mod x 16). rewrite <- (mul16_compare (x / 16)).
    replace (x / 16 * 16) with x by lia. by destruct (x ?= _).
  - rewrite bind_Ok. f_equal. unfold abbrev.
    assert (Hn1 : hex_len p = (2 * k)%nat) by lia. rewrite Hn1.
    rewrite !take_nibbles_even.
    rewrite <- bytes_cmp_nibbles by (rewrite !length_take; lia).
    by destruct (bytes_cmp _ _).
Qed.

Lemma nibbles_zeros m : nibbles (replicate m 0) = replicate (2 * m) 0.
Proof.
  induction m as [|m IH]; simpl; [done|].
  replace (m + S (m + 0))%nat with (S (2 * m)) by lia. simpl. by rewrite IH.
Qed.

(** Zeroes behind the prefix, in bytes. *)
Lemma zero_bytes d n c :
  drop n (nibbles d) = replicate (40 - n) 0 → length d = 20%nat →
  (n ≤ 2 * c)%nat → (c ≤ 20)%nat → drop c d = replicate (20 - c) 0.
Proof.
  intros Hz Hl Hn Hc. apply nibbles_inj. rewrite nibbles_zeros.
  assert (Hd : nibbles (drop c d) = drop (2 * c) (nibbles d)).
  { rewrite <- (take_drop c d) at 2. rewrite nibbles_app.
    rewrite drop_app_length'; [done|]. rewrite length_nibbles, length_take. lia. }
  rewrite Hd. replace (2 * c)%nat with (n + (2 * c - n))%nat at 1 by lia.
  rewrite <- drop_drop, Hz, drop_replicate. f_equal. lia.
Qed.

Lemma abbrev_app n o1 o2 :
  (n ≤ 2 * length o1)%nat → abbrev n (o1 ++ o2) = abbrev n o1.
Proof.
  intros. unfold abbrev. rewrite nibbles_app.
  by rewrite take_app_le by (rewrite length_nibbles; lia).
Qed.

(** The digits kept by truncating to [n] digits. *)
Definition truncated (n : nat) (o : bytes) : bytes :=
  let k := (n / 2)%nat in
  if (n mod 2 =? 1)%nat
  then take k o ++ from_option (λ v, [v / 16 * 16]) [] (o !! k) ++ replicate (19 - k) 0
  else take k o ++ replicate (20 - k) 0.

Lemma truncated_spec n o :
  wf_oid o → (n ≤ 40)%nat →
  wf_oid (truncated n o) ∧ abbrev n (truncated n o) = abbrev n o ∧
  drop n (nibbles (truncated n o)) = replicate (40 - n) 0.
Proof.
  intros [Hl Hb] Hn. destruct (even_odd_len n) as [Hnk Hm]. unfold truncated.
  set (k := (n / 2)%nat) in *. clearbody k.
  destruct (Nat.eqb_spec (n mod 2) 1) as [Hodd|Hev].
  - destruct (lookup_lt_is_Some_2 o k ltac:(lia)) as [v Hv]. rewrite Hv. simpl.
    pose proof (is_bytes_lookup _ _ _ Hb Hv) as Hv8.
    assert (Hn1 : n = (2 * k + 1)%nat) by lia. clear Hnk Hm Hodd. subst n.
    split; [split|split].
    + rewrite length_app, length_take. simpl. rewrite length_replicate. lia.
    + apply Forall_app. split; [by apply Forall_take|]. constructor.
      * pose proof (Z.div_mod v 16). pose proof (Z.mod_pos_bound v 16).
        pose proof (Z.div_pos v 16). lia.
      * apply Forall_replicate. lia.
    + rewrite cons_middle, app_assoc, abbrev_app by (rewrite length_app, length_take; simpl; lia).
      unfold abbrev. rewrite (take_nibbles_odd k o v Hv).
      rewrite nibbles_app, take_app, length_nibbles, length_take.
      rewrite take_ge by (rewrite length_nibbles, length_take; lia).
      replace (2 * k + 1 - 2 * (k `min` length o))%nat with 1%nat by lia.
      simpl. by rewrite Z.div_mul by lia.
    + rewrite nibbles_app, drop_app_ge by (rewrite length_nibbles, length_take; lia).
      rewrite length_nibbles, length_take.
      replace (2 * k + 1 - 2 * (k `min` length o))%nat with 1%nat by lia.
      cbn [nibbles drop]. rewrite Z.mod_mul, nibbles_zeros by lia.
      change (0 :: ?l) with (replicate 1 0 ++ l). rewrite <- replicate_add. f_equal. lia.
  - assert (Hn1 : n = (2 * k)%nat) by lia. clear Hnk Hm Hev. subst n.
    split; [split|split].
    + rewrite length_app, length_take, length_replicate. lia.
    + apply Forall_app. split; [by apply Forall_take|]. apply Forall_replicate. lia.
    + rewrite abbrev_app by (rewrite length_take; lia). unfold abbrev.
      rewrite !take_nibbles_even, take_take. by rewrite Nat.min_id.
    + rewrite nibbles_app, drop_app_length'
        by (rewrite length_nibbles, length_take; lia).
      rewrite nibbles_zeros. f_equal. lia.
Qed.

Lemma prefix_new_ok o n :
  wf_oid o → (MIN_HEX_LEN ≤ n ≤ 40)%nat →
  prefix_new o n = Ok (mkPrefix (Sha1 (truncated n o)) n).
Proof.
  intros [Hl Hb] Hn. unfold MIN_HEX_LEN in *. unfold prefix_new, oid_kind, from_len_in_bytes.
  rewrite Hl. cbn [Nat.eqb lift]. rewrite bind_Ok. cbn [len_in_hex null as_slice].
  rewrite (proj2 (Nat.ltb_ge _ _)), (proj2 (Nat.ltb_ge _ _)) by (unfold MIN_HEX_LEN; lia).
  destruct (even_odd_len n) as [Hnk Hm]. set (k := (n / 2)%nat) in *.
  assert (Hc : ((n + 1) / 2)%nat = (k + n mod 2)%nat).
  { symmetry. apply (Nat.div_unique _ _ _ (1 - n mod 2)%nat); lia. }
  rewrite Hc, slice_to_ok, bind_Ok by lia. rewrite drop_replicate.
  unfold truncated. fold k. destruct (Nat.eqb_spec (n mod 2) 1) as [Hodd|Hev].
  - destruct (lookup_lt_is_Some_2 o k ltac:(lia)) as [v Hv]. rewrite Hv, Hodd. cbn [from_option].
    replace (k + 1)%nat with (S k) by lia.
    rewrite (take_S_r _ _ _ Hv), <- app_assoc. cbn [app].
    assert (Hkl : length (take k o) = k) by (rewrite length_take; lia).
    assert (Hidx : ∀ r, @idx PrefixError (take k o ++ v :: r) k = Ok v).
    { intros r. unfold idx. by rewrite lookup_app_r, Hkl, Nat.sub_diag by lia. }
    rewrite Hidx, bind_Ok. rewrite insert_app_r_alt, Hkl, Nat.sub_diag by lia.
    rewrite bind_Ok. rewrite land_240 by (eapply is_bytes_lookup; eauto).
    by replace (20 - S k)%nat with (19 - k)%nat by lia.
  - replace (n mod 2)%nat with 0%nat by lia. rewrite Nat.add_0_r. by rewrite bind_Ok.
Qed.

Lemma wf_truncated o n :
  wf_oid o → (MIN_HEX_LEN ≤ n ≤ 40)%nat →
  wf_prefix (mkPrefix (Sha1 (truncated n o)) n).
Proof. intros Ho Hn. by destruct (truncated_spec n o Ho) as (? & ? & ?); [lia|]. Qed.

Section HexLemmas.
Context `{Hapi : !faster_hex.Api} `{Hlaws : !faster_hex.Laws}.

Lemma hex_display_ok o n :
  wf_oid o → (n ≤ 40)%nat → hex_display o n = Ok (hex_digit <$> abbrev n o).
Proof.
  intros [Hl Hb] Hn. unfold hex_display, hex_to_buf. rewrite Hl. cbn [len_in_hex longest].
  rewrite (proj2 (Nat.leb_le _ _)), bind_Ok by lia.
  rewrite faster_hex.hex_encode_spec by done.
  rewrite length_hex, Hl. rewrite Nat.min_l by lia.
  rewrite slice_to_ok by (rewrite length_hex; lia). unfold hex, abbrev.
  by rewrite fmap_take.
Qed.

Lemma hex_decode_hex d :
  is_bytes d → faster_hex.hex_decode (hex d) = Ok d.
Proof.
  intros Hd. rewrite faster_hex.hex_decode_spec.
  - by rewrite unhex_hex.
  - rewrite length_hex. by rewrite Nat.even_mul.
Qed.

(** The digits of a prefix, padded to whole bytes, are those of its bytes. *)
Lemma padded_digits p :
  wf_prefix p →
  let n := hex_len p in
  (hex_digit <$> abbrev n (as_oid p)) ++ (if (n mod 2 =? 0)%nat then [] else [ch "0"]) =
    hex (take ((n + 1) / 2) (as_oid p)).
Proof.
  intros ((Hlp & Hbp) & [Hmin Hmax] & Hz). unfold as_oid in *. cbv zeta.
  destruct (even_odd_len (hex_len p)) as [Hnk Hm]. set (n := hex_len p) in *.
  set (k := (n / 2)%nat) in *.
  assert (Hc : ((n + 1) / 2)%nat = (k + n mod 2)%nat).
  { symmetry. apply (Nat.div_unique _ _ _ (1 - n mod 2)%nat); lia. }
  rewrite Hc. unfold hex, abbrev.
  destruct (Nat.eqb_spec (n mod 2) 0) as [Hev|Hodd].
  - rewrite app_nil_r, Hev, Nat.add_0_r, <- take_nibbles_even. do 2 f_equal. lia.
  - assert (Hn1 : n = (2 * k + 1)%nat) by lia.
    destruct (lookup_lt_is_Some_2 (as_slice (bytes_ p)) k ltac:(lia)) as [v Hv].
    pose proof (low_nibble_zero _ _ k v Hz Hn1 ltac:(lia) Hv Hlp) as Hlow.
    replace (n mod 2)%nat with 1%nat by lia. replace (k + 1)%nat with (S k) by lia.
    rewrite (take_S_r _ _ _ Hv), nibbles_app, fmap_app. rewrite Hn1 at 1.
    rewrite (take_nibbles_odd k _ v Hv), fmap_app, <- app_assoc. f_equal.
    simpl. by rewrite Hlow.
Qed.

Lemma prefix_from_hex_ok value p :
  wf_prefix p → value = hex_digit <$> abbrev (hex_len p) (as_oid p) →
  prefix_from_hex value = Ok p.
Proof.
  intros Hp ->. pose proof (padded_digits p Hp) as Hpad. cbv zeta in Hpad.
  pose proof (even_odd_len (hex_len p)) as [Hnk Hm].
  destruct Hp as ((Hlp & Hbp) & [Hmin Hmax] & Hz).
  unfold prefix_from_hex. unfold MIN_HEX_LEN in *.
  assert (Hlen : length (hex_digit <$> abbrev (hex_len p) (as_oid p)) = hex_len p).
  { unfold abbrev, as_oid. rewrite length_fmap, length_take, length_nibbles, Hlp. lia. }
  rewrite Hlen. cbn [len_in_hex longest].
  rewrite (proj2 (Nat.ltb_ge _ _)), (proj2 (Nat.ltb_ge _ _)) by (unfold MIN_HEX_LEN; lia).
  set (c := ((hex_len p + 1) / 2)%nat) in *.
  assert (Hc : (hex_len p ≤ 2 * c ∧ c ≤ 20)%nat).
  { assert (c = (hex_len p / 2 + hex_len p mod 2)%nat) as ->; [|lia].
    symmetry. apply (Nat.div_unique _ _ _ (1 - hex_len p mod 2)%nat); lia. }
  assert (Hdec : (if (hex_len p mod 2 =? 0)%nat
     then faster_hex.hex_decode (hex_digit <$> abbrev (hex_len p) (as_oid p))
     else faster_hex.hex_decode ((hex_digit <$> abbrev (hex_len p) (as_oid p)) ++ [ch "0"]))
     = Ok (take c (as_oid p))).
  { rewrite <- (hex_decode_hex (take c (as_oid p))) by by apply Forall_take.
    rewrite <- Hpad. destruct (_ =? 0)%nat; [by rewrite app_nil_r|done]. }
  rewrite Hdec, bind_Ok. unfold from_hex_len.
  rewrite (proj2 (Nat.leb_le _ _)) by lia. cbn [expect]. rewrite bind_Ok. cbn [null as_slice].
  assert (Hlc : length (take c (as_oid p)) = c) by (rewrite length_take; unfold as_oid; lia).
  rewrite Hlc, slice_to_ok, bind_Ok by (rewrite length_replicate; lia).
  rewrite drop_replicate, <- (zero_bytes (as_oid p) (hex_len p) c) by (done || lia).
  rewrite take_drop. by destruct p as [[d] n].
Qed.

(** ** Properties *)

(** Comparing a prefix with a full id is comparing hexadecimal digits:
    [Prefix::cmp_oid] is the lexicographic order of the first [hex_len] digits
    of both, also when the prefix ends in the middle of a byte, and never
    indexes out of range. *)
Theorem cmp_oid_is_digit_order p o :
  wf_prefix p → wf_oid o →
  cmp_oid p o = Ok (bytes_cmp (abbrev (hex_len p) (as_oid p)) (abbrev (hex_len p) o)).
Proof. apply cmp_oid_abbrev. Qed.

(** [Prefix::new] truncates: for every full id and every admissible
    length it yields a well-formed prefix that compares equal to an id exactly
    when the id starts with the same digits; lengths outside 4..=40 are
    rejected with the matching error. *)
Theorem prefix_new_matches o n :
  wf_oid o →
  if (n <? MIN_HEX_LEN)%nat then prefix_new o n = Err (TooShort n)
  else if (40 <? n)%nat then prefix_new o n = Err (TooLong KSha1 n)
  else ∃ p, prefix_new o n = Ok p ∧ wf_prefix p ∧ hex_len p = n ∧
    ∀ c, wf_oid c → cmp_oid p c = Ok Eq ↔ abbrev n c = abbrev n o.
Proof.
  intros Ho. destruct (Nat.ltb_spec n MIN_HEX_LEN) as [Hs|Hs].
  { unfold MIN_HEX_LEN in *. unfold prefix_new, oid_kind, from_len_in_bytes.
    destruct Ho as [-> _]. cbn [Nat.eqb lift]. rewrite bind_Ok. cbn [len_in_hex].
    rewrite (proj2 (Nat.ltb_ge 40 n)) by lia.
    by rewrite (proj2 (Nat.ltb_lt n MIN_HEX_LEN)) by (unfold MIN_HEX_LEN; lia). }
  destruct (Nat.ltb_spec 40 n) as [Ht|Ht].
  { unfold prefix_new, oid_kind, from_len_in_bytes.
    destruct Ho as [-> _]. cbn [Nat.eqb lift]. rewrite bind_Ok. cbn [len_in_hex].
    by rewrite (proj2 (Nat.ltb_lt 40 n)) by lia. }
  pose proof (wf_truncated o n Ho ltac:(lia)) as Hwf.
  exists (mkPrefix (Sha1 (truncated n o)) n).
  split_and!; [by apply prefix_new_ok|done..|]. intros c Hc.
  rewrite cmp_oid_abbrev by done. unfold as_oid. cbn [hex_len bytes_ as_slice].
  destruct (truncated_spec n o Ho) as (_ & -> & _); [lia|].
  split; [intros [= H]; symmetry; by apply bytes_cmp_eq|].
  intros ->. by rewrite bytes_cmp_refl.
Qed.

(** Abbreviated ids round-trip through text: printing a well-formed prefix
    yields its [hex_len] digits and parsing them yields the prefix again. *)
Theorem prefix_text_roundtrip p :
  wf_prefix p →
  ∃ text, prefix_display p = Ok text ∧ length text = hex_len p ∧
    prefix_from_hex text = Ok p.
Proof.
  intros Hp. exists (hex_digit <$> abbrev (hex_len p) (as_oid p)).
  pose proof Hp as (Hid & Hn & Hz). split_and!.
  - apply hex_display_ok; [done|lia].
  - unfold abbrev, as_oid. rewrite length_fmap, length_take, length_nibbles.
    destruct Hid as [-> _]. lia.
  - by apply prefix_from_hex_ok.
Qed.

(** Full ids round-trip through text: [ObjectId::from_hex] reads back the
    forty digits that [to_hex] prints, and rejects any other length. *)
Theorem object_id_text_roundtrip id :
  wf_id id →
  (∃ text, to_hex (as_slice id) = Ok text ∧ length text = 40%nat ∧
     from_hex text = Ok id) ∧
  ∀ s, length s ≠ 40%nat → from_hex s = Err (InvalidHexEncodingLength (length s)).
Proof.
  intros Hid. split.
  - exists (hex (as_slice id)). destruct Hid as [Hl Hb]. unfold to_hex.
    rewrite Hl, hex_display_ok by (done || lia). unfold abbrev, from_hex.
    rewrite take_ge by (rewrite length_nibbles; lia).
    rewrite length_hex, Hl. split_and!; [done..|]. cbn [Nat.mul Nat.add Nat.eqb].
    rewrite hex_decode_hex by done. by destruct id.
  - intros s Hs. unfold from_hex. by rewrite (proj2 (Nat.eqb_neq _ _)) by done.
Qed.

End HexLemmas.

(** *** Witnesses *)

Definition sample_id : ObjectId := empty_blob KSha1.
Definition sample_prefix : Prefix := mkPrefix (Sha1 (truncated 7 (as_slice sample_id))) 7.

Lemma sample_wf : wf_oid (as_slice sample_id).
Proof. split; [done|]. repeat constructor; vm_compute; intuition discriminate. Qed.
Lemma sample_prefix_wf : wf_prefix sample_prefix.
Proof. apply wf_truncated; [apply sample_wf|unfold MIN_HEX_LEN; lia]. Qed.

Lemma cmp_oid_is_digit_order_witness :
  cmp_oid sample_prefix (as_slice (empty_tree KSha1)) = Ok Gt.
Proof.
  rewrite (cmp_oid_is_digit_order sample_prefix (as_slice (empty_tree KSha1))).
  - vm_compute. reflexivity.
  - apply sample_prefix_wf.
  - split; [done|]. repeat constructor; vm_compute; intuition discriminate.
Defined.

Lemma prefix_new_matches_witness :
  ∃ p, prefix_new (as_slice sample_id) 7 = Ok p ∧ wf_prefix p ∧ hex_len p = 7%nat ∧
    ∀ c, wf_oid c → cmp_oid p c = Ok Eq ↔ abbrev 7 c = abbrev 7 (as_slice sample_id).
Proof. apply (prefix_new_matches (as_slice sample_id) 7 sample_wf). Defined.

Lemma prefix_text_roundtrip_witness :
  ∃ text, @prefix_display hex_impl sample_prefix = Ok text ∧ length text = 7%nat ∧
    @prefix_from_hex hex_impl text = Ok sample_prefix.
Proof.
  exact (@prefix_text_roundtrip hex_impl hex_impl_laws sample_prefix sample_prefix_wf).
Defined.

Lemma object_id_text_roundtrip_witness :
  @from_hex hex_impl (bs "e69de29bb2d1d6434b8b29ae775ad8c2e48c5391") = Ok sample_id ∧
  ∃ text, @to_hex hex_impl (as_slice sample_id) = Ok text ∧ length text = 40%nat ∧
     @from_hex hex_impl text = Ok sample_id.
Proof.
  split; [vm_compute; reflexivity|].
  apply (@object_id_text_roundtrip hex_impl hex_impl_laws sample_id). apply sample_wf.
Defined.
