(* ===== verification/Btoi.v ===== *)
(** * Integers from bytes

    Models [gix-utils/src/btoi.rs]: parsing integers of any width from byte
    strings in a given radix. *)

From S2P Require Import Prelude External.

(** ** The code *)

Inductive ErrorKind := Empty | InvalidDigit | Overflow | Underflow.

(** [MinNumTraits]: an integer type is its range; the operations are those of
    the primitive types. *)
Class MinNumTraits := { int_min : Z; int_max : Z }.
Section Ops.
Context {I : MinNumTraits}.
Definition checked (z : Z) : option Z :=
  if (int_min <=? z) && (z <=? int_max) then Some z else None.
Definition from_u32 (n : Z) : option Z := checked n.
Definition checked_mul (a b : Z) : option Z := checked (a * b).
Definition checked_add (a b : Z) : option Z := checked (a + b).
Definition checked_sub (a b : Z) : option Z := checked (a - b).

(** [char::to_digit]: digits and letters of either case below the radix. *)
Definition to_digit (radix c : Z) : option Z :=
  d ← (if is_ascii_digit c then Some (c - ch "0")
       else if is_ascii_lowercase c then Some (c - ch "a" + 10)
       else if is_ascii_uppercase c then Some (c - ch "A" + 10)
       else None);
  if d <? radix then Some d else None.

(** The loop of [to_unsigned_with_radix]. *)
Fixpoint unsigned_loop (radix base result : Z) (digits : bytes) : res ErrorKind Z :=
  match digits with
  | [] => Ok result
  | digit :: digits =>
      x ← ok_or (to_digit radix digit ≫= from_u32) InvalidDigit;
      result ← ok_or (checked_mul result base) Overflow;
      result ← ok_or (checked_add result x) Overflow;
      unsigned_loop radix base result digits
  end.
Definition to_unsigned_with_radix (s : bytes) (radix : Z) : res ErrorKind Z :=
  _ ← assert_ (between 2 36 radix);
  base ← expect (from_u32 radix);
  if bool_decide (s = []) then Err Empty else unsigned_loop radix base 0 s.
Definition to_unsigned (s : bytes) : res ErrorKind Z := to_unsigned_with_radix s 10.

(** The loop of [to_signed_with_radix] behind a minus sign. *)
Fixpoint negative_loop (radix base result : Z) (digits : bytes) : res ErrorKind Z :=
  match digits with
  | [] => Ok result
  | digit :: digits =>
      x ← ok_or (to_digit radix digit ≫= from_u32) InvalidDigit;
      result ← ok_or (checked_mul result base) Underflow;
      result ← ok_or (checked_sub result x) Underflow;
      negative_loop radix base result digits
  end.
Definition to_signed_with_radix (s : bytes) (radix : Z) : res ErrorKind Z :=
  _ ← assert_ (between 2 36 radix);
  base ← expect (from_u32 radix);
  match s with
  | [] => Err Empty
  | c :: rest =>
      if c =? ch "+" then to_unsigned_with_radix rest radix
      else if c =? ch "-" then
        if bool_decide (rest = []) then Err Empty else negative_loop radix base 0 rest
      else to_unsigned_with_radix s radix
  end.
Definition to_signed (s : bytes) : res ErrorKind Z := to_signed_with_radix s 10.
End Ops.

(** [min_num_traits!] for the types of the code. *)
Definition int_u8 : MinNumTraits := {| int_min := 0; int_max := 2 ^ 8 - 1 |}.
Definition int_i32 : MinNumTraits := {| int_min := - 2 ^ 31; int_max := 2 ^ 31 - 1 |}.
Definition int_i64 : MinNumTraits := {| int_min := - 2 ^ 63; int_max := 2 ^ 63 - 1 |}.
Definition int_u64 : MinNumTraits := {| int_min := 0; int_max := 2 ^ 64 - 1 |}.
Definition int_usize : MinNumTraits := {| int_min := 0; int_max := 2 ^ 64 - 1 |}.

(** ** Specification *)

(** The digits of a numeral and its value. *)
Definition digits_of (radix : Z) (s : bytes) : option (list Z) := mapM (to_digit radix) s.
Definition value (radix : Z) (acc : Z) (ds : list Z) : Z :=
  foldl (λ a d, a * radix + d) acc ds.

(** A type that has zero and all digits. *)
Definition wf_int (I : MinNumTraits) : Prop := int_min ≤ 0 ∧ 36 ≤ int_max.

(** ** Lemmas *)

Section Checked.
Context {I : MinNumTraits}.

Lemma checked_Some z v : checked z = Some v ↔ v = z ∧ int_min ≤ z ≤ int_max.
Proof.
  unfold checked. destruct (Z.leb_spec int_min z), (Z.leb_spec z int_max); simpl;
    split; intros H1; naive_solver lia.
Qed.
Lemma checked_ok {E} z (e : E) : int_min ≤ z ≤ int_max → ok_or (checked z) e = Ok z.
Proof. intros H. rewrite (proj2 (checked_Some z z)) by auto. done. Qed.
Lemma checked_err {E} z (e : E) : ¬ (int_min ≤ z ≤ int_max) → ok_or (checked z) e = Err e.
Proof.
  intros H. destruct (checked z) eqn:E1; [|done]. by apply checked_Some in E1 as [_ ?].
Qed.
End Checked.

Section Lemmas.
Context {I : MinNumTraits} (Hwf : wf_int I).
Context (radix : Z) (Hradix : 2 ≤ radix ≤ 36).

Lemma to_digit_range c d : to_digit radix c = Some d → 0 ≤ d < radix.
Proof.
  unfold to_digit, is_ascii_digit, is_ascii_lowercase, is_ascii_uppercase, between.
  intros H. apply bind_Some in H as (x & Hx & H). change (ch "0") with 48 in *.
  change (ch "9") with 57 in *. change (ch "a") with 97 in *. change (ch "z") with 122 in *.
  change (ch "A") with 65 in *. change (ch "Z") with 90 in *.
  repeat case_match; simplify_eq; bool_simpl; lia.
Qed.
Lemma digit_u32 c : to_digit radix c ≫= from_u32 = to_digit radix c.
Proof.
  destruct (to_digit radix c) as [d|] eqn:E; [|done]. simpl. apply checked_Some.
  apply to_digit_range in E. destruct Hwf. split; [done|lia].
Qed.

Lemma digits_range s ds : digits_of radix s = Some ds → Forall (λ d, 0 ≤ d < radix) ds.
Proof.
  revert ds. induction s as [|c s IH]; intros ds; unfold digits_of; simpl.
  - intros [= <-]. constructor.
  - intros H. apply bind_Some in H as (d & Hd & H). apply bind_Some in H as (ds' & Hds & [= <-]).
    constructor; [by apply (to_digit_range c)|by apply IH].
Qed.
Lemma value_ge ds acc : Forall (λ d, 0 ≤ d < radix) ds → 0 ≤ acc → acc ≤ value radix acc ds.
Proof.
  intros Hds. revert acc. induction Hds as [|d ds Hd _ IH]; intros acc Hacc; [done|].
  simpl. specialize (IH (acc * radix + d)). unfold value in *. nia.
Qed.

Lemma unsigned_loop_ok s acc v :
  0 ≤ acc ≤ int_max →
  unsigned_loop radix radix acc s = Ok v ↔
  ∃ ds, digits_of radix s = Some ds ∧ v = value radix acc ds ∧ v ≤ int_max.
Proof.
  destruct Hwf as [Hmin Hmax]. unfold digits_of. revert acc.
  induction s as [|c s IH]; intros acc Hacc; simpl.
  { split; [intros [= <-]; exists []; split_and!; [done|done|lia]|].
    intros (ds & [= <-] & -> & _). done. }
  rewrite digit_u32. destruct (to_digit radix c) as [d|] eqn:Ed; simpl.
  2:{ split; [done|]. by intros (ds & ? & _). }
  pose proof (to_digit_range c d Ed) as Hd. unfold checked_mul, checked_add.
  destruct (decide (acc * radix + d ≤ int_max)) as [Hle|Hgt].
  - rewrite checked_ok by nia. simpl. rewrite checked_ok by nia. simpl. rewrite IH by nia.
    split; intros (ds & Hds & Hv).
    + exists (d :: ds). by rewrite Hds.
    + apply bind_Some in Hds as (ds' & Hds' & [= <-]). eauto.
  - assert (Hno : ¬ ∃ ds, (ds' ← mapM (to_digit radix) s; Some (d :: ds')) = Some ds ∧
      v = value radix acc ds ∧ v ≤ int_max).
    { intros (ds & Hds & -> & Hv). apply bind_Some in Hds as (ds' & Hds' & [= <-]).
      pose proof (value_ge ds' (acc * radix + d) (digits_range s ds' Hds')) as Hge.
      simpl in Hv. unfold value in *. lia. }
    split; [|done]. intros Hl. exfalso.
    destruct (decide (acc * radix ≤ int_max)).
    + rewrite checked_ok in Hl by nia. simpl in Hl. rewrite checked_err in Hl by nia. done.
    + rewrite checked_err in Hl by nia. done.
Qed.

Lemma negative_loop_ok s acc v :
  int_min ≤ - acc → 0 ≤ acc →
  negative_loop radix radix (- acc) s = Ok v ↔
  ∃ ds, digits_of radix s = Some ds ∧ v = - value radix acc ds ∧ int_min ≤ v.
Proof.
  destruct Hwf as [Hmin Hmax]. unfold digits_of. revert acc.
  induction s as [|c s IH]; intros acc Hm Hacc; simpl.
  { split; [intros [= <-]; by exists []|]. intros (ds & [= <-] & -> & _). done. }
  rewrite digit_u32. destruct (to_digit radix c) as [d|] eqn:Ed; simpl.
  2:{ split; [done|]. by intros (ds & ? & _). }
  pose proof (to_digit_range c d Ed) as Hd. unfold checked_mul, checked_sub.
  destruct (decide (int_min ≤ - (acc * radix + d))) as [Hle|Hgt].
  - rewrite checked_ok by nia. simpl. rewrite checked_ok by nia. simpl.
    replace (- acc * radix - d) with (- (acc * radix + d)) by lia. rewrite IH by nia.
    split; intros (ds & Hds & Hv).
    + exists (d :: ds). by rewrite Hds.
    + apply bind_Some in Hds as (ds' & Hds' & [= <-]). eauto.
  - assert (Hno : ¬ ∃ ds, (ds' ← mapM (to_digit radix) s; Some (d :: ds')) = Some ds ∧
      v = - value radix acc ds ∧ int_min ≤ v).
    { intros (ds & Hds & -> & Hv). apply bind_Some in Hds as (ds' & Hds' & [= <-]).
      pose proof (value_ge ds' (acc * radix + d) (digits_range s ds' Hds')) as Hge.
      simpl in Hv. unfold value in *. lia. }
    split; [|done]. intros Hl. exfalso.
    destruct (decide (int_min ≤ - acc * radix)).
    + rewrite checked_ok in Hl by nia. simpl in Hl. rewrite checked_err in Hl by nia. done.
    + rewrite checked_err in Hl by nia. done.
Qed.

Lemma to_unsigned_ok s v :
  to_unsigned_with_radix s radix = Ok v ↔
  s ≠ [] ∧ ∃ ds, digits_of radix s = Some ds ∧ v = value radix 0 ds ∧ v ≤ int_max.
Proof.
  unfold to_unsigned_with_radix, between.
  rewrite (proj2 (Z.leb_le _ _)), (proj2 (Z.leb_le _ _)) by lia. simpl.
  destruct Hwf. unfold from_u32. rewrite (proj2 (checked_Some radix radix)) by lia. simpl.
  case_bool_decide; [naive_solver|]. rewrite unsigned_loop_ok by lia. naive_solver.
Qed.

End Lemmas.

(** *** Decimal numerals are read back *)

Lemma digits_of_decimal ds :
  Forall is_dec ds → digits_of 10 ds = Some ((λ c, c - ch "0") <$> ds).
Proof.
  induction 1 as [|c ds Hc _ IH]; [done|]. unfold digits_of in *. cbn [mapM]. rewrite IH.
  unfold is_dec in Hc. unfold to_digit, is_ascii_digit, between.
  rewrite (proj2 (Z.leb_le _ _)), (proj2 (Z.leb_le _ _)) by lia. cbn.
  by rewrite (proj2 (Z.ltb_lt _ _)) by lia.
Qed.
Lemma to_unsigned_decimal {I : MinNumTraits} n :
  wf_int I → 0 ≤ n ≤ int_max → n < 2 ^ 64 → to_unsigned (itoa.decimal n) = Ok n.
Proof.
  intros Hwf Hn H64. destruct (decimal_digits n) as (Hne & Hds & Hv); [lia|].
  apply to_unsigned_ok; [done|lia|]. split; [done|].
  eexists. split; [by apply digits_of_decimal|]. split; [|lia].
  unfold value. rewrite foldl_fmap. done.
Qed.
Lemma to_signed_decimal {I : MinNumTraits} n :
  wf_int I → 0 ≤ n ≤ int_max → n < 2 ^ 64 → to_signed (itoa.decimal n) = Ok n.
Proof.
  intros Hwf Hn H64. rewrite <- (to_unsigned_decimal n) by done.
  destruct (decimal_digits n) as (Hne & Hds & _); [lia|].
  unfold to_signed, to_unsigned, to_signed_with_radix, to_unsigned_with_radix.
  destruct (itoa.decimal n) as [|c r]; [done|]. apply Forall_cons in Hds as [Hc _].
  unfold is_dec in Hc. rewrite (proj2 (Z.eqb_neq c _)), (proj2 (Z.eqb_neq c _)) by lia.
  change (between 2 36 10) with true. cbn [assert_]. rewrite !bind_Ok.
  by destruct (from_u32 10).
Qed.

(** ** Properties *)

(** C40: Integer parsing is exact.  For every integer type and radix,
    [to_signed_with_radix] returns [v] exactly when the input is an optional
    sign and one or more digits of that radix, [v] is the value they denote,
    and [v] is in the range of the type: no overflow goes unnoticed and no
    value in range is refused. *)
Theorem to_signed_exact (I : MinNumTraits) radix s v :
  wf_int I → 2 ≤ radix ≤ 36 →
  to_signed_with_radix s radix = Ok v ↔
  ∃ neg ds body, body ≠ [] ∧ digits_of radix body = Some ds ∧
    (s = body ∧ neg = false ∨ s = ch "+" :: body ∧ neg = false ∨
     s = ch "-" :: body ∧ neg = true) ∧
    v = (if neg : bool then - value radix 0 ds else value radix 0 ds) ∧
    int_min ≤ v ≤ int_max.
Proof.
  intros Hwf Hr. unfold to_signed_with_radix, between.
  rewrite (proj2 (Z.leb_le _ _)), (proj2 (Z.leb_le _ _)) by lia. simpl.
  pose proof Hwf as [Hmin Hmax]. unfold from_u32.
  rewrite (proj2 (checked_Some radix radix)) by lia. simpl.
  assert (Hsign : ∀ c l, c = ch "+" ∨ c = ch "-" → digits_of radix (c :: l) = None).
  { intros c l [-> | ->]; done. }
  assert (Hpos : ∀ ds b, digits_of radix b = Some ds → 0 ≤ value radix 0 ds).
  { intros ds b Hds. eapply value_ge; [done|by eapply digits_range|lia]. }
  destruct s as [|c rest]; [naive_solver|].
  destruct (Z.eqb_spec c (ch "+")) as [->|Hp]; [|destruct (Z.eqb_spec c (ch "-")) as [->|Hm]].
  - rewrite to_unsigned_ok by done. split.
    + intros (Hne & ds & Hds & -> & Hv). exists false, ds, rest.
      specialize (Hpos _ _ Hds). split_and!; [done|done|auto|done|lia|lia].
    + intros (neg & ds & b & Hb & Hds & Hs & Hv & Hrange).
      destruct Hs as [[<- _]|[[[= <-] ->]|[[=] _]]]; [by rewrite Hsign in Hds by auto|].
      split; [done|]. exists ds. split_and!; (done || lia).
  - case_bool_decide as Hrest.
    { split; [done|]. intros (neg & ds & b & Hb & Hds & Hs & _).
      destruct Hs as [[<- _]|[[[=] _]|[[= <-] _]]]; [by rewrite Hsign in Hds by auto|done]. }
    pose proof (negative_loop_ok Hwf radix Hr rest 0 v) as Hneg. simpl in Hneg. rewrite Hneg by lia.
    split.
    + intros (ds & Hds & -> & Hv). exists true, ds, rest. specialize (Hpos _ _ Hds).
      split_and!; [done|done|auto|done|lia|lia].
    + intros (neg & ds & b & Hb & Hds & Hs & Hv & Hrange).
      destruct Hs as [[<- _]|[[[=] _]|[[= <-] ->]]]; [by rewrite Hsign in Hds by auto|].
      exists ds. split_and!; (done || lia).
  - rewrite to_unsigned_ok by done. split.
    + intros (Hne & ds & Hds & -> & Hv). exists false, ds, (c :: rest).
      specialize (Hpos _ _ Hds). split_and!; [done|done|auto|done|lia|lia].
    + intros (neg & ds & b & Hb & Hds & Hs & Hv & Hrange).
      destruct Hs as [[<- ->]|[[Heq _]|[Heq _]]]; [|by simplify_eq..].
      split; [done|]. exists ds. split_and!; (done || lia).
Qed.
Lemma to_signed_exact_witness :
  @to_signed_with_radix int_i64 (bs "-7f") 16 = Ok (-127).
Proof.
  apply (to_signed_exact int_i64 16 (bs "-7f") (-127)).
  - split; simpl; lia.
  - lia.
  - exists true, [7; 15], (bs "7f"). split_and!; [done|reflexivity|auto|reflexivity|simpl; lia|simpl; lia].
Defined.
