(* ===== verification/Actor.v ===== *)
(** * Actors and times: [gix-actor] and [gix-date/src/time/write.rs]

    Signatures as they stand in commits and tags: a name, an email and a time
    with an offset; parsing ([signature/decode.rs]) and writing
    ([signature/mod.rs]).  An owned signature and a borrowed one are the same
    record. *)

From S2P Require Import Prelude External Winnow Btoi.

(** ** Time: [gix-date/src/lib.rs], [time/write.rs] *)

Inductive Sign := Plus | Minus.
#[global] Instance Sign_eq_dec : EqDecision Sign.
Proof. solve_decision. Defined.
Record Time := mkTime { seconds : Z; offset : Z; sign : Sign }.
#[global] Instance Time_eq_dec : EqDecision Time.
Proof. solve_decision. Defined.
Definition sign_from (v : Z) : Sign := if v <? 0 then Minus else Plus.
Definition time_new (seconds offset : Z) : Time := mkTime seconds offset (sign_from offset).

(** What writing a signature can fail with. *)
Inductive SignatureWriteError := OffsetTooLarge | IllegalCharacter.

Definition SECONDS_PER_HOUR : Z := 3600.
Section Time.
Context `{!itoa.Api}.
Definition time_write_to (t : Time) : res SignatureWriteError bytes :=
  let offset := Z.abs (offset t) in
  let hours := offset / SECONDS_PER_HOUR in
  let minutes := (offset - hours * SECONDS_PER_HOUR) / 60 in
  if 99 <? hours then Err OffsetTooLarge
  else
    Ok (itoa.format (seconds t) ++ bs " " ++ (match sign t with Plus => bs "+" | Minus => bs "-" end)
          ++ (if hours <? 10 then bs "0" else []) ++ itoa.format hours
          ++ (if minutes <? 10 then bs "0" else []) ++ itoa.format minutes).
End Time.

(** [Time::size]: the number of characters of the seconds, by comparison with
    the bounds from the top. *)
Definition seconds_bounds : list (Z * Z) :=
  [(1000000000000000000, 19); (100000000000000000, 18); (10000000000000000, 17); (1000000000000000, 16);
   (100000000000000, 15); (10000000000000, 14); (1000000000000, 13); (100000000000, 12); (10000000000, 11);
   (1000000000, 10); (100000000, 9); (10000000, 8); (1000000, 7); (100000, 6); (10000, 5); (1000, 4); (100, 3);
   (10, 2); (0, 1);
   (-10, 2); (-100, 3); (-1000, 4); (-10000, 5); (-100000, 6); (-1000000, 7); (-10000000, 8); (-100000000, 9);
   (-1000000000, 10); (-10000000000, 11); (-100000000000, 12); (-1000000000000, 13); (-10000000000000, 14);
   (-100000000000000, 15); (-1000000000000000, 16); (-10000000000000000, 17); (-100000000000000000, 18);
   (-1000000000000000000, 19)].
Fixpoint seconds_size (bounds : list (Z * Z)) (seconds : Z) : Z :=
  match bounds with
  | [] => 20
  | (b, n) :: bounds => if b <=? seconds then n else seconds_size bounds seconds
  end.
Definition time_size (t : Time) : Z := seconds_size seconds_bounds (seconds t) + 2 + 2 + 2.

(** ** Signatures: [gix-actor/src/lib.rs], [signature/mod.rs] *)

Record Identity := mkIdentity { id_name : bytes; id_email : bytes }.
Record Signature := mkSignature { name : bytes; email : bytes; time : Time }.
#[global] Instance Signature_eq_dec : EqDecision Signature.
Proof. solve_decision. Defined.
Definition actor (s : Signature) : Identity := mkIdentity (name s) (email s).

Section Signatures.
Context `{!bstr.Api} `{!itoa.Api} `{!winnow.Api}.
Import winnow.

Definition validated_token (n : bytes) : res SignatureWriteError bytes :=
  match bstr.find_byteset n [ch "<"; ch ">"; 10] with Some _ => Err IllegalCharacter | None => Ok n end.
Definition signature_write_to (s : Signature) : res SignatureWriteError bytes :=
  n ← validated_token (name s);
  e ← validated_token (email s);
  t ← time_write_to (time s);
  Ok (n ++ bs " " ++ bs "<" ++ e ++ bs "> " ++ t).
Definition signature_size (s : Signature) : Z :=
  Z.of_nat (length (name s)) + 2 + Z.of_nat (length (email s)) + 2 + time_size (time s).

(** *** [signature/decode.rs] *)

Definition identity : parser Identity := λ i,
  let eol_idx := default (length i) (bstr.find_byte i 10) in
  line ← slice_to i eol_idx;
  right_delim_idx ← ok_or (bstr.rfind_byte line (ch ">")) Cut;
  i_name_and_email ← slice_to i right_delim_idx;
  let skip_from_right := count_while (λ b, is_ascii_whitespace b || (b =? ch ">")) (reverse i_name_and_email) in
  left_delim_idx ← ok_or (bstr.find_byte i_name_and_email (ch "<")) Cut;
  from_left ← slice_from i left_delim_idx;
  let skip_from_left := count_while (λ b, is_ascii_whitespace b || (b =? ch "<")) from_left in
  name ← slice_to i left_delim_idx;
  let name := default name (strip_suffix name (bs " ")) in
  email ← ok_or (get_range i (left_delim_idx + skip_from_left) (right_delim_idx - skip_from_right)) Cut;
  Ok (mkIdentity name email, default [] (get_from i (right_delim_idx + 1))).

(** [to_signed(v).ok()]. *)
Definition signed_ok (I : MinNumTraits) (v : bytes) : option Z :=
  match @to_signed I v with Ok n => Some n | _ => None end.
Definition is_dec_digit (b : Z) : bool := is_ascii_digit b.
(** The timestamp, the sign, hours, minutes and digits behind them. *)
Definition timestamp : parser (Z * Sign * Z * Z * bytes) :=
  pair (pair (pair (pair
    (verify_map (terminated (take_until (bs " ")) (take_n 1)) (signed_ok int_i64))
    (alt (map (take_while 1 None (λ b, b =? ch "-")) (λ _, Minus))
         (map (take_while 1 None (λ b, b =? ch "+")) (λ _, Plus))))
    (verify_map (take_while 2 (Some 2%nat) is_dec_digit) (signed_ok int_i32)))
    (verify_map (take_while 1 (Some 2%nat) is_dec_digit) (signed_ok int_i32)))
    (take_while 0 None is_dec_digit).
Definition time_of (maybe_timestamp : option (Z * Sign * Z * Z * bytes)) : Time :=
  match maybe_timestamp with
  | Some (time, sign, hours, minutes, trailing_digits) =>
      let offset :=
        if bool_decide (trailing_digits = [])
        then (hours * 3600 + minutes * 60) * (match sign with Minus => -1 | Plus => 1 end) else 0 in
      mkTime time offset sign
  | None => time_new 0 0
  end.
Definition decode : parser Signature :=
  map (separated_pair identity (opt (literal (bs " "))) (map (opt timestamp) time_of))
    (λ '(identity, time), mkSignature (id_name identity) (id_email identity) time).
Definition signature_from_bytes (data : bytes) : res ErrMode Signature := fst <$> decode data.
Definition identity_from_bytes (data : bytes) : res ErrMode Identity := fst <$> identity data.
End Signatures.

(** ** What is written is read back *)

Definition wf_time (t : Time) : Prop :=
  - 2 ^ 63 ≤ seconds t < 2 ^ 63 ∧ Z.abs (offset t) < 360000 ∧ offset t mod 60 = 0 ∧
  (0 < offset t → sign t = Plus) ∧ (offset t < 0 → sign t = Minus).
(** No delimiters, and no white space around an email. *)
Definition plain_token (s : bytes) : Prop := ch "<" ∉ s ∧ ch ">" ∉ s ∧ 10 ∉ s.
Definition wf_signature (s : Signature) : Prop :=
  plain_token (name s) ∧ plain_token (email s) ∧
  Forall (λ b, is_ascii_whitespace b = false) (option_list (head (email s))) ∧
  Forall (λ b, is_ascii_whitespace b = false) (option_list (last (email s))) ∧
  wf_time (time s).

Definition pad2 (n : Z) : bytes := (if n <? 10 then bs "0" else []) ++ itoa.decimal n.
Lemma pad2_spec n : 0 ≤ n ≤ 99 →
  length (pad2 n) = 2%nat ∧ Forall (λ b, is_dec_digit b = true) (pad2 n) ∧ signed_ok int_i32 (pad2 n) = Some n.
Proof.
  intros Hn. assert (H : Forall (λ n, length (pad2 n) = 2%nat ∧ Forall (λ b, is_dec_digit b = true) (pad2 n) ∧
    signed_ok int_i32 (pad2 n) = Some n) (Z.of_nat <$> seq 0 100)).
  { apply (bool_decide_unpack _). vm_compute. exact I. }
  rewrite Forall_forall in H. apply H. apply list_elem_of_fmap. exists (Z.to_nat n). rewrite elem_of_seq. lia.
Qed.
Lemma to_signed_negative n : 0 < n ≤ 2 ^ 63 → signed_ok int_i64 (itoa.decimal (- n)) = Some (- n).
Proof.
  intros Hn. unfold itoa.decimal. rewrite (proj2 (Z.ltb_lt (- n) 0)) by lia. rewrite Z.opp_involutive.
  destruct (digits_spec 20 n []) as (ds & -> & Hne & Hds & Hv).
  { split; [lia|]. change (10 ^ Z.of_nat 21) with 1000000000000000000000. lia. }
  rewrite app_nil_r. unfold signed_ok, to_signed, to_signed_with_radix. change (between 2 36 10) with true. cbn [assert_].
  rewrite bind_Ok. unfold from_u32 at 1. rewrite (proj2 (checked_Some (I := int_i64) 10 10)) by (split; [done|cbn; lia]). cbn [expect].
  rewrite bind_Ok. change (ch "-" =? ch "+") with false. rewrite Z.eqb_refl. cbn [negb]. cbv iota.
  rewrite bool_decide_eq_false_2 by done.
  assert (Hwf : wf_int int_i64) by (split; cbn; lia).
  pose proof (negative_loop_ok (I := int_i64) Hwf 10 ltac:(lia) ds 0 (- n) ltac:(cbn; lia) ltac:(lia)) as Hneg.
  change (- 0) with 0 in Hneg. rewrite (proj2 Hneg); [done|].
  exists ((λ c, c - ch "0") <$> ds). split_and!; [by apply digits_of_decimal| |cbn; lia].
  unfold value. by rewrite foldl_fmap, Hv.
Qed.
Lemma signed_ok_decimal n : - 2 ^ 63 ≤ n < 2 ^ 63 → signed_ok int_i64 (itoa.decimal n) = Some n.
Proof.
  intros Hn. destruct (Z.ltb_spec n 0).
  - rewrite <- (Z.opp_involutive n). apply to_signed_negative. lia.
  - unfold signed_ok. rewrite to_signed_decimal; [done|split; cbn; lia|cbn; lia|lia].
Qed.
Lemma decimal_chars n : - 2 ^ 63 ≤ n < 2 ^ 64 → itoa.decimal n ≠ [] ∧ Forall (λ c, is_dec c ∨ c = ch "-") (itoa.decimal n).
Proof.
  intros Hn. unfold itoa.decimal. destruct (Z.ltb_spec n 0).
  - destruct (digits_spec 20 (- n) []) as (ds & -> & _ & Hds & _).
    { split; [lia|]. change (10 ^ Z.of_nat 21) with 1000000000000000000000. lia. }
    split; [done|]. rewrite app_nil_r. constructor; [by right|]. eapply Forall_impl; [exact Hds|]. auto.
  - destruct (digits_spec 20 n []) as (ds & -> & Hne & Hds & _).
    { split; [lia|]. change (10 ^ Z.of_nat 21) with 1000000000000000000000. lia. }
    rewrite app_nil_r. split; [done|]. eapply Forall_impl; [exact Hds|]. auto.
Qed.

Section Roundtrip.
Context {BA : bstr.Api} {BL : bstr.Laws} {IA : itoa.Api} {IL : itoa.Laws} {WA : winnow.Api} {WL : winnow.Laws}.
Import winnow.

(** A time as text. *)
Definition time_text (t : Time) : bytes :=
  itoa.decimal (seconds t) ++ bs " " ++ (match sign t with Plus => bs "+" | Minus => bs "-" end)
    ++ pad2 (Z.abs (offset t) / 3600) ++ pad2 (Z.abs (offset t) mod 3600 / 60).
Lemma time_parts t : wf_time t → 0 ≤ Z.abs (offset t) / 3600 ≤ 99 ∧ 0 ≤ Z.abs (offset t) mod 3600 / 60 ≤ 59 ∧
  Z.abs (offset t) = Z.abs (offset t) / 3600 * 3600 + Z.abs (offset t) mod 3600 / 60 * 60.
Proof.
  intros (_ & Ho & Hm & _). assert (Ha : Z.abs (offset t) mod 60 = 0).
  { destruct (Z.abs_spec (offset t)) as [[_ ->]|[_ ->]]; [done|]. by apply Z.mod_opp_l_z. }
  pose proof (Z.div_mod (Z.abs (offset t)) 3600 ltac:(lia)) as H1. pose proof (Z.mod_pos_bound (Z.abs (offset t)) 3600 ltac:(lia)) as H2.
  pose proof (Z.div_mod (Z.abs (offset t) mod 3600) 60 ltac:(lia)) as H3.
  assert (H4 : (Z.abs (offset t) mod 3600) mod 60 = 0).
  { rewrite <- (Z.mod_mod_divide _ 3600 60) in Ha by (by exists 60). done. }
  pose proof (Z.div_lt_upper_bound (Z.abs (offset t)) 3600 100 ltac:(lia) ltac:(lia)).
  pose proof (Z.div_pos (Z.abs (offset t)) 3600 ltac:(lia) ltac:(lia)).
  pose proof (Z.div_lt_upper_bound (Z.abs (offset t) mod 3600) 60 60 ltac:(lia) ltac:(lia)).
  pose proof (Z.div_pos (Z.abs (offset t) mod 3600) 60 ltac:(lia) ltac:(lia)). lia.
Qed.
Lemma time_write_text t : wf_time t → time_write_to t = Ok (time_text t).
Proof.
  intros Hw. destruct (time_parts t Hw) as (Hh & Hm & _). destruct Hw as (Hs & _). unfold time_write_to, time_text, pad2, SECONDS_PER_HOUR.
  destruct (Z.ltb_spec 99 (Z.abs (offset t) / 3600)); [lia|].
  replace (Z.abs (offset t) - Z.abs (offset t) / 3600 * 3600) with (Z.abs (offset t) mod 3600).
  - rewrite !itoa.format_spec by lia. by rewrite <- !app_assoc.
  - pose proof (Z.div_mod (Z.abs (offset t)) 3600 ltac:(lia)). lia.
Qed.
Lemma timestamp_text t rest : wf_time t → match rest with b :: _ => is_dec_digit b = false | [] => True end →
  ∃ h m, timestamp (time_text t ++ rest) = Ok (seconds t, sign t, h, m, [], rest) ∧ time_of (Some (seconds t, sign t, h, m, [])) = t.
Proof.
  intros Hw Hrest. destruct (time_parts t Hw) as (Hh & Hm & Heq). destruct Hw as (Hs & _ & _ & Hp & Hn).
  destruct (pad2_spec (Z.abs (offset t) / 3600) ltac:(lia)) as (Hl1 & Hd1 & Hv1).
  destruct (pad2_spec (Z.abs (offset t) mod 3600 / 60) ltac:(lia)) as (Hl2 & Hd2 & Hv2).
  destruct (decimal_chars (seconds t) ltac:(lia)) as [_ Hdec].
  exists (Z.abs (offset t) / 3600), (Z.abs (offset t) mod 3600 / 60). split.
  - unfold timestamp, time_text. change (bs " ") with [32] at 1. rewrite !pair_spec, verify_map_spec, terminated_spec.
    rewrite <- !app_assoc. change (bs " " ++ ?x) with (ch " " :: x). rewrite take_until_byte.
    2: { intros Hin. rewrite Forall_forall in Hdec. destruct (Hdec _ Hin) as [[]|]; lia. }
    winnow_run. rewrite take_n_spec. change (1 <=? length (ch " " :: _))%nat with true. winnow_run.
    rewrite signed_ok_decimal by lia. winnow_run. change (drop 1 (ch " " :: ?x)) with x.
    assert (Hsg : ∀ x, (match x with b :: _ => is_dec_digit b = true | [] => False end) →
      alt (map (take_while 1 None (λ b, b =? ch "-")) (λ _, Minus)) (map (take_while 1 None (λ b, b =? ch "+")) (λ _, Plus))
        ((match sign t with Plus => bs "+" | Minus => bs "-" end) ++ x) = Ok (sign t, x)).
    { intros [|b x] Hb; [done|]. assert (b ≠ ch "-" ∧ b ≠ ch "+") as [Hb1 Hb2].
      { unfold is_dec_digit, is_ascii_digit, between in Hb. bool_simpl. lia. }
      rewrite alt_spec, !map_spec. destruct (sign t).
      - change (bs "+" ++ b :: x) with ([] ++ (ch "+" :: b :: x)). rewrite (take_while_spec 1). cbn [app count_while].
        change (ch "+" =? ch "-") with false. cbn. change (ch "+" :: b :: x) with ([ch "+"] ++ b :: x).
        rewrite take_while_app; [done|done|by repeat constructor|]. by apply Z.eqb_neq.
      - change (bs "-" ++ b :: x) with ([ch "-"] ++ b :: x). rewrite take_while_app; [done|done|by repeat constructor|]. by apply Z.eqb_neq. }
    rewrite Hsg. 2: { destruct (pad2 (Z.abs (offset t) / 3600)) as [|b p]; [done|]. by apply Forall_cons in Hd1 as [? _]. }
    winnow_run. rewrite verify_map_spec, take_while_max by done. winnow_run. rewrite Hv1.
    winnow_run. rewrite verify_map_spec, take_while_max by (done || lia). winnow_run. rewrite Hv2. winnow_run.
    change rest with ([] ++ rest) at 1. rewrite take_while_app; [done|cbn; lia|constructor|done].
  - unfold time_of. rewrite bool_decide_eq_true_2 by done. destruct t as [s o sg]. cbn [seconds offset sign] in *. f_equal.
    rewrite Z.mul_comm in Heq. destruct sg; [destruct (Z.abs_spec o) as [[]|[]]; [|specialize (Hn ltac:(lia)); done]; lia|].
    destruct (Z.abs_spec o) as [[]|[]]; [destruct (decide (o = 0)) as [->|]; [cbn in *; lia|specialize (Hp ltac:(lia)); done]|lia].
Qed.

Lemma time_text_chars t : wf_time t → Forall (λ c, is_dec c ∨ c = ch "-" ∨ c = ch " " ∨ c = ch "+") (time_text t).
Proof.
  intros Hw. destruct (time_parts t Hw) as (Hh & Hm & _). destruct Hw as (Hs & _).
  destruct (decimal_chars (seconds t) ltac:(lia)) as [_ Hdec].
  assert (Hp : ∀ n, 0 ≤ n ≤ 99 → Forall (λ c, is_dec c ∨ c = ch "-" ∨ c = ch " " ∨ c = ch "+") (pad2 n)).
  { intros n Hn. destruct (pad2_spec n Hn) as (_ & Hd & _). eapply Forall_impl; [exact Hd|]. intros c Hc. left.
    unfold is_dec_digit, is_ascii_digit, between in Hc. bool_simpl. unfold is_dec. lia. }
  unfold time_text. rewrite !Forall_app. split_and!; [eapply Forall_impl; [exact Hdec|naive_solver]| |destruct (sign t)|apply Hp; lia|apply Hp; lia];
    apply Forall_singleton; auto.
Qed.
Lemma time_text_not_in b t : wf_time t → ¬ (ch "0" ≤ b ≤ ch "9") → b ≠ ch "-" → b ≠ ch " " → b ≠ ch "+" → b ∉ time_text t.
Proof.
  intros Hw H1 H2 H3 H4 Hin. pose proof (time_text_chars t Hw) as H. rewrite Forall_forall in H.
  destruct (H _ Hin) as [[? ?]|[->|[->| ->]]]; [lia|done..].
Qed.

(** A signature as text. *)
Definition identity_text (n e : bytes) : bytes := n ++ bs " <" ++ e ++ bs "> ".
Definition signature_text (s : Signature) : bytes := identity_text (name s) (email s) ++ time_text (time s).

Lemma validated_token_plain s : plain_token s → validated_token s = Ok s.
Proof.
  intros (H1 & H2 & H3). unfold validated_token. rewrite bstr.find_byteset_spec.
  rewrite (proj2 (find_index_None _ _)); [done|]. apply Forall_forall. intros x Hx. apply not_true_iff_false.
  rewrite mem_spec. intros Hin. rewrite !elem_of_cons in Hin. destruct Hin as [->|[->|[->|Hin]]]; try done. by inversion Hin.
Qed.
Lemma signature_write_text s : wf_signature s → signature_write_to s = Ok (signature_text s).
Proof.
  intros (Hn & He & _ & _ & Ht). unfold signature_write_to. rewrite (validated_token_plain _ Hn), (validated_token_plain _ He), time_write_text by done.
  winnow_run. unfold signature_text, identity_text. f_equal. by rewrite <- !app_assoc.
Qed.

Lemma count_while_head f b s : f b = false → count_while f (b :: s) = O.
Proof. intros H. cbn. by rewrite H. Qed.
(** What is skipped around the email when white space is not part of it. *)
Lemma skip_left e rest : Forall (λ b, is_ascii_whitespace b = false) (option_list (head e)) → 60 ∉ e →
  count_while (λ b, is_ascii_whitespace b || (b =? 60)) (60 :: e ++ 62 :: rest) = 1%nat.
Proof.
  intros Hh He. cbn [count_while]. change (is_ascii_whitespace 60 || (60 =? 60)) with true. f_equal.
  destruct e as [|b e]; [done|]. apply (Forall_inv (a := b) (l := [])) in Hh. apply not_elem_of_cons in He as [He _].
  apply count_while_head. cbv beta. rewrite Hh. by apply Z.eqb_neq.
Qed.
Lemma skip_right n e : Forall (λ b, is_ascii_whitespace b = false) (option_list (last e)) → 62 ∉ e →
  count_while (λ b, is_ascii_whitespace b || (b =? 62)) (reverse (n ++ 60 :: e)) = 0%nat.
Proof.
  intros Hl He. destruct e as [|b e _] using rev_ind; [by rewrite reverse_app|].
  rewrite last_snoc in Hl. apply (Forall_inv (a := b) (l := [])) in Hl. rewrite elem_of_app, list_elem_of_singleton in He.
  replace (n ++ 60 :: e ++ [b]) with ((n ++ 60 :: e) ++ [b]) by (by rewrite <- app_assoc). rewrite reverse_snoc.
  apply count_while_head. cbv beta. rewrite Hl. apply Z.eqb_neq. intuition.
Qed.
(** [identity] on a line: [line] holds what stands behind the email. *)
Lemma identity_text_read n e line rest : plain_token n → plain_token e →
  Forall (λ b, is_ascii_whitespace b = false) (option_list (head e)) →
  Forall (λ b, is_ascii_whitespace b = false) (option_list (last e)) →
  ch ">" ∉ line → 10 ∉ line → match rest with b :: _ => b = 10 | [] => True end →
  identity (identity_text n e ++ line ++ rest) = Ok (mkIdentity n e, bs " " ++ line ++ rest).
Proof.
  intros (Hn1 & Hn2 & Hn3) (He1 & He2 & He3) Hh Hl Hline1 Hline2 Hrest.
  assert (E : identity_text n e ++ line ++ rest = (n ++ bs " <" ++ e ++ bs "> " ++ line) ++ rest).
  { unfold identity_text. by rewrite <- !app_assoc. }
  assert (Heol : default (length (identity_text n e ++ line ++ rest)) (bstr.find_byte (identity_text n e ++ line ++ rest) 10)
    = length (n ++ bs " <" ++ e ++ bs "> " ++ line)).
  { rewrite E. assert (Hno : 10 ∉ n ++ bs " <" ++ e ++ bs "> " ++ line).
    { change (bs " <") with [32; 60]. change (bs "> ") with [62; 32].
      rewrite !elem_of_app, !elem_of_cons, elem_of_nil. intuition lia. }
    destruct rest as [|b rest]; [by rewrite app_nil_r, find_byte_none|]. subst b. by rewrite find_byte_app. }
  unfold identity. rewrite Heol, E, slice_to_app by done. winnow_run.
  replace (n ++ bs " <" ++ e ++ bs "> " ++ line) with ((n ++ bs " <" ++ e) ++ ch ">" :: (bs " " ++ line)) by (by rewrite <- !app_assoc).
  rewrite rfind_byte_app by (rewrite elem_of_app; intros [Hin|]; [apply list_elem_of_singleton in Hin; done|done]).
  cbn [ok_or]. winnow_run. rewrite <- app_assoc. cbn [app]. rewrite slice_to_app by done. winnow_run.
  replace (n ++ bs " <" ++ e) with ((n ++ bs " ") ++ ch "<" :: e) by (by rewrite <- app_assoc).
  rewrite find_byte_app by (rewrite elem_of_app; intros [|Hin]; [done|apply list_elem_of_singleton in Hin; done]).
  cbn [ok_or]. winnow_run. rewrite <- app_assoc. cbn [app].
  rewrite slice_from_app. winnow_run. rewrite slice_to_app by done. winnow_run.
  rewrite skip_left, skip_right by done.
  replace ((n ++ bs " ") ++ 60 :: e ++ 62 :: (bs " " ++ line) ++ rest)
    with (((n ++ bs " ") ++ [60]) ++ e ++ (62 :: bs " " ++ line ++ rest)) by (by rewrite <- !app_assoc).
  rewrite get_range_app by (rewrite !length_app; cbn; lia). cbn [ok_or]. winnow_run.
  replace (((n ++ bs " ") ++ [60]) ++ e ++ 62 :: bs " " ++ line ++ rest)
    with (((n ++ bs " ") ++ [60] ++ e ++ [62]) ++ bs " " ++ line ++ rest) by (by rewrite <- !app_assoc).
  rewrite get_from_app by (rewrite !length_app; cbn [length]; rewrite ?length_app; cbn [length]; lia).
  by rewrite strip_suffix_app.
Qed.

(** A signature on a line of its own. *)
Lemma signature_text_read s rest : wf_signature s → match rest with b :: _ => b = 10 | [] => True end →
  decode (signature_text s ++ rest) = Ok (s, rest).
Proof.
  intros (Hn & He & Hh & Hl & Ht) Hrest. unfold decode. rewrite map_spec, separated_pair_spec.
  unfold signature_text. rewrite <- app_assoc, identity_text_read; [|done..|apply time_text_not_in; [done|lia|done..]|apply time_text_not_in; [done|lia|done..]|done].
  winnow_run. rewrite opt_spec, literal_app. winnow_run. rewrite map_spec, opt_spec.
  destruct (timestamp_text (time s) rest Ht) as (h & m & -> & Htime). { destruct rest; [done|]. by subst. }
  winnow_run. rewrite Htime. by destruct s.
Qed.
Lemma signature_text_no_newline s : wf_signature s → 10 ∉ signature_text s.
Proof.
  intros ((_ & _ & Hn) & (_ & _ & He) & _ & _ & Ht). unfold signature_text, identity_text.
  change (bs " <") with [32; 60]. change (bs "> ") with [62; 32].
  rewrite !elem_of_app, !elem_of_cons, elem_of_nil.
  pose proof (time_text_not_in 10 (time s) Ht ltac:(lia) ltac:(done) ltac:(done) ltac:(done)). intuition lia.
Qed.

(** ** [Time::size] *)

Lemma digits_length k fuel n acc : (k ≤ fuel)%nat → 10 ^ Z.of_nat k ≤ n < 10 ^ Z.of_nat (S k) ∨ (k = O ∧ 0 ≤ n < 10) →
  length (itoa.digits fuel n acc) = (S k + length acc)%nat.
Proof.
  revert fuel n acc. induction k as [|k IH]; intros fuel n acc Hk Hn.
  - change (10 ^ Z.of_nat 1) with 10 in Hn. destruct fuel as [|fuel]; cbn [itoa.digits]; [done|]. by rewrite (proj2 (Z.ltb_lt _ _)) by lia.
  - destruct Hn as [Hn|[[=] _]]. destruct fuel as [|fuel]; [lia|]. cbn [itoa.digits].
    rewrite !Nat2Z.inj_succ, !Z.pow_succ_r in Hn by lia. pose proof (Z.pow_pos_nonneg 10 (Z.of_nat k) ltac:(lia) ltac:(lia)).
    rewrite (proj2 (Z.ltb_ge _ _)) by lia. rewrite IH; [cbn; lia|lia|]. left. rewrite Nat2Z.inj_succ, Z.pow_succ_r by lia.
    split; [apply Z.div_le_lower_bound; lia|apply Z.div_lt_upper_bound; lia].
Qed.
Lemma decimal_length k n lo hi : lo = 10 ^ Z.of_nat k → hi = 10 ^ Z.of_nat (S k) → (k ≤ 19)%nat → lo ≤ n < hi →
  length (itoa.decimal n) = S k ∧ length (itoa.decimal (- n)) = S (S k).
Proof.
  intros -> -> Hk Hn. pose proof (Z.pow_pos_nonneg 10 (Z.of_nat k) ltac:(lia) ltac:(lia)). unfold itoa.decimal.
  rewrite (proj2 (Z.ltb_ge _ _)), (proj2 (Z.ltb_lt _ _)) by lia. rewrite Z.opp_involutive. cbn [length].
  rewrite (digits_length k) by (auto || lia). cbn. lia.
Qed.
Definition negative_power_of_ten (n : Z) : Prop := ∃ k, (1 ≤ k ≤ 18)%nat ∧ n = - 10 ^ Z.of_nat k.
(** Between two powers of ten, with [k + 1] digits. *)
Ltac decimal_length_at k n tac :=
  let lo := eval vm_compute in (10 ^ Z.of_nat k) in
  let hi := eval vm_compute in (10 ^ Z.of_nat (S k)) in
  let H := fresh in pose proof (decimal_length k n lo hi eq_refl eq_refl) as H; destruct H; [lia|tac|].
Lemma seconds_size_length n : - 2 ^ 63 ≤ n < 2 ^ 63 → ¬ negative_power_of_ten n →
  seconds_size seconds_bounds n = Z.of_nat (length (itoa.decimal n)).
Proof.
  intros Hn Hp. assert (Hp' : ∀ k m, m = - 10 ^ Z.of_nat k → (1 ≤ k ≤ 18)%nat → n ≠ m).
  { intros k m -> Hk ->. apply Hp. by exists k. }
  clear Hp. destruct (decide (n = 0)) as [->|H0]; [done|]. unfold seconds_size, seconds_bounds.
  repeat match goal with
  | |- context [?b <=? ?m] => destruct (Z.leb_spec b m)
  end;
  match goal with
  | |- ?c = _ => assert_succeeds (assert (0 < n) by lia); let k := eval vm_compute in (Z.to_nat c - 1)%nat in decimal_length_at k n lia; lia
  | |- 20 = _ => decimal_length_at 18%nat (- n) lia; rewrite Z.opp_involutive in *; lia
  | |- ?c = _ =>
      let k := eval vm_compute in (Z.to_nat c - 2)%nat in
      let m := eval vm_compute in (- 10 ^ Z.of_nat (S k)) in
      pose proof (Hp' (S k) m eq_refl ltac:(lia)); decimal_length_at k (- n) lia; rewrite Z.opp_involutive in *; lia
  end.
Qed.
Lemma time_size_text t : wf_time t → ¬ negative_power_of_ten (seconds t) → time_size t = Z.of_nat (length (time_text t)).
Proof.
  intros Hw Hp. destruct (time_parts t Hw) as (Hh & Hm & _). destruct Hw as (Hs & _).
  destruct (pad2_spec (Z.abs (offset t) / 3600) ltac:(lia)) as (Hl1 & _).
  destruct (pad2_spec (Z.abs (offset t) mod 3600 / 60) ltac:(lia)) as (Hl2 & _).
  unfold time_size, time_text. rewrite seconds_size_length by done. rewrite !length_app, Hl1, Hl2.
  change (length (bs " ")) with 1%nat. replace (length (match sign t with Plus => bs "+" | Minus => bs "-" end)) with 1%nat by (by destruct (sign t)). lia.
Qed.
Lemma signature_size_text s : wf_signature s → ¬ negative_power_of_ten (seconds (time s)) → signature_size s = Z.of_nat (length (signature_text s)).
Proof.
  intros (_ & _ & _ & _ & Ht) Hp. unfold signature_size, signature_text, identity_text. rewrite time_size_text by done.
  rewrite !length_app. change (length (bs " <")) with 2%nat. change (length (bs "> ")) with 2%nat. lia.
Qed.
(** The size of a time at a negative power of ten is one too small: the bound
    is compared with [>=]. *)
Example time_size_one_too_small : 
  let t := mkTime (-10) 0 Plus in
  time_size t = 8 ∧ time_write_to (H := itoa_impl) t = Ok (bs "-10 +0000") ∧ length (bs "-10 +0000") = 9%nat.
Proof. split_and!; vm_compute; reflexivity. Qed.
End Roundtrip.

(** ** Parsing is total *)

Section Total.
Context {BA : bstr.Api} {BL : bstr.Laws} {WA : winnow.Api} {WL : winnow.Laws}.
Import winnow.

Lemma find_index_lt {A} (f : A → bool) l k : find_index f l = Some k → (k < length l)%nat.
Proof. rewrite find_index_Some. intros [(x & Hx & _) _]. by apply lookup_lt_Some in Hx. Qed.
Lemma rfind_index_lt {A} (f : A → bool) l k : bstr.rfind_index f l = Some k → (k < length l)%nat.
Proof.
  revert k. induction l as [|x l IH]; intros k; cbn; [done|]. destruct (bstr.rfind_index f l) as [j|].
  - intros [= <-]. specialize (IH j eq_refl). lia.
  - destruct (f x); [|done]. intros [= <-]. lia.
Qed.
Lemma total_identity : total 0 identity.
Proof.
  intros i. unfold identity. set (eol := default (length i) (bstr.find_byte i 10)).
  assert (He : (eol ≤ length i)%nat).
  { unfold eol. rewrite bstr.find_byte_spec. destruct (find_index _ i) as [k|] eqn:E; [|done]. apply find_index_lt in E. cbn. lia. }
  rewrite slice_to_le by done. winnow_run. rewrite bstr.rfind_byte_spec.
  destruct (bstr.rfind_index _ _) as [r|] eqn:Er; [|done]. apply rfind_index_lt in Er. rewrite length_take in Er. cbn [ok_or]. winnow_run.
  rewrite slice_to_le by lia. winnow_run. rewrite bstr.find_byte_spec.
  destruct (find_index _ _) as [l|] eqn:El; [|done]. apply find_index_lt in El. rewrite length_take in El. cbn [ok_or]. winnow_run.
  rewrite slice_from_le, slice_to_le by lia. winnow_run. destruct (get_range _ _ _) as [e|]; [|done]. cbn [ok_or]. winnow_run.
  unfold get_from. destruct (Nat.leb_spec (r + 1) (length i)); [|lia]. exists (take (r + 1) i). split; [symmetry; apply take_drop|lia].
Qed.
Lemma total_timestamp : total 0 timestamp.
Proof. unfold timestamp. solve_total. Qed.
Lemma total_decode : total 0 decode.
Proof. unfold decode. pose proof total_identity. pose proof total_timestamp. solve_total. Qed.
End Total.
#[export] Hint Resolve total_decode : parser_total.
