(* ===== verification/ObjectParse.v ===== *)
(** * Header fields of commits and tags: [gix-object/src/parse.rs] and
    [encode.rs]

    The parsers of header fields, the functions that write them, and that the
    former read what the latter write. *)

From S2P Require Import Prelude External Winnow Hash Btoi Actor.

(** ** [parse.rs] *)

Module parse.
Section Parse.
Context `{!bstr.Api} `{!winnow.Api}.
Import winnow.

Definition NL : bytes := [10].
Definition SPACE : bytes := [32].
Definition SPACE_OR_NL : bytes := [32; 10].

(** The value of a multi-line header without the spaces that continue it. *)
Definition multi_line_value (o : bytes) : res ErrMode bytes :=
  match bstr.lines o with
  | [] => Panic
  | first :: lines =>
      foldl (λ out line, out ← out; line ← slice_from line 1; Ok (out ++ [10] ++ line)) (Ok first) lines
  end.
Definition any_header_field_multi_line : parser (bytes * bytes) :=
  pair (terminated (take_till 1 SPACE_OR_NL) (literal SPACE))
    (λ i,
      '(o, i) ← taken (pair (pair (take_till 1 NL) (literal NL))
                        (map (repeat 1 (terminated (pair (literal SPACE) (take_until NL)) (literal NL))) (λ _, tt))) i;
      out ← multi_line_value o;
      Ok (out, i)).
Definition header_field {T} (name : bytes) (parse_value : parser T) : parser T :=
  terminated (preceded (terminated (literal name) (literal SPACE)) parse_value) (literal NL).
Definition any_header_field {T} (parse_value : parser T) : parser (bytes * T) :=
  terminated (pair (terminated (take_till 1 SPACE_OR_NL) (literal SPACE)) parse_value) (literal NL).

Definition is_hex_digit_lc (b : Z) : bool := between (ch "0") (ch "9") b || between (ch "a") (ch "f") b.
Definition hex_hash : parser bytes := take_while (len_in_hex shortest) (Some (len_in_hex longest)) is_hex_digit_lc.
Definition signature : parser Signature := decode.
End Parse.
End parse.

(** ** [encode.rs] *)

Module encode.
Inductive Error := NewlineInHeaderValue (value : bytes) | EmptyValue.
(** The errors that writing to memory can end with. *)
Inductive WriteError := Encode (e : Error) | Signature_ (e : SignatureWriteError) | InvalidName | StartsWithDash.

Section Encode.
Context `{!bstr.Api} `{!itoa.Api} `{!faster_hex.Api}.

Definition NL : bytes := [10].
Definition SPACE : bytes := [32].

Definition trusted_header_field (name value : bytes) : bytes := name ++ SPACE ++ value ++ NL.
Definition trusted_header_signature (name : bytes) (value : Signature) : res WriteError bytes :=
  value ← map_err Signature_ (signature_write_to value);
  Ok (name ++ SPACE ++ value ++ NL).
(** [oid::write_hex_to]. *)
Definition write_hex_to (o : bytes) : res WriteError bytes := lift (hex_to_buf o (len_in_hex longest)).
Definition trusted_header_id (name : bytes) (value : ObjectId) : res WriteError bytes :=
  value ← write_hex_to (as_slice value);
  Ok (name ++ SPACE ++ value ++ NL).
Definition header_field (name value : bytes) : res WriteError bytes :=
  if bool_decide (value = []) then Err (Encode EmptyValue)
  else
    match bstr.find value NL with
    | Some _ => Err (Encode (NewlineInHeaderValue value))
    | None => Ok (trusted_header_field name value)
    end.
Definition header_field_multi_line (name value : bytes) : res WriteError bytes :=
  match bstr.split_str value NL with
  | [] => Err (Encode EmptyValue)
  | line :: lines => Ok (trusted_header_field name line ++ concat ((λ line, SPACE ++ line ++ NL) <$> lines))
  end.
End Encode.
End encode.

(** ** Lines *)

(** A text as its first line and the others. *)
Definition join_lines (first : bytes) (lines : list bytes) : bytes := first ++ concat (cons 10 <$> lines).
Lemma split_byte_no b s : b ∉ s → bstr.split_byte b s = [s].
Proof.
  induction s as [|c s IH]; intros Hb; [done|]. apply not_elem_of_cons in Hb as [Hc Hb]. cbn.
  destruct (Z.eqb_spec c b); [congruence|]. by rewrite IH.
Qed.
Lemma split_byte_app b l s : b ∉ l → bstr.split_byte b (l ++ b :: s) = l :: bstr.split_byte b s.
Proof.
  induction l as [|c l IH]; intros Hb; [cbn; by rewrite Z.eqb_refl|]. apply not_elem_of_cons in Hb as [Hc Hb]. cbn.
  destruct (Z.eqb_spec c b); [congruence|]. by rewrite IH.
Qed.
Lemma split_byte_join s : ∃ l ls, bstr.split_byte 10 s = l :: ls ∧ s = join_lines l ls ∧ Forall (λ l, 10 ∉ l) (l :: ls).
Proof.
  induction s as [|c s (l & ls & E & -> & Hl)]; cbn [bstr.split_byte]; rewrite ?E.
  - exists [], []. split_and!; [done|done|]. repeat constructor. apply not_elem_of_nil.
  - destruct (Z.eqb_spec c 10) as [->|Hc].
    + exists [], (l :: ls). split_and!; [done|done|]. constructor; [apply not_elem_of_nil|done].
    + exists (c :: l), ls. apply Forall_cons in Hl as [Hl Hls]. split_and!; [done|done|].
      constructor; [|done]. rewrite not_elem_of_cons. split; [congruence|done].
Qed.
(** Text of which every line is ended. *)
Definition unlines (ls : list bytes) : bytes := concat ((λ l, l ++ [10]) <$> ls).
Lemma lines_of_unlines ls : Forall (λ l, 10 ∉ l) ls → bstr.lines_of (unlines ls) = bstr.strip_cr <$> ls.
Proof.
  intros H. assert (E : bstr.split_byte 10 (unlines ls) = ls ++ [[]]).
  { induction H as [|l ls Hl _ IH]; [done|]. unfold unlines. rewrite fmap_cons. cbn [concat]. rewrite <- app_assoc. cbn [app].
    rewrite split_byte_app by done. cbn [app]. f_equal. exact IH. }
  unfold bstr.lines_of. rewrite E, last_snoc, removelast_last. by rewrite app_nil_r.
Qed.
Lemma strip_cr_id l : last l ≠ Some 13 → bstr.strip_cr l = l.
Proof. unfold bstr.strip_cr. intros H. by repeat case_match; subst. Qed.
Lemma strip_cr_space l : ∃ l', bstr.strip_cr (32 :: l) = 32 :: l' ∧ (last l ≠ Some 13 → l' = l).
Proof.
  destruct (decide (last l = Some 13)) as [H|H].
  - destruct l as [|c l]; [done|]. unfold bstr.strip_cr. rewrite last_cons, H. exists (removelast (c :: l)). done.
  - exists l. split; [|done]. apply strip_cr_id. rewrite last_cons. by destruct (last l).
Qed.

Section Lemmas.
Context `{BA : !bstr.Api} `{BL : !bstr.Laws} `{WA : !winnow.Api} `{WL : !winnow.Laws}.
Import winnow.

(** What [multi_line_value] makes of a first line and continuations. *)
Lemma multi_line_value_unlines l ls : Forall (λ l, 10 ∉ l) (l :: ls) →
  ∃ ls', length ls' = length ls ∧ parse.multi_line_value (unlines (l :: (cons 32 <$> ls))) = Ok (join_lines (bstr.strip_cr l) ls') ∧
    (Forall (λ l, last l ≠ Some 13) ls → ls' = ls).
Proof.
  intros H. unfold parse.multi_line_value. rewrite bstr.lines_spec, lines_of_unlines.
  2: { apply Forall_cons in H as [Hl Hls]. constructor; [done|]. apply Forall_fmap. eapply Forall_impl; [exact Hls|].
       intros k Hk. cbn. rewrite not_elem_of_cons. done. }
  rewrite fmap_cons. clear H. generalize (bstr.strip_cr l) as acc. intros acc.
  assert (H : ∀ pre, ∃ ls', length ls' = length ls ∧
    foldl (λ out line, out ← out; line ← slice_from line 1; Ok (out ++ [10] ++ line)) (Ok pre : res ErrMode bytes) (bstr.strip_cr <$> (cons 32 <$> ls))
      = Ok (join_lines pre ls') ∧ (Forall (λ l, last l ≠ Some 13) ls → ls' = ls)).
  { clear. induction ls as [|k ls IH]; intros pre; [exists []; unfold join_lines; cbn; by rewrite app_nil_r|].
    destruct (strip_cr_space k) as (k' & Hk & Hid). rewrite !fmap_cons, Hk. cbn [foldl]. rewrite bind_Ok.
    change (slice_from (32 :: k') 1) with (@Ok ErrMode _ (drop 1 (32 :: k'))). rewrite bind_Ok. change (drop 1 (32 :: k')) with k'.
    destruct (IH (pre ++ [10] ++ k')) as (ls' & Hlen & -> & Hls). exists (k' :: ls'). split_and!; [cbn; by rewrite Hlen| |].
    - unfold join_lines. rewrite fmap_cons. cbn [concat]. by rewrite <- !app_assoc.
    - intros HF. apply Forall_cons in HF as [H1 H2]. by rewrite Hid, Hls. }
  exact (H acc).
Qed.

(** *** Reading what was written *)

(** A header name: no white space that separates headers. *)
Definition header_name (n : bytes) : Prop := n ≠ [] ∧ 32 ∉ n ∧ 10 ∉ n.
Lemma header_name_set n : header_name n → Forall (λ b, b ∉ parse.SPACE_OR_NL) n.
Proof.
  intros (_ & H1 & H2). apply Forall_forall. intros b Hb. unfold parse.SPACE_OR_NL.
  rewrite !not_elem_of_cons. split_and!; [by intros ->|by intros ->|apply not_elem_of_nil].
Qed.
Lemma any_name_read n rest : header_name n →
  terminated (take_till 1 parse.SPACE_OR_NL) (literal parse.SPACE) (n ++ 32 :: rest) = Ok (n, rest).
Proof.
  intros Hn. rewrite terminated_spec, take_till_app.
  - winnow_run. change (32 :: rest) with (parse.SPACE ++ rest). rewrite literal_app. winnow_run. done.
  - destruct Hn as [Hn _]. destruct n; [done|cbn; lia].
  - by apply header_name_set.
  - by left.
Qed.
Lemma header_field_read {T} name (p : parser T) v x rest : p (v ++ 10 :: rest) = Ok (x, 10 :: rest) →
  parse.header_field name p (name ++ 32 :: v ++ 10 :: rest) = Ok (x, rest).
Proof.
  intros Hp. unfold parse.header_field. rewrite terminated_spec, preceded_spec, terminated_spec, literal_app. winnow_run.
  change (32 :: v ++ 10 :: rest) with (parse.SPACE ++ v ++ 10 :: rest). rewrite literal_app. winnow_run. rewrite Hp. winnow_run.
  change (10 :: rest) with (parse.NL ++ rest). rewrite literal_app. by winnow_run.
Qed.
Lemma header_field_other {T} name (p : parser T) i : starts_with i (name ++ [32]) = false → parse.header_field name p i = Err Backtrack.
Proof.
  intros Hs. unfold parse.header_field. rewrite terminated_spec, preceded_spec, terminated_spec, literal_spec.
  destruct (starts_with i name) eqn:E; [|done]. apply starts_with_spec in E as [k ->]. rewrite drop_app_length. winnow_run.
  rewrite literal_spec. destruct (starts_with k parse.SPACE) eqn:E; [|done]. apply starts_with_spec in E as [j ->].
  apply not_true_iff_false in Hs. destruct Hs. apply starts_with_spec. exists j. by rewrite <- app_assoc.
Qed.
Lemma value_line_read v rest : v ≠ [] → 10 ∉ v → take_till 1 parse.NL (v ++ 10 :: rest) = Ok (v, 10 :: rest).
Proof.
  intros Hne Hv. apply take_till_app; [destruct v; [done|cbn; lia]| |by left]. apply Forall_forall. intros b Hb.
  unfold parse.NL. rewrite list_elem_of_singleton. by intros ->.
Qed.
Lemma any_header_field_read n v rest : header_name n → v ≠ [] → 10 ∉ v →
  parse.any_header_field (take_till 1 parse.NL) (n ++ 32 :: v ++ 10 :: rest) = Ok (n, v, rest).
Proof.
  intros Hn Hne Hv. unfold parse.any_header_field. rewrite terminated_spec, pair_spec, any_name_read by done. winnow_run.
  rewrite value_line_read by done. winnow_run. change (10 :: rest) with (parse.NL ++ rest). rewrite literal_app. by winnow_run.
Qed.

(** One continuation line, and several. *)
Definition continuation : parser (bytes * bytes) := pair (literal parse.SPACE) (take_until parse.NL).
Lemma continuation_read l rest : 10 ∉ l → terminated continuation (literal parse.NL) (32 :: l ++ 10 :: rest) = Ok (parse.SPACE, l, rest).
Proof.
  intros Hl. unfold continuation. rewrite terminated_spec, pair_spec. change (32 :: l ++ 10 :: rest) with (parse.SPACE ++ l ++ 10 :: rest).
  rewrite literal_app. winnow_run. change (take_until parse.NL) with (take_until [10]). rewrite (take_until_byte 10 l rest Hl). winnow_run. change (10 :: rest) with (parse.NL ++ rest).
  rewrite literal_app. by winnow_run.
Qed.
Lemma continuation_stop rest : (match rest with b :: _ => b ≠ 32 | [] => True end) →
  terminated continuation (literal parse.NL) rest = Err Backtrack.
Proof.
  intros H. unfold continuation. rewrite terminated_spec, pair_spec, literal_spec. destruct rest as [|b rest]; [done|].
  cbn. by destruct (Z.eqb_spec b 32).
Qed.
Lemma continuations_read ls rest : Forall (λ l, 10 ∉ l) ls → (match rest with b :: _ => b ≠ 32 | [] => True end) →
  repeat 0 (terminated continuation (literal parse.NL)) (unlines (cons 32 <$> ls) ++ rest) = Ok ((λ l, (parse.SPACE, l)) <$> ls, rest).
Proof.
  intros Hls Hrest. induction Hls as [|l ls Hl _ IH]; [apply repeat_0_stop; by apply continuation_stop|].
  unfold unlines. rewrite !fmap_cons. cbn [concat]. rewrite <- !app_assoc. cbn [app]. eapply repeat_0_step; [by apply continuation_read| |exact IH].
  cbn [length]. rewrite !length_app. cbn [length]. rewrite !length_app. lia.
Qed.
Lemma multi_line_read n l ls rest : header_name n → l ≠ [] → ls ≠ [] → Forall (λ l, 10 ∉ l) (l :: ls) →
  Forall (λ l, last l ≠ Some 13) (l :: ls) → (match rest with b :: _ => b ≠ 32 | [] => True end) →
  parse.any_header_field_multi_line (n ++ 32 :: unlines (l :: (cons 32 <$> ls)) ++ rest) = Ok (n, join_lines l ls, rest).
Proof.
  intros Hn Hl Hls Hnl Hcr Hrest. destruct (multi_line_value_unlines l ls Hnl) as (ls' & _ & Hv & Hid).
  apply Forall_cons in Hcr as [Hcr Hcrs]. rewrite Hid, strip_cr_id in Hv by done. clear Hid.
  unfold parse.any_header_field_multi_line. rewrite pair_spec, any_name_read by done. winnow_run.
  rewrite taken_spec, pair_spec, pair_spec. apply Forall_cons in Hnl as [Hnl Hnls].
  assert (E : unlines (l :: (cons 32 <$> ls)) ++ rest = l ++ 10 :: unlines (cons 32 <$> ls) ++ rest).
  { unfold unlines. rewrite fmap_cons. cbn [concat]. by rewrite <- !app_assoc. }
  rewrite E at 1. rewrite value_line_read by done. winnow_run.
  change (10 :: unlines (cons 32 <$> ls) ++ rest) with (parse.NL ++ unlines (cons 32 <$> ls) ++ rest). rewrite literal_app. winnow_run.
  destruct ls as [|k ls]; [done|]. apply Forall_cons in Hnls as [Hk Hks]. rewrite map_spec, repeat_S_spec.
  assert (E' : unlines (cons 32 <$> (k :: ls)) ++ rest = 32 :: k ++ 10 :: unlines (cons 32 <$> ls) ++ rest).
  { unfold unlines. rewrite !fmap_cons. cbn [concat]. by rewrite <- !app_assoc. }
  rewrite E' at 1. change (pair (literal parse.SPACE) (take_until parse.NL)) with continuation.
  rewrite continuation_read by done. winnow_run. rewrite E'.
  rewrite (proj2 (Nat.ltb_lt _ _)) by (cbn [length]; rewrite !length_app; cbn [length]; rewrite !length_app; lia).
  rewrite continuations_read by done. winnow_run. rewrite length_app. rewrite Nat.add_sub.
  rewrite take_app_length, Hv. by winnow_run.
Qed.
Lemma multi_line_single n l rest : header_name n → l ≠ [] → 10 ∉ l → (match rest with b :: _ => b ≠ 32 | [] => True end) →
  parse.any_header_field_multi_line (n ++ 32 :: l ++ 10 :: rest) = Err Backtrack.
Proof.
  intros Hn Hl Hnl Hrest. unfold parse.any_header_field_multi_line. rewrite pair_spec, any_name_read by done. winnow_run.
  rewrite taken_spec, pair_spec, pair_spec, value_line_read by done. winnow_run.
  change (10 :: rest) with (parse.NL ++ rest). rewrite literal_app. winnow_run. rewrite map_spec, repeat_S_spec.
  change (pair (literal parse.SPACE) (take_until parse.NL)) with continuation. by rewrite continuation_stop.
Qed.

(** The header of a commit that is not one of the known ones. *)
Definition extra_header : parser (bytes * bytes) :=
  alt parse.any_header_field_multi_line (parse.any_header_field (take_till 1 parse.NL)).
(** Values that are read as they were written: the first line is not empty,
    and no line of several ends in a carriage return. *)
Definition header_value (v : bytes) : Prop :=
  match bstr.split_byte 10 v with
  | l :: ls => l ≠ [] ∧ (ls = [] ∨ Forall (λ l, last l ≠ Some 13) (l :: ls))
  | [] => False
  end.
#[global] Instance header_name_dec n : Decision (header_name n).
Proof. unfold header_name. apply _. Defined.
#[global] Instance header_value_dec v : Decision (header_value v).
Proof. unfold header_value. destruct (bstr.split_byte 10 v); apply _. Defined.
Lemma extra_header_read n v text rest : header_name n → header_value v → encode.header_field_multi_line n v = Ok text →
  (match rest with b :: _ => b ≠ 32 | [] => True end) → extra_header (text ++ rest) = Ok (n, v, rest).
Proof.
  intros Hn Hv Ht Hrest. unfold encode.header_field_multi_line in Ht. unfold encode.NL in Ht. rewrite bstr.split_str_spec in Ht.
  unfold header_value in Hv. destruct (split_byte_join v) as (l & ls & E & -> & Hnl). rewrite E in Hv, Ht. injection Ht as <-.
  destruct Hv as [Hl Hv]. unfold extra_header. rewrite alt_spec. unfold encode.trusted_header_field, encode.NL, encode.SPACE.
  assert (Hnl' : 10 ∉ l) by (by apply Forall_cons in Hnl as [? _]).
  destruct ls as [|k ls].
  - cbn [fmap list_fmap concat]. rewrite app_nil_r, <- !app_assoc. cbn [app].
    rewrite multi_line_single, any_header_field_read by done. unfold join_lines. cbn. by rewrite app_nil_r.
  - destruct Hv as [Hv|Hv]; [done|].
    replace (((n ++ [32] ++ l ++ [10]) ++ concat ((λ line, [32] ++ line ++ [10]) <$> (k :: ls))) ++ rest)
      with (n ++ 32 :: unlines (l :: (cons 32 <$> (k :: ls))) ++ rest); [by rewrite multi_line_read|].
    unfold unlines. rewrite fmap_cons, <- list_fmap_compose. cbn [concat]. by rewrite <- !app_assoc.
Qed.

Lemma hex_hash_read d rest : length d = 20%nat → is_bytes d → parse.hex_hash (hex d ++ rest) = Ok (hex d, rest).
Proof.
  intros Hl Hd. unfold parse.hex_hash. apply take_while_max; [|by rewrite length_hex, Hl|done].
  unfold hex. apply Forall_fmap. assert (Hn : Forall (λ n, 0 ≤ n < 16) (nibbles d)).
  { clear Hl. induction Hd as [|b d Hb _ IH]; [constructor|]. cbn. constructor; [|constructor; [|done]].
    - split; [apply Z.div_pos; lia|apply Z.div_lt_upper_bound; lia].
    - apply Z.mod_pos_bound. lia. }
  eapply Forall_impl; [exact Hn|]. intros n H. cbn. unfold parse.is_hex_digit_lc, hex_digit, between.
  destruct (Z.ltb_spec n 10); apply orb_true_iff; [left|right]; apply andb_true_iff; rewrite !Z.leb_le; cbv beta in H; lia.
Qed.
End Lemmas.

(** ** Parsing is total *)

Section Total.
Context `{BA : !bstr.Api} `{BL : !bstr.Laws} `{WA : !winnow.Api} `{WL : !winnow.Laws}.
Import winnow.

Lemma total_header_field {T} n name (p : parser T) : total n p → total 2 (parse.header_field name p).
Proof. intros Hp. unfold parse.header_field. solve_total. Qed.
Lemma total_any_header_field {T} n (p : parser T) : total n p → total 3 (parse.any_header_field p).
Proof. intros Hp. unfold parse.any_header_field. solve_total. Qed.
Lemma total_hex_hash : total 40 parse.hex_hash.
Proof. unfold parse.hex_hash. solve_total. Qed.

(** Continuations consume lines that begin with a space. *)
Lemma continuation_inv i l i' : terminated continuation (literal parse.NL) i = Ok (l, i') →
  ∃ s, i = 32 :: s ++ 10 :: i' ∧ 10 ∉ s.
Proof.
  unfold continuation. rewrite terminated_spec, pair_spec, literal_spec. destruct (starts_with i parse.SPACE) eqn:E; [|done].
  apply starts_with_spec in E as [k ->]. rewrite drop_app_length. winnow_run.
  change (take_until parse.NL) with (take_until [10]). destruct (take_until [10] k) as [[s j]| |] eqn:E; [|done..].
  apply take_until_byte_inv in E as (-> & Hs & r & ->). winnow_run. rewrite literal_spec.
  change (starts_with (10 :: r) parse.NL) with (starts_with r []). destruct r; cbn; intros [= <- <-]; eauto.
Qed.
Lemma continuations_inv n i l i' : repeat n (terminated continuation (literal parse.NL)) i = Ok (l, i') →
  ∃ ls, i = unlines (cons 32 <$> ls) ++ i' ∧ Forall (λ l, 10 ∉ l) ls ∧ (n ≤ length ls)%nat.
Proof.
  remember (length i) as k eqn:Hk. revert n i l Hk. induction k as [k IH] using lt_wf_ind. intros n i l ->.
  assert (H : ∀ m, ('(a, j) ← terminated continuation (literal parse.NL) i;
     if (length j <? length i)%nat then '(l, i'') ← repeat m (terminated continuation (literal parse.NL)) j; Ok (a :: l, i'') else Err Backtrack)
     = Ok (l, i') → ∃ ls, i = unlines (cons 32 <$> ls) ++ i' ∧ Forall (λ l, 10 ∉ l) ls ∧ (S m ≤ length ls)%nat).
  { intros m. destruct (terminated _ _ i) as [[a j]| |] eqn:E; [|done..]. apply continuation_inv in E as (s & -> & Hs). winnow_run.
    destruct (Nat.ltb_spec (length j) (length (32 :: s ++ 10 :: j))) as [Hl|]; [|done].
    destruct (repeat m _ j) as [[l' j']| |] eqn:E; [|done..]. winnow_run. intros [= <- <-].
    destruct (IH _ Hl m j l' eq_refl E) as (ls & -> & Hls & Hm). exists (s :: ls). split_and!; [|by constructor|cbn; lia].
    unfold unlines. rewrite !fmap_cons. cbn [concat]. by rewrite <- !app_assoc. }
  destruct n as [|n].
  - rewrite repeat_0_spec. specialize (H O). destruct (terminated _ _ i) as [[a j]|[]|] eqn:E; [|intros [= <- <-]; by exists []|done..].
    intros E'. destruct (H E') as (ls & ? & ? & ?). exists ls. split_and!; [done..|lia].
  - rewrite repeat_S_spec. apply H.
Qed.
Lemma total_multi_line : total 2 parse.any_header_field_multi_line.
Proof.
  unfold parse.any_header_field_multi_line. eapply total_le; [apply (total_pair 2 0)|cbn; lia]; [solve_total|].
  intros i. rewrite taken_spec, !pair_spec. pose proof (total_take_till 1 parse.NL i) as Ht.
  destruct (take_till 1 parse.NL i) as [[s j]| |] eqn:E; [|done..]. clear Ht. apply take_till_inv in E as (-> & _ & Hs).
  winnow_run. rewrite literal_spec. destruct (starts_with j parse.NL) eqn:E; [|done]. apply starts_with_spec in E as [k ->].
  rewrite drop_app_length. winnow_run. rewrite map_spec. change (pair (literal parse.SPACE) (take_until parse.NL)) with continuation.
  assert (Hc : total 0 (repeat 1 (terminated continuation (literal parse.NL)))) by (unfold continuation; solve_total).
  specialize (Hc k). destruct (repeat 1 _ k) as [[l r]| |] eqn:E; [|done..]. clear Hc. apply continuations_inv in E as (ls & -> & Hls & _).
  winnow_run. replace (s ++ parse.NL ++ unlines (cons 32 <$> ls) ++ r) with (unlines (s :: (cons 32 <$> ls)) ++ r)
    by (unfold unlines; rewrite fmap_cons; cbn [concat]; by rewrite <- !app_assoc).
  rewrite length_app, Nat.add_sub, take_app_length. destruct (multi_line_value_unlines s ls) as (ls' & _ & -> & _).
  { constructor; [|done]. intros Hin. rewrite Forall_forall in Hs. apply (Hs _ Hin). by left. }
  winnow_run. eexists. split; [done|lia].
Qed.
Lemma total_extra_header : total 2 (alt parse.any_header_field_multi_line (parse.any_header_field (take_till 1 parse.NL))).
Proof.
  apply total_alt; [apply total_multi_line|]. eapply total_le; [apply (total_any_header_field 1), total_take_till|lia].
Qed.
End Total.
#[export] Hint Resolve total_header_field total_hex_hash total_extra_header : parser_total.
