(* ===== verification/CommitObject.v ===== *)
(** * Commits: [gix-object/src/commit]

    Parsing a commit as a whole ([decode.rs]) and token by token
    ([ref_iter.rs]), access ([mod.rs]), writing ([write.rs]), and the
    conversion between a borrowed and an owned commit
    ([object/convert.rs]). *)

From S2P Require Import Prelude External Winnow Hash Btoi Actor ObjectParse.
Import winnow.

(** ** Data: [lib.rs] *)

(** A borrowed commit: ids are the hexadecimal digits of the data. *)
Record CommitRef := mkCommitRef {
  tree : bytes; parents : list bytes; author : Signature; committer : Signature;
  encoding : option bytes; message : bytes; extra_headers : list (bytes * bytes) }.
Record Commit := mkCommit {
  c_tree : ObjectId; c_parents : list ObjectId; c_author : Signature; c_committer : Signature;
  c_encoding : option bytes; c_message : bytes; c_extra_headers : list (bytes * bytes) }.

Section Commit.
Context `{BA : !bstr.Api} `{IA : !itoa.Api} `{WA : !winnow.Api} `{FA : !faster_hex.Api}.

(** ** [decode.rs] *)

Definition message_ : parser bytes := λ i,
  if bool_decide (i = []) then Err Backtrack else preceded (literal parse.NL) rest i.
Definition commit : parser CommitRef :=
  map
    (pair (pair (pair (pair (pair (pair
      (parse.header_field (bs "tree") parse.hex_hash)
      (repeat 0 (parse.header_field (bs "parent") parse.hex_hash)))
      (parse.header_field (bs "author") parse.signature))
      (parse.header_field (bs "committer") parse.signature))
      (opt (parse.header_field (bs "encoding") (take_till 1 parse.NL))))
      (repeat 0 (alt parse.any_header_field_multi_line (parse.any_header_field (take_till 1 parse.NL)))))
      (terminated message_ eof))
    (λ '(tree, parents, author, committer, encoding, extra_headers, message),
      mkCommitRef tree parents author committer encoding message extra_headers).
(** [CommitRef::from_bytes]: an error of decoding is the failure of the
    parser. *)
Definition commit_from_bytes (data : bytes) : res ErrMode CommitRef := fst <$> commit data.

(** ** [mod.rs] *)

(** [ObjectId::from_hex(hex).expect(..)]. *)
Definition from_hex_expect {E} (hex : bytes) : res E ObjectId :=
  match from_hex hex with Ok id => Ok id | _ => Panic end.
Definition commit_tree {E} (c : CommitRef) : res E ObjectId := from_hex_expect (tree c).
Definition commit_parents {E} (c : CommitRef) : res E (list ObjectId) := mapM from_hex_expect (parents c).
Definition commit_time (c : CommitRef) : Time := time (committer c).
(** [ExtraHeaders]: the pairs that are still to come. *)
Fixpoint headers_find (inner : list (bytes * bytes)) (name : bytes) : option bytes :=
  match inner with
  | [] => None
  | (k, v) :: inner => if bool_decide (k = name) then Some v else headers_find inner name
  end.
Definition headers_find_all (inner : list (bytes * bytes)) (name : bytes) : list bytes :=
  omap (λ '(k, v), if bool_decide (k = name) then Some v else None) inner.
Definition pgp_signature (inner : list (bytes * bytes)) : option bytes := headers_find inner (bs "gpgsig").

(** ** [ref_iter.rs] *)

Inductive SignatureKind := Author | Committer.
Inductive State := StTree | StParents | StSignature (of_ : SignatureKind) | StEncoding | StExtraHeaders | StMessage.
Inductive Token :=
| TTree (id : ObjectId)
| TParent (id : ObjectId)
| TAuthor (signature : Signature)
| TCommitter (signature : Signature)
| TEncoding (e : bytes)
| TExtraHeader (header : bytes * bytes)
| TMessage (m : bytes).
Definition token_id (t : Token) : option ObjectId :=
  match t with TTree id | TParent id => Some id | _ => None end.

(** [next_inner_]: the token with the state and the input behind it.  A state
    without its field goes on with the next one, which is a call of a
    definition above it. *)
Definition next_message (i : bytes) : res ErrMode (Token * State * bytes) :=
  '(message, i) ← terminated message_ eof i;
  Ok (TMessage message, StMessage, i).
Definition next_extra_headers (i : bytes) : res ErrMode (Token * State * bytes) :=
  '(extra_header, i) ← opt (alt parse.any_header_field_multi_line (parse.any_header_field (take_till 1 parse.NL))) i;
  match extra_header with
  | Some extra_header => Ok (TExtraHeader extra_header, StExtraHeaders, i)
  | None => next_message i
  end.
Definition next_encoding (i : bytes) : res ErrMode (Token * State * bytes) :=
  '(encoding, i) ← opt (parse.header_field (bs "encoding") (take_till 1 parse.NL)) i;
  match encoding with
  | Some encoding => Ok (TEncoding encoding, StExtraHeaders, i)
  | None => next_extra_headers i
  end.
Definition next_signature (of_ : SignatureKind) (i : bytes) : res ErrMode (Token * State * bytes) :=
  let '(state, field_name) :=
    match of_ with
    | Author => (StSignature Committer, bs "author")
    | Committer => (StEncoding, bs "committer")
    end in
  '(signature, i) ← parse.header_field field_name parse.signature i;
  Ok (match of_ with Author => TAuthor signature | Committer => TCommitter signature end, state, i).
Definition next_parents (i : bytes) : res ErrMode (Token * State * bytes) :=
  '(parent, i) ← opt (parse.header_field (bs "parent") parse.hex_hash) i;
  match parent with
  | Some parent => id ← from_hex_expect parent; Ok (TParent id, StParents, i)
  | None => next_signature Author i
  end.
Definition next_tree (i : bytes) : res ErrMode (Token * State * bytes) :=
  '(tree, i) ← parse.header_field (bs "tree") parse.hex_hash i;
  id ← from_hex_expect tree;
  Ok (TTree id, StParents, i).
Definition next_inner_ (i : bytes) (state : State) : res ErrMode (Token * State * bytes) :=
  match state with
  | StTree => next_tree i
  | StParents => next_parents i
  | StSignature of_ => next_signature of_ i
  | StEncoding => next_encoding i
  | StExtraHeaders => next_extra_headers i
  | StMessage => next_message i
  end.

Record CommitRefIter := mkCommitRefIter { data : bytes; state : State }.
Definition iter_from_bytes (data : bytes) : CommitRefIter := mkCommitRefIter data StTree.
(** [Iterator::next]: what is yielded, if anything, a panic included, and the
    iterator behind it.  The state behind a failure is of no use, as no data is
    left. *)
Definition next (it : CommitRefIter) : option (res ErrMode Token) * CommitRefIter :=
  if bool_decide (data it = []) then (None, it)
  else
    match next_inner_ (data it) (state it) with
    | Ok (token, state, data) => (Some (Ok token), mkCommitRefIter data state)
    | Err err => (Some (Err err), mkCommitRefIter [] (state it))
    | Panic => (Some Panic, it)
    end.
(** All that an iterator yields; every token consumes input, so the input's
    length bounds their number. *)
Fixpoint collect (fuel : nat) (it : CommitRefIter) : option (list (res ErrMode Token)) :=
  match next it with
  | (None, _) => Some []
  | (Some Panic, _) => Some [Panic]
  | (Some t, it) => match fuel with O => None | S fuel => cons t <$> collect fuel it end
  end.
Definition tokens (data : bytes) : option (list (res ErrMode Token)) := collect (length data) (iter_from_bytes data).

(** The accessors that consume tokens of a fresh iterator. *)
Definition missing_field : ErrMode := Backtrack.
Definition tree_id (it : CommitRefIter) : res ErrMode ObjectId * CommitRefIter :=
  let '(token, it) := next it in
  (token ← ok_or token missing_field; token ← token; ok_or (token_id token) missing_field, it).
Definition parent_ids (ts : list (res ErrMode Token)) : list ObjectId :=
  omap (λ t, match t with Ok (TParent id) => Some id | _ => None end) ts.
Definition signatures (ts : list (res ErrMode Token)) : list Signature :=
  omap (λ t, match t with Ok (TAuthor s | TCommitter s) => Some s | _ => None end) ts.
(** [find_map] over tokens, that stops at errors. *)
Fixpoint find_token {A} (f : Token → option A) (ts : list (res ErrMode Token)) : res ErrMode (option A) :=
  match ts with
  | [] => Ok None
  | t :: ts => t ← t; match f t with Some a => Ok (Some a) | None => find_token f ts end
  end.
Definition iter_committer (ts : list (res ErrMode Token)) : res ErrMode Signature :=
  s ← find_token (λ t, match t with TCommitter s => Some s | _ => None end) ts; ok_or s missing_field.
Definition iter_author (ts : list (res ErrMode Token)) : res ErrMode Signature :=
  s ← find_token (λ t, match t with TAuthor s => Some s | _ => None end) ts; ok_or s missing_field.
Definition iter_message (ts : list (res ErrMode Token)) : res ErrMode bytes :=
  default [] <$> find_token (λ t, match t with TMessage m => Some m | _ => None end) ts.

(** [CommitRefIterRaw]: tokens with the range of their bytes. *)
Record CommitRefIterRaw := mkRaw { raw_data : bytes; raw_state : State; raw_offset : nat }.
Record RawToken := mkRawToken { token : Token; token_range : nat * nat }.
Definition raw_next (it : CommitRefIterRaw) : option (res ErrMode RawToken) * CommitRefIterRaw :=
  if bool_decide (raw_data it = []) then (None, it)
  else
    match next_inner_ (raw_data it) (raw_state it) with
    | Ok (token, state, remaining) =>
        let consumed := (length (raw_data it) - length remaining)%nat in
        let start := raw_offset it in
        let end_ := (start + consumed)%nat in
        (Some (Ok (mkRawToken token (start, end_))), mkRaw remaining state end_)
    | Err err => (Some (Err err), mkRaw [] (raw_state it) (raw_offset it))
    | Panic => (Some Panic, it)
    end.
Record SignedData := mkSignedData { signed_data : bytes; signature_range : nat * nat }.
(** The loop of [CommitRefIter::signature]; [None] when [fuel] runs out. *)
Fixpoint signature_loop (fuel : nat) (raw_tokens : CommitRefIterRaw) : option (res ErrMode (option (bytes * (nat * nat)))) :=
  match raw_next raw_tokens with
  | (None, _) => Some (Ok None)
  | (Some (Ok t), raw_tokens) =>
      let again := match fuel with O => None | S fuel => signature_loop fuel raw_tokens end in
      match token t with
      | TExtraHeader (name, value) =>
          if bool_decide (name = bs "gpgsig") then Some (Ok (Some (value, token_range t))) else again
      | _ => again
      end
  | (Some (Err err), _) => Some (Err err)
  | (Some Panic, _) => Some Panic
  end.
Definition signature (data : bytes) : option (res ErrMode (option (bytes * SignedData))) :=
  match signature_loop (length data) (mkRaw data StTree 0) with
  | Some (Ok signature_and_range) =>
      Some (Ok (option_map (λ '(sig, signature_range), (sig, mkSignedData data signature_range)) signature_and_range))
  | Some (Err err) => Some (Err err)
  | Some Panic => Some Panic
  | None => None
  end.
(** [SignedData::to_bstring]. *)
Definition to_bstring {E} (s : SignedData) : res E bytes :=
  buf ← slice_to (signed_data s) (signature_range s).1;
  rest ← slice_from (signed_data s) (signature_range s).2;
  Ok (buf ++ rest).

(** ** [write.rs] *)

Definition commit_write_to (c : Commit) : res encode.WriteError bytes :=
  t ← encode.trusted_header_id (bs "tree") (c_tree c);
  ps ← mapM (encode.trusted_header_id (bs "parent")) (c_parents c);
  a ← encode.trusted_header_signature (bs "author") (c_author c);
  k ← encode.trusted_header_signature (bs "committer") (c_committer c);
  e ← match c_encoding c with Some encoding => encode.header_field (bs "encoding") encoding | None => Ok [] end;
  hs ← mapM (λ '(name, value), encode.header_field_multi_line name value) (c_extra_headers c);
  Ok (t ++ concat ps ++ a ++ k ++ e ++ concat hs ++ encode.NL ++ c_message c).
(** The length of the headers with extra names. *)
Definition headers_size (hs : list (bytes * bytes)) : Z :=
  foldr (λ '(name, value) n,
    Z.of_nat (length name) + foldr (λ s n, Z.of_nat (length s) + 2 + n) 0 (bstr.split_str value encode.NL) + n) 0 hs.
Definition commit_size (c : Commit) : Z :=
  let hash_in_hex := Z.of_nat (len_in_hex (kind (c_tree c))) in
  (4 + 1 + hash_in_hex + 1) + Z.of_nat (length (c_parents c)) * (6 + 1 + hash_in_hex + 1)
  + (6 + 1 + signature_size (c_author c) + 1) + (9 + 1 + signature_size (c_committer c) + 1)
  + match c_encoding c with Some e => 8 + 1 + Z.of_nat (length e) + 1 | None => 0 end
  + headers_size (c_extra_headers c) + 1 + Z.of_nat (length (c_message c)).

(** ** [object/convert.rs]: [CommitRef::into] *)

Definition into_commit {E} (c : CommitRef) : res E Commit :=
  tree ← from_hex_expect (tree c);
  parents ← mapM from_hex_expect (parents c);
  Ok (mkCommit tree parents (author c) (committer c) (encoding c) (message c) (extra_headers c)).
(** [<CommitRef as WriteTo>::write_to] and [size]: those of the owned commit
    with the ids that are in the data. *)
Definition commit_ref_write_to (c : CommitRef) : res encode.WriteError bytes :=
  tree ← commit_tree c;
  t ← encode.trusted_header_id (bs "tree") tree;
  parents ← commit_parents c;
  ps ← mapM (encode.trusted_header_id (bs "parent")) parents;
  a ← encode.trusted_header_signature (bs "author") (author c);
  k ← encode.trusted_header_signature (bs "committer") (committer c);
  e ← match encoding c with Some encoding => encode.header_field (bs "encoding") encoding | None => Ok [] end;
  hs ← mapM (λ '(name, value), encode.header_field_multi_line name value) (extra_headers c);
  Ok (t ++ concat ps ++ a ++ k ++ e ++ concat hs ++ encode.NL ++ message c).
Definition commit_ref_size {E} (c : CommitRef) : res E Z :=
  tree ← commit_tree c;
  let hash_in_hex := Z.of_nat (len_in_hex (kind tree)) in
  Ok ((4 + 1 + hash_in_hex + 1) + Z.of_nat (length (parents c)) * (6 + 1 + hash_in_hex + 1)
  + (6 + 1 + signature_size (author c) + 1) + (9 + 1 + signature_size (committer c) + 1)
  + match encoding c with Some e => 8 + 1 + Z.of_nat (length e) + 1 | None => 0 end
  + headers_size (extra_headers c) + 1 + Z.of_nat (length (message c))).
End Commit.

(** ** Parsing is total *)

Section Proofs.
Context `{BA : !bstr.Api} `{BL : !bstr.Laws} `{IA : !itoa.Api} `{IL : !itoa.Laws} `{WA : !winnow.Api} `{WL : !winnow.Laws}
  `{FA : !faster_hex.Api} `{FL : !faster_hex.Laws}.

Lemma hex_val_lc b : parse.is_hex_digit_lc b = true → ∃ n, hex_val b = Some n ∧ 0 ≤ n < 16 ∧ hex_digit n = b.
Proof.
  unfold parse.is_hex_digit_lc, hex_val, between. intros H. apply orb_true_iff in H as [H|H].
  - rewrite H. exists (b - 48). apply andb_true_iff in H as [H1 H2]. apply Z.leb_le in H1, H2. unfold hex_digit.
    rewrite (proj2 (Z.ltb_lt _ _)) by lia. split_and!; [done|lia..].
  - apply andb_true_iff in H as [H1 H2]. apply Z.leb_le in H1, H2. rewrite (proj2 (Z.leb_gt b (ch "9"))), andb_false_r by lia.
    rewrite (proj2 (Z.leb_le (ch "a") b)), (proj2 (Z.leb_le b (ch "f"))) by lia. eexists. split; [done|]. unfold hex_digit.
    rewrite (proj2 (Z.ltb_ge _ _)) by lia. lia.
Qed.
Lemma unhex_lc s : Forall (λ b, parse.is_hex_digit_lc b = true) s → Nat.even (length s) = true →
  ∃ d, unhex s = Some d ∧ is_bytes d ∧ hex d = s.
Proof.
  remember (length s) as k eqn:Hk. revert s Hk. induction k as [k IH] using lt_wf_ind. intros [|a [|b s]] -> Hs He; [|done|].
  - exists []. split_and!; [done|constructor|done].
  - apply Forall_cons in Hs as [Ha Hs]. apply Forall_cons in Hs as [Hb Hs].
    destruct (hex_val_lc a Ha) as (x & Hx & Hxr & Hxd), (hex_val_lc b Hb) as (y & Hy & Hyr & Hyd).
    destruct (IH (length s) ltac:(cbn; lia) s eq_refl Hs He) as (d & Hd & Hdb & Hdh). cbn [unhex]. rewrite Hx, Hy, Hd. cbn.
    eexists. split; [done|]. split; [constructor; [lia|done]|]. unfold hex. cbn [nibbles]. rewrite !fmap_cons.
    replace ((x * 16 + y) / 16) with x by (rewrite Z.div_add_l, Z.div_small by lia; lia).
    replace ((x * 16 + y) mod 16) with y by (rewrite Z.add_comm, Z.mod_add, Z.mod_small by lia; lia).
    rewrite Hxd, Hyd. unfold hex in Hdh. by rewrite Hdh.
Qed.
(** What [hex_hash] reads is an id. *)
Lemma hex_hash_id i h i' : parse.hex_hash i = Ok (h, i') → ∃ id, wf_id id ∧ h = hex (as_slice id) ∧ from_hex h = Ok id.
Proof.
  unfold parse.hex_hash. rewrite take_while_spec. cbv zeta. cbn [len_in_hex shortest longest].
  destruct (Nat.leb_spec 40 (count_while parse.is_hex_digit_lc i `min` 40)) as [Hc|]; [|done]. intros [= <- <-].
  pose proof (count_while_le parse.is_hex_digit_lc i) as Hle.
  assert (Hc' : (40 ≤ count_while parse.is_hex_digit_lc i)%nat) by lia. rewrite (Nat.min_r _ 40) by lia.
  assert (Hl : length (take 40 i) = 40%nat) by (rewrite length_take; lia).
  destruct (unhex_lc (take 40 i)) as (d & Hd & Hdb & Hdh).
  { pose proof (count_while_take parse.is_hex_digit_lc i) as Ht. apply (Forall_take _ 40) in Ht. rewrite take_take, Nat.min_l in Ht by lia. done. }
  { by rewrite Hl. }
  exists (Sha1 d). assert (Hld : length d = 20%nat) by (rewrite <- Hdh, length_hex in Hl; lia). split_and!; [done|done|].
  unfold from_hex. rewrite Hl. cbn [Nat.eqb]. rewrite <- Hdh. by rewrite hex_decode_hex.
Qed.
Lemma from_hex_hex id : wf_id id → from_hex (hex (as_slice id)) = Ok id.
Proof.
  intros [Hl Hb]. unfold from_hex. rewrite length_hex, Hl. cbn [Nat.mul Nat.add Nat.eqb]. rewrite hex_decode_hex by done. by destruct id.
Qed.

Lemma total_message : total 1 message_.
Proof.
  intros i. unfold message_. case_bool_decide; [done|]. apply (total_preceded 1 0); [apply total_literal|apply total_rest].
Qed.
Hint Resolve total_message : parser_total.
Lemma header_hex_id name i h i' : parse.header_field name parse.hex_hash i = Ok (h, i') →
  ∃ id, wf_id id ∧ h = hex (as_slice id) ∧ from_hex h = Ok id.
Proof.
  unfold parse.header_field. rewrite terminated_spec, preceded_spec.
  destruct (terminated (literal name) _ i) as [[u j]| |]; [|done..]. winnow_run.
  destruct (parse.hex_hash j) as [[g k]| |] eqn:E; [|done..]. winnow_run.
  destruct (literal parse.NL k) as [[u' k']| |]; [|done..]. winnow_run. intros [= <- <-]. by eapply hex_hash_id.
Qed.
Lemma total_header_id {B} name (f : ObjectId → B) :
  total 1 (λ i, '(h, i) ← parse.header_field name parse.hex_hash i; id ← from_hex_expect h; Ok (f id, i)).
Proof.
  assert (H : total 1 (parse.header_field name parse.hex_hash)) by solve_total. intros i. specialize (H i).
  destruct (parse.header_field _ _ i) as [[h i']| |] eqn:E; [|done..]. apply header_hex_id in E as (id & _ & _ & E).
  winnow_run. unfold from_hex_expect. by rewrite E.
Qed.
Lemma total_next_inner st : total 1 (λ i, next_inner_ i st : res ErrMode (Token * State * bytes)).
Proof.
  assert (Hm : total 1 (next_message : parser (Token * State))).
  { apply (total_then 1 (terminated message_ eof) (λ m, (TMessage m, StMessage))). solve_total. }
  assert (Hx : total 1 (next_extra_headers : parser (Token * State))).
  { unfold next_extra_headers. apply (total_opt_else 1 _ (λ h i, Ok (TExtraHeader h, StExtraHeaders, i))); [|done].
    apply (total_then 1 _ (λ h, (TExtraHeader h, StExtraHeaders))). solve_total. }
  assert (He : total 1 (next_encoding : parser (Token * State))).
  { unfold next_encoding. apply (total_opt_else 1 _ (λ e i, Ok (TEncoding e, StExtraHeaders, i))); [|done].
    apply (total_then 1 _ (λ e, (TEncoding e, StExtraHeaders))). solve_total. }
  assert (Hs : ∀ k, total 1 (next_signature k : parser (Token * State))).
  { unfold parse.signature. intros []; [apply (total_then 1 (parse.header_field (bs "author") parse.signature) (λ s, (TAuthor s, StSignature Committer)))
      |apply (total_then 1 (parse.header_field (bs "committer") parse.signature) (λ s, (TCommitter s, StEncoding)))]; unfold parse.signature; solve_total. }
  destruct st; [apply (total_header_id (bs "tree") (λ id, (TTree id, StParents)))| |apply Hs|done..].
  apply (total_opt_else 1 _ (λ h i, id ← from_hex_expect h; Ok (TParent id, StParents, i))); [|apply Hs].
  apply (total_header_id (bs "parent") (λ id, (TParent id, StParents))).
Qed.
Lemma total_commit : total 1 commit.
Proof. unfold commit, parse.signature. solve_total. Qed.

(** ** Runs of the token reader *)

(** [run st i ts st' i']: the tokens [ts] are read from [i], one after the
    other. *)
Inductive run : State → bytes → list Token → State → bytes → Prop :=
| run_nil st i : run st i [] st i
| run_cons st i t st1 i1 ts st2 i2 : next_inner_ i st = Ok (t, st1, i1) → run st1 i1 ts st2 i2 → run st i (t :: ts) st2 i2.
Lemma run_app st i ts1 st1 i1 ts2 st2 i2 : run st i ts1 st1 i1 → run st1 i1 ts2 st2 i2 → run st i (ts1 ++ ts2) st2 i2.
Proof. induction 1; [done|]. intros H'. econstructor; [done|by auto]. Qed.
Lemma run_app_inv st i ts1 ts2 st2 i2 : run st i (ts1 ++ ts2) st2 i2 → ∃ st1 i1, run st i ts1 st1 i1 ∧ run st1 i1 ts2 st2 i2.
Proof.
  revert st i. induction ts1 as [|t ts1 IH]; intros st i H; [exists st, i; split; [constructor|done]|].
  inversion H as [|? ? ? st1 i1 ? ? ? H1 H2]; subst. destruct (IH _ _ H2) as (st1' & i1' & H3 & H4).
  exists st1', i1'. split; [by econstructor|done].
Qed.
Lemma next_inner_shorter st i t st1 i1 : next_inner_ i st = Ok (t, st1, i1) → (length i1 < length i)%nat.
Proof.
  intros H. pose proof (total_next_inner st i) as Ht. cbv beta in Ht. rewrite H in Ht. destruct Ht as (s & -> & Hs). rewrite length_app. lia.
Qed.
Lemma next_ok st i t st1 i1 : next_inner_ i st = Ok (t, st1, i1) → next (mkCommitRefIter i st) = (Some (Ok t), mkCommitRefIter i1 st1).
Proof.
  intros H. unfold next. cbn [data state]. rewrite bool_decide_eq_false_2; [by rewrite H|]. intros ->.
  apply next_inner_shorter in H. cbn in H. lia.
Qed.
Lemma run_collect st i ts st' fuel : run st i ts st' [] → (length i ≤ fuel)%nat → collect fuel (mkCommitRefIter i st) = Some (Ok <$> ts).
Proof.
  intros H. remember [] as j eqn:Hj. revert fuel Hj. induction H as [st i|st i t st1 i1 ts st2 i2 H _ IH]; intros fuel -> Hf.
  - by destruct fuel.
  - pose proof (next_inner_shorter _ _ _ _ _ H). destruct fuel as [|fuel]; [lia|]. cbn [collect]. rewrite (next_ok _ _ _ _ _ H).
    rewrite IH; [done|done|lia].
Qed.
Lemma collect_run st i ts fuel : collect fuel (mkCommitRefIter i st) = Some (Ok <$> ts) → ∃ st', run st i ts st' [].
Proof.
  revert st i ts. induction fuel as [|k IH]; intros st i ts; cbn [collect]; unfold next; cbn [data state];
    (case_bool_decide as Hi; [subst i; destruct ts; [|done]; exists st; constructor|]);
    destruct (next_inner_ i st) as [[[t st1] i1]|e|] eqn:E; try done; try (by destruct ts).
  - destruct (collect k (mkCommitRefIter i1 st1)) as [l|] eqn:El; [|done]. destruct ts as [|t' ts]; [done|].
    cbn. intros [= -> ->]. apply IH in El as [st' Hr]. exists st'. by econstructor.
  - cbn. destruct (collect k _); [|done]. by destruct ts.
Qed.

(** Every iterator ends, without a panic and with nothing behind a failure. *)
Lemma collect_total fuel it : (length (data it) ≤ fuel)%nat →
  ∃ ts e, collect fuel it = Some ((Ok <$> ts) ++ e) ∧ (e = [] ∨ ∃ m, e = [Err m]).
Proof.
  revert it. induction fuel as [|fuel IH]; intros [i st] Hf; cbn [data] in Hf.
  { destruct i; [|cbn in Hf; lia]. exists [], []. split; [done|by left]. }
  cbn [collect]. unfold next. cbn [data state]. case_bool_decide; [exists [], []; split; [done|by left]|].
  pose proof (total_next_inner st i) as Ht. cbv beta in Ht. destruct (next_inner_ i st) as [[[t st1] i1]|m|]; [| |done].
  - destruct Ht as (s & -> & Hs). rewrite length_app in Hf. destruct (IH (mkCommitRefIter i1 st1)) as (ts & e & -> & He); [cbn; lia|].
    exists (t :: ts), e. done.
  - exists [], [Err m]. split; [by destruct fuel|eauto].
Qed.

(** ** The token reader and the parser of whole commits *)

Definition parent_field : parser bytes := parse.header_field (bs "parent") parse.hex_hash.
Definition encoding_field : parser bytes := parse.header_field (bs "encoding") (take_till 1 parse.NL).

(** The inputs between the fields of a commit. *)
Lemma commit_steps data c i7 : commit data = Ok (c, i7) ↔
  ∃ i1 i2 i3 i4 i5 i6,
    parse.header_field (bs "tree") parse.hex_hash data = Ok (tree c, i1) ∧
    chain parent_field i1 (parents c) i2 ∧
    parse.header_field (bs "author") parse.signature i2 = Ok (author c, i3) ∧
    parse.header_field (bs "committer") parse.signature i3 = Ok (committer c, i4) ∧
    opt encoding_field i4 = Ok (encoding c, i5) ∧
    chain extra_header i5 (extra_headers c) i6 ∧
    terminated message_ eof i6 = Ok (message c, i7).
Proof.
  unfold commit. rewrite map_spec, !pair_spec. fold parent_field encoding_field extra_header. split.
  - destruct (parse.header_field _ parse.hex_hash data) as [[t i1]| |] eqn:E1; [|done..]. winnow_run.
    destruct (repeat 0 parent_field i1) as [[ps i2]| |] eqn:E2; [|done..]. winnow_run.
    destruct (parse.header_field _ parse.signature i2) as [[a i3]| |] eqn:E3; [|done..]. winnow_run.
    destruct (parse.header_field _ parse.signature i3) as [[k i4]| |] eqn:E4; [|done..]. winnow_run.
    destruct (opt encoding_field i4) as [[e i5]| |] eqn:E5; [|done..]. winnow_run.
    destruct (repeat 0 extra_header i5) as [[hs i6]| |] eqn:E6; [|done..]. winnow_run.
    destruct (terminated message_ eof i6) as [[m i8]| |] eqn:E7; [|done..]. winnow_run. intros [= <- <-].
    apply repeat_0_chain in E2, E6. by exists i1, i2, i3, i4, i5, i6.
  - intros (i1 & i2 & i3 & i4 & i5 & i6 & -> & E2 & E3 & E4 & E5 & E6 & E7). apply repeat_0_chain in E2, E6.
    winnow_run. rewrite E2. winnow_run. rewrite E3. winnow_run. rewrite E4. winnow_run. rewrite E5. winnow_run. rewrite E6. winnow_run.
    rewrite E7. winnow_run. by destruct c.
Qed.
Lemma message_rest i m i' : terminated message_ eof i = Ok (m, i') → i' = [].
Proof.
  rewrite terminated_spec. destruct (message_ i) as [[m' j]| |]; [|done..]. winnow_run. rewrite eof_spec. case_bool_decide as E; [|done].
  by intros [= _ <-].
Qed.

(** The tokens of a commit. *)
Definition extra_tokens (hs : list (bytes * bytes)) (m : bytes) : list Token := (TExtraHeader <$> hs) ++ [TMessage m].
Definition commit_tokens (c : Commit) : list Token :=
  TTree (c_tree c) :: (TParent <$> c_parents c) ++ TAuthor (c_author c) :: TCommitter (c_committer c) ::
  (TEncoding <$> option_list (c_encoding c)) ++ extra_tokens (c_extra_headers c) (c_message c).

Lemma from_hex_expect_ok {E} h id : from_hex h = Ok id → from_hex_expect h = (Ok id : res E _).
Proof. intros H. unfold from_hex_expect. by rewrite H. Qed.
Lemma mapM_ids_cons {E} h hs id ids : from_hex h = Ok id → mapM from_hex_expect hs = (Ok ids : res E _) →
  mapM from_hex_expect (h :: hs) = (Ok (id :: ids) : res E _).
Proof.
  intros Hid Hids. change (mapM from_hex_expect (h :: hs) : res E _)
    with ((id ← from_hex_expect h; ids ← mapM from_hex_expect hs; Ok (id :: ids)) : res E (list ObjectId)).
  by rewrite (from_hex_expect_ok _ _ Hid), bind_Ok, Hids.
Qed.
(** Parents, extra headers with the message, and the encoding: as chains and
    as runs. *)
Lemma parents_run i ps i' : chain parent_field i ps i' →
  ∃ ids, mapM from_hex_expect ps = (Ok ids : res ErrMode _) ∧ run StParents i (TParent <$> ids) StParents i' ∧ parent_field i' = Err Backtrack.
Proof.
  induction 1 as [i H|i a i1 l i' H _ _ (ids & Hids & Hr & Hi)]; [exists []; split_and!; [done|constructor|done]|].
  pose proof (header_hex_id _ _ _ _ H) as (id & _ & _ & Hid). exists (id :: ids). split_and!; [|rewrite fmap_cons; econstructor; [|exact Hr]|done].
  - by apply mapM_ids_cons.
  - cbn [next_inner_]. unfold next_parents. fold parent_field. rewrite opt_spec, H. winnow_run. unfold from_hex_expect. by rewrite Hid.
Qed.
Lemma run_parents i ids a ts st i' : run StParents i ((TParent <$> ids) ++ TAuthor a :: ts) st i' →
  ∃ ps i1, chain parent_field i ps i1 ∧ mapM from_hex_expect ps = (Ok ids : res ErrMode _) ∧
    run (StSignature Author) i1 (TAuthor a :: ts) st i'.
Proof.
  revert i. induction ids as [|id ids IH]; intros i H; inversion H as [|? ? ? st1 i1 ? ? ? H1 H2]; subst;
    cbn [next_inner_] in H1; unfold next_parents in H1; fold parent_field in H1; rewrite opt_spec in H1;
    destruct (parent_field i) as [[p j]|[]|] eqn:E; try done; rewrite bind_Ok in H1; cbv beta iota in H1.
  - unfold from_hex_expect in H1. by destruct (from_hex p).
  - exists [], i. split_and!; [by constructor|done|]. by econstructor.
  - unfold from_hex_expect in H1. destruct (from_hex p) as [id'| |] eqn:Ep; [|done..]. rewrite bind_Ok in H1. injection H1 as -> <- <-.
    destruct (IH j H2) as (ps & i2 & Hc & Hm & Hr). exists (p :: ps), i2. split_and!; [|by apply mapM_ids_cons|done].
    econstructor; [done| |done]. pose proof (total_header_field 40 (bs "parent") parse.hex_hash total_hex_hash i) as Ht.
    fold parent_field in Ht. rewrite E in Ht. destruct Ht as (s & -> & Hs). rewrite length_app. lia.
  - unfold next_signature in H1. cbn in H1. by destruct (parse.header_field _ _ i) as [[]| |].
Qed.
Lemma extra_run i hs i1 m i2 : chain extra_header i hs i1 → terminated message_ eof i1 = Ok (m, i2) →
  run StExtraHeaders i (extra_tokens hs m) StMessage i2.
Proof.
  intros H Hm. induction H as [i H|i a i1 l i' H _ _ IH]; unfold extra_tokens; econstructor; try constructor.
  - cbn [next_inner_]. unfold next_extra_headers. fold extra_header. rewrite opt_spec, H. winnow_run. unfold next_message. by rewrite Hm.
  - cbn [next_inner_]. unfold next_extra_headers. fold extra_header. rewrite opt_spec, H. by winnow_run.
  - by apply IH.
Qed.
Lemma run_extra i hs m st i2 : run StExtraHeaders i (extra_tokens hs m) st i2 →
  ∃ i1, chain extra_header i hs i1 ∧ terminated message_ eof i1 = Ok (m, i2).
Proof.
  revert i. induction hs as [|h hs IH]; intros i H; unfold extra_tokens in H; inversion H as [|? ? ? st1 i1 ? ? ? H1 H2]; subst;
    cbn [next_inner_] in H1; unfold next_extra_headers in H1; fold extra_header in H1; rewrite opt_spec in H1;
    destruct (extra_header i) as [[p j]|[]|] eqn:E; try done; rewrite bind_Ok in H1; cbv beta iota in H1; try done.
  - unfold next_message in H1. destruct (terminated message_ eof i) as [[m' j]| |] eqn:Em; [|done..]. injection H1 as -> <- <-.
    inversion H2; subst. exists i. split; [by constructor|done].
  - injection H1 as -> <- <-. destruct (IH j H2) as (i1 & Hc & Hm). exists i1. split; [|done]. econstructor; [done| |done].
    pose proof (total_extra_header i) as Ht. fold extra_header in Ht. rewrite E in Ht. destruct Ht as (s & -> & Hs). rewrite length_app. lia.
  - unfold next_message in H1. by destruct (terminated message_ eof i) as [[]| |].
Qed.
Lemma extra_tokens_cons hs m : ∃ t ts, extra_tokens hs m = t :: ts ∧ ∀ e, t ≠ TEncoding e.
Proof. destruct hs as [|h hs]; unfold extra_tokens; cbn; eauto. Qed.
Lemma encoding_run i e i1 hs m st i2 : opt encoding_field i = Ok (e, i1) → run StExtraHeaders i1 (extra_tokens hs m) st i2 →
  run StEncoding i ((TEncoding <$> option_list e) ++ extra_tokens hs m) st i2.
Proof.
  intros He Hr. destruct e as [e|]; cbn.
  - econstructor; [|exact Hr]. cbn [next_inner_]. unfold next_encoding. fold encoding_field. by rewrite He.
  - assert (i1 = i) as -> by (rewrite opt_spec in He; destruct (encoding_field i) as [[]|[]|]; by simplify_eq).
    destruct (extra_tokens_cons hs m) as (t & ts & E & _). rewrite E in *. inversion Hr as [|? ? ? st1 i1 ? ? ? H1 H2]; subst.
    econstructor; [|exact H2]. cbn [next_inner_] in *. unfold next_encoding. fold encoding_field. by rewrite He.
Qed.
Lemma run_encoding i e hs m st i2 : run StEncoding i ((TEncoding <$> option_list e) ++ extra_tokens hs m) st i2 →
  ∃ i1, opt encoding_field i = Ok (e, i1) ∧ run StExtraHeaders i1 (extra_tokens hs m) st i2.
Proof.
  intros H. destruct (extra_tokens_cons hs m) as (t & ts & E & Ht). destruct e as [e|]; cbn in H; rewrite E in *;
    inversion H as [|? ? ? st1 i1 ? ? ? H1 H2]; subst; cbn [next_inner_] in H1; unfold next_encoding in H1; fold encoding_field in H1;
    destruct (opt encoding_field i) as [[[e'|] j]| |] eqn:Eo; try done; rewrite bind_Ok in H1; cbv beta iota in H1.
  - injection H1 as -> <- <-. by exists j.
  - unfold next_extra_headers, next_message in H1. destruct (opt _ j) as [[[h|] k]| |]; [done| |done..]. rewrite bind_Ok in H1.
    cbv beta iota in H1. by destruct (terminated message_ eof k) as [[]| |].
  - injection H1 as <- <- <-. by destruct (Ht e').
  - exists j. split; [done|]. by econstructor.
Qed.

Lemma signature_step k i t st i1 : next_signature k i = Ok (t, st, i1) → match k, t with
  | Author, TAuthor s => parse.header_field (bs "author") parse.signature i = Ok (s, i1) ∧ st = StSignature Committer
  | Committer, TCommitter s => parse.header_field (bs "committer") parse.signature i = Ok (s, i1) ∧ st = StEncoding
  | _, _ => False
  end.
Proof. unfold next_signature. destruct k; destruct (parse.header_field _ _ i) as [[s j]| |]; try done; by intros [= <- <- <-]. Qed.

Lemma commit_run data c i' : commit data = Ok (c, i') → ∃ c', into_commit c = (Ok c' : res ErrMode _) ∧ run StTree data (commit_tokens c') StMessage i'.
Proof.
  intros H. apply commit_steps in H as (i1 & i2 & i3 & i4 & i5 & i6 & E1 & E2 & E3 & E4 & E5 & E6 & E7).
  pose proof (header_hex_id _ _ _ _ E1) as (id & _ & _ & Hid). destruct (parents_run _ _ _ E2) as (ids & Hids & Hr & Hp).
  exists (mkCommit id ids (author c) (committer c) (encoding c) (message c) (extra_headers c)). split.
  - unfold into_commit. by rewrite (from_hex_expect_ok _ _ Hid), bind_Ok, Hids.
  - unfold commit_tokens. cbn [c_tree c_parents c_author c_committer c_encoding c_extra_headers c_message].
    econstructor. { cbn [next_inner_]. unfold next_tree. rewrite E1. winnow_run. unfold from_hex_expect. by rewrite Hid. }
    eapply run_app; [exact Hr|]. econstructor.
    { cbn [next_inner_]. unfold next_parents. fold parent_field. rewrite opt_spec, Hp. winnow_run. unfold next_signature. by rewrite E3. }
    econstructor. { cbn [next_inner_]. unfold next_signature. by rewrite E4. }
    eapply encoding_run; [exact E5|]. by eapply extra_run.
Qed.
Lemma run_commit data c' st i' : run StTree data (commit_tokens c') st i' → ∃ c, commit data = Ok (c, i') ∧ into_commit c = (Ok c' : res ErrMode _).
Proof.
  unfold commit_tokens. intros H. inversion H as [|? ? ? st1 i1 ? ? ? H1 H2]; subst. cbn [next_inner_] in H1. unfold next_tree in H1.
  destruct (parse.header_field _ _ data) as [[t j]| |] eqn:E1; [|done..]. rewrite bind_Ok in H1. cbv beta iota in H1.
  unfold from_hex_expect in H1. destruct (from_hex t) as [id| |] eqn:Et; [|done..]. rewrite bind_Ok in H1. injection H1 as -> <- <-.
  apply run_parents in H2 as (ps & i2 & E2 & Hps & H2). inversion H2 as [|? ? ? st3 i3 ? ? ? H3 H4]; subst.
  apply (signature_step Author) in H3 as [E3 ->]. inversion H4 as [|? ? ? st4 i4 ? ? ? H5 H6]; subst. apply (signature_step Committer) in H5 as [E4 ->].
  apply run_encoding in H6 as (i5 & E5 & H6). apply run_extra in H6 as (i6 & E6 & E7).
  exists (mkCommitRef t ps (c_author c') (c_committer c') (c_encoding c') (c_message c') (c_extra_headers c')). split.
  - apply commit_steps. cbn. eauto 20.
  - unfold into_commit. cbn [tree parents]. rewrite (from_hex_expect_ok _ _ Et), bind_Ok, Hps. by destruct c'.
Qed.
(** C32: Parsing commits is total.  For every sequence of bytes, the token
    iterator ends after at most as many tokens as there are bytes; it yields
    tokens and then at most one error, and never panics; neither does the
    parser of whole commits, nor the conversion of what it returns to an owned
    commit. *)
Theorem commit_parsing_total (data : bytes) :
  (∃ ts e, tokens data = Some ((Ok <$> ts) ++ e) ∧ (e = [] ∨ ∃ m, e = [Err m])) ∧
  commit_from_bytes data ≠ Panic ∧
  ∀ c, commit_from_bytes data = Ok c → ∃ c', into_commit c = (Ok c' : res ErrMode _).
Proof.
  split; [by apply collect_total|]. unfold commit_from_bytes. pose proof (total_commit data) as H.
  destruct (commit data) as [[c i']| |] eqn:E; [|done..]. split; [done|]. intros c0 [= <-].
  destruct (commit_run _ _ _ E) as (c' & Hc & _). by exists c'.
Qed.

(** The two parsers of commits agree.  For every sequence of bytes and
    every owned commit, the parser of whole commits succeeds with that commit
    exactly when the token iterator yields its tree, its parents, its author,
    its committer, its encoding if it has one, its extra headers and its
    message, in this order and without an error. *)
Theorem commit_iter_agrees (data : bytes) (c' : Commit) :
  (∃ c, commit_from_bytes data = Ok c ∧ into_commit c = (Ok c' : res ErrMode _)) ↔ tokens data = Some (Ok <$> commit_tokens c').
Proof.
  unfold tokens, commit_from_bytes. split.
  - intros (c & H & Hc). destruct (commit data) as [[c0 i']| |] eqn:E; [|done..]. injection H as ->.
    destruct (commit_run _ _ _ E) as (c1 & Hc1 & Hr). rewrite Hc in Hc1. injection Hc1 as <-.
    apply commit_steps in E as (? & ? & ? & ? & ? & ? & _ & _ & _ & _ & _ & _ & E). apply message_rest in E as ->.
    by eapply run_collect.
  - intros H. apply collect_run in H as [st H]. apply run_commit in H as (c & Hc & Hi). exists c. by rewrite Hc.
Qed.

(** ** Reading what was written *)

Definition not_encoding (hs : list (bytes * bytes)) : Prop :=
  match hs with (n, _) :: _ => n ≠ bs "encoding" | [] => True end.
(** A commit that can be written and read back. *)
Record wf_commit (c : Commit) : Prop := {
  wf_tree : wf_id (c_tree c);
  wf_parents : Forall wf_id (c_parents c);
  wf_author : wf_signature (c_author c);
  wf_committer : wf_signature (c_committer c);
  wf_encoding : ∀ e, c_encoding c = Some e → e ≠ [] ∧ 10 ∉ e;
  wf_headers : Forall (λ '(n, v), header_name n ∧ header_value v) (c_extra_headers c);
  wf_no_encoding : c_encoding c = None → not_encoding (c_extra_headers c) }.

(** The text of a commit, in parts. *)
Definition id_text (name : bytes) (id : ObjectId) : bytes := name ++ 32 :: hex (as_slice id) ++ [10].
Definition sig_text (name : bytes) (s : Signature) : bytes := name ++ 32 :: signature_text s ++ [10].
Definition header_text (h : bytes * bytes) : bytes :=
  match bstr.split_byte 10 h.2 with
  | l :: ls => h.1 ++ 32 :: l ++ 10 :: concat ((λ l, 32 :: l ++ [10]) <$> ls)
  | [] => []
  end.
Definition head_text (c : Commit) : bytes :=
  id_text (bs "tree") (c_tree c) ++ concat (id_text (bs "parent") <$> c_parents c) ++
  sig_text (bs "author") (c_author c) ++ sig_text (bs "committer") (c_committer c) ++
  match c_encoding c with Some e => bs "encoding" ++ 32 :: e ++ [10] | None => [] end.
Definition commit_text (c : Commit) : bytes := head_text c ++ concat (header_text <$> c_extra_headers c) ++ 10 :: c_message c.

Lemma find_sub_none v b : b ∉ v → bstr.find_sub v [b] = None.
Proof.
  induction v as [|c v IH]; intros Hb; [done|]. apply not_elem_of_cons in Hb as [Hc Hb]. cbn. rewrite IH by done.
  by destruct (Z.eqb_spec c b); [congruence|].
Qed.
Lemma trusted_header_id_text name id : wf_id id → encode.trusted_header_id name id = Ok (id_text name id).
Proof.
  intros [Hl Hb]. unfold encode.trusted_header_id, encode.write_hex_to, hex_to_buf. rewrite Hl. cbn [len_in_hex longest Nat.mul Nat.add Nat.leb lift].
  rewrite bind_Ok, faster_hex.hex_encode_spec by done. done.
Qed.
Lemma trusted_header_signature_text name s : wf_signature s → encode.trusted_header_signature name s = Ok (sig_text name s).
Proof. intros Hs. unfold encode.trusted_header_signature. by rewrite signature_write_text. Qed.
Lemma header_field_multi_line_text n v : encode.header_field_multi_line n v = Ok (header_text (n, v)).
Proof.
  unfold encode.header_field_multi_line, header_text, encode.NL. rewrite bstr.split_str_spec. cbn [fst snd].
  destruct (split_byte_join v) as (l & ls & -> & _ & _). unfold encode.trusted_header_field, encode.NL, encode.SPACE. by rewrite <- !app_assoc.
Qed.
Lemma commit_write_text c : wf_id (c_tree c) → Forall wf_id (c_parents c) → wf_signature (c_author c) → wf_signature (c_committer c) →
  (∀ e, c_encoding c = Some e → e ≠ [] ∧ 10 ∉ e) → commit_write_to c = Ok (commit_text c).
Proof.
  intros Ht Hp Ha Hk He. unfold commit_write_to. rewrite trusted_header_id_text, bind_Ok by done.
  assert (Hps : mapM (encode.trusted_header_id (bs "parent")) (c_parents c) = Ok (id_text (bs "parent") <$> c_parents c)).
  { induction Hp as [|id ids Hid _ IH]; [done|]. cbn [mapM]. by rewrite trusted_header_id_text, bind_Ok, IH. }
  rewrite Hps, bind_Ok, !trusted_header_signature_text, !bind_Ok by done. clear Hps.
  assert (Hhs : ∀ hs, mapM (λ '(name, value), encode.header_field_multi_line name value) hs = (Ok (header_text <$> hs) : res encode.WriteError _)).
  { induction hs as [|[n v] hs IH]; [done|]. cbn [mapM]. by rewrite header_field_multi_line_text, bind_Ok, IH. }
  unfold commit_text, head_text. destruct (c_encoding c) as [e|].
  - destruct (He e eq_refl) as [Hne Hnl]. unfold encode.header_field. rewrite bool_decide_eq_false_2 by done.
    rewrite bstr.find_spec. change (bstr.find_sub e encode.NL) with (bstr.find_sub e [10]). rewrite find_sub_none, bind_Ok, Hhs, bind_Ok by done.
    unfold encode.trusted_header_field, encode.NL, encode.SPACE. rewrite <- !app_assoc. cbn [app]. by rewrite <- !app_assoc.
  - rewrite bind_Ok, Hhs, bind_Ok. rewrite <- !app_assoc. done.
Qed.

Lemma id_field_read name id rest : wf_id id → parse.header_field name parse.hex_hash (id_text name id ++ rest) = Ok (hex (as_slice id), rest).
Proof.
  intros [Hl Hb]. unfold id_text. rewrite <- !app_assoc. cbn [app]. rewrite <- app_assoc. apply header_field_read.
  by apply hex_hash_read.
Qed.
Lemma sig_field_read name s rest : wf_signature s → parse.header_field name parse.signature (sig_text name s ++ rest) = Ok (s, rest).
Proof.
  intros Hs. unfold sig_text. rewrite <- !app_assoc. cbn [app]. rewrite <- app_assoc. apply header_field_read.
  by apply signature_text_read.
Qed.
(** The parts in front of the extra headers. *)
Lemma run_parents_text ids rest : Forall wf_id ids → run StParents (concat (id_text (bs "parent") <$> ids) ++ rest) (TParent <$> ids) StParents rest.
Proof.
  induction 1 as [|id ids Hid _ IH]; [constructor|]. rewrite !fmap_cons. cbn [concat]. rewrite <- app_assoc. econstructor; [|exact IH].
  cbn [next_inner_]. unfold next_parents. rewrite opt_spec, id_field_read by done. winnow_run. by rewrite (from_hex_expect_ok _ _ (from_hex_hex _ Hid)).
Qed.
Lemma run_head_text c rest : wf_commit c → ∃ st,
  run StTree (head_text c ++ rest)
    (TTree (c_tree c) :: (TParent <$> c_parents c) ++ TAuthor (c_author c) :: TCommitter (c_committer c) :: (TEncoding <$> option_list (c_encoding c)))
    st rest ∧
  (c_encoding c = None → st = StEncoding) ∧ (c_encoding c ≠ None → st = StExtraHeaders).
Proof.
  intros Hc. unfold head_text. rewrite <- !app_assoc.
  assert (H : ∀ ts st r, run StEncoding (match c_encoding c with Some e => bs "encoding" ++ 32 :: e ++ [10] | None => [] end ++ r) ts st r →
    run StTree (id_text (bs "tree") (c_tree c) ++ concat (id_text (bs "parent") <$> c_parents c) ++ sig_text (bs "author") (c_author c) ++
      sig_text (bs "committer") (c_committer c) ++ match c_encoding c with Some e => bs "encoding" ++ 32 :: e ++ [10] | None => [] end ++ r)
      (TTree (c_tree c) :: (TParent <$> c_parents c) ++ TAuthor (c_author c) :: TCommitter (c_committer c) :: ts) st r).
  { intros ts st r Hr. econstructor.
    { cbn [next_inner_]. unfold next_tree. rewrite id_field_read by apply Hc. winnow_run. by rewrite (from_hex_expect_ok _ _ (from_hex_hex _ (wf_tree _ Hc))). }
    eapply run_app; [apply run_parents_text, Hc|]. econstructor.
    { cbn [next_inner_]. unfold next_parents. rewrite opt_spec, header_field_other by reflexivity. winnow_run. unfold next_signature.
      rewrite sig_field_read by apply Hc. by winnow_run. }
    econstructor; [|exact Hr]. cbn [next_inner_]. unfold next_signature. rewrite sig_field_read by apply Hc. by winnow_run. }
  destruct (c_encoding c) as [e|] eqn:Ee.
  - exists StExtraHeaders. split; [|done]. apply H. cbn [option_list fmap list_fmap]. econstructor; [|constructor].
    destruct (wf_encoding _ Hc e Ee) as [Hne Hnl]. cbn [next_inner_]. unfold next_encoding. rewrite opt_spec.
    rewrite <- !app_assoc. cbn [app]. rewrite <- app_assoc. rewrite (header_field_read _ _ e e rest) by (by apply value_line_read). by winnow_run.
  - exists StEncoding. split; [|done]. apply H. constructor.
Qed.

(** The extra headers and the message. *)
Definition tail_text (hs : list (bytes * bytes)) (m : bytes) : bytes := concat (header_text <$> hs) ++ 10 :: m.
Definition headers_ok (hs : list (bytes * bytes)) : Prop := Forall (λ '(n, v), header_name n ∧ header_value v) hs.
Lemma header_text_cons h : ∃ r, header_text h = h.1 ++ 32 :: r.
Proof. unfold header_text. destruct (split_byte_join h.2) as (l & ls & -> & _ & _). eauto. Qed.
Lemma tail_text_head hs m : headers_ok hs → match tail_text hs m with b :: _ => b ≠ 32 | [] => True end.
Proof.
  unfold tail_text. destruct 1 as [|[n v] hs [(Hne & H32 & _) _] _]; [done|]. cbn. destruct (header_text_cons (n, v)) as [r ->].
  destruct n as [|b n]; [done|]. cbn. intros ->. apply H32. by left.
Qed.
Lemma extra_header_text n v rest : header_name n → header_value v → (match rest with b :: _ => b ≠ 32 | [] => True end) →
  extra_header (header_text (n, v) ++ rest) = Ok (n, v, rest).
Proof. intros Hn Hv Hr. eapply extra_header_read; [done..|apply header_field_multi_line_text|done]. Qed.
Lemma extra_header_stop m : extra_header (10 :: m) = Err Backtrack.
Proof.
  assert (H : take_till 1 parse.SPACE_OR_NL (10 :: m) = Err Backtrack) by (rewrite take_till_spec; done).
  unfold extra_header, parse.any_header_field_multi_line, parse.any_header_field.
  by rewrite alt_spec, pair_spec, terminated_spec, H, terminated_spec, pair_spec, terminated_spec, H.
Qed.

(** The state goes on to extra headers at an input. *)
Definition ready (st : State) (i : bytes) : Prop := next_inner_ i st = next_extra_headers i.
Lemma starts_with_name n k r : 32 ∉ n → 32 ∉ k → starts_with (n ++ 32 :: r) (k ++ [32]) = true → n = k.
Proof.
  intros Hn Hk H. apply starts_with_spec in H as [j H]. rewrite <- app_assoc in H. cbn in H. revert k Hk H.
  induction n as [|b n IH]; intros [|c k] Hk H; [done|cbn in H; injection H as <- _; destruct Hk; by left|cbn in H; injection H as -> _; destruct Hn; by left|].
  cbn in H. injection H as -> H. apply not_elem_of_cons in Hn as [_ Hn], Hk as [_ Hk]. f_equal. by apply IH.
Qed.
Lemma ready_encoding hs m : headers_ok hs → not_encoding hs → ready StEncoding (tail_text hs m).
Proof.
  intros Hhs Hn. unfold ready. cbn [next_inner_]. unfold next_encoding. rewrite opt_spec, header_field_other; [by winnow_run|].
  apply not_true_iff_false. unfold tail_text. destruct Hhs as [|[n v] hs [(_ & H32 & _) _] _]; [done|]. cbn [fmap list_fmap concat].
  destruct (header_text_cons (n, v)) as [r ->]. rewrite <- !app_assoc. cbn [app fst]. intros H. apply Hn.
  eapply starts_with_name; [done| |exact H]. apply (bool_decide_unpack _). by vm_compute.
Qed.
(** The headers in front of others. *)
Lemma run_headers_text st hs1 hs2 m : headers_ok (hs1 ++ hs2) → ready st (tail_text (hs1 ++ hs2) m) →
  ∃ st', run st (tail_text (hs1 ++ hs2) m) (TExtraHeader <$> hs1) st' (tail_text hs2 m) ∧ ready st' (tail_text hs2 m).
Proof.
  revert st. induction hs1 as [|[n v] hs1 IH]; intros st Hhs Hst; [exists st; split; [constructor|done]|].
  apply Forall_cons in Hhs as [[Hn Hv] Hhs]. destruct (IH StExtraHeaders Hhs eq_refl) as (st' & Hr & Hr'). exists st'. split; [|done].
  econstructor; [|exact Hr]. unfold ready in Hst. cbn [app]. cbn [app] in Hst. rewrite Hst. unfold next_extra_headers. fold extra_header.
  unfold tail_text at 1. cbn [fmap list_fmap concat]. rewrite <- app_assoc. fold (tail_text (hs1 ++ hs2) m).
  rewrite opt_spec, extra_header_text; [by winnow_run|done|done|]. by apply tail_text_head.
Qed.
Lemma message_read m : next_extra_headers (10 :: m) = Ok (TMessage m, StMessage, []).
Proof.
  unfold next_extra_headers. fold extra_header. rewrite opt_spec, extra_header_stop. winnow_run. unfold next_message, message_.
  rewrite terminated_spec. cbn [bool_decide]. rewrite bool_decide_eq_false_2 by done. rewrite preceded_spec.
  change (10 :: m) with (parse.NL ++ m). rewrite literal_app. winnow_run. rewrite rest_spec. winnow_run. rewrite eof_spec, bool_decide_eq_true_2 by done.
  by winnow_run.
Qed.
Definition head_tokens (c : Commit) : list Token :=
  TTree (c_tree c) :: (TParent <$> c_parents c) ++ TAuthor (c_author c) :: TCommitter (c_committer c) :: (TEncoding <$> option_list (c_encoding c)).
Lemma run_before c hs1 hs2 : wf_commit c → c_extra_headers c = hs1 ++ hs2 → ∃ st,
  run StTree (commit_text c) (head_tokens c ++ (TExtraHeader <$> hs1)) st (tail_text hs2 (c_message c)) ∧ ready st (tail_text hs2 (c_message c)).
Proof.
  intros Hc Hhs. unfold commit_text. fold (tail_text (c_extra_headers c) (c_message c)). pose proof (wf_headers _ Hc) as Hok. rewrite Hhs in *.
  destruct (run_head_text c (tail_text (hs1 ++ hs2) (c_message c)) Hc) as (st & Hr & Hn & Hs).
  assert (Hst : ready st (tail_text (hs1 ++ hs2) (c_message c))).
  { destruct (c_encoding c) as [e|] eqn:Ee; [by rewrite Hs|]. rewrite Hn by done. apply ready_encoding; [done|].
    rewrite <- Hhs. by apply (wf_no_encoding _ Hc). }
  destruct (run_headers_text st hs1 hs2 (c_message c) Hok Hst) as (st' & Hr' & Hst'). exists st'. split; [|done].
  eapply run_app; [exact Hr|exact Hr'].
Qed.
Lemma run_commit_text c : wf_commit c → run StTree (commit_text c) (commit_tokens c) StMessage [].
Proof.
  intros Hc. destruct (run_before c (c_extra_headers c) [] Hc) as (st & Hr & Hst); [by rewrite app_nil_r|].
  replace (commit_tokens c) with ((head_tokens c ++ (TExtraHeader <$> c_extra_headers c)) ++ [TMessage (c_message c)])
    by (unfold commit_tokens, head_tokens; cbn [app]; by rewrite <- !app_assoc).
  eapply run_app; [exact Hr|]. econstructor; [|constructor]. rewrite Hst. apply message_read.
Qed.

(** C24: Commits round-trip.  A commit is written, the parser of commits reads the
    same commit back, and the token iterator its tokens, under the following
    conditions: its ids have twenty bytes; names and emails have no [<], no [>]
    and no newline, and no white space is at either end of an email; the seconds
    fit in 64 bits, and offsets are of whole minutes less than a hundred hours
    off, with the sign that fits; an encoding is not empty and has no newline;
    the name of an extra header is not empty and has no space and no newline, the
    first line of its value is not empty, and if there are several lines none of
    them ends in a carriage return; and without an encoding the first extra
    header is not named [encoding]. *)
Theorem commit_roundtrip c : wf_commit c →
  ∃ text, commit_write_to c = Ok text ∧
    (∃ r, commit_from_bytes text = Ok r ∧ into_commit r = (Ok c : res ErrMode _)) ∧
    tokens text = Some (Ok <$> commit_tokens c).
Proof.
  intros Hc. exists (commit_text c). split; [apply commit_write_text; apply Hc|]. pose proof (run_commit_text c Hc) as Hr. split.
  - destruct (run_commit _ _ _ _ Hr) as (r & Hr' & Hi). exists r. unfold commit_from_bytes. by rewrite Hr'.
  - unfold tokens. by eapply run_collect.
Qed.

(** ** The size of what is written *)

Lemma id_text_length name id : wf_id id → Z.of_nat (length (id_text name id)) = Z.of_nat (length name) + 1 + 40 + 1.
Proof. intros [Hl _]. unfold id_text. rewrite length_app. cbn [length]. rewrite length_app, length_hex, Hl. cbn [length]. lia. Qed.
Lemma sig_text_length name s : wf_signature s → ¬ negative_power_of_ten (seconds (time s)) →
  Z.of_nat (length (sig_text name s)) = Z.of_nat (length name) + 1 + signature_size s + 1.
Proof.
  intros Hs Hp. rewrite signature_size_text by done. unfold sig_text. rewrite length_app. cbn [length]. rewrite length_app. cbn [length]. lia.
Qed.
Lemma headers_size_text hs : headers_size hs = Z.of_nat (length (concat (header_text <$> hs))).
Proof.
  induction hs as [|[n v] hs IH]; [done|]. unfold headers_size in *. cbn [foldr fmap list_fmap concat]. rewrite IH. unfold encode.NL. rewrite bstr.split_str_spec.
  rewrite length_app. unfold header_text. cbn [fst snd]. destruct (split_byte_join v) as (l & ls & -> & _ & _).
  assert (H : ∀ ls, foldr (λ (s : bytes) n, Z.of_nat (length s) + 2 + n) 0 ls = Z.of_nat (length (concat ((λ l, 32 :: l ++ [10]) <$> ls)))).
  { clear. induction ls as [|l ls IH]; [done|]. cbn [foldr fmap list_fmap concat]. rewrite IH, length_app. cbn [length]. rewrite length_app. cbn [length]. lia. }
  cbn [foldr]. rewrite H, length_app. cbn [length]. rewrite length_app. cbn [length]. lia.
Qed.
(** The size of a commit is the length of what is written, unless the time
    of the author or of the committer is a negative power of ten. *)
Theorem commit_size_written c : wf_commit c →
  ¬ negative_power_of_ten (seconds (time (c_author c))) → ¬ negative_power_of_ten (seconds (time (c_committer c))) →
  ∃ text, commit_write_to c = Ok text ∧ commit_size c = Z.of_nat (length text).
Proof.
  intros Hc Ha Hk. exists (commit_text c). split; [apply commit_write_text; apply Hc|]. unfold commit_size, commit_text, head_text.
  rewrite !length_app, !Nat2Z.inj_add. rewrite id_text_length, !sig_text_length, headers_size_text by (done || apply Hc).
  assert (Hps : ∀ ids, Forall wf_id ids → Z.of_nat (length (concat (id_text (bs "parent") <$> ids))) = Z.of_nat (length ids) * 48).
  { clear. induction 1 as [|id ids Hid _ IH]; [done|]. rewrite fmap_cons. cbn [concat]. rewrite length_app, Nat2Z.inj_add, IH, id_text_length by done.
    change (length (bs "parent")) with 6%nat. cbn [length]. lia. }
  rewrite Hps by apply Hc. change (len_in_hex (kind (c_tree c))) with (match kind (c_tree c) with KSha1 => 40%nat end).
  destruct (kind (c_tree c)). change (length (bs "tree")) with 4%nat. change (length (bs "author")) with 6%nat. change (length (bs "committer")) with 9%nat.
  cbn [length]. destruct (c_encoding c) as [e|]; [|cbn [length]; lia]. rewrite length_app. cbn [length]. rewrite length_app. cbn [length].
  change (length (bs "encoding")) with 8%nat. lia.
Qed.

(** ** The signature of a commit *)

Definition is_gpgsig (t : Token) : bool := match t with TExtraHeader (n, _) => bool_decide (n = bs "gpgsig") | _ => false end.
Lemma raw_next_ok st i off t st1 i1 : next_inner_ i st = Ok (t, st1, i1) →
  raw_next (mkRaw i st off) =
    (Some (Ok (mkRawToken t (off, (off + (length i - length i1))%nat))), mkRaw i1 st1 (off + (length i - length i1))).
Proof.
  intros H. unfold raw_next. cbn [raw_data raw_state raw_offset]. rewrite bool_decide_eq_false_2; [by rewrite H|]. intros ->.
  apply next_inner_shorter in H. cbn in H. lia.
Qed.
Lemma run_signature_loop st i ts st1 i1 fuel off : run st i ts st1 i1 → Forall (λ t, is_gpgsig t = false) ts → (length i ≤ fuel)%nat →
  ∃ fuel', (length i1 ≤ fuel')%nat ∧
    signature_loop fuel (mkRaw i st off) = signature_loop fuel' (mkRaw i1 st1 (off + (length i - length i1))).
Proof.
  intros H. revert fuel off. induction H as [st i|st i t st1 i1 ts st2 i2 H Hr IH]; intros fuel off Hts Hf.
  - exists fuel. by rewrite Nat.sub_diag, Nat.add_0_r.
  - apply Forall_cons in Hts as [Ht Hts]. pose proof (next_inner_shorter _ _ _ _ _ H) as Hl. destruct fuel as [|fuel]; [lia|].
    destruct (IH fuel (off + (length i - length i1))%nat Hts ltac:(lia)) as (fuel' & Hf' & E). exists fuel'. split; [done|].
    assert (Hle : (length i2 ≤ length i1)%nat).
    { clear -Hr WL BL FL. induction Hr as [|? ? ? ? ? ? ? ? H _ IH]; [done|]. apply next_inner_shorter in H. lia. }
    replace (off + (length i - length i2))%nat with (off + (length i - length i1) + (length i1 - length i2))%nat by lia. rewrite <- E.
    cbn [signature_loop]. rewrite (raw_next_ok _ _ _ _ _ _ H). cbn [token]. destruct t as [| | | | |[n v]|]; try done. cbn [is_gpgsig] in Ht. by rewrite Ht.
Qed.

(** The signature of a commit.  In the text of a commit with a [gpgsig]
    header, [CommitRefIter::signature] finds the value of the first one, and
    the data it returns as signed is the text of the same commit without that
    header. *)
Theorem commit_signature_data c hs1 sig hs2 : wf_commit c → c_extra_headers c = hs1 ++ (bs "gpgsig", sig) :: hs2 →
  Forall (λ h, h.1 ≠ bs "gpgsig") hs1 →
  ∃ text signed, commit_write_to c = Ok text ∧
    (∃ sd, signature text = Some (Ok (Some (sig, sd))) ∧ to_bstring sd = (Ok signed : res ErrMode _)) ∧
    commit_write_to (mkCommit (c_tree c) (c_parents c) (c_author c) (c_committer c) (c_encoding c) (c_message c) (hs1 ++ hs2)) = Ok signed.
Proof.
  intros Hc Hhs Hno. pose proof (wf_headers _ Hc) as Hok. rewrite Hhs in Hok.
  set (c' := mkCommit _ _ _ _ _ _ (hs1 ++ hs2)). exists (commit_text c), (commit_text c'). split; [apply commit_write_text; apply Hc|].
  split; [|apply commit_write_text; apply Hc].
  set (pre := head_text c ++ concat (header_text <$> hs1)). set (g := header_text (bs "gpgsig", sig)). set (post := tail_text hs2 (c_message c)).
  assert (Et : commit_text c = pre ++ g ++ post).
  { unfold commit_text, pre, g, post, tail_text. rewrite Hhs, fmap_app, fmap_cons, concat_app. cbn [concat]. by rewrite <- !app_assoc. }
  assert (Et' : commit_text c' = pre ++ post).
  { unfold commit_text, pre, post, tail_text. cbn [c' c_extra_headers c_message]. rewrite fmap_app, concat_app. by rewrite <- !app_assoc. }
  destruct (run_before c hs1 _ Hc Hhs) as (st & Hr & Hst). unfold tail_text in Hr at 1, Hst. cbn [fmap list_fmap concat] in Hr, Hst.
  rewrite <- app_assoc in Hr, Hst. fold (tail_text hs2 (c_message c)) in Hr, Hst. fold g post in Hr, Hst.
  apply Forall_app in Hok as [_ Hok]. apply Forall_cons in Hok as [[Hgn Hgv] Hok2].
  assert (Hnext : next_inner_ (g ++ post) st = Ok (TExtraHeader (bs "gpgsig", sig), StExtraHeaders, post)).
  { rewrite Hst. unfold next_extra_headers. fold extra_header. rewrite opt_spec. unfold g at 1.
    rewrite extra_header_text; [by winnow_run|done|done|]. by apply tail_text_head. }
  destruct (run_signature_loop _ _ _ _ _ (length (commit_text c)) 0 Hr) as (fuel & Hf & El); [|done|].
  { apply Forall_app. split.
    - unfold head_tokens. constructor; [done|]. apply Forall_app. split; [by apply Forall_fmap, Forall_true|].
      constructor; [done|]. constructor; [done|]. by apply Forall_fmap, Forall_true.
    - apply Forall_fmap. eapply Forall_impl; [exact Hno|]. intros [n v] Hn. cbn in Hn. cbn [compose is_gpgsig]. by rewrite bool_decide_eq_false_2. }
  assert (Epre : (length (commit_text c) - length (g ++ post))%nat = length pre) by (rewrite Et, length_app; lia).
  assert (Eg : (length (g ++ post) - length post)%nat = length g) by (rewrite length_app; lia).
  exists (mkSignedData (commit_text c) (length pre, (length pre + length g)%nat)). split.
  - unfold signature. rewrite El, Epre. destruct fuel as [|fuel]; cbn [signature_loop]; rewrite (raw_next_ok _ _ _ _ _ _ Hnext); cbn [token token_range];
      rewrite bool_decide_eq_true_2, Eg by done; done.
  - unfold to_bstring. cbn [signed_data signature_range fst snd]. rewrite Et, slice_to_app, bind_Ok by done. rewrite app_assoc.
    rewrite slice_from_at, bind_Ok by (by rewrite length_app). by rewrite Et'.
Qed.
End Proofs.

(** ** At a concrete commit *)

Definition sample_signature : Signature := mkSignature (bs "A U Thor") (bs "author@example.com") (mkTime 1112911993 (-25200) Minus).
Definition sample_commit : Commit :=
  mkCommit (empty_tree KSha1) [null KSha1; empty_blob KSha1] sample_signature sample_signature (Some (bs "ISO-8859-1"))
    (bs "subject" ++ [10; 10] ++ bs "body") [(bs "first", bs "one"); (bs "gpgsig", bs "-----BEGIN" ++ [10; 10] ++ bs "iQ=="); (bs "last", bs "x")].
Lemma sample_commit_wf : wf_commit sample_commit.
Proof.
  assert (Hs : wf_signature sample_signature).
  { repeat split; try (apply (bool_decide_unpack _); vm_compute; exact I); cbn; lia. }
  split; cbn [sample_commit c_tree c_parents c_author c_committer c_encoding c_extra_headers]; try exact Hs; try done.
  - split; [done|]. apply (bool_decide_unpack _). by vm_compute.
  - repeat constructor; try (apply (bool_decide_unpack _); by vm_compute).
  - intros e [= <-]. split; [done|]. apply (bool_decide_unpack _). by vm_compute.
  - repeat (apply Forall_cons; split; [split; apply (bool_decide_unpack _); by vm_compute|]). constructor.
Qed.
Lemma sample_not_power n : 1112911993 = n → ¬ negative_power_of_ten n.
Proof. intros <- (k & _ & H). pose proof (Z.pow_nonneg 10 (Z.of_nat k) ltac:(lia)). lia. Qed.

(** Instances of the parts that are not in the repository. *)
Definition impl_tokens := tokens (BA := bstr_impl) (WA := winnow_impl) (FA := hex_impl).
Definition impl_from_bytes := commit_from_bytes (BA := bstr_impl) (WA := winnow_impl).
Definition impl_write_to := commit_write_to (BA := bstr_impl) (IA := itoa_impl) (FA := hex_impl).
Definition impl_into {E} := into_commit (E := E) (FA := hex_impl).
Definition impl_size := commit_size (BA := bstr_impl).
Definition impl_signature := signature (BA := bstr_impl) (WA := winnow_impl) (FA := hex_impl).

Lemma commit_parsing_total_witness :
  (∃ ts e, impl_tokens (bs "tree xyz") = Some ((Ok <$> ts) ++ e) ∧ (e = [] ∨ ∃ m, e = [Err m])) ∧
  impl_from_bytes (bs "tree xyz") = Err Backtrack.
Proof.
  split.
  - exact (proj1 (commit_parsing_total (BL := bstr_impl_laws) (WL := winnow_impl_laws) (FL := hex_impl_laws) (bs "tree xyz"))).
  - vm_compute. reflexivity.
Defined.
Definition sample_text : bytes := match impl_write_to sample_commit with Ok text => text | _ => [] end.
Lemma commit_roundtrip_witness :
  wf_commit sample_commit ∧
  ∃ text, impl_write_to sample_commit = Ok text ∧
    (∃ r, impl_from_bytes text = Ok r ∧ impl_into r = (Ok sample_commit : res ErrMode _)) ∧
    impl_tokens text = Some (Ok <$> commit_tokens sample_commit).
Proof.
  split; [apply sample_commit_wf|].
  exact (commit_roundtrip (BL := bstr_impl_laws) (IL := itoa_impl_laws) (WL := winnow_impl_laws) (FL := hex_impl_laws) sample_commit sample_commit_wf).
Defined.
Lemma commit_iter_agrees_witness :
  impl_tokens sample_text = Some (Ok <$> commit_tokens sample_commit) ∧
  ∃ c, impl_from_bytes sample_text = Ok c ∧ impl_into c = (Ok sample_commit : res ErrMode _).
Proof.
  assert (H : impl_tokens sample_text = Some (Ok <$> commit_tokens sample_commit)) by (vm_compute; reflexivity).
  split; [exact H|].
  exact (proj2 (commit_iter_agrees (BL := bstr_impl_laws) (WL := winnow_impl_laws) (FL := hex_impl_laws) sample_text sample_commit) H).
Defined.
Lemma commit_size_written_witness :
  wf_commit sample_commit ∧ ∃ text, impl_write_to sample_commit = Ok text ∧ impl_size sample_commit = Z.of_nat (length text).
Proof.
  split; [apply sample_commit_wf|].
  exact (commit_size_written (BL := bstr_impl_laws) (IL := itoa_impl_laws) (FL := hex_impl_laws) sample_commit sample_commit_wf
    (sample_not_power _ eq_refl) (sample_not_power _ eq_refl)).
Defined.
Lemma commit_signature_data_witness :
  Forall (λ h, h.1 ≠ bs "gpgsig") [(bs "first", bs "one")] ∧
  ∃ text signed, impl_write_to sample_commit = Ok text ∧
    (∃ sd, impl_signature text = Some (Ok (Some (bs "-----BEGIN" ++ [10; 10] ++ bs "iQ==", sd))) ∧ to_bstring sd = (Ok signed : res ErrMode _)) ∧
    impl_write_to (mkCommit (c_tree sample_commit) (c_parents sample_commit) (c_author sample_commit) (c_committer sample_commit)
      (c_encoding sample_commit) (c_message sample_commit) [(bs "first", bs "one"); (bs "last", bs "x")]) = Ok signed.
Proof.
  assert (H : Forall (λ h : bytes * bytes, h.1 ≠ bs "gpgsig") [(bs "first", bs "one")]) by (repeat constructor; done).
  split; [exact H|].
  exact (commit_signature_data (BL := bstr_impl_laws) (IL := itoa_impl_laws) (WL := winnow_impl_laws) (FL := hex_impl_laws) sample_commit
    [(bs "first", bs "one")] _ [(bs "last", bs "x")] sample_commit_wf eq_refl H).
Defined.

(** A carriage return at the end of a line of a multi-line header is lost, and
    a header without a first line is written, but not read: the check for an
    empty value does not hold, as splitting yields at least one piece. *)
Example multi_line_carriage_return_lost :
  (text ← impl_write_to (mkCommit (null KSha1) [] sample_signature sample_signature None [] [(bs "h", bs "a" ++ [13; 10] ++ bs "b")]);
   Ok (extra_headers <$> impl_from_bytes text)) = Ok (Ok [(bs "h", bs "a" ++ [10] ++ bs "b")]).
Proof. vm_compute. reflexivity. Qed.
Example empty_header_value_not_read :
  (text ← impl_write_to (mkCommit (null KSha1) [] sample_signature sample_signature None [] [(bs "h", [])]);
   Ok (impl_from_bytes text)) = Ok (Err Backtrack).
Proof. vm_compute. reflexivity. Qed.
