(* ===== verification/OidLookup.v ===== *)
(** * Finding object ids in a sorted table

    Models the free functions [lookup] and [lookup_prefix] of
    [gix-pack/src/index/access.rs], shared by pack indices and multi-pack
    indices: a bisection in the part of a sorted table of ids that the 256-way
    fan-out table delimits.

    The table is reached through a function [oid_at_index]; the class
    [OidTable] states what the search relies on, and the files that own a
    table discharge it. *)

From S2P Require Import Prelude External Hash.

(** ** The interface *)

Abbreviation oid_at_index_fn := (Z → res Empty_set bytes) (only parsing).

(** The number of entries whose key is at most [b]. *)
Fixpoint count_le {A} (key : A → Z) (b : Z) (l : list A) : nat :=
  match l with
  | [] => 0
  | x :: l => if key x <=? b then S (count_le key b l) else count_le key b l
  end.

(** [oids] is the content of the table: strictly ascending, reachable through
    [oid_at], and counted by [fan]: entry [b] is the number of ids whose first
    byte is at most [b].  The bisection adds two [u32] bounds, which is exact
    up to 2^31 objects. *)
Class OidTable (oid_at : oid_at_index_fn) (fan : list Z) (oids : list bytes) : Prop := {
  table_wf : Forall wf_oid oids;
  table_sorted : StronglySorted bytes_lt oids;
  table_small : Z.of_nat (length oids) ≤ 2 ^ 31;
  table_at i o : oids !! i = Some o → oid_at (Z.of_nat i) = Ok o;
  table_fan b : 0 ≤ b < 256 →
    fan !! Z.to_nat b =
      Some (Z.of_nat (count_le (λ o, nth 0 o 0) b oids)) }.

(** ** The code *)

Section Lookup.
Context (oid_at_index : oid_at_index_fn).

(** The bounds taken from the fan table. *)
Definition bounds (first_byte : Z) (fan : list Z) : res Empty_set (Z * Z) :=
  upper_bound ← idx fan (Z.to_nat first_byte);
  lower_bound ← (if negb (first_byte =? 0) then idx fan (Z.to_nat first_byte - 1)
                 else Ok 0);
  Ok (lower_bound, upper_bound).

(** The bisection loop: [cmp] compares the wanted id or prefix with an id.
    The index where they are equal, or [None] when the range is empty.  Every
    round shrinks the range, so its length bounds the rounds. *)
Fixpoint bisect (fuel : nat) (cmp : bytes → res Empty_set comparison)
    (lower_bound upper_bound : Z) : res Empty_set (option Z) :=
  if lower_bound <? upper_bound then
    match fuel with
    | O => Panic
    | S fuel =>
        let mid := wrap 32 (lower_bound + upper_bound) / 2 in
        mid_sha ← oid_at_index mid;
        c ← cmp mid_sha;
        match c with
        | Lt => bisect fuel cmp lower_bound mid
        | Eq => Ok (Some mid)
        | Gt => bisect fuel cmp (mid + 1) upper_bound
        end
    end
  else Ok None.

Definition lookup (id : bytes) (fan : list Z) : res Empty_set (option Z) :=
  first_byte ← first_byte id;
  '(lower_bound, upper_bound) ← bounds first_byte fan;
  bisect (Z.to_nat (upper_bound - lower_bound))
    (λ mid_sha, Ok (bytes_cmp id mid_sha)) lower_bound upper_bound.

(** [PrefixLookupResult]: [Ok(index)] or the ambiguous [Err(())]. *)
Inductive PrefixLookupResult := Unique (index : Z) | Ambiguous.

Definition matches (prefix : Prefix) (i : Z) : res Empty_set bool :=
  o ← oid_at_index i;
  c ← cmp_oid prefix o;
  Ok (match c with Eq => true | _ => false end).

(** [(0..mid).rev().take_while(..).last()]: [n] entries are left to visit. *)
Fixpoint scan_down (prefix : Prefix) (n : nat) (last : option Z)
  : res Empty_set (option Z) :=
  match n with
  | O => Ok last
  | S n =>
      m ← matches prefix (Z.of_nat n);
      if (m : bool) then scan_down prefix n (Some (Z.of_nat n)) else Ok last
  end.

(** [(mid + 1..num_objects).take_while(..).last()]. *)
Fixpoint scan_up (prefix : Prefix) (n : nat) (i : Z) (last : option Z)
  : res Empty_set (option Z) :=
  match n with
  | O => Ok last
  | S n =>
      m ← matches prefix i;
      if (m : bool) then scan_up prefix n (i + 1) (Some i) else Ok last
  end.

(** What happens at an equal entry, with and without [candidates]; the second
    component is the range stored in [candidates]. *)
Definition prefix_hit (prefix : Prefix) (candidates : bool) (num_objects mid : Z)
  : res Empty_set (PrefixLookupResult * option (Z * Z)) :=
  if candidates then
    first_past_entry ← scan_down prefix (Z.to_nat mid) None;
    last_future_entry ← scan_up prefix (Z.to_nat (num_objects - (mid + 1))) (mid + 1) None;
    let '(s, e) :=
      match first_past_entry, last_future_entry with
      | Some first, Some last => (first, last + 1)
      | Some first, None => (first, mid + 1)
      | None, Some last => (mid, last + 1)
      | None, None => (mid, mid + 1)
      end in
    Ok (if 1 <? e - s then Ambiguous else Unique mid, Some (s, e))
  else
    let next := mid + 1 in
    m ← (if next <? num_objects then matches prefix next else Ok false);
    if (m : bool) then Ok (Ambiguous, None) else
    m ← (if negb (mid =? 0) then matches prefix (mid - 1) else Ok false);
    if (m : bool) then Ok (Ambiguous, None) else
    Ok (Unique mid, None).

Definition lookup_prefix (prefix : Prefix) (candidates : bool) (fan : list Z)
    (num_objects : Z)
  : res Empty_set (option PrefixLookupResult * option (Z * Z)) :=
  first_byte ← first_byte (as_oid prefix);
  '(lower_bound, upper_bound) ← bounds first_byte fan;
  hit ← bisect (Z.to_nat (upper_bound - lower_bound)) (cmp_oid prefix)
          lower_bound upper_bound;
  match hit with
  | Some mid =>
      '(r, c) ← prefix_hit prefix candidates num_objects mid;
      Ok (Some r, c)
  | None => Ok (None, if candidates then Some (0, 0) else None)
  end.

End Lookup.

(** ** Sorted lists *)

Lemma sorted_lookup_lt {A} (R : A → A → Prop) l i j x y :
  StronglySorted R l → l !! i = Some x → l !! j = Some y → (i < j)%nat → R x y.
Proof.
  intros Hs. revert i j. induction Hs as [|z l Hs IH Hz]; intros i j Hx Hy Hij; [done|].
  destruct j as [|j]; [lia|]. destruct i as [|i]; simpl in *; simplify_eq.
  - rewrite Forall_forall in Hz. apply Hz. by eapply list_elem_of_lookup_2.
  - eapply IH; [done..|lia].
Qed.

(** In a list ordered by a key, the entries with a key up to [b] come first. *)
Lemma count_le_prefix {A} (key : A → Z) (l : list A) b i x :
  StronglySorted (λ x y, key x ≤ key y) l → l !! i = Some x →
  (i < count_le key b l)%nat ↔ key x ≤ b.
Proof.
  intros Hs. revert i. induction Hs as [|z l Hs IH Hz]; intros i Hx; [done|].
  cbn [count_le]. destruct (Z.leb_spec (key z) b) as [Hb|Hb].
  - destruct i as [|i]; simpl in *; simplify_eq; [split; [done|lia]|].
    rewrite <- (IH i Hx). lia.
  - assert (Hnil : count_le key b l = 0%nat).
    { clear IH Hs Hx. induction Hz as [|y l Hy _ IHl]; [done|]. cbn [count_le].
      by rewrite (proj2 (Z.leb_gt _ _)) by lia. }
    rewrite Hnil. split; [lia|]. intros Hxb.
    destruct i as [|i]; simpl in *; simplify_eq; [lia|].
    rewrite Forall_forall in Hz. apply list_elem_of_lookup_2, Hz in Hx. lia.
Qed.

Lemma count_le_length {A} (key : A → Z) b l : (count_le key b l ≤ length l)%nat.
Proof. induction l as [|x l IH]; simpl; [lia|]. destruct (_ <=? _); lia. Qed.

(** Lexicographic order is the order of the first bytes where these differ. *)
Lemma bytes_lt_first x y : wf_oid x → wf_oid y → bytes_lt x y → nth 0 x 0 ≤ nth 0 y 0.
Proof.
  intros [Hx _] [Hy _]. destruct x as [|a x], y as [|b y]; try done.
  unfold bytes_lt. simpl. destruct (Z.compare_spec a b); [lia|lia|done].
Qed.

Lemma first_sorted oids :
  Forall wf_oid oids → StronglySorted bytes_lt oids →
  StronglySorted (λ x y : bytes, nth 0 x 0 ≤ nth 0 y 0) oids.
Proof.
  intros Hwf Hs. induction Hs as [|x l Hs IH Hx]; [constructor|].
  apply Forall_cons in Hwf as [Hwx Hwl]. constructor; [auto|].
  apply Forall_forall. intros y Hy. rewrite Forall_forall in Hx, Hwl.
  apply bytes_lt_first; auto.
Qed.

(** ** Bisection *)

Section Bisect.
Context (oid_at : oid_at_index_fn) (oids : list bytes).
Hypothesis Hat : ∀ i o, oids !! i = Some o → oid_at (Z.of_nat i) = Ok o.
Hypothesis Hsmall : Z.of_nat (length oids) ≤ 2 ^ 31.
Context (cmp : bytes → res Empty_set comparison) (ord : bytes → comparison).
Hypothesis Hcmp : ∀ o, o ∈ oids → cmp o = Ok (ord o).

(** What is left of the bounds is smaller, what is right of them is larger. *)
Definition outside (lo hi : Z) : Prop :=
  ∀ i o, oids !! i = Some o →
    (Z.of_nat i < lo → ord o = Gt) ∧ (hi ≤ Z.of_nat i → ord o = Lt).
Hypothesis Hmono : ∀ i j x y, (i < j)%nat → oids !! i = Some x → oids !! j = Some y →
  (ord x = Lt → ord y = Lt) ∧ (ord y = Gt → ord x = Gt).

Lemma bisect_correct fuel lo hi :
  0 ≤ lo → hi ≤ Z.of_nat (length oids) → hi - lo ≤ Z.of_nat fuel → outside lo hi →
  (∃ i o, bisect oid_at fuel cmp lo hi = Ok (Some (Z.of_nat i)) ∧
     oids !! i = Some o ∧ ord o = Eq) ∨
  (bisect oid_at fuel cmp lo hi = Ok None ∧ ∀ o, o ∈ oids → ord o ≠ Eq).
Proof.
  revert lo hi. induction fuel as [|fuel IH]; intros lo hi Hlo Hhi Hf Hout; simpl.
  all: destruct (Z.ltb_spec lo hi) as [Hlt|Hge].
  all: try by (right; split; [done|]; intros o [i Hi]%list_elem_of_lookup_1 Ho;
    destruct (Hout i o Hi) as [H1 H2];
    destruct (Z.lt_ge_cases (Z.of_nat i) lo); [rewrite H1 in Ho|rewrite H2 in Ho]; [done|lia|done|lia]).
  1: lia.
  rewrite wrap_small by lia. set (mid := (lo + hi) / 2).
  assert (Hmid : lo ≤ mid < hi).
  { unfold mid. pose proof (Z.div_mod (lo + hi) 2). pose proof (Z.mod_pos_bound (lo + hi) 2).
    lia. }
  destruct (lookup_lt_is_Some_2 oids (Z.to_nat mid) ltac:(lia)) as [o Ho].
  assert (Hoid : oid_at mid = Ok o) by (rewrite <- (Z2Nat.id mid) by lia; eauto).
  rewrite Hoid, bind_Ok, Hcmp, bind_Ok by (by eapply list_elem_of_lookup_2).
  destruct (ord o) eqn:Eo.
  - left. exists (Z.to_nat mid), o. rewrite Z2Nat.id by lia. done.
  - apply IH; [lia..|]. intros i x Hx. split; [apply (Hout i x Hx)|]. intros Hi.
    destruct (decide (i = Z.to_nat mid)) as [->|Hne]; [congruence|].
    eapply (Hmono (Z.to_nat mid) i); eauto. lia.
  - apply IH; [lia..|]. intros i x Hx. split; [|apply (Hout i x Hx)]. intros Hi.
    destruct (decide (i = Z.to_nat mid)) as [->|Hne]; [congruence|].
    eapply (Hmono i (Z.to_nat mid)); eauto. lia.
Qed.

End Bisect.

(** ** Order of ids and of their abbreviations *)

Lemma bytes_cmp_take n a b :
  length a = length b →
  bytes_cmp (take n a) (take n b) = Eq ∨ bytes_cmp (take n a) (take n b) = bytes_cmp a b.
Proof.
  revert a b. induction n as [|n IH]; intros a b Hl; [by left|].
  destruct a as [|x a], b as [|y b]; simpl in *; try lia; [by left|].
  destruct (x ?= y); [apply IH; lia|by right..].
Qed.

Lemma abbrev_mono n x y :
  wf_oid x → wf_oid y → bytes_lt x y →
  abbrev n x = abbrev n y ∨ bytes_lt (abbrev n x) (abbrev n y).
Proof.
  intros [Hx _] [Hy _] Hlt. unfold abbrev, bytes_lt in *.
  rewrite bytes_cmp_nibbles in Hlt by congruence.
  destruct (bytes_cmp_take n (nibbles x) (nibbles y)) as [H|H].
  - rewrite !length_nibbles. lia.
  - left. by apply bytes_cmp_eq.
  - right. by rewrite H.
Qed.

(** Searching for [k] among abbreviations (or full ids) of a sorted table. *)
Lemma cmp_mono (k x y : bytes) :
  x = y ∨ bytes_lt x y →
  (bytes_cmp k x = Lt → bytes_cmp k y = Lt) ∧ (bytes_cmp k y = Gt → bytes_cmp k x = Gt).
Proof.
  intros [->|Hlt]; [done|]. split.
  - change (bytes_lt k x → bytes_lt k y). intros Hk. by transitivity x.
  - rewrite !bytes_cmp_gt. intros Hk. by transitivity y.
Qed.

Lemma abbrev_cmp_first n a x b y :
  (2 ≤ n)%nat → a ≠ b →
  bytes_cmp (abbrev n (a :: x)) (abbrev n (b :: y)) = (a ?= b).
Proof.
  intros Hn Hab. unfold abbrev. destruct n as [|[|n]]; [lia..|]. cbn [nibbles take bytes_cmp].
  rewrite (compare_nibbles a b). destruct (a / 16 ?= b / 16) eqn:E1; [|done..].
  destruct (a mod 16 ?= b mod 16) eqn:E2; [|done..].
  apply Z.compare_eq_iff in E1, E2. exfalso. apply Hab.
  rewrite (Z.div_mod a 16), (Z.div_mod b 16) by lia. by rewrite E1, E2.
Qed.

Section Table.
Context (oid_at : oid_at_index_fn) (fan : list Z) (oids : list bytes).
Context `{HT : !OidTable oid_at fan oids}.

Lemma oids_wf o : o ∈ oids → wf_oid o.
Proof. pose proof table_wf as Hwf. rewrite Forall_forall in Hwf. auto. Qed.

(** The fan table delimits the ids with the wanted first byte. *)
Lemma bounds_outside (ord : bytes → comparison) b :
  u8 b →
  (∀ o, o ∈ oids → nth 0 o 0 < b → ord o = Gt) →
  (∀ o, o ∈ oids → b < nth 0 o 0 → ord o = Lt) →
  ∃ lo hi, bounds b fan = Ok (lo, hi) ∧ 0 ≤ lo ∧ hi ≤ Z.of_nat (length oids) ∧
    outside oids ord lo hi.
Proof.
  intros Hb Hbelow Habove. unfold bounds, idx.
  pose proof (first_sorted oids table_wf table_sorted) as Hfs.
  rewrite (table_fan b) by lia. cbn [expect]. rewrite bind_Ok.
  assert (Hhi : ∀ i o, oids !! i = Some o →
    Z.of_nat (count_le (λ o, nth 0 o 0) b oids) ≤ Z.of_nat i → ord o = Lt).
  { intros i o Ho Hi. apply Habove; [by eapply list_elem_of_lookup_2|].
    pose proof (count_le_prefix (λ o, nth 0 o 0) oids b i o Hfs Ho). lia. }
  pose proof (count_le_length (λ o : bytes, nth 0 o 0) b oids).
  destruct (Z.eqb_spec b 0) as [->|Hnz]; cbn [negb].
  - rewrite bind_Ok. eexists _, _. split_and!; [done|lia|lia|].
    intros i o Ho. split; [lia|eauto].
  - replace (Z.to_nat b - 1)%nat with (Z.to_nat (b - 1)) by lia.
    rewrite (table_fan (b - 1)) by lia. cbn [expect]. rewrite bind_Ok.
    eexists _, _. split_and!; [done|lia|lia|].
    intros i o Ho. split; [|eauto]. intros Hi.
    apply Hbelow; [by eapply list_elem_of_lookup_2|].
    pose proof (count_le_prefix (λ o, nth 0 o 0) oids (b - 1) i o Hfs Ho). lia.
Qed.

Lemma lookup_spec id :
  wf_oid id →
  (∃ i, lookup oid_at id fan = Ok (Some (Z.of_nat i)) ∧ oids !! i = Some id) ∨
  (lookup oid_at id fan = Ok None ∧ id ∉ oids).
Proof.
  intros Hid. pose proof Hid as [Hl Hb]. destruct id as [|b id]; [done|].
  apply Forall_cons in Hb as [Hb _].
  set (ord := bytes_cmp (b :: id)).
  destruct (bounds_outside ord b Hb) as (lo & hi & Hbd & Hlo & Hhi & Hout).
  { intros o Ho Hlt. destruct (oids_wf o Ho) as [Ho' _]. destruct o as [|c o]; [done|].
    unfold ord. simpl in *. by rewrite (proj2 (Z.compare_gt_iff b c)). }
  { intros o Ho Hlt. destruct (oids_wf o Ho) as [Ho' _]. destruct o as [|c o]; [done|].
    unfold ord. simpl in *. by rewrite (proj2 (Z.compare_lt_iff b c)). }
  unfold lookup. change (first_byte (b :: id)) with (@Ok Empty_set Z b). rewrite bind_Ok.
  rewrite Hbd, bind_Ok.
  destruct (bisect_correct oid_at oids table_at table_small
    (λ o, Ok (ord o)) ord ltac:(done)) with (fuel := Z.to_nat (hi - lo)) (lo := lo) (hi := hi)
    as [(i & o & Hbis & Ho & Heq)|[Hbis Hno]]; [|lia|lia|lia|done|..].
  { intros i j x y Hij Hx Hy. apply cmp_mono. right.
    eapply sorted_lookup_lt; eauto using table_sorted. }
  - left. exists i. split; [done|]. apply bytes_cmp_eq in Heq. by subst.
  - right. split; [done|]. intros Hin. apply (Hno _ Hin). apply bytes_cmp_refl.
Qed.

(** *** Prefixes *)

Section PrefixSearch.
Context (p : Prefix) (Hp : wf_prefix p).

Definition pord (o : bytes) : comparison :=
  bytes_cmp (abbrev (hex_len p) (as_oid p)) (abbrev (hex_len p) o).
(** Entry [i] matches the prefix. *)
Definition hits (i : nat) : Prop :=
  ∃ o, oids !! i = Some o ∧ abbrev (hex_len p) o = abbrev (hex_len p) (as_oid p).

Lemma pord_eq o : pord o = Eq ↔ abbrev (hex_len p) o = abbrev (hex_len p) (as_oid p).
Proof. unfold pord. rewrite bytes_cmp_eq. split; done. Qed.

Lemma pord_mono i j x y :
  (i < j)%nat → oids !! i = Some x → oids !! j = Some y →
  (pord x = Lt → pord y = Lt) ∧ (pord y = Gt → pord x = Gt).
Proof.
  intros Hij Hx Hy. apply cmp_mono. apply abbrev_mono.
  - apply oids_wf. by eapply list_elem_of_lookup_2.
  - apply oids_wf. by eapply list_elem_of_lookup_2.
  - eapply sorted_lookup_lt; eauto using table_sorted.
Qed.

(** Matches are contiguous. *)
Lemma hits_convex i j k : (i ≤ j ≤ k)%nat → hits i → hits k → hits j.
Proof.
  intros Hijk (x & Hx & Ex) (z & Hz & Ez).
  destruct (decide (i = j)) as [->|]; [by exists x|].
  destruct (decide (j = k)) as [->|]; [by exists z|].
  destruct (lookup_lt_is_Some_2 oids j) as [y Hy].
  { apply lookup_lt_Some in Hz. lia. }
  exists y. split; [done|]. apply pord_eq in Ex, Ez. apply pord_eq.
  destruct (pord_mono i j x y ltac:(lia) Hx Hy) as [_ H1].
  destruct (pord_mono j k y z ltac:(lia) Hy Hz) as [H2 _].
  destruct (pord y); [done| |].
  - by rewrite H2 in Ez.
  - by rewrite H1 in Ex.
Qed.

Lemma matches_spec i :
  (i < length oids)%nat →
  ∃ m : bool, matches oid_at p (Z.of_nat i) = Ok m ∧ (m = true ↔ hits i).
Proof.
  intros Hi. destruct (lookup_lt_is_Some_2 oids i Hi) as [o Ho].
  unfold matches. rewrite (table_at i o Ho), bind_Ok.
  rewrite cmp_oid_abbrev by (done || by eapply oids_wf, list_elem_of_lookup_2).
  rewrite bind_Ok. fold (pord o). eexists. split; [done|].
  assert (Hh : hits i ↔ pord o = Eq).
  { rewrite pord_eq. split; [|by exists o]. intros (o' & Ho' & E). by simplify_eq. }
  rewrite Hh. destruct (pord o); naive_solver.
Qed.

Lemma scan_down_spec n last :
  (n ≤ length oids)%nat →
  ∃ s, (s ≤ n)%nat ∧
    scan_down oid_at p n last = Ok (if (s =? n)%nat then last else Some (Z.of_nat s)) ∧
    (∀ j, (s ≤ j < n)%nat → hits j) ∧ (s = 0%nat ∨ ¬ hits (s - 1)).
Proof.
  revert last. induction n as [|n IH]; intros last Hn; simpl.
  { exists 0%nat. split_and!; [lia|done|lia|by left]. }
  destruct (matches_spec n) as (m & -> & Hm); [lia|]. rewrite bind_Ok.
  destruct m.
  - destruct (IH (Some (Z.of_nat n))) as (s & Hs & -> & Hin & Hend); [lia|].
    exists s. rewrite (proj2 (Nat.eqb_neq s (S n))) by lia. split_and!; [lia| | |done].
    + destruct (Nat.eqb_spec s n); by subst.
    + intros j Hj. destruct (decide (j = n)) as [->|]; [by apply Hm|apply Hin; lia].
  - exists (S n). rewrite Nat.eqb_refl. split_and!; [lia|done|lia|].
    right. replace (S n - 1)%nat with n by lia. intros H. by apply Hm in H.
Qed.

Lemma scan_up_spec n i last :
  (i + n = length oids)%nat →
  ∃ e, (i ≤ e ≤ i + n)%nat ∧
    scan_up oid_at p n (Z.of_nat i) last =
      Ok (if (e =? i)%nat then last else Some (Z.of_nat e - 1)) ∧
    (∀ j, (i ≤ j < e)%nat → hits j) ∧ (e = length oids ∨ ¬ hits e).
Proof.
  revert i last. induction n as [|n IH]; intros i last Hn; simpl.
  { exists i. rewrite Nat.eqb_refl. split_and!; [lia|lia|done|lia|left; lia]. }
  destruct (matches_spec i) as (m & -> & Hm); [lia|]. rewrite bind_Ok.
  destruct m.
  - replace (Z.of_nat i + 1) with (Z.of_nat (S i)) by lia.
    destruct (IH (S i) (Some (Z.of_nat i))) as (e & He & -> & Hin & Hend); [lia|].
    exists e. rewrite (proj2 (Nat.eqb_neq e i)) by lia. split_and!; [lia|lia| | |done].
    + destruct (Nat.eqb_spec e (S i)) as [->|]; [|done]. do 2 f_equal. lia.
    + intros j Hj. destruct (decide (j = i)) as [->|]; [by apply Hm|apply Hin; lia].
  - exists i. rewrite Nat.eqb_refl. split_and!; [lia|lia|done|lia|].
    right. intros H. by apply Hm in H.
Qed.

Lemma hits_lt i : hits i → (i < length oids)%nat.
Proof. intros (o & Ho & _). by apply lookup_lt_Some in Ho. Qed.

(** Around a match, the scans delimit exactly the matching entries. *)
Lemma hits_range mid s e :
  hits mid → (s ≤ mid < e)%nat →
  (∀ j, (s ≤ j < mid)%nat → hits j) → (s = 0%nat ∨ ¬ hits (s - 1)) →
  (∀ j, (mid + 1 ≤ j < e)%nat → hits j) → (e = length oids ∨ ¬ hits e) →
  ∀ j, (s ≤ j < e)%nat ↔ hits j.
Proof.
  intros Hmid Hse Hdown Hs Hup He j. split.
  - intros Hj. destruct (decide (j = mid)) as [->|]; [done|].
    destruct (decide (j < mid)%nat); [apply Hdown; lia|apply Hup; lia].
  - intros Hj. split.
    + apply Nat.nlt_ge. intros Hlt. destruct Hs as [->|Hs]; [lia|]. apply Hs.
      apply (hits_convex j (s - 1) mid); [lia|done..].
    + apply Nat.nle_gt. intros Hle. destruct He as [->|He].
      * apply hits_lt in Hj. lia.
      * apply He. apply (hits_convex mid e j); [lia|done..].
Qed.

Definition classify (s e : nat) : option PrefixLookupResult :=
  match (e - s)%nat with
  | 0%nat => None
  | 1%nat => Some (Unique (Z.of_nat s))
  | _ => Some Ambiguous
  end.

Lemma probe_next mid :
  ∃ m : bool, (if Z.of_nat mid + 1 <? Z.of_nat (length oids)
     then matches oid_at p (Z.of_nat mid + 1) else Ok false) = Ok m ∧
    (m = true ↔ hits (mid + 1)).
Proof.
  destruct (Z.ltb_spec (Z.of_nat mid + 1) (Z.of_nat (length oids))).
  - replace (Z.of_nat mid + 1) with (Z.of_nat (mid + 1)) by lia.
    apply matches_spec. lia.
  - exists false. split; [done|]. split; [done|]. intros ?%hits_lt. lia.
Qed.

Lemma probe_prev mid :
  (mid < length oids)%nat →
  ∃ m : bool, (if negb (Z.of_nat mid =? 0)
     then matches oid_at p (Z.of_nat mid - 1) else Ok false) = Ok m ∧
    (m = true ↔ mid ≠ 0%nat ∧ hits (mid - 1)).
Proof.
  intros Hm. destruct (Z.eqb_spec (Z.of_nat mid) 0) as [H0|H0]; simpl.
  - exists false. split; [done|]. split; [done|]. lia.
  - replace (Z.of_nat mid - 1) with (Z.of_nat (mid - 1)) by lia.
    destruct (matches_spec (mid - 1)) as (m & -> & Hh); [lia|].
    exists m. split; [done|]. rewrite Hh. split; [intros; split; [lia|done]|tauto].
Qed.

(** The two forms of [prefix_hit]: they find the same result, and the one with
    [candidates] also finds the range. *)
Lemma prefix_hit_candidates mid :
  hits mid →
  ∃ s e, (s ≤ mid < e)%nat ∧ (∀ j, (s ≤ j < e)%nat ↔ hits j) ∧
    prefix_hit oid_at p true (Z.of_nat (length oids)) (Z.of_nat mid) =
      Ok (if 1 <? Z.of_nat e - Z.of_nat s then Ambiguous else Unique (Z.of_nat mid),
          Some (Z.of_nat s, Z.of_nat e)).
Proof.
  intros Hmid. pose proof (hits_lt mid Hmid) as Hlt.
  destruct (scan_down_spec mid None) as (s & Hs & Hsd & Hdown & Hs0); [lia|].
  destruct (scan_up_spec (length oids - (mid + 1)) (mid + 1) None)
    as (e & He & Hsu & Hup & He0); [lia|].
  exists s, e. split; [lia|]. split; [apply (hits_range mid s e); (done || lia)|].
  unfold prefix_hit. rewrite Nat2Z.id, Hsd, bind_Ok.
  replace (Z.to_nat (Z.of_nat (length oids) - (Z.of_nat mid + 1)))
    with (length oids - (mid + 1))%nat by lia.
  replace (Z.of_nat mid + 1) with (Z.of_nat (mid + 1)) by lia. rewrite Hsu, bind_Ok.
  destruct (Nat.eqb_spec s mid) as [->|]; destruct (Nat.eqb_spec e (mid + 1)) as [->|];
    rewrite ?Z.sub_add; done.
Qed.

Lemma prefix_hit_no_candidates mid s e :
  (s ≤ mid < e)%nat → (∀ j, (s ≤ j < e)%nat ↔ hits j) →
  prefix_hit oid_at p false (Z.of_nat (length oids)) (Z.of_nat mid) =
    Ok (if 1 <? Z.of_nat e - Z.of_nat s then Ambiguous else Unique (Z.of_nat mid), None).
Proof.
  intros Hse Hrange. assert (hits mid) as Hlt%hits_lt by (apply Hrange; lia).
  unfold prefix_hit.
  destruct (probe_next mid) as (m1 & -> & H1). rewrite bind_Ok.
  destruct (probe_prev mid Hlt) as (m2 & -> & H2).
  rewrite <- Hrange in H1. rewrite <- Hrange in H2.
  destruct (Z.ltb_spec 1 (Z.of_nat e - Z.of_nat s)) as [Hc|Hc].
  - destruct m1; [done|]. rewrite bind_Ok. destruct m2; [done|].
    destruct (decide (mid + 1 < e)%nat) as [Hd|Hd].
    + discriminate (proj2 H1 ltac:(lia)).
    + discriminate (proj2 H2 ltac:(lia)).
  - destruct m1; [destruct (proj1 H1 eq_refl); lia|]. rewrite bind_Ok.
    destruct m2; [destruct (proj1 H2 eq_refl); lia|done].
Qed.

Lemma lookup_prefix_spec cand :
  ∃ s e, (s ≤ e)%nat ∧ (∀ j, (s ≤ j < e)%nat ↔ hits j) ∧
    lookup_prefix oid_at p cand fan (Z.of_nat (length oids)) =
      Ok (classify s e,
          if (cand : bool) then Some (Z.of_nat s, Z.of_nat e) else None).
Proof.
  pose proof Hp as ((Hl & Hb) & Hn & Hz). unfold lookup_prefix.
  unfold as_oid in *. destruct (as_slice (bytes_ p)) as [|b d] eqn:Ed; [done|].
  apply Forall_cons in Hb as [Hb _].
  destruct (bounds_outside pord b Hb) as (lo & hi & Hbd & Hlo & Hhi & Hout).
  { intros o Ho Hlt. destruct (oids_wf o Ho) as [Ho' _]. destruct o as [|c o]; [done|].
    unfold pord, as_oid. rewrite Ed. simpl in Hlt.
    rewrite abbrev_cmp_first by (unfold MIN_HEX_LEN in *; lia).
    by apply Z.compare_gt_iff. }
  { intros o Ho Hlt. destruct (oids_wf o Ho) as [Ho' _]. destruct o as [|c o]; [done|].
    unfold pord, as_oid. rewrite Ed. simpl in Hlt.
    rewrite abbrev_cmp_first by (unfold MIN_HEX_LEN in *; lia).
    by apply Z.compare_lt_iff. }
  change (first_byte (b :: d)) with (@Ok Empty_set Z b). rewrite bind_Ok, Hbd, bind_Ok.
  destruct (bisect_correct oid_at oids table_at table_small (cmp_oid p) pord)
    with (fuel := Z.to_nat (hi - lo)) (lo := lo) (hi := hi)
    as [(mid & o & -> & Ho & Heq)|[-> Hno]]; [|apply pord_mono|lia|lia|lia|done|..].
  { intros o Ho. apply cmp_oid_abbrev; [done|by apply oids_wf]. }
  - rewrite bind_Ok. assert (Hmid : hits mid) by (exists o; by rewrite <- pord_eq).
    destruct (prefix_hit_candidates mid Hmid) as (s & e & Hse & Hrange & Hhit).
    exists s, e. split; [lia|]. split; [done|].
    assert (Hcl : classify s e =
      Some (if 1 <? Z.of_nat e - Z.of_nat s then Ambiguous else Unique (Z.of_nat mid))).
    { unfold classify. destruct (e - s)%nat as [|[|k]] eqn:Ek; [lia| |].
      - rewrite (proj2 (Z.ltb_ge _ _)) by lia. do 2 f_equal. lia.
      - by rewrite (proj2 (Z.ltb_lt _ _)) by lia. }
    rewrite Hcl. destruct cand.
    + by rewrite Hhit.
    + by rewrite (prefix_hit_no_candidates mid s e).
  - rewrite bind_Ok. exists 0%nat, 0%nat. split; [lia|]. split; [|by destruct cand].
    intros j. split; [lia|]. intros (o & Ho & E). exfalso.
    apply (Hno o); [by eapply list_elem_of_lookup_2|by apply pord_eq].
Qed.

End PrefixSearch.
End Table.

(** ** Properties *)

(** C34: Lookup by id is exact.  In every table that meets the interface, the
    fan-out bounded bisection terminates without panicking and returns the
    index of the id when the table contains it, and nothing otherwise. *)
Theorem lookup_correct oid_at fan oids `{!OidTable oid_at fan oids} id :
  wf_oid id →
  ∃ r, lookup oid_at id fan = Ok r ∧
    match r with
    | Some i => 0 ≤ i ∧ oids !! Z.to_nat i = Some id
    | None => id ∉ oids
    end.
Proof.
  intros Hid. destruct (lookup_spec oid_at fan oids id Hid) as [(i & -> & Hi)|[-> Hno]].
  - exists (Some (Z.of_nat i)). rewrite Nat2Z.id. split_and!; [done|lia|done].
  - by exists None.
Qed.

(** C35: Lookup by abbreviated id is exact.  For every well-formed prefix the
    search finds the contiguous range [s..e] of all matching entries: the
    result is [None] when the range is empty, the entry when it is unique and
    the ambiguity marker when there are several; [candidates], when asked for,
    receives exactly this range, and asking does not change the result. *)
Theorem lookup_prefix_correct oid_at fan oids `{!OidTable oid_at fan oids} p cand :
  wf_prefix p →
  ∃ s e, (s ≤ e)%nat ∧
    (∀ j, (s ≤ j < e)%nat ↔
       ∃ o, oids !! j = Some o ∧ abbrev (hex_len p) o = abbrev (hex_len p) (as_oid p)) ∧
    lookup_prefix oid_at p cand fan (Z.of_nat (length oids)) =
      Ok (match (e - s)%nat with
          | 0%nat => None
          | 1%nat => Some (Unique (Z.of_nat s))
          | _ => Some Ambiguous
          end,
          if (cand : bool) then Some (Z.of_nat s, Z.of_nat e) else None).
Proof. intros Hp. apply (lookup_prefix_spec oid_at fan oids p Hp cand). Qed.

(** *** Witnesses: a table kept as a list *)

Definition list_oid_at (oids : list bytes) : oid_at_index_fn :=
  λ i, expect (oids !! Z.to_nat i).
Definition list_fan (oids : list bytes) : list Z :=
  (λ b, Z.of_nat (count_le (λ o, nth 0 o 0) b oids)) <$> all_bytes.

Lemma list_table oids :
  Forall wf_oid oids → StronglySorted bytes_lt oids → Z.of_nat (length oids) ≤ 2 ^ 31 →
  OidTable (list_oid_at oids) (list_fan oids) oids.
Proof.
  intros Hwf Hs Hl. split; [done..| |].
  - intros i o Ho. unfold list_oid_at. by rewrite Nat2Z.id, Ho.
  - intros b Hb. unfold list_fan, all_bytes. rewrite !list_lookup_fmap.
    rewrite lookup_seq_lt by lia. simpl. by rewrite Z2Nat.id by lia.
Qed.

Definition sample_oids : list bytes :=
  [as_slice (empty_tree KSha1); as_slice (empty_blob KSha1); replicate 20 255].
Lemma sample_table : OidTable (list_oid_at sample_oids) (list_fan sample_oids) sample_oids.
Proof.
  apply list_table.
  - repeat constructor; vm_compute; intuition discriminate.
  - repeat constructor.
  - vm_compute. discriminate.
Qed.

Lemma lookup_correct_witness :
  lookup (list_oid_at sample_oids) (as_slice (empty_blob KSha1)) (list_fan sample_oids) =
    Ok (Some 1) ∧
  ∃ r, lookup (list_oid_at sample_oids) (as_slice (empty_blob KSha1)) (list_fan sample_oids)
      = Ok r ∧
    match r with
    | Some i => 0 ≤ i ∧ sample_oids !! Z.to_nat i = Some (as_slice (empty_blob KSha1))
    | None => as_slice (empty_blob KSha1) ∉ sample_oids
    end.
Proof.
  split; [vm_compute; reflexivity|].
  apply (@lookup_correct _ _ sample_oids sample_table (as_slice (empty_blob KSha1))).
  apply sample_wf.
Defined.

Lemma lookup_prefix_correct_witness :
  lookup_prefix (list_oid_at sample_oids) sample_prefix true (list_fan sample_oids) 3 =
    Ok (Some (Unique 1), Some (1, 2)) ∧
  ∃ s e, (s ≤ e)%nat ∧
    (∀ j, (s ≤ j < e)%nat ↔
       ∃ o, sample_oids !! j = Some o ∧ abbrev 7 o = abbrev 7 (as_oid sample_prefix)) ∧
    lookup_prefix (list_oid_at sample_oids) sample_prefix true (list_fan sample_oids) 3 =
      Ok (match (e - s)%nat with
          | 0%nat => None
          | 1%nat => Some (Unique (Z.of_nat s))
          | _ => Some Ambiguous
          end, Some (Z.of_nat s, Z.of_nat e)).
Proof.
  split; [vm_compute; reflexivity|].
  exact (@lookup_prefix_correct _ _ sample_oids sample_table sample_prefix true
           sample_prefix_wf).
Defined.
