(* ===== verification/PackIndex.v ===== *)
(** * Pack index files

    Models [gix-pack/src/index/]: reading ([init.rs], [access.rs]) and writing
    ([encode.rs]) of [.idx] files, which map object ids to offsets in the pack.
    A version 2 file is

      signature, version, fan-out (256 x u32), ids, crc32s (u32),
      offsets (u32), large offsets (u64), pack hash, index hash. *)

From S2P Require Import Prelude External Hash OidLookup.

Definition FAN_LEN : nat := 256.
Definition N32_SIZE : nat := 4.
Definition N64_SIZE : nat := 8.
Definition V1_HEADER_SIZE : nat := 1024.   (* FAN_LEN * N32_SIZE *)
Definition V2_HEADER_SIZE : nat := 1032.   (* N32_SIZE * 2 + FAN_LEN * N32_SIZE *)
Definition N32_HIGH_BIT : Z := 2 ^ 31.
Definition V2_SIGNATURE : bytes := [255; ch "t"; ch "O"; ch "c"].

Inductive Version := V1 | V2.
Record File := mkFile {
  data : bytes;
  version : Version;
  num_objects : Z;
  fan : list Z;
  hash_len : nat }.

Record Entry := mkEntry { oid : ObjectId; pack_offset : Z; crc32 : option Z }.
#[global] Instance Entry_eq_dec : EqDecision Entry.
Proof. solve_decision. Defined.

Inductive InitError := Corrupt (idx_len : nat) | UnsupportedVersion (version : Z).

(** [read_u32], [read_u64] of [lib.rs]: [try_into().unwrap()] of the slice. *)
Definition read_u32 {E} (b : bytes) : res E Z :=
  if (length b =? 4)%nat then Ok (be_val b) else Panic.
Definition read_u64 {E} (b : bytes) : res E Z :=
  if (length b =? 8)%nat then Ok (be_val b) else Panic.

(** [slice.chunks_exact(n)]. *)
Fixpoint chunks_exact_fuel {A} (fuel n : nat) (l : list A) : list (list A) :=
  match fuel with
  | O => []
  | S fuel =>
      if (n <=? length l)%nat then take n l :: chunks_exact_fuel fuel n (drop n l) else []
  end.
Definition chunks_exact {A} (n : nat) (l : list A) : list (list A) :=
  chunks_exact_fuel (length l) n l.


(** ** Reading: [init.rs] *)

Definition read_fan (d : bytes) : res InitError (list Z * nat) :=
  _ ← assert_ (FAN_LEN * N32_SIZE <=? length d)%nat;
  fan ← mapM_res read_u32 (take FAN_LEN (chunks_exact N32_SIZE d));
  Ok (fan, FAN_LEN * N32_SIZE)%nat.

(** [File::at_inner] on the content of the file. *)
Definition at_inner (data : bytes) (object_hash : Kind) : res InitError File :=
  let idx_len := length data in
  let hash_len := len_in_bytes object_hash in
  let footer_size := (hash_len * 2)%nat in
  if (idx_len <? FAN_LEN * N32_SIZE + footer_size)%nat then Err (Corrupt idx_len)
  else
    '(sig, d) ← split_at data (length V2_SIGNATURE);
    let '(kind, d) := if bool_decide (sig = V2_SIGNATURE) then (V2, d) else (V1, data) in
    d ← (match kind with
         | V2 =>
             '(vd, dr) ← split_at d N32_SIZE;
             version ← read_u32 vd;
             if negb (version =? 2) then Err (UnsupportedVersion version) else Ok dr
         | V1 => Ok d
         end);
    '(fan, bytes_read) ← read_fan d;
    _ ← split_at d bytes_read;
    num_objects ← idx fan (FAN_LEN - 1);
    Ok (mkFile data kind num_objects fan hash_len).

(** ** Access: [access.rs] *)

Definition num (f : File) : nat := Z.to_nat (num_objects f).
Definition offset_crc32_v2 (f : File) : nat := (V2_HEADER_SIZE + num f * hash_len f)%nat.
Definition offset_pack_offset_v2 (f : File) : nat :=
  (offset_crc32_v2 f + num f * N32_SIZE)%nat.
Definition offset_pack_offset64_v2 (f : File) : nat :=
  (offset_pack_offset_v2 f + num f * N32_SIZE)%nat.

(** [&data[start..][..len]]. *)
Definition window {E} (d : bytes) (start len : nat) : res E bytes :=
  rest ← slice_from d start; slice_to rest len.

Definition pack_offset_from_offset_v2 (f : File) (offset : bytes) (pack64_offset : nat)
  : res Empty_set Z :=
  ofs32 ← read_u32 offset;
  if Z.land ofs32 N32_HIGH_BIT =? N32_HIGH_BIT then
    let from := (pack64_offset + Z.to_nat (Z.lxor ofs32 N32_HIGH_BIT) * N64_SIZE)%nat in
    w ← window (data f) from N64_SIZE;
    read_u64 w
  else Ok ofs32.

Definition oid_at_index (f : File) (index : Z) : res Empty_set bytes :=
  let index := Z.to_nat index in
  let start :=
    match version f with
    | V2 => (V2_HEADER_SIZE + index * hash_len f)%nat
    | V1 => (V1_HEADER_SIZE + index * (N32_SIZE + hash_len f) + N32_SIZE)%nat
    end in
  window (data f) start (hash_len f).

Definition pack_offset_at_index (f : File) (index : Z) : res Empty_set Z :=
  let index := Z.to_nat index in
  match version f with
  | V2 =>
      let start := (offset_pack_offset_v2 f + index * N32_SIZE)%nat in
      w ← window (data f) start N32_SIZE;
      pack_offset_from_offset_v2 f w (offset_pack_offset64_v2 f)
  | V1 =>
      let start := (V1_HEADER_SIZE + index * (N32_SIZE + hash_len f))%nat in
      w ← window (data f) start N32_SIZE;
      read_u32 w
  end.

Definition crc32_at_index (f : File) (index : Z) : res Empty_set (option Z) :=
  let index := Z.to_nat index in
  match version f with
  | V2 =>
      let start := (offset_crc32_v2 f + index * N32_SIZE)%nat in
      w ← slice (data f) start (start + N32_SIZE);
      v ← read_u32 w;
      Ok (Some v)
  | V1 => Ok None
  end.

Definition file_lookup (f : File) (id : bytes) : res Empty_set (option Z) :=
  lookup (oid_at_index f) id (fan f).
Definition file_lookup_prefix (f : File) (prefix : Prefix) (candidates : bool) :=
  lookup_prefix (oid_at_index f) prefix candidates (fan f) (num_objects f).

Definition iter_v1 (f : File) : res Empty_set (list Entry) :=
  match version f with
  | V1 =>
      d ← slice_from (data f) V1_HEADER_SIZE;
      mapM_res (λ c : bytes,
          '(ofs, oid) ← split_at c N32_SIZE;
          oid ← from_bytes_or_panic oid;
          pack_offset ← read_u32 ofs;
          Ok (mkEntry oid pack_offset None))
        (take (num f) (chunks_exact (N32_SIZE + hash_len f) d))
  | V2 => Panic
  end.

Definition iter_v2 (f : File) : res Empty_set (list Entry) :=
  let pack64_offset := offset_pack_offset64_v2 f in
  d1 ← slice_from (data f) V2_HEADER_SIZE;
  let oids := take (num f) (chunks_exact (hash_len f) d1) in
  d2 ← slice_from (data f) (offset_crc32_v2 f);
  let crcs := take (num f) (chunks_exact N32_SIZE d2) in
  d3 ← slice_from (data f) (offset_pack_offset_v2 f);
  let offsets := take (num f) (chunks_exact N32_SIZE d3) in
  _ ← assert_ (length oids =? length crcs)%nat;
  _ ← assert_ (length crcs =? length offsets)%nat;
  match version f with
  | V2 =>
      mapM_res (λ '(oid, crc32, ofs32),
          oid ← from_bytes_or_panic oid;
          pack_offset ← pack_offset_from_offset_v2 f ofs32 pack64_offset;
          crc32 ← read_u32 crc32;
          Ok (mkEntry oid pack_offset (Some crc32)))
        (zip (zip oids crcs) offsets)
  | V1 => Panic
  end.

Definition iter (f : File) : res Empty_set (list Entry) :=
  match version f with V2 => iter_v2 f | V1 => iter_v1 f end.

Definition sorted_offsets (f : File) : res Empty_set (list Z) :=
  ofs ←
    (match version f with
    | V1 => es ← iter f; Ok (map pack_offset es)
    | V2 =>
        d ← slice_from (data f) (offset_pack_offset_v2 f);
        let offsets32 := take (num f) (chunks_exact N32_SIZE d) in
        _ ← assert_ (num f =? length offsets32)%nat;
        mapM_res (λ o, pack_offset_from_offset_v2 f o (offset_pack_offset64_v2 f)) offsets32
    end : res Empty_set (list Z));
  Ok (merge_sort (≤) ofs).

(** ** Writing: [encode.rs] *)

Definition LARGE_OFFSET_THRESHOLD : Z := 2 ^ 31 - 1.
Definition HIGH_BIT : Z := 2 ^ 31.

(** [iter.find(|(_, first_byte)| *first_byte != byte)] on the enumerated
    iterator: the entry found and what is left of the iterator. *)
Fixpoint find_ne (byte : Z) (it : list (nat * Z)) : option (nat * Z) * list (nat * Z) :=
  match it with
  | [] => (None, [])
  | (i, b) :: it => if negb (b =? byte) then (Some (i, b), it) else find_ne byte it
  end.

(** The loop of [fanout] over the slots that are left. *)
Fixpoint fanout_loop (slots : list Z) (entries_len : Z) (idx_and_entry : option (nat * Z))
    (it : list (nat * Z)) (upper_bound : Z) : res Empty_set (list Z) :=
  match slots with
  | [] => Ok []
  | byte :: slots =>
      match idx_and_entry with
      | Some (_, first_byte) =>
          match first_byte ?= byte with
          | Lt => Panic
          | Gt => cons upper_bound <$>
                    fanout_loop slots entries_len idx_and_entry it upper_bound
          | Eq =>
              if byte =? 255 then
                cons entries_len <$>
                  fanout_loop slots entries_len idx_and_entry it upper_bound
              else
                let '(idx_and_entry, it) := find_ne byte it in
                let upper_bound :=
                  match idx_and_entry with
                  | Some (idx, _) => wrap 32 (Z.of_nat idx)
                  | None => entries_len
                  end in
                cons upper_bound <$>
                  fanout_loop slots entries_len idx_and_entry it upper_bound
          end
      | None =>
          cons entries_len <$> fanout_loop slots entries_len idx_and_entry it upper_bound
      end
  end.

(** [fanout], given the first bytes of the ids. *)
Definition fanout (first_bytes : list Z) : res Empty_set (list Z) :=
  let entries_len := wrap 32 (Z.of_nat (length first_bytes)) in
  let it := zip (seq 0 (length first_bytes)) first_bytes in
  fanout_loop all_bytes entries_len (head it) (tail it) 0.

(** [Item<TreeEntry>]: the offset in the pack, the id and the checksum. *)
Record TreeEntry := mkTree { offset : Z; id : ObjectId; tcrc32 : Z }.

(** The offsets loop: the 32-bit table and the 64-bit offsets collected. *)
Fixpoint write_offsets (entries : list TreeEntry) (offsets64 : list Z)
  : res Empty_set (bytes * list Z) :=
  match entries with
  | [] => Ok ([], offsets64)
  | entry :: entries =>
      if LARGE_OFFSET_THRESHOLD <? offset entry then
        _ ← assert_ (Z.of_nat (length offsets64) <? LARGE_OFFSET_THRESHOLD);
        let offsets64 := offsets64 ++ [offset entry] in
        let ofs := Z.lor (wrap 32 (Z.of_nat (length offsets64 - 1))) HIGH_BIT in
        '(out, offsets64) ← write_offsets entries offsets64;
        Ok (be_bytes 4 ofs ++ out, offsets64)
      else
        '(out, offsets64) ← write_offsets entries offsets64;
        Ok (be_bytes 4 (wrap 32 (offset entry)) ++ out, offsets64)
  end.

Section Write.
(** The digest of [gix_features::hash] (SHA-1) over the written bytes. *)
Context (digest : bytes → bytes).

(** [write_to] with version 2: the file and the returned index hash. *)
Definition write_to (entries : list TreeEntry) (pack_hash : ObjectId)
  : res Empty_set (bytes * ObjectId) :=
  _ ← assert_ (Z.of_nat (length entries) <=? 2 ^ 32 - 1);
  firsts ← mapM_res (λ e, first_byte (as_slice (id e))) entries;
  fan_out ← fanout firsts;
  '(offsets, offsets64) ← write_offsets entries [];
  let out :=
    V2_SIGNATURE ++ be_bytes 4 2 ++ concat (be_bytes 4 <$> fan_out)
    ++ concat ((λ e, as_slice (id e)) <$> entries)
    ++ concat ((λ e, be_bytes 4 (tcrc32 e)) <$> entries)
    ++ offsets ++ concat (be_bytes 8 <$> offsets64) ++ as_slice pack_hash in
  let index_hash := digest out in
  Ok (out ++ index_hash, Sha1 index_hash).

End Write.

(** ** Lemmas *)

Lemma window_app {E} pre w post n k :
  k = length pre → n = length w → @window E (pre ++ w ++ post) k n = Ok w.
Proof.
  intros -> ->. unfold window. rewrite slice_from_app, bind_Ok. by apply slice_to_app.
Qed.

(** Records of a fixed size, one after the other. *)
Lemma concat_split {A} (f : A → bytes) n l i x :
  (∀ y, y ∈ l → length (f y) = n) → l !! i = Some x →
  ∃ l1 l2, concat (f <$> l) = l1 ++ f x ++ l2 ∧ length l1 = (i * n)%nat.
Proof.
  revert i. induction l as [|y l IH]; intros i Hf Hx; [done|].
  rewrite fmap_cons. cbn [concat]. destruct i as [|i]; simpl in Hx.
  - simplify_eq. by exists [], (concat (f <$> l)).
  - destruct (IH i) as (l1 & l2 & Heq & Hlen); [set_solver|done|].
    exists (f y ++ l1), l2. rewrite Heq, <- app_assoc. split; [done|].
    rewrite length_app, Hlen, (Hf y) by set_solver. lia.
Qed.

Lemma length_concat_fixed {A} (f : A → bytes) n l :
  (∀ y, y ∈ l → length (f y) = n) → length (concat (f <$> l)) = (length l * n)%nat.
Proof.
  induction l as [|y l IH]; intros Hf; [done|].
  rewrite fmap_cons. cbn [concat length].
  rewrite length_app, IH, (Hf y) by set_solver. lia.
Qed.

Lemma window_records {E A} (f : A → bytes) n l i x pre post k :
  (∀ y, y ∈ l → length (f y) = n) → l !! i = Some x →
  k = (length pre + i * n)%nat →
  @window E (pre ++ concat (f <$> l) ++ post) k n = Ok (f x).
Proof.
  intros Hf Hx ->. destruct (concat_split f n l i x Hf Hx) as (l1 & l2 & -> & Hl).
  rewrite <- !app_assoc, (app_assoc pre l1). apply window_app.
  - rewrite length_app. lia.
  - symmetry. apply Hf. by eapply list_elem_of_lookup_2.
Qed.

Lemma chunks_records {A} (f : A → bytes) n l post :
  (0 < n)%nat → (∀ y, y ∈ l → length (f y) = n) →
  take (length l) (chunks_exact n (concat (f <$> l) ++ post)) = f <$> l.
Proof.
  intros Hn Hf. unfold chunks_exact.
  assert (Hfuel : (length l ≤ length (concat (f <$> l) ++ post))%nat).
  { rewrite length_app, (length_concat_fixed f n) by done. nia. }
  revert Hfuel. generalize (length (concat (f <$> l) ++ post)) as fuel.
  induction l as [|x l IH]; intros fuel Hfuel; [done|].
  destruct fuel as [|fuel]; simpl in Hfuel; [lia|].
  rewrite fmap_cons. cbn [chunks_exact_fuel concat]. rewrite <- app_assoc.
  assert (Hx : length (f x) = n) by (apply Hf; set_solver).
  rewrite (proj2 (Nat.leb_le _ _)) by (rewrite length_app; lia).
  rewrite take_app_length', drop_app_length' by done. cbn [length take].
  f_equal. apply IH; [set_solver|lia].
Qed.

Lemma length_chunks_exact {A} n (l : list A) m :
  (0 < n)%nat → (length l ≤ m * n)%nat → (length (chunks_exact n l) ≤ m)%nat.
Proof.
  intros Hn. unfold chunks_exact. generalize (length l) at 2 as fuel. intros fuel.
  revert l m. induction fuel as [|fuel IH]; intros l m Hl; cbn [chunks_exact_fuel]; [simpl; lia|].
  destruct (Nat.leb_spec n (length l)); [|simpl; lia]. destruct m as [|m]; [lia|].
  simpl. apply le_n_S, IH. rewrite length_drop. lia.
Qed.

(** *** The fan-out table *)

Lemma find_ne_skip b it j k l3 :
  Forall (λ x, b < x) l3 →
  it = zip (seq k (j + length l3)) (replicate j b ++ l3) →
  find_ne b it =
    (head (zip (seq (k + j) (length l3)) l3), tail (zip (seq (k + j) (length l3)) l3)).
Proof.
  intros Hgt ->. revert k. induction j as [|j IH]; intros k; simpl.
  - rewrite Nat.add_0_r. destruct l3 as [|c l3]; simpl; [done|].
    apply Forall_cons in Hgt as [Hc _]. by rewrite (proj2 (Z.eqb_neq c b)) by lia.
  - rewrite Z.eqb_refl. simpl. rewrite IH.
    by replace (S k + j)%nat with (k + S j)%nat by lia.
Qed.

Lemma sorted_ge_split (b : Z) l :
  StronglySorted Z.le l → Forall (Z.le b) l →
  ∃ j l3, l = replicate j b ++ l3 ∧ Forall (λ x, b < x) l3 ∧ StronglySorted Z.le l3.
Proof.
  intros Hs. induction Hs as [|x l Hs IH Hx]; intros Hb.
  { exists 0%nat, []. split_and!; [done|constructor|constructor]. }
  apply Forall_cons in Hb as [Hbx Hbl]. destruct (decide (x = b)) as [->|Hne].
  - destruct (IH Hbl) as (j & l3 & Hl & ? & ?). exists (S j), l3. by rewrite Hl.
  - exists 0%nat, (x :: l). split_and!; [done| |by constructor].
    constructor; [lia|]. eapply Forall_impl; [exact Hx|]. simpl. lia.
Qed.

Lemma count_le_app {A} (key : A → Z) b l1 l2 :
  count_le key b (l1 ++ l2) = (count_le key b l1 + count_le key b l2)%nat.
Proof. induction l1 as [|x l1 IH]; simpl; [done|]. destruct (_ <=? _); lia. Qed.
Lemma count_le_all {A} (key : A → Z) b l :
  Forall (λ x, key x ≤ b) l → count_le key b l = length l.
Proof.
  induction 1 as [|x l Hx _ IH]; simpl; [done|].
  rewrite (proj2 (Z.leb_le _ _)) by lia. lia.
Qed.
Lemma count_le_none {A} (key : A → Z) b l :
  Forall (λ x, b < key x) l → count_le key b l = 0%nat.
Proof.
  induction 1 as [|x l Hx _ IH]; simpl; [done|].
  by rewrite (proj2 (Z.leb_gt _ _)) by lia.
Qed.

Abbreviation idZ := (λ x : Z, x).

(** The loop, started at byte [b] with the ids from position [k] on. *)
Lemma fanout_loop_spec m b l k n :
  b + Z.of_nat m = 256 → 0 ≤ b → StronglySorted Z.le l → Forall (Z.le b) l →
  Forall (λ x, x < 256) l → (k + length l = n)%nat → Z.of_nat n < 2 ^ 32 →
  ∀ ub, (l ≠ [] → ub = Z.of_nat k) →
  fanout_loop ((λ i, b + Z.of_nat i) <$> seq 0 m) (Z.of_nat n)
    (head (zip (seq k (length l)) l)) (tail (zip (seq k (length l)) l)) ub =
  Ok ((λ i, Z.of_nat (k + count_le idZ (b + Z.of_nat i) l)) <$> seq 0 m).
Proof.
  revert b l k. induction m as [|m IH]; intros b l k Hm Hb Hs Hge Hlt Hn Hn32 ub Hub; [done|].
  cbn [seq fmap list_fmap fanout_loop]. rewrite Z.add_0_r.
  assert (Hseq : ∀ {B} (f : Z → B), (λ i, f (b + Z.of_nat i)) <$> seq 1 m =
    (λ i, f (b + 1 + Z.of_nat i)) <$> seq 0 m).
  { intros B f. rewrite <- (fmap_S_seq 0 m), <- list_fmap_compose. apply list_fmap_ext.
    intros i x _. simpl. f_equal. lia. }
  rewrite (Hseq Z (λ z, z)), (Hseq Z (λ z, Z.of_nat (k + count_le idZ z l))).
  destruct l as [|x l]; cbn [length].
  { cbn [seq zip zip_with head tail]. rewrite (IH (b + 1) [] k); try (done || lia).
    simpl in Hn. rewrite Nat.add_0_r in Hn. subst k. simpl. by rewrite Nat.add_0_r. }
  rewrite Hub by done. cbn [seq zip zip_with head tail].
  pose proof Hge as [Hbx Hbl]%Forall_cons. pose proof Hlt as [Hx256 Hl256]%Forall_cons.
  destruct (Z.compare_spec x b) as [->|Hc|Hc]; [|lia|].
  - destruct (Z.eqb_spec b 255) as [->|Hb255].
    + assert (m = 0%nat) as -> by lia. simpl. do 2 f_equal.
      rewrite count_le_all; [simpl in Hn; lia|].
      eapply Forall_impl; [exact Hl256|]. simpl. lia.
    + inversion Hs as [|? ? Hs' _]; subst.
      destruct (sorted_ge_split b l Hs' Hbl) as (j & l3 & -> & Hgt & Hs3).
      assert (Hlen : length (replicate j b ++ l3) = (j + length l3)%nat)
        by (rewrite length_app, length_replicate; lia).
      rewrite (find_ne_skip b _ j (S k) l3 Hgt) by (by rewrite Hlen).
      apply Forall_app in Hl256 as [_ Hl3].
      assert (Hcnt : ∀ z, b ≤ z →
        (k + count_le idZ z (b :: replicate j b ++ l3) = S k + j + count_le idZ z l3)%nat).
      { intros z Hz. simpl. cbv beta. rewrite (proj2 (Z.leb_le _ _)) by lia.
        rewrite count_le_app, count_le_all, length_replicate
          by (apply Forall_replicate; lia). lia. }
      set (ub' := match head (zip (seq (S k + j) (length l3)) l3) with
                  | Some (idx, _) => wrap 32 (Z.of_nat idx)
                  | None => _ end).
      assert (Hub' : ub' = Z.of_nat (S k + j)).
      { unfold ub'. cbn [length] in *. rewrite Hlen in *. destruct l3 as [|c l3].
        - simpl in *. lia.
        - cbn [length seq zip zip_with head]. apply wrap_small. simpl in *. lia. }
      rewrite (IH (b + 1) l3 (S k + j)%nat).
      * cbn [fmap res_fmap]. do 2 f_equal.
        -- rewrite Hcnt, count_le_none by (lia || done). lia.
        -- apply list_fmap_ext. intros i z Hz. rewrite Hcnt by lia. done.
      * lia.
      * lia.
      * done.
      * eapply Forall_impl; [exact Hgt|]. simpl. lia.
      * done.
      * cbn [length] in *. lia.
      * lia.
      * intros _. exact Hub'.
  - assert (Hge' : Forall (Z.le (b + 1)) (x :: l)).
    { inversion Hs as [|? ? _ Hx']; subst. constructor; [lia|].
      eapply Forall_impl; [exact Hx'|]. simpl. lia. }
    pose proof (IH (b + 1) (x :: l) k ltac:(lia) ltac:(lia) Hs Hge' Hlt Hn Hn32
      (Z.of_nat k) ltac:(done)) as Heq.
    cbn [length seq zip zip_with head tail] in Heq. rewrite Heq.
    cbn [fmap res_fmap]. do 2 f_equal. rewrite count_le_none; [lia|].
    eapply Forall_impl; [exact Hge'|]. simpl. lia.
Qed.

Lemma fanout_spec l :
  StronglySorted Z.le l → is_bytes l → Z.of_nat (length l) < 2 ^ 32 →
  fanout l = Ok ((λ b, Z.of_nat (count_le idZ b l)) <$> all_bytes).
Proof.
  intros Hs Hb Hn. unfold fanout, all_bytes. rewrite wrap_small by lia.
  pose proof (fanout_loop_spec 256 0 l 0 (length l)) as H.
  specialize (H ltac:(lia) ltac:(lia) Hs). rewrite <- list_fmap_compose.
  rewrite H; [done| | |lia|lia|done].
  - eapply Forall_impl; [exact Hb|]. simpl. lia.
  - eapply Forall_impl; [exact Hb|]. simpl. lia.
Qed.

(** *** Offsets *)

Lemma land_high c : 0 ≤ c < 2 ^ 31 → Z.land c (2 ^ 31) = 0.
Proof.
  intros Hc. pose proof (lor_shifted c 1 31 ltac:(lia) Hc) as Hlor.
  pose proof (Z.add_lor_land c (2 ^ 31)). rewrite Z.mul_1_l in Hlor. lia.
Qed.
Lemma lor_high c : 0 ≤ c < 2 ^ 31 → Z.lor c (2 ^ 31) = c + 2 ^ 31.
Proof.
  intros Hc. pose proof (lor_shifted c 1 31 ltac:(lia) Hc) as H.
  by rewrite Z.mul_1_l in H.
Qed.
Lemma land_high_set c : 0 ≤ c < 2 ^ 31 → Z.land (c + 2 ^ 31) (2 ^ 31) = 2 ^ 31.
Proof.
  intros Hc. by rewrite <- lor_high, Z.land_lor_distr_l, land_high, Z.land_diag by done.
Qed.
Lemma lxor_high_set c : 0 ≤ c < 2 ^ 31 → Z.lxor (c + 2 ^ 31) (2 ^ 31) = c.
Proof.
  intros Hc. rewrite <- lor_high, <- Z.lxor_lor by (done || by apply land_high).
  by rewrite Z.lxor_assoc, Z.lxor_nilpotent, Z.lxor_0_r.
Qed.

(** A 32-bit entry of the offset table stands for [o], given the table of
    large offsets. *)
Definition stands_for (c : Z) (table : list Z) (o : Z) : Prop :=
  (c = o ∧ 0 ≤ o < 2 ^ 31) ∨
  ∃ k, c = Z.of_nat k + 2 ^ 31 ∧ Z.of_nat k < 2 ^ 31 ∧ table !! k = Some o.

Lemma write_offsets_spec entries pre :
  Forall (λ e, u64 (offset e)) entries →
  Z.of_nat (length pre + length entries) < 2 ^ 31 →
  ∃ codes large,
    write_offsets entries pre = Ok (concat (be_bytes 4 <$> codes), pre ++ large) ∧
    length codes = length entries ∧ Forall (λ c, u32 c) codes ∧
    Forall (λ o, u64 o) large ∧
    ∀ i e, entries !! i = Some e →
      ∃ c, codes !! i = Some c ∧ stands_for c (pre ++ large) (offset e).
Proof.
  intros Hwf. revert pre. induction Hwf as [|e entries He Hwf IH]; intros pre Hlen.
  { exists [], []. rewrite app_nil_r. split_and!; [done|done|constructor|constructor|].
    intros i e He. by rewrite lookup_nil in He. }
  cbn [write_offsets length] in *. unfold LARGE_OFFSET_THRESHOLD, HIGH_BIT.
  destruct (Z.ltb_spec (2 ^ 31 - 1) (offset e)) as [Hbig|Hsmall].
  - rewrite (proj2 (Z.ltb_lt _ _)) by lia. unfold assert_. rewrite bind_Ok.
    destruct (IH (pre ++ [offset e])) as (codes & large & -> & Hl & Hc & Hlg & Hall);
      [rewrite length_app; simpl; lia|].
    rewrite bind_Ok, length_app. cbn [length].
    replace (length pre + 1 - 1)%nat with (length pre) by lia.
    rewrite wrap_small, lor_high by lia.
    exists ((Z.of_nat (length pre) + 2 ^ 31) :: codes), (offset e :: large).
    rewrite <- app_assoc. split_and!; [done|simpl; lia|constructor; [lia|done]|
      by constructor|].
    intros [|i] e' He'; simpl in He'; simplify_eq.
    + eexists. split; [done|]. right. exists (length pre). split_and!; [done|lia|].
      by rewrite list_lookup_middle.
    + destruct (Hall i e' He') as (c & Hcc & Hst). exists c. split; [done|].
      by rewrite <- app_assoc in Hst.
  - destruct (IH pre) as (codes & large & -> & Hl & Hc & Hlg & Hall); [lia|].
    rewrite bind_Ok, wrap_small by lia.
    exists (offset e :: codes), large.
    split_and!; [done|simpl; lia|constructor; [lia|done]|done|].
    intros [|i] e' He'; simpl in He'; simplify_eq.
    + eexists. split; [done|]. left. lia.
    + apply (Hall i e' He').
Qed.

Lemma read_u32_be {E} c : u32 c → @read_u32 E (be_bytes 4 c) = Ok c.
Proof.
  intros Hc. unfold read_u32. rewrite length_be_bytes. simpl (4 =? 4)%nat. cbv iota.
  f_equal. apply be_val_be_bytes. lia.
Qed.
Lemma read_u64_be {E} c : u64 c → @read_u64 E (be_bytes 8 c) = Ok c.
Proof.
  intros Hc. unfold read_u64. rewrite length_be_bytes. simpl (8 =? 8)%nat. cbv iota.
  f_equal. apply be_val_be_bytes. lia.
Qed.

(** *** Reading back a written file *)

Definition wf_entry (e : TreeEntry) : Prop :=
  wf_id (id e) ∧ u64 (offset e) ∧ u32 (tcrc32 e).
Definition ids (entries : list TreeEntry) : list bytes := (λ e, as_slice (id e)) <$> entries.

(** The parts of a file, as [write_to] lays them out. *)
Definition layout (fan codes large : list Z) (entries : list TreeEntry) (trailer : bytes) :=
  V2_SIGNATURE ++ be_bytes 4 2 ++ concat (be_bytes 4 <$> fan)
    ++ concat ((λ e, as_slice (id e)) <$> entries)
    ++ concat ((λ e, be_bytes 4 (tcrc32 e)) <$> entries)
    ++ concat (be_bytes 4 <$> codes) ++ concat (be_bytes 8 <$> large) ++ trailer.

Section Layout.
Context (fanv codes large : list Z) (entries : list TreeEntry) (trailer : bytes).
Hypothesis Hfan : length fanv = 256%nat.
Hypothesis Hfan32 : Forall (λ z, u32 z) fanv.
Hypothesis Hlast : fanv !! 255%nat = Some (Z.of_nat (length entries)).
Hypothesis Hwf : Forall wf_entry entries.
Hypothesis Hcodes : length codes = length entries.
Hypothesis Hcodes32 : Forall (λ c, u32 c) codes.
Hypothesis Hlarge : Forall (λ o, u64 o) large.
Hypothesis Htr : (40 ≤ length trailer)%nat.

Let file := layout fanv codes large entries trailer.
Let n := length entries.

Lemma id_len e : e ∈ entries → length (as_slice (id e)) = 20%nat.
Proof. rewrite Forall_forall in Hwf. intros He. by destruct (Hwf e He) as [[? _] _]. Qed.

Definition opened : File := mkFile file V2 (Z.of_nat n) fanv 20.

Lemma at_inner_layout : at_inner file KSha1 = Ok opened.
Proof.
  assert (Hlenfan : length (concat (be_bytes 4 <$> fanv)) = 1024%nat).
  { rewrite (length_concat_fixed (be_bytes 4) 4), Hfan; [done|].
    intros y _. apply length_be_bytes. }
  unfold at_inner. cbv zeta. cbn [len_in_bytes].
  rewrite (proj2 (Nat.ltb_ge _ _)).
  2:{ unfold file, layout. rewrite !length_app, Hlenfan, length_be_bytes.
      unfold FAN_LEN, N32_SIZE. simpl. lia. }
  assert (Hs1 : ∃ r, file = V2_SIGNATURE ++ be_bytes 4 2 ++ concat (be_bytes 4 <$> fanv) ++ r)
    by (eexists; reflexivity).
  destruct Hs1 as [r Hr].
  assert (Hs1 : @split_at InitError Z file (length V2_SIGNATURE) =
    Ok (V2_SIGNATURE, be_bytes 4 2 ++ concat (be_bytes 4 <$> fanv) ++ r))
    by (rewrite Hr; by apply split_at_app).
  rewrite Hs1, bind_Ok. clear Hs1 Hr.
  rewrite bool_decide_eq_true_2 by done.
  rewrite split_at_app, bind_Ok by (by rewrite length_be_bytes).
  rewrite read_u32_be, bind_Ok by lia. cbn [Z.eqb Pos.eqb negb]. rewrite bind_Ok.
  unfold read_fan, FAN_LEN, N32_SIZE. rewrite (proj2 (Nat.leb_le _ _)).
  2:{ rewrite length_app, Hlenfan. lia. }
  unfold assert_. rewrite bind_Ok. rewrite <- Hfan at 1.
  rewrite (chunks_records (be_bytes 4) 4) by (lia || intros; apply length_be_bytes).
  rewrite (mapM_res_ok _ be_val).
  2:{ apply Forall_fmap. eapply Forall_impl; [exact Hfan32|]. intros z Hz.
      cbv beta in Hz. unfold compose. rewrite read_u32_be by done.
      by rewrite be_val_be_bytes by lia. }
  rewrite !bind_Ok. rewrite split_at_app, bind_Ok by (by rewrite Hlenfan).
  assert (Hid : be_val <$> (be_bytes 4 <$> fanv) = fanv).
  { rewrite <- list_fmap_compose. rewrite <- (list_fmap_id fanv) at 2.
    apply list_fmap_ext. intros i z Hz. unfold compose, Datatypes.id.
    apply be_val_be_bytes. rewrite Forall_forall in Hfan32.
    apply list_elem_of_lookup_2, Hfan32 in Hz. cbv beta in Hz. lia. }
  rewrite Hid. unfold idx. simpl (256 - 1)%nat. rewrite Hlast. cbn [expect].
  by rewrite bind_Ok.
Qed.

Lemma opened_num : num opened = n.
Proof. unfold num. simpl. lia. Qed.

Lemma length_header :
  length (V2_SIGNATURE ++ be_bytes 4 2 ++ concat (be_bytes 4 <$> fanv)) = 1032%nat.
Proof.
  rewrite !length_app, (length_concat_fixed (be_bytes 4) 4), Hfan, length_be_bytes.
  - done.
  - intros y _. apply length_be_bytes.
Qed.
Lemma length_ids : length (concat ((λ e, as_slice (id e)) <$> entries)) = (n * 20)%nat.
Proof. apply length_concat_fixed. apply id_len. Qed.
Lemma length_crcs : length (concat ((λ e, be_bytes 4 (tcrc32 e)) <$> entries)) = (n * 4)%nat.
Proof. apply length_concat_fixed. intros y _. apply length_be_bytes. Qed.
Lemma length_codes : length (concat (be_bytes 4 <$> codes)) = (n * 4)%nat.
Proof.
  unfold n. rewrite <- Hcodes. apply length_concat_fixed. intros y _. apply length_be_bytes.
Qed.

(** The file, cut in front of each of its tables. *)
Lemma file_at_ids : file =
  (V2_SIGNATURE ++ be_bytes 4 2 ++ concat (be_bytes 4 <$> fanv)) ++
  concat ((λ e, as_slice (id e)) <$> entries) ++
  (concat ((λ e, be_bytes 4 (tcrc32 e)) <$> entries) ++
   concat (be_bytes 4 <$> codes) ++ concat (be_bytes 8 <$> large) ++ trailer).
Proof. unfold file, layout. by rewrite <- !app_assoc. Qed.
Lemma file_at_crcs : file =
  ((V2_SIGNATURE ++ be_bytes 4 2 ++ concat (be_bytes 4 <$> fanv)) ++
   concat ((λ e, as_slice (id e)) <$> entries)) ++
  concat ((λ e, be_bytes 4 (tcrc32 e)) <$> entries) ++
  (concat (be_bytes 4 <$> codes) ++ concat (be_bytes 8 <$> large) ++ trailer).
Proof. unfold file, layout. by rewrite <- !app_assoc. Qed.
Lemma file_at_codes : file =
  (((V2_SIGNATURE ++ be_bytes 4 2 ++ concat (be_bytes 4 <$> fanv)) ++
    concat ((λ e, as_slice (id e)) <$> entries)) ++
   concat ((λ e, be_bytes 4 (tcrc32 e)) <$> entries)) ++
  concat (be_bytes 4 <$> codes) ++ (concat (be_bytes 8 <$> large) ++ trailer).
Proof. unfold file, layout. by rewrite <- !app_assoc. Qed.
Lemma file_at_large : file =
  ((((V2_SIGNATURE ++ be_bytes 4 2 ++ concat (be_bytes 4 <$> fanv)) ++
     concat ((λ e, as_slice (id e)) <$> entries)) ++
    concat ((λ e, be_bytes 4 (tcrc32 e)) <$> entries)) ++
   concat (be_bytes 4 <$> codes)) ++ concat (be_bytes 8 <$> large) ++ trailer.
Proof. unfold file, layout. by rewrite <- !app_assoc. Qed.

Lemma offsets_opened :
  offset_crc32_v2 opened = (1032 + n * 20)%nat ∧
  offset_pack_offset_v2 opened = (1032 + n * 20 + n * 4)%nat ∧
  offset_pack_offset64_v2 opened = (1032 + n * 20 + n * 4 + n * 4)%nat.
Proof.
  unfold offset_pack_offset64_v2, offset_pack_offset_v2, offset_crc32_v2.
  rewrite opened_num. done.
Qed.

Lemma oid_at_opened i e :
  entries !! i = Some e → oid_at_index opened (Z.of_nat i) = Ok (as_slice (id e)).
Proof.
  intros He. unfold oid_at_index, opened. cbn [version data hash_len].
  rewrite Nat2Z.id, file_at_ids.
  apply (window_records (λ e, as_slice (id e)) 20 entries i e); [apply id_len|done|].
  by rewrite length_header.
Qed.

Lemma crc32_at_opened i e :
  entries !! i = Some e → crc32_at_index opened (Z.of_nat i) = Ok (Some (tcrc32 e)).
Proof.
  intros He. unfold crc32_at_index, opened. cbn [version data].
  fold opened. destruct offsets_opened as (-> & _ & _). rewrite Nat2Z.id.
  assert (Hw : ∀ E d k m, @window E d k m = slice d k (k + m)).
  { intros. unfold window, slice_from, slice_to, slice, get_from, get_to, get_range.
    destruct (Nat.leb_spec k (length d)); cbn [expect].
    - rewrite bind_Ok, length_drop.
      destruct (Nat.leb_spec m (length d - k)), (Nat.leb_spec k (k + m)),
        (Nat.leb_spec (k + m) (length d)); try lia; [|done].
      cbn [andb expect]. by replace (k + m - k)%nat with m by lia.
    - destruct (Nat.leb_spec k (k + m)), (Nat.leb_spec (k + m) (length d)); try lia; done. }
  rewrite <- Hw, file_at_crcs.
  rewrite (window_records (λ e, be_bytes 4 (tcrc32 e)) 4 entries i e);
    [|intros; apply length_be_bytes|done|rewrite length_app, length_header, length_ids; done].
  rewrite bind_Ok, read_u32_be; [done|].
  rewrite Forall_forall in Hwf. by destruct (Hwf e (list_elem_of_lookup_2 _ _ _ He)) as (_ & _ & ?).
Qed.

Lemma resolve_code c o :
  stands_for c large o → u64 o →
  pack_offset_from_offset_v2 opened (be_bytes 4 c) (offset_pack_offset64_v2 opened) = Ok o.
Proof.
  intros Hst Ho. unfold pack_offset_from_offset_v2, N32_HIGH_BIT.
  destruct Hst as [[-> Hs]|(k & -> & Hk & Ht)].
  - rewrite read_u32_be, bind_Ok, land_high by lia. done.
  - rewrite read_u32_be, bind_Ok, land_high_set, Z.eqb_refl, lxor_high_set by lia.
    rewrite Nat2Z.id. destruct offsets_opened as (_ & _ & ->). cbn [data opened].
    rewrite file_at_large.
    rewrite (window_records (be_bytes 8) 8 large k o);
      [|intros; apply length_be_bytes|done|].
    + rewrite bind_Ok. by apply read_u64_be.
    + by rewrite !length_app, length_codes, length_crcs, length_ids, <- !length_app, length_header.
Qed.

Lemma pack_offset_at_opened i e c :
  entries !! i = Some e → codes !! i = Some c → stands_for c large (offset e) →
  pack_offset_at_index opened (Z.of_nat i) = Ok (offset e).
Proof.
  intros He Hc Hst. unfold pack_offset_at_index, opened. cbn [version data]. fold opened.
  rewrite Nat2Z.id. destruct offsets_opened as (_ & Ho & _). rewrite Ho, file_at_codes.
  rewrite (window_records (be_bytes 4) 4 codes i c);
    [|intros; apply length_be_bytes|done|].
  - rewrite bind_Ok. apply resolve_code; [done|].
    rewrite Forall_forall in Hwf. by destruct (Hwf e (list_elem_of_lookup_2 _ _ _ He)) as (_ & ? & _).
  - by rewrite !length_app, length_crcs, length_ids, <- !length_app, length_header.
Qed.

Definition entry_of (e : TreeEntry) : Entry :=
  mkEntry (id e) (offset e) (Some (tcrc32 e)).

Lemma iter_opened :
  Forall2 (λ e c, stands_for c large (offset e)) entries codes →
  iter opened = Ok (entry_of <$> entries).
Proof.
  intros Hst. unfold iter, iter_v2. cbn [version opened].
  destruct offsets_opened as (-> & Ho & ->). rewrite Ho, opened_num.
  change (data opened) with file. cbv zeta.
  assert (H1 : @slice_from Empty_set Z file V2_HEADER_SIZE =
    Ok (concat ((λ e, as_slice (id e)) <$> entries) ++
        (concat ((λ e, be_bytes 4 (tcrc32 e)) <$> entries) ++
         concat (be_bytes 4 <$> codes) ++ concat (be_bytes 8 <$> large) ++ trailer))).
  { rewrite file_at_ids. unfold V2_HEADER_SIZE. rewrite <- length_header.
    apply slice_from_app. }
  assert (H2 : @slice_from Empty_set Z file (1032 + n * 20) =
    Ok (concat ((λ e, be_bytes 4 (tcrc32 e)) <$> entries) ++
        (concat (be_bytes 4 <$> codes) ++ concat (be_bytes 8 <$> large) ++ trailer))).
  { rewrite file_at_crcs, <- length_header, <- length_ids, <- length_app.
    apply slice_from_app. }
  assert (H3 : @slice_from Empty_set Z file (1032 + n * 20 + n * 4) =
    Ok (concat (be_bytes 4 <$> codes) ++ (concat (be_bytes 8 <$> large) ++ trailer))).
  { rewrite file_at_codes, <- length_header, <- length_ids, <- length_crcs, <- !length_app.
    apply slice_from_app. }
  rewrite H1, bind_Ok, H2, bind_Ok, H3, bind_Ok. cbn [hash_len opened].
  unfold N32_SIZE, n. rewrite (chunks_records (λ e, as_slice (id e)) 20) by (lia || apply id_len).
  rewrite (chunks_records (λ e, be_bytes 4 (tcrc32 e)) 4)
    by (lia || intros; apply length_be_bytes).
  rewrite <- Hcodes, (chunks_records (be_bytes 4) 4) by (lia || intros; apply length_be_bytes).
  rewrite !length_fmap, Hcodes, !Nat.eqb_refl. unfold assert_. rewrite !bind_Ok.
  clear H1 H2 H3. pose proof resolve_code as Hres. unfold n in Hres.
  destruct offsets_opened as (_ & _ & Hof). rewrite Hof in Hres. clear Hof Ho.
  unfold n in Hres. revert Hres. generalize (1032 + length entries * 20 + length entries * 4 + length entries * 4)%nat.
  generalize opened. intros op k64 Hres. clear -Hst Hwf Hres.
  induction Hst as [|e c es cs Hec Hst IH]; [done|].
  apply Forall_cons in Hwf as [[Hid [Ho Hcrc]] Hwf'].
  rewrite !fmap_cons. cbn [zip zip_with mapM_res].
  unfold from_bytes_or_panic. destruct Hid as [Hl _]. rewrite Hl. cbn [Nat.eqb].
  rewrite bind_Ok, (Hres c (offset e) Hec Ho), bind_Ok, read_u32_be, !bind_Ok by done.
  unfold from_bytes_or_panic in IH. rewrite (IH Hwf'), bind_Ok.
  unfold entry_of at 2. by destruct (id e).
Qed.

End Layout.

(** *** From entries to a file and back *)

Section Roundtrip.
Context (digest : bytes → bytes) (Hdigest : ∀ b, length (digest b) = 20%nat).
Context (entries : list TreeEntry) (pack_hash : ObjectId).
Hypothesis Hwf : Forall wf_entry entries.
Hypothesis Hsorted : StronglySorted bytes_lt (ids entries).
Hypothesis Hlen : Z.of_nat (length entries) < 2 ^ 31.
Hypothesis Hph : wf_id pack_hash.

Lemma ids_wf : Forall wf_oid (ids entries).
Proof. apply Forall_fmap. eapply Forall_impl; [exact Hwf|]. by intros e [[? ?] _]. Qed.

Definition firsts : list Z := (λ e, nth 0 (as_slice (id e)) 0) <$> entries.

Lemma firsts_bytes : is_bytes firsts.
Proof.
  apply Forall_fmap. eapply Forall_impl; [exact Hwf|]. intros e [[Hl Hb] _].
  unfold compose. destruct (as_slice (id e)); [done|]. by apply Forall_cons in Hb as [? _].
Qed.

Lemma firsts_sorted : StronglySorted Z.le firsts.
Proof.
  pose proof (first_sorted _ ids_wf Hsorted) as Hf. unfold ids in Hf. unfold firsts.
  clear -Hf. induction entries as [|e es IH]; [constructor|].
  rewrite fmap_cons in *. inversion Hf as [|? ? H1 H2]; subst. constructor; [auto|].
  clear -H2. induction es as [|e' es IH]; [constructor|].
  rewrite fmap_cons in *. apply Forall_cons in H2 as [? ?]. constructor; auto.
Qed.

Lemma count_le_firsts b :
  count_le idZ b firsts = count_le (λ o, nth 0 o 0) b (ids entries).
Proof.
  unfold firsts, ids. clear. induction entries as [|e es IH]; [done|].
  rewrite !fmap_cons. cbn [count_le]. by rewrite IH.
Qed.

Definition fan_table : list Z := (λ b, Z.of_nat (count_le idZ b firsts)) <$> all_bytes.

Lemma written_file :
  ∃ codes large trailer,
    write_to digest entries pack_hash =
      Ok (layout fan_table codes large entries trailer, Sha1 (drop 20 trailer)) ∧
    (length trailer = 40)%nat ∧
    length codes = length entries ∧ Forall (λ c, u32 c) codes ∧
    Forall (λ o, u64 o) large ∧
    Forall2 (λ e c, stands_for c large (offset e)) entries codes.
Proof.
  destruct (write_offsets_spec entries []) as (codes & large & Hwo & Hl & Hc & Hlg & Hall).
  { eapply Forall_impl; [exact Hwf|]. by intros e (_ & ? & _). }
  { simpl. lia. }
  unfold write_to. rewrite (proj2 (Z.leb_le _ _)) by lia. unfold assert_. rewrite bind_Ok.
  rewrite (mapM_res_ok _ (λ e, nth 0 (as_slice (id e)) 0)).
  2:{ eapply Forall_impl; [exact Hwf|]. intros e [[Hid _] _]. by destruct (as_slice (id e)). }
  rewrite bind_Ok. fold firsts.
  rewrite fanout_spec, bind_Ok, Hwo, bind_Ok
    by (apply firsts_sorted || apply firsts_bytes ||
        (unfold firsts; rewrite length_fmap; lia)).
  fold fan_table.
  eexists codes, large, (as_slice pack_hash ++ digest _). destruct Hph as [Hp _].
  split_and!; [| |done..|].
  - unfold layout. rewrite <- !app_assoc. do 3 f_equal.
    rewrite drop_app_length' by done. done.
  - rewrite length_app, Hp, Hdigest. done.
  - apply Forall2_same_length_lookup_2; [done|]. intros i e c He Hci.
    destruct (Hall i e He) as (c' & Hc' & Hst). by simplify_eq.
Qed.

Lemma fan_table_props :
  length fan_table = 256%nat ∧ Forall (λ z, u32 z) fan_table ∧
  fan_table !! 255%nat = Some (Z.of_nat (length entries)).
Proof.
  unfold fan_table. split_and!.
  - by rewrite length_fmap.
  - apply Forall_fmap, Forall_forall. intros b _. unfold compose.
    pose proof (count_le_length idZ b firsts) as H. unfold firsts in H at 2.
    rewrite length_fmap in H. lia.
  - rewrite list_lookup_fmap. change (all_bytes !! 255%nat) with (Some 255). simpl.
    do 2 f_equal. rewrite count_le_all; [unfold firsts; by rewrite length_fmap|].
    eapply Forall_impl; [exact firsts_bytes|]. simpl. lia.
Qed.

Lemma opened_table codes large trailer :
  length codes = length entries →
  OidTable (oid_at_index (opened fan_table codes large entries trailer)) fan_table (ids entries).
Proof.
  intros Hl. destruct fan_table_props as (Hf1 & Hf2 & Hf3). split.
  - apply ids_wf.
  - done.
  - unfold ids. rewrite length_fmap. lia.
  - intros i o Ho. unfold ids in Ho. apply list_lookup_fmap_Some in Ho as (e & -> & He).
    by apply oid_at_opened.
  - intros b Hb. unfold fan_table, all_bytes. rewrite !list_lookup_fmap, lookup_seq_lt by lia.
    simpl. rewrite Z2Nat.id by lia. by rewrite count_le_firsts.
Qed.

End Roundtrip.

(** ** Properties *)

(** C2: An index that is written can be opened, and answers for exactly the
    objects it was written for.  For entries sorted by id (fewer than 2^31),
    [write_to] succeeds; [File::at] accepts the file and sees as many objects;
    looking up the id of entry [i] yields [i], and the file returns its pack
    offset (stored in 31 bits or in the table of 64-bit offsets) and its
    checksum; ids that were not written are not found, and iteration returns
    the entries in order. *)
Theorem index_write_read digest entries pack_hash :
  (∀ b, length (digest b) = 20%nat) → wf_id pack_hash →
  Forall wf_entry entries → StronglySorted bytes_lt (ids entries) →
  Z.of_nat (length entries) < 2 ^ 31 →
  ∃ file h f,
    write_to digest entries pack_hash = Ok (file, h) ∧
    at_inner file KSha1 = Ok f ∧
    num_objects f = Z.of_nat (length entries) ∧
    iter f = Ok (entry_of <$> entries) ∧
    (∀ i e, entries !! i = Some e →
       file_lookup f (as_slice (id e)) = Ok (Some (Z.of_nat i)) ∧
       pack_offset_at_index f (Z.of_nat i) = Ok (offset e) ∧
       crc32_at_index f (Z.of_nat i) = Ok (Some (tcrc32 e))) ∧
    (∀ o, wf_oid o → o ∉ ids entries → file_lookup f o = Ok None).
Proof.
  intros Hd Hph Hwf Hs Hlen.
  destruct (written_file digest Hd entries pack_hash Hwf Hs Hlen Hph)
    as (codes & large & trailer & Hw & Htr & Hl & Hc & Hlg & Hst).
  destruct (fan_table_props entries Hwf Hlen) as (Hf1 & Hf2 & Hf3).
  pose proof (opened_table entries Hwf Hs Hlen codes large trailer Hl) as HT.
  eexists _, _, (opened (fan_table entries) codes large entries trailer).
  split_and!; [exact Hw|apply at_inner_layout; (done || lia)|done|apply iter_opened; (done || lia)| |].
  - intros i e He.
    assert (Hi : ids entries !! i = Some (as_slice (id e)))
      by (unfold ids; by rewrite list_lookup_fmap, He).
    assert (Hoid : wf_oid (as_slice (id e))).
    { pose proof (ids_wf entries Hwf) as Hall. rewrite Forall_forall in Hall.
      apply Hall. by eapply list_elem_of_lookup_2. }
    split_and!.
    + unfold file_lookup. cbn [fan opened].
      destruct (lookup_spec _ _ _ (as_slice (id e)) Hoid) as [(j & -> & Hj)|[_ Hno]].
      * do 2 f_equal. destruct (Nat.lt_trichotomy i j) as [Hij|[->|Hij]]; [|done|].
        -- exfalso. eapply (irreflexivity bytes_lt), (sorted_lookup_lt _ _ i j); eauto.
        -- exfalso. eapply (irreflexivity bytes_lt), (sorted_lookup_lt _ _ j i); eauto.
      * destruct Hno. by eapply list_elem_of_lookup_2.
    + destruct (Forall2_lookup_l _ _ _ _ _ Hst He) as (c & Hci & Hcst).
      apply pack_offset_at_opened with (c := c); (done || lia).
    + apply crc32_at_opened; (done || lia).
  - intros o Ho Hno. unfold file_lookup. cbn [fan opened].
    destruct (lookup_spec _ _ _ o Ho) as [(j & _ & Hj)|[-> _]]; [|done].
    destruct Hno. by eapply list_elem_of_lookup_2.
Qed.

Definition sample_tree_entries : list TreeEntry :=
  [mkTree 12 (Sha1 (replicate 20 1)) 7;
   mkTree (2 ^ 33) (Sha1 (replicate 20 200)) 9].
Lemma index_write_read_witness :
  ∃ file h f,
    write_to (λ _, replicate 20 0) sample_tree_entries sample_id = Ok (file, h) ∧
    at_inner file KSha1 = Ok f ∧
    pack_offset_at_index f 1 = Ok (2 ^ 33).
Proof.
  destruct (index_write_read (λ _, replicate 20 0) sample_tree_entries sample_id)
    as (file & h & f & H1 & H2 & _ & _ & H3 & _).
  - done.
  - apply sample_wf.
  - repeat constructor; simpl; lia.
  - repeat constructor.
  - simpl. lia.
  - exists file, h, f. split_and!; [done..|].
    by apply (H3 1%nat (mkTree (2 ^ 33) (Sha1 (replicate 20 200)) 9)).
Defined.
