(* ===== verification/PackEntry.v ===== *)
(** * Pack entries: variable-length integers and entry headers

    Models [gix-features/src/decode.rs] ([leb64], [leb64_from_read]) and
    [gix-pack/src/data/entry/] ([decode.rs], [header.rs], [mod.rs]): the header
    in front of every object of a pack file, which stores the object type, the
    inflated size and, for deltas, the base. *)

From S2P Require Import Prelude Hash.

(** ** Readers: [std::io::Read] over an in-memory stream *)

Inductive io_error := UnexpectedEof | Other (type_id : Z).

(** [read.read_exact(&mut buf)] for a buffer of [n] bytes: the bytes read and
    the rest of the stream. *)
Definition read_exact (n : nat) (r : bytes) : res io_error (bytes * bytes) :=
  if (n <=? length r)%nat then Ok (take n r, drop n r) else Err UnexpectedEof.

(** ** gix-features: [leb64] *)

Module Leb.

(** One round of the loop body, with the release profile's wrapping
    arithmetic. *)
Definition step (value c : Z) : Z :=
  let value := wrap 64 (value + 1) in
  wrap 64 (wrap 64 (Z.shiftl value 7) + Z.land c 127).

Fixpoint leb64_loop (c value : Z) (i : nat) (d : bytes)
  : res Empty_set (Z * nat) :=
  if Z.land c 128 =? 0 then Ok (value, i) else
  match d with
  | [] => Panic
  | c :: d => leb64_loop c (step value c) (S i) d
  end.

Definition leb64 (d : bytes) : res Empty_set (Z * nat) :=
  match d with
  | [] => Panic
  | c :: d => leb64_loop c (Z.land c 127) 1 d
  end.

(** The streaming variant also returns what is left in the reader. *)
Fixpoint leb64_from_read_loop (c value : Z) (i : nat) (r : bytes)
  : res io_error (Z * nat * bytes) :=
  if Z.land c 128 =? 0 then Ok (value, i, r) else
  match r with
  | [] => Err UnexpectedEof
  | c :: r => leb64_from_read_loop c (step value c) (S i) r
  end.

Definition leb64_from_read (r : bytes) : res io_error (Z * nat * bytes) :=
  match r with
  | [] => Err UnexpectedEof
  | c :: r => leb64_from_read_loop c (Z.land c 127) 1 r
  end.

(** [leb64_encode] of [gix-pack/src/data/entry/header.rs]: the loop runs over
    the nine slots in front of the last byte of the buffer, [acc] is the part
    of the buffer that is written.  The final [n] is returned as well, since
    the code asserts it in debug builds. *)
Fixpoint leb64_encode_loop (slots : nat) (n : Z) (acc : bytes) : Z * bytes :=
  match slots with
  | O => (n, acc)
  | S slots =>
      let n := Z.shiftr n 7 in
      if n =? 0 then (n, acc) else
      let n := n - 1 in
      leb64_encode_loop slots n (Z.lor 128 (Z.land (wrap 8 n) 127) :: acc)
  end.

Definition leb64_encode (n : Z) : bytes :=
  (leb64_encode_loop 9 n [Z.land (wrap 8 n) 127]).2.

(** *** Lemmas *)

Abbreviation hi := (λ c, 128 ≤ c < 256).

Definition ideal (value c : Z) : Z := (value + 1) * 128 + c mod 128.

Lemma ideal_mono v c : 0 ≤ v → v + 1 ≤ ideal v c.
Proof. unfold ideal. pose proof (Z.mod_pos_bound c 128). lia. Qed.

Lemma foldl_ideal_mono l v : 0 ≤ v → v ≤ foldl ideal v l.
Proof.
  revert v. induction l as [|c l IH]; intros v Hv; simpl; [lia|].
  pose proof (ideal_mono v c Hv). specialize (IH (ideal v c)). lia.
Qed.

Lemma step_ideal v c : 0 ≤ v → ideal v c < 2 ^ 64 → step v c = ideal v c.
Proof.
  intros Hv Hlt. pose proof (ideal_mono v c Hv).
  pose proof (Z.mod_pos_bound c 128).
  unfold step. rewrite land_127, Z.shiftl_mul_pow2 by lia.
  unfold ideal in *. change (2 ^ 7) with 128.
  rewrite (wrap_small 64 (v + 1)) by lia.
  rewrite (wrap_small 64 (_ * 128)) by lia. apply wrap_small. lia.
Qed.

Lemma leb64_loop_hi l c v i last rest :
  hi c → Forall hi l → 0 ≤ last < 128 → 0 ≤ v →
  foldl ideal v (l ++ [last]) < 2 ^ 64 →
  leb64_loop c v i (l ++ last :: rest) =
    Ok (foldl ideal v (l ++ [last]), (i + length l + 1)%nat).
Proof.
  intros Hc Hl Hlast. revert c v i Hc. induction Hl as [|c' l Hc' Hl IH];
    intros c v i Hc Hv Hlt; simpl in *.
  - rewrite land_128 by lia. rewrite (proj2 (Z.ltb_ge _ _)) by lia.
    rewrite step_ideal by (simpl in *; lia).
    destruct rest; simpl; rewrite land_128 by lia;
      rewrite (proj2 (Z.ltb_lt _ _)) by lia; do 2 f_equal; lia.
  - rewrite land_128 by lia. rewrite (proj2 (Z.ltb_ge _ _)) by lia.
    pose proof (ideal_mono v c' Hv).
    assert (Hb : ideal v c' < 2 ^ 64).
    { pose proof (foldl_ideal_mono (l ++ [last]) (ideal v c')). lia. }
    rewrite step_ideal by lia. rewrite IH by (done || lia).
    do 2 f_equal. lia.
Qed.

Lemma leb64_loop_count c v i d v' k :
  leb64_loop c v i d = Ok (v', k) → (i ≤ k ≤ i + length d)%nat.
Proof.
  revert c v i. induction d as [|c' d IH]; intros c v i; simpl;
    destruct (Z.land c 128 =? 0).
  - intros [= _ <-]. lia.
  - done.
  - intros [= _ <-]. lia.
  - intros ?%IH. lia.
Qed.

(** The streaming decoder is the slice decoder: same value, same count, and
    the reader stops right behind the integer. *)
Lemma leb64_from_read_loop_spec c v i d :
  leb64_from_read_loop c v i d =
  match leb64_loop c v i d with
  | Ok (v, k) => Ok (v, k, drop (k - i) d)
  | Err e => match e with end
  | Panic => Err UnexpectedEof
  end.
Proof.
  revert c v i. induction d as [|c' d IH]; intros c v i; simpl.
  { destruct (Z.land c 128 =? 0); [|done]. by rewrite Nat.sub_diag. }
  destruct (Z.land c 128 =? 0); [by rewrite Nat.sub_diag|]. rewrite IH.
  destruct (leb64_loop c' (step v c') (S i) d) as [[v' k]|[]|] eqn:E; [|done].
  apply leb64_loop_count in E as ?.
  by replace (k - i)%nat with (S (k - S i)) by lia.
Qed.

Fixpoint cap (slots : nat) : Z :=
  match slots with O => 1 | S s => 128 * (cap s + 1) end.

Definition acc_ideal (o : option Z) (c : Z) : option Z :=
  Some (match o with None => c mod 128 | Some v => ideal v c end).

Lemma encode_byte n :
  0 ≤ n → Z.lor 128 (Z.land (wrap 8 n) 127) = 128 + n mod 128.
Proof.
  intros. rewrite land_127. unfold wrap. change (2 ^ 8) with (128 * 2).
  rewrite Z.lor_comm, Z.rem_mul_r by lia.
  rewrite Z.mul_comm, Z.mod_add, Z.mod_mod by lia.
  pose proof (Z.mod_pos_bound n 128). rewrite lor_128 by lia. lia.
Qed.

Lemma low_byte n : Z.land (wrap 8 n) 127 = n mod 128.
Proof.
  rewrite land_127. unfold wrap. change (2 ^ 8) with (128 * 2).
  rewrite Z.rem_mul_r, Z.mul_comm, Z.mod_add, Z.mod_mod by lia. done.
Qed.

Lemma leb64_encode_loop_spec slots n acc :
  0 ≤ n < cap slots →
  ∃ pre, leb64_encode_loop slots n acc = (if slots then n else 0, pre ++ acc) ∧
    Forall hi pre ∧ (length pre ≤ slots)%nat ∧
    foldl acc_ideal None pre =
      (if n <? 128 then None else Some (n / 128 - 1)).
Proof.
  revert n acc. induction slots as [|s IH]; intros n acc Hn.
  - simpl in *. exists []. rewrite (proj2 (Z.ltb_lt _ _)) by lia. eauto.
  - cbn [leb64_encode_loop]. rewrite Z.shiftr_div_pow2 by lia.
    change (2 ^ 7) with 128. cbn [cap] in Hn.
    destruct (Z.eqb_spec (n / 128) 0) as [Hz|Hnz].
    + exists []. assert (n < 128) by (apply Z.div_small_iff in Hz; lia).
      rewrite (proj2 (Z.ltb_lt _ _)) by lia. rewrite Hz. simpl. eauto with lia.
    + assert (128 ≤ n).
      { destruct (Z.le_gt_cases 128 n); [done|]. rewrite Z.div_small in Hnz; lia. }
      assert (Hq : 0 ≤ n / 128 - 1 < cap s).
      { split; [pose proof (Z.div_le_mono 128 n 128); change (128/128) with 1 in *; lia|].
        pose proof (Z.div_lt_upper_bound n 128 (cap s + 1)). lia. }
      destruct (IH (n / 128 - 1)
        (Z.lor 128 (Z.land (wrap 8 (n / 128 - 1)) 127) :: acc) Hq)
        as (pre & -> & Hhi & Hlen & Hfold).
      exists (pre ++ [128 + (n / 128 - 1) mod 128]).
      pose proof (Z.mod_pos_bound (n / 128 - 1) 128).
      rewrite encode_byte by lia. split_and!.
      * rewrite <- app_assoc. destruct s; [|done]. simpl in *. f_equal. lia.
      * apply Forall_app. split; [done|]. repeat constructor; lia.
      * rewrite length_app. simpl. lia.
      * rewrite foldl_app, Hfold. simpl. rewrite (proj2 (Z.ltb_ge n 128)) by lia.
        unfold acc_ideal. f_equal.
        assert (Hm : (128 + (n / 128 - 1) mod 128) mod 128 = (n / 128 - 1) mod 128).
        { rewrite <- (Z.mod_mod (n / 128 - 1) 128) at 2 by lia.
          rewrite <- (Z.mod_add ((n / 128 - 1) mod 128) 1 128) by lia. f_equal. lia. }
        unfold ideal. destruct (Z.ltb_spec (n / 128 - 1) 128); rewrite Hm.
        -- apply Z.mod_small. lia.
        -- pose proof (Z.div_mod (n / 128 - 1) 128). lia.
Qed.

Lemma foldl_acc_ideal l v :
  foldl acc_ideal (Some v) l = Some (foldl ideal v l).
Proof. revert v. induction l as [|c l IH]; intros v; simpl; [done|]. apply IH. Qed.

Lemma leb64_encode_shape n :
  u64 n →
  ∃ pre, leb64_encode n = pre ++ [n mod 128] ∧ Forall hi pre ∧
    (length pre ≤ 9)%nat ∧ foldl acc_ideal None (pre ++ [n mod 128]) = Some n.
Proof.
  intros Hn. unfold leb64_encode.
  destruct (leb64_encode_loop_spec 9 n [Z.land (wrap 8 n) 127])
    as (pre & -> & Hhi & Hlen & Hfold).
  { split; [lia|]. eapply Z.lt_le_trans; [apply Hn|]. vm_compute. discriminate. }
  exists pre. simpl. rewrite low_byte. split_and!; [done..|].
  rewrite foldl_app, Hfold. simpl. unfold acc_ideal. f_equal.
  destruct (Z.ltb_spec n 128); unfold ideal; rewrite Z.mod_mod by lia.
  - apply Z.mod_small. lia.
  - pose proof (Z.div_mod n 128). lia.
Qed.

Lemma leb64_decode_encode n rest :
  u64 n →
  leb64 (leb64_encode n ++ rest) = Ok (n, length (leb64_encode n)).
Proof.
  intros Hn. destruct (leb64_encode_shape n Hn) as (pre & -> & Hhi & _ & Hfold).
  pose proof (Z.mod_pos_bound n 128) as Hlow.
  rewrite <- app_assoc. destruct pre as [|c pre]; simpl.
  - simpl in Hfold. injection Hfold as Hfold. rewrite Z.mod_mod in Hfold by lia.
    destruct rest; simpl; rewrite land_128 by lia;
      rewrite (proj2 (Z.ltb_lt _ _)) by lia;
      rewrite land_127, Z.mod_mod by lia; by rewrite Hfold.
  - apply Forall_cons in Hhi as [Hc Hhi].
    change (foldl acc_ideal (Some (c mod 128)) (pre ++ [n mod 128]) = Some n)
      in Hfold. rewrite foldl_acc_ideal in Hfold.
    injection Hfold as Hfold. rewrite land_127.
    pose proof (Z.mod_pos_bound c 128).
    rewrite leb64_loop_hi; [|done|done|lia|lia|lia].
    rewrite Hfold, length_app. simpl. do 2 f_equal; lia.
Qed.

Lemma is_bytes_leb64_encode n : u64 n → is_bytes (leb64_encode n).
Proof.
  intros Hn. destruct (leb64_encode_shape n Hn) as (pre & -> & Hhi & _ & _).
  pose proof (Z.mod_pos_bound n 128).
  apply Forall_app. split; [|repeat constructor; lia].
  eapply Forall_impl; [done|]. simpl. lia.
Qed.

End Leb.

(** ** gix-pack: entry headers *)

Module Entry.

(** The type ids of [entry/mod.rs]. *)
Definition COMMIT : Z := 1.
Definition TREE : Z := 2.
Definition BLOB : Z := 3.
Definition TAG : Z := 4.
Definition OFS_DELTA : Z := 6.
Definition REF_DELTA : Z := 7.

Inductive Header :=
| Commit | Tree | Blob | Tag
| RefDelta (base_id : ObjectId)
| OfsDelta (base_distance : Z).
#[global] Instance Header_eq_dec : EqDecision Header.
Proof. solve_decision. Defined.

(** [gix_object::Kind]. *)
Inductive Kind := KTree | KBlob | KCommit | KTag.

Record Entry := mkEntry {
  header : Header;
  decompressed_size : Z;
  data_offset : Z }.

(** [decode::Error]. *)
Inductive Error := Unsupported (type_id : Z).

Definition verified_base_pack_offset (pack_offset distance : Z) : option Z :=
  if distance =? 0 then None
  else if distance <=? pack_offset then Some (pack_offset - distance) else None.

Definition as_kind (h : Header) : option Kind :=
  match h with
  | Tree => Some KTree
  | Blob => Some KBlob
  | Commit => Some KCommit
  | Tag => Some KTag
  | RefDelta _ | OfsDelta _ => None
  end.

Definition as_type_id (h : Header) : Z :=
  match h with
  | Blob => BLOB
  | Tree => TREE
  | Commit => COMMIT
  | Tag => TAG
  | OfsDelta _ => OFS_DELTA
  | RefDelta _ => REF_DELTA
  end.

Definition is_delta (h : Header) : bool :=
  match h with OfsDelta _ | RefDelta _ => true | _ => false end.
Definition is_base (h : Header) : bool := negb (is_delta h).

(** *** Encoding *)

(** The [while size != 0] loop of [Header::write_to] and the write of the last
    byte: the bytes written, [None] when the fuel runs out. *)
Fixpoint write_size (fuel : nat) (size c : Z) : option bytes :=
  match fuel with
  | O => None
  | S fuel =>
      if size =? 0 then Some [c]
      else (Z.lor c 128 ::.) <$>
             write_size fuel (Z.shiftr size 7) (Z.land (wrap 8 size) 127)
  end.

(** [u64] has at most nine groups of seven bits above the lowest four bits,
    and the loop needs one more round to stop. *)
Definition SIZE_FUEL : nat := 10.

(** [Header::write_to]: what is appended to [out] and the returned count. *)
Definition write_to (h : Header) (decompressed_size_in_bytes : Z)
  : option (bytes * nat) :=
  let size := decompressed_size_in_bytes in
  let c := Z.lor (wrap 8 (Z.shiftl (as_type_id h) 4)) (Z.land (wrap 8 size) 15) in
  size_bytes ← write_size SIZE_FUEL (Z.shiftr size 4) c;
  let written := length size_bytes in
  match h with
  | RefDelta oid =>
      Some (size_bytes ++ as_slice oid, written + length (as_slice oid))%nat
  | OfsDelta base_distance =>
      let buf := Leb.leb64_encode base_distance in
      Some (size_bytes ++ buf, written + length buf)%nat
  | Blob | Tree | Commit | Tag => Some (size_bytes, written)
  end.

(** [Header::size]: encode into [io::sink()] and return the count. *)
Definition size (h : Header) (decompressed_size : Z) : option nat :=
  snd <$> write_to h decompressed_size.

(** *** Decoding *)

(** The loop of [parse_header_info]; [d] is what is left of the slice. *)
Fixpoint parse_size (c size s : Z) (i : nat) (d : bytes)
  : res Empty_set (Z * nat) :=
  if Z.land c 128 =? 0 then Ok (size, i) else
  match d with
  | [] => Panic
  | c :: d =>
      let size := wrap 64 (size + wrap 64 (Z.shiftl (Z.land c 127) (s mod 64))) in
      parse_size c size (s + 7) (S i) d
  end.

Definition parse_header_info (data : bytes) : res Empty_set (Z * Z * nat) :=
  match data with
  | [] => Panic
  | c :: d =>
      let type_id := Z.land (Z.shiftr c 4) 7 in
      '(size, i) ← parse_size c (Z.land c 15) 4 1 d;
      Ok (type_id, size, i)
  end.

(** [Entry::from_bytes]. *)
Definition from_bytes (d : bytes) (pack_offset : Z) (hash_len : nat)
  : res Error Entry :=
  '(type_id, size, consumed) ← lift (parse_header_info d);
  '(object, consumed) ←
    (if type_id =? OFS_DELTA then
       rest ← slice_from d consumed;
       '(distance, leb_bytes) ← lift (Leb.leb64 rest);
       Ok (OfsDelta distance, consumed + leb_bytes)%nat
     else if type_id =? REF_DELTA then
       rest ← slice_from d consumed;
       raw ← slice_to rest hash_len;
       base_id ← from_bytes_or_panic raw;
       Ok (RefDelta base_id, consumed + hash_len)%nat
     else if type_id =? BLOB then Ok (Blob, consumed)
     else if type_id =? TREE then Ok (Tree, consumed)
     else if type_id =? COMMIT then Ok (Commit, consumed)
     else if type_id =? TAG then Ok (Tag, consumed)
     else Err (Unsupported type_id));
  Ok (mkEntry object size (wrap 64 (pack_offset + Z.of_nat consumed))).

(** The loop of [streaming_parse_header_info]: also returns the reader. *)
Fixpoint streaming_parse_size (c size s : Z) (i : nat) (r : bytes)
  : res io_error (Z * nat * bytes) :=
  if Z.land c 128 =? 0 then Ok (size, i, r) else
  match r with
  | [] => Err UnexpectedEof
  | c :: r =>
      let size := wrap 64 (size + wrap 64 (Z.shiftl (Z.land c 127) (s mod 64))) in
      streaming_parse_size c size (s + 7) (S i) r
  end.

Definition streaming_parse_header_info (r : bytes)
  : res io_error (Z * Z * nat * bytes) :=
  match r with
  | [] => Err UnexpectedEof
  | c :: r =>
      let type_id := Z.land (Z.shiftr c 4) 7 in
      '(size, i, r) ← streaming_parse_size c (Z.land c 15) 4 1 r;
      Ok (type_id, size, i, r)
  end.

(** [Entry::from_read]; [gix_hash::Kind::buf()] is a buffer of 20 bytes. *)
Definition from_read (r : bytes) (pack_offset : Z) (hash_len : nat)
  : res io_error (Entry * bytes) :=
  '(type_id, size, consumed, r) ← streaming_parse_header_info r;
  '(object, consumed, r) ←
    (if type_id =? OFS_DELTA then
       '(distance, leb_bytes, r) ← Leb.leb64_from_read r;
       Ok (OfsDelta distance, (consumed + leb_bytes)%nat, r)
     else if type_id =? REF_DELTA then
       hash ← slice_to (replicate 20 0) hash_len;
       '(hash, r) ← read_exact (length hash) r;
       base_id ← from_bytes_or_panic hash;
       Ok (RefDelta base_id, (consumed + hash_len)%nat, r)
     else if type_id =? BLOB then Ok (Blob, consumed, r)
     else if type_id =? TREE then Ok (Tree, consumed, r)
     else if type_id =? COMMIT then Ok (Commit, consumed, r)
     else if type_id =? TAG then Ok (Tag, consumed, r)
     else Err (Other type_id));
  Ok (mkEntry object size (wrap 64 (pack_offset + Z.of_nat consumed)), r).

(** *** Access *)

Definition header_size (e : Entry) : option nat :=
  size (header e) (decompressed_size e).
Definition pack_offset (e : Entry) : option Z :=
  n ← header_size e; Some (wrap 64 (data_offset e - Z.of_nat n)).
(** [checked_sub(..).expect(..)]: [Panic] when the distance reaches in front
    of the pack. *)
Definition base_pack_offset (e : Entry) (distance : Z) : res Empty_set Z :=
  match pack_offset e with
  | Some ofs => if distance <=? ofs then Ok (ofs - distance) else Panic
  | None => Panic
  end.

(** *** Lemmas *)

(** The values the fields can hold: a digest of 20 bytes, a [u64]. *)
Definition wf_header (h : Header) : Prop :=
  match h with
  | RefDelta id => wf_id id
  | OfsDelta d => u64 d
  | _ => True
  end.

Definition cont (size : Z) : Z := if size =? 0 then 0 else 128.

(** Writing the remaining size and reading it back. *)
Lemma write_size_parse fuel size c :
  0 ≤ size < 128 ^ (Z.of_nat fuel - 1) → (0 < fuel)%nat → 0 ≤ c < 128 →
  ∃ tl, write_size fuel size c = Some ((c + cont size) :: tl) ∧ is_bytes tl ∧
    ∀ rest acc s i, 0 ≤ acc → 0 ≤ s → acc + size * 2 ^ s < 2 ^ 64 →
      parse_size (c + cont size) acc s i (tl ++ rest) =
        Ok (acc + size * 2 ^ s, (i + length tl)%nat).
Proof.
  revert size c. induction fuel as [|fuel IH]; intros size c Hsize Hf Hc; [lia|].
  cbn [write_size]. unfold cont. destruct (Z.eqb_spec size 0) as [->|Hnz].
  { exists []. rewrite Z.add_0_r. split_and!; [done|constructor|].
    intros rest acc s i Hacc Hs Hlt. rewrite Z.mul_0_l, Z.add_0_r, Nat.add_0_r.
    destruct rest; simpl; rewrite land_128 by lia;
      by rewrite (proj2 (Z.ltb_lt _ _)) by lia. }
  rewrite Leb.low_byte, Z.shiftr_div_pow2 by lia. change (2 ^ 7) with 128.
  pose proof (Z.mod_pos_bound size 128) as Hm.
  pose proof (Z.div_mod size 128) as Hdm.
  rewrite Nat2Z.inj_succ, Z.sub_1_r, Z.pred_succ in Hsize.
  destruct fuel as [|fuel]; [simpl in Hsize; lia|].
  destruct (IH (size / 128) (size mod 128)) as (tl & Hw & Hb & Hp); [|lia|lia|].
  { split; [apply Z.div_pos; lia|]. apply Z.div_lt_upper_bound; [lia|].
    rewrite Nat2Z.inj_succ in *.
    replace (Z.succ (Z.of_nat fuel) - 1) with (Z.of_nat fuel) by lia.
    rewrite Z.pow_succ_r in Hsize by lia. lia. }
  exists ((size mod 128 + cont (size / 128)) :: tl).
  rewrite Hw. rewrite lor_128 by lia.
  assert (Hc' : u8 (size mod 128 + cont (size / 128)))
    by (unfold cont; destruct (size / 128 =? 0); lia).
  split_and!; [done|by constructor|]. intros rest acc s i Hacc Hs Hlt.
  cbn [app parse_size]. rewrite land_128 by lia.
  rewrite (proj2 (Z.ltb_ge _ _)) by lia.
  assert (Hs64 : s < 64).
  { apply Z.nle_gt. intros ?.
    pose proof (Z.pow_le_mono_r 2 64 s). nia. }
  assert (Hlow : Z.land (size mod 128 + cont (size / 128)) 127 = size mod 128).
  { rewrite land_127. unfold cont. destruct (size / 128 =? 0).
    - rewrite Z.add_0_r. apply Z.mod_mod. lia.
    - rewrite <- (Z.mul_1_l 128) at 2. rewrite Z.mod_add, Z.mod_mod; lia. }
  rewrite Hlow, (Z.mod_small s 64) by lia.
  pose proof (Z.pow_pos_nonneg 2 s) as Hpow.
  rewrite Z.shiftl_mul_pow2 by lia.
  assert (H7 : 2 ^ (s + 7) = 128 * 2 ^ s) by (rewrite Z.pow_add_r by lia; lia).
  assert (Hsplit : size * 2 ^ s =
    size / 128 * 2 ^ (s + 7) + size mod 128 * 2 ^ s) by (rewrite H7; nia).
  assert (0 ≤ size / 128 * 2 ^ (s + 7))
    by (apply Z.mul_nonneg_nonneg; [apply Z.div_pos|]; lia).
  assert (0 ≤ size mod 128 * 2 ^ s) by (apply Z.mul_nonneg_nonneg; lia).
  rewrite (wrap_small 64 (size mod 128 * 2 ^ s)) by lia.
  rewrite (wrap_small 64 (acc + _)) by lia.
  rewrite Hp by lia. simpl. do 2 f_equal; lia.
Qed.

Lemma write_size_length fuel size c out :
  write_size fuel size c = Some out → (length out ≤ fuel)%nat.
Proof.
  revert size c out. induction fuel as [|fuel IH]; intros size c out; simpl; [done|].
  destruct (size =? 0); [intros [= <-]; simpl; lia|].
  intros (out' & H%IH & ->)%fmap_Some. simpl. lia.
Qed.

Lemma parse_size_count c size s i d n k :
  parse_size c size s i d = Ok (n, k) → (i ≤ k ≤ i + length d)%nat.
Proof.
  revert c size s i. induction d as [|c' d IH]; intros c size s i; simpl;
    destruct (Z.land c 128 =? 0).
  - intros [= _ <-]. lia.
  - done.
  - intros [= _ <-]. lia.
  - intros ?%IH. lia.
Qed.

(** The streaming header parser agrees with the slice parser. *)
Lemma streaming_parse_size_spec c size s i d :
  streaming_parse_size c size s i d =
  match parse_size c size s i d with
  | Ok (n, k) => Ok (n, k, drop (k - i) d)
  | Err e => match e with end
  | Panic => Err UnexpectedEof
  end ∧ ∀ n k, parse_size c size s i d = Ok (n, k) → (i ≤ k)%nat.
Proof.
  revert c size s i. induction d as [|c' d IH]; intros c size s i; simpl.
  { destruct (Z.land c 128 =? 0); simpl; [|done].
    rewrite Nat.sub_diag. split; [done|]. intros ? ? [= _ <-]. lia. }
  destruct (Z.land c 128 =? 0); simpl.
  { rewrite Nat.sub_diag. split; [done|]. intros ? ? [= _ <-]. lia. }
  destruct (IH c' (wrap 64 (size + wrap 64 (Z.shiftl (Z.land c' 127) (s mod 64))))
    (s + 7) (S i)) as [-> Hk].
  destruct (parse_size c' _ _ _ d) as [[n k]|[]|] eqn:E.
  - specialize (Hk n k eq_refl). split.
    + by replace (k - i)%nat with (S (k - S i)) by lia.
    + intros ? ? [= _ <-]. lia.
  - split; [done|]. done.
Qed.

Lemma type_nibble h n :
  0 ≤ n →
  Z.lor (wrap 8 (Z.shiftl (as_type_id h) 4)) (Z.land (wrap 8 n) 15) =
    as_type_id h * 16 + n mod 16.
Proof.
  intros. rewrite land_15.
  assert (Hn : wrap 8 n mod 16 = n mod 16).
  { unfold wrap. change (2 ^ 8) with (16 * 16). rewrite Z.rem_mul_r by lia.
    rewrite Z.mul_comm, Z.mod_add, Z.mod_mod by lia. done. }
  rewrite Hn. pose proof (Z.mod_pos_bound n 16) as Hb. revert Hb.
  generalize (n mod 16). intros m Hm.
  assert (Hu : u8 m) by lia.
  enough (negb (m <? 16) || (Z.lor (wrap 8 (Z.shiftl (as_type_id h) 4)) m =?
            as_type_id h * 16 + m) = true) as He.
  { rewrite (proj2 (Z.ltb_lt _ _)) in He by lia. by apply Z.eqb_eq. }
  destruct h; unfold as_type_id; byte_enum m Hu.
Qed.

Lemma first_byte_fields h n k :
  0 ≤ n → k = 0 ∨ k = 128 →
  let c := as_type_id h * 16 + n mod 16 + k in
  u8 c ∧ Z.land (Z.shiftr c 4) 7 = as_type_id h ∧ Z.land c 15 = n mod 16.
Proof.
  intros Hn Hk c. pose proof (Z.mod_pos_bound n 16).
  assert (Ht : 0 < as_type_id h < 8) by (destruct h; vm_compute; done).
  rewrite land_7, land_15, Z.shiftr_div_pow2 by lia. change (2 ^ 4) with 16.
  assert (Hd : c / 16 = as_type_id h + k / 16).
  { subst c. symmetry. apply (Z.div_unique _ _ _ (n mod 16)); [lia|].
    destruct Hk as [-> | ->]; [change (0 / 16) with 0|change (128 / 16) with 8]; lia. }
  split; [lia|]. split.
  - rewrite Hd. destruct Hk as [-> | ->].
    + change (0 / 16) with 0. rewrite Z.add_0_r. apply Z.mod_small. lia.
    + change (128 / 16) with (1 * 8). rewrite Z.mod_add by lia. apply Z.mod_small. lia.
  - subst c. symmetry. apply (Z.mod_unique _ _ (as_type_id h + k / 16)); [lia|].
    destruct Hk as [-> | ->]; [change (0 / 16) with 0|change (128 / 16) with 8]; lia.
Qed.

(** What [write_to] writes in front of the base information, and that
    [parse_header_info] reads it back. *)
Lemma write_to_shape h n :
  u64 n →
  ∃ c tl, write_size SIZE_FUEL (Z.shiftr n 4)
      (Z.lor (wrap 8 (Z.shiftl (as_type_id h) 4)) (Z.land (wrap 8 n) 15)) =
        Some (c :: tl) ∧ is_bytes (c :: tl) ∧
    ∀ rest, parse_header_info (c :: tl ++ rest) =
      Ok (as_type_id h, n, S (length tl)).
Proof.
  intros Hn. rewrite type_nibble, Z.shiftr_div_pow2 by lia.
  change (2 ^ 4) with 16. pose proof (Z.mod_pos_bound n 16).
  assert (Ht : 0 < as_type_id h < 8) by (destruct h; vm_compute; done).
  pose proof (Z.div_mod n 16).
  destruct (write_size_parse SIZE_FUEL (n / 16) (as_type_id h * 16 + n mod 16))
    as (tl & Hw & Hb & Hp); [|unfold SIZE_FUEL; lia|lia|].
  { split; [apply Z.div_pos; lia|]. apply Z.div_lt_upper_bound; [lia|].
    eapply Z.lt_le_trans; [apply Hn|]. vm_compute. discriminate. }
  destruct (first_byte_fields h n (cont (n / 16))) as (Hu & Htid & Hlow);
    [lia|unfold cont; destruct (n / 16 =? 0); auto|].
  eexists _, tl. split_and!; [exact Hw|by constructor|].
  intros rest. unfold parse_header_info. rewrite Htid, Hlow.
  rewrite Hp; [|lia|lia|change (2 ^ 4) with 16; lia].
  change (2 ^ 4) with 16. simpl.
  by replace (n mod 16 + n / 16 * 16) with n by lia.
Qed.

End Entry.

(** ** Properties *)

Section Properties.
Import Entry.
#[local] Arguments parse_header_info : simpl never.
#[local] Arguments Leb.leb64 : simpl never.

(** The object header written for [h] is recognised by the type dispatch of
    [from_bytes], which then reads the base information of [h]. *)
Lemma from_bytes_encoded h n ofs rest out len :
  wf_header h → u64 n → write_to h n = Some (out, len) →
  len = length out ∧
  from_bytes (out ++ rest) ofs 20 =
    Ok (mkEntry h n (wrap 64 (ofs + Z.of_nat (length out)))).
Proof.
  intros Hwf Hn. unfold write_to, from_bytes.
  destruct (write_to_shape h n Hn) as (c & tl & -> & _ & Hp). simpl.
  destruct h as [| | | |id|dist]; intros [= <- <-]; simpl;
    rewrite ?Hp; simpl; try (split; reflexivity).
  - split; [rewrite length_app; simpl; lia|].
    rewrite <- app_assoc, Hp. simpl.
    change (c :: tl ++ as_slice id ++ rest) with ((c :: tl) ++ as_slice id ++ rest).
    change (S (length tl)) with (length (c :: tl)). rewrite slice_from_app. simpl.
    destruct Hwf as [Hlen _]. rewrite slice_to_app by done. simpl.
    unfold from_bytes_or_panic. rewrite Hlen. simpl.
    destruct id. simpl in *. rewrite length_app, Hlen. done.
  - split; [rewrite length_app; simpl; lia|].
    rewrite <- app_assoc, Hp. simpl.
    change (c :: tl ++ Leb.leb64_encode dist ++ rest)
      with ((c :: tl) ++ Leb.leb64_encode dist ++ rest).
    change (S (length tl)) with (length (c :: tl)). rewrite slice_from_app. simpl.
    rewrite Leb.leb64_decode_encode by done. simpl. rewrite length_app. done.
Qed.

(** Ten size bytes at most, followed by ten bytes of distance or a digest. *)
Lemma write_to_length h n out len :
  wf_header h → u64 n → write_to h n = Some (out, len) →
  (length out ≤ 30)%nat.
Proof.
  intros Hwf Hn. unfold write_to.
  destruct (write_size SIZE_FUEL _ _) as [szb|] eqn:E; simpl; [|done].
  apply write_size_length in E.
  destruct h as [| | | |id|dist]; intros [= <- _]; rewrite ?length_app;
    unfold SIZE_FUEL in *; try lia.
  - destruct Hwf as [-> _]. lia.
  - destruct (Leb.leb64_encode_shape dist Hwf) as (pre & -> & _ & ? & _).
    rewrite length_app. simpl. lia.
Qed.

Lemma write_to_total h n : u64 n → is_Some (write_to h n).
Proof.
  intros Hn. unfold write_to.
  destruct (write_to_shape h n Hn) as (c & tl & -> & _ & _).
  destruct h; simpl; eauto.
Qed.

Lemma leb64_from_read_spec d :
  Leb.leb64_from_read d =
  match Leb.leb64 d with
  | Ok (v, k) => Ok (v, k, drop k d)
  | Err e => match e with end
  | Panic => Err UnexpectedEof
  end.
Proof.
  destruct d as [|c d]; [done|]. unfold Leb.leb64_from_read, Leb.leb64.
  rewrite Leb.leb64_from_read_loop_spec.
  destruct (Leb.leb64_loop _ _ _ _) as [[v k]|[]|] eqn:E; [|done].
  apply Leb.leb64_loop_count in E. destruct k as [|k]; [lia|].
  simpl. by rewrite Nat.sub_0_r.
Qed.

(** Pack entry headers round-trip.  Every header that the type can hold,
    with every [u64] size, is encoded completely by [Header::write_to] (which
    returns the number of bytes it wrote), and [Entry::from_bytes] on these
    bytes, followed by anything, yields the same header and size; the data
    offset points right behind the header, and [Entry::pack_offset] gets back
    to where the entry started. *)
Theorem entry_header_roundtrip h n ofs rest :
  wf_header h → u64 n → 0 ≤ ofs → ofs < 2 ^ 63 →
  ∃ out, write_to h n = Some (out, length out) ∧
    from_bytes (out ++ rest) ofs 20 =
      Ok (mkEntry h n (ofs + Z.of_nat (length out))) ∧
    pack_offset (mkEntry h n (ofs + Z.of_nat (length out))) = Some ofs.
Proof.
  intros Hwf Hn Hofs Hlt. destruct (write_to_total h n Hn) as [[out len] Hw].
  destruct (from_bytes_encoded h n ofs rest out len Hwf Hn Hw) as [-> Hd].
  pose proof (write_to_length h n out _ Hwf Hn Hw).
  rewrite wrap_small in Hd by lia. exists out. split_and!; [done|done|].
  unfold pack_offset, header_size, size. simpl. rewrite Hw. simpl. f_equal.
  replace (ofs + Z.of_nat (length out) - Z.of_nat (length out)) with ofs by lia.
  apply wrap_small. lia.
Qed.

Lemma entry_header_roundtrip_witness :
  ∃ out, write_to (OfsDelta 300) 1000 = Some (out, length out) ∧
    from_bytes (out ++ [7]) 12 20 =
      Ok (mkEntry (OfsDelta 300) 1000 (12 + Z.of_nat (length out))) ∧
    pack_offset (mkEntry (OfsDelta 300) 1000 (12 + Z.of_nat (length out))) = Some 12.
Proof. apply (entry_header_roundtrip (OfsDelta 300) 1000 12 [7]); simpl; lia. Defined.

(** The offset encoding of delta bases is lossless over all of [u64]: the
    encoder needs at most the ten bytes of its buffer, leaves [n = 0] behind
    (its debug assertion), and the decoder returns the number and the length
    of its encoding whatever follows. *)
Theorem leb64_roundtrip n rest :
  u64 n →
  (Leb.leb64_encode_loop 9 n [Z.land (wrap 8 n) 127]).1 = 0 ∧
  (1 ≤ length (Leb.leb64_encode n) ≤ 10)%nat ∧
  is_bytes (Leb.leb64_encode n) ∧
  Leb.leb64 (Leb.leb64_encode n ++ rest) = Ok (n, length (Leb.leb64_encode n)).
Proof.
  intros Hn. split_and!.
  - edestruct Leb.leb64_encode_loop_spec as (pre & -> & _); [|done].
    split; [lia|]. eapply Z.lt_le_trans; [apply Hn|]. vm_compute. discriminate.
  - destruct (Leb.leb64_encode_shape n Hn) as (pre & -> & _ & ? & _). len.
  - destruct (Leb.leb64_encode_shape n Hn) as (pre & -> & _ & ? & _). len.
  - by apply Leb.is_bytes_leb64_encode.
  - by apply Leb.leb64_decode_encode.
Qed.

Lemma leb64_roundtrip_witness :
  Leb.leb64 (Leb.leb64_encode (2 ^ 64 - 1) ++ [1; 2]) = Ok (2 ^ 64 - 1, 10%nat).
Proof. apply (leb64_roundtrip (2 ^ 64 - 1) [1; 2]). lia. Defined.

(** The streaming entry decoder is the slice decoder.  On every input and
    offset, [Entry::from_read] returns what [Entry::from_bytes] returns and
    leaves the reader right behind the header; where the slice version would
    panic for lack of input, the streaming one reports the end of the file,
    and an unsupported type id is an error in both. *)
Theorem from_read_refines_from_bytes d ofs :
  match from_bytes d ofs 20 with
  | Ok e => ∃ consumed, from_read d ofs 20 = Ok (e, drop consumed d) ∧
      data_offset e = wrap 64 (ofs + Z.of_nat consumed)
  | Err (Unsupported t) => from_read d ofs 20 = Err (Other t)
  | Panic => from_read d ofs 20 = Err UnexpectedEof
  end.
Proof.
  unfold from_bytes, from_read. destruct d as [|c d]; [done|].
  cbn [parse_header_info streaming_parse_header_info].
  destruct (streaming_parse_size_spec c (Z.land c 15) 4 1 d) as [-> Hk].
  unfold parse_header_info.
  destruct (parse_size c (Z.land c 15) 4 1 d) as [[n k]|[]|] eqn:E; [|done].
  specialize (Hk n k eq_refl). pose proof (parse_size_count _ _ _ _ _ _ _ E).
  assert (Hs : ∀ X, @slice_from X Z (c :: d) k = Ok (drop (k - 1) d)).
  { intros X. unfold slice_from, get_from.
    rewrite (proj2 (Nat.leb_le _ _)) by (simpl; lia). simpl.
    by replace k with (S (k - 1)) at 1 by lia. }
  assert (Hd : ∀ j, drop j (drop (k - 1) d) = drop (k + j) (c :: d)).
  { intros j. rewrite drop_drop. replace (k + j)%nat with (S (k - 1 + j)) by lia. done. }
  assert (Hd0 : drop (k - 1) d = drop k (c :: d)).
  { rewrite <- (drop_0 (drop (k - 1) d)), Hd. by rewrite Nat.add_0_r. }
  cbn [mbind res_bind lift]. rewrite Hd0.
  generalize (Z.land (Z.shiftr c 4) 7). intros t.
  destruct (t =? OFS_DELTA).
  { rewrite Hs, Hd0. cbn [mbind res_bind]. rewrite leb64_from_read_spec.
    destruct (Leb.leb64 (drop k (c :: d))) as [[v j]|[]|]; [|done].
    cbn [mbind res_bind lift]. exists (k + j)%nat. by rewrite drop_drop. }
  destruct (t =? REF_DELTA).
  { rewrite Hs, Hd0. cbn [mbind res_bind]. unfold slice_to, get_to, read_exact.
    rewrite length_replicate. simpl (20 <=? 20)%nat. cbn [expect mbind res_bind].
    rewrite length_take, length_replicate. simpl (20 `min` 20)%nat.
    destruct (Nat.leb_spec 20 (length (drop k (c :: d)))); [|done].
    cbn [expect mbind res_bind]. unfold from_bytes_or_panic.
    rewrite length_take. replace (20 `min` _)%nat with 20%nat by lia.
    cbn [Nat.eqb mbind res_bind]. exists (k + 20)%nat. by rewrite drop_drop. }
  destruct (t =? BLOB); [by exists k|]. destruct (t =? TREE); [by exists k|].
  destruct (t =? COMMIT); [by exists k|]. destruct (t =? TAG); [by exists k|done].
Qed.

End Properties.
