(* ===== verification/PackDelta.v ===== *)
(** * Pack deltas

    Models [gix-pack/src/data/delta.rs]: the size header of a delta object and
    the application of its copy and insert instructions to a base object. *)

From S2P Require Import Prelude.

(** ** The code *)

(** [decode_header_size]; [i] is the shift, masked to six bits by the release
    profile's [<<]. *)
Fixpoint decode_header_size_loop (i size : Z) (consumed : nat) (d : bytes)
  : Z * nat :=
  match d with
  | [] => (size, consumed)
  | cmd :: d =>
      let consumed := S consumed in
      let size := Z.lor size (wrap 64 (Z.shiftl (Z.land cmd 127) (i mod 64))) in
      let i := i + 7 in
      if Z.land cmd 128 =? 0 then (size, consumed)
      else decode_header_size_loop i size consumed d
  end.
Definition decode_header_size (d : bytes) : Z * nat :=
  decode_header_size_loop 0 0 0 d.

(** One optional operand byte of a copy instruction: read and placed at
    [shift] when [bit] of [cmd] is set. *)
Definition operand (cmd bit shift : Z) (acc : Z) (data : bytes)
  : res Empty_set (Z * bytes) :=
  if Z.land cmd bit =? 0 then Ok (acc, data)
  else match data with
       | [] => Panic
       | b :: data => Ok (Z.lor acc (wrap 32 (Z.shiftl b shift)), data)
       end.

(** The operands of a copy instruction: offset, size and the rest of the
    instruction stream. *)
Definition copy_operands (cmd : Z) (data : bytes)
  : res Empty_set (Z * Z * bytes) :=
  '(ofs, data) ← operand cmd 1 0 0 data;
  '(ofs, data) ← operand cmd 2 8 ofs data;
  '(ofs, data) ← operand cmd 4 16 ofs data;
  '(ofs, data) ← operand cmd 8 24 ofs data;
  '(size, data) ← operand cmd 16 0 0 data;
  '(size, data) ← operand cmd 32 8 size data;
  '(size, data) ← operand cmd 64 16 size data;
  let size := if size =? 0 then 65536 else size in
  Ok (ofs, size, data).

(** [std::io::Write::write] for [&mut [u8]]: copies as much as fits and moves
    the slice forward.  [out] is what has been written, [room] the length of
    the slice that is left; the short count is ignored by [apply]. *)
Definition write (src : bytes) (out : bytes) (room : nat) : bytes * nat :=
  let n := (length src `min` room)%nat in
  (out ++ take n src, room - n)%nat.

(** The instruction loop of [apply].  Every round consumes at least the
    command byte, so the length of [data] bounds the number of rounds. *)
Fixpoint apply_loop (fuel : nat) (base data out : bytes) (room : nat)
  : res Empty_set (bytes * nat) :=
  match data with
  | [] => Ok (out, room)
  | cmd :: data =>
      match fuel with
      | O => Panic
      | S fuel =>
          if negb (Z.land cmd 128 =? 0) then
            '(ofs, size, data) ← copy_operands cmd data;
            src ← slice base (Z.to_nat ofs) (Z.to_nat ofs + Z.to_nat size);
            let '(out, room) := write src out room in
            apply_loop fuel base data out room
          else if cmd =? 0 then Panic
          else
            src ← slice data 0 (Z.to_nat cmd);
            let '(out, room) := write src out room in
            data ← slice_from data (Z.to_nat cmd);
            apply_loop fuel base data out room
      end
  end.

(** [apply]: the content of [target], a slice of [target_len] bytes, after the
    call; the final [assert_eq!(target.len(), 0)] panics when it is not
    filled.  ([assert_eq!(i, data.len())] holds whenever the loop ends.) *)
Definition apply (base : bytes) (target_len : nat) (data : bytes)
  : res Empty_set bytes :=
  '(out, room) ← apply_loop (length data) base data [] target_len;
  _ ← assert_ (room =? 0)%nat;
  Ok out.

(** ** Specification

    A delta is a list of instructions; applying it concatenates ranges of the
    base with literal bytes. *)

Inductive instr :=
| Copy (ofs size : Z)
| Insert (lit : bytes).

Definition denote1 (base : bytes) (i : instr) : option bytes :=
  match i with
  | Copy ofs size =>
      get_range base (Z.to_nat ofs) (Z.to_nat ofs + Z.to_nat size)
  | Insert lit => Some lit
  end.
Fixpoint denote (base : bytes) (il : list instr) : option bytes :=
  match il with
  | [] => Some []
  | i :: il => x ← denote1 base i; y ← denote base il; Some (x ++ y)
  end.

(** The operands of the instruction set: offsets of 32 bits, copies of 1 to
    2^24-1 bytes, insertions of 1 to 127 bytes. *)
Definition wf_instr (i : instr) : Prop :=
  match i with
  | Copy ofs size => u32 ofs ∧ 0 < size < 2 ^ 24
  | Insert lit => (0 < length lit < 128)%nat
  end.

(** The canonical encoding of an instruction: all seven operand bytes of a
    copy are present. *)
Definition byte_at (z k : Z) : Z := z / 2 ^ k mod 256.
Definition encode1 (i : instr) : bytes :=
  match i with
  | Copy ofs size =>
      [255; byte_at ofs 0; byte_at ofs 8; byte_at ofs 16; byte_at ofs 24;
       byte_at size 0; byte_at size 8; byte_at size 16]
  | Insert lit => Z.of_nat (length lit) :: lit
  end.
Definition encode (il : list instr) : bytes := concat (encode1 <$> il).

(** The operands of a copy as the pack format has them: a byte follows for
    each of the bits of the command that is set, an absent byte is zero. *)
Inductive operand_bytes (cmd : Z) : list Z → bytes → bytes → bytes → Prop :=
| operand_end data : operand_bytes cmd [] data [] data
| operand_present k ks b data vs rest :
    Z.testbit cmd k = true → operand_bytes cmd ks data vs rest →
    operand_bytes cmd (k :: ks) (b :: data) (b :: vs) rest
| operand_absent k ks data vs rest :
    Z.testbit cmd k = false → operand_bytes cmd ks data vs rest →
    operand_bytes cmd (k :: ks) data (0 :: vs) rest.
(** Four bytes of offset and three bytes of size, little-endian; the size 0
    means 65536. *)
Definition copies (cmd : Z) (data : bytes) (ofs size : Z) (rest : bytes) : Prop :=
  ∃ o0 o1 o2 o3 s0 s1 s2,
    operand_bytes cmd [0; 1; 2; 3; 4; 5; 6] data [o0; o1; o2; o3; s0; s1; s2] rest ∧
    ofs = o0 + 256 * o1 + 65536 * o2 + 16777216 * o3 ∧
    (size = 65536 ∧ s0 = 0 ∧ s1 = 0 ∧ s2 = 0 ∨
     size = s0 + 256 * s1 + 65536 * s2 ∧ 0 < size).

(** Reading the instruction stream without executing it. *)
Inductive parses : bytes → list instr → Prop :=
| parses_nil : parses [] []
| parses_copy cmd data ofs size data' il :
    128 ≤ cmd → copies cmd data ofs size data' →
    parses data' il → parses (cmd :: data) (Copy ofs size :: il)
| parses_insert cmd lit data il :
    0 < cmd < 128 → Z.of_nat (length lit) = cmd →
    parses data il → parses (cmd :: lit ++ data) (Insert lit :: il).

(** ** Lemmas *)

Lemma land_bit cmd k : 0 ≤ k → (Z.land cmd (2 ^ k) =? 0) = negb (Z.testbit cmd k).
Proof.
  intros Hk. assert (H : Z.testbit (Z.land cmd (2 ^ k)) k = Z.testbit cmd k).
  { by rewrite Z.land_spec, Z.pow2_bits_true, andb_true_r by lia. }
  destruct (Z.testbit cmd k) eqn:E; cbn.
  - apply Z.eqb_neq. intros H0. by rewrite H0, Z.bits_0 in H.
  - apply Z.eqb_eq, Z.bits_inj'. intros n Hn. rewrite Z.land_spec, Z.bits_0, Z.pow2_bits_eqb by lia.
    destruct (Z.eqb_spec k n) as [->|?]; [by rewrite E|apply andb_false_r].
Qed.

(** What one operand adds to the value read before. *)
Definition one_operand (cmd k b : Z) (data rest : bytes) : Prop :=
  (Z.testbit cmd k = true ∧ data = b :: rest) ∨ (Z.testbit cmd k = false ∧ b = 0 ∧ data = rest).

Lemma operand_bind {B} cmd k bit shift acc data (K : Z * bytes → res Empty_set B) r :
  bit = 2 ^ k → 0 ≤ k → 0 ≤ shift ≤ 24 → 0 ≤ acc < 2 ^ shift → is_bytes data →
  operand cmd bit shift acc data ≫= K = Ok r ↔
  ∃ b data', one_operand cmd k b data data' ∧ K (acc + b * 2 ^ shift, data') = Ok r.
Proof.
  intros -> Hk Hs Hacc Hd. unfold operand, one_operand. rewrite land_bit by done.
  destruct (Z.testbit cmd k); cbn [negb].
  - destruct data as [|b data]; [cbn; naive_solver|]. apply Forall_cons in Hd as [Hb _].
    assert (b * 2 ^ shift < 2 ^ 32).
    { apply Z.lt_le_trans with (2 ^ 8 * 2 ^ shift); [apply Z.mul_lt_mono_pos_r; lia|].
      rewrite <- Z.pow_add_r by lia. apply Z.pow_le_mono_r; lia. }
    rewrite Z.shiftl_mul_pow2 by lia. rewrite wrap_small by (split; [apply Z.mul_nonneg_nonneg|]; lia).
    rewrite lor_shifted by lia. rewrite bind_Ok. naive_solver.
  - rewrite bind_Ok. split.
    + intros H. exists 0, data. split; [by right|]. by rewrite Z.mul_0_l, Z.add_0_r.
    + intros (b & data' & [[[=] _]|(_ & -> & ->)] & H). by rewrite Z.mul_0_l, Z.add_0_r in H.
Qed.
Lemma one_operand_bytes cmd k b data rest :
  one_operand cmd k b data rest → is_bytes data → 0 ≤ b < 256 ∧ is_bytes rest ∧ (length rest ≤ length data)%nat.
Proof.
  intros [(_ & ->)|(_ & -> & ->)] Hd; [apply Forall_cons in Hd as [??]; cbn|]; split_and!; (done || lia).
Qed.
Lemma operand_bytes_cons cmd k ks data vs rest :
  operand_bytes cmd (k :: ks) data vs rest ↔
  ∃ b data' vs', vs = b :: vs' ∧ one_operand cmd k b data data' ∧ operand_bytes cmd ks data' vs' rest.
Proof.
  split.
  - intros H. inversion H; subst; do 3 eexists; (split; [done|]); (split; [|done]); [by left|by right].
  - intros (b & data' & vs' & -> & [(? & ->)|(? & -> & ->)] & ?); by constructor.
Qed.

Ltac take_operand H k b d Hb :=
  apply (operand_bind _ k) in H as (b & d & Hb & H); [|done|lia|lia|lia|done];
  destruct (one_operand_bytes _ _ _ _ _ Hb) as (? & ? & ?); [done|].
Ltac give_operand k b d Hb :=
  destruct (one_operand_bytes _ _ _ _ _ Hb) as (? & ? & ?); [done|];
  apply (operand_bind _ k); [done|lia|lia|lia|done|]; exists b, d; split; [exact Hb|].

(** The code reads the operands of the format. *)
Lemma copy_operands_ok cmd data ofs size rest :
  is_bytes data →
  copy_operands cmd data = Ok (ofs, size, rest) ↔ copies cmd data ofs size rest.
Proof.
  intros Hd. unfold copy_operands, copies. split.
  - intros H. take_operand H 0 o0 d0 Hp0. take_operand H 1 o1 d1 Hp1. take_operand H 2 o2 d2 Hp2.
    take_operand H 3 o3 d3 Hp3. take_operand H 4 s0 d4 Hp4. take_operand H 5 s1 d5 Hp5. take_operand H 6 s2 d6 Hp6.
    injection H as <- <- <-. exists o0, o1, o2, o3, s0, s1, s2. split_and!; [|lia|].
    + repeat (apply operand_bytes_cons; do 3 eexists; split_and!; [done|done|]). constructor.
    + destruct (Z.eqb_spec (0 + s0 * 2 ^ 0 + s1 * 2 ^ 8 + s2 * 2 ^ 16) 0); [left|right]; lia.
  - intros (o0 & o1 & o2 & o3 & s0 & s1 & s2 & H & -> & Hs).
    apply operand_bytes_cons in H as (? & d0 & ? & [= <- <-] & Hp0 & H). apply operand_bytes_cons in H as (? & d1 & ? & [= <- <-] & Hp1 & H).
    apply operand_bytes_cons in H as (? & d2 & ? & [= <- <-] & Hp2 & H). apply operand_bytes_cons in H as (? & d3 & ? & [= <- <-] & Hp3 & H).
    apply operand_bytes_cons in H as (? & d4 & ? & [= <- <-] & Hp4 & H). apply operand_bytes_cons in H as (? & d5 & ? & [= <- <-] & Hp5 & H).
    apply operand_bytes_cons in H as (? & d6 & ? & [= <- <-] & Hp6 & H). inversion H; subst.
    give_operand 0 o0 d0 Hp0. give_operand 1 o1 d1 Hp1. give_operand 2 o2 d2 Hp2. give_operand 3 o3 d3 Hp3.
    give_operand 4 s0 d4 Hp4. give_operand 5 s1 d5 Hp5. give_operand 6 s2 rest Hp6.
    destruct (Z.eqb_spec (0 + s0 * 2 ^ 0 + s1 * 2 ^ 8 + s2 * 2 ^ 16) 0); do 3 f_equal; lia.
Qed.
Lemma operand_bytes_rest cmd ks data vs rest :
  operand_bytes cmd ks data vs rest → is_bytes data → is_bytes rest ∧ (length rest ≤ length data)%nat.
Proof.
  induction 1 as [|k ks b data vs rest Hk H IH|k ks data vs rest Hk H IH]; intros Hd; [by split| |by apply IH].
  apply Forall_cons in Hd as [_ Hd]. destruct (IH Hd). cbn. split; [done|lia].
Qed.
Lemma copies_rest cmd data ofs size rest :
  copies cmd data ofs size rest → is_bytes data → is_bytes rest ∧ (length rest ≤ length data)%nat.
Proof. intros (o0 & o1 & o2 & o3 & s0 & s1 & s2 & H & _). by eapply operand_bytes_rest. Qed.

(** Writing [src] and then [r] is writing their concatenation. *)
Lemma write_app src r out room :
  let '(out', room') := write src out room in
  out' ++ take room' r = out ++ take room (src ++ r) ∧
  (room' - length r = room - length (src ++ r))%nat.
Proof.
  simpl. rewrite take_app, length_app, <- app_assoc. split; [|lia].
  f_equal. destruct (Nat.le_gt_cases (length src) room).
  - rewrite Nat.min_l by lia. rewrite (take_ge src (length src)), (take_ge src room) by lia.
    done.
  - rewrite Nat.min_r by lia.
    by replace (room - room)%nat with (room - length src)%nat by lia.
Qed.

(** What the rest of a run is to produce, given what is already written. *)
Definition runs (base data out : bytes) (room : nat) (res : bytes * nat) : Prop :=
  ∃ il r, parses data il ∧ denote base il = Some r ∧
    res = (out ++ take room r, (room - length r)%nat).

Lemma runs_nil base out room res :
  runs base [] out room res ↔ res = (out, room).
Proof.
  split.
  - intros (il & r & Hp & Hd & ->). inversion Hp; subst. injection Hd as <-.
    by rewrite take_nil, app_nil_r, Nat.sub_0_r.
  - intros ->. exists [], []. rewrite take_nil, app_nil_r, Nat.sub_0_r.
    eauto using parses.
Qed.

Lemma runs_write base data src out room res :
  runs base data (write src out room).1 (write src out room).2 res ↔
  ∃ il r, parses data il ∧ denote base il = Some r ∧
    res = (out ++ take room (src ++ r), (room - length (src ++ r))%nat).
Proof.
  unfold runs. split; intros (il & r & Hp & Hd & ->); exists il, r;
    (split_and!; [done..|]); pose proof (write_app src r out room) as Hw;
    destruct (write src out room) as [out' room']; simpl in *;
    destruct Hw as [-> ->]; done.
Qed.

Lemma get_range_slice {A} (d : list A) a b d' :
  get_range d a b = Some d' ↔ @slice Empty_set A d a b = Ok d'.
Proof. unfold slice. destruct (get_range d a b); simpl; naive_solver. Qed.

Lemma slice_split data n lit :
  @slice Empty_set Z data 0 n = Ok lit ↔ ∃ data', data = lit ++ data' ∧ length lit = n.
Proof.
  rewrite slice_ok_iff, Nat.sub_0_r, drop_0. split.
  - intros (_ & Hle & ->). exists (drop n data). rewrite take_drop, length_take.
    split; [done|lia].
  - intros (data' & -> & <-). rewrite length_app, take_app_length.
    split_and!; [lia|lia|done].
Qed.

(** The loop executes exactly the instructions the stream parses to. *)
Lemma apply_loop_runs fuel base data out room res :
  is_bytes data → (length data ≤ fuel)%nat →
  apply_loop fuel base data out room = Ok res ↔ runs base data out room res.
Proof.
  revert data out room. induction fuel as [|fuel IH]; intros data out room Hbytes Hlen.
  { destruct data; [|simpl in *; lia]. rewrite runs_nil. simpl. naive_solver. }
  destruct data as [|cmd data]; simpl in Hlen.
  { rewrite runs_nil. simpl. naive_solver. }
  apply Forall_cons in Hbytes as [Hcmd Hbytes].
  cbn [apply_loop]. rewrite land_128 by lia. destruct (Z.ltb_spec cmd 128) as [Hb|Hb]; simpl.
  - destruct (Z.eqb_spec cmd 0) as [->|Hnz].
    { split; [done|]. intros (il & r & Hp & _). inversion Hp; subst; lia. }
    rewrite bind_ok. setoid_rewrite slice_split. split.
    + intros (lit & (data' & -> & Hl) & H). apply Forall_app in Hbytes as [_ Hbytes].
      rewrite <- Hl, slice_from_app in H. simpl in H.
      rewrite IH in H by (done || len). apply runs_write in H as (il & r & Hp & Hd & ->).
      exists (Insert lit :: il), (lit ++ r).
      split_and!; [apply parses_insert; (done || lia)|by simpl; rewrite Hd|done].
    + intros (il & r & Hp & Hd & ->). inversion Hp as [|? ? ? ? ? ? ? |? lit data' il' _ Hl Hp']; subst.
      { lia. }
      apply Forall_app in Hbytes as [_ Hbytes].
      simpl in Hd. destruct (denote base il') as [r'|] eqn:E; simplify_eq/=.
      exists lit. split; [eexists; split; [done|lia]|]. rewrite Nat2Z.id, slice_from_app. simpl.
      rewrite IH by (done || len). apply runs_write. eauto.
  - rewrite bind_ok. split.
    + intros ([[ofs size] data'] & Hc & (src & Hs & H)%bind_ok). apply copy_operands_ok in Hc; [|done].
      destruct (copies_rest _ _ _ _ _ Hc Hbytes) as [Hbytes' ?]. rewrite IH in H by (done || lia).
      apply runs_write in H as (il & r & Hp & Hd & ->).
      exists (Copy ofs size :: il), (src ++ r). split_and!; [by eapply parses_copy| |done].
      simpl. apply get_range_slice in Hs. by rewrite Hs, Hd.
    + intros (il & r & Hp & Hd & ->).
      inversion Hp as [|? ? ofs size data' il' ? Hc Hp'|]; subst; [|lia].
      exists (ofs, size, data'). split; [by apply copy_operands_ok|].
      simpl in Hd. destruct (get_range base _ _) as [src|] eqn:Hs; [|done].
      destruct (denote base il') as [r'|] eqn:E; simplify_eq/=.
      apply get_range_slice in Hs. rewrite Hs. simpl.
      destruct (copies_rest _ _ _ _ _ Hc Hbytes) as [Hbytes' ?]. rewrite IH by (done || lia).
      apply runs_write. eauto.
Qed.


(** The operands of a canonically encoded copy are read back. *)
Lemma bytes_join z :
  0 ≤ z →
  z mod 2 ^ 8 = byte_at z 0 ∧
  z mod 2 ^ 16 = byte_at z 8 * 2 ^ 8 + z mod 2 ^ 8 ∧
  z mod 2 ^ 24 = byte_at z 16 * 2 ^ 16 + z mod 2 ^ 16 ∧
  z mod 2 ^ 32 = byte_at z 24 * 2 ^ 24 + z mod 2 ^ 24.
Proof.
  intros Hz. unfold byte_at.
  change (2 ^ 0) with 1. rewrite Z.div_1_r. split; [done|].
  assert (H : ∀ k, 0 ≤ k → z mod 2 ^ (k + 8) = z / 2 ^ k mod 256 * 2 ^ k + z mod 2 ^ k).
  { intros k Hk. rewrite Z.pow_add_r by lia. change (2 ^ 8) with 256.
    pose proof (Z.pow_pos_nonneg 2 k). rewrite Z.rem_mul_r by lia. lia. }
  split_and!; [apply (H 8)|apply (H 16)|apply (H 24)]; lia.
Qed.

Lemma byte_at_range z k : u8 (byte_at z k).
Proof. apply Z.mod_pos_bound. lia. Qed.

(** The canonical encoding has all seven bytes. *)
Lemma copies_encoded ofs size rest :
  u32 ofs → 0 < size < 2 ^ 24 →
  copies 255 (tail (encode1 (Copy ofs size)) ++ rest) ofs size rest.
Proof.
  intros Hofs Hsize.
  destruct (bytes_join ofs) as (O0 & O8 & O16 & O24); [lia|].
  destruct (bytes_join size) as (S0 & S8 & S16 & _); [lia|].
  rewrite (Z.mod_small ofs) in O24 by lia. rewrite (Z.mod_small size) in S16 by lia.
  do 7 eexists. split; [repeat (apply operand_present; [done|]); constructor|].
  change (2 ^ 8) with 256 in *. change (2 ^ 16) with 65536 in *. change (2 ^ 24) with 16777216 in *. split; [lia|right; lia].
Qed.

Lemma encode_parses il : Forall wf_instr il → parses (encode il) il.
Proof.
  unfold encode. induction 1 as [|i il Hi _ IH]; simpl; [constructor|].
  destruct i as [ofs size|lit]; simpl in Hi |- *.
  - destruct Hi as [Ho Hs]. eapply parses_copy; [done| |done].
    apply (copies_encoded ofs size _ Ho Hs).
  - apply parses_insert; (lia || done).
Qed.
Definition instr_bytes (i : instr) : Prop := match i with Insert lit => is_bytes lit | Copy _ _ => True end.
Lemma encode_bytes il : Forall wf_instr il → Forall instr_bytes il → is_bytes (encode il).
Proof.
  unfold encode. induction 1 as [|i il Hi _ IH]; simpl; [constructor|]. intros [Hb Hbs]%Forall_cons.
  apply Forall_app. split; [|by apply IH].
  destruct i as [ofs size|lit]; cbn [encode1]; [|constructor; [cbn in Hi; lia|done]].
  repeat constructor; try apply byte_at_range; lia.
Qed.

Lemma apply_ok base n data out :
  is_bytes data →
  apply base n data = Ok out ↔
  ∃ il r, parses data il ∧ denote base il = Some r ∧ (n ≤ length r)%nat ∧
    out = take n r.
Proof.
  intros Hbytes. unfold apply. rewrite bind_ok. setoid_rewrite apply_loop_runs; [|done..]. split.
  - intros ([out' room] & (il & r & Hp & Hd & Hres) & H). injection Hres as -> ->.
    destruct (Nat.eqb_spec (n - length r) 0) as [?|?]; simpl in H; [|done].
    injection H as <-. exists il, r. split_and!; [done..|lia|done].
  - intros (il & r & Hp & Hd & Hn & ->). exists (take n r, (n - length r)%nat).
    split; [by exists il, r|]. by rewrite (proj2 (Nat.eqb_eq _ _)) by lia.
Qed.

(** ** Properties *)

(** C1: [apply] executes the delta, completely characterised.  It returns
    normally exactly when the instruction stream is well-formed - commands from
    128 with the little-endian operand bytes their seven lower bits announce,
    a size of 0 standing for 65536, and commands from 1 to 127 with as many
    literal bytes -, every copy stays inside the base object and the instructions produce at least
    [target.len()] bytes; the target then holds the first [target.len()]
    bytes they produce.  (Surplus output is cut off silently, because [apply]
    uses [Write::write] on the slice and drops the count.)  In every other
    case it panics. *)
Theorem apply_characterised base n data :
  is_bytes data →
  (∀ out, apply base n data = Ok out ↔
     ∃ il r, parses data il ∧ denote base il = Some r ∧ (n ≤ length r)%nat ∧
       out = take n r) ∧
  ((¬ ∃ il r, parses data il ∧ denote base il = Some r ∧ (n ≤ length r)%nat) →
   apply base n data = Panic).
Proof.
  intros Hbytes. split; [intros out; by apply apply_ok|]. intros Hno.
  destruct (apply base n data) as [out|[]|] eqn:E; [|done].
  apply apply_ok in E as (il & r & ? & ? & ? & _); [|done]. destruct Hno. eauto.
Qed.

Lemma apply_characterised_witness :
  apply (bs "hello world") 7 [144; 5; 2; 33; 33] = Ok (bs "hello!!") ∧
  apply (bs "hello") 7 [129; 1] = Panic.
Proof.
  split.
  - apply (apply_characterised (bs "hello world") 7 [144; 5; 2; 33; 33]); [repeat constructor; lia|].
    exists [Copy 0 5; Insert [33; 33]], (bs "hello!!"). split_and!; [|done..].
    eapply parses_copy; [lia| |apply (parses_insert 2 [33; 33] []); [lia|done|constructor]].
    exists 0, 0, 0, 0, 5, 0, 0. split_and!; [|lia|right; lia].
    repeat first [apply operand_absent; [reflexivity|]|apply operand_present; [reflexivity|]]. constructor.
  - apply (apply_characterised (bs "hello") 7 [129; 1]); [repeat constructor; lia|].
    intros (il & r & Hp & Hd & _). inversion Hp as [|? ? ofs size ? ? _ Hc _|? ? ? ? ?]; subst; [|lia].
    apply copy_operands_ok in Hc; [|repeat constructor; lia]. injection Hc as <- <- <-. discriminate Hd.
Defined.

(** Deltas round-trip.  Encoding any list of instructions whose copies stay
    inside the base and applying the bytes to the base reproduces exactly what
    the instructions denote, for offsets over all of [u32] and copy sizes over
    all of their 24 bits. *)
Theorem apply_encode base il r :
  Forall wf_instr il → Forall instr_bytes il → denote base il = Some r →
  apply base (length r) (encode il) = Ok r.
Proof.
  intros Hwf Hb Hd. apply apply_ok; [by apply encode_bytes|]. exists il, r. rewrite take_ge by lia.
  eauto using encode_parses.
Qed.

Lemma apply_encode_witness :
  apply (bs "abcdef") 5 (encode [Insert (bs "xy"); Copy 1 3]) = Ok (bs "xybcd").
Proof.
  apply (apply_encode (bs "abcdef") [Insert (bs "xy"); Copy 1 3] (bs "xybcd")).
  - repeat constructor; simpl; lia.
  - repeat constructor; simpl; lia.
  - reflexivity.
Defined.

(** The size header of a delta: little-endian groups of seven bits, the high
    bit marking continuation. *)
Fixpoint encode_size (fuel : nat) (n : Z) : bytes :=
  match fuel with
  | O => []
  | S fuel =>
      if n <? 128 then [n] else (n mod 128 + 128) :: encode_size fuel (n / 128)
  end.

Lemma decode_size_loop fuel n i acc k rest :
  0 ≤ n < 128 ^ Z.of_nat fuel → 0 ≤ i → 0 ≤ acc < 2 ^ i →
  acc + n * 2 ^ i < 2 ^ 64 →
  decode_header_size_loop i acc k (encode_size fuel n ++ rest) =
    (acc + n * 2 ^ i, (k + length (encode_size fuel n))%nat) ∨ fuel = 0%nat.
Proof.
  revert n i acc k. induction fuel as [|fuel IH]; intros n i acc k Hn Hi Hacc Hlt;
    [by right|left].
  pose proof (Z.pow_pos_nonneg 2 i) as Hpow.
  assert (Hi64 : n = 0 ∨ i < 64).
  { destruct (Z.lt_ge_cases i 64); [by right|left].
    pose proof (Z.pow_le_mono_r 2 64 i). nia. }
  cbn [encode_size]. destruct (Z.ltb_spec n 128) as [Hs|Hs]; cbn [app decode_header_size_loop].
  - rewrite land_128, land_127, (Z.mod_small n 128) by lia.
    rewrite (proj2 (Z.ltb_lt _ _)) by lia. cbn [length].
    f_equal; [|lia]. destruct Hi64 as [->|Hi64].
    { rewrite Z.shiftl_0_l, Z.mul_0_l, Z.add_0_r. apply Z.lor_0_r. }
    rewrite (Z.mod_small i 64), Z.shiftl_mul_pow2 by lia.
    rewrite wrap_small by (split; [apply Z.mul_nonneg_nonneg|]; lia).
    rewrite lor_shifted by lia. lia.
  - destruct Hi64 as [->|Hi64]; [lia|].
    pose proof (Z.mod_pos_bound n 128) as Hm. pose proof (Z.div_mod n 128) as Hdm.
    rewrite land_128, land_127 by lia. rewrite (proj2 (Z.ltb_ge _ _)) by lia.
    rewrite mod_add_self by lia.
    assert (H7 : 2 ^ (i + 7) = 128 * 2 ^ i) by (rewrite Z.pow_add_r by lia; lia).
    assert (Hsplit : n * 2 ^ i = n / 128 * 2 ^ (i + 7) + n mod 128 * 2 ^ i)
      by (rewrite H7; nia).
    assert (0 ≤ n / 128 * 2 ^ (i + 7))
      by (apply Z.mul_nonneg_nonneg; [apply Z.div_pos|]; lia).
    assert (0 ≤ n mod 128 * 2 ^ i) by (apply Z.mul_nonneg_nonneg; lia).
    rewrite (Z.mod_small i 64), Z.shiftl_mul_pow2 by lia.
    rewrite wrap_small by lia. rewrite lor_shifted by lia.
    destruct (IH (n / 128) (i + 7) (acc + n mod 128 * 2 ^ i) (S k)) as [-> | ->].
    + split; [apply Z.div_pos; lia|]. apply Z.div_lt_upper_bound; [lia|].
      rewrite Nat2Z.inj_succ, Z.pow_succ_r in Hn by lia. lia.
    + lia.
    + rewrite H7. nia.
    + lia.
    + cbn [length]. f_equal; lia.
    + simpl in Hn. lia.
Qed.

(** The size header of a delta is read back for every [u64]: the decoder
    returns the encoded size and the number of bytes it took, and ignores what
    follows. *)
Theorem decode_header_size_correct n rest :
  u64 n →
  decode_header_size (encode_size 10 n ++ rest) = (n, length (encode_size 10 n)).
Proof.
  intros Hn. unfold decode_header_size.
  destruct (decode_size_loop 10 n 0 0 0 rest) as [-> | ?]; [|lia|lia|lia| |done].
  - split; [lia|]. eapply Z.lt_le_trans; [apply Hn|]. vm_compute. discriminate.
  - change (2 ^ 0) with 1. f_equal; lia.
Qed.

Lemma decode_header_size_correct_witness :
  decode_header_size ([172; 2] ++ [9]) = (300, 2%nat).
Proof. apply (decode_header_size_correct 300 [9]). lia. Defined.
