(* ===== verification/PackDecode.v ===== *)
(** * Decoding objects of a pack

    Models [gix-pack/src/data/file/decode/entry.rs] and [header.rs]: decoding
    an entry of a pack into an object, following chains of deltas.

    [resolve_deltas] walks from the wanted entry to the first entry that is
    not a delta, or to a base that a cache or another pack provides; it
    inflates all deltas behind the base in the output vector, moves them out
    of the way of two buffers that are large enough for every intermediate
    object, and applies the deltas from the oldest to the newest, swapping the
    buffers. *)

From S2P Require Import Prelude External Hash PackEntry PackDelta.
Import PackEntry.Entry.

(** ** Interfaces *)

Module zlib.
(** [Inflate::once] on a decompressor that was reset: given the input and the
    length of the output slice, the bytes consumed and the bytes written to
    the start of the slice, or an error. *)
Class Api := { once : bytes → nat → option (nat * bytes) }.
End zlib.

(** [cache::DecodeEntry] for one pack: [get] may replace the content of the
    output vector. *)
Module cache.
Class DecodeEntry (C : Type) := {
  get : C → Z → bytes → C * bytes * option (Kind * nat);
  put : C → Z → bytes → Kind → nat → C }.
End cache.
(** [cache::Never]. *)
Definition never : cache.DecodeEntry unit := {|
  cache.get := λ _ _ out, (tt, out, None);
  cache.put := λ _ _ _ _ _, tt |}.

(** [ResolvedBase] of [entry.rs]. *)
Inductive ResolvedBase := InPack (e : Entry) | OutOfPack (kind : Kind) (stop : nat).
(** [ResolvedBase] of [header.rs]. *)
Inductive ResolvedHeader :=
| HInPack (e : Entry) | HOutOfPack (kind : Kind) (num_deltas : option Z).

Inductive Error :=
| ZlibInflate
| DeltaBaseUnresolved (id : ObjectId)
| EntryType (e : PackEntry.Entry.Error)
| OutOfMemory.

(** ** The code *)

Record Delta := mkDelta {
  ddata : nat * nat;
  base_size : nat;
  result_size : nat;
  delta_size : nat;          (* decompressed_size *)
  delta_offset : Z }.        (* data_offset *)

Record Outcome := mkOutcome {
  kind : Kind;
  num_deltas : Z;
  odecompressed_size : Z;
  compressed_size : nat;
  object_size : Z }.

Definition from_object_entry (kind : Kind) (e : Entry) (compressed_size : nat) : Outcome :=
  mkOutcome kind 0 (decompressed_size e) compressed_size (decompressed_size e).

Section Decode.
Context {ZL : zlib.Api} {C : Type} {CD : cache.DecodeEntry C}.
(** The pack, and whether the allocator can provide a vector of a size. *)
Context (pack : bytes) (hash_len : nat) (alloc : Z → bool).

Definition entry (offset : Z) : res Error Entry :=
  _ ← assert_ (offset <=? Z.of_nat (length pack));
  object_data ← slice_from pack (Z.to_nat offset);
  map_err EntryType (from_bytes object_data offset hash_len).

(** The bytes consumed, the bytes written, and [out] after the call. *)
Definition decompress_entry_from_data_offset_2 (data_offset : Z) (out : bytes)
  : res Error (nat * nat * bytes) :=
  _ ← assert_ (data_offset <? Z.of_nat (length pack));
  input ← slice_from pack (Z.to_nat data_offset);
  match zlib.once input (length out) with
  | Some (consumed_in, w) => Ok (consumed_in, length w, w ++ drop (length w) out)
  | None => Err ZlibInflate
  end.
Definition decompress_entry_from_data_offset (data_offset : Z) (out : bytes)
  : res Error (nat * bytes) :=
  '(consumed_in, _, out) ← decompress_entry_from_data_offset_2 data_offset out;
  Ok (consumed_in, out).
Definition decompress_entry (e : Entry) (out : bytes) : res Error (nat * bytes) :=
  _ ← assert_ (decompressed_size e <=? Z.of_nat (length out));
  decompress_entry_from_data_offset (data_offset e) out.

(** [Vec::try_reserve(additional)]. *)
Definition try_reserve (out : bytes) (additional : Z) : res Error unit :=
  if (additional =? 0) || alloc (Z.of_nat (length out) + additional)
  then Ok tt else Err OutOfMemory.
(** [Vec::try_reserve(size.saturating_sub(len))] and [Vec::resize(size, 0)]. *)
Definition grow (out : bytes) (size : Z) : res Error bytes :=
  _ ← try_reserve out (Z.max 0 (size - Z.of_nat (length out)));
  Ok (resize out (Z.to_nat size)).

(** *** [resolve_deltas] *)

Section Resolve.
Context (resolve : bytes → bytes → bytes * option ResolvedBase).

(** The variables of the first loop. *)
Record Walk := mkWalk {
  cursor : Entry;
  chain : list Delta;
  base_buffer_size : option nat;
  object_kind : option Kind;
  consumed_input : option nat;
  total_delta_data_size : Z;
  out : bytes;
  wcache : C }.

(** [while cursor.header.is_delta()].  Nothing bounds the rounds: a delta may
    be its own base.  [None] means that the loop is still running after
    [fuel] rounds. *)
Fixpoint chain_loop (fuel : nat) (w : Walk) : option (res Error Walk) :=
  if negb (is_delta (header (cursor w))) then Some (Ok w)
  else
    match fuel with
    | O => None
    | S fuel =>
        let '(c, o, hit) := cache.get (wcache w) (data_offset (cursor w)) (out w) in
        match hit with
        | Some (k, packed_size) =>
            Some (Ok (mkWalk (cursor w) (chain w) (Some (length o)) (Some k)
              (if total_delta_data_size w =? 0 then Some packed_size else consumed_input w)
              (total_delta_data_size w) o c))
        | None =>
            let total := wrap 64 (total_delta_data_size w + decompressed_size (cursor w)) in
            let size := Z.to_nat (decompressed_size (cursor w)) in
            let deltas := chain w ++ [mkDelta (0%nat, size) 0 0 size (data_offset (cursor w))] in
            let next e o :=
              mkWalk e deltas (base_buffer_size w) (object_kind w) (consumed_input w) total o c in
            match header (cursor w) with
            | OfsDelta base_distance =>
                match ofs ← lift (base_pack_offset (cursor w) base_distance); entry ofs with
                | Ok e => chain_loop fuel (next e o)
                | Err e => Some (Err e)
                | Panic => Some Panic
                end
            | RefDelta base_id =>
                match resolve (as_slice base_id) o with
                | (o, Some (InPack e)) => chain_loop fuel (next e o)
                | (o, Some (OutOfPack k stop)) =>
                    Some (Ok (mkWalk (cursor w) deltas (Some stop) (Some k) (consumed_input w)
                                total o c))
                | (_, None) => Some (Err (DeltaBaseUnresolved base_id))
                end
            | _ => Some Panic
            end
        end
    end.

(** The first pass over the deltas, oldest first: each is inflated to the start
    of [instructions], its size headers are read and [instructions] moves on.
    The result: all instructions, the completed deltas, the biggest size and
    the input consumed by the last one. *)
Fixpoint inflate_loop (l : list Delta) (instructions : bytes) (relative_delta_start : nat)
    (biggest : Z) (consumed : option nat)
  : res Error (bytes * list Delta * Z * option nat) :=
  match l with
  | [] => Ok (instructions, [], biggest, consumed)
  | d :: l =>
      buf ← slice_to instructions (delta_size d);
      '(used, buf) ← decompress_entry_from_data_offset (delta_offset d) buf;
      let instructions := buf ++ drop (delta_size d) instructions in
      let consumed := if bool_decide (l = []) then Some used else consumed in
      let '(bsize, offset) := decode_header_size instructions in
      let biggest := Z.max biggest bsize in
      rest ← slice_from instructions offset;
      let '(rsize, offset2) := decode_header_size rest in
      let biggest := Z.max biggest rsize in
      let stop := (relative_delta_start + delta_size d)%nat in
      let d' := mkDelta ((relative_delta_start + (offset + offset2))%nat, stop)
                  (Z.to_nat bsize) (Z.to_nat rsize) (delta_size d) (delta_offset d) in
      next ← slice_from instructions (delta_size d);
      '(tl, l', biggest, consumed) ← inflate_loop l next stop biggest consumed;
      Ok (take (delta_size d) instructions ++ tl, d' :: l', biggest, consumed)
  end.

(** Moving the instructions behind the two buffers: [copy_within] when the
    ranges may overlap, else [copy_from_slice]. *)
Definition rescue (out : bytes) (delta_start total stop : nat) : res Error bytes :=
  if (delta_start <? stop)%nat then
    d ← slice out delta_start (delta_start + total);
    _ ← assert_ (stop + total <=? length out)%nat;
    Ok (take stop out ++ d ++ drop (stop + total) out)
  else
    buffers ← slice_to out stop;
    instructions ← slice_from out stop;
    d ← slice buffers delta_start (delta_start + total);
    _ ← assert_ (length instructions =? length d)%nat;
    Ok (buffers ++ d).

(** The second pass: the two buffers and the last result size. *)
Fixpoint apply_chain (l : list Delta) (source_buf target_buf instructions : bytes)
    (last_result_size : option nat) : res Empty_set (bytes * bytes * option nat) :=
  match l with
  | [] => Ok (source_buf, target_buf, last_result_size)
  | d :: l =>
      data ← slice instructions (ddata d).1 (ddata d).2;
      let last_result_size :=
        if bool_decide (l = []) then Some (result_size d) else last_result_size in
      src ← slice_to source_buf (base_size d);
      tgt ← slice_to target_buf (result_size d);
      tgt ← apply src (length tgt) data;
      let target_buf := tgt ++ drop (result_size d) target_buf in
      apply_chain l target_buf source_buf instructions last_result_size
  end.

(** Everything behind the first loop, for a chain that is not empty: the
    object and the outcome. *)
Definition resolve_chain (first_entry : Entry) (w : Walk) : res Error (Outcome * bytes) :=
  let chain_len := length (chain w) in
  let delta_start := match base_buffer_size w with Some n => n | None => 0%nat end in
  let total := total_delta_data_size w in
  let delta_end := wrap 64 (Z.of_nat delta_start + total) in
  out ← grow (out w) delta_end;
  instructions ← slice out delta_start (Z.to_nat delta_end);
  '(instructions, deltas, biggest, consumed) ←
    inflate_loop (rev (chain w)) instructions 0 0 (consumed_input w);
  let out := take delta_start out ++ instructions in
  let stop := wrap 64 (biggest + biggest) in
  let out_size := wrap 64 (stop + total) in
  out ← grow out out_size;
  out ← rescue out delta_start (Z.to_nat total) (Z.to_nat stop);
  '(k, out) ←
    match base_buffer_size w with
    | None =>
        '(_, out) ← decompress_entry_from_data_offset (data_offset (cursor w)) out;
        Ok (as_kind (header (cursor w)), out)
    | Some _ => Ok (object_kind w, out)
    end;
  buffers ← slice_to out (Z.to_nat stop);
  instructions ← slice_from out (Z.to_nat stop);
  source_buf ← slice_to buffers (Z.to_nat biggest);
  target_buf ← slice_from buffers (Z.to_nat biggest);
  '(source_buf, target_buf, last) ← lift (apply_chain deltas source_buf target_buf instructions None);
  last_result_size ← expect last;
  out ←
    (if Nat.odd chain_len then
       src ← slice_to source_buf last_result_size;
       tgt ← slice_to target_buf last_result_size;
       _ ← assert_ (length tgt =? length src)%nat;
       Ok (src ++ drop last_result_size target_buf ++ source_buf ++ instructions)
     else Ok (source_buf ++ target_buf ++ instructions));
  let out := take last_result_size out in
  k ← expect k;
  consumed ← expect consumed;
  Ok (mkOutcome k (wrap 32 (Z.of_nat chain_len)) (decompressed_size first_entry) consumed
        (Z.of_nat last_result_size), out).

Definition resolve_deltas (fuel : nat) (last : Entry) (o : bytes) (c : C)
  : option (res Error (Outcome * bytes * C)) :=
  w ← chain_loop fuel (mkWalk last [] None None None 0 o c);
  Some (w ← w;
    if bool_decide (length (chain w) = 0%nat) then
      k ← expect (object_kind w);
      consumed ← expect (consumed_input w);
      Ok (from_object_entry k last consumed, out w, wcache w)
    else
      '(outcome, o) ← resolve_chain last w;
      Ok (outcome, o,
          cache.put (wcache w) (data_offset last) o (kind outcome) (compressed_size outcome))).

(** [decode_entry]: the outcome, the output vector and the cache. *)
Definition decode_entry (fuel : nat) (e : Entry) (o : bytes) (c : C)
  : option (res Error (Outcome * bytes * C)) :=
  if is_delta (header e) then resolve_deltas fuel e o c
  else Some (
    let size := decompressed_size e in
    o ← (if Z.of_nat (length o) <=? size
         then _ ← try_reserve o (size - Z.of_nat (length o)); Ok o else Ok o);
    let o := resize o (Z.to_nat size) in
    '(consumed_input, o) ← decompress_entry e o;
    k ← expect (as_kind (header e));
    Ok (from_object_entry k e consumed_input, o, c)).
End Resolve.

(** *** [decode_header] *)

Definition decode_delta_object_size (e : Entry) : res Error Z :=
  '(_, used, buf) ← decompress_entry_from_data_offset_2 (data_offset e) (replicate 32 0);
  buf ← slice_to buf used;
  let '(_, offset) := decode_header_size buf in
  rest ← slice_from buf offset;
  let '(result_size, _) := decode_header_size rest in
  Ok result_size.

Section Header.
Context (resolve : bytes → option ResolvedHeader).

(** [None] means that the loop is still running after [fuel] rounds. *)
Fixpoint header_loop (fuel : nat) (e : Entry) (num_deltas : Z) (first_size : option Z)
  : option (res Error (Kind * Z * Z)) :=
  match as_kind (header e) with
  | Some k => Some (Ok (k, default (decompressed_size e) first_size, num_deltas))
  | None =>
      match fuel with
      | O => None
      | S fuel =>
          let num_deltas := wrap 32 (num_deltas + 1) in
          match (match first_size with
                 | Some n => Ok n
                 | None => decode_delta_object_size e
                 end) with
          | Err x => Some (Err x)
          | Panic => Some Panic
          | Ok size =>
              match header e with
              | OfsDelta base_distance =>
                  match ofs ← lift (base_pack_offset e base_distance); entry ofs with
                  | Ok e => header_loop fuel e num_deltas (Some size)
                  | Err x => Some (Err x)
                  | Panic => Some Panic
                  end
              | RefDelta base_id =>
                  match resolve (as_slice base_id) with
                  | Some (HInPack e) => header_loop fuel e num_deltas (Some size)
                  | Some (HOutOfPack k origin_num_deltas) =>
                      Some (Ok (k, size, wrap 32 (default 0 origin_num_deltas + num_deltas)))
                  | None => Some (Err (DeltaBaseUnresolved base_id))
                  end
              | _ => Some Panic
              end
          end
      end
  end.
(** Kind, object size and number of deltas. *)
Definition decode_header (fuel : nat) (e : Entry) : option (res Error (Kind * Z * Z)) :=
  header_loop fuel e 0 None.
End Header.
End Decode.

(** ** Specification

    The objects of a pack, without buffers: an entry that is not a delta is
    what its stream inflates to; a delta is its instructions applied to the
    object of its base. *)

(** A size header, whatever follows it. *)
Definition size_header (h : bytes) (n : nat) : Prop :=
  ∀ rest, decode_header_size (h ++ rest) = (Z.of_nat n, length h).

Section Spec.
Context {ZL : zlib.Api} (pack : bytes) (hash_len : nat).
Context (resolve : bytes → bytes → bytes * option ResolvedBase).

(** The stream at an offset inflates to [d]: a slice of [n] bytes receives the
    first [n] bytes of it. *)
Definition holds (ofs : Z) (d : bytes) : Prop :=
  0 ≤ ofs < Z.of_nat (length pack) ∧
  ∀ n, ∃ c, zlib.once (drop (Z.to_nat ofs) pack) n = Some (c, take n d).

(** The delta stored at [ofs], of [size] bytes, turns [b] into [t]. *)
Definition delta_at (ofs : Z) (size : nat) (b t : bytes) : Prop :=
  ∃ h1 h2 ins, holds ofs (h1 ++ h2 ++ ins) ∧ size = length (h1 ++ h2 ++ ins) ∧
    size_header h1 (length b) ∧ size_header h2 (length t) ∧ apply b (length t) ins = Ok t.
Definition delta_of (e : Entry) (b t : bytes) : Prop :=
  delta_at (data_offset e) (Z.to_nat (decompressed_size e)) b t.

(** [object e k t n total]: the entry [e] is the object [t] of kind [k], behind
    [n] deltas of [total] bytes. *)
Inductive object (big : nat) : Entry → Kind → bytes → nat → Z → Prop :=
| object_base e k d :
    as_kind (header e) = Some k → holds (data_offset e) d →
    decompressed_size e = Z.of_nat (length d) → (length d ≤ big)%nat →
    object big e k d 0 0
| object_ofs e distance ofs e' k b t n total :
    header e = OfsDelta distance → base_pack_offset e distance = Ok ofs →
    entry pack hash_len ofs = Ok e' → object big e' k b n total →
    delta_of e b t → (length t ≤ big)%nat → 0 ≤ decompressed_size e →
    object big e k t (S n) (total + decompressed_size e)
| object_ref e base_id e' k b t n total :
    header e = RefDelta base_id →
    (∀ o, ∃ o', resolve (as_slice base_id) o = (o', Some (InPack e'))) →
    object big e' k b n total →
    delta_of e b t → (length t ≤ big)%nat → 0 ≤ decompressed_size e →
    object big e k t (S n) (total + decompressed_size e)
| object_thin e base_id k b t :
    header e = RefDelta base_id →
    (∀ o, resolve (as_slice base_id) o = (b, Some (OutOfPack k (length b)))) →
    (length b ≤ big)%nat →
    delta_of e b t → (length t ≤ big)%nat → 0 ≤ decompressed_size e →
    object big e k t 1 (decompressed_size e).

(** A cache whose content is right: what it returns for an offset is the object
    of the entry with that offset. *)
Class CacheLaws (C : Type) {CD : cache.DecodeEntry C} (big : nat) (valid : C → Prop) : Prop := {
  get_valid c ofs o c' o' r : valid c → cache.get c ofs o = (c', o', r) → valid c';
  get_object c ofs o c' o' k n e k' t m total :
    valid c → cache.get c ofs o = (c', o', Some (k, n)) →
    data_offset e = ofs → object big e k' t m total → k = k' ∧ o' = t;
  put_valid c e k t m total n :
    valid c → object big e k t m total → valid (cache.put c (data_offset e) t k n) }.

(** Applying the deltas of a list, the first one to [b]; no object is larger
    than [big]. *)
Fixpoint applies (big : nat) (l : list Delta) (b t : bytes) : Prop :=
  match l with
  | [] => b = t
  | d :: l =>
      ∃ m, delta_at (delta_offset d) (delta_size d) b m ∧ (length m ≤ big)%nat ∧ applies big l m t
  end.
Definition sizes (l : list Delta) : nat := sum_list (delta_size <$> l).

(** ** Lemmas *)

Lemma applies_app big l1 l2 b t :
  applies big (l1 ++ l2) b t ↔ ∃ m, applies big l1 b m ∧ applies big l2 m t.
Proof.
  revert b. induction l1 as [|d l1 IH]; intros b; simpl.
  - split; [by exists b|]. by intros (m & -> & ?).
  - setoid_rewrite IH. naive_solver.
Qed.
Lemma sizes_cons d l : sizes (d :: l) = (delta_size d + sizes l)%nat.
Proof. done. Qed.
Lemma sizes_app l1 l2 : sizes (l1 ++ l2) = (sizes l1 + sizes l2)%nat.
Proof. unfold sizes. by rewrite fmap_app, sum_list_with_app. Qed.
Lemma sizes_rev l : sizes (rev l) = sizes l.
Proof.
  induction l as [|d l IH]; [done|]. cbn [rev]. rewrite sizes_app, IH, !sizes_cons.
  change (sizes []) with 0%nat. lia.
Qed.

Lemma size_header_ne h n : size_header h n → h ≠ [].
Proof. intros Hh ->. specialize (Hh [0]). vm_compute in Hh. congruence. Qed.
Lemma delta_at_size ofs size b t : delta_at ofs size b t → (0 < size)%nat.
Proof.
  intros (h1 & h2 & ins & _ & -> & H1 & _). apply size_header_ne in H1.
  destruct h1; [done|]. simpl. lia.
Qed.

Lemma object_total big e k t n total : object big e k t n total → 0 ≤ total.
Proof. induction 1; lia. Qed.
Lemma object_big big e k t n total : object big e k t n total → (length t ≤ big)%nat.
Proof. by destruct 1. Qed.

(** *** The walk to the base *)

Section Walk.
Context {C : Type} {CD : cache.DecodeEntry C} (big : nat) (valid : C → Prop).
Context {CL : CacheLaws C big valid}.

(** The base [b] was found: it is in the output vector, or the cursor is at
    it. *)
Definition found (w : @Walk C) (k : Kind) (b : bytes) : Prop :=
  match base_buffer_size w with
  | Some n => n = length b ∧ out w = b ∧ object_kind w = Some k
  | None => holds (data_offset (cursor w)) b ∧ as_kind (header (cursor w)) = Some k
  end.

(** What the first loop adds to [w]. *)
Definition walked (e : Entry) (w w' : @Walk C) (k : Kind) (t : bytes) (n : nat) (total : Z) : Prop :=
  ∃ ds b, chain w' = chain w ++ ds ∧ found w' k b ∧ applies big (rev ds) b t ∧
    (length b ≤ big)%nat ∧ valid (wcache w') ∧ (length ds ≤ n)%nat ∧
    total_delta_data_size w' = total_delta_data_size w + Z.of_nat (sizes ds) ∧
    Z.of_nat (sizes ds) ≤ total ∧
    (ds = [] → is_delta (header e) = true →
       b = t ∧ is_Some (base_buffer_size w') ∧
       (total_delta_data_size w = 0 → is_Some (consumed_input w'))).

Lemma as_kind_delta h k : as_kind h = Some k → is_delta h = false.
Proof. by destruct h. Qed.

(** A hit: the cache provides the object itself. *)
Lemma walked_hit e w c o k m t n total :
  valid (wcache w) → cache.get (wcache w) (data_offset e) (out w) = (c, o, Some (k, m)) →
  ∀ k', object big e k' t n total →
  walked e w (mkWalk (cursor w) (chain w) (Some (length o)) (Some k)
    (if total_delta_data_size w =? 0 then Some m else consumed_input w)
    (total_delta_data_size w) o c) k' t n total.
Proof.
  intros Hv Hg k' Ho. pose proof (get_valid _ _ _ _ _ _ Hv Hg) as Hv'.
  destruct (get_object _ _ _ _ _ _ _ e k' t n total Hv Hg eq_refl Ho) as [-> ->].
  pose proof (object_big _ _ _ _ _ _ Ho). pose proof (object_total _ _ _ _ _ _ Ho).
  exists [], t. simpl. rewrite app_nil_r. unfold sizes. simpl.
  split_and!; [done|done|done|done|done|lia|lia|lia|].
  intros _ _. split_and!; [done|eauto|]. intros ->. simpl. eauto.
Qed.

(** The delta of the cursor, put in front of what the rest of the walk finds. *)
Definition pushed (w : @Walk C) (e' : Entry) (o : bytes) (c : C) : @Walk C :=
  let size := Z.to_nat (decompressed_size (cursor w)) in
  mkWalk e' (chain w ++ [mkDelta (0%nat, size) 0 0 size (data_offset (cursor w))])
    (base_buffer_size w) (object_kind w) (consumed_input w)
    (wrap 64 (total_delta_data_size w + decompressed_size (cursor w))) o c.

Lemma walked_push e e' w w' o c k b t n total :
  cursor w = e → delta_of e b t → (length t ≤ big)%nat → 0 ≤ decompressed_size e → 0 ≤ total_delta_data_size w →
  total_delta_data_size w + decompressed_size e < 2 ^ 64 → 0 ≤ total →
  walked e' (pushed w e' o c) w' k b n total →
  walked e w w' k t (S n) (total + decompressed_size e).
Proof.
  intros Hcur Hd Hbt Hs H0 H64 Ht (ds & b0 & Hch & Hf & Ha & Hb & Hv & Hn & Htot & Hle & _).
  unfold pushed in *. rewrite Hcur in *. cbn [chain total_delta_data_size] in *.
  set (d := mkDelta _ _ _ _ _) in *.
  exists (d :: ds), b0. rewrite Hch, <- app_assoc. rewrite wrap_small in Htot by lia.
  rewrite sizes_cons. change (delta_size d) with (Z.to_nat (decompressed_size e)).
  split_and!; [done|done| |done|done|simpl; lia|lia|lia|done].
  cbn [rev]. apply applies_app. exists b. split; [done|]. simpl. eauto.
Qed.

(** Without a hit the delta of the cursor stays in the chain. *)
Lemma chain_prefix fuel (w w' : @Walk C) :
  chain_loop pack hash_len resolve fuel w = Some (Ok w') → ∃ ds, chain w' = chain w ++ ds.
Proof.
  revert w. induction fuel as [|fuel IH]; intros w; cbn [chain_loop];
    (destruct (negb _); [intros [= <-]; exists []; by rewrite app_nil_r|]); [done|].
  destruct (cache.get _ _ _) as [[c o] [[k m]|]].
  { intros [= <-]. exists []. by rewrite app_nil_r. }
  destruct (header (cursor w)); try done.
  - destruct (resolve _ _) as [o' [[e|k n]|]]; [|intros [= <-]; by eexists|done].
    intros [ds Hds]%IH. cbn [chain] in Hds. rewrite <- app_assoc in Hds. eauto.
  - destruct (_ ≫= _); [|done..]. intros [ds Hds]%IH. cbn [chain] in Hds.
    rewrite <- app_assoc in Hds. eauto.
Qed.

Lemma chain_missed fuel (w w' : @Walk C) :
  chain_loop pack hash_len resolve fuel w = Some (Ok w') → is_delta (header (cursor w)) = true →
  (cache.get (wcache w) (data_offset (cursor w)) (out w)).2 = None → chain w' ≠ [].
Proof.
  destruct fuel as [|fuel]; cbn [chain_loop]; intros H Hd Hg; rewrite Hd in H; [done|].
  cbn [negb] in H. destruct (cache.get _ _ _) as [[c o] r]. simpl in Hg. subst r.
  destruct (header (cursor w)); try done.
  - destruct (resolve _ _) as [o' [[e|k n]|]]; [|injection H as <-|done].
    + apply chain_prefix in H as [ds Hds]. rewrite Hds. cbn [chain]. by intros [[_ ?]%app_nil _]%app_nil.
    + cbn [chain]. by intros [_ ?]%app_nil.
  - destruct (_ ≫= _); [|done..]. apply chain_prefix in H as [ds Hds]. rewrite Hds. cbn [chain].
    by intros [[_ ?]%app_nil _]%app_nil.
Qed.

Lemma chain_loop_spec e k t n total :
  object big e k t n total →
  ∀ fuel w, (n ≤ fuel)%nat → valid (wcache w) → cursor w = e → base_buffer_size w = None →
    0 ≤ total_delta_data_size w → total_delta_data_size w + total < 2 ^ 64 →
    ∃ w', chain_loop pack hash_len resolve fuel w = Some (Ok w') ∧ walked e w w' k t n total.
Proof.
  intros Ho. induction Ho as [e k d Hk Hh Hsz Hbig|e distance ofs e' k b t n total Hh Hofs He' Ho IH Hd Hbig Hs
    |e id e' k b t n total Hh Hr Ho IH Hd Hbig Hs|e id k b t Hh Hr Hb Hd Hbig Hs];
    intros fuel w Hfuel Hv Hcur Hbb H0 H64.
  - exists w. pose proof (as_kind_delta _ _ Hk) as Hnd. split.
    { destruct fuel; simpl; by rewrite Hcur, Hnd. }
    exists [], d. rewrite app_nil_r. unfold found, sizes. rewrite Hbb, Hcur, Hnd. simpl.
    split_and!; try done; lia.
  - destruct fuel as [|fuel]; [lia|]. cbn [chain_loop]. rewrite Hcur, Hh. cbn [is_delta negb].
    pose proof (object_total _ _ _ _ _ _ Ho) as Ht.
    destruct (cache.get (wcache w) (data_offset e) (out w)) as [[c o] [[k0 m]|]] eqn:Hg.
    { eexists. split; [done|]. rewrite <- Hcur. eapply walked_hit; [done|by rewrite Hcur|].
      rewrite Hcur. by eapply object_ofs. }
    rewrite Hofs. cbn [lift]. rewrite bind_Ok, He'. fold (pushed w e' o c).
    destruct (IH fuel (pushed w e' o c)) as (w' & Hw & Hwd);
      [lia|by eapply get_valid|done|done| | |].
    + unfold pushed. rewrite Hcur. cbn. rewrite wrap_small by lia. lia.
    + unfold pushed. rewrite Hcur. cbn. rewrite wrap_small by lia. lia.
    + exists w'. split; [|by eapply walked_push; [..|exact Hwd]; (done || lia)].
      unfold pushed in Hw. rewrite Hcur in Hw. exact Hw.
  - destruct fuel as [|fuel]; [lia|]. cbn [chain_loop]. rewrite Hcur, Hh. cbn [is_delta negb].
    pose proof (object_total _ _ _ _ _ _ Ho) as Ht.
    destruct (cache.get (wcache w) (data_offset e) (out w)) as [[c o] [[k0 m]|]] eqn:Hg.
    { eexists. split; [done|]. rewrite <- Hcur. eapply walked_hit; [done|by rewrite Hcur|].
      rewrite Hcur. by eapply object_ref. }
    destruct (Hr o) as [o' ->].
    destruct (IH fuel (pushed w e' o' c)) as (w' & Hw & Hwd);
      [lia|by eapply get_valid|done|done| | |].
    + unfold pushed. rewrite Hcur. cbn. rewrite wrap_small by lia. lia.
    + unfold pushed. rewrite Hcur. cbn. rewrite wrap_small by lia. lia.
    + exists w'. split; [|by eapply walked_push; [..|exact Hwd]; (done || lia)].
      unfold pushed in Hw. rewrite Hcur in Hw. exact Hw.
  - destruct fuel as [|fuel]; [lia|]. cbn [chain_loop]. rewrite Hcur, Hh. cbn [is_delta negb].
    destruct (cache.get (wcache w) (data_offset e) (out w)) as [[c o] [[k0 m]|]] eqn:Hg.
    { eexists. split; [done|]. rewrite <- Hcur. eapply walked_hit; [done|by rewrite Hcur|].
      rewrite Hcur. by eapply object_thin. }
    rewrite Hr. eexists. split; [done|]. rewrite wrap_small by lia.
    eexists [_], b. split; [done|]. unfold found. cbn.
    pose proof (get_valid _ _ _ _ _ _ Hv Hg). unfold sizes. simpl.
    split_and!; try done; try lia. eauto.
Qed.
End Walk.

(** *** Inflating the deltas *)

Lemma decompress_holds ofs d o :
  holds ofs d → (length d ≤ length o)%nat →
  ∃ c, decompress_entry_from_data_offset pack ofs o = Ok (c, d ++ drop (length d) o).
Proof.
  intros [Ho Hd] Hlen. destruct (Hd (length o)) as [c Hc]. exists c.
  unfold decompress_entry_from_data_offset, decompress_entry_from_data_offset_2.
  rewrite (proj2 (Z.ltb_lt _ _)) by lia. cbn [assert_]. rewrite bind_Ok, slice_from_le, bind_Ok by lia.
  by rewrite Hc, take_ge, bind_Ok by lia.
Qed.

(** Deltas whose instructions lie in [instrs] at the recorded ranges. *)
Fixpoint ready (l : list Delta) (instrs b t : bytes) : Prop :=
  match l with
  | [] => b = t
  | d :: l =>
      ∃ m ins, @slice Empty_set Z instrs (ddata d).1 (ddata d).2 = Ok ins ∧
        base_size d = length b ∧ result_size d = length m ∧
        apply b (length m) ins = Ok m ∧ ready l instrs m t
  end.

Lemma inflate_loop_spec big l b t :
  applies big l b t → (length b ≤ big)%nat →
  ∀ instr rel big0 cons, length instr = sizes l → 0 ≤ big0 ≤ Z.of_nat big →
  ∃ dd l' big' cons',
    inflate_loop pack l instr rel big0 cons = Ok (dd, l', big', cons') ∧
    length dd = sizes l ∧ length l' = length l ∧
    (∀ pre, length pre = rel → ready l' (pre ++ dd) b t) ∧
    Forall (λ d, Z.of_nat (base_size d) ≤ big' ∧ Z.of_nat (result_size d) ≤ big') l' ∧
    big0 ≤ big' ≤ Z.of_nat big ∧
    (l ≠ [] → is_Some cons' ∧ Z.of_nat (length b) ≤ big' ∧ Z.of_nat (length t) ≤ big').
Proof.
  revert b. induction l as [|d l IH]; intros b Ha Hb instr rel big0 cons Hlen Hbig.
  { simpl in Ha. subst. apply nil_length_inv in Hlen. subst.
    exists [], [], big0, cons. split_and!; try done; lia. }
  destruct Ha as (m & (h1 & h2 & ins & Hh & Hsz & H1 & H2 & Happ) & Hm & Ha).
  rewrite sizes_cons in *. set (data := h1 ++ h2 ++ ins) in *. cbn [inflate_loop].
  rewrite slice_to_le, bind_Ok by lia.
  destruct (decompress_holds (delta_offset d) data (take (delta_size d) instr) Hh) as [c Hc];
    [rewrite length_take; lia|].
  rewrite Hc, bind_Ok. rewrite (drop_ge (take _ _)), app_nil_r by (rewrite length_take; lia).
  set (tl := drop (delta_size d) instr).
  assert (Htl : length tl = sizes l) by (unfold tl; rewrite length_drop; lia).
  assert (Hd1 : decode_header_size (data ++ tl) = (Z.of_nat (length b), length h1)).
  { unfold data. rewrite <- !app_assoc. apply H1. }
  rewrite Hd1. assert (Hs1 : slice_from (data ++ tl) (length h1) = @Ok Error _ (h2 ++ ins ++ tl)).
  { unfold data. rewrite <- !app_assoc. apply slice_from_app. }
  rewrite Hs1, bind_Ok, H2. rewrite (slice_from_at data tl) by done. rewrite bind_Ok.
  destruct (IH m Ha Hm tl (rel + delta_size d)%nat
    (Z.max (Z.max big0 (Z.of_nat (length b))) (Z.of_nat (length m)))
    (if bool_decide (l = []) then Some c else cons)) as
    (dd & l' & big' & cons' & Hrun & Hdd & Hl' & Hready & Hall & Hbig' & Hlast); [done|lia|].
  rewrite Hrun, bind_Ok. rewrite take_app_length' by done.
  eexists _, _, big', cons'. split; [done|]. rewrite length_app, !Nat2Z.id. cbn [length].
  split_and!; [lia|lia| | |lia|lia|].
  - intros pre Hpre. cbn [ready ddata base_size result_size fst snd]. exists m, ins.
    split_and!; [|done|done|done|].
    + unfold data. rewrite <- !app_assoc, !(app_assoc pre), app_assoc.
      apply slice_app; rewrite !length_app; [lia|].
      unfold data in Hsz. rewrite !length_app in Hsz. lia.
    + rewrite app_assoc. apply Hready. rewrite length_app. lia.
  - constructor; [cbn; lia|done].
  - intros _. destruct (decide (l = [])) as [->|Hne].
    + simpl in Ha. subst m. cbn [inflate_loop] in Hrun. injection Hrun as _ _ _ <-.
      split_and!; [by eexists|lia|lia].
    + destruct (Hlast Hne) as (? & ? & ?). split_and!; [done|lia|done].
Qed.

(** *** Applying the deltas *)

Lemma apply_chain_spec N l instrs b t :
  ready l instrs b t →
  Forall (λ d, (base_size d ≤ N)%nat ∧ (result_size d ≤ N)%nat) l →
  ∀ fill target last, length (b ++ fill) = N → length target = N →
  ∃ fill' target', apply_chain l (b ++ fill) target instrs last =
      Ok (t ++ fill', target', if bool_decide (l = []) then last else Some (length t)) ∧
    length (t ++ fill') = N ∧ length target' = N.
Proof.
  revert b. induction l as [|d l IH]; intros b Hr Hall fill target last Hs Ht.
  { simpl in Hr. subst. by exists fill, target. }
  destruct Hr as (m & ins & Hsl & Hbs & Hrs & Happ & Hr).
  apply Forall_cons in Hall as [[Hb Hm] Hall]. cbn [apply_chain].
  rewrite Hsl, bind_Ok, Hbs, slice_to_app, bind_Ok by done.
  rewrite Hrs, slice_to_le, bind_Ok, length_take by lia. rewrite Nat.min_l, Happ, bind_Ok by lia.
  assert (Hlm : length m = length m) by done.
  destruct (IH m Hr Hall (drop (length m) target) (b ++ fill)
    (if bool_decide (l = []) then Some (length m) else last)) as (f' & t' & Hrun & H1 & H2).
  { rewrite length_app, length_drop. lia. }
  { done. }
  exists f', t'. rewrite Hrun. split_and!; [|done|done]. do 2 f_equal.
  rewrite (bool_decide_false (d :: l = [])) by done.
  destruct (decide (l = [])) as [->|Hne].
  - simpl in Hr. subst. by rewrite bool_decide_true.
  - by rewrite bool_decide_false.
Qed.

(** *** The buffers *)

Section Buffers.
Context {C : Type} {CD : cache.DecodeEntry C}.
Context (alloc : Z → bool) (Halloc : ∀ n, n < 2 ^ 63 → alloc n = true).

Lemma grow_ok o size : size < 2 ^ 63 → grow alloc o size = Ok (resize o (Z.to_nat size)).
Proof.
  intros Hs. unfold grow, try_reserve.
  destruct (Z.eqb_spec (Z.max 0 (size - Z.of_nat (length o))) 0); [done|].
  cbn [orb]. rewrite Halloc by lia. done.
Qed.

Lemma rescue_spec x dd n :
  (length x < n)%nat → (length x ≤ n)%nat →
  ∃ y, rescue (resize (x ++ dd) (n + length dd)) (length x) (length dd) n = Ok ((x ++ y) ++ dd) ∧
    length (x ++ y) = n.
Proof.
  intros Hn _. set (o := resize (x ++ dd) (n + length dd)).
  assert (Ho : o = (x ++ dd) ++ replicate (n - length x) 0).
  { unfold o, resize. rewrite take_ge by (rewrite length_app; lia). do 2 f_equal.
    rewrite length_app. lia. }
  assert (Hlo : length o = (n + length dd)%nat) by apply length_resize.
  unfold rescue. rewrite (proj2 (Nat.ltb_lt _ _)) by lia.
  assert (Hs : slice o (length x) (length x + length dd) = @Ok Error _ dd).
  { rewrite Ho, <- app_assoc. by apply slice_app. }
  rewrite Hs, bind_Ok. rewrite (proj2 (Nat.leb_le _ _)) by lia. cbn [assert_]. rewrite bind_Ok.
  rewrite (drop_ge o), app_nil_r by lia.
  exists (drop (length x) (take n o)).
  assert (Hx : x ++ drop (length x) (take n o) = take n o).
  { rewrite <- (take_drop (length x) (take n o)) at 2. f_equal.
    rewrite take_take, Nat.min_l, Ho, <- app_assoc, take_app_length by lia. done. }
  rewrite Hx. split; [done|]. rewrite length_take. lia.
Qed.

Lemma resolve_chain_spec big e (w : @Walk C) k b t :
  found w k b → applies big (rev (chain w)) b t → chain w ≠ [] →
  (length b ≤ big)%nat → t ≠ [] →
  total_delta_data_size w = Z.of_nat (sizes (chain w)) →
  2 * Z.of_nat big + Z.of_nat (sizes (chain w)) < 2 ^ 63 →
  ∃ c, resolve_chain pack alloc e w =
    Ok (mkOutcome k (wrap 32 (Z.of_nat (length (chain w)))) (decompressed_size e) c
          (Z.of_nat (length t)), t).
Proof.
  intros Hf Ha Hne Hb Ht Htot Hbound. unfold resolve_chain. rewrite Htot.
  set (S := sizes (chain w)) in *. set (ds := match base_buffer_size w with Some n => n | None => 0%nat end).
  (* the part of the base that is in the output vector *)
  set (x := match base_buffer_size w with Some _ => b | None => [] end).
  assert (Hds : ds = length x ∧ (length x ≤ length b)%nat ∧
    ∀ n, (ds ≤ n)%nat → take ds (resize (out w) n) = x).
  { unfold ds, x, found in *. destruct (base_buffer_size w) as [n0|].
    - destruct Hf as (-> & -> & _). split_and!; [done|done|]. intros n Hn.
      unfold resize. rewrite take_app_le by (rewrite length_take; lia).
      rewrite take_take, take_ge by lia. done.
    - split_and!; [done|simpl; lia|]. intros n _. apply take_0. }
  destruct Hds as (Hds & Hxb & Hx).
  rewrite (wrap_small 64 (Z.of_nat ds + _)) by lia. rewrite grow_ok, bind_Ok by lia.
  replace (Z.to_nat (Z.of_nat ds + Z.of_nat S)) with (ds + S)%nat by lia.
  set (o := resize (out w) (ds + S)). assert (Ho : length o = (ds + S)%nat) by apply length_resize.
  assert (Hsl : slice o ds (ds + S) = @Ok Error _ (drop ds o)).
  { apply slice_ok_iff. split_and!; [lia|lia|]. rewrite take_ge; [done|rewrite length_drop; lia]. }
  rewrite Hsl, bind_Ok.
  destruct (inflate_loop_spec big (rev (chain w)) b t Ha Hb (drop ds o) 0 0 (consumed_input w))
    as (dd & l' & B & cons & Hrun & Hdd & Hl' & Hready & Hall & HB & Hlast);
    [rewrite length_drop, sizes_rev; lia|lia|].
  destruct Hlast as ([c ->] & HbB & HtB); [by intros Hrev%(f_equal (@rev _)); rewrite rev_involutive in Hrev|].
  rewrite Hrun, bind_Ok. clear Hsl Hrun. rewrite sizes_rev in Hdd. fold S in Hdd.
  unfold o. rewrite Hx by lia. clear o Ho.
  assert (Htl : (0 < length t)%nat) by (destruct t; [done|simpl; lia]).
  rewrite (wrap_small 64 (B + B)) by lia. rewrite (wrap_small 64 (B + B + _)) by lia.
  rewrite grow_ok, bind_Ok by lia.
  set (N := Z.to_nat B). replace (Z.to_nat (B + B)) with (N + N)%nat by lia.
  replace (Z.to_nat (B + B + Z.of_nat S)) with (N + N + length dd)%nat by lia.
  replace (Z.to_nat (Z.of_nat S)) with (length dd) by lia. rewrite Hds.
  destruct (rescue_spec x dd (N + N)) as (y & Hres & Hy); [lia|lia|].
  rewrite Hres, bind_Ok. clear Hres.
  (* the base is at the start of the first buffer *)
  assert (Hbase : ∃ z, (match base_buffer_size w with
      | None => '(_, out) ← decompress_entry_from_data_offset pack (data_offset (cursor w)) ((x ++ y) ++ dd);
                Ok (as_kind (header (cursor w)), out)
      | Some _ => Ok (object_kind w, (x ++ y) ++ dd)
      end) = Ok (Some k, (b ++ z) ++ dd) ∧ length (b ++ z) = (N + N)%nat).
  { unfold x, found in *. destruct (base_buffer_size w).
    - destruct Hf as (_ & _ & ->). by exists y.
    - destruct Hf as [Hh ->].
      destruct (decompress_holds _ b (([] ++ y) ++ dd) Hh) as [c' ->];
        [rewrite length_app; lia|]. rewrite bind_Ok.
      exists (drop (length b) y). cbn [app] in *. rewrite drop_app_le by lia.
      rewrite <- app_assoc. split; [done|]. rewrite length_app, length_drop. lia. }
  destruct Hbase as (z & -> & Hz). rewrite bind_Ok, slice_to_app, bind_Ok by lia.
  rewrite (slice_from_at (b ++ z)), bind_Ok by lia.
  rewrite slice_to_le, bind_Ok, slice_from_le, bind_Ok by lia.
  rewrite take_app_ge by lia.
  destruct (apply_chain_spec N l' dd b t (Hready [] eq_refl)) with
    (fill := take (N - length b) z) (target := drop N (b ++ z)) (last := @None nat)
    as (fill' & target' & Happ & Hs1 & Hs2).
  { eapply Forall_impl; [exact Hall|]. cbn. intros d Hd. lia. }
  { rewrite length_app, length_take. rewrite length_app in Hz. lia. }
  { rewrite length_drop. lia. }
  rewrite Happ. cbn [lift]. rewrite bind_Ok, bool_decide_false.
  2:{ intros ->. simpl in Hl'. rewrite length_rev in Hl'. by destruct (chain w). }
  cbn [expect]. rewrite bind_Ok.
  assert (Hfin : ∃ rest, (if Nat.odd (length (chain w)) then
       src ← slice_to (t ++ fill') (length t);
       tgt ← slice_to target' (length t);
       _ ← assert_ (length tgt =? length src)%nat;
       Ok (src ++ drop (length t) target' ++ (t ++ fill') ++ dd)
     else Ok ((t ++ fill') ++ target' ++ dd)) = @Ok Error _ (t ++ rest)).
  { destruct (Nat.odd _).
    - rewrite slice_to_app, bind_Ok, slice_to_le, bind_Ok by lia. rewrite length_take.
      rewrite Nat.min_l, Nat.eqb_refl by lia. cbn [assert_]. rewrite bind_Ok. eauto.
    - rewrite <- app_assoc. eauto. }
  destruct Hfin as [rest ->]. rewrite bind_Ok. cbn [expect]. rewrite !bind_Ok.
  rewrite take_app_length. eauto.
Qed.
End Buffers.

(** *** Headers *)

Section Headers.
Context (hresolve : bytes → option ResolvedHeader).
(** Both ways to resolve a base agree. *)
Hypothesis Hin : ∀ id o o' e, resolve id o = (o', Some (InPack e)) → hresolve id = Some (HInPack e).
Hypothesis Hout : ∀ id o o' k n, resolve id o = (o', Some (OutOfPack k n)) →
  ∃ m, hresolve id = Some (HOutOfPack k m).

Lemma header_loop_spec big e k t n total :
  object big e k t n total → ∀ fuel m size, (n ≤ fuel)%nat →
  ∃ m', header_loop pack hash_len hresolve fuel e m (Some size) = Some (Ok (k, size, m')).
Proof.
  induction 1 as [e k d Hk|e distance ofs e' k b t n total Hh Hofs He' _ IH _ _ _
    |e id e' k b t n total Hh Hr _ IH _ _ _|e id k b t Hh Hr _ _ _ _];
    intros fuel m size Hfuel.
  - exists m. destruct fuel; simpl; by rewrite Hk.
  - destruct fuel as [|fuel]; [lia|]. cbn [header_loop]. rewrite Hh. cbn [as_kind].
    rewrite Hofs. cbn [lift]. rewrite bind_Ok, He'. apply IH. lia.
  - destruct fuel as [|fuel]; [lia|]. cbn [header_loop]. rewrite Hh. cbn [as_kind].
    destruct (Hr []) as [o' Ho]. rewrite (Hin _ _ _ _ Ho). apply IH. lia.
  - destruct fuel as [|fuel]; [lia|]. cbn [header_loop]. rewrite Hh. cbn [as_kind].
    destruct (Hout _ _ _ _ _ (Hr [])) as [m' ->]. eauto.
Qed.

(** The size headers of the delta lie in its first 32 bytes. *)
Definition short_headers (e : Entry) (n : nat) : Prop :=
  ∃ h1 h2 ins m, holds (data_offset e) (h1 ++ h2 ++ ins) ∧
    size_header h1 m ∧ size_header h2 n ∧ (length (h1 ++ h2) ≤ 32)%nat.

Lemma decode_delta_object_size_spec e n :
  short_headers e n → decode_delta_object_size pack e = Ok (Z.of_nat n).
Proof.
  intros (h1 & h2 & ins & m & [Ho Hh] & H1 & H2 & Hlen). rewrite length_app in Hlen.
  unfold decode_delta_object_size, decompress_entry_from_data_offset_2.
  rewrite (proj2 (Z.ltb_lt _ _)) by lia. cbn [assert_]. rewrite bind_Ok, slice_from_le, bind_Ok by lia.
  rewrite length_replicate. destruct (Hh 32%nat) as [c ->]. rewrite bind_Ok.
  rewrite slice_to_app, bind_Ok by done.
  assert (Hbuf : ∃ r, take 32 (h1 ++ h2 ++ ins) = h1 ++ h2 ++ r).
  { exists (take (32 - length h1 - length h2) ins).
    by rewrite take_app_ge, take_app_ge by lia. }
  destruct Hbuf as [r ->]. by rewrite H1, slice_from_app, bind_Ok, H2.
Qed.
End Headers.
End Spec.

(** ** Properties *)

(** C3: Decoding an entry yields its object.  Let [e] be an entry of a pack
    that denotes the object [t] of kind [k]: it inflates to [t], or it is the
    last of a chain of deltas over a base that is found by offset, by id in
    this pack, or by id elsewhere.  Whatever the output vector held before and
    whatever a correct cache holds, [decode_entry] returns [t] in the vector
    and the kind [k], after at most as many rounds as there are deltas; the
    cache stays correct.  The reported size is that of [t] unless the cache
    held the entry itself.  (For deltas [t] must not be empty, see
    [empty_delta_panics].) *)
Theorem decode_entry_correct {ZL : zlib.Api} {C} {CD : cache.DecodeEntry C}
    pack hash_len resolve alloc big valid
    {CL : CacheLaws pack hash_len resolve C big valid} e k t n total o c fuel :
  (∀ n, n < 2 ^ 63 → alloc n = true) → valid c →
  object pack hash_len resolve big e k t n total → is_delta (header e) = false ∨ t ≠ [] →
  2 * Z.of_nat big + total < 2 ^ 63 → (n ≤ fuel)%nat →
  ∃ oc c', decode_entry pack hash_len alloc resolve fuel e o c = Some (Ok (oc, t, c')) ∧
    kind oc = k ∧ valid c' ∧
    (is_delta (header e) = false ∨ (cache.get c (data_offset e) o).2 = None →
     object_size oc = Z.of_nat (length t)).
Proof.
  intros Halloc Hv Ho Ht Hbound Hfuel. unfold decode_entry.
  destruct (is_delta (header e)) eqn:Hd.
  - destruct Ht as [?|Ht]; [done|]. unfold resolve_deltas.
    destruct (chain_loop_spec pack hash_len resolve big valid e k t n total Ho fuel
      (mkWalk e [] None None None 0 o c)) as (w & Hw & ds & b & Hch & Hf & Ha & Hb & Hv' & _ & Htot & Hle & Hemp);
      [done..|simpl; lia|].
    cbn [chain total_delta_data_size app] in *. rewrite Hw. cbn [mbind option_bind res_bind].
    destruct ds as [|d ds].
    + destruct (Hemp eq_refl Hd) as (-> & [m Hm] & [u Hu]); [done|].
      unfold found in Hf. rewrite Hm in Hf. destruct Hf as (_ & Hout & Hk).
      rewrite Hch, bool_decide_true by done. rewrite Hk, Hu. cbn [expect]. rewrite !bind_Ok, Hout.
      eexists _, _. split_and!; [done|done|done|]. intros [?|Hget]; [done|]. exfalso.
      by destruct (chain_missed pack hash_len resolve fuel (mkWalk e [] None None None 0 o c) w).
    + rewrite Hch, bool_decide_false by done.
      destruct (resolve_chain_spec pack alloc Halloc big e w k b t Hf) as [u Hr];
        [by rewrite Hch|by rewrite Hch|done|done|by rewrite Hch|rewrite Hch; lia|].
      rewrite Hr, bind_Ok. eexists _, _. split_and!; [done|done| |done].
      cbn [kind]. by eapply put_valid.
  - inversion Ho as [? ? d Hk Hh Hsz Hbig| ? ? ? ? ? ? ? ? ? Hhe|? ? ? ? ? ? ? ? Hhe|? ? ? ? ? Hhe];
      subst; [|by rewrite Hhe in Hd..].
    assert (Hres : (if Z.of_nat (length o) <=? decompressed_size e
      then _ ← try_reserve alloc o (decompressed_size e - Z.of_nat (length o)); Ok o else Ok o) = Ok o).
    { destruct (Z.leb_spec (Z.of_nat (length o)) (decompressed_size e)); [|done].
      unfold try_reserve. rewrite Halloc, orb_true_r by lia. done. }
    rewrite Hres, bind_Ok. unfold decompress_entry. rewrite length_resize, Hsz, Nat2Z.id.
    rewrite (proj2 (Z.leb_le _ _)) by lia. cbn [assert_]. rewrite bind_Ok.
    destruct (decompress_holds pack _ t (resize o (length t)) Hh) as [u ->];
      [by rewrite length_resize|].
    rewrite bind_Ok, Hk, (drop_ge (resize _ _)), app_nil_r by (by rewrite length_resize).
    cbn [expect]. rewrite bind_Ok. eexists _, _. split_and!; [done|done|done|]. done.
Qed.

(** The header of an entry is the header of the object that decoding it
    yields: without reconstructing the object, [decode_header] returns its kind
    and its size, after at most as many rounds as there are deltas.  (The two
    functions are given separate callbacks for bases that are named by id; they
    must agree.  [decode_delta_object_size] inflates 32 bytes only, so both size
    headers of the entry must fit there.) *)
Theorem decode_header_agrees {ZL : zlib.Api} pack hash_len resolve hresolve big e k t n total fuel :
  (∀ id o o' e, resolve id o = (o', Some (InPack e)) → hresolve id = Some (HInPack e)) →
  (∀ id o o' k n, resolve id o = (o', Some (OutOfPack k n)) →
     ∃ m, hresolve id = Some (HOutOfPack k m)) →
  object pack hash_len resolve big e k t n total →
  is_delta (header e) = false ∨ short_headers pack e (length t) → (n ≤ fuel)%nat →
  ∃ m, decode_header pack hash_len hresolve fuel e = Some (Ok (k, Z.of_nat (length t), m)).
Proof.
  intros Hin Hout Ho Hd Hfuel. unfold decode_header.
  destruct (as_kind (header e)) as [k'|] eqn:Hk.
  { exists 0. inversion Ho; subst; simplify_eq;
      try match goal with H : header e = _ |- _ => by rewrite H in Hk end.
    destruct fuel; simpl; rewrite Hk; cbn [default]; congruence. }
  destruct Hd as [Hd|Hd]; [by destruct (header e)|].
  apply decode_delta_object_size_spec in Hd.
  destruct fuel as [|fuel]; [inversion Ho; subst; (congruence || lia)|].
  cbn [header_loop]. rewrite Hk, Hd.
  inversion Ho as [|? ? ? ? ? ? ? ? ? Hh Hofs He' Ho'|? ? ? ? ? ? ? ? Hh Hr Ho'|? ? ? ? ? Hh Hr];
    subst; [congruence|..]; rewrite Hh.
  - rewrite Hofs. cbn [lift]. rewrite bind_Ok, He'. eapply header_loop_spec; [done..|lia].
  - destruct (Hr []) as [o' Heq]. rewrite (Hin _ _ _ _ Heq). eapply header_loop_spec; [done..|lia].
  - destruct (Hout _ _ _ _ _ (Hr [])) as [m' ->]. eauto.
Qed.

(** ** Witnesses *)

(** A stream that is stored: its length and its bytes. *)
Definition stored : zlib.Api := {|
  zlib.once := λ input n,
    match input with
    | [] => None
    | l :: d => Some (S (Z.to_nat l), take n (take (Z.to_nat l) d))
    end |}.
(** A blob, a delta that appends to it, and a delta that takes three bytes of
    the result. *)
Definition example_pack : bytes :=
  [59; 11; 104; 101; 108; 108; 111; 32; 119; 111; 114; 108; 100] ++
  [103; 13; 7; 11; 7; 144; 5; 2; 33; 33] ++ [100; 10; 4; 7; 3; 144; 3].
Definition example_entry (ofs : Z) : Entry :=
  match @entry example_pack 20 ofs with
  | Ok e => e
  | _ => mkEntry Blob 0 0
  end.
Definition no_bases (_ o : bytes) : bytes * option ResolvedBase := (o, None).
Definition blob_bytes : bytes := [104; 101; 108; 108; 111; 32; 119; 111; 114; 108; 100].

Lemma size_header_1 b n : decode_header_size [b] = (Z.of_nat n, 1%nat) → b < 128 → 0 ≤ b → size_header [b] n.
Proof.
  intros H Hb H0 rest. revert H. unfold decode_header_size. cbn [decode_header_size_loop app].
  rewrite land_128 by lia. by rewrite (proj2 (Z.ltb_lt _ _) Hb).
Qed.
Lemma stored_holds ofs l :
  0 ≤ ofs < Z.of_nat (length example_pack) →
  match drop (Z.to_nat ofs) example_pack with
  | n :: d => take (Z.to_nat n) d = l
  | [] => False
  end → @holds stored example_pack ofs l.
Proof.
  intros Hofs Hd. split; [done|]. intros n. cbn [zlib.once stored].
  destruct (drop (Z.to_nat ofs) example_pack) as [|m d]; [done|]. subst. by eexists.
Qed.
Lemma example_object :
  @object stored example_pack 20 no_bases 11 (example_entry 23) KBlob [104; 101; 108] 2 (0 + 7 + 4).
Proof.
  eapply (object_ofs _ _ _ _ (example_entry 23) 10 13 (example_entry 13) KBlob
    [104; 101; 108; 108; 111; 33; 33]); [reflexivity..| | |simpl; lia|vm_compute; congruence].
  - eapply (object_ofs _ _ _ _ (example_entry 13) 13 0 (example_entry 0) KBlob blob_bytes);
      [reflexivity..| | |simpl; lia|vm_compute; congruence].
    + apply object_base; [reflexivity|apply stored_holds; [vm_compute; intuition congruence|reflexivity]|reflexivity|simpl; lia].
    + exists [11], [7], [144; 5; 2; 33; 33].
      split_and!; [apply stored_holds; [vm_compute; intuition congruence|reflexivity]|reflexivity|
        apply size_header_1; (reflexivity || lia)..|reflexivity].
  - exists [7], [3], [144; 3].
    split_and!; [apply stored_holds; [vm_compute; intuition congruence|reflexivity]|reflexivity|
        apply size_header_1; (reflexivity || lia)..|reflexivity].
Qed.
#[local] Instance never_laws :
  @CacheLaws stored example_pack 20 no_bases unit never 11 (λ _, True).
Proof. split; [done|done|done]. Qed.

Lemma decode_entry_correct_witness :
  ∃ oc c', @decode_entry stored unit never example_pack 20 (λ _, true) no_bases 2
      (example_entry 23) [1; 2; 3] tt = Some (Ok (oc, [104; 101; 108], c')) ∧
    kind oc = KBlob ∧ True ∧
    (is_delta (header (example_entry 23)) = false ∨
       (@cache.get unit never tt (data_offset (example_entry 23)) [1; 2; 3]).2 = None →
     object_size oc = 3).
Proof.
  apply (@decode_entry_correct stored unit never example_pack 20 no_bases (λ _, true) 11 (λ _, True)
    never_laws (example_entry 23) KBlob [104; 101; 108] 2 (0 + 7 + 4) [1; 2; 3] tt 2).
  - reflexivity.
  - exact I.
  - exact example_object.
  - right. congruence.
  - simpl. lia.
  - lia.
Defined.

Lemma decode_header_agrees_witness :
  ∃ m, @decode_header stored example_pack 20 (λ _, None) 2 (example_entry 23) = Some (Ok (KBlob, 3, m)).
Proof.
  apply (@decode_header_agrees stored example_pack 20 no_bases (λ _, None) 11 (example_entry 23) KBlob
    [104; 101; 108] 2 (0 + 7 + 4) 2).
  - intros ? ? ? ?. discriminate.
  - intros ? ? ? ? ?. discriminate.
  - exact example_object.
  - right. exists [7], [3], [144; 3], 7%nat.
    split_and!; [apply stored_holds; [vm_compute; intuition congruence|reflexivity]|
      apply size_header_1; (reflexivity || lia)..|simpl; lia].
  - lia.
Defined.

(** ** Where decoding goes wrong *)

(** An empty blob and a delta that keeps it empty: both size headers are 0, so
    the two buffers are empty, and the instructions are read from behind the
    end of the vector. *)
Definition empty_pack : bytes := [48; 0; 98; 2; 2; 0; 0].
Example empty_delta_panics :
  @decode_entry stored unit never empty_pack 20 (λ _, true) no_bases 2
    (mkEntry (OfsDelta 2) 2 4) [] tt = Some Panic.
Proof. reflexivity. Qed.

(** A delta at distance 0 is its own base: the walk to the base does not end. *)
Example self_delta_diverges fuel :
  @decode_entry stored unit never [98; 0; 2; 0; 0] 20 (λ _, true) no_bases fuel
    (mkEntry (OfsDelta 0) 2 2) [] tt = None.
Proof.
  unfold decode_entry. cbn [is_delta header]. unfold resolve_deltas.
  set (w := mkWalk _ _ _ _ _ _ _ _).
  assert (Hw : cursor w = mkEntry (OfsDelta 0) 2 2) by done. clearbody w.
  revert w Hw. induction fuel as [|fuel IH]; intros w Hw; cbn [chain_loop]; rewrite Hw; [done|].
  cbn. by apply IH.
Qed.
