(* ===== verification/Packetline.v ===== *)
(** * The packet line wire format

    Models [gix-packetline/src]: decoding ([decode.rs]) and encoding
    ([encode/mod.rs], [encode/blocking_io.rs]) of single lines, the views of a
    line as error, text or side-band ([line/mod.rs], [line/blocking_io.rs]),
    the peekable line reader ([read/mod.rs], [read/blocking_io.rs]), the
    side-band demultiplexer ([read/sidebands/blocking_io.rs]) and the line
    writer ([write/blocking_io.rs]).

    An [io::Write] is the list of bytes written to it (a [Vec<u8>]), an
    [io::Read] the list of bytes it still has (a [&[u8]]), so the only I/O
    error is a premature end.  Tracing is left out. *)

From S2P Require Import Prelude External.

Definition U16_HEX_BYTES : nat := 4.
Definition MAX_DATA_LEN : nat := Z.to_nat 65516.
Definition MAX_LINE_LEN : nat := MAX_DATA_LEN + U16_HEX_BYTES.
Lemma max_data_len : Z.of_nat MAX_DATA_LEN = 65516.
Proof. reflexivity. Qed.
#[global] Opaque MAX_DATA_LEN.
Ltac limits := unfold MAX_LINE_LEN, U16_HEX_BYTES in *; pose proof max_data_len; lia.
Definition FLUSH_LINE : bytes := bs "0000".
Definition DELIMITER_LINE : bytes := bs "0001".
Definition RESPONSE_END_LINE : bytes := bs "0002".
Definition ERR_PREFIX : bytes := bs "ERR ".

Inductive Channel := CData | CProgress | CError.
Definition channel_id (c : Channel) : Z :=
  match c with CData => 1 | CProgress => 2 | CError => 3 end.

Inductive PacketLineRef := Data (d : bytes) | Flush | Delimiter | ResponseEnd.
Inductive BandRef := BData (d : bytes) | BProgress (d : bytes) | BError (d : bytes).

#[global] Instance PacketLineRef_eq_dec : EqDecision PacketLineRef.
Proof. solve_decision. Defined.

(** [decode::Error], [decode::band::Error] and [encode::Error]. *)
Inductive decode_error :=
| HexDecode (err : faster_hex.Error)
| DataLengthLimitExceeded (length_in_bytes : nat)
| DataIsEmpty
| InvalidLineLength
| NotEnoughData (bytes_needed : nat).
Inductive band_error := InvalidSideBand (band_id : Z) | NonDataLine.
Inductive encode_error := EncLimitExceeded (length_in_bytes : nat) | EncDataIsEmpty.

Inductive Stream :=
| Complete (line : PacketLineRef) (bytes_consumed : nat)
| Incomplete (bytes_needed : nat).
Inductive PacketLineOrWantedSize := Line (l : PacketLineRef) | Wanted (n : Z).

Section Code.
Context {FH : faster_hex.Api}.

(** ** [decode.rs] *)

(** [wanted_bytes - U16_HEX_BYTES as u16] wraps in the release profile. *)
Definition hex_prefix (four_bytes : bytes) : res decode_error PacketLineOrWantedSize :=
  if bool_decide (four_bytes = FLUSH_LINE) then Ok (Line Flush)
  else if bool_decide (four_bytes = DELIMITER_LINE) then Ok (Line Delimiter)
  else if bool_decide (four_bytes = RESPONSE_END_LINE) then Ok (Line ResponseEnd)
  else
    buf ← map_err HexDecode (faster_hex.hex_decode four_bytes);
    let wanted_bytes := be_val buf in
    if wanted_bytes =? 3 then Err InvalidLineLength
    else if wanted_bytes =? 4 then Err DataIsEmpty
    else Ok (Wanted (wrap 16 (wanted_bytes - 4))).

Definition to_data_line (data : bytes) : res decode_error PacketLineRef :=
  if (MAX_LINE_LEN <? length data)%nat then Err (DataLengthLimitExceeded (length data))
  else Ok (Data data).

Definition streaming (data : bytes) : res decode_error Stream :=
  let data_len := length data in
  if (data_len <? U16_HEX_BYTES)%nat then Ok (Incomplete (U16_HEX_BYTES - data_len))
  else
    prefix ← slice_to data U16_HEX_BYTES;
    p ← hex_prefix prefix;
    match p with
    | Line line => Ok (Complete line 4)
    | Wanted s =>
        let wanted_bytes := (Z.to_nat s + U16_HEX_BYTES)%nat in
        if (MAX_LINE_LEN <? wanted_bytes)%nat
        then Err (DataLengthLimitExceeded wanted_bytes)
        else if (data_len <? wanted_bytes)%nat
        then Ok (Incomplete (wanted_bytes - data_len))
        else
          content ← slice data U16_HEX_BYTES wanted_bytes;
          line ← to_data_line content;
          Ok (Complete line wanted_bytes)
    end.

Definition all_at_once (data : bytes) : res decode_error PacketLineRef :=
  s ← streaming data;
  match s with
  | Complete line _ => Ok line
  | Incomplete bytes_needed => Err (NotEnoughData bytes_needed)
  end.

(** ** [encode/mod.rs] and [encode/blocking_io.rs]: the bytes appended to
    [out] and the number returned *)

Definition u16_to_hex (value : Z) : bytes := faster_hex.hex_encode (be_bytes 2 value).

Definition prefixed_and_suffixed_data_to_write (prefix data suffix out : bytes)
  : res encode_error (bytes * nat) :=
  let data_len := (length prefix + length data + length suffix)%nat in
  if (MAX_DATA_LEN <? data_len)%nat then Err (EncLimitExceeded data_len)
  else if bool_decide (data = []) then Err EncDataIsEmpty
  else
    let data_len := (data_len + 4)%nat in
    let buf := u16_to_hex (wrap 16 (Z.of_nat data_len)) in
    let out := out ++ buf in
    let out := if bool_decide (prefix = []) then out else out ++ prefix in
    let out := out ++ data in
    let out := if bool_decide (suffix = []) then out else out ++ suffix in
    Ok (out, data_len).

Definition prefixed_data_to_write (prefix data out : bytes) :=
  prefixed_and_suffixed_data_to_write prefix data [] out.
Definition text_to_write (text out : bytes) :=
  prefixed_and_suffixed_data_to_write [] text [10] out.
Definition data_to_write (data out : bytes) := prefixed_data_to_write [] data out.
Definition band_to_write (kind : Channel) (data out : bytes) :=
  prefixed_data_to_write [channel_id kind] data out.
Definition error_to_write (message out : bytes) :=
  prefixed_data_to_write ERR_PREFIX message out.
Definition flush_to_write (out : bytes) : res encode_error (bytes * nat) :=
  Ok (out ++ FLUSH_LINE, 4%nat).
Definition delim_to_write (out : bytes) : res encode_error (bytes * nat) :=
  Ok (out ++ DELIMITER_LINE, 4%nat).
Definition response_end_to_write (out : bytes) : res encode_error (bytes * nat) :=
  Ok (out ++ RESPONSE_END_LINE, 4%nat).

(** ** [line/mod.rs] and [line/blocking_io.rs] *)

Definition as_slice (l : PacketLineRef) : option bytes :=
  match l with Data d => Some d | Flush | Delimiter | ResponseEnd => None end.

(** [check_error]: the message after [ERR ].  The slices are in range behind
    the length test. *)
Definition check_error (l : PacketLineRef) : option bytes :=
  data ← as_slice l;
  if (length ERR_PREFIX <=? length data)%nat &&
     bool_decide (take (length ERR_PREFIX) data = ERR_PREFIX)
  then Some (drop (length ERR_PREFIX) data) else None.

(** [TextRef::from]: the text without its last newline.  [d.len() - 1] of an
    empty slice is out of range in either build profile. *)
Definition text_from (d : bytes) : res Empty_set bytes :=
  match length d with
  | O => Panic
  | S n => c ← idx d n; if c =? 10 then slice_to d n else Ok d
  end.
Definition as_text (l : PacketLineRef) : res Empty_set (option bytes) :=
  match as_slice l with Some d => Some <$> text_from d | None => Ok None end.

Definition as_band (l : PacketLineRef) (kind : Channel) : option BandRef :=
  d ← as_slice l;
  Some match kind with CData => BData d | CProgress => BProgress d | CError => BError d end.

Definition decode_band (l : PacketLineRef) : res band_error BandRef :=
  d ← ok_or (as_slice l) NonDataLine;
  band ← idx d 0;
  match band with
  | 1 => rest ← slice_from d 1; Ok (BData rest)
  | 2 => rest ← slice_from d 1; Ok (BProgress rest)
  | 3 => rest ← slice_from d 1; Ok (BError rest)
  | _ => Err (InvalidSideBand band)
  end.

Definition band_write_to (b : BandRef) (out : bytes) : res encode_error (bytes * nat) :=
  match b with
  | BData d => band_to_write CData d out
  | BProgress d => band_to_write CProgress d out
  | BError d => band_to_write CError d out
  end.
Definition line_write_to (l : PacketLineRef) (out : bytes) : res encode_error (bytes * nat) :=
  match l with
  | Data d => data_to_write d out
  | Flush => flush_to_write out
  | Delimiter => delim_to_write out
  | ResponseEnd => response_end_to_write out
  end.

(** ** [read/mod.rs] and [read/blocking_io.rs]: the line reader *)

Inductive io_error :=
| UnexpectedEof
| ReadError (message : bytes)
| OtherDecode (e : decode_error)
| OtherBand (e : band_error)
| InterruptedByUser
| NonDataInDataContext.

(** [T::read_exact] of a [&[u8]]: a short input is used up. *)
Definition read_exact (reader : bytes) (n : nat) : option bytes * bytes :=
  if (n <=? length reader)%nat then (Some (take n reader), drop n reader)
  else (None, []).

(** [io::Result<Result<PacketLineRef, decode::Error>>] *)
Definition line_result : Type := res io_error (decode_error + PacketLineRef).

Record StreamingPeekableIter := mkIter {
  read : bytes;
  peek_buf : bytes;
  buf : bytes;
  fail_on_err_lines : bool;
  delimiters : list PacketLineRef;
  is_done : bool;
  stopped_at : option PacketLineRef }.

Definition iter_new (read : bytes) (delimiters : list PacketLineRef) : StreamingPeekableIter :=
  mkIter read [] (replicate MAX_LINE_LEN 0) false delimiters false None.
Definition reset_with (s : StreamingPeekableIter) (delimiters : list PacketLineRef) :=
  mkIter (read s) (peek_buf s) (buf s) (fail_on_err_lines s) delimiters false None.
Definition reset (s : StreamingPeekableIter) := reset_with s (delimiters s).
Definition set_fail_on_err_lines (s : StreamingPeekableIter) (value : bool) :=
  mkIter (read s) (peek_buf s) (buf s) value (delimiters s) (is_done s) (stopped_at s).
Definition replace (s : StreamingPeekableIter) (read' : bytes)
  : StreamingPeekableIter * bytes :=
  let prev := read s in
  let s := mkIter read' (peek_buf s) (buf s) (fail_on_err_lines s) (delimiters s)
             (is_done s) (stopped_at s) in
  (set_fail_on_err_lines (reset s) false, prev).

(** [peek_buffer_replace_and_truncate]; the three indexings panic when the
    peek buffer is too short. *)
Definition peek_buffer_replace_and_truncate (s : StreamingPeekableIter)
    (position : nat) (replace_with : Z) : res Empty_set StreamingPeekableIter :=
  let position := (position + U16_HEX_BYTES)%nat in
  if (position <? length (peek_buf s))%nat then
    let b := <[position := replace_with]> (peek_buf s) in
    let new_len := (position + 1)%nat in
    let b := take new_len b in
    let b := u16_to_hex (wrap 16 (Z.of_nat new_len)) ++ drop 4 b in
    Ok (mkIter (read s) b (buf s) (fail_on_err_lines s) (delimiters s)
          (is_done s) (stopped_at s))
  else Panic.

(** [read_line_inner]: the reader and the buffer afterwards, and the result.
    The two [split_at_mut] panic when the buffer is shorter than the split
    point. *)
Definition read_line_inner (reader buf : bytes)
  : res Empty_set (bytes * bytes * line_result) :=
  if (length buf <? 4)%nat then Panic
  else
    let data_bytes := drop 4 buf in
    match read_exact reader 4 with
    | (None, reader) => Ok (reader, buf, Err UnexpectedEof)
    | (Some hex_bytes, reader) =>
        match hex_prefix hex_bytes with
        | Panic => Panic
        | Ok (Line line) => Ok (reader, hex_bytes ++ data_bytes, Ok (inr line))
        | Err err => Ok (reader, hex_bytes ++ data_bytes, Ok (inl err))
        | Ok (Wanted additional_bytes) =>
            let num_data_bytes := Z.to_nat additional_bytes in
            if (length data_bytes <? num_data_bytes)%nat then Panic
            else
              let rest := drop num_data_bytes data_bytes in
              match read_exact reader num_data_bytes with
              | (None, reader) => Ok (reader, hex_bytes ++ data_bytes, Err UnexpectedEof)
              | (Some data_bytes, reader) =>
                  let buf := hex_bytes ++ data_bytes ++ rest in
                  match to_data_line data_bytes with
                  | Ok line => Ok (reader, buf, Ok (inr line))
                  | Err err => Ok (reader, buf, Ok (inl err))
                  | Panic => Panic
                  end
              end
        end
    end.

(** [read_line_inner_exhaustive]: reader, buffer, [is_done], [stopped_at] and
    the method's result. *)
Definition read_line_inner_exhaustive (reader buf : bytes)
    (delimiters : list PacketLineRef) (fail_on_err_lines buf_resize : bool)
  : res Empty_set (bytes * bytes * bool * option PacketLineRef * option line_result) :=
  '(reader, buf, r) ← read_line_inner reader buf;
  match r with
  | Ok (inr line) =>
      let go_on :=
        let len := match as_slice line with
                   | None => U16_HEX_BYTES
                   | Some s => (length s + U16_HEX_BYTES)%nat
                   end in
        let buf := if buf_resize then resize buf len else buf in
        match all_at_once buf with
        | Ok line => Ok (reader, buf, false, None, Some (Ok (inr line)))
        | _ => Panic
        end in
      if bool_decide (line ∈ delimiters) then
        Ok (reader, [], true, List.find (λ l, bool_decide (l = line)) delimiters, None)
      else if fail_on_err_lines then
        match check_error line with
        | Some err => Ok (reader, [], true, None, Some (Err (ReadError err)))
        | None => go_on
        end
      else go_on
  | Ok (inl err) => Ok (reader, [], false, None, Some (Ok (inl err)))
  | Err err => Ok (reader, [], false, None, Some (Err err))
  | Panic => Panic
  end.

Definition read_line (s : StreamingPeekableIter)
  : res Empty_set (StreamingPeekableIter * option line_result) :=
  if is_done s then Ok (s, None)
  else if bool_decide (peek_buf s ≠ []) then
    match all_at_once (peek_buf s) with
    | Ok line =>
        Ok (mkIter (read s) [] (peek_buf s) (fail_on_err_lines s) (delimiters s)
              (is_done s) (stopped_at s), Some (Ok (inr line)))
    | _ => Panic
    end
  else
    let b := if bool_decide (length (buf s) ≠ MAX_LINE_LEN)
             then resize (buf s) MAX_LINE_LEN else buf s in
    '(r, b, done, stop, result) ←
      read_line_inner_exhaustive (read s) b (delimiters s) (fail_on_err_lines s) false;
    Ok (mkIter r (peek_buf s) b (fail_on_err_lines s) (delimiters s) done stop, result).

Definition peek_line (s : StreamingPeekableIter)
  : res Empty_set (StreamingPeekableIter * option line_result) :=
  if is_done s then Ok (s, None)
  else if bool_decide (peek_buf s = []) then
    '(r, b, done, stop, result) ←
      read_line_inner_exhaustive (read s) (resize (peek_buf s) MAX_LINE_LEN)
        (delimiters s) (fail_on_err_lines s) true;
    Ok (mkIter r b (buf s) (fail_on_err_lines s) (delimiters s) done stop, result)
  else
    match all_at_once (peek_buf s) with
    | Ok line => Ok (s, Some (Ok (inr line)))
    | _ => Panic
    end.

(** ** [read/sidebands/blocking_io.rs]: the demultiplexer

    The progress handler is a state machine on [HS]: [FnMut(bool, &[u8])]. *)

Inductive ProgressAction := Continue | Interrupt.

Section Sidebands.
Context {HS : Type}.
Definition handler : Type := HS → bool → bytes → HS * ProgressAction.

Record WithSidebands := mkSide {
  parent : StreamingPeekableIter;
  handle_progress : option handler;
  hstate : HS;
  pos : nat;
  cap : nat }.

Definition with_progress_handler (p : StreamingPeekableIter) (h : handler) (st : HS) :=
  mkSide p (Some h) st 0 0.
Definition without_progress_handler (p : StreamingPeekableIter) (st : HS) :=
  mkSide p None st 0 0.

(** The [loop] of [fill_buf]: the offset and length of the next data.  Every
    round takes a line of at least four bytes from the reader or the peek
    buffer, so the bytes available bound the number of rounds. *)
Fixpoint fill_loop (fuel : nat) (p : StreamingPeekableIter) (h : option handler) (st : HS)
  : res Empty_set (StreamingPeekableIter * HS * res io_error (nat * nat)) :=
  match fuel with
  | O => Panic
  | S fuel =>
      '(p, line) ← read_line p;
      match line with
      | None => Ok (p, st, Ok (0%nat, 0%nat))
      | Some Panic => Panic
      | Some (Err e) => Ok (p, st, Err e)
      | Some (Ok (inl e)) => Ok (p, st, Err (OtherDecode e))
      | Some (Ok (inr line)) =>
          match h with
          | Some hp =>
              let call is_error d :=
                text ← text_from d;
                match hp st is_error text with
                | (st, Continue) => fill_loop fuel p h st
                | (st, Interrupt) => Ok (p, st, Err InterruptedByUser)
                end in
              match decode_band line with
              | Panic => Panic
              | Err e => Ok (p, st, Err (OtherBand e))
              | Ok (BData d) =>
                  if bool_decide (d = []) then fill_loop fuel p h st
                  else Ok (p, st, Ok ((U16_HEX_BYTES + 1)%nat, length d))
              | Ok (BProgress d) => call false d
              | Ok (BError d) => call true d
              end
          | None =>
              match as_slice line with
              | Some d => Ok (p, st, Ok (U16_HEX_BYTES, length d))
              | None => Ok (p, st, Err NonDataInDataContext)
              end
          end
      end
  end.
Definition rounds (p : StreamingPeekableIter) : nat :=
  S (S (length (read p) + length (peek_buf p))).

Definition fill_buf (s : WithSidebands)
  : res Empty_set (WithSidebands * res io_error bytes) :=
  if (cap s <=? pos s)%nat then
    '(p, st, r) ← fill_loop (rounds (parent s)) (parent s) (handle_progress s) (hstate s);
    match r with
    | Ok (ofs, c) =>
        let s := mkSide p (handle_progress s) st ofs (c + ofs) in
        d ← slice (buf p) (pos s) (cap s); Ok (s, Ok d)
    | Err e => Ok (mkSide p (handle_progress s) st (pos s) (cap s), Err e)
    | Panic => Panic
    end
  else d ← slice (buf (parent s)) (pos s) (cap s); Ok (s, Ok d).

Definition consume (s : WithSidebands) (amt : nat) : WithSidebands :=
  mkSide (parent s) (handle_progress s) (hstate s) (Nat.min (pos s + amt) (cap s)) (cap s).

(** [io::Read::read] into a buffer of [n] bytes: the bytes stored there. *)
Definition side_read (s : WithSidebands) (n : nat)
  : res Empty_set (WithSidebands * res io_error bytes) :=
  '(s, r) ← fill_buf s;
  match r with
  | Ok rem => let nread := Nat.min n (length rem) in
              Ok (consume s nread, Ok (take nread rem))
  | Err e => Ok (s, Err e)
  | Panic => Panic
  end.

(** [Drop]: the parent can go on behind the delimiter. *)
Definition side_drop (s : WithSidebands) : StreamingPeekableIter := reset (parent s).

End Sidebands.

(** ** [write/blocking_io.rs]: the line writer *)

Record Writer := mkWriter { inner : bytes; binary : bool }.

Inductive write_error := EmptyLine | WEncode (e : encode_error).

(** The loop of [write]: every round writes at least one byte of [b]. *)
Fixpoint write_loop (fuel : nat) (w : Writer) (b : bytes) (written : nat)
  : Writer * res write_error nat :=
  match fuel, b with
  | _, [] | O, _ => (w, Ok written)
  | S fuel, _ =>
      let n := Nat.min (length b) MAX_DATA_LEN in
      let data := take n b in
      let rest := drop n b in
      match (if binary w then data_to_write data (inner w)
             else text_to_write data (inner w)) with
      | Ok (out, k) =>
          let written := (written + k - (U16_HEX_BYTES + Nat.b2n (negb (binary w))))%nat in
          write_loop fuel (mkWriter out (binary w)) rest written
      | Err e => (w, Err (WEncode e))
      | Panic => (w, Panic)
      end
  end.
Definition writer_write (w : Writer) (b : bytes) : Writer * res write_error nat :=
  if bool_decide (b = []) then (w, Err EmptyLine)
  else write_loop (length b) w b 0.

End Code.

(** ** Lemmas: the length prefix *)

Section Lemmas.
Context {FH : faster_hex.Api} {FHL : faster_hex.Laws}.

Lemma unhex_4 p d :
  length p = 4%nat → unhex p = Some d →
  ∃ a b c e x y z w, p = [a; b; c; e] ∧ hex_val a = Some x ∧ hex_val b = Some y ∧
    hex_val c = Some z ∧ hex_val e = Some w ∧ d = [x * 16 + y; z * 16 + w].
Proof.
  intros Hl H. destruct p as [|a [|b [|c [|e [|]]]]]; try discriminate Hl. cbn [unhex] in H.
  repeat match goal with
  | H : mbind _ _ = Some _ |- _ => apply bind_Some in H as (? & ? & ?)
  end. simplify_eq. eauto 20.
Qed.

Lemma hex_val_digit_inv c n : 0 ≤ n < 10 → hex_val c = Some n → c = ch "0" + n.
Proof.
  unfold hex_val, between. intros Hn H. repeat case_match; bool_simpl; simplify_eq; lia.
Qed.

(** The special line of a prefix. *)
Definition special (l : PacketLineRef) : option bytes :=
  match l with
  | Data _ => None
  | Flush => Some FLUSH_LINE
  | Delimiter => Some DELIMITER_LINE
  | ResponseEnd => Some RESPONSE_END_LINE
  end.

Lemma hex_prefix_spec p :
  length p = 4%nat →
  match hex_prefix p with
  | Ok (Line l) => special l = Some p
  | Ok (Wanted n) => 1 ≤ n ≤ 65531 ∧ unhex p = Some (be_bytes 2 (n + 4))
  | Err _ => True
  | Panic => False
  end.
Proof.
  intros Hl. unfold hex_prefix. repeat case_bool_decide; subst; try done.
  rewrite faster_hex.hex_decode_spec by (by rewrite Hl).
  destruct (unhex p) as [d|] eqn:Hd; simpl; [|done].
  destruct (unhex_4 p d Hl Hd) as (a & b & c & e & x & y & z & w & -> & Ha & Hb & Hc & He & ->).
  pose proof (hex_val_range _ _ Ha). pose proof (hex_val_range _ _ Hb).
  pose proof (hex_val_range _ _ Hc). pose proof (hex_val_range _ _ He).
  set (v := be_val [x * 16 + y; z * 16 + w]).
  assert (Hv : v = (x * 16 + y) * 256 + (z * 16 + w)) by (unfold v, be_val; simpl; lia).
  destruct (Z.eqb_spec v 3); [done|]. destruct (Z.eqb_spec v 4); [done|].
  assert (Hbig : 4 < v).
  { destruct (Z.lt_ge_cases 4 v) as [|Hs]; [done|exfalso].
    assert (x = 0 ∧ y = 0 ∧ z = 0 ∧ w < 3) as (-> & -> & -> & Hw) by lia.
    apply hex_val_digit_inv in Ha, Hb, Hc; [|lia..]. apply hex_val_digit_inv in He; [|lia]. subst.
    assert (w = 0 ∨ w = 1 ∨ w = 2) as [->|[->| ->]] by lia; done. }
  rewrite wrap_small by lia. split; [lia|]. f_equal.
  replace (v - 4 + 4) with v by lia. rewrite Hv.
  cbn [be_bytes app]. f_equal; [|f_equal].
  - rewrite Z.div_add_l, (Z.div_small (z * 16 + w)), Z.add_0_r, Z.mod_small by lia. done.
  - rewrite (Z.add_comm (_ * 256)), Z.mod_add, Z.mod_small by lia. done.
Qed.

Lemma be_2_inj v w : 0 ≤ v < 65536 → 0 ≤ w < 65536 → be_bytes 2 v = be_bytes 2 w → v = w.
Proof.
  intros Hv Hw H. apply (f_equal be_val) in H. rewrite !be_val_be_bytes in H by (simpl; lia). done.
Qed.

Lemma hex_prefix_wanted p n :
  1 ≤ n ≤ 65531 → length p = 4%nat → unhex p = Some (be_bytes 2 (n + 4)) →
  hex_prefix p = Ok (Wanted n).
Proof.
  intros Hn Hl Hp. unfold hex_prefix.
  assert (Hne : ∀ q k, 0 ≤ k < 4 → unhex q = Some (be_bytes 2 k) → p ≠ q).
  { intros q k Hk Hq ->. rewrite Hq in Hp. apply (inj Some) in Hp.
    enough (k = n + 4) by lia. apply be_2_inj; [lia..|done]. }
  rewrite !bool_decide_false by
    ((by apply (Hne _ 0)) || (by apply (Hne _ 1)) || (by apply (Hne _ 2))).
  rewrite faster_hex.hex_decode_spec by (by rewrite Hl). rewrite Hp. cbn [map_err].
  rewrite bind_Ok, be_val_be_bytes by (simpl; lia).
  destruct (Z.eqb_spec (n + 4) 3); [lia|]. destruct (Z.eqb_spec (n + 4) 4); [lia|].
  rewrite wrap_small by lia. do 2 f_equal. lia.
Qed.

Lemma hex_prefix_special l p : special l = Some p → hex_prefix p = Ok (Line l).
Proof. destruct l; intros [= <-]; reflexivity. Qed.

(** ** Lemmas: whole lines *)

(** A line as it is on the wire, and whether it can be there. *)
Definition enc (l : PacketLineRef) : bytes :=
  match l with
  | Data d => hex (be_bytes 2 (Z.of_nat (length d) + 4)) ++ d
  | Flush => FLUSH_LINE
  | Delimiter => DELIMITER_LINE
  | ResponseEnd => RESPONSE_END_LINE
  end.
Definition payload (l : PacketLineRef) : bytes :=
  match l with Data d => d | _ => [] end.
Definition wf_line (l : PacketLineRef) : Prop :=
  match l with Data d => (0 < length d ≤ MAX_DATA_LEN)%nat | _ => True end.

Lemma prefixed_spec prefix data suffix out :
  prefixed_and_suffixed_data_to_write prefix data suffix out =
  if bool_decide (length (prefix ++ data ++ suffix) ≤ MAX_DATA_LEN)%nat then
    if bool_decide (data = []) then Err EncDataIsEmpty
    else Ok (out ++ enc (Data (prefix ++ data ++ suffix)),
             length (enc (Data (prefix ++ data ++ suffix))))
  else Err (EncLimitExceeded (length prefix + length data + length suffix)).
Proof.
  unfold prefixed_and_suffixed_data_to_write.
  rewrite !length_app, Nat.add_assoc.
  destruct (Nat.ltb_spec MAX_DATA_LEN (length prefix + length data + length suffix)).
  { by rewrite (bool_decide_false (_ ≤ _)%nat) by lia. }
  rewrite (bool_decide_true (_ ≤ _)%nat) by lia. case_bool_decide; [done|]. cbn [enc].
  unfold u16_to_hex. rewrite faster_hex.hex_encode_spec by apply is_bytes_be_bytes.
  rewrite wrap_small by limits.
  rewrite !length_app, length_hex, length_be_bytes, !Nat2Z.inj_add.
  f_equal. f_equal; [|lia].
  replace (Z.of_nat (length prefix) + (Z.of_nat (length data) + Z.of_nat (length suffix)) + 4)
    with (Z.of_nat (length prefix) + Z.of_nat (length data) + Z.of_nat (length suffix) +
          Z.of_nat 4) by lia.
  repeat case_bool_decide; subst; rewrite ?app_nil_r, <- ?app_assoc; done.
Qed.

Lemma line_write_ok l out :
  wf_line l → line_write_to l out = Ok (out ++ enc l, length (enc l)).
Proof.
  destruct l as [d| | |]; try done. intros [Hd1 Hd2]. cbn [line_write_to].
  unfold data_to_write, prefixed_data_to_write. rewrite prefixed_spec. simpl.
  rewrite app_nil_r. rewrite bool_decide_true by done.
  rewrite bool_decide_false; [done|]. intros ->. simpl in Hd1. lia.
Qed.

Lemma length_enc l : length (enc l) = (4 + length (payload l))%nat.
Proof.
  destruct l as [d| | |]; [|done..]. cbn [enc payload].
  rewrite length_app, length_hex, length_be_bytes. simpl. lia.
Qed.

Lemma take_app_le' {A} n (l k : list A) : (n ≤ length l)%nat → take n (l ++ k) = take n l.
Proof. intros. by apply take_app_le. Qed.

(** The outcome of [streaming] by the first four bytes. *)
Lemma streaming_4 p rest :
  length p = 4%nat →
  streaming (p ++ rest) =
  match hex_prefix p with
  | Ok (Line l) => Ok (Complete l 4)
  | Ok (Wanted n) =>
      if (MAX_DATA_LEN <? Z.to_nat n)%nat
      then Err (DataLengthLimitExceeded (Z.to_nat n + 4))
      else if (length rest <? Z.to_nat n)%nat
      then Ok (Incomplete (Z.to_nat n - length rest))
      else Ok (Complete (Data (take (Z.to_nat n) rest)) (Z.to_nat n + 4))
  | Err e => Err e
  | Panic => Panic
  end.
Proof.
  intros Hl. unfold streaming. rewrite length_app, Hl. unfold U16_HEX_BYTES.
  rewrite (proj2 (Nat.ltb_ge _ _)) by lia. rewrite slice_to_app by done. rewrite bind_Ok.
  destruct (hex_prefix p) as [[l|n]| |] eqn:Hp; [done| |done..].
  change (Ok (Wanted n) ≫= ?f) with (f (Wanted n)). cbv beta iota.
  unfold MAX_LINE_LEN, U16_HEX_BYTES.
  destruct (Nat.ltb_spec MAX_DATA_LEN (Z.to_nat n)), (Nat.ltb_spec (MAX_DATA_LEN + 4) (Z.to_nat n + 4));
    try lia; [done|].
  destruct (Nat.ltb_spec (length rest) (Z.to_nat n)), (Nat.ltb_spec (4 + length rest) (Z.to_nat n + 4));
    try lia; [do 2 f_equal; lia|].
  rewrite <- (take_drop (Z.to_nat n) rest) at 1.
  rewrite (slice_app p (take (Z.to_nat n) rest)) by (rewrite ?length_take; lia).
  rewrite bind_Ok. unfold to_data_line, MAX_LINE_LEN, U16_HEX_BYTES. rewrite length_take.
  by rewrite (proj2 (Nat.ltb_ge _ _)) by lia.
Qed.

Lemma streaming_short d :
  (length d < 4)%nat → streaming d = Ok (Incomplete (4 - length d)).
Proof. intros H. unfold streaming, U16_HEX_BYTES. by rewrite (proj2 (Nat.ltb_lt _ _)). Qed.

(** Bytes that are one line: [enc l], with length digits of either case. *)
Definition wire (l : PacketLineRef) (w : bytes) : Prop :=
  match l with
  | Data d => ∃ p, w = p ++ d ∧ length p = 4%nat ∧
      unhex p = Some (be_bytes 2 (Z.of_nat (length d) + 4)) ∧ wf_line l
  | _ => w = enc l
  end.

Lemma wire_enc l : wf_line l → wire l (enc l).
Proof.
  destruct l as [d| | |]; try done. intros Hwf. eexists. split_and!; [done| | |done].
  - by rewrite length_hex, length_be_bytes.
  - apply unhex_hex, is_bytes_be_bytes.
Qed.

Lemma wire_wf l w : wire l w → wf_line l.
Proof. destruct l; [|done..]. by intros (? & _ & _ & _ & ?). Qed.

Lemma length_wire l w :
  wire l w → length w = (4 + length (payload l))%nat.
Proof.
  destruct l as [d| | |]; [|intros ->; done..].
  intros (p & -> & Hp & _). rewrite length_app, Hp. done.
Qed.

Lemma wire_le l w : wire l w → (4 ≤ length w ≤ MAX_LINE_LEN)%nat.
Proof.
  intros Hw. pose proof (wire_wf l w Hw). rewrite (length_wire l w Hw).
  destruct l; simpl in *; limits.
Qed.

(** The four length digits decide what the line is. *)
Lemma wire_prefix l w :
  wire l w →
  ∃ p, w = p ++ payload l ∧ length p = 4%nat ∧
    hex_prefix p = Ok (match l with Data d => Wanted (Z.of_nat (length d)) | _ => Line l end).
Proof.
  destruct l as [d| | |];
    [|intros ->; eexists; rewrite app_nil_r; split_and!; [done|done|by apply hex_prefix_special]..].
  intros (p & -> & Hp & Hu & Hd). exists p. split_and!; [done..|].
  apply hex_prefix_wanted; [|done..]. destruct Hd. limits.
Qed.

Lemma streaming_wire l w rest :
  wire l w → streaming (w ++ rest) = Ok (Complete l (length w)).
Proof.
  intros Hw. pose proof (wire_wf l w Hw) as Hwf. rewrite (length_wire l w Hw).
  destruct (wire_prefix l w Hw) as (p & -> & Hp & Hh).
  rewrite <- app_assoc, streaming_4, Hh by done. destruct l as [d| | |]; [|done..].
  destruct Hwf. rewrite Nat2Z.id. simpl. rewrite length_app.
  rewrite (proj2 (Nat.ltb_ge _ _)) by lia. rewrite (proj2 (Nat.ltb_ge _ _)) by lia.
  rewrite take_app_length. do 2 f_equal. lia.
Qed.

Lemma all_at_once_wire l w rest : wire l w → all_at_once (w ++ rest) = Ok l.
Proof. intros H. unfold all_at_once. by rewrite (streaming_wire l). Qed.

(** ** Lemmas: the line reader *)

Lemma read_exact_app d rest n :
  n = length d → read_exact (d ++ rest) n = (Some d, rest).
Proof.
  intros ->. unfold read_exact. rewrite length_app, (proj2 (Nat.leb_le _ _)) by lia.
  by rewrite take_app_length, drop_app_length.
Qed.

Lemma read_line_inner_wire l w rest b :
  wire l w → length b = MAX_LINE_LEN →
  read_line_inner (w ++ rest) b = Ok (rest, w ++ drop (length w) b, Ok (inr l)).
Proof.
  intros Hw Hb. pose proof (wire_wf l w Hw) as Hwf. unfold read_line_inner.
  assert (4 ≤ length b)%nat by (rewrite Hb; limits).
  rewrite (proj2 (Nat.ltb_ge _ _)) by done. rewrite (length_wire l w Hw).
  destruct (wire_prefix l w Hw) as (p & -> & Hp & Hh).
  rewrite <- app_assoc, read_exact_app by done. rewrite Hh.
  destruct l as [d| | |]; [|by rewrite app_nil_r..].
  destruct Hwf. rewrite Nat2Z.id, length_drop, Hb. unfold MAX_LINE_LEN, U16_HEX_BYTES in *.
  rewrite (proj2 (Nat.ltb_ge _ _)) by lia. cbn [payload].
  rewrite read_exact_app by done. unfold to_data_line.
  rewrite (proj2 (Nat.ltb_ge _ _)) by limits.
  by rewrite drop_drop, <- app_assoc.
Qed.

Definition oversized (r : bytes) : Prop :=
  ∃ p rest n, r = p ++ rest ∧ length p = 4%nat ∧
    unhex p = Some (be_bytes 2 n) ∧ 65520 < n ≤ 65535.

Lemma read_line_inner_cases r b :
  length b = MAX_LINE_LEN →
  (∃ l w rest, wire l w ∧ r = w ++ rest) ∨
  (∃ r' b' x, read_line_inner r b = Ok (r', b', x) ∧
     (x = Err UnexpectedEof ∨ ∃ e, x = Ok (inl e))) ∨
  (oversized r ∧ read_line_inner r b = Panic).
Proof.
  intros Hb.
  assert (4 ≤ length b)%nat by (rewrite Hb; limits).
  destruct (Nat.lt_ge_cases (length r) 4) as [Hr|Hr].
  { right; left. unfold read_line_inner. rewrite (proj2 (Nat.ltb_ge _ _)) by done.
    unfold read_exact. rewrite (proj2 (Nat.leb_gt _ _)) by done. eauto 10. }
  assert (∃ p rest, r = p ++ rest ∧ length p = 4%nat) as (p & rest & -> & Hp).
  { exists (take 4 r), (drop 4 r). rewrite take_drop, length_take. split; [done|lia]. }
  pose proof (hex_prefix_spec p Hp) as Hs.
  assert (Hread : read_line_inner (p ++ rest) b =
    match hex_prefix p with
    | Panic => Panic
    | Ok (Line line) => Ok (rest, p ++ drop 4 b, Ok (inr line))
    | Err err => Ok (rest, p ++ drop 4 b, Ok (inl err))
    | Ok (Wanted k) =>
        if (MAX_DATA_LEN <? Z.to_nat k)%nat then Panic
        else match read_exact rest (Z.to_nat k) with
             | (None, reader) => Ok (reader, p ++ drop 4 b, Err UnexpectedEof)
             | (Some d, reader) =>
                 match to_data_line d with
                 | Ok line => Ok (reader, p ++ d ++ drop (Z.to_nat k) (drop 4 b), Ok (inr line))
                 | Err err => Ok (reader, p ++ d ++ drop (Z.to_nat k) (drop 4 b), Ok (inl err))
                 | Panic => Panic
                 end
             end
    end).
  { unfold read_line_inner. rewrite (proj2 (Nat.ltb_ge _ _)) by done.
    rewrite read_exact_app by done. rewrite length_drop, Hb.
    unfold MAX_LINE_LEN, U16_HEX_BYTES. by rewrite Nat.add_sub. }
  rewrite Hread. destruct (hex_prefix p) as [[l|n]|e|]; [| |eauto 10|done].
  - left. exists l, p, rest. split; [|done]. by destruct l; simplify_eq/=.
  - destruct Hs as [Hn Hu]. destruct (Nat.ltb_spec MAX_DATA_LEN (Z.to_nat n)) as [Hlt|Hge].
    { right; right. split; [|done]. exists p, rest, (n + 4).
      split_and!; (done || limits). }
    unfold read_exact. destruct (Nat.leb_spec (Z.to_nat n) (length rest)); [|eauto 10].
    left. exists (Data (take (Z.to_nat n) rest)), (p ++ take (Z.to_nat n) rest), (drop (Z.to_nat n) rest).
    split; [|by rewrite <- app_assoc, take_drop].
    exists p. simpl. rewrite length_take, Nat.min_l by done. rewrite Z2Nat.id by lia.
    split_and!; (done || lia).
Qed.

Lemma read_line_inner_oversized r b :
  length b = MAX_LINE_LEN → oversized r → read_line_inner r b = Panic.
Proof.
  intros Hb (p & rest & n & -> & Hp & Hu & Hn). unfold read_line_inner.
  assert (4 ≤ length b)%nat by (rewrite Hb; limits).
  rewrite (proj2 (Nat.ltb_ge _ _)) by done. rewrite read_exact_app by done.
  rewrite (hex_prefix_wanted p (n - 4)) by (lia || done || by replace (n - 4 + 4) with n by lia).
  rewrite length_drop, Hb. rewrite (proj2 (Nat.ltb_lt _ _)); [done|].
  limits.
Qed.

Lemma find_delimiter l (ds : list PacketLineRef) :
  l ∈ ds → List.find (λ x, bool_decide (x = l)) ds = Some l.
Proof.
  induction ds as [|d ds IH]; [by intros ?%elem_of_nil|].
  intros [->|Hin]%elem_of_cons; simpl; [by rewrite bool_decide_true|].
  case_bool_decide; [by subst|auto].
Qed.

Lemma resize_exact w k n : n = length w → resize (w ++ k) n = w.
Proof.
  intros ->. unfold resize. rewrite take_app_length, length_app.
  replace (length w - (length w + length k))%nat with 0%nat by lia. apply app_nil_r.
Qed.

Lemma exhaustive_wire l w rest b ds fail rs :
  wire l w → length b = MAX_LINE_LEN →
  read_line_inner_exhaustive (w ++ rest) b ds fail rs =
  if bool_decide (l ∈ ds) then Ok (rest, [], true, Some l, None)
  else match (if fail then check_error l else None) with
       | Some err => Ok (rest, [], true, None, Some (Err (ReadError err)))
       | None => Ok (rest, if rs then w else w ++ drop (length w) b, false, None,
                     Some (Ok (inr l)))
       end.
Proof.
  intros Hw Hb. unfold read_line_inner_exhaustive.
  rewrite (read_line_inner_wire l) by done. rewrite bind_Ok.
  case_bool_decide as Hd; [by rewrite find_delimiter|].
  rewrite (resize_exact w) by
    (rewrite (length_wire l w Hw); destruct l; unfold U16_HEX_BYTES; simpl; lia).
  assert (Ha : all_at_once (if rs then w else w ++ drop (length w) b) = Ok l).
  { destruct rs; [rewrite <- (app_nil_r w)|]; by apply all_at_once_wire. }
  rewrite Ha. by destruct fail; [destruct (check_error l)|].
Qed.

(** What a read that takes no line out of the peek buffer does. *)
Definition full_buf (s : StreamingPeekableIter) : bytes :=
  if bool_decide (length (buf s) ≠ MAX_LINE_LEN) then resize (buf s) MAX_LINE_LEN else buf s.
Lemma length_full_buf s : length (full_buf s) = MAX_LINE_LEN.
Proof. unfold full_buf. case_bool_decide; [apply length_resize|]. lia. Qed.

Lemma read_line_fresh s :
  is_done s = false → peek_buf s = [] →
  read_line s =
    '(r, b, done, stop, result) ←
      read_line_inner_exhaustive (read s) (full_buf s) (delimiters s) (fail_on_err_lines s) false;
    Ok (mkIter r [] b (fail_on_err_lines s) (delimiters s) done stop, result).
Proof.
  intros Hd Hp. unfold read_line. rewrite Hd, Hp, bool_decide_false by naive_solver. done.
Qed.

Lemma read_line_wire s l w rest :
  is_done s = false → peek_buf s = [] → wire l w → read s = w ++ rest →
  ∃ b, read_line s =
    Ok (if bool_decide (l ∈ delimiters s)
        then (mkIter rest [] b (fail_on_err_lines s) (delimiters s) true (Some l), None)
        else match (if fail_on_err_lines s then check_error l else None) with
             | Some err =>
                 (mkIter rest [] b (fail_on_err_lines s) (delimiters s) true None,
                  Some (Err (ReadError err)))
             | None =>
                 (mkIter rest [] b (fail_on_err_lines s) (delimiters s) false None,
                  Some (Ok (inr l)))
             end) ∧
    (l ∉ delimiters s → (if fail_on_err_lines s then check_error l else None) = None →
     ∃ k, b = w ++ k).
Proof.
  intros Hd Hp Hw Hr. rewrite read_line_fresh, Hr by done.
  rewrite (exhaustive_wire l) by (done || apply length_full_buf).
  case_bool_decide; [|destruct (if fail_on_err_lines s then _ else _) as [e|] eqn:He];
    rewrite bind_Ok; eexists; (split; [done|]); intros; try done. eauto.
Qed.

Definition avail (s : StreamingPeekableIter) : nat := (length (read s) + length (peek_buf s))%nat.

(** Every line that is read is taken from what was available. *)
Lemma read_line_avail s s' l :
  read_line s = Ok (s', Some (Ok (inr l))) → (avail s' < avail s)%nat.
Proof.
  unfold avail. destruct (is_done s) eqn:Hd; [unfold read_line; by rewrite Hd|].
  destruct (decide (peek_buf s = [])) as [Hp|Hp].
  - destruct (read_line_inner_cases (read s) (full_buf s) (length_full_buf s))
      as [(l' & w & rest & Hw & Hr)|[(r' & b' & x & Hi & Hx)|[_ Hi]]].
    + destruct (read_line_wire s l' w rest Hd Hp Hw Hr) as (? & -> & _).
      pose proof (wire_le l' w Hw). rewrite Hr, Hp.
      repeat case_match; intros [= <- _]; simpl; rewrite length_app; lia.
    + rewrite read_line_fresh by done. unfold read_line_inner_exhaustive.
      rewrite Hi, bind_Ok. by destruct Hx as [->|[e ->]].
    + rewrite read_line_fresh by done. unfold read_line_inner_exhaustive. by rewrite Hi.
  - unfold read_line. rewrite Hd, bool_decide_true by done.
    destruct (all_at_once (peek_buf s)); intros [= <- _]. simpl.
    destruct (peek_buf s); [done|simpl; lia].
Qed.

(** The lines a sequence of reads returns. *)
Inductive reads : StreamingPeekableIter → list PacketLineRef → StreamingPeekableIter → Prop :=
| reads_nil s : reads s [] s
| reads_cons s l s1 ls s2 :
    read_line s = Ok (s1, Some (Ok (inr l))) → reads s1 ls s2 → reads s (l :: ls) s2.

(** A line the reader passes on: not a delimiter, not an error it looks for. *)
Definition passes (s : StreamingPeekableIter) (l : PacketLineRef) : Prop :=
  wf_line l ∧ l ∉ delimiters s ∧ (fail_on_err_lines s = true → check_error l = None).

Lemma read_line_passes s l rest w :
  is_done s = false → peek_buf s = [] → wire l w → read s = w ++ rest → passes s l →
  ∃ k, read_line s =
    Ok (mkIter rest [] (w ++ k) (fail_on_err_lines s) (delimiters s) false None,
        Some (Ok (inr l))).
Proof.
  intros Hd Hp Hw Hr (_ & Hn & He).
  destruct (read_line_wire s l w rest Hd Hp Hw Hr) as (b & -> & Hb).
  assert (He' : (if fail_on_err_lines s then check_error l else None) = None)
    by (destruct (fail_on_err_lines s); auto).
  destruct (Hb Hn He') as [k ->]. exists k. by rewrite bool_decide_false, He' by done.
Qed.

Lemma reads_wire s ls rest :
  is_done s = false → peek_buf s = [] → read s = concat (enc <$> ls) ++ rest →
  Forall (passes s) ls →
  ∃ s', reads s ls s' ∧ is_done s' = false ∧ peek_buf s' = [] ∧ read s' = rest ∧
    delimiters s' = delimiters s ∧ fail_on_err_lines s' = fail_on_err_lines s.
Proof.
  revert s. induction ls as [|l ls IH]; intros s Hd Hp Hr Hf.
  { exists s. split_and!; (done || constructor). }
  apply Forall_cons in Hf as [Hl Hf]. rewrite fmap_cons in Hr. cbn [concat] in Hr.
  rewrite <- app_assoc in Hr.
  destruct (read_line_passes s l _ (enc l) Hd Hp (wire_enc l (proj1 Hl)) Hr Hl) as [k Hrl].
  match type of Hrl with _ = Ok (?s1, _) => destruct (IH s1) as (s' & Hs' & H1 & H2 & H3 & H4 & H5) end;
    [done..|].
  exists s'. split_and!; try done. by econstructor.
Qed.

(** The rounds of [fill_loop] never run out. *)
Lemma fill_loop_fuel {HS} f1 f2 p h (st : HS) :
  (avail p < f1)%nat → (avail p < f2)%nat → fill_loop f1 p h st = fill_loop f2 p h st.
Proof.
  revert f2 p st. induction f1 as [|f1 IH]; intros [|f2] p st H1 H2; try lia.
  cbn [fill_loop]. destruct (read_line p) as [[p' r]| |] eqn:Hr; [|done..]. rewrite !bind_Ok.
  destruct r as [[[e|l]|e|]|]; try done.
  pose proof (read_line_avail p p' l Hr).
  assert (HI : ∀ st, fill_loop f1 p' h st = fill_loop f2 p' h st) by (intros; apply IH; lia).
  destruct h as [hp|]; [|done].
  destruct (decode_band l) as [[d|d|d]| |]; [case_bool_decide; [apply HI|done]| | |done..].
  all: destruct (text_from d) as [t| |]; [|done..]; rewrite !bind_Ok;
    destruct (hp st _ t) as [st' []]; [apply HI|done].
Qed.

(** *** Side-bands *)

(** The data line of a band, and the bands that fit into one. *)
Definition band_line (b : BandRef) : PacketLineRef :=
  match b with
  | BData d => Data (1 :: d) | BProgress d => Data (2 :: d) | BError d => Data (3 :: d)
  end.

Lemma decode_band_line b : decode_band (band_line b) = Ok b.
Proof. by destruct b. Qed.
Lemma check_error_band b : check_error (band_line b) = None.
Proof. destruct b as [d|d|d]; simpl; by destruct d as [|? [|? [|? ?]]]. Qed.

(** A text without its last newline. *)
Definition without_newline (d : bytes) : bytes := if bool_decide (last d = Some 10) then removelast d else d.
(** Messages that carry no data. *)
Definition no_data (b : BandRef) : Prop := match b with BData d => d = [] | BProgress _ | BError _ => True end.
(** What becomes of such messages: all are passed to the handler, the handler
    interrupts and the messages [later] remain, or one of them has no text. *)
Inductive fed {HS} := FedAll (st : HS) | FedStop (st : HS) (later : list BandRef) | FedNoText.
#[global] Arguments fed : clear implicits.
Fixpoint feed {HS} (hp : handler) (st : HS) (ms : list BandRef) : fed HS :=
  match ms with
  | [] => FedAll st
  | BData _ :: ms => feed hp st ms
  | BProgress d :: ms =>
      if bool_decide (d = []) then FedNoText
      else match hp st false (without_newline d) with
           | (st, Continue) => feed hp st ms
           | (st, Interrupt) => FedStop st ms
           end
  | BError d :: ms =>
      if bool_decide (d = []) then FedNoText
      else match hp st true (without_newline d) with
           | (st, Continue) => feed hp st ms
           | (st, Interrupt) => FedStop st ms
           end
  end.
Lemma text_from_without_newline d : text_from d = if bool_decide (d = []) then Panic else Ok (without_newline d).
Proof.
  destruct d as [|c d _] using rev_ind; [done|]. rewrite bool_decide_false by (by destruct d).
  unfold text_from, without_newline. rewrite length_app, Nat.add_1_r, last_snoc, removelast_last.
  unfold idx. rewrite list_lookup_middle by done. cbn [expect]. rewrite bind_Ok.
  destruct (Z.eqb_spec c 10) as [->|Hc].
  - rewrite bool_decide_true by done. by rewrite slice_to_app.
  - by rewrite bool_decide_false by congruence.
Qed.

(** A reader that is about to take its next line from the input and whose
    delimiters are special lines. *)
Definition at_line (p : StreamingPeekableIter) : Prop :=
  is_done p = false ∧ peek_buf p = [] ∧ Forall (λ l, special l ≠ None) (delimiters p).

Lemma band_passes p b : at_line p → wf_line (band_line b) → passes p (band_line b).
Proof.
  intros (_ & _ & Hds) Hwf. split_and!; [done| |intros; apply check_error_band].
  intros Hin. rewrite Forall_forall in Hds. specialize (Hds _ Hin). by destruct b.
Qed.

(** The input for messages followed by data, and what the loop makes of it. *)
Definition bands_input (ms : list BandRef) (d rest : bytes) : bytes :=
  concat ((enc ∘ band_line) <$> ms) ++ enc (band_line (BData d)) ++ rest.
Definition fed_ok {HS} (p : StreamingPeekableIter) (d rest : bytes) (o : fed HS)
    (r : res Empty_set (StreamingPeekableIter * HS * res io_error (nat * nat))) : Prop :=
  match o with
  | FedAll st' => ∃ p' k, r = Ok (p', st', Ok (5%nat, length d)) ∧
      at_line p' ∧ read p' = rest ∧ delimiters p' = delimiters p ∧ buf p' = enc (band_line (BData d)) ++ k
  | FedStop st' later => ∃ p', r = Ok (p', st', Err InterruptedByUser) ∧
      at_line p' ∧ read p' = bands_input later d rest ∧ delimiters p' = delimiters p
  | FedNoText => r = Panic
  end.
Lemma fill_loop_feed {HS} hp (st : HS) ms d rest p fuel :
  at_line p → d ≠ [] → Forall no_data ms →
  Forall (λ b, wf_line (band_line b)) (ms ++ [BData d]) →
  read p = bands_input ms d rest → (length ms < fuel)%nat →
  fed_ok p d rest (feed hp st ms) (fill_loop fuel p (Some hp) st).
Proof.
  intros Hp Hd Hno. revert p st fuel Hp. induction Hno as [|m ms Hm0 Hno IH]; intros p st [|fuel] Hp Hwf Hr Hfu;
    try (simpl in Hfu; lia).
  - apply Forall_cons in Hwf as [Hwf _]. unfold bands_input in Hr. cbn [fmap list_fmap concat app] in Hr.
    destruct (read_line_passes p (band_line (BData d)) rest _ (proj1 Hp) (proj1 (proj2 Hp))
      (wire_enc _ Hwf) Hr (band_passes p _ Hp Hwf)) as [k Hrl].
    cbn [fill_loop]. rewrite Hrl, bind_Ok, decode_band_line, bool_decide_false by done.
    eexists _, k. split_and!; [done| |done..]. destruct Hp as (_ & _ & ?). by split_and!.
  - apply Forall_cons in Hwf as [Hm Hwf]. unfold bands_input in Hr. rewrite fmap_cons in Hr. cbn [concat] in Hr.
    rewrite <- app_assoc in Hr. unfold compose at 1 in Hr.
    destruct (read_line_passes p (band_line m) _ _ (proj1 Hp) (proj1 (proj2 Hp))
      (wire_enc _ Hm) Hr (band_passes p _ Hp Hm)) as [k Hrl].
    cbn [fill_loop]. rewrite Hrl, bind_Ok, decode_band_line. simpl in Hfu.
    match type of Hrl with _ = Ok (?p1, _) =>
      assert (Hat : at_line p1) by (destruct Hp as (_ & _ & ?); by split_and!);
      assert (HIH : ∀ st, fed_ok p1 d rest (feed hp st ms) (fill_loop fuel p1 (Some hp) st))
        by (intros st0; apply (IH p1 st0 fuel Hat Hwf); [done|lia]);
      change (fed_ok p d rest) with (@fed_ok HS p1 d rest)
    end.
    clear Hrl IH. destruct m as [m|m|m]; cbn in Hm0; cbn [feed].
    { subst m. rewrite bool_decide_true by done. apply HIH. }
    all: rewrite text_from_without_newline; case_bool_decide; [done|]; rewrite bind_Ok;
      destruct (hp st _ (without_newline m)) as [st1 []]; [apply HIH|].
    all: by eexists.
Qed.

Lemma length_wires ms : (length ms ≤ length (concat ((enc ∘ band_line) <$> ms)))%nat.
Proof.
  induction ms as [|m ms IH]; [simpl; lia|]. rewrite fmap_cons. cbn [concat length].
  rewrite length_app. unfold compose at 1. rewrite length_enc. lia.
Qed.

(** *** The writer *)

Lemma write_loop_binary fuel out b written :
  (length b ≤ fuel)%nat →
  ∃ chunks, concat chunks = b ∧ Forall (λ c, wf_line (Data c)) chunks ∧
    write_loop fuel (mkWriter out true) b written =
      (mkWriter (out ++ concat ((enc ∘ Data) <$> chunks)) true, Ok (written + length b)%nat).
Proof.
  revert out b written. induction fuel as [|fuel IH]; intros out b written Hf.
  { destruct b; [|simpl in Hf; lia]. exists []. split_and!; [done..|].
    simpl. by rewrite app_nil_r, Nat.add_0_r. }
  destruct (decide (b = [])) as [->|Hne].
  { exists []. split_and!; [done..|]. simpl. by rewrite app_nil_r, Nat.add_0_r. }
  set (n := Nat.min (length b) MAX_DATA_LEN).
  assert (Hb : (0 < length b)%nat) by (destruct b; [done|simpl; lia]).
  assert (Hn : (0 < n ≤ length b)%nat) by (unfold n; limits).
  assert (Hwf : wf_line (Data (take n b))) by (simpl; rewrite length_take; unfold n; limits).
  pose proof (line_write_ok (Data (take n b)) out Hwf) as Hw. cbn [line_write_to] in Hw.
  assert (Hstep : write_loop (S fuel) (mkWriter out true) b written =
    write_loop fuel (mkWriter (out ++ enc (Data (take n b))) true) (drop n b) (written + n)).
  { cbn [write_loop]. destruct b as [|x b]; [done|]. cbn [binary inner]. fold n.
    rewrite Hw, length_enc. cbn [payload]. rewrite length_take. f_equal.
    unfold U16_HEX_BYTES. simpl Nat.b2n. lia. }
  destruct (IH (out ++ enc (Data (take n b))) (drop n b) (written + n)%nat)
    as (chunks & Hc & Hfa & Heq); [rewrite length_drop; lia|].
  exists (take n b :: chunks). rewrite Hstep, Heq. split_and!.
  - simpl. by rewrite Hc, take_drop.
  - by constructor.
  - rewrite fmap_cons. cbn [concat]. unfold compose at 2. rewrite <- app_assoc, length_drop.
    do 2 f_equal. lia.
Qed.

End Lemmas.

(** ** Properties *)

(** Encoding and decoding a line are inverse.  [write_to] accepts exactly
    the special lines and data of 1 to 65516 bytes; what it appends has the
    length it returns and is decoded, whatever follows on the wire, to the
    same line with the same number of bytes consumed. *)
Theorem packetline_write_read {FH : faster_hex.Api} {FHL : faster_hex.Laws} l out :
  match line_write_to l out with
  | Ok (out', n) =>
      wf_line l ∧ ∃ w, out' = out ++ w ∧ length w = n ∧
        ∀ rest, streaming (w ++ rest) = Ok (Complete l n)
  | Err EncDataIsEmpty => l = Data []
  | Err (EncLimitExceeded n) => ∃ d, l = Data d ∧ length d = n ∧ (MAX_DATA_LEN < n)%nat
  | Panic => False
  end.
Proof.
  assert (Hok : wf_line l → match line_write_to l out with
    | Ok (out', n) => wf_line l ∧ ∃ w, out' = out ++ w ∧ length w = n ∧
        ∀ rest, streaming (w ++ rest) = Ok (Complete l n)
    | _ => False end).
  { intros Hwf. rewrite line_write_ok by done. split; [done|]. exists (enc l).
    split_and!; [done..|]. intros rest. apply streaming_wire, wire_enc, Hwf. }
  destruct l as [d| | |]; [|by apply Hok..].
  destruct (decide (wf_line (Data d))) as [Hwf|Hwf].
  { specialize (Hok Hwf). by destruct (line_write_to (Data d) out). }
  cbn [line_write_to wf_line] in *. unfold data_to_write, prefixed_data_to_write.
  rewrite prefixed_spec. cbn [app length]. rewrite app_nil_r.
  case_bool_decide; [|exists d; split_and!; simpl; (done || lia)].
  case_bool_decide as Hd; [by subst|]. destruct Hwf. split; [|done].
  destruct d; [done|simpl; lia].
Qed.
Lemma packetline_write_read_witness :
  @line_write_to hex_impl (Data (bs "hello")) [] = Ok (bs "0009hello", 9%nat) ∧
  @streaming hex_impl (bs "0009hello" ++ bs "0000") = Ok (Complete (Data (bs "hello")) 9).
Proof.
  pose proof (@packetline_write_read hex_impl hex_impl_laws (Data (bs "hello")) []) as H.
  assert (E : @line_write_to hex_impl (Data (bs "hello")) [] = Ok (bs "0009hello", 9%nat))
    by (vm_compute; reflexivity).
  rewrite E in H. destruct H as (_ & w & Hw & _ & H). split; [exact E|].
  rewrite Hw. apply H.
Defined.

(** Incremental decoding.  [streaming] never panics; a complete line lies
    within the bytes given; a result, or an error, does not change when more
    bytes arrive; and as long as fewer bytes than it asks for have arrived it
    keeps reporting an incomplete line, so that it never asks for bytes behind
    the end of the line. *)
Theorem streaming_incremental {FH : faster_hex.Api} {FHL : faster_hex.Laws} data ext :
  match streaming data with
  | Ok (Complete l n) =>
      (n ≤ length data)%nat ∧ wf_line l ∧ streaming (data ++ ext) = Ok (Complete l n)
  | Ok (Incomplete k) =>
      (0 < k)%nat ∧
      ((length ext < k)%nat → streaming (data ++ ext) = Ok (Incomplete (k - length ext)))
  | Err e => streaming (data ++ ext) = Err e
  | Panic => False
  end.
Proof.
  destruct (Nat.lt_ge_cases (length data) 4) as [Hs|Hl].
  { rewrite streaming_short by done. split; [lia|]. intros Hk.
    rewrite streaming_short by (rewrite length_app; lia). rewrite length_app. do 2 f_equal. lia. }
  assert (∃ p rest, data = p ++ rest ∧ length p = 4%nat) as (p & rest & -> & Hp).
  { exists (take 4 data), (drop 4 data). rewrite take_drop, length_take. split; [done|lia]. }
  rewrite <- app_assoc, !streaming_4 by done. pose proof (hex_prefix_spec p Hp) as Hspec.
  destruct (hex_prefix p) as [[l|n]|e|]; [| |done..].
  { rewrite length_app. split_and!; [lia| |done]. by destruct l. }
  destruct Hspec as [Hn _].
  destruct (Nat.ltb_spec MAX_DATA_LEN (Z.to_nat n)); [done|]. rewrite !length_app.
  destruct (Nat.ltb_spec (length rest) (Z.to_nat n)).
  - split; [lia|]. intros Hk. rewrite (proj2 (Nat.ltb_lt _ _)) by lia. do 2 f_equal. lia.
  - rewrite (proj2 (Nat.ltb_ge _ _)) by lia. rewrite take_app_le by done.
    split_and!; [lia| |done]. simpl. rewrite length_take. lia.
Qed.
Lemma streaming_incremental_witness :
  @streaming hex_impl (bs "0009he" ++ bs "ll") = Ok (Incomplete 1).
Proof.
  pose proof (@streaming_incremental hex_impl hex_impl_laws (bs "0009he") (bs "ll")) as H.
  assert (E : @streaming hex_impl (bs "0009he") = Ok (Incomplete 3)) by (vm_compute; reflexivity).
  rewrite E in H. destruct H as [_ H]. apply H. vm_compute. lia.
Defined.

(** The reader delivers a response.  When the lines [ls] and then a
    delimiter [stop] are on the wire, successive calls of [read_line] return
    the lines of [ls] in order, the next one returns [None] with the delimiter
    recorded in [stopped_at], further calls keep returning [None] without
    touching the input, and what follows the delimiter is left for the next
    response, which [reset] makes readable. *)
Theorem read_line_response {FH : faster_hex.Api} {FHL : faster_hex.Laws} s ls stop rest :
  is_done s = false → peek_buf s = [] →
  read s = concat (enc <$> ls) ++ enc stop ++ rest →
  Forall (passes s) ls → stop ∈ delimiters s → wf_line stop →
  ∃ s1 s2, reads s ls s1 ∧ read_line s1 = Ok (s2, None) ∧
    stopped_at s2 = Some stop ∧ read_line s2 = Ok (s2, None) ∧
    read (reset s2) = rest ∧ is_done (reset s2) = false ∧ peek_buf (reset s2) = [].
Proof.
  intros Hd Hp Hr Hls Hstop Hwf.
  destruct (reads_wire s ls _ Hd Hp Hr Hls) as (s1 & Hs1 & Hd1 & Hp1 & Hr1 & Hds & _).
  destruct (read_line_wire s1 stop _ rest Hd1 Hp1 (wire_enc stop Hwf) Hr1) as (b & Hrl & _).
  rewrite Hds, bool_decide_true in Hrl by done. eexists s1, _. split_and!; done.
Qed.
Definition sample_response : StreamingPeekableIter :=
  mkIter (bs "0006ab0000rest") [] [] false [Flush] false None.
Lemma read_line_response_witness :
  ∃ s1 s2, @reads hex_impl sample_response [Data (bs "ab")] s1 ∧
    @read_line hex_impl s1 = Ok (s2, None) ∧ stopped_at s2 = Some Flush.
Proof.
  destruct (@read_line_response hex_impl hex_impl_laws sample_response [Data (bs "ab")] Flush
    (bs "rest")) as (s1 & s2 & H1 & H2 & H3 & _).
  - reflexivity.
  - reflexivity.
  - vm_compute. reflexivity.
  - apply Forall_singleton. split_and!; [change (0 < 2 ≤ MAX_DATA_LEN)%nat; limits| |discriminate].
    intros H. apply list_elem_of_singleton in H. discriminate H.
  - apply list_elem_of_singleton. reflexivity.
  - exact I.
  - exists s1, s2. auto.
Defined.

(** Peeking does not disturb reading.  If [peek_line] returns a line then
    peeking again returns the same line and leaves the reader as it is, and
    [read_line] returns that line: the one it would have returned without the
    peek, with the same input left. *)
Theorem peek_then_read {FH : faster_hex.Api} {FHL : faster_hex.Laws} s s1 l :
  peek_buf s = [] → peek_line s = Ok (s1, Some (Ok (inr l))) →
  peek_line s1 = Ok (s1, Some (Ok (inr l))) ∧
  ∃ s2 s2', read_line s1 = Ok (s2, Some (Ok (inr l))) ∧
    read_line s = Ok (s2', Some (Ok (inr l))) ∧
    read s2 = read s2' ∧ peek_buf s2 = peek_buf s2' ∧ is_done s2 = is_done s2' ∧
    stopped_at s2 = stopped_at s2' ∧ (∃ k, buf s2' = buf s2 ++ k).
Proof.
  intros Hp. unfold peek_line at 1. destruct (is_done s) eqn:Hd; [done|].
  rewrite Hp, bool_decide_true by done.
  destruct (read_line_inner_cases (read s) (resize [] MAX_LINE_LEN) (length_resize _ _))
    as [(l' & w & rest & Hw & Hr)|[(r' & b' & x & Hi & Hx)|[_ Hi]]].
  2,3: unfold read_line_inner_exhaustive; rewrite Hi; try done; rewrite bind_Ok;
    by destruct Hx as [->|[e ->]].
  destruct (read_line_wire s l' w rest Hd Hp Hw Hr) as (b & Hrl & Hb). rewrite Hr.
  rewrite (exhaustive_wire l') by (done || apply length_resize).
  case_bool_decide as Hin; [done|].
  destruct (if fail_on_err_lines s then _ else _) eqn:He; [done|]. rewrite bind_Ok.
  intros [= <- <-]. destruct (Hb Hin eq_refl) as [k ->]. pose proof (wire_le l' w Hw).
  assert (Hne : w ≠ []) by (intros ->; simpl in *; lia).
  pose proof (all_at_once_wire l' w [] Hw) as Ha. rewrite app_nil_r in Ha.
  unfold peek_line. cbn [is_done peek_buf]. rewrite bool_decide_false, Ha by done. split; [done|].
  unfold read_line at 1. cbn [is_done peek_buf]. rewrite bool_decide_true, Ha by done.
  eexists _, _. split_and!; [done|exact Hrl|done..|]. simpl. by exists k.
Qed.
Lemma peek_then_read_witness :
  ∃ s1, @peek_line hex_impl sample_response = Ok (s1, Some (Ok (inr (Data (bs "ab"))))) ∧
    @peek_line hex_impl s1 = Ok (s1, Some (Ok (inr (Data (bs "ab"))))).
Proof.
  eexists. assert (E : @peek_line hex_impl sample_response =
    Ok (mkIter (bs "0000rest") (bs "0006ab") [] false [Flush] false None,
        Some (Ok (inr (Data (bs "ab")))))) by (vm_compute; reflexivity).
  split; [exact E|]. by apply (@peek_then_read hex_impl hex_impl_laws sample_response _ _ eq_refl E).
Defined.

(** When [read_line] panics.  With a well-formed peek buffer it is exactly
    when the length digits ask for more than 65520 bytes (the buffer is split
    before the length is checked), that is for [fff1] to [ffff]. *)
Theorem read_line_panics_iff {FH : faster_hex.Api} {FHL : faster_hex.Laws} s :
  peek_buf s = [] ∨ (∃ l, wire l (peek_buf s)) →
  read_line s = Panic ↔ is_done s = false ∧ peek_buf s = [] ∧ oversized (read s).
Proof.
  intros Hinv. destruct (is_done s) eqn:Hd.
  { unfold read_line. rewrite Hd. naive_solver. }
  destruct (decide (peek_buf s = [])) as [Hp|Hp].
  - destruct (read_line_inner_cases (read s) (full_buf s) (length_full_buf s))
      as [(l' & w & rest & Hw & Hr)|[(r' & b' & x & Hi & Hx)|[Ho Hi]]].
    + split.
      * destruct (read_line_wire s l' w rest Hd Hp Hw Hr) as (b & -> & _). done.
      * intros (_ & _ & Ho). exfalso.
        pose proof (read_line_inner_oversized _ _ (length_full_buf s) Ho) as Hpan.
        by rewrite Hr, (read_line_inner_wire l') in Hpan by (done || apply length_full_buf).
    + rewrite read_line_fresh by done. unfold read_line_inner_exhaustive.
      rewrite Hi, bind_Ok. split; [by destruct Hx as [->|[e ->]]|].
      intros (_ & _ & Ho). by rewrite (read_line_inner_oversized _ _ (length_full_buf s) Ho) in Hi.
    + rewrite read_line_fresh by done. unfold read_line_inner_exhaustive. by rewrite Hi.
  - destruct Hinv as [?|[l Hl]]; [done|]. unfold read_line. rewrite Hd, bool_decide_true by done.
    rewrite <- (app_nil_r (peek_buf s)), (all_at_once_wire l) by done. rewrite app_nil_r. naive_solver.
Qed.
Lemma read_line_panics_iff_witness :
  @read_line hex_impl (iter_new (bs "ffff") []) = Panic.
Proof.
  apply (@read_line_panics_iff hex_impl hex_impl_laws); [by left|]. split_and!; [done..|].
  exists (bs "ffff"), [], 65535. split_and!; [reflexivity..|lia|lia].
Defined.

(** C37: Demultiplexing, for a reader that has not ended, has no line peeked at
    and ends at special lines only (flush, delimiter or end of response).  When
    the input holds side-band messages without data (each within the limits of a
    line), followed by a data message that is not empty, one call of [fill_buf] passes the progress and error texts to the handler in
    order, each without its last newline.  If the handler always continues, it
    returns the data and leaves the input behind that message, and after
    [consume(k)] the rest of the data is returned without reading on.  If the
    handler interrupts, it returns the error for that and leaves the input behind
    the message of the interruption.  It panics if, before that, there is a
    progress or error message without text, not even a newline. *)
Theorem fill_buf_demux {FH : faster_hex.Api} {FHL : faster_hex.Laws} {HS}
    p (hp : handler) (st : HS) ms d rest :
  at_line p → d ≠ [] → Forall no_data ms →
  Forall (λ b, wf_line (band_line b)) (ms ++ [BData d]) →
  read p = bands_input ms d rest →
  match feed hp st ms with
  | FedAll st' => ∃ s', fill_buf (with_progress_handler p hp st) = Ok (s', Ok d) ∧
      hstate s' = st' ∧ read (parent s') = rest ∧ at_line (parent s') ∧
      ∀ k, (k < length d)%nat → fill_buf (consume s' k) = Ok (consume s' k, Ok (drop k d))
  | FedStop st' later => ∃ s', fill_buf (with_progress_handler p hp st) = Ok (s', Err InterruptedByUser) ∧
      hstate s' = st' ∧ read (parent s') = bands_input later d rest ∧ at_line (parent s')
  | FedNoText => fill_buf (with_progress_handler p hp st) = Panic
  end.
Proof.
  intros Hp Hd Hno Hwf Hr.
  assert (Hl : fed_ok p d rest (feed hp st ms) (fill_loop (rounds p) p (Some hp) st)).
  { apply fill_loop_feed; try done. unfold rounds. rewrite Hr. unfold bands_input. rewrite length_app.
    pose proof (length_wires ms). lia. }
  destruct (feed hp st ms) as [st'|st' later|]; cbn [fed_ok] in Hl.
  2: destruct Hl as (p' & Hl & Hp' & Hr' & _).
  1: destruct Hl as (p' & k & Hl & Hp' & Hr' & _ & Hb).
  all: unfold fill_buf at 1; cbn [cap pos with_progress_handler parent handle_progress hstate Nat.leb]; rewrite Hl.
  2: rewrite bind_Ok; by eexists.
  2: done.
  rewrite bind_Ok.
  assert (Hbuf : buf p' = (hex (be_bytes 2 (Z.of_nat (length (1 :: d)) + 4)) ++ [1]) ++ d ++ k).
  { rewrite Hb. cbn [band_line enc]. by rewrite <- !app_assoc. }
  assert (H5 : length (hex (be_bytes 2 (Z.of_nat (length (1 :: d)) + 4)) ++ [1]) = 5%nat)
    by (rewrite length_app, length_hex, length_be_bytes; done).
  set (hdr := hex _ ++ [1]) in *. clearbody hdr. clear Hb. cbn [cap pos].
  rewrite Hbuf, (slice_app _ d k) by (rewrite H5; lia). rewrite bind_Ok.
  eexists. split_and!; [done..|]. intros j Hj. unfold fill_buf, consume. cbn [cap pos parent].
  rewrite Nat.min_l by lia. rewrite (proj2 (Nat.leb_gt _ _)) by lia.
  rewrite Hbuf, <- (take_drop j d) at 1. rewrite <- app_assoc, (app_assoc hdr).
  rewrite (slice_app _ (drop j d) k);
    [done|rewrite length_app, H5, length_take; lia|].
  rewrite length_app, H5, length_take, length_drop. lia.
Qed.
(** Progress with a newline at its end and an error without, then data. *)
Definition sample_bands : bytes :=
  bs "0008" ++ 2 :: bs "hi" ++ [10] ++ bs "0007" ++ 3 :: bs "no" ++ bs "0007" ++ 1 :: bs "ok".
Lemma fill_buf_demux_witness :
  ∃ s', @fill_buf hex_impl (list (bool * bytes))
    (with_progress_handler (mkIter sample_bands [] [] false [Flush] false None)
       (λ log e t, ((e, t) :: log, Continue)) []) = Ok (s', Ok (bs "ok")) ∧
    hstate s' = [(true, bs "no"); (false, bs "hi")].
Proof.
  destruct (@fill_buf_demux hex_impl hex_impl_laws _
    (mkIter sample_bands [] [] false [Flush] false None) (λ log e t, ((e, t) :: log, Continue)) []
    [BProgress (bs "hi" ++ [10]); BError (bs "no")] (bs "ok") []) as (s' & H1 & H2 & _).
  - split_and!; [done..|]. by apply Forall_singleton.
  - done.
  - by repeat constructor.
  - cbn [app]. rewrite !Forall_cons. split_and!; [..|by apply Forall_nil]; unfold wf_line; cbn; limits.
  - vm_compute. reflexivity.
  - exists s'. auto.
Defined.

(** The writer cuts its input into lines.  In binary mode [write] accepts
    any non-empty buffer: it appends the lines of consecutive pieces of it,
    each within the limit, and reports the length of the buffer. *)
Theorem writer_write_lines {FH : faster_hex.Api} {FHL : faster_hex.Laws} out b :
  b ≠ [] →
  ∃ chunks, concat chunks = b ∧ Forall (λ c, wf_line (Data c)) chunks ∧
    writer_write (mkWriter out true) b =
      (mkWriter (out ++ concat ((enc ∘ Data) <$> chunks)) true, Ok (length b)).
Proof.
  intros Hb. unfold writer_write. rewrite bool_decide_false by done.
  by apply write_loop_binary.
Qed.
Lemma writer_write_lines_witness :
  ∃ chunks, concat chunks = bs "data" ∧
    @writer_write hex_impl (mkWriter [] true) (bs "data") =
      (mkWriter (concat ((enc ∘ Data) <$> chunks)) true, Ok 4%nat).
Proof.
  destruct (@writer_write_lines hex_impl hex_impl_laws [] (bs "data")) as (c & H1 & _ & H2);
    [done|eauto].
Defined.

(** The writer in text mode.  A newline is added to each piece after the
    input was cut at the limit for data, so [write] fails for every input of
    65516 bytes or more, and writes shorter ones as one line. *)
Theorem writer_text_limit {FH : faster_hex.Api} {FHL : faster_hex.Laws} out b :
  b ≠ [] →
  writer_write (mkWriter out false) b =
  if bool_decide (length b < MAX_DATA_LEN)%nat
  then (mkWriter (out ++ enc (Data (b ++ [10]))) false, Ok (length b))
  else (mkWriter out false, Err (WEncode (EncLimitExceeded (MAX_DATA_LEN + 1)))).
Proof.
  intros Hb. unfold writer_write. rewrite bool_decide_false by done.
  assert (Hstep : write_loop (length b) (mkWriter out false) b 0 =
    match text_to_write (take (Nat.min (length b) MAX_DATA_LEN) b) out with
    | Ok (o, k) => write_loop (length b - 1) (mkWriter o false)
        (drop (Nat.min (length b) MAX_DATA_LEN) b) (0 + k - (U16_HEX_BYTES + 1))
    | Err e => (mkWriter out false, Err (WEncode e))
    | Panic => (mkWriter out false, Panic)
    end).
  { destruct b as [|x b]; [done|]. cbn [length write_loop binary inner]. by rewrite Nat.sub_1_r. }
  rewrite Hstep. clear Hstep. rename b into d.
  unfold text_to_write. rewrite prefixed_spec. cbn [app]. rewrite length_app, length_take.
  assert (Hd : (0 < length d)%nat) by (destruct d; [done|simpl; lia]).
  change (length [10]) with 1%nat.
  destruct (decide (length d < MAX_DATA_LEN)%nat) as [Hlt|Hge].
  - rewrite !(bool_decide_true (_ < _)%nat), (bool_decide_true (_ ≤ _)%nat) by limits.
    rewrite Nat.min_l by limits.
    rewrite firstn_all, drop_all, bool_decide_false by done.
    rewrite length_enc. cbn [payload]. rewrite length_app. change (length [10]) with 1%nat.
    replace (0 + (4 + (length d + 1)) - (U16_HEX_BYTES + 1))%nat with (length d) by limits.
    by destruct (length d - 1)%nat.
  - rewrite !(bool_decide_false (_ < _)%nat), (bool_decide_false (_ ≤ _)%nat) by limits.
    rewrite (Nat.min_r (length d)), Nat.min_l by limits. done.
Qed.
Lemma writer_text_limit_witness :
  @writer_write hex_impl (mkWriter [] false) (bs "data") =
    (mkWriter (enc (Data (bs "data" ++ [10]))) false, Ok 4%nat).
Proof.
  rewrite (@writer_text_limit hex_impl hex_impl_laws [] (bs "data")); [|done].
  by rewrite bool_decide_true by (change (4 < MAX_DATA_LEN)%nat; limits).
Defined.

(** A progress or error message without text is a panic: [TextRef::from]
    looks at the last byte of an empty slice. *)
Example empty_progress_panics :
  @fill_buf hex_impl unit
    (with_progress_handler (mkIter (bs "0005" ++ [2]) [] [] false [Flush] false None)
       (λ st _ _, (st, Continue)) tt) = Panic.
Proof. vm_compute. reflexivity. Qed.
