(* ===== verification/Validate.v ===== *)
(** * Names of references, tags and submodules

    Models [gix-validate/src/tag.rs], [reference.rs] and [submodule.rs]: the
    check of a name against the rules for reference names, the variant that
    rewrites a name until it satisfies them, and the check of submodule
    names. *)

From S2P Require Import Prelude External.

(** ** [tag.rs] *)

Inductive tag_error :=
| InvalidByte (byte : bytes)
| StartsWithSlash
| RepeatedSlash
| RepeatedDot
| LockFileSuffix
| ReflogPortion
| Asterisk
| StartsWithDot
| EndsWithDot
| EndsWithSlash
| Empty.
Inductive tag_mode := Sanitize | TagValidate.

Definition LOCK : bytes := bs ".lock".

(** The first pattern of the [match]: backslash, caret, colon, bracket,
    question mark, space, tilde, control characters and delete. *)
Definition is_invalid_byte (b : Z) : bool :=
  mem b (bs "\^:[? ~") || between 0 31 b || (b =? 127).

(** [while out.ends_with(b".lock") { out.truncate(..) }]: every round removes
    five bytes. *)
Fixpoint strip_lock_loop (fuel : nat) (out : bytes) : bytes :=
  match fuel with
  | O => out
  | S fuel =>
      if ends_with out LOCK then strip_lock_loop fuel (take (length out - length LOCK) out)
      else out
  end.
Definition strip_lock (out : bytes) : bytes := strip_lock_loop (length out) out.

(** [if let Some(out) = out.as_mut() { .. } else { return Err(..) }] *)
Definition alter (out : option bytes) (f : bytes → bytes) (e : tag_error)
  : res tag_error (option bytes) :=
  match out with Some o => Ok (Some (f o)) | None => Err e end.

(** The state of the loop: [out], [previous] and [component_end]. *)
Definition loop_state : Type := option bytes * Z * nat.

(** The arm for all other bytes. *)
Definition other_byte (input : bytes) (last byte_pos : nat) (c : Z)
    (out : option bytes) (component_end : nat) : res tag_error (option bytes * nat) :=
  '(out, component_end) ←
    (if c =? ch "/" then
       let component_start := component_end in
       let component_end := byte_pos in
       component ← slice input component_start component_end;
       if ends_with component LOCK then
         out ← alter out strip_lock LockFileSuffix; Ok (out, component_end)
       else Ok (out, component_end)
     else Ok (out, component_end));
  let out := (λ o, o ++ [c]) <$> out in
  if (byte_pos =? last)%nat then
    tail ← slice_from input (component_end + 1);
    if ends_with tail LOCK then
      out ← alter out strip_lock LockFileSuffix; Ok (out, component_end)
    else Ok (out, component_end)
  else Ok (out, component_end).

(** The body of the loop. *)
Definition name_step (input : bytes) (last byte_pos : nat) (byte : Z) (st : loop_state)
  : res tag_error loop_state :=
  let '(out, previous, component_end) := st in
  let push_dash o := o ++ [ch "-"] in
  '(out, component_end) ←
    (if is_invalid_byte byte then
       out ← alter out push_dash (InvalidByte [byte]); Ok (out, component_end)
     else if byte =? ch "*" then
       out ← alter out push_dash Asterisk; Ok (out, component_end)
     else if (byte =? ch ".") && (previous =? ch ".") then
       out ← alter out (λ o, o) RepeatedDot; Ok (out, component_end)
     else if (byte =? ch ".") && (previous =? ch "/") then
       out ← alter out push_dash StartsWithDot; Ok (out, component_end)
     else if (byte =? ch "{") && (previous =? ch "@") then
       out ← alter out push_dash ReflogPortion; Ok (out, component_end)
     else if (byte =? ch "/") && (previous =? ch "/") then
       out ← alter out (λ o, o) RepeatedSlash; Ok (out, component_end)
     else other_byte input last byte_pos byte out component_end);
  Ok (out, byte, component_end).

(** [for (byte_pos, byte) in input.iter().enumerate()] *)
Fixpoint name_loop (input : bytes) (last byte_pos : nat) (rest : bytes) (st : loop_state)
  : res tag_error loop_state :=
  match rest with
  | [] => Ok st
  | byte :: rest =>
      st ← name_step input last byte_pos byte st;
      name_loop input last (S byte_pos) rest st
  end.

(** [while out.last() == Some(&b'/') { out.pop(); }] and
    [while out.first() == Some(&b'/') { out.remove(0); }] *)
Fixpoint trim_start (out : bytes) : bytes :=
  match out with
  | x :: rest => if x =? ch "/" then trim_start rest else out
  | [] => []
  end.
Fixpoint trim_end (out : bytes) : bytes :=
  match out with
  | [] => []
  | x :: rest =>
      match trim_end rest with
      | [] => if x =? ch "/" then [] else [x]
      | rest => x :: rest
      end
  end.

(** The code behind the loop. *)
Definition name_finish (input : bytes) (out : option bytes)
  : res tag_error (option bytes) :=
  let out := (λ o, trim_start (trim_end o)) <$> out in
  let current out := match out with Some b => b | None => input end in
  first ← idx (current out) 0;
  out ← (if first =? ch "." then alter out (λ o, <[0%nat := ch "-"]> o) StartsWithDot else Ok out);
  let last := (length (current out) - 1)%nat in
  final ← idx (current out) last;
  if final =? ch "." then
    alter out (λ o, <[(length o - 1)%nat := ch "-"]> o) EndsWithDot
  else Ok out.

Definition name_inner (input : bytes) (mode : tag_mode) : res tag_error (option bytes) :=
  let out := match mode with Sanitize => Some [] | TagValidate => None end in
  match input with
  | [] => alter out (λ o, o ++ [ch "-"]) Empty
  | first :: _ =>
      final ← expect (list.last input);
      if (final =? ch "/") && bool_decide (out = None) then Err EndsWithSlash
      else if (first =? ch "/") && bool_decide (out = None) then Err StartsWithSlash
      else
        '(out, _, _) ← name_loop input (length input - 1) 0 input (out, 0, 0%nat);
        name_finish input out
  end.

(** [unreachable!] is a panic. *)
Definition tag_name (input : bytes) : res tag_error bytes :=
  r ← name_inner input TagValidate;
  match r with None => Ok input | Some _ => Panic end.

(** ** [reference.rs] *)

Inductive ref_error := Tag (e : tag_error) | SomeLowercase.
Inductive ref_mode := RefComplete | Partial | PartialSanitize.

Section Bstr.
Context {BS : bstr.Api}.

Definition validate (path : bytes) (mode : ref_mode) : res ref_error (option bytes) :=
  out ← map_err Tag (name_inner path
    match mode with RefComplete | Partial => TagValidate | PartialSanitize => Sanitize end);
  match mode with
  | RefComplete =>
      let input := match out with Some b => b | None => path end in
      let saw_slash := bool_decide (bstr.find_byte input (ch "/") ≠ None) in
      if negb saw_slash && negb (forallb (λ c, is_ascii_uppercase c || (c =? ch "_")) input)
      then Err SomeLowercase else Ok out
  | _ => Ok out
  end.

Definition ref_name (path : bytes) : res ref_error bytes :=
  r ← validate path RefComplete;
  match r with None => Ok path | Some _ => Panic end.
Definition name_partial (path : bytes) : res ref_error bytes :=
  r ← validate path Partial;
  match r with None => Ok path | Some _ => Panic end.
(** Both [expect]s are panics. *)
Definition name_partial_or_sanitize (path : bytes) : res Empty_set bytes :=
  match validate path PartialSanitize with Ok (Some out) => Ok out | _ => Panic end.

(** ** [submodule.rs] *)

Inductive submodule_error := SubEmpty | ParentComponent.

Definition submodule_name (name : bytes) : res submodule_error bytes :=
  match name with
  | [] => Err SubEmpty
  | _ =>
      match bstr.find name (bs "..") with
      | Some pos =>
          b ← ok_or (name !! (pos + 2)%nat) ParentComponent;
          if (b =? ch "/") || (b =? ch "\") then Err ParentComponent else Ok name
      | None => Ok name
      end
  end.

End Bstr.

(** ** Specification *)

(** [p] occurs in [s]. *)
Definition contains (s p : bytes) : Prop := ∃ a b, s = a ++ p ++ b.

(** What may not occur anywhere in a name. *)
Definition forbidden : list bytes :=
  [bs ".."; bs "/."; bs "@{"; bs "//"; bs ".lock/"].
(** Bytes of names: none up to the space, no delete, none of seven characters. *)
Definition good_byte (b : Z) : Prop := ¬ 0 ≤ b ≤ 0x20 ∧ b ≠ 0x7f ∧ b ∉ bs "~^:?*[\".
Definition clean (s : bytes) : Prop :=
  Forall good_byte s ∧ ∀ p, p ∈ forbidden → ¬ contains s p.

(** The rules for reference names: no bad bytes, no forbidden sequence, no
    slash or dot at either end, no final [.lock]. *)
Definition ref_format (s : bytes) : Prop :=
  s ≠ [] ∧ clean s ∧
  (∀ c, c = ch "/" ∨ c = ch "." → head s ≠ Some c ∧ list.last s ≠ Some c) ∧
  ends_with s (bs ".lock") = false.

(** ** Lemmas: occurrences *)

Lemma good_byte_iff b : good_byte b ↔ is_invalid_byte b = false ∧ b ≠ ch "*".
Proof.
  unfold good_byte, is_invalid_byte, mem, between. change (bs "~^:?*[\") with [126; 94; 58; 63; 42; 91; 92].
  change (bs "\^:[? ~") with [92; 94; 58; 91; 63; 32; 126]. change (ch "*") with 42. cbn [existsb].
  rewrite !not_elem_of_cons. pose proof (not_elem_of_nil b).
  destruct (_ || _ || _) eqn:E; bool_simpl; split; intros ?; destruct_and?; split_and?; (done || lia).
Qed.

Lemma idx_last {E} (r : bytes) : @idx E r (length r - 1) = expect (list.last r).
Proof. unfold idx. rewrite last_lookup. do 2 f_equal. lia. Qed.

Lemma contains_infix a s b p : contains s p → contains (a ++ s ++ b) p.
Proof. intros (x & y & ->). exists (a ++ x), (y ++ b). by rewrite <- !app_assoc. Qed.
Lemma contains_prefix s b p : contains s p → contains (s ++ b) p.
Proof. intros H. by apply (contains_infix [] s b) in H. Qed.
Lemma contains_suffix a s p : contains s p → contains (a ++ s) p.
Proof. intros H. apply (contains_infix a s []) in H. by rewrite app_nil_r in H. Qed.

Lemma ends_with_app k s : ends_with (k ++ s) s = true.
Proof. apply ends_with_spec. eauto. Qed.

Lemma contains_snoc s c p :
  p ≠ [] → contains (s ++ [c]) p ↔ contains s p ∨ ends_with (s ++ [c]) p = true.
Proof.
  intros Hp. split.
  - intros (a & b & H). destruct b as [|y b _] using rev_ind.
    { right. apply ends_with_spec. exists a. by rewrite app_nil_r in H. }
    left. rewrite !app_assoc in H. apply app_inj_tail in H as [-> _].
    exists a, b. by rewrite <- !app_assoc.
  - intros [H|H]; [by apply contains_prefix|]. apply ends_with_spec in H as [k ->].
    exists k, []. by rewrite app_nil_r.
Qed.

Lemma ends_with_snoc s c p x :
  ends_with (s ++ [c]) (p ++ [x]) = (c =? x) && ends_with s p.
Proof.
  apply eq_true_iff_eq. rewrite andb_true_iff, Z.eqb_eq, !ends_with_spec. split.
  - intros [k H]. rewrite app_assoc in H. apply app_inj_tail in H as [-> ->]. eauto.
  - intros [-> [k ->]]. exists k. by rewrite app_assoc.
Qed.
Lemma ends_with_single s x : ends_with s [x] = bool_decide (list.last s = Some x).
Proof.
  apply eq_true_iff_eq. rewrite ends_with_spec, bool_decide_eq_true. split.
  - intros [k ->]. by rewrite last_snoc.
  - intros [k ->]%last_Some. eauto.
Qed.
Lemma ends_with_last s p x :
  ends_with s (p ++ [x]) = true → list.last s = Some x.
Proof. intros [k ->]%ends_with_spec. by rewrite app_assoc, last_snoc. Qed.

(** The forbidden sequence that a byte completes. *)
Definition completes (s : bytes) (c : Z) : bool :=
  ((c =? ch ".") && (bool_decide (list.last s = Some (ch ".")) ||
                     bool_decide (list.last s = Some (ch "/")))) ||
  ((c =? ch "{") && bool_decide (list.last s = Some (ch "@"))) ||
  ((c =? ch "/") && (bool_decide (list.last s = Some (ch "/")) || ends_with s LOCK)).

Lemma completes_spec s c :
  completes s c = true ↔ ∃ p, p ∈ forbidden ∧ ends_with (s ++ [c]) p = true.
Proof.
  assert (H2 : ∀ x y, ends_with (s ++ [c]) [x; y] =
    (c =? y) && bool_decide (list.last s = Some x)).
  { intros x y. change [x; y] with ([x] ++ [y]). by rewrite ends_with_snoc, ends_with_single. }
  assert (H5 : ends_with (s ++ [c]) (bs ".lock/") = (c =? ch "/") && ends_with s LOCK)
    by apply (ends_with_snoc s c LOCK).
  assert (Hex : (∃ p, p ∈ forbidden ∧ ends_with (s ++ [c]) p = true) ↔
    existsb (ends_with (s ++ [c])) forbidden = true).
  { rewrite existsb_exists. setoid_rewrite list_elem_of_In. done. }
  rewrite Hex. unfold forbidden. cbn [existsb]. rewrite H5.
  change (bs "..") with [46; 46]. change (bs "/.") with [47; 46].
  change (bs "@{") with [64; 123]. change (bs "//") with [47; 47]. rewrite !H2.
  unfold completes. f_equiv.
  destruct (c =? 46), (c =? 123), (c =? 47), (bool_decide (list.last s = Some 46)),
    (bool_decide (list.last s = Some 47)), (bool_decide (list.last s = Some 64)),
    (ends_with s LOCK); done.
Qed.

Lemma forbidden_head p : p ∈ forbidden → ∃ c p', p = c :: p' ∧ c ≠ ch "-".
Proof.
  revert p. apply Forall_forall. unfold forbidden. repeat apply Forall_cons_2; [..|constructor].
  all: by eexists _, _.
Qed.
Lemma forbidden_nonempty p : p ∈ forbidden → p ≠ [].
Proof. by intros (c & p' & -> & _)%forbidden_head. Qed.

Lemma clean_snoc s c :
  clean (s ++ [c]) ↔ clean s ∧ good_byte c ∧ completes s c = false.
Proof.
  unfold clean. rewrite Forall_app, Forall_singleton, <- not_true_iff_false, completes_spec.
  split.
  - intros [[Hs Hc] Hf]. split_and!; [done| |done|].
    + intros p Hp H. apply (Hf p Hp). by apply contains_prefix.
    + intros (p & Hp & H). apply (Hf p Hp). apply contains_snoc; auto using forbidden_nonempty.
  - intros ([Hs Hf] & Hc & Hn). split; [done|]. intros p Hp H.
    apply contains_snoc in H as [H|H]; [by apply (Hf p Hp)| |by apply forbidden_nonempty]. eauto.
Qed.
Lemma clean_nil : clean [].
Proof.
  split; [constructor|]. intros p Hp (a & b & H).
  symmetry in H. apply app_nil in H as [_ H]. apply app_nil in H as [H _].
  by apply (forbidden_nonempty p).
Qed.
Lemma clean_infix a s b : clean (a ++ s ++ b) → clean s.
Proof.
  intros [Hb Hf]. apply Forall_app in Hb as [_ Hb]. apply Forall_app in Hb as [Hb _].
  split; [done|]. intros p Hp H. apply (Hf p Hp). by apply contains_infix.
Qed.

(** ** Lemmas: components *)

(** [component_end] is the start of the name or the index of a slash. *)
Definition at_slash (s : bytes) (ce : nat) : Prop := ce = 0%nat ∨ s !! ce = Some (ch "/").

Lemma lock_before_slash k ce : (k ++ LOCK) !! ce = Some (ch "/") → (ce < length k)%nat.
Proof.
  intros H. destruct (Nat.lt_ge_cases ce (length k)) as [|Hge]; [done|].
  rewrite lookup_app_r in H by done.
  assert (Hn : Forall (λ c, c ≠ ch "/") LOCK) by (repeat constructor; done).
  rewrite Forall_lookup in Hn. by specialize (Hn _ _ H).
Qed.
Lemma ends_with_drop_le n m s p :
  (m ≤ n)%nat → ends_with (drop n s) p = true → ends_with (drop m s) p = true.
Proof.
  intros Hm [k Hk]%ends_with_spec. apply ends_with_spec.
  exists (take (n - m) (drop m s) ++ k).
  rewrite <- app_assoc, <- Hk. replace (drop n s) with (drop (n - m) (drop m s)).
  - by rewrite take_drop.
  - rewrite drop_drop. f_equal. lia.
Qed.
Lemma lock_drop s ce : at_slash s ce → ends_with (drop ce s) LOCK = ends_with s LOCK.
Proof.
  intros [->|Hs]; [done|]. apply eq_true_iff_eq. split.
  - intros H. by apply (ends_with_drop_le ce 0) in H; [|lia].
  - intros [k ->]%ends_with_spec. apply lock_before_slash in Hs.
    rewrite drop_app_le by lia. apply ends_with_app.
Qed.
Lemma lock_tail s ce :
  at_slash s ce → ends_with (drop (ce + 1) s) LOCK = ends_with (drop 1 s) LOCK.
Proof.
  intros [->|Hs]; [done|]. apply eq_true_iff_eq. split.
  - intros H. apply (ends_with_drop_le (ce + 1)); [lia|done].
  - intros H. apply (ends_with_drop_le 1 0) in H; [|lia]. rewrite drop_0 in H.
    apply ends_with_spec in H as [k ->]. apply lock_before_slash in Hs.
    rewrite drop_app_le by lia. apply ends_with_app.
Qed.

Lemma at_slash_app pre k ce : at_slash pre ce → at_slash (pre ++ k) ce.
Proof.
  intros [->|H]; [by left|right]. rewrite lookup_app_l; [done|].
  by eapply lookup_lt_Some.
Qed.
Lemma at_slash_le pre ce : at_slash pre ce → (ce ≤ length pre)%nat.
Proof. intros [->|H]; [lia|]. apply lookup_lt_Some in H. lia. Qed.

(** The arm for other bytes without indices: [pre] is what was read. *)
Lemma other_byte_eq pre b rest out ce :
  at_slash pre ce →
  other_byte (pre ++ b :: rest) (length (pre ++ b :: rest) - 1) (length pre) b out ce =
    out ← (if (b =? ch "/") && ends_with pre LOCK
           then alter out strip_lock LockFileSuffix else Ok out);
    let out := (λ o, o ++ [b]) <$> out in
    out ← (if bool_decide (rest = []) && ends_with (drop 1 (pre ++ b :: rest)) LOCK
           then alter out strip_lock LockFileSuffix else Ok out);
    Ok (out, if b =? ch "/" then length pre else ce).
Proof.
  intros Hce. unfold other_byte.
  set (ce' := if b =? ch "/" then length pre else ce).
  assert (Hce' : at_slash (pre ++ b :: rest) ce').
  { unfold ce'. destruct (Z.eqb_spec b (ch "/")) as [->|].
    - right. by rewrite list_lookup_middle.
    - by apply at_slash_app. }
  assert (Hlt : (ce' + 1 ≤ length (pre ++ b :: rest))%nat).
  { rewrite length_app. simpl. pose proof (at_slash_le pre ce Hce). unfold ce'. case_match; lia. }
  assert (Hfst : (if b =? ch "/" then
       component ← slice (pre ++ b :: rest) ce (length pre);
       if ends_with component LOCK then
         out ← alter out strip_lock LockFileSuffix; Ok (out, length pre)
       else Ok (out, length pre)
     else Ok (out, ce)) =
     out ← (if (b =? ch "/") && ends_with pre LOCK
            then alter out strip_lock LockFileSuffix else Ok out); Ok (out, ce')).
  { unfold ce'. destruct (b =? ch "/"); [|done]. pose proof (at_slash_le pre ce Hce).
    rewrite <- (take_drop ce pre) at 1. rewrite <- app_assoc.
    rewrite (slice_app (take ce pre) (drop ce pre))
      by (rewrite ?length_take, ?length_drop; lia).
    rewrite bind_Ok, lock_drop by done. simpl. by destruct (ends_with pre LOCK). }
  cbv zeta. rewrite Hfst. destruct (if (b =? ch "/") && _ then _ else _) as [o| |]; [|done..].
  rewrite !bind_Ok. cbv beta iota.
  assert (Hlast : (length pre =? length (pre ++ b :: rest) - 1)%nat = bool_decide (rest = [])).
  { rewrite length_app. cbn [length]. destruct rest; cbn [length].
    - rewrite bool_decide_true by done. apply Nat.eqb_eq. lia.
    - rewrite bool_decide_false by done. apply Nat.eqb_neq. lia. }
  rewrite Hlast. destruct (bool_decide (rest = [])); [|done].
  unfold slice_from, get_from. rewrite (proj2 (Nat.leb_le _ _)) by done. cbn [expect].
  rewrite bind_Ok, lock_tail by done. simpl. by destruct (ends_with _ LOCK).
Qed.

(** The previous byte, zero at the start. *)
Definition prev (pre : bytes) : Z := match list.last pre with Some c => c | None => 0 end.
Lemma prev_is pre x : x ≠ 0 → (prev pre =? x) = bool_decide (list.last pre = Some x).
Proof.
  intros Hx. unfold prev. destruct (list.last pre) as [c|].
  - destruct (Z.eqb_spec c x); [subst; by rewrite bool_decide_true|].
    rewrite bool_decide_false by congruence. done.
  - rewrite bool_decide_false by done. by apply Z.eqb_neq.
Qed.
Lemma prev_snoc pre b : prev (pre ++ [b]) = b.
Proof. unfold prev. by rewrite last_snoc. Qed.

(** ** Lemmas: validation *)

Definition final_lock (pre rest : bytes) : bool :=
  bool_decide (rest = []) && ends_with (drop 1 pre) LOCK.

Lemma completes_cases s c :
  completes s c =
    (c =? ch ".") && bool_decide (list.last s = Some (ch ".")) ||
    (c =? ch ".") && bool_decide (list.last s = Some (ch "/")) ||
    (c =? ch "{") && bool_decide (list.last s = Some (ch "@")) ||
    (c =? ch "/") && bool_decide (list.last s = Some (ch "/")) ||
    (c =? ch "/") && ends_with s LOCK.
Proof. unfold completes. rewrite !andb_orb_distrib_r, !orb_assoc. done. Qed.

Lemma at_slash_step pre b ce :
  at_slash pre ce → at_slash (pre ++ [b]) (if b =? ch "/" then length pre else ce).
Proof.
  intros Hce. destruct (Z.eqb_spec b (ch "/")) as [->|]; [|by apply at_slash_app].
  right. by rewrite list_lookup_middle.
Qed.

Lemma step_validate pre b rest ce :
  at_slash pre ce →
  match name_step (pre ++ b :: rest) (length (pre ++ b :: rest) - 1) (length pre) b
          (None, prev pre, ce) with
  | Ok (o, p, ce') => o = None ∧ p = b ∧ at_slash (pre ++ [b]) ce' ∧
      good_byte b ∧ completes pre b = false ∧ final_lock (pre ++ [b]) rest = false
  | Err _ => ¬ (good_byte b ∧ completes pre b = false ∧ final_lock (pre ++ [b]) rest = false)
  | Panic => False
  end.
Proof.
  intros Hce. unfold name_step. rewrite other_byte_eq by done. pose proof (good_byte_iff b) as Hgood.
  rewrite completes_cases, !prev_is by done.
  destruct (is_invalid_byte b); [simpl; naive_solver|].
  destruct (Z.eqb_spec b (ch "*")) as [->|Hstar]; [simpl; naive_solver|].
  assert (good_byte b) by (by apply Hgood). clear Hgood.
  destruct ((b =? ch ".") && bool_decide (list.last pre = Some (ch "."))); [simpl; naive_solver|].
  destruct ((b =? ch ".") && bool_decide (list.last pre = Some (ch "/"))); [simpl; naive_solver|].
  destruct ((b =? ch "{") && _); [simpl; naive_solver|].
  destruct ((b =? ch "/") && bool_decide _); [simpl; naive_solver|].
  destruct ((b =? ch "/") && ends_with pre LOCK); [simpl; naive_solver|].
  pose proof (at_slash_step pre b ce Hce).
  rewrite bind_Ok. cbn [fmap option_fmap option_map]. unfold final_lock.
  destruct (bool_decide (rest = [])) eqn:Er; cbn [andb]; [|simpl; naive_solver].
  apply bool_decide_eq_true in Er as ->.
  destruct (ends_with (drop 1 (pre ++ [b])) LOCK); simpl; naive_solver.
Qed.

Lemma loop_validate pre rest ce :
  at_slash pre ce →
  match name_loop (pre ++ rest) (length (pre ++ rest) - 1) (length pre) rest
          (None, prev pre, ce) with
  | Ok (o, _, _) => o = None ∧ (clean pre → clean (pre ++ rest)) ∧
      (rest ≠ [] → ends_with (drop 1 (pre ++ rest)) LOCK = false)
  | Err _ => ¬ (clean (pre ++ rest) ∧ ends_with (drop 1 (pre ++ rest)) LOCK = false)
  | Panic => False
  end.
Proof.
  revert pre ce. induction rest as [|b rest IH]; intros pre ce Hce.
  { simpl. rewrite app_nil_r. naive_solver. }
  cbn [name_loop]. pose proof (step_validate pre b rest ce Hce) as Hstep.
  destruct (name_step _ _ _ b _) as [[[o p] ce']|e|]; [| |done].
  - destruct Hstep as (-> & -> & Hce' & Hg & Hc & Hl). rewrite bind_Ok.
    specialize (IH (pre ++ [b]) ce' Hce'). rewrite prev_snoc in IH.
    rewrite <- app_assoc, (length_app pre [b]), Nat.add_1_r in IH. cbn [app] in IH.
    destruct (name_loop _ _ _ rest _) as [[[o p] ce'']|e|]; [|done..].
    destruct IH as (-> & Hcl & Hend). split_and!; [done| |].
    + intros Hp. apply Hcl, clean_snoc. done.
    + intros _. destruct rest; [|by apply Hend].
      unfold final_lock in Hl. by rewrite bool_decide_true in Hl.
  - intros [Hcl Hend]. apply Hstep.
    replace (pre ++ b :: rest) with ((pre ++ [b]) ++ rest) in Hcl, Hend by (by rewrite <- app_assoc).
    apply (clean_infix [] (pre ++ [b]) rest) in Hcl. apply clean_snoc in Hcl as (_ & ? & ?).
    split_and!; [done..|]. unfold final_lock. case_bool_decide; [|done]. subst.
    by rewrite app_nil_r in Hend.
Qed.

Lemma lock_drop_1 s : head s ≠ Some (ch ".") → ends_with (drop 1 s) LOCK = ends_with s LOCK.
Proof.
  intros Hh. apply eq_true_iff_eq. split.
  - intros H. apply (ends_with_drop_le 1 0) in H; [|lia]. by rewrite drop_0 in H.
  - intros [[|x k] ->]%ends_with_spec; [done|]. apply (ends_with_app k).
Qed.

Lemma finish_validate input :
  input ≠ [] →
  match name_finish input None with
  | Ok o => o = None ∧ head input ≠ Some (ch ".") ∧ list.last input ≠ Some (ch ".")
  | Err _ => head input = Some (ch ".") ∨ list.last input = Some (ch ".")
  | Panic => False
  end.
Proof.
  intros Hne.
  assert (Heq : name_finish input None =
    first ← idx input 0;
    if first =? ch "." then Err StartsWithDot
    else final ← idx input (length input - 1);
         if final =? ch "." then Err EndsWithDot else Ok None).
  { unfold name_finish. cbn [fmap option_fmap option_map].
    destruct (@idx tag_error input 0) as [f| |]; [|done..]. rewrite !bind_Ok.
    by destruct (f =? ch "."). }
  rewrite Heq. clear Heq.
  rewrite idx_last. destruct (list.last input) as [z|] eqn:Hz; [|by apply last_None in Hz].
  destruct input as [|x input]; [done|]. cbn [head idx lookup list_lookup expect].
  rewrite bind_Ok. destruct (Z.eqb_spec x (ch ".")) as [->|]; [simpl; auto|].
  rewrite bind_Ok. destruct (Z.eqb_spec z (ch ".")) as [->|]; simpl; [auto|naive_solver].
Qed.

(** Validation decides the rules. *)
Lemma name_inner_validate s :
  match name_inner s TagValidate with
  | Ok o => o = None ∧ ref_format s
  | Err _ => ¬ ref_format s
  | Panic => False
  end.
Proof.
  unfold name_inner, ref_format. destruct s as [|x s]; [simpl; naive_solver|].
  set (input := x :: s). change (x :: s) with input. assert (Hne : input ≠ []) by done.
  destruct (list.last input) as [z|] eqn:Hz; [|by apply last_None in Hz].
  cbn [expect]. rewrite bind_Ok, !(bool_decide_true (None = None)), !andb_true_r by done.
  destruct (Z.eqb_spec z (ch "/")) as [->|Hz1].
  { intros (_ & _ & H & _). by destruct (H (ch "/") (or_introl eq_refl)). }
  destruct (Z.eqb_spec x (ch "/")) as [->|Hx1].
  { intros (_ & _ & H & _). by destruct (H (ch "/") (or_introl eq_refl)). }
  pose proof (loop_validate [] input 0 (or_introl eq_refl)) as Hloop. cbn [app length] in Hloop.
  change (prev []) with 0 in Hloop.
  destruct (name_loop input _ 0 input _) as [[[o p] ce]|e|]; [| |done].
  - destruct Hloop as (-> & Hcl & Hend). rewrite bind_Ok. cbv beta iota.
    specialize (Hcl clean_nil). specialize (Hend Hne).
    pose proof (finish_validate input Hne) as Hf. rewrite Hz in Hf.
    destruct (name_finish input None) as [o|e|]; [| |done].
    + destruct Hf as (-> & Hd1 & Hd2). rewrite lock_drop_1 in Hend by done.
      split_and!; try done. intros c [->| ->]; split; try done; simpl; congruence.
    + intros (_ & _ & H & _). destruct (H (ch ".") (or_intror eq_refl)). naive_solver.
  - simpl. intros (_ & Hcl & Hends & Hl). apply Hloop. split; [done|].
    rewrite lock_drop_1; [done|]. by apply (Hends (ch ".")); right.
Qed.

(** ** Lemmas: sanitising *)

Lemma strip_lock_loop_spec fuel out :
  (length out ≤ fuel)%nat →
  ends_with (strip_lock_loop fuel out) LOCK = false ∧
  ∃ n, out = strip_lock_loop fuel out ++ concat (replicate n LOCK).
Proof.
  revert out. induction fuel as [|fuel IH]; intros out Hf; cbn [strip_lock_loop].
  { destruct out; [|simpl in Hf; lia]. split; [done|]. by exists 0%nat. }
  destruct (ends_with out LOCK) eqn:E; [|split; [done|]; exists 0%nat; by rewrite app_nil_r].
  apply ends_with_spec in E as [k ->]. rewrite length_app in *. rewrite Nat.add_sub, take_app_length.
  destruct (IH k) as [H1 [n H2]]; [simpl in Hf; lia|]. split; [done|]. exists (S n).
  rewrite replicate_S_end, concat_app, app_assoc, <- H2. simpl. done.
Qed.
Lemma strip_lock_spec out :
  ends_with (strip_lock out) LOCK = false ∧
  ∃ k, out = strip_lock out ++ k ∧ (k = [] ∨ ∃ k', k = ch "." :: k').
Proof.
  destruct (strip_lock_loop_spec (length out) out) as [H1 [n H2]]; [lia|].
  split; [done|]. eexists. split; [exact H2|]. destruct n; [by left|right]. simpl. eauto.
Qed.

(** What the output of the loop satisfies after [pre]: it breaks no rule yet,
    and where it ends in something that could become part of a violation,
    the input does as well. *)
Definition tails : list bytes :=
  [bs "."; bs "/"; bs "@"; bs ".l"; bs ".lo"; bs ".loc"; LOCK].
Definition follows (out pre : bytes) : Prop :=
  clean out ∧ ∀ q, q ∈ tails → ends_with out q = true → ends_with pre q = true.

Lemma tails_cases (P : bytes → Prop) :
  (∀ q, q ∈ tails → P q) ↔
  P (bs ".") ∧ P (bs "/") ∧ P (bs "@") ∧ P (bs ".l") ∧ P (bs ".lo") ∧ P (bs ".loc") ∧ P LOCK.
Proof.
  rewrite <- Forall_forall. unfold tails. rewrite !Forall_cons, Forall_nil. tauto.
Qed.

Lemma clean_dash s : clean s → clean (s ++ [ch "-"]).
Proof. intros H. apply clean_snoc. split_and!; [done|by apply good_byte_iff|]. by rewrite completes_cases. Qed.

(** Pushing a byte that completes nothing. *)
Lemma ends_snoc_tail s c q x : ends_with (s ++ [c]) (q ++ [x]) = true ↔ c = x ∧ ends_with s q = true.
Proof. by rewrite ends_with_snoc, andb_true_iff, Z.eqb_eq. Qed.

Lemma ends_nil s : ends_with s [] = true.
Proof. apply ends_with_spec. exists s. by rewrite app_nil_r. Qed.

(** A tail is a byte pushed behind nothing or behind a shorter tail. *)
Lemma tail_snoc s c q :
  q ∈ tails → ends_with (s ++ [c]) q = true ↔
  ∃ q', (q' = [] ∨ q' ∈ tails) ∧ q = q' ++ [c] ∧ ends_with s q' = true.
Proof.
  assert (Hex : ∀ q' x, (q' = [] ∨ q' ∈ tails) → ends_with (s ++ [c]) (q' ++ [x]) = true ↔
    ∃ q0, (q0 = [] ∨ q0 ∈ tails) ∧ q' ++ [x] = q0 ++ [c] ∧ ends_with s q0 = true).
  { intros q' x Hq'. rewrite ends_snoc_tail. split.
    - intros [-> H]. eauto.
    - intros (q0 & _ & H & ?). apply app_inj_tail in H as [-> ->]. done. }
  revert q. apply tails_cases. split_and!.
  - apply (Hex [] (ch ".")). by left.
  - apply (Hex [] (ch "/")). by left.
  - apply (Hex [] (ch "@")). by left.
  - apply (Hex (bs ".") (ch "l")). right. unfold tails. set_solver.
  - apply (Hex (bs ".l") (ch "o")). right. unfold tails. set_solver.
  - apply (Hex (bs ".lo") (ch "c")). right. unfold tails. set_solver.
  - apply (Hex (bs ".loc") (ch "k")). right. unfold tails. set_solver.
Qed.

Lemma follows_push out pre c :
  follows out pre → good_byte c → completes out c = false → follows (out ++ [c]) (pre ++ [c]).
Proof.
  intros [Hcl Hf] Hg Hc. split; [by apply clean_snoc|].
  intros q Hq H. apply (tail_snoc out c q Hq) in H as (q' & Hq' & -> & H).
  apply tail_snoc; [done|]. exists q'. split_and!; [done..|].
  destruct Hq' as [->|Hq']; [apply ends_nil|by apply Hf].
Qed.
Lemma tails_last c :
  ∀ q, q ∈ tails → list.last q = Some c → c ≠ ch "-" ∧ (c = ch "." ∨ c = ch "/" → q = [c]).
Proof.
  apply (tails_cases (λ q, list.last q = Some c → _)).
  split_and!; intros [= <-]; (split; [done|]); intros [?|?]; done.
Qed.
Lemma follows_dash out pre c : follows out pre → follows (out ++ [ch "-"]) (pre ++ [c]).
Proof.
  intros [Hcl _]. split; [by apply clean_dash|]. intros q Hq H.
  apply (tail_snoc out _ q Hq) in H as (q' & _ & -> & _).
  by destruct (tails_last (ch "-") _ Hq (last_snoc _ _)).
Qed.
(** A repeated dot or slash is dropped. *)
Lemma follows_skip out pre c :
  follows out pre → c = ch "." ∨ c = ch "/" → list.last pre = Some c → follows out (pre ++ [c]).
Proof.
  intros [Hcl Hf] Hc Hl. split; [done|]. intros q Hq H. specialize (Hf q Hq H).
  apply last_Some in Hl as [pre' ->].
  apply (tail_snoc pre' c q Hq) in Hf as (q' & _ & -> & _).
  destruct (tails_last c _ Hq (last_snoc _ _)) as [_ ->]; [|done].
  rewrite <- app_assoc. apply ends_with_spec. by exists (pre' ++ [c]); rewrite <- app_assoc.
Qed.

Lemma follows_last out pre c :
  follows out pre → c = ch "." ∨ c = ch "/" ∨ c = ch "@" →
  list.last out = Some c → list.last pre = Some c.
Proof.
  intros [_ Hf] Hc Ho.
  assert (Hq : [c] ∈ tails) by (unfold tails; destruct_or! Hc; subst; vm_compute; set_solver).
  specialize (Hf [c] Hq). rewrite !ends_with_single, !bool_decide_eq_true in Hf. auto.
Qed.
Lemma follows_lock out pre : follows out pre → ends_with out LOCK = true → ends_with pre LOCK = true.
Proof. intros [_ Hf]. apply Hf. unfold tails. set_solver. Qed.

(** Removing [.lock] leaves a clean output that does not end in a slash. *)
Lemma strip_clean out :
  clean out → clean (strip_lock out) ∧
  (list.last (strip_lock out) = Some (ch "/") → strip_lock out = out).
Proof.
  intros Hcl. destruct (strip_lock_spec out) as (_ & k & Hout & Hk).
  set (o := strip_lock out) in *. clearbody o. subst out. split.
  { by apply (clean_infix [] o k). }
  intros [o' ->]%last_Some. destruct Hk as [->|[k' ->]]; [by rewrite app_nil_r|].
  destruct Hcl as [_ Hf]. destruct (Hf (bs "/.")); [unfold forbidden; set_solver|].
  exists o', k'. by rewrite <- app_assoc.
Qed.

Lemma completes_strip out pre c :
  follows out pre → completes pre c = false ∨ (c = ch "/" ∧ list.last pre ≠ Some (ch "/")) →
  let o := if (c =? ch "/") && ends_with pre LOCK then strip_lock out else out in
  clean o ∧ completes o c = false.
Proof.
  intros Hfo Hc. pose proof (proj1 Hfo) as Hcl. cbv zeta.
  destruct (Z.eqb_spec c (ch "/")) as [->|Hns]; cbn [andb].
  - assert (Hl : list.last pre ≠ Some (ch "/")).
    { destruct Hc as [Hc|[_ ?]]; [|done]. intros Hl. rewrite completes_cases, Hl in Hc. done. }
    destruct (strip_clean out Hcl) as [Hs1 Hs2].
    assert (Hlo : list.last out ≠ Some (ch "/")).
    { intros ?. apply Hl. by apply (follows_last out); auto. }
    destruct (ends_with pre LOCK) eqn:Epre.
    + split; [done|]. rewrite completes_cases. simpl.
      rewrite (proj1 (strip_lock_spec out)), orb_false_r. apply bool_decide_eq_false.
      intros H. rewrite (Hs2 H) in H. done.
    + split; [done|]. rewrite completes_cases. simpl. apply orb_false_iff. split.
      * by apply bool_decide_eq_false.
      * apply not_true_iff_false. intros H. by rewrite (follows_lock out pre Hfo H) in Epre.
  - split; [done|]. destruct Hc as [Hc|[? _]]; [|done]. apply not_true_iff_false. intros Ht.
    apply not_true_iff_false in Hc. apply Hc. revert Ht. rewrite !completes_cases.
    rewrite (proj2 (Z.eqb_neq c 47)) by done. rewrite !andb_false_l, !orb_false_r.
    rewrite !orb_true_iff, !andb_true_iff, !bool_decide_eq_true.
    pose proof (follows_last out pre). intuition auto 10.
Qed.

(** An output whose first byte stays: not a dot (which [.lock] could take
    away) and not a slash. *)
Definition anchored (o : bytes) : Prop :=
  ∃ h, head o = Some h ∧ h ≠ ch "." ∧ h ≠ ch "/".
Lemma anchored_app o k : anchored o → anchored (o ++ k).
Proof. intros (h & Hh & ?). exists h. by destruct o. Qed.
Lemma anchored_strip o : anchored o → anchored (strip_lock o).
Proof.
  intros (h & Hh & Hd & ?). destruct (strip_lock_spec o) as (_ & k & Ho & Hk).
  exists h. split; [|done]. destruct (strip_lock o) as [|x l]; [|by rewrite Ho in Hh].
  simpl in Ho. subst k. by destruct Hk as [->|[k' ->]]; simplify_eq/=.
Qed.

Lemma follows_slash o pre :
  clean (o ++ [ch "/"]) → follows (o ++ [ch "/"]) (pre ++ [ch "/"]).
Proof.
  intros Hcl. split; [done|]. intros q Hq H.
  apply (tail_snoc o _ q Hq) in H as (q' & _ & -> & _).
  destruct (tails_last (ch "/") _ Hq (last_snoc _ _)) as [_ ->]; [|auto]. apply ends_with_app.
Qed.

(** One step of the rewriting. *)
Definition stepped (out pre : bytes) (b : Z) (rest o' : bytes) : Prop :=
  clean o' ∧ (rest ≠ [] → follows o' (pre ++ [b])) ∧
  (rest = [] → ends_with o' LOCK = true →
   ends_with (pre ++ [b]) LOCK = true ∧ ends_with (drop 1 (pre ++ [b])) LOCK = false) ∧
  (anchored out ∨ (out = [] ∧ pre = [] ∧ b ≠ ch "." ∧ b ≠ ch "/") → anchored o').

Lemma stepped_follows out pre b rest o' :
  follows o' (pre ++ [b]) → b ≠ ch "k" →
  (anchored out ∨ (out = [] ∧ pre = [] ∧ b ≠ ch "." ∧ b ≠ ch "/") → anchored o') →
  stepped out pre b rest o'.
Proof.
  intros Hfo Hb Ha. split_and!; [apply Hfo|done| |done].
  intros _ H. apply (follows_lock o' (pre ++ [b])) in H; [|done].
  by apply (ends_snoc_tail pre b (bs ".loc")) in H as [-> _].
Qed.

Lemma invalid_not_k b : is_invalid_byte b = true → b ≠ ch "k".
Proof. by intros H ->. Qed.

Lemma step_other out pre b rest :
  follows out pre → good_byte b →
  completes pre b = false ∨ (b = ch "/" ∧ list.last pre ≠ Some (ch "/")) →
  let o := (if (b =? ch "/") && ends_with pre LOCK then strip_lock out else out) ++ [b] in
  stepped out pre b rest
    (if bool_decide (rest = []) && ends_with (drop 1 (pre ++ b :: rest)) LOCK
     then strip_lock o else o).
Proof.
  intros Hfo Hg Hc. destruct (completes_strip out pre b Hfo Hc) as [Hcl Hco].
  set (o1 := if _ && _ then _ else _) in *. cbv zeta.
  assert (Hclo : clean (o1 ++ [b])) by (by apply clean_snoc).
  assert (Hfo1 : follows (o1 ++ [b]) (pre ++ [b])).
  { destruct (Z.eqb_spec b (ch "/")) as [->|Hns]; [by apply follows_slash|].
    by apply follows_push. }
  assert (Ha : anchored out ∨ (out = [] ∧ pre = [] ∧ b ≠ ch "." ∧ b ≠ ch "/") → anchored (o1 ++ [b])).
  { intros [H|(-> & -> & H1 & H2)].
    - apply anchored_app. unfold o1. destruct (_ && _); [by apply anchored_strip|done].
    - unfold o1. rewrite andb_false_r. exists b. done. }
  case_bool_decide as Hr; cbn [andb].
  - subst rest. destruct (ends_with (drop 1 (pre ++ [b])) LOCK) eqn:El.
    + split_and!; [by apply strip_clean|done| |by intros; apply anchored_strip, Ha].
      intros _ H. by rewrite (proj1 (strip_lock_spec _)) in H.
    + split_and!; [done..| |done]. intros _ H. split; [|done]. by apply (follows_lock (o1 ++ [b])).
  - split_and!; done.
Qed.

Lemma step_sanitize out pre b rest ce :
  follows out pre → at_slash pre ce →
  ∃ o' ce', name_step (pre ++ b :: rest) (length (pre ++ b :: rest) - 1) (length pre) b
      (Some out, prev pre, ce) = Ok (Some o', b, ce') ∧
    at_slash (pre ++ [b]) ce' ∧ stepped out pre b rest o'.
Proof.
  intros Hfo Hce. unfold name_step. rewrite other_byte_eq by done. rewrite !prev_is by done.
  assert (Hdash : b ≠ ch "k" → stepped out pre b rest (out ++ [ch "-"])).
  { intros Hk. apply stepped_follows; [by apply follows_dash|done|].
    intros [H|(-> & _)]; [by apply anchored_app|]. exists 45. done. }
  pose proof (at_slash_app pre [b] ce Hce) as Hce1.
  destruct (is_invalid_byte b) eqn:Ei.
  { eexists _, _. split_and!; [done..|]. by apply Hdash, invalid_not_k. }
  destruct (Z.eqb_spec b (ch "*")) as [->|Hstar]; [eexists _, _; split_and!; [done..|by apply Hdash]|].
  destruct ((b =? ch ".") && bool_decide (list.last pre = Some (ch "."))) eqn:E1.
  { bool_simpl. subst. eexists _, _; split_and!; [done..|].
    match goal with H : bool_decide _ = true |- _ => apply bool_decide_eq_true in H as Hl end.
    apply stepped_follows; [apply follows_skip; auto|done|]. by intros [?|(_ & -> & _)]. }
  destruct ((b =? ch ".") && bool_decide (list.last pre = Some (ch "/"))) eqn:E2.
  { bool_simpl. subst. eexists _, _; split_and!; [done..|by apply Hdash]. }
  destruct ((b =? ch "{") && _) eqn:E3.
  { bool_simpl. subst. eexists _, _; split_and!; [done..|by apply Hdash]. }
  destruct ((b =? ch "/") && bool_decide (list.last pre = Some (ch "/"))) eqn:E4.
  { bool_simpl. subst. eexists _, _; split_and!; [done..|].
    match goal with H : bool_decide _ = true |- _ => apply bool_decide_eq_true in H as Hl end.
    apply stepped_follows; [apply follows_skip; auto|done|]. by intros [?|(_ & -> & _)]. }
  assert (Hc : completes pre b = false ∨ (b = ch "/" ∧ list.last pre ≠ Some (ch "/"))).
  { rewrite completes_cases, E1, E2, E3, E4. cbn [orb].
    destruct (Z.eqb_spec b (ch "/")) as [->|]; [right|by left]. split; [done|].
    by apply bool_decide_eq_false in E4. }
  pose proof (step_other out pre b rest Hfo (proj2 (good_byte_iff b) (conj Ei Hstar)) Hc) as Hst.
  pose proof (at_slash_step pre b ce Hce) as Hce2. cbv zeta in Hst.
  destruct ((b =? ch "/") && ends_with pre LOCK); cbn [alter fmap option_fmap option_map];
    rewrite bind_Ok; destruct (bool_decide (rest = []) && _); eexists _, _; split_and!; done.
Qed.

Lemma loop_sanitize pre rest out ce :
  follows out pre → at_slash pre ce → rest ≠ [] →
  ∃ o p ce', name_loop (pre ++ rest) (length (pre ++ rest) - 1) (length pre) rest
      (Some out, prev pre, ce) = Ok (Some o, p, ce') ∧ clean o ∧
    (ends_with o LOCK = true → ends_with (pre ++ rest) LOCK = true ∧
       ends_with (drop 1 (pre ++ rest)) LOCK = false) ∧
    (anchored out ∨ (out = [] ∧ pre = [] ∧ anchored rest) → anchored o).
Proof.
  revert pre out ce. induction rest as [|b rest IH]; intros pre out ce Hfo Hce Hne; [done|].
  destruct (step_sanitize out pre b rest ce Hfo Hce) as (o1 & ce1 & Hs & Hce1 & Hst).
  destruct Hst as (Hcl & Hf & Hl & Ha). cbn [name_loop]. rewrite Hs, bind_Ok.
  assert (Ha' : anchored out ∨ (out = [] ∧ pre = [] ∧ anchored (b :: rest)) → anchored o1).
  { intros [?|(? & ? & h & [= <-] & ? & ?)]; apply Ha; auto. }
  destruct rest as [|b' rest].
  - simpl. eexists _, _, _. split_and!; [done..| |done]. by apply Hl.
  - destruct (IH (pre ++ [b]) o1 ce1) as (o & p & ce' & Hlo & H1 & H2 & H3); [by apply Hf|done|done|].
    rewrite prev_snoc, <- app_assoc, (length_app pre [b]), Nat.add_1_r in Hlo. cbn [app] in Hlo.
    rewrite <- app_assoc in H2. cbn [app] in H2.
    exists o, p, ce'. split_and!; [done..|]. auto.
Qed.

Lemma trim_end_spec o :
  ∃ b, o = trim_end o ++ b ∧ (b = [] ∨ ∃ b', b = ch "/" :: b') ∧
    list.last (trim_end o) ≠ Some (ch "/").
Proof.
  induction o as [|x o (b & Ho & Hb & Hl)]; cbn [trim_end]; [exists []; auto|].
  destruct (trim_end o) as [|y t] eqn:Et.
  - simpl in Ho. subst o. destruct (Z.eqb_spec x (ch "/")) as [->|].
    + exists (ch "/" :: b). split_and!; [done|by right; eexists|done].
    + exists b. split_and!; [done..|]. simpl. congruence.
  - exists b. split_and!; [by rewrite Ho at 1|done|]. by rewrite last_cons_cons.
Qed.
Lemma trim_start_spec o :
  ∃ a, o = a ++ trim_start o ∧ head (trim_start o) ≠ Some (ch "/").
Proof.
  induction o as [|x o (a & Ho & Hh)]; cbn [trim_start]; [by exists []|].
  destruct (Z.eqb_spec x (ch "/")) as [->|].
  - exists (ch "/" :: a). simpl. by rewrite Ho at 1.
  - exists []. split; [done|]. simpl. congruence.
Qed.

(** The output without slashes at its ends. *)
Lemma trim_props o t :
  clean o → (ends_with o LOCK = true → o = LOCK) → t = trim_start (trim_end o) → t ≠ [] →
  clean t ∧ (ends_with t LOCK = true → t = LOCK) ∧
  head t ≠ Some (ch "/") ∧ list.last t ≠ Some (ch "/").
Proof.
  intros Hcl Hlock Ht Hne. destruct (trim_end_spec o) as (b & Ho & Hb & Hl).
  destruct (trim_start_spec (trim_end o)) as (a & He & Hh). rewrite <- Ht in *.
  rewrite He in Ho, Hl. rewrite <- app_assoc in Ho. split_and!; [| |done|].
  - rewrite Ho in Hcl. by apply clean_infix in Hcl.
  - intros Hend. pose proof Hend as [k Hk]%ends_with_spec. destruct Hb as [->|[b' ->]].
    + rewrite app_nil_r in Ho. assert (ends_with o LOCK = true).
      { apply ends_with_spec. exists (a ++ k). by rewrite Ho, Hk, app_assoc. }
      assert (o = LOCK) by auto. assert (Hlen : length (a ++ k ++ LOCK) = length LOCK) by congruence.
      rewrite !length_app in Hlen. destruct k; [done|simpl in Hlen; lia].
    + destruct Hcl as [_ Hf]. destruct (Hf (bs ".lock/")); [unfold forbidden; set_solver|].
      exists (a ++ k), b'. rewrite Ho, Hk. rewrite <- !app_assoc. done.
  - intros H. apply Hl. rewrite last_app. by rewrite H.
Qed.

Lemma clean_first_dash x t : clean (x :: t) → clean (ch "-" :: t).
Proof.
  intros [Hb Hf]. apply Forall_cons in Hb as [_ Hb]. split; [by constructor; [apply good_byte_iff|]|].
  intros p Hp ([|y a] & b & H); simpl in H.
  - apply forbidden_head in Hp as (c & p' & -> & Hc). by injection H.
  - injection H as _ ->. apply (Hf p Hp). by exists (x :: a), b.
Qed.
Lemma insert_last (y : bytes) z v : <[(length (y ++ [z]) - 1)%nat := v]> (y ++ [z]) = y ++ [v].
Proof.
  rewrite length_app, Nat.add_sub. induction y as [|x y IH]; [done|]. simpl. by rewrite IH.
Qed.

Lemma finish_sanitize input o t :
  clean o → (ends_with o LOCK = true → o = LOCK) → t = trim_start (trim_end o) → t ≠ [] →
  ∃ r, name_finish input (Some o) = Ok (Some r) ∧ ref_format r.
Proof.
  intros Hcl Hlock Ht Hne. destruct (trim_props o t Hcl Hlock Ht Hne) as (Hclt & Hlt & Hh & Hl).
  unfold name_finish. cbn [fmap option_fmap option_map]. rewrite <- Ht. clear Ht Hcl Hlock o.
  set (r1 := if bool_decide (head t = Some (ch ".")) then <[0%nat := ch "-"]> t else t).
  assert (Hr1 : clean r1 ∧ ends_with r1 LOCK = false ∧ r1 ≠ [] ∧
    head r1 ≠ Some (ch "/") ∧ head r1 ≠ Some (ch ".") ∧ list.last r1 ≠ Some (ch "/")).
  { destruct t as [|x t]; [done|]. unfold r1. case_bool_decide as Hx; cbn [head] in Hx.
    - injection Hx as ->. cbn [insert list_insert]. split_and!; try done.
      + by apply clean_first_dash in Hclt.
      + apply not_true_iff_false. intros [[|y k] Hk]%ends_with_spec; [done|].
        injection Hk as _ ->. pose proof (Hlt (ends_with_app (ch "." :: k) LOCK)) as H.
        apply (f_equal length) in H. simpl in H. rewrite length_app in H. simpl in H. lia.
      + by destruct t.
    - split_and!; try done. apply not_true_iff_false. intros H.
      specialize (Hlt H). by injection Hlt as -> _. }
  destruct Hr1 as (Hc1 & Hk1 & Hn1 & Hs1 & Hd1 & Hl1).
  assert (Hstep : (first ← idx t 0;
    if first =? ch "." then alter (Some t) (λ o, <[0%nat := ch "-"]> o) StartsWithDot
    else Ok (Some t)) = Ok (Some r1)).
  { destruct t as [|x t]; [done|]. cbn [idx lookup list_lookup expect]. rewrite bind_Ok.
    unfold r1. cbn [head]. destruct (Z.eqb_spec x (ch ".")) as [->|].
    - by rewrite bool_decide_true.
    - by rewrite bool_decide_false by congruence. }
  destruct (@idx tag_error t 0) as [x| |]; [|done..]. rewrite bind_Ok in Hstep. rewrite bind_Ok, Hstep.
  rewrite bind_Ok, idx_last. clear Hstep.
  destruct (list.last r1) as [z|] eqn:Hz; [|by apply last_None in Hz]. cbn [expect].
  rewrite bind_Ok. apply last_Some in Hz as [y Hy]. destruct (Z.eqb_spec z (ch ".")) as [->|Hz].
  - cbn [alter]. rewrite Hy in *. rewrite insert_last. eexists. split; [done|].
    destruct y as [|y0 y]; [done|]. split_and!.
    + done.
    + apply clean_dash. by apply (clean_infix [] _ [ch "."]).
    + intros c Hc. rewrite last_snoc. cbn [head app] in *. split; [naive_solver|].
      destruct Hc as [-> | ->]; done.
    + apply not_true_iff_false. intros H%(ends_with_last _ (bs ".loc") (ch "k")).
      by rewrite last_snoc in H.
  - exists r1. split; [done|]. split_and!; [done..| |done].
    intros c Hc. rewrite Hy at 2. rewrite last_snoc. naive_solver.
Qed.

(** A valid name is copied. *)
Lemma loop_identity pre rest ce :
  at_slash pre ce → clean (pre ++ rest) → ends_with (drop 1 (pre ++ rest)) LOCK = false →
  ∃ p ce', name_loop (pre ++ rest) (length (pre ++ rest) - 1) (length pre) rest
    (Some pre, prev pre, ce) = Ok (Some (pre ++ rest), p, ce').
Proof.
  revert pre ce. induction rest as [|b rest IH]; intros pre ce Hce Hcl Hl.
  { rewrite app_nil_r. simpl. eauto. }
  assert (Happ : pre ++ b :: rest = (pre ++ [b]) ++ rest) by (by rewrite <- app_assoc).
  rewrite Happ in Hcl, Hl.
  pose proof (clean_infix [] (pre ++ [b]) rest Hcl) as Hpb.
  apply clean_snoc in Hpb as (_ & [Hi Hs]%good_byte_iff & Hc).
  specialize (IH (pre ++ [b]) _ (at_slash_step pre b ce Hce) Hcl Hl).
  rewrite prev_snoc, (length_app pre [b]), Nat.add_1_r, <- app_assoc in IH. cbn [app] in IH.
  rewrite <- Happ in Hl.
  cbn [name_loop]. unfold name_step. rewrite other_byte_eq, !prev_is by done.
  rewrite completes_cases in Hc. repeat apply orb_false_iff in Hc as [Hc ?].
  rewrite Hi, (proj2 (Z.eqb_neq _ _) Hs), Hc.
  repeat match goal with H : _ && _ = false |- _ => rewrite H; clear H end.
  rewrite bind_Ok. cbn [fmap option_fmap option_map]. rewrite Hl, andb_false_r. rewrite !bind_Ok.
  exact IH.
Qed.

Lemma trim_identity s :
  head s ≠ Some (ch "/") → list.last s ≠ Some (ch "/") → trim_start (trim_end s) = s.
Proof.
  intros Hh Hl. assert (He : trim_end s = s).
  { clear Hh. induction s as [|x s IH]; [done|]. cbn [trim_end]. destruct s as [|y s].
    - simpl. destruct (Z.eqb_spec x (ch "/")) as [->|]; done.
    - rewrite last_cons_cons in Hl. by rewrite (IH Hl). }
  rewrite He. destruct s as [|x s]; [done|]. simpl.
  by destruct (Z.eqb_spec x (ch "/")) as [->|].
Qed.

Lemma sanitize_identity s : ref_format s → name_inner s Sanitize = Ok (Some s).
Proof.
  intros (Hne & Hcl & Hends & Hlock). unfold name_inner.
  destruct s as [|x s]; [done|]. set (input := x :: s) in *.
  destruct (Hends (ch "/")) as [Hs1 Hs2]; [auto|]. destruct (Hends (ch ".")) as [Hd1 Hd2]; [auto|].
  destruct (list.last input) as [z|] eqn:Hz; [|by apply last_None in Hz].
  cbn [expect]. rewrite bind_Ok, !(bool_decide_false (_ = None)), !andb_false_r by done.
  destruct (loop_identity [] input 0) as (p & ce & Hloop); [by left|done|by rewrite lock_drop_1|].
  cbn [app length] in Hloop. change (prev []) with 0 in Hloop. rewrite Hloop, bind_Ok.
  cbv beta iota. unfold name_finish. cbn [fmap option_fmap option_map].
  rewrite trim_identity by congruence.
  cbn [idx input lookup list_lookup expect]. rewrite bind_Ok.
  rewrite (proj2 (Z.eqb_neq x (ch "."))) by (simpl in Hd1; congruence). rewrite bind_Ok. fold input.
  rewrite idx_last, Hz. cbn [expect]. rewrite bind_Ok.
  rewrite (proj2 (Z.eqb_neq z (ch "."))) by congruence. done.
Qed.

Lemma anchored_trim o : anchored o → trim_start (trim_end o) ≠ [].
Proof.
  intros (h & Hh & _ & Hs). destruct o as [|x o]; [done|]. injection Hh as ->.
  cbn [trim_end]. apply Z.eqb_neq in Hs. rewrite Hs.
  destruct (trim_end o); cbn [trim_start]; by rewrite Hs.
Qed.

(** The cases of sanitising: a panic when nothing is left of the name. *)
Lemma sanitize_cases s :
  (name_inner s Sanitize = Panic ∧ ¬ anchored s) ∨
  ∃ r, name_inner s Sanitize = Ok (Some r) ∧ ref_format r.
Proof.
  destruct s as [|x s]; [right|].
  { exists [ch "-"]. split; [done|]. pose proof (name_inner_validate [ch "-"]) as H.
    vm_compute in H. apply H. }
  unfold name_inner. set (input := x :: s) in *.
  destruct (list.last input) as [z|] eqn:Hz; [|by apply last_None in Hz].
  cbn [expect]. rewrite bind_Ok, !(bool_decide_false (_ = None)), !andb_false_r by done.
  destruct (loop_sanitize [] input [] 0) as (o & p & ce & Hlo & Hcl & Hlock & Han).
  { split; [apply clean_nil|]. done. }
  { by left. }
  { done. }
  cbn [app length] in *. change (prev []) with 0 in Hlo. rewrite Hlo, bind_Ok. cbv beta iota.
  destruct (trim_start (trim_end o)) as [|y t] eqn:Ht.
  { left. split; [unfold name_finish; cbn [fmap option_fmap option_map]; by rewrite Ht|].
    intros Ha. by apply (anchored_trim o); [apply Han; auto|]. }
  right. apply (finish_sanitize input o (y :: t)); [done| |done|done].
  intros H. destruct (Hlock H) as [H1 H2]. apply ends_with_spec in H1 as [k Hk].
  destruct k as [|k0 k].
  2:{ rewrite Hk in H2. change (ends_with (k ++ LOCK) LOCK = false) in H2.
      by rewrite ends_with_app in H2. }
  rewrite Hk in Hlo. vm_compute in Hlo. by injection Hlo as <-.
Qed.

(** ** Properties *)

(** C38: Validation decides the rules for names.  [tag::name] returns its
    argument exactly when it satisfies [ref_format] (it is not empty, has no
    control characters, spaces, deletes and none of tilde, caret, colon, question
    mark, asterisk, opening bracket and backslash, none of the sequences two dots,
    slash and dot, at and brace, two slashes, [.lock/], no slash or dot at either
    end, and does not end in [.lock]), and an error otherwise; [reference::name]
    additionally asks for a slash or for upper case and underscores only.  Neither
    panics. *)
Theorem reference_name_decides {BS : bstr.Api} {BSL : bstr.Laws} s :
  match tag_name s with
  | Ok r => r = s ∧ ref_format s | Err _ => ¬ ref_format s | Panic => False
  end ∧
  match ref_name s with
  | Ok r => r = s ∧ ref_format s ∧
      (ch "/" ∈ s ∨ Forall (λ c, is_ascii_uppercase c = true ∨ c = ch "_") s)
  | Err _ => ¬ (ref_format s ∧
      (ch "/" ∈ s ∨ Forall (λ c, is_ascii_uppercase c = true ∨ c = ch "_") s))
  | Panic => False
  end.
Proof.
  unfold tag_name, ref_name, validate. pose proof (name_inner_validate s) as H.
  destruct (name_inner s TagValidate) as [o|e|]; [|simpl; tauto|done].
  destruct H as [-> H]. split; [done|]. cbn [map_err]. rewrite bind_Ok.
  assert (Hslash : bstr.find_byte s (ch "/") = None ↔ ch "/" ∉ s).
  { rewrite bstr.find_byte_spec, find_index_None, Forall_forall. split.
    - intros Hall Hin. by specialize (Hall _ Hin).
    - intros Hn x Hx. apply Z.eqb_neq. by intros <-. }
  assert (Hup : forallb (λ c, is_ascii_uppercase c || (c =? ch "_")) s = true ↔
    Forall (λ c, is_ascii_uppercase c = true ∨ c = ch "_") s).
  { rewrite forallb_forall, Forall_forall. setoid_rewrite <- list_elem_of_In.
    setoid_rewrite orb_true_iff. by setoid_rewrite Z.eqb_eq. }
  case_bool_decide as Hf; cbn [negb andb].
  - simpl. split_and!; [done..|]. left. destruct (decide (ch "/" ∈ s)); tauto.
  - assert (Hn : ch "/" ∉ s) by (apply Hslash; destruct (bstr.find_byte s _); naive_solver).
    destruct (forallb _ s); simpl; [split_and!; [done..|]; right; tauto|].
    intros [_ [?|?]]; [done|]. destruct Hup as [_ Hup]. by specialize (Hup ltac:(done)).
Qed.
Lemma reference_name_decides_witness :
  tag_name (bs "v1.0") = Ok (bs "v1.0") ∧ ref_format (bs "v1.0").
Proof.
  destruct (@reference_name_decides bstr_impl bstr_impl_laws (bs "v1.0")) as [H _].
  assert (E : tag_name (bs "v1.0") = Ok (bs "v1.0")) by (vm_compute; reflexivity).
  rewrite E in H. split; [exact E|apply H].
Defined.

(** What sanitising returns is valid: [name_partial] accepts it. *)
Theorem sanitize_result_valid {BS : bstr.Api} s out :
  name_partial_or_sanitize s = Ok out → ref_format out ∧ name_partial out = Ok out.
Proof.
  unfold name_partial_or_sanitize, name_partial, validate. intros H.
  destruct (sanitize_cases s) as [[Hp _]|(r & Hr & Hf)]; [by rewrite Hp in H|].
  rewrite Hr in H. injection H as <-. split; [done|].
  pose proof (name_inner_validate r) as Hv.
  destruct (name_inner r TagValidate) as [o|e|]; [|done..]. destruct Hv as [-> _]. done.
Qed.
Lemma sanitize_result_valid_witness :
  @name_partial_or_sanitize bstr_impl (bs "a..b.lock/.c?") = Ok (bs "a.b/-c-") ∧
  @name_partial bstr_impl (bs "a.b/-c-") = Ok (bs "a.b/-c-").
Proof.
  assert (E : @name_partial_or_sanitize bstr_impl (bs "a..b.lock/.c?") = Ok (bs "a.b/-c-"))
    by (vm_compute; reflexivity).
  split; [exact E|]. by apply (@sanitize_result_valid bstr_impl _ _ E).
Defined.

(** When sanitising succeeds.  A valid name is returned unchanged, and the
    result exists whenever the name is empty or starts with anything but a dot
    or a slash. *)
Theorem sanitize_succeeds {BS : bstr.Api} s :
  (ref_format s → name_partial_or_sanitize s = Ok s) ∧
  (s = [] ∨ anchored s → ∃ out, name_partial_or_sanitize s = Ok out).
Proof.
  unfold name_partial_or_sanitize, validate. split.
  { intros H. by rewrite (sanitize_identity s H). }
  intros [->|Ha]; [eexists; done|].
  destruct (sanitize_cases s) as [[_ Hn]|(r & Hr & _)]; [done|]. rewrite Hr. by eexists.
Qed.
Lemma sanitize_succeeds_witness :
  @name_partial_or_sanitize bstr_impl (bs "refs/heads/main") = Ok (bs "refs/heads/main") ∧
  ∃ out, @name_partial_or_sanitize bstr_impl (bs "a/.lock/") = Ok out.
Proof.
  split.
  - apply (@sanitize_succeeds bstr_impl (bs "refs/heads/main")).
    pose proof (name_inner_validate (bs "refs/heads/main")) as H. vm_compute in H. apply H.
  - apply (@sanitize_succeeds bstr_impl (bs "a/.lock/")). right. by exists (ch "a").
Defined.

(** Nothing is left of these names, and the first byte of the empty result is
    looked at. *)
Example sanitize_panics :
  @name_partial_or_sanitize bstr_impl (bs "/") = Panic ∧
  @name_partial_or_sanitize bstr_impl (bs ".lock/") = Panic ∧
  @name_partial_or_sanitize bstr_impl (bs ".lock.lock") = Panic.
Proof. vm_compute. auto. Qed.

(** Only the first [..] of a submodule name is looked at. *)
Example submodule_name_traversal :
  @submodule_name bstr_impl (bs "a/../b") = Err ParentComponent ∧
  @submodule_name bstr_impl (bs "a..b/../../c") = Ok (bs "a..b/../../c").
Proof. vm_compute. auto. Qed.
