(* ===== verification/RefName.v ===== *)
(** * Names of references: [gix-ref/src/name.rs], [fullname.rs], [namespace.rs]

    Full and partial names, their categories, and namespaces.  A name is the
    byte string it wraps; the conversions that validate are those of
    [Validate]. *)

From S2P Require Import Prelude External Validate.

(** ** Categories *)

Inductive Category :=
| CTag | LocalBranch | RemoteBranch | Note
| PseudoRef | MainPseudoRef | MainRef
| LinkedPseudoRef (name : bytes) | LinkedRef (name : bytes)
| Bisect | Rewritten | WorktreePrivate.
#[global] Instance Category_eq_dec : EqDecision Category.
Proof. solve_decision. Defined.

Definition prefix (c : Category) : bytes :=
  match c with
  | CTag => bs "refs/tags/"
  | LocalBranch => bs "refs/heads/"
  | RemoteBranch => bs "refs/remotes/"
  | Note => bs "refs/notes/"
  | MainPseudoRef => bs "main-worktree/"
  | MainRef => bs "main-worktree/refs/"
  | PseudoRef => []
  | LinkedPseudoRef _ => bs "worktrees/"
  | LinkedRef _ => bs "worktrees/"
  | Bisect => bs "refs/bisect/"
  | Rewritten => bs "refs/rewritten/"
  | WorktreePrivate => bs "refs/worktree/"
  end.
Definition is_worktree_private (c : Category) : bool :=
  match c with
  | MainPseudoRef | PseudoRef | LinkedPseudoRef _ | WorktreePrivate | Rewritten | Bisect => true
  | _ => false
  end.
Definition is_pseudo_ref (name : bytes) : bool := forallb (λ b, is_ascii_uppercase b || (b =? ch "_")) name.

Section Bstr.
Context {BS : bstr.Api}.

(** The first category of a list whose prefix the name has. *)
Fixpoint first_category (l : list Category) (name : bytes) : option Category :=
  match l with
  | [] => None
  | c :: l => if starts_with name (prefix c) then Some c else first_category l name
  end.
Definition category_and_short_name (name : bytes) : res Empty_set (option (Category * bytes)) :=
  match first_category [CTag; LocalBranch; RemoteBranch] name with
  | Some c => Ok (Some (c, drop (length (prefix c)) name))
  | None =>
      match first_category [Note; Bisect; WorktreePrivate; Rewritten] name with
      | Some c => short ← expect (strip_prefix name (bs "refs/")); Ok (Some (c, short))
      | None =>
          if is_pseudo_ref name then Ok (Some (PseudoRef, name))
          else
            match strip_prefix name (prefix MainPseudoRef) with
            | Some shortened =>
                Ok (if starts_with shortened (bs "refs/") then Some (MainRef, shortened)
                    else if is_pseudo_ref shortened then Some (MainPseudoRef, shortened) else None)
            | None =>
                match strip_prefix name (prefix (LinkedPseudoRef [])) with
                | Some shortened_with_worktree_name =>
                    match bstr.find_byte shortened_with_worktree_name (ch "/") with
                    | Some pos =>
                        name ← slice_to shortened_with_worktree_name pos;
                        shortened ← slice_from shortened_with_worktree_name (pos + 1);
                        Ok (if starts_with shortened (bs "refs/") then Some (LinkedRef name, shortened)
                            else if is_pseudo_ref shortened then Some (LinkedPseudoRef name, shortened) else None)
                    | None => Ok None
                    end
                | None => Ok None
                end
            end
      end
  end.
Definition category (name : bytes) : res Empty_set (option Category) :=
  r ← category_and_short_name name; Ok (option_map fst r).
Definition shorten (name : bytes) : res Empty_set bytes :=
  r ← category_and_short_name name; Ok (match r with Some (_, short) => short | None => name end).
(** [rsplitn(2, '/')]: what is behind the last slash. *)
Definition file_name (name : bytes) : bytes :=
  match bstr.rfind_index (Z.eqb (ch "/")) name with Some pos => drop (S pos) name | None => name end.

(** ** Partial names *)

Definition looks_like_full_name (name : bytes) : bool :=
  starts_with name (bs "refs/") || starts_with name (prefix MainPseudoRef) ||
  starts_with name (prefix (LinkedPseudoRef [])) || is_pseudo_ref name.
Definition construct_full_name_ref (name inbetween : bytes) : bytes :=
  (if looks_like_full_name name then [] else bs "refs/") ++
  (if bool_decide (inbetween = []) then [] else inbetween ++ [ch "/"]) ++ name.
Definition join (name component : bytes) : res ref_error bytes :=
  let b := name ++ [ch "/"] ++ component in
  _ ← name_partial b; Ok b.

(** ** Namespaces *)

Definition prefix_namespace (name namespace : bytes) : bytes :=
  if starts_with name namespace then name else namespace ++ name.
Definition strip_namespace (name namespace : bytes) : bytes :=
  if starts_with name namespace then drop (length namespace) name else name.
Definition into_namespaced_name (namespace name : bytes) : bytes := namespace ++ name.
Definition expand (namespace : bytes) : res ref_error bytes :=
  namespace ← name_partial namespace;
  Ok (concat ((λ component, bs "refs/namespaces/" ++ component ++ [ch "/"]) <$> bstr.split_str namespace [ch "/"])).
End Bstr.

(** ** Theorems *)

Section Correct.
Context {BS : bstr.Api} {BL : bstr.Laws}.

Lemma ref_name_ok s r : ref_name s = Ok r → r = s ∧ ref_format s.
Proof.
  unfold ref_name, validate. pose proof (name_inner_validate s) as H.
  destruct (name_inner s TagValidate) as [o|e|]; [|done|done]. destruct H as [-> H]. cbn [map_err]. rewrite bind_Ok.
  by destruct (_ && _); [|intros [= <-]].
Qed.
Lemma clean_no_byte s b : ref_format s → is_invalid_byte b = true → b ∉ s.
Proof.
  intros (_ & [Hg _] & _) Hb Hin. rewrite Forall_forall in Hg. apply Hg, good_byte_iff in Hin as []. congruence.
Qed.

(** The name of a category and a short name. *)
Definition full_name (c : Category) (short : bytes) : bytes :=
  match c with
  | CTag | LocalBranch | RemoteBranch | MainPseudoRef => prefix c ++ short
  | Note | Bisect | WorktreePrivate | Rewritten => bs "refs/" ++ short
  | PseudoRef => short
  | MainRef => prefix MainPseudoRef ++ short
  | LinkedPseudoRef n | LinkedRef n => prefix c ++ n ++ [ch "/"] ++ short
  end.
Lemma strip_prefix_inv s p r : strip_prefix s p = Some r → s = p ++ r.
Proof.
  unfold strip_prefix. destruct (starts_with s p) eqn:E; [|done]. apply starts_with_spec in E as [k ->].
  by rewrite drop_app_length; intros [= <-].
Qed.
Lemma first_category_in l name c : first_category l name = Some c → c ∈ l ∧ name = prefix c ++ drop (length (prefix c)) name.
Proof.
  induction l as [|d l IH]; cbn [first_category]; [done|]. destruct (starts_with name (prefix d)) eqn:E.
  - intros [= <-]. split; [by left|]. apply starts_with_spec in E as [k ->]. by rewrite drop_app_length.
  - intros H. destruct (IH H). split; [by right|done].
Qed.
(** Categories lose nothing: the full name is that of the category and the
    short name, and classifying a name never panics. *)
Theorem category_inverse name :
  match category_and_short_name name with
  | Ok (Some (c, short)) => name = full_name c short
  | Ok None => True
  | _ => False
  end.
Proof.
  unfold category_and_short_name.
  destruct (first_category [CTag; LocalBranch; RemoteBranch] name) as [c|] eqn:E1.
  { apply first_category_in in E1 as [Hc E]. rewrite !elem_of_cons, elem_of_nil in Hc. destruct_or?; subst; done. }
  destruct (first_category [Note; Bisect; WorktreePrivate; Rewritten] name) as [c|] eqn:E2.
  { apply first_category_in in E2 as [Hc E].
    assert (H : ∃ k, strip_prefix name (bs "refs/") = Some k ∧ full_name c k = bs "refs/" ++ k).
    { rewrite !elem_of_cons, elem_of_nil in Hc. destruct_or?; subst; rewrite E; eexists; split; reflexivity. }
    destruct H as (k & Hk & Hf). rewrite Hk. cbn. apply strip_prefix_inv in Hk. by rewrite Hf. }
  destruct (is_pseudo_ref name); [done|]. destruct (strip_prefix name (prefix MainPseudoRef)) as [s|] eqn:E3.
  { apply strip_prefix_inv in E3. destruct (starts_with s _); [done|]. by destruct (is_pseudo_ref s). }
  destruct (strip_prefix name (prefix (LinkedPseudoRef []))) as [s|] eqn:E4; [|done]. apply strip_prefix_inv in E4.
  rewrite bstr.find_byte_spec. destruct (find_index (Z.eqb (ch "/")) s) as [pos|] eqn:Ep; [|done].
  apply find_index_split in Ep as (x & Hs & Hx & _ & Hlen). apply Z.eqb_eq in Hx. subst x.
  rewrite Hs in E4. set (a := take pos s) in *. set (b := drop (S pos) s) in *. rewrite Hs, <- Hlen.
  rewrite slice_to_app by done. rewrite bind_Ok.
  replace (a ++ ch "/" :: b) with ((a ++ [ch "/"]) ++ b) by (by rewrite <- app_assoc).
  rewrite (slice_from_at (a ++ [ch "/"]) b) by (by rewrite length_app). rewrite bind_Ok.
  destruct (starts_with b _); [|destruct (is_pseudo_ref b); [|done]]; by rewrite E4.
Qed.

(** Stripping a namespace takes back what adding it did. *)
Lemma namespace_roundtrip name namespace :
  strip_namespace (prefix_namespace name namespace) namespace = if starts_with name namespace then strip_namespace name namespace else name.
Proof.
  unfold prefix_namespace, strip_namespace. destruct (starts_with name namespace) eqn:E; rewrite ?E; [done|].
  rewrite (proj2 (starts_with_spec (namespace ++ name) namespace)) by (by exists name). by rewrite drop_app_length.
Qed.
End Correct.
