(* ===== verification/ValidatePath.v ===== *)
(** * Path components

    Models [gix-validate/src/path.rs]: whether a name from a tree may be used
    as a component of a path in the worktree, with the protections for
    Windows, HFS+ and NTFS. *)

From S2P Require Import Prelude External.

(** ** The code *)

Inductive component_error :=
| Empty
| PathSeparator
| WindowsPathPrefix
| WindowsReservedName
| WindowsIllegalCharacter
| DotGitDir
| SymlinkedGitModules.
Record Options := mkOptions {
  protect_windows : bool; protect_hfs : bool; protect_ntfs : bool }.
Definition default_options : Options := mkOptions true true true.
Inductive Mode := Symlink.

Definition is_symlink (mode : option Mode) : bool :=
  match mode with Some Symlink => true | None => false end.

(** [is_done_ntfs]: only spaces and dots up to the end or a colon. *)
Fixpoint is_done_ntfs_loop (input : bytes) : bool :=
  match input with
  | [] => true
  | b :: input =>
      if b =? ch ":" then true
      else if negb (b =? ch " ") && negb (b =? ch ".") then false
      else is_done_ntfs_loop input
  end.
Definition is_done_ntfs (input : option bytes) : bool :=
  match input with None => true | Some input => is_done_ntfs_loop input end.

(** [is_done_windows]: spaces, then the end, a dot or a colon. *)
Fixpoint count_spaces (input : bytes) : nat :=
  match input with
  | b :: input => if b =? ch " " then S (count_spaces input) else 0%nat
  | [] => 0%nat
  end.
Definition is_done_windows (input : option bytes) : bool :=
  match input with
  | None => true
  | Some input =>
      let skip := count_spaces input in
      match input !! skip with
      | None => true
      | Some next => (next =? ch ".") || (next =? ch ":")
      end
  end.

(** [opt.map_or(false, f)] *)
Definition and_then {A} (o : option A) (f : A → bool) : bool :=
  match o with Some a => f a | None => false end.

Definition is_win_device (input : bytes) : bool :=
  match get_to input 3 with
  | None => false
  | Some in3 =>
      (eq_ignore_ascii_case in3 (bs "AUX") && is_done_windows (get_from input 3)) ||
      (eq_ignore_ascii_case in3 (bs "NUL") && is_done_windows (get_from input 3)) ||
      (eq_ignore_ascii_case in3 (bs "PRN") && is_done_windows (get_from input 3)) ||
      (eq_ignore_ascii_case in3 (bs "COM") &&
       and_then (input !! 3%nat) (λ n, (ch "1" <=? n) && (n <=? ch "9")) &&
       is_done_windows (get_from input 4)) ||
      (eq_ignore_ascii_case in3 (bs "LPT") &&
       and_then (input !! 3%nat) is_ascii_digit && is_done_windows (get_from input 4)) ||
      (eq_ignore_ascii_case in3 (bs "CON") &&
       (is_done_windows (get_from input 3) ||
        (and_then (get_range input 3 6) (λ n, eq_ignore_ascii_case n (bs "IN$")) &&
         is_done_windows (get_from input 6)) ||
        (and_then (get_range input 3 7) (λ n, eq_ignore_ascii_case n (bs "OUT$")) &&
         is_done_windows (get_from input 7))))
  end.
Definition component_is_windows_device (input : bytes) : bool := is_win_device input.

Definition WINDOWS_ILLEGAL : bytes := bs ":<>|?*" ++ [34].

Definition check_win_devices_and_illegal_characters (input : bytes)
  : option component_error :=
  if is_win_device input then Some WindowsReservedName
  else if existsb (λ b, (b <? 32) || mem b WINDOWS_ILLEGAL) input
  then Some WindowsIllegalCharacter
  else if ends_with input (bs ".") || ends_with input (bs " ")
  then Some WindowsIllegalCharacter
  else None.

(** The code points HFS+ ignores. *)
Definition hfs_ignorable (c : Z) : bool :=
  between 8204 8207 c || between 8234 8238 c || between 8298 8303 c || (c =? 65279).

(** The comparison loop of [is_dot_hfs]. *)
Fixpoint hfs_compare (comp input : list Z) : bool :=
  match comp, input with
  | a :: comp, b :: input =>
      if negb (to_ascii_lowercase a =? to_ascii_lowercase b) then false
      else hfs_compare comp input
  | [], [] => true
  | _, _ => false
  end.

Section Bstr.
Context {BS : bstr.Api}.

Definition is_dot_hfs (input search_case_insensitive : bytes) : bool :=
  let input := List.filter (λ c, negb (hfs_ignorable c)) (bstr.chars input) in
  match input with
  | c :: input =>
      if c =? ch "." then hfs_compare search_case_insensitive input else false
  | [] => false
  end.

Definition is_dot_git_ntfs (input : bytes) : bool :=
  if and_then (get_to input 4) (λ i, eq_ignore_ascii_case i (bs ".git"))
  then is_done_ntfs (get_from input 4)
  else if and_then (get_to input 5) (λ i, eq_ignore_ascii_case i (bs "git~1"))
  then is_done_ntfs (get_from input 5)
  else false.

(** The loop [while pos < 8] of [is_dot_ntfs]; every round advances [pos], so
    eight rounds are enough. *)
Fixpoint shortname_loop (fuel : nat) (input prefix : bytes) (saw_tilde : bool) (pos : nat)
  : bool :=
  match fuel with
  | O => is_done_ntfs (get_from input pos)
  | S fuel =>
      if (8 <=? pos)%nat then is_done_ntfs (get_from input pos)
      else match input !! pos with
           | None => false
           | Some b =>
               if saw_tilde then
                 if negb (is_ascii_digit b) then false
                 else shortname_loop fuel input prefix saw_tilde (pos + 1)
               else if b =? ch "~" then
                 let pos := (pos + 1)%nat in
                 match input !! pos with
                 | None => false
                 | Some b =>
                     if negb (between (ch "1") (ch "9") b) then false
                     else shortname_loop fuel input prefix true (pos + 1)
                 end
               else if (6 <=? pos)%nat || (Z.land b 128 =? 128) ||
                 match prefix !! pos with
                 | None => true
                 | Some ob => negb (eq_ignore_ascii_case [b] [ob])
                 end
               then false
               else shortname_loop fuel input prefix saw_tilde (pos + 1)
           end
  end.

Definition is_dot_ntfs (input search_case_insensitive ntfs_shortname_prefix : bytes) : bool :=
  if bool_decide (head input = Some (ch ".")) then
    let end_pos := (1 + length search_case_insensitive)%nat in
    if and_then (get_range input 1 end_pos)
         (λ i, eq_ignore_ascii_case i search_case_insensitive)
    then is_done_ntfs (get_from input end_pos)
    else false
  else if match get_to search_case_insensitive 6, get_to input 6 with
          | Some ntfs_prefix, Some first_6_of_input =>
              eq_ignore_ascii_case first_6_of_input ntfs_prefix &&
              bool_decide (input !! 6%nat = Some (ch "~")) &&
              and_then (input !! 7%nat) (between (ch "1") (ch "4"))
          | _, _ => false
          end
  then is_done_ntfs (get_from input 8)
  else shortname_loop 8 input ntfs_shortname_prefix false 0.

Definition component (input : bytes) (mode : option Mode) (options : Options)
  : res component_error bytes :=
  let '(mkOptions protect_windows protect_hfs protect_ntfs) := options in
  if bool_decide (input = []) then Err Empty
  else
    _ ← (if protect_windows then
           if bool_decide (bstr.find_byteset input (bs "/\") ≠ None) then Err PathSeparator
           else if bool_decide (bstr.chars input !! 1%nat = Some (ch ":"))
           then Err WindowsPathPrefix
           else Ok tt
         else if bool_decide (bstr.find_byte input (ch "/") ≠ None) then Err PathSeparator
         else Ok tt);
    _ ← (if protect_hfs then
           if is_dot_hfs input (bs "git") then Err DotGitDir
           else if is_symlink mode && is_dot_hfs input (bs "gitmodules")
           then Err SymlinkedGitModules
           else Ok tt
         else Ok tt);
    _ ← (if protect_ntfs then
           if is_dot_git_ntfs input then Err DotGitDir
           else if is_symlink mode && is_dot_ntfs input (bs "gitmodules") (bs "gi7eba")
           then Err SymlinkedGitModules
           else if protect_windows then
             match check_win_devices_and_illegal_characters input with
             | Some err => Err err
             | None => Ok tt
             end
           else Ok tt
         else Ok tt);
    _ ← (if negb (protect_hfs || protect_ntfs) then
           if eq_ignore_ascii_case input (bs ".git") then Err DotGitDir
           else if is_symlink mode && eq_ignore_ascii_case input (bs ".gitmodules")
           then Err SymlinkedGitModules
           else Ok tt
         else Ok tt);
    Ok input.

End Bstr.

(** ** Specification *)

(** Names NTFS takes for [name]: any case, followed by spaces and dots, and
    possibly by a stream behind a colon. *)
Definition ntfs_alias (input name : bytes) : Prop :=
  ∃ base sp tail, input = base ++ sp ++ tail ∧
    eq_ignore_ascii_case base name = true ∧
    Forall (λ b, b = ch " " ∨ b = ch ".") sp ∧
    (tail = [] ∨ ∃ t, tail = ch ":" :: t).

(** What HFS+ compares: the code points it does not ignore, without case. *)
Definition hfs_form `{!bstr.Api} (input : bytes) : list Z :=
  to_ascii_lowercase <$> List.filter (λ c, negb (hfs_ignorable c)) (bstr.chars input).

(** ** Lemmas *)

Lemma eq_ic_spec a b :
  eq_ignore_ascii_case a b = true ↔ to_ascii_lowercase <$> a = to_ascii_lowercase <$> b.
Proof. apply bool_decide_eq_true. Qed.
Lemma eq_ic_length a b : eq_ignore_ascii_case a b = true → length a = length b.
Proof. intros H%eq_ic_spec. apply (f_equal length) in H. by rewrite !length_fmap in H. Qed.
Lemma eq_ic_app a b c d :
  eq_ignore_ascii_case a b = true → eq_ignore_ascii_case c d = true →
  eq_ignore_ascii_case (a ++ c) (b ++ d) = true.
Proof. rewrite !eq_ic_spec, !fmap_app. by intros -> ->. Qed.

Lemma is_done_ntfs_spec l :
  is_done_ntfs_loop l = true ↔
  ∃ sp tail, l = sp ++ tail ∧ Forall (λ b, b = ch " " ∨ b = ch ".") sp ∧
    (tail = [] ∨ ∃ t, tail = ch ":" :: t).
Proof.
  induction l as [|b l IH]; cbn [is_done_ntfs_loop].
  { split; [|done]. exists [], []. auto. }
  destruct (Z.eqb_spec b (ch ":")) as [->|Hc].
  { split; [|done]. exists [], (ch ":" :: l). eauto 10. }
  destruct (negb (b =? ch " ") && negb (b =? ch ".")) eqn:E.
  - bool_simpl. split; [done|]. intros ([|x sp] & tail & Hl & Hsp & Ht); simpl in Hl.
    + destruct Ht as [->|[t ->]]; congruence.
    + apply Forall_cons in Hsp as [? _]. naive_solver.
  - rewrite IH. assert (b = ch " " ∨ b = ch ".") by
      (destruct (Z.eqb_spec b (ch " ")), (Z.eqb_spec b (ch ".")); simpl in E; (done || auto)).
    split.
    + intros (sp & tail & -> & Hsp & Ht). exists (b :: sp), tail. auto.
    + intros ([|x sp] & tail & Hl & Hsp & Ht); simpl in Hl.
      * destruct Ht as [?|[t ?]]; simplify_eq.
      * injection Hl as -> ->. apply Forall_cons in Hsp as [_ ?]. eauto.
Qed.

Lemma get_to_app {A} (a b : list A) n : n = length a → get_to (a ++ b) n = Some a.
Proof.
  intros ->. unfold get_to. rewrite length_app, (proj2 (Nat.leb_le _ _)) by lia.
  by rewrite take_app_length.
Qed.
Lemma alias_done base sp tail name :
  eq_ignore_ascii_case base name = true → Forall (λ b, b = ch " " ∨ b = ch ".") sp →
  (tail = [] ∨ ∃ t, tail = ch ":" :: t) →
  is_done_ntfs (get_from (base ++ sp ++ tail) (length name)) = true.
Proof.
  intros Hb Hsp Ht. rewrite (get_from_app base) by (by apply eq_ic_length in Hb).
  apply is_done_ntfs_spec. eauto.
Qed.

Lemma is_dot_git_ntfs_alias input :
  ntfs_alias input (bs ".git") ∨ ntfs_alias input (bs "git~1") → is_dot_git_ntfs input = true.
Proof.
  unfold is_dot_git_ntfs. intros [H|H]; destruct H as (base & sp & tail & -> & Hb & Hsp & Ht).
  - pose proof (eq_ic_length _ _ Hb) as Hl. rewrite (get_to_app base) by done.
    cbn [and_then]. rewrite Hb. by apply (alias_done base sp tail (bs ".git")).
  - pose proof (eq_ic_length _ _ Hb) as Hl.
    destruct base as [|a [|b [|c [|d [|e [|]]]]]]; try discriminate Hl.
    assert (Hno : eq_ignore_ascii_case [a; b; c; d] (bs ".git") = false).
    { apply not_true_iff_false. rewrite eq_ic_spec in *. intros H.
      injection Hb as H1 _ _ H4 _. injection H as H5 _ _ H8. rewrite H4 in H8. done. }
    change ([a; b; c; d; e] ++ sp ++ tail) with ([a; b; c; d] ++ e :: sp ++ tail) at 1.
    rewrite (get_to_app [a; b; c; d]) by done. cbn [and_then]. rewrite Hno.
    rewrite (get_to_app [a; b; c; d; e]) by done. cbn [and_then]. rewrite Hb.
    by apply (alias_done [a; b; c; d; e] sp tail (bs "git~1")).
Qed.

Lemma lowercase_dot x : to_ascii_lowercase x = ch "." → x = ch ".".
Proof.
  unfold to_ascii_lowercase, is_ascii_uppercase, between. case_match; bool_simpl; lia.
Qed.

Lemma is_dot_ntfs_alias input name short :
  ntfs_alias input (ch "." :: name) → is_dot_ntfs input name short = true.
Proof.
  intros (base & sp & tail & -> & Hb & Hsp & Ht). unfold is_dot_ntfs.
  pose proof (eq_ic_length _ _ Hb) as Hl. destruct base as [|x base]; [done|].
  pose proof Hb as Hb'. rewrite eq_ic_spec in Hb'. injection Hb' as Hx Hbase.
  apply lowercase_dot in Hx as ->. rewrite bool_decide_true by done.
  assert (Hr : get_range (ch "." :: base ++ sp ++ tail) 1 (1 + length name) = Some base).
  { injection Hl as Hl. pose proof (@slice_app Empty_set Z [ch "."] base (sp ++ tail) 1 (1 + length name)) as H.
    rewrite Hl in H. specialize (H eq_refl eq_refl). unfold slice in H.
    destruct (get_range _ _ _) eqn:E in H; [|done]. injection H as ->. exact E. }
  cbn [app]. rewrite Hr. cbn [and_then]. rewrite (proj2 (eq_ic_spec _ _) Hbase).
  by apply (alias_done (ch "." :: base) sp tail (ch "." :: name)).
Qed.

Lemma hfs_compare_spec a b :
  hfs_compare a b = true ↔ to_ascii_lowercase <$> a = to_ascii_lowercase <$> b.
Proof.
  revert b. induction a as [|x a IH]; intros [|y b]; cbn [hfs_compare]; try done.
  destruct (Z.eqb_spec (to_ascii_lowercase x) (to_ascii_lowercase y)) as [E|E]; cbn [negb].
  - rewrite IH, !fmap_cons, E. split; [by intros ->|by intros [=]].
  - rewrite !fmap_cons. split; [done|]. by intros [= ?].
Qed.

Lemma is_dot_hfs_spec {BS : bstr.Api} input name :
  Forall (λ c, to_ascii_lowercase c = c) name →
  is_dot_hfs input name = true ↔ hfs_form input = ch "." :: name.
Proof.
  intros Hn. unfold is_dot_hfs, hfs_form.
  assert (Hlow : to_ascii_lowercase <$> name = name).
  { induction Hn as [|c l Hc _ IH]; [done|]. rewrite fmap_cons, Hc. by rewrite IH. }
  destruct (List.filter _ (bstr.chars input)) as [|c l]; [done|]. rewrite fmap_cons.
  destruct (Z.eqb_spec c (ch ".")) as [->|Hc].
  - rewrite hfs_compare_spec, Hlow. split; [by intros <-|by intros [= <-]].
  - split; [done|]. intros [= Hd _]. by apply lowercase_dot in Hd.
Qed.

Lemma ascii_form {BS : bstr.Api} {BSL : bstr.Laws} input name :
  Forall (λ c, 32 ≤ c < 128 ∧ to_ascii_lowercase c = c) name →
  eq_ignore_ascii_case input name = true → hfs_form input = name.
Proof.
  intros Hn H%eq_ic_spec. unfold hfs_form.
  assert (Hl : to_ascii_lowercase <$> name = name).
  { clear H. induction Hn as [|c l [_ Hc] _ IH]; [done|]. rewrite fmap_cons, Hc. by rewrite IH. }
  rewrite Hl in H.
  assert (Ha : Forall (λ b, 0 ≤ b < 128) input).
  { revert name Hn H Hl. induction input as [|x input IH]; intros name Hn H Hl; [constructor|].
    destruct name as [|c name]; [done|]. apply Forall_cons in Hn as [[Hc ?] Hn].
    injection H as Hx H. injection Hl as _ Hl. constructor; [|by apply (IH name)].
    unfold to_ascii_lowercase, is_ascii_uppercase, between in Hx. case_match; bool_simpl; lia. }
  rewrite bstr.chars_ascii by done. rewrite <- H. f_equal.
  clear -Ha. induction Ha as [|x l Hx _ IH]; [done|]. cbn [List.filter].
  unfold hfs_ignorable at 1, between.
  rewrite !(proj2 (Z.leb_gt _ x)) by lia. rewrite (proj2 (Z.eqb_neq x 65279)) by lia.
  simpl. by rewrite IH.
Qed.

(** ** Properties *)

(** What an accepted path component cannot be.  Whatever protections are
    on, [component] returns its argument only if it is not empty, contains no
    slash, and is not [.git] in any case (nor, for a symbolic link,
    [.gitmodules]).  With the NTFS protection it is none of the names NTFS
    takes for those or for [git~1] (trailing spaces and dots, streams), with
    the HFS+ protection none that HFS+ takes for them (ignored code points),
    and with the Windows protection it has no backslash. *)
Theorem path_component_safe {BS : bstr.Api} {BSL : bstr.Laws} input mode options r :
  component input mode options = Ok r →
  r = input ∧ input ≠ [] ∧ ch "/" ∉ input ∧
  (protect_windows options = true → ch "\" ∉ input) ∧
  eq_ignore_ascii_case input (bs ".git") = false ∧
  (mode = Some Symlink → eq_ignore_ascii_case input (bs ".gitmodules") = false) ∧
  (protect_ntfs options = true →
     ¬ ntfs_alias input (bs ".git") ∧ ¬ ntfs_alias input (bs "git~1") ∧
     (mode = Some Symlink → ¬ ntfs_alias input (bs ".gitmodules"))) ∧
  (protect_hfs options = true →
     hfs_form input ≠ bs ".git" ∧
     (mode = Some Symlink → hfs_form input ≠ bs ".gitmodules")).
Proof.
  destruct options as [w h n]. unfold component. cbn [protect_windows protect_hfs protect_ntfs].
  case_bool_decide as Hne; [done|]. intros H.
  apply bind_ok in H as ([] & Hsep & H). apply bind_ok in H as ([] & Hhfs & H).
  apply bind_ok in H as ([] & Hntfs & H). apply bind_ok in H as ([] & Hplain & [= <-]).
  assert (Hsep' : ch "/" ∉ input ∧ (w = true → ch "\" ∉ input)).
  { destruct w; case_bool_decide as Hf; try done.
    - assert (Hn : bstr.find_byteset input (bs "/\") = None)
        by (destruct (bstr.find_byteset _ _); naive_solver).
      rewrite bstr.find_byteset_spec, find_index_None, Forall_forall in Hn.
      split; [|intros _]; intros Hin; by specialize (Hn _ Hin).
    - assert (Hn : bstr.find_byte input (ch "/") = None)
        by (destruct (bstr.find_byte _ _); naive_solver).
      rewrite bstr.find_byte_spec, find_index_None, Forall_forall in Hn.
      split; [|done]. intros Hin. by specialize (Hn _ Hin). }
  assert (Hh : h = true → hfs_form input ≠ bs ".git" ∧
    (mode = Some Symlink → hfs_form input ≠ bs ".gitmodules")).
  { intros ->. destruct (is_dot_hfs input (bs "git")) eqn:E1; [done|]. split.
    - intros Hf. apply (is_dot_hfs_spec input (bs "git")) in Hf; [congruence|].
      by repeat constructor.
    - intros -> Hf. apply (is_dot_hfs_spec input (bs "gitmodules")) in Hf; [|by repeat constructor].
      cbn [is_symlink andb] in Hhfs. by rewrite Hf in Hhfs. }
  assert (Hn : n = true → ¬ ntfs_alias input (bs ".git") ∧ ¬ ntfs_alias input (bs "git~1") ∧
     (mode = Some Symlink → ¬ ntfs_alias input (bs ".gitmodules"))).
  { intros ->. destruct (is_dot_git_ntfs input) eqn:E1; [done|].
    pose proof (is_dot_git_ntfs_alias input) as Hal.
    split_and!; [intros ?; rewrite Hal in E1; auto; done..|].
    intros -> Ha. apply (is_dot_ntfs_alias _ (bs "gitmodules") (bs "gi7eba")) in Ha.
    cbn [is_symlink andb] in Hntfs. by rewrite Ha in Hntfs. }
  assert (Hself : ∀ name, eq_ignore_ascii_case input name = true → ntfs_alias input name).
  { intros name He. exists input, [], []. rewrite !app_nil_r. auto. }
  assert (Hform : ∀ name, Forall (λ c, 32 ≤ c < 128 ∧ to_ascii_lowercase c = c) name →
    eq_ignore_ascii_case input name = true → hfs_form input = name) by (intros; by apply ascii_form).
  split_and!; try done; [apply Hsep'|apply Hsep'| |].
  - apply not_true_iff_false. intros He. destruct h, n; cbn [negb orb] in Hplain.
    1,2: destruct (Hh eq_refl) as [Hg _]; by apply Hg, Hform; [apply (bool_decide_unpack _)|].
    + destruct (Hn eq_refl) as [Hg _]. by apply Hg, Hself.
    + by rewrite He in Hplain.
  - intros ->. apply not_true_iff_false. intros He. destruct h, n; cbn [negb orb] in Hplain.
    1,2: destruct (Hh eq_refl) as [_ Hg]; by apply Hg, Hform; [|apply (bool_decide_unpack _)|].
    + destruct (Hn eq_refl) as (_ & _ & Hg). by apply Hg, Hself.
    + destruct (eq_ignore_ascii_case input (bs ".git")); [done|].
      cbn [is_symlink andb] in Hplain. by rewrite He in Hplain.
Qed.
Lemma path_component_safe_witness :
  @component bstr_impl (bs "README.md") None default_options = Ok (bs "README.md") ∧
  ¬ ntfs_alias (bs "README.md") (bs ".git").
Proof.
  assert (E : @component bstr_impl (bs "README.md") None default_options = Ok (bs "README.md"))
    by (vm_compute; reflexivity).
  split; [exact E|].
  by apply (@path_component_safe bstr_impl bstr_impl_laws _ _ _ _ E).
Defined.

(** Without the Windows protection the parent directory is accepted. *)
Example parent_component_accepted :
  @component bstr_impl (bs "..") None (mkOptions false true true) = Ok (bs "..").
Proof. vm_compute. reflexivity. Qed.
