(* ===== verification/Wildmatch.v ===== *)
(** * Wildcard matching

    Models [gix-glob/src/wildmatch.rs]: [match_recursive] and [wildmatch].

    The iterators [p] and [t] are the lists of their remaining
    (index, byte) pairs, bytes in lower case when case is ignored; direct
    indexing ([pattern[..]], [text[..]]) sees the bytes as they are.  Loops
    take fuel and panic when it runs out, so that absence of panics includes
    termination. *)

From S2P Require Import Prelude External.

(** ** The code *)

(** The flags of [wildmatch::Mode]. *)
Record Mode := mkMode { no_match_slash_literal : bool; ignore_case : bool }.

Inductive Result := Match | NoMatch | AbortAll | AbortToStarStar | RecursionLimitReached.
#[global] Instance Result_eq_dec : EqDecision Result.
Proof. solve_decision. Defined.

Definition STAR : Z := ch "*".
Definition BACKSLASH : Z := ch "\".
Definition SLASH : Z := ch "/".
Definition BRACKET_OPEN : Z := ch "[".
Definition BRACKET_CLOSE : Z := ch "]".
Definition COLON : Z := ch ":".
Definition NEGATE_CLASS : Z := ch "!".
Definition RECURSION_LIMIT : nat := 64.
Definition GLOB_CHARACTERS : bytes := bs "*?[\".

Definition possibly_lowercase (mode : Mode) (c : Z) : Z :=
  if ignore_case mode then to_ascii_lowercase c else c.

Definition iter : Type := list (nat * Z).
(** [d.iter().map(possibly_lowercase).enumerate()] *)
Definition enumerate (mode : Mode) (d : bytes) : iter :=
  zip (seq 0 (length d)) (possibly_lowercase mode <$> d).
(** [p.peek().map(|t| t.1)] *)
Definition peek (p : iter) : option Z := snd <$> head p.
(** [while p.next_if(|c| c == STAR).is_some() {}] *)
Fixpoint skip_stars (p : iter) : iter :=
  match p with
  | (_, c) :: rest => if c =? STAR then skip_stars rest else p
  | [] => []
  end.
(** [while p.peek().map_or(false, |t| t.1 != BRACKET_CLOSE) { p.next(); }] *)
Fixpoint skip_to_close (p : iter) : iter :=
  match p with
  | (_, c) :: rest => if negb (c =? BRACKET_CLOSE) then skip_to_close rest else p
  | [] => []
  end.

(** Whether a named class has the byte; [None] for an unknown name. *)
Definition class_matches (mode : Mode) (class : bytes) (t_ch : Z) : option bool :=
  if bool_decide (class = bs "alnum") then Some (is_ascii_alphanumeric t_ch)
  else if bool_decide (class = bs "alpha") then Some (is_ascii_alphabetic t_ch)
  else if bool_decide (class = bs "blank") then Some (is_ascii_whitespace t_ch)
  else if bool_decide (class = bs "cntrl") then Some (is_ascii_control t_ch)
  else if bool_decide (class = bs "digit") then Some (is_ascii_digit t_ch)
  else if bool_decide (class = bs "graph") then Some (is_ascii_graphic t_ch)
  else if bool_decide (class = bs "lower") then Some (is_ascii_lowercase t_ch)
  else if bool_decide (class = bs "print") then Some (between 32 126 t_ch)
  else if bool_decide (class = bs "punct") then Some (is_ascii_punctuation t_ch)
  else if bool_decide (class = bs "space") then Some (t_ch =? ch " ")
  else if bool_decide (class = bs "upper") then
    Some (is_ascii_uppercase t_ch || (ignore_case mode && is_ascii_lowercase t_ch))
  else if bool_decide (class = bs "xdigit") then Some (is_ascii_hexdigit t_ch)
  else None.

(** Whether a range [prev_p_ch-p_ch] of a bracket expression has the byte. *)
Definition range_matches (mode : Mode) (prev_p_ch p_ch t_ch : Z) : bool :=
  if (t_ch <=? p_ch) && (prev_p_ch <=? t_ch) then true
  else if ignore_case mode && is_ascii_lowercase t_ch then
    let t_ch_upper := to_ascii_uppercase t_ch in
    ((t_ch_upper <=? to_ascii_uppercase p_ch) &&
     (to_ascii_uppercase prev_p_ch <=? t_ch_upper)) ||
    ((t_ch_upper <=? to_ascii_uppercase prev_p_ch) &&
     (to_ascii_uppercase p_ch <=? t_ch_upper))
  else false.

(** What a round of the bracket loop does before it advances: return from the
    function, or go on with [p], [prev_p_ch], [matched] and [p_idx_ofs]. *)
Inductive round := Return (r : Result) | Go (p : iter) (prev_p_ch : Z) (matched : bool) (ofs : nat).

(** The arm [BRACKET_OPEN if matches!(p.peek(), Some((_, COLON)))]. *)
Definition bracket_class (mode : Mode) (pattern : bytes) (t_ch : Z)
    (p_idx : nat) (p : iter) (prev_p_ch : Z) (matched : bool) (ofs : nat)
  : res Empty_set round :=
  let p := tail p in
  match skip_to_close p with
  | [] => Ok (Return AbortAll)
  | (closing_bracket_idx, _) :: p =>
      malformed ←
        ((if (closing_bracket_idx - p_idx <? 3)%nat then Ok true
          else c ← idx pattern (closing_bracket_idx - 1); Ok (negb (c =? COLON)))
         : res Empty_set bool);
      if malformed : bool then
        let matched := matched || (t_ch =? BRACKET_OPEN) in
        if (length pattern <? p_idx)%nat then Ok (Return AbortAll)
        else
          rest ← slice_from pattern p_idx;
          Ok (Go (enumerate mode rest) prev_p_ch matched (ofs + p_idx))
      else
        class ← slice pattern (p_idx + 2) (closing_bracket_idx - 1);
        match class_matches mode class t_ch with
        | None => Ok (Return AbortAll)
        | Some m => Ok (Go p 0 (matched || m) ofs)
        end
  end.

(** One round of the bracket loop: the [match p_ch]. *)
Definition bracket_round (mode : Mode) (pattern : bytes) (t_ch : Z)
    (p_idx : nat) (p_ch : Z) (p : iter) (prev_p_ch : Z) (matched : bool) (ofs : nat)
  : res Empty_set round :=
  let p_idx := (p_idx + ofs)%nat in
  if p_ch =? BACKSLASH then
    match p with
    | (_, p_ch) :: p =>
        if p_ch =? t_ch then Ok (Go p prev_p_ch true ofs) else Ok (Go p p_ch matched ofs)
    | [] => Ok (Return AbortAll)
    end
  else if (p_ch =? ch "-") && negb (prev_p_ch =? 0) &&
          bool_decide (p ≠ []) && negb (bool_decide (peek p = Some BRACKET_CLOSE)) then
    match p with
    | [] => Panic
    | (_, p_ch) :: p =>
        if p_ch =? BACKSLASH then
          match p with
          | [] => Ok (Return AbortAll)
          | (_, p_ch) :: p =>
              Ok (Go p 0 (matched || range_matches mode prev_p_ch p_ch t_ch) ofs)
          end
        else Ok (Go p 0 (matched || range_matches mode prev_p_ch p_ch t_ch) ofs)
    end
  else if (p_ch =? BRACKET_OPEN) && bool_decide (peek p = Some COLON) then
    bracket_class mode pattern t_ch p_idx p prev_p_ch matched ofs
  else Ok (Go p p_ch (matched || (p_ch =? t_ch)) ofs).

(** The bracket loop: an early return, or [matched] and the iterator behind
    the closing bracket. *)
Fixpoint bracket_loop (fuel : nat) (mode : Mode) (pattern : bytes) (t_ch : Z)
    (next : option (nat * Z)) (p : iter) (prev_p_ch : Z) (matched : bool) (ofs : nat)
  : res Empty_set (Result + bool * iter) :=
  match fuel with
  | O => Panic
  | S fuel =>
      match next with
      | None => Ok (inl AbortAll)
      | Some (p_idx, p_ch) =>
          r ← bracket_round mode pattern t_ch p_idx p_ch p prev_p_ch matched ofs;
          match r with
          | Return r => Ok (inl r)
          | Go p prev_p_ch matched ofs =>
              match p with
              | (i, c) :: p =>
                  if c =? BRACKET_CLOSE then Ok (inr (matched, p))
                  else bracket_loop fuel mode pattern t_ch (Some (i, c)) p prev_p_ch matched ofs
              | [] => bracket_loop fuel mode pattern t_ch None [] prev_p_ch matched ofs
              end
          end
      end
  end.

(** The [BRACKET_OPEN] arm: a result, or the iterator to continue with.  The
    loop restarts at most once per index and runs at most once over the
    pattern between two restarts. *)
Definition bracket (mode : Mode) (pattern : bytes) (t_ch : Z) (p : iter)
  : res Empty_set (Result + iter) :=
  match p with
  | [] => Ok (inl AbortAll)
  | (p_idx, p_ch) :: p =>
      let p_ch := if p_ch =? ch "^" then NEGATE_CLASS else p_ch in
      let negated := p_ch =? NEGATE_CLASS in
      let '(next, p) :=
        if negated then (head p, tail p) else (Some (p_idx, p_ch), p) in
      let fuel := ((length pattern + 2) * (length pattern + 2))%nat in
      r ← bracket_loop fuel mode pattern t_ch next p 0 false 0;
      match r with
      | inl r => Ok (inl r)
      | inr (matched, p) =>
          if bool_decide (matched = negated) || (no_match_slash_literal mode && (t_ch =? SLASH))
          then Ok (inl NoMatch) else Ok (inr p)
      end
  end.

(** The inner loop of the [STAR] arm: advance until the byte is found or a
    slash stops the star. *)
Fixpoint star_skip (match_slash : bool) (p_ch : Z) (t_idx : nat) (t_ch : Z) (t : iter)
  : nat * Z * iter :=
  if (negb match_slash && (t_ch =? SLASH)) || (t_ch =? p_ch) then (t_idx, t_ch, t)
  else match t with
       | [] => (t_idx, t_ch, t)
       | (t_idx, t_ch) :: t => star_skip match_slash p_ch t_idx t_ch t
       end.

Section Bstr.
Context {BS : bstr.Api}.

Section Recursion.
(** [match_recursive(pattern, text, mode, depth + 1)] *)
Context (rec : bytes → bytes → res Empty_set Result).

(** The loop of the [STAR] arm; every round advances [t]. *)
Fixpoint star_loop (fuel : nat) (pattern text : bytes) (match_slash : bool)
    (p_idx : nat) (p_ch : Z) (t_idx : nat) (t_ch : Z) (t : iter) : res Empty_set Result :=
  match fuel with
  | O => Panic
  | S fuel =>
      let '(t_idx, t_ch, t) :=
        if mem p_ch GLOB_CHARACTERS then (t_idx, t_ch, t)
        else star_skip match_slash p_ch t_idx t_ch t in
      if negb (mem p_ch GLOB_CHARACTERS) && negb (t_ch =? p_ch) then Ok NoMatch
      else
        sub ← slice_from pattern p_idx;
        rest ← slice_from text t_idx;
        r ← rec sub rest;
        let next :=
          match t with
          | (t_idx, t_ch) :: t =>
              star_loop fuel pattern text match_slash p_idx p_ch t_idx t_ch t
          | [] => Ok AbortAll
          end in
        if bool_decide (r ≠ NoMatch) then
          if negb match_slash || bool_decide (r ≠ AbortToStarStar) then Ok r else next
        else if negb match_slash && (t_ch =? SLASH) then Ok AbortToStarStar
        else next
  end.

(** [STAR] with nothing behind it. *)
Definition star_end (text : bytes) (match_slash : bool) (t_idx : nat)
  : res Empty_set Result :=
  rest ← slice_from text t_idx;
  Ok (if negb match_slash && mem SLASH rest then NoMatch else Match).

(** The part of the [STAR] arm behind [match p.next()]: [next] is the byte
    behind the stars; the result, or the iterators to continue with. *)
Definition star_next (pattern text : bytes) (match_slash : bool)
    (next : option (nat * Z)) (p : iter) (t_idx : nat) (t_ch : Z) (t : iter)
  : res Empty_set (Result + iter * iter) :=
  match next with
  | None => inl <$> star_end text match_slash t_idx
  | Some (p_idx, p_ch) =>
      let search := inl <$> star_loop (S (length t)) pattern text match_slash p_idx p_ch t_idx t_ch t in
      if negb match_slash && (p_ch =? SLASH) then
        rest ← slice_from text t_idx;
        match bstr.find_byte rest SLASH with
        | Some distance_to_slash => Ok (inr (p, drop distance_to_slash t))
        | None => Ok (inl NoMatch)
        end
      else search
  end.

Definition star (mode : Mode) (pattern text : bytes) (p_idx : nat) (p : iter)
    (t_idx : nat) (t_ch : Z) (t : iter) : res Empty_set (Result + iter * iter) :=
  let match_slash := negb (no_match_slash_literal mode) in
  match p with
  | [] => inl <$> star_end text match_slash t_idx
  | (next_p_idx, next_p_ch) :: p =>
      if next_p_ch =? STAR then
        let p := skip_stars p in
        let next := head p in
        let p := tail p in
        if negb (no_match_slash_literal mode) then
          star_next pattern text true next p t_idx t_ch t
        else
          leading ←
            (match p_idx with
             | O => Ok true
             | S leading_slash_idx => c ← idx pattern leading_slash_idx; Ok (c =? SLASH)
             end : res Empty_set bool);
          if leading &&
             match next with
             | None => true
             | Some (_, c) =>
                 (c =? SLASH) || ((c =? BACKSLASH) && bool_decide (peek p = Some SLASH))
             end
          then
            r ← match next with
                | None => Ok NoMatch
                | Some (i, _) =>
                    sub ← slice_from pattern (i + 1);
                    rest ← slice_from text t_idx;
                    rec sub rest
                end;
            if bool_decide (r = Match) then Ok (inl Match)
            else star_next pattern text true next p t_idx t_ch t
          else star_next pattern text false next p t_idx t_ch t
      else star_next pattern text match_slash (Some (next_p_idx, next_p_ch)) p t_idx t_ch t
  end.

(** The main loop; every round takes a byte of the text or returns. *)
Fixpoint main_loop (fuel : nat) (mode : Mode) (pattern text : bytes) (p t : iter)
  : res Empty_set Result :=
  match fuel with
  | O => Panic
  | S fuel =>
      match p with
      | [] => Ok (match t with [] => Match | _ => NoMatch end)
      | (p_idx, p_ch) :: p =>
          let step (t_idx : nat) (t_ch : Z) (t : iter) :=
            if p_ch =? BACKSLASH then
              match p with
              | (_, p_ch) :: p =>
                  if negb (p_ch =? t_ch) then Ok NoMatch else main_loop fuel mode pattern text p t
              | [] => Ok NoMatch
              end
            else if p_ch =? ch "?" then
              if no_match_slash_literal mode && (t_ch =? SLASH) then Ok NoMatch
              else main_loop fuel mode pattern text p t
            else if p_ch =? STAR then
              r ← star mode pattern text p_idx p t_idx t_ch t;
              match r with
              | inl r => Ok r
              | inr (p, t) => main_loop fuel mode pattern text p t
              end
            else if p_ch =? BRACKET_OPEN then
              r ← bracket mode pattern t_ch p;
              match r with
              | inl r => Ok r
              | inr p => main_loop fuel mode pattern text p t
              end
            else if negb (p_ch =? t_ch) then Ok NoMatch
            else main_loop fuel mode pattern text p t in
          match t with
          | (t_idx, t_ch) :: t => step t_idx t_ch t
          | [] => if negb (p_ch =? STAR) then Ok AbortAll else step (length text) 0 []
          end
      end
  end.

End Recursion.

(** [match_recursive] at depth [RECURSION_LIMIT - depth_left]. *)
Fixpoint match_recursive (depth_left : nat) (mode : Mode) (pattern text : bytes)
  : res Empty_set Result :=
  match depth_left with
  | O => Ok RecursionLimitReached
  | S depth_left =>
      main_loop (match_recursive depth_left mode) (length text + 2) mode pattern text
        (enumerate mode pattern) (enumerate mode text)
  end.

Definition wildmatch (pattern value : bytes) (mode : Mode) : res Empty_set bool :=
  r ← match_recursive RECURSION_LIMIT mode pattern value;
  Ok (bool_decide (r = Match)).

End Bstr.

(** ** Lemmas: matching never panics *)

(** A computation returns a value with a property. *)
Definition yields {A} (m : res Empty_set A) (Q : A → Prop) : Prop := ∃ a, m = Ok a ∧ Q a.

Lemma yields_ok {A} (a : A) (Q : A → Prop) : Q a → yields (Ok a) Q.
Proof. by exists a. Qed.
Lemma yields_bind {A B} (m : res Empty_set A) (f : A → res Empty_set B) P Q :
  yields m P → (∀ a, P a → yields (f a) Q) → yields (m ≫= f) Q.
Proof. intros (a & -> & Ha) Hf. by apply Hf. Qed.
Lemma yields_mono {A} (m : res Empty_set A) (P Q : A → Prop) :
  yields m P → (∀ a, P a → Q a) → yields m Q.
Proof. intros (a & -> & Ha) HPQ. exists a. auto. Qed.
Lemma yields_fmap {A B} (m : res Empty_set A) (f : A → B) P Q :
  yields m P → (∀ a, P a → Q (f a)) → yields (f <$> m) Q.
Proof. intros (a & -> & Ha) HPQ. exists (f a). auto. Qed.
Lemma yields_slice_from (d : bytes) i :
  (i ≤ length d)%nat → yields (slice_from d i) (λ r, r = drop i d).
Proof.
  intros Hi. unfold slice_from, get_from. rewrite (proj2 (Nat.leb_le _ _)) by done. by eexists.
Qed.
Lemma yields_idx (d : bytes) i : (i < length d)%nat → yields (idx d i) (λ _, True).
Proof.
  intros Hi. unfold idx. destruct (lookup_lt_is_Some_2 d i Hi) as [x ->]. by exists x.
Qed.
Create HintDb yields discriminated.
#[export] Hint Resolve yields_ok : yields.

(** An iterator with consecutive indices from [k], all within [n]. *)
Definition iter_from (n k : nat) (p : iter) : Prop :=
  fst <$> p = seq k (length p) ∧ (k + length p ≤ n)%nat.

Lemma iter_from_cons n k i c p :
  iter_from n k ((i, c) :: p) → i = k ∧ (i < n)%nat ∧ iter_from n (S k) p.
Proof. intros [[= -> Hp] Hn]. simpl in Hn. split_and!; [done|lia|]. split; [done|lia]. Qed.
Lemma iter_from_drop n k p j : iter_from n k p → (j ≤ length p)%nat → iter_from n (k + j) (drop j p).
Proof.
  intros [Hp Hn] Hj. split; [|rewrite length_drop; lia].
  rewrite fmap_drop, Hp, drop_seq, length_drop. done.
Qed.
Lemma length_enumerate mode d : length (enumerate mode d) = length d.
Proof. unfold enumerate. rewrite length_zip, length_seq, length_fmap. lia. Qed.
Lemma iter_from_enumerate mode d n : (length d ≤ n)%nat → iter_from n 0 (enumerate mode d).
Proof.
  intros Hd. split; [|rewrite length_enumerate; simpl; lia].
  rewrite length_enumerate. unfold enumerate. apply fst_zip.
  rewrite length_seq, length_fmap. done.
Qed.

Lemma skip_stars_suffix p : ∃ j, skip_stars p = drop j p ∧ (j ≤ length p)%nat.
Proof.
  induction p as [|[i c] p (j & Hj & ?)]; cbn [skip_stars]; [by exists 0%nat|].
  destruct (c =? STAR); [exists (S j)|exists 0%nat]; simpl; split; (done || lia).
Qed.
Lemma skip_to_close_suffix p : ∃ j, skip_to_close p = drop j p ∧ (j ≤ length p)%nat.
Proof.
  induction p as [|[i c] p (j & Hj & ?)]; cbn [skip_to_close]; [by exists 0%nat|].
  destruct (negb _); [exists (S j)|exists 0%nat]; simpl; split; (done || lia).
Qed.

(** Where a round of the bracket loop leaves the iterator: further on, or
    restarted with a larger offset. *)
Definition advanced (n k : nat) (p : iter) (ofs : nat) (r : round) : Prop :=
  match r with
  | Return _ => True
  | Go p' _ _ ofs' =>
      (ofs' = ofs ∧ ∃ j, (j ≤ length p)%nat ∧ p' = drop j p) ∨
      (ofs < ofs' ∧ ofs ≤ n ∧ iter_from n 0 p')%nat
  end.

Lemma bracket_class_total mode pattern t_ch i k p prev_p_ch matched ofs :
  iter_from (length pattern) k p → (1 ≤ i + ofs)%nat →
  yields (bracket_class mode pattern t_ch (i + ofs) p prev_p_ch matched ofs)
    (advanced (length pattern) k p ofs).
Proof.
  intros Hp Hi. unfold bracket_class.
  destruct (skip_to_close_suffix (tail p)) as (j & Hj & Hle).
  assert (Hdr : ∃ j', (j' ≤ length p)%nat ∧ skip_to_close (tail p) = drop j' p).
  { destruct p as [|x p]; [exists 0%nat|exists (S j)]; simpl in *; split; try lia; [|done].
    by rewrite Hj, drop_nil. }
  clear j Hj Hle. destruct Hdr as (j & Hle & Hj). rewrite Hj.
  pose proof (iter_from_drop _ _ _ j Hp Hle) as Hd.
  destruct (drop j p) as [|[c x] q] eqn:Hdrop; [by apply yields_ok|].
  apply iter_from_cons in Hd as (_ & Hc & _).
  apply (yields_bind _ _ (λ b, b = false → (3 ≤ c - (i + ofs))%nat)).
  { destruct (Nat.ltb_spec (c - (i + ofs)) 3); [by apply yields_ok|].
    eapply yields_bind; [apply yields_idx; lia|]. intros y _. by apply yields_ok. }
  intros [|] Hm.
  - destruct (Nat.ltb_spec (length pattern) (i + ofs)); [by apply yields_ok|].
    eapply yields_bind; [by apply yields_slice_from|]. intros r ->. apply yields_ok. right.
    split_and!; [lia|lia|]. apply iter_from_enumerate. rewrite length_drop. lia.
  - specialize (Hm eq_refl). apply (yields_bind _ _ (λ _, True)).
    { unfold slice, get_range. rewrite (proj2 (Nat.leb_le _ _)), (proj2 (Nat.leb_le _ _)) by lia.
      by eexists. }
    intros class _. destruct (class_matches mode class t_ch); apply yields_ok; [|done].
    left. split; [done|]. exists (S j).
    assert (length (drop j p) = S (length q)) by (by rewrite Hdrop). rewrite length_drop in *.
    split; [lia|]. by rewrite <- (Nat.add_1_r j), <- drop_drop, Hdrop.
Qed.

Lemma bracket_round_total mode pattern t_ch i c k p prev_p_ch matched ofs :
  iter_from (length pattern) k p → (1 ≤ i + ofs)%nat →
  yields (bracket_round mode pattern t_ch i c p prev_p_ch matched ofs)
    (advanced (length pattern) k p ofs).
Proof.
  intros Hp Hi. unfold bracket_round.
  assert (Hgo : ∀ j pc m, (j ≤ length p)%nat → advanced (length pattern) k p ofs (Go (drop j p) pc m ofs))
    by (intros; left; eauto).
  destruct (c =? BACKSLASH).
  { destruct p as [|[j x] p]; [by apply yields_ok|].
    destruct (x =? t_ch); apply yields_ok, (Hgo 1%nat); simpl; lia. }
  destruct (_ && _ && _ && _) eqn:E.
  { destruct p as [|[j x] p]; [|].
    - exfalso. bool_simpl. by case_bool_decide.
    - destruct (x =? BACKSLASH); [|apply yields_ok, (Hgo 1%nat); simpl; lia].
      destruct p as [|[j' x'] p]; [by apply yields_ok|].
      apply yields_ok, (Hgo 2%nat). simpl. lia. }
  destruct ((c =? BRACKET_OPEN) && _); [by apply bracket_class_total|].
  apply yields_ok, (Hgo 0%nat). lia.
Qed.

Lemma bracket_loop_total fuel mode pattern t_ch next k p prev_p_ch matched ofs :
  let n := length pattern in
  iter_from n k p → (1 ≤ k + ofs)%nat →
  match next with Some (i, _) => (1 ≤ i + ofs)%nat | None => True end →
  (match next with
   | None => 1 | Some _ => (n + 1 - ofs) * (n + 2) + length p + 2
   end ≤ fuel)%nat →
  yields (bracket_loop fuel mode pattern t_ch next p prev_p_ch matched ofs)
    (λ r, match r with inl _ => True | inr (_, p) => ∃ k, iter_from n k p end).
Proof.
  cbv zeta. revert next k p prev_p_ch matched ofs.
  induction fuel as [|fuel IH]; intros next k p prev_p_ch matched ofs Hp Hk Hnext Hfuel.
  { exfalso. destruct next; [|lia]. apply Nat.le_0_r, Nat.eq_add_0 in Hfuel as [_ ?]. done. }
  cbn [bracket_loop]. destruct next as [[i c]|]; [|by apply yields_ok].
  eapply yields_bind; [by eapply bracket_round_total|].
  intros [r|p' pc m ofs'] Hadv; [by apply yields_ok|].
  assert (Hone : (1 ≤ fuel)%nat)
    by (revert Hfuel; generalize ((length pattern + 1 - ofs) * (length pattern + 2))%nat; lia).
  assert (Hp' : ∃ k', iter_from (length pattern) k' p' ∧ (1 ≤ k' + ofs')%nat ∧
    ((length pattern + 1 - ofs') * (length pattern + 2) + length p' + 2 ≤ S fuel)%nat).
  { destruct Hadv as [(-> & j & Hj & ->)|(H1 & H2 & H3)].
    - exists (k + j)%nat. split_and!; [by apply iter_from_drop|lia|].
      rewrite length_drop. lia.
    - exists 0%nat. destruct H3 as [? H3]. split_and!; [done|lia|].
      assert ((length pattern + 1 - ofs') + 1 ≤ length pattern + 1 - ofs)%nat by lia. nia. }
  clear Hadv Hp Hk Hnext Hfuel. destruct Hp' as (k' & Hp' & Hk' & Hfuel).
  destruct p' as [|[i' c'] p'].
  - apply (IH None k'); [done|lia|done|done].
  - apply iter_from_cons in Hp' as (-> & _ & Hp').
    destruct (c' =? BRACKET_CLOSE); [apply yields_ok; eauto|].
    apply (IH (Some (k', c')) (S k')); [done|lia|lia|]. simpl in Hfuel. lia.
Qed.

Lemma bracket_total mode pattern t_ch k p :
  iter_from (length pattern) (S k) p →
  yields (bracket mode pattern t_ch p)
    (λ r, match r with inl _ => True | inr p => ∃ k, iter_from (length pattern) k p end).
Proof.
  intros Hp. unfold bracket. destruct p as [|[i c] p]; [by apply yields_ok|].
  pose proof Hp as [_ Hlen]. simpl in Hlen.
  apply iter_from_cons in Hp as (-> & Hi & Hp).
  set (c' := if c =? ch "^" then NEGATE_CLASS else c).
  set (np := if c' =? NEGATE_CLASS then (head p, tail p) else (Some (S k, c'), p)).
  destruct np as [next q] eqn:Hnp.
  assert (Hq : ∃ k', iter_from (length pattern) (S k') q ∧ (length q ≤ length pattern)%nat ∧
    match next with Some (i, _) => (1 ≤ i)%nat | None => True end).
  { unfold np in Hnp. destruct (c' =? NEGATE_CLASS); injection Hnp as <- <-; cycle 1.
    { exists (S k). split_and!; [done|lia|lia]. }
    destruct p as [|[i x] p]; simpl in *.
    - exists (S k). split_and!; [done|lia|done].
    - apply iter_from_cons in Hp as (-> & _ & Hp). exists (S (S k)). split_and!; [done|lia|lia]. }
  destruct Hq as (k' & Hq & Hlq & Hnext).
  eapply yields_bind.
  { eapply (bracket_loop_total _ _ _ _ _ (S k')); [done|lia|destruct next as [[]|]; lia|].
    destruct next; nia. }
  intros [r|[m p']] Hr; [by apply yields_ok|].
  destruct (_ || _); apply yields_ok; [done|]. exact Hr.
Qed.

Lemma star_skip_spec ms p_ch n k t_idx t_ch t t_idx' t_ch' t' :
  star_skip ms p_ch t_idx t_ch t = (t_idx', t_ch', t') →
  iter_from n k t → (t_idx ≤ n)%nat →
  (t_idx' ≤ n)%nat ∧ (length t' ≤ length t)%nat ∧ ∃ k', iter_from n k' t'.
Proof.
  revert k t_idx t_ch. induction t as [|[i c] t IH]; intros k t_idx t_ch; cbn [star_skip];
    destruct (_ || _).
  1-3: intros [= <- <- <-] Ht Hi; eauto.
  intros Hs Ht Hi. apply iter_from_cons in Ht as (-> & Hk & Ht).
  destruct (IH (S k) k c Hs Ht) as (? & ? & ?); [lia|]. simpl. split_and!; [done|lia|done].
Qed.

Section Totality.
Context {BS : bstr.Api} {BSL : bstr.Laws}.
Context (rec : bytes → bytes → res Empty_set Result).
Hypothesis Hrec : ∀ a b, yields (rec a b) (λ _, True).

Lemma star_loop_total fuel pattern text ms p_idx p_ch t_idx t_ch t k :
  (p_idx ≤ length pattern)%nat → (t_idx ≤ length text)%nat →
  iter_from (length text) k t → (length t < fuel)%nat →
  yields (star_loop rec fuel pattern text ms p_idx p_ch t_idx t_ch t) (λ _, True).
Proof.
  revert t_idx t_ch t k. induction fuel as [|fuel IH]; intros t_idx t_ch t k Hp Ht Hit Hf; [lia|].
  cbn [star_loop].
  set (s := if mem p_ch GLOB_CHARACTERS then _ else _).
  destruct s as [[t_idx' t_ch'] t'] eqn:Hs.
  assert (Hs' : (t_idx' ≤ length text)%nat ∧ (length t' ≤ length t)%nat ∧
    ∃ k', iter_from (length text) k' t').
  { unfold s in Hs. destruct (mem p_ch _); [|by eapply star_skip_spec].
    injection Hs as <- <- <-. eauto. }
  clear s Hs. destruct Hs' as (Ht' & Hlen & k' & Hit').
  destruct (negb _ && _); [by apply yields_ok|].
  eapply yields_bind; [by apply yields_slice_from|]. intros sub _.
  eapply yields_bind; [by apply yields_slice_from|]. intros rest _.
  eapply yields_bind; [apply Hrec|]. intros r _. cbv zeta.
  assert (Hnext : yields (match t' with
    | (t_idx, t_ch) :: t => star_loop rec fuel pattern text ms p_idx p_ch t_idx t_ch t
    | [] => Ok AbortAll end) (λ _, True)).
  { destruct t' as [|[i c] t']; [by apply yields_ok|].
    apply iter_from_cons in Hit' as (-> & Hi & Hit'). simpl in Hlen.
    eapply IH; [done|lia|exact Hit'|lia]. }
  destruct (bool_decide (r ≠ NoMatch)).
  - destruct (_ || _); [by apply yields_ok|exact Hnext].
  - destruct (_ && _); [by apply yields_ok|exact Hnext].
Qed.

(** The iterators a star may leave to the main loop. *)
Definition continues (n m t_idx : nat) (t : iter) (r : Result + iter * iter) : Prop :=
  match r with
  | inl _ => True
  | inr (p', t') => (∃ k, iter_from n k p') ∧ (∃ k, iter_from m k t') ∧
      (length t' ≤ length t)%nat ∧ (t_idx < m)%nat
  end.

Lemma star_end_total text ms t_idx :
  (t_idx ≤ length text)%nat → yields (star_end text ms t_idx) (λ _, True).
Proof.
  intros H. unfold star_end. eapply yields_bind; [by apply yields_slice_from|].
  intros. by apply yields_ok.
Qed.

Lemma star_next_total pattern text ms next p k t_idx t_ch t kt :
  match next with Some (i, _) => (i < length pattern)%nat | None => True end →
  iter_from (length pattern) k p → iter_from (length text) kt t →
  (t_idx ≤ length text)%nat →
  yields (star_next rec pattern text ms next p t_idx t_ch t)
    (continues (length pattern) (length text) t_idx t).
Proof.
  intros Hn Hp Ht Hi. unfold star_next. destruct next as [[i c]|].
  - cbv zeta. destruct (negb ms && _).
    + eapply yields_bind; [by apply yields_slice_from|]. intros rest ->.
      rewrite bstr.find_byte_spec. destruct (find_index _ _) as [d|] eqn:Hf; [|by apply yields_ok].
      apply yields_ok. split_and!; [eauto| |rewrite length_drop; lia|].
      2:{ apply find_index_Some in Hf as [(x & Hx%lookup_lt_Some & _) _].
          rewrite length_drop in Hx. lia. }
      destruct (Nat.le_ge_cases d (length t)).
      * eexists. by apply iter_from_drop.
      * rewrite drop_ge by lia. exists 0%nat. by split; [|simpl; lia].
    + eapply yields_fmap; [eapply star_loop_total; [lia|done|exact Ht|lia]|]. done.
  - eapply yields_fmap; [by apply star_end_total|]. done.
Qed.

Lemma star_total mode pattern text p_idx k p t_idx t_ch t kt :
  (p_idx < length pattern)%nat → iter_from (length pattern) k p →
  iter_from (length text) kt t → (t_idx ≤ length text)%nat →
  yields (star rec mode pattern text p_idx p t_idx t_ch t)
    (continues (length pattern) (length text) t_idx t).
Proof.
  intros Hpi Hp Ht Hi. unfold star. destruct p as [|[ni nc] p].
  { eapply yields_fmap; [by apply star_end_total|]. done. }
  apply iter_from_cons in Hp as (-> & Hk & Hp).
  destruct (nc =? STAR); [|eapply star_next_total; eauto].
  destruct (skip_stars_suffix p) as (j & Hj & Hle). rewrite Hj.
  pose proof (iter_from_drop _ _ _ j Hp Hle) as Hd.
  assert (Hht : match head (drop j p) with Some (i, _) => (i < length pattern)%nat | None => True end ∧
    ∃ k', iter_from (length pattern) k' (tail (drop j p))).
  { destruct (drop j p) as [|[i c] q]; simpl; [eauto|].
    apply iter_from_cons in Hd as (-> & ? & ?). eauto. }
  destruct Hht as [Hh [k' Htl]]. cbv zeta.
  destruct (negb _); [eapply star_next_total; eauto|].
  eapply (yields_bind _ _ (λ _, True)).
  { destruct p_idx; [by apply yields_ok|]. eapply yields_bind; [apply yields_idx; lia|].
    intros. by apply yields_ok. }
  intros leading _. destruct (leading && _); [|eapply star_next_total; eauto].
  eapply (yields_bind _ _ (λ _, True)).
  { destruct (head (drop j p)) as [[i c]|]; [|by apply yields_ok].
    eapply yields_bind; [apply yields_slice_from; lia|]. intros sub _.
    eapply yields_bind; [by apply yields_slice_from|]. intros rest _. apply Hrec. }
  intros r _. destruct (bool_decide (r = Match)); [by apply yields_ok|].
  eapply star_next_total; eauto.
Qed.

Lemma main_loop_total fuel mode pattern text k p kt t :
  iter_from (length pattern) k p → iter_from (length text) kt t → (length t < fuel)%nat →
  yields (main_loop rec fuel mode pattern text p t) (λ _, True).
Proof.
  revert k p kt t. induction fuel as [|fuel IH]; intros k p kt t Hp Ht Hf; [lia|].
  cbn [main_loop]. destruct p as [|[p_idx p_ch] p]; [by apply yields_ok|].
  apply iter_from_cons in Hp as (-> & Hk & Hp).
  assert (Hstar : ∀ t_idx t_ch t', iter_from (length text) (S kt) t' ∨ t' = [] →
    (t_idx ≤ length text)%nat → (length t' < fuel)%nat ∨ t_idx = length text →
    yields (r ← star rec mode pattern text k p t_idx t_ch t';
      match r with
      | inl r => Ok r
      | inr (p, t) => main_loop rec fuel mode pattern text p t
      end) (λ _, True)).
  { intros t_idx t_ch t' Ht' Hti Hor.
    assert (∃ k, iter_from (length text) k t') as [k' Hk'].
    { destruct Ht' as [?| ->]; [eauto|]. exists 0%nat. split; [done|simpl; lia]. }
    eapply yields_bind; [by eapply star_total|].
    intros [r|[p' t2]] Hr; [by apply yields_ok|].
    destruct Hr as ([k1 H1] & [k2 H2] & H3 & H4). destruct Hor; [|lia]. eapply IH; eauto. lia. }
  destruct t as [|[t_idx t_ch] t].
  { destruct (Z.eqb_spec p_ch STAR) as [->|]; [|by apply yields_ok]. apply Hstar; auto. }
  apply iter_from_cons in Ht as (-> & Hkt & Ht). simpl in Hf.
  assert (Hgo : ∀ p' k', iter_from (length pattern) k' p' →
    yields (main_loop rec fuel mode pattern text p' t) (λ _, True)).
  { intros. eapply IH; eauto. lia. }
  destruct (p_ch =? BACKSLASH).
  { destruct p as [|[i c] p]; [by apply yields_ok|].
    apply iter_from_cons in Hp as (_ & _ & Hp). destruct (negb _); [by apply yields_ok|]. eauto. }
  destruct (p_ch =? ch "?"); [destruct (_ && _); [by apply yields_ok|eauto]|].
  destruct (p_ch =? STAR); [apply Hstar; auto; lia|].
  destruct (p_ch =? BRACKET_OPEN).
  { eapply yields_bind; [by apply (bracket_total _ _ _ k)|].
    intros [r|p'] Hr; [by apply yields_ok|]. destruct Hr. eauto. }
  destruct (negb _); [by apply yields_ok|]. eauto.
Qed.

End Totality.

Lemma match_recursive_total {BS : bstr.Api} {BSL : bstr.Laws} depth_left mode pattern text :
  yields (match_recursive depth_left mode pattern text) (λ _, True).
Proof.
  revert pattern text. induction depth_left as [|d IH]; intros pattern text; [by apply yields_ok|].
  cbn [match_recursive]. eapply main_loop_total; [done|by apply iter_from_enumerate..|].
  rewrite length_enumerate. lia.
Qed.

Lemma wildmatch_returns {BS : bstr.Api} {BSL : bstr.Laws} pattern value mode :
  ∃ b, wildmatch pattern value mode = Ok b.
Proof.
  unfold wildmatch.
  destruct (match_recursive_total RECURSION_LIMIT mode pattern value) as (r & -> & _). by eexists.
Qed.

(** ** Properties *)

(** Matching is total: for every pattern, text and mode [wildmatch]
    returns, without a panic and within the bounds of its loops. *)
Theorem wildmatch_total {BS : bstr.Api} {BSL : bstr.Laws} pattern value mode :
  ∃ b, wildmatch pattern value mode = Ok b.
Proof. apply wildmatch_returns. Qed.
Lemma wildmatch_total_witness :
  ∃ b, @wildmatch bstr_impl (bs "a[[:x]") (bs "a[") (mkMode true false) = Ok b.
Proof. apply (@wildmatch_total bstr_impl bstr_impl_laws). Defined.

(** The class names for blanks and white space. *)
Example blank_and_space :
  let tab := [9] in
  @wildmatch bstr_impl (bs "[[:space:]]") tab (mkMode false false) = Ok false ∧
  @wildmatch bstr_impl (bs "[[:blank:]]") [10] (mkMode false false) = Ok true.
Proof. vm_compute. auto. Qed.
