(* ===== verification/Glob.v ===== *)
(** * Glob patterns

    Models [gix-glob/src/parse.rs], [pattern.rs] and the path handling of
    [search/pattern.rs]: parsing a pattern of an ignore or attributes file,
    matching paths with shortcuts for simple patterns, printing a pattern, and
    making a path relative to the directory of a pattern file. *)

From S2P Require Import Prelude External Wildmatch.

(** ** [pattern.rs]: data *)

(** The flags of [pattern::Mode]. *)
Record PMode := mkPMode {
  NO_SUB_DIR : bool;
  ENDS_WITH : bool;
  MUST_BE_DIR : bool;
  NEGATIVE : bool;
  ABSOLUTE : bool }.
Record Pattern := mkPattern {
  text : bytes;
  pmode : PMode;
  first_wildcard_pos : option nat }.
Inductive Case := Sensitive | Fold.
#[global] Instance Case_eq_dec : EqDecision Case.
Proof. solve_decision. Defined.

Section Bstr.
Context {BS : bstr.Api}.

(** ** [parse.rs] *)

Definition find_wildcard (pat : bytes) : option nat := bstr.find_byteset pat GLOB_CHARACTERS.

(** [pattern] behind the handling of [!], from the test for blank patterns
    on. *)
Definition parse_body (negative : bool) (pat : bytes) : option (bytes * PMode * option nat) :=
  if forallb is_ascii_whitespace pat then None
  else
    let '(absolute, pat) :=
      if bool_decide (head pat = Some (ch "/")) then (true, tail pat) else (false, pat) in
    let '(must_be_dir, pat) :=
      if bool_decide (list.last pat = Some (ch "/"))
      then (true, take (length pat - 1) pat) else (false, pat) in
    let no_sub_dir := negb (mem (ch "/") pat) in
    let ends_with :=
      bool_decide (head pat = Some (ch "*")) &&
      bool_decide (find_wildcard (tail pat) = None) in
    let pos_of_first_wildcard := find_wildcard pat in
    Some (pat, mkPMode no_sub_dir ends_with must_be_dir negative absolute,
          pos_of_first_wildcard).

Definition parse (pat : bytes) (may_alter : bool) : option (bytes * PMode * option nat) :=
  if bool_decide (pat = []) then None
  else
    let '(negative, pat) :=
      if may_alter then
        if bool_decide (head pat = Some (ch "!")) then (true, tail pat)
        else if bool_decide (head pat = Some (ch "\")) then
          let second := pat !! 1%nat in
          if bool_decide (second = Some (ch "!")) || bool_decide (second = Some (ch "#"))
          then (false, tail pat) else (false, pat)
        else (false, pat)
      else (false, pat) in
    parse_body negative pat.

(** ** [pattern.rs]: operations *)

Definition from_bytes (t : bytes) : option Pattern :=
  (λ '(t, m, w), mkPattern t m w) <$> parse t true.
Definition from_bytes_without_negation (t : bytes) : option Pattern :=
  (λ '(t, m, w), mkPattern t m w) <$> parse t false.

Definition is_negative (p : Pattern) : bool := NEGATIVE (pmode p).

(** [matches]; the slices of [text] are in range for patterns made by
    [parse]. *)
Definition matches (p : Pattern) (value : bytes) (mode : Mode) : res Empty_set bool :=
  match first_wildcard_pos p with
  | Some pos =>
      if ENDS_WITH (pmode p) &&
         (negb (no_match_slash_literal mode) || negb (mem (ch "/") value)) then
        text ← slice_from (text p) (pos + 1);
        if ignore_case mode then
          if (length text <=? length value)%nat then
            rest ← slice_from value (length value - length text);
            Ok (eq_ignore_ascii_case text rest)
          else Ok false
        else Ok (ends_with value text)
      else
        prefix ← slice_to (text p) pos;
        let starts :=
          if ignore_case mode then
            match get_to value pos with
            | Some value => eq_ignore_ascii_case value prefix
            | None => false
            end
          else starts_with value prefix in
        if negb starts then Ok false else wildmatch (text p) value mode
  | None =>
      if ignore_case mode then Ok (eq_ignore_ascii_case (text p) value)
      else Ok (bool_decide (text p = value))
  end.

Definition matches_repo_relative_path (p : Pattern) (path : bytes)
    (basename_start_pos : option nat) (is_dir : option bool) (case : Case) (mode : Mode)
  : res Empty_set bool :=
  let is_dir := match is_dir with Some b => b | None => false end in
  if negb is_dir && MUST_BE_DIR (pmode p) then Ok false
  else
    let flags :=
      mkMode (no_match_slash_literal mode)
        (ignore_case mode || match case with Fold => true | Sensitive => false end) in
    if NO_SUB_DIR (pmode p) && negb (ABSOLUTE (pmode p)) then
      basename ← slice_from path (match basename_start_pos with Some b => b | None => 0%nat end);
      matches p basename flags
    else matches p path flags.

(** [fmt::Display] *)
Definition display (p : Pattern) : bytes :=
  (if NEGATIVE (pmode p) then bs "!" else []) ++
  (if ABSOLUTE (pmode p) then bs "/" else []) ++
  text p ++
  (if MUST_BE_DIR (pmode p) then bs "/" else []).

(** ** [search/pattern.rs]: paths relative to a base *)

(** [pos - base.len()] wraps in the release profile. *)
Definition strip_base_handle_recompute_basename_pos (base relative_path : bytes)
    (basename_pos : option nat) (case : Case) : option (bytes * option nat) :=
  rest ←
    match case with
    | Sensitive =>
        if starts_with relative_path base then Some (drop (length base) relative_path) else None
    | Fold =>
        rela_dir ← get_to relative_path (length base);
        if negb (eq_ignore_ascii_case rela_dir base) then None
        else get_from relative_path (length base)
    end;
  Some (rest,
    pos ← basename_pos;
    let pos := Z.to_nat (wrap 64 (Z.of_nat pos - Z.of_nat (length base))) in
    if bool_decide (pos ≠ 0%nat) then Some pos else None).

(** [List::strip_base_handle_recompute_basename_pos] for a list with [base]. *)
Definition list_strip_base (base : option bytes) (relative_path : bytes)
    (basename_pos : option nat) (case : Case) : option (bytes * option nat) :=
  match base with
  | Some base => strip_base_handle_recompute_basename_pos base relative_path basename_pos case
  | None => Some (relative_path, basename_pos)
  end.

End Bstr.

(** ** Lemmas: literal patterns *)

Definition literal (c : Z) : Prop := mem c GLOB_CHARACTERS = false.
Abbreviation lc mode := (fmap (M := list) (possibly_lowercase mode)).

Lemma literal_cases c : literal c → c ≠ STAR ∧ c ≠ BACKSLASH ∧ c ≠ ch "?" ∧ c ≠ BRACKET_OPEN.
Proof. intros H. split_and!; intros ->; discriminate H. Qed.
Lemma literal_lowercase mode c : literal c → literal (possibly_lowercase mode c).
Proof.
  intros H. unfold possibly_lowercase. destruct (ignore_case mode); [|done].
  unfold to_ascii_lowercase. destruct (is_ascii_uppercase c) eqn:E; [|done].
  unfold is_ascii_uppercase, between in E. bool_simpl. unfold literal, mem. simpl.
  rewrite !(proj2 (Z.eqb_neq (c + 32) _)) by lia. done.
Qed.
Lemma lowercase_slash mode c : possibly_lowercase mode c = SLASH ↔ c = SLASH.
Proof.
  unfold possibly_lowercase. destruct (ignore_case mode); [|done].
  unfold to_ascii_lowercase, is_ascii_uppercase, between, SLASH.
  case_match; bool_simpl; lia.
Qed.

(** How a literal pattern matches. *)
Fixpoint lit (p t : list Z) : Result :=
  match p, t with
  | [], [] => Match
  | [], _ :: _ => NoMatch
  | _ :: _, [] => AbortAll
  | x :: p, y :: t => if x =? y then lit p t else NoMatch
  end.
Lemma lit_match p t : lit p t = Match ↔ p = t.
Proof.
  revert t. induction p as [|x p IH]; intros [|y t]; simpl; try done.
  destruct (Z.eqb_spec x y) as [->|]; [rewrite IH; naive_solver|naive_solver].
Qed.
(** The text is used up only when it is shorter. *)
Lemma lit_abort p t : lit p t = AbortAll → (length t < length p)%nat.
Proof.
  revert t. induction p as [|x p IH]; intros [|y t]; simpl; try done; [lia|].
  destruct (x =? y); [|done]. intros H%IH. lia.
Qed.
Lemma lit_results p t : lit p t = Match ∨ lit p t = NoMatch ∨ lit p t = AbortAll.
Proof.
  revert t. induction p as [|x p IH]; intros [|y t]; simpl; auto. destruct (x =? y); auto.
Qed.

Section Literal.
Context {BS : bstr.Api}.
Context (rec : bytes → bytes → res Empty_set Result).

Lemma main_loop_literal_step fuel mode pattern text i c p j x t :
  literal c →
  main_loop rec (S fuel) mode pattern text ((i, c) :: p) ((j, x) :: t) =
  if c =? x then main_loop rec fuel mode pattern text p t else Ok NoMatch.
Proof.
  intros Hc. destruct (literal_cases c Hc) as (H1 & H2 & H3 & H4). cbn [main_loop].
  rewrite (proj2 (Z.eqb_neq c BACKSLASH)), (proj2 (Z.eqb_neq c (ch "?"))),
    (proj2 (Z.eqb_neq c STAR)), (proj2 (Z.eqb_neq c BRACKET_OPEN)) by done.
  by destruct (c =? x).
Qed.
Lemma main_loop_literal_end fuel mode pattern text i c p :
  literal c → main_loop rec (S fuel) mode pattern text ((i, c) :: p) [] = Ok AbortAll.
Proof.
  intros Hc. destruct (literal_cases c Hc) as (H1 & _). cbn [main_loop].
  by rewrite (proj2 (Z.eqb_neq c STAR)).
Qed.

Lemma main_loop_literal fuel mode pattern text p t :
  Forall literal (snd <$> p) → (length t < fuel)%nat →
  main_loop rec fuel mode pattern text p t = Ok (lit (snd <$> p) (snd <$> t)).
Proof.
  revert p t. induction fuel as [|fuel IH]; intros p t Hp Hf; [lia|].
  destruct p as [|[i c] p]; [by destruct t as [|[] t]|]. rewrite fmap_cons in *.
  apply Forall_cons in Hp as [Hc Hp]. cbn [snd] in *.
  destruct t as [|[j x] t]; [by apply main_loop_literal_end|].
  rewrite main_loop_literal_step by done. rewrite fmap_cons. cbn [lit snd].
  destruct (c =? x); [|done]. apply IH; [done|]. simpl in Hf. lia.
Qed.

Lemma main_loop_prefix fuel mode pattern text p1 p2 t :
  Forall literal (snd <$> p1) → main_loop rec fuel mode pattern text (p1 ++ p2) t = Ok Match →
  ∃ k, snd <$> t = (snd <$> p1) ++ k.
Proof.
  revert fuel t. induction p1 as [|[i c] p1 IH]; intros fuel t Hp H; [by eexists|].
  rewrite fmap_cons in *. apply Forall_cons in Hp as [Hc Hp]. cbn [snd app] in *.
  destruct fuel as [|fuel]; [done|].
  destruct t as [|[j x] t]; [by rewrite main_loop_literal_end in H|].
  rewrite main_loop_literal_step in H by done. destruct (Z.eqb_spec c x) as [->|]; [|done].
  destruct (IH fuel t Hp H) as [k Hk]. exists k. rewrite fmap_cons, Hk. done.
Qed.

End Literal.

Lemma snd_enumerate mode d : snd <$> enumerate mode d = lc mode d.
Proof. unfold enumerate. apply snd_zip. rewrite length_seq, length_fmap. done. Qed.
Lemma enumerate_app mode a b :
  ∃ p1 p2, enumerate mode (a ++ b) = p1 ++ p2 ∧ snd <$> p1 = lc mode a.
Proof.
  exists (take (length a) (enumerate mode (a ++ b))), (drop (length a) (enumerate mode (a ++ b))).
  rewrite take_drop. split; [done|]. rewrite fmap_take, snd_enumerate, fmap_app.
  by rewrite take_app_length' by (by rewrite length_fmap).
Qed.

Lemma match_recursive_literal {BS : bstr.Api} d mode pattern t :
  Forall literal pattern → match_recursive (S d) mode pattern t = Ok (lit (lc mode pattern) (lc mode t)).
Proof.
  intros Hp. cbn [match_recursive]. rewrite main_loop_literal, !snd_enumerate; [done| |].
  - rewrite snd_enumerate. apply Forall_fmap. eapply Forall_impl; [exact Hp|].
    intros c. apply literal_lowercase.
  - rewrite length_enumerate. lia.
Qed.

(** ** Lemmas: a star before a literal *)

Lemma ends_with_cons y s l : ends_with (y :: s) l = true ↔ y :: s = l ∨ ends_with s l = true.
Proof.
  rewrite !ends_with_spec. split.
  - intros [[|z k] Hk]; [by left|]. injection Hk as <- ->. eauto.
  - intros [<-|[k ->]]; [by exists []|by exists (y :: k)].
Qed.
Lemma ends_with_skip j s c l :
  Forall (λ x, x ≠ c) (take j s) → ends_with (drop j s) (c :: l) = ends_with s (c :: l).
Proof.
  revert s. induction j as [|j IH]; intros s Hs; [done|]. destruct s as [|y s]; [done|].
  apply Forall_cons in Hs as [Hy Hs]. simpl. rewrite (IH s Hs). apply eq_true_iff_eq.
  rewrite ends_with_cons. naive_solver.
Qed.
Lemma ends_with_short s l : (length s < length l)%nat → ends_with s l = false.
Proof. intros H. unfold ends_with. by rewrite (proj2 (Nat.leb_gt _ _)). Qed.

Lemma star_skip_find ms c i x t i' x' t' :
  star_skip ms c i x t = (i', x', t') →
  ms = true ∨ Forall (λ y, y ≠ SLASH) (x :: (snd <$> t)) →
  ∃ j, (i', x') :: t' = drop j ((i, x) :: t) ∧
    Forall (λ y, y ≠ c) (take j (x :: (snd <$> t))) ∧ (x' = c ∨ (x' ≠ c ∧ t' = [])).
Proof.
  revert i x. induction t as [|[i1 x1] t IH]; intros i x H Hs.
  all: assert (Hc : (negb ms && (x =? SLASH)) || (x =? c) = (x =? c)) by
    (destruct Hs as [->|Hs]; [done|]; apply Forall_cons in Hs as [Hx _];
     by rewrite (proj2 (Z.eqb_neq x SLASH)), andb_false_r).
  all: cbn [star_skip] in H; rewrite Hc in H; clear Hc; destruct (Z.eqb_spec x c) as [Heq|Hne].
  1-3: injection H as <- <- <-; exists 0%nat; split_and!; [done|constructor|auto].
  destruct (IH i1 x1 H) as (j & H1 & H2 & H3).
  { destruct Hs as [?|Hs]; [by left|]. apply Forall_cons in Hs as [_ Hs]. by right. }
  exists (S j). split_and!; [done| |done]. by constructor.
Qed.

Section Ends.
Context {BS : bstr.Api}.
Context (mode : Mode) (d : nat) (c0 : Z) (l0 text : bytes) (ms : bool).
Hypothesis Hlit : Forall literal (c0 :: l0).
Hypothesis Hms : ms = true ∨ Forall (λ y, y ≠ SLASH) text.
Let pattern := STAR :: c0 :: l0.
Let rec := match_recursive (S d) mode.
Let goal := lc mode (c0 :: l0).

Lemma star_loop_ends fuel i x t :
  iter_from (length text) i ((i, x) :: t) → x :: (snd <$> t) = lc mode (drop i text) →
  (length t < fuel)%nat →
  ∃ r, star_loop rec fuel pattern text ms 1 (possibly_lowercase mode c0) i x t = Ok r ∧
    (r = Match ↔ ends_with (lc mode (drop i text)) goal = true).
Proof.
  pose proof Hlit as Hlit0. apply Forall_cons in Hlit0 as [Hc0 _].
  pose proof (literal_lowercase mode c0 Hc0) as Hc. unfold literal in Hc.
  revert i x t. induction fuel as [|fuel IH]; intros i x t Hit Hx Hf; [lia|].
  cbn [star_loop]. rewrite Hc. destruct (star_skip _ _ i x t) as [[i' x'] t'] eqn:Hs.
  apply star_skip_find in Hs as (j & Hdrop & Hnot & Hend).
  2:{ destruct Hms as [->|Hn]; [by left|right]. rewrite Hx. apply Forall_fmap, Forall_drop.
      eapply Forall_impl; [exact Hn|]. intros y Hy. unfold compose. by rewrite lowercase_slash. }
  rewrite Hx in Hnot.
  assert (Hj : (j ≤ length ((i, x) :: t))%nat).
  { destruct (Nat.le_gt_cases j (length ((i, x) :: t))); [done|].
    by rewrite drop_ge in Hdrop by lia. }
  pose proof (iter_from_drop _ _ _ j Hit Hj) as Hit'. rewrite <- Hdrop in Hit'.
  assert (Hx' : x' :: (snd <$> t') = lc mode (drop i' text)).
  { apply (f_equal (fmap snd)) in Hdrop. rewrite fmap_drop, !fmap_cons in Hdrop. cbn [snd] in Hdrop.
    rewrite Hx, <- fmap_drop, drop_drop in Hdrop.
    apply iter_from_cons in Hit' as (-> & _ & _). done. }
  assert (Hends : ends_with (lc mode (drop i text)) goal = ends_with (lc mode (drop i' text)) goal).
  { unfold goal. rewrite fmap_cons. rewrite <- (ends_with_skip j) by done.
    rewrite <- fmap_drop, drop_drop.
    apply iter_from_cons in Hit' as (-> & _ & _). done. }
  rewrite Hends. cbn [negb andb]. clear Hends Hnot.
  assert (Hlen : (length t' ≤ length t)%nat).
  { apply (f_equal length) in Hdrop. rewrite length_drop in Hdrop. simpl in Hdrop. lia. }
  destruct Hend as [->|[Hne ->]].
  2:{ rewrite (proj2 (Z.eqb_neq _ _) Hne). cbn [negb]. eexists. split; [done|].
      split; [done|]. rewrite <- Hx'. unfold goal. rewrite !fmap_cons, ends_with_cons.
      intros [[= ? _]|H]; [done|]. simpl in H. discriminate H. }
  rewrite Z.eqb_refl. cbn [negb].
  destruct (yields_slice_from pattern 1) as (sub & -> & ->); [unfold pattern; simpl; lia|].
  rewrite bind_Ok. pose proof (iter_from_cons _ _ _ _ _ Hit') as (Hi' & Hlt & Hit2).
  destruct (yields_slice_from text i') as (rest & -> & ->); [lia|]. rewrite bind_Ok.
  change (rec (drop 1 pattern) (drop i' text))
    with (match_recursive (S d) mode (c0 :: l0) (drop i' text)).
  rewrite match_recursive_literal by done. rewrite bind_Ok. fold goal. cbv zeta.
  destruct (lit goal (lc mode (drop i' text))) eqn:Hl;
    destruct (lit_results goal (lc mode (drop i' text))) as [Hr|[Hr|Hr]]; rewrite Hl in Hr; try done.
  - (* the rest is the literal *)
    apply lit_match in Hl. rewrite bool_decide_true, (bool_decide_true (Match ≠ _)), orb_true_r by done.
    eexists. split; [done|]. split; [|done]. intros _. rewrite <- Hl.
    apply ends_with_spec. by exists [].
  - (* go on behind the byte that was found *)
    rewrite bool_decide_false by naive_solver.
    assert (Hns : negb ms && (possibly_lowercase mode c0 =? SLASH) = false).
    { destruct Hms as [->|Hn]; [done|]. apply andb_false_iff. right. apply Z.eqb_neq.
      rewrite lowercase_slash. intros ->.
      assert (Hin : possibly_lowercase mode SLASH ∈ lc mode (drop i' text)) by (rewrite <- Hx'; left).
      apply list_elem_of_fmap in Hin as (y & Hy & Hin). symmetry in Hy.
      assert (y = SLASH) as -> by (apply (lowercase_slash mode); by rewrite Hy, lowercase_slash).
      rewrite Forall_forall in Hn. apply (Hn SLASH); [|done].
      rewrite <- (take_drop i' text). apply elem_of_app. by right. }
    rewrite Hns. assert (Hneq : lc mode (drop i' text) ≠ goal)
      by (intros Heq; rewrite Heq in Hl; by rewrite (proj2 (lit_match _ _) eq_refl) in Hl).
    destruct t' as [|[i2 x2] t2].
    + eexists. split; [done|]. split; [done|]. rewrite <- Hx' in *.
      rewrite ends_with_cons. intros [?|H]; [done|discriminate H].
    + pose proof (iter_from_cons _ _ _ _ _ Hit2) as (Hi2 & Hlt2 & _). subst i2.
      rewrite Hi' in *. rewrite fmap_cons in Hx'. cbn [snd] in Hx'.
      assert (Hx2 : x2 :: (snd <$> t2) = lc mode (drop (S (i + j)) text)).
      { replace (S (i + j)) with ((i + j) + 1)%nat by lia. rewrite <- drop_drop, fmap_drop, <- Hx'. done. }
      destruct (IH (S (i + j)) x2 t2) as (r & -> & Hr2); [done|done|simpl in Hlen; lia|].
      exists r. split; [done|]. rewrite Hr2, <- Hx2, <- Hx'.
      rewrite (ends_with_cons (possibly_lowercase mode c0)). rewrite <- Hx' in Hneq. tauto.
  - (* the rest is too short *)
    rewrite bool_decide_true, (bool_decide_true (AbortAll ≠ _)), orb_true_r by done.
    eexists. split; [done|]. split; [done|]. apply lit_abort in Hl.
    by rewrite ends_with_short.
Qed.

End Ends.

Lemma lc_ignore mode a b :
  ignore_case mode = true → lc mode a = lc mode b ↔ eq_ignore_ascii_case a b = true.
Proof.
  intros H. unfold eq_ignore_ascii_case. rewrite bool_decide_eq_true.
  assert (Hl : ∀ d, lc mode d = to_ascii_lowercase <$> d).
  { intros d. apply list_fmap_ext. intros i x _. unfold possibly_lowercase. by rewrite H. }
  by rewrite !Hl.
Qed.
Lemma lc_exact mode (a : bytes) : ignore_case mode = false → lc mode a = a.
Proof.
  intros H. rewrite <- (list_fmap_id a) at 2. apply list_fmap_ext. intros i x _.
  unfold possibly_lowercase. by rewrite H.
Qed.

Section StarLiteral.
Context {BS : bstr.Api} {BSL : bstr.Laws}.
Context (d : nat) (mode : Mode).
Let ms := negb (no_match_slash_literal mode).
Let rec := match_recursive (S d) mode.

(** The star may take every byte of the text. *)
Definition unhindered (value : bytes) : Prop :=
  no_match_slash_literal mode = false ∨ Forall (λ y, y ≠ SLASH) value.
(** The first byte of the text, as the main loop sees it. *)
Definition first_byte (value : bytes) : nat * Z :=
  match enumerate mode value with [] => (length value, 0) | x :: _ => x end.
(** A result that says whether the text ends with [l]. *)
Definition tells (l value : bytes) (r : Result) : Prop :=
  r = Match ↔ ends_with (lc mode value) (lc mode l) = true.

Lemma ms_cases value : unhindered value → ms = true ∨ Forall (λ y, y ≠ SLASH) value.
Proof. unfold ms. intros [->|]; auto. Qed.
Lemma first_byte_0 value : fst (first_byte value) = 0%nat.
Proof. unfold first_byte. by destruct value. Qed.

Lemma star_end_tells value :
  unhindered value → ∃ r, star_end value ms 0 = Ok r ∧ tells [] value r.
Proof.
  intros Hu. unfold star_end.
  destruct (yields_slice_from value 0) as (? & -> & ->); [lia|]. rewrite bind_Ok, drop_0.
  assert (Hm : negb ms && mem SLASH value = false).
  { destruct (ms_cases value Hu) as [->|Hn]; [done|].
    apply andb_false_iff. right. apply not_true_iff_false.
    rewrite mem_spec. rewrite Forall_forall in Hn. intros Hin. by apply (Hn _ Hin). }
  rewrite Hm. eexists. split; [done|]. split; [|done]. intros _.
  apply ends_with_spec. exists (lc mode value). by rewrite app_nil_r.
Qed.

(** A star that stops at slashes before a slash. *)
Lemma star_slash_fails c l value :
  unhindered value → negb ms && (possibly_lowercase mode c =? SLASH) = true →
  find_index (Z.eqb SLASH) value = None ∧ ends_with (lc mode value) (lc mode (c :: l)) = false.
Proof.
  intros Hu [Hms Hc]%andb_true_iff. destruct (ms_cases value Hu) as [Hms'|Hn].
  { by rewrite Hms' in Hms. }
  split.
  - apply find_index_None. eapply Forall_impl; [exact Hn|]. intros y Hy. by apply Z.eqb_neq.
  - apply not_true_iff_false. intros [k Hk]%ends_with_spec. rewrite fmap_cons in Hk.
    apply Z.eqb_eq in Hc. rewrite Hc in Hk.
    assert (SLASH ∈ lc mode value) as Hin by (rewrite Hk; set_solver).
    apply list_elem_of_fmap in Hin as (y & Hy & Hin). symmetry in Hy.
    apply lowercase_slash in Hy as ->. rewrite Forall_forall in Hn. by apply (Hn _ Hin).
Qed.

Lemma star_loop_empty c l :
  Forall literal (c :: l) →
  ∃ r, star_loop rec 1 (STAR :: c :: l) [] ms 1 (possibly_lowercase mode c) 0 0 [] = Ok r ∧
    tells (c :: l) [] r.
Proof.
  intros Hl. pose proof Hl as [Hc _]%Forall_cons.
  apply (literal_lowercase mode) in Hc. unfold literal in Hc.
  assert (Htells : ∀ r, r ≠ Match → tells (c :: l) [] r).
  { intros r Hr. split; [done|]. intros H. discriminate H. }
  cbn [star_loop star_skip]. rewrite Hc.
  replace (if (negb ms && (0 =? SLASH)) || (0 =? possibly_lowercase mode c) then _ else _)
    with (0%nat, 0, @nil (nat * Z)) by (by destruct (_ || _)).
  destruct (0 =? possibly_lowercase mode c); cbn [negb andb]; [|eexists; split; [done|by apply Htells]].
  change (slice_from (STAR :: c :: l) 1) with (@Ok Empty_set _ (c :: l)).
  change (slice_from [] 0) with (@Ok Empty_set (list Z) []). rewrite !bind_Ok.
  change (rec (c :: l) []) with (match_recursive (S d) mode (c :: l) []).
  rewrite match_recursive_literal by done. rewrite bind_Ok, fmap_cons. cbn [lit fmap list_fmap].
  rewrite bool_decide_true, (bool_decide_true (AbortAll ≠ _)), orb_true_r by done.
  eexists. split; [done|by apply Htells].
Qed.

Lemma star_loop_tells c l value :
  Forall literal (c :: l) → unhindered value →
  ∃ r, star_loop rec (S (length (tail (enumerate mode value)))) (STAR :: c :: l) value ms 1
    (possibly_lowercase mode c) 0 (snd (first_byte value)) (tail (enumerate mode value)) = Ok r ∧
    tells (c :: l) value r.
Proof.
  intros Hl Hu. destruct value as [|v value]; [by apply star_loop_empty|].
  pose proof (star_loop_ends mode d c l (v :: value) ms Hl (ms_cases _ Hu)
    (S (length (tail (enumerate mode (v :: value))))) 0 (possibly_lowercase mode v)
    (tail (enumerate mode (v :: value)))) as Hends.
  rewrite drop_0 in Hends. apply Hends; [| |lia].
  - apply (iter_from_enumerate mode (v :: value) _ (Nat.le_refl _)).
  - rewrite fmap_cons. f_equal. apply snd_zip. rewrite length_seq, length_fmap. done.
Qed.

Lemma star_tells l value :
  Forall literal l → unhindered value →
  ∃ r, star rec mode (STAR :: l) value 0 (tail (enumerate mode (STAR :: l)))
    (fst (first_byte value)) (snd (first_byte value)) (tail (enumerate mode value)) = Ok (inl r) ∧
    tells l value r.
Proof.
  intros Hl Hu. rewrite first_byte_0. unfold star. fold ms. destruct l as [|c l].
  { destruct (star_end_tells value Hu) as (r & Hr & ?). exists r. simpl tail. cbv iota.
    by rewrite Hr. }
  pose proof Hl as [Hc _]%Forall_cons.
  destruct (literal_cases _ (literal_lowercase mode c Hc)) as (Hns & _).
  assert (Htl : tail (enumerate mode (STAR :: c :: l)) =
    (1%nat, possibly_lowercase mode c) ::
    zip (seq 2 (length l)) (possibly_lowercase mode <$> l)) by done.
  rewrite Htl, (proj2 (Z.eqb_neq _ STAR) Hns). unfold star_next.
  destruct (negb ms && (possibly_lowercase mode c =? SLASH)) eqn:Hsl.
  - destruct (star_slash_fails c l value Hu Hsl) as [Hf He].
    destruct (yields_slice_from value 0) as (? & -> & ->); [lia|]. rewrite bind_Ok, drop_0.
    rewrite bstr.find_byte_spec, Hf. eexists. split; [done|]. unfold tells. by rewrite He.
  - destruct (star_loop_tells c l value Hl Hu) as (r & Hr & ?). exists r. by rewrite Hr.
Qed.

Lemma star_literal l value :
  Forall literal l → unhindered value →
  ∃ r, match_recursive (S (S d)) mode (STAR :: l) value = Ok r ∧ tells l value r.
Proof.
  intros Hl Hu.
  assert (He : enumerate mode (STAR :: l) = (0%nat, STAR) :: tail (enumerate mode (STAR :: l))).
  { unfold enumerate. rewrite fmap_cons. cbn [length seq zip zip_with tail]. f_equal.
    unfold possibly_lowercase. by destruct (ignore_case mode). }
  destruct (star_tells l value Hl Hu) as (r & Hr & ?). exists r. split; [|done].
  change (match_recursive (S (S d)) mode (STAR :: l) value) with
    (main_loop rec (length value + 2) mode (STAR :: l) value
       (enumerate mode (STAR :: l)) (enumerate mode value)).
  rewrite Nat.add_comm, He. cbn [Nat.add main_loop]. unfold first_byte in Hr.
  destruct (enumerate mode value) as [|[i x] t]; cbn [fst snd tail] in Hr; cbn [Z.eqb];
    change (STAR =? BACKSLASH) with false; change (STAR =? ch "?") with false;
    change (STAR =? STAR) with true; cbv iota; cbn [negb]; by rewrite Hr.
Qed.

End StarLiteral.

(** ** Lemmas: parsed patterns *)

(** What [parse] promises about the shortcuts it records. *)
Definition wf_pattern `{!bstr.Api} (p : Pattern) : Prop :=
  first_wildcard_pos p = find_wildcard (text p) ∧
  (ENDS_WITH (pmode p) = true →
   ∃ l, text p = STAR :: l ∧ find_wildcard l = None).

(** What [parse_body] returns, printed, is its argument. *)
Lemma parse_body_spec {BS : bstr.Api} neg pat t m w :
  parse_body neg pat = Some (t, m, w) →
  wf_pattern (mkPattern t m w) ∧ NO_SUB_DIR m = negb (mem (ch "/") t) ∧
  display (mkPattern t m w) = (if neg then bs "!" else []) ++ pat.
Proof.
  unfold parse_body. destruct (forallb _ pat); [done|].
  destruct (if bool_decide (head pat = _) then _ else _) as [ab pat1] eqn:E1.
  destruct (if bool_decide (list.last pat1 = _) then _ else _) as [d pat2] eqn:E2.
  intros [= <- <- <-]. split_and!; [|done|].
  { split; [done|]. cbn [ENDS_WITH pmode text]. intros [Hh Hf]%andb_true_iff.
    apply bool_decide_eq_true in Hh, Hf. destruct pat2 as [|c pat2]; [done|].
    injection Hh as ->. by exists pat2. }
  unfold display. cbn [NEGATIVE ABSOLUTE MUST_BE_DIR pmode text]. f_equal.
  assert (H1 : (if ab then bs "/" else []) ++ pat1 = pat).
  { destruct (bool_decide (head pat = _)) eqn:Hh; injection E1 as <- <-; [|done].
    apply bool_decide_eq_true in Hh. destruct pat; [done|]. by injection Hh as ->. }
  assert (H2 : pat2 ++ (if d then bs "/" else []) = pat1).
  { destruct (bool_decide (list.last pat1 = _)) eqn:Hl; injection E2 as <- <-; [|by rewrite app_nil_r].
    apply bool_decide_eq_true, last_Some in Hl as [k ->].
    rewrite length_app, Nat.add_sub, take_app_length. done. }
  by rewrite H2, H1.
Qed.
Lemma parse_wf {BS : bstr.Api} s may_alter t m w :
  parse s may_alter = Some (t, m, w) →
  wf_pattern (mkPattern t m w) ∧ NO_SUB_DIR m = negb (mem (ch "/") t).
Proof.
  unfold parse. case_bool_decide; [done|]. destruct (if may_alter then _ else _) as [neg pat].
  intros (? & ? & _)%parse_body_spec. done.
Qed.

Lemma find_wildcard_None {BS : bstr.Api} {BSL : bstr.Laws} l :
  find_wildcard l = None ↔ Forall literal l.
Proof. unfold find_wildcard. by rewrite bstr.find_byteset_spec, find_index_None. Qed.

Lemma wildmatch_literal {BS : bstr.Api} {BSL : bstr.Laws} t value mode :
  Forall literal t → wildmatch t value mode = Ok (bool_decide (lc mode t = lc mode value)).
Proof.
  intros Ht. unfold wildmatch, RECURSION_LIMIT. rewrite match_recursive_literal by done.
  rewrite bind_Ok. f_equal. apply bool_decide_ext, lit_match.
Qed.

Lemma wildmatch_prefix {BS : bstr.Api} {BSL : bstr.Laws} a b value mode :
  Forall literal a → wildmatch (a ++ b) value mode = Ok true →
  lc mode (take (length a) value) = lc mode a ∧ (length a ≤ length value)%nat.
Proof.
  intros Ha H. unfold wildmatch in H. apply bind_ok in H as (r & H & Hr).
  injection Hr as Hr. apply bool_decide_eq_true in Hr as ->.
  unfold RECURSION_LIMIT in H.
  change (match_recursive 64 mode (a ++ b) value) with
    (main_loop (match_recursive 63 mode) (length value + 2) mode (a ++ b) value
       (enumerate mode (a ++ b)) (enumerate mode value)) in H.
  destruct (enumerate_app mode a b) as (p1 & p2 & He & Hp1). rewrite He in H.
  apply main_loop_prefix in H as [k Hk].
  2:{ rewrite Hp1. apply Forall_fmap. eapply Forall_impl; [exact Ha|]. intros. by apply literal_lowercase. }
  rewrite snd_enumerate, Hp1 in Hk. split.
  - rewrite fmap_take, Hk. by rewrite take_app_length' by (by rewrite length_fmap).
  - apply (f_equal length) in Hk. rewrite length_app, !length_fmap in Hk. lia.
Qed.

Lemma matches_ends_with {BS : bstr.Api} {BSL : bstr.Laws} l value mode :
  Forall literal l → unhindered mode value →
  wildmatch (STAR :: l) value mode =
  Ok (if ignore_case mode then
        if (length l <=? length value)%nat
        then eq_ignore_ascii_case l (drop (length value - length l) value) else false
      else ends_with value l).
Proof.
  intros Hl Hu. unfold wildmatch, RECURSION_LIMIT.
  destruct (star_literal 62 mode l value Hl Hu) as (r & -> & Hr). unfold tells in Hr.
  rewrite bind_Ok. f_equal.
  apply eq_true_iff_eq. rewrite bool_decide_eq_true, Hr.
  destruct (ignore_case mode) eqn:Ei; [|by rewrite !lc_exact].
  unfold ends_with. rewrite !length_fmap. destruct (_ <=? _)%nat; [|done]. cbn [andb].
  rewrite bool_decide_eq_true, <- fmap_drop, <- (lc_ignore mode) by done. naive_solver.
Qed.

Lemma matches_wf {BS : bstr.Api} {BSL : bstr.Laws} p value mode :
  wf_pattern p → matches p value mode = wildmatch (text p) value mode.
Proof.
  intros [Hpos Hends]. unfold matches. rewrite Hpos.
  destruct (find_wildcard (text p)) as [pos|] eqn:Hw.
  2:{ rewrite wildmatch_literal by (by apply find_wildcard_None).
      destruct (ignore_case mode) eqn:Ei; f_equal; [|by rewrite !lc_exact].
      apply eq_true_iff_eq. by rewrite bool_decide_eq_true, lc_ignore. }
  unfold find_wildcard in Hw. rewrite bstr.find_byteset_spec in Hw.
  destruct (ENDS_WITH (pmode p) && _) eqn:Ee.
  - apply andb_true_iff in Ee as [Ee Hs]. destruct (Hends Ee) as (l & Ht & Hl%find_wildcard_None).
    rewrite Ht in *. injection Hw as <-.
    assert (Hu : unhindered mode value).
    { destruct (no_match_slash_literal mode) eqn:Hn; [right|by left]. cbn [negb orb] in Hs.
      apply Forall_forall. intros y Hy ->. apply negb_true_iff, not_true_iff_false in Hs.
      apply Hs. by apply mem_spec. }
    rewrite matches_ends_with by done.
    change (slice_from (STAR :: l) (0 + 1)) with (@Ok Empty_set _ l). rewrite bind_Ok.
    destruct (ignore_case mode); [|done]. destruct (_ <=? _)%nat; [|done].
    destruct (yields_slice_from value (length value - length l)) as (? & -> & ->); [lia|]. done.
  - apply find_index_split in Hw as (x & Ht & _ & Hlit & Hlen).
    set (a := take pos (text p)) in *. clearbody a. rewrite Ht.
    rewrite slice_to_app by done. rewrite bind_Ok.
    destruct (wildmatch_returns (a ++ x :: drop (S pos) (text p)) value mode) as [[|] Hb].
    2:{ rewrite Hb. cbv zeta. by destruct (negb (if ignore_case mode then _ else _)). }
    destruct (wildmatch_prefix _ _ _ _ Hlit Hb) as [Hpre Hle]. rewrite Hlen in *.
    assert (Hstarts : (if ignore_case mode then
        match get_to value pos with Some v => eq_ignore_ascii_case v a | None => false end
      else starts_with value a) = true); [|by rewrite Hstarts].
    destruct (ignore_case mode) eqn:Ei.
    + unfold get_to. rewrite (proj2 (Nat.leb_le _ _)) by done. by apply (lc_ignore mode).
    + rewrite !lc_exact in Hpre by done. apply starts_with_spec. exists (drop pos value).
      by rewrite <- Hpre, take_drop.
Qed.

(** ** Properties *)

(** C39: The shortcuts are sound.  For a pattern made by [from_bytes] or
    [from_bytes_without_negation], [matches] (comparison of literals, of the
    ending of [*literal], of the part before the first wildcard) gives the
    answer of [wildmatch] on the text of the pattern. *)
Theorem matches_is_wildmatch {BS : bstr.Api} {BSL : bstr.Laws} s p value mode :
  from_bytes s = Some p ∨ from_bytes_without_negation s = Some p →
  matches p value mode = wildmatch (text p) value mode.
Proof.
  unfold from_bytes, from_bytes_without_negation. intros H. apply matches_wf.
  destruct H as [H|H]; apply fmap_Some in H as ([[t m] w] & H & ->); by eapply parse_wf.
Qed.
Lemma matches_is_wildmatch_witness :
  ∃ p, @from_bytes bstr_impl (bs "*.rs") = Some p ∧
    @matches bstr_impl p (bs "lib.rs") (mkMode true false) =
    @wildmatch bstr_impl (bs "*.rs") (bs "lib.rs") (mkMode true false).
Proof.
  eexists. split; [vm_compute; reflexivity|].
  apply (@matches_is_wildmatch bstr_impl bstr_impl_laws (bs "*.rs")). left. vm_compute. reflexivity.
Defined.

(** Matching a path.  A pattern that asks for a directory matches nothing
    else; a pattern without a slash that is not anchored is matched against
    the last component of the path, every other pattern against the whole
    path, with [wildmatch]. *)
Theorem matches_path {BS : bstr.Api} {BSL : bstr.Laws} s p dir base is_dir case mode :
  from_bytes s = Some p → ch "/" ∉ base →
  dir = [] ∨ list.last dir = Some (ch "/") →
  matches_repo_relative_path p (dir ++ base)
    (if bool_decide (dir = []) then None else Some (length dir)) (Some is_dir) case mode =
  if negb is_dir && MUST_BE_DIR (pmode p) then Ok false
  else wildmatch (text p)
    (if negb (mem (ch "/") (text p)) && negb (ABSOLUTE (pmode p)) then base else dir ++ base)
    (mkMode (no_match_slash_literal mode) (ignore_case mode || bool_decide (case = Fold))).
Proof.
  intros Hp Hb Hd. unfold matches_repo_relative_path. destruct (negb is_dir && _); [done|].
  apply fmap_Some in Hp as ([[t m] w] & Hp & ->). pose proof (parse_wf _ _ _ _ _ Hp) as [Hwf Hsub].
  cbn [pmode text]. rewrite Hsub.
  assert (Hcase : match case with Sensitive => false | Fold => true end = bool_decide (case = Fold))
    by (by destruct case).
  rewrite Hcase. destruct (negb _ && _); [|by rewrite matches_wf].
  assert (Hsl : slice_from (dir ++ base) (match (if bool_decide (dir = []) then None
    else Some (length dir)) with Some b => b | None => 0%nat end) = @Ok Empty_set _ base).
  { destruct (decide (dir = [])) as [->|Hn]; [apply (slice_from_app [] base)|].
    rewrite bool_decide_false by done. apply slice_from_app. }
  rewrite Hsl, bind_Ok. by rewrite matches_wf.
Qed.
Lemma matches_path_witness :
  ∃ p, @from_bytes bstr_impl (bs "*.o") = Some p ∧
    @matches_repo_relative_path bstr_impl p (bs "a/b.o") (Some 2%nat) (Some false) Sensitive
      (mkMode true false) =
    @wildmatch bstr_impl (bs "*.o") (bs "b.o") (mkMode true false).
Proof.
  eexists. assert (E : @from_bytes bstr_impl (bs "*.o") =
    Some (mkPattern (bs "*.o") (mkPMode true true false false false) (Some 0%nat)))
    by (vm_compute; reflexivity).
  split; [exact E|].
  apply (@matches_path bstr_impl bstr_impl_laws (bs "*.o") _ (bs "a/") (bs "b.o") false Sensitive
    (mkMode true false) E); [|by right].
  intros H. apply mem_spec in H. discriminate H.
Defined.

(** Printing a pattern gives back what was parsed, except for the
    backslash that protects a leading [!] or [#]. *)
Theorem pattern_display {BS : bstr.Api} s p :
  from_bytes s = Some p →
  display p = s ∨
  ∃ c rest, (c = ch "!" ∨ c = ch "#") ∧ s = ch "\" :: c :: rest ∧ display p = c :: rest.
Proof.
  intros Hp. apply fmap_Some in Hp as ([[t m] w] & Hp & ->). revert Hp. unfold parse.
  case_bool_decide as Hne; [done|]. cbv iota.
  destruct (if bool_decide (head s = Some (ch "!")) then _ else _) as [neg pat] eqn:E.
  intros (_ & _ & ->)%parse_body_spec.
  destruct (bool_decide (head s = Some (ch "!"))) eqn:Hh.
  { apply bool_decide_eq_true in Hh. injection E as <- <-. left.
    destruct s; [done|]. by injection Hh as ->. }
  destruct (bool_decide (head s = Some (ch "\"))) eqn:Hb; [|injection E as <- <-; by left].
  apply bool_decide_eq_true in Hb.
  destruct (bool_decide (s !! 1%nat = _) || _) eqn:E2; injection E as <- <-; [|by left].
  right. destruct s as [|x [|c s]]; [done|done|]. injection Hb as ->.
  apply orb_true_iff in E2. rewrite !bool_decide_eq_true in E2. cbn [lookup list_lookup] in E2.
  exists c, s. split_and!; [naive_solver|done|done].
Qed.
Lemma pattern_display_witness :
  ∃ p, @from_bytes bstr_impl (bs "!/target/") = Some p ∧
    (display p = bs "!/target/" ∨
     ∃ c rest, (c = ch "!" ∨ c = ch "#") ∧ bs "!/target/" = ch "\" :: c :: rest ∧
       display p = c :: rest).
Proof.
  eexists. split; [vm_compute; reflexivity|].
  apply (@pattern_display bstr_impl (bs "!/target/")). vm_compute. reflexivity.
Defined.

(** *** Paths relative to a base *)

Lemma rfind_index_app {A} (f : A → bool) a b :
  bstr.rfind_index f (a ++ b) =
  match bstr.rfind_index f b with
  | Some i => Some (length a + i)%nat
  | None => bstr.rfind_index f a
  end.
Proof.
  induction a as [|x a IH]; [simpl; by destruct (bstr.rfind_index f b)|]. simpl. rewrite IH.
  by destruct (bstr.rfind_index f b).
Qed.
Lemma rfind_index_last {A} (f : A → bool) a x : f x = true → bstr.rfind_index f (a ++ [x]) = Some (length a).
Proof. intros Hx. rewrite rfind_index_app. simpl. rewrite Hx. f_equal. lia. Qed.

(** Equality of a directory prefix under the case rule. *)
Definition same_dir (case : Case) (a b : bytes) : Prop :=
  match case with Sensitive => a = b | Fold => eq_ignore_ascii_case a b = true end.

Lemma same_dir_last case a b :
  same_dir case a b → list.last b = Some (ch "/") → length a = length b ∧ list.last a = Some (ch "/").
Proof.
  destruct case; simpl; [by intros ->|]. intros H%bool_decide_eq_true Hl.
  pose proof (f_equal length H) as Hlen. rewrite !length_fmap in Hlen. split; [done|].
  apply (f_equal list.last) in H. rewrite !fmap_last, Hl in H. simpl in H.
  destruct (list.last a) as [x|]; [|done]. simpl in H. injection H as H.
  pose proof (lowercase_slash (mkMode false true) x) as Hs. unfold possibly_lowercase in Hs.
  simpl in Hs. f_equal. by apply Hs.
Qed.

(** Stripping the base of a pattern list.  For a base that ends with a
    slash, a path below it (up to case if asked for) is returned without it,
    together with the position of the last component in what is left; other
    paths are refused. *)
Theorem strip_base_correct {BS : bstr.Api} {BSL : bstr.Laws} base path case :
  list.last base = Some (ch "/") → Z.of_nat (length path) < 2 ^ 63 →
  match strip_base_handle_recompute_basename_pos base path
          (S <$> bstr.rfind_byte path (ch "/")) case with
  | Some (rest, pos) =>
      ∃ dir, path = dir ++ rest ∧ same_dir case dir base ∧
        pos = S <$> bstr.rfind_byte rest (ch "/")
  | None => ∀ dir rest, path = dir ++ rest → ¬ same_dir case dir base
  end.
Proof.
  intros Hl Hlen. unfold strip_base_handle_recompute_basename_pos.
  set (stripped := match case with Sensitive => _ | Fold => _ end).
  assert (Hs : match stripped with
    | Some rest => ∃ dir, path = dir ++ rest ∧ same_dir case dir base
    | None => ∀ dir rest, path = dir ++ rest → ¬ same_dir case dir base end).
  { unfold stripped. destruct case; simpl.
    - destruct (starts_with path base) eqn:E.
      + apply starts_with_spec in E as [k ->]. rewrite drop_app_length. eauto.
      + intros dir rest -> ->. by rewrite (proj2 (starts_with_spec _ _)) in E by eauto.
    - unfold get_to, get_from. destruct (Nat.leb_spec (length base) (length path)); simpl.
      + destruct (eq_ignore_ascii_case _ base) eqn:E; simpl.
        * exists (take (length base) path). by rewrite take_drop.
        * intros dir rest -> Hd. pose proof Hd as Hd'. apply (same_dir_last Fold) in Hd' as [Hd' _]; [|done].
          by rewrite <- Hd', take_app_length, Hd in E.
      + intros dir rest -> Hd. apply (same_dir_last Fold) in Hd as [Hd _]; [|done].
        rewrite length_app in *. lia. }
  clearbody stripped. destruct stripped as [rest|]; [|done]. destruct Hs as (dir & -> & Hd).
  simpl. exists dir. split_and!; [done..|].
  destruct (same_dir_last case dir base Hd Hl) as [Hdl Hdlast].
  rewrite !bstr.rfind_byte_spec, rfind_index_app. apply last_Some in Hdlast as [k Hk].
  rewrite length_app in Hlen. rewrite <- Hdl.
  destruct (bstr.rfind_index (Z.eqb (ch "/")) rest) as [i|] eqn:Er; simpl.
  - replace (Z.of_nat (S (length dir + i)) - Z.of_nat (length dir)) with (Z.of_nat (S i)) by lia.
    assert (Hi : (i < length rest)%nat).
    { clear -Er. revert i Er. induction rest as [|x l IH]; intros i; simpl; [done|].
      destruct (bstr.rfind_index _ l) as [j|]; [|case_match; intros [= <-]; lia].
      intros [= <-]. specialize (IH j eq_refl). lia. }
    rewrite wrap_small, Nat2Z.id by lia. by rewrite bool_decide_true.
  - rewrite Hk, rfind_index_last by done. simpl. rewrite length_app. simpl.
    replace (Z.of_nat (S (length k)) - Z.of_nat (length k + 1)) with 0 by lia.
    by rewrite wrap_small by lia.
Qed.
Lemma strip_base_correct_witness :
  ∃ rest pos, @strip_base_handle_recompute_basename_pos (bs "a/b/") (bs "a/b/c/d") (Some 6%nat)
      Sensitive = Some (rest, pos) ∧ pos = Some 2%nat.
Proof.
  pose proof (@strip_base_correct bstr_impl bstr_impl_laws (bs "a/b/") (bs "a/b/c/d") Sensitive
    eq_refl ltac:(vm_compute; reflexivity)) as H.
  assert (E : strip_base_handle_recompute_basename_pos (bs "a/b/") (bs "a/b/c/d")
    (S <$> @bstr.rfind_byte bstr_impl (bs "a/b/c/d") (ch "/")) Sensitive = Some (bs "c/d", Some 2%nat))
    by (vm_compute; reflexivity).
  rewrite E in H. destruct H as (dir & _ & _ & H). eexists _, _. split; [exact E|reflexivity].
Defined.
