(* ===== verification/Chunk.v ===== *)
(** * Chunk files

    Models [gix-chunk/src]: the table of contents of files made of named
    chunks (multi-pack indices, commit-graphs), reading it ([file/decode.rs]),
    looking chunks up ([file/index.rs], [range] in [lib.rs]) and writing it
    ([file/write.rs]).  Offsets are [u64]; [usize] has 64 bits. *)

From S2P Require Import Prelude.

(** ** [file/mod.rs] and [file/index.rs] *)

(** [Id] is an array of four bytes. *)
Definition SENTINEL : bytes := [0; 0; 0; 0].
Record Entry := mkEntry { kind : bytes; start : Z; stop : Z }.
Record Index := mkIndex { will_write : bool; chunks : list Entry }.

Definition ENTRY_SIZE : nat := 4 + 8.
Definition size_for_entries (num_entries : nat) : nat := ENTRY_SIZE * (num_entries + 1).

(** [range::into_usize]: the identity on a 64-bit platform. *)
Definition into_usize (start stop : Z) : option (nat * nat) :=
  if (start <? 2 ^ 64) && (stop <? 2 ^ 64) then Some (Z.to_nat start, Z.to_nat stop) else None.

Inductive by_kind_error := NotFound (kind : bytes) | FileTooLarge.

Definition offset_by_id (self : Index) (k : bytes) : res by_kind_error (Z * Z) :=
  ok_or (option_map (λ c, (start c, stop c))
           (List.find (λ c, bool_decide (kind c = k)) (chunks self)))
    (NotFound k).

(** [usize_offset_by_id] panics when the conversion fails. *)
Definition usize_offset_by_id (self : Index) (k : bytes) : res by_kind_error (nat * nat) :=
  match List.find (λ c, bool_decide (kind c = k)) (chunks self) with
  | Some c => expect (into_usize (start c) (stop c))
  | None => Err (NotFound k)
  end.
Definition validated_usize_offset_by_id {T} (self : Index) (k : bytes)
    (validate : nat * nat → T) : res by_kind_error T :=
  validate <$> usize_offset_by_id self k.

Definition data_by_id (self : Index) (data : bytes) (k : bytes) : res by_kind_error bytes :=
  '(a, b) ← offset_by_id self k;
  '(a, b) ← ok_or (into_usize a b) FileTooLarge;
  slice data a b.

Definition highest_offset (self : Index) : res Empty_set Z :=
  stop <$> expect (list.last (chunks self)).

(** ** [file/decode.rs] *)

Inductive Error :=
| EarlySentinelValue
| MissingSentinelValue (actual : bytes)
| ChunkSizeOutOfBounds (offset file_length : Z)
| NonIncrementalChunkOffsets
| DuplicateChunk (kind : bytes)
| TocTooSmall (actual expected : nat)
| Empty.

Definition to_kind (data : bytes) : res Error bytes := slice_to data 4.
Definition be_u64 (data : bytes) : res Error Z := d ← slice_to data 8; Ok (be_val d).

(** The loop over the table of contents; [n] entries are left. *)
Fixpoint toc_loop (n : nat) (data_len : Z) (toc_entry : bytes) (chunks : list Entry)
  : res Error (bytes * list Entry) :=
  match n with
  | O => Ok (toc_entry, chunks)
  | S n =>
      k ← slice_to toc_entry 4;
      offset ← slice_from toc_entry 4;
      k ← to_kind k;
      if bool_decide (k = SENTINEL) then Err EarlySentinelValue
      else if existsb (λ c, bool_decide (kind c = k)) chunks then Err (DuplicateChunk k)
      else
        offset ← be_u64 offset;
        if data_len <? offset then Err (ChunkSizeOutOfBounds offset data_len)
        else
          toc_entry ← slice_from toc_entry ENTRY_SIZE;
          next ← slice_from toc_entry 4;
          next_offset ← be_u64 next;
          if data_len <? next_offset then Err (ChunkSizeOutOfBounds next_offset data_len)
          else if next_offset <=? offset then Err NonIncrementalChunkOffsets
          else toc_loop n data_len toc_entry (chunks ++ [mkEntry k offset next_offset])
  end.

Definition from_bytes (data : bytes) (toc_offset num_chunks : nat) : res Error Index :=
  if (num_chunks =? 0)%nat then Err Empty
  else
    let data_len := Z.of_nat (length data) in
    toc_entry ← slice_from data toc_offset;
    let expected_min_size := ((num_chunks + 1) * ENTRY_SIZE)%nat in
    if (length toc_entry <? expected_min_size)%nat
    then Err (TocTooSmall (length toc_entry) expected_min_size)
    else
      '(toc_entry, chunks) ← toc_loop num_chunks data_len toc_entry [];
      sentinel ← slice_to toc_entry 4;
      sentinel ← to_kind sentinel;
      if bool_decide (sentinel ≠ SENTINEL) then Err (MissingSentinelValue sentinel)
      else Ok (mkIndex false chunks).

(** ** [file/write.rs] *)

Definition for_writing : Index := mkIndex true [].

Definition plan_chunk (self : Index) (chunk : bytes) (exact_size_on_disk : Z)
  : res Empty_set Index :=
  _ ← assert_ (will_write self);
  _ ← assert_ (negb (existsb (λ e, bool_decide (kind e = chunk)) (chunks self)));
  Ok (mkIndex (will_write self) (chunks self ++ [mkEntry chunk 0 exact_size_on_disk])).

(** [Iterator::sum] on [u64] wraps in the release profile. *)
Definition planned_storage_size (self : Index) : res Empty_set Z :=
  _ ← assert_ (will_write self);
  Ok (foldl (λ s e, wrap 64 (s + stop e)) 0 (chunks self)).

Record Chunk := mkChunk {
  chunks_to_write : list Entry;
  inner : bytes;
  next : option Entry;
  written_bytes : Z }.

(** The table of contents written by [into_write]. *)
Fixpoint write_toc (chunks : list Entry) (current_offset : Z) (out : bytes) : bytes * Z :=
  match chunks with
  | [] => (out, current_offset)
  | entry :: chunks =>
      let out := out ++ kind entry in
      let out := out ++ be_bytes 8 current_offset in
      write_toc chunks (wrap 64 (current_offset + stop entry)) out
  end.

Definition into_write (self : Index) (out : bytes) (current_offset : nat)
  : res Empty_set Chunk :=
  _ ← assert_ (will_write self);
  let current_offset :=
    Z.of_nat (current_offset + size_for_entries (length (chunks self))) in
  let '(out, current_offset) := write_toc (chunks self) current_offset out in
  let out := out ++ be_bytes 4 0 in
  let out := out ++ be_bytes 8 current_offset in
  Ok (mkChunk (chunks self) out None 0).

(** [io::Write::write] to the chunk that is being written. *)
Definition chunk_write (c : Chunk) (buf : bytes) : Chunk :=
  mkChunk (chunks_to_write c) (inner c ++ buf) (next c)
    (written_bytes c + Z.of_nat (length buf)).

Definition next_chunk (c : Chunk) : res Empty_set (Chunk * option bytes) :=
  _ ← match next c with
      | Some entry => assert_ (stop entry =? written_bytes c)
      | None => Ok tt
      end;
  Ok (mkChunk (tail (chunks_to_write c)) (inner c) (head (chunks_to_write c)) 0,
      kind <$> head (chunks_to_write c)).

(** ** Specification *)

(** The chunks of a file: names and contents. *)
Definition contents : Type := list (bytes * bytes).

(** A client: it plans its chunks, and writes them when [next_chunk] asks for
    them. *)
Fixpoint plan (self : Index) (cs : contents) : res Empty_set Index :=
  match cs with
  | [] => Ok self
  | (k, d) :: cs => self ← plan_chunk self k (Z.of_nat (length d)); plan self cs
  end.
Fixpoint fill (c : Chunk) (cs : contents) : res Empty_set bytes :=
  '(c, id) ← next_chunk c;
  match id, cs with
  | None, _ => Ok (inner c)
  | Some k, (k', d) :: cs => if bool_decide (k = k') then fill (chunk_write c d) cs else Panic
  | Some _, [] => Panic
  end.
Definition write_file (out : bytes) (cs : contents) : res Empty_set bytes :=
  index ← plan for_writing cs;
  c ← into_write index out (length out);
  fill c cs.

(** Files that can be written: at least one chunk, names of four bytes that
    are not the sentinel and pairwise different, and chunks that are not
    empty. *)
Definition wf_contents (cs : contents) : Prop :=
  cs ≠ [] ∧ NoDup (fst <$> cs) ∧
  Forall (λ '(k, d), length k = 4%nat ∧ k ≠ SENTINEL ∧ d ≠ []) cs.

(** The entries of the chunks from offset [o] on, and their table. *)
Fixpoint entries (o : Z) (cs : contents) : list Entry :=
  match cs with
  | [] => []
  | (k, d) :: cs =>
      mkEntry k o (o + Z.of_nat (length d)) :: entries (o + Z.of_nat (length d)) cs
  end.
Fixpoint toc (o : Z) (cs : contents) : bytes :=
  match cs with
  | [] => SENTINEL ++ be_bytes 8 o
  | (k, d) :: cs => k ++ be_bytes 8 o ++ toc (o + Z.of_nat (length d)) cs
  end.
Definition body (cs : contents) : bytes := concat (snd <$> cs).
Definition layout (out : bytes) (cs : contents) : bytes :=
  out ++ toc (Z.of_nat (length out + size_for_entries (length cs))) cs ++ body cs.

(** ** Lemmas *)

Definition planned (cs : contents) : list Entry :=
  (λ '(k, d), mkEntry k 0 (Z.of_nat (length d))) <$> cs.
Lemma kinds_planned cs : kind <$> planned cs = fst <$> cs.
Proof. induction cs as [|[k d] cs IH]; [done|]. rewrite !fmap_cons. cbn [fst]. by rewrite <- IH. Qed.

Lemma existsb_kind (es : list Entry) k :
  existsb (λ e, bool_decide (kind e = k)) es = false ↔ k ∉ (kind <$> es).
Proof.
  rewrite <- not_true_iff_false, existsb_exists. setoid_rewrite <- list_elem_of_In.
  setoid_rewrite bool_decide_eq_true. rewrite list_elem_of_fmap. naive_solver.
Qed.

Lemma NoDup_shift (ks : list bytes) k l : NoDup (ks ++ k :: l) → NoDup ((ks ++ [k]) ++ l) ∧ k ∉ ks.
Proof.
  intros H. rewrite <- app_assoc. split; [done|]. apply NoDup_app in H as (_ & H & _).
  intros Hk. apply (H k Hk). left.
Qed.

Lemma plan_spec cs es :
  NoDup ((kind <$> es) ++ (fst <$> cs)) →
  plan (mkIndex true es) cs = Ok (mkIndex true (es ++ planned cs)).
Proof.
  revert es. induction cs as [|[k d] cs IH]; intros es Hnd; [by rewrite app_nil_r|].
  cbn [plan]. unfold plan_chunk. cbn [will_write chunks assert_]. rewrite !bind_Ok.
  rewrite fmap_cons in Hnd. cbn [fst] in Hnd. apply NoDup_shift in Hnd as [Hnd Hk].
  rewrite (proj2 (existsb_kind es k)) by done. cbn [negb assert_]. rewrite !bind_Ok, IH.
  - by rewrite <- app_assoc.
  - by rewrite fmap_app.
Qed.

Lemma length_body cs : length (body cs) = sum_list (length ∘ snd <$> cs).
Proof.
  unfold body. induction cs as [|[k d] cs IH]; [done|].
  rewrite !fmap_cons. simpl. by rewrite length_app, IH.
Qed.
Lemma body_cons k d cs : body ((k, d) :: cs) = d ++ body cs.
Proof. done. Qed.

Lemma write_toc_spec cs o out :
  0 ≤ o → o + Z.of_nat (length (body cs)) < 2 ^ 64 →
  let '(out', o') := write_toc (planned cs) o out in
  (out' ++ be_bytes 4 0) ++ be_bytes 8 o' = out ++ toc o cs.
Proof.
  revert o out. induction cs as [|[k d] cs IH]; intros o out Ho Hs.
  { cbn [planned fmap list_fmap write_toc toc]. by rewrite <- app_assoc. }
  change (planned ((k, d) :: cs)) with (mkEntry k 0 (Z.of_nat (length d)) :: planned cs).
  cbn [write_toc toc kind stop].
  rewrite body_cons, length_app in Hs. rewrite wrap_small by lia.
  specialize (IH (o + Z.of_nat (length d)) ((out ++ k) ++ be_bytes 8 o)).
  destruct (write_toc (planned cs) _ _) as [out' o'].
  rewrite IH by lia. by rewrite <- !app_assoc.
Qed.

Lemma fill_spec cs out nx w :
  match nx with Some e => stop e = w | None => True end →
  fill (mkChunk (planned cs) out nx w) cs = Ok (out ++ body cs).
Proof.
  revert out nx w. induction cs as [|[k d] cs IH]; intros out nx w Hnx; cbn [fill];
    unfold next_chunk; cbn [next written_bytes chunks_to_write inner].
  all: assert (Ha : (match nx with Some entry => assert_ (stop entry =? w) | None => Ok tt end) =
    @Ok Empty_set unit tt) by (destruct nx; [rewrite Hnx, Z.eqb_refl|]; done).
  all: rewrite Ha, bind_Ok; simpl; rewrite ?bind_Ok.
  { by rewrite app_nil_r. }
  rewrite bool_decide_true by done. unfold chunk_write. cbn [chunks_to_write inner next written_bytes].
  fold (planned cs). rewrite IH; [by rewrite <- app_assoc, body_cons|simpl; lia].
Qed.

Lemma length_toc o cs :
  Forall (λ '(k, d), length k = 4%nat) cs → length (toc o cs) = size_for_entries (length cs).
Proof.
  revert o. induction cs as [|[k d] cs IH]; intros o Hk; cbn [toc].
  { rewrite length_app, length_be_bytes. done. }
  apply Forall_cons in Hk as [Hk Hcs]. rewrite !length_app, length_be_bytes, IH, Hk by done.
  unfold size_for_entries, ENTRY_SIZE. simpl. lia.
Qed.

(** The table starts with a name and the offset. *)
Lemma toc_head o cs :
  Forall (λ '(k, d), length k = 4%nat) cs →
  ∃ k r, toc o cs = k ++ be_bytes 8 o ++ r ∧ length k = 4%nat.
Proof.
  intros Hk. destruct cs as [|[k d] cs]; cbn [toc].
  - exists SENTINEL, []. by rewrite app_nil_r.
  - apply Forall_cons in Hk as [Hk _]. eauto.
Qed.

Lemma be_u64_app o r : u64 o → be_u64 (be_bytes 8 o ++ r) = Ok o.
Proof.
  intros Ho. unfold be_u64. rewrite slice_to_app by (by rewrite length_be_bytes).
  by rewrite bind_Ok, be_val_be_bytes by (simpl; lia).
Qed.

Lemma to_kind_4 k : length k = 4%nat → to_kind k = Ok k.
Proof.
  intros Hk. unfold to_kind. pose proof (@slice_to_app Error _ k [] 4) as H.
  rewrite app_nil_r in H. by apply H.
Qed.

Lemma toc_loop_spec cs o L rest acc :
  0 ≤ o → o + Z.of_nat (length (body cs)) ≤ L → L < 2 ^ 64 →
  NoDup ((kind <$> acc) ++ (fst <$> cs)) →
  Forall (λ '(k, d), length k = 4%nat ∧ k ≠ SENTINEL ∧ d ≠ []) cs →
  ∃ o', toc_loop (length cs) L (toc o cs ++ rest) acc = Ok (toc o' [] ++ rest, acc ++ entries o cs).
Proof.
  revert o acc. induction cs as [|[k d] cs IH]; intros o acc Ho Hs HL Hnd Hwf.
  { exists o. simpl. by rewrite app_nil_r. }
  apply Forall_cons in Hwf as [(Hk & Hne & Hd) Hwf]. cbn [length toc_loop toc].
  rewrite body_cons, length_app in Hs. rewrite <- !app_assoc.
  rewrite fmap_cons in Hnd. cbn [fst] in Hnd.
  assert (Hlen : (0 < length d)%nat) by (destruct d; [done|simpl; lia]).
  assert (Hks : Forall (λ '(k, d), length k = 4%nat) cs)
    by (eapply Forall_impl; [exact Hwf|]; by intros [? ?] (? & _)).
  rewrite slice_to_app by done. rewrite bind_Ok, (slice_from_at k _ 4), bind_Ok by done.
  rewrite to_kind_4, bind_Ok by done.
  rewrite bool_decide_false by done. apply NoDup_shift in Hnd as [Hnd Hk0].
  rewrite (proj2 (existsb_kind acc k)) by done.
  rewrite be_u64_app by lia. rewrite bind_Ok, (proj2 (Z.ltb_ge _ _)) by lia.
  rewrite (app_assoc k), slice_from_at, bind_Ok by (rewrite length_app, length_be_bytes, Hk; done).
  set (o' := o + Z.of_nat (length d)).
  destruct (toc_head o' cs Hks) as (k' & r & Ht & Hk'). 
  assert (Hnext : slice_from (toc o' cs ++ rest) 4 = @Ok Error _ (be_bytes 8 o' ++ r ++ rest)).
  { rewrite Ht, <- !app_assoc. apply slice_from_at. lia. }
  rewrite Hnext, bind_Ok, be_u64_app, bind_Ok by (unfold o'; lia).
  rewrite (proj2 (Z.ltb_ge _ _)), (proj2 (Z.leb_gt _ _)) by (unfold o'; lia).
  destruct (IH o' (acc ++ [mkEntry k o o'])) as [o'' ->]; [unfold o'; lia|unfold o'; lia|done| |done|].
  - by rewrite fmap_app.
  - exists o''. by rewrite <- app_assoc.
Qed.

Lemma wf_kinds cs :
  wf_contents cs → Forall (λ '(k, d), length k = 4%nat) cs.
Proof.
  intros (_ & _ & H). eapply Forall_impl; [exact H|]. by intros [? ?] (? & _).
Qed.

Lemma length_layout out cs :
  wf_contents cs →
  length (layout out cs) = (length out + size_for_entries (length cs) + length (body cs))%nat.
Proof.
  intros Hwf. unfold layout. rewrite !length_app, length_toc by (by apply wf_kinds). lia.
Qed.

(** Reading a file back, with other data behind the chunks. *)
Lemma from_bytes_layout out cs tr :
  wf_contents cs → Z.of_nat (length (layout out cs ++ tr)) < 2 ^ 64 →
  from_bytes (layout out cs ++ tr) (length out) (length cs) =
  Ok (mkIndex false (entries (Z.of_nat (length out + size_for_entries (length cs))) cs)).
Proof.
  intros Hwf Hlen. pose proof (length_layout out cs Hwf) as Hll. rewrite length_app in Hlen.
  destruct Hwf as (Hne & Hnd & Hall) eqn:Hw. clear Hw.
  assert (Hks : Forall (λ '(k, d), length k = 4%nat) cs) by (by apply wf_kinds).
  unfold from_bytes. destruct (Nat.eqb_spec (length cs) 0) as [H0|_].
  { by apply nil_length_inv in H0. }
  rewrite length_app. unfold layout at 2. rewrite <- !app_assoc, slice_from_app, bind_Ok.
  rewrite length_app, length_toc by done.
  rewrite (proj2 (Nat.ltb_ge _ _)) by (unfold size_for_entries, ENTRY_SIZE; lia).
  edestruct (toc_loop_spec cs (Z.of_nat (length out + size_for_entries (length cs)))
    (Z.of_nat (length (layout out cs) + length tr)) (body cs ++ tr) []) as [o' ->];
    [lia|lia|lia|done|done|].
  rewrite bind_Ok. cbn [toc]. cbv beta iota. rewrite <- app_assoc.
  rewrite (slice_to_app SENTINEL), bind_Ok, to_kind_4, bind_Ok by done.
  by rewrite bool_decide_false by naive_solver.
Qed.

(** The entry of a chunk and where its content is. *)
Lemma find_entry cs k d o :
  NoDup (fst <$> cs) → (k, d) ∈ cs →
  ∃ cs1 cs2, cs = cs1 ++ (k, d) :: cs2 ∧
    List.find (λ c, bool_decide (kind c = k)) (entries o cs) =
      Some (mkEntry k (o + Z.of_nat (length (body cs1)))
              (o + Z.of_nat (length (body cs1)) + Z.of_nat (length d))).
Proof.
  revert o. induction cs as [|[k0 d0] cs IH]; intros o Hnd Hin; [by apply elem_of_nil in Hin|].
  rewrite fmap_cons in Hnd. apply NoDup_cons in Hnd as [Hk0 Hnd]. cbn [fst] in Hk0.
  cbn [entries List.find kind]. destruct (decide (k0 = k)) as [->|Hne].
  - apply elem_of_cons in Hin as [[= ->]|Hin].
    2:{ destruct Hk0. by apply (list_elem_of_fmap_2 fst _ (k, d)). }
    exists [], cs. rewrite bool_decide_true by done. split; [done|]. simpl. do 2 f_equal; lia.
  - apply elem_of_cons in Hin as [[= ? ?]|Hin]; [done|].
    destruct (IH (o + Z.of_nat (length d0)) Hnd Hin) as (cs1 & cs2 & -> & Hf).
    exists ((k0, d0) :: cs1), cs2. split; [done|]. rewrite bool_decide_false by done.
    rewrite Hf, body_cons, length_app. do 2 f_equal; lia.
Qed.
Lemma find_no_entry cs k o :
  k ∉ (fst <$> cs) → List.find (λ c, bool_decide (kind c = k)) (entries o cs) = None.
Proof.
  revert o. induction cs as [|[k0 d0] cs IH]; intros o Hk; [done|].
  rewrite fmap_cons in Hk. apply not_elem_of_cons in Hk as [Hne Hk]. cbn [entries List.find kind].
  rewrite bool_decide_false by (simpl in Hne; congruence). by apply IH.
Qed.

Lemma into_write_planned out cs :
  wf_contents cs → Z.of_nat (length (layout out cs)) < 2 ^ 64 →
  into_write (mkIndex true (planned cs)) out (length out) =
  Ok (mkChunk (planned cs)
        (out ++ toc (Z.of_nat (length out + size_for_entries (length cs))) cs) None 0).
Proof.
  intros Hwf Hlen. pose proof (length_layout out cs Hwf) as Hll.
  unfold into_write. cbn [will_write chunks app assert_].
  rewrite bind_Ok. assert (Hlp : length (planned cs) = length cs) by apply length_fmap.
  rewrite Hlp.
  pose proof (write_toc_spec cs (Z.of_nat (length out + size_for_entries (length cs))) out) as Ht.
  destruct (write_toc (planned cs) _ out) as [out' o']. by rewrite Ht by lia.
Qed.

Lemma write_file_layout out cs :
  wf_contents cs → Z.of_nat (length (layout out cs)) < 2 ^ 64 →
  write_file out cs = Ok (layout out cs).
Proof.
  intros Hwf Hlen. pose proof Hwf as (_ & Hnd & _). unfold write_file, for_writing.
  rewrite (plan_spec cs []), bind_Ok by done. cbn [app].
  rewrite into_write_planned, bind_Ok, fill_spec by done.
  unfold layout. by rewrite <- app_assoc.
Qed.

(** *** The index of a written file *)

Section Written.
Context (out : bytes) (cs : contents) (tr : bytes).
Hypothesis Hwf : wf_contents cs.
Hypothesis Hlen : Z.of_nat (length (layout out cs ++ tr)) < 2 ^ 64.

Definition written_index : Index :=
  mkIndex false (entries (Z.of_nat (length out + size_for_entries (length cs))) cs).

(** Where a chunk is: its range, and the file around it. *)
Lemma written_chunk k d :
  (k, d) ∈ cs →
  ∃ pre post, layout out cs ++ tr = pre ++ d ++ post ∧
    offset_by_id written_index k =
      Ok (Z.of_nat (length pre), Z.of_nat (length pre + length d)) ∧
    usize_offset_by_id written_index k = Ok (length pre, length pre + length d)%nat.
Proof.
  intros Hin. pose proof (length_layout out cs Hwf) as Hll. rewrite length_app in Hlen.
  pose proof Hwf as (_ & Hnd & _). unfold usize_offset_by_id, offset_by_id. cbn [chunks written_index].
  destruct (find_entry cs k d (Z.of_nat (length out + size_for_entries (length cs))) Hnd Hin)
    as (cs1 & cs2 & Hcs & ->). cbn [option_map ok_or start stop].
  assert (Hb : body cs = body cs1 ++ d ++ body cs2).
  { rewrite Hcs. unfold body. rewrite fmap_app, concat_app, fmap_cons. done. }
  rewrite Hb, !length_app in Hll. unfold into_usize.
  rewrite (proj2 (Z.ltb_lt _ _)), (proj2 (Z.ltb_lt _ _)) by lia. cbn [andb expect].
  eexists ((out ++ toc _ cs) ++ body cs1), (body cs2 ++ tr).
  rewrite !length_app, length_toc by (by apply wf_kinds). split_and!.
  - unfold layout. rewrite Hb, <- !app_assoc. done.
  - do 2 f_equal; lia.
  - do 2 f_equal; lia.
Qed.

Lemma data_by_id_written k d :
  (k, d) ∈ cs → data_by_id written_index (layout out cs ++ tr) k = Ok d.
Proof.
  intros Hin. destruct (written_chunk k d Hin) as (pre & post & Hf & Ho & _).
  unfold data_by_id. rewrite Ho, bind_Ok. rewrite Hf, !length_app in Hlen. unfold into_usize.
  rewrite (proj2 (Z.ltb_lt _ _)), (proj2 (Z.ltb_lt _ _)) by lia. cbn [andb ok_or].
  rewrite bind_Ok, Hf. apply slice_app; lia.
Qed.
Lemma no_chunk_written k : k ∉ (fst <$> cs) → offset_by_id written_index k = Err (NotFound k) ∧
  usize_offset_by_id written_index k = Err (NotFound k).
Proof.
  intros Hk. unfold offset_by_id, usize_offset_by_id. cbn [chunks written_index].
  by rewrite find_no_entry.
Qed.

Lemma last_entry cs' o :
  cs' ≠ [] → stop <$> list.last (entries o cs') = Some (o + Z.of_nat (length (body cs'))).
Proof.
  clear. revert o. induction cs' as [|[k d] [|c cs'] IH]; intros o Hne; [done| |].
  - rewrite body_cons. change (body []) with (@nil Z). by rewrite app_nil_r.
  - cbn [entries]. destruct c as [k' d']. cbn [entries] in *. rewrite last_cons_cons.
    rewrite IH by done. rewrite (body_cons k d), length_app. f_equal. lia.
Qed.
Lemma highest_offset_written : highest_offset written_index = Ok (Z.of_nat (length (layout out cs))).
Proof.
  clear Hlen. rewrite length_layout by done. unfold highest_offset. cbn [chunks written_index].
  pose proof (last_entry cs (Z.of_nat (length out + size_for_entries (length cs))) (proj1 Hwf)) as Hl.
  destruct (list.last _) as [e|]; [|done]. simpl in *. injection Hl as ->. f_equal. lia.
Qed.

End Written.

(** An index into a file of [L] bytes. *)
Definition good_chunks (L : Z) (cs : list Entry) : Prop :=
  NoDup (kind <$> cs) ∧ Forall (λ c, 0 ≤ start c < stop c ∧ stop c ≤ L) cs.

Lemma be_u64_drop d n :
  is_bytes d → (n + 8 ≤ length d)%nat → ∃ v, be_u64 (drop n d) = Ok v ∧ 0 ≤ v.
Proof.
  intros Hb Hn. unfold be_u64. rewrite slice_to_le by (rewrite length_drop; lia). rewrite bind_Ok.
  eexists. split; [done|]. apply be_val_bound. by apply Forall_take, Forall_drop.
Qed.

Lemma toc_loop_safe n L te acc :
  is_bytes te → ((n + 1) * ENTRY_SIZE ≤ length te)%nat → good_chunks L acc →
  match toc_loop n L te acc with
  | Ok (te', cs) =>
      (ENTRY_SIZE ≤ length te')%nat ∧ good_chunks L cs ∧ length cs = (length acc + n)%nat
  | Err _ => True
  | Panic => False
  end.
Proof.
  unfold ENTRY_SIZE. revert te acc. induction n as [|n IH]; intros te acc Hb Hlen Hg.
  { simpl in *. split_and!; [lia|done|lia]. }
  cbn [toc_loop]. unfold ENTRY_SIZE.
  rewrite slice_to_le, bind_Ok, (slice_from_le te 4), bind_Ok by lia.
  rewrite to_kind_4, bind_Ok by (rewrite length_take; lia). case_bool_decide; [done|].
  destruct (existsb _ acc) eqn:He; [done|]. apply existsb_kind in He.
  destruct (be_u64_drop te 4 Hb) as (o & -> & Ho); [lia|]. rewrite bind_Ok.
  destruct (Z.ltb_spec L o); [done|]. rewrite slice_from_le, bind_Ok by lia.
  rewrite slice_from_le, bind_Ok by (rewrite length_drop; lia).
  destruct (be_u64_drop (drop (4 + 8) te) 4) as (o' & -> & Ho');
    [by apply Forall_drop|rewrite length_drop; lia|]. rewrite bind_Ok.
  destruct (Z.ltb_spec L o'); [done|]. destruct (Z.leb_spec o' o); [done|].
  assert (Hg' : good_chunks L (acc ++ [mkEntry (take 4 te) o o'])).
  { destruct Hg as [Hnd Hf].
    split; [|apply Forall_app; split; [done|apply Forall_singleton; simpl; lia]].
    rewrite fmap_app. apply NoDup_app. split_and!; [done| |apply NoDup_singleton].
    by intros x Hx ->%list_elem_of_singleton. }
  specialize (IH (drop (4 + 8) te) _ (Forall_drop _ _ _ Hb) ltac:(rewrite length_drop; lia) Hg').
  destruct (toc_loop n L _ _) as [[te' cs]| |]; [|done..].
  destruct IH as (Hte & Hcs & Hl). rewrite length_app in Hl. simpl in Hl. split_and!; [done|done|lia].
Qed.

Lemma find_kind (cs : list Entry) c :
  NoDup (kind <$> cs) → c ∈ cs → List.find (λ e, bool_decide (kind e = kind c)) cs = Some c.
Proof.
  induction cs as [|e cs IH]; [by intros _ ?%elem_of_nil|]. rewrite fmap_cons.
  intros [He Hnd]%NoDup_cons [->|Hin]%elem_of_cons; simpl; [by rewrite bool_decide_true|].
  rewrite bool_decide_false; [by apply IH|]. intros Hk. apply He. rewrite Hk.
  by apply list_elem_of_fmap_2.
Qed.
(** What [from_bytes] accepts. *)
Lemma from_bytes_good data toc_offset num_chunks :
  (toc_offset ≤ length data)%nat → is_bytes data →
  match from_bytes data toc_offset num_chunks with
  | Ok index => length (chunks index) = num_chunks ∧ good_chunks (Z.of_nat (length data)) (chunks index)
  | Err _ => True
  | Panic => False
  end.
Proof.
  intros Ht Hb. unfold from_bytes. destruct (num_chunks =? 0)%nat; [done|].
  rewrite slice_from_le, bind_Ok by done.
  destruct (Nat.ltb_spec (length (drop toc_offset data)) ((num_chunks + 1) * ENTRY_SIZE)); [done|].
  pose proof (toc_loop_safe num_chunks (Z.of_nat (length data)) (drop toc_offset data) []) as Hs.
  destruct (toc_loop num_chunks _ _ []) as [[te cs]| |];
    [|done|by apply Hs; [apply Forall_drop|lia|by split; [apply NoDup_nil_2|]]].
  destruct Hs as (H1 & Hg & H3); [by apply Forall_drop|lia|by split; [apply NoDup_nil_2|]|].
  unfold ENTRY_SIZE in H1. rewrite bind_Ok, slice_to_le, bind_Ok by lia.
  rewrite to_kind_4, bind_Ok by (rewrite length_take; lia). by case_bool_decide.
Qed.
(** Ranges of chunks. *)
Lemma usize_offset_good index k L : good_chunks L (chunks index) → L < 2 ^ 64 →
  match usize_offset_by_id index k with
  | Ok (a, b) => (a < b)%nat ∧ Z.of_nat b ≤ L ∧ ∃ c, c ∈ chunks index ∧ kind c = k
  | Err _ => k ∉ kind <$> chunks index
  | Panic => False
  end.
Proof.
  intros [_ Hf] HL. unfold usize_offset_by_id. destruct (List.find _ (chunks index)) as [c|] eqn:Hc.
  - apply find_some in Hc as [Hc Hk]. apply bool_decide_eq_true in Hk. apply list_elem_of_In in Hc.
    rewrite Forall_forall in Hf. destruct (Hf c Hc) as [Hs1 Hs2]. unfold into_usize.
    rewrite !(proj2 (Z.ltb_lt _ _)) by lia. cbn [andb expect]. split_and!; [lia|lia|eauto].
  - intros (c & -> & Hin)%list_elem_of_fmap. apply list_elem_of_In in Hin.
    pose proof (find_none _ _ Hc c Hin) as Hn. cbn in Hn. by rewrite bool_decide_eq_true_2 in Hn.
Qed.


(** ** Properties *)

(** Chunk files round-trip.  When a client plans its chunks, writes the
    table of contents behind [out] and then every chunk it is asked for, no
    assertion fails; the file that results is accepted by [from_bytes], which
    finds every chunk with exactly its content and no other chunk. *)
Theorem chunk_file_roundtrip out cs :
  wf_contents cs → Z.of_nat (length (layout out cs)) < 2 ^ 64 →
  ∃ file index, write_file out cs = Ok file ∧
    from_bytes file (length out) (length cs) = Ok index ∧
    (∀ k d, (k, d) ∈ cs → data_by_id index file k = Ok d) ∧
    (∀ k, k ∉ (fst <$> cs) → data_by_id index file k = Err (NotFound k)) ∧
    highest_offset index = Ok (Z.of_nat (length file)).
Proof.
  intros Hwf Hlen. exists (layout out cs), (written_index out cs).
  rewrite <- (app_nil_r (layout out cs)) in Hlen.
  pose proof (data_by_id_written out cs [] Hwf Hlen) as Hd.
  pose proof (from_bytes_layout out cs [] Hwf Hlen) as Hf. rewrite app_nil_r in *.
  split_and!; [by apply write_file_layout|exact Hf|exact Hd| |].
  - intros k Hk. unfold data_by_id. by rewrite (proj1 (no_chunk_written out cs k Hk)).
  - by apply highest_offset_written.
Qed.
Definition sample_chunks : contents := [(bs "OIDF", [1; 2]); (bs "OIDL", [3])].
Lemma chunk_file_roundtrip_witness :
  ∃ file index, write_file (bs "MIDX") sample_chunks = Ok file ∧
    from_bytes file 4 2 = Ok index ∧ data_by_id index file (bs "OIDL") = Ok [3].
Proof.
  destruct (chunk_file_roundtrip (bs "MIDX") sample_chunks) as (f & i & H1 & H2 & H3 & _).
  - split_and!; [done|by apply (bool_decide_unpack _)|].
    by repeat apply Forall_cons_2; [..|constructor].
  - vm_compute. reflexivity.
  - exists f, i. split_and!; [done|done|]. apply H3. right. left.
Defined.

(** What [from_bytes] accepts is safe to use.  For any file shorter than
    2^64 bytes and any table of contents inside it, it does not panic, and if
    it returns an index then all its chunks lie inside the file, are not
    empty, and have distinct names, so that [data_by_id] returns for each of
    them. *)
Theorem chunk_index_safe data toc_offset num_chunks :
  (toc_offset ≤ length data)%nat → is_bytes data → Z.of_nat (length data) < 2 ^ 64 →
  match from_bytes data toc_offset num_chunks with
  | Ok index =>
      length (chunks index) = num_chunks ∧ NoDup (kind <$> chunks index) ∧
      Forall (λ c, 0 ≤ start c < stop c ∧ stop c ≤ Z.of_nat (length data)) (chunks index) ∧
      ∀ c, c ∈ chunks index → ∃ d, data_by_id index data (kind c) = Ok d ∧
        Z.of_nat (length d) = stop c - start c
  | Err _ => True
  | Panic => False
  end.
Proof.
  intros Ht Hb Hlen. pose proof (from_bytes_good data toc_offset num_chunks Ht Hb) as Hg.
  destruct (from_bytes data toc_offset num_chunks) as [index| |]; [|done|done].
  destruct Hg as [Hl [Hnd Hf]]. split_and!; [done..|].
  intros c Hc. unfold data_by_id, offset_by_id.
  rewrite find_kind by done. cbn [option_map ok_or]. rewrite bind_Ok.
  rewrite Forall_forall in Hf. destruct (Hf c Hc) as [Hs1 Hs2]. unfold into_usize.
  rewrite (proj2 (Z.ltb_lt _ _)), (proj2 (Z.ltb_lt _ _)) by lia. cbn [andb ok_or]. rewrite bind_Ok.
  eexists. split; [apply slice_ok_iff; split_and!; [lia|lia|done]|].
  rewrite length_take, length_drop. lia.
Qed.
Lemma chunk_index_safe_witness :
  match from_bytes [77; 0; 0; 0; 1; 0; 0; 0; 0; 0; 0; 0; 0] 1 1 with
  | Ok _ => False | Err _ => True | Panic => False
  end.
Proof.
  pose proof (chunk_index_safe [77; 0; 0; 0; 1; 0; 0; 0; 0; 0; 0; 0; 0] 1 1) as H.
  destruct (from_bytes _ 1 1) eqn:E; [|done|].
  - vm_compute in E. discriminate E.
  - apply H; [simpl; lia|repeat constructor; lia|vm_compute; reflexivity].
Defined.
