(* ===== verification/Paths.v ===== *)
(** * Paths

    What the modelled code uses of [std::path], for Unix: a path is a string of
    bytes, compared by components. *)

From S2P Require Import Prelude.

Inductive Component := RootDir | CurDir | ParentDir | Normal (name : bytes).

(** [Path::components]: empty components and dots are dropped, except for a
    dot at the start. *)
Fixpoint split_slash (cur p : bytes) : list bytes :=
  match p with
  | [] => [cur]
  | c :: p => if c =? ch "/" then cur :: split_slash [] p else split_slash (cur ++ [c]) p
  end.
Definition component_of (first : bool) (s : bytes) : list Component :=
  if bool_decide (s = []) then []
  else if bool_decide (s = bs ".") then (if first then [CurDir] else [])
  else if bool_decide (s = bs "..") then [ParentDir]
  else [Normal s].
Definition components (p : bytes) : list Component :=
  match split_slash [] p with
  | [] => []
  | s :: l =>
      (if bool_decide (head p = Some (ch "/")) then [RootDir] else component_of true s) ++
      (l ≫= component_of false)
  end.
Definition component_rank (c : Component) : Z :=
  match c with RootDir => 0 | CurDir => 1 | ParentDir => 2 | Normal _ => 3 end.
Definition component_cmp (a b : Component) : comparison :=
  match a, b with
  | Normal a, Normal b => bytes_cmp a b
  | _, _ => component_rank a ?= component_rank b
  end.
Fixpoint components_cmp (a b : list Component) : comparison :=
  match a, b with
  | [], [] => Eq
  | [], _ :: _ => Lt
  | _ :: _, [] => Gt
  | x :: a, y :: b => ord_then (component_cmp x y) (components_cmp a b)
  end.
Definition path_cmp (a b : bytes) : comparison := components_cmp (components a) (components b).
Definition file_name (p : bytes) : option bytes :=
  match list.last (components p) with Some (Normal n) => Some n | _ => None end.

(** [Path::to_str] on Unix: the bytes, if they are UTF-8. *)
Definition continuation (b : Z) : bool := between 128 191 b.
Fixpoint valid_utf8 (s : bytes) : bool :=
  match s with
  | [] => true
  | a :: s1 =>
      if a <? 128 then valid_utf8 s1
      else match s1 with
      | [] => false
      | b :: s2 =>
          if between 194 223 a then continuation b && valid_utf8 s2
          else match s2 with
          | [] => false
          | c :: s3 =>
              if between 224 239 a then
                between (if a =? 224 then 160 else 128) (if a =? 237 then 159 else 191) b
                && continuation c && valid_utf8 s3
              else match s3 with
              | [] => false
              | d :: s4 =>
                  between 240 244 a &&
                  between (if a =? 240 then 144 else 128) (if a =? 244 then 143 else 191) b
                  && continuation c && continuation d && valid_utf8 s4
              end
          end
      end
  end.
Definition to_str (p : bytes) : option bytes := if valid_utf8 p then Some p else None.

Lemma to_str_ascii n : Forall (λ b, 0 ≤ b < 128) n → to_str n = Some n.
Proof.
  intros Hn. unfold to_str. cut (valid_utf8 n = true); [by intros ->|].
  induction Hn as [|b n Hb _ IH]; [done|]. simpl. by rewrite (proj2 (Z.ltb_lt _ _)) by lia.
Qed.
