(* ===== verification/MultiIndex.v ===== *)
(** * Multi-pack index files

    Models [gix-pack/src/multi_index/]: the chunks of the file ([chunk.rs]),
    opening it ([init.rs]), looking objects up in it ([access.rs]) and writing
    it from a set of pack indices ([write.rs]).  The file is a chunk file
    ([Chunk]); the ids are searched with the functions of [OidLookup]; the
    objects come from the pack indices of [PackIndex]. *)

From S2P Require Import Prelude External Hash OidLookup Chunk PackIndex Paths.

(** ** [chunk.rs] *)

Definition NAMES_ID : bytes := bs "PNAM".
Definition FANOUT_ID : bytes := bs "OIDF".
Definition LOOKUP_ID : bytes := bs "OIDL".
Definition OFFSETS_ID : bytes := bs "OOFF".
Definition LARGE_OFFSETS_ID : bytes := bs "LOFF".
Definition CHUNK_ALIGNMENT : Z := 4.
Definition FANOUT_SIZE : nat := 1024.   (* 4 * 256 *)

(** [multi_index::write::Entry]. *)
Record WEntry := mkWEntry { wid : ObjectId; wpack_index : Z; wpack_offset : Z; index_mtime : Z }.

(** *** [index_names] *)

Inductive NamesError := NotOrderedAlphabetically | MissingNullByte | UnknownTrailerBytes.

Section Names.
Context {BS : bstr.Api}.

(** The loop over the packs that are left. *)
Fixpoint index_names_loop (n : nat) (chunk : bytes) (out : list bytes)
  : res NamesError (bytes * list bytes) :=
  match n with
  | O => Ok (chunk, out)
  | S n =>
      null_byte_pos ← ok_or (bstr.find_byte chunk 0) MissingNullByte;
      path ← slice_to chunk null_byte_pos;
      if match list.last out with
         | Some previous => bool_decide (path_cmp previous path ≠ Lt)
         | None => false
         end
      then Err NotOrderedAlphabetically
      else
        chunk ← slice_from chunk (null_byte_pos + 1);
        index_names_loop n chunk (out ++ [path])
  end.
Definition index_names_from_bytes (chunk : bytes) (num_packs : Z)
  : res NamesError (list bytes) :=
  '(chunk, out) ← index_names_loop (Z.to_nat num_packs) chunk [];
  if negb (forallb (λ b, b =? 0) chunk) then Err UnknownTrailerBytes else Ok out.
End Names.

Fixpoint names_count (paths : list bytes) (count : Z) : res Empty_set Z :=
  match paths with
  | [] => Ok count
  | path :: paths =>
      ascii_path ← expect (to_str path);
      _ ← assert_ (forallb (λ b, b <? 128) ascii_path);
      names_count paths (wrap 64 (count + Z.of_nat (length ascii_path + 1)))
  end.
Definition index_names_storage_size (paths : list bytes) : res Empty_set Z :=
  count ← names_count paths 0;
  let needed_alignment := CHUNK_ALIGNMENT - count mod CHUNK_ALIGNMENT in
  Ok (if needed_alignment <? CHUNK_ALIGNMENT then wrap 64 (count + needed_alignment) else count).

Fixpoint names_write (paths : list bytes) (written_bytes : Z) : res Empty_set (bytes * Z) :=
  match paths with
  | [] => Ok ([], written_bytes)
  | path :: paths =>
      path ← expect (to_str path);
      '(out, written_bytes) ←
        names_write paths (wrap 64 (written_bytes + Z.of_nat (length path) + 1));
      Ok (path ++ [0] ++ out, written_bytes)
  end.
Definition index_names_write (paths : list bytes) : res Empty_set bytes :=
  '(out, written_bytes) ← names_write paths 0;
  let needed_alignment := CHUNK_ALIGNMENT - written_bytes mod CHUNK_ALIGNMENT in
  if needed_alignment <? CHUNK_ALIGNMENT then
    pad ← slice_to (replicate 4 0) (Z.to_nat needed_alignment);
    Ok (out ++ pad)
  else Ok out.

(** *** [fanout], [lookup], [offsets] and [large_offsets] *)

Definition fanout_from_bytes {E} (chunk : bytes) : res E (option (list Z)) :=
  if negb (length chunk =? FANOUT_SIZE)%nat then Ok None
  else Some <$> mapM_res read_u32 (chunks_exact 4 chunk).
Definition fanout_write (sorted_entries : list WEntry) : res Empty_set bytes :=
  firsts ← mapM_res (λ e, first_byte (as_slice (wid e))) sorted_entries;
  fan ← fanout firsts;
  Ok (concat (be_bytes 4 <$> fan)).

Definition lookup_storage_size (entries : nat) (object_hash : Kind) : Z :=
  wrap 64 (Z.of_nat entries * Z.of_nat (len_in_bytes object_hash)).
Definition lookup_write (sorted_entries : list WEntry) : bytes :=
  concat ((λ e, as_slice (wid e)) <$> sorted_entries).
Definition lookup_is_valid (offset : nat * nat) (hash : Kind) (num_objects : Z) : bool :=
  Z.of_nat ((offset.2 - offset.1) / len_in_bytes hash) =? num_objects.

Definition offsets_storage_size (entries : nat) : Z := wrap 64 (Z.of_nat entries * (4 + 4)).
Fixpoint offsets_write (sorted_entries : list WEntry) (large_offsets_needed : bool)
    (num_large_offsets : Z) : res Empty_set bytes :=
  match sorted_entries with
  | [] => Ok []
  | entry :: sorted_entries =>
      '(offset, num_large_offsets) ←
        (if large_offsets_needed then
           if LARGE_OFFSET_THRESHOLD <? wpack_offset entry then
             Ok (Z.lor num_large_offsets HIGH_BIT, wrap 32 (num_large_offsets + 1))
           else Ok (wrap 32 (wpack_offset entry), num_large_offsets)
         else
           o ← expect (if wpack_offset entry <? 2 ^ 32 then Some (wpack_offset entry) else None);
           Ok (o, num_large_offsets));
      out ← offsets_write sorted_entries large_offsets_needed num_large_offsets;
      Ok (be_bytes 4 (wpack_index entry) ++ be_bytes 4 offset ++ out)
  end.
(** The division by the number of objects panics when it is zero. *)
Definition offsets_is_valid {E} (offset : nat * nat) (num_objects : Z) : res E bool :=
  let entry_size := 8%nat in
  if num_objects =? 0 then Panic
  else Ok ((offset.2 - offset.1) / Z.to_nat num_objects =? entry_size)%nat.

Fixpoint num_large_loop (entries : list WEntry) (num : nat) (needs : bool) : nat * bool :=
  match entries with
  | [] => (num, needs)
  | entry :: entries =>
      num_large_loop entries
        (if LARGE_OFFSET_THRESHOLD <? wpack_offset entry then S num else num)
        (if 2 ^ 32 - 1 <? wpack_offset entry then true else needs)
  end.
Definition num_large_offsets (entries : list WEntry) : option nat :=
  let '(num, needs) := num_large_loop entries 0 false in
  if needs : bool then Some num else None.
Definition large_offsets_is_valid (offset : nat * nat) : bool :=
  ((offset.2 - offset.1) mod 8 =? 0)%nat.
Fixpoint large_offsets_write (sorted_entries : list WEntry) (num_large_offsets : nat)
  : res Empty_set bytes :=
  match sorted_entries with
  | [] => _ ← assert_ (num_large_offsets =? 0)%nat; Ok []
  | e :: sorted_entries =>
      if LARGE_OFFSET_THRESHOLD <? wpack_offset e then
        num ← expect (match num_large_offsets with O => None | S n => Some n end);
        out ← large_offsets_write sorted_entries num;
        Ok (be_bytes 8 (wpack_offset e) ++ out)
      else large_offsets_write sorted_entries num_large_offsets
  end.
Definition large_offsets_storage_size (large_offsets : nat) : Z :=
  wrap 64 (8 * Z.of_nat large_offsets).

(** ** [write.rs] *)

Definition SIGNATURE : bytes := bs "MIDX".
Definition HEADER_LEN : nat := 12.   (* 4 + 1 + 1 + 1 + 1 + 4 *)

Inductive WriteError := Interrupted | OpenIndex (e : PackIndex.InitError).

Definition kind_as_u8 (k : Kind) : Z := match k with KSha1 => 1 end.
Definition write_header (num_chunks num_indices : Z) (object_hash : Kind) : bytes * nat :=
  (SIGNATURE ++ [1] ++ [kind_as_u8 object_hash] ++ [num_chunks] ++ [0] ++ be_bytes 4 num_indices,
   HEADER_LEN).

(** The order of [entries.sort_by]: by id, then the most recent index, then the
    position of the index. *)
Definition entry_cmp (l r : WEntry) : comparison :=
  ord_then (bytes_cmp (as_slice (wid l)) (as_slice (wid r)))
    (ord_then (CompOpp (index_mtime l ?= index_mtime r)) (wpack_index l ?= wpack_index r)).
Definition path_le (a b : bytes) : Prop := path_cmp a b ≠ Gt.
Definition entry_le (l r : WEntry) : Prop := entry_cmp l r ≠ Gt.
#[global] Instance path_le_dec a b : Decision (path_le a b).
Proof. unfold path_le. apply _. Defined.
#[global] Instance entry_le_dec l r : Decision (entry_le l r).
Proof. unfold entry_le. apply _. Defined.

(** [Vec::dedup_by_key(|e| e.id)]: an entry is dropped if it has the id of the
    last one that was kept. *)
Fixpoint dedup_from (kept : ObjectId) (l : list WEntry) : list WEntry :=
  match l with
  | [] => []
  | e :: l => if bool_decide (wid e = kept) then dedup_from kept l else e :: dedup_from (wid e) l
  end.
Definition dedup_by_id (l : list WEntry) : list WEntry :=
  match l with [] => [] | e :: l => e :: dedup_from (wid e) l end.

Section Write.
(** The digest over the written bytes, the modification times and contents of
    the index files, and whether an interrupt is seen at the [n]-th check. *)
Context (digest : bytes → bytes) (mtime : bytes → Z) (contents : bytes → bytes).
Context (should_interrupt : nat → bool).

(** The entries of all indices; [index_id] is the position of the first of
    [paths] and also counts the checks for interrupts. *)
Fixpoint collect (index_id : nat) (paths : list bytes) (object_hash : Kind)
  : res WriteError (list WEntry) :=
  match paths with
  | [] => Ok []
  | path :: paths =>
      let mtime := mtime path in
      index ← map_err OpenIndex (PackIndex.at_inner (contents path) object_hash);
      es ← lift (PackIndex.iter index);
      if should_interrupt index_id then Err Interrupted
      else
        rest ← collect (S index_id) paths object_hash;
        Ok (((λ e, mkWEntry (PackIndex.oid e) (wrap 32 (Z.of_nat index_id))
                     (PackIndex.pack_offset e) mtime) <$> es) ++ rest)
  end.

(** The content of the chunk that is asked for. *)
Definition write_chunk (names : list bytes) (entries : list WEntry) (num_large : option nat)
    (chunk_to_write : bytes) : res Empty_set bytes :=
  if bool_decide (chunk_to_write = NAMES_ID) then index_names_write names
  else if bool_decide (chunk_to_write = FANOUT_ID) then fanout_write entries
  else if bool_decide (chunk_to_write = LOOKUP_ID) then Ok (lookup_write entries)
  else if bool_decide (chunk_to_write = OFFSETS_ID) then
    offsets_write entries (bool_decide (is_Some num_large)) 0
  else if bool_decide (chunk_to_write = LARGE_OFFSETS_ID) then
    n ← expect num_large; large_offsets_write entries n
  else Panic.

(** [while let Some(chunk_to_write) = chunk_write.next_chunk()]: there are at
    most as many rounds as planned chunks, and a last one. *)
Fixpoint chunk_loop (fuel poll : nat) (names : list bytes) (entries : list WEntry)
    (num_large : option nat) (c : Chunk.Chunk) : res WriteError Chunk.Chunk :=
  match fuel with
  | O => Panic
  | S fuel =>
      '(c, id) ← lift (next_chunk c);
      match id with
      | None => Ok c
      | Some chunk_to_write =>
          d ← lift (write_chunk names entries num_large chunk_to_write);
          if should_interrupt poll then Err Interrupted
          else chunk_loop fuel (S poll) names entries num_large (chunk_write c d)
      end
  end.

(** The planned chunks. *)
Definition plan_chunks (names : list bytes) (entries : list WEntry) (num_large : option nat)
    (object_hash : Kind) : res Empty_set Chunk.Index :=
  names_size ← index_names_storage_size names;
  cf ← plan_chunk for_writing NAMES_ID names_size;
  cf ← plan_chunk cf FANOUT_ID (Z.of_nat FANOUT_SIZE);
  cf ← plan_chunk cf LOOKUP_ID (lookup_storage_size (length entries) object_hash);
  cf ← plan_chunk cf OFFSETS_ID (offsets_storage_size (length entries));
  match num_large with
  | Some n => plan_chunk cf LARGE_OFFSETS_ID (large_offsets_storage_size n)
  | None => Ok cf
  end.

(** The file and its checksum. *)
Definition write_from_index_paths (index_paths : list bytes) (object_hash : Kind)
  : res WriteError (bytes * ObjectId) :=
  let index_paths_sorted := merge_sort path_le index_paths in
  index_filenames_sorted ← lift (mapM_res (λ p, expect (file_name p)) index_paths_sorted);
  entries ← collect 0 index_paths_sorted object_hash;
  let entries := dedup_by_id (merge_sort entry_le entries) in
  let polls := length index_paths_sorted in
  if should_interrupt polls then Err Interrupted
  else
    let num_large := num_large_offsets entries in
    cf ← lift (plan_chunks index_filenames_sorted entries num_large object_hash);
    _ ← lift (planned_storage_size cf);
    num_chunks ← expect (if (length (chunks cf) <? 256)%nat then Some (length (chunks cf)) else None);
    let '(out, bytes_written) :=
      write_header (Z.of_nat num_chunks) (wrap 32 (Z.of_nat (length index_paths_sorted)))
        object_hash in
    chunk_write ← lift (into_write cf out bytes_written);
    c ← chunk_loop (S (length (chunks cf))) (S polls) index_filenames_sorted entries num_large
          chunk_write;
    let out := inner c in
    let multi_index_checksum := digest out in
    Ok (out ++ multi_index_checksum, Sha1 multi_index_checksum).
End Write.

(** ** [init.rs] *)

Inductive MVersion := MV1.
Record MFile := mkMFile {
  mdata : bytes;
  mversion : MVersion;
  mhash_len : nat;
  object_hash : Kind;
  num_indices : Z;
  mnum_objects : Z;
  mfan : list Z;
  index_names : list bytes;
  lookup_ofs : nat;
  offsets_ofs : nat;
  large_offsets_ofs : option nat }.

Inductive MError :=
| Truncated                              (* Corrupt: too short *)
| InvalidSignature                       (* Corrupt: Invalid signature *)
| TrailerSize                            (* Corrupt: trailing checksum *)
| MUnsupportedVersion (version : Z)
| UnsupportedObjectHash (kind : Z)
| ChunkFileDecode (e : Chunk.Error)
| MissingChunk (e : by_kind_error)
| MFileTooLarge (e : by_kind_error)
| MultiPackFanSize
| PackNames (e : NamesError)
| InvalidChunkSize (id : bytes).

(** [chunks.validated_usize_offset_by_id(id, |offset| ..)??]. *)
Definition valid_chunk (chunks : Chunk.Index) (id : bytes) (is_valid : nat * nat → res MError bool)
  : res by_kind_error (res MError (nat * nat)) :=
  validated_usize_offset_by_id chunks id
    (λ offset, b ← is_valid offset; if b : bool then Ok offset else Err (InvalidChunkSize id)).

(** The header: hash kind, number of chunks and number of indices. *)
Definition read_header (data : bytes) : res MError (Kind * Z * Z) :=
  '(signature, data) ← split_at data 4;
  if bool_decide (signature ≠ SIGNATURE) then Err InvalidSignature
  else
    '(version, data) ← split_at data 1;
    version ← idx version 0;
    if negb (version =? 1) then Err (MUnsupportedVersion version)
    else
      '(object_hash, data) ← split_at data 1;
      object_hash ← idx object_hash 0;
      object_hash ← map_err UnsupportedObjectHash (kind_try_from object_hash);
      '(num_chunks, data) ← split_at data 1;
      num_chunks ← idx num_chunks 0;
      '(_, data) ← split_at data 1;
      '(num_indices, _) ← split_at data 4;
      num_indices ← read_u32 num_indices;
      Ok (object_hash, num_chunks, num_indices).

Section Read.
Context {BS : bstr.Api}.

(** [TryFrom<&Path>] on the content of the file. *)
Definition try_from (data : bytes) : res MError MFile :=
  if (length data <? HEADER_LEN + size_for_entries 4 + FANOUT_SIZE + len_in_bytes shortest)%nat
  then Err Truncated
  else
    '(object_hash, num_chunks, num_indices) ← read_header data;
    chunks ← map_err ChunkFileDecode (from_bytes data HEADER_LEN (Z.to_nat num_chunks));
    names ← map_err MFileTooLarge (data_by_id chunks data NAMES_ID);
    names ← map_err PackNames (index_names_from_bytes names num_indices);
    fan ← map_err MFileTooLarge (data_by_id chunks data FANOUT_ID);
    fan ← fanout_from_bytes fan;
    fan ← ok_or fan MultiPackFanSize;
    num_objects ← idx fan 255;
    lookup ← map_err MissingChunk
      (valid_chunk chunks LOOKUP_ID (λ o, Ok (lookup_is_valid o object_hash num_objects)));
    lookup ← lookup;
    offsets ← map_err MissingChunk
      (valid_chunk chunks OFFSETS_ID (λ o, offsets_is_valid o num_objects));
    offsets ← offsets;
    large_offsets ←
      match valid_chunk chunks LARGE_OFFSETS_ID (λ o, Ok (large_offsets_is_valid o)) with
      | Ok r => Some <$> r
      | Err _ => Ok None
      | Panic => Panic
      end;
    checksum_offset ← lift (highest_offset chunks);
    trailer ← slice_from data (Z.to_nat checksum_offset);
    if negb (length trailer =? len_in_bytes object_hash)%nat then Err TrailerSize
    else
      Ok (mkMFile data MV1 (len_in_bytes object_hash) object_hash num_indices num_objects fan
            names lookup.1 offsets.1 (fst <$> large_offsets)).
End Read.

(** ** [access.rs] *)

Record MEntry := mkMEntry { moid : ObjectId; mpack_offset : Z; mpack_index : Z }.

Definition checksum (f : MFile) : res Empty_set ObjectId :=
  d ← slice_from (mdata f) (length (mdata f) - mhash_len f);
  from_bytes_or_panic d.

Definition midx_oid_at_index (f : MFile) (index : Z) : res Empty_set bytes :=
  window (mdata f) (lookup_ofs f + Z.to_nat index * mhash_len f) (mhash_len f).

Definition midx_lookup_prefix (f : MFile) (prefix : Prefix) (candidates : bool) :=
  OidLookup.lookup_prefix (midx_oid_at_index f) prefix candidates (mfan f) (mnum_objects f).
Definition midx_lookup (f : MFile) (id : bytes) : res Empty_set (option Z) :=
  OidLookup.lookup (midx_oid_at_index f) id (mfan f).

Definition pack_id_and_pack_offset_at_index (f : MFile) (index : Z) : res Empty_set (Z * Z) :=
  let start := (offsets_ofs f + Z.to_nat index * 8)%nat in
  w ← window (mdata f) start 4;
  pack_index ← read_u32 w;
  offset ← window (mdata f) (start + 4) 4;
  ofs32 ← read_u32 offset;
  pack_offset ←
    (if Z.land ofs32 HIGH_BIT =? HIGH_BIT then
       match large_offsets_ofs f with
       | Some offsets_64 =>
           w ← window (mdata f) (offsets_64 + Z.to_nat (Z.lxor ofs32 HIGH_BIT) * 8) 8;
           read_u64 w
       | None => Ok ofs32
       end
     else Ok ofs32);
  Ok (pack_index, pack_offset).

Definition midx_iter (f : MFile) : res Empty_set (list MEntry) :=
  mapM_res (λ idx,
    '(pack_index, pack_offset) ← pack_id_and_pack_offset_at_index f (Z.of_nat idx);
    o ← midx_oid_at_index f (Z.of_nat idx);
    oid ← to_owned o;
    Ok (mkMEntry oid pack_offset pack_index)) (seq 0 (Z.to_nat (mnum_objects f))).

(** ** Lemmas *)

(** *** Sorting and removing duplicates *)

Abbreviation oid_of := (λ e : WEntry, as_slice (wid e)).

Lemma wid_eq (a b : ObjectId) : as_slice a = as_slice b → a = b.
Proof. destruct a, b. simpl. by intros ->. Qed.

Lemma entry_le_iff l r :
  entry_le l r ↔
  bytes_lt (oid_of l) (oid_of r) ∨
  wid l = wid r ∧ (index_mtime r < index_mtime l ∨
                   index_mtime l = index_mtime r ∧ wpack_index l ≤ wpack_index r).
Proof.
  unfold entry_le, entry_cmp, bytes_lt.
  destruct (bytes_cmp (oid_of l) (oid_of r)) eqn:E; simpl.
  - apply bytes_cmp_eq, wid_eq in E.
    destruct (Z.compare_spec (index_mtime l) (index_mtime r)); simpl; [|naive_solver lia..].
    rewrite Z.compare_gt_iff. naive_solver lia.
  - split; [by left|done].
  - split; [done|]. intros [?|[Heq _]]; [done|]. rewrite Heq, bytes_cmp_refl in E. done.
Qed.

#[global] Instance entry_le_total : Total entry_le.
Proof.
  intros a b. rewrite !entry_le_iff. unfold bytes_lt.
  destruct (bytes_cmp (oid_of a) (oid_of b)) eqn:E.
  - apply bytes_cmp_eq, wid_eq in E.
    destruct (Z.lt_trichotomy (index_mtime a) (index_mtime b)) as [?|[?|?]];
      destruct (Z.le_ge_cases (wpack_index a) (wpack_index b)); naive_solver lia.
  - auto.
  - apply bytes_cmp_gt in E. auto.
Qed.
#[global] Instance entry_le_trans : Transitive entry_le.
Proof.
  intros a b c. rewrite !entry_le_iff. intros [H1|[H1 H1']] [H2|[H2 H2']].
  - left. by etrans.
  - left. by rewrite <- H2.
  - left. by rewrite H1.
  - right. split; [congruence|lia].
Qed.
Lemma entry_le_ids a b : entry_le a b → oid_of a = oid_of b ∨ bytes_lt (oid_of a) (oid_of b).
Proof. rewrite entry_le_iff. intros [?|[-> _]]; auto. Qed.

(** What is kept: one entry per id, the first in the order. *)
Definition kept_of (l k : list WEntry) : Prop :=
  (∀ e, e ∈ k → e ∈ l ∧ ∀ e', e' ∈ l → wid e' = wid e → entry_le e e').

Lemma dedup_from_spec p l :
  StronglySorted entry_le (p :: l) →
  let k := dedup_from (wid p) l in
  StronglySorted bytes_lt (oid_of <$> k) ∧ Forall (λ e, bytes_lt (oid_of p) (oid_of e)) k ∧
  kept_of l k ∧ ∀ e, e ∈ l → wid e = wid p ∨ ∃ e', e' ∈ k ∧ wid e' = wid e.
Proof.
  revert p. induction l as [|x l IH]; intros p Hs; cbn [dedup_from]; cbv zeta.
  { split_and!; [constructor|constructor|by intros e ?%elem_of_nil|by intros e ?%elem_of_nil]. }
  pose proof Hs as [Hsx Hpx]%StronglySorted_inv. pose proof Hsx as [Hsl Hxl]%StronglySorted_inv.
  apply Forall_cons in Hpx as [Hpx Hpl].
  case_bool_decide as Heq.
  - destruct (IH p) as (H1 & H2 & H3 & H4); [by constructor|]. split_and!; [done|done| |].
    + intros e He. destruct (H3 e He) as [Hin Hmin]. split; [by right|].
      intros e' [->|He']%elem_of_cons Hw; [|by apply Hmin].
      rewrite Forall_forall in H2. specialize (H2 e He). rewrite <- Hw, Heq in H2.
      by apply irreflexivity in H2; [|apply _].
    + intros e [->|He]%elem_of_cons; [by left|by apply H4].
  - destruct (IH x Hsx) as (H1 & H2 & H3 & H4).
    assert (Hlt : bytes_lt (oid_of p) (oid_of x)).
    { destruct (entry_le_ids p x Hpx) as [He%wid_eq|?]; congruence. }
    split_and!.
    + rewrite fmap_cons. constructor; [done|]. apply Forall_fmap, H2.
    + constructor; [done|]. eapply Forall_impl; [exact H2|]. intros e He. by etrans.
    + intros e [->|He]%elem_of_cons.
      * split; [left|]. intros e' [->|He']%elem_of_cons Hw; [by destruct (total entry_le x x)|].
        rewrite Forall_forall in Hxl. by apply Hxl.
      * destruct (H3 e He) as [Hin Hmin]. split; [by right|].
        intros e' [->|He']%elem_of_cons Hw; [|by apply Hmin].
        rewrite Forall_forall in H2. specialize (H2 e He). rewrite <- Hw in H2.
        by apply irreflexivity in H2; [|apply _].
    + intros e [->|He]%elem_of_cons; right; [exists x; split; [left|done]|].
      destruct (H4 e He) as [->|(e' & ? & ?)]; [exists x; split; [left|done]|].
      exists e'. split; [by right|done].
Qed.

Lemma dedup_spec l :
  let k := dedup_by_id (merge_sort entry_le l) in
  StronglySorted bytes_lt (oid_of <$> k) ∧ kept_of l k ∧
  ∀ e, e ∈ l → ∃ e', e' ∈ k ∧ wid e' = wid e.
Proof.
  pose proof (StronglySorted_merge_sort entry_le l) as Hs.
  pose proof (merge_sort_Permutation entry_le l) as Hp.
  assert (Hin : ∀ e, e ∈ l ↔ e ∈ merge_sort entry_le l) by (intros e; by rewrite Hp).
  cbv zeta. destruct (merge_sort entry_le l) as [|p m]; cbn [dedup_by_id].
  { split_and!; [constructor|by intros e ?%elem_of_nil|]. intros e He. by apply Hin, elem_of_nil in He. }
  destruct (dedup_from_spec p m Hs) as (H1 & H2 & H3 & H4).
  apply StronglySorted_inv in Hs as [_ Hpm]. split_and!.
  - rewrite fmap_cons. constructor; [done|]. by apply Forall_fmap.
  - intros e [->|He]%elem_of_cons; rewrite Hin; setoid_rewrite Hin.
    + split; [left|]. intros e' [->|He']%elem_of_cons _; [by destruct (total entry_le p p)|].
      rewrite Forall_forall in Hpm. by apply Hpm.
    + destruct (H3 e He) as [Hm Hmin]. split; [by right|].
      intros e' [->|He']%elem_of_cons Hw; [|by apply Hmin].
      rewrite Forall_forall in H2. specialize (H2 e He). rewrite <- Hw in H2.
      by apply irreflexivity in H2; [|apply _].
  - intros e [->|He]%Hin%elem_of_cons; [exists p; split; [left|done]|].
    destruct (H4 e He) as [->|(e' & ? & ?)]; [exists p; split; [left|done]|].
    exists e'. split; [by right|done].
Qed.

(** *** Index names *)

Definition plain_name (n : bytes) : Prop := Forall (λ b, 0 < b < 128) n.
Definition terminated (names : list bytes) : bytes := concat ((λ n, n ++ [0]) <$> names).
(** The padding to a multiple of four bytes. *)
Definition pad_len (n : nat) : nat := ((4 - n mod 4) mod 4)%nat.
Definition names_bytes (names : list bytes) : bytes :=
  terminated names ++ replicate (pad_len (length (terminated names))) 0.

Lemma plain_ascii n : plain_name n → Forall (λ b, 0 ≤ b < 128) n.
Proof. intros H. eapply Forall_impl; [exact H|]. simpl. lia. Qed.
Lemma ascii_check n : plain_name n → forallb (λ b, b <? 128) n = true.
Proof. induction 1 as [|b n Hb _ IH]; [done|]. simpl. by rewrite (proj2 (Z.ltb_lt _ _)), IH by lia. Qed.

Lemma terminated_cons n names : terminated (n :: names) = n ++ 0 :: terminated names.
Proof. unfold terminated. rewrite fmap_cons. cbn [concat]. by rewrite <- app_assoc. Qed.

Lemma names_count_spec names c :
  Forall plain_name names → 0 ≤ c → c + Z.of_nat (length (terminated names)) < 2 ^ 64 →
  names_count names c = Ok (c + Z.of_nat (length (terminated names))).
Proof.
  intros Hn. revert c. induction Hn as [|n names Hn _ IH]; intros c Hc Hlen.
  { simpl. f_equal. lia. }
  rewrite terminated_cons, length_app in *. cbn [names_count length] in *.
  rewrite to_str_ascii by (by apply plain_ascii). cbn [expect]. rewrite bind_Ok.
  rewrite ascii_check by done. cbn [assert_]. rewrite bind_Ok, wrap_small by lia.
  rewrite IH by lia. f_equal. lia.
Qed.
Lemma names_write_spec names c :
  Forall plain_name names → 0 ≤ c → c + Z.of_nat (length (terminated names)) < 2 ^ 64 →
  names_write names c = Ok (terminated names, c + Z.of_nat (length (terminated names))).
Proof.
  intros Hn. revert c. induction Hn as [|n names Hn _ IH]; intros c Hc Hlen.
  { simpl. do 2 f_equal. lia. }
  rewrite terminated_cons, length_app in *. cbn [names_write length] in *.
  rewrite to_str_ascii by (by apply plain_ascii). cbn [expect]. rewrite bind_Ok.
  rewrite wrap_small by lia. rewrite IH by lia. rewrite bind_Ok. do 2 f_equal. lia.
Qed.

Lemma alignment (n : nat) :
  let a := CHUNK_ALIGNMENT - Z.of_nat n mod CHUNK_ALIGNMENT in
  Z.of_nat (pad_len n) = if a <? CHUNK_ALIGNMENT then a else 0.
Proof.
  unfold CHUNK_ALIGNMENT, pad_len. cbv zeta.
  assert (Hn : Z.of_nat (n mod 4) = Z.of_nat n mod 4) by (by rewrite Nat2Z.inj_mod).
  assert (Hm : (n mod 4 < 4)%nat) by (by apply Nat.mod_upper_bound).
  destruct (Z.ltb_spec (4 - Z.of_nat n mod 4) 4).
  - rewrite Nat.mod_small by lia. lia.
  - replace (n mod 4)%nat with 0%nat by lia. done.
Qed.

Lemma names_chunk names :
  Forall plain_name names → Z.of_nat (length (terminated names)) < 2 ^ 63 →
  index_names_storage_size names = Ok (Z.of_nat (length (names_bytes names))) ∧
  index_names_write names = Ok (names_bytes names).
Proof.
  intros Hn Hlen. unfold index_names_storage_size, index_names_write.
  rewrite names_count_spec, names_write_spec, !bind_Ok by (done || lia). rewrite Z.add_0_l.
  pose proof (alignment (length (terminated names))) as Ha. cbv zeta in Ha.
  unfold names_bytes. rewrite length_app, length_replicate, Nat2Z.inj_add, Ha.
  assert (Hp : (pad_len (length (terminated names)) < 4)%nat) by (by apply Nat.mod_upper_bound).
  destruct (Z.ltb_spec (CHUNK_ALIGNMENT - Z.of_nat (length (terminated names)) mod CHUNK_ALIGNMENT)
    CHUNK_ALIGNMENT).
  - rewrite wrap_small by (unfold CHUNK_ALIGNMENT in *; lia). split; [done|].
    rewrite <- Ha, Nat2Z.id. rewrite slice_to_le by (rewrite length_replicate; lia).
    rewrite bind_Ok, take_replicate. do 3 f_equal. lia.
  - rewrite Z.add_0_r. split; [done|]. replace (pad_len _) with 0%nat by lia.
    by rewrite app_nil_r.
Qed.

Lemma index_names_loop_spec {BS : bstr.Api} {BSL : bstr.Laws} names out rest :
  Forall plain_name names →
  StronglySorted (λ a b, path_cmp a b = Lt) (out ++ names) →
  index_names_loop (length names) (terminated names ++ rest) out = Ok (rest, out ++ names).
Proof.
  intros Hn. revert out. induction Hn as [|n names Hn _ IH]; intros out Hs.
  { simpl. by rewrite app_nil_r. }
  rewrite terminated_cons, <- app_assoc. cbn [length index_names_loop app].
  rewrite bstr.find_byte_spec, find_index_app;
    [|eapply Forall_impl; [exact Hn|]; intros b [Hb _]; apply Z.eqb_neq; lia|done].
  cbn [ok_or]. rewrite bind_Ok, slice_to_app, bind_Ok by done.
  assert (Hlast : (match list.last out with
    | Some previous => bool_decide (path_cmp previous n ≠ Lt) | None => false end) = false).
  { destruct (list.last out) as [p|] eqn:Hl; [|done]. apply bool_decide_eq_false. intros Hp.
    apply last_Some in Hl as [out' ->]. apply Hp.
    eapply (StronglySorted_app_1_elem_of (λ a b, path_cmp a b = Lt)); [exact Hs| |]; set_solver. }
  rewrite Hlast. change (n ++ 0 :: terminated names ++ rest) with
    (n ++ [0] ++ terminated names ++ rest). rewrite app_assoc.
  rewrite (slice_from_at (n ++ [0])) by (by rewrite length_app).
  rewrite bind_Ok, IH; by rewrite <- app_assoc.
Qed.

Lemma index_names_roundtrip {BS : bstr.Api} {BSL : bstr.Laws} names :
  Forall plain_name names → StronglySorted (λ a b, path_cmp a b = Lt) names →
  index_names_from_bytes (names_bytes names) (Z.of_nat (length names)) = Ok names.
Proof.
  intros Hn Hs. unfold index_names_from_bytes, names_bytes.
  rewrite Nat2Z.id, (index_names_loop_spec names []), bind_Ok by done.
  assert (Hz : ∀ k, forallb (λ b, b =? 0) (replicate k 0) = true) by (induction k; done).
  by rewrite Hz.
Qed.

(** *** Offsets *)

(** The 64-bit offsets, in order. *)
Definition larges (es : list WEntry) : list Z :=
  filter (λ o, LARGE_OFFSET_THRESHOLD < o) (wpack_offset <$> es).
Definition needs_large (es : list WEntry) : bool :=
  existsb (λ e, 2 ^ 32 - 1 <? wpack_offset e) es.

Lemma larges_cons e es :
  larges (e :: es) =
  if LARGE_OFFSET_THRESHOLD <? wpack_offset e then wpack_offset e :: larges es else larges es.
Proof.
  unfold larges. rewrite fmap_cons, filter_cons.
  destruct (Z.ltb_spec LARGE_OFFSET_THRESHOLD (wpack_offset e)), (decide _); (done || lia).
Qed.
Lemma length_larges es : (length (larges es) ≤ length es)%nat.
Proof.
  unfold larges. etrans; [apply length_filter|]. by rewrite length_fmap.
Qed.

Lemma num_large_spec es :
  num_large_offsets es = if needs_large es then Some (length (larges es)) else None.
Proof.
  unfold num_large_offsets, needs_large.
  assert (Hgen : ∀ n b, num_large_loop es n b =
    ((n + length (larges es))%nat, b || existsb (λ e, 2 ^ 32 - 1 <? wpack_offset e) es)).
  { induction es as [|e es IH]; intros n b; simpl; [by rewrite Nat.add_0_r, orb_false_r|].
    rewrite IH, larges_cons. f_equal.
    - destruct (_ <? _); simpl; lia.
    - destruct (_ <? _), b; done. }
  by rewrite Hgen.
Qed.

Lemma large_write_spec es :
  large_offsets_write es (length (larges es)) = Ok (concat (be_bytes 8 <$> larges es)).
Proof.
  induction es as [|e es IH]; [done|]. cbn [large_offsets_write]. rewrite larges_cons.
  destruct (_ <? _); [|done]. cbn [length expect]. by rewrite bind_Ok, IH, bind_Ok.
Qed.

(** A record of the offsets chunk: the pack, and a 32-bit entry that stands
    for the offset. *)
Definition offset_record (r : Z * Z) : bytes := be_bytes 4 r.1 ++ be_bytes 4 r.2.
Lemma length_offset_record r : length (offset_record r) = 8%nat.
Proof. unfold offset_record. by rewrite length_app, !length_be_bytes. Qed.
Lemma concat_offset_record p c recs :
  concat (offset_record <$> (p, c) :: recs) =
  be_bytes 4 p ++ be_bytes 4 c ++ concat (offset_record <$> recs).
Proof. by rewrite app_assoc. Qed.
Definition code_for (large : option (list Z)) (c o : Z) : Prop :=
  match large with
  | Some table => stands_for c table o
  | None => c = o ∧ 0 ≤ o < 2 ^ 32
  end.

Lemma offsets_large_spec es pre :
  Forall (λ e, u64 (wpack_offset e)) es →
  Z.of_nat (length pre + length es) < 2 ^ 31 →
  ∃ recs, offsets_write es true (Z.of_nat (length pre)) = Ok (concat (offset_record <$> recs)) ∧
    Forall2 (λ e r, r.1 = wpack_index e ∧ u32 r.2 ∧
               stands_for r.2 (pre ++ larges es) (wpack_offset e)) es recs.
Proof.
  intros Hes. revert pre. induction Hes as [|e es He _ IH]; intros pre Hlen.
  { exists []. by split; [|constructor]. }
  cbn [offsets_write length] in *. rewrite larges_cons.
  destruct (Z.ltb_spec LARGE_OFFSET_THRESHOLD (wpack_offset e)) as [Hbig|Hsmall];
    unfold LARGE_OFFSET_THRESHOLD, HIGH_BIT in *.
  - rewrite bind_Ok, lor_high, wrap_small by lia.
    destruct (IH (pre ++ [wpack_offset e])) as (recs & Hw & Hf); [rewrite length_app; simpl; lia|].
    replace (Z.of_nat (length pre) + 1) with (Z.of_nat (length (pre ++ [wpack_offset e])))
      by (rewrite length_app; simpl; lia).
    rewrite Hw, bind_Ok. rewrite <- app_assoc in Hf.
    exists ((wpack_index e, Z.of_nat (length pre) + 2 ^ 31) :: recs). split.
    { by rewrite concat_offset_record. }
    constructor; [|done]. simpl. split_and!; [done|lia|lia|]. right. exists (length pre).
    split_and!; [done|lia|]. by rewrite list_lookup_middle.
  - rewrite bind_Ok, wrap_small by lia. destruct (IH pre) as (recs & Hw & Hf); [lia|].
    rewrite Hw, bind_Ok. exists ((wpack_index e, wpack_offset e) :: recs). split.
    { by rewrite concat_offset_record. }
    constructor; [|done]. simpl. split_and!; [done|lia|lia|]. left. lia.
Qed.

Lemma offsets_small_spec es k :
  Forall (λ e, u64 (wpack_offset e)) es → needs_large es = false →
  ∃ recs, offsets_write es false k = Ok (concat (offset_record <$> recs)) ∧
    Forall2 (λ e r, r.1 = wpack_index e ∧ u32 r.2 ∧ r.2 = wpack_offset e) es recs.
Proof.
  intros Hes. revert k. induction Hes as [|e es He _ IH]; intros k Hn.
  { exists []. by split; [|constructor]. }
  unfold needs_large in *. cbn [existsb] in Hn. apply orb_false_iff in Hn as [He32 Hn].
  apply Z.ltb_ge in He32. cbn [offsets_write].
  rewrite (proj2 (Z.ltb_lt _ _)) by lia. cbn [expect]. rewrite !bind_Ok.
  destruct (IH k Hn) as (recs & Hw & Hf). rewrite Hw, bind_Ok.
  exists ((wpack_index e, wpack_offset e) :: recs). split.
  { by rewrite concat_offset_record. }
  constructor; [|done]. simpl. split_and!; (done || lia).
Qed.

(** The table of large offsets of the file, if it has one. *)
Definition large_table (es : list WEntry) : option (list Z) :=
  if needs_large es then Some (larges es) else None.

Lemma offsets_write_spec es :
  Forall (λ e, u64 (wpack_offset e)) es → Z.of_nat (length es) < 2 ^ 31 →
  ∃ recs, offsets_write es (bool_decide (is_Some (num_large_offsets es))) 0 =
      Ok (concat (offset_record <$> recs)) ∧
    Forall2 (λ e r, r.1 = wpack_index e ∧ u32 r.2 ∧
               code_for (large_table es) r.2 (wpack_offset e)) es recs.
Proof.
  intros Hes Hlen. rewrite num_large_spec. unfold large_table.
  destruct (needs_large es) eqn:Hn.
  - rewrite bool_decide_true by eauto. by apply (offsets_large_spec es []).
  - rewrite bool_decide_false by (by intros []).
    destruct (offsets_small_spec es 0 Hes Hn) as (recs & Hw & Hf). exists recs. split; [done|].
    eapply Forall2_impl; [exact Hf|]. simpl. intros e r (? & ? & <-). done.
Qed.

(** *** The file *)

Lemma count_le_fmap {A B} (f : A → B) (key : B → Z) b l :
  count_le key b (f <$> l) = count_le (λ x, key (f x)) b l.
Proof. induction l as [|x l IH]; [done|]. rewrite fmap_cons. cbn [count_le]. by rewrite IH. Qed.

Lemma sorted_fmap {A} (S : Z → Z → Prop) (f : A → Z) l :
  StronglySorted (λ a b, S (f a) (f b)) l → StronglySorted S (f <$> l).
Proof. induction 1 as [|x l _ IH Hx]; [constructor|]. constructor; [done|]. by apply Forall_fmap. Qed.

Lemma fanout_oids oids :
  Forall wf_oid oids → StronglySorted bytes_lt oids → Z.of_nat (length oids) < 2 ^ 32 →
  fanout ((λ o, nth 0 o 0) <$> oids) = Ok (list_fan oids).
Proof.
  intros Hwf Hs Hlen. rewrite fanout_spec.
  - f_equal. unfold list_fan. apply list_fmap_ext. intros i b _. by rewrite count_le_fmap.
  - apply sorted_fmap, first_sorted; done.
  - apply Forall_fmap. eapply Forall_impl; [exact Hwf|]. intros o [Hl Hb]. unfold compose.
    destruct o; [done|]. by apply Forall_cons in Hb as [? _].
  - by rewrite length_fmap.
Qed.

Section File.
Context {BS : bstr.Api} {BSL : bstr.Laws}.
Context (names : list bytes) (es : list WEntry) (recs : list (Z * Z)) (trailer : bytes).
Hypothesis Hnames : Forall plain_name names.
Hypothesis Hnsorted : StronglySorted (λ a b, path_cmp a b = Lt) names.
Hypothesis Hnne : names ≠ [].
Hypothesis Hnlen : Z.of_nat (length (terminated names)) < 2 ^ 32.
Hypothesis Hne : es ≠ [].
Hypothesis Hlen : Z.of_nat (length es) < 2 ^ 31.
Hypothesis Hids : Forall wf_oid (oid_of <$> es).
Hypothesis Hsorted : StronglySorted bytes_lt (oid_of <$> es).
Hypothesis Hofs : Forall (λ e, u64 (wpack_offset e)) es.
Hypothesis Hpacks : Forall (λ e, u32 (wpack_index e)) es.
Hypothesis Hrecs : Forall2 (λ e r, r.1 = wpack_index e ∧ u32 r.2 ∧
  code_for (large_table es) r.2 (wpack_offset e)) es recs.
Hypothesis Hwrite : offsets_write es (bool_decide (is_Some (num_large_offsets es))) 0 =
  Ok (concat (offset_record <$> recs)).
Hypothesis Htrailer : length trailer = 20%nat.

Let oids : list bytes := oid_of <$> es.
Let fanv : list Z := list_fan oids.

(** The chunks of the file. *)
Definition file_chunks : Chunk.contents :=
  [(NAMES_ID, names_bytes names);
   (FANOUT_ID, concat (be_bytes 4 <$> fanv));
   (LOOKUP_ID, concat oids);
   (OFFSETS_ID, concat (offset_record <$> recs))] ++
  match large_table es with
  | Some table => [(LARGE_OFFSETS_ID, concat (be_bytes 8 <$> table))]
  | None => []
  end.

Lemma chunk_ids :
  fst <$> file_chunks = [NAMES_ID; FANOUT_ID; LOOKUP_ID; OFFSETS_ID] ++
    if needs_large es then [LARGE_OFFSETS_ID] else [].
Proof. unfold file_chunks, large_table. by destruct (needs_large es). Qed.

Lemma length_fan_chunk : length (concat (be_bytes 4 <$> fanv)) = 1024%nat.
Proof.
  rewrite (length_concat_fixed (be_bytes 4) 4) by (intros; apply length_be_bytes).
  unfold fanv, list_fan. by rewrite length_fmap.
Qed.
Lemma oid_len o : o ∈ oids → length o = 20%nat.
Proof. intros Ho. unfold oids in *. rewrite Forall_forall in Hids. by destruct (Hids o Ho). Qed.
Lemma length_lookup_chunk : length (concat oids) = (length es * 20)%nat.
Proof.
  rewrite <- (list_fmap_id oids), (length_concat_fixed (λ o, o) 20) by apply oid_len.
  unfold oids. by rewrite length_fmap.
Qed.
Lemma length_offsets_chunk : length (concat (offset_record <$> recs)) = (length es * 8)%nat.
Proof.
  rewrite (length_concat_fixed offset_record 8) by (intros; apply length_offset_record).
  by rewrite (Forall2_length _ _ _ Hrecs).
Qed.
Lemma length_large_chunk l : length (concat (be_bytes 8 <$> l)) = (length l * 8)%nat.
Proof. apply length_concat_fixed. intros. apply length_be_bytes. Qed.
Lemma names_bytes_ne : names_bytes names ≠ [].
Proof.
  clear -Hnne. unfold names_bytes. destruct names as [|n ns]; [done|]. rewrite terminated_cons.
  intros [H _]%app_nil. by apply app_nil in H as [_ ?].
Qed.
Lemma length_names_chunk : (length (names_bytes names) < length (terminated names) + 4)%nat.
Proof.
  unfold names_bytes. rewrite length_app, length_replicate.
  assert (pad_len (length (terminated names)) < 4)%nat by (by apply Nat.mod_upper_bound). lia.
Qed.
Lemma larges_ne : needs_large es = true → larges es ≠ [].
Proof.
  intros Hn. apply existsb_exists in Hn as (e & He%list_elem_of_In & H%Z.ltb_lt).
  intros Heq. assert (Hin : wpack_offset e ∈ larges es).
  { apply list_elem_of_filter. unfold LARGE_OFFSET_THRESHOLD.
    split; [lia|by apply list_elem_of_fmap_2]. }
  rewrite Heq in Hin. by apply elem_of_nil in Hin.
Qed.

Lemma wf_file_chunks : wf_contents file_chunks.
Proof.
  assert (Hes : (0 < length es)%nat) by (clear -Hne; destruct es; [done|simpl; lia]).
  assert (Hc : ∀ (d : bytes) n, length d = n → (0 < n)%nat → d ≠ []).
  { intros d n Hd Hn ->. simpl in Hd. lia. }
  split_and!; [done| |].
  - rewrite chunk_ids. destruct (needs_large es); apply (bool_decide_unpack _); vm_compute; done.
  - unfold file_chunks, large_table. apply Forall_app. split.
    + constructor; [split_and!; [done|done|apply names_bytes_ne]|].
      constructor; [split_and!; [done|done|by apply (Hc _ _ length_fan_chunk); lia]|].
      constructor; [split_and!; [done|done|apply (Hc _ _ length_lookup_chunk); lia]|].
      constructor; [split_and!; [done|done|apply (Hc _ _ length_offsets_chunk); lia]|constructor].
    + destruct (needs_large es) eqn:Hn; [|constructor].
      apply Forall_singleton. split_and!; [done|done|].
      apply larges_ne in Hn. apply (Hc _ (length (larges es) * 8)%nat); [apply length_large_chunk|].
      destruct (larges es); [done|simpl; lia].
Qed.

Lemma length_file out :
  length out = 12%nat → Z.of_nat (length (Chunk.layout out file_chunks ++ trailer)) < 2 ^ 63.
Proof.
  intros Ho. rewrite length_app, (length_layout _ _ wf_file_chunks), Ho, Htrailer.
  pose proof (length_larges es). pose proof length_names_chunk. unfold Chunk.body, file_chunks.
  rewrite fmap_app, concat_app, length_app. rewrite !fmap_cons. cbn [snd concat fmap list_fmap].
  rewrite !length_app, length_fan_chunk, length_lookup_chunk, length_offsets_chunk.
  unfold large_table, size_for_entries, ENTRY_SIZE.
  destruct (needs_large es); simpl; [rewrite length_app, length_large_chunk|]; simpl; lia.
Qed.
(** **** Writing *)

Lemma write_chunk_spec k d :
  (k, d) ∈ file_chunks → write_chunk names es (num_large_offsets es) k = Ok d.
Proof.
  assert (Hn64 : Z.of_nat (length (terminated names)) < 2 ^ 63) by lia.
  unfold file_chunks, write_chunk. rewrite elem_of_app.
  intros [Hin|Hin].
  - repeat (apply elem_of_cons in Hin as [[= -> ->]|Hin]; [simpl|]);
      [..|by apply elem_of_nil in Hin].
    + by apply names_chunk.
    + unfold fanout_write. rewrite (mapM_res_ok _ (λ e, nth 0 (as_slice (wid e)) 0)), bind_Ok.
      2:{ apply Forall_forall. intros e He. rewrite Forall_forall in Hids.
          destruct (Hids _ (list_elem_of_fmap_2 oid_of es e He)) as [Hl _].
          by destruct (as_slice (wid e)). }
      rewrite (list_fmap_compose oid_of (λ o, nth 0 o 0)), fanout_oids; [done|done|done|].
      rewrite length_fmap. lia.
    + done.
    + done.
  - unfold large_table in Hin. rewrite num_large_spec. destruct (needs_large es);
      [|by apply elem_of_nil in Hin].
    apply list_elem_of_singleton in Hin as [= -> ->]. simpl. apply large_write_spec.
Qed.

Lemma plan_chunks_spec :
  plan_chunks names es (num_large_offsets es) KSha1 = Ok (Chunk.mkIndex true (planned file_chunks)).
Proof.
  assert (Hn64 : Z.of_nat (length (terminated names)) < 2 ^ 63) by lia.
  pose proof (length_larges es) as Hll.
  rewrite <- (app_nil_l (planned file_chunks)), <- plan_spec
    by (apply wf_file_chunks).
  unfold plan_chunks. rewrite (proj1 (names_chunk names Hnames Hn64)), bind_Ok.
  unfold file_chunks, lookup_storage_size, offsets_storage_size. cbn [app plan len_in_bytes].
  rewrite length_fan_chunk, length_lookup_chunk, length_offsets_chunk, !wrap_small by lia.
  rewrite !Nat2Z.inj_mul. rewrite num_large_spec. unfold large_table.
  destruct (needs_large es); [|done]. cbn [app plan]. unfold large_offsets_storage_size.
  rewrite length_large_chunk, wrap_small by lia. rewrite Nat2Z.inj_mul, Z.mul_comm.
  change (Z.of_nat FANOUT_SIZE) with (Z.of_nat 1024).
  repeat (destruct (plan_chunk _ _ _); [rewrite !bind_Ok|done..]). done.
Qed.

(** **** Reading *)

Definition header : bytes :=
  (write_header (Z.of_nat (length file_chunks)) (Z.of_nat (length names)) KSha1).1.
Definition file : bytes := Chunk.layout header file_chunks ++ trailer.

Lemma length_header12 : length header = 12%nat.
Proof. unfold header, write_header. cbn [fst]. by rewrite !length_app, length_be_bytes. Qed.
Lemma length_file_chunks : (length file_chunks = 4 ∨ length file_chunks = 5)%nat.
Proof. unfold file_chunks. destruct (large_table es); simpl; auto. Qed.

Lemma split_at_1 {E} b (r : bytes) : @split_at E Z (b :: r) 1 = Ok ([b], r).
Proof. done. Qed.
Lemma read_header_spec r :
  Z.of_nat (length names) < 2 ^ 32 →
  read_header (header ++ r) = Ok (KSha1, Z.of_nat (length file_chunks), Z.of_nat (length names)).
Proof.
  intros Hnum. unfold read_header, header, write_header. cbn [fst].
  rewrite <- app_assoc, split_at_app, bind_Ok by done.
  rewrite bool_decide_false by naive_solver. cbn [app kind_as_u8].
  rewrite split_at_1, bind_Ok, idx_cons, bind_Ok. cbn [Z.eqb Pos.eqb negb].
  rewrite split_at_1, bind_Ok, idx_cons, bind_Ok. cbn [kind_try_from Z.eqb Pos.eqb map_err].
  rewrite bind_Ok, split_at_1, bind_Ok, idx_cons, bind_Ok.
  rewrite split_at_1, bind_Ok, split_at_app, bind_Ok by (by rewrite length_be_bytes).
  by rewrite read_u32_be, bind_Ok by lia.
Qed.

Lemma fanout_from_bytes_spec :
  @fanout_from_bytes MError (concat (be_bytes 4 <$> fanv)) = Ok (Some fanv).
Proof.
  unfold fanout_from_bytes, FANOUT_SIZE. rewrite length_fan_chunk, Nat.eqb_refl. cbn [negb].
  pose proof (chunks_records (be_bytes 4) 4 fanv []) as Hc. rewrite app_nil_r in Hc.
  assert (Hfan : length fanv = 256%nat) by (unfold fanv, list_fan; by rewrite length_fmap).
  assert (Hall : chunks_exact 4 (concat (be_bytes 4 <$> fanv)) = be_bytes 4 <$> fanv).
  { etrans; [|apply Hc; [lia|intros; apply length_be_bytes]]. symmetry. apply take_ge.
    rewrite Hfan. apply length_chunks_exact; [lia|]. rewrite length_fan_chunk. lia. }
  rewrite Hall. assert (Hm : @mapM_res MError _ _ read_u32 (be_bytes 4 <$> fanv) = Ok fanv); [|by rewrite Hm].
  assert (Hu : Forall (λ z, u32 z) fanv).
  { apply Forall_fmap, Forall_forall. intros b _. unfold compose.
    pose proof (count_le_length (λ o, nth 0 o 0) b oids) as H. unfold oids in H at 2.
    rewrite length_fmap in H. lia. }
  clear -Hu. induction Hu as [|z l Hz _ IH]; [done|]. rewrite fmap_cons. cbn [mapM_res].
  by rewrite read_u32_be, bind_Ok, IH by done.
Qed.
Lemma fan_last : fanv !! 255%nat = Some (Z.of_nat (length es)).
Proof.
  unfold fanv, list_fan. rewrite list_lookup_fmap. change (all_bytes !! 255%nat) with (Some 255).
  simpl. do 2 f_equal. rewrite count_le_all; [unfold oids; by rewrite length_fmap|].
  eapply Forall_impl; [exact Hids|]. intros o [Hl Hb]. destruct o; [done|].
  apply Forall_cons in Hb as [? _]. simpl. lia.
Qed.

(** The content of a chunk at an offset of the file. *)
Definition at_offset (d : bytes) (o : nat) : Prop :=
  ∃ pre post, file = pre ++ d ++ post ∧ length pre = o.

Lemma file_small : Z.of_nat (length file) < 2 ^ 64.
Proof. unfold file. pose proof (length_file header length_header12). lia. Qed.

Lemma valid_chunk_spec k d P :
  (k, d) ∈ file_chunks →
  ∃ o, at_offset d o ∧
    valid_chunk (written_index header file_chunks) k P =
    Ok (b ← P (o, o + length d)%nat;
        if b : bool then Ok (o, o + length d)%nat else Err (InvalidChunkSize k)).
Proof.
  intros Hin. destruct (written_chunk header file_chunks trailer wf_file_chunks file_small k d Hin)
    as (pre & post & Hf & _ & Hu).
  exists (length pre). split; [by exists pre, post|].
  unfold valid_chunk, validated_usize_offset_by_id. by rewrite Hu.
Qed.

Lemma valid_sizes o :
  (lookup_is_valid (o, o + length (concat oids))%nat KSha1 (Z.of_nat (length es)) = true) ∧
  @offsets_is_valid MError (o, o + length (concat (offset_record <$> recs)))%nat
    (Z.of_nat (length es)) = Ok true.
Proof.
  assert (Hes : (0 < length es)%nat) by (clear -Hne; destruct es; [done|simpl; lia]).
  unfold lookup_is_valid, offsets_is_valid. cbn [fst snd len_in_bytes].
  rewrite length_lookup_chunk, length_offsets_chunk.
  rewrite (proj2 (Z.eqb_neq (Z.of_nat (length es)) 0)), Nat2Z.id by lia.
  replace (o + length es * 20 - o)%nat with (length es * 20)%nat by lia.
  replace (o + length es * 8 - o)%nat with (8 * length es)%nat by lia.
  rewrite !Nat.div_mul by lia. by rewrite Z.eqb_refl.
Qed.

Definition large_at (la : option nat) : Prop :=
  match large_table es with
  | Some table => ∃ o, la = Some o ∧ at_offset (concat (be_bytes 8 <$> table)) o
  | None => la = None
  end.

Lemma large_chunk_spec :
  ∃ r, (match valid_chunk (written_index header file_chunks) LARGE_OFFSETS_ID
          (λ o, Ok (large_offsets_is_valid o)) with
        | Ok r => Some <$> r | Err _ => Ok None | Panic => Panic end) = Ok r ∧
    large_at (fst <$> r).
Proof.
  unfold large_at. assert (Hcase : (∃ table, large_table es = Some table) ∨ large_table es = None)
    by (destruct (large_table es); eauto).
  destruct Hcase as [[table Ht]|Ht]; rewrite Ht.
  - assert (Hin : (LARGE_OFFSETS_ID, concat (be_bytes 8 <$> table)) ∈ file_chunks).
    { unfold file_chunks. rewrite Ht. apply elem_of_app. right. left. }
    edestruct (valid_chunk_spec _ _ (λ o, Ok (large_offsets_is_valid o)) Hin) as (o & Ho & ->).
    rewrite bind_Ok. unfold large_offsets_is_valid. cbn [fst snd]. rewrite length_large_chunk.
    replace (o + length table * 8 - o)%nat with (length table * 8)%nat by lia.
    rewrite Nat.Div0.mod_mul. cbn [Nat.eqb]. eexists. split; [done|]. simpl. eauto.
  - unfold valid_chunk, validated_usize_offset_by_id.
    destruct (no_chunk_written header file_chunks LARGE_OFFSETS_ID) as [_ ->].
    { rewrite chunk_ids. unfold large_table in Ht. destruct (needs_large es); [done|].
      intros Hin. rewrite app_nil_r in Hin.
      repeat (apply elem_of_cons in Hin as [Hin|Hin]; [discriminate Hin|]). by apply elem_of_nil in Hin. }
    by exists None.
Qed.

Lemma try_from_spec :
  ∃ lo oo la,
    try_from file = Ok (mkMFile file MV1 20 KSha1 (Z.of_nat (length names))
                          (Z.of_nat (length es)) fanv names lo oo la) ∧
    at_offset (concat oids) lo ∧ at_offset (concat (offset_record <$> recs)) oo ∧ large_at la.
Proof.
  pose proof file_small as Hsmall.
  assert (Hnum : Z.of_nat (length names) < 2 ^ 32).
  { assert (Hl : (length names ≤ length (terminated names))%nat); [|lia]. clear.
    induction names as [|n ns IH]; [done|]. rewrite terminated_cons, length_app. simpl. lia. }
  unfold try_from. rewrite (proj2 (Nat.ltb_ge _ _)).
  2:{ unfold file. rewrite length_app, Htrailer, (length_layout _ _ wf_file_chunks), length_header12.
      unfold Chunk.body, file_chunks. rewrite fmap_app, concat_app, length_app. cbn [fmap list_fmap concat snd].
      rewrite !length_app, length_fan_chunk. unfold size_for_entries, ENTRY_SIZE.
      unfold HEADER_LEN, FANOUT_SIZE, shortest. simpl. lia. }
  assert (Hh : ∃ r, file = header ++ r).
  { unfold file, Chunk.layout. rewrite <- !app_assoc. eauto. }
  destruct Hh as [r Hr]. rewrite Hr, (read_header_spec _ Hnum), <- Hr, bind_Ok. clear r Hr.
  assert (Hfb : from_bytes file HEADER_LEN (Z.to_nat (Z.of_nat (length file_chunks))) =
    Ok (written_index header file_chunks)).
  { rewrite Nat2Z.id. change HEADER_LEN with 12%nat. rewrite <- length_header12.
    by apply from_bytes_layout; [apply wf_file_chunks|]. }
  rewrite Hfb. cbn [map_err]. rewrite bind_Ok.
  pose proof (data_by_id_written header file_chunks trailer wf_file_chunks Hsmall) as Hdata.
  change (Chunk.layout header file_chunks ++ trailer) with file in Hdata.
  rewrite (Hdata NAMES_ID (names_bytes names)) by (left). cbn [map_err].
  rewrite bind_Ok, index_names_roundtrip by done. cbn [map_err]. rewrite bind_Ok.
  rewrite (Hdata FANOUT_ID (concat (be_bytes 4 <$> fanv))) by (right; left). cbn [map_err].
  rewrite bind_Ok, fanout_from_bytes_spec, bind_Ok. cbn [ok_or]. rewrite bind_Ok.
  unfold idx at 1. rewrite fan_last. cbn [expect]. rewrite bind_Ok.
  edestruct (valid_chunk_spec LOOKUP_ID (concat oids)) as (lo & Hlo & ->);
    [right; right; left|].
  edestruct (valid_chunk_spec OFFSETS_ID (concat (offset_record <$> recs))) as (oo & Hoo & ->);
    [right; right; right; left|].
  destruct (valid_sizes lo) as [Hv1 _]. destruct (valid_sizes oo) as [_ Hv2].
  rewrite bind_Ok, Hv1, Hv2. cbn [map_err]. rewrite !bind_Ok.
  destruct large_chunk_spec as (r & Hr & Hla). rewrite Hr, bind_Ok.
  rewrite (highest_offset_written header file_chunks wf_file_chunks).
  assert (Hsl : slice_from file (length (Chunk.layout header file_chunks)) = @Ok MError _ trailer)
    by apply slice_from_app.
  cbn [lift]. rewrite bind_Ok, Nat2Z.id, Hsl, bind_Ok, Htrailer.
  cbn [len_in_bytes Nat.eqb negb]. eauto 10.
Qed.

Section Opened.
Context (lo oo : nat) (la : option nat).
Hypothesis Hlo : at_offset (concat oids) lo.
Hypothesis Hoo : at_offset (concat (offset_record <$> recs)) oo.
Hypothesis Hla : large_at la.
Let f : MFile := mkMFile file MV1 20 KSha1 (Z.of_nat (length names))
  (Z.of_nat (length es)) fanv names lo oo la.

Lemma midx_oid_at i o : oids !! i = Some o → midx_oid_at_index f (Z.of_nat i) = Ok o.
Proof.
  intros Hi. destruct Hlo as (pre & post & Hf & Hp). unfold midx_oid_at_index. cbn [f mdata lookup_ofs mhash_len].
  rewrite Nat2Z.id, Hf. rewrite <- (list_fmap_id oids).
  by apply (window_records (λ o, o) 20 oids i o); [apply oid_len|done|lia].
Qed.

Lemma read_code c o :
  u32 c → u64 o → code_for (large_table es) c o →
  (if Z.land c HIGH_BIT =? HIGH_BIT then
     match la with
     | Some offsets_64 =>
         w ← window file (offsets_64 + Z.to_nat (Z.lxor c HIGH_BIT) * 8) 8; read_u64 w
     | None => Ok c
     end
   else Ok c) = @Ok Empty_set Z o.
Proof.
  intros Hc Ho Hcode. unfold large_at in Hla. unfold code_for in Hcode. unfold HIGH_BIT.
  destruct (large_table es) as [table|].
  2:{ destruct Hcode as [-> _]. rewrite Hla. by destruct (_ =? _). }
  destruct Hla as (o64 & -> & pre & post & Hf & Hp).
  destruct Hcode as [[-> Hs]|(k & -> & Hk & Ht)].
  { by rewrite land_high by lia. }
  rewrite land_high_set, Z.eqb_refl, lxor_high_set, Nat2Z.id, Hf by lia.
  rewrite (window_records (be_bytes 8) 8 table k o);
    [|intros; apply length_be_bytes|done|lia].
  rewrite bind_Ok. by apply read_u64_be.
Qed.

Lemma midx_offset_at i e :
  es !! i = Some e →
  pack_id_and_pack_offset_at_index f (Z.of_nat i) = Ok (wpack_index e, wpack_offset e).
Proof.
  intros Hi. destruct (Forall2_lookup_l _ _ _ _ _ Hrecs Hi) as ([p c] & Hr & Hp & Hc & Hcode).
  simpl in Hp, Hc, Hcode. subst p. rewrite Forall_lookup in Hofs, Hpacks.
  destruct Hoo as (pre & post & Hf & Hpre).
  destruct (concat_split offset_record 8 recs i (wpack_index e, c)) as (l1 & l2 & Hl & Hl1);
    [intros; apply length_offset_record|done|].
  assert (Hw : file = (pre ++ l1) ++ be_bytes 4 (wpack_index e) ++ be_bytes 4 c ++ l2 ++ post).
  { rewrite Hf, Hl. unfold offset_record. cbn [fst snd]. by rewrite <- !app_assoc. }
  unfold pack_id_and_pack_offset_at_index. cbn [f mdata offsets_ofs large_offsets_ofs].
  rewrite Nat2Z.id.
  assert (H1 : @window Empty_set file (oo + i * 8) 4 = Ok (be_bytes 4 (wpack_index e))).
  { rewrite Hw. apply window_app; [rewrite length_app; lia|by rewrite length_be_bytes]. }
  assert (H2 : @window Empty_set file (oo + i * 8 + 4) 4 = Ok (be_bytes 4 c)).
  { rewrite Hw, app_assoc. apply window_app; [|by rewrite length_be_bytes].
    rewrite !length_app, length_be_bytes. lia. }
  rewrite H1, bind_Ok, read_u32_be, bind_Ok by (by eapply Hpacks).
  rewrite H2, bind_Ok, read_u32_be, bind_Ok by done.
  by rewrite (read_code c (wpack_offset e) Hc (Hofs _ _ Hi) Hcode), bind_Ok.
Qed.

Lemma midx_table : OidTable (midx_oid_at_index f) fanv oids.
Proof.
  assert (Hl : Z.of_nat (length oids) ≤ 2 ^ 31) by (unfold oids; rewrite length_fmap; lia).
  destruct (list_table oids Hids Hsorted Hl) as [H1 H2 H3 _ H5].
  split; [done..| |exact H5]. apply midx_oid_at.
Qed.

Lemma midx_lookup_spec o :
  wf_oid o →
  (∃ i e, es !! i = Some e ∧ as_slice (wid e) = o ∧ midx_lookup f o = Ok (Some (Z.of_nat i)) ∧
     pack_id_and_pack_offset_at_index f (Z.of_nat i) = Ok (wpack_index e, wpack_offset e)) ∨
  midx_lookup f o = Ok None ∧ o ∉ oids.
Proof.
  intros Ho. pose proof midx_table as HT. unfold midx_lookup. cbn [f mfan]. fold f.
  destruct (lookup_spec (midx_oid_at_index f) fanv oids o Ho) as [(i & Hl & Hi)|[Hl Hno]]; [left|by right].
  apply list_lookup_fmap_Some in Hi as (e & -> & He). exists i, e.
  split_and!; [done|done|exact Hl|by apply midx_offset_at].
Qed.

Lemma midx_iter_spec :
  midx_iter f = Ok ((λ e, mkMEntry (wid e) (wpack_offset e) (wpack_index e)) <$> es).
Proof.
  unfold midx_iter. cbn [f mnum_objects]. fold f. rewrite Nat2Z.id.
  assert (Hg : ∀ k l, drop k es = l →
    mapM_res (λ idx, '(pack_index, pack_offset) ← pack_id_and_pack_offset_at_index f (Z.of_nat idx);
      o ← midx_oid_at_index f (Z.of_nat idx); oid ← to_owned o;
      Ok (mkMEntry oid pack_offset pack_index)) (seq k (length l)) =
    Ok ((λ e, mkMEntry (wid e) (wpack_offset e) (wpack_index e)) <$> l)).
  { intros k l. revert k. induction l as [|e l IH]; intros k Hd; [done|].
    assert (Hk : es !! k = Some e).
    { replace k with (k + 0)%nat by lia. by rewrite <- lookup_drop, Hd. }
    cbn [length seq mapM_res]. rewrite (midx_offset_at k e Hk), bind_Ok.
    rewrite (midx_oid_at k (oid_of e)) by (unfold oids; by rewrite list_lookup_fmap, Hk).
    rewrite bind_Ok. rewrite Forall_fmap, Forall_lookup in Hids. destruct (Hids k e Hk) as [H20 _].
    unfold compose in H20.
    assert (Hown : to_owned (oid_of e) = Ok (wid e)).
    { unfold to_owned, oid_kind, from_len_in_bytes, from_bytes_or_panic. rewrite H20.
      cbn [Nat.eqb]. rewrite bind_Ok. by destruct (wid e). }
    rewrite Hown, !bind_Ok, IH; [done|].
    rewrite (drop_S es e k Hk) in Hd. by injection Hd. }
  by apply (Hg 0%nat es).
Qed.
End Opened.
End File.

(** *** Writing from pack indices *)

Lemma length_dedup l : (length (dedup_by_id l) ≤ length l)%nat.
Proof.
  assert (H : ∀ l k, (length (dedup_from k l) ≤ length l)%nat).
  { clear l. induction l as [|e l IH]; intros k; simpl; [done|]. case_bool_decide; simpl;
      [etrans; [apply IH|]; lia|apply le_n_S, IH]. }
  destruct l as [|e l]; simpl; [done|]. apply le_n_S, H.
Qed.

Lemma chunk_loop_spec si names es nl cs out nx w fuel poll :
  (∀ n, si n = false) → (∀ k d, (k, d) ∈ cs → write_chunk names es nl k = Ok d) →
  match nx with Some e => Chunk.stop e = w | None => True end → (length cs < fuel)%nat →
  ∃ c, chunk_loop si fuel poll names es nl (mkChunk (planned cs) out nx w) = Ok c ∧
    inner c = out ++ body cs.
Proof.
  intros Hsi. revert out nx w fuel poll.
  induction cs as [|[k d] cs IH]; intros out nx w fuel poll Hd Hnx Hfuel;
    (destruct fuel as [|fuel]; [simpl in Hfuel; lia|]); cbn [chunk_loop]; unfold next_chunk;
    cbn [next written_bytes chunks_to_write inner].
  all: assert (Ha : (match nx with Some entry => assert_ (Chunk.stop entry =? w) | None => Ok tt end) =
    @Ok Empty_set unit tt) by (destruct nx; [rewrite Hnx, Z.eqb_refl|]; done).
  all: rewrite Ha, bind_Ok.
  - cbn [lift]. rewrite bind_Ok. eexists. split; [done|]. cbn. by rewrite app_nil_r.
  - change (planned ((k, d) :: cs)) with (Chunk.mkEntry k 0 (Z.of_nat (length d)) :: planned cs).
    cbn [head tail fmap option_fmap option_map lift kind]. rewrite bind_Ok.
    rewrite (Hd k d) by left. cbn [lift]. rewrite bind_Ok, Hsi.
    unfold chunk_write. cbn [chunks_to_write inner next written_bytes].
    destruct (IH (out ++ d) (Some (Chunk.mkEntry k 0 (Z.of_nat (length d))))
      (0 + Z.of_nat (length d)) fuel (S poll)) as (c & Hc & Hin);
      [intros; apply Hd; by right|done|simpl in Hfuel; lia|].
    exists c. split; [exact Hc|]. by rewrite Hin, body_cons, app_assoc.
Qed.

Lemma mapM_names_length ps names :
  mapM_res (λ p, expect (file_name p)) ps = @Ok Empty_set _ names → length ps = length names.
Proof.
  revert names. induction ps as [|p ps IH]; intros names Hn; simpl in Hn.
  - by injection Hn as <-.
  - destruct (file_name p); [|done]. cbn [expect] in Hn. rewrite bind_Ok in Hn.
    destruct (mapM_res _ ps) as [ns| |]; [|done..]. rewrite bind_Ok in Hn. injection Hn as <-.
    simpl. f_equal. by apply IH.
Qed.
Lemma names_terminated names : (length names ≤ length (terminated names))%nat.
Proof. induction names as [|n ns IH]; [done|]. rewrite terminated_cons, length_app. simpl. lia. Qed.

Section Compose.
Context (digest : bytes → bytes) (mtime : bytes → Z) (contents : bytes → bytes).
Context (si : nat → bool) (Hsi : ∀ n, si n = false).

(** A path is a readable index with these entries. *)
Definition indexes (p : bytes) (es : list PackIndex.Entry) : Prop :=
  ∃ f, PackIndex.at_inner (contents p) KSha1 = Ok f ∧ PackIndex.iter f = Ok es.
(** An object of the [k]-th pack, as an entry of the multi-index. *)
Definition comes_from (paths : list bytes) (packs : list (list PackIndex.Entry)) (i : nat)
    (w : WEntry) (k : nat) (e : PackIndex.Entry) : Prop :=
  ∃ p es, paths !! k = Some p ∧ packs !! k = Some es ∧ e ∈ es ∧
    w = mkWEntry (PackIndex.oid e) (Z.of_nat (i + k)) (PackIndex.pack_offset e) (mtime p).

Lemma collect_spec paths packs i :
  Forall2 indexes paths packs → Z.of_nat (i + length paths) < 2 ^ 32 →
  ∃ all, collect mtime contents si i paths KSha1 = Ok all ∧
    length all = length (concat packs) ∧
    ∀ w, w ∈ all ↔ ∃ k e, comes_from paths packs i w k e.
Proof.
  intros HF. revert i. induction HF as [|p es paths packs (f & Hf & Hes) HF IH]; intros i Hi.
  { exists []. split_and!; [done|done|]. intros w. rewrite elem_of_nil. split; [done|].
    by intros (k & e & p & es & Hp & _). }
  cbn [collect length concat] in *. rewrite Hf. cbn [map_err]. rewrite bind_Ok, Hes. cbn [lift].
  rewrite bind_Ok, Hsi. destruct (IH (S i)) as (all & -> & Hl & Hall); [lia|]. rewrite bind_Ok.
  eexists. split; [done|]. split; [by rewrite !length_app, length_fmap, Hl|].
  intros w. rewrite elem_of_app, Hall, list_elem_of_fmap. rewrite wrap_small by lia. split.
  - intros [(e & -> & He)|(k & e & p' & es' & Hp & Hk & He & ->)].
    + exists 0%nat, e, p, es. split_and!; [done..|]. by rewrite Nat.add_0_r.
    + exists (S k), e, p', es'. split_and!; [done..|]. by rewrite Nat.add_succ_r.
  - intros (k & e & p' & es' & Hp & Hk & He & ->). destruct k as [|k]; simpl in *; simplify_eq.
    + left. exists e. by rewrite Nat.add_0_r.
    + right. exists k, e, p', es'. split_and!; [done..|]. by rewrite Nat.add_succ_r.
Qed.

Lemma write_spec paths names all recs :
  let sorted := merge_sort path_le paths in
  let es := dedup_by_id (merge_sort entry_le all) in
  mapM_res (λ p, expect (file_name p)) sorted = @Ok Empty_set _ names →
  collect mtime contents si 0 sorted KSha1 = Ok all →
  Forall plain_name names → names ≠ [] → Z.of_nat (length (terminated names)) < 2 ^ 32 →
  es ≠ [] → Z.of_nat (length es) < 2 ^ 31 →
  Forall wf_oid (oid_of <$> es) → StronglySorted bytes_lt (oid_of <$> es) →
  Forall2 (λ e r, r.1 = wpack_index e ∧ u32 r.2 ∧
    code_for (large_table es) r.2 (wpack_offset e)) es recs →
  offsets_write es (bool_decide (is_Some (num_large_offsets es))) 0 =
    Ok (concat (offset_record <$> recs)) →
  let body := Chunk.layout (header names es recs) (file_chunks names es recs) in
  write_from_index_paths digest mtime contents si paths KSha1 =
    Ok (body ++ digest body, Sha1 (digest body)).
Proof.
  intros sorted es Hn Hc Hplain Hnne Hnlen Hne Hlen Hids Hsorted Hrecs Hwrite body.
  assert (Htr : length (replicate 20 (0 : Z)) = 20%nat) by done.
  pose proof (wf_file_chunks names es recs _ Hnne Hne Hids Hrecs Htr) as Hwf.
  assert (Hlp : length (planned (file_chunks names es recs)) = length (file_chunks names es recs))
    by (unfold planned; apply length_fmap).
  pose proof (mapM_names_length _ _ Hn) as Hnum. pose proof (names_terminated names) as Hnum32.
  assert (Hbl : Z.of_nat (length body) < 2 ^ 63).
  { pose proof (length_file names es recs _ Hnne Hnlen Hne Hlen Hids Hrecs Htr _
      (length_header12 names es recs)) as Hf.
    rewrite length_app in Hf. fold body in Hf. lia. }
  unfold write_from_index_paths. fold sorted. rewrite Hn. cbn [lift]. rewrite bind_Ok, Hc, bind_Ok.
  fold es. rewrite Hsi, (plan_chunks_spec names es recs _ Hplain Hnne Hnlen Hne Hlen Hids Hrecs Htr).
  cbn [lift]. rewrite bind_Ok. unfold planned_storage_size. cbn [will_write assert_]. rewrite bind_Ok.
  cbn [lift chunks]. rewrite bind_Ok, Hlp.
  pose proof (length_file_chunks names es recs Hrecs) as Hfc.
  rewrite (proj2 (Nat.ltb_lt _ _)) by lia. cbn [expect]. rewrite bind_Ok, Hnum, wrap_small by lia.
  change (write_header (Z.of_nat (length (file_chunks names es recs))) (Z.of_nat (length names)) KSha1)
    with (header names es recs, HEADER_LEN).
  change HEADER_LEN with 12%nat. rewrite <- (length_header12 names es recs).
  rewrite into_write_planned; [|done|fold body; lia]. cbn [lift]. rewrite bind_Ok.
  lazymatch goal with |- context [chunk_loop si ?fuel ?poll _ _ _ (mkChunk _ ?out _ _)] =>
    destruct (chunk_loop_spec si names es (num_large_offsets es) (file_chunks names es recs)
      out None 0 fuel poll) as (c & Hcl & Hin) end;
    [done|exact (write_chunk_spec names es recs _ Hplain Hnlen Hlen Hids Hsorted Hwrite Htr)|
     done|apply Nat.lt_succ_diag_r|].
  rewrite Hcl, bind_Ok.
  rewrite Hin. unfold body, Chunk.layout. by rewrite <- !app_assoc.
Qed.
(** The entries that are written, of packs with well-formed entries. *)
Lemma collected_entries paths packs all :
  Forall2 indexes paths packs → Z.of_nat (length paths) < 2 ^ 32 →
  Forall (λ e, wf_id (PackIndex.oid e) ∧ u64 (PackIndex.pack_offset e)) (concat packs) →
  concat packs ≠ [] → Z.of_nat (length (concat packs)) < 2 ^ 31 →
  length all = length (concat packs) → (∀ w, w ∈ all ↔ ∃ k e, comes_from paths packs 0 w k e) →
  let es := dedup_by_id (merge_sort entry_le all) in
  es ≠ [] ∧ Z.of_nat (length es) < 2 ^ 31 ∧ Forall wf_oid (oid_of <$> es) ∧
  Forall (λ e, u64 (wpack_offset e)) es ∧ Forall (λ e, u32 (wpack_index e)) es.
Proof.
  intros Hidx Hnum Hwf Hne Hlen Hlall Hall es. destruct (dedup_spec all) as (_ & Hkept & Hcov).
  assert (Hok : Forall (λ w, wf_oid (oid_of w) ∧ u64 (wpack_offset w) ∧ u32 (wpack_index w)) es).
  { apply Forall_forall. intros w Hw. apply Hkept in Hw as [Hw _]. apply Hall in Hw as (k & e & p & pe & Hp & Hk & He & ->).
    rewrite Forall_forall in Hwf. destruct (Hwf e) as [Hid Ho];
      [apply list_elem_of_In, in_concat; exists pe; split; apply list_elem_of_In;
       [by eapply list_elem_of_lookup_2|done]|].
    apply lookup_lt_Some in Hp. split_and!; simpl; (exact Hid || lia). }
  split_and!.
  - destruct all as [|w l]; [by destruct (concat packs)|].
    destruct (Hcov w) as (w' & Hw' & _); [left|]. intros Heq. unfold es in Heq. rewrite Heq in Hw'.
    by apply elem_of_nil in Hw'.
  - pose proof (length_dedup (merge_sort entry_le all)) as Hd. fold es in Hd.
    rewrite (merge_sort_Permutation entry_le all) in Hd. lia.
  - apply Forall_fmap. eapply Forall_impl; [exact Hok|]. by intros w (? & _).
  - eapply Forall_impl; [exact Hok|]. by intros w (_ & ? & _).
  - eapply Forall_impl; [exact Hok|]. by intros w (_ & _ & ?).
Qed.
(** An entry that is kept is the most recent of those with its id. *)
Lemma kept_most_recent paths packs all w k e p :
  (∀ w, w ∈ all ↔ ∃ k e, comes_from paths packs 0 w k e) → Forall2 indexes paths packs →
  w ∈ dedup_by_id (merge_sort entry_le all) → paths !! k = Some p →
  w = mkWEntry (PackIndex.oid e) (Z.of_nat k) (PackIndex.pack_offset e) (mtime p) →
  ∀ k' es' e', packs !! k' = Some es' → e' ∈ es' → as_slice (PackIndex.oid e') = as_slice (PackIndex.oid e) →
    ∃ p p', paths !! k = Some p ∧ paths !! k' = Some p' ∧ mtime p' ≤ mtime p.
Proof.
  intros Hall Hidx Hw Hp -> k' es' e' Hk' He' Ho'. destruct (Forall2_lookup_r _ _ _ _ _ Hidx Hk') as (p' & Hp' & _).
  exists p, p'. split_and!; [done|done|]. destruct (dedup_spec all) as (_ & Hkept & _). destruct (Hkept _ Hw) as [_ Hmin].
  specialize (Hmin (mkWEntry (PackIndex.oid e') (Z.of_nat k') (PackIndex.pack_offset e') (mtime p'))).
  apply entry_le_iff in Hmin; simpl in *.
  - destruct Hmin as [Hlt|[_ Hm]]; [|lia]. rewrite Ho' in Hlt. by apply irreflexivity in Hlt; [|apply _].
  - apply Hall. by exists k', e', p', es'.
  - apply wid_eq. exact Ho'.
Qed.
End Compose.

(** ** Properties *)

(** C25: A multi-index that is written can be opened and finds every object of
    every pack.  For readable pack indices whose file names are plain ASCII and
    in strict order, with at least one object and fewer than 2^31 in total,
    [write_from_index_paths] succeeds and [File::at] accepts the file, with
    the names of the indices.  An id is found exactly if one of the packs has
    it; the answer names a pack that has it, the offset recorded there (also
    beyond 4 GiB), and a pack whose index is among the most recent of those
    that have the object.  Iteration lists the objects in strictly ascending
    order of their ids. *)
Theorem multi_index_write_read {BS : bstr.Api} {BSL : bstr.Laws} digest mtime contents si
    paths names packs :
  (∀ b, length (digest b) = 20%nat) → (∀ n, si n = false) →
  Forall2 (indexes contents) (merge_sort path_le paths) packs →
  mapM_res (λ p, expect (file_name p)) (merge_sort path_le paths) = @Ok Empty_set _ names →
  Forall plain_name names → StronglySorted (λ a b, path_cmp a b = Lt) names →
  Z.of_nat (length (terminated names)) < 2 ^ 32 →
  Forall (λ e, wf_id (PackIndex.oid e) ∧ u64 (PackIndex.pack_offset e)) (concat packs) →
  concat packs ≠ [] → Z.of_nat (length (concat packs)) < 2 ^ 31 →
  ∃ file h f es,
    write_from_index_paths digest mtime contents si paths KSha1 = Ok (file, h) ∧
    try_from file = Ok f ∧ index_names f = names ∧
    midx_iter f = Ok es ∧ StronglySorted bytes_lt ((λ e, as_slice (moid e)) <$> es) ∧
    ∀ o, wf_oid o →
      (∃ i k es e, midx_lookup f o = Ok (Some i) ∧
         packs !! k = Some es ∧ e ∈ es ∧ as_slice (PackIndex.oid e) = o ∧
         pack_id_and_pack_offset_at_index f i = Ok (Z.of_nat k, PackIndex.pack_offset e) ∧
         ∀ k' es' e', packs !! k' = Some es' → e' ∈ es' → as_slice (PackIndex.oid e') = o →
           ∃ p p', merge_sort path_le paths !! k = Some p ∧
             merge_sort path_le paths !! k' = Some p' ∧ mtime p' ≤ mtime p) ∨
      midx_lookup f o = Ok None ∧
        ∀ k es e, packs !! k = Some es → e ∈ es → as_slice (PackIndex.oid e) ≠ o.
Proof.
  intros Hdg Hsi Hidx Hnm Hplain Hns Hnlen Hwf Hne Hlen.
  set (sorted := merge_sort path_le paths) in *.
  assert (Hnum : Z.of_nat (length sorted) < 2 ^ 32).
  { pose proof (mapM_names_length sorted names Hnm). pose proof (names_terminated names). lia. }
  destruct (collect_spec mtime contents si Hsi sorted packs 0 Hidx) as (all & Hc & Hlall & Hall);
    [simpl; lia|].
  destruct (collected_entries mtime contents sorted packs all Hidx Hnum Hwf Hne Hlen Hlall Hall)
    as (Hne_es & Hlen_es & Hids & Hofs & Hpk).
  set (es := dedup_by_id (merge_sort entry_le all)) in *.
  destruct (dedup_spec all) as (Hsorted & Hkept & Hcov). fold es in Hsorted, Hkept, Hcov.
  assert (Hnne : names ≠ []).
  { intros ->. apply mapM_names_length in Hnm. destruct sorted; [|done]. by inversion Hidx; subst. }
  destruct (offsets_write_spec es Hofs Hlen_es) as (recs & Hw & Hrecs).
  pose proof (write_spec digest mtime contents si Hsi paths names all recs Hnm Hc Hplain Hnne
    Hnlen Hne_es Hlen_es Hids Hsorted Hrecs Hw) as Hwrite.
  fold es in Hwrite. cbv zeta in Hwrite.
  set (tr := digest _) in Hwrite. assert (Htr : length tr = 20%nat) by apply Hdg.
  destruct (try_from_spec names es recs tr Hplain Hns Hnne Hnlen Hne_es Hlen_es Hids Hrecs Htr)
    as (lo & oo & la & Htry & Hlo & Hoo & Hla).
  eexists _, _, _, _. split_and!; [exact Hwrite|exact Htry|done| | |].
  - by apply midx_iter_spec.
  - rewrite <- list_fmap_compose. exact Hsorted.
  - intros o Ho. edestruct (midx_lookup_spec names es recs tr) as [(i & w & Hi & Hwo & Hl & Hp)|[Hl Hno]];
      [done..|exact Hlo|exact Hoo|exact Hla|exact Ho|left|right].
    + assert (Hwin : w ∈ es) by (by eapply list_elem_of_lookup_2).
      destruct (proj1 (Hall w) (proj1 (Hkept w Hwin))) as (k & e & p & pe & Hsp & Hk & He & ->).
      exists (Z.of_nat i), k, pe, e. split_and!; [exact Hl|done|done|done|exact Hp|]. rewrite <- Hwo.
      by eapply (kept_most_recent mtime contents sorted packs all).
    + split; [exact Hl|]. intros k pe e Hk He Heq. apply Hno.
      destruct (Forall2_lookup_r _ _ _ _ _ Hidx Hk) as (p & Hp & _).
      destruct (Hcov (mkWEntry (PackIndex.oid e) (Z.of_nat (0 + k)) (PackIndex.pack_offset e) (mtime p)))
        as (w & Hw' & Hwid).
      { apply Hall. by exists k, e, p, pe. }
      simpl in Hwid. rewrite <- Heq, <- Hwid. by apply (list_elem_of_fmap_2 oid_of).
Qed.

Definition sample_pack (k : Z) : list TreeEntry :=
  [mkTree 12 (Sha1 (replicate 20 1)) 7; mkTree (2 ^ 33) (Sha1 (replicate 20 k)) 9].
Definition sample_digest : bytes → bytes := λ _, replicate 20 0.
Definition sample_index (k : Z) : bytes :=
  match PackIndex.write_to sample_digest (sample_pack k) sample_id with
  | Ok (file, _) => file | _ => []
  end.
Definition sample_file (k : Z) : PackIndex.File :=
  match PackIndex.at_inner (sample_index k) KSha1 with
  | Ok f => f | _ => PackIndex.mkFile [] V1 0 [] 0
  end.
Definition sample_contents (p : bytes) : bytes :=
  if bool_decide (p = bs "p/a.idx") then sample_index 100 else sample_index 200.
Lemma multi_index_write_read_witness :
  ∃ file h f,
    write_from_index_paths sample_digest (λ _, 0) sample_contents (λ _, false)
      [bs "p/b.idx"; bs "p/a.idx"] KSha1 = Ok (file, h) ∧
    @try_from bstr_impl file = Ok f ∧ index_names f = [bs "a.idx"; bs "b.idx"].
Proof.
  destruct (@multi_index_write_read bstr_impl bstr_impl_laws sample_digest (λ _, 0) sample_contents
    (λ _, false) [bs "p/b.idx"; bs "p/a.idx"] [bs "a.idx"; bs "b.idx"]
    [entry_of <$> sample_pack 100; entry_of <$> sample_pack 200])
    as (file & h & f & es & H1 & H2 & H3 & _).
  - done.
  - done.
  - change (merge_sort path_le [bs "p/b.idx"; bs "p/a.idx"]) with [bs "p/a.idx"; bs "p/b.idx"].
    apply Forall2_cons_2; [exists (sample_file 100)|apply Forall2_cons_2; [exists (sample_file 200)|done]];
      split; vm_compute; reflexivity.
  - reflexivity.
  - repeat (apply Forall_cons_2; [repeat (apply Forall_cons_2; [vm_compute; done|]); done|]). done.
  - apply SSorted_cons; [apply SSorted_cons; [apply SSorted_nil|done]|].
    apply Forall_singleton. reflexivity.
  - vm_compute. reflexivity.
  - simpl concat. repeat (apply Forall_cons_2; [split; [split; [reflexivity|]|simpl; lia]|]); [..|done];
      simpl; repeat (apply Forall_cons_2; [lia|]); done.
  - done.
  - vm_compute. reflexivity.
  - exists file, h, f. split; [exact H1|split; [exact H2|exact H3]].
Defined.

(** A file without objects makes [File::at] divide by zero: its table of ids
    may be shorter than one id, and then the size of the offsets table is
    divided by the number of objects. *)
Example zero_objects_panic :
  match write_file (write_header 4 0 KSha1).1
          [(NAMES_ID, [0; 0; 0; 0]); (FANOUT_ID, replicate 1024 0); (LOOKUP_ID, [0]); (OFFSETS_ID, [0])]
  with
  | Ok file => @try_from bstr_impl (file ++ replicate 20 0) = Panic
  | _ => False
  end.
Proof. vm_compute. reflexivity. Qed.
