(* ===== verification/CommitGraph.v ===== *)
(** * Commit-graph files

    Models [gix-commitgraph/src/file]: opening a file ([init.rs]), access to its
    ids and commits ([access.rs]) and to the parents of a commit
    ([commit.rs]).  The file is a chunk file ([Chunk]); ids are found by the
    bisection of [OidLookup], of which the crate has a copy.

    [Position] and [file::Position] are the numbers they wrap; error messages
    are the values that are formatted into them. *)

From S2P Require Import Prelude External Hash OidLookup Chunk PackIndex.

(** ** [file/mod.rs] *)

Definition COMMIT_DATA_ENTRY_SIZE_SANS_HASH : nat := 16.
Definition HEADER_LEN : nat := 8.
Definition SIGNATURE : bytes := bs "CGPH".
Definition BASE_GRAPHS_LIST_CHUNK_ID : bytes := bs "BASE".
Definition COMMIT_DATA_CHUNK_ID : bytes := bs "CDAT".
Definition EXTENDED_EDGES_LIST_CHUNK_ID : bytes := bs "EDGE".
Definition OID_FAN_CHUNK_ID : bytes := bs "OIDF".
Definition OID_LOOKUP_CHUNK_ID : bytes := bs "OIDL".
Definition NO_PARENT : Z := 1879048192.                (* 0x7000_0000 *)
Definition EXTENDED_EDGES_MASK : Z := 2147483648.      (* 0x8000_0000 *)
Definition LAST_EXTENDED_EDGE_MASK : Z := 2147483648.  (* 0x8000_0000 *)

(** ** [File] in [lib.rs], [file/init.rs] *)

Record File := mkFile {
  base_graph_count : Z;
  base_graphs_list_offset : option nat;
  commit_data_offset : nat;
  data : bytes;
  extra_edges_list_range : option (nat * nat);
  fan : list Z;
  oid_lookup_offset : nat;
  path : bytes;
  hash_len : nat;
  object_hash : Kind }.

(** Opening and mapping the file is left out, and so is [Io]. *)
Inductive Error :=
| BaseGraphMismatch (from_header from_chunk : Z)
| CommitCountMismatch (chunk1_id : bytes) (chunk1_commits : Z) (chunk2_id : bytes) (chunk2_commits : Z)
| TooSmall
| NoSignature
| Trailer (expected actual : nat)
| UnsupportedHashVersion (v : Z)
| UnsupportedVersion (v : Z)
| ChunkFileDecode (e : Chunk.Error)
| MissingChunk (e : by_kind_error)
| InvalidChunkSize (id : bytes) (chunk_size expected : nat).

Definition MIN_FILE_SIZE : nat :=
  HEADER_LEN + size_for_entries 3 + FAN_LEN * 4 + len_in_bytes shortest.

(** [usize] to [u32], with [expect]. *)
Definition to_u32 {E} (n : nat) : res E Z :=
  if Z.of_nat n <? 2 ^ 32 then Ok (Z.of_nat n) else Panic.
Definition range_len (r : nat * nat) : nat := r.2 - r.1.

(** A chunk of records of that size: its offset and the number of records. *)
Definition records_of (id : bytes) (entry_size : nat) (r : nat * nat) : res Error (nat * Z) :=
  let chunk_size := range_len r in
  if negb (chunk_size mod entry_size =? 0)%nat then Err (InvalidChunkSize id chunk_size entry_size)
  else n ← to_u32 (chunk_size / entry_size)%nat; Ok (r.1, n).
Definition base_graphs_list (object_hash : Kind) (base_graph_count : Z) (r : nat * nat) : res Error nat :=
  '(start, chunk_base_graph_count) ← records_of BASE_GRAPHS_LIST_CHUNK_ID (len_in_bytes object_hash) r;
  if negb (chunk_base_graph_count =? base_graph_count)
  then Err (BaseGraphMismatch base_graph_count chunk_base_graph_count)
  else Ok start.
Definition fan_chunk (r : nat * nat) : res Error nat :=
  if negb (range_len r =? 4 * FAN_LEN)%nat then Err (InvalidChunkSize OID_FAN_CHUNK_ID (range_len r) (4 * FAN_LEN))
  else Ok r.1.
(** [chunks.validated_usize_offset_by_id(id, validate)??]. *)
Definition required {T} (chunks : Index) (id : bytes) (validate : nat * nat → res Error T) : res Error T :=
  r ← map_err MissingChunk (validated_usize_offset_by_id chunks id validate); r.
(** [chunks.validated_usize_offset_by_id(id, validate).ok().transpose()?]. *)
Definition optional {T} (chunks : Index) (id : bytes) (validate : nat * nat → res Error T) : res Error (option T) :=
  match validated_usize_offset_by_id chunks id validate with
  | Ok r => Some <$> r
  | Err _ => Ok None
  | Panic => Panic
  end.

Definition graph_read_fan {E} (d : bytes) : res E (list Z * nat) :=
  _ ← assert_ (FAN_LEN * 4 <=? length d)%nat;
  fan ← mapM_res read_u32 (take FAN_LEN (chunks_exact 4 d));
  Ok (fan, FAN_LEN * 4)%nat.

Definition file_new (data path : bytes) : res Error File :=
  if (length data <? MIN_FILE_SIZE)%nat then Err TooSmall
  else
    signature ← slice data 0 4;
    if bool_decide (signature ≠ SIGNATURE) then Err NoSignature
    else
      version ← idx data 4;
      if negb (version =? 1) then Err (UnsupportedVersion version)
      else
        object_hash ← idx data 5;
        object_hash ← map_err UnsupportedHashVersion (kind_try_from object_hash);
        chunk_count ← idx data 6;
        base_graph_count ← idx data 7;
        chunks ← map_err ChunkFileDecode (Chunk.from_bytes data 8 (Z.to_nat chunk_count));
        base_graphs_list_offset ←
          optional chunks BASE_GRAPHS_LIST_CHUNK_ID (base_graphs_list object_hash base_graph_count);
        '(commit_data_offset, commit_data_count) ←
          required chunks COMMIT_DATA_CHUNK_ID
            (records_of COMMIT_DATA_CHUNK_ID (len_in_bytes object_hash + COMMIT_DATA_ENTRY_SIZE_SANS_HASH));
        fan_offset ← required chunks OID_FAN_CHUNK_ID fan_chunk;
        '(oid_lookup_offset, oid_lookup_count) ←
          required chunks OID_LOOKUP_CHUNK_ID (records_of OID_LOOKUP_CHUNK_ID (len_in_bytes object_hash));
        extra_edges_list_range ← optional chunks EXTENDED_EDGES_LIST_CHUNK_ID Ok;
        highest_offset ← lift (highest_offset chunks);
        trailer ← slice_from data (Z.to_nat highest_offset);
        if negb (length trailer =? len_in_bytes object_hash)%nat
        then Err (Trailer (len_in_bytes object_hash) (length trailer))
        else if (0 <? base_graph_count) && bool_decide (base_graphs_list_offset = None)
        then Err (MissingChunk (NotFound BASE_GRAPHS_LIST_CHUNK_ID))
        else
          fan_data ← slice_from data fan_offset;
          '(fan, _) ← graph_read_fan fan_data;
          n ← idx fan 255;
          if negb (oid_lookup_count =? n)
          then Err (CommitCountMismatch OID_FAN_CHUNK_ID n OID_LOOKUP_CHUNK_ID oid_lookup_count)
          else if negb (commit_data_count =? n)
          then Err (CommitCountMismatch OID_FAN_CHUNK_ID n COMMIT_DATA_CHUNK_ID commit_data_count)
          else
            Ok (mkFile base_graph_count base_graphs_list_offset commit_data_offset data extra_edges_list_range fan
                  oid_lookup_offset path (len_in_bytes object_hash) object_hash).

(** ** [file/access.rs] *)

Definition num_commits (f : File) : res Empty_set Z := idx (fan f) 255.
Definition id_at (f : File) (pos : Z) : res Empty_set bytes :=
  n ← num_commits f;
  _ ← assert_ (pos <? n);
  window (data f) (oid_lookup_offset f + Z.to_nat pos * hash_len f) (hash_len f).
Definition iter_base_graph_ids (f : File) : res Empty_set (list bytes) :=
  let start := match base_graphs_list_offset f with Some start => start | None => 0%nat end in
  d ← window (data f) start (hash_len f * Z.to_nat (base_graph_count f));
  Ok (chunks_exact (hash_len f) d).
(** [(0..self.num_commits()).map(..)], collected. *)
Definition positions (n : Z) : list Z := Z.of_nat <$> seq 0 (Z.to_nat n).
Definition iter_ids (f : File) : res Empty_set (list bytes) :=
  n ← num_commits f; mapM_res (id_at f) (positions n).
Definition file_lookup (f : File) (id : bytes) : res Empty_set (option Z) :=
  first_byte ← first_byte id;
  '(lower_bound, upper_bound) ← bounds first_byte (fan f);
  bisect (id_at f) (Z.to_nat (upper_bound - lower_bound)) (λ mid_sha, Ok (bytes_cmp id mid_sha))
    lower_bound upper_bound.
Definition commit_data_bytes (f : File) (pos : Z) : res Empty_set bytes :=
  n ← num_commits f;
  _ ← assert_ (pos <? n);
  let entry_size := (hash_len f + COMMIT_DATA_ENTRY_SIZE_SANS_HASH)%nat in
  window (data f) (commit_data_offset f + Z.to_nat pos * entry_size) entry_size.
Definition extra_edges_data (f : File) : res Empty_set (option bytes) :=
  match extra_edges_list_range f with
  | None => Ok None
  | Some (a, b) => Some <$> slice (data f) a b
  end.

(** ** [file/commit.rs] *)

Inductive CommitError :=
| ExtraEdgesListOverflow (id : ObjectId)
| FirstParentIsExtraEdgeIndex (id : ObjectId)
| MissingExtraEdgesList (id : ObjectId)
| SecondParentWithoutFirstParent (id : ObjectId).

Inductive ParentEdge := NoEdge | GraphPosition (pos : Z) | ExtraEdgeIndex (index : Z).
Definition edge_from_raw (raw : Z) : ParentEdge :=
  if raw =? NO_PARENT then NoEdge
  else if negb (Z.land raw EXTENDED_EDGES_MASK =? 0) then ExtraEdgeIndex (Z.ldiff raw EXTENDED_EDGES_MASK)
  else GraphPosition raw.
Inductive ExtraEdge := Internal (pos : Z) | Last (pos : Z).
Definition extra_from_raw (raw : Z) : ExtraEdge :=
  if negb (Z.land raw LAST_EXTENDED_EDGE_MASK =? 0) then Last (Z.ldiff raw LAST_EXTENDED_EDGE_MASK)
  else Internal raw.

Record Commit := mkCommit {
  file : File;
  pos : Z;
  commit_timestamp : Z;
  generation : Z;
  parent1 : ParentEdge;
  parent2 : ParentEdge;
  root_tree_id : bytes }.

(** [Commit::new], which is [File::commit_at]. *)
Definition commit_at (f : File) (pos : Z) : res Empty_set Commit :=
  b ← commit_data_bytes f pos;
  root_tree_id ← slice_to b (hash_len f);
  p1 ← window b (hash_len f) 4;
  p1 ← read_u32 p1;
  p2 ← window b (hash_len f + 4) 4;
  p2 ← read_u32 p2;
  g ← window b (hash_len f + 8) 4;
  g ← read_u32 g;
  t ← window b (hash_len f + 8) 8;
  t ← read_u64 t;
  Ok (mkCommit f pos (Z.land t 17179869183 (* 0x0003_ffff_ffff *)) (Z.shiftr g 2)
        (edge_from_raw p1) (edge_from_raw p2) root_tree_id).
Definition iter_commits (f : File) : res Empty_set (list Commit) :=
  n ← num_commits f; mapM_res (commit_at f) (positions n).
Definition commit_id (c : Commit) : res Empty_set bytes := id_at (file c) (pos c).

(** [slice.chunks(n)]: the last chunk may be shorter. *)
Fixpoint chunks_fuel {A} (fuel n : nat) (l : list A) : list (list A) :=
  match fuel with
  | O => []
  | S fuel => if bool_decide (l = []) then [] else take n l :: chunks_fuel fuel n (drop n l)
  end.
Definition chunks_of {A} (n : nat) (l : list A) : list (list A) := chunks_fuel (length l) n l.

Inductive ParentIteratorState := First | Second | Extra (chunks : list bytes) | Exhausted.
(** An item of the iterator and the next state. *)
Notation Item := (res Empty_set (option (CommitError + Z) * ParentIteratorState)).
Definition fail (c : Commit) (err : ObjectId → CommitError) : Item :=
  id ← commit_id c; id ← from_bytes_or_panic id; Ok (Some (inl (err id)), Exhausted).

(** [Parents::next] in the state [Extra]. *)
Definition next_extra (c : Commit) (chunks : list bytes) : Item :=
  match chunks with
  | [] => fail c ExtraEdgesListOverflow
  | chunk :: chunks =>
      extra_edge ← read_u32 chunk;
      Ok (match extra_from_raw extra_edge with
          | Internal pos => (Some (inr pos), Extra chunks)
          | Last pos => (Some (inr pos), Exhausted)
          end)
  end.
Definition parents_next (c : Commit) (state : ParentIteratorState) : Item :=
  match state with
  | First =>
      match parent1 c with
      | NoEdge =>
          match parent2 c with
          | NoEdge => Ok (None, Exhausted)
          | _ => fail c SecondParentWithoutFirstParent
          end
      | GraphPosition pos => Ok (Some (inr pos), Second)
      | ExtraEdgeIndex _ => fail c FirstParentIsExtraEdgeIndex
      end
  | Second =>
      match parent2 c with
      | NoEdge => Ok (None, Exhausted)
      | GraphPosition pos => Ok (Some (inr pos), Exhausted)
      | ExtraEdgeIndex extra_edge_index =>
          extra_edges_list ← extra_edges_data (file c);
          match extra_edges_list with
          | Some extra_edges_list =>
              match get_from extra_edges_list (Z.to_nat extra_edge_index * 4) with
              | Some tail => next_extra c (chunks_of 4 tail)
              | None => fail c ExtraEdgesListOverflow
              end
          | None => fail c MissingExtraEdgesList
          end
      end
  | Extra chunks => next_extra c chunks
  | Exhausted => Ok (None, Exhausted)
  end.

(** A loop over the parents that stops at the first error, of the iterator or of
    the body.  There are two parents and at most as many further ones as the
    file has bytes. *)
Fixpoint fold_parents {A E} (f : A → Z → res E A) (on_err : CommitError → E) (c : Commit) (fuel : nat)
    (state : ParentIteratorState) (acc : A) : res E A :=
  match fuel with
  | O => Panic
  | S fuel =>
      '(item, state) ← lift (parents_next c state);
      match item with
      | None => Ok acc
      | Some (inl e) => Err (on_err e)
      | Some (inr pos) => acc ← f acc pos; fold_parents f on_err c fuel state acc
      end
  end.
Definition parents_fuel (c : Commit) : nat := 4 + length (data (file c)).
(** All parents, or the first error. *)
Definition iter_parents (c : Commit) : res CommitError (list Z) :=
  fold_parents (λ l pos, Ok (l ++ [pos])) (λ e, e) c (parents_fuel c) First [].
(** [Commit::parent1()]: the first item. *)
Definition first_parent (c : Commit) : res CommitError (option Z) :=
  '(item, _) ← lift (parents_next c First);
  match item with
  | None => Ok None
  | Some (inl e) => Err e
  | Some (inr pos) => Ok (Some pos)
  end.

(** ** Opened files *)

(** What [file_new] establishes: all tables lie inside the file. *)
Record valid_file (f : File) (n : nat) : Prop := {
  vf_fan : length (fan f) = 256%nat;
  vf_u32 : Forall (λ z, u32 z) (fan f);
  vf_num : fan f !! 255%nat = Some (Z.of_nat n);
  vf_hash : hash_len f = 20%nat;
  vf_bytes : is_bytes (data f);
  vf_ids : (oid_lookup_offset f + n * 20 ≤ length (data f))%nat;
  vf_commits : (commit_data_offset f + n * 36 ≤ length (data f))%nat;
  vf_count : 0 ≤ base_graph_count f < 256;
  vf_base : match base_graphs_list_offset f with
            | Some o => Z.of_nat o + 20 * base_graph_count f ≤ Z.of_nat (length (data f))
            | None => base_graph_count f = 0
            end;
  vf_edges : match extra_edges_list_range f with
             | Some (a, b) => (a ≤ b ≤ length (data f))%nat
             | None => True
             end }.

Lemma window_le {E} (d : bytes) start len :
  (start + len ≤ length d)%nat → @window E d start len = Ok (take len (drop start d)).
Proof.
  intros H. unfold window. rewrite slice_from_le, bind_Ok by lia. apply slice_to_le. rewrite length_drop. lia.
Qed.
Lemma is_bytes_window d start len : is_bytes d → is_bytes (take len (drop start d)).
Proof. intros. by apply Forall_take, Forall_drop. Qed.
Lemma length_window (d : bytes) start len :
  (start + len ≤ length d)%nat → length (take len (drop start d)) = len.
Proof. intros. rewrite length_take, length_drop. lia. Qed.

Lemma read_u32_ok {E} (b : bytes) : length b = 4%nat → @read_u32 E b = Ok (be_val b).
Proof. intros Hb. unfold read_u32. by rewrite Hb. Qed.
Lemma read_u64_ok {E} (b : bytes) : length b = 8%nat → @read_u64 E b = Ok (be_val b).
Proof. intros Hb. unfold read_u64. by rewrite Hb. Qed.
Lemma chunks_exact_all {A} n (l : list A) c : c ∈ chunks_exact n l → length c = n ∧ c ⊆ l.
Proof.
  unfold chunks_exact. generalize (length l) at 1. intros k. revert l.
  induction k as [|k IH]; intros l Hc; cbn in Hc; [by apply elem_of_nil in Hc|].
  destruct (Nat.leb_spec n (length l)); [|by apply elem_of_nil in Hc].
  apply elem_of_cons in Hc as [->|Hc].
  - split; [rewrite length_take; lia|]. intros x Hx. by eapply subseteq_take.
  - destruct (IH _ Hc) as [? Hsub]. split; [done|]. intros x Hx. eapply subseteq_drop. by apply Hsub.
Qed.
Lemma chunks_exact_count {A} n (l : list A) : (0 < n)%nat → length (chunks_exact n l) = (length l / n)%nat.
Proof.
  intros Hn. unfold chunks_exact. assert (Hk : (length l ≤ length l)%nat) by lia. revert Hk.
  generalize (length l) at 2 3 as k. intros k. revert l. induction k as [|k IH]; intros l Hk.
  { assert (length l = 0)%nat as -> by lia. by rewrite Nat.Div0.div_0_l. }
  cbn [chunks_exact_fuel]. destruct (Nat.leb_spec n (length l)).
  - cbn [length]. rewrite IH by (rewrite length_drop; lia). rewrite length_drop.
    replace (length l) with ((length l - n) + 1 * n)%nat at 2 by lia. rewrite Nat.div_add by lia. lia.
  - by rewrite Nat.div_small.
Qed.
Lemma read_fan_ok {E} d : is_bytes d → (1024 ≤ length d)%nat →
  ∃ l, @graph_read_fan E d = Ok (l, 1024%nat) ∧ length l = 256%nat ∧ Forall (λ z, u32 z) l.
Proof.
  intros Hb Hl. unfold graph_read_fan, FAN_LEN. rewrite (proj2 (Nat.leb_le _ _)) by lia. cbn [assert_]. rewrite bind_Ok.
  assert (Hc : Forall (λ c, length c = 4%nat ∧ is_bytes c) (take 256 (chunks_exact 4 d))).
  { apply Forall_take, Forall_forall. intros c [Hlen Hsub]%chunks_exact_all. split; [done|].
    apply Forall_forall. intros x Hx%Hsub. by eapply Forall_forall in Hb. }
  rewrite (mapM_res_ok _ be_val).
  2:{ eapply Forall_impl; [exact Hc|]. intros c [Hc4 _]. by apply read_u32_ok. }
  rewrite bind_Ok. eexists. split_and!; [done| |].
  - rewrite length_fmap, length_take, chunks_exact_count by lia.
    assert (256 ≤ length d / 4)%nat; [|lia]. apply Nat.div_le_lower_bound; lia.
  - apply Forall_fmap. eapply Forall_impl; [exact Hc|]. intros c [Hc4 Hcb]. unfold compose.
    pose proof (be_val_bound c Hcb) as Hv. rewrite Hc4 in Hv. lia.
Qed.

Lemma records_of_safe id es a b : (0 < es)%nat → (a ≤ b)%nat → Z.of_nat b < 2 ^ 32 →
  safe (λ r, ∃ k, r = (a, Z.of_nat k) ∧ (a + k * es = b)%nat) (records_of id es (a, b)).
Proof.
  intros Hes Hab Hb. unfold records_of, to_u32, range_len. cbn [fst snd].
  destruct (Nat.eqb_spec ((b - a) mod es) 0) as [Hm|]; [|done]. cbn [negb].
  assert ((b - a) / es ≤ b - a)%nat by (apply Nat.Div0.div_le_upper_bound; nia).
  destruct (Z.ltb_spec (Z.of_nat ((b - a) / es)) (2 ^ 32)); [|lia]. rewrite bind_Ok. cbn [safe].
  eexists. split; [done|]. pose proof (Nat.div_mod_eq (b - a) es). lia.
Qed.
Lemma base_graphs_safe bgc a b : (a ≤ b)%nat → Z.of_nat b < 2 ^ 32 →
  safe (λ o, Z.of_nat o + 20 * bgc = Z.of_nat b) (base_graphs_list KSha1 bgc (a, b)).
Proof.
  intros Hab Hb. unfold base_graphs_list. eapply safe_bind; [by apply records_of_safe; [cbn; lia|..]|].
  intros ? _ (k & -> & Hk). cbn [len_in_bytes] in Hk. destruct (Z.eqb_spec (Z.of_nat k) bgc); cbn; [lia|done].
Qed.
Lemma fan_chunk_safe a b : (a ≤ b)%nat → safe (λ o, (o + 1024 = b)%nat) (fan_chunk (a, b)).
Proof.
  intros Hab. unfold fan_chunk, range_len, FAN_LEN. cbn [fst snd].
  destruct (Nat.eqb_spec (b - a) (4 * 256)); cbn; [lia|done].
Qed.

Section Open.
Context (d : bytes) (index : Index).
Hypothesis Hg : good_chunks (Z.of_nat (length d)) (chunks index).
Hypothesis Hsmall : Z.of_nat (length d) < 2 ^ 32.

(** The two ways to access a chunk, on a range inside the file. *)
Lemma required_safe {T} (Q : T → Prop) id (validate : nat * nat → res Error T) :
  (∀ a b, (a < b ≤ length d)%nat → safe Q (validate (a, b))) → safe Q (required index id validate).
Proof.
  intros Hv. unfold required, validated_usize_offset_by_id.
  pose proof (usize_offset_good index id _ Hg ltac:(lia)) as Ho.
  destruct (usize_offset_by_id index id) as [[a b]| |]; [|done|done]. destruct Ho as (Hab & Hb & _). cbn.
  apply Hv. lia.
Qed.
Lemma optional_safe {T} (Q : T → Prop) id (validate : nat * nat → res Error T) :
  (∀ a b, (a < b ≤ length d)%nat → safe Q (validate (a, b))) →
  safe (λ o, match o with Some t => Q t | None => True end) (optional index id validate).
Proof.
  intros Hv. unfold optional, validated_usize_offset_by_id.
  pose proof (usize_offset_good index id _ Hg ltac:(lia)) as Ho.
  destruct (usize_offset_by_id index id) as [[a b]| |]; [|done|done]. destruct Ho as (Hab & Hb & _). cbn.
  specialize (Hv a b ltac:(lia)). by destruct (validate (a, b)).
Qed.
Lemma highest_offset_ok : (0 < length (chunks index))%nat →
  ∃ o, highest_offset index = Ok o ∧ 0 ≤ o ≤ Z.of_nat (length d).
Proof.
  intros Hne. unfold highest_offset. destruct (list.last (chunks index)) as [c|] eqn:Hc.
  - cbn. eexists. split; [done|]. destruct Hg as [_ Hf]. rewrite Forall_forall in Hf.
    destruct (Hf c); [|lia]. apply last_Some in Hc as [l ->]. apply elem_of_app. right. by apply list_elem_of_singleton.
  - apply last_None in Hc. rewrite Hc in Hne. cbn in Hne. lia.
Qed.
End Open.

(** A guard: it fails, or the function goes on. *)
Ltac guard_step H := cbv beta;
  match goal with
  | |- safe _ (if ?b then Err _ else _) => destruct b eqn:H; [done|]
  end.
Lemma idx_safe (d : bytes) i : is_bytes d → (i < length d)%nat → safe (λ v, 0 ≤ v < 256) (@idx Error d i).
Proof.
  intros Hb Hi. destruct (lookup_lt_is_Some_2 d i Hi) as [v Hv]. unfold idx. rewrite Hv. cbn.
  by eapply Forall_lookup_1 in Hb.
Qed.
(** The chunks that [file_new] needs, and the check of the counts. *)
Lemma file_new_valid d p : is_bytes d → Z.of_nat (length d) < 2 ^ 32 →
  safe (λ f, data f = d ∧ path f = p ∧ ∃ n, valid_file f n) (file_new d p).
Proof.
  intros Hb Hsmall. unfold file_new. destruct (Nat.ltb_spec (length d) MIN_FILE_SIZE) as [|Hmin]; [done|].
  assert (Hlen : (1100 ≤ length d)%nat) by exact Hmin. clear Hmin.
  assert (Hsig : @slice Error Z d 0 4 = Ok (take 4 d)) by (apply slice_ok_iff; split_and!; [lia|lia|done]).
  rewrite Hsig, bind_Ok. guard_step Hs.
  eapply safe_bind; [apply idx_safe; [done|lia]|]. intros v _ _. guard_step Hv.
  eapply safe_bind; [apply idx_safe; [done|lia]|]. intros h _ _.
  apply (safe_bind (λ k, k = KSha1)); [unfold kind_try_from; by case_match|]. intros k _ ->. cbn [len_in_bytes].
  eapply safe_bind; [apply idx_safe; [done|lia]|]. intros cc _ _.
  eapply safe_bind; [apply idx_safe; [done|lia]|]. intros bgc _ Hbgc.
  eapply safe_bind; [apply safe_map_err, (from_bytes_good d 8 (Z.to_nat cc)); [lia|done]|].
  intros index Hindex [Hcount Hg].
  assert (Hcc : (0 < length (chunks index))%nat).
  { rewrite Hcount. unfold Chunk.from_bytes in Hindex. destruct (Nat.eqb_spec (Z.to_nat cc) 0); [done|lia]. }
  eapply safe_bind; [apply (optional_safe d index Hg Hsmall (λ o, Z.of_nat o + 20 * bgc ≤ Z.of_nat (length d)))|].
  { intros a b Hab. eapply safe_mono; [apply base_graphs_safe; lia|cbn; lia]. }
  intros bo _ Hbo.
  eapply safe_bind; [apply (required_safe d index Hg Hsmall (λ r, ∃ o k, r = (o, Z.of_nat k) ∧ (o + k * 36 ≤ length d)%nat))|].
  { intros a b Hab. eapply safe_mono; [apply records_of_safe; cbn; lia|]. intros r (k & -> & Hk).
    change (20 + COMMIT_DATA_ENTRY_SIZE_SANS_HASH)%nat with 36%nat in Hk. exists a, k. split; [done|lia]. }
  intros ? _ (co & k1 & -> & Hk1).
  eapply safe_bind; [apply (required_safe d index Hg Hsmall (λ o, (o + 1024 ≤ length d)%nat))|].
  { intros a b Hab. eapply safe_mono; [apply fan_chunk_safe; lia|cbn; lia]. }
  intros fo _ Hfo.
  eapply safe_bind; [apply (required_safe d index Hg Hsmall (λ r, ∃ o k, r = (o, Z.of_nat k) ∧ (o + k * 20 ≤ length d)%nat))|].
  { intros a b Hab. eapply safe_mono; [apply records_of_safe; cbn; lia|]. intros r (k & -> & Hk). exists a, k. split; [done|lia]. }
  intros ? _ (lo & k2 & -> & Hk2).
  eapply safe_bind; [apply (optional_safe d index Hg Hsmall (λ r, (r.1 ≤ r.2 ≤ length d)%nat)); cbn; lia|]. intros eo _ Heo.
  destruct (highest_offset_ok d index Hg Hcc) as (ho & -> & Hho). cbn [lift map_err]. rewrite bind_Ok.
  cbv beta in Hbgc, Hfo, Hbo, Heo. rewrite (slice_from_le d (Z.to_nat ho)), bind_Ok by lia. guard_step Htr. guard_step Hmiss.
  rewrite (slice_from_le d fo), bind_Ok by lia.
  destruct (@read_fan_ok Error (drop fo d)) as (l & -> & Hl & Hu); [by apply Forall_drop|rewrite length_drop; lia|].
  rewrite bind_Ok. destruct (lookup_lt_is_Some_2 l 255) as [n Hn]; [lia|]. unfold idx. rewrite Hn. cbn [expect].
  rewrite bind_Ok. destruct (Z.eqb_spec (Z.of_nat k2) n) as [<-|]; [|done].
  destruct (Z.eqb_spec (Z.of_nat k1) (Z.of_nat k2)) as [Heq|]; [|done]. apply Nat2Z.inj in Heq. subst k1.
  split_and!; [done|done|]. exists k2. split; cbn; try done.
  - destruct bo; [done|]. rewrite bool_decide_eq_true_2, andb_true_r in Hmiss by done. apply Z.ltb_ge in Hmiss. lia.
  - by destruct eo as [[a b]|].
Qed.

(** *** Access *)

(** The fields of a commit in the bytes of its record. *)
Definition decode_commit (f : File) (pos : Z) (b : bytes) : Commit :=
  mkCommit f pos (Z.land (be_val (take 8 (drop 28 b))) 17179869183)
    (Z.shiftr (be_val (take 4 (drop 28 b))) 2)
    (edge_from_raw (be_val (take 4 (drop 20 b)))) (edge_from_raw (be_val (take 4 (drop 24 b)))) (take 20 b).
Lemma commit_at_decodes f pos b : hash_len f = 20%nat → commit_data_bytes f pos = Ok b → length b = 36%nat →
  commit_at f pos = Ok (decode_commit f pos b).
Proof.
  intros Hh Hb Hl. unfold commit_at. rewrite Hb, bind_Ok, Hh.
  rewrite slice_to_le, bind_Ok by lia. rewrite !window_le by (cbn; lia). cbn [Nat.add].
  repeat first [rewrite bind_Ok | rewrite read_u32_ok by (apply length_window; lia)
    | rewrite read_u64_ok by (apply length_window; lia)].
  done.
Qed.

Section Valid.
Context (f : File) (n : nat).
Hypothesis Hv : valid_file f n.

Definition id_bytes (i : nat) : bytes := take 20 (drop (oid_lookup_offset f + i * 20) (data f)).
Definition commit_bytes (i : nat) : bytes := take 36 (drop (commit_data_offset f + i * 36) (data f)).
Definition commit_of (i : nat) : Commit := decode_commit f (Z.of_nat i) (commit_bytes i).

Lemma num_commits_ok : num_commits f = Ok (Z.of_nat n).
Proof. unfold num_commits, idx. by rewrite (vf_num _ _ Hv). Qed.
Lemma id_at_ok i : (i < n)%nat → id_at f (Z.of_nat i) = Ok (id_bytes i).
Proof.
  intros Hi. unfold id_at. rewrite num_commits_ok, bind_Ok, (proj2 (Z.ltb_lt _ _)) by lia. cbn [assert_]. rewrite bind_Ok.
  rewrite (vf_hash _ _ Hv), Nat2Z.id. pose proof (vf_ids _ _ Hv). apply window_le. nia.
Qed.
Lemma id_at_panics p : Z.of_nat n ≤ p → id_at f p = Panic.
Proof.
  intros Hp. unfold id_at. rewrite num_commits_ok, bind_Ok. by destruct (Z.ltb_spec p (Z.of_nat n)); [lia|].
Qed.
Lemma id_bytes_wf i : (i < n)%nat → wf_oid (id_bytes i).
Proof.
  intros Hi. pose proof (vf_ids _ _ Hv). split; [apply length_window; nia|apply is_bytes_window, Hv].
Qed.
Lemma commit_bytes_ok i : (i < n)%nat → length (commit_bytes i) = 36%nat ∧ is_bytes (commit_bytes i).
Proof.
  intros Hi. pose proof (vf_commits _ _ Hv). split; [apply length_window; nia|apply is_bytes_window, Hv].
Qed.
Lemma commit_at_ok i : (i < n)%nat → commit_at f (Z.of_nat i) = Ok (commit_of i).
Proof.
  intros Hi. destruct (commit_bytes_ok i Hi) as [Hl _]. apply commit_at_decodes; [apply Hv| |done].
  unfold commit_data_bytes.
  rewrite num_commits_ok, bind_Ok, (proj2 (Z.ltb_lt _ _)) by lia. cbn [assert_]. rewrite bind_Ok.
  rewrite (vf_hash _ _ Hv), Nat2Z.id. change (20 + COMMIT_DATA_ENTRY_SIZE_SANS_HASH)%nat with 36%nat.
  pose proof (vf_commits _ _ Hv). apply window_le. nia.
Qed.
Lemma commit_at_panics p : Z.of_nat n ≤ p → commit_at f p = Panic.
Proof.
  intros Hp. unfold commit_at, commit_data_bytes. rewrite num_commits_ok, bind_Ok.
  by destruct (Z.ltb_spec p (Z.of_nat n)); [lia|].
Qed.
Lemma commit_of_bounds i : (i < n)%nat →
  wf_oid (root_tree_id (commit_of i)) ∧ 0 ≤ generation (commit_of i) < 2 ^ 30 ∧
  0 ≤ commit_timestamp (commit_of i) < 2 ^ 34.
Proof.
  intros Hi. destruct (commit_bytes_ok i Hi) as [Hl Hb]. cbn [commit_of decode_commit root_tree_id generation commit_timestamp].
  split_and!.
  1: split; [rewrite length_take; lia|by apply Forall_take].
  - apply Z.shiftr_nonneg. apply be_val_bound, is_bytes_window, Hb.
  - pose proof (be_val_bound _ (is_bytes_window _ 28 4 Hb)) as Hx. rewrite length_window in Hx by lia.
    rewrite Z.shiftr_div_pow2 by lia. apply Z.div_lt_upper_bound; [lia|]. cbn in Hx |- *. lia.
  - apply Z.land_nonneg. right. lia.
  - change 17179869183 with (Z.ones 34). rewrite Z.land_ones by lia. apply Z.mod_pos_bound. lia.
Qed.

Lemma positions_nat m : positions (Z.of_nat m) = Z.of_nat <$> seq 0 m.
Proof. unfold positions. by rewrite Nat2Z.id. Qed.
Lemma mapM_positions {A} (g : Z → res Empty_set A) (h : nat → A) :
  (∀ i, (i < n)%nat → g (Z.of_nat i) = Ok (h i)) → mapM_res g (positions (Z.of_nat n)) = Ok (h <$> seq 0 n).
Proof.
  intros Hgh. rewrite positions_nat. rewrite (mapM_res_ok _ (h ∘ Z.to_nat)).
  - f_equal. rewrite <- list_fmap_compose. apply list_fmap_ext. intros i x _. unfold compose. by rewrite Nat2Z.id.
  - apply Forall_fmap, Forall_forall. intros i Hi%elem_of_seq. unfold compose. rewrite Nat2Z.id. apply Hgh. lia.
Qed.
Lemma iter_ids_ok : iter_ids f = Ok (id_bytes <$> seq 0 n).
Proof. unfold iter_ids. rewrite num_commits_ok, bind_Ok. apply mapM_positions, id_at_ok. Qed.
Lemma iter_commits_ok : iter_commits f = Ok (commit_of <$> seq 0 n).
Proof. unfold iter_commits. rewrite num_commits_ok, bind_Ok. apply mapM_positions, commit_at_ok. Qed.
Lemma base_graph_ids_ok : ∃ l, iter_base_graph_ids f = Ok l ∧ Z.of_nat (length l) = base_graph_count f ∧ Forall wf_oid l.
Proof.
  pose proof (vf_base _ _ Hv) as Hb. pose proof (vf_count _ _ Hv) as Hc. unfold iter_base_graph_ids.
  rewrite (vf_hash _ _ Hv).
  set (start := match base_graphs_list_offset f with Some start => start | None => 0%nat end).
  assert (Hs : (start + 20 * Z.to_nat (base_graph_count f) ≤ length (data f))%nat).
  { unfold start. destruct (base_graphs_list_offset f); lia. }
  rewrite window_le, bind_Ok by done. eexists. split_and!; [done| |].
  - rewrite chunks_exact_count, length_window by lia. rewrite Nat.mul_comm, Nat.div_mul by lia. lia.
  - apply Forall_forall. intros c [Hlen Hsub]%chunks_exact_all. split; [done|].
    apply Forall_forall. intros x Hx%Hsub. pose proof (is_bytes_window _ start (20 * Z.to_nat (base_graph_count f)) (vf_bytes _ _ Hv)) as Hw.
    by eapply Forall_forall in Hw.
Qed.
End Valid.

(** *** Parents *)

(** The words of the extended edge list for the parents behind the first. *)
Fixpoint extra_words (ps : list Z) : list Z :=
  match ps with
  | [] => []
  | [p] => [p + LAST_EXTENDED_EDGE_MASK]
  | p :: ps => p :: extra_words ps
  end.
(** How git stores parents: two words, and a position in the extended edge list
    if there are more than two. *)
Definition parent_words (ps : list Z) (index : Z) : Z * Z * list Z :=
  match ps with
  | [] => (NO_PARENT, NO_PARENT, [])
  | [p] => (p, NO_PARENT, [])
  | [p; q] => (p, q, [])
  | p :: ps => (p, index + EXTENDED_EDGES_MASK, extra_words ps)
  end.
Definition words_bytes (ws : list Z) : bytes := concat (be_bytes 4 <$> ws).

Lemma land_bit31 z : 0 ≤ z < 2 ^ 31 → Z.land z 2147483648 = 0 ∧
  Z.land (z + 2147483648) 2147483648 = 2147483648 ∧ Z.ldiff (z + 2147483648) 2147483648 = z.
Proof.
  intros Hz. change 2147483648 with (2 ^ 31).
  assert (H0 : Z.land z (2 ^ 31) = 0).
  { apply Z.bits_inj'. intros k Hk. rewrite Z.land_spec, Z.pow2_bits_eqb, Z.bits_0 by lia.
    destruct (Z.eqb_spec 31 k) as [<-|]; [|by rewrite andb_false_r]. rewrite andb_true_r.
    destruct (Z.eq_dec z 0) as [->|]; [apply Z.bits_0|]. apply Z.bits_above_log2; [lia|]. apply Z.log2_lt_pow2; lia. }
  assert (Hadd : z + 2 ^ 31 = Z.lor z (2 ^ 31)).
  { rewrite Z.add_nocarry_lxor by done. by apply Z.lxor_lor. }
  rewrite Hadd. split_and!; [done| |].
  - rewrite Z.land_lor_distr_l, H0, Z.land_diag. done.
  - apply Z.bits_inj'. intros k Hk. rewrite Z.ldiff_spec, Z.lor_spec, Z.pow2_bits_eqb by lia.
    destruct (Z.eqb_spec 31 k) as [<-|]; [|by rewrite orb_false_r, andb_true_r].
    rewrite andb_false_r. assert (Ht : Z.testbit (Z.land z (2 ^ 31)) 31 = false) by (by rewrite H0).
    rewrite Z.land_spec, Z.pow2_bits_true, andb_true_r in Ht by lia. done.
Qed.
Lemma edge_none : edge_from_raw NO_PARENT = NoEdge.
Proof. done. Qed.
Lemma edge_position p : 0 ≤ p < NO_PARENT → edge_from_raw p = GraphPosition p.
Proof.
  unfold NO_PARENT. intros Hp. unfold edge_from_raw, NO_PARENT, EXTENDED_EDGES_MASK.
  destruct (Z.eqb_spec p 1879048192); [lia|]. by rewrite (proj1 (land_bit31 p ltac:(lia))).
Qed.
Lemma edge_extra i : 0 ≤ i < 2 ^ 31 → edge_from_raw (i + EXTENDED_EDGES_MASK) = ExtraEdgeIndex i.
Proof.
  intros Hi. unfold edge_from_raw, NO_PARENT, EXTENDED_EDGES_MASK. destruct (Z.eqb_spec (i + 2147483648) 1879048192); [lia|].
  destruct (land_bit31 i Hi) as (_ & -> & ->). done.
Qed.
Lemma extra_internal p : 0 ≤ p < NO_PARENT → extra_from_raw p = Internal p.
Proof.
  unfold NO_PARENT. intros Hp. unfold extra_from_raw, LAST_EXTENDED_EDGE_MASK.
  by rewrite (proj1 (land_bit31 p ltac:(lia))).
Qed.
Lemma extra_last p : 0 ≤ p < NO_PARENT → extra_from_raw (p + LAST_EXTENDED_EDGE_MASK) = Last p.
Proof.
  unfold NO_PARENT. intros Hp. unfold extra_from_raw, LAST_EXTENDED_EDGE_MASK.
  destruct (land_bit31 p ltac:(lia)) as (_ & -> & ->). done.
Qed.

Lemma chunks_of_cons {A} n (l : list A) : (0 < n)%nat → l ≠ [] → chunks_of n l = take n l :: chunks_of n (drop n l).
Proof.
  intros Hn Hl. unfold chunks_of. assert (Hfuel : ∀ k (l : list A), (length l ≤ k)%nat → chunks_fuel k n l = chunks_fuel (length l) n l).
  { clear l Hl. intros k. induction k as [k IH] using lt_wf_ind. intros l Hk.
    destruct l as [|x l]; [by destruct k|]. destruct k as [|k]; [cbn in Hk; lia|]. cbn [chunks_fuel length].
    rewrite !bool_decide_eq_false_2 by done. f_equal. cbn [length] in Hk.
    assert (length (drop n (x :: l)) ≤ length l)%nat by (rewrite length_drop; cbn; lia).
    rewrite (IH k) by lia. destruct (decide (length l = k)) as [->|]; [symmetry; apply IH; lia|].
    symmetry. apply IH; lia. }
  destruct l as [|x l]; [done|]. cbn [length chunks_fuel]. rewrite bool_decide_eq_false_2 by done. f_equal.
  apply Hfuel. rewrite length_drop. cbn. lia.
Qed.
Lemma next_extra_word c w tl : 0 ≤ w < 2 ^ 32 →
  next_extra c (chunks_of 4 (be_bytes 4 w ++ tl)) =
  Ok (match extra_from_raw w with
      | Internal pos => (Some (inr pos), Extra (chunks_of 4 tl))
      | Last pos => (Some (inr pos), Exhausted)
      end).
Proof.
  intros Hw. assert (Hl : length (be_bytes 4 w) = 4%nat) by apply length_be_bytes.
  rewrite chunks_of_cons; [|lia|by destruct (be_bytes 4 w)]. rewrite take_app_length', drop_app_length' by done.
  cbn [next_extra]. rewrite read_u32_ok, bind_Ok by done. by rewrite be_val_be_bytes by (cbn; lia).
Qed.

Section Parents.
Context (c : Commit).
(** Collecting the rest of the parents from a state. *)
Abbreviation collect fuel state acc :=
  (fold_parents (λ l pos, Ok (l ++ [pos])) (λ e : CommitError, e) c fuel state acc).

Lemma collect_item fuel state acc p state' :
  parents_next c state = Ok (Some (inr p), state') → collect (S fuel) state acc = collect fuel state' (acc ++ [p]).
Proof. intros H. cbn [fold_parents]. rewrite H. done. Qed.
Lemma collect_end fuel state acc state' :
  parents_next c state = Ok (None, state') → collect (S fuel) state acc = Ok acc.
Proof. intros H. cbn [fold_parents]. rewrite H. done. Qed.
(** The extended edges, from the item that starts them on. *)
Lemma collect_extra ps post fuel state acc :
  ps ≠ [] → Forall (λ p, 0 ≤ p < NO_PARENT) ps → (length ps < fuel)%nat →
  parents_next c state = next_extra c (chunks_of 4 (words_bytes (extra_words ps) ++ post)) →
  collect fuel state acc = Ok (acc ++ ps).
Proof.
  intros Hne Hps. revert fuel state acc. induction Hps as [|p ps Hp Hps IH]; intros fuel state acc Hfuel Hnext; [done|].
  destruct fuel as [|[|fuel]]; [cbn in Hfuel; lia..|]. assert (Hpb : 0 ≤ p < 2 ^ 31) by (unfold NO_PARENT in Hp; lia).
  destruct ps as [|q ps].
  - unfold words_bytes in Hnext. cbn [extra_words fmap list_fmap concat] in Hnext. rewrite app_nil_r in Hnext.
    rewrite next_extra_word, extra_last in Hnext by (unfold LAST_EXTENDED_EDGE_MASK; lia || done).
    rewrite (collect_item _ _ _ _ _ Hnext). by apply (collect_end _ _ _ Exhausted).
  - change (extra_words (p :: q :: ps)) with (p :: extra_words (q :: ps)) in Hnext.
    unfold words_bytes in Hnext. cbn [fmap list_fmap concat] in Hnext. fold (words_bytes (extra_words (q :: ps))) in Hnext.
    rewrite <- app_assoc in Hnext. rewrite next_extra_word, extra_internal in Hnext by (lia || done).
    rewrite (collect_item _ _ _ _ _ Hnext). rewrite IH; [by rewrite <- app_assoc|done|cbn in Hfuel |- *; lia|done].
Qed.
End Parents.

Lemma length_words_bytes ws : length (words_bytes ws) = (4 * length ws)%nat.
Proof.
  unfold words_bytes. induction ws as [|w ws IH]; [done|]. cbn [fmap list_fmap concat]. rewrite length_app, length_be_bytes.
  rewrite IH. cbn. lia.
Qed.
Lemma length_extra_words ps : length (extra_words ps) = length ps.
Proof. induction ps as [|p [|q ps] IH]; [done|done|]. cbn [extra_words length] in *. by rewrite IH. Qed.
Lemma extra_edges_le f l : extra_edges_data f = Ok (Some l) → (length l ≤ length (data f))%nat.
Proof.
  unfold extra_edges_data. destruct (extra_edges_list_range f) as [[a b]|]; [|done].
  intros (s & Hs & [= <-])%fmap_ok. apply slice_ok_iff in Hs as (_ & _ & ->). rewrite length_take, length_drop. lia.
Qed.

(** The position of the extended edges of a commit that has more than two
    parents. *)
Lemma second_extra c index pre ws post :
  0 ≤ index → parent2 c = ExtraEdgeIndex index →
  extra_edges_data (file c) = Ok (Some (pre ++ words_bytes ws ++ post)) → Z.of_nat (length pre) = 4 * index →
  parents_next c Second = next_extra c (chunks_of 4 (words_bytes ws ++ post)).
Proof.
  intros Hi Hp2 Hex Hpre. cbn [parents_next]. rewrite Hp2, Hex, bind_Ok. unfold get_from.
  replace (Z.to_nat index * 4)%nat with (length pre) by lia.
  rewrite (proj2 (Nat.leb_le _ _)) by (rewrite length_app; lia). by rewrite drop_app_length.
Qed.

(** The iterator over parents returns, in order, exactly the parents that git
    stored with a commit: none, one, two, or any number of them with the help of
    the extended edge list, wherever in that list they are. *)
Lemma iter_parents_correct c ps index pre post :
  Forall (λ p, 0 ≤ p < NO_PARENT) ps → 0 ≤ index < 2 ^ 31 →
  parent1 c = edge_from_raw (parent_words ps index).1.1 → parent2 c = edge_from_raw (parent_words ps index).1.2 →
  ((parent_words ps index).2 ≠ [] →
    extra_edges_data (file c) = Ok (Some (pre ++ words_bytes (parent_words ps index).2 ++ post)) ∧
    Z.of_nat (length pre) = 4 * index) →
  iter_parents c = Ok ps ∧ first_parent c = Ok (head ps).
Proof.
  intros Hps Hi H1 H2 Hex. unfold iter_parents, first_parent, parents_fuel.
  change (4 + length (data (file c)))%nat with (S (S (S (S (length (data (file c))))))).
  destruct ps as [|p [|q ps]]; cbn [parent_words fst snd] in *.
  - assert (Hn : parents_next c First = Ok (None, Exhausted)) by (cbn [parents_next]; by rewrite H1, H2).
    rewrite (collect_end _ _ _ _ _ Hn), Hn. done.
  - apply Forall_cons in Hps as [Hp _]. rewrite edge_position in H1 by done.
    assert (Hn : parents_next c First = Ok (Some (inr p), Second)) by (cbn [parents_next]; by rewrite H1).
    rewrite (collect_item _ _ _ _ _ _ Hn), Hn. split; [|done].
    apply (collect_end _ _ _ _ Exhausted). cbn [parents_next]. by rewrite H2.
  - apply Forall_cons in Hps as [Hp Hps]. assert (H1' : parent1 c = GraphPosition p).
    { destruct ps; cbn in H1; rewrite H1; by apply edge_position. }
    assert (Hn : parents_next c First = Ok (Some (inr p), Second)) by (cbn [parents_next]; by rewrite H1').
    rewrite (collect_item _ _ _ _ _ _ Hn), Hn. split; [|done]. destruct ps as [|r ps].
    + apply Forall_cons in Hps as [Hq _]. cbn in H2. rewrite edge_position in H2 by done.
      assert (Hn2 : parents_next c Second = Ok (Some (inr q), Exhausted)) by (cbn [parents_next]; by rewrite H2).
      rewrite (collect_item _ _ _ _ _ _ Hn2). by apply (collect_end _ _ _ _ Exhausted).
    + cbn [parent_words fst snd] in H2, Hex. rewrite edge_extra in H2 by done.
      destruct Hex as [Hex Hpre]; [by destruct ps|].
      pose proof (second_extra c index pre _ post ltac:(lia) H2 Hex Hpre) as Hn2.
      apply (collect_extra c (q :: r :: ps) post); [done|done| |done].
      apply extra_edges_le in Hex. rewrite !length_app, length_words_bytes, length_extra_words in Hex. lia.
Qed.
Lemma parent_words_range ps j w1 w2 ws : Forall (λ p, 0 ≤ p < NO_PARENT) ps → 0 ≤ j < 2 ^ 31 →
  parent_words ps j = (w1, w2, ws) → 0 ≤ w1 < 2 ^ 32 ∧ 0 ≤ w2 < 2 ^ 32.
Proof.
  intros Hps Hj Heq. rewrite Forall_forall in Hps. unfold NO_PARENT, EXTENDED_EDGES_MASK in *.
  assert (Hin : ∀ q, q ∈ ps → 0 ≤ q < 2 ^ 32) by (intros q Hq; specialize (Hps q Hq); cbv beta in Hps; lia).
  destruct ps as [|a [|b [|c ps]]]; injection Heq as <- <- _; unfold NO_PARENT, EXTENDED_EDGES_MASK;
    split; first [lia | apply Hin; set_solver].
Qed.
Lemma words_bytes_app a b : words_bytes (a ++ b) = words_bytes a ++ words_bytes b.
Proof. unfold words_bytes. by rewrite fmap_app, concat_app. Qed.

(** ** Files as git writes them *)

Lemma be_bytes_app n m z : be_bytes (n + m) z = be_bytes n (z / 256 ^ Z.of_nat m) ++ be_bytes m z.
Proof.
  revert z. induction m as [|m IH]; intros z.
  { rewrite Nat.add_0_r. cbn. by rewrite Z.div_1_r, app_nil_r. }
  rewrite Nat.add_succ_r. cbn [be_bytes]. rewrite IH, <- app_assoc. f_equal. f_equal.
  rewrite Z.div_div by lia. f_equal. rewrite Nat2Z.inj_succ, Z.pow_succ_r by lia. lia.
Qed.

(** A commit and what the file stores of it. *)
Record Stored := mkStored {
  s_id : bytes; s_tree : bytes; s_parents : list Z; s_generation : Z; s_timestamp : Z }.
Definition wf_stored (c : Stored) : Prop :=
  wf_oid (s_id c) ∧ wf_oid (s_tree c) ∧ Forall (λ p, 0 ≤ p < NO_PARENT) (s_parents c) ∧
  0 ≤ s_generation c < 2 ^ 30 ∧ 0 ≤ s_timestamp c < 2 ^ 34.

(** The words of the parents, and the extended edges, from an index on. *)
Fixpoint placed (cs : list Stored) (index : Z) : list (Stored * Z * Z) * list Z :=
  match cs with
  | [] => ([], [])
  | c :: cs =>
      let '(w1, w2, ws) := parent_words (s_parents c) index in
      let r := placed cs (index + Z.of_nat (length ws)) in
      ((c, w1, w2) :: r.1, ws ++ r.2)
  end.
Definition cdat_record (x : Stored * Z * Z) : bytes :=
  let '(c, w1, w2) := x in
  s_tree c ++ be_bytes 4 w1 ++ be_bytes 4 w2 ++ be_bytes 8 (s_generation c * 2 ^ 34 + s_timestamp c).

Definition graph_chunks (cs : list Stored) (bases : list bytes) : contents :=
  [(OID_FAN_CHUNK_ID, words_bytes (list_fan (s_id <$> cs)));
   (OID_LOOKUP_CHUNK_ID, concat (s_id <$> cs));
   (COMMIT_DATA_CHUNK_ID, concat (cdat_record <$> (placed cs 0).1))] ++
  (if bool_decide ((placed cs 0).2 = []) then [] else [(EXTENDED_EDGES_LIST_CHUNK_ID, words_bytes (placed cs 0).2)]) ++
  (if bool_decide (bases = []) then [] else [(BASE_GRAPHS_LIST_CHUNK_ID, concat bases)]).
Definition graph_header (cs : list Stored) (bases : list bytes) : bytes :=
  SIGNATURE ++ [1; 1; Z.of_nat (length (graph_chunks cs bases)); Z.of_nat (length bases)].
Definition graph_file (cs : list Stored) (bases : list bytes) (trailer : bytes) : bytes :=
  Chunk.layout (graph_header cs bases) (graph_chunks cs bases) ++ trailer.

Lemma placed_length cs index : length (placed cs index).1 = length cs.
Proof.
  revert index. induction cs as [|c cs IH]; intros index; [done|]. cbn [placed].
  destruct (parent_words (s_parents c) index) as [[w1 w2] ws]. cbn. by rewrite IH.
Qed.
Lemma placed_at cs index i c : cs !! i = Some c →
  ∃ j w1 w2 ws pre post, (placed cs index).1 !! i = Some (c, w1, w2) ∧ parent_words (s_parents c) j = (w1, w2, ws) ∧
    (placed cs index).2 = pre ++ ws ++ post ∧ j = index + Z.of_nat (length pre).
Proof.
  revert index i. induction cs as [|c' cs IH]; intros index i Hi; [done|]. cbn [placed].
  destruct (parent_words (s_parents c') index) as [[w1 w2] ws] eqn:Hw. destruct i as [|i]; cbn in Hi.
  - simplify_eq. exists index, w1, w2, ws, [], (placed cs (index + Z.of_nat (length ws))).2.
    split_and!; [done|done|done|cbn; lia].
  - destruct (IH (index + Z.of_nat (length ws)) i Hi) as (j & v1 & v2 & vs & pre & post & Hp & Hpw & Heq & Hj).
    exists j, v1, v2, vs, (ws ++ pre), post. cbn [fst snd lookup list_lookup].
    split_and!; [done|done|by rewrite Heq, <- !app_assoc|]. rewrite length_app. lia.
Qed.
Lemma placed_tree cs index x : x ∈ (placed cs index).1 → x.1.1 ∈ cs.
Proof.
  revert index. induction cs as [|c cs IH]; intros index Hx; [by apply elem_of_nil in Hx|]. cbn [placed] in Hx.
  destruct (parent_words (s_parents c) index) as [[w1 w2] ws]. cbn in Hx.
  apply elem_of_cons in Hx as [->|Hx]; [left|right]. by eapply IH.
Qed.

(** A record, read back. *)
Lemma take_drop_mid (a b c : bytes) n k : n = length a → k = length b → take k (drop n (a ++ b ++ c)) = b.
Proof. intros -> ->. rewrite drop_app_length. apply take_app_length. Qed.
Lemma take_drop_end (a b : bytes) n k : n = length a → k = length b → take k (drop n (a ++ b)) = b.
Proof. intros -> ->. rewrite drop_app_length. apply firstn_all. Qed.
Lemma record_fields c w1 w2 : wf_stored c → 0 ≤ w1 < 2 ^ 32 → 0 ≤ w2 < 2 ^ 32 →
  let b := cdat_record (c, w1, w2) in
  length b = 36%nat ∧ take 20 b = s_tree c ∧ be_val (take 4 (drop 20 b)) = w1 ∧ be_val (take 4 (drop 24 b)) = w2 ∧
  Z.shiftr (be_val (take 4 (drop 28 b))) 2 = s_generation c ∧
  Z.land (be_val (take 8 (drop 28 b))) 17179869183 = s_timestamp c.
Proof.
  intros (_ & [Ht _] & _ & Hg & Hs) H1 H2. cbn zeta. unfold cdat_record.
  set (v := s_generation c * 2 ^ 34 + s_timestamp c).
  assert (Hv : 0 ≤ v < 2 ^ 64) by (unfold v; lia).
  assert (L : ∀ n z, length (be_bytes n z) = n) by (intros; apply length_be_bytes).
  split_and!.
  - rewrite !length_app, !L, Ht. done.
  - by apply take_app_length'.
  - rewrite take_drop_mid by (rewrite ?L; done). apply be_val_be_bytes. cbn. lia.
  - rewrite app_assoc, take_drop_mid by (rewrite ?length_app, ?L, ?Ht; done). apply be_val_be_bytes. cbn. lia.
  - rewrite !app_assoc, (be_bytes_app 4 4). rewrite take_drop_mid by (rewrite ?length_app, ?L, ?Ht; done).
    assert (Hq : v / 256 ^ Z.of_nat 4 = s_generation c * 4 + s_timestamp c / 2 ^ 32).
    { change (256 ^ Z.of_nat 4) with (2 ^ 32). unfold v.
      replace (s_generation c * 2 ^ 34) with ((s_generation c * 4) * 2 ^ 32) by lia. by rewrite Z.div_add_l by lia. }
    assert (Ht4 : 0 ≤ s_timestamp c / 2 ^ 32 < 4) by (split; [apply Z.div_pos; lia|apply Z.div_lt_upper_bound; lia]).
    rewrite be_val_be_bytes by (rewrite Hq; cbn; lia). rewrite Hq, Z.shiftr_div_pow2 by lia. change (2 ^ 2) with 4.
    rewrite Z.div_add_l by lia. rewrite (Z.div_small (_ / _) 4) by lia. lia.
  - rewrite !app_assoc. rewrite take_drop_end by (rewrite ?length_app, ?L, ?Ht; done). rewrite be_val_be_bytes by (cbn; lia).
    change 17179869183 with (Z.ones 34). rewrite Z.land_ones by lia. unfold v.
    rewrite Z.add_comm, Z.mod_add by lia. apply Z.mod_small. lia.
Qed.

Section Layout.
Context (cs : list Stored) (bases : list bytes) (trailer p : bytes).
Hypothesis Hwf : Forall wf_stored cs.
Hypothesis Hne : cs ≠ [].
Hypothesis Hsorted : StronglySorted bytes_lt (s_id <$> cs).
Hypothesis Hbases : Forall wf_oid bases.
Hypothesis Hcount : (length bases ≤ 255)%nat.
Hypothesis Htr : length trailer = 20%nat.
Hypothesis Hlen : Z.of_nat (length (graph_file cs bases trailer)) < 2 ^ 32.
Let ids := s_id <$> cs.
Let edges := (placed cs 0).2.
Let chunks_ := graph_chunks cs bases.
Let gf := graph_file cs bases trailer.

Lemma ids_wf_oid : Forall wf_oid ids.
Proof. apply Forall_fmap. eapply Forall_impl; [exact Hwf|]. by intros c (? & _). Qed.
Lemma length_fan_bytes : length (words_bytes (list_fan ids)) = 1024%nat.
Proof. rewrite length_words_bytes. unfold list_fan. by rewrite length_fmap. Qed.
Lemma length_id_bytes : length (concat ids) = (length cs * 20)%nat.
Proof.
  unfold ids. apply (length_concat_fixed s_id). intros c Hc. rewrite Forall_forall in Hwf. by destruct (Hwf c Hc) as [[? _] _].
Qed.
Lemma record_length x : x ∈ (placed cs 0).1 → length (cdat_record x) = 36%nat.
Proof.
  intros Hx%placed_tree. destruct x as [[c w1] w2]. cbn in Hx. rewrite Forall_forall in Hwf.
  destruct (Hwf c Hx) as (_ & [Ht _] & _). unfold cdat_record. rewrite !length_app, !length_be_bytes, Ht. done.
Qed.
Lemma length_record_bytes : length (concat (cdat_record <$> (placed cs 0).1)) = (length cs * 36)%nat.
Proof. rewrite (length_concat_fixed cdat_record 36) by apply record_length. by rewrite placed_length. Qed.
Lemma length_base_bytes : length (concat bases) = (length bases * 20)%nat.
Proof.
  rewrite <- (list_fmap_id bases) at 1. apply length_concat_fixed. intros c Hc. rewrite Forall_forall in Hbases.
  by destruct (Hbases c Hc).
Qed.
Lemma cs_pos : (0 < length cs)%nat.
Proof. destruct cs; [done|cbn; lia]. Qed.

Lemma wf_graph_chunks : wf_contents chunks_.
Proof.
  pose proof cs_pos as Hp. unfold chunks_, graph_chunks. fold edges ids.
  assert (He : edges ≠ [] → words_bytes edges ≠ []).
  { intros He Hw. apply (f_equal length) in Hw. rewrite length_words_bytes in Hw. destruct edges; [done|cbn in Hw; lia]. }
  assert (Hb : bases ≠ [] → concat bases ≠ []).
  { intros He' Hw. apply (f_equal length) in Hw. rewrite length_base_bytes in Hw. destruct bases; [done|cbn in Hw; lia]. }
  split_and!; [done| |].
  - do 2 case_bool_decide; by_decision.
  - assert (H3 : words_bytes (list_fan ids) ≠ [] ∧ concat ids ≠ [] ∧ concat (cdat_record <$> (placed cs 0).1) ≠ []).
    { split_and!; intros Hx; apply (f_equal length) in Hx; cbn [length] in Hx.
      - rewrite length_fan_bytes in Hx. done.
      - rewrite length_id_bytes in Hx. lia.
      - rewrite length_record_bytes in Hx. lia. }
    destruct H3 as (? & ? & ?).
    repeat (apply Forall_cons_2; [by split_and!|]). do 2 case_bool_decide; repeat (apply Forall_cons_2; [split_and!; auto|]);
      try apply Forall_nil_2; done.
Qed.
Lemma chunk_number : (3 ≤ length chunks_ ≤ 5)%nat.
Proof. unfold chunks_, graph_chunks. rewrite !length_app. do 2 case_bool_decide; cbn; lia. Qed.

(** The chunks in the file. *)
Lemma gf_64 : Z.of_nat (length gf) < 2 ^ 64.
Proof. unfold gf. lia. Qed.
Lemma chunk_in k d : (k, d) ∈ chunks_ →
  ∃ pre post, gf = pre ++ d ++ post ∧
    usize_offset_by_id (written_index (graph_header cs bases) chunks_) k = Ok (length pre, length pre + length d)%nat.
Proof.
  intros Hin. destruct (written_chunk (graph_header cs bases) chunks_ trailer wf_graph_chunks gf_64 k d Hin)
    as (pre & post & Hf & _ & Ho). eauto.
Qed.
Lemma commits_small : Z.of_nat (length cs) < 2 ^ 31.
Proof.
  destruct (chunk_in OID_LOOKUP_CHUNK_ID (concat ids)) as (pre & post & Hf & _).
  { unfold chunks_, graph_chunks. right. left. }
  apply (f_equal length) in Hf. rewrite !length_app, length_id_bytes in Hf. unfold gf in Hf. lia.
Qed.
Lemma fan_props : length (list_fan ids) = 256%nat ∧ Forall (λ z, u32 z) (list_fan ids) ∧
  list_fan ids !! 255%nat = Some (Z.of_nat (length cs)).
Proof.
  pose proof (length_fmap s_id cs) as Hl. fold ids in Hl. unfold list_fan. split_and!.
  - by rewrite length_fmap.
  - apply Forall_fmap, Forall_forall. intros b _. unfold compose.
    pose proof (count_le_length (λ o, nth 0 o 0) b ids) as H. pose proof (commits_small) as Hs. lia.
  - rewrite list_lookup_fmap. change (all_bytes !! 255%nat) with (Some 255). simpl. do 2 f_equal.
    rewrite count_le_all; [done|]. eapply Forall_impl; [exact ids_wf_oid|]. intros o [Ho Hb]. cbn.
    destruct o as [|b o]; [done|]. apply Forall_cons in Hb as [Hb _]. cbn. lia.
Qed.

Lemma required_in {T} k d (validate : nat * nat → res Error T) : (k, d) ∈ chunks_ →
  ∃ pre post, gf = pre ++ d ++ post ∧
    required (written_index (graph_header cs bases) chunks_) k validate = validate (length pre, length pre + length d)%nat.
Proof.
  intros Hin. destruct (chunk_in k d Hin) as (pre & post & Hf & Ho). exists pre, post. split; [done|].
  unfold required, validated_usize_offset_by_id. rewrite Ho. cbn. by destruct (validate _).
Qed.
Lemma optional_in {T} k d (validate : nat * nat → res Error T) : (k, d) ∈ chunks_ →
  ∃ pre post, gf = pre ++ d ++ post ∧
    optional (written_index (graph_header cs bases) chunks_) k validate =
      Some <$> validate (length pre, length pre + length d)%nat.
Proof.
  intros Hin. destruct (chunk_in k d Hin) as (pre & post & Hf & Ho). exists pre, post. split; [done|].
  unfold optional, validated_usize_offset_by_id. by rewrite Ho.
Qed.
Lemma optional_out {T} k (validate : nat * nat → res Error T) : k ∉ chunks_.*1 →
  optional (written_index (graph_header cs bases) chunks_) k validate = Ok None.
Proof.
  intros Hk. unfold optional, validated_usize_offset_by_id.
  by destruct (no_chunk_written (graph_header cs bases) chunks_ k Hk) as [_ ->].
Qed.
Lemma records_exact id a k es : (0 < es)%nat → Z.of_nat k < 2 ^ 32 → records_of id es (a, a + k * es)%nat = Ok (a, Z.of_nat k).
Proof.
  intros Hes Hk. unfold records_of, range_len, to_u32. cbn [fst snd]. rewrite Nat.add_comm, Nat.add_sub.
  rewrite Nat.Div0.mod_mul, Nat.div_mul by lia. cbn [Nat.eqb negb]. by rewrite (proj2 (Z.ltb_lt _ _)).
Qed.
Lemma read_fan_exact {E} rest : @graph_read_fan E (words_bytes (list_fan ids) ++ rest) = Ok (list_fan ids, 1024%nat).
Proof.
  destruct fan_props as (Hf & Hu & _). unfold graph_read_fan, FAN_LEN.
  rewrite (proj2 (Nat.leb_le _ _)) by (rewrite length_app, length_fan_bytes; lia). cbn [assert_]. rewrite bind_Ok.
  unfold words_bytes. rewrite <- Hf at 1. rewrite (chunks_records (be_bytes 4) 4) by (lia || intros; apply length_be_bytes).
  rewrite (mapM_res_ok _ be_val).
  2:{ apply Forall_fmap, Forall_forall. intros z _. apply read_u32_ok, length_be_bytes. }
  rewrite bind_Ok. do 2 f_equal. rewrite <- list_fmap_compose. rewrite <- (list_fmap_id (list_fan ids)) at 2.
  apply list_fmap_ext. intros i z Hz. apply be_val_be_bytes. eapply Forall_lookup_1 in Hu; [|done]. cbn in Hu |- *. lia.
Qed.

(** What is known of the opened file. *)
Record opened_as (f : File) : Prop := {
  oa_data : data f = gf;
  oa_fan : fan f = list_fan ids;
  oa_hash : hash_len f = 20%nat;
  oa_count : base_graph_count f = Z.of_nat (length bases);
  oa_ids : ∃ pre post, gf = pre ++ concat ids ++ post ∧ oid_lookup_offset f = length pre;
  oa_commits : ∃ pre post, gf = pre ++ concat (cdat_record <$> (placed cs 0).1) ++ post ∧
    commit_data_offset f = length pre;
  oa_edges : edges = [] ∨ ∃ pre post, gf = pre ++ words_bytes edges ++ post ∧
    extra_edges_list_range f = Some (length pre, length pre + length (words_bytes edges))%nat;
  oa_bases : bases = [] ∧ base_graphs_list_offset f = None ∨ ∃ pre post, gf = pre ++ concat bases ++ post ∧
    base_graphs_list_offset f = Some (length pre) }.

Lemma gf_header : ∃ rest, gf = 67 :: 71 :: 80 :: 72 :: 1 :: 1 :: Z.of_nat (length chunks_) :: Z.of_nat (length bases) :: rest.
Proof. unfold gf, graph_file, Chunk.layout, graph_header. rewrite <- !app_assoc. by eexists. Qed.
Lemma gf_size : (1100 ≤ length gf)%nat.
Proof.
  unfold gf, graph_file. rewrite length_app, Htr, (length_layout _ _ wf_graph_chunks).
  pose proof chunk_number as Hn. fold chunks_.
  assert (Hb : (1024 + 20 + 36 ≤ length (body chunks_))%nat).
  { unfold chunks_, graph_chunks. cbn [app]. rewrite !body_cons, !length_app. fold ids.
    rewrite length_fan_bytes, length_id_bytes, length_record_bytes. pose proof cs_pos. lia. }
  unfold size_for_entries, ENTRY_SIZE. lia.
Qed.
Lemma bases_chunk :
  ∃ o, optional (written_index (graph_header cs bases) chunks_) BASE_GRAPHS_LIST_CHUNK_ID
         (base_graphs_list KSha1 (Z.of_nat (length bases))) = Ok o ∧
    (bases = [] ∧ o = None ∨ bases ≠ [] ∧ ∃ pre post, gf = pre ++ concat bases ++ post ∧ o = Some (length pre)).
Proof.
  destruct (decide (bases = [])) as [Hb|Hb].
  - exists None. split; [|by left]. apply optional_out. unfold chunks_, graph_chunks.
    rewrite (bool_decide_eq_true_2 _ Hb). case_bool_decide; by_decision.
  - destruct (optional_in BASE_GRAPHS_LIST_CHUNK_ID (concat bases) (base_graphs_list KSha1 (Z.of_nat (length bases))))
      as (pre & post & Hf & ->).
    { unfold chunks_, graph_chunks. rewrite (bool_decide_eq_false_2 _ Hb). rewrite !elem_of_app. right. right. left. }
    exists (Some (length pre)). split; [|eauto 6]. unfold base_graphs_list. rewrite length_base_bytes. cbn [len_in_bytes].
    rewrite records_exact, bind_Ok by lia. by rewrite Z.eqb_refl.
Qed.
Lemma edges_chunk :
  ∃ o, optional (written_index (graph_header cs bases) chunks_) EXTENDED_EDGES_LIST_CHUNK_ID Ok = Ok o ∧
    (edges = [] ∨ ∃ pre post, gf = pre ++ words_bytes edges ++ post ∧
      o = Some (length pre, length pre + length (words_bytes edges))%nat).
Proof.
  destruct (decide (edges = [])) as [He|He].
  - exists None. split; [|by left]. apply optional_out. unfold chunks_, graph_chunks. fold edges.
    rewrite (bool_decide_eq_true_2 _ He). case_bool_decide; by_decision.
  - destruct (optional_in EXTENDED_EDGES_LIST_CHUNK_ID (words_bytes edges) Ok) as (pre & post & Hf & ->).
    { unfold chunks_, graph_chunks. fold edges. rewrite (bool_decide_eq_false_2 _ He). rewrite !elem_of_app. right. left. left. }
    eexists. split; [done|]. right. eauto.
Qed.

Lemma file_new_graph : ∃ f, file_new gf p = Ok f ∧ opened_as f.
Proof.
  pose proof commits_small as Hsm. pose proof chunk_number as Hcn. pose proof gf_size as Hsz.
  destruct gf_header as [rest Hh]. destruct fan_props as (_ & _ & Hlast).
  unfold file_new. destruct (Nat.ltb_spec (length gf) MIN_FILE_SIZE) as [Hmin|_];
    [change MIN_FILE_SIZE with 1100%nat in Hmin; lia|].
  assert (Hs : @slice Error Z gf 0 4 = Ok SIGNATURE) by (rewrite Hh; done). rewrite Hs, bind_Ok.
  rewrite bool_decide_eq_false_2 by (intros H; by apply H).
  assert (Hidx : @idx Error gf 4 = Ok 1 ∧ @idx Error gf 5 = Ok 1 ∧ @idx Error gf 6 = Ok (Z.of_nat (length chunks_)) ∧
    @idx Error gf 7 = Ok (Z.of_nat (length bases))) by (rewrite Hh; done).
  destruct Hidx as (-> & -> & -> & ->). rewrite !bind_Ok. cbn [Z.eqb Pos.eqb negb kind_try_from map_err].
  rewrite !bind_Ok. cbn [len_in_bytes]. rewrite Nat2Z.id.
  pose proof (from_bytes_layout (graph_header cs bases) chunks_ trailer wf_graph_chunks gf_64) as Hfb.
  change (length (graph_header cs bases)) with 8%nat in Hfb at 1.
  change (Chunk.layout _ chunks_ ++ trailer) with gf in Hfb.
  change (mkIndex _ _) with (written_index (graph_header cs bases) chunks_) in Hfb. rewrite Hfb. cbn [map_err]. rewrite bind_Ok.
  destruct bases_chunk as (bo & -> & Hbo). rewrite bind_Ok.
  destruct (required_in COMMIT_DATA_CHUNK_ID (concat (cdat_record <$> (placed cs 0).1))
    (records_of COMMIT_DATA_CHUNK_ID (20 + COMMIT_DATA_ENTRY_SIZE_SANS_HASH))) as (pre1 & post1 & Hf1 & ->); [right; right; left|].
  rewrite length_record_bytes. change (20 + COMMIT_DATA_ENTRY_SIZE_SANS_HASH)%nat with 36%nat.
  rewrite records_exact, bind_Ok by lia.
  destruct (required_in OID_FAN_CHUNK_ID (words_bytes (list_fan ids)) fan_chunk) as (pre2 & post2 & Hf2 & ->); [left|].
  assert (Hfc : fan_chunk (length pre2, length pre2 + length (words_bytes (list_fan ids)))%nat = Ok (length pre2)).
  { rewrite length_fan_bytes. unfold fan_chunk, range_len. cbn [fst snd]. by rewrite Nat.add_comm, Nat.add_sub. }
  rewrite Hfc, bind_Ok.
  destruct (required_in OID_LOOKUP_CHUNK_ID (concat ids) (records_of OID_LOOKUP_CHUNK_ID 20))
    as (pre3 & post3 & Hf3 & ->); [right; left|].
  rewrite length_id_bytes, records_exact, bind_Ok by lia.
  destruct edges_chunk as (eo & -> & Heo). rewrite bind_Ok.
  rewrite (highest_offset_written (graph_header cs bases) chunks_ wf_graph_chunks). cbn [lift map_err]. rewrite bind_Ok, Nat2Z.id.
  assert (Hdrop : @slice_from Error Z gf (length (Chunk.layout (graph_header cs bases) chunks_)) = Ok trailer)
    by (apply slice_from_app). rewrite Hdrop, bind_Ok, Htr. cbn [Nat.eqb negb].
  assert (Hmiss : (0 <? Z.of_nat (length bases)) && bool_decide (bo = None) = false).
  { destruct Hbo as [[-> ->]|[_ (? & ? & _ & ->)]]; [done|]. by rewrite bool_decide_eq_false_2, andb_false_r. }
  rewrite Hmiss. assert (Hfan : @slice_from Error Z gf (length pre2) = Ok (words_bytes (list_fan ids) ++ post2))
    by (rewrite Hf2; apply slice_from_app).
  rewrite Hfan, bind_Ok, read_fan_exact, bind_Ok. unfold idx. rewrite Hlast. cbn [expect]. rewrite bind_Ok, Z.eqb_refl. cbn [negb].
  eexists. split; [done|]. split; cbn [data fan hash_len base_graph_count oid_lookup_offset commit_data_offset extra_edges_list_range
    base_graphs_list_offset]; [done|done|done|done|by exists pre3, post3|by exists pre1, post1|done|].
  destruct Hbo as [[? ->]|(_ & pre & post & ? & ->)]; [by left|right]. by exists pre, post.
Qed.

Section Opened.
Context (f : File).
Hypothesis Ho : opened_as f.

Lemma graph_opened_num : num_commits f = Ok (Z.of_nat (length cs)).
Proof. unfold num_commits, idx. rewrite (oa_fan _ Ho). destruct fan_props as (_ & _ & ->). done. Qed.
Lemma opened_id i c : cs !! i = Some c → id_at f (Z.of_nat i) = Ok (s_id c).
Proof.
  intros Hi. pose proof (lookup_lt_Some _ _ _ Hi). unfold id_at.
  rewrite graph_opened_num, bind_Ok, (proj2 (Z.ltb_lt _ _)) by lia. cbn [assert_]. rewrite bind_Ok, Nat2Z.id, (oa_hash _ Ho).
  destruct (oa_ids _ Ho) as (pre & post & Hf & ->). rewrite (oa_data _ Ho), Hf.
  apply (window_records s_id 20 cs i c); [|done|done].
  intros y Hy. rewrite Forall_forall in Hwf. by destruct (Hwf y Hy) as [[? _] _].
Qed.
Lemma graph_opened_table : OidTable (id_at f) (fan f) ids.
Proof.
  pose proof commits_small. split; [apply ids_wf_oid|done|unfold ids; rewrite length_fmap; lia| |].
  - intros i o Hi. unfold ids in Hi. apply list_lookup_fmap_Some in Hi as (c & -> & Hc). by apply opened_id.
  - rewrite (oa_fan _ Ho). apply (table_fan (OidTable := list_table ids ids_wf_oid Hsorted
      ltac:(unfold ids; rewrite length_fmap; lia))).
Qed.
Lemma opened_bases : iter_base_graph_ids f = Ok bases.
Proof.
  unfold iter_base_graph_ids. rewrite (oa_hash _ Ho), (oa_count _ Ho), Nat2Z.id.
  destruct (oa_bases _ Ho) as [[Hb ->]|(pre & post & Hf & ->)].
  - rewrite Hb. cbn [length]. rewrite Nat.mul_0_r, window_le, bind_Ok by (rewrite (oa_data _ Ho); pose proof gf_size; lia). done.
  - rewrite (oa_data _ Ho), Hf. rewrite window_app, bind_Ok; [|done|rewrite length_base_bytes; lia].
    f_equal. rewrite <- (list_fmap_id bases) at 1. rewrite <- (app_nil_r (concat _)).
    rewrite <- (firstn_all (chunks_exact 20 _)). rewrite chunks_exact_count by lia.
    rewrite app_nil_r, list_fmap_id, length_base_bytes, Nat.div_mul by lia.
    rewrite <- (list_fmap_id bases) at 2. rewrite <- (app_nil_r (concat _)).
    rewrite (chunks_records Datatypes.id 20); [apply list_fmap_id|lia|].
    intros y Hy. rewrite Forall_forall in Hbases. by destruct (Hbases y Hy).
Qed.
Lemma opened_commit i c : cs !! i = Some c →
  ∃ k, commit_at f (Z.of_nat i) = Ok k ∧ commit_id k = Ok (s_id c) ∧ root_tree_id k = s_tree c ∧
    generation k = s_generation c ∧ commit_timestamp k = s_timestamp c ∧ iter_parents k = Ok (s_parents c) ∧
    first_parent k = Ok (head (s_parents c)).
Proof.
  intros Hi. pose proof (lookup_lt_Some _ _ _ Hi) as Hlt. assert (Hc : wf_stored c) by (by eapply Forall_lookup_1 in Hwf).
  destruct (placed_at cs 0 i c Hi) as (j & w1 & w2 & ws & pre & post & Hp & Hpw & Hed & Hj). fold edges in Hed.
  assert (Hjb : 0 ≤ j < 2 ^ 31).
  { destruct (oa_edges _ Ho) as [He|(p1 & p2 & Hf & _)].
    - rewrite He in Hed. symmetry in Hed. apply app_eq_nil in Hed as [-> _]. cbn in Hj. lia.
    - apply (f_equal length) in Hf, Hed. rewrite !length_app, length_words_bytes in Hf. rewrite !length_app in Hed.
      unfold gf in Hf. lia. }
  assert (Hw : 0 ≤ w1 < 2 ^ 32 ∧ 0 ≤ w2 < 2 ^ 32) by (by eapply parent_words_range; [apply Hc| |]).
  destruct (record_fields c w1 w2 Hc (proj1 Hw) (proj2 Hw)) as (Hl & Ft & F1 & F2 & Fg & Fs).
  assert (Hb : commit_data_bytes f (Z.of_nat i) = Ok (cdat_record (c, w1, w2))).
  { unfold commit_data_bytes. rewrite graph_opened_num, bind_Ok, (proj2 (Z.ltb_lt _ _)) by lia. cbn [assert_].
    rewrite bind_Ok, Nat2Z.id, (oa_hash _ Ho). change (20 + COMMIT_DATA_ENTRY_SIZE_SANS_HASH)%nat with 36%nat.
    destruct (oa_commits _ Ho) as (p1 & p2 & Hf & ->). rewrite (oa_data _ Ho), Hf.
    by apply (window_records cdat_record 36 (placed cs 0).1 i (c, w1, w2)); [apply record_length| |]. }
  assert (Hpar : iter_parents (decode_commit f (Z.of_nat i) (cdat_record (c, w1, w2))) = Ok (s_parents c) ∧
    first_parent (decode_commit f (Z.of_nat i) (cdat_record (c, w1, w2))) = Ok (head (s_parents c))).
  { apply (iter_parents_correct _ (s_parents c) j (words_bytes pre) (words_bytes post)); [apply Hc|done|..];
      rewrite Hpw; cbn [fst snd decode_commit parent1 parent2 file]; [by rewrite F1|by rewrite F2|].
    intros Hws. split; [|rewrite length_words_bytes; lia].
    destruct (oa_edges _ Ho) as [He|(p1 & p2 & Hf & Hr)].
    { rewrite He in Hed. symmetry in Hed. apply app_eq_nil in Hed as [_ [-> _]%app_eq_nil]. done. }
    unfold extra_edges_data. rewrite Hr, (oa_data _ Ho), Hf, slice_app by lia. cbn. do 2 f_equal.
    rewrite Hed. by rewrite !words_bytes_app. }
  eexists. split_and!; [by apply commit_at_decodes; [apply Ho|exact Hb|]| | | | | |]; cbn [decode_commit file pos root_tree_id generation commit_timestamp]; try done.
  - by apply opened_id.
  - by apply Hpar.
  - by apply Hpar.
Qed.
End Opened.
End Layout.
(** ** Properties *)

(** For every content that [File::new] accepts, all accessors are safe: they
    return for every position below the number of commits, with well-formed
    ids, generation numbers below 2^30 and timestamps below 2^34; the base
    graphs are as many as the header says; positions behind the end panic, as
    documented.  On no content of less than 4 GB does [File::new] panic. *)
Theorem file_access_safe d p :
  is_bytes d → Z.of_nat (length d) < 2 ^ 32 →
  match file_new d p with
  | Ok f =>
      ∃ n ids commits bases,
        num_commits f = Ok (Z.of_nat n) ∧
        iter_ids f = Ok ids ∧ length ids = n ∧ Forall wf_oid ids ∧
        iter_commits f = Ok commits ∧ length commits = n ∧
        Forall (λ c, wf_oid (root_tree_id c) ∧ 0 ≤ generation c < 2 ^ 30 ∧ 0 ≤ commit_timestamp c < 2 ^ 34) commits ∧
        iter_base_graph_ids f = Ok bases ∧ Z.of_nat (length bases) = base_graph_count f ∧ Forall wf_oid bases ∧
        ∀ pos, Z.of_nat n ≤ pos → id_at f pos = Panic ∧ commit_at f pos = Panic
  | Err _ => True
  | Panic => False
  end.
Proof.
  intros Hb Hl. pose proof (file_new_valid d p Hb Hl) as H. destruct (file_new d p) as [f| |]; [|done|done].
  destruct H as (_ & _ & n & Hv). destruct (base_graph_ids_ok f n Hv) as (bases & Hbases & Hbl & Hbw).
  exists n, (id_bytes f <$> seq 0 n), (commit_of f <$> seq 0 n), bases.
  rewrite !length_fmap, !length_seq. split_and!; try done.
  - by apply num_commits_ok.
  - by apply iter_ids_ok.
  - apply Forall_fmap, Forall_forall. intros i Hi%elem_of_seq. apply (id_bytes_wf f n Hv). lia.
  - by apply iter_commits_ok.
  - apply Forall_fmap, Forall_forall. intros i Hi%elem_of_seq. apply (commit_of_bounds f n Hv). lia.
  - intros pos Hpos. split; [by eapply id_at_panics|by eapply commit_at_panics].
Qed.


(** C27: A commit-graph file as git lays it out (fan-out, sorted ids, commit data
    with two parent words, extended edges for commits with more parents, base
    graphs) is opened, and yields exactly what it stores: the ids and base graph
    ids in order, for every commit its tree, generation, time and all its
    parents in order, and each id is found at its position and no other id is
    found. *)
Theorem graph_file_reads cs bases trailer p :
  Forall wf_stored cs → cs ≠ [] → StronglySorted bytes_lt (s_id <$> cs) →
  Forall wf_oid bases → (length bases ≤ 255)%nat → length trailer = 20%nat →
  Z.of_nat (length (graph_file cs bases trailer)) < 2 ^ 32 →
  ∃ f, file_new (graph_file cs bases trailer) p = Ok f ∧
    num_commits f = Ok (Z.of_nat (length cs)) ∧ iter_ids f = Ok (s_id <$> cs) ∧ iter_base_graph_ids f = Ok bases ∧
    (∀ i c, cs !! i = Some c →
      ∃ k, commit_at f (Z.of_nat i) = Ok k ∧ commit_id k = Ok (s_id c) ∧ root_tree_id k = s_tree c ∧
        generation k = s_generation c ∧ commit_timestamp k = s_timestamp c ∧ iter_parents k = Ok (s_parents c) ∧
        first_parent k = Ok (head (s_parents c))) ∧
    (∀ id, wf_oid id →
      (∃ i c, file_lookup f id = Ok (Some (Z.of_nat i)) ∧ cs !! i = Some c ∧ s_id c = id) ∨
      (file_lookup f id = Ok None ∧ id ∉ s_id <$> cs)).
Proof.
  intros Hwf Hne Hs Hb Hn Ht Hl.
  destruct (file_new_graph cs bases trailer p) as (f & Hf & Ho); [done..|]. exists f.
  assert (Hnum : num_commits f = Ok (Z.of_nat (length cs))) by (by eapply graph_opened_num).
  split_and!; [done|done| |by eapply opened_bases|by eapply opened_commit|].
  - unfold iter_ids. rewrite Hnum, bind_Ok.
    rewrite (mapM_positions (length cs) _ (λ i, default [] (s_id <$> cs !! i))).
    + f_equal. apply list_eq. intros i. rewrite !list_lookup_fmap.
      destruct (decide (i < length cs)%nat) as [Hi|Hi].
      * rewrite lookup_seq_lt by done. destruct (lookup_lt_is_Some_2 cs i Hi) as [c Hc]. cbn. by rewrite Hc.
      * rewrite (lookup_ge_None_2 (seq _ _)) by (rewrite length_seq; lia). by rewrite lookup_ge_None_2 by lia.
    + intros i Hi. destruct (lookup_lt_is_Some_2 cs i Hi) as [c Hc]. rewrite Hc. by eapply opened_id.
  - intros id Hid. assert (HT : OidTable (id_at f) (fan f) (s_id <$> cs)) by (by eapply graph_opened_table).
    destruct (lookup_spec (id_at f) (fan f) (s_id <$> cs) id Hid) as [(i & Hi & Hc)|[Hi Hno]]; [left|by right].
    apply list_lookup_fmap_Some in Hc as (c & -> & Hc). eauto.
Qed.

(** ** Examples *)

(** Four commits: a root, two children, and a merge of three parents. *)
Definition example_commits : list Stored :=
  [mkStored (replicate 20 1) (replicate 20 9) [] 1 1000;
   mkStored (replicate 20 2) (replicate 20 9) [0] 2 1001;
   mkStored (replicate 20 3) (replicate 20 9) [1; 0] 3 1002;
   mkStored (replicate 20 4) (replicate 20 9) [2; 1; 0] 4 1003].
Lemma example_commits_wf : Forall wf_stored example_commits.
Proof.
  assert (Hid : ∀ z, 0 ≤ z < 256 → wf_oid (replicate 20 z)).
  { intros z Hz. split; [by rewrite length_replicate|]. by apply Forall_replicate. }
  repeat (apply Forall_cons_2; [split_and!; cbn [s_id s_tree s_parents s_generation s_timestamp]; try lia; try (apply Hid; lia);
    repeat constructor; unfold NO_PARENT; lia|]). apply Forall_nil_2.
Qed.
Lemma example_commits_sorted : StronglySorted bytes_lt (s_id <$> example_commits).
Proof. repeat constructor. Qed.

Lemma file_access_safe_witness :
  match file_new (graph_file example_commits [] (replicate 20 7)) [] with
  | Ok f => ∃ commits, iter_commits f = Ok commits ∧ length commits = 4%nat
  | _ => False
  end.
Proof.
  pose proof (file_access_safe (graph_file example_commits [] (replicate 20 7)) []) as H.
  destruct (file_new _ []) as [f| |] eqn:E.
  - destruct H as (n & ids & commits & bases & Hn & _ & _ & _ & Hc & Hlen & _); [by_decision|vm_compute; reflexivity|].
    exists commits. split; [exact Hc|]. rewrite Hlen. 
    assert (H4 : num_commits f = Ok 4) by (vm_compute in E; injection E as <-; vm_compute; reflexivity).
    rewrite H4 in Hn. injection Hn as Hn. lia.
  - vm_compute in E. discriminate E.
  - apply H; [by_decision|vm_compute; reflexivity].
Defined.

Lemma graph_file_reads_witness :
  ∃ f k, file_new (graph_file example_commits [] (replicate 20 7)) [] = Ok f ∧
    commit_at f 3 = Ok k ∧ iter_parents k = Ok [2; 1; 0].
Proof.
  destruct (graph_file_reads example_commits [] (replicate 20 7) []) as (f & Hf & _ & _ & _ & Hc & _).
  - exact example_commits_wf.
  - done.
  - exact example_commits_sorted.
  - constructor.
  - cbn. lia.
  - reflexivity.
  - vm_compute. reflexivity.
  - destruct (Hc 3%nat (mkStored (replicate 20 4) (replicate 20 9) [2; 1; 0] 4 1003)) as (k & Hk & _ & _ & _ & _ & Hp & _); [done|].
    exists f, k. split; [exact Hf|]. split; [exact Hk|exact Hp].
Defined.

(** The length of the extended edge list is not checked: a list that does not
    consist of whole words makes the iterator over parents panic. *)
Definition cut_edges : contents :=
  [(OID_FAN_CHUNK_ID, words_bytes (list_fan [replicate 20 1]));
   (OID_LOOKUP_CHUNK_ID, replicate 20 1);
   (COMMIT_DATA_CHUNK_ID, replicate 20 9 ++ be_bytes 4 0 ++ be_bytes 4 EXTENDED_EDGES_MASK ++ be_bytes 8 1000);
   (EXTENDED_EDGES_LIST_CHUNK_ID, [0; 0; 0])].
Example cut_edges_panic :
  match file_new (Chunk.layout (SIGNATURE ++ [1; 1; 4; 0]) cut_edges ++ replicate 20 7) [] with
  | Ok f => match commit_at f 0 with Ok c => iter_parents c = Panic | _ => False end
  | _ => False
  end.
Proof. vm_compute. reflexivity. Qed.
(** The entries of the fan-out table but for the last are not checked: a lookup
    follows them behind the end of the ids and panics. *)
Definition bad_fan : contents :=
  [(OID_FAN_CHUNK_ID, words_bytes (9 :: replicate 255 1));
   (OID_LOOKUP_CHUNK_ID, replicate 20 1);
   (COMMIT_DATA_CHUNK_ID, replicate 20 9 ++ be_bytes 4 NO_PARENT ++ be_bytes 4 NO_PARENT ++ be_bytes 8 1000)].
Example bad_fan_panics :
  match file_new (Chunk.layout (SIGNATURE ++ [1; 1; 3; 0]) bad_fan ++ replicate 20 7) [] with
  | Ok f => file_lookup f (replicate 20 0) = Panic
  | _ => False
  end.
Proof. vm_compute. reflexivity. Qed.
