(* ===== verification/GraphFiles.v ===== *)
(** * Commit-graphs

    Models the rest of [gix-commitgraph/src]: graphs of several files
    ([lib.rs], [init.rs], [access.rs]) and their verification
    ([file/verify.rs], [verify.rs]).  Positions in a graph count through its
    files.

    The hash function is a parameter.  The closure that visits commits has its
    captured variables as a state.  Looking for files in directories is left
    out. *)

From S2P Require Import Prelude External Hash OidLookup Chunk PackIndex Paths CommitGraph.

(** ** [lib.rs] *)

Record Graph := mkGraph { files : list File }.
Definition GENERATION_NUMBER_INFINITY : Z := 4294967295.   (* 0xffff_ffff *)
Definition GENERATION_NUMBER_MAX : Z := 1073741823.        (* 0x3fff_ffff *)
Definition MAX_COMMITS : Z := 2 ^ 30 + 2 ^ 29 + 2 ^ 28 - 1.

(** ** [init.rs] *)

Inductive GraphError :=
| HashVersionMismatch (path1 : bytes) (hash1 : Kind) (path2 : bytes) (hash2 : Kind)
| TooManyCommits (n : Z).

#[local] Instance Kind_eq_dec : EqDecision Kind.
Proof. solve_decision. Defined.

(** [files.windows(2)]. *)
Fixpoint same_hashes (fs : list File) : res GraphError unit :=
  match fs with
  | f1 :: ((f2 :: _) as rest) =>
      if bool_decide (object_hash f1 ≠ object_hash f2)
      then Err (HashVersionMismatch (path f1) (object_hash f1) (path f2) (object_hash f2))
      else same_hashes rest
  | _ => Ok tt
  end.
Definition graph_new (fs : list File) : res GraphError Graph :=
  counts ← lift (mapM_res num_commits fs);
  let n := foldl (λ s n, wrap 64 (s + n)) 0 counts in
  if MAX_COMMITS <? n then Err (TooManyCommits n)
  else _ ← same_hashes fs; Ok (mkGraph fs).

(** ** [access.rs] *)

Record LookupByIdResult := mkById { r_file : File; graph_pos : Z; file_pos : Z }.
Fixpoint lookup_by_id (fs : list File) (id : bytes) (current_file_start : Z)
  : res Empty_set (option LookupByIdResult) :=
  match fs with
  | [] => Ok None
  | f :: fs =>
      lex_pos ← file_lookup f id;
      match lex_pos with
      | Some lex_pos => Ok (Some (mkById f (wrap 32 (current_file_start + lex_pos)) lex_pos))
      | None => n ← num_commits f; lookup_by_id fs id (wrap 32 (current_file_start + n))
      end
  end.
(** The file and the position in it. *)
Fixpoint lookup_by_pos (fs : list File) (remaining : Z) : res Empty_set (File * Z) :=
  match fs with
  | [] => Panic
  | f :: fs =>
      n ← num_commits f;
      if n <=? remaining then lookup_by_pos fs (remaining - n) else Ok (f, remaining)
  end.

Definition graph_commit_at (g : Graph) (pos : Z) : res Empty_set Commit :=
  '(f, pos) ← lookup_by_pos (files g) pos; commit_at f pos.
Definition commit_by_id (g : Graph) (id : bytes) : res Empty_set (option Commit) :=
  r ← lookup_by_id (files g) id 0;
  match r with
  | Some r => Some <$> commit_at (r_file r) (file_pos r)
  | None => Ok None
  end.
Definition graph_id_at (g : Graph) (pos : Z) : res Empty_set bytes :=
  '(f, pos) ← lookup_by_pos (files g) pos; id_at f pos.
Definition graph_iter_commits (g : Graph) : res Empty_set (list Commit) :=
  l ← mapM_res iter_commits (files g); Ok (concat l).
Definition graph_iter_ids (g : Graph) : res Empty_set (list bytes) :=
  l ← mapM_res iter_ids (files g); Ok (concat l).
Definition graph_lookup (g : Graph) (id : bytes) : res Empty_set (option Z) :=
  r ← lookup_by_id (files g) id 0; Ok (option_map graph_pos r).
Definition graph_num_commits (g : Graph) : res Empty_set Z :=
  counts ← mapM_res num_commits (files g); Ok (foldl (λ s n, wrap 32 (s + n)) 0 counts).

(** ** [file/verify.rs] *)

Inductive VerifyError (E : Type) :=
| FCommit (e : CommitError)
| FCommitId (id : ObjectId) (pos : Z)
| FCommitsOutOfOrder (id : ObjectId) (pos : Z) (predecessor_id : ObjectId)
| FFilename (expected : bytes)
| FGeneration (generation : Z) (id : ObjectId)
| FMismatch (actual expected : ObjectId)
| FProcessor (e : E)
| FRootTreeId (id root_tree_id : ObjectId).
Arguments FCommit {E}. Arguments FCommitId {E}. Arguments FCommitsOutOfOrder {E}. Arguments FFilename {E}.
Arguments FGeneration {E}. Arguments FMismatch {E}. Arguments FProcessor {E}. Arguments FRootTreeId {E}.

(** [file::verify::Outcome]. *)
Record FileStats := mkFileStats {
  max_generation : Z; min_generation : Z; max_parents : Z; stat_commits : Z; parent_counts : gmap Z Z }.

Definition checksum (f : File) : res Empty_set bytes :=
  if (hash_len f <=? length (data f))%nat then slice_from (data f) (length (data f) - hash_len f) else Panic.
(** [parent_counts.entry(k).or_insert(0) += v]. *)
Definition count_up (k v : Z) (m : gmap Z Z) : gmap Z Z := <[k := wrap 32 (default 0 (m !! k) + v)]> m.

Section Verify.
Context `{!faster_hex.Api} (sha1 : bytes → bytes).

Definition verify_checksum (f : File) : res (ObjectId * ObjectId) ObjectId :=
  data_without_trailer ←
    (if (hash_len f <=? length (data f))%nat then slice_to (data f) (length (data f) - hash_len f) else Panic);
  actual ← from_bytes_or_panic (sha1 data_without_trailer);
  expected ← lift (checksum f);
  if bool_decide (as_slice actual = expected) then Ok actual
  else expected ← from_bytes_or_panic expected; Err (actual, expected).
Definition verify_split_chain_filename_hash (path : bytes) (expected : bytes) : res bytes unit :=
  match (name ← file_name path; name ← to_str name; stem ← strip_suffix name (bs ".graph"); strip_prefix stem (bs "graph-")) with
  | None => Ok tt
  | Some hex =>
      let err := hex ← lift (to_hex expected); Err (bs "graph-" ++ hex ++ bs ".graph") in
      match from_hex hex with
      | Ok actual => if bool_decide (as_slice actual = expected) then Ok tt else err
      | Err _ => err
      | Panic => Panic
      end
  end.

Section Traverse.
Context {S E : Type} (processor : S → Commit → res E S) (f : File).
(** [self.object_hash().null_ref()]. *)
Definition null_id : bytes := as_slice (null (object_hash f)).

(** The loop over the commits. *)
Fixpoint traverse_loop (poss : list Z) (prev_id : bytes) (stats : FileStats) (s : S)
  : res (VerifyError E) (S * FileStats) :=
  match poss with
  | [] => Ok (s, stats)
  | pos :: poss =>
      commit ← lift (commit_at f pos);
      id ← lift (commit_id commit);
      owned ← from_bytes_or_panic id;
      if (match bytes_cmp id prev_id with Gt => false | _ => true end) then
        if bool_decide (id = null_id) then Err (FCommitId owned pos)
        else prev ← from_bytes_or_panic prev_id; Err (FCommitsOutOfOrder owned pos prev)
      else if bool_decide (root_tree_id commit = null_id) then
        root ← from_bytes_or_panic (root_tree_id commit); Err (FRootTreeId owned root)
      else if GENERATION_NUMBER_MAX <? generation commit then Err (FGeneration (generation commit) owned)
      else
        s ← map_err FProcessor (processor s commit);
        parent_count ← fold_parents (λ acc _, Ok (wrap 32 (acc + 1))) FCommit commit (parents_fuel commit) First 0;
        traverse_loop poss id
          (mkFileStats (max_generation stats `max` generation commit) (min_generation stats `min` generation commit)
             (max_parents stats) (stat_commits stats) (count_up parent_count 1 (parent_counts stats))) s
  end.
Definition traverse (s : S) : res (VerifyError E) (S * FileStats) :=
  _ ← map_err (λ '(actual, expected), FMismatch actual expected) (verify_checksum f);
  c ← lift (checksum f);
  _ ← map_err FFilename (verify_split_chain_filename_hash (path f) c);
  n ← lift (num_commits f);
  '(s, stats) ← traverse_loop (positions n) null_id (mkFileStats 0 GENERATION_NUMBER_INFINITY 0 n ∅) s;
  Ok (s, if min_generation stats =? GENERATION_NUMBER_INFINITY
         then mkFileStats (max_generation stats) 0 (max_parents stats) (stat_commits stats) (parent_counts stats)
         else stats).
End Traverse.

(** ** [verify.rs] *)

Inductive GraphVerifyError (E : Type) :=
| BaseGraphCount (actual expected : Z) (path : bytes)
| BaseGraphId (actual expected : ObjectId) (index : Z) (path : bytes)
| GCommit (e : CommitError)
| GFile (err : VerifyError Empty_set) (path : bytes)
| GGeneration (actual expected : Z) (id : ObjectId)
| ParentOutOfRange (id : ObjectId) (max_valid_pos parent_pos : Z)
| GProcessor (e : E)
| TooManyFiles (n : nat).
Arguments BaseGraphCount {E}. Arguments BaseGraphId {E}. Arguments GCommit {E}. Arguments GFile {E}.
Arguments GGeneration {E}. Arguments ParentOutOfRange {E}. Arguments GProcessor {E}. Arguments TooManyFiles {E}.

(** [verify::Outcome]. *)
Record Outcome := mkOutcome {
  longest_path_length : option Z; total_commits : Z; total_parent_counts : gmap Z Z }.

(** An error of [traverse] as an error of the graph. *)
Definition file_error {E} (path : bytes) (err : VerifyError (GraphVerifyError E)) : GraphVerifyError E :=
  match err with
  | FProcessor e => e
  | FCommit e => GFile (FCommit e) path
  | FCommitId id pos => GFile (FCommitId id pos) path
  | FCommitsOutOfOrder id pos pred => GFile (FCommitsOutOfOrder id pos pred) path
  | FFilename e => GFile (FFilename e) path
  | FGeneration g id => GFile (FGeneration g id) path
  | FMismatch a e => GFile (FMismatch a e) path
  | FRootTreeId id root => GFile (FRootTreeId id root) path
  end.

Section Integrity.
Context {S E : Type} (processor : S → Commit → res E S) (g : Graph).

(** The closure that [verify_integrity] passes to [traverse]. *)
Definition check_commit (next_file_start_pos : Z) (s : S) (commit : Commit) : res (GraphVerifyError E) S :=
  max_parent_generation ←
    fold_parents (λ acc parent_pos,
      if next_file_start_pos <=? parent_pos then
        id ← lift (commit_id commit); id ← from_bytes_or_panic id;
        Err (ParentOutOfRange id (wrap 32 (next_file_start_pos - 1)) parent_pos)
      else
        parent ← lift (graph_commit_at g parent_pos); Ok (acc `max` generation parent))
      GCommit commit (parents_fuel commit) First 0;
  let expected_generation := wrap 32 (max_parent_generation + 1) `min` GENERATION_NUMBER_MAX in
  if negb (generation commit =? expected_generation) then
    id ← lift (commit_id commit); id ← from_bytes_or_panic id;
    Err (GGeneration (generation commit) expected_generation id)
  else map_err GProcessor (processor s commit).

(** The checksums of the files before, against the ids that a file names. *)
Fixpoint check_bases (index : Z) (path : bytes) (expected actual : list bytes) : res (GraphVerifyError E) unit :=
  match expected, actual with
  | e :: expected, a :: actual =>
      if bool_decide (a ≠ e) then
        a ← from_bytes_or_panic a; e ← from_bytes_or_panic e; Err (BaseGraphId a e index path)
      else check_bases (index + 1) path expected actual
  | _, _ => Ok tt
  end.

Record Progress := mkProgress { g_stats : Outcome; g_max_generation : Z; file_start_pos : Z }.
(** The loop over the files; [before] are those that were verified. *)
Fixpoint verify_loop (before fs : list File) (p : Progress) (s : S) : res (GraphVerifyError E) (S * Progress) :=
  match fs with
  | [] => Ok (s, p)
  | f :: fs =>
      let file_index := Z.of_nat (length before) in
      if negb (base_graph_count f =? file_index) then
        expected ← (if file_index <? 256 then Ok file_index else Panic);
        Err (BaseGraphCount (base_graph_count f) expected (path f))
      else
        actual ← lift (iter_base_graph_ids f);
        expected ← lift (mapM_res checksum before);
        _ ← check_bases 0 (path f) expected actual;
        n ← lift (num_commits f);
        let next_file_start_pos := wrap 32 (file_start_pos p + n) in
        '(s, file_stats) ← map_err (file_error (path f)) (traverse (check_commit next_file_start_pos) f s);
        let stats :=
          mkOutcome (longest_path_length (g_stats p)) (wrap 32 (total_commits (g_stats p) + stat_commits file_stats))
            (map_fold (λ k v m, count_up k v m) (total_parent_counts (g_stats p)) (parent_counts file_stats)) in
        verify_loop (before ++ [f]) fs
          (mkProgress stats (g_max_generation p `max` max_generation file_stats) next_file_start_pos) s
  end.
Definition verify_integrity (s : S) : res (GraphVerifyError E) (S * Outcome) :=
  if (256 <? length (files g))%nat then Err (TooManyFiles (length (files g)))
  else
    '(s, p) ← verify_loop [] (files g) (mkProgress (mkOutcome None 0 ∅) 0 0) s;
    Ok (s, mkOutcome (if g_max_generation p <? GENERATION_NUMBER_MAX then Some (0 `max` (g_max_generation p - 1)) else None)
             (total_commits (g_stats p)) (total_parent_counts (g_stats p))).
End Integrity.
End Verify.

(** ** Positions *)

(** The ids of a file, as [graph_file_reads] gives them for files that git wrote. *)
Definition file_ids (f : File) (oids : list bytes) : Prop := OidTable (id_at f) (fan f) oids.

Lemma table_num f oids : file_ids f oids → num_commits f = Ok (Z.of_nat (length oids)).
Proof.
  intros HT. unfold num_commits, idx. pose proof (table_fan (OidTable := HT) 255 ltac:(lia)) as Hf.
  change (Z.to_nat 255) with 255%nat in Hf. rewrite Hf. cbn [expect]. do 2 f_equal. rewrite count_le_all; [done|].
  eapply Forall_impl; [exact (table_wf (OidTable := HT))|]. intros o [Ho Hb]. cbn.
  destruct o as [|b o]; [done|]. apply Forall_cons in Hb as [Hb _]. cbn. lia.
Qed.
Lemma id_at_end f oids pos : file_ids f oids → Z.of_nat (length oids) ≤ pos → id_at f pos = Panic ∧ commit_at f pos = Panic.
Proof.
  intros HT Hp. unfold id_at, commit_at, commit_data_bytes. rewrite (table_num f oids HT), !bind_Ok.
  by destruct (Z.ltb_spec pos (Z.of_nat (length oids))); [lia|].
Qed.

Section Positions.
Context (fs : list File) (oidss : list (list bytes)).
Hypothesis Hfs : Forall2 file_ids fs oidss.

Lemma counts_ok : mapM_res num_commits fs = Ok ((λ l, Z.of_nat (length l)) <$> oidss).
Proof.
  induction Hfs as [|f oids fs' oidss' Hf Hfs' IH]; [done|]. specialize (IH Hfs'). cbn [mapM_res]. by rewrite (table_num f oids Hf), bind_Ok, IH.
Qed.
Lemma by_pos i id : concat oidss !! i = Some id →
  ∃ f j, lookup_by_pos fs (Z.of_nat i) = Ok (f, Z.of_nat j) ∧ id_at f (Z.of_nat j) = Ok id.
Proof.
  revert i. induction Hfs as [|f oids fs' oidss' Hf Hfs' IH]; intros i Hi; [done|].
  specialize (IH Hfs'). cbn [lookup_by_pos concat] in *.
  rewrite (table_num f oids Hf), bind_Ok. destruct (Z.leb_spec (Z.of_nat (length oids)) (Z.of_nat i)).
  - rewrite lookup_app_r in Hi by lia. rewrite <- Nat2Z.inj_sub by lia. by apply IH.
  - rewrite lookup_app_l in Hi by lia. exists f, i. split; [done|]. by apply (table_at (OidTable := Hf)).
Qed.
Lemma by_pos_end pos : Z.of_nat (length (concat oidss)) ≤ pos → lookup_by_pos fs pos = Panic.
Proof.
  revert pos. induction Hfs as [|f oids fs' oidss' Hf Hfs' IH]; intros pos Hp; [done|].
  specialize (IH Hfs'). cbn [lookup_by_pos concat] in *.
  rewrite length_app in Hp. rewrite (table_num f oids Hf), bind_Ok.
  destruct (Z.leb_spec (Z.of_nat (length oids)) pos); [|lia]. apply IH. lia.
Qed.
(** The first position of an id. *)
Definition first_at (l : list bytes) (i : nat) (id : bytes) : Prop := l !! i = Some id ∧ id ∉ take i l.
Lemma by_id id start : wf_oid id → 0 ≤ start → start + Z.of_nat (length (concat oidss)) < 2 ^ 32 →
  (∃ r i, lookup_by_id fs id start = Ok (Some r) ∧ graph_pos r = start + Z.of_nat i ∧
     first_at (concat oidss) i id ∧ lookup_by_pos fs (Z.of_nat i) = Ok (r_file r, file_pos r)) ∨
  (lookup_by_id fs id start = Ok None ∧ id ∉ concat oidss).
Proof.
  intros Hid. revert start. induction Hfs as [|f oids fs' oidss' Hf Hfs' IH]; intros start Hs Hlen.
  { right. split; [done|]. apply not_elem_of_nil. }
  specialize (IH Hfs').
  cbn [lookup_by_id lookup_by_pos concat] in *. rewrite length_app in Hlen. rewrite !(table_num f oids Hf).
  destruct (lookup_spec (id_at f) (fan f) oids (HT := Hf) id Hid) as [(i & Hl & Hi)|[Hl Hno]];
    change (lookup (id_at f) id (fan f)) with (file_lookup f id) in Hl; rewrite Hl, bind_Ok.
  - pose proof (lookup_lt_Some _ _ _ Hi) as Hlt. left. eexists _, i. split; [done|]. cbn [graph_pos r_file file_pos].
    rewrite wrap_small by lia. split_and!; [done| |].
    + split; [by apply lookup_app_l_Some|]. rewrite take_app_le by lia. intros [j [Hj Hji]%lookup_take_Some]%list_elem_of_lookup.
      pose proof (sorted_lookup_lt bytes_lt oids j i _ _ (table_sorted (OidTable := Hf)) Hj Hi Hji) as Hirr.
      unfold bytes_lt in Hirr. rewrite bytes_cmp_refl in Hirr. done.
    + rewrite bind_Ok. by destruct (Z.leb_spec (Z.of_nat (length oids)) (Z.of_nat i)); [lia|].
  - rewrite bind_Ok, wrap_small by lia.
    destruct (IH (start + Z.of_nat (length oids))) as [(r & i & Hr & Hg & [Hfi Hni] & Hp)|[Hr Hnot]]; [lia|lia| |].
    + left. exists r, (length oids + i)%nat. split_and!; [done|lia| |].
      * split; [rewrite lookup_app_r by lia; by rewrite Nat.add_comm, Nat.add_sub|]. rewrite take_app_ge by lia.
        rewrite Nat.add_comm, Nat.add_sub, elem_of_app. tauto.
      * rewrite bind_Ok. destruct (Z.leb_spec (Z.of_nat (length oids)) (Z.of_nat (length oids + i))); [|lia].
        by replace (Z.of_nat (length oids + i) - Z.of_nat (length oids)) with (Z.of_nat i) by lia.
    + right. split; [done|]. rewrite elem_of_app. tauto.
Qed.
Lemma sum_counts n w : 0 ≤ n → n + Z.of_nat (length (concat oidss)) < 2 ^ w →
  foldl (λ s n, wrap w (s + n)) n ((λ l : list bytes, Z.of_nat (length l)) <$> oidss) = n + Z.of_nat (length (concat oidss)).
Proof.
  clear. revert n. induction oidss as [|l ls IH]; intros n Hn Hl; [cbn; lia|]. cbn [concat fmap list_fmap foldl] in *.
  rewrite length_app in *. rewrite wrap_small by lia. rewrite IH by lia. lia.
Qed.
End Positions.

(** In a graph of files whose ids are sorted and counted by their fan-out
    tables, with at most [MAX_COMMITS] commits, positions number the ids through
    all files: [id_at] returns the id at each position and panics behind the
    last, a lookup finds the first position of an id or reports that no file has
    it, and [commit_by_id] is [commit_at] of that position.  [Graph::new]
    accepts such files. *)
Theorem graph_lookup_correct fs oidss :
  Forall2 file_ids fs oidss → Z.of_nat (length (concat oidss)) ≤ MAX_COMMITS →
  let g := mkGraph fs in
  graph_new fs = Ok g ∧
  graph_num_commits g = Ok (Z.of_nat (length (concat oidss))) ∧
  (∀ i id, concat oidss !! i = Some id → graph_id_at g (Z.of_nat i) = Ok id) ∧
  (∀ pos, Z.of_nat (length (concat oidss)) ≤ pos → graph_id_at g pos = Panic ∧ graph_commit_at g pos = Panic) ∧
  (∀ id, wf_oid id →
    (∃ i, graph_lookup g id = Ok (Some (Z.of_nat i)) ∧ first_at (concat oidss) i id ∧
       commit_by_id g id = Some <$> graph_commit_at g (Z.of_nat i)) ∨
    (graph_lookup g id = Ok None ∧ commit_by_id g id = Ok None ∧ id ∉ concat oidss)).
Proof.
  intros Hfs Hmax. unfold MAX_COMMITS in Hmax. cbn zeta. split_and!.
  - unfold graph_new. rewrite (counts_ok fs oidss Hfs). cbn [lift map_err]. rewrite bind_Ok.
    rewrite (sum_counts oidss) by lia. unfold MAX_COMMITS.
    destruct (Z.ltb_spec (2 ^ 30 + 2 ^ 29 + 2 ^ 28 - 1) (0 + Z.of_nat (length (concat oidss)))); [lia|].
    assert (Hh : same_hashes fs = Ok tt); [|by rewrite Hh].
    clear. induction fs as [|f1 [|f2 fs] IH]; [done|done|]. cbn [same_hashes] in *.
    rewrite bool_decide_eq_false_2; [done|]. intros Hn. apply Hn. by destruct (object_hash f1), (object_hash f2).
  - unfold graph_num_commits. cbn [files]. rewrite (counts_ok fs oidss Hfs), bind_Ok.
    by rewrite (sum_counts oidss) by lia.
  - intros i id Hi. destruct (by_pos fs oidss Hfs i id Hi) as (f & j & Hp & Hj). unfold graph_id_at. cbn [files].
    by rewrite Hp, bind_Ok.
  - intros pos Hp. unfold graph_id_at, graph_commit_at. cbn [files]. by rewrite (by_pos_end fs oidss Hfs pos Hp).
  - intros id Hid. unfold graph_lookup, commit_by_id, graph_commit_at. cbn [files].
    destruct (by_id fs oidss Hfs id 0 Hid) as [(r & i & -> & Hg & Hf & Hp)|[-> Hno]]; [lia|lia| |].
    + left. exists i. rewrite !bind_Ok. cbn [option_map]. rewrite Hg. split_and!; [done|done|]. by rewrite Hp.
    + right. by rewrite !bind_Ok.
Qed.

(** ** Verification *)

Fixpoint fold_res {E A B} (f : A → B → res E A) (a : A) (l : list B) : res E A :=
  match l with [] => Ok a | b :: l => a ← f a b; fold_res f a l end.
Lemma fold_res_app {E A B} (f : A → B → res E A) a l1 l2 :
  fold_res f a (l1 ++ l2) = (a ← fold_res f a l1; fold_res f a l2).
Proof. revert a. induction l1 as [|b l1 IH]; intros a; [done|]. cbn. destruct (f a b); cbn; [apply IH|done|done]. Qed.

(** A loop over the parents visits what [iter_parents] collects. *)
Lemma fold_parents_list {A E} (f : A → Z → res E A) on_err c fuel state acc r :
  fold_parents f on_err c fuel state acc = Ok r →
  ∃ ps, (∀ l, fold_parents (λ l pos, Ok (l ++ [pos])) (λ e : CommitError, e) c fuel state l = Ok (l ++ ps)) ∧
    fold_res f acc ps = Ok r.
Proof.
  revert state acc. induction fuel as [|fuel IH]; intros state acc H; [done|]. cbn [fold_parents] in *.
  destruct (parents_next c state) as [[item state']| |]; [|done|done]. cbn [lift map_err] in *. rewrite bind_Ok in H.
  destruct item as [[e|q]|].
  - done.
  - apply bind_ok in H as (acc' & Hf & H). destruct (IH _ _ H) as (ps & Hc & Hr). exists (q :: ps). split.
    + intros l. rewrite !bind_Ok, Hc. by rewrite <- app_assoc.
    + cbn. by rewrite Hf.
  - injection H as <-. exists []. split; [|done]. intros l. by rewrite app_nil_r.
Qed.
Lemma fold_iter_parents {A E} (f : A → Z → res E A) on_err c acc r :
  fold_parents f on_err c (parents_fuel c) First acc = Ok r →
  ∃ ps, iter_parents c = Ok ps ∧ fold_res f acc ps = Ok r.
Proof. intros (ps & Hc & Hr)%fold_parents_list. exists ps. split; [|done]. apply (Hc []). Qed.

(** Parents are positions, never negative. *)
Definition edge_nonneg (e : ParentEdge) : Prop :=
  match e with NoEdge => True | GraphPosition q | ExtraEdgeIndex q => 0 ≤ q end.
Lemma edge_from_raw_nonneg raw : 0 ≤ raw → edge_nonneg (edge_from_raw raw).
Proof.
  intros Hr. unfold edge_from_raw. case_match; [done|]. case_match; cbn; [|done]. apply Z.ldiff_nonneg. by left.
Qed.
Definition state_bytes (st : ParentIteratorState) : Prop :=
  match st with Extra l => Forall is_bytes l | _ => True end.
Lemma is_bytes_chunks fuel n (l : bytes) : is_bytes l → Forall is_bytes (chunks_fuel fuel n l).
Proof.
  revert l. induction fuel as [|fuel IH]; intros l Hl; [constructor|]. cbn. case_bool_decide; [constructor|].
  constructor; [by apply Forall_take|]. apply IH. by apply Forall_drop.
Qed.
Lemma next_nonneg c st item st' :
  edge_nonneg (parent1 c) → edge_nonneg (parent2 c) → is_bytes (data (file c)) → state_bytes st →
  parents_next c st = Ok (item, st') → state_bytes st' ∧ ∀ q, item = Some (inr q) → 0 ≤ q.
Proof.
  intros H1 H2 Hb Hst Hn.
  assert (Hfail : ∀ err, fail c err = Ok (item, st') → state_bytes st' ∧ ∀ q, item = Some (inr q) → 0 ≤ q).
  { intros err (id & _ & (o & _ & [= <- <-])%bind_ok)%bind_ok. done. }
  assert (Hextra : ∀ l, Forall is_bytes l → next_extra c l = Ok (item, st') →
    state_bytes st' ∧ ∀ q, item = Some (inr q) → 0 ≤ q).
  { intros l Hl. destruct l as [|b l]; cbn [next_extra]; [apply Hfail|]. apply Forall_cons in Hl as [Hb' Hl].
    intros (w & Hw & Hx)%bind_ok. unfold read_u32 in Hw. destruct (length b =? 4)%nat; [|done]. injection Hw as <-.
    pose proof (proj1 (be_val_bound b Hb')) as Hnn. unfold extra_from_raw in Hx.
    destruct (negb _); injection Hx as <- <-; (split; [done|]); intros q [= <-]; [|done].
    apply Z.ldiff_nonneg. by left. }
  destruct st as [| |l|]; cbn [parents_next] in Hn.
  - destruct (parent1 c) as [|q|q]; [|by injection Hn as <- <-; split; [|intros ? [= <-]]|by apply Hfail in Hn].
    destruct (parent2 c); [by injection Hn as <- <-|by apply Hfail in Hn..].
  - destruct (parent2 c) as [|q|q]; [by injection Hn as <- <-|by injection Hn as <- <-; split; [|intros ? [= <-]]|].
    apply bind_ok in Hn as (e & He & Hn). destruct e as [e|]; [|by apply Hfail in Hn].
    unfold get_from in Hn. destruct (_ <=? length e)%nat; [|by apply Hfail in Hn]. apply Hextra in Hn; [done|].
    apply is_bytes_chunks, Forall_drop. unfold extra_edges_data in He. destruct (extra_edges_list_range _) as [[a b]|]; [|done].
    apply fmap_ok in He as (s & Hs & [= ->]). apply slice_ok_iff in Hs as (_ & _ & ->). by apply is_bytes_window.
  - by apply Hextra in Hn.
  - by injection Hn as <- <-.
Qed.
Lemma collect_nonneg c fuel st l ps :
  edge_nonneg (parent1 c) → edge_nonneg (parent2 c) → is_bytes (data (file c)) → state_bytes st → Forall (λ q, 0 ≤ q) l →
  fold_parents (λ l pos, Ok (l ++ [pos])) (λ e : CommitError, e) c fuel st l = Ok ps → Forall (λ q, 0 ≤ q) ps.
Proof.
  intros H1 H2 Hb. revert st l. induction fuel as [|fuel IH]; intros st l Hst Hl H; [done|]. cbn [fold_parents] in H.
  destruct (parents_next c st) as [[item st']| |] eqn:Hn; [|done|done]. cbn [lift map_err] in H. rewrite bind_Ok in H.
  apply next_nonneg in Hn as [Hst' Hq]; [|done..]. destruct item as [[e|q]|]; [done| |by injection H as <-].
  rewrite bind_Ok in H. eapply IH; [exact Hst'| |exact H]. apply Forall_app. split; [done|]. constructor; [by apply Hq|done].
Qed.
Lemma parents_nonneg f n i ps : valid_file f n → (i < n)%nat → iter_parents (commit_of f i) = Ok ps → Forall (λ q, 0 ≤ q) ps.
Proof.
  intros Hv Hi. destruct (commit_bytes_ok f n Hv i Hi) as [_ Hb].
  apply collect_nonneg; [| |apply Hv|done|done]; apply edge_from_raw_nonneg, be_val_bound, is_bytes_window, Hb.
Qed.

(** *** The commits of a graph *)

Definition commits_of (f : File) (n : nat) : list Commit := commit_of f <$> seq 0 n.
Definition all_commits (fs : list File) (ns : list nat) : list Commit := concat (zip_with commits_of fs ns).
Lemma commits_of_at f n i c : commits_of f n !! i = Some c → c = commit_of f i ∧ (i < n)%nat.
Proof.
  unfold commits_of. intros (j & -> & Hj)%list_lookup_fmap_Some. by apply lookup_seq in Hj as [-> Hlt].
Qed.
Lemma commits_of_elem f n c : c ∈ commits_of f n → ∃ i, c = commit_of f i ∧ (i < n)%nat.
Proof. intros [i Hi]%list_elem_of_lookup. exists i. by apply commits_of_at in Hi. Qed.
Lemma length_commits_of f n : length (commits_of f n) = n.
Proof. unfold commits_of. by rewrite length_fmap, length_seq. Qed.

Section Commits.
Context (fs : list File) (ns : list nat).
Hypothesis Hfs : Forall2 valid_file fs ns.

Lemma commit_at_all i c : all_commits fs ns !! i = Some c → graph_commit_at (mkGraph fs) (Z.of_nat i) = Ok c.
Proof.
  unfold graph_commit_at. cbn [files]. revert i.
  induction Hfs as [|f n fs' ns' Hf Hfs' IH]; intros i Hi; [done|]. specialize (IH Hfs').
  unfold all_commits in *. cbn [zip_with concat] in Hi. cbn [lookup_by_pos]. rewrite (num_commits_ok f n Hf), bind_Ok.
  destruct (Z.leb_spec (Z.of_nat n) (Z.of_nat i)).
  - rewrite lookup_app_r in Hi by (rewrite length_commits_of; lia). rewrite length_commits_of in Hi.
    rewrite <- Nat2Z.inj_sub by lia. by apply IH.
  - rewrite lookup_app_l in Hi by (rewrite length_commits_of; lia). apply commits_of_at in Hi as [-> Hlt].
    rewrite bind_Ok. by apply (commit_at_ok f n).
Qed.
Lemma all_nonneg c ps : c ∈ all_commits fs ns → iter_parents c = Ok ps → Forall (λ q, 0 ≤ q) ps.
Proof.
  induction Hfs as [|f n fs' ns' Hf Hfs' IH]; intros Hc Hp; [by apply elem_of_nil in Hc|].
  unfold all_commits in *. cbn [zip_with concat] in Hc. apply elem_of_app in Hc as [Hc|Hc]; [|by apply IH].
  apply commits_of_elem in Hc as (i & -> & Hi). by eapply parents_nonneg.
Qed.
End Commits.

(** *** One file *)

Section VerifyFacts.
Context {FH : faster_hex.Api} (sha1 : bytes → bytes).

(** The trailer of a file, and a file that ends in the hash of the rest. *)
Definition trailer_of (f : File) : bytes := drop (length (data f) - 20) (data f).
Definition sealed (f : File) : Prop := ∃ body, data f = body ++ trailer_of f ∧ length (trailer_of f) = 20%nat ∧ sha1 body = trailer_of f.
Lemma checksum_trailer f c : hash_len f = 20%nat → checksum f = Ok c → c = trailer_of f ∧ (20 ≤ length (data f))%nat.
Proof.
  intros Hh H. unfold checksum in H. rewrite Hh in H. destruct (Nat.leb_spec 20 (length (data f))); [|done].
  rewrite slice_from_le in H by lia. by injection H as <-.
Qed.
Lemma verify_checksum_sealed f a : hash_len f = 20%nat → verify_checksum sha1 f = Ok a → sealed f.
Proof.
  intros Hh H. unfold verify_checksum in H. apply bind_ok in H as (body & Hb & H). apply bind_ok in H as (actual & Ha & H).
  apply bind_ok in H as (c & Hc & H). destruct (checksum f) as [c'| |] eqn:E; [|done|done]. injection Hc as <-.
  apply checksum_trailer in E as [-> Hl]; [|done]. rewrite Hh, (proj2 (Nat.leb_le _ _) Hl) in Hb. rewrite slice_to_le in Hb by lia. injection Hb as <-.
  case_bool_decide as Heq; [|by apply bind_ok in H as (? & _ & H)]. unfold from_bytes_or_panic in Ha.
  exists (take (length (data f) - 20) (data f)). unfold trailer_of in *. rewrite take_drop, length_drop. split_and!; [done|lia|].
  rewrite <- Heq. destruct (_ =? _)%nat; [|done]. by injection Ha as <-.
Qed.
Lemma check_bases_same {E} index path (expected actual : list bytes) :
  check_bases (E := E) index path expected actual = Ok tt → length expected = length actual → actual = expected.
Proof.
  revert index actual. induction expected as [|e expected IH]; intros index [|a actual] H Hl; try done. cbn [check_bases] in H.
  case_bool_decide as Hne; [apply bind_ok in H as (? & _ & H); by apply bind_ok in H as (? & _ & H)|].
  f_equal; [done|]. eapply IH; [exact H|]. cbn in Hl. lia.
Qed.

Lemma traverse_loop_spec {S E} (processor : S → Commit → res E S) f poss prev stats s s' st :
  traverse_loop processor f poss prev stats s = Ok (s', st) →
  ∃ commits ids, mapM_res (commit_at f) poss = Ok commits ∧ mapM_res (λ c, commit_id c) commits = Ok ids ∧
    Sorted bytes_lt (prev :: ids) ∧ fold_res processor s commits = Ok s' ∧
    Forall (λ c, root_tree_id c ≠ null_id f) commits ∧
    max_generation st = foldl Z.max (max_generation stats) (generation <$> commits) ∧
    max_parents st = max_parents stats ∧ stat_commits st = stat_commits stats.
Proof.
  revert prev stats s. induction poss as [|pos poss IH]; intros prev stats s H; cbn [traverse_loop] in H.
  { injection H as <- <-. exists [], []. split_and!; try done. by repeat constructor. }
  apply bind_ok in H as (c & Hc & H). destruct (commit_at f pos) as [c'| |] eqn:Hat; [|done|done]. injection Hc as <-.
  apply bind_ok in H as (id & Hid & H). destruct (commit_id c') as [id'| |] eqn:Hci; [|done|done]. injection Hid as <-.
  apply bind_ok in H as (o & _ & H). destruct (bytes_cmp id' prev) eqn:Hcmp.
  1,2: case_bool_decide; [done|]; by apply bind_ok in H as (? & _ & H).
  case_bool_decide as Hroot; [by apply bind_ok in H as (? & _ & H)|].
  destruct (GENERATION_NUMBER_MAX <? generation c'); [done|].
  apply bind_ok in H as (s1 & Hp & H). destruct (processor s c') as [s1'| |] eqn:Hproc; [|done|done]. injection Hp as <-.
  apply bind_ok in H as (pc & _ & H). destruct (IH _ _ _ H) as (commits & ids & H1 & H2 & H3 & H4 & Hr & H5 & H6 & H7).
  exists (c' :: commits), (id' :: ids). cbn [mapM_res fold_res fmap list_fmap foldl]. rewrite Hat, H1, Hci, H2, Hproc.
  split_and!; try done; [|by constructor]. constructor; [done|]. constructor. by apply bytes_cmp_gt.
Qed.
Lemma traverse_spec {S E} (processor : S → Commit → res E S) f n s s' st :
  valid_file f n → traverse sha1 processor f s = Ok (s', st) →
  sealed f ∧ Forall (λ c, root_tree_id c ≠ null_id f) (commits_of f n) ∧
  Sorted bytes_lt (null_id f :: (id_bytes f <$> seq 0 n)) ∧ fold_res processor s (commits_of f n) = Ok s' ∧
  max_generation st = foldl Z.max 0 (generation <$> commits_of f n) ∧ max_parents st = 0 ∧
  stat_commits st = Z.of_nat n.
Proof.
  intros Hv H. unfold traverse in H. apply bind_ok in H as (u1 & Hsum & H). apply bind_ok in H as (u2 & _ & H).
  apply bind_ok in H as (u3 & _ & H). rewrite (num_commits_ok f n Hv) in H. cbn [lift map_err] in H. rewrite bind_Ok in H.
  apply bind_ok in H as ([s1 st1] & Hl & H). injection H as <- <-.
  apply traverse_loop_spec in Hl as (commits & ids & H1 & H2 & H3 & H4 & Hr & H5 & H6 & H7). cbn [max_generation max_parents stat_commits] in *.
  rewrite (mapM_positions n _ (commit_of f)) in H1 by (intros; by apply (commit_at_ok f n)). injection H1 as <-.
  fold (commits_of f n) in *.
  assert (Hids : ids = id_bytes f <$> seq 0 n).
  { rewrite (mapM_res_ok _ (λ c, id_bytes f (Z.to_nat (pos c)))) in H2.
    - injection H2 as <-. unfold commits_of. rewrite <- list_fmap_compose. apply list_fmap_ext. intros i x _. unfold compose.
      cbn [commit_of decode_commit pos]. by rewrite Nat2Z.id.
    - apply Forall_forall. intros c (i & -> & Hi)%commits_of_elem. cbn [commit_of decode_commit pos]. rewrite Nat2Z.id.
      unfold commit_id. cbn [commit_of decode_commit pos file]. by apply (id_at_ok f n). }
  rewrite Hids in H3. split.
  { destruct (verify_checksum sha1 f) eqn:Ec; [|by destruct e|done]. by eapply verify_checksum_sealed; [apply Hv|]. }
  split_and!; [done|done|done| | |]; destruct (min_generation st1 =? _); done.
Qed.

(** *** All files *)

Section Check.
Context {S E : Type} (processor : S → Commit → res E S) (g : Graph).

(** The commit at a position, and its generation. *)
Definition generation_at (q : Z) (n : Z) : Prop := ∃ c, graph_commit_at g q = Ok c ∧ generation c = n.
(** What the closure establishes of a commit: its parents are below a position
    and it is one generation above them. *)
Definition checked (next : Z) (c : Commit) : Prop :=
  ∃ ps gens, iter_parents c = Ok ps ∧ Forall (λ q, q < next) ps ∧ Forall2 generation_at ps gens ∧
    generation c = wrap 32 (foldl Z.max 0 gens + 1) `min` GENERATION_NUMBER_MAX.

Lemma fold_generations {E'} (err : Z → res E' Z) next acc ps m :
  (∀ q x, err q ≠ Ok x) →
  fold_res (λ acc q, if next <=? q then err q
                     else parent ← lift (graph_commit_at g q); Ok (acc `max` generation parent)) acc ps = Ok m →
  Forall (λ q, q < next) ps ∧ ∃ gens, Forall2 generation_at ps gens ∧ m = foldl Z.max acc gens.
Proof.
  intros Herr. revert acc. induction ps as [|q ps IH]; intros acc H; cbn [fold_res] in H.
  { injection H as <-. split; [done|]. by exists []. }
  apply bind_ok in H as (acc' & Ha & H). destruct (Z.leb_spec next q); [by apply Herr in Ha|].
  apply bind_ok in Ha as (c & Hc & [= <-]). destruct (graph_commit_at g q) as [c'| |] eqn:Hq; [|done|done]. injection Hc as ->.
  destruct (IH _ H) as (Hlt & gens & Hg & ->). split; [by constructor|]. exists (generation c :: gens). split; [|done].
  constructor; [|done]. by exists c.
Qed.
Lemma check_commit_spec next s c s' :
  check_commit processor g next s c = Ok s' → checked next c ∧ processor s c = Ok s'.
Proof.
  intros H. unfold check_commit in H. apply bind_ok in H as (m & Hm & H).
  apply fold_iter_parents in Hm as (ps & Hps & Hm). apply fold_generations in Hm as (Hlt & gens & Hg & ->).
  2:{ intros q x Hx. apply bind_ok in Hx as (u1 & _ & Hx). by apply bind_ok in Hx as (u2 & _ & Hx). }
  destruct (Z.eqb_spec (generation c) (wrap 32 (foldl Z.max 0 gens + 1) `min` GENERATION_NUMBER_MAX)) as [Heq|]; cbn [negb] in H.
  - split; [by exists ps, gens|]. destruct (processor s c); [by injection H as ->|done|done].
  - apply bind_ok in H as (u1 & _ & H). by apply bind_ok in H as (u2 & _ & H).
Qed.
Lemma checked_all next s cs s' :
  fold_res (check_commit processor g next) s cs = Ok s' → Forall (checked next) cs ∧ fold_res processor s cs = Ok s'.
Proof.
  revert s. induction cs as [|c cs IH]; intros s H; cbn [fold_res] in *.
  { injection H as <-. by split. }
  apply bind_ok in H as (s1 & [Hc Hp]%check_commit_spec & H). destruct (IH _ H) as [Hcs Hf]. rewrite Hp. split; [by constructor|done].
Qed.
Lemma checked_mono a b c : a ≤ b → checked a c → checked b c.
Proof.
  intros Hab (ps & gens & H1 & H2 & H). exists ps, gens. split_and!; [done| |apply H|apply H].
  eapply Forall_impl; [exact H2|]. cbn. lia.
Qed.

Lemma max_foldl (a b : Z) l : a `max` foldl Z.max b l = foldl Z.max (a `max` b) l.
Proof. revert b. induction l as [|x l IH]; intros b; [done|]. cbn. rewrite IH. f_equal. lia. Qed.
Lemma verify_files_spec before fs ns p s s' p' :
  verify_loop sha1 processor g before fs p s = Ok (s', p') → Forall2 valid_file fs ns →
  0 ≤ file_start_pos p → file_start_pos p + Z.of_nat (length (all_commits fs ns)) < 2 ^ 32 →
  total_commits (g_stats p) = file_start_pos p → 0 ≤ g_max_generation p →
  let total := file_start_pos p + Z.of_nat (length (all_commits fs ns)) in
  total_commits (g_stats p') = total ∧ Forall (checked total) (all_commits fs ns) ∧
  fold_res processor s (all_commits fs ns) = Ok s' ∧
  g_max_generation p' = foldl Z.max (g_max_generation p) (generation <$> all_commits fs ns) ∧
  Forall2 (λ f n, sealed f ∧ Forall (λ c, root_tree_id c ≠ null_id f) (commits_of f n) ∧
    Sorted bytes_lt (null_id f :: (id_bytes f <$> seq 0 n))) fs ns.
Proof.
  intros H Hfs. revert before p s H. induction Hfs as [|f n fs ns Hf _ IH]; intros before p s H Hs Hl Ht Hg; cbn [verify_loop] in H.
  { injection H as <- <-. unfold all_commits. cbn. split_and!; [lia|constructor|done|done|constructor]. }
  destruct (negb _); [by apply bind_ok in H as (u & _ & H)|].
  apply bind_ok in H as (u1 & _ & H). apply bind_ok in H as (u2 & _ & H). apply bind_ok in H as (u3 & _ & H).
  rewrite (num_commits_ok f n Hf) in H. cbn [lift map_err] in H. rewrite bind_Ok in H.
  unfold all_commits in *. cbn [zip_with concat] in *. rewrite length_app, length_commits_of in *.
  rewrite wrap_small in H by lia. apply bind_ok in H as ([s1 st] & Hm & H).
  destruct (traverse _ _ f s) as [[s1' st']| |] eqn:Htr; [|done|done]. injection Hm as -> ->.
  apply (traverse_spec _ f n) in Htr as (Hseal & Hroot & Hsort & Hfold & Hmax & _ & Hcnt); [|done].
  apply checked_all in Hfold as [Hck Hfold].
  apply IH in H; cbn [file_start_pos g_stats total_commits g_max_generation] in *; [|lia|lia|rewrite wrap_small; lia|lia].
  destruct H as (H1 & H2 & H3 & H4 & H5). rewrite fmap_app, foldl_app. split_and!.
  - lia.
  - apply Forall_app. split.
    + eapply Forall_impl; [exact Hck|]. intros c. apply checked_mono. lia.
    + eapply Forall_impl; [exact H2|]. intros c. apply checked_mono. lia.
  - by rewrite fold_res_app, Hfold.
  - rewrite H4, Hmax, max_foldl. f_equal. f_equal. lia.
  - by constructor.
Qed.
(** Every file is in its place: it has as many base graphs as there are files in
    front of it, and names their trailers. *)
Lemma verify_bases before fs ns p s r :
  verify_loop sha1 processor g before fs p s = Ok r → Forall2 valid_file fs ns → Forall (λ f, hash_len f = 20%nat) before →
  ∀ i f, fs !! i = Some f → base_graph_count f = Z.of_nat (length before + i) ∧
    iter_base_graph_ids f = Ok (trailer_of <$> (before ++ take i fs)).
Proof.
  intros H Hfs. revert before p s H. induction Hfs as [|f n fs ns Hf _ IH]; intros before p s H Hb i f' Hi; [done|]. cbn [verify_loop] in H.
  destruct (Z.eqb_spec (base_graph_count f) (Z.of_nat (length before))) as [Hc|]; cbn [negb] in H; [|by apply bind_ok in H as (u & _ & H)].
  apply bind_ok in H as (actual & Ha & H). apply bind_ok in H as (expected & He & H). apply bind_ok in H as ([] & Hck & H).
  assert (Hexp : expected = trailer_of <$> before).
  { clear -He Hb. revert expected He. induction Hb as [|b before Hb _ IH]; intros expected He; [by injection He as <-|]. cbn [mapM_res] in He.
    destruct (checksum b) as [c| |] eqn:Ec; [|done|done]. rewrite bind_Ok in He. destruct (mapM_res checksum before) as [l| |]; [|done|done].
    injection He as <-. apply checksum_trailer in Ec as [-> _]; [|done]. by rewrite (IH l eq_refl). }
  destruct (base_graph_ids_ok f n Hf) as (l & Hl & Hll & _). rewrite Hl in Ha. injection Ha as <-.
  apply check_bases_same in Hck; [|rewrite Hexp, length_fmap; lia]. subst l expected.
  apply bind_ok in H as (u3 & _ & H). apply bind_ok in H as ([s1 st] & _ & H). destruct i as [|i]; cbn in Hi.
  - injection Hi as <-. cbn [take]. rewrite app_nil_r. split; [lia|done].
  - destruct (IH _ _ _ H) with (i := i) (f := f') as [H1 H2]; [|done|].
    { apply Forall_app. split; [done|]. constructor; [apply Hf|constructor]. }
    rewrite length_app in H1. cbn in H1. split; [lia|]. by rewrite H2, <- app_assoc.
Qed.
End Check.
End VerifyFacts.

(** *** Paths *)

Lemma foldl_max_ge (a : Z) l x : x ∈ l → x ≤ foldl Z.max a l.
Proof.
  revert a. induction l as [|y l IH]; intros a Hx; [by apply elem_of_nil in Hx|]. cbn.
  apply elem_of_cons in Hx as [->|Hx]; [|by apply IH]. rewrite <- (Z.max_comm y a). rewrite <- max_foldl. lia.
Qed.
Lemma foldl_max_in (a : Z) l : foldl Z.max a l = a ∨ foldl Z.max a l ∈ l.
Proof.
  revert a. induction l as [|y l IH]; intros a; [by left|]. cbn. destruct (IH (a `max` y)) as [->|Hin]; [|right; by right].
  destruct (Z.max_spec a y) as [[_ ->]|[_ ->]]; [right; left|by left].
Qed.
Lemma foldl_max_start (a : Z) l : a ≤ foldl Z.max a l.
Proof. destruct l as [|y l]; cbn; [lia|]. rewrite <- max_foldl. lia. Qed.

Section Paths.
Context (g : Graph) (commits : list Commit).
Let total := Z.of_nat (length commits).
Hypothesis Hat : ∀ i c, commits !! i = Some c → graph_commit_at g (Z.of_nat i) = Ok c.

(** A path of [k] steps from a commit to its ancestors. *)
Inductive path_from : Z → nat → Prop :=
| path_here p : path_from p 0
| path_step p q k c ps :
    graph_commit_at g p = Ok c → iter_parents c = Ok ps → q ∈ ps → path_from q k → path_from p (S k).

(** Every commit is one generation above its parents, which are in the graph. *)
Definition generations_ok (c : Commit) : Prop :=
  ∃ ps gens, iter_parents c = Ok ps ∧ Forall (λ q, 0 ≤ q < total) ps ∧ Forall2 (generation_at g) ps gens ∧
    generation c = (foldl Z.max 0 gens + 1) `min` GENERATION_NUMBER_MAX.
Hypothesis Hok : ∀ c, c ∈ commits → generations_ok c.
Hypothesis Hmax : ∀ c, c ∈ commits → generation c < GENERATION_NUMBER_MAX.

Lemma commit_in p : 0 ≤ p < total → ∃ c, c ∈ commits ∧ graph_commit_at g p = Ok c.
Proof.
  intros Hp. destruct (lookup_lt_is_Some_2 commits (Z.to_nat p)) as [c Hc]; [unfold total in Hp; lia|].
  exists c. split; [by eapply list_elem_of_lookup_2|]. rewrite <- (Hat _ _ Hc). f_equal. lia.
Qed.
(** The generation of a commit is the number of commits on its longest path. *)
Lemma path_bound p k : path_from p k → ∀ c, 0 ≤ p < total → graph_commit_at g p = Ok c → Z.of_nat k + 1 ≤ generation c.
Proof.
  induction 1 as [p|p q k c ps Hc Hps Hq _ IH]; intros c0 Hp Hc0.
  all: destruct (commit_in p Hp) as (c1 & Hin & Hc1); assert (c1 = c0) as -> by congruence;
    destruct (Hok _ Hin) as (ps' & gens & Hps' & Hr & Hg & Heq); pose proof (Hmax _ Hin) as Hm;
    pose proof (foldl_max_start 0 gens).
  - lia.
  - assert (c = c0) as -> by congruence. assert (ps' = ps) as -> by congruence.
    apply list_elem_of_lookup in Hq as [j Hj]. destruct (Forall2_lookup_l _ _ _ _ _ Hg Hj) as (gen & Hgen & cq & Hcq & <-).
    pose proof (foldl_max_ge 0 gens _ (list_elem_of_lookup_2 _ _ _ Hgen)).
    specialize (IH cq). eapply Forall_lookup_1 in Hr; [|exact Hj]. specialize (IH Hr Hcq). lia.
Qed.
Lemma path_exists k p c : 0 ≤ p < total → graph_commit_at g p = Ok c → generation c = Z.of_nat k + 1 → path_from p k.
Proof.
  revert p c. induction k as [|k IH]; intros p c Hp Hc Hgen; [constructor|].
  destruct (commit_in p Hp) as (c1 & Hin & Hc1). assert (c1 = c) as -> by congruence.
  destruct (Hok _ Hin) as (ps & gens & Hps & Hr & Hg & Heq). pose proof (Hmax _ Hin).
  destruct (foldl_max_in 0 gens) as [H0|Hx]; [lia|]. apply list_elem_of_lookup in Hx as [j Hj].
  destruct (Forall2_lookup_r _ _ _ _ _ Hg Hj) as (q & Hq & cq & Hcq & Hgq).
  eapply path_step; [done|done|by eapply list_elem_of_lookup_2|]. eapply Forall_lookup_1 in Hr; [|exact Hq].
  eapply IH; [done|done|]. lia.
Qed.
Lemma longest_path m n : m = foldl Z.max 0 (generation <$> commits) → n = 0 `max` (m - 1) →
  (∀ p k, 0 ≤ p < total → path_from p k → Z.of_nat k ≤ n) ∧
  (commits ≠ [] → ∃ p, 0 ≤ p < total ∧ path_from p (Z.to_nat n)).
Proof.
  intros Hm Hn. assert (Hge : ∀ c, c ∈ commits → 1 ≤ generation c ≤ m).
  { intros c Hc. split.
    - destruct (Hok c Hc) as (ps & gens & _ & _ & _ & ->). pose proof (foldl_max_start 0 gens).
      unfold GENERATION_NUMBER_MAX. lia.
    - rewrite Hm. apply foldl_max_ge. by apply list_elem_of_fmap_2. }
  split.
  - intros p k Hp Hk. destruct (commit_in p Hp) as (c & Hc & Hcp). pose proof (path_bound p k Hk c Hp Hcp).
    specialize (Hge c Hc). lia.
  - intros Hne. destruct (foldl_max_in 0 (generation <$> commits)) as [H0|Hin].
    + destruct (decide (0 < length commits)%nat) as [Hl|Hl]; [|destruct Hne; apply nil_length_inv; lia].
      destruct (lookup_lt_is_Some_2 commits 0 Hl) as [c Hc]. specialize (Hge c (list_elem_of_lookup_2 _ _ _ Hc)). lia.
    + rewrite <- Hm in Hin. apply list_elem_of_fmap in Hin as (c & Hc & Hin). apply list_elem_of_lookup in Hin as [i Hi].
      exists (Z.of_nat i). pose proof (lookup_lt_Some _ _ _ Hi). split; [unfold total; lia|].
      eapply path_exists; [unfold total; lia|by apply Hat|]. specialize (Hge c (list_elem_of_lookup_2 _ _ _ Hi)). lia.
Qed.
End Paths.

(** *** The whole graph *)

Lemma all_commits_length fs ns : Forall2 valid_file fs ns → length (all_commits fs ns) = sum_list ns.
Proof.
  induction 1 as [|f n fs ns _ _ IH]; [done|]. unfold all_commits in *. cbn [zip_with concat]. rewrite length_app, IH.
  by rewrite length_commits_of.
Qed.
Lemma valid_counts fs ns : Forall2 valid_file fs ns → mapM_res num_commits fs = Ok (Z.of_nat <$> ns).
Proof. induction 1 as [|f n fs ns Hf _ IH]; [done|]. cbn [mapM_res]. by rewrite (num_commits_ok f n Hf), bind_Ok, IH. Qed.
Lemma sum_wrap ns a : 0 ≤ a → a + Z.of_nat (sum_list ns) < 2 ^ 64 →
  foldl (λ s n, wrap 64 (s + n)) a (Z.of_nat <$> ns) = a + Z.of_nat (sum_list ns).
Proof.
  revert a. induction ns as [|n ns IH]; intros a Ha Hl; [cbn; lia|]. cbn [fmap list_fmap foldl] in *.
  change (sum_list (n :: ns)) with (n + sum_list ns)%nat in *.
  rewrite wrap_small by lia. rewrite IH by lia. lia.
Qed.
Lemma sum_small fs ns : Forall2 valid_file fs ns → Z.of_nat (sum_list ns) ≤ Z.of_nat (length fs) * 2 ^ 32.
Proof.
  induction 1 as [|f n fs ns Hf _ IH]; [cbn; lia|]. cbn [length]. change (sum_list (n :: ns)) with (n + sum_list ns)%nat.
  pose proof (Forall_lookup_1 _ _ _ _ (vf_u32 _ _ Hf) (vf_num _ _ Hf)) as Hn. cbv beta in Hn. lia.
Qed.
Lemma iter_all fs ns : Forall2 valid_file fs ns → graph_iter_commits (mkGraph fs) = Ok (all_commits fs ns).
Proof.
  intros Hfs. unfold graph_iter_commits. cbn [files].
  assert (H : mapM_res iter_commits fs = Ok (zip_with commits_of fs ns)); [|by rewrite H].
  induction Hfs as [|f n fs ns Hf _ IH]; [done|]. cbn [mapM_res zip_with]. by rewrite (iter_commits_ok f n Hf), bind_Ok, IH.
Qed.
Lemma opened_valid fs : Forall (λ f, ∃ d p, is_bytes d ∧ Z.of_nat (length d) < 2 ^ 32 ∧ file_new d p = Ok f) fs →
  ∃ ns, Forall2 valid_file fs ns.
Proof.
  induction 1 as [|f fs (d & p & Hb & Hl & Hf) _ [ns IH]]; [by exists []|].
  pose proof (file_new_valid d p Hb Hl) as Hv. rewrite Hf in Hv. destruct Hv as (_ & _ & n & Hv). exists (n :: ns). by constructor.
Qed.
Lemma all_generation fs ns c : Forall2 valid_file fs ns → c ∈ all_commits fs ns → 0 ≤ generation c < 2 ^ 30.
Proof.
  induction 1 as [|f n fs ns Hf _ IH]; intros Hc; [by apply elem_of_nil in Hc|]. unfold all_commits in *.
  cbn [zip_with concat] in Hc. apply elem_of_app in Hc as [Hc|Hc]; [|by apply IH].
  apply commits_of_elem in Hc as (i & -> & Hi). by apply (commit_of_bounds f n Hf).
Qed.
(** The check of a commit, without wrap-around. *)
Lemma checked_generations fs ns c : Forall2 valid_file fs ns → c ∈ all_commits fs ns →
  checked (mkGraph fs) (Z.of_nat (length (all_commits fs ns))) c → generations_ok (mkGraph fs) (all_commits fs ns) c.
Proof.
  intros Hfs Hc (ps & gens & Hps & Hlt & Hg & Heq). exists ps, gens.
  pose proof (all_nonneg fs ns Hfs c ps Hc Hps) as Hnn. pose proof (proj2 (Forall_and _ _) (conj Hnn Hlt)) as Hr.
  split_and!; [done|exact Hr|done|]. rewrite Heq, wrap_small; [done|].
  pose proof (foldl_max_start 0 gens). split; [lia|]. destruct (foldl_max_in 0 gens) as [->|Hx]; [lia|].
  apply list_elem_of_lookup in Hx as [j Hj]. destruct (Forall2_lookup_r _ _ _ _ _ Hg Hj) as (q & Hq & cq & Hcq & <-).
  eapply Forall_lookup_1 in Hr; [|exact Hq]. cbv beta in Hr.
  destruct (commit_in (mkGraph fs) (all_commits fs ns) (commit_at_all fs ns Hfs) q Hr) as (c' & Hin & Hc').
  assert (c' = cq) as -> by congruence. pose proof (all_generation fs ns cq Hfs Hin). lia.
Qed.

Lemma longest_reported (l : list Commit) (x : Z) :
  (if foldl Z.max 0 (generation <$> l) <? GENERATION_NUMBER_MAX then Some x else None) = None ↔ ∃ c, c ∈ l ∧ 2 ^ 30 - 1 ≤ generation c.
Proof.
  unfold GENERATION_NUMBER_MAX. destruct (Z.ltb_spec (foldl Z.max 0 (generation <$> l)) 1073741823) as [Hlt|Hge]; split; try done.
  - intros (c & Hc & Hg). pose proof (foldl_max_ge 0 (generation <$> l) (generation c) (list_elem_of_fmap_2 _ _ _ Hc)). lia.
  - intros _. destruct (foldl_max_in 0 (generation <$> l)) as [E|(c & E & Hc)%list_elem_of_fmap]; [lia|]. exists c. split; [done|lia].
Qed.

(** C28: What a successful verification shows.  For a graph of files that were
    opened: each file ends in the hash of what is in front of that, has as many
    base graphs as there are files in front of it, and names their trailers; its
    ids ascend strictly, and neither an id nor a tree is null; the closure was
    called for every commit once, in order; all parents are in the graph, and
    the generation of every commit is one above that of its highest parent, but
    at most 2^30-1.  A longest path length is reported exactly if no generation
    is that high, and then it is right: no path along parents is longer, and
    there is one of that length; so that then the graph has no cycle. *)
Theorem verify_integrity_sound `{!faster_hex.Api} sha1 {S E} (processor : S → Commit → res E S) fs g s s' out :
  Forall (λ f, ∃ d p, is_bytes d ∧ Z.of_nat (length d) < 2 ^ 32 ∧ file_new d p = Ok f) fs →
  graph_new fs = Ok g → verify_integrity sha1 processor g s = Ok (s', out) →
  ∃ commits, graph_iter_commits g = Ok commits ∧ total_commits out = Z.of_nat (length commits) ∧
    fold_res processor s commits = Ok s' ∧
    (∀ i c, commits !! i = Some c → graph_commit_at g (Z.of_nat i) = Ok c ∧ generations_ok g commits c) ∧
    (∀ i f, fs !! i = Some f → sealed sha1 f ∧ base_graph_count f = Z.of_nat i ∧ iter_base_graph_ids f = Ok (trailer_of <$> take i fs) ∧
      (∃ ids, iter_ids f = Ok ids ∧ StronglySorted bytes_lt (replicate 20 0 :: ids)) ∧
      ∃ cs, iter_commits f = Ok cs ∧ ∀ c, c ∈ cs → root_tree_id c ≠ replicate 20 0) ∧
    (longest_path_length out = None ↔ ∃ c, c ∈ commits ∧ 2 ^ 30 - 1 ≤ generation c) ∧
    ∀ n, longest_path_length out = Some n →
      (∀ p k, 0 ≤ p < Z.of_nat (length commits) → path_from g p k → Z.of_nat k ≤ n) ∧
      (commits ≠ [] → ∃ p, 0 ≤ p < Z.of_nat (length commits) ∧ path_from g p (Z.to_nat n)).
Proof.
  intros Hopen Hnew Hver. destruct (opened_valid fs Hopen) as [ns Hfs].
  assert (Hg : g = mkGraph fs).
  { unfold graph_new in Hnew. apply bind_ok in Hnew as (u & _ & Hnew). destruct (_ <? _); [done|].
    by apply bind_ok in Hnew as (u2 & _ & [= <-]). }
  subst g. unfold verify_integrity in Hver. cbn [files] in Hver.
  destruct (Nat.ltb_spec 256 (length fs)) as [|H256]; [done|].
  pose proof (sum_small fs ns Hfs) as Hsum. pose proof (all_commits_length fs ns Hfs) as Hlen.
  assert (Hmax : Z.of_nat (sum_list ns) ≤ MAX_COMMITS).
  { unfold graph_new in Hnew. rewrite (valid_counts fs ns Hfs) in Hnew. cbn [lift map_err] in Hnew. rewrite bind_Ok in Hnew.
    rewrite sum_wrap in Hnew by lia. by destruct (Z.ltb_spec MAX_COMMITS (0 + Z.of_nat (sum_list ns))); [|lia]. }
  unfold MAX_COMMITS in Hmax. apply bind_ok in Hver as ([s1 p] & Hloop & [= <- <-]).
  pose proof (verify_bases sha1 processor (mkGraph fs) [] fs ns _ _ _ Hloop Hfs (Forall_nil_2 _)) as Hbases.
  apply (verify_files_spec sha1 processor (mkGraph fs) [] fs ns) in Hloop; cbn [file_start_pos g_stats total_commits g_max_generation];
    [|done|lia|lia|done|lia].
  destruct Hloop as (Htot & Hck & Hfold & Hgmax & Hids). cbn [file_start_pos g_stats total_commits g_max_generation] in *.
  rewrite Z.add_0_l in *. pose proof (commit_at_all fs ns Hfs) as Hat.
  assert (Hok : ∀ c, c ∈ all_commits fs ns → generations_ok (mkGraph fs) (all_commits fs ns) c).
  { intros c Hc. rewrite Forall_forall in Hck. by apply checked_generations; [| |apply Hck]. }
  exists (all_commits fs ns). split_and!; [by apply iter_all|done|done| | | |].
  - intros i c Hi. split; [by apply Hat|]. apply Hok. by eapply list_elem_of_lookup_2.
  - intros i f Hi. destruct (Forall2_lookup_l _ _ _ _ _ Hids Hi) as (n & Hn & Hseal & Hroot & Hsrt).
    destruct (Hbases i f Hi) as [Hb1 Hb2]. pose proof (Forall2_lookup_lr _ _ _ _ _ _ Hfs Hi Hn) as Hv.
    assert (Hnull : null_id f = replicate 20 0) by (unfold null_id; by destruct (object_hash f)). rewrite Hnull in *.
    split_and!; [done|done|done| |]; eexists.
    + split; [by apply (iter_ids_ok f n)|]. by apply Sorted_StronglySorted; [apply _|].
    + split; [by apply (iter_commits_ok f n)|]. by apply Forall_forall.
  - cbn [longest_path_length]. rewrite Hgmax. apply longest_reported.
  - cbn [longest_path_length]. intros n. rewrite Hgmax. destruct (Z.ltb_spec (foldl Z.max 0 (generation <$> all_commits fs ns)) GENERATION_NUMBER_MAX)
      as [Hlt|]; [|done]. intros [= <-].
    eapply (longest_path (mkGraph fs) (all_commits fs ns) Hat Hok); [|done|].
    + intros c Hc. eapply Z.le_lt_trans; [|exact Hlt]. apply foldl_max_ge. by apply list_elem_of_fmap_2.
    + lia.
Qed.

(** ** Examples *)

Definition example_data : bytes := graph_file example_commits [] (replicate 20 7).

Lemma example_opens : ∃ f, file_new example_data [] = Ok f ∧ file_ids f (s_id <$> example_commits).
Proof.
  assert (Hsz : Z.of_nat (length (graph_file example_commits [] (replicate 20 7))) < 2 ^ 32) by (vm_compute; reflexivity).
  assert (Hb : (length (@nil bytes) ≤ 255)%nat) by (cbn; lia).
  destruct (file_new_graph example_commits [] (replicate 20 7) [] example_commits_wf ltac:(done) example_commits_sorted
    (Forall_nil_2 _) Hb eq_refl Hsz) as (f & Hf & Ho).
  exists f. split; [exact Hf|].
  exact (graph_opened_table example_commits [] (replicate 20 7) example_commits_wf ltac:(done) example_commits_sorted
    (Forall_nil_2 _) Hb eq_refl Hsz f Ho).
Qed.

Lemma graph_lookup_correct_witness :
  ∃ f, file_new example_data [] = Ok f ∧
    graph_num_commits (mkGraph [f]) = Ok 4 ∧
    graph_id_at (mkGraph [f]) 2 = Ok (replicate 20 3) ∧ graph_id_at (mkGraph [f]) 4 = Panic.
Proof.
  destruct example_opens as (f & Hf & Ho). exists f. split; [exact Hf|].
  destruct (graph_lookup_correct [f] [s_id <$> example_commits]) as (_ & Hn & Hid & Hend & _).
  - constructor; [exact Ho|constructor].
  - vm_compute. discriminate.
  - split; [exact Hn|]. split; [apply (Hid 2%nat); reflexivity|]. apply (Hend 4). vm_compute. discriminate.
Defined.

(** A graph of one file whose checksum is its trailer: verification counts four
    commits and a longest path of three steps. *)
Definition visit (n : Z) (_ : Commit) : res Empty_set Z := Ok (n + 1).
Definition toy_sha1 (_ : bytes) : bytes := replicate 20 7.
Lemma example_verifies : 
  match file_new example_data [] with
  | Ok f => match @verify_integrity hex_impl toy_sha1 _ _ visit (mkGraph [f]) 0 with
            | Ok (visited, out) => visited = 4 ∧ total_commits out = 4 ∧ longest_path_length out = Some 3
            | _ => False
            end
  | _ => False
  end.
Proof. vm_compute. done. Qed.

Lemma verify_integrity_sound_witness :
  ∃ f commits, file_new example_data [] = Ok f ∧ graph_iter_commits (mkGraph [f]) = Ok commits ∧
    Z.of_nat (length commits) = 4 ∧
    (∀ p k, 0 ≤ p < 4 → path_from (mkGraph [f]) p k → Z.of_nat k ≤ 3) ∧
    ∃ p, 0 ≤ p < 4 ∧ path_from (mkGraph [f]) p 3.
Proof.
  pose proof example_verifies as Hv. destruct (file_new example_data []) as [f| |] eqn:Hf; [|destruct Hv|destruct Hv].
  destruct (@verify_integrity hex_impl toy_sha1 Z Empty_set visit (mkGraph [f]) 0) as [[v out]| |] eqn:Ho; [|destruct Hv|destruct Hv].
  destruct Hv as (_ & Ht & Hlong).
  destruct (@verify_integrity_sound hex_impl toy_sha1 Z Empty_set visit [f] (mkGraph [f]) 0 v out) as (cs & Hcs & Htot & _ & _ & _ & _ & Hp).
  - constructor; [|constructor]. exists example_data, []. split; [by_decision|]. split; [vm_compute; reflexivity|exact Hf].
  - destruct example_opens as (f' & Hf' & Hids). assert (f' = f) as -> by congruence.
    unfold graph_new. cbn [mapM_res]. by rewrite (table_num f _ Hids).
  - exact Ho.
  - rewrite Ht in Htot. rewrite <- Htot in Hp. destruct (Hp 3 Hlong) as [Hmax Hex].
    exists f, cs. split; [done|]. split; [exact Hcs|]. split; [done|]. split; [exact Hmax|].
    apply Hex. intros ->. discriminate Htot.
Defined.

(** No commit updates [max_parents] of a file's statistics: it stays 0, also for
    a commit with three parents, which [parent_counts] does count. *)
Example max_parents_stays_zero :
  match file_new example_data [] with
  | Ok f => match @traverse hex_impl toy_sha1 _ _ visit f 0 with
            | Ok (_, stats) => max_parents stats = 0 ∧ parent_counts stats !! 3 = Some 1
            | _ => False
            end
  | _ => False
  end.
Proof. vm_compute. done. Qed.
