(* ===== verification/Bitmap.v ===== *)
(** * Compressed bitmaps: the crate [gix-bitmap]

    An EWAH bitmap ([ewah.rs]) is a sequence of 64-bit words in groups: a
    running length word tells how many words of equal bits are left out and
    how many literal words follow.  [decode] reads one from an index
    extension, [for_each_set_bit] calls a closure for every bit that is
    set. *)

From S2P Require Import Prelude.

Definition split_at_pos (data : bytes) (pos : nat) : option (bytes * bytes) :=
  if (length data <? pos)%nat then None else Some (take pos data, drop pos data).
(** [decode::u32]. *)
Definition decode_u32 (data : bytes) : option (Z * bytes) :=
  '(num, data) ← split_at_pos data 4; Some (be_val num, data).

Inductive Error := Corrupt (message : bytes).

Record Vec := mkVec { num_bits : Z; bits : list Z; rlw : Z }.

(** The loop that fills [buf]. *)
Fixpoint read_words (len : nat) (bits : bytes) : res Error (list Z) :=
  match len with
  | O => Ok []
  | S len =>
      '(bit_num, rest) ← split_at bits 8;
      buf ← read_words len rest;
      Ok (be_val bit_num :: buf)
  end.

Definition decode (data : bytes) : res Error (Vec * bytes) :=
  '(num_bits, data) ← ok_or (decode_u32 data) (Corrupt (bs "eof reading amount of bits"));
  '(len, data) ← ok_or (decode_u32 data) (Corrupt (bs "eof reading chunk length"));
  let len := Z.to_nat len in
  '(bits, data) ← ok_or (split_at_pos data (len * 8)) (Corrupt (bs "eof while reading bit data"));
  buf ← read_words len bits;
  '(rlw, data) ← ok_or (decode_u32 data) (Corrupt (bs "eof while reading run length width"));
  Ok (mkVec num_bits buf rlw, data).

Definition RLW_RUNNING_BITS : Z := 4 * 8.
Definition RLW_LARGEST_RUNNING_COUNT : Z := Z.shiftl 1 RLW_RUNNING_BITS - 1.
Definition rlw_running_len (w : Z) : Z := Z.land (Z.shiftr w 1) RLW_LARGEST_RUNNING_COUNT.
Definition rlw_running_len_bits (w : Z) : Z := wrap 64 (rlw_running_len w * 64).
Definition rlw_literal_words (w : Z) : Z := Z.shiftr w (1 + RLW_RUNNING_BITS).
Definition rlw_runbit_is_set (w : Z) : bool := Z.land w 1 =? 1.

(** [f(index)] changes the variables [S] that the closure captured, and tells
    whether it returned [Some(())]; it may panic. *)
Section ForEach.
Context {S : Type} (f : S → Z → res Empty_set (S * bool)).

(** [for _ in 0..len { f(index)?; index += 1 }]; [None] is an early return,
    with the state of the closure. *)
Fixpoint run_of_ones (len : nat) (s : S) (index : Z) : res Empty_set (S * option Z) :=
  match len with
  | O => Ok (s, Some index)
  | Datatypes.S len =>
      '(s, c) ← f s index;
      if (c : bool) then run_of_ones len s (wrap 64 (index + 1)) else Ok (s, None)
  end.
(** [for bit_index in 0..64]. *)
Fixpoint literal_bits (bit_indices : list nat) (word : Z) (s : S) (index : Z)
  : res Empty_set (S * option Z) :=
  match bit_indices with
  | [] => Ok (s, Some index)
  | bit_index :: l =>
      '(s, c) ← (if negb (Z.land word (Z.shiftl 1 (Z.of_nat bit_index)) =? 0)
                 then f s index else Ok (s, true));
      if (c : bool) then literal_bits l word s (wrap 64 (index + 1)) else Ok (s, None)
  end.
(** [for _ in 0..rlw_literal_words(word)]: takes words from the iterator. *)
Fixpoint literal_words (n : nat) (iter : list Z) (s : S) (index : Z)
  : res Empty_set (S * option (Z * list Z)) :=
  match n with
  | O => Ok (s, Some (index, iter))
  | Datatypes.S n =>
      match iter with
      | [] => Panic
      | word :: iter =>
          '(s, r) ← literal_bits (seq 0 64) word s index;
          match r with
          | Some index => literal_words n iter s index
          | None => Ok (s, None)
          end
      end
  end.
(** [while let Some(word) = iter.next()]; every round takes a word, so the
    number of words bounds the rounds. *)
Fixpoint word_loop (fuel : nat) (iter : list Z) (s : S) (index : Z) : res Empty_set (S * bool) :=
  match fuel, iter with
  | O, _ | _, [] => Ok (s, true)
  | Datatypes.S fuel, word :: iter =>
      '(s, r) ← (if rlw_runbit_is_set word
                 then run_of_ones (Z.to_nat (rlw_running_len_bits word)) s index
                 else Ok (s, Some (wrap 64 (index + rlw_running_len_bits word))));
      match r with
      | None => Ok (s, false)
      | Some index =>
          '(s, r) ← literal_words (Z.to_nat (rlw_literal_words word)) iter s index;
          match r with
          | None => Ok (s, false)
          | Some (index, iter) => word_loop fuel iter s index
          end
      end
  end.
Definition for_each_set_bit (v : Vec) (s : S) : res Empty_set (S * bool) :=
  word_loop (length (bits v)) (bits v) s 0.
End ForEach.

(** ** Specification *)

(** The bits of a literal word, least significant first. *)
Definition word_bits (w : Z) : list bool := (λ i, Z.testbit w (Z.of_nat i)) <$> seq 0 64.

(** The uncompressed bitmap, and whether all announced literal words were
    there. *)
Fixpoint expand (fuel : nat) (ws : list Z) : list bool * bool :=
  match fuel, ws with
  | O, _ | _, [] => ([], true)
  | S fuel, w :: ws =>
      let run := replicate (Z.to_nat (64 * (Z.shiftr w 1 mod 2 ^ 32))) (Z.testbit w 0) in
      let n := Z.to_nat (Z.shiftr w 33) in
      let lits := mjoin (word_bits <$> take n ws) in
      if (n <=? length ws)%nat
      then let '(l, ok) := expand fuel (drop n ws) in (run ++ lits ++ l, ok)
      else (run ++ lits, false)
  end.
Definition expanded (v : Vec) : list bool * bool := expand (length (bits v)) (bits v).

(** The positions of the bits that are set, counted from [i]. *)
Fixpoint set_bits (i : Z) (l : list bool) : list Z :=
  match l with
  | [] => []
  | true :: l => i :: set_bits (i + 1) l
  | false :: l => set_bits (i + 1) l
  end.

(** Calling [f] for the elements of a list until it stops. *)
Fixpoint visit {S : Type} (f : S → Z → res Empty_set (S * bool)) (s : S) (l : list Z)
  : res Empty_set (S * bool) :=
  match l with
  | [] => Ok (s, true)
  | i :: l => '(s, c) ← f s i; if (c : bool) then visit f s l else Ok (s, false)
  end.

(** ** Lemmas *)

Lemma set_bits_app i l1 l2 :
  set_bits i (l1 ++ l2) = set_bits i l1 ++ set_bits (i + Z.of_nat (length l1)) l2.
Proof.
  revert i. induction l1 as [|[] l1 IH]; intros i; cbn [set_bits app length].
  - f_equal. lia.
  - rewrite IH. cbn [app]. do 3 f_equal. lia.
  - rewrite IH. do 2 f_equal. lia.
Qed.
Lemma set_bits_false n i : set_bits i (replicate n false) = [].
Proof. revert i. induction n as [|n IH]; intros i; simpl; auto. Qed.

Lemma word_bit w i :
  negb (Z.land w (Z.shiftl 1 (Z.of_nat i)) =? 0) = Z.testbit w (Z.of_nat i).
Proof.
  rewrite Z.shiftl_1_l. destruct (Z.testbit w (Z.of_nat i)) eqn:E.
  - apply negb_true_iff, Z.eqb_neq. intros H. apply (f_equal (λ z, Z.testbit z (Z.of_nat i))) in H.
    rewrite Z.land_spec, E, Z.pow2_bits_true, Z.bits_0 in H by lia. done.
  - apply negb_false_iff, Z.eqb_eq. apply Z.bits_inj'. intros n Hn.
    rewrite Z.land_spec, Z.bits_0, Z.pow2_bits_eqb by lia.
    destruct (Z.eqb_spec (Z.of_nat i) n) as [<-|_]; [by rewrite E|apply andb_false_r].
Qed.
Lemma runbit w : rlw_runbit_is_set w = Z.testbit w 0.
Proof.
  unfold rlw_runbit_is_set. change 1 with (Z.ones 1) at 1. rewrite Z.land_ones by lia.
  rewrite Z.bit0_odd, Zmod_odd. by destruct (Z.odd w).
Qed.
Lemma running_len_bits w : rlw_running_len_bits w = 64 * (Z.shiftr w 1 mod 2 ^ 32).
Proof.
  unfold rlw_running_len_bits, rlw_running_len.
  change RLW_LARGEST_RUNNING_COUNT with (Z.ones 32). rewrite Z.land_ones by lia.
  pose proof (Z.mod_pos_bound (Z.shiftr w 1) (2 ^ 32)). rewrite wrap_small; lia.
Qed.

Section Visit.
Context {S : Type} (f : S → Z → res Empty_set (S * bool)).

Lemma visit_app s l1 l2 :
  visit f s (l1 ++ l2) =
  '(s, c) ← visit f s l1; if (c : bool) then visit f s l2 else Ok (s, false).
Proof.
  revert s. induction l1 as [|i l1 IH]; intros s; [done|]. cbn [app visit].
  destruct (f s i) as [[s' []]| |]; [|done..]. rewrite !bind_Ok. apply IH.
Qed.

(** The outcome of a loop that visits the set bits of [l] and goes on with the
    position behind them. *)
Definition visited {A} (s : S) (index : Z) (l : list bool) (a : A) : res Empty_set (S * option A) :=
  '(s, c) ← visit f s (set_bits index l); Ok (s, if (c : bool) then Some a else None).

Lemma run_of_ones_spec n s index :
  0 ≤ index → index + Z.of_nat n < 2 ^ 64 →
  run_of_ones f n s index = visited s index (replicate n true) (index + Z.of_nat n).
Proof.
  revert s index. induction n as [|n IH]; intros s index H0 H64.
  { unfold visited. cbn. do 3 f_equal. lia. }
  unfold visited in *. cbn [run_of_ones replicate set_bits visit].
  destruct (f s index) as [[s' []]| |]; [|done..]. rewrite !bind_Ok.
  rewrite wrap_small, IH by lia.
  by replace (index + 1 + Z.of_nat n) with (index + Z.of_nat (Datatypes.S n)) by lia.
Qed.

Lemma literal_bits_spec l w s index :
  0 ≤ index → index + Z.of_nat (length l) < 2 ^ 64 →
  literal_bits f l w s index =
  visited s index ((λ i, Z.testbit w (Z.of_nat i)) <$> l) (index + Z.of_nat (length l)).
Proof.
  revert s index. induction l as [|i l IH]; intros s index H0 H64.
  { unfold visited. cbn. do 3 f_equal. lia. }
  unfold visited in *. cbn [literal_bits]. rewrite word_bit, fmap_cons. cbn [length] in *.
  assert (Hstep : ∀ s', literal_bits f l w s' (wrap 64 (index + 1)) =
    '(s, c) ← visit f s' (set_bits (index + 1) ((λ i, Z.testbit w (Z.of_nat i)) <$> l));
    Ok (s, if (c : bool) then Some (index + Z.of_nat (Datatypes.S (length l))) else None)).
  { intros s'. rewrite wrap_small, IH by lia.
    by replace (index + 1 + Z.of_nat (length l)) with (index + Z.of_nat (Datatypes.S (length l))) by lia. }
  destruct (Z.testbit w (Z.of_nat i)); cbn [set_bits visit].
  - destruct (f s index) as [[s' []]| |]; [|done..]. rewrite !bind_Ok. apply Hstep.
  - rewrite bind_Ok. apply Hstep.
Qed.

Lemma visited_bind {A B} s index l (a : A) (k : S → A → res Empty_set (S * option B)) :
  ('(s, r) ← visited s index l a; match r with Some a => k s a | None => Ok (s, None) end) =
  ('(s, c) ← visit f s (set_bits index l); if (c : bool) then k s a else Ok (s, None)).
Proof.
  unfold visited. destruct (visit f s (set_bits index l)) as [[s' []]| |]; done.
Qed.

Lemma literal_words_spec n iter s index :
  0 ≤ index → index + 64 * Z.of_nat (n `min` length iter) < 2 ^ 64 →
  literal_words f n iter s index =
  if (n <=? length iter)%nat
  then visited s index (mjoin (word_bits <$> take n iter)) (index + 64 * Z.of_nat n, drop n iter)
  else '(s, c) ← visit f s (set_bits index (mjoin (word_bits <$> iter)));
       if (c : bool) then Panic else Ok (s, None).
Proof.
  revert iter s index. induction n as [|n IH]; intros iter s index H0 H64.
  { replace (index + 64 * Z.of_nat 0) with index by lia. by rewrite take_0, drop_0. }
  destruct iter as [|w iter]; [done|]. cbn [literal_words length Nat.min] in *.
  rewrite literal_bits_spec by (rewrite ?length_seq; lia). rewrite length_seq.
  change ((λ i, Z.testbit w (Z.of_nat i)) <$> seq 0 64) with (word_bits w).
  rewrite visited_bind. cbn [length Nat.leb take drop]. rewrite !fmap_cons. cbn [mjoin list_join].
  fold (mjoin (M:=list) (A:=bool)).
  assert (Hlen : length (word_bits w) = 64%nat) by (unfold word_bits; by rewrite length_fmap, length_seq).
  unfold visited. rewrite !set_bits_app, !visit_app, Hlen.
  destruct (visit f s (set_bits index (word_bits w))) as [[s' []]| |];
    [rewrite !bind_Ok|by destruct (n <=? length iter)%nat..].
  rewrite IH by lia. destruct (n <=? length iter)%nat; [|done]. unfold visited.
  by replace (index + 64 * Z.of_nat (Datatypes.S n)) with (index + Z.of_nat 64 + 64 * Z.of_nat n) by lia.
Qed.

Lemma length_words ws : length (mjoin (word_bits <$> ws)) = (64 * length ws)%nat.
Proof.
  induction ws as [|w ws IH]; [done|].
  change (mjoin (word_bits <$> w :: ws)) with (word_bits w ++ mjoin (word_bits <$> ws)).
  rewrite length_app, IH. unfold word_bits. rewrite length_fmap, length_seq. cbn [length]. lia.
Qed.

Lemma word_loop_spec fuel ws s index :
  Forall (λ w, 0 ≤ w) ws → (length ws ≤ fuel)%nat → 0 ≤ index →
  index + Z.of_nat (length (expand fuel ws).1) < 2 ^ 64 →
  word_loop f fuel ws s index =
  '(s, c) ← visit f s (set_bits index (expand fuel ws).1);
  if (c : bool) && negb (expand fuel ws).2 then Panic else Ok (s, c).
Proof.
  revert ws s index. induction fuel as [|fuel IH]; intros ws s index Hws Hfuel H0 H64.
  { destruct ws; [done|simpl in Hfuel; lia]. }
  destruct ws as [|w ws]; [done|]. apply Forall_cons in Hws as [Hw Hws]. simpl in Hfuel.
  cbn [word_loop expand] in *. rewrite runbit, running_len_bits.
  set (r := 64 * (Z.shiftr w 1 mod 2 ^ 32)) in *.
  assert (Hr : 0 ≤ r) by (unfold r; pose proof (Z.mod_pos_bound (Z.shiftr w 1) (2 ^ 32)); lia).
  change (rlw_literal_words w) with (Z.shiftr w 33). set (n := Z.to_nat (Z.shiftr w 33)) in *.
  set (run := replicate (Z.to_nat r) (Z.testbit w 0)) in *.
  assert (Hrun : length run = Z.to_nat r) by apply length_replicate.
  set (lits := mjoin (word_bits <$> take n ws)) in *.
  assert (Hlits : length lits = (64 * (n `min` length ws))%nat)
    by (unfold lits; rewrite length_words, length_take; lia).
  assert (Hbound : index + r + 64 * Z.of_nat (n `min` length ws) < 2 ^ 64).
  { destruct (n <=? length ws)%nat; [destruct (expand _ _)|]; cbn [fst] in H64;
      rewrite !length_app in H64; lia. }
  assert (Hfirst : (if Z.testbit w 0 then run_of_ones f (Z.to_nat r) s index
      else Ok (s, Some (wrap 64 (index + r)))) = visited s index run (index + r)).
  { unfold run. destruct (Z.testbit w 0).
    - rewrite run_of_ones_spec by lia. by rewrite Z2Nat.id by lia.
    - unfold visited. rewrite set_bits_false, wrap_small by lia. done. }
  rewrite Hfirst. unfold visited.
  assert (Hall : set_bits index (run ++ lits) = set_bits index run ++ set_bits (index + r) lits)
    by (rewrite set_bits_app, Hrun; do 2 f_equal; lia).
  assert (Hlw : ∀ s', literal_words f n ws s' (index + r) = if (n <=? length ws)%nat
    then visited s' (index + r) lits (index + r + 64 * Z.of_nat n, drop n ws)
    else '(s, c) ← visit f s' (set_bits (index + r) (mjoin (word_bits <$> ws)));
         if (c : bool) then Panic else Ok (s, None)) by (intros s'; apply literal_words_spec; lia).
  destruct (Nat.leb_spec n (length ws)) as [Hle|Hgt].
  - destruct (expand fuel (drop n ws)) as [l ok] eqn:Hexp. cbn [fst snd] in *.
    rewrite !app_assoc, set_bits_app, Hall, !visit_app.
    destruct (visit f s (set_bits index run)) as [[s1 []]| |]; [|done..].
    rewrite !bind_Ok, Hlw. unfold visited.
    destruct (visit f s1 (set_bits (index + r) lits)) as [[s2 []]| |]; [|done..].
    rewrite !bind_Ok, IH; rewrite ?Hexp; cbn [fst snd].
    + do 3 f_equal. rewrite length_app. lia.
    + by apply Forall_drop.
    + rewrite length_drop. lia.
    + lia.
    + rewrite !length_app in H64. lia.
  - cbn [fst snd] in *. rewrite Hall, !visit_app.
    destruct (visit f s (set_bits index run)) as [[s1 []]| |]; [|done..].
    rewrite !bind_Ok, Hlw. unfold lits. rewrite (take_ge ws) by lia.
    destruct (visit f s1 _) as [[s2 []]| |]; done.
Qed.
End Visit.

(** ** Properties *)

(** [for_each_set_bit] calls the closure for exactly the positions of the
    bits that are set in the uncompressed bitmap, in ascending order, until the
    closure stops it.  It panics only where the closure does, or when the
    closure has seen all bits of a bitmap whose last group announces more
    literal words than there are. *)
Theorem for_each_set_bit_spec {S} (f : S → Z → res Empty_set (S * bool)) v s :
  Forall (λ w, u64 w) (bits v) → Z.of_nat (length (expanded v).1) < 2 ^ 64 →
  for_each_set_bit f v s =
  '(s, c) ← visit f s (set_bits 0 (expanded v).1);
  if (c : bool) && negb (expanded v).2 then Panic else Ok (s, c).
Proof.
  intros Hw H64. apply word_loop_spec; [|done|lia|done].
  eapply Forall_impl; [exact Hw|]. simpl. lia.
Qed.
Lemma for_each_set_bit_spec_witness :
  for_each_set_bit (λ l i, Ok (l ++ [i], true)) (mkVec 70 [2 ^ 33 + 2; 5] 0) [] =
  Ok ([64; 66], true).
Proof.
  rewrite (for_each_set_bit_spec (λ l i, Ok (l ++ [i], true)) (mkVec 70 [2 ^ 33 + 2; 5] 0) []).
  - vm_compute. reflexivity.
  - repeat constructor; lia.
  - vm_compute. reflexivity.
Defined.
