(* ===== verification/IndexEntry.v ===== *)
(** * Entries of the index file

    Models of [gix-index]: the byte readers of [lib.rs], the data of
    [entry/mod.rs], the flags of [entry/flags.rs] and the modes of
    [entry/mode.rs], reading entries ([decode/entries.rs]) and writing them
    ([entry/write.rs], and [CountBytes] and [entries] of [write.rs]).

    The [bitflags!] types are the integers of their bits.  A function that
    returns an [Option] and may panic has the error type [unit]. *)

From Stdlib Require Import ZifyNat.
From S2P Require Import Prelude Hash PackEntry.

(** ** Readers: [util] of [lib.rs] *)

Definition split_at_pos (data : bytes) (pos : nat) : option (bytes * bytes) :=
  if (length data <? pos)%nat then None else Some (take pos data, drop pos data).
Definition split_at_byte_exclusive (data : bytes) (byte : Z) : option (bytes * bytes) :=
  if (length data <? 2)%nat then None
  else idx ← find_index (λ b, b =? byte) data; Some (take idx data, drop (S idx) data).
Definition read_u16 (data : bytes) : option (Z * bytes) :=
  '(num, data) ← split_at_pos data 2; Some (be_val num, data).
Definition read_u32 (data : bytes) : option (Z * bytes) :=
  '(num, data) ← split_at_pos data 4; Some (be_val num, data).
Definition read_u64 (data : bytes) : option (Z * bytes) :=
  '(num, data) ← split_at_pos data 8; Some (be_val num, data).
Definition var_int (data : bytes) : res unit (Z * bytes) :=
  match Leb.leb64_from_read data with
  | Ok (num, consumed, _) => data ← slice_from data consumed; Ok (num, data)
  | Err _ => Err tt
  | Panic => Panic
  end.

(** [?] on an option. *)
Definition opt {A} (o : option A) : res unit A := ok_or o tt.

(** ** Data *)

Record Time := mkTime { secs : Z; nsecs : Z }.
Record Stat := mkStat {
  mtime : Time; ctime : Time; dev : Z; ino : Z; uid : Z; gid : Z; size : Z }.

Module Flags.
Definition PATH_LEN : Z := 0x0fff.
Definition STAGE_MASK : Z := 0x3000.        (* 1<<12 | 1<<13 *)
Definition EXTENDED : Z := 2 ^ 14.
Definition ASSUME_VALID : Z := 2 ^ 15.
Definition REMOVE : Z := 2 ^ 17.
Definition INTENT_TO_ADD : Z := 2 ^ 29.
Definition SKIP_WORKTREE : Z := 2 ^ 30.
End Flags.
Definition contains (flags f : Z) : bool := Z.land flags f =? f.

Inductive Stage := Unconflicted | Base | Ours | Theirs.
#[global] Instance Stage_eq_dec : EqDecision Stage.
Proof. solve_decision. Defined.
(** [stage as StageRaw], which is also the derived order. *)
Definition stage_num (s : Stage) : Z :=
  match s with Unconflicted => 0 | Base => 1 | Ours => 2 | Theirs => 3 end.

Definition stage_raw (flags : Z) : Z := Z.shiftr (Z.land flags Flags.STAGE_MASK) 12.
Definition flags_stage (flags : Z) : res Empty_set Stage :=
  let r := stage_raw flags in
  if r =? 0 then Ok Unconflicted else if r =? 1 then Ok Base
  else if r =? 2 then Ok Ours else if r =? 3 then Ok Theirs else Panic.
Definition to_storage (flags : Z) : Z := wrap 16 (Z.ldiff flags Flags.PATH_LEN).

(** [at_rest]: the 16-bit flags, and the extended ones.  Every bit of the
    in-memory flags has a name, so [Flags::from_bits] does not fail. *)
Definition to_memory (flags : Z) : Z := flags.
Definition EXTENDED_ALL : Z := 0x6000.
Definition extended_from_bits (bits : Z) : option Z :=
  if Z.ldiff bits EXTENDED_ALL =? 0 then Some bits else None.
Definition from_flags (flags : Z) : Z :=
  wrap 16 (Z.shiftr (Z.land flags (Z.lor Flags.INTENT_TO_ADD Flags.SKIP_WORKTREE)) 16).
Definition to_flags (extended : Z) : option Z := Some (wrap 32 (Z.shiftl extended 16)).

Module Mode.
Definition DIR : Z := 16384.                (* 0o040000 *)
Definition FILE : Z := 33188.               (* 0o100644 *)
Definition FILE_EXECUTABLE : Z := 33261.    (* 0o100755 *)
Definition SYMLINK : Z := 40960.            (* 0o120000 *)
Definition COMMIT : Z := 57344.             (* 0o160000 *)
Definition all : Z :=
  Z.lor DIR (Z.lor FILE (Z.lor FILE_EXECUTABLE (Z.lor SYMLINK COMMIT))).
Definition from_bits_truncate (bits : Z) : Z := Z.land bits all.
Definition is_sparse (m : Z) : bool := m =? DIR.
(** [*self == Self::DIR | Self::SYMLINK]. *)
Definition is_submodule (m : Z) : bool := m =? Z.lor DIR SYMLINK.
End Mode.

Record Entry := mkEntry {
  stat : Stat; id : ObjectId; flags : Z; mode : Z; path : nat * nat }.

Inductive Version := V2 | V3 | V4.
#[global] Instance Version_eq_dec : EqDecision Version.
Proof. solve_decision. Defined.

(** ** Reading *)

(** [skip_padding(data, first_byte_of_entry)]; [consumed] is the distance of
    [data] from the first byte of the entry. *)
Definition skip_padding (data : bytes) (consumed : nat) : res unit bytes :=
  let c_padding := Z.ldiff (Z.of_nat consumed + 8) 7 in
  let skip := c_padding - Z.of_nat consumed in
  slice_from data (Z.to_nat skip).

(** The path in front of which [data] is, appended to [path_backing]. *)
Definition load_path (data path_backing : bytes) (flags : Z) (consumed : nat)
    (has_delta_paths : bool) (prev_path : option (nat * nat)) : res unit (bytes * bytes) :=
  if has_delta_paths then
    '(strip_len, data) ← var_int data;
    path_backing ←
      match prev_path with
      | None => Ok path_backing
      | Some (prev_start, prev_end) =>
          end_ ← opt (if strip_len <=? Z.of_nat prev_end
                      then Some (prev_end - Z.to_nat strip_len)%nat else None);
          copy_len ← opt (if (prev_start <=? end_)%nat then Some (end_ - prev_start)%nat else None);
          if (0 <? copy_len)%nat then
            buf ← slice path_backing prev_start end_;
            Ok (path_backing ++ buf)
          else Ok path_backing
      end;
    '(path, data) ← opt (split_at_byte_exclusive data 0);
    Ok (data, path_backing ++ path)
  else
    '(path, data) ←
      (if contains flags Flags.PATH_LEN then opt (split_at_byte_exclusive data 0)
       else
         let path_len := Z.to_nat (Z.land flags Flags.PATH_LEN) in
         '(path, rest) ← opt (split_at_pos data path_len);
         rest ← skip_padding rest (consumed + path_len);
         Ok (path, rest));
    Ok (data, path_backing ++ path).

(** [load_one]: the entry, the rest of the data and the path backing. *)
Definition load_one (data0 path_backing : bytes) (hash_len : nat) (has_delta_paths : bool)
    (prev_path : option (nat * nat)) : res unit (Entry * bytes * bytes) :=
  '(ctime_secs, data) ← opt (read_u32 data0);
  '(ctime_nsecs, data) ← opt (read_u32 data);
  '(mtime_secs, data) ← opt (read_u32 data);
  '(mtime_nsecs, data) ← opt (read_u32 data);
  '(dev, data) ← opt (read_u32 data);
  '(ino, data) ← opt (read_u32 data);
  '(mode, data) ← opt (read_u32 data);
  '(uid, data) ← opt (read_u32 data);
  '(gid, data) ← opt (read_u32 data);
  '(size, data) ← opt (read_u32 data);
  '(hash, data) ← opt (split_at_pos data hash_len);
  '(flags, data) ← opt (read_u16 data);
  '(flags, data) ←
    (if contains flags Flags.EXTENDED then
       '(extended_flags, data) ← opt (read_u16 data);
       extended_flags ← opt (extended_from_bits extended_flags);
       extended_flags ← opt (to_flags extended_flags);
       Ok (Z.lor (to_memory flags) extended_flags, data)
     else Ok (to_memory flags, data));
  let start := length path_backing in
  '(data, path_backing) ←
    load_path data path_backing flags (length data0 - length data) has_delta_paths prev_path;
  id ← from_bytes_or_panic hash;
  Ok (mkEntry (mkStat (mkTime mtime_secs mtime_nsecs) (mkTime ctime_secs ctime_nsecs)
                 dev ino uid gid size)
        id (Z.ldiff flags Flags.PATH_LEN) (Mode.from_bits_truncate mode)
        (start, length path_backing),
      data, path_backing).

(** [entries::chunk]: [Err index] for [decode::Error::Entry { index }].  The
    loop variables are the data, the vectors, the previous path and whether a
    sparse entry was seen. *)
Fixpoint chunk_loop (n : nat) (idx : Z) (data : bytes) (entries : list Entry) (path_backing : bytes)
    (hash_len : nat) (has_delta_paths : bool) (prev_path : option (nat * nat)) (is_sparse : bool)
  : res Z (list Entry * bytes * bool * bytes) :=
  match n with
  | O => Ok (entries, path_backing, is_sparse, data)
  | S n =>
      '(entry, data, path_backing) ←
        map_err (λ _, idx) (load_one data path_backing hash_len has_delta_paths prev_path);
      let is_sparse := is_sparse || Mode.is_sparse (mode entry) in
      chunk_loop n (idx + 1) data (entries ++ [entry]) path_backing hash_len has_delta_paths
        (Some (path entry)) is_sparse
  end.
Definition chunk (data : bytes) (entries : list Entry) (path_backing : bytes) (num_entries : Z)
    (object_hash : Kind) (version : Version) : res Z (list Entry * bytes * bool * bytes) :=
  chunk_loop (Z.to_nat num_entries) 0 data entries path_backing (len_in_bytes object_hash)
    (bool_decide (version = V4)) None false.

(** ** Writing *)

(** [CountBytes] around a sink that accepts everything: the count and the
    bytes written.  The only error is that of an index of 4 gigabytes. *)
Inductive IoError := TooLarge.
Record CountBytes := mkCount { count : Z; inner : bytes }.
Definition write_all (out : CountBytes) (buf : bytes) : res IoError CountBytes :=
  if 2 ^ 32 <=? Z.of_nat (length buf) then Panic
  else if 2 ^ 32 <=? count out + Z.of_nat (length buf) then Err TooLarge
  else Ok (mkCount (count out + Z.of_nat (length buf)) (inner out ++ buf)).
(** A sequence of [out.write_all(buf)?]. *)
Fixpoint write_bufs (out : CountBytes) (bufs : list bytes) : res IoError CountBytes :=
  match bufs with
  | [] => Ok out
  | buf :: bufs => out ← write_all out buf; write_bufs out bufs
  end.

(** [Entry::path_in]. *)
Definition path_in {E} (e : Entry) (backing : bytes) : res E bytes :=
  slice backing (path e).1 (path e).2.

(** [Entry::write_to]. *)
Definition entry_write_to (e : Entry) (backing : bytes) (out : CountBytes) : res IoError CountBytes :=
  out ← write_bufs out [
    be_bytes 4 (secs (ctime (stat e))); be_bytes 4 (nsecs (ctime (stat e)));
    be_bytes 4 (secs (mtime (stat e))); be_bytes 4 (nsecs (mtime (stat e)));
    be_bytes 4 (dev (stat e)); be_bytes 4 (ino (stat e)); be_bytes 4 (mode e);
    be_bytes 4 (uid (stat e)); be_bytes 4 (gid (stat e)); be_bytes 4 (size (stat e));
    as_slice (id e)];
  path ← path_in e backing;
  let path_len :=
    if Flags.PATH_LEN <=? Z.of_nat (length path) then Flags.PATH_LEN else Z.of_nat (length path) in
  out ← write_all out (be_bytes 2 (Z.lor (to_storage (flags e)) path_len));
  out ← (if contains (flags e) Flags.EXTENDED
         then write_all out (be_bytes 2 (from_flags (flags e))) else Ok out);
  write_bufs out [path; [0]].

(** [entries] of [write.rs]. *)
Fixpoint write_entries (entries : list Entry) (backing : bytes) (header_size : Z) (out : CountBytes)
  : res IoError CountBytes :=
  match entries with
  | [] => Ok out
  | e :: entries =>
      out ←
        (if contains (flags e) Flags.REMOVE then Ok out
         else
           out ← entry_write_to e backing out;
           let n := (count out - header_size) mod 8 in
           if n =? 0 then Ok out
           else pad ← slice_from (replicate 8 0) (Z.to_nat n); write_all out pad);
      write_entries entries backing header_size out
  end.

(** ** Specification *)

(** What an entry stands for, with its path. *)
Record Item := mkItem {
  istat : Stat; iid : ObjectId; iflags : Z; imode : Z; ipath : bytes }.
Definition item_of (backing : bytes) (e : Entry) : Item :=
  mkItem (stat e) (id e) (flags e) (mode e)
    (take ((path e).2 - (path e).1) (drop (path e).1 backing)).

(** The flags that are stored. *)
Definition persisted (f : Z) : Z :=
  if contains f Flags.EXTENDED then Z.land f 0x6000f000 else Z.land f 0xf000.
Definition stored_item (i : Item) : Item :=
  mkItem (istat i) (iid i) (persisted (iflags i)) (imode i) (ipath i).

Definition wf_stat (s : Stat) : Prop :=
  u32 (secs (mtime s)) ∧ u32 (nsecs (mtime s)) ∧ u32 (secs (ctime s)) ∧ u32 (nsecs (ctime s)) ∧
  u32 (dev s) ∧ u32 (ino s) ∧ u32 (uid s) ∧ u32 (gid s) ∧ u32 (size s).

(** The bytes in front of the path. *)
Definition fixed_len (f : Z) : nat := if contains f Flags.EXTENDED then 64%nat else 62%nat.

(** A path that can be read back: it is short, or it has no zero byte and
    leaves no room for padding. *)
Definition readable_path (f : Z) (p : bytes) : Prop :=
  Z.of_nat (length p) < Flags.PATH_LEN ∨
  (0 ∉ p ∧ ((fixed_len f + length p + 1) `mod` 8 = 0)%nat).

Definition wf_item (i : Item) : Prop :=
  wf_stat (istat i) ∧ wf_id (iid i) ∧ u32 (iflags i) ∧ u32 (imode i) ∧
  Mode.from_bits_truncate (imode i) = imode i ∧ readable_path (iflags i) (ipath i).
(** The range of the path lies in the backing. *)
Definition in_backing (backing : bytes) (e : Entry) : Prop :=
  ((path e).1 ≤ (path e).2)%nat ∧ ((path e).2 ≤ length backing)%nat.
Definition wf_entry (backing : bytes) (e : Entry) : Prop :=
  in_backing backing e ∧ wf_item (item_of backing e).

(** ** Lemmas on flags *)

Lemma testbit_above z k n : 0 ≤ z < 2 ^ k → 0 ≤ k ≤ n → Z.testbit z n = false.
Proof.
  intros Hz Hk. rewrite <- (Z.mod_small z (2 ^ k)) by done. apply Z.mod_pow2_bits_high. lia.
Qed.

(** Equations between words of 32 bits, bit by bit: the constants are
    computed, [tac] rewrites the other bits. *)
Lemma bits_u32_eq a b :
  (∀ i, (i < 32)%nat → Z.testbit a (Z.of_nat i) = Z.testbit b (Z.of_nat i)) →
  (∀ n, 32 ≤ n → Z.testbit a n = Z.testbit b n) → a = b.
Proof.
  intros Hlo Hhi. apply Z.bits_inj'. intros n Hn. destruct (Z.lt_ge_cases n 32).
  - rewrite <- (Z2Nat.id n) by lia. apply Hlo. lia.
  - by apply Hhi.
Qed.
Ltac push_testbit := unfold wrap;
  repeat first
    [ rewrite Z.land_spec | rewrite Z.lor_spec | rewrite Z.ldiff_spec
    | rewrite Z.mod_pow2_bits_low by lia | rewrite Z.mod_pow2_bits_high by lia
    | rewrite Z.shiftr_spec by lia | rewrite Z.shiftl_spec by lia ].
Ltac bits_u32 tac :=
  apply bits_u32_eq;
  [ let i := fresh "i" in intros i ?;
    do 32 (destruct i as [|i]; [push_testbit; cbn; repeat tac; rewrite ?andb_true_r, ?andb_false_r, ?orb_false_r; try reflexivity|]); lia
  | let n := fresh "n" in let Hn := fresh "Hn" in intros n Hn; push_testbit;
    repeat match goal with
    | |- context [Z.testbit (Zpos ?p) n] =>
        rewrite (testbit_above (Zpos p) 32 n) by lia
    | |- context [Z.testbit (Zpos ?p) (n - ?k)] =>
        rewrite (testbit_above (Zpos p) 16 (n - k)) by lia
    end; repeat tac; rewrite ?andb_false_r, ?orb_false_r, ?Z.bits_0; try reflexivity ].

Lemma extended_u16 f : 0 ≤ from_flags f < 2 ^ 16.
Proof. apply wrap_range. lia. Qed.
Lemma extended_valid f : u32 f → extended_from_bits (from_flags f) = Some (from_flags f).
Proof.
  intros Hf. unfold extended_from_bits. rewrite (proj2 (Z.eqb_eq _ _)); [done|].
  unfold from_flags, EXTENDED_ALL, Flags.INTENT_TO_ADD, Flags.SKIP_WORKTREE.
  bits_u32 ltac:(rewrite (testbit_above f 32) by lia).
Qed.

Section StoredFlags.
Context (f p : Z) (Hf : u32 f) (Hp : 0 ≤ p ≤ Flags.PATH_LEN).
Let s := Z.lor (to_storage f) p.

Lemma p_high n : 12 ≤ n → Z.testbit p n = false.
Proof. intros. apply (testbit_above p 12); [unfold Flags.PATH_LEN in Hp; lia|lia]. Qed.
Lemma f_high n : 32 ≤ n → Z.testbit f n = false.
Proof. intros. apply (testbit_above f 32); lia. Qed.
Ltac flag_bits := bits_u32 ltac:(first [rewrite p_high by lia | rewrite f_high by lia]).

Lemma stored_u16 : 0 ≤ s < 2 ^ 16.
Proof.
  assert (Hs : s = wrap 16 s).
  { unfold s, to_storage, Flags.PATH_LEN. flag_bits. }
  rewrite Hs. apply wrap_range. lia.
Qed.
Lemma stored_path_len : Z.land s Flags.PATH_LEN = p.
Proof. unfold s, to_storage, Flags.PATH_LEN. flag_bits. Qed.
Lemma stored_extended : contains s Flags.EXTENDED = contains f Flags.EXTENDED.
Proof.
  unfold contains. f_equal. unfold s, to_storage, Flags.PATH_LEN, Flags.EXTENDED. flag_bits.
Qed.
Lemma stored_flags : Z.ldiff s Flags.PATH_LEN = Z.land f 0xf000.
Proof. unfold s, to_storage, Flags.PATH_LEN. flag_bits. Qed.

(** The extended flags. *)
Let x := wrap 32 (Z.shiftl (from_flags f) 16).
Lemma extended_path_len : Z.land (Z.lor s x) Flags.PATH_LEN = p.
Proof.
  unfold x, s, to_storage, from_flags, Flags.PATH_LEN, Flags.INTENT_TO_ADD, Flags.SKIP_WORKTREE. flag_bits.
Qed.
Lemma extended_flags : Z.ldiff (Z.lor s x) Flags.PATH_LEN = Z.land f 0x6000f000.
Proof.
  unfold x, s, to_storage, from_flags, Flags.PATH_LEN, Flags.INTENT_TO_ADD, Flags.SKIP_WORKTREE. flag_bits.
Qed.
End StoredFlags.

Lemma contains_path_len f : contains f Flags.PATH_LEN = (Z.land f Flags.PATH_LEN =? Flags.PATH_LEN).
Proof. done. Qed.
Lemma ldiff_7 z : Z.ldiff z 7 = z - z mod 8.
Proof.
  change 7 with (Z.ones 3). rewrite Z.ldiff_ones_r, Z.shiftl_mul_pow2, Z.shiftr_div_pow2 by lia.
  change (2 ^ 3) with 8. pose proof (Z.div_mod z 8). lia.
Qed.

(** *** What an entry is written as *)

(** The length of the path as the flags have it. *)
Definition len_field (p : bytes) : Z := Z.min Flags.PATH_LEN (Z.of_nat (length p)).
Definition padding (n : nat) : bytes := replicate ((8 - n mod 8) mod 8) 0.
(** An entry without its padding. *)
Definition item_bytes (i : Item) : bytes :=
  be_bytes 4 (secs (ctime (istat i))) ++ be_bytes 4 (nsecs (ctime (istat i))) ++
  be_bytes 4 (secs (mtime (istat i))) ++ be_bytes 4 (nsecs (mtime (istat i))) ++
  be_bytes 4 (dev (istat i)) ++ be_bytes 4 (ino (istat i)) ++ be_bytes 4 (imode i) ++
  be_bytes 4 (uid (istat i)) ++ be_bytes 4 (gid (istat i)) ++ be_bytes 4 (size (istat i)) ++
  as_slice (iid i) ++ be_bytes 2 (Z.lor (to_storage (iflags i)) (len_field (ipath i))) ++
  (if contains (iflags i) Flags.EXTENDED then be_bytes 2 (from_flags (iflags i)) else []) ++
  ipath i ++ [0].
Definition padded_item (i : Item) : bytes :=
  item_bytes i ++ padding (length (item_bytes i)).

Lemma length_item_bytes i :
  wf_id (iid i) → length (item_bytes i) = (fixed_len (iflags i) + length (ipath i) + 1)%nat.
Proof.
  intros [Hid _]. unfold item_bytes, fixed_len. rewrite !length_app, !length_be_bytes, Hid.
  destruct (contains _ _); [rewrite length_be_bytes|]; simpl; lia.
Qed.
Lemma length_padded_item i : (length (padded_item i) `mod` 8 = 0)%nat.
Proof.
  unfold padded_item, padding. rewrite length_app, length_replicate.
  set (n := length (item_bytes i)). pose proof (Nat.div_mod_eq n 8).
  pose proof (Nat.mod_upper_bound n 8).
  destruct (decide (n mod 8 = 0)%nat) as [Hz|Hz].
  - rewrite Hz. cbn. by rewrite Nat.add_0_r.
  - rewrite (Nat.mod_small (8 - n mod 8)) by lia.
    replace (n + (8 - n mod 8))%nat with ((S (n / 8)) * 8)%nat by lia. apply Nat.Div0.mod_mul.
Qed.

Lemma write_bufs_ok bufs out :
  0 ≤ count out → count out + Z.of_nat (length (mjoin bufs)) < 2 ^ 32 →
  write_bufs out bufs =
  Ok (mkCount (count out + Z.of_nat (length (mjoin bufs))) (inner out ++ mjoin bufs)).
Proof.
  revert out. induction bufs as [|b bufs IH]; intros [c i] H0 Hlt; cbn [count inner] in *.
  { cbn. rewrite app_nil_r. do 2 f_equal. lia. }
  change (mjoin (b :: bufs)) with (b ++ mjoin bufs) in *. rewrite length_app in *.
  cbn [write_bufs]. unfold write_all. cbn [count inner].
  rewrite (proj2 (Z.leb_gt _ _)), (proj2 (Z.leb_gt _ _)) by lia. rewrite bind_Ok.
  rewrite IH by (cbn [count]; lia). cbn [count inner]. rewrite <- app_assoc. do 2 f_equal. lia.
Qed.
Lemma write_all_ok out buf :
  0 ≤ count out → count out + Z.of_nat (length buf) < 2 ^ 32 →
  write_all out buf = Ok (mkCount (count out + Z.of_nat (length buf)) (inner out ++ buf)).
Proof.
  intros. unfold write_all. by rewrite (proj2 (Z.leb_gt _ _)), (proj2 (Z.leb_gt _ _)) by lia.
Qed.

Lemma path_in_ok {E} e backing :
  in_backing backing e → @path_in E e backing = Ok (ipath (item_of backing e)).
Proof. intros [H1 H2]. apply slice_ok_iff. done. Qed.

Lemma entry_write_to_spec e backing out :
  in_backing backing e → 0 ≤ count out →
  count out + Z.of_nat (length (item_bytes (item_of backing e))) < 2 ^ 32 →
  entry_write_to e backing out =
  Ok (mkCount (count out + Z.of_nat (length (item_bytes (item_of backing e))))
        (inner out ++ item_bytes (item_of backing e))).
Proof.
  intros Hin H0 Hlt. set (i := item_of backing e) in *. unfold entry_write_to.
  set (bufs := [_; _; _; _; _; _; _; _; _; _; _]).
  set (tail := be_bytes 2 (Z.lor (to_storage (iflags i)) (len_field (ipath i)))).
  set (ext := if contains (flags e) Flags.EXTENDED then be_bytes 2 (from_flags (flags e)) else []).
  assert (Hall : item_bytes i = mjoin bufs ++ tail ++ ext ++ mjoin [ipath i; [0]]).
  { unfold item_bytes, bufs, tail, ext. cbn. by rewrite <- !app_assoc. }
  rewrite Hall, !length_app in *.
  rewrite write_bufs_ok, bind_Ok by lia. rewrite path_in_ok, bind_Ok by done. fold i.
  assert (Hlf : (if Flags.PATH_LEN <=? Z.of_nat (length (ipath i)) then Flags.PATH_LEN
    else Z.of_nat (length (ipath i))) = len_field (ipath i)).
  { unfold len_field. destruct (Z.leb_spec Flags.PATH_LEN (Z.of_nat (length (ipath i)))); lia. }
  rewrite Hlf. change (flags e) with (iflags i). fold tail.
  rewrite write_all_ok, bind_Ok by (cbn [count]; lia). cbn [count inner].
  assert (Hext : ∀ o, 0 ≤ count o → count o + Z.of_nat (length ext) < 2 ^ 32 →
    (if contains (iflags i) Flags.EXTENDED then write_all o (be_bytes 2 (from_flags (iflags i))) else Ok o) =
    Ok (mkCount (count o + Z.of_nat (length ext)) (inner o ++ ext))).
  { intros [c b] Hc Hc'. unfold ext in *. change (flags e) with (iflags i) in *.
    destruct (contains _ _); [by apply write_all_ok|]. cbn. rewrite app_nil_r. do 2 f_equal. lia. }
  rewrite Hext, bind_Ok by (cbn [count]; lia). rewrite write_bufs_ok by (cbn [count]; lia).
  cbn [count inner]. rewrite <- !app_assoc. do 2 f_equal. lia.
Qed.

(** *** Reading back what was written *)

Lemma split_at_pos_app a b n : n = length a → split_at_pos (a ++ b) n = Some (a, b).
Proof.
  intros ->. unfold split_at_pos. rewrite length_app, (proj2 (Nat.ltb_ge _ _)) by lia.
  by rewrite take_app_length, drop_app_length.
Qed.
Lemma read_u32_app z r : u32 z → read_u32 (be_bytes 4 z ++ r) = Some (z, r).
Proof.
  intros Hz. unfold read_u32. rewrite split_at_pos_app by (by rewrite length_be_bytes).
  cbn [mbind option_bind]. by rewrite be_val_be_bytes by lia.
Qed.
Lemma read_u16_app z r : u16 z → read_u16 (be_bytes 2 z ++ r) = Some (z, r).
Proof.
  intros Hz. unfold read_u16. rewrite split_at_pos_app by (by rewrite length_be_bytes).
  cbn [mbind option_bind]. by rewrite be_val_be_bytes by lia.
Qed.
Lemma split_at_byte_app byte a b :
  byte ∉ a → (2 ≤ length (a ++ byte :: b))%nat →
  split_at_byte_exclusive (a ++ byte :: b) byte = Some (a, b).
Proof.
  intros Ha Hlen. unfold split_at_byte_exclusive. rewrite (proj2 (Nat.ltb_ge _ _)) by lia.
  rewrite find_index_app; [|..|apply Z.eqb_refl].
  - cbn [mbind option_bind]. rewrite take_app_length.
    change (byte :: b) with ([byte] ++ b). rewrite app_assoc.
    replace (S (length a)) with (length (a ++ [byte])) by (rewrite length_app; simpl; lia).
    by rewrite drop_app_length.
  - apply Forall_forall. intros y Hy. apply Z.eqb_neq. intros ->. done.
Qed.

(** The path with its terminator and padding, behind [k] bytes of an entry. *)
Lemma load_path_spec f p k pb prev rest fl :
  Z.land fl Flags.PATH_LEN = len_field p →
  k = fixed_len f → readable_path f p →
  load_path (p ++ [0] ++ padding (k + length p + 1) ++ rest) pb fl k false prev =
  Ok (rest, pb ++ p).
Proof.
  intros Hfl -> Hread. unfold load_path. rewrite contains_path_len, Hfl. unfold len_field.
  destruct (Z.lt_ge_cases (Z.of_nat (length p)) Flags.PATH_LEN) as [Hlt|Hge].
  - rewrite Z.min_r, (proj2 (Z.eqb_neq _ _)) by lia. rewrite Nat2Z.id.
    rewrite split_at_pos_app by done. cbn [opt ok_or]. rewrite bind_Ok. unfold skip_padding.
    rewrite ldiff_7. set (k := fixed_len f).
    assert (Hskip : Z.to_nat (Z.of_nat (k + length p) + 8 - (Z.of_nat (k + length p) + 8) mod 8 -
      Z.of_nat (k + length p)) = length ([0] ++ padding (k + length p + 1))).
    { unfold padding. cbn [app length]. rewrite length_replicate.
      generalize (k + length p)%nat. intros m. clear.
      zify. Z.to_euclidean_division_equations. lia. }
    rewrite app_assoc, slice_from_at, bind_Ok by done. by rewrite bind_Ok.
  - destruct Hread as [Hlt|[Hnul Hpad]]; [lia|]. rewrite Z.min_l, Z.eqb_refl by lia.
    unfold padding. rewrite Hpad. cbn [Nat.sub replicate app Nat.modulo Nat.divmod fst snd].
    rewrite split_at_byte_app; [done|done|].
    rewrite length_app. cbn [length]. unfold Flags.PATH_LEN in Hge. lia.
Qed.

Definition loaded (i : Item) (start : nat) : Entry :=
  mkEntry (istat i) (iid i) (persisted (iflags i)) (imode i) (start, (start + length (ipath i))%nat).

Lemma from_bytes_or_panic_id {E} o : wf_id o → @from_bytes_or_panic E (as_slice o) = Ok o.
Proof. intros [H _]. unfold from_bytes_or_panic. rewrite H. by destruct o. Qed.

Lemma load_one_spec i pb prev rest :
  wf_item i →
  load_one (padded_item i ++ rest) pb 20 false prev =
  Ok (loaded i (length pb), rest, pb ++ ipath i).
Proof.
  intros (Hst & Hid & Hf & Hm & Hmode & Hp). pose proof Hid as [Hidl _].
  assert (Hlf : 0 ≤ len_field (ipath i) ≤ Flags.PATH_LEN)
    by (unfold len_field, Flags.PATH_LEN; lia).
  pose proof (stored_u16 (iflags i) _ Hf Hlf) as Hs.
  pose proof (length_item_bytes i Hid) as Hlen.
  unfold padded_item. rewrite Hlen, <- app_assoc.
  set (tl := ipath i ++ [0] ++ padding (fixed_len (iflags i) + length (ipath i) + 1) ++ rest).
  assert (Htot : length (item_bytes i ++ padding (fixed_len (iflags i) + length (ipath i) + 1) ++ rest) =
    (fixed_len (iflags i) + length tl)%nat)
    by (unfold tl; rewrite !length_app, Hlen; simpl; lia).
  set (tot := length _) in Htot.
  unfold load_one. fold tot. clearbody tot.
  destruct Hst as (? & ? & ? & ? & ? & ? & ? & ? & ?).
  unfold item_bytes. rewrite <- !app_assoc. fold tl.
  do 10 (rewrite read_u32_app by done; cbn [opt ok_or]; rewrite bind_Ok).
  rewrite split_at_pos_app by done. cbn [opt ok_or]. rewrite bind_Ok.
  rewrite read_u16_app by done. cbn [opt ok_or]. rewrite bind_Ok.
  rewrite stored_extended by done.
  assert (Hk : fixed_len (iflags i) = if contains (iflags i) Flags.EXTENDED then 64%nat else 62%nat) by done.
  assert (Hrun : ∀ fl, Z.land fl Flags.PATH_LEN = len_field (ipath i) →
    load_path tl pb fl (tot - length tl) false prev = Ok (rest, pb ++ ipath i)).
  { intros fl Hfl. unfold tl at 1. replace (tot - length tl)%nat with (fixed_len (iflags i)) by lia.
    by apply (load_path_spec (iflags i)). }
  assert (Hst : istat i = mkStat (mkTime (secs (mtime (istat i))) (nsecs (mtime (istat i))))
    (mkTime (secs (ctime (istat i))) (nsecs (ctime (istat i)))) (dev (istat i)) (ino (istat i))
    (uid (istat i)) (gid (istat i)) (size (istat i))) by (by destruct (istat i) as [[] []]).
  unfold loaded, persisted. rewrite Hmode, <- Hst.
  destruct (contains (iflags i) Flags.EXTENDED) eqn:Hext.
  - rewrite read_u16_app by apply extended_u16. cbn [opt ok_or]. rewrite bind_Ok.
    rewrite extended_valid by done. cbn [opt ok_or]. rewrite bind_Ok. unfold opt, to_flags, to_memory.
    cbn [ok_or]. rewrite !bind_Ok, Hrun by (by apply extended_path_len).
    rewrite bind_Ok, from_bytes_or_panic_id, bind_Ok by done. by rewrite extended_flags, length_app.
  - unfold to_memory. rewrite bind_Ok, Hrun by (by apply stored_path_len).
    rewrite bind_Ok, from_bytes_or_panic_id, bind_Ok by done. by rewrite stored_flags, length_app.
Qed.

(** *** Sequences of entries *)

(** The entries that are written. *)
Definition kept (es : list Entry) : list Entry :=
  filter (λ e, contains (flags e) Flags.REMOVE = false) es.
Definition items_of (backing : bytes) (es : list Entry) : list Item := item_of backing <$> es.
Definition items_bytes (its : list Item) : bytes := mjoin (padded_item <$> its).
Definition paths (its : list Item) : bytes := mjoin (ipath <$> its).
Fixpoint loaded_all (start : nat) (its : list Item) : list Entry :=
  match its with
  | [] => []
  | i :: its => loaded i start :: loaded_all (start + length (ipath i)) its
  end.
Definition sparse_items (its : list Item) : bool := existsb (λ i, Mode.is_sparse (imode i)) its.

Lemma chunk_loop_items its idx rest es pb prev sp :
  Forall wf_item its →
  chunk_loop (length its) idx (items_bytes its ++ rest) es pb 20 false prev sp =
  Ok (es ++ loaded_all (length pb) its, pb ++ paths its, sp || sparse_items its, rest).
Proof.
  intros His. revert idx es pb prev sp. induction His as [|i its Hi _ IH]; intros idx es pb prev sp.
  { cbn. by rewrite !app_nil_r, orb_false_r. }
  cbn [length chunk_loop].
  change (items_bytes (i :: its)) with (padded_item i ++ items_bytes its).
  rewrite <- app_assoc, load_one_spec by done. cbn [map_err]. rewrite bind_Ok, IH.
  cbn [loaded_all mode loaded sparse_items existsb]. change (paths (i :: its)) with (ipath i ++ paths its).
  rewrite <- !app_assoc, orb_assoc, length_app. done.
Qed.

Lemma items_of_loaded pre its post start :
  start = length pre →
  items_of (pre ++ paths its ++ post) (loaded_all start its) = stored_item <$> its.
Proof.
  revert pre start. induction its as [|i its IH]; intros pre start ->; [done|].
  cbn [loaded_all]. change (paths (i :: its)) with (ipath i ++ paths its). unfold items_of in *.
  rewrite !fmap_cons. f_equal.
  - unfold item_of, loaded, stored_item. cbn [path stat id flags mode fst snd]. f_equal.
    rewrite drop_app_length. rewrite Nat.add_sub_swap, Nat.sub_diag by lia. cbn [Nat.add].
    by rewrite <- app_assoc, take_app_length.
  - rewrite <- (IH (pre ++ ipath i) (length pre + length (ipath i))%nat)
      by (by rewrite length_app).
    by rewrite <- !app_assoc.
Qed.
Lemma length_loaded_all start its : length (loaded_all start its) = length its.
Proof. revert start. induction its as [|i its IH]; intros start; simpl; [done|]. by rewrite IH. Qed.

Lemma pad_count n h (e : nat) :
  h ≤ n → (n - h) mod 8 = 0 →
  (n + Z.of_nat e - h) mod 8 = Z.of_nat (e mod 8).
Proof. intros. zify. Z.to_euclidean_division_equations. lia. Qed.

Lemma write_entries_spec es backing h out :
  Forall (in_backing backing) (kept es) →
  0 ≤ h ≤ count out → (count out - h) mod 8 = 0 →
  count out + Z.of_nat (length (items_bytes (items_of backing (kept es)))) < 2 ^ 32 →
  write_entries es backing h out =
  Ok (mkCount (count out + Z.of_nat (length (items_bytes (items_of backing (kept es)))))
        (inner out ++ items_bytes (items_of backing (kept es)))).
Proof.
  revert out. induction es as [|e es IH]; intros out Hin Hh Hmod Hlt.
  { destruct out. cbn. rewrite app_nil_r. do 2 f_equal. lia. }
  cbn [write_entries]. unfold kept in *. rewrite filter_cons in *.
  destruct (contains (flags e) Flags.REMOVE) eqn:Hrem; cbn [decide] in *.
  { rewrite decide_False in * by done. rewrite bind_Ok. by apply IH. }
  rewrite decide_True in * by done. apply Forall_cons in Hin as [He Hin].
  set (i := item_of backing e) in *. set (its := items_of backing (filter _ es)) in *.
  change (items_of backing (e :: _)) with (i :: its) in *.
  change (items_bytes (i :: its)) with (padded_item i ++ items_bytes its) in *.
  unfold padded_item in *. rewrite !length_app in *.
  rewrite entry_write_to_spec, bind_Ok by (fold i; done || lia). fold i. cbn [count inner].
  set (n := length (item_bytes i)) in *. rewrite pad_count by (done || lia).
  assert (Hpad : padding n = replicate ((8 - n mod 8) mod 8) 0) by done.
  assert (Hm8 : (n mod 8 < 8)%nat) by (apply Nat.mod_upper_bound; lia).
  match goal with |- (?x ≫= _) = _ => assert (Hx : x = Ok (mkCount
    (count out + Z.of_nat (n + length (padding n))) (inner out ++ item_bytes i ++ padding n))) end.
  { destruct (Z.eqb_spec (Z.of_nat (n mod 8)) 0) as [Hz|Hz].
    - rewrite Hpad. replace (n mod 8)%nat with 0%nat by lia. cbn. by rewrite app_nil_r, Nat.add_0_r.
    - rewrite slice_from_le, bind_Ok by (rewrite length_replicate; lia).
      assert (Hmod8 : ((8 - n mod 8) mod 8 = 8 - n mod 8)%nat) by (apply Nat.mod_small; lia).
      rewrite drop_replicate, Nat2Z.id. rewrite Hpad, Hmod8 in Hlt |- *.
      rewrite length_replicate in *.
      rewrite write_all_ok by (cbn [count]; rewrite ?length_replicate; lia). cbn [count inner].
      rewrite length_replicate, <- app_assoc. do 2 f_equal. lia. }
  rewrite Hx, bind_Ok, IH; cbn [count inner]; [|done|lia| |lia].
  - rewrite <- !app_assoc. do 2 f_equal. lia.
  - pose proof (length_padded_item i) as Hp. unfold padded_item in Hp. rewrite length_app in Hp.
    fold n in Hp. rewrite pad_count by (done || lia). by rewrite Hp.
Qed.
