(* ===== verification/IndexExt.v ===== *)
(** * Extensions of the index file

    Models [gix-index/src/extension/]: the iterator over extensions, the tree
    cache, the end-of-index-entry marker, the offset table, the sparse marker,
    resolve-undo, the file system monitor, the untracked cache and the link to
    a shared index.

    Extensions are read from untrusted data.  A function that returns an
    [Option] and may panic has the error type [unit]. *)

From S2P Require Import Prelude External Hash PackEntry Bitmap Btoi IndexEntry.
Import IndexEntry.

Abbreviation Signature := (list Z) (only parsing).
Definition MIN_SIZE : nat := 8.

(** ** The iterator: [iter.rs] *)

Record Iter := mkIter { idata : bytes; consumed : nat }.
Definition new_without_checksum (data : bytes) (object_hash : Kind) : option Iter :=
  if (len_in_bytes object_hash <=? length data)%nat
  then Some (mkIter (take (length data - len_in_bytes object_hash) data) 0) else None.

(** [Iterator::next]. *)
Definition next (it : Iter) : option (Signature * bytes) * Iter :=
  if (length (idata it) <? 8)%nat then (None, it)
  else
    let signature := take 4 (idata it) in
    let size := Z.to_nat (be_val (take 4 (drop 4 (idata it)))) in
    let data := drop 8 (idata it) in
    match get_to data size with
    | Some ext_data => (Some (signature, ext_data), mkIter (drop size data) (consumed it + 8 + size))
    | None => (None, mkIter [] (consumed it + 8))
    end.

(** All items, each with the position behind it, and the iterator at the end.
    An item takes at least eight bytes, so the length of the data bounds their
    number. *)
Fixpoint items (fuel : nat) (it : Iter) : list (Signature * bytes * nat) * Iter :=
  match fuel with
  | O => ([], it)
  | S fuel =>
      match next it with
      | (None, it) => ([], it)
      | (Some (s, d), it) => let '(l, it') := items fuel it in ((s, d, consumed it) :: l, it')
      end
  end.
Definition all_items (it : Iter) : list (Signature * bytes * nat) * Iter :=
  items (S (length (idata it))) it.

(** ** The tree cache: [tree/] *)

Definition TREE_SIGNATURE : Signature := bs "TREE".

Inductive Tree := mkTree (name : bytes) (tid : ObjectId) (num_entries : option Z) (children : list Tree).
Definition tname (t : Tree) : bytes := let 'mkTree n _ _ _ := t in n.

(** [subtrees.sort_by(|a, b| a.name.cmp(&b.name))]. *)
Definition name_le (a b : Tree) : Prop := bytes_cmp (tname a) (tname b) ≠ Gt.
#[global] Instance name_le_dec : RelDecision name_le.
Proof.
  intros a b. unfold name_le, Decision.
  destruct (bytes_cmp (tname a) (tname b)); [left|left|right]; congruence.
Defined.
(** The number of elements that [dedup_by] keeps. *)
Fixpoint dedup_count (l : list Tree) : nat :=
  match l with
  | [] => 0
  | a :: l =>
      match l with
      | [] => 1
      | b :: _ => if bool_decide (tname a = tname b) then dedup_count l else S (dedup_count l)
      end
  end.

(** [for _ in 0..subtree_count], where [one] reads a tree. *)
Definition subtrees_loop (one : bytes → res unit (Tree * bytes))
  : nat → Z → bytes → res unit (list Tree * bytes) :=
  fix loop k n data :=
    if n =? 0 then Ok ([], data)
    else
      match k with
      | O => Err tt
      | S k =>
          '(tree, rest) ← one data;
          '(l, data) ← loop k (n - 1) rest;
          Ok (tree :: l, data)
      end.
(** [one_recursive].  Every tree takes at least three bytes, so the length of
    the data bounds both the depth and the number of children. *)
Fixpoint one_recursive (fuel : nat) (data : bytes) (hash_len : nat) : res unit (Tree * bytes) :=
  match fuel with
  | O => Err tt
  | S fuel =>
      '(path, data) ← opt (split_at_byte_exclusive data 0);
      '(entry_count, data) ← opt (split_at_byte_exclusive data (ch " "));
      num_entries ← map_err (λ _, tt) (@to_signed int_i32 entry_count);
      '(subtree_count, data) ← opt (split_at_byte_exclusive data 10);
      subtree_count ← map_err (λ _, tt) (@to_unsigned int_usize subtree_count);
      '(id, data) ←
        (if 0 <=? num_entries then
           '(hash, data) ← opt (split_at_pos data hash_len);
           id ← from_bytes_or_panic hash; Ok (id, data)
         else
           k ← expect (from_hex_len (hash_len * 2)); Ok (null k, data));
      (* [Vec::with_capacity] of elements of 88 bytes *)
      _ ← assert_ (subtree_count * 88 <? 2 ^ 63);
      '(subtrees, data) ←
        subtrees_loop (λ data, one_recursive fuel data hash_len) fuel subtree_count data;
      let subtrees := merge_sort name_le subtrees in
      if (dedup_count subtrees =? length subtrees)%nat
      then Ok (mkTree path id (if 0 <=? num_entries then Some num_entries else None) subtrees, data)
      else Err tt
  end.
Definition tree_decode (data : bytes) (object_hash : Kind) : res unit Tree :=
  '(tree, data) ← one_recursive (S (length data)) data (len_in_bytes object_hash);
  _ ← assert_ (bool_decide (data = []));
  Ok tree.

Section TreeWrite.
Context `{!itoa.Api}.
(** [tree_entry] of [Tree::write_to]. *)
Fixpoint tree_entry (t : Tree) : bytes :=
  let 'mkTree name id num_entries children := t in
  name ++ [0] ++
  (match num_entries with Some n => itoa.format n | None => itoa.format (-1) end) ++ [ch " "] ++
  itoa.format (Z.of_nat (length children)) ++ [10] ++
  (match num_entries with Some _ => as_slice id | None => [] end) ++
  mjoin (tree_entry <$> children).
(** [Tree::write_to]: what it writes. *)
Definition tree_write_to (t : Tree) : res Empty_set (list bytes) :=
  let entries := tree_entry t in
  if 2 ^ 32 <=? Z.of_nat (length entries) then Panic
  else Ok [TREE_SIGNATURE; be_bytes 4 (Z.of_nat (length entries)); entries].
End TreeWrite.

(** ** The sparse marker: [sparse.rs] *)

Definition SPARSE_SIGNATURE : Signature := bs "sdir".
Definition sparse_write_to : list bytes := [SPARSE_SIGNATURE; be_bytes 4 0].

(** ** The end of the entries: [end_of_index_entry/] *)

Definition EOIE_SIGNATURE : Signature := bs "EOIE".
Definition EOIE_MIN_SIZE : nat := 4 + len_in_bytes shortest.
Definition MIN_SIZE_WITH_HEADER : nat := MIN_SIZE + EOIE_MIN_SIZE.

Definition extension_header (data : bytes) : res Empty_set (Signature * Z * bytes) :=
  '(signature, data) ← split_at data 4;
  '(size, data) ← split_at data 4;
  Ok (signature, be_val size, data).

(** The hash is a parameter: the digest of all bytes it was updated with. *)
Section Eoie.
Context (sha1 : bytes → bytes).

Definition eoie_write_to (hash_kind : Kind) (offset_to_extensions : Z)
    (prior_extensions : list (Signature * Z)) : list bytes :=
  [EOIE_SIGNATURE; be_bytes 4 (4 + Z.of_nat (len_in_bytes hash_kind));
   be_bytes 4 offset_to_extensions;
   sha1 (mjoin ((λ '(signature, size), signature ++ be_bytes 4 size) <$> prior_extensions))].

Definition eoie_decode (data : bytes) (object_hash : Kind) : res Empty_set (option nat) :=
  let hash_len := len_in_bytes object_hash in
  if (length data <? MIN_SIZE_WITH_HEADER + hash_len)%nat then Ok None
  else
    let start_of_eoie := (length data - MIN_SIZE_WITH_HEADER - hash_len)%nat in
    ext_data ← slice data start_of_eoie (length data - hash_len);
    '(signature, ext_size, ext_data) ← extension_header ext_data;
    if negb (bool_decide (signature = EOIE_SIGNATURE)) || negb (ext_size =? Z.of_nat EOIE_MIN_SIZE)
    then Ok None
    else
      '(offset, checksum) ← split_at ext_data 4;
      let offset := Z.to_nat (be_val offset) in
      if (offset <? 12)%nat || (start_of_eoie <? offset)%nat ||
         negb (length checksum =? len_in_bytes KSha1)%nat
      then Ok None
      else
        region ← slice data offset (length data - MIN_SIZE_WITH_HEADER - hash_len);
        let chunks := (all_items (mkIter region 0)).1 in
        let digest := sha1 (mjoin ((λ '(signature, chunk, _),
          signature ++ be_bytes 4 (wrap 32 (Z.of_nat (length chunk)))) <$> chunks)) in
        if negb (bool_decide (digest = checksum)) then Ok None
        else
          match last chunks with
          | Some (_, _, end_) => Ok (if (offset + end_ =? start_of_eoie)%nat then Some offset else None)
          | None => Ok None
          end.
End Eoie.

(** ** The offset table: [index_entry_offset_table.rs] *)

Definition IEOT_SIGNATURE : Signature := bs "IEOT".
Record Offset := mkOffset { from_beginning_of_file : Z; onum_entries : Z }.
Fixpoint ieot_loop (num_offsets : nat) (data : bytes) : option (list Offset) :=
  match num_offsets with
  | O => Some []
  | S n =>
      '(offset, chunk) ← read_u32 data;
      '(num_entries, chunk) ← read_u32 chunk;
      l ← ieot_loop n chunk;
      Some (mkOffset offset num_entries :: l)
  end.
Definition ieot_decode (data : bytes) : option (list Offset) :=
  '(version, data) ← read_u32 data;
  if negb (version =? 1) then None
  else
    let num_offsets := (length data / 8)%nat in
    if (num_offsets =? 0)%nat || negb (length data mod 8 =? 0)%nat then None
    else ieot_loop num_offsets data.
Definition ieot_find (extensions : bytes) (object_hash : Kind) : option (list Offset) :=
  it ← new_without_checksum extensions object_hash;
  '(_, ext_data, _) ← head (filter (λ i : Signature * bytes * nat, i.1.1 = IEOT_SIGNATURE) (all_items it).1);
  ieot_decode ext_data.

(** ** Resolve-undo: [resolve_undo.rs] *)

Definition REUC_SIGNATURE : Signature := bs "REUC".
Record UndoStage := mkUndoStage { umode : Z; uid_ : ObjectId }.
Record ResolvePath := mkResolvePath { rname : bytes; rstages : list (option UndoStage) }.

(** [u32::from_str_radix(_, 8)] on text; bytes that are not UTF-8 are no digits
    either. *)
Fixpoint octal_loop (acc : Z) (s : bytes) : option Z :=
  match s with
  | [] => Some acc
  | c :: s =>
      if between (ch "0") (ch "7") c then
        let acc := acc * 8 + (c - ch "0") in
        if acc <? 2 ^ 32 then octal_loop acc s else None
      else None
  end.
Definition from_str_radix_8 (s : bytes) : option Z :=
  let s := match s with c :: s' => if c =? ch "+" then s' else s | [] => s end in
  if bool_decide (s = []) then None else octal_loop 0 s.

Fixpoint undo_modes (n : nat) (data : bytes) : option (list Z * bytes) :=
  match n with
  | O => Some ([], data)
  | S n =>
      '(mode_ascii, rest) ← split_at_byte_exclusive data 0;
      mode ← from_str_radix_8 mode_ascii;
      '(modes, rest) ← undo_modes n rest;
      Some (mode :: modes, rest)
  end.
Fixpoint undo_stages (modes : list Z) (data : bytes) (hash_len : nat)
  : res unit (list (option UndoStage) * bytes) :=
  match modes with
  | [] => Ok ([], data)
  | mode :: modes =>
      '(stage, data) ←
        (if mode =? 0 then Ok (None, data)
         else
           '(hash, rest) ← opt (split_at_pos data hash_len);
           id ← from_bytes_or_panic hash; Ok (Some (mkUndoStage mode id), rest));
      '(l, data) ← undo_stages modes data hash_len;
      Ok (stage :: l, data)
  end.
(** [while !data.is_empty()]: every round takes bytes. *)
Fixpoint undo_loop (fuel : nat) (data : bytes) (hash_len : nat) : res unit (list ResolvePath) :=
  match fuel with
  | O => Ok []
  | S fuel =>
      if bool_decide (data = []) then Ok []
      else
        '(path, data) ← opt (split_at_byte_exclusive data 0);
        '(modes, data) ← opt (undo_modes 3 data);
        '(stages, data) ← undo_stages modes data hash_len;
        l ← undo_loop fuel data hash_len;
        Ok (mkResolvePath path stages :: l)
  end.
Definition resolve_undo_decode (data : bytes) (object_hash : Kind) : res unit (list ResolvePath) :=
  undo_loop (S (length data)) data (len_in_bytes object_hash).

(** ** The file system monitor: [fs_monitor.rs] *)

Definition FSMN_SIGNATURE : Signature := bs "FSMN".
Inductive Token := TokenV1 (nanos_since_1970 : Z) | TokenV2 (token : bytes).
Record FsMonitor := mkFsMonitor { token : Token; entry_dirty : Bitmap.Vec }.
Definition fs_monitor_decode (data : bytes) : res unit FsMonitor :=
  '(version, data) ← opt (read_u32 data);
  '(token, data) ←
    (if version =? 1 then
       '(nanos, data) ← opt (read_u64 data); Ok (TokenV1 nanos, data)
     else if version =? 2 then
       '(token, data) ← opt (split_at_byte_exclusive data 0); Ok (TokenV2 token, data)
     else Err tt);
  '(ewah_size, data) ← opt (read_u32 data);
  data ← slice_to data (Z.to_nat ewah_size);
  '(entry_dirty, data) ← map_err (λ _, tt) (Bitmap.decode data);
  if bool_decide (data = []) then Ok (mkFsMonitor token entry_dirty) else Err tt.

(** ** The untracked cache: [untracked_cache.rs] *)

Definition UNTR_SIGNATURE : Signature := bs "UNTR".
Record OidStat := mkOidStat { ostat : Stat; oid_ : ObjectId }.
Record Directory := mkDirectory {
  dname : bytes; untracked_entries : list bytes; sub_directories : list nat;
  dstat : option Stat; exclude_file_oid : option ObjectId; check_only : bool }.
Record UntrackedCache := mkUntrackedCache {
  identifier : bytes; info_exclude : option OidStat; excludes_file : option OidStat;
  exclude_filename_per_dir : bytes; dir_flags : Z; directories : list Directory }.

(** [crate::decode::stat]: the first time is stored as [mtime]. *)
Definition decode_stat (data : bytes) : option (Stat * bytes) :=
  '(ctime_secs, data) ← read_u32 data;
  '(ctime_nsecs, data) ← read_u32 data;
  '(mtime_secs, data) ← read_u32 data;
  '(mtime_nsecs, data) ← read_u32 data;
  '(dev, data) ← read_u32 data;
  '(ino, data) ← read_u32 data;
  '(uid, data) ← read_u32 data;
  '(gid, data) ← read_u32 data;
  '(size, data) ← read_u32 data;
  Some (mkStat (mkTime ctime_secs ctime_nsecs) (mkTime mtime_secs mtime_nsecs) dev ino uid gid size,
        data).
Definition decode_oid_stat (data : bytes) (hash_len : nat) : res unit (OidStat * bytes) :=
  '(stat, data) ← opt (decode_stat data);
  '(hash, data) ← opt (split_at_pos data hash_len);
  id ← from_bytes_or_panic hash;
  Ok (mkOidStat stat id, data).

(** [for _ in 0..num_untracked]. *)
Fixpoint untracked_names (fuel : nat) (n : Z) (data : bytes) : res unit (list bytes * bytes) :=
  if n =? 0 then Ok ([], data)
  else
    match fuel with
    | O => Err tt
    | S fuel =>
        '(name, rest) ← opt (split_at_byte_exclusive data 0);
        '(l, data) ← untracked_names fuel (n - 1) rest;
        Ok (name :: l, data)
    end.
(** [directories[index].sub_directories.push(subdir_index)]. *)
Definition push_sub (dirs : list Directory) (index sub : nat) : res unit (list Directory) :=
  d ← expect (dirs !! index);
  Ok (<[index := mkDirectory (dname d) (untracked_entries d) (sub_directories d ++ [sub])
                   (dstat d) (exclude_file_oid d) (check_only d)]> dirs).
(** [for _ in 0..num_dirs], where [block] reads a directory. *)
Definition dirs_loop (block : bytes → list Directory → res unit (bytes * list Directory)) (index : nat)
  : nat → Z → bytes → list Directory → res unit (bytes * list Directory) :=
  fix loop k n data dirs :=
    if n =? 0 then Ok (data, dirs)
    else
      match k with
      | O => Err tt
      | S k =>
          let subdir_index := length dirs in
          '(rest, dirs) ← block data dirs;
          dirs ← push_sub dirs index subdir_index;
          loop k (n - 1) rest dirs
      end.
(** [decode_directory_block]: every block and every name takes bytes. *)
Fixpoint decode_directory_block (fuel : nat) (data : bytes) (dirs : list Directory)
  : res unit (bytes * list Directory) :=
  match fuel with
  | O => Err tt
  | S fuel =>
      '(num_untracked, data) ← var_int data;
      '(num_dirs, data) ← var_int data;
      '(name, data) ← opt (split_at_byte_exclusive data 0);
      (* [Vec::with_capacity] of elements of 24 and of 8 bytes *)
      _ ← assert_ (num_untracked * 24 <? 2 ^ 63);
      '(untracked_entries, data) ← untracked_names (S (length data)) num_untracked data;
      let index := length dirs in
      _ ← assert_ (num_dirs * 8 <? 2 ^ 63);
      let dirs := dirs ++ [mkDirectory name untracked_entries [] None None false] in
      dirs_loop (decode_directory_block fuel) index fuel num_dirs data dirs
  end.

(** The closures that are called for the bits of the three bitmaps; the state
    is the directories and the data. *)
Definition set_check_only (s : list Directory * bytes) (index : Z)
  : res Empty_set (list Directory * bytes * bool) :=
  let '(dirs, data) := s in
  d ← expect (dirs !! Z.to_nat index);
  Ok (<[Z.to_nat index := mkDirectory (dname d) (untracked_entries d) (sub_directories d)
                            (dstat d) (exclude_file_oid d) true]> dirs, data, true).
Definition set_stat (s : list Directory * bytes) (index : Z)
  : res Empty_set (list Directory * bytes * bool) :=
  let '(dirs, data) := s in
  match decode_stat data with
  | None => Ok (dirs, data, false)
  | Some (stat, rest) =>
      d ← expect (dirs !! Z.to_nat index);
      Ok (<[Z.to_nat index := mkDirectory (dname d) (untracked_entries d) (sub_directories d)
                                (Some stat) (exclude_file_oid d) (check_only d)]> dirs, rest, true)
  end.
Definition set_oid (hash_len : nat) (s : list Directory * bytes) (index : Z)
  : res Empty_set (list Directory * bytes * bool) :=
  let '(dirs, data) := s in
  match split_at_pos data hash_len with
  | None => Ok (dirs, data, false)
  | Some (hash, rest) =>
      d ← expect (dirs !! Z.to_nat index);
      id ← from_bytes_or_panic hash;
      Ok (<[Z.to_nat index := mkDirectory (dname d) (untracked_entries d) (sub_directories d)
                                (dstat d) (Some id) (check_only d)]> dirs, rest, true)
  end.

Definition non_null (o : OidStat) : option OidStat :=
  if Hash.is_null (oid_ o) then None else Some o.

Definition untracked_decode (data : bytes) (object_hash : Kind) : res unit UntrackedCache :=
  if negb (bool_decide (last data = Some 0)) then Err tt
  else
    '(identifier_len, data) ← var_int data;
    '(identifier, data) ← opt (split_at_pos data (Z.to_nat identifier_len));
    let hash_len := len_in_bytes object_hash in
    '(info_exclude, data) ← decode_oid_stat data hash_len;
    '(excludes_file, data) ← decode_oid_stat data hash_len;
    '(dir_flags, data) ← opt (read_u32 data);
    '(exclude_filename_per_dir, data) ← opt (split_at_byte_exclusive data 0);
    '(num_directory_blocks, data) ← var_int data;
    let res dirs := mkUntrackedCache identifier (non_null info_exclude) (non_null excludes_file)
                      exclude_filename_per_dir dir_flags dirs in
    if num_directory_blocks =? 0 then
      if bool_decide (data = []) then Ok (res []) else Err tt
    else
      (* [Vec::reserve] of elements of 136 bytes *)
      _ ← assert_ (num_directory_blocks * 136 <? 2 ^ 63);
      '(data, dirs) ← decode_directory_block (S (length data)) data [];
      if negb (Z.of_nat (length dirs) =? num_directory_blocks) then Err tt
      else
        '(valid, data) ← map_err (λ _, tt) (Bitmap.decode data);
        '(check_only, data) ← map_err (λ _, tt) (Bitmap.decode data);
        '(hash_valid, data) ← map_err (λ _, tt) (Bitmap.decode data);
        if (num_directory_blocks <? Bitmap.num_bits valid) ||
           (num_directory_blocks <? Bitmap.num_bits check_only) ||
           (num_directory_blocks <? Bitmap.num_bits hash_valid)
        then Err tt
        else
          '(s, c) ← lift (Bitmap.for_each_set_bit set_check_only check_only (dirs, data));
          if negb c then Err tt
          else
            '(s, _) ← lift (Bitmap.for_each_set_bit set_stat valid s);
            '(s, _) ← lift (Bitmap.for_each_set_bit (set_oid hash_len) hash_valid s);
            if negb (length s.2 =? 1)%nat then Err tt else Ok (res s.1).

(** ** The link to a shared index: [link.rs] *)

Definition LINK_SIGNATURE : Signature := bs "link".
Inductive LinkError :=
| LinkCorrupt (message : bytes)
| BitmapDecode (kind : bytes) (err : Bitmap.Error).
Record Bitmaps := mkBitmaps { delete : Bitmap.Vec; replace_ : Bitmap.Vec }.
Record Link := mkLink { shared_index_checksum : ObjectId; bitmaps : option Bitmaps }.
Definition link_decode (data : bytes) (object_hash : Kind) : res LinkError Link :=
  '(id, data) ← ok_or (split_at_pos data (len_in_bytes object_hash))
                  (LinkCorrupt (bs "link extension too short to read share index checksum"));
  id ← from_bytes_or_panic id;
  if bool_decide (data = []) then Ok (mkLink id None)
  else
    '(delete, data) ← map_err (BitmapDecode (bs "delete")) (Bitmap.decode data);
    '(replace, data) ← map_err (BitmapDecode (bs "replace")) (Bitmap.decode data);
    if bool_decide (data = []) then Ok (mkLink id (Some (mkBitmaps delete replace)))
    else Err (LinkCorrupt (bs "garbage trailing link extension")).

(** ** All extensions: [decode.rs] *)

Inductive ExtError := MandatoryUnimplemented (signature : Signature) | LinkErr (e : LinkError).
Record Outcome := mkOutcome {
  otree : option Tree; olink : option Link; oresolve_undo : option (list ResolvePath);
  ountracked : option UntrackedCache; ofs_monitor : option FsMonitor;
  ois_sparse : bool; ooffset_table : bool; oend_of_index : bool }.
Definition default_outcome : Outcome := mkOutcome None None None None None false false false.

(** The value of a decoder that returns an option. *)
Definition as_option {A} (m : res unit A) : res ExtError (option A) :=
  match m with Ok a => Ok (Some a) | Err _ => Ok None | Panic => Panic end.

Definition set_tree (t : option Tree) (o : Outcome) : Outcome :=
  mkOutcome t (olink o) (oresolve_undo o) (ountracked o) (ofs_monitor o) (ois_sparse o)
    (ooffset_table o) (oend_of_index o).
Definition set_link (l : option Link) (o : Outcome) : Outcome :=
  mkOutcome (otree o) l (oresolve_undo o) (ountracked o) (ofs_monitor o) (ois_sparse o)
    (ooffset_table o) (oend_of_index o).
Definition set_resolve_undo (r : option (list ResolvePath)) (o : Outcome) : Outcome :=
  mkOutcome (otree o) (olink o) r (ountracked o) (ofs_monitor o) (ois_sparse o)
    (ooffset_table o) (oend_of_index o).
Definition set_untracked (u : option UntrackedCache) (o : Outcome) : Outcome :=
  mkOutcome (otree o) (olink o) (oresolve_undo o) u (ofs_monitor o) (ois_sparse o)
    (ooffset_table o) (oend_of_index o).
Definition set_fs_monitor (f : option FsMonitor) (o : Outcome) : Outcome :=
  mkOutcome (otree o) (olink o) (oresolve_undo o) (ountracked o) f (ois_sparse o)
    (ooffset_table o) (oend_of_index o).
Definition set_sparse (o : Outcome) : Outcome :=
  mkOutcome (otree o) (olink o) (oresolve_undo o) (ountracked o) (ofs_monitor o) true
    (ooffset_table o) (oend_of_index o).
Definition set_offset_table (o : Outcome) : Outcome :=
  mkOutcome (otree o) (olink o) (oresolve_undo o) (ountracked o) (ofs_monitor o) (ois_sparse o)
    true (oend_of_index o).
Definition set_end_of_index (o : Outcome) : Outcome :=
  mkOutcome (otree o) (olink o) (oresolve_undo o) (ountracked o) (ofs_monitor o) (ois_sparse o)
    (ooffset_table o) true.

(** The body of the loop. *)
Definition one_extension (signature : Signature) (ext_data : bytes) (object_hash : Kind) (ext : Outcome)
  : res ExtError Outcome :=
  if bool_decide (signature = TREE_SIGNATURE) then
    t ← as_option (tree_decode ext_data object_hash); Ok (set_tree t ext)
  else if bool_decide (signature = REUC_SIGNATURE) then
    r ← as_option (resolve_undo_decode ext_data object_hash); Ok (set_resolve_undo r ext)
  else if bool_decide (signature = UNTR_SIGNATURE) then
    u ← as_option (untracked_decode ext_data object_hash); Ok (set_untracked u ext)
  else if bool_decide (signature = FSMN_SIGNATURE) then
    f ← as_option (fs_monitor_decode ext_data); Ok (set_fs_monitor f ext)
  else if bool_decide (signature = EOIE_SIGNATURE) then Ok (set_end_of_index ext)
  else if bool_decide (signature = IEOT_SIGNATURE) then Ok (set_offset_table ext)
  else
    b ← idx signature 0;
    if is_ascii_lowercase b then
      if bool_decide (signature = LINK_SIGNATURE) then
        l ← map_err LinkErr (link_decode ext_data object_hash); Ok (set_link (Some l) ext)
      else if bool_decide (signature = SPARSE_SIGNATURE) then
        if bool_decide (ext_data = []) then Ok (set_sparse ext)
        else Err (MandatoryUnimplemented signature)
      else Err (MandatoryUnimplemented signature)
    else Ok ext.
Fixpoint all_loop (l : list (Signature * bytes * nat)) (object_hash : Kind) (ext : Outcome)
  : res ExtError Outcome :=
  match l with
  | [] => Ok ext
  | (signature, ext_data, _) :: l =>
      ext ← one_extension signature ext_data object_hash ext;
      all_loop l object_hash ext
  end.
(** [extension::decode::all]. *)
Definition all (data : bytes) (object_hash : Kind) : res ExtError (Outcome * bytes) :=
  match new_without_checksum data object_hash with
  | None => Ok (default_outcome, data)
  | Some it =>
      let '(l, it) := all_items it in
      ext ← all_loop l object_hash default_outcome;
      rest ← slice_from data (consumed it);
      Ok (ext, rest)
  end.

(** ** Specification of the tree cache *)

(** Trees that the file format can express: names without zero bytes, counts
    that fit an [i32], no id for an invalidated tree, children sorted by
    name. *)
Inductive wf_tree : Tree → Prop :=
| wf_mkTree name id num_entries children :
    0 ∉ name → wf_id id →
    (match num_entries with Some n => 0 ≤ n < 2 ^ 31 | None => id = null KSha1 end) →
    StronglySorted bytes_lt (tname <$> children) →
    Z.of_nat (length children) * 88 < 2 ^ 63 →
    Forall wf_tree children →
    wf_tree (mkTree name id num_entries children).

(** Induction over a tree and its children. *)
Lemma Tree_ind' (P : Tree → Prop) :
  (∀ name id n children, Forall P children → P (mkTree name id n children)) → ∀ t, P t.
Proof.
  intros H. fix IH 1. intros [name id n children]. apply H.
  induction children as [|t l IHl]; constructor; [apply IH|exact IHl].
Qed.

(** ** Lemmas *)

Lemma name_le_trans : Transitive name_le.
Proof.
  intros a b c. unfold name_le. intros Hab Hbc Hac. apply bytes_cmp_gt in Hac.
  destruct (bytes_cmp (tname a) (tname b)) eqn:E1; [|..|done].
  - apply bytes_cmp_eq in E1. rewrite E1 in Hac. by apply Hbc, bytes_cmp_gt.
  - apply Hbc, bytes_cmp_gt. by etrans.
Qed.
Lemma sorted_names l :
  StronglySorted bytes_lt (tname <$> l) → StronglySorted name_le l.
Proof.
  induction l as [|t l IH]; intros Hs; [constructor|]. rewrite fmap_cons in Hs.
  apply StronglySorted_inv in Hs as [Hs Ht]. constructor; [by apply IH|].
  rewrite Forall_fmap in Ht. eapply Forall_impl; [exact Ht|]. unfold name_le, bytes_lt. simpl.
  intros x ->. done.
Qed.
Lemma dedup_count_sorted l :
  StronglySorted bytes_lt (tname <$> l) → dedup_count l = length l.
Proof.
  induction l as [|t l IH]; intros Hs; [done|]. rewrite fmap_cons in Hs.
  apply StronglySorted_inv in Hs as [Hs Ht]. cbn [dedup_count length].
  destruct l as [|u l]; [done|]. rewrite IH by done.
  rewrite bool_decide_false; [done|]. intros Heq. rewrite fmap_cons in Ht.
  apply Forall_cons in Ht as [Hlt _]. rewrite Heq in Hlt. by apply (irreflexivity bytes_lt) in Hlt.
Qed.
Lemma names_inj l x y :
  StronglySorted bytes_lt (tname <$> l) → x ∈ l → y ∈ l → tname x = tname y → x = y.
Proof.
  induction l as [|t l IH]; intros Hs Hx Hy Heq; [by apply not_elem_of_nil in Hx|].
  rewrite fmap_cons in Hs. apply StronglySorted_inv in Hs as [Hs Ht].
  rewrite Forall_fmap, Forall_forall in Ht. unfold compose in Ht.
  assert (Hlt : ∀ z, z ∈ l → tname t ≠ tname z).
  { intros z Hz Ht'. specialize (Ht z Hz). rewrite Ht' in Ht. by apply (irreflexivity bytes_lt) in Ht. }
  apply elem_of_cons in Hx as [->|Hx], Hy as [->|Hy]; [done|..|by apply IH].
  - by destruct (Hlt y Hy).
  - by destruct (Hlt x Hx).
Qed.
(** A sorted list of distinct names is not changed by sorting. *)
Lemma merge_sort_names l :
  StronglySorted bytes_lt (tname <$> l) → merge_sort name_le l = l.
Proof.
  intros Hs. apply (StronglySorted_unique_strong name_le).
  - intros x y Hx Hy H1 H2. rewrite merge_sort_Permutation in Hx.
    apply (names_inj l); [done..|]. apply bytes_cmp_eq. unfold name_le in *.
    rewrite (bytes_cmp_antisym (tname x) (tname y)) in H2.
    destruct (bytes_cmp _ _); simpl in *; congruence.
  - apply StronglySorted_merge_sort; [apply name_le_trans|].
    intros x y. unfold name_le. rewrite (bytes_cmp_antisym (tname x) (tname y)).
    destruct (bytes_cmp _ _); simpl; auto.
  - by apply sorted_names.
  - apply merge_sort_Permutation.
Qed.

Lemma dec_no c s : Forall is_dec s → ¬ is_dec c → c ∉ s.
Proof. rewrite Forall_forall. intros Hs Hc Hin. by apply Hc, Hs. Qed.

Section TreeRoundTrip.
Context `{!itoa.Api, !itoa.Laws}.

(** The numerals of a tree, and what the parsers make of them. *)
Lemma count_field n :
  match n with Some n => 0 ≤ n < 2 ^ 31 | None => True end →
  let s := match n with Some n => itoa.format n | None => itoa.format (-1) end in
  s ≠ [] ∧ (ch " ") ∉ s ∧ @to_signed int_i32 s = Ok (default (-1) n).
Proof.
  intros Hn. destruct n as [n|]; cbv zeta.
  - rewrite itoa.format_spec by lia. destruct (decimal_digits n) as (Hne & Hds & _); [lia|].
    split_and!; [done|by apply dec_no; [|unfold is_dec; lia]|].
    change (default (-1) (Some n)) with n.
    apply to_signed_decimal; [split; simpl; lia|cbn; lia|lia].
  - rewrite itoa.format_spec by lia. split_and!; [done| |reflexivity].
    change (itoa.decimal (-1)) with [45; 49]. by apply (bool_decide_unpack _); vm_compute.
Qed.
Lemma children_field (n : nat) :
  Z.of_nat n * 88 < 2 ^ 63 →
  itoa.format (Z.of_nat n) ≠ [] ∧ 10 ∉ itoa.format (Z.of_nat n) ∧
  @to_unsigned int_usize (itoa.format (Z.of_nat n)) = Ok (Z.of_nat n).
Proof.
  intros Hn. rewrite itoa.format_spec by lia.
  destruct (decimal_digits (Z.of_nat n)) as (Hne & Hds & _); [lia|].
  split_and!; [done|by apply dec_no; [|unfold is_dec; lia]|].
  apply to_unsigned_decimal; [split; simpl; lia|simpl; lia|lia].
Qed.

Lemma subtrees_loop_spec one l rest k :
  Forall (λ t, ∀ rest, one (tree_entry t ++ rest) = Ok (t, rest)) l → (length l ≤ k)%nat →
  subtrees_loop one k (Z.of_nat (length l)) (mjoin (tree_entry <$> l) ++ rest) = Ok (l, rest).
Proof.
  intros Hl. revert k. induction Hl as [|t l Ht _ IH]; intros k Hk; [by destruct k|].
  destruct k as [|k]; [simpl in Hk; lia|]. cbn [length] in *. cbn [subtrees_loop].
  rewrite (proj2 (Z.eqb_neq _ _)) by lia.
  change (mjoin (tree_entry <$> t :: l)) with (tree_entry t ++ mjoin (tree_entry <$> l)).
  rewrite <- app_assoc, Ht, bind_Ok.
  replace (Z.of_nat (S (length l)) - 1) with (Z.of_nat (length l)) by lia.
  change (subtrees_loop one) with (subtrees_loop one). rewrite IH by lia. done.
Qed.

Lemma tree_entry_length t : (3 ≤ length (tree_entry t))%nat.
Proof.
  destruct t as [name id n children]. cbn [tree_entry]. rewrite !length_app. simpl. lia.
Qed.
Lemma children_length l :
  (length l ≤ length (mjoin (tree_entry <$> l)))%nat ∧
  Forall (λ t, (length (tree_entry t) ≤ length (mjoin (tree_entry <$> l)))%nat) l.
Proof.
  induction l as [|t l [IH1 IH2]]; [split; [done|constructor]|].
  change (mjoin (tree_entry <$> t :: l)) with (tree_entry t ++ mjoin (tree_entry <$> l)).
  rewrite length_app. pose proof (tree_entry_length t). cbn [length]. split; [lia|].
  constructor; [lia|]. eapply Forall_impl; [exact IH2|]. simpl. lia.
Qed.

(** Reading a tree back, whatever follows. *)
Lemma one_recursive_spec t :
  wf_tree t → ∀ fuel rest, (length (tree_entry t) ≤ fuel)%nat →
  one_recursive fuel (tree_entry t ++ rest) 20 = Ok (t, rest).
Proof.
  induction t as [name id n children IH] using Tree_ind'.
  intros Hwf. inversion Hwf as [? ? ? ? Hname Hid Hn Hsorted Hlen Hall]; subst.
  intros fuel rest Hfuel. destruct fuel as [|fuel]; [pose proof (tree_entry_length (mkTree name id n children)); lia|].
  cbn [tree_entry] in *. rewrite !length_app in Hfuel. cbn [length] in Hfuel.
  destruct (count_field n) as (Hcne & Hcsp & Hcount); [by destruct n|].
  destruct (children_field (length children) Hlen) as (Hkne & Hknl & Hkids).
  set (cnt := match n with Some n => itoa.format n | None => itoa.format (-1) end) in *.
  set (kids := itoa.format (Z.of_nat (length children))) in *.
  set (ids := match n with Some _ => as_slice id | None => [] end) in *.
  set (sub := mjoin (tree_entry <$> children)) in *.
  rewrite <- !app_assoc. cbn [app one_recursive].
  assert (1 ≤ length cnt)%nat by (destruct cnt; [done|simpl; lia]).
  assert (1 ≤ length kids)%nat by (destruct kids; [done|simpl; lia]).
  rewrite split_at_byte_app; [|done|rewrite !length_app; simpl; rewrite !length_app; simpl; lia].
  cbn [opt ok_or]. rewrite bind_Ok.
  rewrite split_at_byte_app; [|done|rewrite !length_app; simpl; rewrite !length_app; simpl; lia].
  cbn [opt ok_or]. rewrite bind_Ok, Hcount. cbn [map_err]. rewrite bind_Ok.
  rewrite split_at_byte_app; [|done|rewrite !length_app; simpl; lia].
  cbn [opt ok_or]. rewrite bind_Ok, Hkids. cbn [map_err]. rewrite bind_Ok.
  match goal with |- (?x ≫= _) = _ => assert (Hx : x = Ok (id, sub ++ rest)) end.
  { unfold ids. destruct n as [n|].
    - change (default (-1) (Some n)) with n. rewrite (proj2 (Z.leb_le _ _)) by lia. rewrite split_at_pos_app by (by destruct Hid).
      cbn [opt ok_or]. by rewrite bind_Ok, from_bytes_or_panic_id, bind_Ok by done.
    - subst id. done. }
  rewrite Hx, bind_Ok. rewrite (proj2 (Z.ltb_lt _ _)) by done. cbn [assert_]. rewrite bind_Ok.
  destruct (children_length children) as [Hc1 Hc2]. fold sub in Hc1, Hc2.
  rewrite subtrees_loop_spec, bind_Ok; [|..|lia].
  - rewrite merge_sort_names, dedup_count_sorted, Nat.eqb_refl by done.
    do 3 f_equal. destruct n as [n|]; [|done]. change (default (-1) (Some n)) with n.
    by rewrite (proj2 (Z.leb_le _ _)) by lia.
  - rewrite Forall_forall in IH, Hall, Hc2 |- *. intros t Ht rest'.
    apply IH; [done|by apply Hall|]. specialize (Hc2 t Ht). lia.
Qed.

Lemma tree_decode_spec t : wf_tree t → tree_decode (tree_entry t) KSha1 = Ok t.
Proof.
  intros Hwf. unfold tree_decode. rewrite <- (app_nil_r (tree_entry t)) at 2.
  rewrite one_recursive_spec by (done || lia). rewrite bind_Ok, bool_decide_true by done. done.
Qed.
End TreeRoundTrip.

(** *** Sequences of extensions *)

Definition ext_bytes (e : Signature * bytes) : bytes :=
  e.1 ++ be_bytes 4 (Z.of_nat (length e.2)) ++ e.2.
Definition wf_ext (e : Signature * bytes) : Prop :=
  length e.1 = 4%nat ∧ Z.of_nat (length e.2) < 2 ^ 32.
Definition exts_bytes (l : list (Signature * bytes)) : bytes := mjoin (ext_bytes <$> l).
(** The items of the iterator, from position [c] on. *)
Fixpoint with_ends (c : nat) (l : list (Signature * bytes)) : list (Signature * bytes * nat) :=
  match l with
  | [] => []
  | (s, d) :: l => (s, d, (c + 8 + length d)%nat) :: with_ends (c + 8 + length d) l
  end.

Lemma length_ext_bytes e : wf_ext e → length (ext_bytes e) = (8 + length e.2)%nat.
Proof. intros [H _]. unfold ext_bytes. rewrite !length_app, length_be_bytes, H. lia. Qed.

Lemma exts_bytes_app l1 l2 : exts_bytes (l1 ++ l2) = exts_bytes l1 ++ exts_bytes l2.
Proof. unfold exts_bytes. rewrite fmap_app. apply join_app. Qed.
Lemma exts_bytes_one e : exts_bytes [e] = ext_bytes e.
Proof. apply app_nil_r. Qed.

Lemma next_ext e rest c :
  wf_ext e → next (mkIter (ext_bytes e ++ rest) c) = (Some e, mkIter rest (c + 8 + length e.2)).
Proof.
  intros He. pose proof (length_ext_bytes e He) as Hlen. destruct He as [H4 H32].
  unfold next. cbn [idata consumed]. rewrite length_app, (proj2 (Nat.ltb_ge _ _)) by lia.
  destruct e as [s d]. unfold ext_bytes in *. cbn [fst snd] in *.
  rewrite <- !app_assoc, take_app_length' by done. rewrite (drop_app_length' s _ 4) by done.
  rewrite take_app_length' by (by rewrite length_be_bytes).
  rewrite be_val_be_bytes by (change (256 ^ Z.of_nat 4) with (2 ^ 32); lia). rewrite Nat2Z.id.
  rewrite app_assoc, drop_app_length' by (rewrite length_app, length_be_bytes; lia).
  unfold get_to. rewrite length_app, (proj2 (Nat.leb_le _ _)) by lia.
  by rewrite take_app_length, drop_app_length.
Qed.
Lemma next_short r c : (length r < 8)%nat → next (mkIter r c) = (None, mkIter r c).
Proof. intros. unfold next. cbn [idata]. by rewrite (proj2 (Nat.ltb_lt _ _)). Qed.

Lemma items_exts l r fuel c :
  Forall wf_ext l → (length r < 8)%nat → (length l < fuel)%nat →
  items fuel (mkIter (exts_bytes l ++ r) c) = (with_ends c l, mkIter r (c + length (exts_bytes l))).
Proof.
  intros Hl Hr. revert fuel c. induction Hl as [|e l He _ IH]; intros fuel c Hf;
    (destruct fuel as [|fuel]; [lia|]); cbn [items length] in *.
  - rewrite next_short by done. cbn. do 2 f_equal. lia.
  - change (exts_bytes (e :: l)) with (ext_bytes e ++ exts_bytes l).
    rewrite <- app_assoc, next_ext by done. destruct e as [s d] eqn:Ee. cbn [snd].
    rewrite IH by lia. cbn [consumed with_ends]. rewrite length_app, length_ext_bytes by done.
    cbn [snd]. do 2 f_equal. lia.
Qed.
Lemma length_exts_bytes l : Forall wf_ext l → (8 * length l ≤ length (exts_bytes l))%nat.
Proof.
  induction 1 as [|e l He _ IH]; [done|].
  change (exts_bytes (e :: l)) with (ext_bytes e ++ exts_bytes l).
  rewrite length_app, length_ext_bytes by done. cbn [length]. lia.
Qed.
Lemma all_items_exts l r c :
  Forall wf_ext l → (length r < 8)%nat →
  all_items (mkIter (exts_bytes l ++ r) c) = (with_ends c l, mkIter r (c + length (exts_bytes l))).
Proof.
  intros Hl Hr. apply items_exts; [done|done|]. cbn [idata]. rewrite length_app.
  pose proof (length_exts_bytes l Hl). lia.
Qed.

(** The iteration is complete: at its end there is no further item. *)
Lemma items_done fuel it :
  (length (idata it) < fuel)%nat → (next (items fuel it).2).1 = None.
Proof.
  revert it. induction fuel as [|fuel IH]; intros it Hlen; [lia|]. cbn [items].
  destruct (next it) as [[[s d]|] it'] eqn:Hn; unfold next in Hn.
  - destruct (Nat.ltb_spec (length (idata it)) 8); [done|]. unfold get_to in Hn.
    destruct (_ <=? _)%nat; [|done]. injection Hn as <- <- <-.
    specialize (IH (mkIter (drop (Z.to_nat (be_val (take 4 (drop 4 (idata it))))) (drop 8 (idata it)))
      (consumed it + 8 + Z.to_nat (be_val (take 4 (drop 4 (idata it))))))).
    destruct (items fuel _) as [l it2]. cbn [snd] in *. apply IH. cbn [idata].
    rewrite !length_drop. lia.
  - cbn [snd]. destruct (Nat.ltb_spec (length (idata it)) 8) as [Hs|Hs].
    + injection Hn as <-. unfold next. by rewrite (proj2 (Nat.ltb_lt _ _)).
    + destruct (get_to _ _); [done|]. injection Hn as <-. done.
Qed.

Lemma last_with_ends l c :
  Forall wf_ext l → l ≠ [] → ∃ s d, last (with_ends c l) = Some (s, d, (c + length (exts_bytes l))%nat).
Proof.
  intros Hl. revert c. induction Hl as [|[s d] l He _ IH]; intros c Hne; [done|].
  change (exts_bytes ((s, d) :: l)) with (ext_bytes (s, d) ++ exts_bytes l).
  rewrite length_app, length_ext_bytes by done. cbn [with_ends snd].
  destruct (decide (l = [])) as [->|Hl].
  - exists s, d. cbn. do 2 f_equal. lia.
  - destruct (IH (c + 8 + length d)%nat Hl) as (s' & d' & IHl). exists s', d'.
    destruct (with_ends _ l) as [|x l'] eqn:Hw; [by destruct l as [|[]]|].
    rewrite last_cons_cons, IHl. do 2 f_equal. lia.
Qed.

(** Looking for the marker does not panic. *)
Lemma eoie_decode_total sha1 data : ∃ r, eoie_decode sha1 data KSha1 = Ok r.
Proof.
  unfold eoie_decode. change MIN_SIZE_WITH_HEADER with 32%nat. change (len_in_bytes KSha1) with 20%nat.
  destruct (Nat.ltb_spec (length data) (32 + 20)) as [|Hlen]; [eauto|].
  set (start := (length data - 32 - 20)%nat).
  assert (Hs : slice data start (length data - 20) = @Ok Empty_set _ (take 32 (drop start data))).
  { apply slice_ok_iff. split_and!; [lia|lia|]. f_equal. lia. }
  rewrite Hs, bind_Ok. set (ext := take 32 _).
  assert (He : length ext = 32%nat) by (unfold ext; rewrite length_take, length_drop; lia).
  unfold extension_header. rewrite split_at_le, bind_Ok by lia.
  rewrite split_at_le, !bind_Ok by (rewrite length_drop; lia).
  destruct (_ || _); [eauto|]. rewrite split_at_le, bind_Ok by (rewrite !length_drop; lia).
  destruct (Nat.ltb_spec (Z.to_nat (be_val (take 4 (drop 4 (drop 4 ext))))) 12); [eauto|].
  destruct (Nat.ltb_spec start (Z.to_nat (be_val (take 4 (drop 4 (drop 4 ext)))))); [eauto|].
  cbn [orb]. destruct (negb _); [eauto|].
  assert (Hr : ∃ r, slice data (Z.to_nat (be_val (take 4 (drop 4 (drop 4 ext))))) start = @Ok Empty_set _ r).
  { eexists. apply slice_ok_iff. split_and!; [lia|lia|done]. }
  destruct Hr as [r ->]. rewrite bind_Ok. destruct (negb _); [eauto|].
  destruct (last _) as [[[]]|]; eauto.
Qed.

Section EoieRoundTrip.
Context (sha1 : bytes → bytes) (Hsha1 : ∀ d, length (sha1 d) = 20%nat).

Definition toc (l : list (Signature * bytes)) : list (Signature * Z) :=
  (λ e, (e.1, Z.of_nat (length e.2))) <$> l.
Definition eoie_bytes (offset : Z) (l : list (Signature * bytes)) : bytes :=
  mjoin (eoie_write_to sha1 KSha1 offset (toc l)).

Lemma length_eoie_bytes offset l : length (eoie_bytes offset l) = 32%nat.
Proof.
  unfold eoie_bytes, eoie_write_to. cbn [mjoin list_join]. rewrite !length_app, !length_be_bytes, Hsha1.
  reflexivity.
Qed.

(** The digest of the decoder is that of the writer. *)
Lemma toc_digest l c :
  Forall wf_ext l →
  (λ '(signature, chunk, _), signature ++ be_bytes 4 (wrap 32 (Z.of_nat (length chunk)))) <$> with_ends c l =
  (λ '(signature, size), signature ++ be_bytes 4 size) <$> toc l.
Proof.
  intros Hl. revert c. induction Hl as [|[s d] l [_ He] _ IH]; intros c; [done|].
  cbn [with_ends toc]. rewrite !fmap_cons. cbn [fst snd]. unfold toc in IH. rewrite IH.
  by rewrite wrap_small by (cbn [snd] in He; lia).
Qed.

Lemma eoie_decode_spec pre l trailer :
  Forall wf_ext l → l ≠ [] → (12 ≤ length pre)%nat → Z.of_nat (length pre) < 2 ^ 32 →
  length trailer = 20%nat →
  eoie_decode sha1 (pre ++ exts_bytes l ++ eoie_bytes (Z.of_nat (length pre)) l ++ trailer) KSha1 =
  Ok (Some (length pre)).
Proof.
  intros Hl Hne Hpre H32 Htr. set (E := eoie_bytes _ _).
  assert (HE : length E = 32%nat) by apply length_eoie_bytes.
  set (data := pre ++ _).
  assert (Hlen : length data = (length pre + length (exts_bytes l) + 52)%nat)
    by (unfold data; rewrite !length_app, HE, Htr; lia).
  unfold eoie_decode. change (MIN_SIZE_WITH_HEADER) with 32%nat. change (len_in_bytes KSha1) with 20%nat.
  rewrite (proj2 (Nat.ltb_ge _ _)) by lia.
  set (start := (length data - 32 - 20)%nat).
  assert (Hs : slice data start (length data - 20) = @Ok Empty_set _ E).
  { unfold data at 1. rewrite app_assoc. apply slice_app; rewrite length_app; unfold start; lia. }
  rewrite Hs, bind_Ok. unfold extension_header, E, eoie_bytes, eoie_write_to. cbn [mjoin list_join].
  rewrite app_nil_r, split_at_app, bind_Ok by done.
  rewrite split_at_app, !bind_Ok by (by rewrite length_be_bytes).
  rewrite be_val_be_bytes by (cbn; lia). rewrite bool_decide_true by done.
  rewrite (proj2 (Z.eqb_eq _ _)) by done. cbn [negb orb].
  rewrite split_at_app, bind_Ok by (by rewrite length_be_bytes).
  rewrite be_val_be_bytes by (change (256 ^ Z.of_nat 4) with (2 ^ 32); lia). rewrite Nat2Z.id.
  rewrite (proj2 (Nat.ltb_ge _ 12)), (proj2 (Nat.ltb_ge start _)) by (unfold start; lia).
  rewrite Hsha1. cbn [Nat.eqb negb orb].
  assert (Hr : slice data (length pre) start = @Ok Empty_set _ (exts_bytes l)).
  { unfold data. apply slice_app; [done|]. unfold start. lia. }
  rewrite Hr, bind_Ok, <- (app_nil_r (exts_bytes l)), all_items_exts by (done || (simpl; lia)).
  cbn [fst]. rewrite toc_digest, bool_decide_true by done. cbn [negb].
  destruct (last_with_ends l 0 Hl Hne) as (s & d & ->).
  by rewrite (proj2 (Nat.eqb_eq _ _)) by (unfold start; lia).
Qed.
End EoieRoundTrip.
