(* ===== verification/SingleFloat.v ===== *)
(** * Quotients of numbers in single precision

    The number of offsets that each thread gets when an index is read
    ([IndexState]) is a quotient of two [f32] that is rounded up.  These lemmas
    say what is needed of the specification of floating-point numbers in the
    standard library: that such a quotient is never zero. *)

From Stdlib Require Import Floats.SpecFloat.
From S2P Require Import Prelude.

Lemma digits_log2 p : Zdigits2 (Zpos p) = Z.log2 (Zpos p) + 1.
Proof.
  cbn [Zdigits2]. assert (H : ∀ q, digits2_pos q = Pos.size q) by (induction q as [q IH|q IH|]; cbn; by rewrite ?IH). rewrite H.
  destruct p as [p|p|]; cbn [Z.log2 Pos.size]; lia.
Qed.
Lemma digits_bounds m : 0 < m → 2 ^ (Zdigits2 m - 1) ≤ m < 2 ^ Zdigits2 m.
Proof.
  intros Hm. destruct m as [|p|p]; [lia| |lia]. rewrite digits_log2. replace (Z.log2 (Zpos p) + 1 - 1) with (Z.log2 (Zpos p)) by lia.
  pose proof (Z.log2_spec (Zpos p) ltac:(lia)) as H. by rewrite <- Z.add_1_r in H.
Qed.
Lemma digits_positive m : 0 < m → 0 < Zdigits2 m.
Proof. destruct m; cbn; lia. Qed.
Lemma digits_le a b : 0 < a → a ≤ b → Zdigits2 a ≤ Zdigits2 b.
Proof.
  intros Ha Hab. pose proof (digits_bounds a Ha). pose proof (digits_bounds b ltac:(lia)). pose proof (digits_positive a Ha). pose proof (digits_positive b ltac:(lia)).
  destruct (Z.le_gt_cases (Zdigits2 a) (Zdigits2 b)) as [|Hgt]; [done|]. pose proof (Z.pow_le_mono_r 2 (Zdigits2 b) (Zdigits2 a - 1)). lia.
Qed.
Lemma digits_succ m : 0 < m → Zdigits2 (m + 1) ≤ Zdigits2 m + 1.
Proof.
  intros Hm. pose proof (digits_bounds m Hm). pose proof (digits_bounds (m + 1) ltac:(lia)). pose proof (digits_positive m Hm).
  destruct (Z.le_gt_cases (Zdigits2 (m + 1)) (Zdigits2 m + 1)) as [|Hgt]; [done|].
  pose proof (Z.pow_le_mono_r 2 (Zdigits2 m + 1) (Zdigits2 (m + 1) - 1)). rewrite Z.pow_add_r in * by lia. lia.
Qed.

(** Shifting to the right drops digits. *)
Lemma shr_1_digits s : 0 ≤ shr_m s → 0 ≤ shr_m (shr_1 s) ∧ Zdigits2 (shr_m (shr_1 s)) = Z.max 0 (Zdigits2 (shr_m s) - 1).
Proof. destruct s as [m r b]. cbn [shr_m]. destruct m as [|p|p]; [cbn; lia| |lia]. destruct p; cbn; lia. Qed.
Lemma shr_digits p s : 0 ≤ shr_m s → 0 ≤ shr_m (SpecFloat.iter_pos shr_1 p s) ∧ Zdigits2 (shr_m (SpecFloat.iter_pos shr_1 p s)) = Z.max 0 (Zdigits2 (shr_m s) - Zpos p).
Proof.
  revert s. induction p as [p IH|p IH|]; intros s Hs; cbn [SpecFloat.iter_pos].
  - destruct (shr_1_digits s Hs) as [H1 E1]. destruct (IH _ H1) as [H2 E2]. destruct (IH _ H2) as [H3 E3]. split; [done|]. rewrite E3, E2, E1. lia.
  - destruct (IH _ Hs) as [H2 E2]. destruct (IH _ H2) as [H3 E3]. split; [done|]. rewrite E3, E2. lia.
  - by apply shr_1_digits.
Qed.
Lemma shr_fexp_digits m e l : 0 < m → -149 < Zdigits2 m + e → let '(r, e') := shr_fexp 24 128 m e l in
  0 < shr_m r ∧ Zdigits2 (shr_m r) + e' = Zdigits2 m + e ∧ e' = Z.max e (fexp 24 128 (Zdigits2 m + e)).
Proof.
  intros Hm He. unfold shr_fexp. assert (Hr : shr_m (shr_record_of_loc m l) = m) by (destruct l as [|[]]; done).
  assert (Hf : fexp 24 128 (Zdigits2 m + e) = Z.max (Zdigits2 m + e - 24) (-149)) by done.
  destruct (fexp 24 128 (Zdigits2 m + e) - e) as [|p|p] eqn:E; cbn [shr]; rewrite ?Hr; [split_and!; lia| |split_and!; lia].
  destruct (shr_digits p (shr_record_of_loc m l)) as [H1 H2]; rewrite Hr in *; [lia|].
  assert (H3 : Zdigits2 m - Zpos p > 0) by lia. split_and!; [|lia|lia].
  set (M := shr_m (SpecFloat.iter_pos _ _ _)) in *. clearbody M. destruct M as [|q|q]; [change (Zdigits2 0) with 0 in H2; lia|lia|lia].
Qed.
Lemma round_digits m l : 0 < m → 0 < round_nearest_even m l ∧ Zdigits2 m ≤ Zdigits2 (round_nearest_even m l) ≤ Zdigits2 m + 1.
Proof.
  intros Hm. assert (H : round_nearest_even m l = m ∨ round_nearest_even m l = m + 1) by (destruct l as [|[]]; cbn; auto; destruct (Z.even m); auto).
  destruct H as [-> | ->]; [split_and!; lia|]. split; [lia|]. split; [apply digits_le; lia|by apply digits_succ].
Qed.

(** Rounding keeps the magnitude up to one digit. *)
Lemma round_aux_positive m e l : 0 < m → -149 < Zdigits2 m + e →
  ∃ m' e', Zdigits2 m + e ≤ Zdigits2 (Zpos m') + e' ≤ Zdigits2 m + e + 1 ∧ e' ≤ Z.max e (Z.max (Zdigits2 m + e - 23) (-149)) ∧
    binary_round_aux 24 128 false m e l = if e' <=? 104 then S754_finite false m' e' else S754_infinity false.
Proof.
  intros Hm He. unfold binary_round_aux. pose proof (shr_fexp_digits m e l Hm He) as H1. destruct (shr_fexp 24 128 m e l) as [r e1]. destruct H1 as (Hr & Hd & He1).
  destruct (round_digits (shr_m r) (loc_of_shr_record r) Hr) as (Hm2 & Hle & Hge). set (m2 := round_nearest_even _ _) in *.
  pose proof (shr_fexp_digits m2 e1 loc_Exact Hm2 ltac:(lia)) as H2. destruct (shr_fexp 24 128 m2 e1 loc_Exact) as [r2 e2]. destruct H2 as (Hr2 & Hd2 & He2).
  destruct (shr_m r2) as [|m'|m']; [lia| |lia]. exists m', e2. split_and!; [lia|lia| |done].
  rewrite He2, He1. change (fexp 24 128 ?x) with (Z.max (x - 24) (-149)). lia.
Qed.
(** A number of 64 bits, as a [f32]. *)
Lemma f32_positive n : 0 < n < 2 ^ 64 →
  ∃ m e, 1 ≤ Zdigits2 (Zpos m) + e ≤ 65 ∧ binary_normalize 24 128 n 0 false = S754_finite false m e.
Proof.
  intros Hn. destruct n as [|p|p]; [lia| |lia]. cbn [binary_normalize]. unfold binary_round.
  assert (Hd : 1 ≤ Zdigits2 (Zpos p) ≤ 64).
  { pose proof (digits_bounds (Zpos p) ltac:(lia)). pose proof (digits_positive (Zpos p) ltac:(lia)). split; [lia|].
    destruct (Z.le_gt_cases (Zdigits2 (Zpos p)) 64) as [|Hgt]; [done|]. pose proof (Z.pow_le_mono_r 2 64 (Zdigits2 (Zpos p) - 1)). lia. }
  assert (Hs : ∃ q e, shl_align p 0 (fexp 24 128 (Zpos (digits2_pos p) + 0)) = (q, e) ∧ Zdigits2 (Zpos q) + e = Zdigits2 (Zpos p) ∧ e ≤ 0).
  { unfold shl_align. destruct (fexp _ _ _ - 0) as [|d|d] eqn:E; [exists p, 0; split_and!; [done|lia..]|exists p, 0; split_and!; [done|lia..]|].
    exists (Pos.iter xO p d), (fexp 24 128 (Zpos (digits2_pos p) + 0)). split; [done|]. split; [|lia].
    assert (Hit : Zdigits2 (Zpos (Pos.iter xO p d)) = Zdigits2 (Zpos p) + Zpos d).
    { clear. induction d as [|d IH] using Pos.peano_ind; [cbn; lia|]. rewrite Pos.iter_succ. cbn [Zdigits2 digits2_pos] in *. lia. }
    lia. }
  destruct Hs as (q & e & -> & Hq & He). destruct (round_aux_positive (Zpos q) e loc_Exact) as (m' & e' & Hb & He' & ->); [lia|lia|].
  exists m', e'. split; [lia|]. rewrite (proj2 (Z.leb_le _ _)) by lia. done.
Qed.
(** A quotient of such numbers is positive. *)
Lemma div_positive m1 e1 m2 e2 : -125 ≤ Zdigits2 (Zpos m1) + e1 - (Zdigits2 (Zpos m2) + e2) →
  (∃ m e, SFdiv 24 128 (S754_finite false m1 e1) (S754_finite false m2 e2) = S754_finite false m e) ∨
  SFdiv 24 128 (S754_finite false m1 e1) (S754_finite false m2 e2) = S754_infinity false.
Proof.
  intros HD. cbn [SFdiv xorb]. unfold SFdiv_core_binary. set (D := Zdigits2 (Zpos m1) + e1 - (Zdigits2 (Zpos m2) + e2)) in *.
  change (fexp 24 128 D) with (Z.max (D - 24) (-149)). set (e' := Z.min _ _). set (s := e1 - e2 - e').
  assert (Hs : 0 ≤ s) by lia. set (m' := match s with Zpos _ => _ | _ => _ end).
  assert (Hm' : m' = Zpos m1 * 2 ^ s).
  { unfold m'. destruct s as [|p|p] eqn:E; [lia| |lia]. by rewrite Z.shiftl_mul_pow2 by lia. }
  destruct (Z.div_eucl m' (Zpos m2)) as [q r] eqn:Eq. assert (Hq : q = m' / Zpos m2) by (unfold Z.div; by rewrite Eq).
  pose proof (digits_bounds (Zpos m1) ltac:(lia)) as H1. pose proof (digits_bounds (Zpos m2) ltac:(lia)) as H2.
  pose proof (digits_positive (Zpos m1) ltac:(lia)). pose proof (digits_positive (Zpos m2) ltac:(lia)).
  assert (Hk : 24 ≤ D - e') by lia. assert (Hle : 2 ^ (D - e' - 1) ≤ q).
  { rewrite Hq, Hm'. apply Z.div_le_lower_bound; [lia|]. apply Z.le_trans with (2 ^ Zdigits2 (Zpos m2) * 2 ^ (D - e' - 1)).
    - apply Z.mul_le_mono_nonneg_r; [apply Z.pow_nonneg|]; lia.
    - rewrite <- Z.pow_add_r by lia. replace (Zdigits2 (Zpos m2) + (D - e' - 1)) with (Zdigits2 (Zpos m1) - 1 + s) by lia.
      rewrite Z.pow_add_r by lia. apply Z.mul_le_mono_nonneg_r; [apply Z.pow_nonneg|]; lia. }
  pose proof (Z.pow_pos_nonneg 2 (D - e' - 1)). assert (Hqd : D - e' ≤ Zdigits2 q).
  { pose proof (digits_bounds q ltac:(lia)) as Hb. pose proof (digits_positive q ltac:(lia)). destruct (Z.le_gt_cases (D - e') (Zdigits2 q)) as [|Hgt]; [done|].
    pose proof (Z.pow_le_mono_r 2 (Zdigits2 q) (D - e' - 1)). lia. }
  destruct (round_aux_positive q e' (new_location (Zpos m2) r)) as (m & e & _ & _ & ->); [lia|lia|]. destruct (e <=? 104); [left; by do 2 eexists|by right].
Qed.
Lemma quotient_positive a b : 0 < a < 2 ^ 64 → 0 < b < 2 ^ 64 →
  (∃ m e, SFdiv 24 128 (binary_normalize 24 128 a 0 false) (binary_normalize 24 128 b 0 false) = S754_finite false m e) ∨
  SFdiv 24 128 (binary_normalize 24 128 a 0 false) (binary_normalize 24 128 b 0 false) = S754_infinity false.
Proof.
  intros Ha Hb. destruct (f32_positive a Ha) as (m1 & e1 & H1 & ->). destruct (f32_positive b Hb) as (m2 & e2 & H2 & ->).
  apply div_positive. lia.
Qed.
