(* ===== verification/IndexState.v ===== *)
(** * The index file

    Models of [gix-index]: [decode/header.rs], [decode/mod.rs] (reading a whole
    index, with one thread or with several), [write.rs] and [file/write.rs].

    Reading with several threads is modelled by what the threads return: they
    share nothing but the input, and their results are joined in order.  A
    thread that panics makes the whole function panic. *)

From Stdlib Require Import SpecFloat.
From S2P Require Import Prelude External Hash PackEntry Bitmap Btoi IndexEntry IndexExt SingleFloat.
Import IndexEntry.

(** ** The header: [decode/header.rs] *)

Definition HEADER_SIZE : nat := 12.
Definition SIGNATURE : bytes := bs "DIRC".
Inductive HeaderError := Corrupt (message : bytes) | UnsupportedVersion (v : Z).

Definition header_decode (data : bytes) (object_hash : Kind) : res HeaderError (Version * Z * bytes) :=
  if (length data <? 3 * 4 + len_in_bytes object_hash)%nat then
    Err (Corrupt (bs "File is too small even for header with zero entries and smallest hash"))
  else
    '(signature, data) ← split_at data 4;
    if negb (bool_decide (signature = SIGNATURE)) then
      Err (Corrupt (bs "Signature mismatch - this doesn't claim to be a header file"))
    else
      '(version, data) ← split_at data 4;
      let v := be_val version in
      version ← (if v =? 2 then Ok V2 else if v =? 3 then Ok V3 else if v =? 4 then Ok V4
                 else Err (UnsupportedVersion v));
      '(entries, data) ← split_at data 4;
      Ok (version, be_val entries, data).

(** ** The state: [lib.rs] *)

Record State := mkState {
  object_hash : Kind;
  timestamp : Z;
  version : Version;
  entries : list Entry;
  path_backing : bytes;
  is_sparse : bool;
  end_of_index_at_decode_time : bool;
  offset_table_at_decode_time : bool;
  tree : option Tree;
  link : option Link;
  resolve_undo : option (list ResolvePath);
  untracked : option UntrackedCache;
  fs_monitor : option FsMonitor }.

(** ** Reading: [decode/mod.rs] *)

Inductive Error :=
| Header (e : HeaderError)
| EntryError (index : Z)
| Extension (e : ExtError)
| UnexpectedTrailerLength (expected actual : nat)
| ChecksumMismatch (actual expected : ObjectId).

Record Options := mkOptions {
  thread_limit : option nat;
  min_extension_block_in_bytes_for_threading : nat;
  expected_checksum : option ObjectId }.

(** [gix_features::parallel::num_threads] with the [parallel] feature. *)
Definition num_threads (logical_cores : nat) (thread_limit : option nat) : nat :=
  match thread_limit with
  | None => logical_cores
  | Some l => if (l =? 0)%nat then logical_cores else l
  end.

Record EntriesOutcome := mkEntriesOutcome {
  eentries : list Entry; epath_backing : bytes; eis_sparse : bool }.

(** The function [entries]: all entries in sequence, and the rest. *)
Definition read_entries (post_header_data : bytes) (num_entries : Z) (object_hash : Kind)
    (version : Version) : res Error (EntriesOutcome * bytes) :=
  '(es, pb, sp, data) ←
    map_err EntryError (chunk post_header_data [] [] num_entries object_hash version);
  Ok (mkEntriesOutcome es pb sp, data).

(** [(len as f32 / num_threads as f32).ceil() as usize]. *)
Definition f32 (n : nat) : spec_float := binary_normalize 24 128 (Z.of_nat n) 0 false.
Definition ceil_usize (f : spec_float) : Z :=
  match f with
  | S754_finite false m e =>
      Z.min (2 ^ 64 - 1)
        (if 0 <=? e then Zpos m * 2 ^ e else - (- Zpos m / 2 ^ (- e)))
  | S754_infinity false => 2 ^ 64 - 1
  | _ => 0
  end.
Definition chunk_size (len num_threads : nat) : nat :=
  Z.to_nat (ceil_usize (SFdiv 24 128 (f32 len) (f32 num_threads))).

(** [slice.chunks(n)]: panics for [n = 0]. *)
Fixpoint chunks_fuel {A} (fuel n : nat) (l : list A) : list (list A) :=
  match fuel, l with
  | O, _ | _, [] => []
  | S fuel, _ => take n l :: chunks_fuel fuel n (drop n l)
  end.
Definition chunks {E A} (n : nat) (l : list A) : res E (list (list A)) :=
  if (n =? 0)%nat then Panic else Ok (chunks_fuel (length l) n l).

(** What the thread for some blocks of entries returns. *)
Fixpoint thread_loop (data : bytes) (offsets : list Offset) (object_hash : Kind) (version : Version)
    (es : list Entry) (pb : bytes) (sp : bool) : res Error EntriesOutcome :=
  match offsets with
  | [] => Ok (mkEntriesOutcome es pb sp)
  | offset :: offsets =>
      d ← slice_from data (Z.to_nat (from_beginning_of_file offset));
      '(es, pb, chunk_is_sparse, _) ←
        map_err EntryError (chunk d es pb (onum_entries offset) object_hash version);
      thread_loop data offsets object_hash version es pb (sp || chunk_is_sparse)
  end.
Definition shift_path (ofs : nat) (e : Entry) : Entry :=
  mkEntry (stat e) (id e) (flags e) (mode e) ((path e).1 + ofs, (path e).2 + ofs)%nat.
(** Joining the results of two threads. *)
Definition join_outcomes (lhs rhs : EntriesOutcome) : EntriesOutcome :=
  mkEntriesOutcome
    (eentries lhs ++ (shift_path (length (epath_backing lhs)) <$> eentries rhs))
    (epath_backing lhs ++ epath_backing rhs) (eis_sparse lhs || eis_sparse rhs).
Fixpoint join_loop (acc : EntriesOutcome) (results : list (res Error EntriesOutcome))
  : res Error EntriesOutcome :=
  match results with
  | [] => Ok acc
  | r :: results => rhs ← r; join_loop (join_outcomes acc rhs) results
  end.
Definition is_panic {E A} (m : res E A) : bool := match m with Panic => true | _ => false end.
Definition read_entries_threaded (data : bytes) (entry_offsets : list Offset) (threads : nat)
    (object_hash : Kind) (version : Version) : res Error (EntriesOutcome * bytes) :=
  blocks ← chunks (chunk_size (length entry_offsets) threads) entry_offsets;
  let results := (λ b, thread_loop data b object_hash version [] [] false) <$> blocks in
  if existsb is_panic results then Panic
  else
    match results with
    | [] => Panic
    | first :: results =>
        acc ← first;
        acc ← join_loop acc results;
        rest ← slice_from data (length data - len_in_bytes object_hash);
        Ok (acc, rest)
    end.

Section Index.
Context `{!itoa.Api}.
(** SHA-1, and the number of logical cores. *)
Context (sha1 : bytes → bytes) (logical_cores : nat).

(** Entries, extensions and what follows them: from the start of the entries
    on, or in two threads from two places. *)
Definition read_sequentially (post_header_data : bytes) (num_entries : Z) (object_hash : Kind)
    (version : Version) : res Error (EntriesOutcome * Outcome * bytes) :=
  '(es, data) ← read_entries post_header_data num_entries object_hash version;
  '(ext, data) ← map_err Extension (all data object_hash);
  Ok (es, ext, data).
Definition read_in_parallel (data : bytes) (offset threads : nat) (post_header_data : bytes)
    (num_entries : Z) (object_hash : Kind) (version : Version)
  : res Error (EntriesOutcome * Outcome * bytes) :=
  extensions_data ← slice_from data offset;
  let entries_res :=
    match ieot_find extensions_data object_hash with
    | Some entry_offsets =>
        read_entries_threaded data entry_offsets (threads - 1) object_hash version
    | None => read_entries post_header_data num_entries object_hash version
    end in
  let ext_res := map_err Extension (all extensions_data object_hash) in
  if is_panic entries_res || is_panic ext_res then Panic
  else
    '(ext, data) ← ext_res;
    '(es, _) ← entries_res;
    Ok (es, ext, data).
(** The trailer: the checksum, if it is not null. *)
Definition read_checksum (data : bytes) (object_hash : Kind) (expected : option ObjectId)
  : res Error (option ObjectId) :=
  if negb (length data =? len_in_bytes object_hash)%nat then
    Err (UnexpectedTrailerLength (len_in_bytes object_hash) (length data))
  else
    checksum ← from_bytes_or_panic data;
    let checksum := if Hash.is_null checksum then None else Some checksum in
    match expected, checksum with
    | Some expected, Some actual =>
        if bool_decide (actual = expected) then Ok checksum else Err (ChecksumMismatch actual expected)
    | _, _ => Ok checksum
    end.

Definition from_bytes (data : bytes) (timestamp : Z) (object_hash : Kind) (options : Options)
  : res Error (State * option ObjectId) :=
  '(version, num_entries, post_header_data) ← map_err Header (header_decode data object_hash);
  start_of_extensions ← lift (eoie_decode sha1 data object_hash);
  let threads := num_threads logical_cores (thread_limit options) in
  '(es, ext, data) ←
    (match start_of_extensions with
     | Some offset =>
         if (1 <? threads)%nat
         then read_in_parallel data offset threads post_header_data num_entries object_hash version
         else read_sequentially post_header_data num_entries object_hash version
     | None => read_sequentially post_header_data num_entries object_hash version
     end);
  checksum ← read_checksum data object_hash (expected_checksum options);
  Ok (mkState object_hash timestamp version (eentries es) (epath_backing es)
        (eis_sparse es || ois_sparse ext) (oend_of_index ext) (ooffset_table ext)
        (otree ext) (olink ext) (oresolve_undo ext) (ountracked ext) (ofs_monitor ext),
      checksum).

(** ** Writing: [write.rs] *)

Inductive Extensions := All | Given (tree_cache end_of_index_entry : bool) | NoExtensions.
Definition should_write (e : Extensions) (signature : bytes) : option bytes :=
  match e with
  | NoExtensions => None
  | All => Some signature
  | Given tree_cache end_of_index_entry =>
      if bool_decide (signature = TREE_SIGNATURE)
      then (if tree_cache then Some signature else None)
      else if bool_decide (signature = EOIE_SIGNATURE)
      then (if end_of_index_entry then Some signature else None)
      else None
  end.
Record WriteOptions := mkWriteOptions { extensions : Extensions; skip_hash : bool }.

Definition detect_required_version (s : State) : Version :=
  if existsb (λ e, contains (flags e) Flags.EXTENDED) (entries s) then V3 else V2.

(** The function [header]. *)
Definition write_header (out : CountBytes) (v : Version) (num_entries : Z) : res IoError CountBytes :=
  write_bufs out [SIGNATURE; be_bytes 4 (match v with V2 => 2 | V3 => 3 | V4 => 4 end);
                  be_bytes 4 num_entries].

(** One round of the loop of [write_extensions], for an extension that is
    written. *)
Definition write_ext (out : CountBytes) (signature : bytes) (bufs : list bytes)
    (offset_to_previous_ext : Z) (toc : list (bytes * Z))
  : res IoError (CountBytes * Z * list (bytes * Z)) :=
  out ← write_bufs out bufs;
  let offset_past_ext := count out in
  let ext_size := wrap 32 (offset_past_ext - offset_to_previous_ext - Z.of_nat MIN_SIZE) in
  Ok (out, offset_past_ext, toc ++ [(signature, ext_size)]).
Definition write_extensions (s : State) (out : CountBytes) (offset_to_extensions : Z) (e : Extensions)
  : res IoError (list (bytes * Z) * bytes) :=
  '(out, prev, toc) ←
    (match should_write e TREE_SIGNATURE, tree s with
     | Some signature, Some t =>
         bufs ← lift (tree_write_to t);
         write_ext out signature bufs offset_to_extensions []
     | _, _ => Ok (out, offset_to_extensions, [])
     end);
  '(out, _, toc) ←
    (if is_sparse s then write_ext out SPARSE_SIGNATURE sparse_write_to prev toc
     else Ok (out, prev, toc));
  Ok (toc, inner out).

(** [State::write_to]: the version and what was written. *)
Definition write_to (s : State) (o : WriteOptions) : res IoError (Version * bytes) :=
  let version := detect_required_version s in
  let num_entries := Z.of_nat (length (entries s)) in
  let removed_entries :=
    Z.of_nat (length (filter (λ e, contains (flags e) Flags.REMOVE = true) (entries s))) in
  _ ← assert_ (num_entries <? 2 ^ 32);
  out ← write_header (mkCount 0 []) version (num_entries - removed_entries);
  out ← write_entries (entries s) (path_backing s) (count out) out;
  let offset_to_extensions := count out in
  '(extension_toc, out) ← write_extensions s out offset_to_extensions (extensions o);
  if (0 <? num_entries) && bool_decide (is_Some (should_write (extensions o) EOIE_SIGNATURE)) &&
     negb (bool_decide (extension_toc = []))
  then Ok (version,
           out ++ mjoin (eoie_write_to sha1 (object_hash s) offset_to_extensions extension_toc))
  else Ok (version, out).

(** [File::write_to]: the version, the hash and the file. *)
Definition file_write_to (s : State) (o : WriteOptions) : res IoError (Version * ObjectId * bytes) :=
  '(version, out) ← write_to s o;
  let hash := if skip_hash o then null (object_hash s) else Sha1 (sha1 out) in
  Ok (version, hash, out ++ as_slice hash).
End Index.

(** ** Specification: the bytes of an index file *)

Section Spec.
Context `{!itoa.Api} (sha1 : bytes → bytes).

Definition version_num (v : Version) : Z := match v with V2 => 2 | V3 => 3 | V4 => 4 end.
(** What of the state is written. *)
Definition kept_items (s : State) : list Item := items_of (path_backing s) (kept (entries s)).
Definition written_tree (s : State) (o : WriteOptions) : option Tree :=
  match should_write (extensions o) TREE_SIGNATURE with Some _ => tree s | None => None end.
Definition exts (s : State) (o : WriteOptions) : list (bytes * bytes) :=
  (match written_tree s o with Some t => [(TREE_SIGNATURE, tree_entry t)] | None => [] end) ++
  (if is_sparse s then [(SPARSE_SIGNATURE, [])] else []).
Definition writes_eoie (s : State) (o : WriteOptions) : bool :=
  negb (bool_decide (entries s = [])) &&
  bool_decide (is_Some (should_write (extensions o) EOIE_SIGNATURE)) &&
  negb (bool_decide (exts s o = [])).

Definition head_bytes (s : State) : bytes :=
  SIGNATURE ++ be_bytes 4 (version_num (detect_required_version s)) ++
  be_bytes 4 (Z.of_nat (length (kept_items s))).
(** Everything in front of the extensions. *)
Definition entries_bytes (s : State) : bytes := head_bytes s ++ items_bytes (kept_items s).
(** All extensions, the marker of the end of the entries included. *)
Definition all_exts (s : State) (o : WriteOptions) : list (bytes * bytes) :=
  exts s o ++
  (if writes_eoie s o then
     let offset := Z.of_nat (length (entries_bytes s)) in
     [(EOIE_SIGNATURE, be_bytes 4 offset ++
         sha1 (mjoin ((λ '(signature, size), signature ++ be_bytes 4 size) <$> toc (exts s o))))]
   else []).
Definition body (s : State) (o : WriteOptions) : bytes := entries_bytes s ++ exts_bytes (all_exts s o).

(** A state that an index file can hold. *)
Record wf_state (s : State) : Prop := {
  wf_hash : object_hash s = KSha1;
  wf_entries : Forall (wf_entry (path_backing s)) (kept (entries s));
  wf_tree_ext t : tree s = Some t → wf_tree t;
  wf_count : Z.of_nat (length (entries s)) < 2 ^ 32 }.

(** ** Lemmas: writing *)

Lemma length_head s : length (head_bytes s) = 12%nat.
Proof. unfold head_bytes. by rewrite !length_app, !length_be_bytes. Qed.

Lemma kept_removed es :
  (length (kept es) + length (filter (λ e, contains (flags e) Flags.REMOVE = true) es) = length es)%nat.
Proof.
  unfold kept. induction es as [|e es IH]; [done|]. rewrite !filter_cons.
  destruct (contains (flags e) Flags.REMOVE); cbn [length].
  - rewrite decide_False, decide_True by done. cbn [length]. lia.
  - rewrite decide_True, decide_False by done. cbn [length]. lia.
Qed.

Lemma exts_wf s o :
  (∀ t, tree s = Some t → Z.of_nat (length (tree_entry t)) < 2 ^ 32) → Forall wf_ext (exts s o).
Proof.
  intros Ht. unfold exts, written_tree. apply Forall_app. split.
  - destruct (should_write _ _); [|constructor]. destruct (tree s) as [t|]; [|constructor].
    constructor; [|constructor]. split; [done|by apply Ht].
  - destruct (is_sparse s); [|constructor]. constructor; [|constructor]. by split.
Qed.

Lemma write_ext_spec out e prev toc :
  wf_ext e → 0 ≤ count out → prev = count out →
  count out + Z.of_nat (length (ext_bytes e)) < 2 ^ 32 →
  ∀ bufs, mjoin bufs = ext_bytes e →
  write_ext out e.1 bufs prev toc =
  Ok (mkCount (count out + Z.of_nat (length (ext_bytes e))) (inner out ++ ext_bytes e),
      count out + Z.of_nat (length (ext_bytes e)), toc ++ [(e.1, Z.of_nat (length e.2))]).
Proof.
  intros He H0 -> Hlt bufs Hb. unfold write_ext. rewrite write_bufs_ok, bind_Ok by (rewrite ?Hb; lia).
  rewrite Hb. cbn [count inner]. rewrite length_ext_bytes in * by done.
  change (Z.of_nat MIN_SIZE) with 8. rewrite wrap_small by lia. do 5 f_equal. lia.
Qed.

Lemma exts_length s o :
  Z.of_nat (length (exts_bytes (exts s o))) < 2 ^ 32 →
  ∀ t, written_tree s o = Some t →
  Z.of_nat (length (tree_entry t)) < 2 ^ 32 ∧ wf_ext (TREE_SIGNATURE, tree_entry t).
Proof.
  intros Hlt t Ht. unfold exts in Hlt. rewrite Ht, exts_bytes_app, exts_bytes_one, length_app in Hlt.
  unfold ext_bytes at 1 in Hlt. cbn [fst snd] in Hlt.
  rewrite !length_app, length_be_bytes in Hlt. split; [lia|]. split; [done|cbn; lia].
Qed.

Lemma write_extensions_spec s o out :
  0 ≤ count out → count out + Z.of_nat (length (exts_bytes (exts s o))) < 2 ^ 32 →
  write_extensions s out (count out) (extensions o) =
  Ok (toc (exts s o), inner out ++ exts_bytes (exts s o)).
Proof.
  intros H0 Hlt. unfold write_extensions.
  pose proof (exts_length s o ltac:(lia)) as Hwf.
  assert (Hfirst : (match should_write (extensions o) TREE_SIGNATURE, tree s with
     | Some signature, Some t =>
         bufs ← lift (tree_write_to t); write_ext out signature bufs (count out) []
     | _, _ => Ok (out, count out, [])
     end) = Ok (match written_tree s o with
       | Some t => (mkCount (count out + Z.of_nat (length (ext_bytes (TREE_SIGNATURE, tree_entry t))))
            (inner out ++ ext_bytes (TREE_SIGNATURE, tree_entry t)),
            count out + Z.of_nat (length (ext_bytes (TREE_SIGNATURE, tree_entry t))),
            [(TREE_SIGNATURE, Z.of_nat (length (tree_entry t)))])
       | None => (out, count out, [])
       end)).
  { assert (Hsw : ∀ x, should_write (extensions o) TREE_SIGNATURE = Some x → x = TREE_SIGNATURE).
    { intros x. unfold should_write. repeat case_match; congruence. }
    unfold exts in Hlt. unfold written_tree in *.
    destruct (should_write _ _) as [sg|]; [|done]. rewrite (Hsw sg eq_refl) in *.
    destruct (tree s) as [t|]; [|done].
    destruct (Hwf t eq_refl) as [Hlen Hext]. unfold tree_write_to.
    rewrite (proj2 (Z.leb_gt _ _)) by done. cbn [lift]. rewrite bind_Ok.
    apply (write_ext_spec out (TREE_SIGNATURE, tree_entry t) (count out) []); [done|done|done| |].
    - rewrite exts_bytes_app, exts_bytes_one, length_app in Hlt. lia.
    - unfold ext_bytes. cbn. by rewrite app_nil_r. }
  rewrite Hfirst, bind_Ok. clear Hfirst. unfold exts in *.
  assert (Hsp : wf_ext (SPARSE_SIGNATURE, [])) by done.
  assert (Hl8 : length (ext_bytes (SPARSE_SIGNATURE, [])) = 8%nat) by done.
  rewrite exts_bytes_app, length_app in *.
  destruct (is_sparse s).
  - rewrite exts_bytes_one in *.
    destruct (written_tree s o) as [t|]; rewrite ?exts_bytes_one in *; cbn [count inner] in *;
      rewrite (write_ext_spec _ (SPARSE_SIGNATURE, [])), bind_Ok;
      try (done || (cbn [count]; lia)); cbn [inner]; by rewrite <- ?app_assoc.
  - destruct (written_tree s o) as [t|]; rewrite bind_Ok, ?exts_bytes_one in *;
      cbn [inner]; by rewrite ?app_nil_r.
Qed.

Context (Hsha1 : ∀ d, length (sha1 d) = 20%nat).

Lemma eoie_as_ext offset l :
  eoie_bytes sha1 offset l = ext_bytes (EOIE_SIGNATURE, be_bytes 4 offset ++
    sha1 (mjoin ((λ '(signature, size), signature ++ be_bytes 4 size) <$> toc l))).
Proof.
  unfold eoie_bytes, eoie_write_to, ext_bytes. cbn [mjoin list_join fst snd].
  by rewrite length_app, length_be_bytes, Hsha1, app_nil_r.
Qed.

Lemma body_exts s o :
  body s o = entries_bytes s ++ exts_bytes (exts s o) ++
    (if writes_eoie s o then eoie_bytes sha1 (Z.of_nat (length (entries_bytes s))) (exts s o) else []).
Proof.
  unfold body, all_exts. rewrite exts_bytes_app. do 2 f_equal.
  destruct (writes_eoie s o); [|done]. by rewrite exts_bytes_one, eoie_as_ext.
Qed.

Lemma write_to_spec s o :
  wf_state s → Z.of_nat (length (entries_bytes s) + length (exts_bytes (exts s o))) < 2 ^ 32 →
  write_to sha1 s o = Ok (detect_required_version s, body s o).
Proof.
  intros Hwf Hlt. unfold write_to. pose proof (wf_count s Hwf) as Hc.
  rewrite (proj2 (Z.ltb_lt _ _) Hc). cbn [assert_]. rewrite bind_Ok.
  pose proof (kept_removed (entries s)) as Hk. set (rem := length (filter _ _)) in *.
  unfold entries_bytes in *. rewrite !length_app, length_head in *.
  unfold write_header. rewrite write_bufs_ok; cbn [count inner]; [|lia|].
  2:{ cbn [mjoin list_join]. rewrite !length_app, !length_be_bytes. cbn. lia. }
  rewrite bind_Ok. cbn [app mjoin list_join].
  assert (Hhead : SIGNATURE ++ be_bytes 4 (match detect_required_version s with V2 => 2 | V3 => 3 | V4 => 4 end)
    ++ be_bytes 4 (Z.of_nat (length (entries s)) - Z.of_nat rem) ++ [] = head_bytes s).
  { unfold head_bytes, kept_items, items_of. rewrite length_fmap, app_nil_r. do 3 f_equal. lia. }
  rewrite Hhead, length_head. cbn [count].
  rewrite write_entries_spec; cbn [count inner]; [|..|lia|by rewrite Z.sub_diag|].
  2:{ eapply Forall_impl; [exact (wf_entries s Hwf)|]. by intros e [? _]. }
  2:{ unfold kept_items in Hlt. lia. }
  fold (kept_items s). rewrite bind_Ok. cbn [count inner].
  rewrite write_extensions_spec by (cbn [count]; lia). rewrite bind_Ok. cbn [inner].
  assert (Hcond : (0 <? Z.of_nat (length (entries s))) &&
     bool_decide (is_Some (should_write (extensions o) EOIE_SIGNATURE)) &&
     negb (bool_decide (toc (exts s o) = [])) = writes_eoie s o).
  { unfold writes_eoie. do 2 f_equal.
    - f_equal. destruct (entries s); done.
    - unfold toc. destruct (exts s o); done. }
  rewrite Hcond, body_exts. unfold entries_bytes. rewrite length_app, length_head, (wf_hash s Hwf).
  destruct (writes_eoie s o); [|by rewrite app_nil_r].
  unfold eoie_bytes. by rewrite <- !app_assoc, Z.add_0_l, <- Nat2Z.inj_add.
Qed.

(** ** Lemmas: reading *)

Lemma all_exts_wf s o :
  Z.of_nat (length (exts_bytes (exts s o))) < 2 ^ 32 → Forall wf_ext (all_exts s o).
Proof.
  intros Hlt. unfold all_exts. apply Forall_app. split.
  - unfold exts. apply Forall_app. split.
    + destruct (written_tree s o) as [t|] eqn:Ht; [|constructor].
      constructor; [|constructor]. by eapply exts_length.
    + destruct (is_sparse s); [|constructor]. by repeat constructor.
  - destruct (writes_eoie s o); [|constructor]. constructor; [|constructor].
    split; [done|]. cbn [snd]. rewrite length_app, length_be_bytes, Hsha1. lia.
Qed.

Lemma all_spec l trailer :
  Forall wf_ext l → length trailer = 20%nat →
  all (exts_bytes l ++ trailer) KSha1 =
  ext ← all_loop (with_ends 0 l) KSha1 default_outcome; Ok (ext, trailer).
Proof.
  intros Hl Ht. unfold all, new_without_checksum. change (len_in_bytes KSha1) with 20%nat.
  rewrite length_app, Ht, (proj2 (Nat.leb_le _ _)) by lia.
  rewrite Nat.add_sub, take_app_length. rewrite <- (app_nil_r (exts_bytes l)) at 1.
  rewrite all_items_exts by (done || (simpl; lia)). cbn [consumed Nat.add].
  destruct (all_loop _ _ _); [|done..]. rewrite !bind_Ok. by rewrite slice_from_app, bind_Ok.
Qed.

Definition outcome (s : State) (o : WriteOptions) : Outcome :=
  mkOutcome (written_tree s o) None None None None (is_sparse s) false (writes_eoie s o).

Lemma tree_extension `{!itoa.Laws} t ext :
  wf_tree t → one_extension TREE_SIGNATURE (tree_entry t) KSha1 ext = Ok (set_tree (Some t) ext).
Proof.
  intros Ht. unfold one_extension. rewrite bool_decide_true by done.
  by rewrite tree_decode_spec.
Qed.
Lemma all_loop_spec `{!itoa.Laws} s o :
  wf_state s → all_loop (with_ends 0 (all_exts s o)) KSha1 default_outcome = Ok (outcome s o).
Proof.
  intros Hwf. unfold all_exts, exts, outcome.
  assert (Ht : ∀ t, written_tree s o = Some t → wf_tree t).
  { intros t. unfold written_tree. destruct (should_write _ _); [|done]. apply (wf_tree_ext s Hwf). }
  destruct (written_tree s o) as [t|]; destruct (is_sparse s), (writes_eoie s o);
    cbn [app with_ends all_loop]; rewrite ?tree_extension by (by apply Ht);
    rewrite ?bind_Ok; reflexivity.
Qed.

Lemma read_entries_spec its rest :
  Forall wf_item its → Z.of_nat (length its) < 2 ^ 32 → ∀ v, v ≠ V4 →
  read_entries (items_bytes its ++ rest) (Z.of_nat (length its)) KSha1 v =
  Ok (mkEntriesOutcome (loaded_all 0 its) (paths its) (sparse_items its), rest).
Proof.
  intros Hits Hlen v Hv. unfold read_entries, chunk. rewrite Nat2Z.id, bool_decide_false by done.
  rewrite chunk_loop_items by done. done.
Qed.

Lemma header_spec s rest :
  Z.of_nat (length (kept_items s)) < 2 ^ 32 → (20 ≤ length rest)%nat →
  header_decode (head_bytes s ++ rest) KSha1 =
  Ok (detect_required_version s, Z.of_nat (length (kept_items s)), rest).
Proof.
  intros Hlen Hr. unfold header_decode. rewrite length_app, length_head.
  rewrite (proj2 (Nat.ltb_ge _ _)) by (cbn; lia). unfold head_bytes. rewrite <- !app_assoc.
  rewrite split_at_app, bind_Ok by done. rewrite bool_decide_true by done. cbn [negb].
  rewrite split_at_app, bind_Ok by (by rewrite length_be_bytes).
  rewrite be_val_be_bytes by (unfold detect_required_version; destruct (existsb _ _); cbn; lia).
  unfold detect_required_version.
  destruct (existsb _ _); cbn [version_num Z.eqb Pos.eqb]; rewrite bind_Ok, split_at_app, bind_Ok
    by (by rewrite length_be_bytes);
    by rewrite be_val_be_bytes by (change (256 ^ Z.of_nat 4) with (2 ^ 32); lia).
Qed.
End Spec.

(** ** Properties *)

Section RoundTrip.
Context `{!itoa.Api, !itoa.Laws} (sha1 : bytes → bytes) (Hsha1 : ∀ d, length (sha1 d) = 20%nat).

Lemma read_checksum_spec hash expected :
  wf_id hash → expected = None ∨ expected = Some hash →
  read_checksum (as_slice hash) KSha1 expected = Ok (if Hash.is_null hash then None else Some hash).
Proof.
  intros Hid He. unfold read_checksum. pose proof Hid as [Hlen _]. rewrite Hlen. cbn [Nat.eqb len_in_bytes negb].
  rewrite from_bytes_or_panic_id, bind_Ok by done. cbv zeta.
  destruct (Hash.is_null hash), He as [-> | ->]; try done. by rewrite bool_decide_true.
Qed.

(** No extension of a written file is an offset table. *)
Lemma no_offset_table s o hash :
  Z.of_nat (length (exts_bytes (exts s o))) < 2 ^ 32 → length hash = 20%nat →
  ieot_find (exts_bytes (all_exts sha1 s o) ++ hash) KSha1 = None.
Proof.
  intros Hlt Hh. unfold ieot_find, new_without_checksum. change (len_in_bytes KSha1) with 20%nat.
  rewrite length_app, Hh, (proj2 (Nat.leb_le _ _)) by lia. cbn [mbind option_bind].
  rewrite Nat.add_sub, take_app_length, <- (app_nil_r (exts_bytes _)).
  rewrite all_items_exts; [|by apply all_exts_wf|simpl; lia]. cbn [fst].
  unfold all_exts, exts.
  destruct (written_tree s o), (is_sparse s), (writes_eoie s o); reflexivity.
Qed.

(** The file of a state, whatever the number of threads: one thread, a marker
    of the end of the entries, or no bytes that look like one. *)
Lemma from_bytes_body s o opts ts cores hash :
  wf_state s → Z.of_nat (length (entries_bytes s) + length (exts_bytes (exts s o))) < 2 ^ 32 →
  wf_id hash →
  expected_checksum opts = None ∨ expected_checksum opts = Some hash →
  (num_threads cores (thread_limit opts) ≤ 1)%nat ∨ writes_eoie s o = true ∨
    eoie_decode sha1 (body sha1 s o ++ as_slice hash) KSha1 = Ok None →
  from_bytes sha1 cores (body sha1 s o ++ as_slice hash) ts KSha1 opts =
  Ok (mkState KSha1 ts (detect_required_version s) (loaded_all 0 (kept_items s))
        (paths (kept_items s)) (sparse_items (kept_items s) || is_sparse s)
        (writes_eoie s o) false (written_tree s o) None None None None,
      if Hash.is_null hash then None else Some hash).
Proof.
  intros Hwf Hlt Hid Hexp Hthreads. pose proof Hid as [Hlen _].
  assert (Hits : Forall wf_item (kept_items s)).
  { unfold kept_items, items_of. rewrite Forall_fmap.
    eapply Forall_impl; [exact (wf_entries s Hwf)|]. by intros e [_ ?]. }
  assert (Hn : Z.of_nat (length (kept_items s)) < 2 ^ 32).
  { pose proof (wf_count s Hwf). pose proof (kept_removed (entries s)).
    unfold kept_items, items_of. rewrite length_fmap. lia. }
  assert (Hv4 : detect_required_version s ≠ V4)
    by (unfold detect_required_version; by destruct (existsb _ _)).
  set (X := exts_bytes (all_exts sha1 s o) ++ as_slice hash).
  assert (Hfile : body sha1 s o ++ as_slice hash = head_bytes s ++ items_bytes (kept_items s) ++ X)
    by (unfold body, entries_bytes, X; by rewrite <- !app_assoc).
  assert (Hhdr : header_decode (body sha1 s o ++ as_slice hash) KSha1 =
    Ok (detect_required_version s, Z.of_nat (length (kept_items s)), items_bytes (kept_items s) ++ X)).
  { rewrite Hfile. apply header_spec; [done|]. unfold X. rewrite !length_app. lia. }
  assert (Hes : read_entries (items_bytes (kept_items s) ++ X) (Z.of_nat (length (kept_items s)))
    KSha1 (detect_required_version s) = Ok (mkEntriesOutcome (loaded_all 0 (kept_items s))
      (paths (kept_items s)) (sparse_items (kept_items s)), X)) by (by apply read_entries_spec).
  assert (Hext : all X KSha1 = Ok (outcome s o, as_slice hash)).
  { unfold X. rewrite all_spec; [|by apply all_exts_wf; [done|lia]|done]. by rewrite all_loop_spec. }
  assert (Hieot : ieot_find X KSha1 = None) by (apply no_offset_table; [lia|done]).
  assert (Hmark : writes_eoie s o = true →
    eoie_decode sha1 (body sha1 s o ++ as_slice hash) KSha1 = Ok (Some (length (entries_bytes s)))).
  { intros He. rewrite body_exts, He by done. rewrite <- !app_assoc.
    apply eoie_decode_spec; [done|..|lia|done].
    - assert (Hall : Forall wf_ext (all_exts sha1 s o)) by (apply all_exts_wf; [done|lia]).
      unfold all_exts in Hall. by apply Forall_app in Hall as [? _].
    - unfold writes_eoie in He. apply andb_true_iff in He as [_ He].
      apply negb_true_iff, bool_decide_eq_false in He. done.
    - unfold entries_bytes. rewrite length_app, length_head. lia. }
  assert (Hseq : read_sequentially (items_bytes (kept_items s) ++ X) (Z.of_nat (length (kept_items s)))
    KSha1 (detect_required_version s) = Ok (mkEntriesOutcome (loaded_all 0 (kept_items s))
      (paths (kept_items s)) (sparse_items (kept_items s)), outcome s o, as_slice hash)).
  { unfold read_sequentially. rewrite Hes, bind_Ok, Hext. done. }
  assert (Hpar : ∀ threads, read_in_parallel (body sha1 s o ++ as_slice hash) (length (entries_bytes s)) threads
    (items_bytes (kept_items s) ++ X) (Z.of_nat (length (kept_items s)))
    KSha1 (detect_required_version s) = Ok (mkEntriesOutcome (loaded_all 0 (kept_items s))
      (paths (kept_items s)) (sparse_items (kept_items s)), outcome s o, as_slice hash)).
  { intros threads. unfold read_in_parallel. unfold body. rewrite <- app_assoc, slice_from_app, bind_Ok.
    fold X. rewrite Hieot, Hes, Hext. done. }
  unfold from_bytes. rewrite Hhdr. cbn [map_err]. rewrite bind_Ok.
  match goal with |- (_ ≫= ?k) = _ => set (cont := k) end.
  assert (Hrest : ∀ r, (1 < num_threads cores (thread_limit opts))%nat ∧
      r = Some (length (entries_bytes s)) ∨ (num_threads cores (thread_limit opts) ≤ 1)%nat ∨ r = None →
    cont r = Ok (mkState KSha1 ts (detect_required_version s) (loaded_all 0 (kept_items s))
        (paths (kept_items s)) (sparse_items (kept_items s) || is_sparse s)
        (writes_eoie s o) false (written_tree s o) None None None None,
      if Hash.is_null hash then None else Some hash)).
  { intros r Hr. unfold cont.
    assert (Hparts : match r with
      | Some offset => if (1 <? num_threads cores (thread_limit opts))%nat
          then read_in_parallel (body sha1 s o ++ as_slice hash) offset
            (num_threads cores (thread_limit opts)) (items_bytes (kept_items s) ++ X)
            (Z.of_nat (length (kept_items s))) KSha1 (detect_required_version s)
          else read_sequentially (items_bytes (kept_items s) ++ X) (Z.of_nat (length (kept_items s)))
            KSha1 (detect_required_version s)
      | None => read_sequentially (items_bytes (kept_items s) ++ X) (Z.of_nat (length (kept_items s)))
            KSha1 (detect_required_version s)
      end = Ok (mkEntriesOutcome (loaded_all 0 (kept_items s))
        (paths (kept_items s)) (sparse_items (kept_items s)), outcome s o, as_slice hash)).
    { destruct Hr as [[Ht ->]|[Ht| ->]]; [|destruct r; [|done]|done].
      - by rewrite (proj2 (Nat.ltb_lt _ _)), Hpar.
      - by rewrite (proj2 (Nat.ltb_ge _ _)). }
    rewrite Hparts, bind_Ok, read_checksum_spec by done. done. }
  destruct (writes_eoie s o) eqn:He.
  - rewrite Hmark by done. cbn [lift]. rewrite bind_Ok. apply Hrest.
    destruct (decide (1 < num_threads cores (thread_limit opts))%nat); [auto|right; left; lia].
  - destruct Hthreads as [Ht|[Ht|Hnone]]; [|done|].
    + destruct (eoie_decode_total sha1 (body sha1 s o ++ as_slice hash)) as [r ->].
      cbn [lift]. rewrite bind_Ok. apply Hrest. auto.
    + rewrite Hnone. cbn [lift]. rewrite bind_Ok. apply Hrest. auto.
Qed.
End RoundTrip.

(** *** Reading with several threads *)

(** For versions without delta-compressed paths, reading an entry depends on
    the vectors read so far only through the position of its path. *)
Definition shifted (pb : bytes) (r : res unit (Entry * bytes * bytes)) : res unit (Entry * bytes * bytes) :=
  '(e, rest, p) ← r; Ok (shift_path (length pb) e, rest, pb ++ p).
Lemma load_path_shift data pb fl k prev :
  load_path data pb fl k false prev =
  '(rest, p) ← load_path data [] fl k false None; Ok (rest, pb ++ p).
Proof.
  unfold load_path. destruct (if contains fl Flags.PATH_LEN then _ else _) as [[p d]| |]; done.
Qed.
Lemma load_one_shift data pb hl prev :
  load_one data pb hl false prev = shifted pb (load_one data [] hl false None).
Proof.
  unfold load_one, shifted.
  do 10 (destruct (opt (read_u32 _)) as [[? ?]| |]; [rewrite !bind_Ok|done|done]).
  destruct (opt (split_at_pos _ _)) as [[h d]| |]; [rewrite !bind_Ok|done|done].
  destruct (opt (read_u16 _)) as [[fl d']| |]; [rewrite !bind_Ok|done|done].
  destruct (if contains fl Flags.EXTENDED then _ else _) as [[fl' d'']| |]; [rewrite !bind_Ok|done|done].
  rewrite (load_path_shift _ pb _ _ prev).
  destruct (load_path _ [] _ _ _ _) as [[rest p]| |]; [rewrite !bind_Ok|done|done].
  destruct (from_bytes_or_panic h); [rewrite !bind_Ok|done|done].
  unfold shift_path. cbn [stat id flags mode path fst snd length Nat.add]. rewrite length_app.
  do 4 f_equal. f_equal; lia.
Qed.

(** The outcome of some entries, put behind what was read before. *)
Definition outcome_of (r : list Entry * bytes * bool * bytes) : EntriesOutcome :=
  let '(es, pb, sp, _) := r in mkEntriesOutcome es pb sp.
Definition after (acc : EntriesOutcome) (r : list Entry * bytes * bool * bytes)
  : list Entry * bytes * bool * bytes :=
  let '(es, pb, sp, rest) := r in
  let o := join_outcomes acc (mkEntriesOutcome es pb sp) in
  (eentries o, epath_backing o, eis_sparse o, rest).

Lemma shift_shift n m e : shift_path n (shift_path m e) = shift_path (m + n) e.
Proof. unfold shift_path. cbn. f_equal. f_equal; lia. Qed.
Lemma join_assoc a b c : join_outcomes a (join_outcomes b c) = join_outcomes (join_outcomes a b) c.
Proof.
  unfold join_outcomes. cbn. rewrite length_app, fmap_app, <- !app_assoc, orb_assoc. f_equal.
  do 2 f_equal. rewrite <- list_fmap_compose. apply list_fmap_ext. intros i x _. unfold compose.
  rewrite shift_shift. f_equal. lia.
Qed.
Definition no_entries : EntriesOutcome := mkEntriesOutcome [] [] false.
Lemma join_no_l a : join_outcomes no_entries a = a.
Proof.
  destruct a as [es pb sp]. unfold join_outcomes. cbn. f_equal.
  rewrite <- (list_fmap_id es) at 2. apply list_fmap_ext. intros i [? ? ? ? [a b]] _.
  unfold shift_path. cbn. do 2 f_equal; lia.
Qed.
Lemma join_no_r a : join_outcomes a no_entries = a.
Proof. destruct a. unfold join_outcomes. cbn. by rewrite !app_nil_r, orb_false_r. Qed.

Lemma chunk_loop_shift n i data es pb hl prev sp :
  chunk_loop n i data es pb hl false prev sp =
  after (mkEntriesOutcome es pb sp) <$> chunk_loop n i data [] [] hl false None false.
Proof.
  revert i data es pb prev sp. induction n as [|n IH]; intros i data es pb prev sp; cbn [chunk_loop].
  { cbn. by rewrite !app_nil_r, orb_false_r. }
  rewrite (load_one_shift data pb hl prev). unfold shifted.
  destruct (load_one data [] hl false None) as [[[e rest] p]| |]; [|done..].
  cbn [map_err]. rewrite !bind_Ok. cbn [map_err]. rewrite !bind_Ok. cbn [app].
  rewrite (IH (i + 1) rest (es ++ _)), (IH (i + 1) rest [e]).
  destruct (chunk_loop n _ _ _ _ _ _ _ _) as [[[[es' pb'] sp'] r]| |]; [|done..].
  cbn. unfold after, join_outcomes. cbn. rewrite orb_assoc. do 4 f_equal.
  - rewrite <- app_assoc. do 2 f_equal. rewrite <- list_fmap_compose, length_app.
    apply list_fmap_ext. intros k x _. unfold compose. rewrite shift_shift. f_equal. lia.
  - by rewrite app_assoc.
Qed.

(** A block of the offset table: it lies in the file, and its entries can be
    read. *)
Definition block (data : bytes) (v : Version) (o : Offset) (r : EntriesOutcome) (rest : bytes) : Prop :=
  (Z.to_nat (from_beginning_of_file o) ≤ length data)%nat ∧
  chunk (drop (Z.to_nat (from_beginning_of_file o)) data) [] [] (onum_entries o) KSha1 v =
  Ok (eentries r, epath_backing r, eis_sparse r, rest).
(** The blocks follow each other: the first one starts where [d] starts, each
    one ends where the next one starts, and the last one in front of [e]. *)
Inductive tiled (data : bytes) (v : Version) (e : bytes)
  : bytes → list Offset → list EntriesOutcome → Prop :=
| tiled_nil : tiled data v e e [] []
| tiled_cons o os r rs d rest :
    d = drop (Z.to_nat (from_beginning_of_file o)) data → 0 ≤ onum_entries o →
    block data v o r rest → tiled data v e rest os rs →
    tiled data v e d (o :: os) (r :: rs).

Definition join_all (rs : list EntriesOutcome) : EntriesOutcome := foldr join_outcomes no_entries rs.
Lemma join_all_app rs1 rs2 : join_all (rs1 ++ rs2) = join_outcomes (join_all rs1) (join_all rs2).
Proof.
  induction rs1 as [|r rs1 IH]; cbn [app join_all foldr]; [by rewrite join_no_l|].
  unfold join_all in *. by rewrite IH, join_assoc.
Qed.
Lemma join_loop_ok acc rs : join_loop acc (Ok <$> rs) = Ok (join_outcomes acc (join_all rs)).
Proof.
  revert acc. induction rs as [|r rs IH]; intros acc; cbn [fmap list_fmap join_loop join_all foldr].
  - by rewrite join_no_r.
  - rewrite bind_Ok, IH, <- join_assoc. done.
Qed.

Section Threads.
Context (data : bytes) (v : Version) (Hv : v ≠ V4).

Lemma thread_loop_ok os rs acc :
  Forall2 (λ o r, ∃ rest, block data v o r rest) os rs →
  thread_loop data os KSha1 v (eentries acc) (epath_backing acc) (eis_sparse acc) =
  Ok (join_outcomes acc (join_all rs)).
Proof.
  intros Hall. revert acc. induction Hall as [|o r os rs (rest & Hin & Hc) _ IH]; intros acc;
    cbn [thread_loop join_all foldr]; [by rewrite join_no_r; destruct acc|].
  rewrite slice_from_le, bind_Ok by done. unfold chunk in *. rewrite bool_decide_false in * by done.
  rewrite chunk_loop_shift, Hc. cbn [fmap res_fmap after map_err]. rewrite bind_Ok.
  specialize (IH (join_outcomes acc r)). fold (join_all rs). rewrite join_assoc, <- IH.
  destruct r as [es pb sp]. cbn. done.
Qed.

Lemma after_after a b r : after a (after b r) = after (join_outcomes a b) r.
Proof.
  destruct r as [[[es pb] sp] rest]. unfold after. rewrite <- join_assoc.
  destruct (join_outcomes b _) as [x y z] eqn:E. cbn [eentries epath_backing eis_sparse].
  done.
Qed.
Lemma chunk_loop_add n m i d :
  chunk_loop (n + m) i d [] [] 20 false None false =
  r ← chunk_loop n i d [] [] 20 false None false;
  after (outcome_of r) <$> chunk_loop m (i + Z.of_nat n) r.2 [] [] 20 false None false.
Proof.
  revert i d. induction n as [|n IH]; intros i d; cbn [Nat.add chunk_loop].
  { rewrite bind_Ok. cbn [outcome_of snd]. rewrite Z.add_0_r.
    destruct (chunk_loop m _ _ _ _ _ _ _ _) as [[[[es pb] sp] rest]| |]; [|done..]. cbn [fmap res_fmap].
    unfold after. change (mkEntriesOutcome [] [] false) with no_entries. by rewrite join_no_l. }
  destruct (load_one d [] 20 false None) as [[[e rest] p]| |]; [|done..]. cbn [map_err].
  rewrite !bind_Ok. cbn [app]. rewrite (chunk_loop_shift (n + m)), (chunk_loop_shift n), IH.
  destruct (chunk_loop n _ _ _ _ _ _ _ _) as [[[[es pb] sp] r]| |]; [|done..].
  cbn [fmap res_fmap]. rewrite !bind_Ok. cbn [snd outcome_of after].
  replace (i + Z.of_nat (S n)) with (i + 1 + Z.of_nat n) by lia.
  destruct (chunk_loop m _ _ _ _ _ _ _ _) as [r'| |]; [|done..]. cbn [fmap res_fmap].
  f_equal. apply after_after.
Qed.
Lemma chunk_loop_index n i j d es pb hl hd prev sp r :
  chunk_loop n i d es pb hl hd prev sp = Ok r → chunk_loop n j d es pb hl hd prev sp = Ok r.
Proof.
  revert i j d es pb prev sp. induction n as [|n IH]; intros i j d es pb prev sp; cbn [chunk_loop]; [done|].
  destruct (load_one _ _ _ _ _) as [[[e rest] p]| |]; [|done..]. cbn [map_err]. rewrite !bind_Ok. apply IH.
Qed.

Definition num_of (os : list Offset) : Z := foldr (λ o n, onum_entries o + n) 0 os.

Lemma tiled_sequential e d os rs :
  tiled data v e d os rs → ∀ i, 0 ≤ num_of os ∧
  chunk_loop (Z.to_nat (num_of os)) i d [] [] 20 false None false =
  Ok (eentries (join_all rs), epath_backing (join_all rs), eis_sparse (join_all rs), e).
Proof.
  induction 1 as [|o os r rs d rest -> Hn [_ Hc] _ IH]; intros i; [done|].
  destruct (IH (i + onum_entries o)) as (H0 & Hrest). cbn [num_of foldr].
  fold (num_of os). split; [lia|].
  rewrite Z2Nat.inj_add, chunk_loop_add by lia. unfold chunk in Hc. rewrite bool_decide_false in Hc by done.
  apply (chunk_loop_index _ _ i) in Hc. change (len_in_bytes KSha1) with 20%nat in Hc. rewrite Hc, bind_Ok. cbn [snd].
  rewrite Z2Nat.id, Hrest by done. cbn [fmap res_fmap outcome_of after join_all foldr].
  fold (join_all rs). by destruct r, (join_all rs).
Qed.
Lemma tiled_blocks e d os rs :
  tiled data v e d os rs → Forall2 (λ o r, ∃ rest, block data v o r rest) os rs.
Proof. induction 1; constructor; eauto. Qed.
End Threads.

Lemma chunks_fuel_spec {A} fuel n (l : list A) :
  (0 < n)%nat → (length l ≤ fuel)%nat → mjoin (chunks_fuel fuel n l) = l.
Proof.
  intros Hn. revert l. induction fuel as [|fuel IH]; intros l Hl; [by destruct l; [|simpl in Hl; lia]|].
  destruct l as [|x l]; [done|]. cbn [chunks_fuel].
  match goal with |- mjoin (?a :: ?b) = _ => change (mjoin (a :: b)) with (a ++ mjoin b) end.
  rewrite IH; [apply take_drop|]. rewrite length_drop. simpl in *. lia.
Qed.
(** Rounding up, every thread gets at least one block. *)
Lemma ceil_positive m e : 0 < ceil_usize (S754_finite false m e).
Proof.
  cbn [ceil_usize]. apply Z.min_glb_lt; [done|]. destruct (Z.leb_spec 0 e) as [He|He].
  - apply Z.mul_pos_pos; [lia|]. apply Z.pow_pos_nonneg; lia.
  - assert (- Zpos m / 2 ^ (- e) < 0); [|lia]. apply Z.div_lt_upper_bound; [apply Z.pow_pos_nonneg|]; lia.
Qed.
Lemma chunk_size_positive len threads :
  (0 < len)%nat → (0 < threads)%nat → Z.of_nat len < 2 ^ 64 → Z.of_nat threads < 2 ^ 64 → (0 < chunk_size len threads)%nat.
Proof.
  intros H1 H2 H3 H4. unfold chunk_size, f32. destruct (quotient_positive (Z.of_nat len) (Z.of_nat threads)) as [(m & e & ->)| ->]; [lia|lia| |].
  - pose proof (ceil_positive m e). lia.
  - cbn [ceil_usize]. lia.
Qed.
Lemma Forall2_mjoin {A B} (P : A → B → Prop) (ls : list (list A)) (rs : list B) :
  Forall2 P (mjoin ls) rs → ∃ rss, rs = mjoin rss ∧ Forall2 (Forall2 P) ls rss.
Proof.
  revert rs. induction ls as [|l ls IH]; intros rs Hall.
  - exists []. apply Forall2_nil_inv_l in Hall. subst. by split.
  - change (mjoin (l :: ls)) with (l ++ mjoin ls) in Hall.
    apply Forall2_app_inv_l in Hall as (r1 & r2 & H1 & H2 & ->).
    destruct (IH r2 H2) as (rss & -> & Hrss). exists (r1 :: rss). split; [done|]. by constructor.
Qed.
Lemma join_all_mjoin rss : join_all (mjoin rss) = join_all (join_all <$> rss).
Proof.
  induction rss as [|rs rss IH]; [done|]. change (mjoin (rs :: rss)) with (rs ++ mjoin rss).
  by rewrite join_all_app, IH.
Qed.
Lemma no_panic_ok {E A} (l : list A) : existsb is_panic (@Ok E A <$> l) = false.
Proof. induction l; done. Qed.

(** Threads that read the blocks of the offset table return what one thread
    returns that reads all entries. *)
Lemma threads_agree data e os rs v threads :
  v ≠ V4 → os ≠ [] → (0 < chunk_size (length os) threads)%nat → (20 ≤ length data)%nat →
  tiled data v e (drop HEADER_SIZE data) os rs →
  read_entries_threaded data os threads KSha1 v = Ok (join_all rs, drop (length data - 20) data) ∧
  read_entries (drop HEADER_SIZE data) (num_of os) KSha1 v = Ok (join_all rs, e).
Proof.
  intros Hv Hne Hsize Hlen Htiled. split.
  - unfold read_entries_threaded, chunks. rewrite (proj2 (Nat.eqb_neq _ _)), bind_Ok by lia.
    pose proof (tiled_blocks data v _ _ _ _ Htiled) as Hall.
    rewrite <- (chunks_fuel_spec (length os) (chunk_size (length os) threads) os) in Hall by (done || lia).
    apply Forall2_mjoin in Hall as (rss & -> & Hall).
    set (ls := chunks_fuel _ _ os) in *.
    assert (Hres : (λ b, thread_loop data b KSha1 v [] [] false) <$> ls = Ok <$> (join_all <$> rss)).
    { clear -Hall Hv. induction Hall as [|l rs ls rss Hl _ IH]; [done|]. rewrite !fmap_cons, IH. f_equal.
      pose proof (thread_loop_ok data v Hv l rs no_entries Hl) as H. cbn in H. rewrite H.
      by rewrite join_no_l. }
    rewrite Hres, no_panic_ok. rewrite join_all_mjoin.
    destruct rss as [|rs0 rss].
    { apply Forall2_nil_inv_r in Hall. exfalso. apply Hne.
      rewrite <- (chunks_fuel_spec (length os) (chunk_size (length os) threads) os) by (done || lia).
      fold ls. by rewrite Hall. }
    rewrite !fmap_cons, bind_Ok, join_loop_ok, bind_Ok. change (len_in_bytes KSha1) with 20%nat.
    by rewrite slice_from_le, bind_Ok by lia.
  - destruct (tiled_sequential data v Hv _ _ _ _ Htiled 0) as (_ & Hseq).
    unfold read_entries, chunk. rewrite bool_decide_false by done.
    change (len_in_bytes KSha1) with 20%nat. rewrite Hseq. by destruct (join_all rs).
Qed.

(** C26: An index that was written is read back.  The state has SHA-1 ids and
    less than 2^32 entries; those that are not marked for removal have ids of
    twenty bytes, stat data, flags and modes of 32 bits, modes without unknown
    bits, and paths that lie in the path storage and are shorter than 4095
    bytes - or, because the reader does not skip the padding behind longer
    ones, have no zero byte and a length that needs no padding -, so that longer
    paths are excluded in general although the format has them; in the trees of
    the tree cache names have no zero byte, children are sorted by name, counts
    are less than 2^31, trees without a count have the null id, and children fit
    into memory.  Then
    [File::write_to] succeeds unless the file would reach 4 gigabytes, and
    [State::from_bytes] turns the file into a state with the same entries in
    the same order, those marked for removal left out: same stat data, id, mode
    and path, and the flags that are stored.  Tree cache, sparse marker,
    checksum and the version are those that were written.  The number of
    threads does not matter: with more than one, reading starts from the
    end-of-index marker if that was written (without it, the end of the file
    must not be mistaken for one). *)
Theorem index_file_roundtrip `{!itoa.Api, !itoa.Laws} (sha1 : bytes → bytes) s o :
  (∀ d, wf_id (Sha1 (sha1 d))) → wf_state s →
  Z.of_nat (length (entries_bytes s) + length (exts_bytes (exts s o))) < 2 ^ 32 →
  ∃ hash file, file_write_to sha1 s o = Ok (detect_required_version s, hash, file) ∧
    ∀ opts ts cores,
      expected_checksum opts = None ∨ expected_checksum opts = Some hash →
      (num_threads cores (thread_limit opts) ≤ 1)%nat ∨ writes_eoie s o = true ∨
        eoie_decode sha1 file KSha1 = Ok None →
      ∃ s', from_bytes sha1 cores file ts KSha1 opts =
          Ok (s', if Hash.is_null hash then None else Some hash) ∧
        items_of (path_backing s') (entries s') =
          stored_item <$> items_of (path_backing s) (kept (entries s)) ∧
        version s' = detect_required_version s ∧
        tree s' = written_tree s o ∧
        is_sparse s' = sparse_items (kept_items s) || is_sparse s ∧
        end_of_index_at_decode_time s' = writes_eoie s o.
Proof.
  intros Hsha1 Hwf Hlt. unfold file_write_to.
  assert (Hlen : ∀ d, length (sha1 d) = 20%nat) by (intros d; apply (Hsha1 d)).
  rewrite write_to_spec, bind_Ok, (wf_hash s Hwf) by done.
  set (hash := if skip_hash o then _ else _).
  assert (Hhash : wf_id hash) by (unfold hash; destruct (skip_hash o); [|done]; split; [done|];
    apply Forall_replicate; lia).
  eexists _, _. split; [done|]. intros opts ts cores Hexp Hthreads.
  eexists. split; [by apply from_bytes_body|]. cbn. split_and!; try done.
  rewrite <- (app_nil_r (paths _)). by apply (items_of_loaded [] _ [] 0).
Qed.

(** C36: Reading an index with several threads gives the same result as reading
    it with one: when the file has an end-of-index marker and an offset table
    whose blocks follow each other from the header to the extensions, the
    threads' entries and path storage, joined in order, are those of a single
    thread, whatever the number of threads and of logical cores - as long as it
    and the number of blocks are a [usize] - and so however the blocks are
    distributed: the quotient in single precision, rounded up, always gives a
    thread at least one block.  (Versions with delta-compressed paths
    excepted.) *)
Theorem threads_do_not_matter (sha1 : bytes → bytes) data ts cores limit min c v os rs offset :
  header_decode data KSha1 = Ok (v, num_of os, drop HEADER_SIZE data) → v ≠ V4 →
  eoie_decode sha1 data KSha1 = Ok (Some offset) → (offset ≤ length data)%nat →
  ieot_find (drop offset data) KSha1 = Some os → os ≠ [] → Z.of_nat (length os) < 2 ^ 64 →
  Z.of_nat (num_threads cores limit) < 2 ^ 64 →
  tiled data v (drop offset data) (drop HEADER_SIZE data) os rs →
  from_bytes sha1 cores data ts KSha1 (mkOptions limit min c) =
  from_bytes sha1 cores data ts KSha1 (mkOptions (Some 1%nat) min c).
Proof.
  intros Hh Hv He Hofs Hi Hne Hos Hth Ht. unfold from_bytes. rewrite Hh, He. cbn [map_err lift].
  rewrite !bind_Ok. cbn [thread_limit expected_checksum].
  change (1 <? num_threads cores (Some 1))%nat with false.
  destruct (Nat.ltb_spec 1 (num_threads cores limit)) as [Hmany|]; [|done].
  assert (Hlen : (20 ≤ length data)%nat).
  { unfold header_decode in Hh. destruct (Nat.ltb_spec (length data) (3 * 4 + len_in_bytes KSha1)); [done|].
    cbn in *. lia. }
  assert (Hc : (0 < chunk_size (length os) (num_threads cores limit - 1))%nat).
  { apply chunk_size_positive; [destruct os; [done|cbn; lia]|lia..]. }
  destruct (threads_agree data _ os rs v (num_threads cores limit - 1) Hv Hne Hc Hlen Ht) as [Hp Hs].
  unfold read_in_parallel, read_sequentially.
  rewrite slice_from_le, bind_Ok, Hi, Hp, Hs, bind_Ok by done. cbn [is_panic orb].
  destruct (all (drop offset data) KSha1) as [[ext d]| |]; done.
Qed.

(** ** Witnesses *)

(** A digest that depends on the length only. *)
Definition toy_sha1 (d : bytes) : bytes := replicate 20 (Z.of_nat (length d) mod 251).
Lemma toy_sha1_wf d : wf_id (Sha1 (toy_sha1 d)).
Proof.
  split; [done|]. apply Forall_replicate. pose proof (Z.mod_pos_bound (Z.of_nat (length d)) 251). lia.
Qed.
Definition example_stat : Stat := mkStat (mkTime 1 2) (mkTime 3 4) 5 6 7 8 9.
Definition example_id : ObjectId := Sha1 (replicate 20 17).
(** A file, an entry to remove whose path is no longer there, and a file that
    is marked as intent-to-add. *)
Definition example_state : State :=
  mkState KSha1 0 V2
    [mkEntry example_stat example_id 0 Mode.FILE (0, 1)%nat;
     mkEntry example_stat example_id Flags.REMOVE Mode.FILE (77, 99)%nat;
     mkEntry example_stat example_id (Flags.EXTENDED + Flags.INTENT_TO_ADD) Mode.FILE_EXECUTABLE (1, 4)%nat]
    (bs "ab/c") false false false
    (Some (mkTree [] example_id (Some 2) [mkTree (bs "b") (null KSha1) None []]))
    None None None None.
Definition write_all_options : WriteOptions := mkWriteOptions All false.

Lemma example_wf_state : wf_state example_state.
Proof.
  assert (Hid : wf_id example_id) by (split; [done|]; apply Forall_replicate; lia).
  assert (Hnull : wf_id (null KSha1)) by (split; [done|]; apply Forall_replicate; lia).
  assert (Hst : wf_stat example_stat) by (unfold wf_stat; cbn; lia).
  split; [done|..|vm_compute; reflexivity].
  - apply Forall_cons. split; [|apply Forall_cons; split; [|constructor]].
    + split; [by split; cbn; lia|].
      refine (conj Hst (conj Hid (conj _ (conj _ (conj eq_refl _))))); [vm_compute; intuition congruence..|].
      left. vm_compute. reflexivity.
    + split; [by split; cbn; lia|].
      refine (conj Hst (conj Hid (conj _ (conj _ (conj eq_refl _))))); [vm_compute; intuition congruence..|].
      left. vm_compute. reflexivity.
  - intros t [= <-]. constructor; [apply not_elem_of_nil|done|lia| |cbn; lia|].
    + constructor; constructor.
    + constructor; [|constructor]. constructor; [|done|done|constructor|cbn; lia|constructor].
      intros Hin. apply list_elem_of_singleton in Hin. done.
Qed.

Lemma index_file_roundtrip_witness :
  ∃ hash file, @file_write_to itoa_impl toy_sha1 example_state write_all_options =
      Ok (V3, hash, file) ∧
    ∃ s', from_bytes toy_sha1 4 file 7 KSha1 (mkOptions None 0 None) = Ok (s', Some hash) ∧
      items_of (path_backing s') (entries s') =
        stored_item <$> items_of (bs "ab/c") (kept (entries example_state)) ∧
      tree s' = tree example_state.
Proof.
  destruct (@index_file_roundtrip itoa_impl itoa_impl_laws toy_sha1 example_state write_all_options)
    as (hash & file & Hw & Hr).
  - exact toy_sha1_wf.
  - exact example_wf_state.
  - vm_compute. reflexivity.
  - exists hash, file. split; [exact Hw|].
    destruct (Hr (mkOptions None 0 None) 7 4%nat) as (s' & Hs' & Hit & _ & Ht & _).
    + left. reflexivity.
    + right. left. reflexivity.
    + exists s'. split; [|split; [exact Hit|exact Ht]].
      rewrite Hs'. vm_compute in Hw. injection Hw as <- _. reflexivity.
Defined.

(** A file of two blocks: the header, one entry each, the offset table and the
    end-of-index marker. *)
Definition block_item (p : bytes) : Item := mkItem example_stat example_id 0 Mode.FILE p.
Definition blocks_ext : bytes * bytes :=
  (IEOT_SIGNATURE, be_bytes 4 1 ++ be_bytes 4 12 ++ be_bytes 4 1 ++ be_bytes 4 84 ++ be_bytes 4 1).
Definition blocks_file : bytes :=
  SIGNATURE ++ be_bytes 4 2 ++ be_bytes 4 2 ++
  items_bytes [block_item (bs "file"); block_item (bs "other/file")] ++
  exts_bytes [blocks_ext] ++ eoie_bytes toy_sha1 164 [blocks_ext] ++ replicate 20 9.
Definition block_outcome (p : bytes) : EntriesOutcome :=
  mkEntriesOutcome [loaded (block_item p) 0] p false.

Lemma threads_do_not_matter_witness :
  from_bytes toy_sha1 8 blocks_file 7 KSha1 (mkOptions None 0 None) =
  from_bytes toy_sha1 8 blocks_file 7 KSha1 (mkOptions (Some 1%nat) 0 None).
Proof.
  apply (threads_do_not_matter toy_sha1 blocks_file 7 8 None 0 None V2
    [mkOffset 12 1; mkOffset 84 1] [block_outcome (bs "file"); block_outcome (bs "other/file")] 164%nat).
  - vm_compute. reflexivity.
  - congruence.
  - vm_compute. reflexivity.
  - vm_compute. lia.
  - vm_compute. reflexivity.
  - congruence.
  - vm_compute. reflexivity.
  - vm_compute. reflexivity.
  - apply (tiled_cons _ _ _ (mkOffset 12 1) [mkOffset 84 1] (block_outcome (bs "file"))
      [block_outcome (bs "other/file")] _ (drop 84 blocks_file)); [reflexivity|cbn; lia| |].
    { split; [vm_compute; lia|vm_compute; reflexivity]. }
    apply (tiled_cons _ _ _ (mkOffset 84 1) [] (block_outcome (bs "other/file"))
      [] _ (drop 164 blocks_file)); [reflexivity|cbn; lia| |].
    { split; [vm_compute; lia|vm_compute; reflexivity]. }
    apply tiled_nil.
Defined.

(** ** Where reading goes wrong *)

(** A path of 4095 bytes or more is written with padding behind it, which the
    reader does not skip: the next entry is not found. *)
Example long_path_not_readable :
  let p := replicate 4095 (ch "a") in
  let s := mkState KSha1 0 V2
    [mkEntry example_stat example_id 0 Mode.FILE (0, 4095)%nat;
     mkEntry example_stat example_id 0 Mode.FILE (4095, 4096)%nat]
    (p ++ bs "b") false false false None None None None None in
  match @file_write_to itoa_impl toy_sha1 s write_all_options with
  | Ok (_, _, file) =>
      match from_bytes toy_sha1 1 file 0 KSha1 (mkOptions None 0 None) with
      | Ok (s', _) => (ipath <$> items_of (path_backing s') (entries s')) = [p; bs "b"]
      | _ => False
      end
  | _ => False
  end → False.
Proof. vm_compute. intros H. exact H. Qed.

(** An entry at the end of the data without room for its padding. *)
Example truncated_entry_panics :
  load_one (take 66 (padded_item (block_item (bs "file")))) [] 20 false None = Panic.
Proof. vm_compute. reflexivity. Qed.
(** A monitor extension that announces a bitmap larger than itself. *)
Example fs_monitor_panics :
  fs_monitor_decode (be_bytes 4 1 ++ be_bytes 8 0 ++ be_bytes 4 100) = Panic.
Proof. vm_compute. reflexivity. Qed.
(** A tree cache with bytes behind the root tree. *)
Example tree_cache_panics :
  tree_decode ([0; ch "-"; ch "1"; ch " "; ch "0"; 10] ++ [0]) KSha1 = Panic.
Proof. vm_compute. reflexivity. Qed.
