(* ===== verification/IndexAccess.v ===== *)
(** * Looking up entries of the index

    Models the lookups and mutations of [gix-index/src/access/mod.rs], the
    order of [entry/mod.rs] and [verify_entries] of [verify.rs].  Entries are
    sorted by path and stage; a path lies in the path storage, and a range
    outside of it is a panic. *)

From S2P Require Import Prelude Slices Hash IndexEntry IndexExt IndexState.
Import IndexEntry.

(** ** The order of entries: [entry/mod.rs] *)

Definition cmp_filepaths (a b : bytes) : comparison :=
  let common_len := (length a `min` length b)%nat in
  ord_then (bytes_cmp (take common_len a) (take common_len b)) (Nat.compare (length a) (length b)).
Definition stage_cmp (a b : Stage) : comparison := stage_num a ?= stage_num b.
Definition stage (e : Entry) : res Empty_set Stage := flags_stage (flags e).
(** [Entry::cmp]. *)
Definition entry_cmp (backing : bytes) (a b : Entry) : res Empty_set comparison :=
  lhs ← path_in a backing;
  rhs ← path_in b backing;
  match cmp_filepaths lhs rhs with
  | Eq => sa ← stage a; sb ← stage b; Ok (stage_cmp sa sb)
  | c => Ok c
  end.

(** ** Lookups *)

(** [iter.enumerate()] from position [n] on. *)
Fixpoint enumerate_from {A} (n : nat) (l : list A) : list (nat * A) :=
  match l with [] => [] | x :: l => (n, x) :: enumerate_from (S n) l end.

Section Access.
Context (es : list Entry) (pb : bytes).

(** [take_while(|(_, e)| e.path(self) == path).last()]. *)
Fixpoint last_with_path (path : bytes) (l : list (nat * Entry)) (acc : option nat)
  : res Empty_set (option nat) :=
  match l with
  | [] => Ok acc
  | (i, e) :: l =>
      p ← path_in e pb;
      if bool_decide (p = path) then last_with_path path l (Some i) else Ok acc
  end.
(** [take_while(..).find_map(|(i, e)| (e.stage_raw() == wanted).then_some(i))]. *)
Fixpoint find_stage (path : bytes) (wanted : Z) (l : list (nat * Entry)) : res Empty_set (option nat) :=
  match l with
  | [] => Ok None
  | (i, e) :: l =>
      p ← path_in e pb;
      if bool_decide (p = path) then
        if stage_raw (flags e) =? wanted then Ok (Some i) else find_stage path wanted l
      else Ok None
  end.

Definition walk_entry_stages (path : bytes) (base : nat) (direction : comparison)
  : res Empty_set (option nat) :=
  match direction with
  | Gt =>
      match get_from es (base + 1) with
      | None => Ok None
      | Some l => last_with_path path (enumerate_from (base + 1) l) None
      end
  | Eq => Ok (Some base)
  | Lt => l ← slice_to es base; last_with_path path (reverse (enumerate_from 0 l)) None
  end.
Definition entry_index_by_idx_and_stage (path : bytes) (idx : nat) (wanted_stage : Z)
    (stage_cmp : comparison) : res Empty_set (option nat) :=
  match stage_cmp with
  | Gt => l ← slice_to es idx; find_stage path wanted_stage (reverse (enumerate_from 0 l))
  | Eq => Ok (Some idx)
  | Lt =>
      match get_from es (idx + 1) with
      | None => Ok None
      | Some l => find_stage path wanted_stage (enumerate_from (idx + 1) l)
      end
  end.

(** The closures of the binary searches: they compare with [path] and remember
    something about the entry that compares equal. *)
Definition search_path {S} (path : bytes) (note : Entry → res Empty_set S) (s : S) (e : Entry)
  : res Empty_set (S * comparison) :=
  p ← path_in e pb;
  match bytes_cmp p path with
  | Eq => s ← note e; Ok (s, Eq)
  | c => Ok (s, c)
  end.

Definition entry_index_by_path_and_stage (path : bytes) (wanted : Stage) : res Empty_set (option nat) :=
  '(c, r) ← binary_search_by (search_path path (λ e, s ← stage e; Ok (stage_cmp s wanted))) es Eq;
  match r with
  | inr _ => Ok None
  | inl idx => entry_index_by_idx_and_stage path idx (stage_num wanted) c
  end.
Definition entry_by_path_and_stage (path : bytes) (wanted : Stage) : res Empty_set (option Entry) :=
  i ← entry_index_by_path_and_stage path wanted;
  match i with None => Ok None | Some i => Some <$> expect (es !! i) end.
Definition entry_index_by_path_and_stage_bounded (path : bytes) (wanted : Stage) (upper_bound : nat)
  : res Empty_set (option nat) :=
  l ← slice_to es upper_bound;
  '(_, r) ← binary_search_by (λ _ e,
      p ← path_in e pb;
      match bytes_cmp p path with
      | Eq => s ← stage e; Ok (tt, stage_cmp s wanted)
      | c => Ok (tt, c)
      end) l tt;
  Ok (match r with inl i => Some i | inr _ => None end).
Definition entry_by_path (path : bytes) : res Empty_set (option Entry) :=
  '(stage_at_index, r) ← binary_search_by (search_path path (λ e, Ok (stage_raw (flags e)))) es 0;
  match r with
  | inr _ => Ok None
  | inl idx =>
      i ← (if (stage_at_index =? 0) || (stage_at_index =? 2) then Ok (Some idx)
           else entry_index_by_idx_and_stage path idx (stage_num Ours) (stage_at_index ?= 2));
      match i with None => Ok None | Some i => Some <$> expect (es !! i) end
  end.
Definition entry_index_by_path (path : bytes) : res Empty_set (nat + nat) :=
  '(_, r) ← binary_search_by (search_path path (λ _, Ok tt)) es tt; Ok r.
Definition entry_range (path : bytes) : res Empty_set (option (nat * nat)) :=
  '(_, r) ← binary_search_by (search_path path (λ e, Ok (stage_raw (flags e)))) es 0;
  match r with
  | inr _ => Ok None
  | inl idx =>
      start ← walk_entry_stages path idx Lt;
      end_ ← walk_entry_stages path idx Gt;
      Ok (Some (default idx start, (default idx end_ + 1)%nat))
  end.

(** The loop of [entry_closest_to_directory]. *)
Fixpoint closest_loop (directory : bytes) (l : list Entry) : res Empty_set (option Entry) :=
  match l with
  | [] => Ok None
  | e :: l =>
      path ← path_in e pb;
      match get_to path (length directory) with
      | None => Ok None
      | Some p =>
          if negb (bool_decide (p = directory)) then Ok None
          else
            match path !! length directory with
            | None => Ok None
            | Some dir_char =>
                if ch "/" <? dir_char then Ok None
                else if dir_char <? ch "/" then closest_loop directory l
                else Ok (Some e)
            end
      end
  end.
Definition entry_closest_to_directory (directory : bytes) : res Empty_set (option Entry) :=
  r ← entry_index_by_path directory;
  match r with
  | inl _ => Ok None
  | inr idx => l ← slice_from es idx; closest_loop directory l
  end.

(** [high = walk_entry_stages(..).unwrap_or(high)] for an entry that is not at
    stage 0. *)
Definition back_to_first_stage (i : nat) (e : Entry) : res Empty_set nat :=
  if stage_raw (flags e) =? 0 then Ok i
  else p ← path_in e pb; r ← walk_entry_stages p i Lt; Ok (default i r).
Definition prefixed_entries_range (prefix : bytes) : res Empty_set (option (nat * nat)) :=
  if bool_decide (prefix = []) then Ok (Some (0%nat, length es))
  else
    let prefix_len := length prefix in
    low ← partition_point (λ e,
      p ← path_in e pb;
      match get_to p prefix_len with
      | None => q ← slice_to prefix ((path e).2 - (path e).1); Ok (bytes_leb p q)
      | Some q => Ok (bytes_ltb q prefix)
      end) es;
    l ← slice_from es low;
    n ← partition_point (λ e,
      p ← path_in e pb;
      Ok (match get_to p prefix_len with None => false | Some q => bytes_leb q prefix end)) l;
    let high := (low + n)%nat in
    match es !! low with
    | None => Ok None
    | Some low_entry =>
        low ← back_to_first_stage low low_entry;
        high ← (match es !! high with
                | None => Ok high
                | Some high_entry => back_to_first_stage high high_entry
                end);
        Ok (if (low =? high)%nat then None else Some (low, high))
    end.
Definition prefixed_entries (prefix : bytes) : res Empty_set (option (list Entry)) :=
  r ← prefixed_entries_range prefix;
  match r with None => Ok None | Some (a, b) => Some <$> slice es a b end.

(** ** [verify_entries] *)

Record OutOfOrder := mkOutOfOrder {
  current_index : nat; current_path : bytes; current_stage : Stage;
  previous_path : bytes; previous_stage : Stage }.
Fixpoint verify_loop (idx : nat) (previous : option Entry) (l : list Entry) : res OutOfOrder unit :=
  match l with
  | [] => Ok tt
  | e :: l =>
      _ ← (match previous with
           | None => Ok tt
           | Some prev =>
               c ← lift (entry_cmp pb prev e);
               match c with
               | Lt => Ok tt
               | _ =>
                   p ← path_in e pb; s ← lift (stage e);
                   q ← path_in prev pb; t ← lift (stage prev);
                   Err (mkOutOfOrder idx p s q t)
               end
           end);
      verify_loop (S idx) (Some e) l
  end.
Definition verify_entries : res OutOfOrder unit := verify_loop 0 None es.
End Access.

(** ** Mutations *)

(** [dangerously_push_entry]: the entries and the path storage. *)
Definition dangerously_push_entry (es : list Entry) (pb : bytes) (st : Stat) (i : ObjectId) (f m : Z)
    (p : bytes) : list Entry * bytes :=
  (es ++ [mkEntry st i f m (length pb, (length pb + length p)%nat)], pb ++ p).

(** [sort_entries] and [sort_entries_by].  Sorting compares every element of a
    vector that has more than one. *)
Definition sort_keyed (es : list Entry) (pb : bytes) (third : Entry → Entry → comparison)
  : res Empty_set (list Entry) :=
  if (length es <=? 1)%nat then Ok es
  else
    keyed ← mapM_res (λ e, p ← path_in e pb; s ← stage e; Ok (p, s, e)) es;
    Ok (snd <$> sort_by (λ a b : bytes * Stage * Entry,
          ord_then (ord_then (cmp_filepaths a.1.1 b.1.1) (stage_cmp a.1.2 b.1.2))
            (third a.2 b.2)) keyed).
Definition sort_entries (es : list Entry) (pb : bytes) : res Empty_set (list Entry) :=
  sort_keyed es pb (λ _ _, Eq).
Definition sort_entries_by (es : list Entry) (pb : bytes) (compare : Entry → Entry → comparison)
  : res Empty_set (list Entry) := sort_keyed es pb compare.

(** [remove_entries(should_remove)]: the closure has variables [S] and may
    change the entry. *)
Fixpoint remove_entries {S} (should_remove : S → nat → bytes → Entry → S * bool * Entry) (s : S)
    (pb : bytes) (index : nat) (es : list Entry) : res Empty_set (list Entry) :=
  match es with
  | [] => Ok []
  | e :: es =>
      p ← path_in e pb;
      let '(s, remove, e) := should_remove s index p e in
      rest ← remove_entries should_remove s pb (Datatypes.S index) es;
      Ok (if (remove : bool) then rest else e :: rest)
  end.

(** ** Specification *)

(** The path and the stage of an entry. *)
Definition epath (pb : bytes) (e : Entry) : bytes := ipath (item_of pb e).
Definition key (pb : bytes) (e : Entry) : bytes * Z := (epath pb e, stage_raw (flags e)).
Definition key_cmp (a b : bytes * Z) : comparison := ord_then (bytes_cmp a.1 b.1) (a.2 ?= b.2).
Definition key_lt (a b : bytes * Z) : Prop := key_cmp a b = Lt.
(** Entries in order: no two have the same path and stage. *)
Definition in_order (pb : bytes) (es : list Entry) : Prop := StronglySorted key_lt (key pb <$> es).
(** The entry is inside of the directory [d]. *)
Definition below (pb d : bytes) (e : Entry) : Prop := (d ++ [ch "/"]) `prefix_of` epath pb e.
#[global] Instance below_dec pb d e : Decision (below pb d e).
Proof. unfold below. apply _. Defined.

(** ** Lemmas *)

Lemma cmp_filepaths_bytes a b : cmp_filepaths a b = bytes_cmp a b.
Proof.
  unfold cmp_filepaths. revert b. induction a as [|x a IH]; intros [|y b]; try done.
  cbn [length Nat.min take bytes_cmp Nat.compare]. destruct (x ?= y) eqn:E; [|done..]. apply IH.
Qed.

Lemma stage_raw_range f : 0 ≤ stage_raw f < 4.
Proof.
  unfold stage_raw, Flags.STAGE_MASK. change 0x3000 with (Z.shiftl (Z.ones 2) 12).
  rewrite Z.shiftr_land, Z.shiftr_shiftl_l, Z.sub_diag, Z.shiftl_0_r, Z.land_ones by lia.
  apply Z.mod_pos_bound. lia.
Qed.
Lemma stage_ok e : ∃ s, stage e = Ok s ∧ stage_num s = stage_raw (flags e).
Proof.
  unfold stage, flags_stage. pose proof (stage_raw_range (flags e)) as Hr.
  set (r := stage_raw (flags e)) in *. clearbody r.
  destruct (Z.eqb_spec r 0), (Z.eqb_spec r 1), (Z.eqb_spec r 2), (Z.eqb_spec r 3); eauto; lia.
Qed.
Lemma stage_num_inj a b : stage_num a = stage_num b → a = b.
Proof. by destruct a, b. Qed.

Lemma key_lt_trans : Transitive key_lt.
Proof.
  intros [p s] [q t] [r u]. unfold key_lt, key_cmp. cbn.
  destruct (bytes_cmp p q) eqn:E1; cbn; [|intros _|done].
  - apply bytes_cmp_eq in E1 as ->. destruct (bytes_cmp q r); cbn; [|done..].
    rewrite !Z.compare_lt_iff. lia.
  - destruct (bytes_cmp q r) eqn:E2; cbn; [|intros _|done].
    + apply bytes_cmp_eq in E2 as ->. by rewrite E1.
    + assert (Hpr : bytes_lt p r) by (by etrans). unfold bytes_lt in Hpr. by rewrite Hpr.
Qed.
Lemma key_lt_irrefl a : ¬ key_lt a a.
Proof. unfold key_lt, key_cmp. rewrite bytes_cmp_refl. cbn. rewrite Z.compare_refl. done. Qed.

Lemma lookup_enumerate_from {A} n (l : list A) k i x :
  enumerate_from n l !! k = Some (i, x) ↔ i = (n + k)%nat ∧ l !! k = Some x.
Proof.
  revert n k. induction l as [|y l IH]; intros n k; cbn [enumerate_from].
  - rewrite !lookup_nil. naive_solver.
  - destruct k as [|k].
    + change ((n, y) :: enumerate_from (S n) l) with ([(n, y)] ++ enumerate_from (S n) l). cbn.
      rewrite Nat.add_0_r. naive_solver.
    + cbn. rewrite IH. by rewrite Nat.add_succ_comm.
Qed.
Lemma length_enumerate_from {A} n (l : list A) : length (enumerate_from n l) = length l.
Proof. revert n. induction l as [|x l IH]; intros n; cbn; [done|]. by rewrite IH. Qed.

(** ** Lookups in a sorted index *)

(** The range of the positions of [es] at which [P] holds. *)
Definition range_of (es : list Entry) (P : Entry → Prop) (r : option (nat * nat)) : Prop :=
  match r with
  | Some (a, b) => (a < b ≤ length es)%nat ∧ ∀ i e, es !! i = Some e → P e ↔ (a ≤ i < b)%nat
  | None => ∀ i e, es !! i = Some e → ¬ P e
  end.

Section Walk.
Context (pb : bytes) (path : bytes) (l : list (nat * Entry)).
Hypothesis Hin : ∀ i e, (i, e) ∈ l → in_backing pb e.

Lemma find_stage_spec w : ∃ r, find_stage pb path w l = Ok r ∧
  match r with
  | Some i => ∃ e, (i, e) ∈ l ∧ key pb e = (path, w)
  | None => ∀ k i e, l !! k = Some (i, e) → key pb e = (path, w) →
      ∃ k' i' e', (k' < k)%nat ∧ l !! k' = Some (i', e') ∧ epath pb e' ≠ path
  end.
Proof.
  induction l as [|[i e] t IH]; cbn [find_stage]; [by exists None|].
  rewrite path_in_ok, bind_Ok by (eapply Hin; left). fold (epath pb e).
  destruct IH as (r & -> & Hr); [intros; eapply Hin; by right|].
  case_bool_decide as Hp.
  - destruct (Z.eqb_spec (stage_raw (flags e)) w) as [Hw|Hw].
    + eexists. split; [done|]. exists e. split; [left|]. unfold key. by subst.
    + exists r. split; [done|]. destruct r as [j|].
      * destruct Hr as (e' & ? & ?). exists e'. split; [by right|done].
      * intros [|k] j x Hk Hkey; cbn in Hk; [simplify_eq; unfold key in Hkey; congruence|].
        destruct (Hr k j x Hk Hkey) as (k' & i' & e' & ? & ? & ?).
        exists (S k'), i', e'. split_and!; [lia|done|done].
  - exists None. split; [done|]. intros [|k] j x Hk Hkey; cbn in Hk.
    + simplify_eq. unfold key in Hkey. congruence.
    + exists 0%nat, i, e. split_and!; [lia|done|done].
Qed.

(** The run of elements with [path] at the beginning has [n] elements. *)
Lemma last_with_path_spec acc : ∃ n, (n ≤ length l)%nat ∧
  last_with_path pb path l acc = Ok (match n with O => acc | S n => fst <$> l !! n end) ∧
  (∀ k i e, (k < n)%nat → l !! k = Some (i, e) → epath pb e = path) ∧
  (∀ i e, l !! n = Some (i, e) → epath pb e ≠ path).
Proof.
  revert acc. induction l as [|[i e] t IH]; intros acc; cbn [last_with_path].
  { exists 0%nat. split_and!; [done|done|lia|done]. }
  rewrite path_in_ok, bind_Ok by (eapply Hin; left). fold (epath pb e).
  case_bool_decide as Hp.
  - destruct (IH ltac:(intros; eapply Hin; by right) (Some i)) as (n & Hn & -> & Hall & Hend).
    exists (S n). split_and!; [cbn; lia| | |done].
    + by destruct n.
    + intros [|k] j x Hk Hx; cbn in Hx; [by simplify_eq|]. eapply Hall; [|done]. lia.
  - exists 0%nat. split_and!; [lia|done|lia|]. intros j x Hx. cbn in Hx. by simplify_eq.
Qed.
End Walk.

Section Walks.
Context (es : list Entry) (pb : bytes).
Hypothesis Hin : Forall (in_backing pb) es.

Lemma in_backing_at i e : es !! i = Some e → in_backing pb e.
Proof. intros H. eapply Forall_lookup_1; done. Qed.

Lemma enumerate_after base i e :
  (i, e) ∈ enumerate_from base (drop base es) ↔ (base ≤ i)%nat ∧ es !! i = Some e.
Proof.
  rewrite list_elem_of_lookup. setoid_rewrite lookup_enumerate_from. setoid_rewrite lookup_drop. split.
  - intros (k & -> & H). split; [lia|done].
  - intros [Hle H]. exists (i - base)%nat. rewrite Nat.add_sub_assoc, Nat.add_comm, Nat.add_sub by lia.
    by split; [lia|].
Qed.
Lemma lookup_rev_before base k i e : (base ≤ length es)%nat →
  reverse (enumerate_from 0 (take base es)) !! k = Some (i, e) ↔
  (k < base)%nat ∧ i = (base - 1 - k)%nat ∧ es !! i = Some e.
Proof.
  intros Hb. assert (Hlen : length (enumerate_from 0 (take base es)) = base)
    by (rewrite length_enumerate_from, length_take; lia).
  rewrite reverse_lookup_Some, Hlen, lookup_enumerate_from, lookup_take_Some.
  split; [intros ((-> & H & ?) & ?)|intros (? & -> & H)]; cbn in *.
  - replace (base - 1 - k)%nat with (base - S k)%nat by lia. done.
  - replace (base - 1 - k)%nat with (base - S k)%nat in * by lia. split_and!; [done|done|lia|done].
Qed.

(** Walking towards lower positions ends at the first position of the run that
    contains [base]. *)
Lemma walk_lower path base : (base ≤ length es)%nat → ∃ r,
  walk_entry_stages es pb path base Lt = Ok r ∧ (default base r ≤ base)%nat ∧
  (∀ i e, (default base r ≤ i < base)%nat → es !! i = Some e → epath pb e = path) ∧
  (∀ i e, S i = default base r → es !! i = Some e → epath pb e ≠ path).
Proof.
  intros Hb. unfold walk_entry_stages. rewrite slice_to_le, bind_Ok by done.
  destruct (last_with_path_spec pb path (reverse (enumerate_from 0 (take base es)))) with (acc := @None nat)
    as (n & Hn & -> & Hall & Hend).
  { intros i e [k Hk]%list_elem_of_lookup. apply lookup_rev_before in Hk as (_ & _ & Hk); [|done].
    by eapply in_backing_at. }
  rewrite length_reverse, length_enumerate_from, length_take in Hn. eexists. split; [done|].
  assert (Hd : default base (match n with O => None | S m => fst <$> reverse (enumerate_from 0 (take base es)) !! m end)
    = (base - n)%nat).
  { destruct n as [|m]; [cbn; lia|]. destruct (lookup_lt_is_Some_2 es (base - S m)) as [e He]; [lia|].
    assert (reverse (enumerate_from 0 (take base es)) !! m = Some ((base - S m)%nat, e)) as ->.
    { apply lookup_rev_before; [done|]. split_and!; [lia|lia|done]. }
    done. }
  rewrite Hd. split_and!; [lia| |].
  - intros i e Hi He. eapply (Hall (base - 1 - i)%nat i e); [lia|].
    apply lookup_rev_before; [done|]. split_and!; [lia|lia|done].
  - intros i e Hi He. eapply (Hend i e). apply lookup_rev_before; [done|]. split_and!; [lia|lia|done].
Qed.

Lemma walk_higher path base : (base < length es)%nat → ∃ r,
  walk_entry_stages es pb path base Gt = Ok r ∧ (base ≤ default base r < length es)%nat ∧
  (∀ i e, (base < i ≤ default base r)%nat → es !! i = Some e → epath pb e = path) ∧
  (∀ e, es !! S (default base r) = Some e → epath pb e ≠ path).
Proof.
  intros Hb. unfold walk_entry_stages, get_from.
  destruct (Nat.leb_spec (base + 1) (length es)) as [_|]; [|lia].
  destruct (last_with_path_spec pb path (enumerate_from (base + 1) (drop (base + 1) es))) with (acc := @None nat)
    as (n & Hn & -> & Hall & Hend).
  { intros i e [_ Hk]%enumerate_after. by eapply in_backing_at. }
  rewrite length_enumerate_from, length_drop in Hn. eexists. split; [done|].
  assert (Hd : default base (match n with O => None | S m =>
    fst <$> enumerate_from (base + 1) (drop (base + 1) es) !! m end) = (base + n)%nat).
  { destruct n as [|m]; [cbn; lia|]. destruct (lookup_lt_is_Some_2 es (base + S m)) as [e He]; [lia|].
    assert (enumerate_from (base + 1) (drop (base + 1) es) !! m = Some ((base + S m)%nat, e)) as ->.
    { apply lookup_enumerate_from. rewrite lookup_drop. split; [lia|].
      by replace (base + 1 + m)%nat with (base + S m)%nat by lia. }
    done. }
  rewrite Hd. split_and!; [lia|lia| |].
  - intros i e Hi He. eapply (Hall (i - base - 1)%nat i e); [lia|]. apply lookup_enumerate_from.
    rewrite lookup_drop. split; [lia|]. by replace (base + 1 + (i - base - 1))%nat with i by lia.
  - intros e He. eapply (Hend (S (base + n)) e). apply lookup_enumerate_from. rewrite lookup_drop.
    split; [lia|]. by replace (base + 1 + n)%nat with (S (base + n)) by lia.
Qed.
End Walks.

Section Sorted.
Context (es : list Entry) (pb : bytes).
Hypothesis Hin : Forall (in_backing pb) es.
Hypothesis Hord : in_order pb es.

Lemma key_at i j a b : (i < j)%nat → es !! i = Some a → es !! j = Some b → key_lt (key pb a) (key pb b).
Proof.
  intros Hij Ha Hb. eapply (StronglySorted_at _ _ i j _ _ Hord Hij); rewrite list_lookup_fmap.
  - by rewrite Ha.
  - by rewrite Hb.
Qed.
Lemma path_le i j a b : (i ≤ j)%nat → es !! i = Some a → es !! j = Some b →
  bytes_le (epath pb a) (epath pb b).
Proof.
  intros Hij Ha Hb. destruct (decide (i = j)) as [->|].
  { simplify_eq. unfold bytes_le. by rewrite bytes_cmp_refl. }
  pose proof (key_at i j a b ltac:(lia) Ha Hb) as Hk. unfold key_lt, key_cmp, key in Hk. cbn [fst snd] in Hk.
  unfold bytes_le. by destruct (bytes_cmp (epath pb a) (epath pb b)).
Qed.
Lemma path_between i j k a b c : (i ≤ j ≤ k)%nat → es !! i = Some a → es !! j = Some b → es !! k = Some c →
  epath pb a = epath pb c → epath pb b = epath pb a.
Proof.
  intros Hij Ha Hb Hc Heq. apply bytes_le_antisym.
  - rewrite Heq. eapply path_le; [|done|done]. lia.
  - eapply path_le; [|done|done]. lia.
Qed.
Lemma key_position i j a b : es !! i = Some a → es !! j = Some b → key_lt (key pb a) (key pb b) → (i < j)%nat.
Proof.
  intros Ha Hb Hlt. destruct (decide (i < j)%nat) as [|Hn]; [done|]. exfalso.
  destruct (decide (i = j)) as [->|].
  - simplify_eq. by eapply key_lt_irrefl.
  - eapply key_lt_irrefl, key_lt_trans; [exact Hlt|]. eapply key_at; [|done|done]. lia.
Qed.
Lemma key_inj i j a b : es !! i = Some a → es !! j = Some b → key pb a = key pb b → i = j.
Proof.
  intros Ha Hb Heq. destruct (Nat.lt_trichotomy i j) as [Hl|[?|Hl]]; [|done|]; exfalso.
  - apply (key_lt_irrefl (key pb a)). rewrite Heq at 2. by eapply key_at.
  - apply (key_lt_irrefl (key pb a)). rewrite Heq at 1. by eapply key_at.
Qed.

(** The searches by path.  [note] is what the closure remembers. *)
Lemma search_by_path {S} path (note : Entry → res Empty_set S) (val : Entry → S) (s : S) :
  (∀ e, note e = Ok (val e)) →
  ∃ v r, binary_search_by (search_path pb path note) es s = Ok (v, r) ∧
    match r with
    | inl i => ∃ e, es !! i = Some e ∧ epath pb e = path ∧ v = val e
    | inr i => (i ≤ length es)%nat ∧ (∀ j e, es !! j = Some e → epath pb e ≠ path) ∧
               ∀ j e, es !! j = Some e → bytes_lt path (epath pb e) ↔ (i ≤ j)%nat
    end.
Proof.
  intros Hnote.
  destruct (binary_search_spec (search_path pb path note) es (λ e, bytes_cmp (epath pb e) path)
    (λ s e, match bytes_cmp (epath pb e) path with Eq => val e | _ => s end)) with (s := s)
    as ([v r] & Hr & Hres).
  - intros s' e [i He]%list_elem_of_lookup. unfold search_path.
    rewrite path_in_ok, bind_Ok by (by eapply in_backing_at). fold (epath pb e).
    destruct (bytes_cmp (epath pb e) path); [|done..]. by rewrite Hnote.
  - intros i j x y Hij Hx Hy. pose proof (path_le i j x y ltac:(lia) Hx Hy) as Hle. split.
    + by apply bytes_le_lt_trans.
    + rewrite !bytes_cmp_gt. intros Hlt. by eapply bytes_lt_le_trans.
  - exists v, r. split; [done|]. unfold search_result in Hres. cbn [fst snd] in Hres.
    destruct r as [i|i].
    + destruct Hres as (x & s' & Hx & Hc & ->). exists x. rewrite Hc. apply bytes_cmp_eq in Hc. done.
    + destruct Hres as [Hle Hall]. split_and!; [done| |].
      * intros j e He Heq. specialize (Hall j e He). rewrite Heq, bytes_cmp_refl in Hall.
        by destruct (j <? i)%nat.
      * intros j e He. specialize (Hall j e He). rewrite <- bytes_cmp_gt, Hall.
        destruct (Nat.ltb_spec j i); split; try done; lia.
Qed.

(** From an entry with [path], the entry at another stage. *)
Lemma by_idx_and_stage path idx w e :
  es !! idx = Some e → epath pb e = path →
  ∃ r, entry_index_by_idx_and_stage es pb path idx w (stage_raw (flags e) ?= w) = Ok r ∧
    ∀ i, r = Some i ↔ ∃ x, es !! i = Some x ∧ key pb x = (path, w).
Proof.
  intros He Hp. assert (Hidx : (idx < length es)%nat) by (by eapply lookup_lt_Some).
  assert (Huniq : ∀ i, (∃ x, es !! i = Some x ∧ key pb x = (path, w)) →
    ∀ j, Some i = Some j ↔ ∃ x, es !! j = Some x ∧ key pb x = (path, w)).
  { intros i (x & Hx & Hk) j. split; [intros [= <-]; eauto|]. intros (y & Hy & Hky). f_equal.
    eapply key_inj; [done..|]. congruence. }
  assert (Hlt : ∀ x, key pb x = (path, w) → stage_raw (flags e) < w → key_lt (key pb e) (key pb x)).
  { intros x -> Hs. unfold key_lt, key_cmp, key. cbn [fst snd]. rewrite Hp, bytes_cmp_refl. cbn. done. }
  assert (Hgt : ∀ x, key pb x = (path, w) → w < stage_raw (flags e) → key_lt (key pb x) (key pb e)).
  { intros x -> Hs. unfold key_lt, key_cmp, key. cbn [fst snd]. rewrite Hp, bytes_cmp_refl. cbn. done. }
  destruct (Z.compare_spec (stage_raw (flags e)) w) as [Heq|Hs|Hs]; cbn [entry_index_by_idx_and_stage].
  - exists (Some idx). split; [done|]. apply Huniq. exists e. split; [done|]. unfold key. congruence.
  - unfold get_from. destruct (Nat.leb_spec (idx + 1) (length es)) as [_|]; [|lia].
    destruct (find_stage_spec pb path (enumerate_from (idx + 1) (drop (idx + 1) es))) with (w := w)
      as (r & -> & Hr).
    { intros i x [_ Hx]%enumerate_after. by eapply in_backing_at. }
    exists r. split; [done|]. destruct r as [i|].
    + destruct Hr as (x & [_ Hx]%enumerate_after & Hk). apply Huniq. eauto.
    + intros i. split; [done|]. intros (x & Hx & Hk). exfalso.
      pose proof (key_position idx i e x He Hx (Hlt x Hk Hs)) as Hi.
      destruct (Hr (i - idx - 1)%nat i x) as (k' & i' & e' & Hk' & [-> He']%lookup_enumerate_from & Hne); [|done|].
      { apply lookup_enumerate_from. rewrite lookup_drop. split; [lia|]. by replace (idx + 1 + (i - idx - 1))%nat with i by lia. }
      rewrite lookup_drop in He'. apply Hne. rewrite <- Hp.
      eapply (path_between idx _ i e e' x); [|done|done|done|]; [lia|]. unfold key in Hk. congruence.
  - rewrite slice_to_le, bind_Ok by lia.
    destruct (find_stage_spec pb path (reverse (enumerate_from 0 (take idx es)))) with (w := w) as (r & -> & Hr).
    { intros i x [k Hk]%list_elem_of_lookup. apply lookup_rev_before in Hk as (_ & _ & Hk); [|lia].
      by eapply in_backing_at. }
    exists r. split; [done|]. destruct r as [i|].
    + destruct Hr as (x & [k Hx]%list_elem_of_lookup & Hk).
      apply lookup_rev_before in Hx as (_ & _ & Hx); [|lia]. apply Huniq. eauto.
    + intros i. split; [done|]. intros (x & Hx & Hk). exfalso.
      pose proof (key_position i idx x e Hx He (Hgt x Hk Hs)) as Hi.
      destruct (Hr (idx - 1 - i)%nat i x) as (k' & i' & e' & Hk' & He' & Hne); [|done|].
      { apply lookup_rev_before; [lia|]. split_and!; [lia|lia|done]. }
      apply lookup_rev_before in He' as (? & -> & He'); [|lia]. apply Hne. rewrite <- Hp.
      assert (Hpx : epath pb x = epath pb e) by (unfold key in Hk; congruence). rewrite <- Hpx.
      eapply (path_between i _ idx x e' e); [|done|done|done|done]. lia.
Qed.

Lemma back_to_first_stage_same i e :
  (i ≤ length es)%nat → es !! i = Some e →
  (∀ j a, S j = i → es !! j = Some a → epath pb a ≠ epath pb e) → back_to_first_stage es pb i e = Ok i.
Proof.
  intros Hi He Hprev. unfold back_to_first_stage. destruct (_ =? 0); [done|].
  rewrite path_in_ok, bind_Ok by (by eapply in_backing_at). fold (epath pb e).
  destruct (walk_lower es pb Hin (epath pb e) i Hi) as (r & -> & Hle & Hall & _). rewrite bind_Ok. f_equal.
  destruct (decide (default i r = i)) as [|Hne]; [done|]. exfalso.
  destruct (lookup_lt_is_Some_2 es (i - 1)) as [a Ha]; [lia|].
  apply (Hprev (i - 1)%nat a); [lia|done|]. eapply Hall; [|done]. lia.
Qed.

(** C33: On entries that are sorted by path and stage, each pair at most once,
    [entry_index_by_path_and_stage] returns the position [i] exactly when the
    entry at [i] has the given path and stage, and [None] exactly when there is
    no such entry; it does not panic. *)
Theorem entry_index_by_path_and_stage_correct path wanted :
  ∃ r, entry_index_by_path_and_stage es pb path wanted = Ok r ∧
    ∀ i, r = Some i ↔ ∃ e, es !! i = Some e ∧ key pb e = (path, stage_num wanted).
Proof.
  unfold entry_index_by_path_and_stage.
  destruct (search_by_path path (λ e, s ← stage e; Ok (stage_cmp s wanted))
    (λ e, stage_raw (flags e) ?= stage_num wanted) Eq) as (v & r & -> & Hr).
  { intros e. destruct (stage_ok e) as (s & -> & Hs). rewrite bind_Ok. unfold stage_cmp. by rewrite Hs. }
  rewrite bind_Ok. destruct r as [idx|idx].
  - destruct Hr as (e & He & Hp & ->). by apply by_idx_and_stage.
  - destruct Hr as (_ & Hne & _). exists None. split; [done|]. intros i. split; [done|].
    intros (e & He & Hk). unfold key in Hk. exfalso. apply (Hne i e He). congruence.
Qed.

(** [entry_range] returns exactly the range of the positions of the entries
    with the given path, at all stages, and [None] if there is no such entry. *)
Theorem entry_range_correct path :
  ∃ r, entry_range es pb path = Ok r ∧ range_of es (λ e, epath pb e = path) r.
Proof.
  unfold entry_range.
  destruct (search_by_path path (λ e, Ok (stage_raw (flags e))) (λ e, stage_raw (flags e)) 0)
    as (v & r & -> & Hr); [done|].
  rewrite bind_Ok. destruct r as [idx|idx]; [|exists None; split; [done|]; by destruct Hr as (_ & Hne & _)].
  destruct Hr as (e & He & Hp & _). assert (Hidx : (idx < length es)%nat) by (by eapply lookup_lt_Some).
  destruct (walk_lower es pb Hin path idx) as (a & -> & Ha & Halla & Hfirst); [lia|]. rewrite bind_Ok.
  destruct (walk_higher es pb Hin path idx Hidx) as (b & -> & Hb & Hallb & Hlast). rewrite bind_Ok.
  eexists. split; [done|]. split; [lia|]. intros i x Hx. split.
  - intros Hpx. split.
    + destruct (decide (default idx a ≤ i)%nat) as [|Hn]; [done|]. exfalso.
      destruct (lookup_lt_is_Some_2 es (default idx a - 1)) as [y Hy]; [lia|].
      apply (Hfirst (default idx a - 1)%nat y); [lia|done|]. rewrite <- Hpx.
      eapply (path_between i _ idx x y e); [|done|done|done|congruence]. lia.
    + destruct (decide (i < default idx b + 1)%nat) as [|Hn]; [done|]. exfalso.
      destruct (lookup_lt_is_Some_2 es (S (default idx b))) as [y Hy]; [apply lookup_lt_Some in Hx; lia|].
      apply (Hlast y Hy). rewrite <- Hp.
      eapply (path_between idx _ i e y x); [|done|done|done|congruence]. lia.
  - intros [Hlo Hhi]. destruct (Nat.lt_trichotomy i idx) as [|[->|]].
    + eapply Halla; [|done]. lia.
    + congruence.
    + eapply Hallb; [|done]. lia.
Qed.

(** The first search of [prefixed_entries_range] looks for the paths before
    [prefix], the second one for those that begin with it. *)
Lemma low_spec prefix : ∃ low, partition_point (λ e,
      p ← path_in e pb;
      match get_to p (length prefix) with
      | None => q ← slice_to prefix ((IndexEntry.path e).2 - (IndexEntry.path e).1); Ok (bytes_leb p q)
      | Some q => Ok (bytes_ltb q prefix)
      end) es = Ok low ∧ (low ≤ length es)%nat ∧
  ∀ i e, es !! i = Some e → bytes_lt (epath pb e) prefix ↔ (i < low)%nat.
Proof.
  destruct (partition_point_spec (λ e,
      p ← path_in e pb;
      match get_to p (length prefix) with
      | None => q ← slice_to prefix ((IndexEntry.path e).2 - (IndexEntry.path e).1); Ok (bytes_leb p q)
      | Some q => Ok (bytes_ltb q prefix)
      end) (λ e, bytes_ltb (epath pb e) prefix) es) as (low & Hlow & Hle & Hall).
  - intros e [i Hi]%list_elem_of_lookup. assert (He : in_backing pb e) by (by eapply in_backing_at).
    rewrite path_in_ok, bind_Ok by done. fold (epath pb e). unfold get_to.
    destruct (Nat.leb_spec (length prefix) (length (epath pb e))); [by rewrite take_lt|].
    assert (Hlen : ((IndexEntry.path e).2 - (IndexEntry.path e).1)%nat = length (epath pb e)).
    { unfold epath, item_of. cbn [ipath]. destruct He as [??].
      rewrite length_take, length_drop. lia. }
    rewrite Hlen, slice_to_le, bind_Ok by lia. by rewrite short_le.
  - intros i j x y Hij Hx Hy. rewrite !bytes_ltb_iff. apply bytes_le_lt_trans.
    eapply path_le; [|done|done]. lia.
  - exists low. split_and!; [done|done|]. intros i e He. rewrite <- bytes_ltb_iff, (Hall i e He).
    apply Nat.ltb_lt.
Qed.
Lemma high_spec prefix low :
  (∀ i e, es !! i = Some e → bytes_lt (epath pb e) prefix ↔ (i < low)%nat) →
  ∃ n, partition_point (λ e,
      p ← path_in e pb;
      Ok (match get_to p (length prefix) with None => false | Some q => bytes_leb q prefix end))
      (drop low es) = Ok n ∧ (n ≤ length es - low)%nat ∧
  ∀ i e, (low ≤ i)%nat → es !! i = Some e → prefix `prefix_of` epath pb e ↔ (i < low + n)%nat.
Proof.
  intros Hlow.
  assert (Hge : ∀ i e, (low ≤ i)%nat → es !! i = Some e → bytes_le prefix (epath pb e)).
  { intros i e Hi He. apply bytes_not_lt. rewrite (Hlow i e He). lia. }
  assert (Hp : ∀ i e, (low ≤ i)%nat → es !! i = Some e →
    match get_to (epath pb e) (length prefix) with None => false | Some q => bytes_leb q prefix end =
    bool_decide (prefix `prefix_of` epath pb e)).
  { intros i e Hi He. unfold get_to. destruct (Nat.leb_spec (length prefix) (length (epath pb e))).
    - apply eq_bool_prop_intro. rewrite Is_true_true, take_le_prefix, bool_decide_spec; eauto.
    - symmetry. apply bool_decide_eq_false. intros Hpre%prefix_length. lia. }
  destruct (partition_point_spec (λ e,
      p ← path_in e pb;
      Ok (match get_to p (length prefix) with None => false | Some q => bytes_leb q prefix end))
      (λ e, bool_decide (prefix `prefix_of` epath pb e)) (drop low es)) as (n & Hn & Hle & Hall).
  - intros e [i He]%list_elem_of_lookup. rewrite lookup_drop in He.
    rewrite path_in_ok, bind_Ok by (by eapply in_backing_at). fold (epath pb e).
    f_equal. eapply Hp; [|done]. lia.
  - intros i j x y Hij Hx Hy. rewrite lookup_drop in Hx, Hy. rewrite !bool_decide_eq_true.
    apply prefix_interval; [eapply Hge|eapply path_le]; [|done|  |done|done]; lia.
  - exists n. rewrite length_drop in Hle. split_and!; [done|done|]. intros i e Hi He.
    rewrite <- (bool_decide_eq_true (prefix `prefix_of` epath pb e)), (Hall (i - low)%nat e).
    + rewrite Nat.ltb_lt. lia.
    + rewrite lookup_drop. by replace (low + (i - low))%nat with i by lia.
Qed.

(** For a prefix that is not empty, [prefixed_entries_range] returns exactly
    the range of the positions of the entries of which the path begins with the
    prefix, and [None] if there is no such entry; its walks over the stages at
    both ends never change the range. *)
Theorem prefixed_entries_range_correct prefix : prefix ≠ [] →
  ∃ r, prefixed_entries_range es pb prefix = Ok r ∧ range_of es (λ e, prefix `prefix_of` epath pb e) r.
Proof.
  intros Hne. unfold prefixed_entries_range. rewrite bool_decide_eq_false_2 by done.
  destruct (low_spec prefix) as (low & -> & Hl & Hlow). rewrite bind_Ok, slice_from_le, bind_Ok by done.
  destruct (high_spec prefix low Hlow) as (n & -> & Hn & Hhigh). rewrite bind_Ok.
  assert (Hpre : ∀ i e, es !! i = Some e → prefix `prefix_of` epath pb e ↔ (low ≤ i < low + n)%nat).
  { intros i e He. destruct (decide (low ≤ i)%nat) as [Hi|Hi].
    - rewrite (Hhigh i e Hi He). lia.
    - split; [|lia]. intros Hp%bytes_le_prefix%bytes_not_lt. rewrite (Hlow i e He) in Hp. lia. }
  destruct (es !! low) as [a|] eqn:Ha.
  2:{ exists None. split; [done|]. apply lookup_ge_None in Ha. intros i e He. rewrite (Hpre i e He).
      apply lookup_lt_Some in He. lia. }
  assert (Hdiff : ∀ i j x y, (i < low)%nat → (low ≤ j)%nat → es !! i = Some x → es !! j = Some y →
    epath pb x ≠ epath pb y).
  { intros i j x y Hi Hj Hx Hy Heq. apply (Hlow i x Hx) in Hi. rewrite Heq in Hi.
    apply (Hlow j y Hy) in Hi. lia. }
  rewrite (back_to_first_stage_same low a), bind_Ok; [|done|done|].
  2:{ intros j x Hj Hx. eapply (Hdiff j low); [lia|lia|done|done]. }
  assert ((match es !! (low + n)%nat with Some h => back_to_first_stage es pb (low + n) h
    | None => Ok (low + n)%nat end) = Ok (low + n)%nat) as ->.
  { destruct (es !! (low + n)%nat) as [h|] eqn:Hh; [|done].
    apply back_to_first_stage_same; [lia|done|]. intros j x Hj Hx Heq.
    destruct (decide (j < low)%nat) as [|Hjl]; [by eapply (Hdiff j (low + n)%nat); [| |done|done|done]; lia|].
    assert (Hp : prefix `prefix_of` epath pb x) by (apply (Hpre j x Hx); lia).
    rewrite Heq in Hp. apply (Hpre _ h Hh) in Hp. lia. }
  rewrite bind_Ok. eexists. split; [done|].
  destruct (Nat.eqb_spec low (low + n)) as [Heq|Hneq].
  - intros i e He. rewrite (Hpre i e He). lia.
  - split; [lia|done].
Qed.

(** The first entry below [directory]. *)
Lemma find_none_below directory l : Forall (λ e, ¬ below pb directory e) l →
  snd <$> list_find (below pb directory) l = None.
Proof. intros H. by rewrite (proj2 (list_find_None _ _)). Qed.
Lemma below_cons directory e c t : epath pb e = directory ++ c :: t → below pb directory e ↔ c = ch "/".
Proof.
  unfold below. intros ->. split.
  - intros [u Hu]. rewrite <- app_assoc in Hu. by simplify_list_eq.
  - intros ->. exists t. by rewrite <- app_assoc.
Qed.
Lemma closest_loop_spec directory l :
  Forall (in_backing pb) l → StronglySorted (λ a b, bytes_le (epath pb a) (epath pb b)) l →
  Forall (λ e, bytes_lt directory (epath pb e)) l →
  closest_loop pb directory l = Ok (snd <$> list_find (below pb directory) l).
Proof.
  induction l as [|e l IH]; intros Hb Hs Hd; [done|].
  apply Forall_cons_1 in Hb as [He Hb]. apply StronglySorted_inv in Hs as [Hs Hle].
  apply Forall_cons_1 in Hd as [Hlt Hd]. specialize (IH Hb Hs Hd). cbn [closest_loop].
  rewrite path_in_ok, bind_Ok by done. fold (epath pb e).
  rewrite Forall_forall in Hle.
  assert (Hnot : ¬ directory `prefix_of` epath pb e → Forall (λ e, ¬ below pb directory e) (e :: l)).
  { intros Hn. apply Forall_forall. intros x Hx Hp. apply Hn. apply prefix_app_l in Hp.
    apply elem_of_cons in Hx as [->|Hx]; [done|].
    eapply prefix_interval; [|by eapply Hle|done]. apply bytes_le_iff. by right. }
  unfold get_to. destruct (Nat.leb_spec (length directory) (length (epath pb e))) as [Hlen|Hlen].
  2:{ rewrite find_none_below; [done|]. apply Hnot. intros Hp%prefix_length. lia. }
  case_bool_decide as Hp; cbn [negb].
  2:{ rewrite find_none_below; [done|]. apply Hnot. intros [t Ht]. apply Hp. by rewrite Ht, take_app_length. }
  assert (Hsplit : epath pb e = directory ++ drop (length directory) (epath pb e))
    by (rewrite <- Hp at 1; by rewrite take_drop).
  revert Hsplit. destruct (drop (length directory) (epath pb e)) as [|c t]; intros Hsplit.
  { rewrite app_nil_r in Hsplit. rewrite Hsplit in Hlt. by destruct (irreflexivity bytes_lt directory). }
  rewrite Hsplit at 1. rewrite list_lookup_middle by done.
  pose proof (below_cons directory e c t Hsplit) as Hbel.
  destruct (Z.ltb_spec (ch "/") c) as [Hc|Hc].
  - rewrite find_none_below; [done|]. apply Forall_cons. split; [rewrite Hbel; lia|].
    apply Forall_forall. intros x Hx [u Hu]. specialize (Hle x Hx).
    rewrite Hsplit, Hu, <- app_assoc in Hle. unfold bytes_le in Hle. rewrite bytes_cmp_common in Hle.
    cbn in Hle. apply Z.compare_gt_iff in Hc. by rewrite Hc in Hle.
  - destruct (Z.ltb_spec c (ch "/")) as [Hc'|Hc']; cbn [list_find].
    + rewrite IH. case_decide as Hbe; [apply Hbel in Hbe; lia|].
      by destruct (list_find _ l) as [[??]|].
    + case_decide as Hbe; [done|]. exfalso. apply Hbe, Hbel. lia.
Qed.

(** When no entry has the path [directory] itself,
    [entry_closest_to_directory] returns the first entry below it, that is the
    first one of which the path begins with [directory] and a slash, and [None]
    exactly if there is none; when an entry has that path it returns [None]. *)
Theorem entry_closest_to_directory_correct directory :
  entry_closest_to_directory es pb directory =
  Ok (if decide (Exists (λ e, epath pb e = directory) es) then None
      else snd <$> list_find (below pb directory) es).
Proof.
  unfold entry_closest_to_directory, entry_index_by_path.
  destruct (search_by_path directory (λ _, Ok tt) (λ _, tt) tt) as (v & r & -> & Hr); [done|].
  rewrite bind_Ok. cbn [mbind res_bind]. destruct r as [i|i].
  - destruct Hr as (e & He & Hp & _). rewrite decide_True; [done|]. apply Exists_exists. exists e.
    split; [by eapply list_elem_of_lookup_2|done].
  - destruct Hr as (Hi & Hne & Hge). rewrite decide_False.
    2:{ intros (e & [j He]%list_elem_of_lookup & Hp)%Exists_exists. by eapply Hne. }
    cbn. rewrite slice_from_le by done. cbn. rewrite closest_loop_spec.
    + f_equal. rewrite <- (take_drop i es) at 2.
      assert (Hpre : list_find (below pb directory) (take i es) = None).
      { apply list_find_None, Forall_lookup. intros j e [He Hj]%lookup_take_Some Hp.
        assert (Hlt : (i ≤ j)%nat); [|lia]. apply (Hge j e He). eapply bytes_lt_le_trans; [|by apply bytes_le_prefix].
        unfold bytes_lt. rewrite <- (app_nil_r directory) at 1. by rewrite bytes_cmp_common. }
      rewrite list_find_app_r by done. by destruct (list_find _ (drop i es)) as [[??]|].
    + by apply Forall_drop.
    + apply StronglySorted_by_lookup. intros j k x y Hjk Hx Hy. rewrite lookup_drop in Hx, Hy.
      eapply path_le; [|done|done]. lia.
    + apply Forall_lookup. intros j e He. rewrite lookup_drop in He. apply (Hge _ e He). lia.
Qed.

(** [entry_by_path] finds the entry at stage 0, or at stage 2 if the path has
    conflicts. *)
Lemma entry_by_path_spec path :
  (∀ a b, a ∈ es → b ∈ es → epath pb a = epath pb b → stage_raw (flags a) = 0 → stage_raw (flags b) = 0) →
  ∃ r, entry_by_path es pb path = Ok r ∧
    ∀ e, r = Some e ↔ e ∈ es ∧ (key pb e = (path, 0) ∨ key pb e = (path, 2)).
Proof.
  intros Hconf. unfold entry_by_path.
  destruct (search_by_path path (λ e, Ok (stage_raw (flags e))) (λ e, stage_raw (flags e)) 0)
    as (v & r & -> & Hr); [done|].
  rewrite bind_Ok. destruct r as [idx|idx].
  2:{ destruct Hr as (_ & Hne & _). exists None. split; [done|]. intros e. split; [done|].
      intros ([i He]%list_elem_of_lookup & Hk). exfalso. apply (Hne i e He). unfold key in Hk. naive_solver. }
  destruct Hr as (a & Ha & Hp & ->). assert (Hina : a ∈ es) by (by eapply list_elem_of_lookup_2).
  destruct (by_idx_and_stage path idx 2 a Ha Hp) as (r & Hr & Hspec).
  assert (Hother : ∀ e, e ∈ es → key pb e = (path, 0) → stage_raw (flags a) = 0).
  { intros e He Hk. unfold key in Hk. simplify_eq. apply (Hconf e a); [done|done|congruence|done]. }
  assert (Hself : ∀ e, e ∈ es → key pb e = key pb a → e = a).
  { intros e [j He]%list_elem_of_lookup Hk. assert (j = idx) as -> by (by eapply key_inj). congruence. }
  destruct (Z.eqb_spec (stage_raw (flags a)) 0) as [H0|H0]; cbn [orb].
  - rewrite bind_Ok, Ha. cbn. eexists. split; [done|]. intros e. split.
    + intros [= <-]. split; [done|]. left. unfold key. congruence.
    + intros [He Hk]. f_equal. symmetry. apply Hself; [done|]. destruct Hk as [->|Hk]; unfold key in *; [congruence|].
      assert (stage_raw (flags e) = 0) by (apply (Hconf a e); [done|done|congruence|done]). simplify_eq. lia.
  - destruct (Z.eqb_spec (stage_raw (flags a)) 2) as [H2|H2].
    + rewrite bind_Ok, Ha. cbn. eexists. split; [done|]. intros e. split.
      * intros [= <-]. split; [done|]. right. unfold key. congruence.
      * intros [He [Hk|Hk]]; [by apply Hother in Hk|]. f_equal. symmetry. apply Hself; [done|].
        unfold key in *. congruence.
    + change (stage_num Ours) with 2. rewrite Hr, bind_Ok. destruct r as [i|].
      * destruct (proj1 (Hspec i) eq_refl) as (x & Hx & Hk). rewrite Hx. cbn. eexists. split; [done|].
        intros e. split; [intros [= <-]; split; [by eapply list_elem_of_lookup_2|by right]|].
        intros [He [Hke|Hke]]; [by apply Hother in Hke|]. apply list_elem_of_lookup in He as [j He].
        assert (j = i) as -> by (eapply key_inj; [done|done|congruence]). congruence.
      * exists None. split; [done|]. intros e. split; [done|].
        intros [He [Hke|Hke]]; [by apply Hother in Hke|]. apply list_elem_of_lookup in He as [j He].
        assert (None = Some j) by (apply Hspec; eauto). done.
Qed.
End Sorted.

(** ** Sorting and verifying *)

Lemma key_cmp_refl a : key_cmp a a = Eq.
Proof. unfold key_cmp. rewrite bytes_cmp_refl. apply Z.compare_refl. Qed.
Lemma key_cmp_antisym a b : key_cmp b a = CompOpp (key_cmp a b).
Proof.
  unfold key_cmp. rewrite (bytes_cmp_antisym a.1), (Z.compare_antisym a.2).
  by destruct (bytes_cmp a.1 b.1).
Qed.
Lemma key_cmp_eq a b : key_cmp a b = Eq ↔ a = b.
Proof.
  destruct a as [p s], b as [q t]. unfold key_cmp. cbn [fst snd].
  pose proof (bytes_cmp_eq p q). destruct (bytes_cmp p q) eqn:E; cbn.
  - rewrite Z.compare_eq_iff. naive_solver.
  - naive_solver.
  - naive_solver.
Qed.
Lemma key_le_trans : Transitive (λ a b, key_cmp a b ≠ Gt).
Proof.
  intros a b c Hab Hbc. destruct (key_cmp a b) eqn:E1; [by apply key_cmp_eq in E1 as ->| |done].
  destruct (key_cmp b c) eqn:E2; [apply key_cmp_eq in E2 as ->; congruence| |done].
  pose proof (key_lt_trans a b c E1 E2) as H. unfold key_lt in H. congruence.
Qed.

Lemma entry_cmp_ok pb a b : in_backing pb a → in_backing pb b →
  entry_cmp pb a b = Ok (key_cmp (key pb a) (key pb b)).
Proof.
  intros Ha Hb. unfold entry_cmp. rewrite !path_in_ok, !bind_Ok by done. rewrite cmp_filepaths_bytes.
  destruct (stage_ok a) as (sa & Hsa & Hna), (stage_ok b) as (sb & Hsb & Hnb).
  unfold key_cmp, key. cbn [fst snd]. fold (epath pb a) (epath pb b).
  destruct (bytes_cmp (epath pb a) (epath pb b)); [|done..].
  rewrite Hsa, bind_Ok, Hsb, bind_Ok. unfold stage_cmp. by rewrite Hna, Hnb.
Qed.

Lemma sort_entries_spec es pb : Forall (in_backing pb) es →
  ∃ es', sort_entries es pb = Ok es' ∧ es' ≡ₚ es ∧
    StronglySorted (λ a b, key_cmp a b ≠ Gt) (key pb <$> es').
Proof.
  intros Hin. unfold sort_entries, sort_keyed. destruct (Nat.leb_spec (length es) 1) as [Hl|Hl].
  { exists es. split_and!; [done|done|]. destruct es as [|e [|? ?]]; cbn in *; [| |lia]; repeat constructor. }
  set (st e := match stage e with Ok s => s | _ => Unconflicted end).
  assert (Hst : ∀ e, stage e = Ok (st e) ∧ stage_num (st e) = stage_raw (flags e)).
  { intros e. unfold st. destruct (stage_ok e) as (s & -> & Hs). done. }
  rewrite (mapM_res_ok _ (λ e, (epath pb e, st e, e))), bind_Ok.
  2:{ eapply Forall_impl; [exact Hin|]. intros e He. rewrite path_in_ok, bind_Ok by done.
      by rewrite (proj1 (Hst e)), bind_Ok. }
  set (keyed := (λ e, (epath pb e, st e, e)) <$> es).
  set (cmp := λ a b : bytes * Stage * Entry, _).
  assert (Hcmp : ∀ a b, cmp a b = key_cmp (a.1.1, stage_num a.1.2) (b.1.1, stage_num b.1.2)).
  { intros a b. unfold cmp, key_cmp, stage_cmp. rewrite cmp_filepaths_bytes. cbn [fst snd].
    by destruct (bytes_cmp a.1.1 b.1.1), (stage_num a.1.2 ?= stage_num b.1.2). }
  eexists. split; [done|]. pose proof (sort_by_perm cmp keyed) as Hperm. split.
  - rewrite Hperm. unfold keyed. rewrite <- list_fmap_compose. cbn. by rewrite list_fmap_id.
  - apply StronglySorted_fmap. apply StronglySorted_fmap.
    assert (Hall : Forall (λ a, key pb a.2 = (a.1.1, stage_num a.1.2)) (sort_by cmp keyed)).
    { rewrite Hperm. unfold keyed. apply Forall_fmap, Forall_true. intros e. unfold key. cbn.
      by rewrite (proj2 (Hst e)). }
    pose proof (sort_by_sorted cmp ltac:(intros a b; rewrite !Hcmp, key_cmp_antisym;
      destruct (key_cmp _ _); done)
      ltac:(intros a b c; rewrite !Hcmp; apply key_le_trans) keyed) as Hs.
    apply StronglySorted_by_lookup. intros i j x y Hij Hx Hy.
    rewrite (Forall_lookup_1 _ _ _ _ Hall Hx), (Forall_lookup_1 _ _ _ _ Hall Hy), <- Hcmp.
    by eapply (StronglySorted_at (λ a b, cmp a b ≠ Gt)).
Qed.

#[global] Instance key_lt_dec a b : Decision (key_lt a b).
Proof. unfold key_lt. apply _. Defined.

(** What the error says: the entry at position [i + 1] of [l] is the first one
    that is not after the one before it; [first] is the position of [l]. *)
Definition reports (pb : bytes) (first : nat) (l : list Entry) (o : OutOfOrder) : Prop :=
  ∃ i a b, l !! i = Some a ∧ l !! S i = Some b ∧ current_index o = (first + S i)%nat ∧
    (previous_path o, stage_num (previous_stage o)) = key pb a ∧
    (current_path o, stage_num (current_stage o)) = key pb b ∧
    ¬ key_lt (key pb a) (key pb b) ∧ StronglySorted key_lt (key pb <$> take (S i) l).

Lemma sorted_cons pb a b l : key_lt (key pb a) (key pb b) → StronglySorted key_lt (key pb <$> b :: l) →
  StronglySorted key_lt (key pb <$> a :: b :: l).
Proof.
  intros Hab Hs. rewrite fmap_cons. constructor; [done|]. rewrite fmap_cons in *.
  apply StronglySorted_inv in Hs as [_ Hb]. constructor; [done|].
  eapply Forall_impl; [exact Hb|]. intros c. by apply key_lt_trans.
Qed.
Lemma verify_loop_spec pb idx p l :
  Forall (in_backing pb) (p :: l) →
  match verify_loop pb (S idx) (Some p) l with
  | Ok _ => StronglySorted key_lt (key pb <$> p :: l)
  | Err o => reports pb idx (p :: l) o
  | Panic => False
  end.
Proof.
  revert idx p. induction l as [|e l IH]; intros idx p Hin; [repeat constructor|].
  apply Forall_cons_1 in Hin as [Hp Hin]. pose proof Hin as [He _]%Forall_cons_1.
  cbn [verify_loop]. rewrite entry_cmp_ok by done. cbn [lift]. rewrite bind_Ok.
  destruct (decide (key_lt (key pb p) (key pb e))) as [Hlt|Hnlt].
  - unfold key_lt in Hlt. rewrite Hlt. rewrite bind_Ok. specialize (IH (S idx) e Hin).
    destruct (verify_loop pb (S (S idx)) (Some e) l) as [[]|o|]; [by apply sorted_cons| |done].
    destruct IH as (i & a & b & Ha & Hb & Hi & Hpa & Hpb & Hn & Hs).
    exists (S i), a, b. split_and!; [done|done|lia|done|done|done|]. cbn [take] in *. by apply sorted_cons.
  - destruct (stage_ok e) as (se & Hse & Hne), (stage_ok p) as (sp & Hsp & Hnp).
    assert (Hrun : (match key_cmp (key pb p) (key pb e) with
      | Lt => Ok tt
      | _ => q ← path_in e pb; s ← lift (stage e); r ← path_in p pb; t ← lift (stage p);
             Err (mkOutOfOrder (S idx) q s r t) end) =
      Err (mkOutOfOrder (S idx) (epath pb e) se (epath pb p) sp)).
    { unfold key_lt in Hnlt. rewrite !path_in_ok, Hse, Hsp by done. by destruct (key_cmp _ _). }
    rewrite Hrun. cbn. exists 0%nat, p, e. cbn. unfold key. rewrite Hne, Hnp.
    split_and!; [done|done|lia|done|done|done|repeat constructor].
Qed.

Lemma reports_not_sorted pb first l o : reports pb first l o → ¬ in_order pb l.
Proof.
  intros (i & a & b & Ha & Hb & _ & _ & _ & Hn & _) Hs. apply Hn.
  eapply (key_at l pb Hs i (S i)); [lia|done|done].
Qed.
Lemma verify_in_order es pb : Forall (in_backing pb) es → in_order pb es → verify_entries es pb = Ok tt.
Proof.
  intros Hin Hord. unfold verify_entries. destruct es as [|e l]; [done|].
  cbn [verify_loop]. rewrite bind_Ok. pose proof (verify_loop_spec pb 0 e l Hin) as H.
  destruct (verify_loop pb 1 (Some e) l) as [[]|o|]; [done| |done]. by apply reports_not_sorted in H.
Qed.

(** [verify_entries] accepts exactly the entries that are sorted by path and
    stage with no pair twice, which is what the lookups rely on; otherwise it
    reports the first entry that is not after the one before it, with the paths
    and stages of the two. *)
Theorem verify_entries_correct es pb : Forall (in_backing pb) es →
  match verify_entries es pb with
  | Ok _ => in_order pb es
  | Err o => ¬ in_order pb es ∧ reports pb 0 es o
  | Panic => False
  end.
Proof.
  intros Hin. unfold verify_entries. destruct es as [|e l]; [repeat constructor|].
  cbn [verify_loop]. rewrite bind_Ok. pose proof (verify_loop_spec pb 0 e l Hin) as H.
  destruct (verify_loop pb 1 (Some e) l) as [[]|o|]; [done| |done]. split; [|done].
  by eapply reports_not_sorted.
Qed.

(** Strictly sorted is sorted without duplicates. *)
Lemma sorted_nodup l : StronglySorted (λ a b, key_cmp a b ≠ Gt) l → NoDup l → StronglySorted key_lt l.
Proof.
  induction 1 as [|x l Hs IH Hx]; intros Hnd; [constructor|]. apply NoDup_cons in Hnd as [Hni Hnd].
  constructor; [by apply IH|]. rewrite Forall_forall in *. intros y Hy. specialize (Hx y Hy).
  unfold key_lt. destruct (key_cmp x y) eqn:E; [|done..]. apply key_cmp_eq in E as ->. done.
Qed.
Lemma in_backing_app pb p e : in_backing pb e → in_backing (pb ++ p) e ∧ item_of (pb ++ p) e = item_of pb e.
Proof.
  intros [H1 H2]. split; [split; [done|]; rewrite length_app; lia|]. unfold item_of. f_equal.
  rewrite drop_app_le by lia. rewrite take_app_le by (rewrite length_drop; lia). done.
Qed.

(** [dangerously_push_entry] may break the order; [sort_entries] restores
    it.  If the new entry's path and stage are not in the index yet then the
    sorted entries are the old ones and the new one, are in order, and
    [verify_entries] accepts them; the paths of all old entries are kept, as the
    path storage only grows. *)
Theorem push_sort_correct es pb st i f m p :
  Forall (in_backing pb) es → NoDup (key pb <$> es) → (p, stage_raw f) ∉ (key pb <$> es) →
  let '(es1, pb1) := dangerously_push_entry es pb st i f m p in
  ∃ es2, sort_entries es1 pb1 = Ok es2 ∧ Forall (in_backing pb1) es2 ∧ in_order pb1 es2 ∧
    verify_entries es2 pb1 = Ok tt ∧
    items_of pb1 es2 ≡ₚ mkItem st i f m p :: items_of pb es.
Proof.
  intros Hin Hnd Hni. unfold dangerously_push_entry.
  set (new := mkEntry st i f m (length pb, (length pb + length p)%nat)).
  assert (Hnew : in_backing (pb ++ p) new ∧ item_of (pb ++ p) new = mkItem st i f m p).
  { split; [split; cbn; [lia|rewrite length_app; lia]|]. unfold item_of, new.
    cbn [stat id flags mode path fst snd]. f_equal. rewrite drop_app_length.
    rewrite firstn_all2 by lia. done. }
  assert (Hold : Forall (λ e, in_backing (pb ++ p) e ∧ item_of (pb ++ p) e = item_of pb e) es).
  { eapply Forall_impl; [exact Hin|]. intros e. apply in_backing_app. }
  assert (Hin1 : Forall (in_backing (pb ++ p)) (es ++ [new])).
  { apply Forall_app. split; [|constructor; [by destruct Hnew|constructor]].
    eapply Forall_impl; [exact Hold|]. by intros ? []. }
  assert (Hitems : items_of (pb ++ p) es = items_of pb es).
  { unfold items_of. apply list_fmap_ext. intros k e He. eapply Forall_lookup_1 in Hold; [|done].
    by destruct Hold. }
  destruct (sort_entries_spec (es ++ [new]) (pb ++ p) Hin1) as (es2 & -> & Hperm & Hs).
  assert (Hin2 : Forall (in_backing (pb ++ p)) es2) by (by rewrite Hperm).
  assert (Hkeys : key (pb ++ p) <$> es = key pb <$> es).
  { apply list_fmap_ext. intros k e He. eapply Forall_lookup_1 in Hold as [_ Hi]; [|done].
    unfold key, epath. by rewrite Hi. }
  assert (Hord : in_order (pb ++ p) es2).
  { apply sorted_nodup; [done|]. rewrite Hperm, fmap_app, Hkeys. apply NoDup_app. split_and!; [done| |].
    - intros k Hk Hk'. apply list_elem_of_singleton in Hk' as ->. apply Hni.
      unfold key in Hk. unfold epath in Hk. by rewrite (proj2 Hnew) in Hk.
    - apply NoDup_singleton. }
  exists es2. split_and!; [done|done|done|by apply verify_in_order|].
  unfold items_of. rewrite Hperm, fmap_app. cbn. rewrite (proj2 Hnew). fold (items_of (pb ++ p) es).
  rewrite Hitems. by rewrite Permutation_app_comm.
Qed.

(** ** Examples *)

(** An index with a conflict: [a-x], [a/b] at stages 1 and 2, [c]. *)
Definition conflict_paths : bytes := bs "a-xa/bc".
Definition conflict_entry (stage start end_ : nat) : Entry :=
  mkEntry example_stat example_id (Z.shiftl (Z.of_nat stage) 12) Mode.FILE (start, end_).
Definition conflict_index : list Entry :=
  [conflict_entry 0 0 3; conflict_entry 1 3 6; conflict_entry 2 3 6; conflict_entry 0 6 7].
Lemma conflict_in_backing : Forall (in_backing conflict_paths) conflict_index.
Proof. repeat constructor; cbn; lia. Qed.
Lemma conflict_in_order : in_order conflict_paths conflict_index.
Proof. repeat constructor. Qed.

Lemma entry_index_by_path_and_stage_correct_witness :
  entry_index_by_path_and_stage conflict_index conflict_paths (bs "a/b") Ours = Ok (Some 2%nat).
Proof.
  destruct (entry_index_by_path_and_stage_correct conflict_index conflict_paths
    conflict_in_backing conflict_in_order (bs "a/b") Ours) as (r & -> & Hr).
  f_equal. apply Hr. exists (conflict_entry 2 3 6). split; reflexivity.
Defined.

Lemma entry_range_correct_witness :
  ∃ r, entry_range conflict_index conflict_paths (bs "a/b") = Ok r ∧
    range_of conflict_index (λ e, epath conflict_paths e = bs "a/b") r ∧ r = Some (1%nat, 3%nat).
Proof.
  destruct (entry_range_correct conflict_index conflict_paths
    conflict_in_backing conflict_in_order (bs "a/b")) as (r & H & Hr).
  exists r. split; [exact H|]. split; [exact Hr|]. vm_compute in H. congruence.
Defined.

Lemma prefixed_entries_range_correct_witness :
  ∃ r, prefixed_entries_range conflict_index conflict_paths (bs "a/") = Ok r ∧
    range_of conflict_index (λ e, bs "a/" `prefix_of` epath conflict_paths e) r ∧ r = Some (1%nat, 3%nat).
Proof.
  destruct (prefixed_entries_range_correct conflict_index conflict_paths
    conflict_in_backing conflict_in_order (bs "a/")) as (r & H & Hr); [discriminate|].
  exists r. split; [exact H|]. split; [exact Hr|]. vm_compute in H. congruence.
Defined.

Lemma entry_closest_to_directory_correct_witness :
  entry_closest_to_directory conflict_index conflict_paths (bs "a") = Ok (Some (conflict_entry 1 3 6)).
Proof.
  rewrite (entry_closest_to_directory_correct conflict_index conflict_paths
    conflict_in_backing conflict_in_order). vm_compute. reflexivity.
Defined.

Lemma verify_entries_correct_witness :
  verify_entries conflict_index conflict_paths = Ok tt ∧ in_order conflict_paths conflict_index ∧
  ¬ in_order conflict_paths (reverse conflict_index).
Proof.
  split; [reflexivity|]. split.
  - exact (verify_entries_correct conflict_index conflict_paths conflict_in_backing).
  - assert (Hin : Forall (in_backing conflict_paths) (reverse conflict_index))
      by (repeat constructor; cbn; lia).
    exact (proj1 (verify_entries_correct (reverse conflict_index) conflict_paths Hin)).
Defined.

Lemma push_sort_correct_witness :
  ∃ es2, sort_entries
      (dangerously_push_entry conflict_index conflict_paths example_stat example_id 0 Mode.FILE (bs "b")).1
      (conflict_paths ++ bs "b") = Ok es2 ∧
    in_order (conflict_paths ++ bs "b") es2 ∧ verify_entries es2 (conflict_paths ++ bs "b") = Ok tt.
Proof.
  destruct (push_sort_correct conflict_index conflict_paths example_stat example_id 0 Mode.FILE (bs "b"))
    as (es2 & Hs & _ & Ho & Hv & _).
  - exact conflict_in_backing.
  - by_decision.
  - by_decision.
  - exists es2. split; [exact Hs|]. split; [exact Ho|exact Hv].
Defined.
