(* ===== verification/ObjectTree.v ===== *)
(** * Trees and loose object headers: the crate [gix-object]

    Models [tree/mod.rs] (modes, the order of entries), [tree/ref_iter.rs]
    (reading trees, searching them), [tree/write.rs] (writing them), [kind.rs]
    and the loose object headers of [lib.rs] and [encode.rs].

    A borrowed entry ([EntryRef]) and an owned one ([Entry]) are the same
    record here; an [EntryMode] is the number it wraps. *)

From S2P Require Import Prelude Slices External Hash PackEntry Btoi.
Import PackEntry.Entry.

(** ** Kinds of objects: [kind.rs] *)

Inductive KindError := InvalidObjectKind (kind : bytes).
Definition kind_from_bytes (s : bytes) : res KindError Kind :=
  if bool_decide (s = bs "tree") then Ok KTree
  else if bool_decide (s = bs "blob") then Ok KBlob
  else if bool_decide (s = bs "commit") then Ok KCommit
  else if bool_decide (s = bs "tag") then Ok KTag
  else Err (InvalidObjectKind s).
Definition kind_as_bytes (k : Kind) : bytes :=
  match k with KTree => bs "tree" | KCommit => bs "commit" | KBlob => bs "blob" | KTag => bs "tag" end.

(** ** Modes: [tree/mod.rs] *)

Inductive EntryKind := EKTree | EKBlob | EKBlobExecutable | EKLink | EKCommit.
#[global] Instance EntryKind_eq_dec : EqDecision EntryKind.
Proof. solve_decision. Defined.
(** The discriminants, which are the conversion to [EntryMode]. *)
Definition kind_mode (k : EntryKind) : Z :=
  match k with
  | EKTree => 16384              (* 0o040000 *)
  | EKBlob => 33188              (* 0o100644 *)
  | EKBlobExecutable => 33261    (* 0o100755 *)
  | EKLink => 40960              (* 0o120000 *)
  | EKCommit => 57344            (* 0o160000 *)
  end.
Definition as_octal_str (k : EntryKind) : bytes :=
  match k with
  | EKTree => bs "40000"
  | EKBlob => bs "100644"
  | EKBlobExecutable => bs "100755"
  | EKLink => bs "120000"
  | EKCommit => bs "160000"
  end.

Definition IFMT : Z := 61440.    (* 0o170000 *)
Definition mode_kind (m : Z) : EntryKind :=
  let etype := Z.land m IFMT in
  if etype =? 32768 then
    if Z.land m 64 =? 64 then EKBlobExecutable else EKBlob
  else if etype =? kind_mode EKLink then EKLink
  else if etype =? kind_mode EKTree then EKTree
  else EKCommit.
Definition is_tree (m : Z) : bool := Z.land m IFMT =? kind_mode EKTree.
Definition is_commit (m : Z) : bool := Z.land m IFMT =? kind_mode EKCommit.
Definition is_link (m : Z) : bool := Z.land m IFMT =? kind_mode EKLink.
Definition is_no_tree (m : Z) : bool := negb (Z.land m IFMT =? kind_mode EKTree).
Definition is_blob (m : Z) : bool := Z.land m IFMT =? 32768.
Definition is_executable (m : Z) : bool := bool_decide (mode_kind m = EKBlobExecutable).
Definition is_blob_or_symlink (m : Z) : bool :=
  match mode_kind m with EKBlob | EKBlobExecutable | EKLink => true | _ => false end.
Definition mode_as_str (m : Z) : bytes :=
  match mode_kind m with
  | EKTree => bs "tree"
  | EKBlob => bs "blob"
  | EKBlobExecutable => bs "exe"
  | EKLink => bs "link"
  | EKCommit => bs "commit"
  end.

(** The loop of [EntryMode::as_bytes]: the digits from the lowest on, written
    to a buffer of six bytes.  A [u16] has at most six. *)
Fixpoint octal_digits (fuel : nat) (n : Z) (backing : bytes) : res Empty_set bytes :=
  match fuel with
  | O => Panic
  | S fuel =>
      if 0 <? n then
        _ ← assert_ (length backing <? 6)%nat;
        octal_digits fuel (n / 8) (backing ++ [ch "0" + n mod 8])
      else Ok backing
  end.
Definition as_bytes (m : Z) : res Empty_set bytes :=
  if m =? 0 then Ok [ch "0"] else res ← octal_digits 7 m []; Ok (reverse res).

(** ** Entries and their order *)

Record Entry := mkEntry { mode : Z; filename : bytes; oid : ObjectId }.
#[global] Instance tree_entry_eq_dec : EqDecision Entry.
Proof. solve_decision. Defined.

(** [Option<&u8>::cmp]. *)
Definition option_cmp (a b : option Z) : comparison :=
  match a, b with
  | None, None => Eq
  | None, Some _ => Lt
  | Some _, None => Gt
  | Some x, Some y => x ?= y
  end.
(** [filename.get(common).or_else(|| mode.is_tree().then_some(&b'/'))]. *)
Definition next_byte (name : bytes) (tree : bool) (common : nat) : option Z :=
  match name !! common with
  | Some b => Some b
  | None => if tree then Some (ch "/") else None
  end.
(** The comparison of [Ord for Entry], on names and on whether they are
    trees. *)
Definition cmp_names (a : bytes) (a_tree : bool) (b : bytes) (b_tree : bool) : comparison :=
  let common := (length a `min` length b)%nat in
  ord_then (bytes_cmp (take common a) (take common b))
    (option_cmp (next_byte a a_tree common) (next_byte b b_tree common)).
Definition tree_entry_cmp (a b : Entry) : comparison :=
  cmp_names (filename a) (is_tree (mode a)) (filename b) (is_tree (mode b)).

(** ** Reading: [tree/ref_iter.rs] *)

(** The loop of [mode_from_decimal]: the mode and [spacer_pos]. *)
Fixpoint mode_loop (i : bytes) (mode : Z) (spacer_pos : nat) : option (Z * nat) :=
  match i with
  | [] => Some (mode, spacer_pos)
  | b :: i =>
      if b =? ch " " then Some (mode, spacer_pos)
      else if (b <? ch "0") || (ch "7" <? b) then None
      else mode_loop i (wrap 32 (Z.shiftl mode 3) + (b - ch "0")) (S spacer_pos)
  end.
Definition mode_from_decimal (i : bytes) : option (Z * bytes) :=
  '(mode, spacer_pos) ← mode_loop i 0 1;
  if (length i <? spacer_pos)%nat then None else Some (mode, drop spacer_pos i).
(** [EntryMode::try_from(&[u8])]. *)
Definition mode_try_from_bytes (m : bytes) : res bytes Z :=
  match mode_from_decimal m with Some (v, _) => Ok (wrap 16 v) | None => Err m end.
(** [EntryMode::try_from(u32)]. *)
Definition mode_try_from (m : Z) : res Z Z :=
  if (m =? kind_mode EKTree) || (m =? kind_mode EKLink) || (m =? kind_mode EKCommit) then Ok (wrap 16 m)
  else if Z.land m 32768 =? 32768 then Ok (wrap 16 m)
  else Err m.

Section Trees.
Context `{!bstr.Api}.

(** [decode::fast_entry]. *)
Definition fast_entry (i : bytes) : res unit (bytes * Entry) :=
  '(mode, i) ← ok_or (mode_from_decimal i) tt;
  mode ← map_err (λ _, tt) (mode_try_from mode);
  pos ← ok_or (bstr.find_byte i 0) tt;
  '(filename, i) ← split_at i pos;
  i ← slice_from i 1;
  if (length i <? 20)%nat then Err tt
  else
    '(oid, i) ← split_at i 20;
    oid ← from_bytes_or_panic oid;
    Ok (i, mkEntry mode filename oid).
(** [decode::tree]: every entry has bytes, so the length of the input bounds
    the rounds. *)
Fixpoint tree_loop (fuel : nat) (i : bytes) (out : list Entry) : res unit (list Entry) :=
  if bool_decide (i = []) then Ok out
  else
    match fuel with
    | O => Panic
    | S fuel => '(rest, entry) ← fast_entry i; tree_loop fuel rest (out ++ [entry])
    end.
Definition tree_from_bytes (data : bytes) : res unit (list Entry) := tree_loop (length data) data [].

(** [TreeRefIter::next]: the data is the state; behind an error there is
    nothing. *)
Definition iter_next (data : bytes) : res Empty_set (option (res unit Entry) * bytes) :=
  if bool_decide (data = []) then Ok (None, data)
  else
    match fast_entry data with
    | Ok (data_left, entry) => Ok (Some (Ok entry), data_left)
    | Err _ => Ok (Some (Err tt), [])
    | Panic => Panic
    end.
(** [TreeRefIter::entries]: collecting stops at the first error. *)
Fixpoint iter_entries (fuel : nat) (data : bytes) : res unit (list Entry) :=
  match fuel with
  | O => Panic
  | S fuel =>
      '(item, data) ← lift (iter_next data);
      match item with
      | None => Ok []
      | Some (Ok e) => l ← iter_entries fuel data; Ok (e :: l)
      | Some (Err e) => Err e
      | Some Panic => Panic
      end
  end.

(** [TreeRef::bisect_entry]. *)
Definition bisect_entry (entries : list Entry) (name : bytes) (is_dir : bool)
  : res Empty_set (option Entry) :=
  let search := mkEntry (kind_mode (if is_dir then EKTree else EKBlob)) name (null shortest) in
  '(_, r) ← binary_search_by (λ _ e, Ok (tt, tree_entry_cmp e search)) entries tt;
  match r with
  | inl idx => Some <$> expect (entries !! idx)
  | inr _ => Ok None
  end.

(** ** Writing: [tree/write.rs] *)

Inductive TreeWriteError := NullbyteInFilename (name : bytes).
Fixpoint tree_write_to (entries : list Entry) : res TreeWriteError bytes :=
  match entries with
  | [] => Ok []
  | e :: entries =>
      m ← lift (as_bytes (mode e));
      match bstr.find_byte (filename e) 0 with
      | Some _ => Err (NullbyteInFilename (filename e))
      | None =>
          rest ← tree_write_to entries;
          Ok (m ++ [ch " "] ++ filename e ++ [0] ++ as_slice (oid e) ++ rest)
      end
  end.
Fixpoint tree_size (entries : list Entry) : res Empty_set Z :=
  match entries with
  | [] => Ok 0
  | e :: entries =>
      m ← as_bytes (mode e);
      n ← tree_size entries;
      Ok (wrap 64 (Z.of_nat (length m + 1 + length (filename e) + 1 + length (as_slice (oid e))) + n))
  end.

(** ** Loose object headers: [encode.rs], [lib.rs] *)

Context `{!itoa.Api}.
Definition loose_header (k : Kind) (size : Z) : bytes :=
  kind_as_bytes k ++ [ch " "] ++ itoa.format size ++ [0].

Inductive LooseHeaderDecodeError :=
| ParseIntegerError (source : ErrorKind) (message number : bytes)
| InvalidHeader (message : bytes)
| ObjectHeader (e : KindError).
(** [decode::loose_header]: the kind, the size and the length of the header. *)
Definition loose_header_decode (input : bytes) : res LooseHeaderDecodeError (Kind * Z * nat) :=
  kind_end ← ok_or (bstr.find_byte input 32) (InvalidHeader (bs "Expected '<type> <size>'"));
  kind ← slice_to input kind_end;
  kind ← map_err ObjectHeader (kind_from_bytes kind);
  size_end ← ok_or (bstr.find_byte input 0) (InvalidHeader (bs "Did not find 0 byte in header"));
  size_bytes ← slice input (kind_end + 1) size_end;
  size ← map_err (λ e, ParseIntegerError e (bs "Object size in header could not be parsed") size_bytes)
           (@to_signed int_u64 size_bytes);
  Ok (kind, size, (size_end + 1)%nat).

(** [compute_hash], with the hasher for SHA-1 as a parameter. *)
Definition compute_hash (sha1 : bytes → bytes) (k : Kind) (data : bytes) : ObjectId :=
  Sha1 (sha1 (loose_header k (Z.of_nat (length data)) ++ data)).
End Trees.

(** ** Specification *)

(** The modes of trees: in octal 40000, which is a directory, and those of six
    digits from 100000 to 177777, which are files with any permissions (100644,
    100664, 100755), symbolic links (120000) and submodules (160000). *)
Definition readable_mode (m : Z) : Prop := m = 0x4000 ∨ 0x8000 ≤ m < 0x10000.
Definition wf_tree_entry (e : Entry) : Prop :=
  readable_mode (mode e) ∧ 0 ∉ filename e ∧ wf_id (oid e).

(** What entries are sorted by: a tree sorts as if its name ended in a slash. *)
Definition sort_key (name : bytes) (tree : bool) : bytes := name ++ (if tree then [ch "/"] else []).
Definition tkey (e : Entry) : bytes := sort_key (filename e) (is_tree (mode e)).
Definition no_slash (name : bytes) : Prop := ch "/" ∉ name.
(** Entries in the order of trees, with names that do not contain a slash. *)
Definition sorted_tree (es : list Entry) : Prop :=
  StronglySorted bytes_lt (tkey <$> es) ∧ Forall (λ e, no_slash (filename e)) es.

(** ** Lemmas *)

(** *** Modes *)

Definition is_octal (c : Z) : Prop := ch "0" ≤ c ≤ ch "7".
Definition octal_step (v c : Z) : Z := wrap 32 (Z.shiftl v 3) + (c - ch "0").
Lemma octal_digits_S fuel n backing :
  octal_digits (S fuel) n backing =
  if 0 <? n then
    _ ← assert_ (length backing <? 6)%nat; octal_digits fuel (n / 8) (backing ++ [ch "0" + n mod 8])
  else Ok backing.
Proof. done. Qed.
Lemma octal_digits_spec k n backing :
  0 ≤ n < 8 ^ Z.of_nat k → (length backing + k ≤ 6)%nat →
  ∃ ds, octal_digits (S k) n backing = Ok (backing ++ ds) ∧ Forall is_octal ds ∧
    (length ds ≤ k)%nat ∧ foldl octal_step 0 (reverse ds) = n.
Proof.
  revert n backing. induction k as [|k IH]; intros n backing Hn Hb; rewrite octal_digits_S.
  - assert (n = 0) as -> by lia. exists []. rewrite app_nil_r. by split_and!.
  - destruct (Z.ltb_spec 0 n) as [Hpos|Hz].
    2:{ assert (n = 0) as -> by lia. exists []. rewrite app_nil_r. split_and!; [done|done|cbn; lia|done]. }
    rewrite (proj2 (Nat.ltb_lt (length backing) 6)) by lia. cbn [assert_]. rewrite bind_Ok.
    assert (Hk : 8 ^ Z.of_nat (S k) = 8 * 8 ^ Z.of_nat k) by (rewrite Nat2Z.inj_succ, Z.pow_succ_r; lia).
    assert (Hle : 8 ^ Z.of_nat k ≤ 8 ^ 5) by (apply Z.pow_le_mono_r; lia).
    change (8 ^ 5) with 32768 in Hle.
    pose proof (Z.mod_pos_bound n 8 ltac:(lia)) as Hm. pose proof (Z.div_mod n 8 ltac:(lia)) as Hdm.
    destruct (IH (n / 8) (backing ++ [ch "0" + n mod 8])) as (ds & -> & Hds & Hlen & Hv).
    { split; [apply Z.div_pos; lia|]. apply Z.div_lt_upper_bound; lia. }
    { rewrite length_app. cbn. lia. }
    exists ((ch "0" + n mod 8) :: ds). rewrite <- app_assoc. split_and!; [done| |cbn; lia|].
    + constructor; [unfold is_octal; lia|done].
    + rewrite reverse_cons, foldl_app, Hv. cbn. unfold octal_step.
      rewrite Z.shiftl_mul_pow2 by lia. change (2 ^ 3) with 8. rewrite wrap_small; lia.
Qed.
Lemma as_bytes_spec m : 0 ≤ m < 2 ^ 16 →
  ∃ ds, as_bytes m = Ok ds ∧ Forall is_octal ds ∧ (1 ≤ length ds ≤ 6)%nat ∧ foldl octal_step 0 ds = m.
Proof.
  intros Hm. unfold as_bytes. destruct (Z.eqb_spec m 0) as [->|Hne].
  { exists [ch "0"]. split_and!; [done| |cbn; lia|cbn; lia|done]. by repeat constructor. }
  destruct (octal_digits_spec 6 m []) as (ds & Hd & Hds & Hlen & Hv); [lia|cbn; lia|].
  change (octal_digits 7 m [] = Ok ds) in Hd. rewrite Hd, bind_Ok. exists (reverse ds).
  split_and!; [done|by apply Forall_reverse| |by rewrite length_reverse|done].
  rewrite length_reverse. destruct ds; [cbn in Hv; lia|cbn; lia].
Qed.
Lemma mode_loop_spec ds rest v k : Forall is_octal ds →
  mode_loop (ds ++ ch " " :: rest) v k = Some (foldl octal_step v ds, (k + length ds)%nat).
Proof.
  intros Hds. revert v k. induction Hds as [|c ds Hc _ IH]; intros v k; cbn [app mode_loop foldl length].
  - by rewrite Nat.add_0_r.
  - unfold is_octal in Hc. destruct (Z.eqb_spec c (ch " ")); [lia|].
    destruct (Z.ltb_spec c (ch "0")); [lia|]. destruct (Z.ltb_spec (ch "7") c); [lia|]. cbn [orb].
    rewrite IH. by rewrite Nat.add_succ_comm.
Qed.
Lemma mode_from_decimal_spec ds rest : Forall is_octal ds →
  mode_from_decimal (ds ++ ch " " :: rest) = Some (foldl octal_step 0 ds, rest).
Proof.
  intros Hds. unfold mode_from_decimal. rewrite mode_loop_spec by done. cbn [mbind option_bind].
  rewrite length_app. cbn [length]. destruct (Nat.ltb_spec (length ds + S (length rest)) (1 + length ds)); [lia|].
  do 2 f_equal. replace (1 + length ds)%nat with (length (ds ++ [ch " "])) by (rewrite length_app; cbn; lia).
  change (ds ++ ch " " :: rest) with (ds ++ [ch " "] ++ rest). rewrite app_assoc. apply drop_app_length.
Qed.

(** *** One entry and all entries *)

Definition entry_text (e : Entry) (m : bytes) : bytes :=
  m ++ [ch " "] ++ filename e ++ [0] ++ as_slice (oid e).

Section Entries.
Context {BA : bstr.Api} {BL : bstr.Laws}.

Lemma find_nul_none s : 0 ∉ s → bstr.find_byte s 0 = None.
Proof.
  intros Hs. rewrite bstr.find_byte_spec. apply find_index_None, Forall_forall.
  intros x Hx. apply Z.eqb_neq. intros <-. done.
Qed.
Lemma find_nul_app s rest : 0 ∉ s → bstr.find_byte (s ++ 0 :: rest) 0 = Some (length s).
Proof.
  intros Hs. rewrite bstr.find_byte_spec. apply find_index_app; [|done].
  apply Forall_forall. intros x Hx. apply Z.eqb_neq. intros <-. done.
Qed.

(** They are those that a mode is read as. *)
Lemma readable_mode_iff m : readable_mode m ↔ 0 ≤ m < 2 ^ 16 ∧ mode_try_from m = Ok m.
Proof.
  unfold readable_mode, mode_try_from. change (kind_mode EKTree) with 0x4000. change (kind_mode EKLink) with 0xA000.
  change (kind_mode EKCommit) with 0xE000. split.
  - intros Hm. assert (Hr : 0 ≤ m < 2 ^ 16) by lia. split; [done|]. rewrite wrap_small by done.
    destruct Hm as [->|Hm]; [done|]. destruct (_ || _ || _); [done|].
    assert (Z.land m 32768 = 32768) as ->; [|done].
    assert (Hbit : Z.testbit m 15 = true).
    { apply Z.testbit_true; [lia|]. assert (m / 2 ^ 15 = 1) as ->; [|done].
      symmetry. apply (Z.div_unique m (2 ^ 15) 1 (m - 2 ^ 15)); lia. }
    change 32768 with (2 ^ 15). apply Z.bits_inj'. intros n Hn. rewrite Z.land_spec, Z.pow2_bits_eqb by lia.
    destruct (Z.eqb_spec 15 n) as [<-|]; [by rewrite Hbit|by rewrite andb_false_r].
  - intros [Hr Hm]. destruct (_ || _ || _) eqn:E; [bool_simpl; lia|].
    destruct (Z.eqb_spec (Z.land m 32768) 32768) as [Hl|]; [|done]. right. split; [|lia].
    apply (f_equal (λ z, Z.testbit z 15)) in Hl. rewrite Z.land_spec in Hl. apply andb_true_iff in Hl as [Hl _].
    apply Z.testbit_true in Hl; [|lia]. destruct (Z.le_gt_cases 0x8000 m); [done|].
    rewrite Z.div_small in Hl by lia. done.
Qed.

Lemma fast_entry_text e m rest :
  wf_tree_entry e → as_bytes (mode e) = Ok m → fast_entry (entry_text e m ++ rest) = Ok (rest, e).
Proof.
  intros ((Hm & Htry)%readable_mode_iff & Hname & [Hlen _]) Has. unfold fast_entry, entry_text.
  destruct (as_bytes_spec (mode e) Hm) as (ds & Hd & Hds & _ & Hv).
  assert (ds = m) as -> by congruence. rewrite <- !app_assoc. cbn [app].
  rewrite mode_from_decimal_spec by done. cbn [ok_or]. rewrite bind_Ok, Hv, Htry. cbn [map_err]. rewrite bind_Ok.
  rewrite find_nul_app by done. cbn [ok_or]. rewrite bind_Ok, split_at_app, bind_Ok by done.
  rewrite slice_from_le by (cbn; lia). rewrite bind_Ok. cbn [drop]. rewrite drop_0.
  destruct (Nat.ltb_spec (length (as_slice (oid e) ++ rest)) 20) as [Hl|_]; [rewrite length_app in Hl; lia|].
  rewrite split_at_app, bind_Ok by done. unfold from_bytes_or_panic. rewrite Hlen. cbn.
  by destruct e as [? ? [d]].
Qed.
Lemma fast_entry_shorter i rest e : fast_entry i = Ok (rest, e) → (length rest < length i)%nat.
Proof.
  unfold fast_entry. intros Hr.
  destruct (mode_from_decimal i) as [[m i1]|] eqn:E1; [|done]. cbn [ok_or] in Hr. rewrite bind_Ok in Hr.
  destruct (mode_try_from m) as [m'| |]; [|done..]. cbn [map_err] in Hr. rewrite bind_Ok in Hr.
  destruct (bstr.find_byte i1 0) as [pos|]; [|done]. cbn [ok_or] in Hr. rewrite bind_Ok in Hr.
  unfold split_at in Hr. destruct (Nat.leb_spec pos (length i1)); [|done]. rewrite bind_Ok in Hr.
  unfold slice_from, get_from in Hr. destruct (Nat.leb_spec 1 (length (drop pos i1))) as [Hd|]; [|done].
  cbn [expect] in Hr. rewrite bind_Ok in Hr. destruct (Nat.ltb_spec (length (drop 1 (drop pos i1))) 20); [done|].
  destruct (Nat.leb_spec 20 (length (drop 1 (drop pos i1)))); [|done]. rewrite bind_Ok in Hr.
  unfold from_bytes_or_panic in Hr. destruct (_ =? 20)%nat; [|done]. rewrite bind_Ok in Hr. simplify_eq.
  unfold mode_from_decimal in E1. destruct (mode_loop i 0 1) as [[v k]|]; [|done]. cbn [mbind option_bind] in E1.
  destruct (Nat.ltb_spec (length i) k); [done|]. simplify_eq.
  rewrite !length_drop in *. lia.
Qed.
Lemma tree_loop_more fuel i out : (length i ≤ fuel)%nat → tree_loop fuel i out = tree_loop (length i) i out.
Proof.
  remember (length i) as n eqn:Hn. revert fuel i out Hn.
  induction n as [n IH] using lt_wf_ind. intros fuel i out -> Hf.
  destruct i as [|b i]; [by destruct fuel|]. destruct fuel as [|fuel]; [cbn in Hf; lia|].
  cbn [length tree_loop]. rewrite bool_decide_eq_false_2 by done.
  destruct (fast_entry (b :: i)) as [[rest e]|err|] eqn:E; [|done..]. rewrite !bind_Ok.
  apply fast_entry_shorter in E. cbn [length] in *.
  rewrite (IH (length rest)) by (first [done|lia]). symmetry. by rewrite (IH (length rest)) by (first [done|lia]).
Qed.
Lemma tree_from_bytes_cons i rest e : fast_entry i = Ok (rest, e) →
  ∀ out, tree_loop (length i) i out = tree_loop (length rest) rest (out ++ [e]).
Proof.
  intros E out. pose proof (fast_entry_shorter _ _ _ E) as Hl. destruct i as [|b i]; [cbn in Hl; lia|].
  cbn [length tree_loop]. rewrite bool_decide_eq_false_2 by done. rewrite E, bind_Ok.
  apply tree_loop_more. cbn in Hl. lia.
Qed.
Lemma iter_entries_cons fuel i rest e : fast_entry i = Ok (rest, e) → i ≠ [] →
  iter_entries (S fuel) i = cons e <$> iter_entries fuel rest.
Proof.
  intros E Hi. cbn [iter_entries]. unfold iter_next. rewrite bool_decide_eq_false_2 by done. rewrite E.
  cbn [lift]. rewrite bind_Ok. by destruct (iter_entries fuel rest).
Qed.
End Entries.

Section Theorems.
Context {BA : bstr.Api} {BL : bstr.Laws}.

(** The entries as text. *)
Fixpoint tree_text (es : list Entry) : bytes :=
  match es with
  | [] => []
  | e :: es => (match as_bytes (mode e) with Ok m => entry_text e m | _ => [] end) ++ tree_text es
  end.
Lemma tree_write_text es : Forall (λ e, 0 ≤ mode e < 2 ^ 16 ∧ 0 ∉ filename e) es →
  tree_write_to es = Ok (tree_text es).
Proof.
  induction 1 as [|e es [Hm Hn] _ IH]; [done|]. cbn [tree_write_to tree_text].
  destruct (as_bytes_spec _ Hm) as (ds & -> & _). cbn [lift]. rewrite bind_Ok, find_nul_none by done.
  rewrite IH, bind_Ok. unfold entry_text. by rewrite <- !app_assoc.
Qed.
Lemma tree_size_text es : Forall (λ e, 0 ≤ mode e < 2 ^ 16 ∧ 0 ∉ filename e) es →
  Z.of_nat (length (tree_text es)) < 2 ^ 64 → tree_size es = Ok (Z.of_nat (length (tree_text es))).
Proof.
  induction 1 as [|e es [Hm Hn] _ IH]; intros Hl; [done|]. cbn [tree_size tree_text] in *.
  destruct (as_bytes_spec _ Hm) as (ds & Hd & _). rewrite Hd in *. rewrite bind_Ok.
  unfold entry_text in *. rewrite !length_app in *. cbn [length] in *.
  rewrite IH, bind_Ok by lia. rewrite wrap_small by lia. f_equal. lia.
Qed.
Lemma tree_read_text es : Forall wf_tree_entry es →
  (∀ out, tree_loop (length (tree_text es)) (tree_text es) out = Ok (out ++ es)) ∧
  ∀ fuel, (length es < fuel)%nat → iter_entries fuel (tree_text es) = Ok es.
Proof.
  induction 1 as [|e es He _ [IH1 IH2]]; cbn [tree_text].
  { split; [intros out; cbn; by rewrite app_nil_r|]. intros [|fuel] Hf; [lia|done]. }
  destruct (as_bytes_spec (mode e)) as (ds & Hd & Hds & Hlen & _); [by apply readable_mode_iff, He|]. rewrite Hd.
  pose proof (fast_entry_text e ds (tree_text es) He Hd) as Hfe. split.
  - intros out. rewrite (tree_from_bytes_cons _ _ _ Hfe), IH1. by rewrite <- app_assoc.
  - intros [|fuel] Hf; [cbn in Hf; lia|]. rewrite (iter_entries_cons _ _ _ _ Hfe).
    + rewrite IH2 by (cbn in Hf; lia). done.
    + intros Hnil. apply (f_equal length) in Hnil. unfold entry_text in Hnil. rewrite !length_app in Hnil. cbn in Hnil. lia.
Qed.
Lemma tree_text_length es : Forall wf_tree_entry es → (length es ≤ length (tree_text es))%nat.
Proof.
  induction 1 as [|e es He _ IH]; [done|]. cbn [tree_text].
  destruct (as_bytes_spec (mode e)) as (ds & -> & _ & Hlen & _); [by apply readable_mode_iff, He|].
  unfold entry_text. rewrite !length_app. cbn [length]. lia.
Qed.


Lemma find_nul_inv i pos : bstr.find_byte i 0 = Some pos → (pos < length i)%nat ∧ 0 ∉ take pos i.
Proof.
  rewrite bstr.find_byte_spec. intros Hf. apply find_index_split in Hf as (x & Hi & _ & Hl & Hpos).
  split.
  - apply (f_equal length) in Hi. rewrite length_app, Hpos in Hi. cbn in Hi. lia.
  - intros Hin. rewrite Forall_forall in Hl. by specialize (Hl 0 Hin).
Qed.
Lemma mode_loop_range i v k v' k' : 0 ≤ v < 2 ^ 32 → is_bytes i → mode_loop i v k = Some (v', k') → 0 ≤ v' < 2 ^ 32.
Proof.
  revert v k. induction i as [|b i IH]; intros v k Hv Hb H; cbn [mode_loop] in H; [by simplify_eq|].
  destruct (b =? ch " "); [by simplify_eq|].
  destruct (Z.ltb_spec b (ch "0")); [done|]. destruct (Z.ltb_spec (ch "7") b); [done|]. cbn [orb] in H.
  apply Forall_cons in Hb as [_ Hb]. eapply IH; [|done|exact H].
  unfold wrap. rewrite Z.shiftl_mul_pow2 by lia. change (2 ^ 3) with 8. change (2 ^ 32) with (8 * 2 ^ 29).
  rewrite Z.mul_comm, Z.mul_mod_distr_l by lia. pose proof (Z.mod_pos_bound v (2 ^ 29)). lia.
Qed.
Lemma mode_try_from_readable v m : 0 ≤ v → mode_try_from v = Ok m → readable_mode m.
Proof.
  intros Hv H. pose proof (wrap_range 16 v ltac:(lia)) as Hr.
  assert (Hm : m = wrap 16 v). { unfold mode_try_from in H. by repeat case_match; simplify_eq. }
  subst m. apply readable_mode_iff. split; [done|]. unfold mode_try_from in *. rewrite (wrap_small 16 (wrap 16 v)) by done.
  destruct ((v =? kind_mode EKTree) || (v =? kind_mode EKLink) || (v =? kind_mode EKCommit)) eqn:E.
  - assert (wrap 16 v = v) as ->. { apply wrap_small. bool_simpl. cbn in *. lia. } by rewrite E.
  - destruct (Z.eqb_spec (Z.land v 32768) 32768) as [E2|]; [|done].
    assert (Z.land (wrap 16 v) 32768 = 32768) as ->.
    { unfold wrap. rewrite <- Z.land_ones by lia. rewrite <- Z.land_assoc, (Z.land_comm (Z.ones 16)), Z.land_assoc, E2. done. }
    cbn. by repeat case_match.
Qed.
Lemma fast_entry_wf i rest e : is_bytes i → fast_entry i = Ok (rest, e) → wf_tree_entry e ∧ is_bytes rest.
Proof.
  intros Hb Hr. unfold fast_entry in Hr.
  destruct (mode_from_decimal i) as [[m i1]|] eqn:E1; [|done]. cbn [ok_or] in Hr. rewrite bind_Ok in Hr.
  destruct (mode_try_from m) as [m'| |] eqn:E2; [|done..]. cbn [map_err] in Hr. rewrite bind_Ok in Hr.
  destruct (bstr.find_byte i1 0) as [pos|] eqn:E3; [|done]. cbn [ok_or] in Hr. rewrite bind_Ok in Hr.
  apply find_nul_inv in E3 as [Hpos Hnul].
  rewrite split_at_le, bind_Ok, slice_from_le, bind_Ok in Hr by (rewrite ?length_drop; lia).
  destruct (Nat.ltb_spec (length (drop 1 (drop pos i1))) 20) as [|Hge]; [done|].
  rewrite split_at_le, bind_Ok in Hr by lia. unfold from_bytes_or_panic in Hr.
  rewrite length_take, Nat.min_l in Hr by lia. cbn [Nat.eqb] in Hr. rewrite bind_Ok in Hr. simplify_eq.
  unfold mode_from_decimal in E1. destruct (mode_loop i 0 1) as [[v k]|] eqn:E4; [|done].
  cbn [mbind option_bind] in E1. destruct (Nat.ltb_spec (length i) k); [done|]. simplify_eq.
  assert (Hd : is_bytes (drop 1 (drop pos (drop k i)))) by (by repeat apply Forall_drop).
  split; [|by apply Forall_drop]. split_and!; [|done|].
  - eapply mode_try_from_readable; [|exact E2]. eapply mode_loop_range in E4; [|lia|done]. lia.
  - split; [cbn [oid as_slice]; rewrite length_take; lia|by apply Forall_take].
Qed.

Lemma fast_entry_no_panic i : fast_entry i ≠ Panic.
Proof.
  unfold fast_entry. destruct (mode_from_decimal i) as [[m i1]|]; [|done]. cbn [ok_or]. rewrite bind_Ok.
  destruct (mode_try_from m) as [m'| |] eqn:E; [|done|unfold mode_try_from in E; by repeat case_match].
  cbn [map_err]. rewrite bind_Ok. destruct (bstr.find_byte i1 0) as [pos|] eqn:E3; [|done].
  cbn [ok_or]. rewrite bind_Ok. apply find_nul_inv in E3 as [Hpos _].
  rewrite split_at_le, bind_Ok, slice_from_le, bind_Ok by (rewrite ?length_drop; lia).
  destruct (Nat.ltb_spec (length (drop 1 (drop pos i1))) 20) as [|Hge]; [done|].
  rewrite split_at_le, bind_Ok by lia. unfold from_bytes_or_panic.
  by rewrite length_take, Nat.min_l by lia.
Qed.

(** Every entry of a tree that [TreeRef::from_bytes] accepts has a mode
    that fits its 16 bits and is accepted again, a name without null bytes and
    an id of 20 bytes, so the tree can be written and read back; no input is a
    panic. *)
Theorem tree_from_bytes_wf data : is_bytes data →
  match tree_from_bytes data with
  | Ok es => Forall wf_tree_entry es
  | Err _ => True
  | Panic => False
  end.
Proof.
  unfold tree_from_bytes. intros Hb.
  assert (Hgen : ∀ fuel i out, (length i ≤ fuel)%nat → is_bytes i → Forall wf_tree_entry out →
    match tree_loop fuel i out with Ok es => Forall wf_tree_entry es | Err _ => True | Panic => False end).
  { induction fuel as [|fuel IH]; intros i out Hf Hi Hout.
    { destruct i; [done|cbn in Hf; lia]. }
    cbn [tree_loop]. destruct i as [|b i]; [done|]. rewrite bool_decide_eq_false_2 by done.
    destruct (fast_entry (b :: i)) as [[rest e]|err|] eqn:E; [|done|].
    - rewrite bind_Ok. pose proof (fast_entry_shorter _ _ _ E) as Hs. apply fast_entry_wf in E as [He Hrest]; [|done].
      apply IH; [cbn in *; lia|done|]. apply Forall_app. split; [done|].
      constructor; [done|constructor].
    - by apply fast_entry_no_panic in E. }
  apply Hgen; [done|done|constructor].
Qed.
End Theorems.

(** *** The order of entries *)

Lemma cmp_names_key a ta b tb : no_slash a → no_slash b →
  cmp_names a ta b tb = bytes_cmp (sort_key a ta) (sort_key b tb).
Proof.
  unfold cmp_names, sort_key, no_slash. revert b. induction a as [|x a IH]; intros [|y b] Ha Hb.
  - by destruct ta, tb.
  - rewrite elem_of_cons in Hb. destruct ta; [|by destruct tb].
    change (option_cmp (Some (ch "/")) (Some y) = bytes_cmp [ch "/"] (y :: b ++ (if tb then [ch "/"] else []))).
    cbn [option_cmp bytes_cmp]. destruct (ch "/" ?= y) eqn:E; [|done..].
    apply Z.compare_eq_iff in E. destruct Hb. by left.
  - rewrite elem_of_cons in Ha. destruct tb; [|by destruct ta].
    change (option_cmp (Some x) (Some (ch "/")) = bytes_cmp (x :: a ++ (if ta then [ch "/"] else [])) [ch "/"]).
    cbn [option_cmp bytes_cmp]. destruct (x ?= ch "/") eqn:E; [|done..].
    apply Z.compare_eq_iff in E. destruct Ha. by left.
  - rewrite elem_of_cons in Ha, Hb. cbn [length Nat.min take bytes_cmp app].
    destruct (x ?= y) eqn:E; [|done..]. apply Z.compare_eq_iff in E as ->. apply IH; naive_solver.
Qed.
Lemma sort_key_inj a ta b tb : no_slash a → no_slash b → sort_key a ta = sort_key b tb → a = b ∧ ta = tb.
Proof.
  unfold sort_key, no_slash. intros Ha Hb. destruct ta, tb; rewrite ?app_nil_r; intros Heq.
  - by apply app_inj_tail in Heq as [-> _].
  - subst b. destruct Hb. set_solver.
  - subst a. destruct Ha. set_solver.
  - done.
Qed.

(** Searching a sorted tree for a name. *)
Lemma search_name es name t (f : unit → Entry → res Empty_set (unit * comparison)) :
  sorted_tree es → no_slash name →
  (∀ s e, f s e = Ok (tt, cmp_names (filename e) (is_tree (mode e)) name t)) →
  ∃ r, binary_search_by f es tt = Ok (tt, r) ∧
    match r with
    | inl i => ∃ e, es !! i = Some e ∧ filename e = name ∧ is_tree (mode e) = t
    | inr i => (i ≤ length es)%nat ∧
        (∀ j e, es !! j = Some e → (j < i)%nat → bytes_lt (tkey e) (sort_key name t)) ∧
        (∀ j e, es !! j = Some e → (i ≤ j)%nat → bytes_lt (sort_key name t) (tkey e))
    end.
Proof.
  intros [Hs Hns] Hn Hf. rewrite Forall_forall in Hns.
  destruct (binary_search_spec f es (λ e, bytes_cmp (tkey e) (sort_key name t)) (λ _ _, tt)) with (s := tt)
    as ([[] r] & Hr & Hres).
  - intros s e He. rewrite Hf, cmp_names_key by (by try apply Hns). done.
  - intros i j x y Hij Hx Hy. assert (Hlt : bytes_lt (tkey x) (tkey y)).
    { eapply (StronglySorted_at _ _ i j _ _ Hs Hij); rewrite list_lookup_fmap; [by rewrite Hx|by rewrite Hy]. }
    split; [intros H; exact (bytes_lt_trans _ _ _ Hlt H)|].
    rewrite !bytes_cmp_gt. intros H. exact (bytes_lt_trans _ _ _ H Hlt).
  - exists r. split; [done|]. unfold search_result in Hres. cbn [fst snd] in Hres. destruct r as [i|i].
    + destruct Hres as (e & _ & He & Hc & _). exists e. split; [done|]. apply bytes_cmp_eq in Hc.
      apply sort_key_inj in Hc; [done| |done]. by eapply Hns, list_elem_of_lookup_2.
    + destruct Hres as [Hi Hall]. split_and!; [done| |]; intros j e He Hj; specialize (Hall j e He).
      * by rewrite (proj2 (Nat.ltb_lt _ _)) in Hall by done.
      * rewrite (proj2 (Nat.ltb_ge _ _)) in Hall by done. by apply bytes_cmp_gt.
Qed.

(** In a tree in git's order, [bisect_entry] returns the entry with the
    given name that is, or is not, a directory as asked, exactly if there is
    one. *)
Theorem bisect_entry_correct es name is_dir :
  sorted_tree es → no_slash name →
  ∃ r, bisect_entry es name is_dir = Ok r ∧
    ∀ e, r = Some e ↔ e ∈ es ∧ filename e = name ∧ is_tree (mode e) = is_dir.
Proof.
  intros Hs Hn. unfold bisect_entry.
  destruct (search_name es name is_dir (λ _ e, Ok (tt, tree_entry_cmp e
      (mkEntry (kind_mode (if is_dir then EKTree else EKBlob)) name (null shortest))))) as (r & -> & Hr);
    [done|done|intros _ e; by destruct is_dir|].
  rewrite bind_Ok. destruct Hs as [Hs Hns]. destruct r as [i|i].
  - destruct Hr as (e & He & Hname & Ht). rewrite He. cbn. eexists. split; [done|]. intros x. split.
    + intros [= <-]. split_and!; [by eapply list_elem_of_lookup_2|done|done].
    + intros ([j Hx]%list_elem_of_lookup & Hxn & Hxt). assert (Hk : tkey x = tkey e) by (unfold tkey; congruence).
      destruct (Nat.lt_trichotomy i j) as [Hij|[->|Hij]]; [|congruence|]; exfalso.
      * apply (irreflexivity bytes_lt (tkey e)). rewrite <- Hk at 2.
        eapply (StronglySorted_at _ _ i j _ _ Hs Hij); rewrite list_lookup_fmap; [by rewrite He|by rewrite Hx].
      * apply (irreflexivity bytes_lt (tkey e)). rewrite <- Hk at 1.
        eapply (StronglySorted_at _ _ j i _ _ Hs Hij); rewrite list_lookup_fmap; [by rewrite Hx|by rewrite He].
  - destruct Hr as (_ & Hlo & Hhi). exists None. split; [done|]. intros x. split; [done|].
    intros ([j Hx]%list_elem_of_lookup & Hxn & Hxt). exfalso.
    assert (Hk : tkey x = sort_key name is_dir) by (unfold tkey; congruence).
    apply (irreflexivity bytes_lt (tkey x)). destruct (decide (j < i)%nat).
    + rewrite Hk at 2. by eapply Hlo.
    + rewrite Hk at 1. eapply Hhi; [done|lia].
Qed.


(** *** Loose headers *)

(** The header that [encode::loose_header] makes for an object kind and any
    64-bit size is decoded to the same kind and size, and the number of bytes
    consumed is its length, whatever data follows it. *)
Theorem loose_header_roundtrip {BA : bstr.Api} {BL : bstr.Laws} {IA : itoa.Api} {IL : itoa.Laws} k size data :
  0 ≤ size < 2 ^ 64 →
  loose_header_decode (loose_header k size ++ data) = Ok (k, size, length (loose_header k size)).
Proof.
  intros Hs. unfold loose_header_decode, loose_header. rewrite itoa.format_spec by lia.
  set (num := itoa.decimal size). destruct (decimal_digits size) as (Hne & Hdec & _); [lia|]. fold num in Hne, Hdec.
  assert (Hnum : Forall (λ c, c ≠ 0 ∧ c ≠ 32) num).
  { eapply Forall_impl; [exact Hdec|]. unfold is_dec. intros c. cbn. lia. }
  assert (Hk : Forall (λ c, c ≠ 0 ∧ c ≠ 32) (kind_as_bytes k)) by (by destruct k; repeat constructor).
  rewrite !bstr.find_byte_spec, <- !app_assoc. cbn [app].
  rewrite (find_index_app (Z.eqb 32) (kind_as_bytes k)); [|eapply Forall_impl; [exact Hk|]; intros c []; apply Z.eqb_neq; lia|done].
  cbn [ok_or]. rewrite bind_Ok, slice_to_app, bind_Ok by done.
  assert (kind_from_bytes (kind_as_bytes k) = Ok k) as -> by (by destruct k).
  cbn [map_err]. rewrite bind_Ok. 
  change (ch " " :: num ++ 0 :: data) with ([ch " "] ++ num ++ 0 :: data).
  rewrite !app_assoc. rewrite (find_index_app (Z.eqb 0) ((kind_as_bytes k ++ [ch " "]) ++ num)); [|..|done].
  2:{ repeat apply Forall_app_2; [eapply Forall_impl; [exact Hk|]|by repeat constructor|eapply Forall_impl; [exact Hnum|]];
      intros c []; apply Z.eqb_neq; lia. }
  cbn [ok_or]. rewrite bind_Ok. rewrite <- app_assoc with (m := num).
  rewrite slice_app, bind_Ok by (rewrite !length_app; cbn; lia).
  unfold num. rewrite to_signed_decimal by (try done; cbn; lia). cbn [map_err]. rewrite bind_Ok.
  do 2 f_equal. rewrite !length_app. cbn [length]. rewrite length_app. cbn [length]. lia.
Qed.

(** ** Examples *)

Definition example_tree : list Entry :=
  [mkEntry (kind_mode EKBlob) (bs "a") (Sha1 (replicate 20 1));
   mkEntry (kind_mode EKBlobExecutable) (bs "a.b") (Sha1 (replicate 20 2));
   mkEntry (kind_mode EKTree) (bs "a") (Sha1 (replicate 20 3));
   mkEntry (kind_mode EKCommit) (bs "a0") (Sha1 (replicate 20 4))].
Lemma example_tree_wf : Forall wf_tree_entry example_tree.
Proof.
  assert (Hid : ∀ b, u8 b → wf_id (Sha1 (replicate 20 b))).
  { intros b Hb. split; [cbn [as_slice]; by rewrite length_replicate|]. by apply Forall_replicate. }
  unfold example_tree.
  repeat (apply Forall_cons_2; [refine (conj _ (conj _ (Hid _ _))); unfold readable_mode; cbn; [lia|set_solver|lia]|]).
  constructor.
Qed.
Lemma example_tree_sorted : sorted_tree example_tree.
Proof. split; [repeat constructor|]. repeat constructor; unfold no_slash; cbn; set_solver. Qed.

(** All kinds of entries: files that are 100644, 100664 and 100755 in octal, a
    symbolic link, a directory and a submodule. *)
Definition example_modes : list Entry :=
  zip_with (λ m b, mkEntry m [b] (Sha1 (replicate 20 b)))
    [0x81a4; 0x81b4; 0x81ed; 0xa000; 0x4000; 0xe000] [97; 98; 99; 100; 101; 102].

Lemma tree_from_bytes_wf_witness :
  ∃ es, @tree_from_bytes bstr_impl (bs "40000 d" ++ [0] ++ replicate 20 7) = Ok es ∧ Forall wf_tree_entry es.
Proof.
  assert (Hb : is_bytes (bs "40000 d" ++ [0] ++ replicate 20 7)).
  { by_decision. }
  pose proof (@tree_from_bytes_wf bstr_impl bstr_impl_laws _ Hb) as H.
  eexists. split; [reflexivity|]. exact H.
Defined.

Lemma bisect_entry_correct_witness :
  bisect_entry example_tree (bs "a") true = Ok (Some (mkEntry (kind_mode EKTree) (bs "a") (Sha1 (replicate 20 3)))).
Proof.
  destruct (bisect_entry_correct example_tree (bs "a") true) as (r & -> & Hr).
  - exact example_tree_sorted.
  - unfold no_slash. cbn. set_solver.
  - f_equal. apply Hr. split; [|split; reflexivity]. unfold example_tree. do 2 right. left.
Defined.

Lemma loose_header_roundtrip_witness :
  @loose_header_decode bstr_impl (@loose_header itoa_impl KBlob 1234 ++ bs "data") = Ok (KBlob, 1234, 10%nat).
Proof.
  rewrite (@loose_header_roundtrip bstr_impl bstr_impl_laws itoa_impl itoa_impl_laws KBlob 1234 (bs "data")).
  - reflexivity.
  - lia.
Defined.
