(* ===== verification/TreeEditor.v ===== *)
(** * Editing trees

    Models [gix-object/src/tree/editor.rs]: an [Editor] holds the trees that
    were touched by edits in a map from paths to trees, loads trees on the way
    to an edit, and writes all changed trees, children before parents.  A
    [Cursor] is an editor below a prefix.

    The object database is the parameter [find_tree]; the consumer of written
    trees is a closure [out] with its captured variables.  An operation that
    fails leaves the edits it made before, so it returns the editor next to its
    error. *)

From S2P Require Import Prelude Slices External Hash PackEntry Btoi ObjectTree.

Notation Tree := (list Entry).
(** An item of the stacks of the writer: the index of the parent, the path and
    the tree. *)
Notation Item := (option nat * bytes * list Entry)%type.
Inductive UpsertMode := UpsertNormal | AssureTreeOnly.
#[global] Instance UpsertMode_eq_dec : EqDecision UpsertMode.
Proof. solve_decision. Defined.
Inductive WriteMode := WriteNormal | FromCursor.

Definition cmp_entry_with_name (a : Entry) (name : bytes) (tree : bool) : comparison :=
  cmp_names (filename a) (is_tree (mode a)) name tree.
(** [entries.binary_search_by(|e| cmp_entry_with_name(e, name, tree))]. *)
Definition search_entry (es : Tree) (name : bytes) (tree : bool) : res Empty_set (nat + nat) :=
  '(_, r) ← binary_search_by (λ _ e, Ok (tt, cmp_entry_with_name e name tree)) es tt; Ok r.
Definition push_path_component (base component : bytes) : bytes :=
  if bool_decide (base = []) then component else base ++ [ch "/"] ++ component.

(** [Vec::pop]. *)
Definition pop {A} (l : list A) : option (list A * A) :=
  match last l with None => None | Some x => Some (take (length l - 1) l, x) end.

Record Editor := mkEditor { trees : gmap bytes Tree; path_buf : bytes }.
Definition set_trees (ed : Editor) (m : gmap bytes Tree) : Editor := mkEditor m (path_buf ed).
Definition with_path (ed : Editor) (p : bytes) : Editor := mkEditor (trees ed) p.

Definition editor_new (root : Tree) : Editor := mkEditor {[ [] := root ]} [].
Definition set_root (ed : Editor) (root : Tree) : Editor := set_trees ed (<[[] := root]> ∅).

(** ** Edits *)

Section Editor.
Context `{!bstr.Api}.
(** [FindExt::find_tree] and its error; the kind of ids. *)
Context {FindError : Type} (find_tree : ObjectId → FindError + Tree) (object_hash : Hash.Kind).

Inductive EditorError := EmptyPathComponent | FindExistingObject (e : FindError).

(** What the edit of one tree on the path leads to: the search ends, or goes
    on with the subtree of that id. *)
Inductive Level := Break (cursor : Tree) | Next (cursor : Tree) (tree_to_lookup : option ObjectId).

(** The position of an entry with that name, or where to insert one. *)
Definition locate (cursor : Tree) (name : bytes) (must_be_tree : bool) : res Empty_set (nat + nat) :=
  r ← search_entry cursor name false;
  match r with
  | inl i => Ok (inl i)
  | inr file_idx =>
      r ← search_entry cursor name true;
      Ok (match r with
          | inl i => inl i
          | inr dir_idx => inr (if must_be_tree then dir_idx else file_idx)
          end)
  end.
(** The body of the loop up to the sorting. *)
Definition edit_level (cursor : Tree) (name : bytes) (is_last : bool)
    (kind_and_id : option (EntryKind * ObjectId * UpsertMode)) : res Empty_set Level :=
  let new_kind_is_tree :=
    match kind_and_id with Some (k, _, _) => bool_decide (k = EKTree) | None => false end in
  let must_be_tree := negb is_last || new_kind_is_tree in
  let type_change (e : Entry) := negb (Bool.eqb (is_tree (mode e)) must_be_tree) in
  let sorted (b : bool) (es : Tree) := if b then sort_by tree_entry_cmp es else es in
  r ← locate cursor name must_be_tree;
  match r, kind_and_id with
  | inl i, None =>
      if is_last then c ← vec_remove i cursor; Ok (Break c)
      else
        e ← expect (cursor !! i);
        Ok (if is_tree (mode e) then Next cursor (Some (oid e)) else Break cursor)
  | inl i, Some (kind, id, _) =>
      e ← expect (cursor !! i);
      if is_last then
        Ok (Next (sorted (type_change e) (<[i := mkEntry (kind_mode kind) (filename e) id]> cursor)) None)
      else if is_tree (mode e) then Ok (Next cursor (Some (oid e)))
      else
        Ok (Next (sorted (type_change e)
                    (<[i := mkEntry (kind_mode EKTree) (filename e) (null (Hash.kind id))]> cursor)) None)
  | inr _, None => Ok (Break cursor)
  | inr i, Some (kind, id, _) =>
      c ← vec_insert i (if is_last then mkEntry (kind_mode kind) name id
                        else mkEntry (kind_mode EKTree) name (null (Hash.kind id))) cursor;
      Ok (Next c None)
  end.

(** The loop of [upsert_or_remove_at_pathbuf]: the tree that [cursor] refers to
    is the one at [path_buf]. *)
Fixpoint edit_loop (ed : Editor) (rela_path : list bytes)
    (kind_and_id : option (EntryKind * ObjectId * UpsertMode))
  : res Empty_set (Editor * option EditorError) :=
  match rela_path with
  | [] => Ok (ed, None)
  | name :: rest =>
      cursor ← expect (trees ed !! path_buf ed);
      if bool_decide (name = []) then Ok (ed, Some EmptyPathComponent)
      else
        let is_last := bool_decide (rest = []) in
        l ← edit_level cursor name is_last kind_and_id;
        match l with
        | Break c => Ok (set_trees ed (<[path_buf ed := c]> (trees ed)), None)
        | Next c tree_to_lookup =>
            let ed := set_trees ed (<[path_buf ed := c]> (trees ed)) in
            if is_last && (match kind_and_id with Some (_, _, UpsertNormal) => true | _ => false end)
            then Ok (ed, None)
            else
              let path_id := push_path_component (path_buf ed) name in
              let ed := with_path ed path_id in
              match trees ed !! path_id with
              | Some _ => edit_loop ed rest kind_and_id
              | None =>
                  match (match tree_to_lookup with
                         | Some id => if is_empty_tree id then inr [] else find_tree id
                         | None => inr []
                         end) with
                  | inl err => Ok (ed, Some (FindExistingObject err))
                  | inr t => edit_loop (set_trees ed (<[path_id := t]> (trees ed))) rest kind_and_id
                  end
              end
        end
  end.

Definition upsert_or_remove_at_pathbuf (ed : Editor) (rela_path : list bytes)
    (kind_and_id : option (EntryKind * ObjectId * UpsertMode))
  : res Empty_set (Editor * option EditorError) :=
  _ ← expect (trees ed !! path_buf ed); edit_loop ed rela_path kind_and_id.

Definition remove (ed : Editor) (rela_path : list bytes) : res Empty_set (Editor * option EditorError) :=
  upsert_or_remove_at_pathbuf (with_path ed []) rela_path None.
Definition upsert (ed : Editor) (rela_path : list bytes) (kind : EntryKind) (id : ObjectId)
  : res Empty_set (Editor * option EditorError) :=
  upsert_or_remove_at_pathbuf (with_path ed []) rela_path (Some (kind, id, UpsertNormal)).

(** A [Cursor] is its prefix; [cursor_at] makes one. *)
Definition cursor_at (ed : Editor) (rela_path : list bytes) : res Empty_set (Editor * (EditorError + bytes)) :=
  '(ed, err) ← upsert_or_remove_at_pathbuf (with_path ed []) rela_path
                 (Some (EKTree, null object_hash, AssureTreeOnly));
  Ok (ed, match err with Some e => inl e | None => inr (path_buf ed) end).
Definition cursor_upsert (ed : Editor) (prefix : bytes) (rela_path : list bytes) (kind : EntryKind) (id : ObjectId)
  : res Empty_set (Editor * option EditorError) :=
  upsert_or_remove_at_pathbuf (with_path ed prefix) rela_path (Some (kind, id, UpsertNormal)).
Definition cursor_remove (ed : Editor) (prefix : bytes) (rela_path : list bytes)
  : res Empty_set (Editor * option EditorError) :=
  upsert_or_remove_at_pathbuf (with_path ed prefix) rela_path None.

(** ** Writing *)

(** The last component of a path. *)
Definition filename_of (path : bytes) : bytes :=
  match bstr.rfind_byte path (ch "/") with Some pos => drop (pos + 1) path | None => path end.

(** The loop over the entries of a tree: the changed subtrees move from the map
    to [children]. *)
Fixpoint take_children (rela_path : bytes) (es : Tree) (next_parent_idx : nat) (m : gmap bytes Tree)
    (children : list Item) (unchanged : bool) : gmap bytes Tree * list Item * bool :=
  match es with
  | [] => (m, children, unchanged)
  | e :: es =>
      if is_tree (mode e) then
        let p := push_path_component rela_path (filename e) in
        match m !! p with
        | Some sub =>
            take_children rela_path es next_parent_idx (delete p m)
              (children ++ [(Some next_parent_idx, p, sub)]) false
        | None => take_children rela_path es next_parent_idx m children unchanged
        end
      else take_children rela_path es next_parent_idx m children unchanged
  end.

Context {S E : Type} (out : S → Tree → S * (E + ObjectId)).
Definition set_oid (id : ObjectId) (e : Entry) : Entry := mkEntry (mode e) (filename e) id.

(** [while let Some(..) = children.pop().or_else(|| parents.pop())].  Every tree
    is seen at most twice. *)
Fixpoint write_loop (fuel : nat) (mode_ : WriteMode) (m : gmap bytes Tree) (parents children : list Item) (s : S)
  : res Empty_set (S * gmap bytes Tree * (E + ObjectId)) :=
  match fuel with
  | O => Panic
  | Datatypes.S fuel =>
      '(parents, children, (parent_idx, rela_path, tree)) ←
        (match pop children with
         | Some (children, x) => Ok (parents, children, x)
         | None => match pop parents with Some (parents, x) => Ok (parents, children, x) | None => Panic end
         end);
      let '(m, children, unchanged) := take_children rela_path tree (length parents) m children true in
      if unchanged then
        let tree := filter (λ e, is_null (oid e) = false) tree in
        match parent_idx with
        | Some idx =>
            '(grand, ppath, ptree) ← expect (parents !! idx);
            r ← search_entry ptree (filename_of rela_path) true;
            entry_idx ← expect (match r with inl i => Some i | inr _ => None end);
            if bool_decide (tree = []) then
              ptree ← vec_remove entry_idx ptree;
              write_loop fuel mode_ m (<[idx := (grand, ppath, ptree)]> parents) children s
            else
              match out s tree with
              | (s, inr id) =>
                  write_loop fuel mode_ m (<[idx := (grand, ppath, alter (set_oid id) entry_idx ptree)]> parents)
                    children s
              | (s, inl err) =>
                  '(_, root_path, root) ← expect (head parents);
                  Ok (s, <[root_path := root]> m, inl err)
              end
        | None =>
            if bool_decide (parents = []) then
              match out s tree with
              | (s, inr id) =>
                  let m := match mode_ with WriteNormal => ∅ | FromCursor => m end in
                  Ok (s, <[rela_path := tree]> m, inr id)
              | (s, inl err) => Ok (s, <[rela_path := tree]> m, inl err)
              end
            else if bool_decide (tree = []) then write_loop fuel mode_ m parents children s
            else
              match out s tree with
              | (s, inr _) => write_loop fuel mode_ m parents children s
              | (s, inl err) => Ok (s, m, inl err)
              end
        end
      else write_loop fuel mode_ m (parents ++ [(parent_idx, rela_path, tree)]) children s
  end.
Definition write_at_pathbuf (ed : Editor) (mode_ : WriteMode) (s : S)
  : res Empty_set (S * Editor * (E + ObjectId)) :=
  root ← expect (trees ed !! path_buf ed);
  '(s, m, r) ← write_loop (2 * size (trees ed) + 2) mode_ (delete (path_buf ed) (trees ed))
                 [(None, path_buf ed, root)] [] s;
  Ok (s, set_trees ed m, r).
Definition write (ed : Editor) (s : S) : res Empty_set (S * Editor * (E + ObjectId)) :=
  write_at_pathbuf (with_path ed []) WriteNormal s.
Definition cursor_write (ed : Editor) (prefix : bytes) (s : S) : res Empty_set (S * Editor * (E + ObjectId)) :=
  write_at_pathbuf (with_path ed prefix) FromCursor s.
End Editor.

(** ** Specification *)

Definition good_name (n : bytes) : Prop := n ≠ [] ∧ no_slash n.
(** Trees in git's order, names are unique and are not empty. *)
Definition good_tree (t : Tree) : Prop :=
  StronglySorted bytes_lt (tkey <$> t) ∧ NoDup (filename <$> t) ∧ Forall (λ e, good_name (filename e)) t.
(** The entry with a name. *)
Definition find_name (t : Tree) (n : bytes) : option Entry := snd <$> list_find (λ e, filename e = n) t.
(** The key of the tree at a path. *)
Definition key_of (path : list bytes) : bytes := foldl push_path_component [] path.

(** ** Lemmas on trees *)

Lemma sorted_good t : good_tree t → sorted_tree t.
Proof.
  intros (Hs & _ & Hn). split; [done|]. eapply Forall_impl; [exact Hn|]. by intros e [].
Qed.
Lemma find_name_iff t n e : NoDup (filename <$> t) → find_name t n = Some e ↔ e ∈ t ∧ filename e = n.
Proof.
  intros Hnd. unfold find_name. split.
  - destruct (list_find _ t) as [[i x]|] eqn:E; [|done]. cbn. intros [= ->].
    apply list_find_Some in E as (Hx & Hn & _). split; [by eapply list_elem_of_lookup_2|done].
  - intros [[i He]%list_elem_of_lookup Hn]. assert (list_find (λ e, filename e = n) t = Some (i, e)) as ->; [|done].
    apply list_find_Some. split_and!; [done|done|]. intros j y Hy Hj Hyn.
    assert (j = i); [|lia]. eapply (NoDup_lookup (filename <$> t)); [done|by rewrite list_lookup_fmap, Hy|].
    rewrite list_lookup_fmap, He. cbn. congruence.
Qed.
Lemma find_name_None t n : find_name t n = None ↔ n ∉ filename <$> t.
Proof.
  unfold find_name. split.
  - destruct (list_find _ t) as [[]|] eqn:E; [done|]. intros _. apply list_find_None in E.
    rewrite Forall_forall in E. intros (e & -> & He)%list_elem_of_fmap. by apply (E e He).
  - intros Hn. rewrite (proj2 (list_find_None _ _)); [done|]. apply Forall_forall. intros e He <-.
    apply Hn. by apply list_elem_of_fmap_2.
Qed.

(** Two trees with the same entries but for those named [name]. *)
Definition same_but (name : bytes) (t c : Tree) : Prop := ∀ x, filename x ≠ name → x ∈ c ↔ x ∈ t.
Lemma find_name_other name t c n : good_tree t → good_tree c → same_but name t c → n ≠ name →
  find_name c n = find_name t n.
Proof.
  intros (_ & Ht & _) (_ & Hc & _) Hs Hn. destruct (find_name t n) as [e|] eqn:E.
  - apply find_name_iff in E as [He <-]; [|done]. apply find_name_iff; [done|]. split; [|done]. by apply Hs.
  - apply find_name_None. apply find_name_None in E. intros (x & -> & Hx)%list_elem_of_fmap.
    apply E, list_elem_of_fmap_2. by apply Hs.
Qed.

(** Replacing the entries with [name]: [mid] is empty or one entry with that
    name, at a place that keeps the order. *)
Definition ordered_at (a mid b : Tree) : Prop := StronglySorted bytes_lt (tkey <$> a ++ mid ++ b).
Lemma good_splice name a old mid b :
  good_tree (a ++ old ++ b) → good_name name → (length mid ≤ 1)%nat →
  Forall (λ e, filename e = name) old → Forall (λ e, filename e = name) mid → name ∉ filename <$> a ++ b →
  ordered_at a mid b → good_tree (a ++ mid ++ b) ∧ same_but name (a ++ old ++ b) (a ++ mid ++ b).
Proof.
  intros (_ & Hnd & Hg) Hname Hlen Hold Hmid Hni Hord. rewrite Forall_forall in Hold, Hmid. split; [split_and!|].
  - exact Hord.
  - rewrite !fmap_app in *. apply NoDup_app in Hnd as (Ha & Hab & (_ & _ & Hb)%NoDup_app).
    assert (Hm : ∀ x, x ∈ filename <$> mid → x = name).
    { intros x (e & -> & He)%list_elem_of_fmap. by apply Hmid. }
    rewrite elem_of_app in Hni. apply NoDup_app. split_and!; [done| |].
    + intros x Hx [Hxm|Hxb]%elem_of_app; [apply Hm in Hxm as ->; tauto|]. apply (Hab x Hx). apply elem_of_app. by right.
    + apply NoDup_app. split_and!; [|by intros x ->%Hm; tauto|done].
      destruct mid as [|e [|? ?]]; [constructor|apply NoDup_singleton|cbn in Hlen; lia].
  - rewrite !Forall_app in *. destruct Hg as (? & _ & ?). split_and!; [done| |done].
    apply Forall_forall. intros e He. by rewrite (Hmid e He).
  - intros x Hx. rewrite !elem_of_app. split; intros [?|[?|?]]; try tauto; exfalso; apply Hx.
    + by apply Hmid.
    + by apply Hold.
Qed.

Lemma ordered_splice a mid b e :
  ordered_at a [] b → mid = [e] →
  (∀ x, x ∈ a → bytes_lt (tkey x) (tkey e)) → (∀ x, x ∈ b → bytes_lt (tkey e) (tkey x)) → ordered_at a mid b.
Proof.
  unfold ordered_at. intros Hs -> Hl Hr. rewrite !fmap_app in *. cbn in *.
  apply StronglySorted_app in Hs as (Hab & Ha & Hb). apply StronglySorted_app_2; [|done|].
  - intros k1 k2 Hk1 [->|Hk2]%elem_of_cons; [|by apply Hab].
    apply list_elem_of_fmap in Hk1 as (x & -> & Hx). by apply Hl.
  - constructor; [done|]. apply Forall_forall. intros k (x & -> & Hx)%list_elem_of_fmap. by apply Hr.
Qed.
Lemma ordered_drop a mid b : ordered_at a mid b → ordered_at a [] b.
Proof.
  unfold ordered_at. rewrite !fmap_app. intros (H1 & Ha & (_ & _ & Hb)%StronglySorted_app)%StronglySorted_app.
  cbn. apply StronglySorted_app_2; [|done|done]. intros x y Hx Hy. apply H1; [done|]. apply elem_of_app. by right.
Qed.

(** Sorting entries by key. *)
Lemma sort_by_ext {A} (cmp cmp' : A → A → comparison) l :
  (∀ a b, a ∈ l → b ∈ l → cmp a b = cmp' a b) → sort_by cmp l = sort_by cmp' l.
Proof.
  induction l as [|x l IH]; intros H; [done|].
  change (insert_by cmp x (sort_by cmp l) = insert_by cmp' x (sort_by cmp' l)).
  rewrite IH by (intros; apply H; by right).
  assert (Hx : ∀ b, b ∈ sort_by cmp' l → cmp x b = cmp' x b).
  { intros b Hb. apply H; [left|]. right. by rewrite sort_by_perm in Hb. }
  revert Hx. generalize (sort_by cmp' l). intros m Hm.
  induction m as [|y m IHm]; [done|]. cbn. rewrite Hm by left. destruct (cmp' x y); [done..|].
  f_equal. apply IHm. intros b Hb. apply Hm. by right.
Qed.
Lemma sort_tree_good t : NoDup (filename <$> t) → Forall (λ e, good_name (filename e)) t →
  good_tree (sort_by tree_entry_cmp t) ∧ sort_by tree_entry_cmp t ≡ₚ t.
Proof.
  intros Hnd Hg. rewrite Forall_forall in Hg.
  rewrite (sort_by_ext _ (λ a b, bytes_cmp (tkey a) (tkey b))).
  2:{ intros a b Ha Hb. apply cmp_names_key; by apply Hg. }
  pose proof (sort_by_perm (λ a b, bytes_cmp (tkey a) (tkey b)) t) as Hp. split; [|done].
  assert (Hs := sort_by_sorted (λ a b, bytes_cmp (tkey a) (tkey b))
    ltac:(intros a b; cbv beta; intros Hab; rewrite bytes_cmp_antisym, Hab; done)
    ltac:(intros a b c; apply (bytes_le_trans (tkey a) (tkey b) (tkey c))) t).
  set (l := sort_by _ t) in *. clearbody l. split_and!.
  - apply StronglySorted_by_lookup. intros i j x y Hij Hx Hy. rewrite list_lookup_fmap in Hx, Hy.
    destruct (l !! i) as [a|] eqn:Ea; [|done]. destruct (l !! j) as [b|] eqn:Eb; [|done]. cbn in *. simplify_eq.
    pose proof (StronglySorted_at _ _ _ _ _ _ Hs Hij Ea Eb) as Hle. cbn in Hle.
    unfold bytes_lt. destruct (bytes_cmp (tkey a) (tkey b)) eqn:E; [|done..]. exfalso.
    apply bytes_cmp_eq in E. apply sort_key_inj in E as [E _].
    + assert (i = j); [|lia]. eapply (NoDup_lookup (filename <$> l)); [by rewrite Hp|by rewrite list_lookup_fmap, Ea|].
      rewrite list_lookup_fmap, Eb. cbn. congruence.
    + apply Hg. rewrite <- Hp. by eapply list_elem_of_lookup_2.
    + apply Hg. rewrite <- Hp. by eapply list_elem_of_lookup_2.
  - by rewrite Hp.
  - rewrite Hp. by apply Forall_forall.
Qed.

(** ** One level *)

Lemma search_entry_spec t name tree : good_tree t → no_slash name →
  ∃ r, search_entry t name tree = Ok r ∧
    match r with
    | inl i => ∃ e, t !! i = Some e ∧ filename e = name ∧ is_tree (mode e) = tree
    | inr i => (i ≤ length t)%nat ∧
        (∀ j e, t !! j = Some e → (j < i)%nat → bytes_lt (tkey e) (sort_key name tree)) ∧
        (∀ j e, t !! j = Some e → (i ≤ j)%nat → bytes_lt (sort_key name tree) (tkey e))
    end.
Proof.
  intros Hg Hn. unfold search_entry.
  destruct (search_name t name tree (λ _ e, Ok (tt, cmp_entry_with_name e name tree))) as (r & -> & Hr);
    [by apply sorted_good|done|done|]. by exists r.
Qed.
Lemma not_found (t : Tree) name i tree :
  (∀ j e, t !! j = Some e → (j < i)%nat → bytes_lt (tkey e) (sort_key name tree)) →
  (∀ j e, t !! j = Some e → (i ≤ j)%nat → bytes_lt (sort_key name tree) (tkey e)) →
  ∀ e, e ∈ t → filename e = name → is_tree (mode e) ≠ tree.
Proof.
  intros Hlo Hhi e [j He]%list_elem_of_lookup <- <-. fold (tkey e) in *.
  apply (irreflexivity bytes_lt (tkey e)). destruct (decide (j < i)%nat); [by eapply Hlo|eapply Hhi; [done|lia]].
Qed.

(** An entry with [name] and the others, or a place for one. *)
Lemma locate_spec t name must_be_tree : good_tree t → good_name name →
  ∃ r, locate t name must_be_tree = Ok r ∧
    match r with
    | inl i => ∃ a e b, t = a ++ e :: b ∧ length a = i ∧ filename e = name ∧ name ∉ filename <$> a ++ b
    | inr i => ∃ a b, t = a ++ b ∧ length a = i ∧ name ∉ filename <$> t ∧
        (∀ x, x ∈ a → bytes_lt (tkey x) (sort_key name must_be_tree)) ∧
        (∀ x, x ∈ b → bytes_lt (sort_key name must_be_tree) (tkey x))
    end.
Proof.
  intros Hg [_ Hn]. unfold locate.
  assert (Hhit : ∀ i e, t !! i = Some e → filename e = name → ∃ a e b, t = a ++ e :: b ∧ length a = i ∧
    filename e = name ∧ name ∉ filename <$> a ++ b).
  { intros i e He Hname. exists (take i t), e, (drop (S i) t). rewrite take_drop_middle by done.
    split_and!; [done|apply length_take_le; apply lookup_lt_Some in He; lia|done|].
    destruct Hg as (_ & Hnd & _). rewrite <- (take_drop_middle t i e) in Hnd by done.
    rewrite !fmap_app, fmap_cons in *. apply NoDup_app in Hnd as (_ & Hd & [Hd' _]%NoDup_cons).
    rewrite Hname in *. rewrite elem_of_app. intros [Hin|]; [|done]. apply (Hd name Hin). left. }
  destruct (search_entry_spec t name false Hg Hn) as (r1 & -> & Hr1). rewrite bind_Ok. destruct r1 as [i|fi].
  { destruct Hr1 as (e & He & Hname & _). eexists. split; [done|]. by eapply Hhit. }
  destruct (search_entry_spec t name true Hg Hn) as (r2 & -> & Hr2). rewrite bind_Ok. destruct r2 as [i|di].
  { destruct Hr2 as (e & He & Hname & _). eexists. split; [done|]. by eapply Hhit. }
  eexists. split; [done|]. destruct Hr1 as (Hf & Hf1 & Hf2), Hr2 as (Hd & Hd1 & Hd2).
  assert (Hni : name ∉ filename <$> t).
  { intros (e & Hname & He)%list_elem_of_fmap. destruct (is_tree (mode e)) eqn:E.
    - by eapply (not_found t name di true).
    - by eapply (not_found t name fi false). }
  assert (Hpos : ∀ i tr, (i ≤ length t)%nat →
    (∀ j e, t !! j = Some e → (j < i)%nat → bytes_lt (tkey e) (sort_key name tr)) →
    (∀ j e, t !! j = Some e → (i ≤ j)%nat → bytes_lt (sort_key name tr) (tkey e)) →
    ∃ a b, t = a ++ b ∧ length a = i ∧ name ∉ filename <$> t ∧
      (∀ x, x ∈ a → bytes_lt (tkey x) (sort_key name tr)) ∧ (∀ x, x ∈ b → bytes_lt (sort_key name tr) (tkey x))).
  { intros i tr Hi H1 H2. exists (take i t), (drop i t). rewrite take_drop.
    split_and!; [done|by apply length_take_le|done| |].
    - intros x [j [Hx Hj]%lookup_take_Some]%list_elem_of_lookup. by eapply H1.
    - intros x [j Hx]%list_elem_of_lookup. rewrite lookup_drop in Hx. eapply H2; [done|lia]. }
  destruct must_be_tree; by apply Hpos.
Qed.

Lemma is_tree_kind k : is_tree (kind_mode k) = bool_decide (k = EKTree).
Proof. by destruct k. Qed.
Lemma find_name_at t a e b : t = a ++ e :: b → good_tree t → find_name t (filename e) = Some e.
Proof. intros -> (_ & Hnd & _). apply find_name_iff; [done|]. split; [set_solver|done]. Qed.

(** Overwriting an entry with one of the same name, and sorting if it becomes or
    stops being a tree. *)
Lemma overwrite_good a e b x :
  good_tree (a ++ e :: b) → filename x = filename e → filename e ∉ filename <$> a ++ b →
  let t := <[length a := x]> (a ++ e :: b) in
  let c := if negb (Bool.eqb (is_tree (mode e)) (is_tree (mode x))) then sort_by tree_entry_cmp t else t in
  good_tree c ∧ same_but (filename e) (a ++ e :: b) c ∧ find_name c (filename e) = Some x.
Proof.
  intros Hg Hx Hni. cbn zeta.
  rewrite insert_app_r_alt, Nat.sub_diag by lia. cbn.
  pose proof Hg as (Hs & Hnd & Hgn).
  assert (Hnd' : NoDup (filename <$> a ++ x :: b)).
  { rewrite !fmap_app, fmap_cons in *. by rewrite Hx. }
  assert (Hgn' : Forall (λ e, good_name (filename e)) (a ++ x :: b)).
  { rewrite !Forall_app, !Forall_cons in *. by rewrite Hx. }
  assert (Hsame : same_but (filename e) (a ++ e :: b) (a ++ x :: b)).
  { intros y Hy. rewrite !elem_of_app, !elem_of_cons. split; intros [?|[?|?]]; subst; try tauto; congruence. }
  destruct (Bool.eqb (is_tree (mode e)) (is_tree (mode x))) eqn:E; cbn [negb].
  - apply Bool.eqb_prop in E. assert (Hk : tkey x = tkey e) by (unfold tkey; congruence).
    assert (Hg' : good_tree (a ++ x :: b)).
    { split_and!; [|done|done]. rewrite !fmap_app, fmap_cons in *. by rewrite Hk. }
    split_and!; [done|done|]. rewrite <- Hx. by eapply find_name_at.
  - destruct (sort_tree_good _ Hnd' Hgn') as [Hg' Hp]. split_and!; [done| |].
    + intros y Hy. rewrite Hp. by apply Hsame.
    + apply find_name_iff; [apply Hg'|]. rewrite Hp. split; [set_solver|done].
Qed.

(** The entry that an edit leaves at its path. *)
Definition target (kind_and_id : option (EntryKind * ObjectId * UpsertMode)) (name : bytes) : option Entry :=
  match kind_and_id with Some (k, id, _) => Some (mkEntry (kind_mode k) name id) | None => None end.

Lemma edit_last t name kid : good_tree t → good_name name →
  ∃ c, edit_level t name true kid = Ok (match kid with None => Break c | Some _ => Next c None end) ∧
    good_tree c ∧ same_but name t c ∧ find_name c name = target kid name.
Proof.
  intros Hg Hn. unfold edit_level. cbn [negb orb].
  set (mbt := match kid with Some (k, _, _) => bool_decide (k = EKTree) | None => false end).
  destruct (locate_spec t name mbt Hg Hn) as (r & -> & Hr). rewrite bind_Ok. destruct r as [i|i].
  - destruct Hr as (a & e & b & Ht & <- & Hname & Hni). destruct kid as [[[k id] um]|].
    + rewrite Ht, list_lookup_middle by done. cbn [expect]. rewrite bind_Ok. eexists. split; [done|].
      subst t. destruct (overwrite_good a e b (mkEntry (kind_mode k) (filename e) id)) as (Hc & Hsame & Hf);
        [done|done|by rewrite Hname|]. 
      assert (mbt = is_tree (kind_mode k)) as -> by (unfold mbt; by destruct k).
      cbn [target]. rewrite <- Hname. by split_and!.
    + unfold vec_remove. rewrite Ht, length_app. cbn [length].
      rewrite (proj2 (Nat.ltb_lt _ _)) by lia. rewrite bind_Ok. eexists. split; [done|].
      subst t. rewrite delete_middle. cbn [target].
      destruct (good_splice name a [e] [] b) as [Hc Hsame]; [done|done|cbn; lia|by repeat constructor|constructor|done| |].
      { eapply (ordered_drop a [e] b). apply Hg. }
      split_and!; [done|done|by apply find_name_None].
  - destruct Hr as (a & b & Ht & <- & Hni & Hlo & Hhi). destruct kid as [[[k id] um]|].
    + unfold vec_insert. rewrite (proj2 (Nat.leb_le _ _)) by (rewrite Ht, length_app; lia). rewrite bind_Ok.
      eexists. split; [done|]. subst t. rewrite take_app_length, drop_app_length. cbn [target].
      destruct (good_splice name a [] [mkEntry (kind_mode k) name id] b) as [Hc Hsame];
        [done|done|cbn; lia|constructor|by repeat constructor|done| |].
      { assert (Hm : sort_key name mbt = tkey (mkEntry (kind_mode k) name id)) by (unfold mbt; by destruct k).
        rewrite Hm in *. eapply ordered_splice; [apply Hg|done|done|done]. }
      split_and!; [done|done|]. eapply (find_name_at _ a (mkEntry (kind_mode k) name id) b); done.
    + eexists. split; [done|]. split_and!; [done|by intros ?|by apply find_name_None].
Qed.

Lemma edit_inner t name kid : good_tree t → good_name name →
  ∃ l, edit_level t name false kid = Ok l ∧
    ((∃ e, find_name t name = Some e ∧ is_tree (mode e) = true ∧ l = Next t (Some (oid e))) ∨
     (∀ e, find_name t name = Some e → is_tree (mode e) = false) ∧
     match kid with
     | None => l = Break t
     | Some (_, id, _) => ∃ c, l = Next c None ∧ good_tree c ∧ same_but name t c ∧
         find_name c name = Some (mkEntry (kind_mode EKTree) name (null (Hash.kind id)))
     end).
Proof.
  intros Hg Hn. unfold edit_level. cbn [negb orb].
  destruct (locate_spec t name true Hg Hn) as (r & -> & Hr). rewrite bind_Ok. destruct r as [i|i].
  - destruct Hr as (a & e & b & Ht & <- & Hname & Hni).
    assert (Hf : find_name t name = Some e). { rewrite <- Hname. by eapply find_name_at. }
    assert (Hl : t !! length a = Some e) by (rewrite Ht; by apply list_lookup_middle).
    destruct (is_tree (mode e)) eqn:E.
    + exists (Next t (Some (oid e))). split; [|left; eauto].
      destruct kid as [[[k id] um]|]; rewrite Hl; cbn [expect]; rewrite bind_Ok; by rewrite E.
    + destruct kid as [[[k id] um]|]; rewrite Hl; cbn [expect]; rewrite bind_Ok, E.
      * eexists. split; [done|]. right. split; [congruence|]. eexists. split; [done|].
        subst t. destruct (overwrite_good a e b (mkEntry (kind_mode EKTree) (filename e) (null (Hash.kind id))))
          as (Hc & Hsame & Hfn); [done|done|by rewrite Hname|].
        cbn [mode] in Hc, Hsame, Hfn. rewrite E in *. rewrite Hname in *. by split_and!.
      * eexists. split; [done|]. right. split; [congruence|done].
  - destruct Hr as (a & b & Ht & <- & Hni & Hlo & Hhi). apply find_name_None in Hni as Hf.
    destruct kid as [[[k id] um]|].
    + unfold vec_insert. rewrite (proj2 (Nat.leb_le _ _)) by (rewrite Ht, length_app; lia). rewrite bind_Ok.
      eexists. split; [done|]. right. split; [congruence|]. eexists. split; [done|].
      subst t. rewrite take_app_length, drop_app_length.
      destruct (good_splice name a [] [mkEntry (kind_mode EKTree) name (null (Hash.kind id))] b) as [Hc Hsame];
        [done|done|cbn; lia|constructor|by repeat constructor|done| |].
      { eapply ordered_splice; [apply Hg|done|exact Hlo|exact Hhi]. }
      split_and!; [done|done|]. eapply (find_name_at _ a (mkEntry _ name _) b); done.
    + eexists. split; [done|]. right. split; [congruence|done].
Qed.

(** ** Keys *)

Lemma slash_app_inj b c x y : no_slash x → no_slash y → b ++ ch "/" :: x = c ++ ch "/" :: y → b = c ∧ x = y.
Proof.
  unfold no_slash. intros Hx Hy. revert c. induction b as [|h b IH]; intros [|k c] Heq; cbn in Heq.
  - by simplify_eq.
  - simplify_eq. destruct Hx. set_solver.
  - simplify_eq. destruct Hy. set_solver.
  - injection Heq as -> Heq. destruct (IH c Heq) as [-> ->]. done.
Qed.
Lemma push_inj b c x y : no_slash x → no_slash y → push_path_component b x = push_path_component c y → b = c ∧ x = y.
Proof.
  intros Hx Hy. unfold push_path_component. do 2 case_bool_decide; subst; [by intros ->| | |by apply slash_app_inj].
  - intros ->. destruct Hx. unfold no_slash in *. set_solver.
  - intros <-. destruct Hy. unfold no_slash in *. set_solver.
Qed.
Lemma key_of_snoc path n : key_of (path ++ [n]) = push_path_component (key_of path) n.
Proof. unfold key_of. by rewrite foldl_app. Qed.
Lemma key_of_snoc_nil path n : good_name n → key_of (path ++ [n]) ≠ [].
Proof.
  intros [Hn _]. rewrite key_of_snoc. unfold push_path_component. case_bool_decide; [done|].
  intros Heq. apply (f_equal length) in Heq. rewrite length_app in Heq. cbn in Heq. lia.
Qed.
Lemma key_of_inj p q : Forall good_name p → Forall good_name q → key_of p = key_of q → p = q.
Proof.
  revert q. induction p as [|n p IH] using rev_ind; intros q Hp Hq Heq.
  - destruct q as [|m q _] using rev_ind; [done|]. apply Forall_app in Hq as [_ Hm].
    symmetry in Heq. apply key_of_snoc_nil in Heq; [done|]. by inversion Hm.
  - apply Forall_app in Hp as [Hp Hn]. rewrite Forall_singleton in Hn.
    destruct q as [|m q _] using rev_ind; [by destruct (key_of_snoc_nil p n Hn)|].
    apply Forall_app in Hq as [Hq Hm]. rewrite Forall_singleton in Hm.
    rewrite !key_of_snoc in Heq. apply push_inj in Heq as [Heq ->]; [|apply Hn|apply Hm]. f_equal. by apply IH.
Qed.
Lemma good_snoc path n : Forall good_name path → good_name n → Forall good_name (path ++ [n]).
Proof. intros. apply Forall_app. split; [done|]. by constructor. Qed.

(** ** What an editor contains *)

Section Contents.
Context {FindError : Type} (find_tree : ObjectId → FindError + Tree).

Definition load (id : ObjectId) : option Tree :=
  if is_empty_tree id then Some [] else match find_tree id with inr t => Some t | inl _ => None end.
(** The mode and id at a path below the tree [t] at [pre]: trees in the map take
    precedence over those in the object database. *)
Fixpoint lookup_in (m : gmap bytes Tree) (pre : list bytes) (t : Tree) (path : list bytes) : option (Z * ObjectId) :=
  match path with
  | [] => None
  | name :: rest =>
      e ← find_name t name;
      if bool_decide (rest = []) then Some (mode e, oid e)
      else if is_tree (mode e) then
        sub ← (match m !! key_of (pre ++ [name]) with Some sub => Some sub | None => load (oid e) end);
        lookup_in m (pre ++ [name]) sub rest
      else None
  end.
Definition lookup_path (m : gmap bytes Tree) (path : list bytes) : option (Z * ObjectId) :=
  t ← m !! []; lookup_in m [] t path.

(** There is a root, all trees are in order, and above each other tree in the map
    there is one in the map. *)
Record wf_trees (m : gmap bytes Tree) : Prop := {
  wf_root : is_Some (m !! []);
  wf_good k t : m !! k = Some t → good_tree t;
  wf_keys k : is_Some (m !! k) → ∃ path, Forall good_name path ∧ k = key_of path;
  wf_closed path n : Forall good_name path → good_name n → is_Some (m !! key_of (path ++ [n])) →
    is_Some (m !! key_of path) }.
(** The tree [n] of the map, if there is one, belongs to a tree entry of its parent
    at [pre].  It does not when the directory was removed, or replaced by a file,
    after edits in it: its tree is left over in the map. *)
Definition attached (m : gmap bytes Tree) (pre : list bytes) (n : bytes) : Prop :=
  is_Some (m !! key_of (pre ++ [n])) →
  ∃ t e, m !! key_of pre = Some t ∧ find_name t n = Some e ∧ is_tree (mode e) = true.
(** There is no such left-over tree on the way to [path]. *)
Definition no_left_over (m : gmap bytes Tree) (pre path : list bytes) : Prop :=
  ∀ p n q, path = p ++ n :: q → q ≠ [] → attached m (pre ++ p) n.
Definition good_database : Prop := ∀ id t, find_tree id = inr t → good_tree t.

Lemma good_nil : good_tree [].
Proof. split_and!; [constructor|constructor|constructor]. Qed.
Lemma load_good id t : good_database → load id = Some t → good_tree t.
Proof.
  unfold load. intros Hdb. destruct (is_empty_tree id); [intros [= <-]; apply good_nil|].
  destruct (find_tree id) eqn:E; [done|]. intros [= <-]. by eapply Hdb.
Qed.

(** A lookup depends on the trees strictly below its start. *)
Lemma lookup_in_ext m m' pre t path :
  (∀ q, q ≠ [] → q `prefix_of` path → m' !! key_of (pre ++ q) = m !! key_of (pre ++ q)) →
  lookup_in m' pre t path = lookup_in m pre t path.
Proof.
  revert pre t. induction path as [|name rest IH]; intros pre t Hm; [done|]. cbn [lookup_in].
  destruct (find_name t name) as [e|]; [|done]. cbn [mbind option_bind].
  rewrite (Hm [name]); [|done|by exists rest].
  case_bool_decide; [done|]. destruct (is_tree (mode e)); [|done].
  destruct (match m !! _ with Some sub => Some sub | None => _ end) as [sub|]; [|done]. cbn.
  apply IH. intros q Hq Hpre. rewrite <- !app_assoc. apply (Hm ([name] ++ q)); [done|]. by apply prefix_cons.
Qed.

(** Adding a tree, or replacing one. *)
Lemma wf_insert m pre c :
  wf_trees m → Forall good_name pre → good_tree c →
  (∀ p n, pre = p ++ [n] → is_Some (m !! key_of p)) → wf_trees (<[key_of pre := c]> m).
Proof.
  intros [Hr Hg Hk Hp] Hpre Hc Habove. split.
  - destruct (decide (key_of pre = [])) as [->|]; [rewrite lookup_insert_eq; eauto|]. by rewrite lookup_insert_ne.
  - intros k x Hx. apply lookup_insert_Some in Hx as [[_ <-]|[_ Hx]]; [done|by eapply Hg].
  - intros k Hx. destruct (decide (k = key_of pre)) as [->|]; [eauto|]. rewrite lookup_insert_ne in Hx by done. by apply Hk.
  - intros path n Hpath Hn Hs. apply lookup_insert_is_Some'. right.
    destruct (decide (key_of pre = key_of (path ++ [n]))) as [Heq|Hne].
    + apply key_of_inj in Heq; [by eapply Habove|done|by apply good_snoc].
    + rewrite lookup_insert_ne in Hs by done. by eapply Hp.
Qed.
Lemma wf_replace m pre t c :
  wf_trees m → Forall good_name pre → m !! key_of pre = Some t → good_tree c → wf_trees (<[key_of pre := c]> m).
Proof.
  intros Hwf Hpre Ht Hc. apply wf_insert; [done..|]. intros p n ->. apply Forall_app in Hpre as [Hp [Hn _]%Forall_cons].
  eapply wf_closed; [done..|]. by eexists.
Qed.
Lemma wf_load m pre n t s :
  wf_trees m → Forall good_name pre → good_name n → m !! key_of pre = Some t → good_tree s →
  wf_trees (<[key_of (pre ++ [n]) := s]> m).
Proof.
  intros Hwf Hpre Hn Ht Hs. apply wf_insert; [done|by apply good_snoc|done|]. intros p n' Heq.
  apply app_inj_tail in Heq as [<- _]. by eexists.
Qed.

(** ** Edits *)

Definition wanted (kid : option (EntryKind * ObjectId * UpsertMode)) : option (Z * ObjectId) :=
  match kid with Some (k, id, _) => Some (kind_mode k, id) | None => None end.
Definition normal (kid : option (EntryKind * ObjectId * UpsertMode)) : Prop :=
  match kid with Some (_, _, um) => um = UpsertNormal | None => True end.

Lemma lookup_in_other m m' pre t c n q :
  find_name c n = find_name t n →
  (∀ q', q' `prefix_of` q → m' !! key_of (pre ++ n :: q') = m !! key_of (pre ++ n :: q')) →
  lookup_in m' pre c (n :: q) = lookup_in m pre t (n :: q).
Proof.
  intros Hf Hm. transitivity (lookup_in m' pre t (n :: q)); [cbn [lookup_in]; by rewrite Hf|].
  apply lookup_in_ext. intros [|n' q'] Hne Hpre; [done|].
  apply prefix_cons_inv_1 in Hpre as Heq. subst n'. apply prefix_cons_inv_2 in Hpre. by apply Hm.
Qed.
Lemma key_below_ne pre n q : Forall good_name (pre ++ n :: q) → key_of (pre ++ n :: q) ≠ key_of pre.
Proof.
  intros Hg Heq. apply key_of_inj in Heq; [|done|by apply Forall_app in Hg as [? _]].
  apply (f_equal length) in Heq. rewrite length_app in Heq. cbn in Heq. lia.
Qed.

(** What an edit at [path] below [pre] does to the map. *)
Definition edited (m : gmap bytes Tree) (pre : list bytes) (t : Tree) (path : list bytes)
    (v : option (Z * ObjectId)) (m' : gmap bytes Tree) : Prop :=
  ∃ t', m' !! key_of pre = Some t' ∧ lookup_in m' pre t' path = v ∧
    ∀ q, Forall good_name q → ¬ q `prefix_of` path → ¬ path `prefix_of` q →
      lookup_in m' pre t' q = lookup_in m pre t q.
Definition outside_same (m m' : gmap bytes Tree) (pre : list bytes) : Prop :=
  ∀ q, Forall good_name q → ¬ pre `prefix_of` q → m' !! key_of q = m !! key_of q.

Lemma edit_at_end kid name pre m t :
  normal kid → good_name name → Forall good_name pre → wf_trees m → m !! key_of pre = Some t →
  ∃ m', edit_loop find_tree (mkEditor m (key_of pre)) [name] kid = Ok (mkEditor m' (key_of pre), None) ∧
    wf_trees m' ∧ outside_same m m' pre ∧ edited m pre t [name] (wanted kid) m'.
Proof.
  intros Hnormal Hn Hpre Hwf Ht. pose proof (wf_good _ Hwf _ _ Ht) as Hgt.
  destruct (edit_last t name kid Hgt Hn) as (c & Hlevel & Hc & Hsame & Hf).
  exists (<[key_of pre := c]> m). split_and!.
  - cbn [edit_loop trees path_buf]. rewrite Ht. cbn [expect]. rewrite bind_Ok.
    rewrite bool_decide_eq_false_2 by apply Hn. rewrite bool_decide_eq_true_2 by done. rewrite Hlevel, bind_Ok.
    destruct kid as [[[k id] um]|]; [|done]. cbn in Hnormal. by subst um.
  - by eapply wf_replace.
  - intros q Hq Hnp. apply lookup_insert_ne. intros Heq. apply key_of_inj in Heq as <-; [|done|done]. done.
  - exists c. split_and!; [apply lookup_insert_eq| |].
    + cbn [lookup_in]. rewrite Hf. by destruct kid as [[[k id] um]|].
    + intros [|n q] Hq Hnp1 Hnp2; [by destruct Hnp1; apply prefix_nil|].
      apply Forall_cons in Hq as [Hgn Hq]. apply lookup_in_other.
      * apply (find_name_other name); [done..|]. intros ->. apply Hnp2. by exists q.
      * intros q' [q2 ->]. apply lookup_insert_ne. apply Forall_app in Hq as [Hq _].
        symmetry. apply key_below_ne. apply Forall_app. split; [done|]. by constructor.
Qed.

Lemma prefix_snoc_not (pre q : list bytes) n : ¬ pre `prefix_of` q → ¬ (pre ++ [n]) `prefix_of` q.
Proof. intros H Hp. apply H. by eapply prefix_app_l. Qed.

(** Going down one level: the subtree is in the map after loading it. *)
Lemma edit_step (name : bytes) (rest pre : list bytes) (m m2 m' : gmap bytes Tree) (t c s : Tree) e v :
  rest ≠ [] → Forall good_name pre → good_name name → Forall good_name rest →
  (* the entry that leads down, and the other entries *)
  find_name c name = Some e → is_tree (mode e) = true → good_tree t → good_tree c → same_but name t c →
  (* the map with the subtree *)
  m2 !! key_of pre = Some c → m2 !! key_of (pre ++ [name]) = Some s →
  (∀ q, Forall good_name q → q ≠ pre → q ≠ pre ++ [name] → m2 !! key_of q = m !! key_of q) →
  (* what it was before *)
  (∀ q, Forall good_name q → q ≠ [] → lookup_in m pre t (name :: q) = lookup_in m (pre ++ [name]) s q) →
  outside_same m2 m' (pre ++ [name]) → edited m2 (pre ++ [name]) s rest v m' →
  edited m pre t (name :: rest) v m' ∧ outside_same m m' pre.
Proof.
  intros Hrest Hpre Hn Hgrest Hfe Hte Hgt Hgc Hsame Hm2c Hm2s Hm2 Hbefore Hout (s' & Hs' & Hv & Hframe).
  assert (Hpn : ∀ l, Forall good_name l → Forall good_name (pre ++ name :: l)).
  { intros l Hl. apply Forall_app. split; [done|]. by constructor. }
  assert (Hnp : ¬ (pre ++ [name]) `prefix_of` pre).
  { intros Hp. apply prefix_length in Hp. rewrite length_app in Hp. cbn in Hp. lia. }
  assert (Hc' : m' !! key_of pre = Some c) by (rewrite (Hout pre); done).
  split.
  - exists c. split_and!; [done| |].
    + cbn [lookup_in]. rewrite Hfe. cbn [mbind option_bind]. rewrite bool_decide_eq_false_2 by done.
      rewrite Hte, Hs'. cbn. done.
    + intros [|n q] Hq Hnp1 Hnp2; [by destruct Hnp1; apply prefix_nil|]. apply Forall_cons in Hq as [Hgn Hq].
      destruct (decide (n = name)) as [->|Hne].
      * assert (Hqne : q ≠ []). { intros ->. apply Hnp1. by exists rest. }
        rewrite (Hbefore q Hq Hqne).
        rewrite <- (lookup_in_ext m m2 (pre ++ [name]) s q).
        -- cbn [lookup_in]. rewrite Hfe. cbn [mbind option_bind]. rewrite bool_decide_eq_false_2 by done.
           rewrite Hte, Hs'. cbn. apply Hframe; [done| |]; intros Hp; [apply Hnp1|apply Hnp2]; by apply prefix_cons.
        -- intros q' Hq'ne [q2 ->]. apply Forall_app in Hq as [Hq' _]. rewrite <- app_assoc. apply Hm2.
           ++ by apply Hpn.
           ++ intros Heq. apply (f_equal length) in Heq. rewrite length_app in Heq. cbn in Heq. lia.
           ++ intros Heq. apply app_inv_head in Heq. destruct q'; [done|]. by simplify_eq.
      * apply lookup_in_other; [by apply (find_name_other name)|]. intros q' [q2 ->].
        apply Forall_app in Hq as [Hq' _].
        assert (Hg' : Forall good_name (pre ++ n :: q')) by (apply Forall_app; split; [done|by constructor]).
        rewrite (Hout (pre ++ n :: q')), (Hm2 (pre ++ n :: q')); [done|done| | |done|].
        -- intros Heq. apply (f_equal length) in Heq. rewrite length_app in Heq. cbn in Heq. lia.
        -- intros Heq. apply app_inv_head in Heq. by simplify_eq.
        -- intros Hp. apply prefix_app_inv in Hp. apply prefix_cons_inv_1 in Hp. by subst.
  - intros q Hq Hnp'. rewrite (Hout q), (Hm2 q); [done|done| | |done|by apply prefix_snoc_not].
    + by intros ->.
    + intros ->. apply Hnp'. by exists [name].
Qed.

Lemma edit_loop_unfold m pre name rest kid t l :
  m !! key_of pre = Some t → name ≠ [] → rest ≠ [] → edit_level t name false kid = Ok l →
  edit_loop find_tree (mkEditor m (key_of pre)) (name :: rest) kid =
  match l with
  | Break c => Ok (mkEditor (<[key_of pre := c]> m) (key_of pre), None)
  | Next c lk =>
      let m := <[key_of pre := c]> m in
      let p := key_of (pre ++ [name]) in
      match m !! p with
      | Some _ => edit_loop find_tree (mkEditor m p) rest kid
      | None =>
          match (match lk with Some id => if is_empty_tree id then inr [] else find_tree id | None => inr [] end) with
          | inl err => Ok (mkEditor m p, Some (FindExistingObject err))
          | inr s => edit_loop find_tree (mkEditor (<[p := s]> m) p) rest kid
          end
      end
  end.
Proof.
  intros Ht Hn Hr Hl. cbn [edit_loop trees path_buf]. rewrite Ht. cbn [expect]. rewrite bind_Ok.
  rewrite !bool_decide_eq_false_2 by done. rewrite Hl, bind_Ok. destruct l as [c|c lk]; [done|].
  cbn [andb]. unfold set_trees, with_path. cbn [trees path_buf]. by rewrite key_of_snoc.
Qed.

(** The outcome of editing [path] below the tree [t] at [pre]. *)
Definition edits (kid : option (EntryKind * ObjectId * UpsertMode)) (path : list bytes) (m : gmap bytes Tree)
    (pre : list bytes) (t : Tree) (r : res Empty_set (Editor * option (@EditorError FindError))) : Prop :=
  ∃ m' pb err, r = Ok (mkEditor m' pb, err) ∧ wf_trees m' ∧
    match err with
    | Some e => ∃ id x, e = FindExistingObject x ∧ find_tree id = inl x
    | None => no_left_over m pre path → edited m pre t path (wanted kid) m' ∧ outside_same m m' pre
    end.

Lemma no_left_over_below (name : bytes) (rest pre : list bytes) (m m2 : gmap bytes Tree) (s : Tree) :
  Forall good_name pre → good_name name → Forall good_name rest →
  (m !! key_of (pre ++ [name]) = Some s ∨ m !! key_of (pre ++ [name]) = None) →
  m2 !! key_of (pre ++ [name]) = Some s →
  (∀ q, Forall good_name q → q ≠ pre → q ≠ pre ++ [name] → m2 !! key_of q = m !! key_of q) →
  no_left_over m pre (name :: rest) → no_left_over m2 (pre ++ [name]) rest.
Proof.
  intros Hpre Hn Hrest Hs Hm2s Hm2 Hno p n q -> Hq.
  apply Forall_app in Hrest as [Hp [Hgn _]%Forall_cons].
  assert (Hlen : ∀ l, l ≠ [] → (pre ++ [name]) ++ l ≠ pre ∧ (pre ++ [name]) ++ l ≠ pre ++ [name]).
  { intros l Hl. split; intros Heq%(f_equal length); rewrite !length_app in Heq; destruct l; [done|cbn in Heq; lia|done|cbn in Heq; lia]. }
  assert (Hg : Forall good_name ((pre ++ [name]) ++ p)) by (apply Forall_app; split; [by apply good_snoc|done]).
  intros Hsome. rewrite <- app_assoc in Hsome.
  rewrite Hm2 in Hsome; [|rewrite app_assoc; by apply good_snoc|apply Hlen; by destruct p..].
  destruct (Hno (name :: p) n q) as (t & e & Ht & He); [done|done|by rewrite <- !app_assoc in Hsome |- *|].
  exists t, e. split; [|done]. destruct (decide (p = [])) as [->|Hpne].
  - rewrite app_nil_r, Hm2s. destruct Hs as [Hs|Hs]; rewrite Hs in Ht; done.
  - rewrite Hm2; [by rewrite <- app_assoc|done|by apply Hlen..].
Qed.

(** Going down to the subtree [s], which the map has or which was loaded. *)
Lemma edits_below kid name rest pre m t c e s :
  (∀ pre m t, Forall good_name pre → wf_trees m → m !! key_of pre = Some t →
    edits kid rest m pre t (edit_loop find_tree (mkEditor m (key_of pre)) rest kid)) →
  good_name name → Forall good_name rest → rest ≠ [] → Forall good_name pre → good_tree t →
  good_tree c → same_but name t c → find_name c name = Some e → is_tree (mode e) = true →
  wf_trees (<[key_of pre := c]> m) → good_tree s →
  (m !! key_of (pre ++ [name]) = Some s ∨ m !! key_of (pre ++ [name]) = None) →
  (attached m pre name → ∀ q, q ≠ [] → lookup_in m pre t (name :: q) = lookup_in m (pre ++ [name]) s q) →
  edits kid (name :: rest) m pre t (edit_loop find_tree
    (mkEditor (<[key_of (pre ++ [name]) := s]> (<[key_of pre := c]> m)) (key_of (pre ++ [name]))) rest kid).
Proof.
  intros IH Hn Hrest Hne Hpre Hgt Hc Hsame Hfe Hte Hwfc Hs Hmaybe Hbefore.
  assert (Hgpn : Forall good_name (pre ++ [name])) by (by apply good_snoc).
  assert (Hkne : key_of pre ≠ key_of (pre ++ [name])) by (symmetry; by apply key_below_ne).
  set (m2 := <[key_of (pre ++ [name]) := s]> (<[key_of pre := c]> m)).
  assert (Hwf2 : wf_trees m2).
  { destruct Hmaybe as [Hin|Hin].
    - unfold m2. rewrite insert_id; [done|]. by rewrite lookup_insert_ne.
    - apply (wf_load _ pre name c); [done..|apply lookup_insert_eq|done]. }
  assert (Hm2 : ∀ q, Forall good_name q → q ≠ pre → q ≠ pre ++ [name] → m2 !! key_of q = m !! key_of q).
  { intros q Hq Hq1 Hq2. unfold m2. rewrite !lookup_insert_ne; [done| |]; intros Heq;
      apply key_of_inj in Heq; by auto. }
  destruct (IH (pre ++ [name]) m2 s) as (m' & pb & err & Hl' & Hwf' & Hres); [done|done|apply lookup_insert_eq|].
  exists m', pb, err. split_and!; [done|done|]. destruct err as [e'|]; [done|]. intros Hno.
  destruct Hres as [He Ho]; [eapply no_left_over_below; try done; apply lookup_insert_eq|].
  assert (Hat : attached m pre name) by (rewrite <- (app_nil_r pre); by eapply (Hno [])).
  eapply (edit_step name rest pre m m2 m' t c s e); try done.
  - unfold m2. rewrite lookup_insert_ne by done. apply lookup_insert_eq.
  - apply lookup_insert_eq.
  - intros q _. by apply Hbefore.
Qed.

Lemma edit_loop_spec kid path pre m t :
  good_database → normal kid → Forall good_name path → path ≠ [] → Forall good_name pre → wf_trees m →
  m !! key_of pre = Some t → edits kid path m pre t (edit_loop find_tree (mkEditor m (key_of pre)) path kid).
Proof.
  intros Hdb Hnormal Hpath Hpne. revert pre m t. induction path as [|name rest IH]; [done|].
  intros pre m t Hpre Hwf Ht. apply Forall_cons in Hpath as [Hn Hrest].
  destruct (decide (rest = [])) as [->|Hne].
  { destruct (edit_at_end kid name pre m t) as (m' & Hl & Hwf' & Ho & He); [done..|].
    exists m', (key_of pre), None. by split_and!. }
  pose proof (wf_good _ Hwf _ _ Ht) as Hgt. specialize (IH Hrest Hne).
  assert (Hkne : key_of pre ≠ key_of (pre ++ [name])) by (symmetry; apply key_below_ne; by apply good_snoc).
  destruct (edit_inner t name kid Hgt Hn) as (l & Hlevel & Hl).
  rewrite (edit_loop_unfold m pre name rest kid t l) by (done || apply Hn).
  destruct Hl as [(e & Hfe & Hte & ->)|[Hno Hl]].
  - (* an existing tree *)
    cbn zeta.
    assert (Hsub : ∀ s, (match m !! key_of (pre ++ [name]) with Some s => Some s | None => load (oid e) end) = Some s →
      attached m pre name → ∀ q, q ≠ [] → lookup_in m pre t (name :: q) = lookup_in m (pre ++ [name]) s q).
    { intros s Hs _ q Hq. cbn [lookup_in]. rewrite Hfe. cbn [mbind option_bind]. rewrite bool_decide_eq_false_2 by done.
      by rewrite Hte, Hs. }
    assert (Hwft : wf_trees (<[key_of pre := t]> m)) by (by rewrite insert_id).
    rewrite lookup_insert_ne by done. destruct (m !! key_of (pre ++ [name])) as [s|] eqn:Hs.
    + rewrite <- (insert_id (<[key_of pre := t]> m) (key_of (pre ++ [name])) s) by (by rewrite lookup_insert_ne).
      apply (edits_below kid name rest pre m t t e s); try done; [exact (wf_good _ Hwf _ _ Hs)|by left|by apply Hsub].
    + assert (Hload : load (oid e) = match (if is_empty_tree (oid e) then inr [] else find_tree (oid e)) with
        | inr s => Some s | inl _ => None end) by (unfold load; by destruct (is_empty_tree (oid e))).
      destruct (if is_empty_tree (oid e) then inr [] else find_tree (oid e)) as [err|s] eqn:Hfind.
      * eexists _, _, _. split_and!; [done|done|]. destruct (is_empty_tree (oid e)); [done|]. eauto.
      * apply (edits_below kid name rest pre m t t e s); try done; [by eapply load_good|by right|by apply Hsub].
  - (* no tree there, so the map has at most a left-over one *)
    assert (Hnothing : ∀ q, q ≠ [] → lookup_in m pre t (name :: q) = None).
    { intros q Hq. cbn [lookup_in]. destruct (find_name t name) as [e|] eqn:He; [|done]. cbn [mbind option_bind].
      rewrite bool_decide_eq_false_2 by done. by rewrite (Hno e). }
    destruct kid as [[[k id] um]|].
    + destruct Hl as (c & -> & Hc & Hsame & Hfc). cbn zeta. rewrite lookup_insert_ne by done.
      assert (Hwfc : wf_trees (<[key_of pre := c]> m)) by (by eapply wf_replace).
      destruct (m !! key_of (pre ++ [name])) as [s|] eqn:Hs.
      * rewrite <- (insert_id (<[key_of pre := c]> m) (key_of (pre ++ [name])) s) by (by rewrite lookup_insert_ne).
        eapply (edits_below _ name rest pre m t c _ s); [done..|exact Hfc|done|done|exact (wf_good _ Hwf _ _ Hs)|by left|].
        intros (x & e & Hx & He & Hte); [by rewrite Hs|]. assert (x = t) as -> by congruence.
        apply Hno in He. congruence.
      * eapply (edits_below _ name rest pre m t c _ []); [done..|exact Hfc|done|done|apply good_nil|by right|].
        intros _ q Hqne. rewrite Hnothing by done. by destruct q.
    + subst l. rewrite insert_id by done. eexists m, (key_of pre), None. split_and!; [done|done|]. intros _. split; [|by intros ?].
      exists t. split_and!; [done|by rewrite Hnothing|done].
Qed.

(** Each edit keeps the editor well-formed, whatever it has done before. *)
Lemma edit_wf ed path kid :
  good_database → wf_trees (trees ed) → normal kid → Forall good_name path → path ≠ [] →
  ∃ ed' err, upsert_or_remove_at_pathbuf find_tree (with_path ed []) path kid = Ok (ed', err) ∧ wf_trees (trees ed').
Proof.
  intros Hdb Hwf Hk Hg Hne. destruct (wf_root _ Hwf) as [t Ht].
  destruct (edit_loop_spec kid path [] (trees ed) t) as (m' & pb & err & Hl & Hwf' & _); [done..|].
  exists (mkEditor m' pb), err. unfold upsert_or_remove_at_pathbuf. cbn [with_path trees path_buf].
  rewrite Ht. cbn [expect]. by rewrite bind_Ok.
Qed.
(** The editors that edits make of one for the tree [root]. *)
Inductive made (root : Tree) : Editor → Prop :=
| made_new : made root (editor_new root)
| made_upsert ed path kind id ed' err :
    made root ed → Forall good_name path → path ≠ [] →
    upsert find_tree ed path kind id = Ok (ed', err) → made root ed'
| made_remove ed path ed' err :
    made root ed → Forall good_name path → path ≠ [] →
    remove find_tree ed path = Ok (ed', err) → made root ed'.

(** C30: In an editor that is well-formed (it has a root, each of its trees is in
    git's order with unique names that are not empty and have no separator, and
    above each tree but the root it has the parent tree), and with an object
    database whose trees are such trees, [upsert] at a path that is not empty and
    whose components are not empty and have no separator does not panic, fails
    only if the database does, and in each case keeps the editor well-formed.  If
    it does not fail, and there is no left-over tree on the way to the path (of
    the trees of the editor strictly above the path, each belongs to an entry of
    its parent that is a tree, which is not so once an edited directory was
    removed or replaced by a file), then the path has the new mode and id, and no
    path that is neither above nor below it has changed. *)
Theorem upsert_correct ed path kind id :
  good_database → wf_trees (trees ed) → Forall good_name path → path ≠ [] →
  ∃ ed' err, upsert find_tree ed path kind id = Ok (ed', err) ∧ wf_trees (trees ed') ∧
    match err with
    | Some e => ∃ i x, e = FindExistingObject x ∧ find_tree i = inl x
    | None => no_left_over (trees ed) [] path →
        lookup_path (trees ed') path = Some (kind_mode kind, id) ∧
        ∀ q, Forall good_name q → ¬ q `prefix_of` path → ¬ path `prefix_of` q →
          lookup_path (trees ed') q = lookup_path (trees ed) q
    end.
Proof.
  intros Hdb Hwf Hg Hne. destruct (wf_root _ Hwf) as [t Ht].
  destruct (edit_loop_spec (Some (kind, id, UpsertNormal)) path [] (trees ed) t) as (m' & pb & err & Hl & Hwf' & H);
    [done..|].
  exists (mkEditor m' pb), err. unfold upsert, upsert_or_remove_at_pathbuf. cbn [with_path trees path_buf].
  rewrite Ht. cbn [expect]. rewrite bind_Ok. split_and!; [done|done|].
  destruct err; [done|]. intros Hno. destruct (H Hno) as [(t' & Ht' & Hv & Hf) _]. unfold lookup_path. cbn [trees].
  change (key_of []) with (@nil Z) in *. rewrite Ht', Ht. cbn. done.
Qed.

(** [remove] leaves no entry at the path, changes no path that is neither above
    nor below it if no left-over tree is on the way, keeps the editor well-formed,
    and succeeds when there is nothing to remove. *)
Theorem remove_correct ed path :
  good_database → wf_trees (trees ed) → Forall good_name path → path ≠ [] →
  ∃ ed' err, remove find_tree ed path = Ok (ed', err) ∧ wf_trees (trees ed') ∧
    match err with
    | Some e => ∃ i x, e = FindExistingObject x ∧ find_tree i = inl x
    | None => no_left_over (trees ed) [] path →
        lookup_path (trees ed') path = None ∧
        ∀ q, Forall good_name q → ¬ q `prefix_of` path → ¬ path `prefix_of` q →
          lookup_path (trees ed') q = lookup_path (trees ed) q
    end.
Proof.
  intros Hdb Hwf Hg Hne. destruct (wf_root _ Hwf) as [t Ht].
  destruct (edit_loop_spec None path [] (trees ed) t) as (m' & pb & err & Hl & Hwf' & H); [done..|].
  exists (mkEditor m' pb), err. unfold remove, upsert_or_remove_at_pathbuf. cbn [with_path trees path_buf].
  rewrite Ht. cbn [expect]. rewrite bind_Ok. split_and!; [done|done|].
  destruct err; [done|]. intros Hno. destruct (H Hno) as [(t' & Ht' & Hv & Hf) _]. unfold lookup_path. cbn [trees].
  change (key_of []) with (@nil Z) in *. rewrite Ht', Ht. cbn. done.
Qed.

Lemma new_wf root : good_tree root → wf_trees (trees (editor_new root)).
Proof.
  intros Hg. unfold editor_new. cbn [trees]. split.
  - eauto.
  - intros k t [_ <-]%lookup_singleton_Some. done.
  - intros k [t [<- _]%lookup_singleton_Some]. by exists [].
  - intros path n Hp Hn [t [Heq _]%lookup_singleton_Some]. apply (key_of_inj []) in Heq; [by destruct path|constructor|].
    by apply good_snoc.
Qed.
Lemma made_wf root ed : good_database → good_tree root → made root ed → wf_trees (trees ed).
Proof.
  intros Hdb Hr. induction 1 as [|ed path kind id ed' err _ IH Hg Hne He|ed path ed' err _ IH Hg Hne He].
  - by apply new_wf.
  - destruct (edit_wf ed path (Some (kind, id, UpsertNormal))) as (ed2 & err2 & He2 & Hwf); [done..|].
    unfold upsert in He. rewrite He2 in He. by simplify_eq.
  - destruct (edit_wf ed path None) as (ed2 & err2 & He2 & Hwf); [done..|].
    unfold remove in He. rewrite He2 in He. by simplify_eq.
Qed.
End Contents.


(** ** Examples *)

(** A database with one tree, that of the directory [d], with the file [n]. *)
Definition oid_n (z : Z) : ObjectId := Sha1 (replicate 20 z).
Definition blob_entry (name : bytes) (z : Z) : Entry := mkEntry (kind_mode EKBlob) name (oid_n z).
Definition dir_entry (name : bytes) (z : Z) : Entry := mkEntry (kind_mode EKTree) name (oid_n z).
Definition example_find (id : ObjectId) : unit + Tree :=
  if bool_decide (id = oid_n 9) then inr [blob_entry (bs "n") 1] else inl tt.
Definition example_root : Tree := [blob_entry (bs "a") 2; dir_entry (bs "d") 9].

#[local] Instance good_name_dec n : Decision (good_name n).
Proof. unfold good_name, no_slash. apply _. Defined.
Lemma example_good_root : good_tree example_root.
Proof.
  split_and!.
  - repeat constructor.
  - by_decision.
  - by_decision.
Qed.
Lemma example_good_database : good_database example_find.
Proof.
  intros id t. unfold example_find. case_bool_decide; [|done]. intros [= <-]. split_and!.
  - repeat constructor.
  - apply NoDup_singleton.
  - by_decision.
Qed.
(** An editor with an edit in the directory [d], which then became a file: the tree
    of the directory is left over. *)
Definition result_or_new (r : res Empty_set (Editor * option (@EditorError unit))) : Editor :=
  match r with Ok (ed, _) => ed | _ => editor_new [] end.
Definition example_edited : Editor :=
  result_or_new (upsert example_find (editor_new example_root) [bs "d"; bs "x"] EKBlob (oid_n 5)).
Definition example_left_over : Editor :=
  result_or_new (upsert example_find example_edited [bs "d"] EKBlob (oid_n 7)).
Lemma example_edited_made : made example_find example_root example_edited.
Proof.
  eapply (made_upsert _ _ (editor_new example_root) [bs "d"; bs "x"] EKBlob (oid_n 5) _ None); [constructor|by_decision|done|].
  vm_compute. reflexivity.
Qed.
Lemma example_left_over_made : made example_find example_root example_left_over.
Proof.
  eapply (made_upsert _ _ example_edited [bs "d"] EKBlob (oid_n 7) _ None); [apply example_edited_made|by_decision|done|].
  vm_compute. reflexivity.
Qed.
Lemma example_left_over_keeps : is_Some (trees example_left_over !! bs "d") ∧
  lookup_path example_find (trees example_left_over) [bs "d"] = Some (kind_mode EKBlob, oid_n 7) ∧
  lookup_path example_find (trees example_left_over) [bs "d"; bs "x"] = None.
Proof. split; [by_decision|]. split; vm_compute; reflexivity. Qed.

Lemma upsert_correct_witness :
  ∃ ed', upsert example_find example_left_over [bs "e"; bs "x"] EKBlob (oid_n 5) = Ok (ed', None) ∧
    lookup_path example_find (trees ed') [bs "e"; bs "x"] = Some (kind_mode EKBlob, oid_n 5) ∧
    lookup_path example_find (trees ed') [bs "d"; bs "x"] = None ∧
    lookup_path example_find (trees ed') [bs "d"] = Some (kind_mode EKBlob, oid_n 7).
Proof.
  destruct (upsert_correct example_find example_left_over [bs "e"; bs "x"] EKBlob (oid_n 5))
    as (ed' & err & Hu & _ & H).
  - exact example_good_database.
  - apply (made_wf example_find example_root); [exact example_good_database|exact example_good_root|].
    exact example_left_over_made.
  - by_decision.
  - done.
  - destruct err as [e|].
    { exfalso. vm_compute in Hu. discriminate Hu. }
    exists ed'. split; [exact Hu|]. destruct H as [H1 H2].
    { intros p n q Heq Hq [t Ht]. destruct p as [|a [|b p]]; simplify_eq/=. by destruct p. }
    split; [exact H1|].
    rewrite !H2 by (by_decision || (intros Hp%prefix_cons_inv_1; done)).
    destruct example_left_over_keeps as (_ & Hd & Hdx). split; [exact Hdx|exact Hd].
Defined.

Lemma remove_correct_witness :
  ∃ ed', remove example_find (editor_new example_root) [bs "d"; bs "n"] = Ok (ed', None) ∧
    lookup_path example_find (trees ed') [bs "d"; bs "n"] = None ∧
    lookup_path example_find (trees ed') [bs "a"] = Some (kind_mode EKBlob, oid_n 2).
Proof.
  destruct (remove_correct example_find (editor_new example_root) [bs "d"; bs "n"])
    as (ed' & err & Hu & _ & H).
  - exact example_good_database.
  - apply new_wf, example_good_root.
  - by_decision.
  - done.
  - destruct err as [e|].
    { exfalso. vm_compute in Hu. discriminate Hu. }
    exists ed'. split; [exact Hu|]. destruct H as [H1 H2].
    { intros p n q Heq Hq [t Ht]. destruct p as [|a [|b p]]; simplify_eq/=. by destruct p. }
    split; [exact H1|]. rewrite H2 by (by_decision || (intros Hp%prefix_cons_inv_1; done)). vm_compute. reflexivity.
Defined.

(** Sequences of edits; errors are dropped. *)
Definition and_then (r : res Empty_set (Editor * option (@EditorError unit)))
    (f : Editor → res Empty_set (Editor * option (@EditorError unit))) :
  res Empty_set (Editor * option (@EditorError unit)) := '(ed, _) ← r; f ed.

(** A directory that was edited, removed and then added again has its old
    content, as its tree stays in the map. *)
Example removed_directory_returns :
  ∃ ed, and_then (and_then (upsert example_find (editor_new example_root) [bs "d"; bs "x"] EKBlob (oid_n 5))
            (λ ed, remove example_find ed [bs "d"]))
          (λ ed, upsert example_find ed [bs "d"; bs "y"] EKBlob (oid_n 6)) = Ok (ed, None) ∧
    lookup_path example_find (trees ed) [bs "d"; bs "x"] = Some (kind_mode EKBlob, oid_n 5) ∧
    lookup_path example_find (trees ed) [bs "d"; bs "n"] = Some (kind_mode EKBlob, oid_n 1).
Proof. eexists. split; [vm_compute; reflexivity|]. split; vm_compute; reflexivity. Qed.

(** [cursor_at] empties an existing directory that was not loaded before. *)
Example cursor_at_empties_directory :
  lookup_path example_find (trees (editor_new example_root)) [bs "d"; bs "n"] = Some (kind_mode EKBlob, oid_n 1) ∧
  ∃ ed, cursor_at example_find KSha1 (editor_new example_root) [bs "d"] = Ok (ed, inr (bs "d")) ∧
    lookup_path example_find (trees ed) [bs "d"; bs "n"] = None.
Proof. split; [vm_compute; reflexivity|]. eexists. split; vm_compute; reflexivity. Qed.

(** A single empty component is an error for [cursor_at]. *)
Example cursor_at_empty_component :
  cursor_at example_find KSha1 (editor_new example_root) [[]] = Ok (editor_new example_root, inl EmptyPathComponent).
Proof. vm_compute. reflexivity. Qed.
