(* ===== verification/TreeWrite.v ===== *)
(** * Writing edited trees

    The loop of [write_at_pathbuf] of [gix-object/src/tree/editor.rs], which
    [TreeEditor] models: it writes the trees of an editor, children before
    parents, drops empty trees and placeholders, and leaves the root.  The
    loop keeps an invariant over its two stacks; with it, writing terminates,
    writes each changed tree once, and what a path leads to does not change. *)

From S2P Require Import Prelude Slices External Hash PackEntry Btoi ObjectTree TreeEditor.

(** ** Writing *)

(** The trees that the map [M] stands for, with ids by [oid_of]: subtrees of the
    map replace the ids of their entries, empty ones and placeholders
    disappear.  [W] are the trees that were written. *)
Section Flush.
Context (M : gmap bytes Tree) (oid_of : Tree → ObjectId).

Inductive flushed (W : list Tree) : list bytes → Tree → Tree → Prop :=
| flushed_tree pre o l :
    flushed_entries W pre o l → flushed W pre o (filter (λ e, is_null (oid e) = false) l)
with flushed_entries (W : list Tree) : list bytes → Tree → Tree → Prop :=
| flushed_nil pre : flushed_entries W pre [] []
| flushed_keep pre e o l :
    (is_tree (mode e) = true → M !! key_of (pre ++ [filename e]) = None) →
    flushed_entries W pre o l → flushed_entries W pre (e :: o) (e :: l)
| flushed_sub pre e o l s s' :
    is_tree (mode e) = true → M !! key_of (pre ++ [filename e]) = Some s →
    flushed W (pre ++ [filename e]) s s' → s' = [] ∨ s' ∈ W →
    flushed_entries W pre o l →
    flushed_entries W pre (e :: o) ((if bool_decide (s' = []) then [] else [set_oid (oid_of s') e]) ++ l).
Scheme flushed_mind := Minimality for flushed Sort Prop
  with flushed_entries_mind := Minimality for flushed_entries Sort Prop.

Lemma flushed_mono W W' pre o l : W ⊆ W' → flushed W pre o l → flushed W' pre o l.
Proof.
  intros HW. revert pre o l.
  apply (flushed_mind W (flushed W') (flushed_entries W')); intros.
  - by constructor.
  - constructor.
  - by constructor.
  - eapply flushed_sub; [done..| |done]. destruct H3 as [|H3]; [by left|right]. by apply HW.
Qed.

(** A tree of which the subtrees with [pend] are still to be flushed. *)
Definition done_sub (W : list Tree) (p : list bytes) (s s' : Tree) : Prop :=
  flushed W p s s' ∧ (s' = [] ∨ s' ∈ W).
Inductive partial (W : list Tree) (pend : bytes → Prop) (pre : list bytes) : Tree → Tree → Prop :=
| partial_nil : partial W pend pre [] []
| partial_keep e o l :
    (is_tree (mode e) = true → M !! key_of (pre ++ [filename e]) = None ∨ pend (filename e)) →
    partial W pend pre o l → partial W pend pre (e :: o) (e :: l)
| partial_sub e o l s s' :
    is_tree (mode e) = true → M !! key_of (pre ++ [filename e]) = Some s → ¬ pend (filename e) →
    done_sub W (pre ++ [filename e]) s s' → partial W pend pre o l →
    partial W pend pre (e :: o) ((if bool_decide (s' = []) then [] else [set_oid (oid_of s') e]) ++ l).

Lemma partial_mono W W' pend pend' pre o l :
  W ⊆ W' → (∀ n, n ∈ filename <$> o → pend n ↔ pend' n) → partial W pend pre o l → partial W' pend' pre o l.
Proof.
  intros HW Hp Hl. induction Hl as [|e o l He _ IH|e o l s s' Ht Hs Hnp [Hd Hw] _ IH].
  - constructor.
  - constructor; [|apply IH; intros; apply Hp; by right].
    intros Ht. destruct (He Ht) as [|Hpe]; [by left|right]. apply Hp; [left|done].
  - eapply partial_sub; [done..| | |apply IH; intros; apply Hp; by right].
    + rewrite <- Hp; [done|left].
    + split; [by eapply flushed_mono|]. destruct Hw as [|Hw]; [by left|right]. by apply HW.
Qed.
Lemma partial_start W pre o : partial W (λ n, is_Some (M !! key_of (pre ++ [n]))) pre o o.
Proof.
  induction o as [|e o IH]; [constructor|]. constructor; [|done]. intros _.
  destruct (M !! key_of (pre ++ [filename e])); [right; eauto|by left].
Qed.
Lemma partial_end W pend pre o l : partial W pend pre o l →
  (∀ n, n ∈ filename <$> o → ¬ pend n) → flushed W pre o (filter (λ e, is_null (oid e) = false) l).
Proof.
  intros Hl Hp. constructor. induction Hl as [|e o l He _ IH|e o l s s' Ht Hs Hnp [Hd Hw] _ IH].
  - constructor.
  - constructor; [|apply IH; intros; apply Hp; by right]. intros Ht. destruct (He Ht) as [|Hpe]; [done|].
    destruct (Hp (filename e)); [left|done].
  - eapply flushed_sub; [done..|]. apply IH. intros; apply Hp; by right.
Qed.

(** Flushing does not change the order and adds no names. *)
Lemma partial_keys W pend pre o l : partial W pend pre o l → ∀ x, x ∈ l →
  ∃ e, e ∈ o ∧ filename x = filename e ∧ mode x = mode e.
Proof.
  induction 1 as [|e o l He _ IH|e o l s s' Ht Hs Hnp Hd _ IH]; intros x Hx; [by apply elem_of_nil in Hx| |].
  - apply elem_of_cons in Hx as [->|Hx]; [exists e; split_and!; [left|done|done]|].
    destruct (IH x Hx) as (y & ? & ?). exists y. split; [by right|done].
  - apply elem_of_app in Hx as [Hx|Hx].
    + case_bool_decide; [by apply elem_of_nil in Hx|]. apply list_elem_of_singleton in Hx as ->.
      exists e. split_and!; [left|done|done].
    + destruct (IH x Hx) as (y & ? & ?). exists y. split; [by right|done].
Qed.
Lemma good_cons e t : good_tree (e :: t) ↔
  good_name (filename e) ∧ filename e ∉ filename <$> t ∧ (∀ x, x ∈ t → bytes_lt (tkey e) (tkey x)) ∧ good_tree t.
Proof.
  unfold good_tree. rewrite !fmap_cons, NoDup_cons, Forall_cons. split.
  - intros ([Hs Hx]%StronglySorted_inv & [? ?] & [? ?]). rewrite Forall_fmap, Forall_forall in Hx. done.
  - intros (? & ? & Hx & Hs & ? & ?). split_and!; [|done..]. constructor; [done|].
    by rewrite Forall_fmap, Forall_forall.
Qed.
Lemma partial_good W pend pre o l : good_tree o → partial W pend pre o l → good_tree l.
Proof.
  intros Hg Hl. induction Hl as [|e o l He Hl IH|e o l s s' Ht Hs Hnp Hd Hl IH]; [done| |].
  all: apply good_cons in Hg as (Hn & Hni & Hlt & Hg); specialize (IH Hg).
  all: assert (Hhead : ∀ x, filename x = filename e → mode x = mode e → good_tree (x :: l)).
  1,3: intros x Hxn Hxm; apply good_cons; rewrite Hxn; split_and!; [done| | |done].
  1,3: intros (y & Hyn & Hy)%list_elem_of_fmap; destruct (partial_keys _ _ _ _ _ Hl y Hy) as (z & Hz & Hzn & _);
    apply Hni; rewrite Hyn, Hzn; by apply list_elem_of_fmap_2.
  1,2: intros y Hy; destruct (partial_keys _ _ _ _ _ Hl y Hy) as (z & Hz & Hzn & Hzm);
    unfold tkey; rewrite Hxn, Hxm, Hzn, Hzm; by apply (Hlt z).
  - by apply Hhead.
  - case_bool_decide; [done|]. by apply Hhead.
Qed.

(** A pending subtree is flushed: its entry is still in the tree, and is replaced
    or removed. *)
Lemma partial_finish W (pend pend' : bytes → Prop) pre o l n e s s' :
  good_tree o → partial W pend pre o l → pend n → e ∈ o → filename e = n → is_tree (mode e) = true →
  M !! key_of (pre ++ [n]) = Some s → done_sub W (pre ++ [n]) s s' →
  (∀ k, pend' k ↔ pend k ∧ k ≠ n) →
  ∃ a b, l = a ++ e :: b ∧
    partial W pend' pre o (a ++ (if bool_decide (s' = []) then [] else [set_oid (oid_of s') e]) ++ b).
Proof.
  intros Hg Hl Hpn He Hen Ht Hs Hd Hp'. revert He.
  induction Hl as [|x o l Hx Hl IH|x o l sx sx' Htx Hsx Hnp Hdx Hl IH]; intros He; [by apply elem_of_nil in He| |].
  all: apply good_cons in Hg as (_ & Hni & _ & Hg).
  - apply elem_of_cons in He as [<-|He].
    + exists [], l. split; [done|]. cbn [app]. rewrite <- Hen in *. eapply partial_sub; [done..| |done|].
      * rewrite Hp'. tauto.
      * eapply partial_mono; [done| |exact Hl]. intros k Hk. rewrite Hp'. split; [|tauto].
        intros Hpk. split; [done|]. by intros ->.
    + destruct (IH Hg He) as (a & b & -> & Hpart). exists (x :: a), b. split; [done|]. cbn [app].
      constructor; [|done]. intros Htr. destruct (Hx Htr) as [|Hpx]; [by left|right]. rewrite Hp'. split; [done|].
      intros Heq. apply Hni. rewrite Heq, <- Hen. by apply list_elem_of_fmap_2.
  - apply elem_of_cons in He as [<-|He]; [by rewrite <- Hen in Hpn|].
    destruct (IH Hg He) as (a & b & -> & Hpart).
    exists ((if bool_decide (sx' = []) then [] else [set_oid (oid_of sx') x]) ++ a), b.
    split; [by rewrite <- app_assoc|]. rewrite <- app_assoc. eapply partial_sub; [done..| |done|done].
    rewrite Hp'. tauto.
Qed.

(** Subtrees that [take_children] finds. *)
Definition new_children (m : gmap bytes Tree) (pre : list bytes) (idx : nat) (es : Tree) : list Item :=
  omap (λ e, if is_tree (mode e) then
               (λ sub, (Some idx, key_of (pre ++ [filename e]), sub)) <$> m !! key_of (pre ++ [filename e])
             else None) es.
Lemma new_children_delete m pre idx es k :
  (∀ e, e ∈ es → key_of (pre ++ [filename e]) ≠ k) → new_children (delete k m) pre idx es = new_children m pre idx es.
Proof.
  unfold new_children. intros Hk. induction es as [|e es IH]; [done|]. cbn.
  rewrite lookup_delete_ne by (symmetry; apply Hk; left). rewrite IH by (intros; apply Hk; by right). done.
Qed.
Lemma take_children_spec pre es idx m children unchanged :
  Forall good_name pre → good_tree es →
  ∃ m', take_children (key_of pre) es idx m children unchanged =
      (m', children ++ new_children m pre idx es, unchanged && bool_decide (new_children m pre idx es = [])) ∧
    (∀ k, m' !! k = if bool_decide (k ∈ (λ x : Item, x.1.2) <$> new_children m pre idx es) then None else m !! k) ∧
    (size m' + length (new_children m pre idx es) = size m)%nat.
Proof.
  intros Hpre. revert m children unchanged. induction es as [|e es IH]; intros m children unchanged Hg.
  { exists m. cbn. rewrite app_nil_r, andb_true_r. split_and!; [done|done|lia]. }
  apply good_cons in Hg as (Hn & Hni & _ & Hg). cbn [take_children new_children omap list_omap].
  rewrite <- key_of_snoc. destruct (is_tree (mode e)); [|by apply IH].
  destruct (m !! key_of (pre ++ [filename e])) as [sub|] eqn:Hs; cbn [fmap option_fmap option_map].
  2:{ by apply IH. }
  destruct (IH (delete (key_of (pre ++ [filename e])) m) (children ++ [(Some idx, key_of (pre ++ [filename e]), sub)]) false Hg)
    as (m' & -> & Hm' & Hsize).
  assert (Hnd : ∀ x, x ∈ es → key_of (pre ++ [filename x]) ≠ key_of (pre ++ [filename e])).
  { intros x Hx Heq. apply key_of_inj in Heq; [|apply good_snoc; [done|]..|by apply good_snoc].
    - apply app_inj_tail in Heq as [_ Heq]. apply Hni. rewrite <- Heq. by apply list_elem_of_fmap_2.
    - destruct Hg as (_ & _ & Hgn). rewrite Forall_forall in Hgn. by apply Hgn. }
  rewrite new_children_delete in * by done. exists m'. split_and!.
  - rewrite <- app_assoc. cbn [app andb]. by rewrite andb_false_r.
  - intros k. rewrite Hm'. change (omap _ es) with (new_children m pre idx es). rewrite fmap_cons. cbn [fst snd].
    destruct (decide (k = key_of (pre ++ [filename e]))) as [->|Hne].
    + rewrite (bool_decide_eq_true_2 (_ ∈ _ :: _)) by left. rewrite lookup_delete_eq. by case_bool_decide.
    + rewrite lookup_delete_ne by done. do 2 case_bool_decide; [done|exfalso|exfalso|done]; set_solver.
  - change (omap _ es) with (new_children m pre idx es). cbn [length].
    rewrite map_size_delete_Some in Hsize by eauto. assert (size m ≠ 0)%nat; [|lia].
    intros H0. apply map_size_empty_inv in H0. subst m. by rewrite lookup_empty in Hs.
Qed.

Lemma pop_snoc {A} (l : list A) x : pop (l ++ [x]) = Some (l, x).
Proof.
  unfold pop. rewrite last_snoc, length_app. cbn. by rewrite Nat.add_sub, take_app_length.
Qed.
Lemma rfind_index_middle {A} (f : A → bool) l x r : f x = true → Forall (λ y, f y = false) r →
  bstr.rfind_index f (l ++ x :: r) = Some (length l).
Proof.
  intros Hx Hr. assert (Hnone : ∀ r, Forall (λ y, f y = false) r → bstr.rfind_index f r = None).
  { induction 1 as [|y r' Hy _ IH]; [done|]. cbn. by rewrite IH, Hy. }
  induction l as [|y l IH]; cbn; [by rewrite Hnone, Hx|]. by rewrite IH.
Qed.
Lemma filename_of_key {BA : bstr.Api} {BL : bstr.Laws} pre n : good_name n → filename_of (key_of (pre ++ [n])) = n.
Proof.
  intros [_ Hn]. rewrite key_of_snoc. unfold filename_of, push_path_component. rewrite bstr.rfind_byte_spec.
  assert (Hf : Forall (λ y, (ch "/" =? y) = false) n).
  { apply Forall_forall. intros y Hy. apply Z.eqb_neq. intros <-. done. }
  case_bool_decide.
  - assert (bstr.rfind_index (Z.eqb (ch "/")) n = None) as ->; [|done]. clear Hn.
    induction Hf as [|y r' Hy _ IH]; [done|]. cbn [bstr.rfind_index]. by rewrite IH, Hy.
  - cbn [app]. rewrite rfind_index_middle by done. cbn.
    change (ch "/" :: n) with ([ch "/"] ++ n). rewrite app_assoc.
    replace (length (key_of pre) + 1)%nat with (length (key_of pre ++ [ch "/"])) by (rewrite length_app; done).
    apply drop_app_length.
Qed.

(** ** The invariant of the loop *)

Hypothesis HM : wf_trees M.
Hypothesis HA : ∀ pre n, Forall good_name pre → good_name n → attached M pre n.

(** The entry [n] of the tree at [pre], which is parent number [i], waits for its
    subtree. *)
Definition pending (live : list Item) (i : nat) (pre : list bytes) (n : bytes) : Prop :=
  good_name n ∧ ∃ t, (Some i, key_of (pre ++ [n]), t) ∈ live.
Definition at_path (parents : list Item) (i : nat) (pre : list bytes) : Prop :=
  ∃ p t, parents !! i = Some (p, key_of pre, t).
(** A child is as it was in the map, and so is everything below it. *)
Definition child_ok (m : gmap bytes Tree) (parents : list Item) (x : Item) : Prop :=
  ∃ idx pre n t, x = (Some idx, key_of (pre ++ [n]), t) ∧ Forall good_name pre ∧ good_name n ∧
    M !! key_of (pre ++ [n]) = Some t ∧ at_path parents idx pre ∧
    ∀ q, q ≠ [] → Forall good_name q → m !! key_of (pre ++ [n] ++ q) = M !! key_of (pre ++ [n] ++ q).
(** A parent waits for some of its subtrees, and all others are flushed. *)
Definition parent_ok (W : list Tree) (m : gmap bytes Tree) (parents live : list Item) (i : nat) (x : Item) : Prop :=
  ∃ p pre o t, x = (p, key_of pre, t) ∧ Forall good_name pre ∧ M !! key_of pre = Some o ∧
    partial W (pending live i pre) pre o t ∧ (∀ n, good_name n → m !! key_of (pre ++ [n]) = None) ∧
    match p with
    | None => i = 0%nat ∧ pre = []
    | Some j => (j < i)%nat ∧ ∃ ppre n, pre = ppre ++ [n] ∧ at_path parents j ppre
    end.
Record inv (W : list Tree) (m : gmap bytes Tree) (parents children live : list Item) : Prop := {
  inv_nodup : NoDup ((λ x : Item, x.1.2) <$> live);
  inv_taken x : x ∈ live → m !! x.1.2 = None;
  inv_sub k t : m !! k = Some t → M !! k = Some t;
  inv_children x : x ∈ children → child_ok m parents x;
  inv_parents i x : parents !! i = Some x → parent_ok W m parents live i x }.

Lemma live_unique W m P C live x y : inv W m P C live → x ∈ live → y ∈ live → x.1.2 = y.1.2 → x = y.
Proof.
  intros Hinv [i Hi]%list_elem_of_lookup [j Hj]%list_elem_of_lookup Heq.
  assert (i = j) as ->; [|congruence]. eapply (NoDup_lookup ((λ x : Item, x.1.2) <$> live)); [apply Hinv| |].
  - rewrite list_lookup_fmap, Hi. done.
  - rewrite list_lookup_fmap, Hj. cbn. by rewrite Heq.
Qed.
Lemma good_at W pend pre o t : Forall good_name pre → M !! key_of pre = Some o → partial W pend pre o t →
  good_tree o ∧ good_tree t.
Proof. intros Hpre Ho Ht. pose proof (wf_good _ HM _ _ Ho) as Hg. split; [done|]. by eapply partial_good. Qed.
(** A tree of the map belongs to an entry of its parent. *)
Lemma entry_above pre n s o : Forall good_name pre → good_name n → M !! key_of (pre ++ [n]) = Some s →
  M !! key_of pre = Some o → ∃ e, e ∈ o ∧ filename e = n ∧ is_tree (mode e) = true.
Proof.
  intros Hpre Hn Hs Ho. destruct (HA pre n Hpre Hn) as (t & e & Ht & He & Hte); [eauto|].
  assert (t = o) as -> by congruence. apply find_name_iff in He as [He Hne]; [eauto|].
  by destruct (wf_good _ HM _ _ Ho) as (_ & ? & _).
Qed.

(** *** A tree is flushed *)

Lemma parent_update W W' m P C live live' idx grand ppre pt pt' o x t n :
  inv W m P C live → W ⊆ W' →
  live ≡ₚ x :: live' → x = (Some idx, key_of (ppre ++ [n]), t) → good_name n →
  P !! idx = Some (grand, key_of ppre, pt) → Forall good_name ppre → M !! key_of ppre = Some o →
  (∀ y, y ∈ C → y ∈ live') →
  partial W' (λ k, pending live idx ppre k ∧ k ≠ n) ppre o pt' →
  let P' := <[idx := (grand, key_of ppre, pt')]> P in
  ∀ live2, (λ y : Item, y.1) <$> live2 ≡ₚ (λ y : Item, y.1) <$> live' →
  inv W' m P' C live2.
Proof.
  intros Hinv HW Hlive Hx Hn Hidx Hppre Ho HC Hpart P' live2 Hl2.
  assert (Hin : ∀ a b, (∃ t, (a, b, t) ∈ live2) ↔ ∃ t, (a, b, t) ∈ live').
  { intros a b. assert (Heq : (a, b) ∈ (λ y : Item, y.1) <$> live2 ↔ (a, b) ∈ (λ y : Item, y.1) <$> live')
      by (by rewrite Hl2).
    rewrite !list_elem_of_fmap in Heq. split; intros [u Hu].
    - destruct (proj1 Heq) as ([[a' b'] u'] & Heq' & Hu'); [by exists (a, b, u)|].
      cbn in Heq'. simplify_eq. by exists u'.
    - destruct (proj2 Heq) as ([[a' b'] u'] & Heq' & Hu'); [by exists (a, b, u)|].
      cbn in Heq'. simplify_eq. by exists u'. }
  assert (Hat : ∀ j q, at_path P j q → at_path P' j q).
  { intros j q (p & u & Hj). unfold at_path, P'. destruct (decide (j = idx)) as [->|Hne].
    - rewrite Hidx in Hj. injection Hj as <- Hk <-.
      rewrite list_lookup_insert_eq by (by eapply lookup_lt_Some). rewrite Hk. eauto.
    - rewrite list_lookup_insert_ne by done. eauto. }
  assert (Hpl : ∀ a b, (∃ t, (a, b, t) ∈ live) ↔ ((a, b) = (Some idx, key_of (ppre ++ [n])) ∨ ∃ t, (a, b, t) ∈ live')).
  { intros a b. setoid_rewrite Hlive. setoid_rewrite elem_of_cons. subst x. naive_solver. }
  assert (Hnd : NoDup ((λ x : Item, x.1.2) <$> x :: live')) by (rewrite <- Hlive; apply Hinv).
  rewrite fmap_cons in Hnd. apply NoDup_cons in Hnd as [Hnotin Hnd]. split.
  - assert (Hp : (λ x : Item, x.1.2) <$> live2 ≡ₚ (λ x : Item, x.1.2) <$> live').
    { change (λ x : Item, x.1.2) with (snd ∘ (λ y : Item, y.1)). rewrite !list_fmap_compose. by rewrite Hl2. }
    by rewrite Hp.
  - intros [[a b] u] Hy. destruct (proj1 (Hin a b)) as [u' Hu']; [eauto|].
    apply (inv_taken _ _ _ _ _ Hinv (a, b, u')). rewrite Hlive. by right.
  - apply Hinv.
  - intros y Hy. destruct (inv_children _ _ _ _ _ Hinv y Hy) as (j & q & k & u & ? & ? & ? & ? & Hj & ?).
    exists j, q, k, u. split_and!; [done..|by apply Hat|done].
  - intros i y Hy. unfold P' in Hy. destruct (decide (i = idx)) as [->|Hne].
    + rewrite list_lookup_insert_eq in Hy by (by eapply lookup_lt_Some). injection Hy as <-.
      destruct (inv_parents _ _ _ _ _ Hinv idx _ Hidx) as (p & q & o2 & u & Heq & Hq & Ho2 & _ & Hm & Hpar).
      injection Heq as <- Hk <-. apply key_of_inj in Hk as <-; [|done|done].
      exists grand, ppre, o, pt'. split_and!; [done..| |done|].
      * eapply partial_mono; [| |exact Hpart]; [done|]. intros k _. unfold pending. rewrite Hpl, Hin. split.
        -- intros [[Hk [Heq|Ht]] Hkn]; [|by split]. injection Heq as Heq. rewrite !key_of_snoc in Heq.
           apply push_inj in Heq as [_ Heq]; [done|apply Hk|apply Hn].
        -- intros [Hk [u2 Hu2]]. split; [split; [done|right; eauto]|]. intros ->. apply Hnotin. subst x. cbn.
           apply list_elem_of_fmap. by exists (Some idx, key_of (ppre ++ [n]), u2).
      * destruct grand as [j|]; [|done]. destruct Hpar as (Hj & pp & k & -> & Hp). split; [done|]. eauto.
    + rewrite list_lookup_insert_ne in Hy by done.
      destruct (inv_parents _ _ _ _ _ Hinv i _ Hy) as (p & q & o2 & u & -> & Hq & Ho2 & Hpt & Hm & Hpar).
      exists p, q, o2, u. split_and!; [done..| |done|].
      * eapply partial_mono; [done| |exact Hpt]. intros k _. unfold pending. rewrite Hpl, Hin. naive_solver.
      * destruct p as [j|]; [|done]. destruct Hpar as (Hj & pp & k & -> & Hp). split; [done|]. eauto.
Qed.

(** *** A tree is expanded *)

Lemma new_children_elem m pre idx es x : x ∈ new_children m pre idx es ↔
  ∃ e s, e ∈ es ∧ is_tree (mode e) = true ∧ m !! key_of (pre ++ [filename e]) = Some s ∧
    x = (Some idx, key_of (pre ++ [filename e]), s).
Proof.
  unfold new_children. rewrite list_elem_of_omap. split.
  - intros (e & He & Hx). destruct (is_tree (mode e)) eqn:Ht; [|done].
    apply fmap_Some in Hx as (s & Hs & ->). eauto 10.
  - intros (e & s & He & Ht & Hs & ->). exists e. split; [done|]. by rewrite Ht, Hs.
Qed.
Lemma new_children_nodup m pre idx es : Forall good_name pre → good_tree es →
  NoDup ((λ x : Item, x.1.2) <$> new_children m pre idx es).
Proof.
  intros Hpre. induction es as [|e es IH]; intros Hg; [constructor|].
  apply good_cons in Hg as (Hn & Hni & _ & Hg). unfold new_children. cbn.
  fold (new_children m pre idx es). specialize (IH Hg).
  destruct (is_tree (mode e)); [|done]. destruct (m !! _) as [s|]; [|done]. cbn. constructor; [|done].
  intros (x & Hx & (e' & s' & He' & _ & _ & ->)%new_children_elem)%list_elem_of_fmap. cbn in Hx.
  destruct Hg as (_ & _ & Hgn). rewrite Forall_forall in Hgn.
  apply key_of_inj in Hx; [|by apply good_snoc|apply good_snoc; [done|by apply Hgn]].
  apply app_inj_tail in Hx as [_ Hx]. apply Hni. rewrite Hx. by apply list_elem_of_fmap_2.
Qed.

(** The tree [x] that was popped, as it is in the map. *)
Definition untouched (m : gmap bytes Tree) (pre : list bytes) : Prop :=
  ∀ q, q ≠ [] → Forall good_name q → m !! key_of (pre ++ q) = M !! key_of (pre ++ q).
Definition above (P : list Item) (p : option nat) (pre : list bytes) : Prop :=
  match p with
  | None => P = [] ∧ pre = []
  | Some j => ∃ ppre n, pre = ppre ++ [n] ∧ at_path P j ppre
  end.

Section Expand.
Context (W : list Tree) (m m' : gmap bytes Tree) (P C : list Item) (p : option nat) (pre : list bytes) (t : Tree).
Let x : Item := (p, key_of pre, t).
Let new := new_children m pre (length P) t.
Hypothesis Hinv : inv W m P C (x :: C ++ P).
Hypothesis Hpre : Forall good_name pre.
Hypothesis Ht : M !! key_of pre = Some t.
Hypothesis Hbelow : untouched m pre.
Hypothesis Habove : above P p pre.
Hypothesis Hm' : ∀ k, m' !! k = if bool_decide (k ∈ (λ x : Item, x.1.2) <$> new) then None else m !! k.

Lemma expand_good : good_tree t.
Proof. by eapply wf_good. Qed.
Lemma expand_name e : e ∈ t → good_name (filename e).
Proof. destruct expand_good as (_ & _ & Hg). rewrite Forall_forall in Hg. apply Hg. Qed.
Lemma expand_new y : y ∈ new → ∃ e s, y = (Some (length P), key_of (pre ++ [filename e]), s) ∧
  e ∈ t ∧ good_name (filename e) ∧ M !! key_of (pre ++ [filename e]) = Some s ∧ m !! key_of (pre ++ [filename e]) = Some s.
Proof.
  intros (e & s & He & _ & Hs & ->)%new_children_elem. exists e, s.
  split_and!; [done|done|by apply expand_name|by apply Hinv|done].
Qed.
(** All subtrees in the map are taken. *)
Lemma expand_all n s : good_name n → M !! key_of (pre ++ [n]) = Some s →
  (Some (length P), key_of (pre ++ [n]), s) ∈ new ∧ m' !! key_of (pre ++ [n]) = None.
Proof.
  intros Hn Hs. destruct (entry_above pre n s t) as (e & He & <- & Hte); [done..|].
  assert (Hin : (Some (length P), key_of (pre ++ [filename e]), s) ∈ new).
  { apply new_children_elem. exists e, s. split_and!; [done|done| |done]. rewrite Hbelow; [done|done|by constructor]. }
  split; [done|]. rewrite Hm', bool_decide_eq_true_2; [done|]. apply list_elem_of_fmap.
  by exists (Some (length P), key_of (pre ++ [filename e]), s).
Qed.
(** No other key is. *)
Lemma expand_other q : Forall good_name q → (∀ n, q ≠ pre ++ [n]) → m' !! key_of q = m !! key_of q.
Proof.
  intros Hq Hne. rewrite Hm'. case_bool_decide as Hin; [|done]. exfalso.
  apply list_elem_of_fmap in Hin as (y & Hy & (e & s & -> & _ & Hn & _)%expand_new). cbn in Hy.
  apply key_of_inj in Hy; [by eapply Hne|done|by apply good_snoc].
Qed.
Lemma expand_mono k s : m' !! k = Some s → m !! k = Some s.
Proof. rewrite Hm'. by case_bool_decide. Qed.
Lemma at_path_snoc j q y : at_path P j q → at_path (P ++ [y]) j q.
Proof. intros (g & u & Hj). exists g, u. by apply lookup_app_l_Some. Qed.
Lemma at_path_lt j q : at_path P j q → (j < length P)%nat.
Proof. intros (g & u & Hj). by eapply lookup_lt_Some. Qed.
(** The items that wait for parent number [i]. *)
Lemma expand_waiting i k u : (Some i, k, u) ∈ x :: C ++ P → (i < length P)%nat.
Proof.
  rewrite elem_of_cons, elem_of_app. intros [Hx|[Hc|Hc]].
  - unfold x in Hx. injection Hx as <- _ _. destruct Habove as (? & ? & _ & H). by eapply at_path_lt.
  - destruct (inv_children _ _ _ _ _ Hinv _ Hc) as (j & q & n & v & Heq & _ & _ & _ & H & _).
    injection Heq as -> _ _. by eapply at_path_lt.
  - apply list_elem_of_lookup in Hc as [j Hj].
    destruct (inv_parents _ _ _ _ _ Hinv _ _ Hj) as (q & pq & o & v & Heq & _ & _ & _ & _ & Hq).
    injection Heq as <- _ _. destruct Hq as [Hlt _]. apply lookup_lt_Some in Hj. lia.
Qed.
Lemma expand_child y : y ∈ C → child_ok m' (P ++ [x]) y.
Proof.
  intros Hy. destruct (inv_children _ _ _ _ _ Hinv y Hy) as (j & q & n & u & -> & Hq & Hn & Hu & Hj & Hb).
  exists j, q, n, u. split_and!; [done..|by apply at_path_snoc|].
  intros r Hr Hgr. rewrite <- Hb by done. apply expand_other.
  { apply Forall_app. split; [done|]. apply Forall_app. split; [|done]. by constructor. }
  intros k Heq. destruct r as [|k' r _] using rev_ind; [done|].
  rewrite !app_assoc in Heq. apply app_inj_tail in Heq as [Heq ->]. destruct (decide (r = [])) as [->|Hne].
  - rewrite app_nil_r in Heq. pose proof (inv_nodup _ _ _ _ _ Hinv) as Hnd. rewrite fmap_cons in Hnd.
    apply NoDup_cons in Hnd as [Hnd _]. apply Hnd. apply list_elem_of_fmap.
    exists (Some j, key_of (q ++ [n]), u). split; [cbn; by rewrite Heq|]. apply elem_of_app. by left.
  - apply Forall_app in Hgr as [Hgr _]. specialize (Hb r Hne Hgr). rewrite app_assoc, Heq, Ht in Hb.
    pose proof (inv_taken _ _ _ _ _ Hinv x ltac:(left)) as Hx. cbn in Hx. congruence.
Qed.
Lemma expand_new_child y : y ∈ new → child_ok m' (P ++ [x]) y.
Proof.
  intros (e & s & -> & He & Hn & Hs & _)%expand_new.
  exists (length P), pre, (filename e), s. split_and!; [done..| |].
  - exists p, t. rewrite lookup_app_r, Nat.sub_diag by done. done.
  - intros q Hq Hgq. rewrite <- Hbelow; [|by destruct q|by constructor]. apply expand_other.
    + apply Forall_app. split; [done|]. by constructor.
    + intros n Heq. apply app_inv_head in Heq. by destruct q.
Qed.
Lemma expand_pending i q n : (i < length P)%nat →
  pending (x :: C ++ P) i q n ↔ pending ((C ++ new) ++ P ++ [x]) i q n.
Proof.
  intros Hi. unfold pending. setoid_rewrite elem_of_cons. setoid_rewrite elem_of_app. setoid_rewrite elem_of_app.
  setoid_rewrite list_elem_of_singleton. split; intros [Hg [u Hu]]; (split; [done|]); exists u; [tauto|].
  destruct Hu as [[?|(e & s & Heq & _)%expand_new]|[?|?]]; try tauto. injection Heq as -> _ _. lia.
Qed.
Lemma expand_parent i y : P !! i = Some y → parent_ok W m' (P ++ [x]) ((C ++ new) ++ P ++ [x]) i y.
Proof.
  intros Hy. destruct (inv_parents _ _ _ _ _ Hinv i y Hy) as (g & q & o & u & -> & Hq & Ho & Hpart & Hnone & Hg).
  pose proof (lookup_lt_Some _ _ _ Hy) as Hi. exists g, q, o, u. split_and!; [done..| | |].
  - eapply partial_mono; [done| |exact Hpart]. intros k _. by apply expand_pending.
  - intros n Hn. destruct (m' !! _) eqn:E; [|done]. apply expand_mono in E. by rewrite Hnone in E.
  - destruct g as [j|]; [|done]. destruct Hg as (Hj & pp & n & -> & Hat). split; [done|].
    exists pp, n. split; [done|]. by apply at_path_snoc.
Qed.
Lemma expand_last : parent_ok W m' (P ++ [x]) ((C ++ new) ++ P ++ [x]) (length P) x.
Proof.
  exists p, pre, t, t. split_and!; [done..| | |].
  - eapply partial_mono; [done| |apply partial_start]. intros n (e & -> & He)%list_elem_of_fmap. split.
    + intros [s Hs]. split; [by apply expand_name|]. exists s.
      destruct (expand_all (filename e) s) as [Hin _]; [by apply expand_name|done|]. rewrite !elem_of_app. tauto.
    + intros [Hn [u Hu]]. assert (Hu' : (Some (length P), key_of (pre ++ [filename e]), u) ∈ new).
      { rewrite !elem_of_app, list_elem_of_singleton in Hu.
        destruct (decide ((Some (length P), key_of (pre ++ [filename e]), u) ∈ new)) as [|Hno]; [done|].
        exfalso. assert (length P < length P)%nat; [|lia].
        eapply (expand_waiting (length P) (key_of (pre ++ [filename e])) u).
        rewrite elem_of_cons, elem_of_app. tauto. }
      apply expand_new in Hu' as (e' & s & [= -> ->] & _ & _ & Hs & _). eauto.
  - intros n Hn. destruct (M !! key_of (pre ++ [n])) as [s|] eqn:Hs; [by eapply expand_all|].
    destruct (m' !! _) eqn:E; [|done]. apply expand_mono, Hinv in E. congruence.
  - unfold above in Habove. destruct p as [j|]; [|by destruct Habove as [-> ->]].
    destruct Habove as (pp & n & -> & Hat). split; [by eapply at_path_lt|].
    exists pp, n. split; [done|]. by apply at_path_snoc.
Qed.
Lemma inv_expand : inv W m' (P ++ [x]) (C ++ new) ((C ++ new) ++ P ++ [x]).
Proof.
  assert (Hperm : (C ++ new) ++ P ++ [x] ≡ₚ new ++ (x :: C ++ P)) by (clear; solve_Permutation).
  split.
  - rewrite Hperm, fmap_app. apply NoDup_app. split_and!; [apply new_children_nodup; [done|apply expand_good]| |apply Hinv].
    intros k (y & -> & (e & s & -> & _ & _ & _ & Hs)%expand_new)%list_elem_of_fmap (z & Hz & Hin)%list_elem_of_fmap.
    cbn in Hz. apply (inv_taken _ _ _ _ _ Hinv) in Hin. rewrite <- Hz in Hin. congruence.
  - intros y. rewrite Hperm, elem_of_app. intros [Hy|Hy].
    + rewrite Hm', bool_decide_eq_true_2; [done|]. apply list_elem_of_fmap. by exists y.
    + apply (inv_taken _ _ _ _ _ Hinv) in Hy. destruct (m' !! _) eqn:E; [|done]. apply expand_mono in E. congruence.
  - intros k s Hs%expand_mono. by apply Hinv.
  - intros y [Hy|Hy]%elem_of_app; [by apply expand_child|by apply expand_new_child].
  - intros i y [Hy|[Hi Hy]]%lookup_app_Some; [by apply expand_parent|].
    apply list_lookup_singleton_Some in Hy as [Hy <-]. replace i with (length P) by lia. apply expand_last.
Qed.
End Expand.

(** *** The steps of the loop *)

Lemma pending_perm live live' i q n : live ≡ₚ live' → pending live i q n ↔ pending live' i q n.
Proof. intros Hp. unfold pending. by setoid_rewrite Hp. Qed.
Lemma inv_perm W m P C C' live live' : inv W m P C live → live ≡ₚ live' → C' ⊆ C → inv W m P C' live'.
Proof.
  intros Hinv Hp HC. split.
  - rewrite <- Hp. apply Hinv.
  - intros x. rewrite <- Hp. apply Hinv.
  - apply Hinv.
  - intros x Hx. apply Hinv. by apply HC.
  - intros i x Hx. destruct (inv_parents _ _ _ _ _ Hinv i x Hx) as (p & q & o & t & ? & ? & ? & Hpart & ? & ?).
    exists p, q, o, t. split_and!; [done..| |done|done]. eapply partial_mono; [done| |exact Hpart].
    intros. by apply pending_perm.
Qed.
Lemma inv_pop_parent W m P x live : inv W m (P ++ [x]) [] live → inv W m P [] live.
Proof.
  intros Hinv. split; [apply Hinv..|by intros y Hy%elem_of_nil|].
  intros i y Hy. destruct (inv_parents _ _ _ _ _ Hinv i y) as (p & q & o & t & ? & ? & ? & ? & ? & Hp);
    [by apply lookup_app_l_Some|]. apply lookup_lt_Some in Hy.
  exists p, q, o, t. split_and!; [done..|]. destruct p as [j|]; [|done].
  destruct Hp as (Hj & pp & n & -> & g & u & Hat). split; [done|]. exists pp, n. split; [done|].
  exists g, u. rewrite lookup_app_l in Hat by lia. done.
Qed.

Lemma search_child (t a b : Tree) e n : good_tree t → t = a ++ e :: b → filename e = n → is_tree (mode e) = true →
  search_entry t n true = Ok (inl (length a)).
Proof.
  intros Hg Ht Hn Hte. assert (Hin : t !! length a = Some e) by (rewrite Ht; by apply list_lookup_middle).
  assert (Hgn : no_slash n).
  { destruct Hg as (_ & _ & Hgn). rewrite Forall_forall in Hgn. rewrite <- Hn. apply Hgn. by eapply list_elem_of_lookup_2. }
  destruct (search_entry_spec t n true Hg Hgn) as ([i|i] & -> & Hr).
  - destruct Hr as (e' & He' & Hn' & _). do 2 f_equal. eapply (NoDup_lookup (filename <$> t)); [apply Hg| |].
    + by rewrite list_lookup_fmap, He'.
    + rewrite list_lookup_fmap, Hin. cbn. congruence.
  - destruct Hr as (_ & H1 & H2). exfalso. eapply (not_found t n i true H1 H2 e); [|done|done].
    by eapply list_elem_of_lookup_2.
Qed.

(** What becomes of the entry of a subtree that was flushed to [s]. *)
Definition adjusted (s : Tree) (e : Entry) : Tree := if bool_decide (s = []) then [] else [set_oid (oid_of s) e].
Definition written (s : Tree) : list Tree := if bool_decide (s = []) then [] else [s].

Lemma inv_finish W m P C idx pre n t s s' :
  inv W m P C ((Some idx, key_of (pre ++ [n]), t) :: C ++ P) → Forall good_name pre → good_name n →
  at_path P idx pre → M !! key_of (pre ++ [n]) = Some s → flushed W (pre ++ [n]) s s' →
  ∃ g a e b, P !! idx = Some (g, key_of pre, a ++ e :: b) ∧ search_entry (a ++ e :: b) n true = Ok (inl (length a)) ∧
    let P' := <[idx := (g, key_of pre, a ++ adjusted s' e ++ b)]> P in
    inv (W ++ written s') m P' C (C ++ P').
Proof.
  intros Hinv Hpre Hn (g & pt & Hidx) Hs Hfl.
  destruct (inv_parents _ _ _ _ _ Hinv idx _ Hidx) as (g' & q & o & pt' & Heq & Hq & Ho & Hpart & _ & _).
  injection Heq as <- Hk <-. apply key_of_inj in Hk as <-; [|done|done].
  destruct (good_at _ _ _ _ _ Hpre Ho Hpart) as [Hgo Hgpt].
  destruct (entry_above pre n s o) as (e & He & Hen & Hte); [done..|].
  assert (HW : W ⊆ W ++ written s') by (intros y Hy; apply elem_of_app; by left).
  destruct (partial_finish (W ++ written s') (pending ((Some idx, key_of (pre ++ [n]), t) :: C ++ P) idx pre)
    (λ k, pending ((Some idx, key_of (pre ++ [n]), t) :: C ++ P) idx pre k ∧ k ≠ n) pre o pt n e s s')
    as (a & b & -> & Hpart'); try done.
  - by eapply partial_mono.
  - split; [done|]. exists t. left.
  - split; [by eapply flushed_mono|]. unfold written. case_bool_decide; [by left|right].
    apply elem_of_app. right. by apply list_elem_of_singleton.
  - exists g, a, e, b. split_and!; [done|by eapply search_child|].
    eapply (parent_update W (W ++ written s') m P C _ (C ++ P) idx g pre); try done.
    + intros y Hy. apply elem_of_app. by left.
    + rewrite !fmap_app, list_fmap_insert. cbn. rewrite list_insert_id; [done|]. by rewrite list_lookup_fmap, Hidx.
Qed.

(** The parent on top of the stack waits for nothing when no child is left. *)
Lemma inv_top W m P x : inv W m (P ++ [x]) [] (P ++ [x]) →
  ∃ p pre o t, x = (p, key_of pre, t) ∧ Forall good_name pre ∧ M !! key_of pre = Some o ∧ good_tree t ∧
    new_children m pre (length P) t = [] ∧ flushed W pre o (filter (λ e, is_null (oid e) = false) t) ∧ above P p pre.
Proof.
  intros Hinv. assert (Hx : (P ++ [x]) !! length P = Some x) by (by rewrite lookup_app_r, Nat.sub_diag).
  destruct (inv_parents _ _ _ _ _ Hinv _ _ Hx) as (p & pre & o & t & -> & Hpre & Ho & Hpart & Hnone & Hp).
  destruct (good_at _ _ _ _ _ Hpre Ho Hpart) as [Hgo Hgt].
  exists p, pre, o, t. split_and!; [done..| | |].
  - apply elem_of_nil_inv. intros y (e & s & He & _ & Hs & _)%new_children_elem.
    destruct Hgt as (_ & _ & Hgn). rewrite Forall_forall in Hgn. rewrite Hnone in Hs; [done|by apply Hgn].
  - eapply partial_end; [exact Hpart|]. intros n _ [_ [u [i Hu]%list_elem_of_lookup]].
    destruct (inv_parents _ _ _ _ _ Hinv _ _ Hu) as (p' & q & ? & ? & Heq & _ & _ & _ & _ & Hp').
    injection Heq as <- _ _. destruct Hp' as [Hlt _]. apply lookup_lt_Some in Hu. rewrite length_app in Hu. cbn in Hu. lia.
  - destruct p as [j|].
    + destruct Hp as (Hj & pp & n & -> & g & u & Hat). exists pp, n. split; [done|]. exists g, u.
      rewrite lookup_app_l in Hat by lia. done.
    + destruct Hp as [Hl ->]. split; [by destruct P|done].
Qed.
(** A child whose tree has no subtree in the map. *)
Lemma flush_leaf W m pre idx t : M !! key_of pre = Some t → Forall good_name pre → untouched m pre →
  new_children m pre idx t = [] → flushed W pre t (filter (λ e, is_null (oid e) = false) t).
Proof.
  intros Ht Hpre Hb Hnew. eapply partial_end; [apply partial_start|]. intros n (e & -> & He)%list_elem_of_fmap [s Hs].
  pose proof (wf_good _ HM _ _ Ht) as (_ & _ & Hgn). rewrite Forall_forall in Hgn.
  destruct (entry_above pre (filename e) s t) as (e' & He' & Hn & Hte); [done|by apply Hgn|done|done|].
  assert (Hin : (Some idx, key_of (pre ++ [filename e']), s) ∈ new_children m pre idx t).
  { apply new_children_elem. exists e', s. split_and!; [done|done| |done].
    rewrite Hb; [by rewrite Hn|done|constructor; [by apply Hgn|done]]. }
  rewrite Hnew in Hin. by apply elem_of_nil in Hin.
Qed.

(** *** The loop *)

Context {BA : bstr.Api} {BL : bstr.Laws} {S E : Type} (out : S → Tree → S * (E + ObjectId)).
Hypothesis Hout : ∀ s t, (out s t).2 = inr (oid_of t).
Definition step (s : S) (t : Tree) : S := (out s t).1.
Definition keep (t : Tree) : Tree := filter (λ e, is_null (oid e) = false) t.
(** [children.pop().or_else(|| parents.pop())]. *)
Definition popped (P C : list Item) : option (list Item * list Item * Item) :=
  match pop C with
  | Some (C, x) => Some (P, C, x)
  | None => match pop P with Some (P, x) => Some (P, C, x) | None => None end
  end.

Lemma popped_Ok P0 C0 y : popped P0 C0 = Some y →
  (match pop C0 with
   | Some (children, x) => Ok (P0, children, x)
   | None => match pop P0 with Some (parents, x) => Ok (parents, C0, x) | None => @Panic Empty_set _ end
   end) = Ok y.
Proof.
  unfold popped. destruct (pop C0) as [[? ?]|]; [by intros; simplify_eq|].
  destruct (pop P0) as [[? ?]|]; by intros; simplify_eq.
Qed.
Lemma take_none pre t idx m C : Forall good_name pre → good_tree t → new_children m pre idx t = [] →
  take_children (key_of pre) t idx m C true = (m, C, true).
Proof.
  intros Hpre Hg Hnew. destruct (take_children_spec pre t idx m C true Hpre Hg) as (m' & -> & Hm' & _).
  rewrite Hnew, app_nil_r in *. cbn. do 2 f_equal. apply map_eq. intros k. by rewrite Hm'.
Qed.

(** A tree without pending subtrees is written and its parent adjusted. *)
Lemma loop_flush fuel mode m P0 C0 P C idx pre n t s W o :
  popped P0 C0 = Some (P, C, (Some idx, key_of (pre ++ [n]), t)) →
  inv W m P C ((Some idx, key_of (pre ++ [n]), t) :: C ++ P) → Forall good_name pre → good_name n →
  at_path P idx pre → M !! key_of (pre ++ [n]) = Some o → good_tree t →
  new_children m (pre ++ [n]) (length P) t = [] → flushed W (pre ++ [n]) o (keep t) →
  ∃ P', write_loop out (Datatypes.S fuel) mode m P0 C0 s =
      write_loop out fuel mode m P' C (foldl step s (written (keep t))) ∧
    inv (W ++ written (keep t)) m P' C (C ++ P') ∧ length P' = length P.
Proof.
  intros Hpop Hinv Hpre Hn Hat Ho Hg Hnew Hfl.
  destruct (inv_finish W m P C idx pre n t o (keep t)) as (g & a & e & b & Hidx & Hsearch & Hinv'); [done..|].
  eexists. split_and!; [|exact Hinv'|apply length_insert].
  cbn [write_loop]. rewrite (popped_Ok _ _ _ Hpop), bind_Ok. rewrite take_none; [|by apply good_snoc|done|done]. fold (keep t).
    rewrite Hidx. cbn [expect]. rewrite bind_Ok, filename_of_key by done. rewrite Hsearch, bind_Ok. cbn [expect].
    rewrite bind_Ok. unfold written, adjusted. case_bool_decide.
    + unfold vec_remove. rewrite length_app. cbn [length]. rewrite (proj2 (Nat.ltb_lt _ _)) by lia.
      rewrite bind_Ok, delete_middle. done.
    + pose proof (Hout s (keep t)) as Hr. cbn [foldl]. unfold step. destruct (out s (keep t)) as [s' r]. cbn in Hr |- *.
      rewrite Hr. by rewrite alter_app_r_alt, Nat.sub_diag.
Qed.

(** A tree with pending subtrees becomes a parent. *)
Lemma loop_expand fuel mode m P0 C0 P C p pre t s W :
  popped P0 C0 = Some (P, C, (p, key_of pre, t)) →
  inv W m P C ((p, key_of pre, t) :: C ++ P) → Forall good_name pre → M !! key_of pre = Some t →
  untouched m pre → above P p pre → new_children m pre (length P) t ≠ [] →
  ∃ m' C', write_loop out (Datatypes.S fuel) mode m P0 C0 s =
      write_loop out fuel mode m' (P ++ [(p, key_of pre, t)]) C' s ∧
    inv W m' (P ++ [(p, key_of pre, t)]) C' (C' ++ P ++ [(p, key_of pre, t)]) ∧
    (size m' + length C' = size m + length C)%nat.
Proof.
  intros Hpop Hinv Hpre Ht Hb Ha Hnew.
  destruct (take_children_spec pre t (length P) m C true Hpre (wf_good _ HM _ _ Ht)) as (m' & Htake & Hm' & Hsize).
  exists m', (C ++ new_children m pre (length P) t). split_and!.
  - cbn [write_loop]. rewrite (popped_Ok _ _ _ Hpop), bind_Ok, Htake. by rewrite bool_decide_eq_false_2.
  - by apply inv_expand.
  - rewrite length_app. lia.
Qed.

(** The root is written last. *)
Lemma loop_root fuel m P0 C0 t s :
  popped P0 C0 = Some ([], [], (None, [], t)) → good_tree t → new_children m [] 0 t = [] →
  write_loop out (Datatypes.S fuel) WriteNormal m P0 C0 s =
    Ok (step s (keep t), {[ [] := keep t ]}, inr (oid_of (keep t))).
Proof.
  intros Hpop Hg Hnew. cbn [write_loop]. rewrite (popped_Ok _ _ _ Hpop), bind_Ok. cbn [length]. 
  pose proof (take_none [] t 0 m [] ltac:(constructor) Hg Hnew) as Htake. cbn [key_of foldl] in Htake.
  rewrite Htake. fold (keep t).
  rewrite bool_decide_eq_true_2 by done. pose proof (Hout s (keep t)) as Hr. unfold step.
  destruct (out s (keep t)) as [s' r]. cbn in Hr |- *. by rewrite Hr.
Qed.

Context (root : Tree).
Hypothesis Hroot : M !! [] = Some root.
(** The result of the loop: the trees [calls] were passed to [out] in that order,
    the last of them is the root that stays. *)
Definition result (W : list Tree) (s : S) (r : res Empty_set (S * gmap bytes Tree * (E + ObjectId))) : Prop :=
  ∃ calls t', r = Ok (foldl step s (calls ++ [t']), {[ [] := t' ]}, inr (oid_of t')) ∧ flushed (W ++ calls) [] root t' ∧
    Forall (λ t, t ≠ []) calls.
Lemma result_cons W t s r : result (W ++ written t) (foldl step s (written t)) r → result W s r.
Proof.
  intros (calls & t' & -> & Hfl & Hne). exists (written t ++ calls), t'. split_and!.
  - by rewrite !foldl_app.
  - by rewrite app_assoc.
  - apply Forall_app. split; [|done]. unfold written. case_bool_decide; by repeat constructor.
Qed.

Lemma write_loop_spec fuel W m P C s :
  inv W m P C (C ++ P) → P ≠ [] → (2 * (size m + length C) + length P ≤ fuel)%nat →
  result W s (write_loop out fuel WriteNormal m P C s).
Proof.
  revert W m P C s. induction fuel as [|fuel IH]; intros W m P C s Hinv HP Hfuel.
  { destruct P; [done|cbn in Hfuel; lia]. }
  destruct C as [|x C _] using rev_ind.
  - destruct P as [|x P _] using rev_ind; [done|].
    assert (Hpop : popped (P ++ [x]) [] = Some (P, [], x)) by (unfold popped; by rewrite pop_snoc).
    destruct (inv_top W m P x) as (p & pre & o & t & -> & Hpre & Ho & Hg & Hnew & Hfl & Ha); [done|].
    fold (keep t) in Hfl. destruct p as [idx|].
    + destruct Ha as (ppre & n & -> & Hat). apply Forall_app in Hpre as [Hpre [Hn _]%Forall_cons].
      destruct (loop_flush fuel WriteNormal m (P ++ [(Some idx, key_of (ppre ++ [n]), t)]) [] P [] idx ppre n t s W o)
        as (P' & -> & Hinv' & Hlen); try done.
      { eapply inv_perm; [by eapply inv_pop_parent| |done]. cbn. by rewrite Permutation_app_comm. }
      apply (result_cons _ (keep t)), IH; [done| |].
      * destruct Hat as (? & ? & Hat). apply lookup_lt_Some in Hat. intros ->. cbn in Hlen. lia.
      * rewrite Hlen. rewrite length_app in Hfuel. cbn in Hfuel |- *. lia.
    + destruct Ha as [-> ->]. cbn [app key_of foldl] in *. assert (o = root) as -> by congruence.
      rewrite (loop_root _ _ _ _ t) by done. exists [], (keep t). split_and!; [done|by rewrite app_nil_r|done].
  - assert (Hpop : popped P (C ++ [x]) = Some (P, C, x)) by (unfold popped; by rewrite pop_snoc).
    destruct (inv_children _ _ _ _ _ Hinv x) as (idx & pre & n & t & -> & Hpre & Hn & Ht & Hat & Hb).
    { apply elem_of_app. right. by apply list_elem_of_singleton. }
    assert (Hgpn : Forall good_name (pre ++ [n])) by (by apply good_snoc).
    assert (Hb' : untouched m (pre ++ [n])) by (intros q ??; rewrite <- app_assoc; by apply Hb).
    assert (Hinv' : inv W m P C ((Some idx, key_of (pre ++ [n]), t) :: C ++ P)).
    { eapply inv_perm; [exact Hinv|clear; solve_Permutation|]. intros y Hy. apply elem_of_app. by left. }
    rewrite length_app in Hfuel. cbn [length] in Hfuel.
    destruct (decide (new_children m (pre ++ [n]) (length P) t = [])) as [Hnew|Hnew].
    + destruct (loop_flush fuel WriteNormal m P (C ++ [(Some idx, key_of (pre ++ [n]), t)]) P C idx pre n t s W t)
        as (P' & -> & Hinv2 & Hlen); try done; [by eapply wf_good|by eapply flush_leaf|].
      apply (result_cons _ (keep t)), IH; [done| |lia].
      destruct Hat as (? & ? & Hat). apply lookup_lt_Some in Hat. intros ->. cbn in Hlen. lia.
    + destruct (loop_expand fuel WriteNormal m P (C ++ [(Some idx, key_of (pre ++ [n]), t)]) P C (Some idx)
        (pre ++ [n]) t s W) as (m' & C' & -> & Hinv2 & Hsize); try done; [by exists pre, n|].
      apply IH; [done|by destruct P|]. rewrite length_app. cbn. lia.
Qed.

Lemma write_root fuel s :
  (2 * size M ≤ fuel)%nat → result [] s (write_loop out (Datatypes.S fuel) WriteNormal (delete [] M) [(None, [], root)] [] s).
Proof.
  intros Hfuel. assert (Hg : good_tree root) by (by eapply wf_good).
  assert (Hb : untouched (delete [] M) []).
  { intros q Hq Hgq. apply lookup_delete_ne. intros Heq. change [] with (key_of []) in Heq at 1.
    apply key_of_inj in Heq; [by subst|constructor|done]. }
  destruct (decide (new_children (delete [] M) [] 0 root = [])) as [Hnew|Hnew].
  - rewrite (loop_root _ _ _ _ root) by done. exists [], (keep root). split_and!; [done| |done]. cbn.
    by apply (flush_leaf _ (delete [] M) [] 0).
  - assert (Hinv : inv [] (delete [] M) [] [] [(None, [], root)]).
    { split.
      - apply NoDup_singleton.
      - intros x ->%list_elem_of_singleton. apply lookup_delete_eq.
      - intros k t [_ ?]%lookup_delete_Some. done.
      - by intros x ?%elem_of_nil.
      - done. }
    destruct (loop_expand fuel WriteNormal (delete [] M) [(None, [], root)] [] [] [] None [] root s [])
      as (m' & C' & Heq & Hinv2 & Hsize); try done. cbn [key_of foldl app] in *. rewrite Heq.
    apply write_loop_spec; [done|done|]. rewrite map_size_delete_Some in Hsize by eauto. cbn [length] in *.
    assert (size M ≠ 0)%nat; [|lia]. intros H0. apply map_size_empty_inv in H0. rewrite H0 in Hroot. by rewrite lookup_empty in Hroot.
Qed.

(** ** Contents *)

Lemma find_name_cons e t n : find_name (e :: t) n = if bool_decide (filename e = n) then Some e else find_name t n.
Proof.
  unfold find_name. cbn. case_decide as H; [by rewrite bool_decide_eq_true_2|].
  rewrite bool_decide_eq_false_2 by done. by destruct (list_find _ t) as [[]|].
Qed.
Lemma keep_cons e t : keep (e :: t) = if is_null (oid e) then keep t else e :: keep t.
Proof. unfold keep. rewrite filter_cons. by destruct (is_null (oid e)). Qed.
Lemma good_keep t : good_tree t → good_tree (keep t).
Proof.
  induction t as [|e t IH]; [done|]. intros (Hn & Hni & Hlt & Hg)%good_cons. rewrite keep_cons.
  destruct (is_null (oid e)); [by apply IH|]. apply good_cons. split_and!; [done| | |by apply IH].
  - intros (x & Hx & [_ Hin]%list_elem_of_filter)%list_elem_of_fmap. apply Hni. rewrite Hx. by apply list_elem_of_fmap_2.
  - intros x [_ Hin]%list_elem_of_filter. by apply Hlt.
Qed.
Lemma flushed_partial W pre o l : flushed_entries W pre o l → partial W (λ _, False) pre o l.
Proof.
  induction 1 as [|pre e o l He _ IH|pre e o l s s' Ht Hs Hfl Hw _ IH]; [constructor| |].
  - constructor; [|done]. intros Ht. left. by apply He.
  - eapply partial_sub; [done|done|by intros []|by split|done].
Qed.
Lemma flushed_good W pre o t : good_tree o → flushed W pre o t → good_tree t.
Proof. intros Hg Hf. destruct Hf as [pre' o' l Hl]. apply good_keep. eapply partial_good; [done|by apply flushed_partial]. Qed.

(** What becomes of the entry with a name. *)
Definition stays (pre : list bytes) (e : Entry) (r : option Entry) : Prop :=
  (is_tree (mode e) = true → M !! key_of (pre ++ [filename e]) = None) ∧
  r = (if is_null (oid e) then None else Some e).
Definition replaced (W : list Tree) (pre : list bytes) (e : Entry) (r : option Entry) : Prop :=
  ∃ s s', is_tree (mode e) = true ∧ M !! key_of (pre ++ [filename e]) = Some s ∧
    flushed W (pre ++ [filename e]) s s' ∧
    (s' = [] ∧ r = None ∨ s' ∈ W ∧ r = Some (set_oid (oid_of s') e)).
Lemma flushed_find W pre o l n :
  flushed_entries W pre o l → NoDup (filename <$> o) → (∀ t, t ∈ W → is_null (oid_of t) = false) →
  match find_name o n with
  | None => find_name (keep l) n = None
  | Some e => stays pre e (find_name (keep l) n) ∨ replaced W pre e (find_name (keep l) n)
  end.
Proof.
  intros Hl Hnd HW. induction Hl as [|pre e o l He _ IH|pre e o l s s' Ht Hs Hfl Hw _ IH]; [done| |].
  all: rewrite fmap_cons in Hnd; apply NoDup_cons in Hnd as [Hni Hnd]; specialize (IH Hnd); rewrite find_name_cons.
  all: case_bool_decide as Hn; [assert (Hl : find_name (keep l) n = None)
         by (rewrite <- Hn; apply find_name_None in Hni; rewrite <- Hn, Hni in IH; done)|].
  - left. split; [done|]. rewrite keep_cons. destruct (is_null (oid e)); [done|].
    by rewrite find_name_cons, bool_decide_eq_true_2.
  - assert (Heq : find_name (keep (e :: l)) n = find_name (keep l) n); [|by rewrite Heq].
    rewrite keep_cons. destruct (is_null (oid e)); [done|]. by rewrite find_name_cons, bool_decide_eq_false_2.
  - right. exists s, s'. split_and!; [done..|]. destruct (decide (s' = [])) as [->|Hne].
    + left. split; [done|]. by rewrite bool_decide_eq_true_2.
    + right. destruct Hw as [|Hw]; [done|]. split; [done|]. rewrite bool_decide_eq_false_2 by done.
      cbn [app]. rewrite keep_cons. cbn [set_oid oid]. rewrite HW by done.
      by rewrite find_name_cons, bool_decide_eq_true_2.
  - assert (Heq : find_name (keep ((if bool_decide (s' = []) then [] else [set_oid (oid_of s') e]) ++ l)) n =
      find_name (keep l) n); [|by rewrite Heq].
    case_bool_decide; [done|]. cbn [app]. rewrite keep_cons. destruct (is_null _); [done|]. by rewrite find_name_cons, bool_decide_eq_false_2.
Qed.

(** Below a tree that is not in the map there is none in the map. *)
Lemma none_below p q : Forall good_name p → Forall good_name q → M !! key_of p = None → M !! key_of (p ++ q) = None.
Proof.
  intros Hp Hq Hnone. induction q as [|n q IH] using rev_ind; [by rewrite app_nil_r|].
  apply Forall_app in Hq as [Hq [Hn _]%Forall_cons]. specialize (IH Hq). apply eq_None_not_Some.
  rewrite app_assoc. intros Hs. apply (wf_closed _ HM) in Hs as [t Ht]; [congruence| |done].
  by apply Forall_app.
Qed.

Section Database.
Context {FindError : Type} (find_tree : ObjectId → FindError + Tree).
(** The database has the trees [W] under their ids, and nothing under the null id. *)
Definition stored (W : list Tree) : Prop :=
  (∀ t, t ∈ W → is_null (oid_of t) = false ∧ load find_tree (oid_of t) = Some t) ∧
  (∀ id, is_null id = true → load find_tree id = None).

Lemma flushed_lookup W m pre o t q md id :
  stored W → (∀ p n, Forall good_name p → good_name n → m !! key_of (p ++ [n]) = None) →
  flushed W pre o t → Forall good_name pre → good_tree o → Forall good_name q →
  is_tree md = false → is_null id = false →
  lookup_in find_tree M pre o q = Some (md, id) ↔ lookup_in find_tree m pre t q = Some (md, id).
Proof.
  intros [HW Hnull] Hm Hfl Hpre Hg Hq Hmd Hid. revert pre o t Hfl Hpre Hg.
  induction Hq as [|n q Hn Hq IH]; intros pre o t Hfl Hpre Hg; [done|]. destruct Hfl as [pre o l Hl].
  pose proof (flushed_find W pre o l n Hl (proj1 (proj2 Hg)) (λ t Ht, proj1 (HW t Ht))) as Hf.
  cbn [lookup_in]. fold (keep l). rewrite (Hm pre n) by done.
  destruct (find_name o n) as [e|] eqn:He; [|by rewrite Hf].
  apply find_name_iff in He as [_ <-]; [|apply Hg]. cbn [mbind option_bind].
  destruct Hf as [[Hnone ->]|(s & s' & Hte & Hs & Hsub & Hr)].
  - destruct (is_null (oid e)) eqn:Hz; cbn [mbind option_bind].
    + case_bool_decide; [split; [intros [= <- <-]; congruence|done]|].
      destruct (is_tree (mode e)); [|done]. by rewrite (Hnone eq_refl), (Hnull _ Hz).
    + case_bool_decide; [done|]. destruct (is_tree (mode e)); [|done]. rewrite (Hnone eq_refl).
      destruct (load find_tree (oid e)) as [s|]; [|done]. cbn.
      rewrite (lookup_in_ext find_tree M m); [done|]. intros r Hr [r' ->]. apply Forall_app in Hq as [Hgr _].
      rewrite none_below by (done || by apply good_snoc || by apply Hnone).
      destruct r as [|k r _] using rev_ind; [done|]. apply Forall_app in Hgr as [Hgr [Hk _]%Forall_cons].
      rewrite app_assoc. rewrite Hm; [done| |done]. apply Forall_app. split; [by apply good_snoc|done].
  - rewrite Hte, Hs. cbn [mbind option_bind].
    pose proof (wf_good _ HM _ _ Hs) as Hgs. specialize (IH (pre ++ [filename e]) s s' Hsub).
    specialize (IH ltac:(by apply good_snoc) Hgs).
    destruct Hr as [[-> ->]|[Hin ->]]; cbn [mbind option_bind].
    + case_bool_decide; [split; [intros [= <- <-]; congruence|done]|]. rewrite IH. by destruct q.
    + cbn [set_oid mode oid]. rewrite Hte, (proj2 (HW _ Hin)). cbn [mbind option_bind].
      case_bool_decide; [split; intros [= <- <-]; congruence|done].
Qed.
End Database.
End Flush.

(** ** Left-over trees *)

(** The tree of a directory that was replaced or removed stays in the map, and
    no entry leads to it.  Such a tree is neither looked at nor written, so what
    holds without them holds with them. *)
Fixpoint split_key (acc k : bytes) : list bytes :=
  match k with
  | [] => [acc]
  | c :: k => if c =? ch "/" then acc :: split_key [] k else split_key (acc ++ [c]) k
  end.
Definition path_of (k : bytes) : list bytes := if bool_decide (k = []) then [] else split_key [] k.
Lemma split_key_name acc n : no_slash n → split_key acc n = [acc ++ n].
Proof.
  unfold no_slash. revert acc. induction n as [|c n IH]; intros acc Hn; cbn [split_key]; [by rewrite app_nil_r|].
  apply not_elem_of_cons in Hn as [Hc Hn]. destruct (Z.eqb_spec c (ch "/")); [congruence|].
  rewrite IH by done. by rewrite <- app_assoc.
Qed.
Lemma split_key_snoc acc k n : no_slash n → split_key acc (k ++ ch "/" :: n) = split_key acc k ++ [n].
Proof.
  intros Hn. revert acc. induction k as [|c k IH]; intros acc; cbn [split_key app].
  - rewrite Z.eqb_refl. by rewrite split_key_name.
  - destruct (c =? ch "/"); by rewrite IH.
Qed.
Lemma path_of_key p : Forall good_name p → path_of (key_of p) = p.
Proof.
  unfold path_of. induction p as [|n p IH] using rev_ind; intros Hg; [done|].
  apply Forall_app in Hg as [Hp Hn]. rewrite Forall_singleton in Hn. specialize (IH Hp).
  rewrite bool_decide_eq_false_2 by (by apply key_of_snoc_nil). rewrite key_of_snoc. unfold push_path_component.
  case_bool_decide as Hk.
  - subst p. by rewrite split_key_name by apply Hn.
  - change ([ch "/"] ++ n) with (ch "/" :: n). by rewrite split_key_snoc, IH by apply Hn.
Qed.

Section Prune.
Context (M : gmap bytes Tree) (HM : wf_trees M).

(** The entries on the way to a path are trees. *)
Fixpoint linked (pre path : list bytes) : bool :=
  match path with
  | [] => true
  | n :: path =>
      match M !! key_of pre ≫= (λ t, find_name t n) with
      | Some e => is_tree (mode e) && linked (pre ++ [n]) path
      | None => false
      end
  end.
Lemma linked_snoc pre p n t :
  M !! key_of (pre ++ p) = Some t →
  linked pre (p ++ [n]) = linked pre p && match find_name t n with Some e => is_tree (mode e) | None => false end.
Proof.
  revert pre. induction p as [|k p IH]; intros pre Ht; cbn [linked app].
  - rewrite app_nil_r in Ht. rewrite Ht. cbn [mbind option_bind]. destruct (find_name t n); [|done]. by rewrite andb_true_r.
  - destruct (_ ≫= _) as [e|]; [|done]. rewrite IH by (by rewrite <- app_assoc). by rewrite andb_assoc.
Qed.
Definition pruned : gmap bytes Tree := filter (λ x, linked [] (path_of x.1) = true) M.
Lemma pruned_lookup p : Forall good_name p → pruned !! key_of p = if linked [] p then M !! key_of p else None.
Proof.
  intros Hp. unfold pruned. destruct (linked [] p) eqn:Hl.
  - destruct (M !! key_of p) as [t|] eqn:Ht.
    + apply map_lookup_filter_Some. split; [done|]. cbn. by rewrite path_of_key.
    + apply map_lookup_filter_None. by left.
  - apply map_lookup_filter_None. right. intros t _. cbn. rewrite path_of_key by done. congruence.
Qed.
Lemma pruned_sub k t : pruned !! k = Some t → M !! k = Some t.
Proof. by intros [? _]%map_lookup_filter_Some. Qed.
(** The tree that an entry leads to. *)
Lemma linked_child pre o e : Forall good_name pre → linked [] pre = true → M !! key_of pre = Some o →
  good_tree o → e ∈ o → is_tree (mode e) = true → linked [] (pre ++ [filename e]) = true.
Proof.
  intros Hpre Hl Ho Hg He Ht. rewrite (linked_snoc [] pre _ o) by done. rewrite Hl.
  rewrite (proj2 (find_name_iff o (filename e) e (proj1 (proj2 Hg)))); [|done]. done.
Qed.

Lemma pruned_wf : wf_trees pruned.
Proof.
  split.
  - change [] with (key_of []) at 1. rewrite pruned_lookup by constructor. apply HM.
  - intros k t Ht%pruned_sub. by eapply wf_good.
  - intros k [t Ht%pruned_sub]. eapply wf_keys; eauto.
  - intros p n Hp Hn. assert (Hpn : Forall good_name (p ++ [n])) by (by apply good_snoc).
    rewrite !pruned_lookup by done. destruct (linked [] (p ++ [n])) eqn:Hl; [|by intros []].
    intros Hs. destruct (wf_closed _ HM p n Hp Hn Hs) as [t Ht]. rewrite (linked_snoc [] p n t Ht) in Hl.
    apply andb_true_iff in Hl as [-> _]. eauto.
Qed.
Lemma pruned_attached pre n : Forall good_name pre → good_name n → attached pruned pre n.
Proof.
  intros Hp Hn. assert (Hpn : Forall good_name (pre ++ [n])) by (by apply good_snoc).
  unfold attached. rewrite !pruned_lookup by done. destruct (linked [] (pre ++ [n])) eqn:Hl; [|by intros []].
  intros Hs. destruct (wf_closed _ HM pre n Hp Hn Hs) as [t Ht]. rewrite (linked_snoc [] pre n t Ht) in Hl.
  apply andb_true_iff in Hl as [-> Hl]. destruct (find_name t n) as [e|] eqn:He; [|done]. exists t, e. by split_and!.
Qed.

(** *** Looking up a path *)

Lemma none_in_closed p q : Forall good_name p → Forall good_name q → M !! key_of p = None → M !! key_of (p ++ q) = None.
Proof.
  intros Hp Hq Hnone. induction q as [|n q IH] using rev_ind; [by rewrite app_nil_r|].
  apply Forall_app in Hq as [Hq [Hn _]%Forall_cons]. specialize (IH Hq). apply eq_None_not_Some.
  rewrite app_assoc. intros Hs. apply (wf_closed _ HM) in Hs as [t Ht]; [congruence| |done]. by apply Forall_app.
Qed.
Lemma pruned_lookup_in {FindError} (find_tree : ObjectId → FindError + Tree) pre t q :
  Forall good_name pre → Forall good_name q → linked [] pre = true → M !! key_of pre = Some t →
  lookup_in find_tree pruned pre t q = lookup_in find_tree M pre t q.
Proof.
  intros Hpre Hq. revert pre t Hpre. induction Hq as [|n q Hn Hq IH]; intros pre t Hpre Hl Ht; [done|]. cbn [lookup_in].
  destruct (find_name t n) as [e|] eqn:He; [|done]. cbn [mbind option_bind]. case_bool_decide; [done|].
  destruct (is_tree (mode e)) eqn:Hte; [|done].
  assert (Hpn : Forall good_name (pre ++ [n])) by (by apply good_snoc).
  assert (Hlc : linked [] (pre ++ [n]) = true) by (by rewrite (linked_snoc [] pre n t Ht), Hl, He).
  rewrite pruned_lookup, Hlc by done. destruct (M !! key_of (pre ++ [n])) as [sub|] eqn:Hs.
  - cbn [mbind option_bind]. by apply IH.
  - destruct (load find_tree (oid e)) as [sub|]; [|done]. cbn [mbind option_bind].
    apply lookup_in_ext. intros r _ [r' ->]. apply Forall_app in Hq as [Hr _].
    rewrite pruned_lookup by (by apply Forall_app). rewrite (none_in_closed (pre ++ [n]) r) by done. by case_match.
Qed.
Lemma pruned_lookup_path {FindError} (find_tree : ObjectId → FindError + Tree) q :
  Forall good_name q → lookup_path find_tree pruned q = lookup_path find_tree M q.
Proof.
  intros Hq. unfold lookup_path. change (pruned !! (@nil Z)) with (pruned !! key_of []).
  change (M !! (@nil Z)) with (M !! key_of []). rewrite pruned_lookup by constructor. cbn [linked].
  destruct (M !! key_of []) as [t|] eqn:Ht; [|done]. cbn [mbind option_bind]. by apply pruned_lookup_in.
Qed.

(** *** Writing *)

(** Two maps that differ in left-over trees only, during the loop. *)
Definition same_linked (m m' : gmap bytes Tree) : Prop :=
  (∀ k t, m !! k = Some t → M !! k = Some t) ∧
  ∀ p, Forall good_name p → linked [] p = true → m' !! key_of p = m !! key_of p.
(** The tree of an item: its entries that are trees are entries of the tree of the map. *)
Definition subset_of (o : Tree) (t : Tree) : Prop :=
  ∀ e, e ∈ t → is_tree (mode e) = true → ∃ e', e' ∈ o ∧ filename e' = filename e ∧ is_tree (mode e') = true.
Definition item_ok (x : Item) : Prop :=
  ∃ pre o, x.1.2 = key_of pre ∧ Forall good_name pre ∧ linked [] pre = true ∧ M !! key_of pre = Some o ∧ subset_of o x.2.

Lemma take_children_same pre o es idx m m' children b :
  Forall good_name pre → linked [] pre = true → M !! key_of pre = Some o → subset_of o es → same_linked m m' →
  ∃ m1 m1' new b1, take_children (key_of pre) es idx m children b = (m1, children ++ new, b1) ∧
    take_children (key_of pre) es idx m' children b = (m1', children ++ new, b1) ∧
    same_linked m1 m1' ∧ Forall item_ok new.
Proof.
  intros Hpre Hl Ho. revert m m' children b.
  induction es as [|e es IH]; intros m m' children b Hes Hm; cbn [take_children].
  { exists m, m', [], b. rewrite app_nil_r. by split_and!. }
  assert (Hes' : subset_of o es) by (intros x Hx; apply Hes; by right).
  destruct (is_tree (mode e)) eqn:Ht; [|by apply IH].
  destruct (Hes e) as (e' & He' & Hn & Hte'); [left|done|]. rewrite <- Hn, <- key_of_snoc.
  assert (Hgo : good_tree o) by (by eapply wf_good).
  assert (Hgn : good_name (filename e')).
  { destruct Hgo as (_ & _ & Hg). rewrite Forall_forall in Hg. by apply Hg. }
  assert (Hpn : Forall good_name (pre ++ [filename e'])) by (by apply good_snoc).
  pose proof (linked_child pre o e' Hpre Hl Ho Hgo He' Hte') as Hlc. destruct Hm as [Hm1 Hm2].
  rewrite Hm2 by done. destruct (m !! key_of (pre ++ [filename e'])) as [sub|] eqn:Hs; [|by apply IH].
  destruct (IH (delete (key_of (pre ++ [filename e'])) m) (delete (key_of (pre ++ [filename e'])) m')
    (children ++ [(Some idx, key_of (pre ++ [filename e']), sub)]) false Hes') as (m1 & m1' & new & b1 & -> & -> & Hm' & Hnew).
  { split.
    - intros k t [_ Hk]%lookup_delete_Some. by apply Hm1.
    - intros p Hp Hlp. destruct (decide (key_of (pre ++ [filename e']) = key_of p)) as [<-|Hne].
      + by rewrite !lookup_delete_eq.
      + rewrite !lookup_delete_ne by done. by apply Hm2. }
  exists m1, m1', ((Some idx, key_of (pre ++ [filename e']), sub) :: new), b1. rewrite <- app_assoc.
  split_and!; [done|done|done|]. constructor; [|done]. exists (pre ++ [filename e']), sub.
  split_and!; [done|done|done|by apply Hm1|]. intros x Hx Hxt. by exists x.
Qed.
Lemma subset_of_sub o t t' : subset_of o t → (∀ e, e ∈ t' → ∃ e', e' ∈ t ∧ filename e' = filename e ∧ mode e' = mode e) → subset_of o t'.
Proof.
  intros Ht Hsub e He Hte. destruct (Hsub e He) as (x & Hx & Hn & Hm). rewrite <- Hm in Hte.
  destruct (Ht x Hx Hte) as (y & ? & ? & ?). exists y. split_and!; [done|congruence|done].
Qed.
Lemma item_ok_insert (P : list Item) i (x y : Item) : Forall item_ok P → P !! i = Some x → y.1.2 = x.1.2 →
  (∀ e, e ∈ y.2 → ∃ e', e' ∈ x.2 ∧ filename e' = filename e ∧ mode e' = mode e) → Forall item_ok (<[i := y]> P).
Proof.
  intros HP Hx Hk Hsub. apply Forall_insert; [done|]. rewrite Forall_lookup in HP.
  destruct (HP i x Hx) as (pre & o & ? & ? & ? & ? & ?). exists pre, o. rewrite Hk. split_and!; [done..|].
  by eapply subset_of_sub.
Qed.

Context {S E : Type} (oid_of : Tree → ObjectId) (out : S → Tree → S * (E + ObjectId)).
Hypothesis Hout : ∀ s t, (out s t).2 = inr (oid_of t).
Context `{!bstr.Api}.

Lemma write_loop_same fuel m m' P C s :
  same_linked m m' → Forall item_ok P → Forall item_ok C →
  write_loop out fuel WriteNormal m' P C s = write_loop out fuel WriteNormal m P C s.
Proof.
  revert m m' P C s. induction fuel as [|fuel IH]; intros m m' P C s Hm HP HC; [done|]. cbn [write_loop].
  assert (Hpop : ∀ l x (l' : list Item), Forall item_ok l → pop l = Some (l', x) → Forall item_ok l' ∧ item_ok x).
  { intros l x l' Hl. destruct l as [|y l _] using rev_ind; [by unfold pop|]. rewrite pop_snoc. intros [= -> ->].
    apply Forall_app in Hl as [? [? _]%Forall_cons]. by split. }
  assert (Hx : match (match pop C with Some (C, x) => Ok (P, C, x) | None =>
      match pop P with Some (P, x) => Ok (P, C, x) | None => Panic end end : res Empty_set _) with
    | Ok (P, C, x) => Forall item_ok P ∧ Forall item_ok C ∧ item_ok x | _ => True end).
  { destruct (pop C) as [[C' x]|] eqn:HpC; [by destruct (Hpop C x C'); auto|].
    destruct (pop P) as [[P' x]|] eqn:HpP; [|done]. destruct (Hpop P x P'); auto. }
  destruct (match pop C with Some _ => _ | None => _ end : res Empty_set _) as [[[P1 C1] [[pi k] t]]|[]|]; [|done].
  rewrite !bind_Ok. destruct Hx as (HP1 & HC1 & pre & o & Hk & Hpre & Hl & Ho & Ht). cbn [fst snd] in Hk, Ht. subst k.
  destruct (take_children_same pre o t (length P1) m m' C1 true Hpre Hl Ho Ht Hm) as (m1 & m1' & new & b & -> & -> & Hm1 & Hnew).
  assert (HC2 : Forall item_ok (C1 ++ new)) by (by apply Forall_app).
  destruct b; [|apply IH; [done| |done]; apply Forall_app; split; [done|]; apply Forall_singleton; by exists pre, o].
  destruct pi as [i|].
  - destruct (P1 !! i) as [[[g pp] pt]|] eqn:Hi; [|done]. cbn [expect]. rewrite !bind_Ok.
    destruct (search_entry pt _ true) as [[j|j]|[]|]; [|done|done]. rewrite !bind_Ok. cbn [expect]. rewrite !bind_Ok.
    case_bool_decide.
    + unfold vec_remove. destruct (_ <? _)%nat; [|done]. rewrite !bind_Ok. apply IH; [done| |done].
      eapply item_ok_insert; [done|done|done|]. cbn. intros e He. exists e. split; [|done].
      by eapply list_elem_of_delete_inv.
    + pose proof (Hout s (filter (λ e, is_null (oid e) = false) t)) as Ho2.
      destruct (out s _) as [s2 r]. cbn in Ho2. subst r. apply IH; [done| |done].
      eapply item_ok_insert; [done|done|done|]. cbn. intros e [j' He]%list_elem_of_lookup.
      rewrite list_lookup_alter in He. case_decide.
      * apply fmap_Some in He as (e1 & He1 & ->). exists e1. split; [by eapply list_elem_of_lookup_2|done].
      * exists e. split; [by eapply list_elem_of_lookup_2|done].
  - pose proof (Hout s (filter (λ e, is_null (oid e) = false) t)) as Ho2.
    case_bool_decide; [destruct (out s _) as [s2 r]; cbn in Ho2; by subst r|].
    case_bool_decide; [by apply IH|]. destruct (out s _) as [s2 r]. cbn in Ho2. subst r. by apply IH.
Qed.

Lemma pruned_same : same_linked (delete [] M) (delete [] pruned).
Proof.
  split; [by intros k t [_ ?]%lookup_delete_Some|]. intros p Hp Hl.
  destruct (decide (key_of p = [])) as [->|Hne]; [by rewrite !lookup_delete_eq|].
  rewrite !lookup_delete_ne by done. by rewrite pruned_lookup, Hl.
Qed.
End Prune.

(** C29: Writing an editor that is well-formed (it has a root, each of its trees
    is in git's order with unique names that are not empty and have no separator,
    and above each tree but the root it has the parent tree; any sequence of edits
    with such names makes such editors) neither panics nor runs forever, and
    succeeds when writing each single tree does, also if the editor has left-over
    trees of directories that were removed or replaced.  It writes no empty tree
    but possibly the root, the root comes last, is in git's order and is all that
    stays in the editor; and once the database has what was written, and nothing
    under the null id, each path leads to the same file as before, placeholders
    (entries with a null id) apart. *)
Theorem write_correct `{bstr.Laws} {S E FindError} (oid_of : Tree → ObjectId) (out : S → Tree → S * (E + ObjectId))
    (ed : Editor) (s : S) :
  wf_trees (trees ed) → (∀ s t, (out s t).2 = inr (oid_of t)) →
  ∃ calls t', write out ed s = Ok (foldl (step out) s (calls ++ [t']), mkEditor {[ [] := t' ]} [], inr (oid_of t')) ∧
    good_tree t' ∧ Forall (λ t, t ≠ []) calls ∧
    ∀ (find_tree : ObjectId → FindError + Tree), stored oid_of find_tree calls →
      ∀ q md id, Forall good_name q → is_tree md = false → is_null id = false →
        lookup_path find_tree (trees ed) q = Some (md, id) ↔ lookup_path find_tree {[ [] := t' ]} q = Some (md, id).
Proof.
  intros Hwf Hout. destruct (wf_root _ Hwf) as [root Hroot]. pose proof (wf_good _ Hwf _ _ Hroot) as Hg.
  assert (Hprune : pruned (trees ed) !! [] = Some root).
  { change (@nil Z) with (key_of []) at 1. rewrite pruned_lookup by constructor. exact Hroot. }
  pose proof (pruned_wf _ Hwf) as Hwfp. pose proof (pruned_attached _ Hwf) as Hat.
  assert (Hsize : (size (pruned (trees ed)) ≤ size (trees ed))%nat) by apply map_size_filter.
  destruct (write_root (pruned (trees ed)) oid_of Hwfp Hat out Hout root Hprune (2 * size (trees ed) + 1) s)
    as (calls & t' & Hw & Hfl & Hne); [lia|].
  exists calls, t'. split_and!; [|by eapply flushed_good|done|].
  - unfold write, write_at_pathbuf. cbn [with_path trees path_buf]. rewrite Hroot. cbn [expect]. rewrite bind_Ok.
    replace (2 * size (trees ed) + 2)%nat with (Datatypes.S (2 * size (trees ed) + 1)) by lia.
    rewrite <- (write_loop_same (trees ed) Hwf oid_of out Hout _ (delete [] (trees ed)) (delete [] (pruned (trees ed)))), Hw; [done| | |constructor].
    + by apply pruned_same.
    + constructor; [|constructor]. exists [], root. split_and!; [done|constructor|done|done|]. intros e He ?. by exists e.
  - intros find_tree Hst q md id Hq Hmd Hid. rewrite <- pruned_lookup_path by done.
    unfold lookup_path. rewrite Hprune, lookup_singleton_eq. cbn [mbind option_bind].
    eapply (flushed_lookup (pruned (trees ed))); try done. intros p n Hp Hn. rewrite lookup_singleton_ne; [done|].
    intros Heq. apply (key_of_inj []) in Heq; [by destruct p|constructor|by apply good_snoc].
Qed.

(** ** Examples *)

(** The consumer of trees stores them, under ids from their sizes. *)
Definition example_oid (t : Tree) : ObjectId := oid_n (100 + Z.of_nat (length t)).
Definition example_out (s : list Tree) (t : Tree) : list Tree * (Empty_set + ObjectId) := (s ++ [t], inr (example_oid t)).

(** An editor with an edit in a directory is written, and one in which a file has
    then replaced the directory. *)
Lemma write_correct_witness :
  (∃ calls t', @write bstr_impl _ _ example_out example_edited [] =
      Ok (foldl (step example_out) [] (calls ++ [t']), mkEditor {[ [] := t' ]} [], inr (example_oid t')) ∧ good_tree t') ∧
  ∃ calls t', @write bstr_impl _ _ example_out example_left_over [] =
      Ok (foldl (step example_out) [] (calls ++ [t']), mkEditor {[ [] := t' ]} [], inr (example_oid t')) ∧ good_tree t'.
Proof.
  split.
  - destruct (@write_correct bstr_impl bstr_impl_laws (list Tree) Empty_set unit example_oid example_out
      example_edited []) as (calls & t' & Hw & Hg & _).
    + apply (made_wf example_find example_root); [exact example_good_database|exact example_good_root|].
      exact example_edited_made.
    + intros s t. reflexivity.
    + exists calls, t'. split; [exact Hw|exact Hg].
  - destruct (@write_correct bstr_impl bstr_impl_laws (list Tree) Empty_set unit example_oid example_out
      example_left_over []) as (calls & t' & Hw & Hg & _).
    + apply (made_wf example_find example_root); [exact example_good_database|exact example_good_root|].
      exact example_left_over_made.
    + intros s t. reflexivity.
    + exists calls, t'. split; [exact Hw|exact Hg].
Defined.

(** An edit below a directory and what is written for it: the subtree, then the
    root with its id. *)
Example write_after_upsert :
  ('(ed, _) ← upsert example_find (editor_new example_root) [bs "d"; bs "x"] EKBlob (oid_n 5);
   '(s, ed, r) ← @write bstr_impl _ _ example_out ed [];
   Ok (s, trees ed !! [], r)) =
  Ok ([[blob_entry (bs "n") 1; blob_entry (bs "x") 5]; [blob_entry (bs "a") 2; dir_entry (bs "d") 102]],
      Some [blob_entry (bs "a") 2; dir_entry (bs "d") 102], inr (oid_n 102)).
Proof. vm_compute. reflexivity. Qed.

(** A component with a separator is accepted by [upsert], and makes [write]
    panic: the parent does not know the subtree by the last part of its path. *)
Example write_panics_on_separator :
  ('(ed, _) ← upsert example_find (editor_new []) [bs "a/b"; bs "x"] EKBlob (oid_n 5);
   @write bstr_impl _ _ example_out ed []) = Panic.
Proof. vm_compute. reflexivity. Qed.
