(* ===== verification/ObjectFind.v ===== *)
(** * Finding objects: [gix-object/src/traits.rs], [find.rs] and [data.rs]

    An object database is a parameter: the function [try_find] of the trait
    [Find], with its own errors.  The extension methods that expect an object
    of a kind are modelled on top of it; iterators over the entries of a tree
    and over the tokens of a commit or tag are the data they still have to
    read. *)

From S2P Require Import Prelude External Hash PackEntry ObjectTree.
Import PackEntry.Entry.

(** [Data] *)
Record Data := mkData { data_kind : Kind; data_bytes : bytes }.

#[global] Instance ObjectKind_eq_dec : EqDecision Kind.
Proof. solve_decision. Defined.

Definition try_into_tree_iter (d : Data) : option bytes :=
  if bool_decide (data_kind d = KTree) then Some (data_bytes d) else None.
Definition try_into_commit_iter (d : Data) : option bytes :=
  if bool_decide (data_kind d = KCommit) then Some (data_bytes d) else None.
Definition try_into_tag_iter (d : Data) : option bytes :=
  if bool_decide (data_kind d = KTag) then Some (data_bytes d) else None.

Section Find.
(** [find::Error] is a boxed error of the database. *)
Context {Fe : Type} (try_find : ObjectId → res Fe (option Data)).

(** [existing_iter::Error]. *)
Inductive ExistingIterError :=
| Find (e : Fe)
| NotFound (oid : ObjectId)
| ObjectKind (oid : ObjectId) (actual expected : Kind).

Definition find_iter (object_kind : Kind) (into_iter : Data → option bytes) (id : ObjectId)
  : res ExistingIterError bytes :=
  o ← map_err Find (try_find id);
  o ← ok_or o (NotFound id);
  ok_or (into_iter o) (ObjectKind id (data_kind o) object_kind).
Definition find_commit_iter : ObjectId → res ExistingIterError bytes := find_iter KCommit try_into_commit_iter.
Definition find_tree_iter : ObjectId → res ExistingIterError bytes := find_iter KTree try_into_tree_iter.
Definition find_tag_iter : ObjectId → res ExistingIterError bytes := find_iter KTag try_into_tag_iter.

Lemma find_tree_iter_ok id data : try_find id = Ok (Some (mkData KTree data)) → find_tree_iter id = Ok data.
Proof. intros H. unfold find_tree_iter, find_iter. by rewrite H. Qed.
End Find.
Arguments Find {Fe}. Arguments NotFound {Fe}. Arguments ObjectKind {Fe}.
