(* ===== verification/TreeDiff.v ===== *)
(** * Changes between trees: [gix-diff/src/tree]

    Models [changes.rs] (the traversal of two trees in lockstep, breadth
    first), [visit.rs] (what it tells a delegate) and [recorder.rs] (the
    delegate that records all changes with their paths).

    The traversal is a computation on the state of the delegate, which it also
    has after an error.  The buffers of [State] only save allocations; its
    queue is an argument. *)

From S2P Require Import Prelude Slices External Hash PackEntry ObjectTree ObjectFind.
Import PackEntry.Entry ObjectTree.

(** ** [visit.rs] *)

Inductive Change :=
| Addition (entry_mode : Z) (oid : ObjectId)
| Deletion (entry_mode : Z) (oid : ObjectId)
| Modification (previous_entry_mode : Z) (previous_oid : ObjectId) (entry_mode : Z) (oid : ObjectId).
Definition change_oid (c : Change) : ObjectId :=
  match c with Addition _ oid | Deletion _ oid | Modification _ _ _ oid => oid end.
Definition change_entry_mode (c : Change) : Z :=
  match c with Addition m _ | Deletion m _ | Modification _ _ m _ => m end.
Definition oid_and_entry_mode (c : Change) : ObjectId * Z := (change_oid c, change_entry_mode c).

Inductive Action := Continue | Cancel.
Definition cancelled (a : Action) : bool := match a with Cancel => true | Continue => false end.

(** The trait [Visit], for a delegate with state [D]. *)
Record Visit (D : Type) := mkVisit {
  pop_front_tracked_path_and_set_current : D → res Empty_set D;
  push_back_tracked_path_component : bytes → D → D;
  push_path_component : bytes → D → D;
  pop_path_component : D → D;
  visit : Change → D → Action * D }.
Arguments pop_front_tracked_path_and_set_current {D}. Arguments push_back_tracked_path_component {D}.
Arguments push_path_component {D}. Arguments pop_path_component {D}. Arguments visit {D}.

(** ** [changes.rs] *)

Section Changes.
Context `{!bstr.Api} {Fe : Type} (try_find : ObjectId → res Fe (option Data)).

Inductive DiffError :=
| DiffFind (e : ExistingIterError (Fe := Fe))
| Cancelled
| EntriesDecode.

Section Traversal.
Context {D : Type} (delegate : Visit D).

(** Computations with access to the delegate. *)
Definition M (A : Type) : Type := D → res DiffError A * D.
#[global] Instance M_ret : MRet M := λ A a d, (Ok a, d).
#[global] Instance M_bind : MBind M := λ A B f m d,
  match m d with (Ok a, d) => f a d | (Err e, d) => (Err e, d) | (Panic, d) => (Panic, d) end.
Definition returns {A} (r : res DiffError A) : M A := λ d, (r, d).
Definition call (f : D → D) : M unit := λ d, (Ok tt, f d).
Definition call_visit (c : Change) : M unit := λ d,
  let '(a, d) := visit delegate c d in ((if cancelled a then Err Cancelled else Ok tt), d).
Definition call_pop_front : M unit := λ d,
  match pop_front_tracked_path_and_set_current delegate d with
  | Ok d => (Ok tt, d) | Err e => match e with end | Panic => (Panic, d)
  end.

Definition TreeInfoPair : Type := option ObjectId * option ObjectId.

Definition compare_entries (a b : Entry) : comparison :=
  let common := (length (filename a) `min` length (filename b))%nat in
  ord_then (bytes_cmp (take common (filename a)) (take common (filename b)))
    (option_cmp (next_byte (filename a) (is_tree (mode a)) common)
                (next_byte (filename b) (is_tree (mode b)) common)).

Definition delete_entry_schedule_recursion (e : Entry) (queue : list TreeInfoPair) : M (list TreeInfoPair) :=
  _ ← call (push_path_component delegate (filename e));
  _ ← call_visit (Deletion (mode e) (oid e));
  if is_tree (mode e) then
    _ ← call (pop_path_component delegate);
    _ ← call (push_back_tracked_path_component delegate (filename e));
    mret (queue ++ [(Some (oid e), None)])
  else mret queue.
Definition add_entry_schedule_recursion (e : Entry) (queue : list TreeInfoPair) : M (list TreeInfoPair) :=
  _ ← call (push_path_component delegate (filename e));
  _ ← call_visit (Addition (mode e) (oid e));
  if is_tree (mode e) then
    _ ← call (pop_path_component delegate);
    _ ← call (push_back_tracked_path_component delegate (filename e));
    mret (queue ++ [(None, Some (oid e))])
  else mret queue.

Definition visit_modification (lhs rhs : Entry) : M unit :=
  if bool_decide (oid lhs ≠ oid rhs)
  then call_visit (Modification (mode lhs) (oid lhs) (mode rhs) (oid rhs)) else mret tt.
Definition handle_lhs_and_rhs_with_equal_filenames (lhs rhs : Entry) (queue : list TreeInfoPair)
  : M (list TreeInfoPair) :=
  match is_tree (mode lhs), is_tree (mode rhs) with
  | true, true =>
      _ ← call (push_back_tracked_path_component delegate (filename lhs));
      _ ← visit_modification lhs rhs;
      mret (queue ++ [(Some (oid lhs), Some (oid rhs))])
  | false, true =>
      _ ← call (push_back_tracked_path_component delegate (filename lhs));
      _ ← call_visit (Deletion (mode lhs) (oid lhs));
      _ ← call_visit (Addition (mode rhs) (oid rhs));
      mret (queue ++ [(None, Some (oid rhs))])
  | true, false =>
      _ ← call (push_back_tracked_path_component delegate (filename lhs));
      _ ← call_visit (Deletion (mode lhs) (oid lhs));
      _ ← call_visit (Addition (mode rhs) (oid rhs));
      mret (queue ++ [(Some (oid lhs), None)])
  | false, false =>
      _ ← call (push_path_component delegate (filename lhs));
      _ ← visit_modification lhs rhs;
      mret queue
  end.

(** [Peekable::next] over a [TreeRefIter], and [peek], which keeps the item. *)
Definition next_entry (entries : bytes) : M (option (res unit Entry) * bytes) := returns (lift (iter_next entries)).
Definition decoded (item : res unit Entry) : M Entry := returns (map_err (λ _, EntriesDecode) item).

(** The remaining entries of the side that is behind are returned. *)
Fixpoint catchup_rhs_loop (fuel : nat) (rhs_entries : bytes) (lhs : Entry) (queue : list TreeInfoPair)
  : M (bytes * list TreeInfoPair) :=
  match fuel with
  | O => returns Panic
  | S fuel =>
      '(item, rest) ← next_entry rhs_entries;
      match item with
      | Some (Ok rhs) =>
          match compare_entries lhs rhs with
          | Eq =>
              _ ← call (pop_path_component delegate);
              queue ← handle_lhs_and_rhs_with_equal_filenames lhs rhs queue; mret (rest, queue)
          | Gt =>
              _ ← call (pop_path_component delegate);
              queue ← add_entry_schedule_recursion rhs queue; catchup_rhs_loop fuel rest lhs queue
          | Lt =>
              _ ← call (pop_path_component delegate);
              queue ← delete_entry_schedule_recursion lhs queue; mret (rhs_entries, queue)
          end
      | Some (Err _) => returns (Err EntriesDecode)
      | Some Panic => returns Panic
      | None =>
          _ ← call (pop_path_component delegate);
          queue ← delete_entry_schedule_recursion lhs queue; mret (rhs_entries, queue)
      end
  end.
Definition catchup_rhs_with_lhs (rhs_entries : bytes) (lhs rhs : Entry) (queue : list TreeInfoPair)
  : M (bytes * list TreeInfoPair) :=
  queue ← add_entry_schedule_recursion rhs queue;
  catchup_rhs_loop (S (length rhs_entries)) rhs_entries lhs queue.
Fixpoint catchup_lhs_loop (fuel : nat) (lhs_entries : bytes) (rhs : Entry) (queue : list TreeInfoPair)
  : M (bytes * list TreeInfoPair) :=
  match fuel with
  | O => returns Panic
  | S fuel =>
      '(item, rest) ← next_entry lhs_entries;
      match item with
      | Some (Ok lhs) =>
          match compare_entries lhs rhs with
          | Eq =>
              _ ← call (pop_path_component delegate);
              queue ← handle_lhs_and_rhs_with_equal_filenames lhs rhs queue; mret (rest, queue)
          | Lt =>
              _ ← call (pop_path_component delegate);
              queue ← delete_entry_schedule_recursion lhs queue; catchup_lhs_loop fuel rest rhs queue
          | Gt =>
              _ ← call (pop_path_component delegate);
              queue ← add_entry_schedule_recursion rhs queue; mret (lhs_entries, queue)
          end
      | Some (Err _) => returns (Err EntriesDecode)
      | Some Panic => returns Panic
      | None =>
          _ ← call (pop_path_component delegate);
          queue ← add_entry_schedule_recursion rhs queue; mret (lhs_entries, queue)
      end
  end.
Definition catchup_lhs_with_rhs (lhs_entries : bytes) (lhs rhs : Entry) (queue : list TreeInfoPair)
  : M (bytes * list TreeInfoPair) :=
  queue ← delete_entry_schedule_recursion lhs queue;
  catchup_lhs_loop (S (length lhs_entries)) lhs_entries rhs queue.

(** [objects.find_tree_iter(id, buf)?]. *)
Definition find_tree (id : ObjectId) : M bytes := returns (map_err DiffFind (find_tree_iter try_find id)).

(** The loop of [needed_to_obtain]. *)
Fixpoint changes_loop (fuel : nat) (pop_path : bool) (lhs_entries rhs_entries : bytes)
    (trees : list TreeInfoPair) : M unit :=
  match fuel with
  | O => returns Panic
  | S fuel =>
      _ ← (if pop_path then call (pop_path_component delegate) else mret tt);
      '(l, lhs_rest) ← next_entry lhs_entries;
      '(r, rhs_rest) ← next_entry rhs_entries;
      match l, r with
      | None, None =>
          match trees with
          | (None, Some rhs) :: trees =>
              _ ← call_pop_front;
              rhs_entries ← find_tree rhs;
              changes_loop fuel false lhs_rest rhs_entries trees
          | (Some lhs, Some rhs) :: trees =>
              _ ← call_pop_front;
              lhs_entries ← find_tree lhs;
              rhs_entries ← find_tree rhs;
              changes_loop fuel false lhs_entries rhs_entries trees
          | (Some lhs, None) :: trees =>
              _ ← call_pop_front;
              lhs_entries ← find_tree lhs;
              changes_loop fuel false lhs_entries rhs_rest trees
          | (None, None) :: _ => returns Panic
          | [] => mret tt
          end
      | Some lhs, Some rhs =>
          lhs ← decoded lhs;
          rhs ← decoded rhs;
          match compare_entries lhs rhs with
          | Eq =>
              trees ← handle_lhs_and_rhs_with_equal_filenames lhs rhs trees;
              changes_loop fuel true lhs_rest rhs_rest trees
          | Lt =>
              '(lhs_rest, trees) ← catchup_lhs_with_rhs lhs_rest lhs rhs trees;
              changes_loop fuel true lhs_rest rhs_rest trees
          | Gt =>
              '(rhs_rest, trees) ← catchup_rhs_with_lhs rhs_rest lhs rhs trees;
              changes_loop fuel true lhs_rest rhs_rest trees
          end
      | Some lhs, None =>
          lhs ← decoded lhs;
          trees ← delete_entry_schedule_recursion lhs trees;
          changes_loop fuel true lhs_rest rhs_rest trees
      | None, Some rhs =>
          rhs ← decoded rhs;
          trees ← add_entry_schedule_recursion rhs trees;
          changes_loop fuel true lhs_rest rhs_rest trees
      end
  end.
(** [Changes::needed_to_obtain]; no tree at all is the empty tree. *)
Definition needed_to_obtain (fuel : nat) (tree : option bytes) (other : bytes) : M unit :=
  changes_loop fuel false (default [] tree) other [].
End Traversal.
End Changes.
Arguments DiffFind {Fe}. Arguments Cancelled {Fe}. Arguments EntriesDecode {Fe}.

(** ** [recorder.rs] *)

Inductive Location := LPath | LFileName.
Inductive RChange :=
| RAddition (entry_mode : Z) (oid : ObjectId) (path : bytes)
| RDeletion (entry_mode : Z) (oid : ObjectId) (path : bytes)
| RModification (previous_entry_mode : Z) (previous_oid : ObjectId) (entry_mode : Z) (oid : ObjectId) (path : bytes).
Record Recorder := mkRecorder {
  path_deque : list bytes; path : bytes; location : option Location; records : list RChange }.
Definition recorder_default : Recorder := mkRecorder [] [] (Some LPath) [].
Definition track_location (l : option Location) (r : Recorder) : Recorder :=
  mkRecorder (path_deque r) (path r) l (records r).
Definition set_path (p : bytes) (r : Recorder) : Recorder :=
  mkRecorder (path_deque r) p (location r) (records r).

(** [path.rfind_byte(b'/')]: the position of the last slash. *)
Fixpoint rfind_slash (p : bytes) : option nat :=
  match p with
  | [] => None
  | b :: p =>
      match rfind_slash p with
      | Some i => Some (S i)
      | None => if b =? ch "/" then Some O else None
      end
  end.
Definition pop_element (r : Recorder) : Recorder :=
  match rfind_slash (path r) with
  | Some pos => set_path (resize (path r) pos) r
  | None => set_path [] r
  end.
Definition push_element (name : bytes) (r : Recorder) : Recorder :=
  set_path ((if bool_decide (path r = []) then [] else path r ++ [ch "/"]) ++ name) r.

Definition recorder_pop_front (r : Recorder) : res Empty_set Recorder :=
  match location r with
  | Some LPath =>
      match path_deque r with
      | p :: rest => Ok (mkRecorder rest p (location r) (records r))
      | [] => Panic
      end
  | _ => Ok r
  end.
Definition recorder_push_back (component : bytes) (r : Recorder) : Recorder :=
  match location r with
  | None => r
  | Some LPath =>
      let r := push_element component r in
      mkRecorder (path_deque r ++ [path r]) (path r) (location r) (records r)
  | Some LFileName => set_path component r
  end.
Definition recorder_push (component : bytes) (r : Recorder) : Recorder :=
  match location r with
  | None => r
  | Some LPath => push_element component r
  | Some LFileName => set_path component r
  end.
Definition recorder_pop (r : Recorder) : Recorder :=
  match location r with Some LPath => pop_element r | _ => r end.
Definition recorded (c : Change) (path : bytes) : RChange :=
  match c with
  | Deletion m oid => RDeletion m oid path
  | Addition m oid => RAddition m oid path
  | Modification pm poid m oid => RModification pm poid m oid path
  end.
Definition recorder_visit (c : Change) (r : Recorder) : Action * Recorder :=
  (Continue, mkRecorder (path_deque r) (path r) (location r) (records r ++ [recorded c (path r)])).
Definition RecorderVisit : Visit Recorder :=
  mkVisit Recorder recorder_pop_front recorder_push_back recorder_push recorder_pop recorder_visit.

(** ** The changes of one pair of trees *)

Definition push_name (p name : bytes) : bytes := (if bool_decide (p = []) then [] else p ++ [ch "/"]) ++ name.
Definition pop_name (p : bytes) : bytes :=
  match rfind_slash p with Some pos => resize p pos | None => [] end.
Definition rec_at (dq : list bytes) (p : bytes) (rs : list RChange) : Recorder := mkRecorder dq p (Some LPath) rs.

Lemma rfind_slash_none p : no_slash p → rfind_slash p = None.
Proof.
  induction p as [|b p IH]; intros Hp; [done|]. unfold no_slash in *. rewrite not_elem_of_cons in Hp. destruct Hp as [Hb Hp].
  cbn. rewrite IH by done. by destruct (Z.eqb_spec b (ch "/")).
Qed.
Lemma rfind_slash_last p name : no_slash name → rfind_slash (p ++ ch "/" :: name) = Some (length p).
Proof. intros Hn. induction p as [|b p IH]; cbn; [by rewrite rfind_slash_none|by rewrite IH]. Qed.
Lemma pop_push p name : no_slash name → pop_name (push_name p name) = p.
Proof.
  intros Hn. unfold pop_name, push_name. case_bool_decide as Hp; subst.
  - by rewrite rfind_slash_none.
  - rewrite <- app_assoc. cbn [app]. rewrite rfind_slash_last by done. unfold resize.
    rewrite take_app_length, length_app. replace (_ - _)%nat with O by lia. apply app_nil_r.
Qed.
Lemma pop_element_at dq p rs : pop_element (rec_at dq p rs) = rec_at dq (pop_name p) rs.
Proof. unfold pop_element, pop_name, rec_at. cbn [path]. by destruct (rfind_slash p). Qed.
Lemma push_element_at dq p rs name : push_element name (rec_at dq p rs) = rec_at dq (push_name p name) rs.
Proof. done. Qed.

(** What the two sides have under one name. *)
Definition Pair : Type := option Entry * option Entry.
Definition pair_name (x : Pair) : bytes :=
  match x with (Some a, _) => filename a | (None, Some b) => filename b | (None, None) => [] end.
(** The changes that are recorded for it. *)
Definition modification (a b : Entry) (p : bytes) : list RChange :=
  if bool_decide (oid a ≠ oid b) then [RModification (mode a) (oid a) (mode b) (oid b) p] else [].
Definition pair_changes (p : bytes) (x : Pair) : list RChange :=
  match x with
  | (Some a, None) => [RDeletion (mode a) (oid a) p]
  | (None, Some b) => [RAddition (mode b) (oid b) p]
  | (Some a, Some b) =>
      if Bool.eqb (is_tree (mode a)) (is_tree (mode b)) then modification a b p
      else [RDeletion (mode a) (oid a) p; RAddition (mode b) (oid b) p]
  | (None, None) => []
  end.
Definition subtree (e : option Entry) : option ObjectId :=
  e ← e; if is_tree (mode e) then Some (oid e) else None.
Definition pair_trees (x : Pair) : list TreeInfoPair :=
  match subtree x.1, subtree x.2 with None, None => [] | l, r => [(l, r)] end.

(** The changes and subtrees of all names, with the path of their parent. *)
Definition level_changes (p : bytes) (xs : list Pair) : list RChange :=
  concat ((λ x, pair_changes (push_name p (pair_name x)) x) <$> xs).
Definition level_trees (xs : list Pair) : list TreeInfoPair := concat (pair_trees <$> xs).
Definition level_paths (p : bytes) (xs : list Pair) : list bytes :=
  concat ((λ x, (λ _, push_name p (pair_name x)) <$> pair_trees x) <$> xs).

Lemma level_changes_app p xs ys : level_changes p (xs ++ ys) = level_changes p xs ++ level_changes p ys.
Proof. unfold level_changes. by rewrite fmap_app, concat_app. Qed.
Lemma level_trees_app xs ys : level_trees (xs ++ ys) = level_trees xs ++ level_trees ys.
Proof. unfold level_trees. by rewrite fmap_app, concat_app. Qed.
Lemma level_paths_app p xs ys : level_paths p (xs ++ ys) = level_paths p xs ++ level_paths p ys.
Proof. unfold level_paths. by rewrite fmap_app, concat_app. Qed.

(** Both sides in the order of their entries. *)
Fixpoint merge (l : list Entry) : list Entry → list Pair :=
  match l with
  | [] => λ r, (λ b, (None, Some b)) <$> r
  | a :: l' => fix go (r : list Entry) : list Pair :=
      match r with
      | [] => (λ a, (Some a, None)) <$> (a :: l')
      | b :: r' =>
          match tree_entry_cmp a b with
          | Eq => (Some a, Some b) :: merge l' r'
          | Lt => (Some a, None) :: merge l' (b :: r')
          | Gt => (None, Some b) :: go r'
          end
      end
  end.
Lemma merge_nil_r l : merge l [] = (λ a, (Some a, None)) <$> l.
Proof. by destruct l. Qed.
Lemma merge_cons a l b r : merge (a :: l) (b :: r) =
  match tree_entry_cmp a b with
  | Eq => (Some a, Some b) :: merge l r
  | Lt => (Some a, None) :: merge l (b :: r)
  | Gt => (None, Some b) :: merge (a :: l) r
  end.
Proof. done. Qed.

Section Level.
Context {BA : bstr.Api} {BL : bstr.Laws} {Fe : Type} (try_find : ObjectId → res Fe (option Data)).

(** The iterator yields these entries. *)
Inductive entries_of : bytes → list Entry → Prop :=
| entries_nil : entries_of [] []
| entries_cons data rest e es : data ≠ [] → fast_entry data = Ok (rest, e) → entries_of rest es →
    entries_of data (e :: es).

Lemma tree_entries data es : tree_from_bytes data = Ok es → entries_of data es.
Proof.
  unfold tree_from_bytes. cut (∀ out, tree_loop (length data) data out = Ok es → ∃ es', es = out ++ es' ∧ entries_of data es').
  { intros Hc H. by destruct (Hc [] H) as (es' & -> & He). }
  remember (length data) as n eqn:Hn. revert data Hn. induction n as [n IH] using lt_wf_ind. intros data -> out H.
  destruct (decide (data = [])) as [->|Hne]; [injection H as <-; exists []; split; [by rewrite app_nil_r|constructor]|].
  destruct (fast_entry data) as [[rest e]| |] eqn:E.
  - pose proof (fast_entry_shorter _ _ _ E) as Hs. rewrite (tree_from_bytes_cons _ _ _ E) in H.
    destruct (IH _ Hs rest eq_refl _ H) as (es' & -> & He). exists (e :: es'). split; [by rewrite <- app_assoc|by econstructor].
  - destruct data; [done|]. cbn [length tree_loop] in H. by rewrite bool_decide_eq_false_2, E in H by done.
  - by apply fast_entry_no_panic in E.
Qed.
Lemma next_of_nil {D} (d : D) : next_entry (Fe := Fe) [] d = (Ok (None, []), d).
Proof. done. Qed.
Lemma next_of_cons {D} data rest e (d : D) : data ≠ [] → fast_entry data = Ok (rest, e) →
  next_entry (Fe := Fe) data d = (Ok (Some (Ok e), rest), d).
Proof. intros Hd He. unfold next_entry, returns, iter_next. by rewrite bool_decide_eq_false_2, He by done. Qed.
Lemma entries_shorter data es : entries_of data es → (length es ≤ length data)%nat.
Proof. induction 1 as [|data rest e es _ He _ IH]; [done|]. apply fast_entry_shorter in He. cbn. lia. Qed.

(** Running computations on the recorder. *)
Lemma bind_call {D A} (f : D → D) (k : unit → M (Fe := Fe) A) d : (call f ≫= k) d = k tt (f d).
Proof. done. Qed.
Lemma bind_ret {D A B} (a : A) (k : A → M (Fe := Fe) (D := D) B) d : (mret a ≫= k) d = k a d.
Proof. done. Qed.
Lemma bind_visit {A} c (k : unit → M (Fe := Fe) A) dq p rs :
  (call_visit RecorderVisit c ≫= k) (rec_at dq p rs) = k tt (rec_at dq p (rs ++ [recorded c p])).
Proof. done. Qed.
Lemma bind_run {D A B} (m : M (Fe := Fe) (D := D) A) (k : A → M B) d a d' : m d = (Ok a, d') → (m ≫= k) d = k a d'.
Proof. intros H. unfold mbind, M_bind. by rewrite H. Qed.
Lemma push_at name dq p rs : push_path_component RecorderVisit name (rec_at dq p rs) = rec_at dq (push_name p name) rs.
Proof. done. Qed.
Lemma push_back_at name dq p rs : push_back_tracked_path_component RecorderVisit name (rec_at dq p rs) =
  rec_at (dq ++ [push_name p name]) (push_name p name) rs.
Proof. done. Qed.
Lemma pop_at dq p rs : pop_path_component RecorderVisit (rec_at dq p rs) = rec_at dq (pop_name p) rs.
Proof. apply pop_element_at. Qed.
Lemma modification_at a b dq p rs :
  visit_modification (Fe := Fe) RecorderVisit a b (rec_at dq p rs) = (Ok tt, rec_at dq p (rs ++ modification a b p)).
Proof. unfold visit_modification, modification. case_bool_decide; [done|]. by rewrite app_nil_r. Qed.

(** The step for one name. *)
Definition pair_step (x : Pair) (queue : list TreeInfoPair) : M (Fe := Fe) (D := Recorder) (list TreeInfoPair) :=
  match x with
  | (Some a, None) => delete_entry_schedule_recursion RecorderVisit a queue
  | (None, Some b) => add_entry_schedule_recursion RecorderVisit b queue
  | (Some a, Some b) => handle_lhs_and_rhs_with_equal_filenames RecorderVisit a b queue
  | (None, None) => mret queue
  end.
Lemma pair_step_spec x queue dq p rs : no_slash (pair_name x) → x ≠ (None, None) →
  pair_step x queue (rec_at dq p rs) =
    (Ok (queue ++ pair_trees x),
     rec_at (dq ++ level_paths p [x]) (push_name p (pair_name x)) (rs ++ level_changes p [x])).
Proof.
  intros Hn Hx. unfold level_paths, level_changes. cbn [fmap list_fmap concat]. rewrite !app_nil_r.
  destruct x as [[a|] [b|]]; [| | |done]; cbn [pair_name pair_step] in *; unfold pair_trees, subtree; cbn [fst snd mbind option_bind].
  - unfold handle_lhs_and_rhs_with_equal_filenames, pair_changes.
    destruct (is_tree (mode a)), (is_tree (mode b)); cbn [Bool.eqb fmap list_fmap]; rewrite bind_call, ?push_back_at, ?push_at.
    1,4: by rewrite (bind_run _ _ _ _ _ (modification_at _ _ _ _ _)), ?app_nil_r.
    all: by rewrite !bind_visit, <- app_assoc.
  - unfold delete_entry_schedule_recursion. rewrite bind_call, push_at, bind_visit.
    destruct (is_tree (mode a)); [|by rewrite !app_nil_r]. by rewrite !bind_call, pop_at, pop_push, push_back_at by done.
  - unfold add_entry_schedule_recursion. rewrite bind_call, push_at, bind_visit.
    destruct (is_tree (mode b)); [|by rewrite !app_nil_r]. by rewrite !bind_call, pop_at, pop_push, push_back_at by done.
Qed.

(** [pre] is done: its subtrees are queued, its changes recorded. *)
Definition after (p : bytes) (pre : list Pair) (dq : list bytes) (pth : bytes) (rs : list RChange) : Recorder :=
  rec_at (dq ++ level_paths p pre) pth (rs ++ level_changes p pre).
Lemma after_nil p dq pth rs : after p [] dq pth rs = rec_at dq pth rs.
Proof. unfold after. cbn. by rewrite !app_nil_r. Qed.
Lemma after_app p xs ys dq pth rs : after p (xs ++ ys) dq pth rs =
  after p ys (dq ++ level_paths p xs) pth (rs ++ level_changes p xs).
Proof. unfold after. by rewrite level_paths_app, level_changes_app, <- !app_assoc. Qed.
Definition entry_names (es : list Entry) : Prop := Forall (λ e, no_slash (filename e)) es.

(** One name, from the path below it. *)
Lemma step_run {A} x (k : list TreeInfoPair → M (Fe := Fe) A) queue dq pth p rs :
  no_slash (pair_name x) → x ≠ (None, None) → pop_name pth = p →
  (call (pop_path_component RecorderVisit) ≫= λ _, pair_step x queue ≫= k) (rec_at dq pth rs) =
    k (queue ++ level_trees [x]) (after p [x] dq (push_name p (pair_name x)) rs).
Proof.
  intros Hn Hx <-. rewrite bind_call, pop_at. unfold level_trees. cbn [fmap list_fmap concat]. rewrite app_nil_r.
  by erewrite bind_run by by apply pair_step_spec.
Qed.

Lemma catchup_rhs_spec r rd fuel a l queue dq pth p rs :
  entries_of rd r → (length rd < fuel)%nat → no_slash (filename a) → entry_names r → pop_name pth = p →
  ∃ pre r' rd' pth', merge (a :: l) r = pre ++ merge l r' ∧ entries_of rd' r' ∧ (length r' ≤ length r)%nat ∧
    entry_names r' ∧ pop_name pth' = p ∧
    catchup_rhs_loop (Fe := Fe) RecorderVisit fuel rd a queue (rec_at dq pth rs) = (Ok (rd', queue ++ level_trees pre), after p pre dq pth' rs).
Proof.
  intros Hr. revert fuel queue dq pth rs.
  induction Hr as [|rd rest b r Hd Hb Hr IH]; intros [|fuel] queue dq pth rs Hf Ha Hns Hp; try (cbn in Hf; lia);
    cbn [catchup_rhs_loop].
  - rewrite (bind_run _ _ _ _ _ (next_of_nil _)). cbv beta iota.
    pose proof (step_run (Some a, None) (λ q, mret (@nil Z, q)) queue dq pth p rs Ha ltac:(done) Hp) as H.
    exists [(Some a, None)], [], [], (push_name p (filename a)). rewrite !merge_nil_r.
    split_and!; [done|constructor|done|done|by apply pop_push|exact H].
  - rewrite (bind_run _ _ _ _ _ (next_of_cons _ _ _ _ Hd Hb)). cbv beta iota.
    rewrite merge_cons. change (compare_entries a b) with (tree_entry_cmp a b).
    apply Forall_cons in Hns as [Hnb Hns]. apply fast_entry_shorter in Hb as Hs. destruct (tree_entry_cmp a b).
    + pose proof (step_run (Some a, Some b) (λ q, mret (rest, q)) queue dq pth p rs Ha ltac:(done) Hp) as H.
      exists [(Some a, Some b)], r, rest, (push_name p (filename a)).
      split_and!; [done|done|cbn; lia|done|by apply pop_push|exact H].
    + pose proof (step_run (Some a, None) (λ q, mret (rd, q)) queue dq pth p rs Ha ltac:(done) Hp) as H.
      exists [(Some a, None)], (b :: r), rd, (push_name p (filename a)).
      split_and!; [done|by econstructor|done|by constructor|by apply pop_push|exact H].
    + pose proof (step_run (None, Some b) (λ q, catchup_rhs_loop (Fe := Fe) RecorderVisit fuel rest a q) queue dq pth p rs Hnb ltac:(done) Hp) as H.
      destruct (IH fuel (queue ++ level_trees [(None, Some b)]) (dq ++ level_paths p [(None, Some b)])
        (push_name p (filename b)) (rs ++ level_changes p [(None, Some b)]))
        as (pre & r' & rd' & pth' & Hm & Hr' & Hle & Hn' & Hp' & Hrun); [lia|done|done|by apply pop_push|].
      exists ((None, Some b) :: pre), r', rd', pth'. rewrite Hm. split_and!; [done|done|cbn; lia|done|done|].
      etrans; [exact H|]. etrans; [exact Hrun|].
      change ((None, Some b) :: pre) with ([(None, Some b)] ++ pre). by rewrite after_app, level_trees_app, app_assoc.
Qed.
Lemma catchup_lhs_spec l ld fuel b r queue dq pth p rs :
  entries_of ld l → (length ld < fuel)%nat → no_slash (filename b) → entry_names l → pop_name pth = p →
  ∃ pre l' ld' pth', merge l (b :: r) = pre ++ merge l' r ∧ entries_of ld' l' ∧ (length l' ≤ length l)%nat ∧
    entry_names l' ∧ pop_name pth' = p ∧
    catchup_lhs_loop (Fe := Fe) RecorderVisit fuel ld b queue (rec_at dq pth rs) = (Ok (ld', queue ++ level_trees pre), after p pre dq pth' rs).
Proof.
  intros Hl. revert fuel queue dq pth rs.
  induction Hl as [|ld rest a l Hd Ha Hl IH]; intros [|fuel] queue dq pth rs Hf Hb Hns Hp; try (cbn in Hf; lia);
    cbn [catchup_lhs_loop].
  - rewrite (bind_run _ _ _ _ _ (next_of_nil _)). cbv beta iota.
    pose proof (step_run (None, Some b) (λ q, mret (@nil Z, q)) queue dq pth p rs Hb ltac:(done) Hp) as H.
    exists [(None, Some b)], [], [], (push_name p (filename b)).
    split_and!; [done|constructor|done|done|by apply pop_push|exact H].
  - rewrite (bind_run _ _ _ _ _ (next_of_cons _ _ _ _ Hd Ha)). cbv beta iota.
    rewrite merge_cons. change (compare_entries a b) with (tree_entry_cmp a b).
    apply Forall_cons in Hns as [Hna Hns]. apply fast_entry_shorter in Ha as Hs. destruct (tree_entry_cmp a b).
    + pose proof (step_run (Some a, Some b) (λ q, mret (rest, q)) queue dq pth p rs Hna ltac:(done) Hp) as H.
      exists [(Some a, Some b)], l, rest, (push_name p (filename a)).
      split_and!; [done|done|cbn; lia|done|by apply pop_push|exact H].
    + pose proof (step_run (Some a, None) (λ q, catchup_lhs_loop (Fe := Fe) RecorderVisit fuel rest b q) queue dq pth p rs Hna ltac:(done) Hp) as H.
      destruct (IH fuel (queue ++ level_trees [(Some a, None)]) (dq ++ level_paths p [(Some a, None)])
        (push_name p (filename a)) (rs ++ level_changes p [(Some a, None)]))
        as (pre & l' & ld' & pth' & Hm & Hl' & Hle & Hn' & Hp' & Hrun); [lia|done|done|by apply pop_push|].
      exists ((Some a, None) :: pre), l', ld', pth'. rewrite Hm. split_and!; [done|done|cbn; lia|done|done|].
      etrans; [exact H|]. etrans; [exact Hrun|].
      change ((Some a, None) :: pre) with ([(Some a, None)] ++ pre). by rewrite after_app, level_trees_app, app_assoc.
    + pose proof (step_run (None, Some b) (λ q, mret (ld, q)) queue dq pth p rs Hb ltac:(done) Hp) as H.
      exists [(None, Some b)], (a :: l), ld, (push_name p (filename b)).
      split_and!; [done|by econstructor|done|by constructor|by apply pop_push|exact H].
Qed.

Definition popped (pop : bool) (pth : bytes) : bytes := if pop then pop_name pth else pth.
Lemma pop_first {A} (pop : bool) (k : M (Fe := Fe) A) dq pth rs :
  mbind (M := M (Fe := Fe) (D := Recorder)) (λ _ : unit, k)
    (if pop then call (pop_path_component RecorderVisit) else mret tt) (rec_at dq pth rs) = k (rec_at dq (popped pop pth) rs).
Proof. destruct pop; [|done]. by rewrite bind_call, pop_at. Qed.
Lemma step_from {A} x (k : list TreeInfoPair → M (Fe := Fe) A) queue dq p rs :
  no_slash (pair_name x) → x ≠ (None, None) →
  (pair_step x queue ≫= k) (rec_at dq p rs) =
    k (queue ++ level_trees [x]) (after p [x] dq (push_name p (pair_name x)) rs).
Proof.
  intros Hn Hx. unfold level_trees. cbn [fmap list_fmap concat]. rewrite app_nil_r.
  by erewrite bind_run by by apply pair_step_spec.
Qed.
Lemma after_cons p x xs dq pth rs : after p (x :: xs) dq pth rs =
  after p xs (dq ++ level_paths p [x]) pth (rs ++ level_changes p [x]).
Proof. apply (after_app p [x]). Qed.
Lemma level_trees_cons x xs : level_trees (x :: xs) = level_trees [x] ++ level_trees xs.
Proof. apply (level_trees_app [x]). Qed.

Ltac side := solve [done | cbn; lia | constructor | by apply pop_push | by rewrite !merge_nil_r
  | match goal with H : merge _ _ = _ ++ merge _ _ |- _ => by rewrite H end].

(** All names of a pair of trees, up to the ends of both iterators. *)
Lemma level_run n l r ld rd pop trees dq pth p rs :
  (length l + length r ≤ n)%nat → entries_of ld l → entries_of rd r → entry_names l → entry_names r → popped pop pth = p →
  ∃ k pth' pop', (k ≤ length l + length r)%nat ∧ popped pop' pth' = p ∧
    ∀ fuel, changes_loop try_find RecorderVisit (k + fuel) pop ld rd trees (rec_at dq pth rs) =
      changes_loop try_find RecorderVisit fuel pop' [] [] (trees ++ level_trees (merge l r)) (after p (merge l r) dq pth' rs).
Proof.
  revert l r ld rd pop trees dq pth rs. induction n as [|n IH]; intros l r ld rd pop trees dq pth rs Hn Hl Hr Hnl Hnr Hp.
  { destruct l, r; try (cbn in Hn; lia). inversion Hl; inversion Hr; subst. exists O, pth, pop.
    split_and!; [done|done|]. intros fuel. cbn [merge fmap list_fmap]. by rewrite app_nil_r, after_nil. }
  assert (Hdone : ∀ (x : list Pair) (l' r' : list Entry) (ld' rd' k0 : bytes), merge l r = x ++ merge l' r' → (S (length l' + length r') ≤ length l + length r)%nat →
      entries_of ld' l' → entries_of rd' r' → entry_names l' → entry_names r' → popped true k0 = p →
      (∀ fuel, changes_loop try_find RecorderVisit (S fuel) pop ld rd trees (rec_at dq pth rs) =
         changes_loop try_find RecorderVisit fuel true ld' rd' (trees ++ level_trees x) (after p x dq k0 rs)) →
      ∃ k pth' pop', (k ≤ length l + length r)%nat ∧ popped pop' pth' = p ∧
        ∀ fuel, changes_loop try_find RecorderVisit (k + fuel) pop ld rd trees (rec_at dq pth rs) =
          changes_loop try_find RecorderVisit fuel pop' [] [] (trees ++ level_trees (merge l r)) (after p (merge l r) dq pth' rs)).
  { intros x l' r' ld' rd' k0 Hm Hlen Hl' Hr' Hnl' Hnr' Hk0 Hstep.
    destruct (IH l' r' ld' rd' true (trees ++ level_trees x) (dq ++ level_paths p x) k0 (rs ++ level_changes p x))
      as (k & pth' & pop' & Hk & Hp' & Hrun); [lia|done..|].
    exists (S k), pth', pop'. split_and!; [lia|done|]. intros fuel. cbn [Nat.add]. rewrite Hstep. etrans; [apply Hrun|].
    by rewrite Hm, level_trees_app, after_app, app_assoc. }
  destruct Hl as [|ld restl a l Hld Ha Hl], Hr as [|rd restr b r Hrd Hb Hr].
  - exists O, pth, pop. split_and!; [done|done|]. intros fuel. cbn [merge fmap list_fmap]. by rewrite app_nil_r, after_nil.
  - apply Forall_cons in Hnr as [Hnb Hnr].
    apply (Hdone [(None, Some b)] [] r [] restr (push_name p (filename b))); [side..|].
    intros fuel. cbn [changes_loop]. rewrite pop_first, Hp, (bind_run _ _ _ _ _ (next_of_nil _)). cbv beta iota.
    rewrite (bind_run _ _ _ _ _ (next_of_cons _ _ _ _ Hrd Hb)). cbv beta iota.
    exact (step_from (None, Some b) (λ q, changes_loop try_find RecorderVisit fuel true [] restr q) trees dq p rs Hnb ltac:(done)).
  - apply Forall_cons in Hnl as [Hna Hnl].
    apply (Hdone [(Some a, None)] l [] restl [] (push_name p (filename a))); [side..|].
    intros fuel. cbn [changes_loop]. rewrite pop_first, Hp, (bind_run _ _ _ _ _ (next_of_cons _ _ _ _ Hld Ha)). cbv beta iota.
    rewrite (bind_run _ _ _ _ _ (next_of_nil _)). cbv beta iota.
    exact (step_from (Some a, None) (λ q, changes_loop try_find RecorderVisit fuel true restl [] q) trees dq p rs Hna ltac:(done)).
  - apply Forall_cons in Hnl as [Hna Hnl], Hnr as [Hnb Hnr].
    assert (Hopen : ∀ fuel, changes_loop try_find RecorderVisit (S fuel) pop ld rd trees (rec_at dq pth rs) =
      (match tree_entry_cmp a b with
       | Eq => pair_step (Some a, Some b) trees ≫= λ trees, changes_loop try_find RecorderVisit fuel true restl restr trees
       | Lt => catchup_lhs_with_rhs RecorderVisit restl a b trees ≫= λ '(lhs_rest, trees), changes_loop try_find RecorderVisit fuel true lhs_rest restr trees
       | Gt => catchup_rhs_with_lhs RecorderVisit restr a b trees ≫= λ '(rhs_rest, trees), changes_loop try_find RecorderVisit fuel true restl rhs_rest trees
       end) (rec_at dq p rs)).
    { intros fuel. cbn [changes_loop]. rewrite pop_first, Hp, (bind_run _ _ _ _ _ (next_of_cons _ _ _ _ Hld Ha)). cbv beta iota.
      rewrite (bind_run _ _ _ _ _ (next_of_cons _ _ _ _ Hrd Hb)). cbv beta iota. reflexivity. }
    rewrite merge_cons in Hdone |- *. destruct (tree_entry_cmp a b).
    + apply (Hdone [(Some a, Some b)] l r restl restr (push_name p (filename a))); [side..|].
      intros fuel. rewrite Hopen.
      exact (step_from (Some a, Some b) (λ q, changes_loop try_find RecorderVisit fuel true restl restr q) trees dq p rs Hna ltac:(done)).
    + destruct (catchup_lhs_spec l restl (S (length restl)) b r (trees ++ level_trees [(Some a, None)]) (dq ++ level_paths p [(Some a, None)])
        (push_name p (filename a)) p (rs ++ level_changes p [(Some a, None)])) as (pre & l' & ld' & pth' & Hm & Hl' & Hle & Hn' & Hp' & Hrun);
        [done|lia|done|done|by apply pop_push|].
      apply (Hdone ((Some a, None) :: pre) l' r ld' restr pth'); [side..|].
      intros fuel. rewrite Hopen, after_cons, level_trees_cons, app_assoc. unfold catchup_lhs_with_rhs.
      etrans; [eapply bind_run; etrans; [exact (step_from (Some a, None) (λ q, catchup_lhs_loop RecorderVisit (S (length restl)) restl b q) trees dq p rs Hna ltac:(done))|exact Hrun]|done].
    + destruct (catchup_rhs_spec r restr (S (length restr)) a l (trees ++ level_trees [(None, Some b)]) (dq ++ level_paths p [(None, Some b)])
        (push_name p (filename b)) p (rs ++ level_changes p [(None, Some b)])) as (pre & r' & rd' & pth' & Hm & Hr' & Hle & Hn' & Hp' & Hrun);
        [done|lia|done|done|by apply pop_push|].
      apply (Hdone ((None, Some b) :: pre) l r' restl rd' pth'); [side..|].
      intros fuel. rewrite Hopen, after_cons, level_trees_cons, app_assoc. unfold catchup_rhs_with_lhs.
      etrans; [eapply bind_run; etrans; [exact (step_from (None, Some b) (λ q, catchup_rhs_loop RecorderVisit (S (length restr)) restr a q) trees dq p rs Hnb ltac:(done))|exact Hrun]|done].
Qed.
End Level.

(** ** What two trees have at a path *)

(** Paths are lists of names; [path_of] is how the recorder writes them. *)
Definition path_of (p : list bytes) : bytes := foldl push_name [] p.
Definition valid_name (x : bytes) : Prop := x ≠ [] ∧ no_slash x.
Definition rpath (c : RChange) : bytes :=
  match c with RAddition _ _ p | RDeletion _ _ p | RModification _ _ _ _ p => p end.

Lemma path_of_snoc p x : path_of (p ++ [x]) = push_name (path_of p) x.
Proof. unfold path_of. by rewrite foldl_app. Qed.
Lemma push_name_inj p q x y : no_slash x → no_slash y → push_name p x = push_name q y → p = q ∧ x = y.
Proof.
  intros Hx Hy Heq. assert (p = q) as -> by (rewrite <- (pop_push p x), <- (pop_push q y) by done; by rewrite Heq).
  split; [done|]. unfold push_name in Heq. by apply app_inv_head in Heq.
Qed.
Lemma push_name_not_nil p x : x ≠ [] → push_name p x ≠ [].
Proof. intros Hx Heq. unfold push_name in Heq. by apply app_eq_nil in Heq as [_ ?]. Qed.
Lemma path_of_inj p q : Forall valid_name p → Forall valid_name q → path_of p = path_of q → p = q.
Proof.
  revert q. induction p as [|x p IH] using rev_ind; intros q Hp Hq Heq; destruct q as [|y q _] using rev_ind; [done| | |].
  - apply Forall_app in Hq as [_ [Hy _]%Forall_cons_1]. rewrite path_of_snoc in Heq. symmetry in Heq.
    by apply push_name_not_nil in Heq; [|apply Hy].
  - apply Forall_app in Hp as [_ [Hx _]%Forall_cons_1]. rewrite path_of_snoc in Heq. by apply push_name_not_nil in Heq; [|apply Hx].
  - apply Forall_app in Hp as [Hp [Hx _]%Forall_cons_1], Hq as [Hq [Hy _]%Forall_cons_1]. rewrite !path_of_snoc in Heq.
    apply push_name_inj in Heq as [Heq ->]; [|apply Hx|apply Hy]. f_equal. by apply IH.
Qed.

(** The entry with a name. *)
Fixpoint named (x : bytes) (es : list Entry) : option Entry :=
  match es with
  | [] => None
  | e :: es => if bool_decide (filename e = x) then Some e else named x es
  end.
Lemma named_in x es e : named x es = Some e → e ∈ es ∧ filename e = x.
Proof.
  induction es as [|e' es IH]; cbn; [done|]. case_bool_decide as Hx.
  - intros [= ->]. split; [left|done].
  - intros H. destruct (IH H) as [He Hn]. split; [by right|done].
Qed.
Lemma named_none x es : x ∉ filename <$> es → named x es = None.
Proof.
  intros Hx. destruct (named x es) as [e|] eqn:E; [|done]. apply named_in in E as [He <-].
  destruct Hx. by apply list_elem_of_fmap_2.
Qed.

(** Sorted entries with different names. *)
Definition names_sorted (es : list Entry) : Prop := sorted_tree es ∧ NoDup (filename <$> es).
Lemma names_sorted_cons e es : names_sorted (e :: es) →
  names_sorted es ∧ no_slash (filename e) ∧ filename e ∉ filename <$> es ∧ (∀ e', e' ∈ es → bytes_lt (tkey e) (tkey e')).
Proof.
  intros [[Hs Hn] Hd]. cbn in Hs, Hd. apply NoDup_cons in Hd as [Hni Hd]. apply StronglySorted_cons in Hs as [He Hs].
  apply Forall_cons in Hn as [Hne Hn]. split_and!; [by repeat split|done|done|].
  intros e' He'. rewrite Forall_forall in He. by apply He, list_elem_of_fmap_2.
Qed.

(** The pairs of one name: two entries form a pair if both or none are trees. *)
Definition pairs_of (a b : option Entry) : list Pair :=
  match a, b with
  | Some a, Some b => if Bool.eqb (is_tree (mode a)) (is_tree (mode b)) then [(Some a, Some b)] else [(Some a, None); (None, Some b)]
  | Some a, None => [(Some a, None)]
  | None, Some b => [(None, Some b)]
  | None, None => []
  end.
Definition of_name (x : bytes) (xs : list Pair) : list Pair := filter (λ y, pair_name y = x) xs.
Lemma of_name_lefts x l : NoDup (filename <$> l) → of_name x ((λ a, (Some a, None)) <$> l) = pairs_of (named x l) None.
Proof.
  induction l as [|a l IH]; intros Hd; [done|]. cbn in Hd. apply NoDup_cons in Hd as [Hni Hd]. cbn [fmap list_fmap named].
  unfold of_name in *. rewrite filter_cons. cbn [pair_name]. case_decide as Hx.
  - subst x. rewrite bool_decide_eq_true_2 by done. rewrite IH by done. rewrite named_none by done. done.
  - rewrite bool_decide_eq_false_2 by done. by apply IH.
Qed.
Lemma of_name_rights x r : NoDup (filename <$> r) → of_name x ((λ b, (None, Some b)) <$> r) = pairs_of None (named x r).
Proof.
  induction r as [|b r IH]; intros Hd; [done|]. cbn in Hd. apply NoDup_cons in Hd as [Hni Hd]. cbn [fmap list_fmap named].
  unfold of_name in *. rewrite filter_cons. cbn [pair_name]. case_decide as Hx.
  - subst x. rewrite bool_decide_eq_true_2 by done. rewrite IH, named_none by done. done.
  - rewrite bool_decide_eq_false_2 by done. by apply IH.
Qed.
Lemma different_kind a b : filename a = filename b →
  tkey a ≠ tkey b → Bool.eqb (is_tree (mode a)) (is_tree (mode b)) = false.
Proof.
  unfold tkey. intros -> Hk. destruct (Bool.eqb_spec (is_tree (mode a)) (is_tree (mode b))) as [Heq|]; [|done].
  by rewrite Heq in Hk.
Qed.
Lemma merge_of_name x l r : names_sorted l → names_sorted r →
  of_name x (merge l r) ≡ₚ pairs_of (named x l) (named x r).
Proof.
  intros Hl. revert r. induction l as [|a l IHl]; intros r Hr; [rewrite <- of_name_rights; [done|apply Hr]|].
  induction r as [|b r IHr]; [rewrite merge_nil_r, of_name_lefts; [done|apply Hl]|].
  pose proof (names_sorted_cons _ _ Hl) as (Hl' & Hna & Hnia & Hlta). pose proof (names_sorted_cons _ _ Hr) as (Hr' & Hnb & Hnib & Hltb).
  rewrite merge_cons. unfold tree_entry_cmp. rewrite cmp_names_key by done. fold (tkey a). fold (tkey b).
  destruct (bytes_cmp (tkey a) (tkey b)) eqn:E; unfold of_name in *; rewrite filter_cons; cbn [pair_name].
  - apply bytes_cmp_eq in E. apply sort_key_inj in E as [Hn Ht]; [|done|done]. cbn [named]. rewrite <- Hn.
    case_decide as Hx; rewrite IHl by done; [|by rewrite bool_decide_eq_false_2]. subst x.
    rewrite !bool_decide_eq_true_2 by done. cbn [pairs_of]. rewrite Ht, Bool.eqb_reflx. rewrite (named_none _ l) by done.
    by rewrite (named_none _ r) by (by rewrite Hn).
  - case_decide as Hx; rewrite IHl by done; cbn [named]; [|by rewrite (bool_decide_eq_false_2 (filename a = x))]. subst x.
    rewrite (bool_decide_eq_true_2 (filename a = filename a)) by done. rewrite (named_none _ l) by done.
    change (if bool_decide (filename b = filename a) then Some b else named (filename a) r) with (named (filename a) (b :: r)).
    destruct (named (filename a) (b :: r)) as [c|] eqn:Ec; [|done]. apply named_in in Ec as [Hc Hn]. cbn [pairs_of].
    rewrite different_kind; [done|by rewrite Hn|]. intros Heq.
    assert (Hlt : bytes_lt (tkey a) (tkey c)); [|unfold bytes_lt in Hlt; by rewrite Heq, bytes_cmp_refl in Hlt].
    apply elem_of_cons in Hc as [->|Hc]; [exact E|]. eapply bytes_lt_trans; [exact E|]. by apply Hltb.
  - apply bytes_cmp_gt in E.
    case_decide as Hx; rewrite IHr by done; cbn [named]; [|by rewrite (bool_decide_eq_false_2 (filename b = x))]. subst x.
    rewrite (bool_decide_eq_true_2 (filename b = filename b)) by done. rewrite (named_none _ r) by done.
    change (if bool_decide (filename a = filename b) then Some a else named (filename b) l) with (named (filename b) (a :: l)).
    destruct (named (filename b) (a :: l)) as [c|] eqn:Ec; [|done]. apply named_in in Ec as [Hc Hn]. cbn [pairs_of].
    rewrite different_kind; [apply perm_swap|done|]. intros Heq.
    assert (Hlt : bytes_lt (tkey b) (tkey c)); [|unfold bytes_lt in Hlt; by rewrite Heq, bytes_cmp_refl in Hlt].
    apply elem_of_cons in Hc as [->|Hc]; [exact E|]. eapply bytes_lt_trans; [exact E|]. by apply Hlta.
Qed.

Section Breadth.
Context {BA : bstr.Api} {BL : bstr.Laws} {Fe : Type} (try_find : ObjectId → res Fe (option Data)).

(** The entries of a tree of the database. *)
Definition read_tree (id : ObjectId) : option (list Entry) :=
  match try_find id with
  | Ok (Some d) => if bool_decide (data_kind d = KTree)
                   then match tree_from_bytes (data_bytes d) with Ok es => Some es | _ => None end else None
  | _ => None
  end.
Definition open_tree (id : ObjectId) : list Entry := default [] (read_tree id).
Definition open_side (id : option ObjectId) : list Entry := match id with Some id => open_tree id | None => [] end.

(** The entry at a path below a tree. *)
Fixpoint entry_at (es : list Entry) (p : list bytes) : option Entry :=
  match p with
  | [] => None
  | [x] => named x es
  | x :: p => e ← named x es; if is_tree (mode e) then entry_at (open_tree (oid e)) p else None
  end.

(** A tree of at most this height: sorted names without slashes, none twice,
    and all trees below are in the database. *)
Fixpoint wf_tree (height : nat) (es : list Entry) : Prop :=
  names_sorted es ∧ Forall (λ e, filename e ≠ []) es ∧
  ∀ e, e ∈ es → is_tree (mode e) = true →
    match height with O => False | S h => ∃ es', read_tree (oid e) = Some es' ∧ wf_tree h es' end.
Lemma wf_tree_mono h h' es : (h ≤ h')%nat → wf_tree h es → wf_tree h' es.
Proof.
  revert h' es. induction h as [|h IH]; intros [|h'] es Hle; try lia; cbn [wf_tree]; intros (Hs & Hn & Hsub);
    (split_and!; [done|done|]); intros e He Ht; specialize (Hsub e He Ht); [done| |]; [done|].
  destruct Hsub as (es' & Hr & Hw). exists es'. split; [done|]. apply IH; [lia|done].
Qed.
Lemma wf_nil h : wf_tree h [].
Proof.
  destruct h; (split_and!; [|constructor|intros e He; by apply elem_of_nil in He]); (split; [split|]); constructor.
Qed.
Lemma wf_names h es : wf_tree h es → names_sorted es ∧ Forall (λ e, valid_name (filename e)) es.
Proof.
  intros Hw. assert (H : names_sorted es ∧ Forall (λ e, filename e ≠ []) es) by (destruct h; destruct Hw as (? & ? & _); done).
  destruct H as [Hs Hn]. split; [done|]. destruct Hs as [[_ Hns] _].
  rewrite Forall_forall in Hn, Hns |- *. intros e He. by split; [apply Hn|apply Hns].
Qed.

(** Queued work: the path of a pair of trees, and their ids. *)
Definition Item : Type := list bytes * TreeInfoPair.
Definition children (pre : list bytes) (xs : list Pair) : list Item :=
  concat ((λ x, (λ t, (pre ++ [pair_name x], t)) <$> pair_trees x) <$> xs).
Definition wf_side (h : nat) (id : option ObjectId) : Prop :=
  ∀ i, id = Some i → ∃ es, read_tree i = Some es ∧ wf_tree h es.
Definition wf_item (h : nat) (it : Item) : Prop :=
  Forall valid_name it.1 ∧ it.2 ≠ (None, None) ∧ wf_side h it.2.1 ∧ wf_side h it.2.2.

Lemma children_trees pre xs : snd <$> children pre xs = level_trees xs.
Proof.
  unfold children, level_trees. induction xs as [|x xs IH]; [done|]. cbn [fmap list_fmap concat]. rewrite fmap_app. f_equal; [|exact IH].
  rewrite <- list_fmap_compose. apply list_fmap_id.
Qed.
Lemma children_paths pre xs : path_of ∘ fst <$> children pre xs = level_paths (path_of pre) xs.
Proof.
  unfold children, level_paths. induction xs as [|x xs IH]; [done|]. cbn [fmap list_fmap concat]. rewrite fmap_app. f_equal; [|exact IH].
  rewrite <- list_fmap_compose. apply list_fmap_ext. intros i t _. cbn. apply path_of_snoc.
Qed.

(** What remains of a path below a prefix. *)
Fixpoint below (pre q : list bytes) : option (list bytes) :=
  match pre, q with
  | [], q => Some q
  | x :: pre, y :: q => if bool_decide (x = y) then below pre q else None
  | _ :: _, [] => None
  end.
Lemma below_app pre q : below pre (pre ++ q) = Some q.
Proof. induction pre as [|x pre IH]; cbn; [done|]. by rewrite bool_decide_eq_true_2. Qed.
Lemma below_some pre q r : below pre q = Some r → q = pre ++ r.
Proof.
  revert q. induction pre as [|x pre IH]; intros q; [by intros [= ->]|]. destruct q as [|y q]; [done|]. cbn.
  case_bool_decide as Hx; [|done]. subst. intros H. f_equal. by apply IH.
Qed.
Definition changes_at (q : list bytes) (l r : list Entry) (rest : list bytes) : list RChange :=
  pair_changes (path_of q) (entry_at l rest, entry_at r rest).
Definition contribution (q : list bytes) (it : Item) : list RChange :=
  match below it.1 q with
  | Some rest => changes_at q (open_side it.2.1) (open_side it.2.2) rest
  | None => []
  end.
Definition at_path (q : list bytes) (cs : list RChange) : list RChange := filter (λ c, rpath c = path_of q) cs.
Lemma at_path_app q xs ys : at_path q (xs ++ ys) = at_path q xs ++ at_path q ys.
Proof. apply filter_app. Qed.
Lemma rpath_pair_changes p x c : c ∈ pair_changes p x → rpath c = p.
Proof.
  destruct x as [[a|] [b|]]; cbn; unfold modification; [|set_solver..].
  repeat case_match; set_solver.
Qed.

(** The changes of a level at a path one name below it. *)
Lemma level_at pre x xs : Forall (λ y, valid_name (pair_name y)) xs → Forall valid_name (pre ++ [x]) →
  at_path (pre ++ [x]) (level_changes (path_of pre) xs) = concat (pair_changes (path_of (pre ++ [x])) <$> of_name x xs).
Proof.
  intros Hxs Hv. apply Forall_app in Hv as [_ [Hx _]%Forall_cons_1].
  induction Hxs as [|y xs Hy _ IH]; [done|]. unfold level_changes in *. cbn [fmap list_fmap concat]. rewrite at_path_app, IH.
  unfold of_name, at_path. rewrite filter_cons. case_decide as Hn.
  - rewrite Hn, <- path_of_snoc. cbn [fmap list_fmap concat]. f_equal.
    rewrite filter_keep_all; [done|]. apply Forall_forall. intros c Hc. by eapply rpath_pair_changes.
  - rewrite filter_keep_none; [done|]. apply Forall_forall. intros c Hc Hp. apply rpath_pair_changes in Hc.
    rewrite Hc, path_of_snoc in Hp. apply push_name_inj in Hp as [_ Heq]; [done|apply Hy|apply Hx].
Qed.
(** Elsewhere there are none. *)
Lemma level_not_at pre q xs : Forall (λ y, valid_name (pair_name y)) xs → Forall valid_name pre → Forall valid_name q →
  (∀ x, q ≠ pre ++ [x]) → at_path q (level_changes (path_of pre) xs) = [].
Proof.
  intros Hxs Hpre Hq Hne. apply filter_keep_none, Forall_forall. intros c Hc Hp. unfold level_changes in Hc.
  apply list_elem_of_In, in_concat in Hc as (cs & Hcs & Hc). apply list_elem_of_In in Hcs, Hc.
  apply list_elem_of_fmap in Hcs as (y & -> & Hy). apply rpath_pair_changes in Hc. rewrite Hc, <- path_of_snoc in Hp.
  rewrite Forall_forall in Hxs. specialize (Hxs y Hy). apply path_of_inj in Hp; [by apply (Hne (pair_name y))| |done].
  apply Forall_app. split; [done|]. by constructor.
Qed.

Lemma concat_perm {A B} (f : A → list B) xs ys : xs ≡ₚ ys → concat (f <$> xs) ≡ₚ concat (f <$> ys).
Proof.
  induction 1 as [|x xs ys _ IH|x y xs|xs ys zs _ IH1 _ IH2]; cbn [fmap list_fmap concat]; [done|by rewrite IH| |by rewrite IH1].
  by rewrite !app_assoc, (Permutation_app_comm (f y)).
Qed.
Lemma concat_all_nil {A B} (f : A → list B) xs : (∀ y, y ∈ xs → f y = []) → concat (f <$> xs) = [].
Proof.
  induction xs as [|y xs IH]; intros Hf; [done|]. cbn [fmap list_fmap concat]. rewrite (Hf y) by left.
  apply IH. intros z Hz. apply Hf. by right.
Qed.
Lemma concat_of_name {B} (f : Pair → list B) x xs : (∀ y, y ∈ xs → pair_name y ≠ x → f y = []) →
  concat (f <$> xs) = concat (f <$> of_name x xs).
Proof.
  induction xs as [|y xs IH]; intros Hf; [done|]. unfold of_name in *. rewrite filter_cons. cbn [fmap list_fmap concat].
  rewrite IH by (intros z Hz; apply Hf; by right). case_decide as Hy; [done|]. by rewrite Hf by (by left || done).
Qed.
Lemma entry_at_nil p : entry_at [] p = None.
Proof. by destruct p as [|x [|y p]]. Qed.
Lemma entry_at_cons es x y p : entry_at es (x :: y :: p) =
  (e ← named x es; if is_tree (mode e) then entry_at (open_tree (oid e)) (y :: p) else None).
Proof. done. Qed.

(** Where the pairs come from. *)
Definition pair_from (l r : list Entry) (y : Pair) : Prop :=
  y ≠ (None, None) ∧ (∀ a, y.1 = Some a → a ∈ l) ∧ (∀ b, y.2 = Some b → b ∈ r).
Lemma pair_from_mono l r l' r' y : l ⊆ l' → r ⊆ r' → pair_from l r y → pair_from l' r' y.
Proof. intros Hl Hr (Hy & Ha & Hb). split_and!; [done|intros a Hya; by apply Hl, Ha|intros b Hyb; by apply Hr, Hb]. Qed.
Lemma merge_from l r : Forall (pair_from l r) (merge l r).
Proof.
  revert r. induction l as [|a l IHl]; intros r.
  { apply Forall_fmap, Forall_forall. intros b Hb. split_and!; [done|done|by intros ? [= <-]]. }
  induction r as [|b r IHr].
  { rewrite merge_nil_r. apply Forall_fmap, Forall_forall. intros a' Ha. split_and!; [done|by intros ? [= <-]|done]. }
  rewrite merge_cons. destruct (tree_entry_cmp a b); constructor.
  - split_and!; [done|intros ? [= <-]; by left|intros ? [= <-]; by left].
  - eapply Forall_impl; [apply IHl|]. intros y. apply pair_from_mono; set_solver.
  - split_and!; [done|intros ? [= <-]; by left|done].
  - eapply Forall_impl; [apply IHl|]. intros y. apply pair_from_mono; set_solver.
  - split_and!; [done|done|intros ? [= <-]; by left].
  - eapply Forall_impl; [exact IHr|]. intros y. apply pair_from_mono; set_solver.
Qed.
Lemma merge_names l r : Forall (λ e, valid_name (filename e)) l → Forall (λ e, valid_name (filename e)) r →
  Forall (λ y, valid_name (pair_name y)) (merge l r).
Proof.
  intros Hl Hr. rewrite Forall_forall in Hl, Hr. eapply Forall_impl; [apply merge_from|].
  intros [[a|] [b|]] (Hy & Ha & Hb); cbn in *; [by apply Hl, Ha..|by apply Hr, Hb|done].
Qed.
Lemma children_wf h pre l r : wf_tree (S h) l → wf_tree (S h) r → Forall valid_name pre →
  Forall (wf_item h) (children pre (merge l r)).
Proof.
  intros Hl Hr Hpre. destruct (wf_names _ _ Hl) as [_ Hnl], (wf_names _ _ Hr) as [_ Hnr].
  pose proof (merge_names l r Hnl Hnr) as Hnames. destruct Hl as (_ & _ & Hl), Hr as (_ & _ & Hr).
  apply Forall_concat, Forall_fmap, Forall_forall. intros y Hy. rewrite Forall_forall in Hnames. specialize (Hnames y Hy).
  pose proof (merge_from l r) as Hf. rewrite Forall_forall in Hf. destruct (Hf y Hy) as (_ & Ha & Hb).
  apply Forall_fmap, Forall_forall. intros t Ht. unfold pair_trees in Ht.
  assert (Hside : wf_side h (subtree y.1) ∧ wf_side h (subtree y.2)).
  { split; intros i Hi; unfold subtree in Hi.
    - destruct y.1 as [a|]; [|done]. cbn in Hi. destruct (is_tree (mode a)) eqn:E; [|done]. injection Hi as <-. by apply Hl; [apply Ha|].
    - destruct y.2 as [b|]; [|done]. cbn in Hi. destruct (is_tree (mode b)) eqn:E; [|done]. injection Hi as <-. by apply Hr; [apply Hb|]. }
  assert (Hv : Forall valid_name (pre ++ [pair_name y])) by (apply Forall_app; split; [done|by constructor]).
  destruct (subtree y.1) eqn:E1, (subtree y.2) eqn:E2; [| | |by apply elem_of_nil in Ht]; apply list_elem_of_singleton in Ht as ->;
    by repeat split; try apply Hside.
Qed.
Lemma children_leaf pre l r : wf_tree 0 l → wf_tree 0 r → children pre (merge l r) = [].
Proof.
  intros (_ & _ & Hl) (_ & _ & Hr). pose proof (merge_from l r) as Hf. unfold children.
  induction Hf as [|y ys (_ & Ha & Hb) _ IH]; [done|]. cbn [fmap list_fmap concat]. rewrite IH, app_nil_r.
  assert (H1 : subtree y.1 = None).
  { destruct y.1 as [a|]; [|done]. cbn. destruct (is_tree (mode a)) eqn:E; [|done]. by destruct (Hl a (Ha a eq_refl) E). }
  assert (H2 : subtree y.2 = None).
  { destruct y.2 as [b|]; [|done]. cbn. destruct (is_tree (mode b)) eqn:E; [|done]. by destruct (Hr b (Hb b eq_refl) E). }
  unfold pair_trees. by rewrite H1, H2.
Qed.

(** What the subtrees of one name contribute. *)
Definition contributions (q pre : list bytes) (y : Pair) : list RChange :=
  concat (contribution q <$> ((λ t, (pre ++ [pair_name y], t)) <$> pair_trees y)).
Lemma children_contributions q pre xs :
  concat (contribution q <$> children pre xs) = concat (contributions q pre <$> xs).
Proof.
  unfold children. induction xs as [|y xs IH]; [done|]. cbn [fmap list_fmap concat]. by rewrite fmap_app, concat_app, IH.
Qed.
Lemma contributions_none q pre y : (∀ rest, rest ≠ [] → q ≠ pre ++ pair_name y :: rest) → contributions q pre y = [].
Proof.
  intros Hq. unfold contributions. induction (pair_trees y) as [|t ts IH]; [done|]. cbn [fmap list_fmap concat]. rewrite IH, app_nil_r.
  unfold contribution. cbn [fst snd]. destruct (below (pre ++ [pair_name y]) q) as [rest|] eqn:E; [|done].
  apply below_some in E. rewrite <- app_assoc in E. destruct rest as [|x rest]; [done|]. by destruct (Hq (x :: rest)).
Qed.
Lemma contributions_below pre x rest y : pair_name y = x →
  contributions (pre ++ x :: rest) pre y =
    concat ((λ t : TreeInfoPair, changes_at (pre ++ x :: rest) (open_side t.1) (open_side t.2) rest) <$> pair_trees y).
Proof.
  intros <-. unfold contributions. rewrite <- list_fmap_compose. f_equal. apply list_fmap_ext. intros i t _.
  unfold contribution. cbn [fst snd compose].
  change (pre ++ pair_name y :: rest) with (pre ++ [pair_name y] ++ rest). by rewrite app_assoc, below_app.
Qed.
Lemma pairs_contribute pre x z rest l r :
  let q := pre ++ x :: z :: rest in
  concat (contributions q pre <$> pairs_of (named x l) (named x r)) = changes_at q l r (x :: z :: rest).
Proof.
  intros q. unfold changes_at. rewrite !entry_at_cons.
  assert (Hone : ∀ y, pair_name y = x → contributions q pre y =
    concat ((λ t : TreeInfoPair, changes_at q (open_side t.1) (open_side t.2) (z :: rest)) <$> pair_trees y))
    by (intros; by apply contributions_below).
  destruct (named x l) as [a|] eqn:Ea, (named x r) as [b|] eqn:Eb; try (apply named_in in Ea as [_ Ea]); try (apply named_in in Eb as [_ Eb]);
    cbn [pairs_of mbind option_bind]; [destruct (is_tree (mode a)) eqn:Ta, (is_tree (mode b)) eqn:Tb|destruct (is_tree (mode a)) eqn:Ta|
      destruct (is_tree (mode b)) eqn:Tb|]; cbn [Bool.eqb fmap list_fmap concat]; rewrite ?Hone by done;
    unfold pair_trees, subtree, changes_at; cbn [fst snd mbind option_bind]; rewrite ?Ta, ?Tb; cbn [fmap list_fmap concat open_side fst snd];
    rewrite ?app_nil_r, ?entry_at_nil; done.
Qed.

(** A pair of trees has the changes of its level and those of its subtrees. *)
Lemma item_step h pre l r q : wf_tree h l → wf_tree h r → Forall valid_name pre → Forall valid_name q →
  match below pre q with Some rest => changes_at q l r rest | None => [] end ≡ₚ
    at_path q (level_changes (path_of pre) (merge l r)) ++ concat (contribution q <$> children pre (merge l r)).
Proof.
  intros Hl Hr Hpre Hq. destruct (wf_names _ _ Hl) as [Hsl Hnl], (wf_names _ _ Hr) as [Hsr Hnr].
  pose proof (merge_names l r Hnl Hnr) as Hnames. rewrite children_contributions.
  assert (Hnone : ∀ P, (∀ x rest, rest ≠ [] → q ≠ pre ++ x :: rest) → (∀ x, q ≠ pre ++ [x]) → P = [] →
    P ≡ₚ at_path q (level_changes (path_of pre) (merge l r)) ++ concat (contributions q pre <$> merge l r)).
  { intros P H1 H2 ->. rewrite level_not_at, concat_all_nil by (try done; intros y _; apply contributions_none; auto). done. }
  destruct (below pre q) as [[|x [|z rest]]|] eqn:E; [| | |].
  - apply below_some in E. rewrite app_nil_r in E. subst q. apply Hnone; [| |done];
      intros x; [intros rest _|]; intros Heq%(f_equal length); rewrite length_app in Heq; cbn in Heq; lia.
  - apply below_some in E as ->. rewrite level_at, (concat_perm _ _ _ (merge_of_name x l r Hsl Hsr)) by done.
    assert (Hc : concat (contributions (pre ++ [x]) pre <$> merge l r) = []).
    { apply concat_all_nil. intros y _. apply contributions_none. intros rest Hne Heq. apply app_inv_head in Heq.
      destruct rest; [done|by injection Heq]. }
    rewrite Hc, app_nil_r. unfold changes_at. cbn [entry_at].
    destruct (named x l) as [a|], (named x r) as [b|]; cbn [pairs_of]; [|done..].
    destruct (is_tree (mode a)) eqn:Ta, (is_tree (mode b)) eqn:Tb; cbn [Bool.eqb fmap list_fmap concat pair_changes];
      rewrite Ta, Tb; cbn [Bool.eqb]; by rewrite ?app_nil_r.
  - apply below_some in E as ->. rewrite level_not_at; [|done|done|done|].
    + cbn [app]. rewrite (concat_of_name _ x).
      * rewrite (concat_perm _ _ _ (merge_of_name x l r Hsl Hsr)). by rewrite pairs_contribute.
      * intros y _ Hy. apply contributions_none. intros rest' _ Heq. apply app_inv_head in Heq. by injection Heq.
    + intros y Heq. apply app_inv_head in Heq. done.
  - apply Hnone; [| |done]; intros x; [intros rest _|]; intros ->; by rewrite below_app in E.
Qed.

(** The changes [R] are those of the queued pairs of trees. *)
Definition changes_of (R : list RChange) (Q : list Item) : Prop :=
  (∀ q, Forall valid_name q → at_path q R ≡ₚ concat (contribution q <$> Q)) ∧
  Forall (λ c, ∃ q, q ≠ [] ∧ Forall valid_name q ∧ rpath c = path_of q) R.
(** The loop, at the end of two trees, works through the queue. *)
Definition runs (Q : list Item) : Prop := ∀ pop pth rs, ∃ k pth' R, changes_of R Q ∧
  ∀ fuel, changes_loop try_find RecorderVisit (k + fuel) pop [] [] (snd <$> Q) (rec_at (path_of ∘ fst <$> Q) pth rs) =
    (Ok tt, rec_at [] pth' (rs ++ R)).

Lemma level_valid pre xs : Forall valid_name pre → Forall (λ y, valid_name (pair_name y)) xs →
  Forall (λ c, ∃ q, q ≠ [] ∧ Forall valid_name q ∧ rpath c = path_of q) (level_changes (path_of pre) xs).
Proof.
  intros Hpre Hxs. unfold level_changes. apply Forall_concat, Forall_fmap. eapply Forall_impl; [exact Hxs|].
  intros y Hy. apply Forall_forall. intros c Hc. apply rpath_pair_changes in Hc. exists (pre ++ [pair_name y]).
  rewrite path_of_snoc. split_and!; [by destruct pre|apply Forall_app; split; [done|by constructor]|done].
Qed.
Lemma no_trees_run : runs [].
Proof.
  intros pop pth rs. exists 1%nat, (popped pop pth), []. split; [split; [done|constructor]|]. intros fuel. cbn [Nat.add changes_loop].
  rewrite pop_first, (bind_run _ _ _ _ _ (next_of_nil _)). cbv beta iota. rewrite (bind_run _ _ _ _ _ (next_of_nil _)). cbv beta iota.
  by rewrite app_nil_r.
Qed.
Lemma open_side_wf h id : wf_side h id → wf_tree h (open_side id).
Proof.
  intros Hw. destruct id as [i|]; [|apply wf_nil]. destruct (Hw i eq_refl) as (es & Hr & He). cbn. unfold open_tree. by rewrite Hr.
Qed.
Lemma find_tree_run h i (r : Recorder) : wf_side h (Some i) →
  ∃ data, find_tree try_find i r = (Ok data, r) ∧ entries_of data (open_side (Some i)).
Proof.
  intros Hw. destruct (Hw i eq_refl) as (es & Hr & _). cbn [open_side]. unfold open_tree. rewrite Hr. cbn [default].
  unfold read_tree in Hr. destruct (try_find i) as [[[k data]|]| |] eqn:E; try done. cbn [data_kind data_bytes] in Hr.
  case_bool_decide as Hk; [|done]. subst k. destruct (tree_from_bytes data) as [es'| |] eqn:Ht; try done. injection Hr as ->.
  exists data. split; [|by apply tree_entries]. unfold find_tree. by rewrite (find_tree_iter_ok _ _ data).
Qed.
(** Taking a pair of trees off the queue. *)
Lemma open_item h pre t Q pop pth rs : wf_item h (pre, t) → ∃ ld rd, entries_of ld (open_side t.1) ∧ entries_of rd (open_side t.2) ∧
  ∀ fuel, changes_loop try_find RecorderVisit (S fuel) pop [] [] (t :: (snd <$> Q)) (rec_at (path_of pre :: (path_of ∘ fst <$> Q)) pth rs) =
    changes_loop try_find RecorderVisit fuel false ld rd (snd <$> Q) (rec_at (path_of ∘ fst <$> Q) (path_of pre) rs).
Proof.
  intros (_ & Ht & Hl & Hr). cbn [fst snd] in *.
  assert (Hpop : ∀ A (k : unit → M (Fe := Fe) A), (call_pop_front RecorderVisit ≫= k)
    (rec_at (path_of pre :: (path_of ∘ fst <$> Q)) (popped pop pth) rs) = k tt (rec_at (path_of ∘ fst <$> Q) (path_of pre) rs)) by done.
  destruct t as [[i|] [j|]]; [| | |done]; cbn [fst snd] in Hl, Hr.
  - destruct (find_tree_run h i (rec_at (path_of ∘ fst <$> Q) (path_of pre) rs) Hl) as (ld & Hfl & Hel).
    destruct (find_tree_run h j (rec_at (path_of ∘ fst <$> Q) (path_of pre) rs) Hr) as (rd & Hfr & Her).
    exists ld, rd. split_and!; [done|done|]. intros fuel. cbn [changes_loop]. rewrite pop_first, (bind_run _ _ _ _ _ (next_of_nil _)).
    cbv beta iota. rewrite (bind_run _ _ _ _ _ (next_of_nil _)). cbv beta iota.
    by rewrite Hpop, (bind_run _ _ _ _ _ Hfl), (bind_run _ _ _ _ _ Hfr).
  - destruct (find_tree_run h i (rec_at (path_of ∘ fst <$> Q) (path_of pre) rs) Hl) as (ld & Hfl & Hel).
    exists ld, []. split_and!; [done|constructor|]. intros fuel. cbn [changes_loop]. rewrite pop_first, (bind_run _ _ _ _ _ (next_of_nil _)).
    cbv beta iota. rewrite (bind_run _ _ _ _ _ (next_of_nil _)). cbv beta iota. by rewrite Hpop, (bind_run _ _ _ _ _ Hfl).
  - destruct (find_tree_run h j (rec_at (path_of ∘ fst <$> Q) (path_of pre) rs) Hr) as (rd & Hfr & Her).
    exists [], rd. split_and!; [constructor|done|]. intros fuel. cbn [changes_loop]. rewrite pop_first, (bind_run _ _ _ _ _ (next_of_nil _)).
    cbv beta iota. rewrite (bind_run _ _ _ _ _ (next_of_nil _)). cbv beta iota. by rewrite Hpop, (bind_run _ _ _ _ _ Hfr).
Qed.

(** From the beginning of a pair of trees: its level, then the queue. *)
Lemma level_then h pre l r ld rd Q pop pth rs : wf_tree h l → wf_tree h r → entries_of ld l → entries_of rd r →
  Forall valid_name pre → popped pop pth = path_of pre → runs (Q ++ children pre (merge l r)) →
  ∃ k pth' R R', changes_of R' (Q ++ children pre (merge l r)) ∧ R = level_changes (path_of pre) (merge l r) ++ R' ∧
    ∀ fuel, changes_loop try_find RecorderVisit (k + fuel) pop ld rd (snd <$> Q) (rec_at (path_of ∘ fst <$> Q) pth rs) =
      (Ok tt, rec_at [] pth' (rs ++ R)).
Proof.
  intros Hl Hr Hel Her Hpre Hp Hruns. destruct (wf_names _ _ Hl) as [[[_ Hnl] _] _], (wf_names _ _ Hr) as [[[_ Hnr] _] _].
  destruct (level_run try_find _ l r ld rd pop (snd <$> Q) (path_of ∘ fst <$> Q) pth (path_of pre) rs (le_n _) Hel Her Hnl Hnr Hp)
    as (k1 & pth1 & pop1 & _ & _ & H1).
  destruct (Hruns pop1 pth1 (rs ++ level_changes (path_of pre) (merge l r))) as (k2 & pth2 & R & HR & H2).
  exists (k1 + k2)%nat, pth2, (level_changes (path_of pre) (merge l r) ++ R), R. split_and!; [done|done|]. intros fuel.
  rewrite <- Nat.add_assoc, H1. rewrite <- (children_trees pre), <- fmap_app. unfold after. rewrite <- (children_paths pre), <- fmap_app.
  by rewrite H2, <- app_assoc.
Qed.
Lemma runs_app h Q1 Q2 : (∀ Q, match h with O => Q = [] | S h' => Forall (wf_item h') Q end → runs Q) →
  Forall (wf_item h) Q1 → match h with O => Q2 = [] | S h' => Forall (wf_item h') Q2 end → runs (Q1 ++ Q2).
Proof.
  intros Hbase HQ1. revert Q2. induction HQ1 as [|[pre t] Q1 Hit HQ1 IH]; intros Q2 HQ2; [by apply Hbase|].
  intros pop pth rs. cbn [app fmap list_fmap fst snd compose].
  destruct (open_item h pre t (Q1 ++ Q2) pop pth rs Hit) as (ld & rd & Hel & Her & Hopen).
  destruct Hit as (Hpre & _ & Hl%open_side_wf & Hr%open_side_wf). cbn [fst snd] in *.
  destruct (level_then h pre _ _ ld rd (Q1 ++ Q2) false (path_of pre) rs Hl Hr Hel Her Hpre eq_refl) as (k & pth' & R & R' & HR & HeqR & Hrun).
  { rewrite <- app_assoc. apply IH. destruct h as [|h'].
    - subst Q2. by rewrite children_leaf.
    - apply Forall_app. split; [done|by apply children_wf]. }
  exists (S k), pth', R. split; [|intros fuel; cbn [Nat.add]; etrans; [apply Hopen|apply Hrun]]. subst R. destruct HR as [Hat Hval]. split.
  - intros q Hq. rewrite at_path_app, Hat by done. cbn [fmap list_fmap concat]. rewrite fmap_app, concat_app.
    change (contribution q (pre, t)) with (match below pre q with Some rest => changes_at q (open_side t.1) (open_side t.2) rest | None => [] end).
    rewrite (item_step h pre _ _ q Hl Hr Hpre Hq). rewrite <- app_assoc. f_equiv.
    apply Permutation_app_comm.
  - apply Forall_app. split; [|done]. apply level_valid; [done|]. by apply merge_names; eapply wf_names.
Qed.
Lemma runs_all h Q : Forall (wf_item h) Q → runs Q.
Proof.
  revert Q. induction h as [|h IH]; intros Q HQ; rewrite <- (app_nil_r Q).
  - by apply (runs_app 0); [intros Q' ->; apply no_trees_run| |].
  - by apply (runs_app (S h)).
Qed.
End Breadth.

(** C6: The recorded changes between two trees are exactly the differences of
    the trees.  For trees in git's order without duplicate names, all of whose
    subtrees are in the database, [needed_to_obtain] succeeds, and the recorder
    has at every path what distinguishes the entries that the two trees have
    there: an addition if only the new tree has one, a deletion if only the old
    one has, both if one of them is a tree and the other is not, a modification
    if both are trees or both are not and their ids differ, and nothing
    otherwise; and it has no other changes.  Entries of the same id whose modes
    differ are not reported. *)
Theorem tree_changes_correct {BA : bstr.Api} {BL : bstr.Laws} {Fe} (try_find : ObjectId → res Fe (option Data))
    height old new old_data new_data :
  tree_from_bytes old_data = Ok old → tree_from_bytes new_data = Ok new →
  wf_tree try_find height old → wf_tree try_find height new →
  ∃ k r, (∀ fuel, needed_to_obtain try_find RecorderVisit (k + fuel) (Some old_data) new_data recorder_default = (Ok tt, r)) ∧
    (∀ p, Forall valid_name p → filter (λ c, rpath c = path_of p) (records r) ≡ₚ
      pair_changes (path_of p) (entry_at try_find old p, entry_at try_find new p)) ∧
    Forall (λ c, ∃ p, p ≠ [] ∧ Forall valid_name p ∧ rpath c = path_of p) (records r).
Proof.
  intros Hod Hnd Hold Hnew. apply tree_entries in Hod, Hnd.
  assert (Hch : runs try_find ([] ++ children [] (merge old new))).
  { destruct height as [|h]; [rewrite (children_leaf try_find) by done; apply no_trees_run|].
    eapply runs_all. by apply (children_wf try_find). }
  destruct (level_then try_find height [] old new old_data new_data [] false [] [] Hold Hnew Hod Hnd (Forall_nil_2 _) eq_refl Hch)
    as (k & pth & R & R' & [Hat Hval] & -> & Hrun).
  exists k, (rec_at [] pth (level_changes [] (merge old new) ++ R')). split_and!; [exact Hrun| |].
  - intros p Hp. cbn [records rec_at]. fold (at_path p (level_changes [] (merge old new) ++ R')). rewrite at_path_app, Hat by done.
    symmetry. exact (item_step try_find height [] old new p Hold Hnew (Forall_nil_2 _) Hp).
  - cbn [records rec_at]. apply Forall_app. split; [|done]. apply (level_valid [] _ (Forall_nil_2 _)).
    by apply merge_names; eapply wf_names.
Qed.

(** ** Examples *)

Definition sample_oid (k : Z) : ObjectId := Sha1 (replicate 20 k).
Definition sub_old : list Entry := [mkEntry 33188 (bs "x") (sample_oid 1)].
Definition sub_new : list Entry := [mkEntry 33188 (bs "x") (sample_oid 2); mkEntry 33188 (bs "y") (sample_oid 3)].
(** A file becomes executable, a directory changes, a file becomes a
    directory. *)
Definition tree_old : list Entry :=
  [mkEntry 33188 (bs "a") (sample_oid 1); mkEntry 16384 (bs "d") (sample_oid 11); mkEntry 33188 (bs "f") (sample_oid 4)].
Definition tree_new : list Entry :=
  [mkEntry 33261 (bs "a") (sample_oid 1); mkEntry 16384 (bs "d") (sample_oid 12); mkEntry 16384 (bs "f") (sample_oid 11)].
Definition sample_find (id : ObjectId) : res unit (option Data) :=
  if bool_decide (id = sample_oid 11) then Ok (Some (mkData KTree (tree_text sub_old)))
  else if bool_decide (id = sample_oid 12) then Ok (Some (mkData KTree (tree_text sub_new)))
  else Ok None.

Lemma sub_wf : wf_tree (BA := bstr_impl) sample_find 0 sub_old ∧ wf_tree (BA := bstr_impl) sample_find 0 sub_new.
Proof.
  split; (split_and!; [|by_decision|]).
  1,3: split; [split; [repeat constructor|by_decision]|by_decision].
  all: intros e He Ht; repeat (apply elem_of_cons in He as [->|He]; [vm_compute in Ht; discriminate Ht|]); by apply elem_of_nil in He.
Qed.
Lemma sample_trees_wf : wf_tree (BA := bstr_impl) sample_find 1 tree_old ∧ wf_tree (BA := bstr_impl) sample_find 1 tree_new.
Proof.
  split; (split_and!; [|by_decision|]).
  1,3: split; [split; [repeat constructor|by_decision]|by_decision].
  all: intros e He Ht; repeat (apply elem_of_cons in He as [->|He];
    [first [vm_compute in Ht; discriminate Ht
           |exists sub_old; split; [vm_compute; reflexivity|apply sub_wf]|exists sub_new; split; [vm_compute; reflexivity|apply sub_wf]]|]);
    by apply elem_of_nil in He.
Qed.
Lemma tree_changes_correct_witness :
  ∃ k r, needed_to_obtain (H := bstr_impl) sample_find RecorderVisit (k + 0) (Some (tree_text tree_old)) (tree_text tree_new) recorder_default =
      (Ok tt, r) ∧
    filter (λ c, rpath c = bs "d/y") (records r) ≡ₚ [RAddition 33188 (sample_oid 3) (bs "d/y")].
Proof.
  destruct (@tree_changes_correct bstr_impl bstr_impl_laws unit sample_find 1 tree_old tree_new (tree_text tree_old) (tree_text tree_new))
    as (k & r & Hrun & Hat & _); [vm_compute; reflexivity|vm_compute; reflexivity|apply sample_trees_wf|apply sample_trees_wf|].
  exists k, r. split; [apply Hrun|]. apply (Hat [bs "d"; bs "y"]). repeat (constructor; [split; by_decision|]). constructor.
Defined.

(** Nothing is recorded for the file that became executable. *)
Example mode_change_not_reported :
  match needed_to_obtain (H := bstr_impl) sample_find RecorderVisit 20 (Some (tree_text tree_old)) (tree_text tree_new) recorder_default with
  | (Ok _, r) => records r =
      [RModification 16384 (sample_oid 11) 16384 (sample_oid 12) (bs "d"); RDeletion 33188 (sample_oid 4) (bs "f");
       RAddition 16384 (sample_oid 11) (bs "f");
       RModification 33188 (sample_oid 1) 33188 (sample_oid 2) (bs "d/x"); RAddition 33188 (sample_oid 3) (bs "d/y");
       RAddition 33188 (sample_oid 1) (bs "f/x")]
  | _ => False
  end.
Proof. vm_compute. reflexivity. Qed.
