(* ===== verification/TagObject.v ===== *)
(** * Annotated tags: [gix-object/src/tag]

    Parsing a tag as a whole ([decode.rs]) and token by token ([ref_iter.rs]),
    and writing it ([write.rs]). *)

From S2P Require Import Prelude External Winnow Hash Btoi Actor ObjectParse PackEntry Validate ObjectTree CommitObject.
Import winnow PackEntry.Entry.

(** ** Data *)

Record TagRef := mkTagRef {
  target : bytes; target_kind : Kind; tag_name_ : bytes; tagger : option Signature; tag_message : bytes; tag_pgp_signature : option bytes }.
Record Tag := mkTag {
  t_target : ObjectId; t_target_kind : Kind; t_name : bytes; t_tagger : option Signature; t_message : bytes; t_pgp_signature : option bytes }.

Section Tag.
Context `{BA : !bstr.Api} `{IA : !itoa.Api} `{WA : !winnow.Api} `{FA : !faster_hex.Api}.

(** ** [decode.rs] *)

Definition PGP_SIGNATURE_BEGIN : bytes := 10 :: bs "-----BEGIN PGP SIGNATURE-----".
Definition PGP_SIGNATURE_END : bytes := bs "-----END PGP SIGNATURE-----".
Definition is_alpha (b : Z) : bool := between (ch "A") (ch "Z") b || between (ch "a") (ch "z") b.
Definition pgp_field : parser (option bytes) :=
  map (taken (pair (pair (pair (literal (drop 1 PGP_SIGNATURE_BEGIN)) (take_until PGP_SIGNATURE_END)) (literal PGP_SIGNATURE_END)) rest))
    (λ signature, if bool_decide (signature = []) then None else Some signature).
Definition message_and_signature : parser (bytes * option bytes) :=
  alt (pair (take_until PGP_SIGNATURE_BEGIN) (preceded (literal parse.NL) pgp_field)) (map rest (λ rest, (rest, None))).
Definition tag_body : parser (bytes * option bytes) := λ i,
  if bool_decide (i = []) then Ok ([], None, i)
  else delimited (literal parse.NL) message_and_signature (opt (literal parse.NL)) i.
Definition kind_ok (kind : bytes) : option Kind := match kind_from_bytes kind with Ok k => Some k | _ => None end.
Definition git_tag : parser TagRef :=
  map
    (pair (pair (pair (pair
      (parse.header_field (bs "object") parse.hex_hash)
      (verify_map (parse.header_field (bs "type") (take_while 1 None is_alpha)) kind_ok))
      (parse.header_field (bs "tag") (take_while 1 None (λ b, negb (b =? 10)))))
      (opt (parse.header_field (bs "tagger") parse.signature)))
      (terminated tag_body eof))
    (λ '(target, kind, tag_version, signature, (message, pgp_signature)),
      mkTagRef target kind tag_version signature message pgp_signature).
(** [TagRef::from_bytes]. *)
Definition tag_from_bytes (data : bytes) : res ErrMode TagRef := fst <$> git_tag data.
(** [TagRef::target], and [TagRef::into] of [object/convert.rs]. *)
Definition tag_target {E} (t : TagRef) : res E ObjectId := from_hex_expect (target t).
Definition into_tag {E} (t : TagRef) : res E Tag :=
  target ← from_hex_expect (target t);
  Ok (mkTag target (target_kind t) (tag_name_ t) (tagger t) (tag_message t) (tag_pgp_signature t)).

(** ** [ref_iter.rs] *)

Inductive TagState := StTarget | StTargetKind | StName | StTagger | StBody.
Inductive TagToken :=
| GTarget (id : ObjectId)
| GTargetKind (k : Kind)
| GName (n : bytes)
| GTagger (s : option Signature)
| GBody (message : bytes) (pgp_signature : option bytes).
Definition tag_token_id (t : TagToken) : option ObjectId := match t with GTarget id => Some id | _ => None end.
Definition tag_next_inner_ (i : bytes) (state : TagState) : res ErrMode (TagToken * TagState * bytes) :=
  match state with
  | StTarget =>
      '(target, i) ← parse.header_field (bs "object") parse.hex_hash i;
      id ← from_hex_expect target;
      Ok (GTarget id, StTargetKind, i)
  | StTargetKind =>
      '(kind, i) ← parse.header_field (bs "type") (take_while 1 None is_alpha) i;
      kind ← map_err (λ _, Backtrack) (kind_from_bytes kind);
      Ok (GTargetKind kind, StName, i)
  | StName =>
      '(tag_version, i) ← parse.header_field (bs "tag") (take_while 1 None (λ b, negb (b =? 10))) i;
      Ok (GName tag_version, StTagger, i)
  | StTagger =>
      '(signature, i) ← opt (parse.header_field (bs "tagger") parse.signature) i;
      Ok (GTagger signature, StBody, i)
  | StBody =>
      '(message, pgp_signature, i) ← terminated tag_body eof i;
      Ok (GBody message pgp_signature, StBody, i)
  end.
Record TagRefIter := mkTagRefIter { tag_data : bytes; tag_state : TagState }.
Definition tag_iter_from_bytes (data : bytes) : TagRefIter := mkTagRefIter data StTarget.
Definition tag_next (it : TagRefIter) : option (res ErrMode TagToken) * TagRefIter :=
  if bool_decide (tag_data it = []) then (None, it)
  else
    match tag_next_inner_ (tag_data it) (tag_state it) with
    | Ok (token, state, data) => (Some (Ok token), mkTagRefIter data state)
    | Err err => (Some (Err err), mkTagRefIter [] (tag_state it))
    | Panic => (Some Panic, it)
    end.
(** All tokens: there are at most five. *)
Fixpoint tag_collect (fuel : nat) (it : TagRefIter) : list (res ErrMode TagToken) :=
  match fuel with
  | O => []
  | S fuel => match tag_next it with (None, _) => [] | (Some t, it) => t :: tag_collect fuel it end
  end.
Definition tag_tokens (data : bytes) : list (res ErrMode TagToken) := tag_collect 6 (tag_iter_from_bytes data).
Definition target_id (it : TagRefIter) : res ErrMode ObjectId :=
  token ← ok_or (fst (tag_next it)) missing_field; token ← token; ok_or (tag_token_id token) missing_field.
Fixpoint iter_tagger (ts : list (res ErrMode TagToken)) : res ErrMode (option Signature) :=
  match ts with
  | [] => Err missing_field
  | t :: ts => t ← t; match t with GTagger s => Ok s | _ => iter_tagger ts end
  end.

(** ** [write.rs] *)

Definition validated_name (name : bytes) : res encode.WriteError bytes :=
  _ ← map_err (λ _, encode.InvalidName) (tag_name name);
  c ← idx name 0;
  if c =? ch "-" then Err encode.StartsWithDash else Ok name.
Definition tag_write_to (t : Tag) : res encode.WriteError bytes :=
  o ← encode.trusted_header_id (bs "object") (t_target t);
  let k := encode.trusted_header_field (bs "type") (kind_as_bytes (t_target_kind t)) in
  name ← validated_name (t_name t);
  n ← encode.header_field (bs "tag") name;
  s ← match t_tagger t with Some tagger => encode.trusted_header_signature (bs "tagger") tagger | None => Ok [] end;
  let m := if bool_decide (t_message t = []) then [] else t_message t in
  let p := match t_pgp_signature t with Some message => encode.NL ++ message | None => [] end in
  Ok (o ++ k ++ n ++ s ++ encode.NL ++ m ++ p).
Definition tag_size (t : Tag) : Z :=
  6 + 1 + Z.of_nat (len_in_hex (kind (t_target t))) + 1
  + 4 + 1 + Z.of_nat (length (kind_as_bytes (t_target_kind t))) + 1
  + 3 + 1 + Z.of_nat (length (t_name t)) + 1
  + match t_tagger t with Some s => 6 + 1 + signature_size s + 1 | None => 0 end
  + 1 + Z.of_nat (length (t_message t))
  + match t_pgp_signature t with Some m => 1 + Z.of_nat (length m) | None => 0 end.
End Tag.

(** ** Reading what was written *)

(** A tag that can be written and read back. *)
Record wf_tag (t : Tag) : Prop := {
  tag_wf_target : wf_id (t_target t);
  tag_wf_name : tag_name (t_name t) = Ok (t_name t) ∧ t_name t ≠ [] ∧ 10 ∉ t_name t ∧ head (t_name t) ≠ Some (ch "-");
  tag_wf_tagger : ∀ s, t_tagger t = Some s → wf_signature s;
  (** A signature starts at the first line that begins one. *)
  tag_wf_signature : match t_pgp_signature t with
    | None => bstr.find_sub (t_message t) PGP_SIGNATURE_BEGIN = None
    | Some p => ∃ q, p = drop 1 PGP_SIGNATURE_BEGIN ++ q ∧ bstr.find_sub q PGP_SIGNATURE_END ≠ None ∧
        bstr.find_sub (t_message t ++ 10 :: p) PGP_SIGNATURE_BEGIN = Some (length (t_message t))
    end }.

Section Proofs.
Context `{BA : !bstr.Api} `{BL : !bstr.Laws} `{IA : !itoa.Api} `{IL : !itoa.Laws} `{WA : !winnow.Api} `{WL : !winnow.Laws}
  `{FA : !faster_hex.Api} `{FL : !faster_hex.Laws}.

Definition body_text (t : Tag) : bytes :=
  10 :: t_message t ++ match t_pgp_signature t with Some p => 10 :: p | None => [] end.
Definition tag_text (t : Tag) : bytes :=
  id_text (bs "object") (t_target t) ++ (bs "type" ++ 32 :: kind_as_bytes (t_target_kind t) ++ [10]) ++ (bs "tag" ++ 32 :: t_name t ++ [10]) ++
  match t_tagger t with Some s => sig_text (bs "tagger") s | None => [] end ++ body_text t.

Lemma tag_write_text t : wf_tag t → tag_write_to t = Ok (tag_text t).
Proof.
  intros Ht. destruct (tag_wf_name _ Ht) as (Hn & Hne & Hnl & Hd). unfold tag_write_to. rewrite trusted_header_id_text, bind_Ok by apply Ht.
  assert (Hv : validated_name (t_name t) = Ok (t_name t)).
  { unfold validated_name. rewrite Hn. cbn [map_err]. rewrite bind_Ok. destruct (t_name t) as [|b n]; [done|]. rewrite idx_cons, bind_Ok.
    destruct (Z.eqb_spec b (ch "-")) as [->|]; [by destruct Hd|done]. }
  cbv zeta. rewrite Hv, bind_Ok. unfold encode.header_field. rewrite (bool_decide_eq_false_2 (t_name t = [])) by done. rewrite bstr.find_spec.
  change (bstr.find_sub (t_name t) encode.NL) with (bstr.find_sub (t_name t) [10]). rewrite find_sub_none, bind_Ok by done.
  unfold tag_text, body_text, encode.trusted_header_field, encode.NL, encode.SPACE.
  replace (if bool_decide (t_message t = []) then [] else t_message t) with (t_message t) by (by case_bool_decide).
  destruct (t_tagger t) as [s|] eqn:Es.
  - rewrite trusted_header_signature_text, bind_Ok by (by apply (tag_wf_tagger _ Ht)). destruct (t_pgp_signature t); cbn [app]; by rewrite <- ?app_assoc.
  - rewrite bind_Ok. destruct (t_pgp_signature t); cbn [app]; by rewrite <- ?app_assoc.
Qed.

Lemma find_sub_prefix q s : bstr.find_sub q s ≠ None → ∃ k, bstr.find_sub q s = Some k ∧ ∃ r, drop k q = s ++ r.
Proof.
  induction q as [|b q IH]; cbn [bstr.find_sub]; destruct (starts_with _ s) eqn:E; try done; intros H.
  - apply starts_with_spec in E as [r ->]. exists O. split; [done|]. by exists r.
  - apply starts_with_spec in E as [r E]. exists O. split; [done|]. by exists r.
  - destruct (bstr.find_sub q s) as [j|]; [|done]. destruct IH as (k & [= <-] & r & Hr); [done|]. exists (S j). split; [done|]. by exists r.
Qed.
Lemma pgp_field_read q : bstr.find_sub q PGP_SIGNATURE_END ≠ None →
  pgp_field (drop 1 PGP_SIGNATURE_BEGIN ++ q) = Ok (Some (drop 1 PGP_SIGNATURE_BEGIN ++ q), []).
Proof.
  intros Hq. destruct (find_sub_prefix _ _ Hq) as (k & Hk & r & Hr). unfold pgp_field.
  rewrite map_spec, taken_spec, !pair_spec, literal_app. winnow_run. rewrite take_until_spec, Hk. winnow_run. rewrite Hr, literal_app. winnow_run.
  rewrite rest_spec. winnow_run. rewrite Nat.sub_0_r, take_ge by done. by rewrite bool_decide_eq_false_2.
Qed.
Lemma tag_body_read t : wf_tag t → terminated tag_body eof (body_text t) = Ok (t_message t, t_pgp_signature t, []).
Proof.
  intros Ht. pose proof (tag_wf_signature _ Ht) as Hs. rewrite terminated_spec. unfold tag_body, body_text.
  rewrite bool_decide_eq_false_2 by done. rewrite delimited_spec. change (10 :: ?x) with (parse.NL ++ x) at 1. rewrite literal_app. winnow_run.
  assert (Hm : message_and_signature (t_message t ++ match t_pgp_signature t with Some p => 10 :: p | None => [] end) = Ok (t_message t, t_pgp_signature t, [])).
  { unfold message_and_signature. rewrite alt_spec, pair_spec, take_until_spec. destruct (t_pgp_signature t) as [p|].
    - destruct Hs as (q & -> & Hq & Hf). rewrite Hf. winnow_run. rewrite drop_app_length, take_app_length, preceded_spec.
      change (10 :: drop 1 PGP_SIGNATURE_BEGIN ++ q) with (parse.NL ++ drop 1 PGP_SIGNATURE_BEGIN ++ q). rewrite literal_app. winnow_run.
      rewrite pgp_field_read by done. by winnow_run.
    - rewrite app_nil_r, Hs. winnow_run. rewrite map_spec, rest_spec. by winnow_run. }
  rewrite Hm. winnow_run. rewrite opt_spec, literal_spec. cbn. by rewrite eof_spec, bool_decide_eq_true_2.
Qed.
Lemma kind_read k rest : parse.header_field (bs "type") (take_while 1 None is_alpha) ((bs "type" ++ 32 :: kind_as_bytes k ++ [10]) ++ rest) = Ok (kind_as_bytes k, rest).
Proof.
  rewrite <- !app_assoc. cbn [app]. rewrite <- app_assoc. apply header_field_read. apply take_while_app; [destruct k; vm_compute; lia| |done].
  destruct k; apply (bool_decide_unpack _); by vm_compute.
Qed.
Lemma kind_bytes_ok k : kind_from_bytes (kind_as_bytes k) = Ok k.
Proof. by destruct k. Qed.
Lemma name_read n rest : n ≠ [] → 10 ∉ n →
  parse.header_field (bs "tag") (take_while 1 None (λ b, negb (b =? 10))) ((bs "tag" ++ 32 :: n ++ [10]) ++ rest) = Ok (n, rest).
Proof.
  intros Hne Hn. rewrite <- !app_assoc. cbn [app]. rewrite <- app_assoc. apply header_field_read.
  apply take_while_app; [destruct n; [done|cbn; lia]| |done]. apply Forall_forall. intros b Hb. apply negb_true_iff, Z.eqb_neq. by intros ->.
Qed.
Lemma tagger_read t : wf_tag t → opt (parse.header_field (bs "tagger") parse.signature)
  (match t_tagger t with Some s => sig_text (bs "tagger") s | None => [] end ++ body_text t) = Ok (t_tagger t, body_text t).
Proof.
  intros Ht. rewrite opt_spec. destruct (t_tagger t) as [s|] eqn:Es.
  - rewrite sig_field_read; [done|]. by apply (tag_wf_tagger _ Ht).
  - by rewrite header_field_other.
Qed.

(** Tags round-trip.  A tag with a valid name, a well-formed tagger if it
    has one, and a signature that starts at the first line that begins one, is
    written; the parser of tags reads the same tag back, and the token
    iterator its five tokens. *)
Theorem tag_roundtrip t : wf_tag t →
  ∃ text, tag_write_to t = Ok text ∧
    (∃ r, tag_from_bytes text = Ok r ∧ into_tag r = (Ok t : res ErrMode _)) ∧
    tag_tokens text = [Ok (GTarget (t_target t)); Ok (GTargetKind (t_target_kind t)); Ok (GName (t_name t)); Ok (GTagger (t_tagger t));
      Ok (GBody (t_message t) (t_pgp_signature t))].
Proof.
  intros Ht. exists (tag_text t). split; [by apply tag_write_text|]. destruct (tag_wf_name _ Ht) as (_ & Hne & Hnl & _). split.
  - exists (mkTagRef (hex (as_slice (t_target t))) (t_target_kind t) (t_name t) (t_tagger t) (t_message t) (t_pgp_signature t)). split.
    + unfold tag_from_bytes, git_tag, tag_text. rewrite map_spec, !pair_spec, id_field_read by apply Ht. winnow_run. rewrite verify_map_spec, kind_read.
      winnow_run. unfold kind_ok. rewrite kind_bytes_ok. winnow_run. rewrite name_read by done. winnow_run. rewrite tagger_read by done. winnow_run.
      by rewrite tag_body_read.
    + unfold into_tag. cbn [target]. rewrite (from_hex_expect_ok _ _ (from_hex_hex _ (tag_wf_target _ Ht))). by destruct t.
  - unfold tag_tokens, tag_iter_from_bytes. cbn [tag_collect]. unfold tag_next at 1. cbn [tag_data tag_state tag_next_inner_].
    unfold tag_text. rewrite bool_decide_eq_false_2 by (unfold id_text; by destruct (t_target t)). rewrite id_field_read by apply Ht. winnow_run.
    rewrite (from_hex_expect_ok _ _ (from_hex_hex _ (tag_wf_target _ Ht))). winnow_run. f_equal.
    unfold tag_next at 1. cbn [tag_data tag_state tag_next_inner_]. rewrite bool_decide_eq_false_2 by done. rewrite kind_read. winnow_run.
    rewrite kind_bytes_ok. cbn [map_err]. winnow_run. f_equal.
    unfold tag_next at 1. cbn [tag_data tag_state tag_next_inner_]. rewrite bool_decide_eq_false_2 by done. rewrite name_read by done. winnow_run. f_equal.
    unfold tag_next at 1. cbn [tag_data tag_state tag_next_inner_]. rewrite bool_decide_eq_false_2 by (by destruct (t_tagger t)).
    rewrite tagger_read by done. winnow_run. f_equal.
    unfold tag_next at 1. cbn [tag_data tag_state tag_next_inner_]. rewrite bool_decide_eq_false_2 by done. by rewrite tag_body_read.
Qed.
Lemma tag_size_text t : wf_tag t → (∀ s, t_tagger t = Some s → ¬ negative_power_of_ten (seconds (time s))) →
  tag_size t = Z.of_nat (length (tag_text t)).
Proof.
  intros Ht Hp. unfold tag_size, tag_text, body_text. rewrite !length_app, !Nat2Z.inj_add, id_text_length by apply Ht.
  change (len_in_hex (kind (t_target t))) with (match kind (t_target t) with KSha1 => 40%nat end). destruct (kind (t_target t)).
  change (length (bs "object")) with 6%nat. change (length (bs "type")) with 4%nat. change (length (bs "tag")) with 3%nat.
  cbn [length]. rewrite !length_app. cbn [length].
  destruct (t_tagger t) as [s|] eqn:Es; [rewrite sig_text_length; [|by apply (tag_wf_tagger _ Ht)|by apply Hp]|]; destruct (t_pgp_signature t); cbn [length];
    change (length (bs "tagger")) with 6%nat; lia.
Qed.
End Proofs.

(** ** At a concrete tag *)

Definition sample_tag : Tag :=
  mkTag (empty_tree KSha1) KCommit (bs "v1.0") (Some sample_signature) (bs "release" ++ [10] ++ bs "notes")
    (Some (bs "-----BEGIN PGP SIGNATURE-----" ++ [10] ++ bs "iQ==" ++ [10] ++ bs "-----END PGP SIGNATURE-----" ++ [10])).
Lemma sample_tag_wf : wf_tag sample_tag.
Proof.
  split; cbn [sample_tag t_target t_name t_tagger t_message t_pgp_signature].
  - split; [done|]. apply (bool_decide_unpack _). by vm_compute.
  - split_and!; [by vm_compute|done|apply (bool_decide_unpack _); by vm_compute|done].
  - intros s [= <-]. apply sample_commit_wf.
  - exists ([10] ++ bs "iQ==" ++ [10] ++ bs "-----END PGP SIGNATURE-----" ++ [10]). split_and!; [done|by vm_compute|by vm_compute].
Qed.
Lemma tag_roundtrip_witness :
  wf_tag sample_tag ∧
  ∃ text, tag_write_to (BA := bstr_impl) (IA := itoa_impl) (FA := hex_impl) sample_tag = Ok text ∧
    (∃ r, tag_from_bytes (BA := bstr_impl) (WA := winnow_impl) text = Ok r ∧ into_tag (FA := hex_impl) r = (Ok sample_tag : res ErrMode _)) ∧
    tag_tokens (BA := bstr_impl) (WA := winnow_impl) (FA := hex_impl) text =
      [Ok (GTarget (t_target sample_tag)); Ok (GTargetKind (t_target_kind sample_tag)); Ok (GName (t_name sample_tag)); Ok (GTagger (t_tagger sample_tag));
       Ok (GBody (t_message sample_tag) (t_pgp_signature sample_tag))].
Proof.
  split; [apply sample_tag_wf|].
  exact (tag_roundtrip (BL := bstr_impl_laws) (IL := itoa_impl_laws) (WL := winnow_impl_laws) (FL := hex_impl_laws) sample_tag sample_tag_wf).
Defined.
