(* ===== verification/RevGraph.v ===== *)
(** * The commit graph in memory: [gix-revwalk]

    Commits that were seen, with data that an algorithm attaches to them
    ([lib.rs], [graph/mod.rs], [graph/commit.rs]), looked up in an optional
    commit-graph cache or in the object database, and the priority queue
    ([queue.rs]).

    The object database is the parameter [try_find].  A closure that is called
    with a mutable reference is a function to the new value, with the variables
    it captures mutably as a further argument and result. *)

From S2P Require Import Prelude External Winnow Hash PackEntry Btoi Actor ObjectParse CommitObject ObjectTree ObjectFind.
From S2P Require CommitGraph GraphFiles.
Import winnow.

#[global] Instance ObjectId_countable : Countable ObjectId.
Proof. by refine (inj_countable' as_slice Sha1 _); intros []. Defined.

(** ** [graph::Commit] *)

Record GCommit (T : Type) := mkGCommit {
  g_parents : list ObjectId; g_time : Z; g_generation : option Z; g_data : T }.
Arguments mkGCommit {T}. Arguments g_parents {T}. Arguments g_time {T}. Arguments g_generation {T}. Arguments g_data {T}.
Definition set_data {T} (f : T → T) (c : GCommit T) : GCommit T :=
  mkGCommit (g_parents c) (g_time c) (g_generation c) (f (g_data c)).

(** [LazyCommit]: the buffer of the object, or a position in the cache. *)
Inductive LazyCommit := FromBuffer (buf : bytes) | FromCache (cache : GraphFiles.Graph) (pos : Z).

(** [to_owned::Error], [iter_parents::Error], [get_or_insert_default::Error]. *)
Inductive ToOwnedError :=
| Decode (e : ErrMode)
| CommitGraphParent (e : CommitGraph.CommitError)
| CommitGraphTime (actual : Z).
Inductive IterParentsError := DecodeCommit (e : ErrMode) | DecodeCommitGraph (e : CommitGraph.CommitError).
Inductive GetOrInsertError (Fe : Type) := Lookup (e : @ExistingIterError Fe) | ToOwned (e : ToOwnedError).
Arguments Lookup {Fe}. Arguments ToOwned {Fe}.

Section Lazy.
Context `{BA : !bstr.Api} `{WA : !winnow.Api} `{FA : !faster_hex.Api}.

(** The tokens up to the committer: the parents and the time.  Every token
    consumes input, so its length bounds their number. *)
Fixpoint owned_loop (fuel : nat) (iter : CommitRefIter) (parents : list ObjectId) : res ErrMode (list ObjectId * option Z) :=
  match next iter with
  | (None, _) => Ok (parents, None)
  | (Some token, iter) =>
      token ← token;
      let again parents := match fuel with O => Panic | S fuel => owned_loop fuel iter parents end in
      match token with
      | TTree _ => again parents
      | TParent id => again (parents ++ [id])
      | TAuthor _ => again parents
      | TCommitter signature => Ok (parents, Some (seconds (time signature)))
      | _ => Panic
      end
  end.
(** [LazyCommit::to_owned]. *)
Definition lazy_to_owned {T} (c : LazyCommit) (data : T) : res ToOwnedError (GCommit T) :=
  match c with
  | FromBuffer buf =>
      '(parents, timestamp) ← map_err Decode (owned_loop (length buf) (iter_from_bytes buf) []);
      Ok (mkGCommit parents (default 0 timestamp) None data)
  | FromCache cache pos =>
      commit ← lift (GraphFiles.graph_commit_at cache pos);
      parents ← CommitGraph.fold_parents
        (λ parents pos,
           c ← lift (GraphFiles.graph_commit_at cache pos);
           id ← lift (CommitGraph.commit_id c);
           id ← lift (to_owned id);
           Ok (parents ++ [id]))
        CommitGraphParent commit (CommitGraph.parents_fuel commit) CommitGraph.First [];
      let t := CommitGraph.commit_timestamp commit in
      if t <? 2 ^ 63 then Ok (mkGCommit parents t (Some (CommitGraph.generation commit)) data) else Err (CommitGraphTime t)
  end.
(** [committer_timestamp], [generation], [generation_and_timestamp]; a cast of
    the time of the cache is to [i64]. *)
Definition as_i64 (n : Z) : Z := let n := wrap 64 n in if n <? 2 ^ 63 then n else n - 2 ^ 64.
Definition all_tokens (buf : bytes) : list (res ErrMode Token) := default [] (tokens buf).
Definition committer_timestamp (c : LazyCommit) : res ErrMode Z :=
  match c with
  | FromBuffer buf => s ← iter_committer (all_tokens buf); Ok (seconds (time s))
  | FromCache cache pos => c ← lift (GraphFiles.graph_commit_at cache pos); Ok (as_i64 (CommitGraph.commit_timestamp c))
  end.
Definition lazy_generation {E} (c : LazyCommit) : res E (option Z) :=
  match c with
  | FromBuffer _ => Ok None
  | FromCache cache pos => c ← lift (GraphFiles.graph_commit_at cache pos); Ok (Some (CommitGraph.generation c))
  end.
Definition generation_and_timestamp (c : LazyCommit) : res ErrMode (option Z * Z) :=
  g ← lazy_generation c; t ← committer_timestamp c; Ok (g, t).

(** [Parents]: the items of the iterator, up to the first error.  The tokens
    behind the parents are not read. *)
Fixpoint parent_items (ts : list (res ErrMode Token)) : list ObjectId * option IterParentsError :=
  match ts with
  | Ok (TTree _) :: ts => parent_items ts
  | Ok (TParent id) :: ts => let '(ids, e) := parent_items ts in (id :: ids, e)
  | Err err :: _ => ([], Some (DecodeCommit err))
  | _ => ([], None)
  end.

(** ** [Graph]: its map; the database and the cache do not change *)

Context {Fe : Type} (try_find : ObjectId → res Fe (option Data)) (cache : option GraphFiles.Graph).

Definition try_lookup (id : ObjectId) : res (@ExistingIterError Fe) (option LazyCommit) :=
  let from_objects :=
    data ← map_err Find (try_find id);
    Ok (match data with
        | Some data => if bool_decide (data_kind data = Entry.KCommit) then Some (FromBuffer (data_bytes data)) else None
        | None => None
        end) in
  match cache with
  | Some cache =>
      pos ← lift (GraphFiles.graph_lookup cache (as_slice id));
      match pos with Some pos => Ok (Some (FromCache cache pos)) | None => from_objects end
  | None => from_objects
  end.
Definition lookup (id : ObjectId) : res (@ExistingIterError Fe) LazyCommit :=
  c ← try_lookup id; ok_or c (NotFound id).
(** A commit as it is inserted into the map. *)
Definition load {T} (id : ObjectId) (data : T) : res (GetOrInsertError Fe) (option (GCommit T)) :=
  c ← map_err Lookup (try_lookup id);
  match c with
  | None => Ok None
  | Some commit => commit ← map_err ToOwned (lazy_to_owned commit data); Ok (Some commit)
  end.

Definition get_or_insert_full_commit {T St} (default_data : T) (map : gmap ObjectId (GCommit T)) (id : ObjectId)
    (update_commit : GCommit T → St → GCommit T * St) (st : St)
  : res (GetOrInsertError Fe) (option (GCommit T) * gmap ObjectId (GCommit T) * St) :=
  match map !! id with
  | None =>
      commit ← load id default_data;
      match commit with
      | None => Ok (None, map, st)
      | Some commit => let '(commit, st) := update_commit commit st in Ok (Some commit, <[id := commit]> map, st)
      end
  | Some commit => let '(commit, st) := update_commit commit st in Ok (Some commit, <[id := commit]> map, st)
  end.
Definition get_or_insert_commit_default {T St} (new_data : T) (map : gmap ObjectId (GCommit T)) (id : ObjectId)
    (update_data : T → St → T * St) (st : St)
  : res (GetOrInsertError Fe) (option (GCommit T) * gmap ObjectId (GCommit T) * St) :=
  get_or_insert_full_commit new_data map id
    (λ commit st, let '(data, st) := update_data (g_data commit) st in (set_data (λ _, data) commit, st)) st.
Definition clear_commit_data {T} (clear : T → T) (map : gmap ObjectId (GCommit T)) : gmap ObjectId (GCommit T) :=
  set_data clear <$> map.

(** Access and mutation with any data. *)
Definition insert_data {T E} (map : gmap ObjectId T) (id : ObjectId) (make_data : LazyCommit → res E T) (from : @ExistingIterError Fe → E)
  : res E (option T * gmap ObjectId T) :=
  c ← map_err from (lookup id);
  value ← make_data c;
  Ok (map !! id, <[id := value]> map).
Definition try_lookup_or_insert_default {T St} (map : gmap ObjectId T) (id : ObjectId) (new : T) (update_data : T → St → T * St) (st : St)
  : res (GetOrInsertError Fe) (option LazyCommit * gmap ObjectId T * St) :=
  res ← map_err Lookup (try_lookup id);
  match res with
  | None => Ok (None, map, st)
  | Some commit =>
      let '(data, st) := update_data (default new (map !! id)) st in
      Ok (Some commit, <[id := data]> map, st)
  end.
End Lazy.

(** ** [PriorityQueue]: a binary heap

    Of several greatest items any may be popped, and [into_vec] yields the items
    in any order; which one depends on the layout of the heap, which the users
    of the queue do not rely on.  The heap
    is an interface with the promise of [std::collections::BinaryHeap]. *)

Module heap.
Section Heap.
Context {K V : Type} (le : K → K → Prop).
Class Api := {
  pop : list (K * V) → option (K * V * list (K * V));
  into_vec : list (K * V) → list (K * V) }.
Class Laws `{!Api} : Prop := {
  pop_nil : pop [] = None;
  pop_some q : q ≠ [] → ∃ k v q', pop q = Some (k, v, q') ∧ q ≡ₚ (k, v) :: q' ∧ Forall (λ x, le x.1 k) q;
  into_vec_perm q : into_vec q ≡ₚ q }.
End Heap.
Arguments Api : clear implicits.
Arguments Laws {K V} le {H}.
End heap.

Definition queue_insert {K V} (key : K) (value : V) (q : list (K * V)) : list (K * V) := (key, value) :: q.

(** A heap that is a list, for any order of the keys. *)
Section HeapImpl.
Context {K V : Type} (cmp : K → K → comparison).
Definition at_most (a b : K) : Prop := cmp a b ≠ Gt.
Context (Hanti : ∀ a b, cmp b a = CompOpp (cmp a b)) (Htrans : ∀ a b c, at_most a b → at_most b c → at_most a c).
Fixpoint pop_max (q : list (K * V)) : option (K * V * list (K * V)) :=
  match q with
  | [] => None
  | (k, v) :: q =>
      match pop_max q with
      | Some (k', v', q') => match cmp k k' with Lt => Some (k', v', (k, v) :: q') | _ => Some (k, v, (k', v') :: q') end
      | None => Some (k, v, [])
      end
  end.
Definition heap_by : heap.Api K V := {| heap.pop := pop_max; heap.into_vec := id |}.
Lemma pop_max_spec q : q ≠ [] → ∃ k v q', pop_max q = Some (k, v, q') ∧ q ≡ₚ (k, v) :: q' ∧ Forall (λ x, at_most x.1 k) q.
Proof.
  assert (Hrefl : ∀ a, at_most a a).
  { intros a H. pose proof (Hanti a a) as Ha. by rewrite H in Ha. }
  induction q as [|[k v] q IH]; [done|]. intros _. cbn [pop_max]. destruct q as [|x q].
  { exists k, v, []. split_and!; [done|done|]. repeat constructor. apply Hrefl. }
  destruct IH as (k' & v' & q' & -> & Hp & Hmax); [done|].
  assert (Hle : cmp k k' ≠ Lt → Forall (λ y : K * V, at_most y.1 k) (x :: q)).
  { intros E. eapply Forall_impl; [exact Hmax|]. intros y Hy. eapply Htrans; [exact Hy|]. intros H. rewrite Hanti in H. by destruct (cmp k k'). }
  destruct (cmp k k') eqn:E.
  - exists k, v, ((k', v') :: q'). split_and!; [done|by rewrite Hp|]. constructor; [apply Hrefl|by apply Hle].
  - exists k', v', ((k, v) :: q'). split_and!; [done|rewrite Hp; constructor|]. constructor; [cbn; intros H; by rewrite E in H|done].
  - exists k, v, ((k', v') :: q'). split_and!; [done|by rewrite Hp|]. constructor; [apply Hrefl|by apply Hle].
Qed.
Lemma heap_by_laws : @heap.Laws _ _ at_most heap_by.
Proof. split; [done|apply pop_max_spec|done]. Qed.
End HeapImpl.

(** Commits with a number for an id, parents and a time, as objects. *)
Definition num_id (n : Z) : ObjectId := Sha1 (replicate 20 n).
Definition commit_object (parents : list Z) (t : Z) : bytes :=
  match impl_write_to (mkCommit (empty_tree KSha1) (num_id <$> parents) sample_signature
                         (mkSignature (bs "C") (bs "c@d") (mkTime t 0 Plus)) None (bs "m") []) with
  | Ok text => text
  | _ => []
  end.
Fixpoint objects_of (l : list (Z * (list Z * Z))) (id : ObjectId) : res Empty_set (option Data) :=
  match l with
  | [] => Ok None
  | (n, (ps, t)) :: l =>
      if bool_decide (num_id n = id) then Ok (Some (mkData Entry.KCommit (commit_object ps t))) else objects_of l id
  end.
