(* ===== verification/MergeBase.v ===== *)
(** * Merge bases: [gix-revision/src/merge_base.rs]

    The commits that the histories of one commit and of others share, without
    those that are in the history of another one.  Histories are painted with
    flags, from the most recent commit to the oldest, in the graph of
    [gix-revwalk]. *)

From S2P Require Import Prelude Slices External Winnow Hash PackEntry Btoi Actor ObjectParse CommitObject ObjectFind RevGraph.
From S2P Require GraphFiles.

(** ** Flags *)

Definition COMMIT1 : Z := 1.
Definition COMMIT2 : Z := 2.
Definition STALE : Z := 4.
Definition RESULT : Z := 8.
(** [contains] and [remove] of [bitflags]. *)
Definition contains (flags other : Z) : bool := Z.land flags other =? other.
Definition remove (flags other : Z) : Z := Z.ldiff flags other.

(** ** [GenThenTime] *)

Record GenThenTime := mkGenThenTime { gt_generation : Z; gt_time : Z }.
Definition gen_then_time {T} (commit : GCommit T) : GenThenTime :=
  mkGenThenTime (default GraphFiles.GENERATION_NUMBER_INFINITY (g_generation commit)) (g_time commit).
Definition gtt_cmp (a b : GenThenTime) : comparison :=
  ord_then (gt_generation a ?= gt_generation b) (gt_time a ?= gt_time b).
Definition gtt_le (a b : GenThenTime) : Prop := gtt_cmp a b ≠ Gt.

Section MergeBase.
Context `{BA : !bstr.Api} `{WA : !winnow.Api} `{FA : !faster_hex.Api} `{HA : !heap.Api GenThenTime ObjectId}.
Context {Fe : Type} (try_find : ObjectId → res Fe (option Data)) (cache : option GraphFiles.Graph).
Abbreviation Map := (gmap ObjectId (GCommit Z)) (only parsing).
Abbreviation Queue := (list (GenThenTime * ObjectId)) (only parsing).
(** [merge_base::Error]. *)
Abbreviation Error := (GetOrInsertError Fe) (only parsing).
Definition visit {St} (map : Map) (id : ObjectId) (update : GCommit Z → St → GCommit Z * St) (st : St)
  : res Error (option (GCommit Z) * Map * St) := get_or_insert_full_commit try_find cache 0 map id update st.

(** ** [paint_down_to_common] *)

(** The tips of the histories. *)
Definition paint_tip (flag : Z) (id : ObjectId) (map : Map) (queue : Queue) : res Error (Map * Queue) :=
  '(_, map, queue) ← visit map id
    (λ commit queue,
       let commit := set_data (λ d, Z.lor d flag) commit in
       (commit, queue_insert (gen_then_time commit) id queue)) queue;
  Ok (map, queue).
Fixpoint paint_others (others : list ObjectId) (map : Map) (queue : Queue) : res Error (Map * Queue) :=
  match others with
  | [] => Ok (map, queue)
  | other :: others => '(map, queue) ← paint_tip COMMIT2 other map queue; paint_others others map queue
  end.
Definition paint_parent (flags : Z) (parent_id : ObjectId) (map : Map) (queue : Queue) : res Error (Map * Queue) :=
  '(_, map, queue) ← visit map parent_id
    (λ parent queue,
       if negb (Z.land (g_data parent) flags =? flags) then
         let parent := set_data (λ d, Z.lor d flags) parent in
         (parent, queue_insert (gen_then_time parent) parent_id queue)
       else (parent, queue)) queue;
  Ok (map, queue).
Fixpoint paint_parents (flags : Z) (parents : list ObjectId) (map : Map) (queue : Queue) : res Error (Map * Queue) :=
  match parents with
  | [] => Ok (map, queue)
  | parent_id :: parents => '(map, queue) ← paint_parent flags parent_id map queue; paint_parents flags parents map queue
  end.
Definition has_non_stale (map : Map) (queue : Queue) : bool :=
  existsb (λ '(_, id), match map !! id with Some commit => negb (contains (g_data commit) STALE) | None => false end) queue.
(** The loop; it runs out of [fuel] with a panic. *)
Fixpoint paint_loop (fuel : nat) (map : Map) (queue : Queue) (out : list (ObjectId * GenThenTime))
  : res Error (Map * list (ObjectId * GenThenTime)) :=
  if has_non_stale map queue then
    match fuel with
    | O => Panic
    | S fuel =>
        '(info, commit_id, queue) ← expect (heap.pop queue);
        commit ← expect (map !! commit_id);
        let flags_without_result := Z.land (g_data commit) (Z.lor (Z.lor COMMIT1 COMMIT2) STALE) in
        let '(map, out, flags_without_result) :=
          if flags_without_result =? Z.lor COMMIT1 COMMIT2 then
            let '(map, out) :=
              if negb (contains (g_data commit) RESULT)
              then (<[commit_id := set_data (λ d, Z.lor d RESULT) commit]> map, out ++ [(commit_id, info)])
              else (map, out) in
            (map, out, Z.lor flags_without_result STALE)
          else (map, out, flags_without_result) in
        '(map, queue) ← paint_parents flags_without_result (g_parents commit) map queue;
        paint_loop fuel map queue out
    end
  else Ok (map, out).
Definition paint_down_to_common (fuel : nat) (first : ObjectId) (others : list ObjectId) (map : Map)
  : res Error (Map * list (ObjectId * GenThenTime)) :=
  '(map, queue) ← paint_tip COMMIT1 first map [];
  '(map, queue) ← paint_others others map queue;
  paint_loop fuel map queue [].

(** ** [remove_redundant] *)

Abbreviation Walk := (list (ObjectId * GenThenTime)) (only parsing).
(** Sets a flag of a commit that is in the map. *)
Definition update_flags (f : Z → Z) (id : ObjectId) (map : Map) : res Error Map :=
  commit ← expect (map !! id); Ok (<[id := set_data f commit]> map).
(** Marks a parent that is not marked yet, and pushes it. *)
Definition mark_stale (parent_id : ObjectId) (map : Map) (walk : Walk) : res Error (bool * Map * Walk) :=
  '(commit, map, walk) ← visit map parent_id
    (λ parent walk,
       if negb (contains (g_data parent) STALE)
       then (set_data (λ d, Z.lor d STALE) parent, (parent_id, gen_then_time parent) :: walk)
       else (parent, walk)) walk;
  Ok (match commit with Some _ => true | None => false end, map, walk).
Fixpoint mark_parents (parents : list ObjectId) (map : Map) (walk : Walk) : res Error (Map * Walk) :=
  match parents with
  | [] => Ok (map, walk)
  | parent_id :: parents => '(_, map, walk) ← mark_stale parent_id map walk; mark_parents parents map walk
  end.
Fixpoint mark_commits (commits : Walk) (map : Map) (walk : Walk) : res Error (Map * Walk) :=
  match commits with
  | [] => Ok (map, walk)
  | (id, _) :: commits =>
      commit ← expect (map !! id);
      let map := <[id := set_data (λ d, Z.lor d RESULT) commit]> map in
      '(map, walk) ← mark_parents (g_parents commit) map walk;
      mark_commits commits map walk
  end.
Fixpoint unmark (walk : Walk) (map : Map) : res Error Map :=
  match walk with
  | [] => Ok map
  | (id, _) :: walk => map ← update_flags (λ d, remove d STALE) id map; unmark walk map
  end.
(** The first parent that exists is marked, and the loop over parents ends. *)
Fixpoint push_parent (parents : list ObjectId) (map : Map) (stack : Walk) : res Error (Map * Walk) :=
  match parents with
  | [] => Ok (map, stack)
  | parent_id :: parents =>
      '(found, map, stack) ← mark_stale parent_id map stack;
      if (found : bool) then Ok (map, stack) else push_parent parents map stack
  end.

Section Walk.
Context (sorted_commits : Walk).
(** The position of the first commit that is not stale, from one on. *)
Fixpoint advance (fuel min_gen_pos : nat) (map : Map) : res Error nat :=
  if (min_gen_pos <? length sorted_commits - 1)%nat then
    '(id, _) ← expect (sorted_commits !! min_gen_pos);
    commit ← expect (map !! id);
    if contains (g_data commit) STALE
    then match fuel with O => Panic | S fuel => advance fuel (S min_gen_pos) map end
    else Ok min_gen_pos
  else Ok min_gen_pos.
Record WalkState := mkWalk { w_map : Map; w_count : Z; w_min_gen_pos : nat; w_min_gen : Z }.
(** The loop over the stack, whose top is its head. *)
Fixpoint stack_loop (fuel : nat) (st : WalkState) (stack : Walk) : res Error WalkState :=
  match stack with
  | [] => Ok st
  | (commit_id, commit_info) :: below =>
      match fuel with
      | O => Panic
      | S fuel =>
          commit ← expect (w_map st !! commit_id);
          let is_result := contains (g_data commit) RESULT in
          let map := if is_result then <[commit_id := set_data (λ d, remove d RESULT) commit]> (w_map st) else w_map st in
          let count := if is_result then w_count st - 1 else w_count st in
          if is_result && (count <=? 1) then Ok (mkWalk map count (w_min_gen_pos st) (w_min_gen st))
          else
            '(min_id, _) ← expect (sorted_commits !! w_min_gen_pos st);
            '(min_gen_pos, min_gen) ←
              (if is_result && bool_decide (commit_id = min_id) then
                 pos ← advance (length sorted_commits) (w_min_gen_pos st) map;
                 '(_, info) ← expect (sorted_commits !! pos);
                 Ok (pos, gt_generation info)
               else Ok (w_min_gen_pos st, w_min_gen st));
            if gt_generation commit_info <? min_gen then stack_loop fuel (mkWalk map count min_gen_pos min_gen) below
            else
              '(map, stack') ← push_parent (g_parents commit) map stack;
              let stack' := if (length stack' =? length stack)%nat then below else stack' in
              stack_loop fuel (mkWalk map count min_gen_pos min_gen) stack'
      end
  end.
(** The loop over where to start, from the last one. *)
Fixpoint walk_loop (fuel : nat) (walk_start : Walk) (st : WalkState) : res Error WalkState :=
  match walk_start with
  | [] => Ok st
  | (commit_id, commit_info) :: walk_start =>
      if 1 <? w_count st then
        map ← update_flags (λ d, Z.lor d STALE) commit_id (w_map st);
        st ← stack_loop fuel (mkWalk map (w_count st) (w_min_gen_pos st) (w_min_gen st)) [(commit_id, commit_info)];
        walk_loop fuel walk_start st
      else Ok st
  end.
End Walk.
Definition id_cmp (a b : ObjectId * GenThenTime) : comparison := bytes_cmp (as_slice a.1) (as_slice b.1).
Definition remove_redundant (fuel : nat) (commits : Walk) (map : Map) : res Error (Map * list ObjectId) :=
  if bool_decide (commits = []) then Ok (map, [])
  else
    let map := clear_commit_data (λ _, 0) map in
    let sorted_commits := sort_by (λ a b, gtt_cmp a.2 b.2) commits in
    '(_, info) ← expect (sorted_commits !! 0%nat);
    '(map, walk_start) ← mark_commits commits map [];
    let walk_start := sort_by id_cmp (reverse walk_start) in
    map ← unmark walk_start map;
    st ← walk_loop sorted_commits fuel (reverse walk_start) (mkWalk map (Z.of_nat (length commits)) 0 (gt_generation info));
    Ok (w_map st,
        omap (λ '(id, _), match w_map st !! id with
                          | Some commit => if negb (contains (g_data commit) STALE) then Some id else None
                          | None => None
                          end) commits).

Definition merge_base (fuel : nat) (first : ObjectId) (others : list ObjectId) (map : Map)
  : res Error (option (list ObjectId) * Map) :=
  if bool_decide (others = []) || bool_decide (first ∈ others) then Ok (Some [first], map)
  else
    let map := clear_commit_data (λ _, 0) map in
    '(map, bases) ← paint_down_to_common fuel first others map;
    '(map, bases) ← remove_redundant fuel bases map;
    Ok (if bool_decide (bases = []) then None else Some bases, map).
End MergeBase.

(** ** The repository behind the graph *)

Definition with_data (d : Z) (c : GCommit unit) : GCommit Z := mkGCommit (g_parents c) (g_time c) (g_generation c) d.
Abbreviation Map := (gmap ObjectId (GCommit Z)) (only parsing).
Abbreviation Queue := (list (GenThenTime * ObjectId)) (only parsing).

(** The flags of a commit; none if it was not seen. *)
Definition flags_of (map : Map) (id : ObjectId) : Z := match map !! id with Some c => g_data c | None => 0 end.

Section Repository.
Context (repo : gmap ObjectId (GCommit unit)).

(** An edge to a parent that exists, and histories. *)
Definition edge (x y : ObjectId) : Prop := ∃ c, repo !! x = Some c ∧ y ∈ g_parents c ∧ is_Some (repo !! y).
Definition reach : ObjectId → ObjectId → Prop := rtc edge.
(** What the map holds is what the repository holds, with flags. *)
Definition consistent (map : Map) : Prop :=
  ∀ id c, map !! id = Some c → ∃ i, repo !! id = Some i ∧ c = with_data (g_data c) i ∧ 0 ≤ g_data c < 16.
Lemma consistent_flags map id : consistent map → 0 ≤ flags_of map id < 16.
Proof. intros Hm. unfold flags_of. destruct (map !! id) as [c|] eqn:E; [|lia]. by destruct (Hm _ _ E) as (_ & _ & _ & ?). Qed.
Lemma consistent_insert map id i d : consistent map → repo !! id = Some i → 0 ≤ d < 16 → consistent (<[id := with_data d i]> map).
Proof.
  intros Hm Hi Hd x c. destruct (decide (x = id)) as [->|Hx].
  - rewrite lookup_insert_eq. intros [= <-]. by exists i.
  - rewrite lookup_insert_ne by done. apply Hm.
Qed.
Lemma flags_insert map id i d x : flags_of (<[id := with_data d i]> map) x = if decide (x = id) then d else flags_of map x.
Proof. unfold flags_of. case_decide as E; [subst; by rewrite lookup_insert_eq|by rewrite lookup_insert_ne]. Qed.
Lemma clear_consistent map : consistent map → consistent (clear_commit_data (λ _, 0) map) ∧ ∀ id, flags_of (clear_commit_data (λ _, 0) map) id = 0.
Proof.
  intros Hm. unfold clear_commit_data, flags_of. split.
  - intros id c. rewrite lookup_fmap. destruct (map !! id) as [c'|] eqn:E; [|done]. intros [= <-]. destruct (Hm _ _ E) as (i & Hi & Hc & _).
    exists i. split_and!; [done| |cbn; lia|cbn; lia]. rewrite Hc. done.
  - intros id. rewrite lookup_fmap. by destruct (map !! id).
Qed.

(** *** Bits: what holds for all flags *)

Definition all_flags (P : Z → Z → bool) : bool := forallb (λ d, forallb (P d) (Z.of_nat <$> seq 0 16)) (Z.of_nat <$> seq 0 16).
Lemma all_flags_spec P d f : all_flags P = true → 0 ≤ d < 16 → 0 ≤ f < 16 → P d f = true.
Proof.
  intros H Hd Hf. unfold all_flags in H. assert (Hin : ∀ n, 0 ≤ n < 16 → In n (Z.of_nat <$> seq 0 16)).
  { intros n Hn. apply list_elem_of_In, list_elem_of_fmap. exists (Z.to_nat n). rewrite elem_of_seq. lia. }
  rewrite forallb_forall in H. specialize (H d (Hin d Hd)). rewrite forallb_forall in H. exact (H f (Hin f Hf)).
Qed.
(** The number of the flags that are painted. *)
Definition painted (d : Z) : nat := (if Z.testbit d 0 then 1 else 0) + (if Z.testbit d 1 then 1 else 0) + (if Z.testbit d 2 then 1 else 0).
Lemma lor_flags d f : 0 ≤ d < 16 → 0 ≤ f < 16 → 0 ≤ Z.lor d f < 16 ∧ Z.land (Z.lor d f) f = f ∧ (painted d ≤ painted (Z.lor d f) ≤ 3)%nat ∧
  (f < 8 → Z.land d f ≠ f → (painted d < painted (Z.lor d f))%nat) ∧ (Z.land d f = f → Z.lor d f = d).
Proof.
  intros Hd Hf.
  pose proof (all_flags_spec (λ d f, (0 <=? Z.lor d f) && (Z.lor d f <? 16) && (Z.land (Z.lor d f) f =? f) &&
    (painted d <=? painted (Z.lor d f))%nat && (painted (Z.lor d f) <=? 3)%nat &&
    (negb (f <? 8) || (Z.land d f =? f) || (painted d <? painted (Z.lor d f))%nat) && (negb (Z.land d f =? f) || (Z.lor d f =? d))) d f
    ltac:(by vm_compute) Hd Hf) as H. cbv beta in H.
  repeat (apply andb_true_iff in H as [H ?]). repeat match goal with H : _ || _ = true |- _ => apply orb_true_iff in H end.
  rewrite ?negb_true_iff, ?Z.leb_le, ?Z.ltb_lt, ?Z.eqb_eq, ?Nat.leb_le, ?Nat.ltb_lt, ?Z.ltb_ge, ?Z.eqb_neq in *. split_and!; try lia.
Qed.
Definition bit (d k : Z) : bool := Z.testbit d k.
Lemma contains_bit d k : 0 ≤ k → contains d (2 ^ k) = bit d k.
Proof.
  intros Hk. unfold contains, bit. apply Bool.eq_iff_eq_true. rewrite Z.eqb_eq. split.
  - intros H. apply (f_equal (λ x, Z.testbit x k)) in H. rewrite Z.land_spec, Z.pow2_bits_true, andb_true_r in H by done. done.
  - intros H. apply Z.bits_inj'. intros n Hn. rewrite Z.land_spec. destruct (decide (n = k)) as [->|Hne].
    + by rewrite H.
    + by rewrite Z.pow2_bits_false, andb_false_r by congruence.
Qed.
Lemma land_bits p f k : Z.land p f = f → bit f k = true → bit p k = true.
Proof. unfold bit. intros H Hf. rewrite <- H, Z.land_spec in Hf. by apply andb_true_iff in Hf as [? _]. Qed.
Lemma lor_bit d f k : bit (Z.lor d f) k = bit d k || bit f k.
Proof. apply Z.lor_spec. Qed.
(** The flags that a commit passes on to its parents. *)
Definition passed_on (d : Z) : Z := let f := Z.land d 7 in if f =? 3 then 7 else f.
Lemma passed_on_bits d : 0 ≤ d < 16 →
  0 ≤ passed_on d < 8 ∧ bit (passed_on d) 0 = bit d 0 ∧ bit (passed_on d) 1 = bit d 1 ∧ bit (passed_on d) 2 = bit d 2 || (bit d 0 && bit d 1).
Proof.
  intros Hd. pose proof (all_flags_spec (λ d _, (0 <=? passed_on d) && (passed_on d <? 8) && Bool.eqb (bit (passed_on d) 0) (bit d 0) &&
    Bool.eqb (bit (passed_on d) 1) (bit d 1) && Bool.eqb (bit (passed_on d) 2) (bit d 2 || (bit d 0 && bit d 1))) d 0 ltac:(by vm_compute) Hd ltac:(lia)) as H.
  cbv beta in H. repeat (apply andb_true_iff in H as [H ?]). rewrite ?Bool.eqb_true_iff, ?Z.leb_le, ?Z.ltb_lt in *. done.
Qed.
Lemma only_both d : 0 ≤ d < 16 → Z.land d 7 = 3 ↔ bit d 0 = true ∧ bit d 1 = true ∧ bit d 2 = false.
Proof.
  intros Hd. pose proof (all_flags_spec (λ d _, Bool.eqb (Z.land d 7 =? 3) (bit d 0 && bit d 1 && negb (bit d 2))) d 0 ltac:(by vm_compute) Hd ltac:(lia)) as H.
  cbv beta in H. apply Bool.eqb_prop in H. rewrite <- Z.eqb_eq, H, !andb_true_iff, negb_true_iff. naive_solver.
Qed.

Lemma small_bit3 f : 0 ≤ f < 8 → bit f 3 = false.
Proof.
  intros Hf. pose proof (all_flags_spec (λ f _, negb (f <? 8) || negb (bit f 3)) f 0 ltac:(by vm_compute) ltac:(lia) ltac:(lia)) as H.
  cbv beta in H. rewrite (proj2 (Z.ltb_lt f 8)) in H by lia. cbn in H. by apply negb_true_iff in H.
Qed.
(** Setting RESULT leaves the other flags. *)
Lemma lor_result d : 0 ≤ d < 16 → 0 ≤ Z.lor d RESULT < 16 ∧ passed_on (Z.lor d RESULT) = passed_on d ∧ painted (Z.lor d RESULT) = painted d ∧
  bit (Z.lor d RESULT) 0 = bit d 0 ∧ bit (Z.lor d RESULT) 1 = bit d 1 ∧ bit (Z.lor d RESULT) 2 = bit d 2 ∧ bit (Z.lor d RESULT) 3 = true.
Proof.
  intros Hd. pose proof (all_flags_spec (λ d _, (0 <=? Z.lor d RESULT) && (Z.lor d RESULT <? 16) && (passed_on (Z.lor d RESULT) =? passed_on d) &&
    (painted (Z.lor d RESULT) =? painted d)%nat && Bool.eqb (bit (Z.lor d RESULT) 0) (bit d 0) && Bool.eqb (bit (Z.lor d RESULT) 1) (bit d 1) &&
    Bool.eqb (bit (Z.lor d RESULT) 2) (bit d 2) && bit (Z.lor d RESULT) 3) d 0 ltac:(by vm_compute) Hd ltac:(lia)) as H.
  cbv beta in H. repeat (apply andb_true_iff in H as [H ?]). rewrite ?Bool.eqb_true_iff, ?Z.leb_le, ?Z.ltb_lt, ?Z.eqb_eq, ?Nat.eqb_eq in *. done.
Qed.
Lemma land_lor_mono p f g : Z.land p g = g → Z.land (Z.lor p f) g = g.
Proof. intros H. rewrite Z.land_lor_distr_l, H. apply Z.bits_inj'. intros n _. rewrite Z.lor_spec, Z.land_spec. by destruct (Z.testbit g n), (Z.testbit f n). Qed.

(** *** Measures over the repository *)

Definition deficit (map : Map) : nat := sum_list_with (λ id, 3 - painted (flags_of map id))%nat (elements (dom repo)).
Lemma sum_list_with_le {A} (f g : A → nat) l : (∀ x, x ∈ l → (f x ≤ g x)%nat) → (sum_list_with f l ≤ sum_list_with g l)%nat.
Proof. induction l as [|x l IH]; intros H; cbn; [done|]. pose proof (H x ltac:(by left)). specialize (IH ltac:(intros y Hy; apply H; by right)). lia. Qed.
Lemma sum_list_with_lt {A} (f g : A → nat) l x : x ∈ l → (∀ x, x ∈ l → (f x ≤ g x)%nat) → (f x < g x)%nat → (sum_list_with f l < sum_list_with g l)%nat.
Proof.
  induction 1 as [x l|x y l Hx IH]; intros H Hlt; cbn.
  - pose proof (sum_list_with_le f g l ltac:(intros z Hz; apply H; by right)). lia.
  - pose proof (H y ltac:(by left)). specialize (IH ltac:(intros z Hz; apply H; by right) Hlt). lia.
Qed.
Lemma deficit_le map map' : (∀ id, (painted (flags_of map id) ≤ painted (flags_of map' id))%nat) → (deficit map' ≤ deficit map)%nat.
Proof. intros H. apply sum_list_with_le. intros x _. specialize (H x). lia. Qed.
Lemma deficit_lt map map' id : is_Some (repo !! id) → (∀ id, (painted (flags_of map id) ≤ painted (flags_of map' id))%nat) →
  (painted (flags_of map id) < painted (flags_of map' id) ≤ 3)%nat → (deficit map' < deficit map)%nat.
Proof.
  intros Hid H Hlt. apply (sum_list_with_lt _ _ _ id); [by apply elem_of_elements, elem_of_dom| |lia]. intros x _. specialize (H x). lia.
Qed.
Lemma deficit_bound map : (deficit map ≤ 3 * size repo)%nat.
Proof.
  unfold deficit. rewrite <- size_dom. unfold size, set_size. cbn. induction (elements (dom repo)) as [|x l IH]; cbn [sum_list_with length]; [done|].
  pose proof (Nat.le_sub_l 3 (painted (flags_of map x))). lia.
Qed.
End Repository.

(** ** Painting *)

Section Painting.
Context `{BA : !bstr.Api} `{WA : !winnow.Api} `{FA : !faster_hex.Api} `{HA : !heap.Api GenThenTime ObjectId} `{HL : !heap.Laws gtt_le}.
Context {Fe : Type} (try_find : ObjectId → res Fe (option Data)) (cache : option GraphFiles.Graph).
Context (repo : gmap ObjectId (GCommit unit)).
(** Looking up commits never fails, and finds what is in the repository. *)
Definition loads : Prop := ∀ id, load try_find cache id 0 = Ok (with_data 0 <$> repo !! id).
Context (Hload : loads).

Lemma visit_missing {St} map id update (st : St) : consistent repo map → repo !! id = None → visit try_find cache map id update st = Ok (None, map, st).
Proof.
  intros Hm Hid. unfold visit, get_or_insert_full_commit. destruct (map !! id) as [c|] eqn:E.
  - destruct (Hm _ _ E) as (i & Hi & _). congruence.
  - by rewrite Hload, Hid.
Qed.
Lemma visit_found {St} map id i update (st : St) : consistent repo map → repo !! id = Some i →
  visit try_find cache map id update st =
    let '(c, st) := update (with_data (flags_of map id) i) st in Ok (Some c, <[id := c]> map, st).
Proof.
  intros Hm Hid. unfold visit, get_or_insert_full_commit, flags_of. destruct (map !! id) as [c|] eqn:E.
  - destruct (Hm _ _ E) as (i' & Hi & -> & _). assert (i' = i) as -> by congruence. done.
  - by rewrite Hload, Hid.
Qed.

Definition key_of (i : GCommit unit) : GenThenTime := gen_then_time i.
Lemma key_with_data d i : gen_then_time (with_data d i) = key_of i.
Proof. done. Qed.
(** Queued items carry the key of their commit, which is in the map. *)
Definition queue_ok (map : Map) (queue : Queue) : Prop :=
  ∀ k id, (k, id) ∈ queue → is_Some (map !! id) ∧ ∃ i, repo !! id = Some i ∧ k = key_of i.
Definition queued (queue : Queue) (id : ObjectId) : Prop := ∃ k, (k, id) ∈ queue.

(** What painting the commits [ps] with the flags [f] does. *)
Record paints (f : Z) (ps : list ObjectId) (map : Map) (queue : Queue) (map' : Map) (queue' : Queue) : Prop := {
  p_consistent : consistent repo map';
  p_kept : ∀ id, is_Some (map !! id) → is_Some (map' !! id);
  p_queue : queue_ok map' queue';
  p_queue_kept : ∀ x, x ∈ queue → x ∈ queue';
  p_painted : ∀ id, id ∈ ps → is_Some (repo !! id) → is_Some (map' !! id) ∧ Z.land (flags_of map' id) f = f;
  p_changed : ∀ id, flags_of map' id = flags_of map id ∧ (is_Some (map' !! id) → is_Some (map !! id) ∨ id ∈ ps) ∨
    (id ∈ ps ∧ is_Some (repo !! id) ∧ flags_of map' id = Z.lor (flags_of map id) f ∧ queued queue' id);
  p_new : ∀ id, map !! id = None → is_Some (map' !! id) → f ≠ 0 → queued queue' id;
  p_measure : (2 * deficit repo map' + length queue' ≤ 2 * deficit repo map + length queue)%nat }.

Lemma paint_parent_paints f p map queue : 0 ≤ f < 8 → consistent repo map → queue_ok map queue →
  ∃ map' queue', paint_parent try_find cache f p map queue = Ok (map', queue') ∧ paints f [p] map queue map' queue'.
Proof.
  intros Hf Hm Hq. unfold paint_parent. destruct (repo !! p) as [i|] eqn:Hp.
  2: { rewrite visit_missing by done. rewrite bind_Ok. cbv beta iota. exists map, queue. split; [done|]. split; auto.
       - intros id Hid%list_elem_of_singleton Hr. subst. by rewrite Hp in Hr; destruct Hr.
       - intros id Hn Hs. rewrite Hn in Hs. by destruct Hs. }
  rewrite (visit_found _ _ i) by done. pose proof (consistent_flags _ _ p Hm) as Hd.
  destruct (lor_flags (flags_of map p) f Hd ltac:(lia)) as (Hr & Hland & Hpc & Hlt & Hid). cbn [g_data with_data].
  destruct (Z.eqb_spec (Z.land (flags_of map p) f) f) as [E|E]; cbn [negb]; cbv beta iota; rewrite bind_Ok; cbv beta iota.
  - exists (<[p := with_data (flags_of map p) i]> map), queue. split; [done|].
    assert (Hfl : ∀ id, flags_of (<[p := with_data (flags_of map p) i]> map) id = flags_of map id).
    { intros id. rewrite flags_insert. case_decide; by subst. }
    split.
    + by apply consistent_insert.
    + intros id. rewrite lookup_insert_is_Some'. auto.
    + intros k id Hin. destruct (Hq _ _ Hin) as [? ?]. split; [|done]. rewrite lookup_insert_is_Some'. auto.
    + auto.
    + intros id ->%list_elem_of_singleton _. split; [rewrite lookup_insert_eq; eauto|]. by rewrite Hfl.
    + intros id. left. split; [apply Hfl|]. rewrite lookup_insert_is_Some'. intros [->|]; [right; by left|by left].
    + intros id Hn Hs Hf0. rewrite lookup_insert_is_Some' in Hs. destruct Hs as [<-|Hs]; [|rewrite Hn in Hs; by destruct Hs].
      unfold flags_of in E. rewrite Hn in E. rewrite Z.land_0_l in E. congruence.
    + pose proof (deficit_le repo map (<[p := with_data (flags_of map p) i]> map)) as Hdef.
      specialize (Hdef ltac:(intros id; by rewrite Hfl)). lia.
  - exists (<[p := with_data (Z.lor (flags_of map p) f) i]> map), ((key_of i, p) :: queue). split; [done|]. split.
    + by apply consistent_insert.
    + intros id. rewrite lookup_insert_is_Some'. auto.
    + intros k id [[= -> ->]|Hin]%elem_of_cons; [split; [rewrite lookup_insert_eq; eauto|eauto]|].
      destruct (Hq _ _ Hin) as [? ?]. split; [|done]. rewrite lookup_insert_is_Some'. auto.
    + intros x Hx. by right.
    + intros id ->%list_elem_of_singleton _. split; [rewrite lookup_insert_eq; eauto|]. rewrite flags_insert. by rewrite decide_True.
    + intros id. rewrite flags_insert. case_decide as Hx; [subst; right|left].
      * split_and!; [by left|eauto|done|]. exists (key_of i). by left.
      * split; [done|]. rewrite lookup_insert_is_Some'. intros [->|]; [done|by left].
    + intros id Hn Hs _. rewrite lookup_insert_is_Some' in Hs. destruct Hs as [<-|Hs]; [|rewrite Hn in Hs; by destruct Hs].
      exists (key_of i). by left.
    + pose proof (deficit_lt repo map (<[p := with_data (Z.lor (flags_of map p) f) i]> map) p ltac:(eauto)) as Hdef.
      cbn [length]. assert (Hlt' := Hlt ltac:(lia) E). specialize (Hdef ltac:(intros id; rewrite flags_insert; case_decide; subst; lia)).
      rewrite flags_insert, decide_True in Hdef by done. specialize (Hdef ltac:(lia)). lia.
Qed.

Lemma queued_mono q q' id : (∀ x, x ∈ q → x ∈ q') → queued q id → queued q' id.
Proof. intros H (k & Hk). exists k. auto. Qed.
Lemma paints_trans f ps1 ps2 m q m1 q1 m2 q2 : 0 ≤ f < 8 → consistent repo m →
  paints f ps1 m q m1 q1 → paints f ps2 m1 q1 m2 q2 → paints f (ps1 ++ ps2) m q m2 q2.
Proof.
  intros Hf Hm H1 H2. pose proof (p_consistent _ _ _ _ _ _ H1) as Hm1. split; try apply H2.
  - intros id Hid. by apply H2, H1.
  - intros x Hx. by apply H2, H1.
  - intros id [Hid|Hid]%elem_of_app Hr; [|by apply H2]. destruct (p_painted _ _ _ _ _ _ H1 id Hid Hr) as [Hs Hl].
    split; [by apply H2|]. destruct (p_changed _ _ _ _ _ _ H2 id) as [[-> _]|(_ & _ & -> & _)]; [done|].
    by apply lor_flags; [apply (consistent_flags repo)|lia].
  - intros id. destruct (p_changed _ _ _ _ _ _ H1 id) as [[E1 Hk1]|(Hin1 & Hr1 & E1 & Hq1)], (p_changed _ _ _ _ _ _ H2 id) as [[E2 Hk2]|(Hin2 & Hr2 & E2 & Hq2)].
    + left. split; [congruence|]. intros Hs. rewrite elem_of_app. destruct (Hk2 Hs) as [Hs1|]; [|by right; right]. destruct (Hk1 Hs1); auto.
    + right. rewrite elem_of_app. split_and!; [by right|done|congruence|done].
    + right. rewrite elem_of_app. split_and!; [by left|done|congruence|]. eapply queued_mono; [apply H2|done].
    + right. rewrite elem_of_app. split_and!; [by left|done| |done]. rewrite E2, E1, <- Z.lor_assoc. by rewrite Z.lor_diag.
  - intros id Hn Hs Hf0. destruct (m1 !! id) as [c|] eqn:E.
    + eapply queued_mono; [apply H2|]. apply (p_new _ _ _ _ _ _ H1); [done|by eexists|done].
    + by apply (p_new _ _ _ _ _ _ H2).
  - pose proof (p_measure _ _ _ _ _ _ H1). pose proof (p_measure _ _ _ _ _ _ H2). lia.
Qed.
Lemma paint_parents_paints f ps map queue : 0 ≤ f < 8 → consistent repo map → queue_ok map queue →
  ∃ map' queue', paint_parents try_find cache f ps map queue = Ok (map', queue') ∧ paints f ps map queue map' queue'.
Proof.
  intros Hf. revert map queue. induction ps as [|p ps IH]; intros map queue Hm Hq.
  - exists map, queue. split; [done|]. split; auto.
    + intros id Hid. by apply elem_of_nil in Hid.
    + intros id Hn Hs. rewrite Hn in Hs. by destruct Hs.
  - destruct (paint_parent_paints f p map queue Hf Hm Hq) as (m1 & q1 & E1 & H1).
    destruct (IH m1 q1 (p_consistent _ _ _ _ _ _ H1) (p_queue _ _ _ _ _ _ H1)) as (m2 & q2 & E2 & H2).
    exists m2, q2. cbn [paint_parents]. rewrite E1, bind_Ok. cbv beta iota. split; [done|]. change (p :: ps) with ([p] ++ ps). by eapply paints_trans.
Qed.

(** *** The invariant of the loop *)

Context (first : ObjectId) (others : list ObjectId).
(** In the history of both: what a merge base is of. *)
Definition from_first (z : ObjectId) : Prop := is_Some (repo !! first) ∧ reach repo first z.
Definition from_others (z : ObjectId) : Prop := ∃ o, o ∈ others ∧ is_Some (repo !! o) ∧ reach repo o z.
Definition common (z : ObjectId) : Prop := from_first z ∧ from_others z.
(** Commits are older than their children. *)
Definition older (a b : ObjectId) : Prop := ∀ i j, repo !! a = Some i → repo !! b = Some j → gtt_cmp (key_of i) (key_of j) = Lt.
Definition dates_decrease : Prop := ∀ x y, edge repo x y → older y x.
Definition best (z : ObjectId) : Prop := common z ∧ ∀ w, common w → reach repo w z → w = z.

Record invariant (map : Map) (queue : Queue) (out : list (ObjectId * GenThenTime)) : Prop := {
  i_consistent : consistent repo map;
  i_queue : queue_ok map queue;
  (** The flags are sound. *)
  i_first : ∀ id, bit (flags_of map id) 0 = true → from_first id;
  i_others : ∀ id, bit (flags_of map id) 1 = true → from_others id;
  i_stale : ∀ id, bit (flags_of map id) 2 = true → common id ∧ ∃ o, o ∈ out.*1 ∧ reach repo o id;
  (** The tips are painted. *)
  i_tip : is_Some (repo !! first) → bit (flags_of map first) 0 = true;
  i_tips : ∀ o, o ∈ others → is_Some (repo !! o) → bit (flags_of map o) 1 = true;
  (** A commit has passed its flags on, unless it is queued. *)
  i_passed : ∀ id i, repo !! id = Some i → is_Some (map !! id) → queued queue id ∨
    ∀ p, p ∈ g_parents i → is_Some (repo !! p) → Z.land (flags_of map p) (passed_on (flags_of map id)) = passed_on (flags_of map id);
  (** A commit with both flags is a result, or stale, unless it is queued. *)
  i_result : ∀ id, bit (flags_of map id) 0 = true → bit (flags_of map id) 1 = true →
    queued queue id ∨ bit (flags_of map id) 2 = true ∨ id ∈ out.*1;
  i_out : ∀ id k, (id, k) ∈ out → common id ∧ is_Some (map !! id) ∧ bit (flags_of map id) 3 = true ∧ ∃ i, repo !! id = Some i ∧ k = key_of i;
  i_only_out : ∀ id, bit (flags_of map id) 3 = true → id ∈ out.*1;
  i_nodup : NoDup out.*1;
  i_best : dates_decrease → ∀ id, id ∈ out.*1 → best id }.

Lemma bit_in_map map id k : bit (flags_of map id) k = true → is_Some (map !! id).
Proof. unfold flags_of, bit. destruct (map !! id); [eauto|]. by rewrite Z.bits_0. Qed.
Lemma in_repo map id : consistent repo map → is_Some (map !! id) → is_Some (repo !! id).
Proof. intros Hm [c Hc]. destruct (Hm _ _ Hc) as (i & Hi & _). eauto. Qed.

(** Flags reach the ancestors along a path of commits that are not queued. *)
Lemma carried map queue out k a z : invariant map queue out → k = 0 ∨ k = 1 ∨ k = 2 → reach repo a z →
  (∀ x, reach repo x z → x ≠ z → ¬ queued queue x) → bit (flags_of map a) k = true → bit (flags_of map z) k = true.
Proof.
  intros Hi Hk Hr Hq. induction Hr as [z|x y z He Hr IH]; [done|]. intros Hx. destruct (decide (x = z)) as [->|Hne]; [done|].
  apply IH; [done|]. destruct He as (c & Hc & Hy & Hs).
  destruct (i_passed _ _ _ Hi x c Hc (bit_in_map _ _ _ Hx)) as [Hbad|Hp]; [by destruct (Hq x); [eapply rtc_l; [exists c|]|..]|].
  eapply land_bits; [by apply Hp|]. destruct (passed_on_bits _ (consistent_flags _ _ x (i_consistent _ _ _ Hi))) as (_ & E0 & E1 & E2).
  destruct Hk as [->|[->| ->]]; [by rewrite E0|by rewrite E1|]. by rewrite E2, Hx.
Qed.

Lemma gtt_cmp_antisym a b : gtt_cmp b a = CompOpp (gtt_cmp a b).
Proof.
  unfold gtt_cmp, ord_then. rewrite (Z.compare_antisym (gt_generation a)), (Z.compare_antisym (gt_time a)).
  by destruct (gt_generation a ?= gt_generation b).
Qed.
Lemma gtt_cmp_trans a b c : gtt_cmp a b = Lt → gtt_cmp b c = Lt → gtt_cmp a c = Lt.
Proof.
  unfold gtt_cmp, ord_then.
  destruct (Z.compare_spec (gt_generation a) (gt_generation b)), (Z.compare_spec (gt_generation b) (gt_generation c)),
    (Z.compare_spec (gt_generation a) (gt_generation c)); try done; try lia; rewrite !Z.compare_lt_iff; lia.
Qed.
Lemma reach_in_repo a z : reach repo a z → is_Some (repo !! a) → is_Some (repo !! z).
Proof. induction 1 as [|x y z (c & _ & _ & Hy) _ IH]; auto. Qed.
Lemma reach_older a z : dates_decrease → reach repo a z → a = z ∨ older z a.
Proof.
  intros Hd. induction 1 as [|x y z He Hr IH]; [by left|]. right. destruct IH as [->|IH]; [by apply Hd|].
  intros i j Hi Hj. destruct He as (c & Hc & Hy & (l & Hl)). eapply gtt_cmp_trans; [by apply IH|].
  apply (Hd x y); [|done..]. exists c. eauto.
Qed.
(** With decreasing dates, the most recent queued commit that has exactly both
    flags is not in the history of another common commit. *)
Lemma popped_best map queue out k id : invariant map queue out → dates_decrease → (k, id) ∈ queue →
  (∀ x, x ∈ queue → gtt_le x.1 k) → Z.land (flags_of map id) 7 = 3 → best id.
Proof.
  intros Hi Hd Hin Hmax Hf. apply only_both in Hf as (H0 & H1 & H2); [|apply (consistent_flags repo), Hi].
  split; [split; [by apply (i_first _ _ _ Hi)|by apply (i_others _ _ _ Hi)]|].
  intros w Hw Hr. destruct (decide (w = id)) as [|Hne]; [done|exfalso].
  destruct (i_queue _ _ _ Hi _ _ Hin) as (_ & i & Hid & ->).
  assert (Hq : ∀ x, reach repo x id → x ≠ id → ¬ queued queue x).
  { intros x Hx Hxne (kx & Hkx). destruct (i_queue _ _ _ Hi _ _ Hkx) as (_ & j & Hj & ->). specialize (Hmax _ Hkx). cbn in Hmax.
    destruct (reach_older x id Hd Hx) as [->|Ho]; [done|]. specialize (Ho _ _ Hid Hj). apply Hmax. rewrite gtt_cmp_antisym, Ho. done. }
  assert (Hqw : ∀ x, reach repo x w → ¬ queued queue x).
  { intros x Hx. apply Hq; [by etrans|]. intros ->. destruct (reach_older id w Hd Hx) as [->|Ho1]; [done|].
    destruct (reach_older w id Hd Hr) as [->|Ho2]; [done|]. destruct (reach_in_repo _ _ Hx (ex_intro _ _ Hid)) as [j Hj].
    specialize (Ho1 _ _ Hj Hid). specialize (Ho2 _ _ Hid Hj). rewrite gtt_cmp_antisym, Ho2 in Ho1. done. }
  destruct Hw as [[Hs1 Hr1] (o & Ho & Hs2 & Hr2)].
  assert (Hw0 : bit (flags_of map w) 0 = true) by (eapply (carried _ _ _ 0 first); eauto using i_tip).
  assert (Hw1 : bit (flags_of map w) 1 = true) by (eapply (carried _ _ _ 1 o); eauto using i_tips).
  assert (Hw2 : bit (passed_on (flags_of map w)) 2 = true).
  { destruct (passed_on_bits _ (consistent_flags _ _ w (i_consistent _ _ _ Hi))) as (_ & _ & _ & ->). by rewrite Hw0, Hw1, orb_true_r. }
  inversion Hr as [|? y ? (c & Hc & Hy & Hs) Hr']; [done|subst].
  destruct (i_passed _ _ _ Hi w c Hc (bit_in_map _ _ _ Hw0)) as [Hbad|Hp]; [by apply (Hqw w) in Hbad|].
  assert (Hy2 : bit (flags_of map y) 2 = true) by (eapply land_bits; [by apply Hp|done]).
  assert (bit (flags_of map id) 2 = true) by (eapply (carried _ _ _ 2 y); eauto). congruence.
Qed.

(** *** One round of the loop *)

Section Step.
Context (map : Map) (queue : Queue) (out : list (ObjectId * GenThenTime)) (Hinv : invariant map queue out).
Context (info : GenThenTime) (id : ObjectId) (queue1 : Queue) (Hperm : queue ≡ₚ (info, id) :: queue1) (Hmax : ∀ x, x ∈ queue → gtt_le x.1 info).
Context (i : GCommit unit) (Hid : repo !! id = Some i).
Abbreviation d := (flags_of map id).
(** The commit is a result, and a new one. *)
Definition is_result_now : bool := Z.land d 7 =? 3.
Definition pushed : bool := is_result_now && negb (contains d RESULT).
Definition map1 : Map := if pushed then <[id := with_data (Z.lor d RESULT) i]> map else map.
Definition out1 : list (ObjectId * GenThenTime) := if pushed then out ++ [(id, info)] else out.

Lemma d_range : 0 ≤ d < 16.
Proof. apply (consistent_flags repo), Hinv. Qed.
Lemma flags1 x : flags_of map1 x = if pushed then (if decide (x = id) then Z.lor d RESULT else flags_of map x) else flags_of map x.
Proof. unfold map1. destruct pushed; [|done]. by rewrite flags_insert. Qed.
Lemma flags1_same x : passed_on (flags_of map1 x) = passed_on (flags_of map x) ∧ painted (flags_of map1 x) = painted (flags_of map x) ∧
  (∀ k, k = 0 ∨ k = 1 ∨ k = 2 → bit (flags_of map1 x) k = bit (flags_of map x) k).
Proof.
  rewrite flags1. destruct pushed; [|done]. case_decide as E; [|done]. subst x. destruct (lor_result d d_range) as (_ & ? & ? & ? & ? & ? & _).
  split_and!; [done|done|]. intros k [->|[->| ->]]; done.
Qed.
Lemma map1_in x : is_Some (map1 !! x) ↔ is_Some (map !! x).
Proof.
  unfold map1. destruct pushed; [|done]. rewrite lookup_insert_is_Some'. split; [|auto]. intros [<-|]; [|done].
  apply (i_queue _ _ _ Hinv info). rewrite Hperm. by left.
Qed.
Lemma map1_consistent : consistent repo map1.
Proof. unfold map1. destruct pushed; [|apply Hinv]. apply consistent_insert; [apply Hinv|done|]. apply lor_result, d_range. Qed.
Lemma queue1_in x : x ∈ queue1 → x ∈ queue.
Proof. intros H. rewrite Hperm. by right. Qed.
Lemma queue1_ok : queue_ok map1 queue1.
Proof. intros k x Hx. rewrite map1_in. by apply (i_queue _ _ _ Hinv), queue1_in. Qed.
Lemma queued_other x : queued queue x → x ≠ id → queued queue1 x.
Proof. intros (k & Hk) Hne. rewrite Hperm in Hk. apply elem_of_cons in Hk as [[= -> ->]|Hk]; [done|by exists k]. Qed.
Lemma out1_in x : x ∈ out1.*1 ↔ x ∈ out.*1 ∨ pushed = true ∧ x = id.
Proof.
  unfold out1. destruct pushed; [|naive_solver]. rewrite fmap_app, elem_of_app. cbn. rewrite list_elem_of_singleton. naive_solver.
Qed.
Lemma both_out1 : is_result_now = true → id ∈ out1.*1.
Proof.
  intros H. rewrite out1_in. unfold pushed. rewrite H. change RESULT with (2 ^ 3). rewrite contains_bit by lia.
  destruct (bit d 3) eqn:E; [left; by apply (i_only_out _ _ _ Hinv)|by right].
Qed.
(** Both flags: the commit is common and covered by a result. *)
Lemma both_covered : bit d 0 = true → bit d 1 = true → common id ∧ ∃ o, o ∈ out1.*1 ∧ reach repo o id.
Proof.
  intros H0 H1. split; [split; [by apply (i_first _ _ _ Hinv)|by apply (i_others _ _ _ Hinv)]|]. destruct (bit d 2) eqn:E.
  - destruct (i_stale _ _ _ Hinv _ E) as (_ & o & Ho & Hr). exists o. rewrite out1_in. auto.
  - exists id. split; [|apply rtc_refl]. apply both_out1. unfold is_result_now. apply Z.eqb_eq. by apply only_both; [apply d_range|].
Qed.
Lemma edge_to p : p ∈ g_parents i → is_Some (repo !! p) → edge repo id p.
Proof. intros Hp Hs. exists i. auto. Qed.
Lemma from_first_edge x y : edge repo x y → from_first x → from_first y.
Proof. intros He [Hs Hr]. split; [done|]. by eapply rtc_r. Qed.
Lemma from_others_edge x y : edge repo x y → from_others x → from_others y.
Proof. intros He (o & Ho & Hs & Hr). exists o. split_and!; [done..|]. by eapply rtc_r. Qed.

Context (map2 : Map) (queue2 : Queue) (Hp : paints (passed_on d) (g_parents i) map1 queue1 map2 queue2).
Lemma flags2 x : flags_of map2 x = flags_of map1 x ∧ (is_Some (map2 !! x) → is_Some (map !! x) ∨ x ∈ g_parents i) ∨
  (edge repo id x ∧ flags_of map2 x = Z.lor (flags_of map1 x) (passed_on d) ∧ queued queue2 x).
Proof.
  destruct (p_changed _ _ _ _ _ _ Hp x) as [[E H]|(Hin & Hs & E & Hq)]; [left|right].
  - split; [done|]. rewrite <- map1_in. done.
  - split; [by apply edge_to|done].
Qed.
(** A flag of the new map was there, or was passed on. *)
Lemma bit2 x k : k = 0 ∨ k = 1 ∨ k = 2 → bit (flags_of map2 x) k = true → bit (flags_of map x) k = true ∨ edge repo id x ∧ bit (passed_on d) k = true.
Proof.
  intros Hk H. destruct (flags1_same x) as (_ & _ & Hb). destruct (flags2 x) as [[E _]|(He & E & _)]; rewrite E in H.
  - left. by rewrite <- Hb.
  - rewrite lor_bit, orb_true_iff, Hb in H by done. destruct H; auto.
Qed.
Lemma bit2_mono x k : bit (flags_of map1 x) k = true → bit (flags_of map2 x) k = true.
Proof. intros H. destruct (flags2 x) as [[-> _]|(_ & -> & _)]; [done|]. by rewrite lor_bit, H. Qed.
Lemma land2_mono x g : Z.land (flags_of map1 x) g = g → Z.land (flags_of map2 x) g = g.
Proof. intros H. destruct (flags2 x) as [[-> _]|(_ & -> & _)]; [done|]. by apply land_lor_mono. Qed.
Lemma queued2 x : queued queue x → x ≠ id → queued queue2 x.
Proof. intros H Hne. eapply queued_mono; [apply Hp|]. by apply queued_other. Qed.

Lemma step_passed x j : repo !! x = Some j → is_Some (map2 !! x) → queued queue2 x ∨
  ∀ p, p ∈ g_parents j → is_Some (repo !! p) → Z.land (flags_of map2 p) (passed_on (flags_of map2 x)) = passed_on (flags_of map2 x).
Proof.
  intros Hj Hx. destruct (flags2 x) as [[E Hin]|(_ & _ & Hq)]; [|by left]. rewrite E. destruct (flags1_same x) as (-> & _ & _).
  destruct (decide (x = id)) as [->|Hne].
  - right. assert (j = i) as -> by congruence. intros p Hpi Hs. by apply (p_painted _ _ _ _ _ _ Hp).
  - destruct (decide (is_Some (map !! x))) as [Hxm|Hxm].
    + destruct (i_passed _ _ _ Hinv x j Hj Hxm) as [Hq|Hpass]; [left; by apply queued2|right]. intros p Hpi Hs. apply land2_mono.
      specialize (Hpass p Hpi Hs). rewrite flags1. destruct pushed; [|done]. case_decide; [subst p|done]. by apply land_lor_mono.
    + destruct (decide (passed_on d = 0)) as [H0|H0].
      * right. intros p _ _. assert (flags_of map x = 0) as ->; [|by rewrite Z.land_0_r].
        unfold flags_of. destruct (map !! x) eqn:Em; [|done]. by destruct Hxm.
      * left. apply (p_new _ _ _ _ _ _ Hp); [|done|done]. apply eq_None_not_Some. by rewrite map1_in.
Qed.
Lemma step_result x : bit (flags_of map2 x) 0 = true → bit (flags_of map2 x) 1 = true →
  queued queue2 x ∨ bit (flags_of map2 x) 2 = true ∨ x ∈ out1.*1.
Proof.
  intros H0 H1. destruct (flags2 x) as [[E _]|(_ & _ & Hq)]; [|by left]. rewrite E in *. destruct (flags1_same x) as (_ & _ & Hb).
  rewrite !Hb in * by auto. destruct (decide (x = id)) as [->|Hne].
  - right. destruct (bit d 2) eqn:E2; [by left|right]. apply both_out1. apply Z.eqb_eq. by apply only_both; [apply d_range|].
  - destruct (i_result _ _ _ Hinv x H0 H1) as [Hq|[H2|Ho]]; [left; by apply queued2|right; by left|right; right; apply out1_in; auto].
Qed.
Lemma step_out x k : (x, k) ∈ out1 → common x ∧ is_Some (map2 !! x) ∧ bit (flags_of map2 x) 3 = true ∧ ∃ j, repo !! x = Some j ∧ k = key_of j.
Proof.
  unfold out1. destruct pushed eqn:Epu; [rewrite elem_of_app, list_elem_of_singleton|]; intros Hx.
  - assert (Hr3 : bit (flags_of map1 x) 3 = true → bit (flags_of map2 x) 3 = true) by apply bit2_mono.
    rewrite flags1, Epu in Hr3. destruct Hx as [Hx|Hx]; [|injection Hx as Hx Hk; rewrite Hx, Hk in *].
    + destruct (i_out _ _ _ Hinv _ _ Hx) as (Hc & Hs & H3 & Hk). split_and!; [done|apply Hp; by rewrite map1_in| |done].
      apply Hr3. case_decide; [subst x|done]. by destruct (lor_result d d_range) as (_ & _ & _ & _ & _ & _ & ?).
    + rewrite decide_True in Hr3 by done. destruct (lor_result d d_range) as (_ & _ & _ & _ & _ & _ & H3).
      assert (Hin : (info, id) ∈ queue) by (rewrite Hperm; by left). destruct (i_queue _ _ _ Hinv _ _ Hin) as (Hs & j & Hj & Hkey).
      split_and!; [|apply Hp; by rewrite map1_in|by apply Hr3|by exists j]. unfold pushed in Epu. apply andb_true_iff in Epu as [Epu _].
      apply Z.eqb_eq, only_both in Epu as (H0 & H1 & _); [|apply d_range]. by apply both_covered.
  - destruct (i_out _ _ _ Hinv _ _ Hx) as (Hc & Hs & H3 & Hk). split_and!; [done|apply Hp; by rewrite map1_in| |done].
    apply bit2_mono. by rewrite flags1, Epu.
Qed.
Lemma step_only_out x : bit (flags_of map2 x) 3 = true → x ∈ out1.*1.
Proof.
  intros H. assert (H1 : bit (flags_of map1 x) 3 = true).
  { destruct (flags2 x) as [[E _]|(_ & E & _)]; rewrite E in H; [done|]. rewrite lor_bit, (small_bit3 (passed_on d)), orb_false_r in H; [done|].
    apply passed_on_bits, d_range. }
  rewrite out1_in. rewrite flags1 in H1. destruct pushed; [|left; by apply (i_only_out _ _ _ Hinv)].
  case_decide; [by right|left; by apply (i_only_out _ _ _ Hinv)].
Qed.
Lemma step_nodup : NoDup out1.*1.
Proof.
  unfold out1. destruct pushed eqn:E; [|apply Hinv]. rewrite fmap_app. apply NoDup_app. split_and!; [apply Hinv| |apply NoDup_singleton].
  intros x Hx Hx'%list_elem_of_singleton. cbn in Hx'. rewrite Hx' in Hx. apply list_elem_of_fmap in Hx as ([y k] & Hy & Hx). cbn in Hy.
  destruct (i_out _ _ _ Hinv _ _ Hx) as (_ & _ & H3 & _). unfold pushed in E. apply andb_true_iff in E as [_ E].
  change RESULT with (2 ^ 3) in E. rewrite contains_bit in E by lia. rewrite <- Hy in H3. by rewrite H3 in E.
Qed.
Lemma step_invariant : invariant map2 queue2 out1.
Proof.
  destruct (passed_on_bits d d_range) as (_ & Hf0 & Hf1 & Hf2). split; try apply Hp.
  - intros x H. apply bit2 in H as [H|[He H]]; [by apply (i_first _ _ _ Hinv)| |auto]. rewrite Hf0 in H.
    eapply from_first_edge; [exact He|]. by apply (i_first _ _ _ Hinv).
  - intros x H. apply bit2 in H as [H|[He H]]; [by apply (i_others _ _ _ Hinv)| |auto]. rewrite Hf1 in H.
    eapply from_others_edge; [exact He|]. by apply (i_others _ _ _ Hinv).
  - intros x H. apply bit2 in H as [H|[He H]]; [| |auto].
    + destruct (i_stale _ _ _ Hinv _ H) as (Hc & o & Ho & Hr). split; [done|]. exists o. rewrite out1_in. auto.
    + assert (Hcov : common id ∧ ∃ o, o ∈ out1.*1 ∧ reach repo o id).
      { rewrite Hf2 in H. apply orb_true_iff in H as [H|H].
        - destruct (i_stale _ _ _ Hinv _ H) as (Hc & o & Ho & Hr). split; [done|]. exists o. rewrite out1_in. auto.
        - apply andb_true_iff in H as [? ?]. by apply both_covered. }
      destruct Hcov as ([Hc1 Hc2] & o & Ho & Hr). split; [split; [by eapply from_first_edge|by eapply from_others_edge]|].
      exists o. split; [done|]. by eapply rtc_r.
  - intros Hs. apply bit2_mono. destruct (flags1_same first) as (_ & _ & ->); [by apply (i_tip _ _ _ Hinv)|auto].
  - intros o Ho Hs. apply bit2_mono. destruct (flags1_same o) as (_ & _ & ->); [by apply (i_tips _ _ _ Hinv)|auto].
  - apply step_passed.
  - apply step_result.
  - apply step_out.
  - apply step_only_out.
  - apply step_nodup.
  - intros Hd x Hx. rewrite out1_in in Hx. destruct Hx as [Hx|[E ->]]; [by apply (i_best _ _ _ Hinv)|].
    eapply popped_best; [exact Hinv|done|rewrite Hperm; by left|done|].
    unfold pushed in E. apply andb_true_iff in E as [E _]. by apply Z.eqb_eq in E.
Qed.
Lemma step_measure : (2 * deficit repo map2 + length queue2 < 2 * deficit repo map + length queue)%nat.
Proof.
  pose proof (p_measure _ _ _ _ _ _ Hp) as H. rewrite Hperm. cbn [length].
  assert (deficit repo map1 ≤ deficit repo map)%nat; [|lia]. apply deficit_le. intros x. by destruct (flags1_same x) as (_ & -> & _).
Qed.
End Step.

(** *** The loop ends, and leaves only stale commits in the queue *)

Lemma round_equation map queue out info id queue1 i fuel : has_non_stale map queue = true → heap.pop queue = Some (info, id, queue1) →
  map !! id = Some (with_data (flags_of map id) i) →
  paint_loop try_find cache (S fuel) map queue out =
    ('(map2, queue2) ← paint_parents try_find cache (passed_on (flags_of map id)) (g_parents i) (map1 map id i) queue1;
     paint_loop try_find cache fuel map2 queue2 (out1 map out info id)).
Proof.
  intros Hns Hpop Hc. cbn [paint_loop]. rewrite Hns, Hpop. cbn [expect]. rewrite bind_Ok. cbv beta iota. rewrite Hc. cbn [expect]. rewrite bind_Ok.
  cbv zeta. cbn [with_data g_data g_parents]. change (Z.lor (Z.lor COMMIT1 COMMIT2) STALE) with 7. change (Z.lor COMMIT1 COMMIT2) with 3.
  unfold map1, out1, pushed, is_result_now, passed_on. destruct (Z.eqb_spec (Z.land (flags_of map id) 7) 3) as [E|E]; [|done].
  rewrite E. cbn [andb]. by destruct (negb (contains (flags_of map id) RESULT)).
Qed.
Lemma paint_loop_ok fuel map queue out : invariant map queue out → (2 * deficit repo map + length queue ≤ fuel)%nat →
  ∃ map' queue' out', paint_loop try_find cache fuel map queue out = Ok (map', out') ∧ invariant map' queue' out' ∧ has_non_stale map' queue' = false.
Proof.
  revert map queue out. induction fuel as [|fuel IH]; intros map queue out Hinv Hf.
  all: destruct (has_non_stale map queue) eqn:Hns; [|exists map, queue, out; split; [cbn [paint_loop]; by rewrite Hns|done]].
  { destruct queue; [done|]. cbn in Hf. lia. }
  assert (Hne : queue ≠ []) by (by intros ->).
  destruct (heap.pop_some gtt_le queue Hne) as (info & id & queue1 & Hpop & Hperm & Hmax). rewrite Forall_forall in Hmax.
  assert (Hin : (info, id) ∈ queue) by (rewrite Hperm; by left).
  destruct (i_queue _ _ _ Hinv _ _ Hin) as ([c Hc] & i & Hi & _).
  destruct (i_consistent _ _ _ Hinv _ _ Hc) as (i' & Hi' & Ec & _). assert (i' = i) as -> by congruence.
  assert (Hc' : map !! id = Some (with_data (flags_of map id) i)) by (unfold flags_of; rewrite Hc; by rewrite <- Ec).
  rewrite (round_equation _ _ _ _ _ _ _ _ Hns Hpop Hc').
  destruct (paint_parents_paints (passed_on (flags_of map id)) (g_parents i) (map1 map id i) queue1) as (map2 & queue2 & E & Hp).
  { apply passed_on_bits, (consistent_flags repo), Hinv. }
  { eapply map1_consistent; eauto. }
  { eapply queue1_ok; eauto. }
  rewrite E, bind_Ok. cbv beta iota. apply IH.
  - eapply step_invariant; eauto.
  - assert (2 * deficit repo map2 + length queue2 < 2 * deficit repo map + length queue)%nat; [|lia]. eapply step_measure; eauto.
Qed.

(** Whatever is common is in the history of a result. *)
Lemma stale_queue map queue id : has_non_stale map queue = false → queued queue id → is_Some (map !! id) → bit (flags_of map id) 2 = true.
Proof.
  intros Hns (k & Hk) [c Hc]. unfold has_non_stale in Hns. destruct (bit (flags_of map id) 2) eqn:E; [done|exfalso].
  apply not_true_iff_false in Hns. apply Hns. apply existsb_exists. exists (k, id). split; [by apply list_elem_of_In|].
  unfold flags_of in E. rewrite Hc in *. change STALE with (2 ^ 2). rewrite contains_bit by lia. by rewrite E.
Qed.
Definition covered (out : list (ObjectId * GenThenTime)) (z : ObjectId) : Prop := ∃ o, o ∈ out.*1 ∧ reach repo o z.
Lemma covered_or_carried map queue out k a z : invariant map queue out → has_non_stale map queue = false → k = 0 ∨ k = 1 →
  reach repo a z → bit (flags_of map a) k = true → covered out z ∨ bit (flags_of map z) k = true.
Proof.
  intros Hinv Hns Hk Hr Ha. induction Hr as [|x y z He Hr IH]; [by right|].
  assert (Hx : covered out x → covered out z) by (intros (o & Ho & Hox); exists o; split; [done|]; etrans; [done|]; by eapply rtc_l).
  destruct He as (c & Hc & Hy & Hs). destruct (i_passed _ _ _ Hinv x c Hc (bit_in_map _ _ _ Ha)) as [Hq|Hp].
  - left. apply Hx. destruct (i_stale _ _ _ Hinv x) as (_ & H); [|exact H]. eapply stale_queue; [done..|]. by eapply bit_in_map.
  - apply IH. eapply land_bits; [by apply Hp|].
    destruct (passed_on_bits _ (consistent_flags _ _ x (i_consistent _ _ _ Hinv))) as (_ & E0 & E1 & _). destruct Hk as [->| ->]; congruence.
Qed.
Lemma exit_covers map queue out z : invariant map queue out → has_non_stale map queue = false → common z → covered out z.
Proof.
  intros Hinv Hns [[Hs1 Hr1] (o & Ho & Hs2 & Hr2)].
  destruct (covered_or_carried _ _ _ 0 first z Hinv Hns) as [|H0]; [by left|done|by apply (i_tip _ _ _ Hinv)|done|].
  destruct (covered_or_carried _ _ _ 1 o z Hinv Hns) as [|H1]; [by right|done|by apply (i_tips _ _ _ Hinv)|done|].
  destruct (i_result _ _ _ Hinv z H0 H1) as [Hq|[H2|Hz]].
  - apply (i_stale _ _ _ Hinv). eapply stale_queue; [done..|]. by eapply bit_in_map.
  - by apply (i_stale _ _ _ Hinv).
  - exists z. split; [done|apply rtc_refl].
Qed.

(** *** The tips *)

(** The first commit was added if [f1], and the commits [done_] of the others. *)
Record started (f1 : bool) (done_ : list ObjectId) (map : Map) (queue : Queue) : Prop := {
  s_consistent : consistent repo map;
  s_queue : queue_ok map queue;
  s_first : ∀ x, bit (flags_of map x) 0 = true → f1 = true ∧ x = first;
  s_others : ∀ x, bit (flags_of map x) 1 = true → x ∈ done_;
  s_no_more : ∀ x, bit (flags_of map x) 2 = false ∧ bit (flags_of map x) 3 = false;
  s_tip : f1 = true → is_Some (repo !! first) → bit (flags_of map first) 0 = true;
  s_tips : ∀ o, o ∈ done_ → is_Some (repo !! o) → bit (flags_of map o) 1 = true;
  s_queued : ∀ x, flags_of map x ≠ 0 → queued queue x;
  s_length : (length queue ≤ (if f1 then 1 else 0) + length done_)%nat }.
Lemma paint_tip_ok flag id map queue : consistent repo map →
  paint_tip try_find cache flag id map queue =
    Ok (match repo !! id with
        | Some i => (<[id := with_data (Z.lor (flags_of map id) flag) i]> map, (key_of i, id) :: queue)
        | None => (map, queue)
        end).
Proof.
  intros Hm. unfold paint_tip. destruct (repo !! id) as [i|] eqn:E.
  - by rewrite (visit_found _ _ i).
  - by rewrite visit_missing.
Qed.
Lemma tip_started f1 done_ flag f1' done' id map queue : started f1 done_ map queue →
  (flag = COMMIT1 ∧ id = first ∧ f1 = false ∧ f1' = true ∧ done' = done_ ∨ flag = COMMIT2 ∧ f1' = f1 ∧ done' = done_ ++ [id]) →
  ∃ map' queue', paint_tip try_find cache flag id map queue = Ok (map', queue') ∧ started f1' done' map' queue'.
Proof.
  intros Hst Hcase. rewrite paint_tip_ok by apply Hst. pose proof (consistent_flags _ _ id (s_consistent _ _ _ _ Hst)) as Hd.
  assert (Hdone : ∀ o, o ∈ done_ → o ∈ done') by (intros o Ho; destruct Hcase as [(_ & _ & _ & _ & ->)|(_ & _ & ->)]; [done|by apply elem_of_app; left]).
  assert (Hf1 : f1 = true → f1' = true) by (intros ->; by destruct Hcase as [(_ & _ & ? & _)|(_ & -> & _)]).
  assert (Hlen : ((if f1 then 1 else 0) + length done_ + 1 = (if f1' then 1 else 0) + length done')%nat).
  { destruct Hcase as [(_ & _ & -> & -> & ->)|(_ & -> & ->)]; [lia|rewrite length_app; cbn; lia]. }
  destruct (repo !! id) as [i|] eqn:Hi; eexists _, _; (split; [done|]).
  - assert (Hfl : 0 ≤ flag < 16 ∧ bit flag 2 = false ∧ bit flag 3 = false ∧ (bit flag 0 = true → f1' = true ∧ id = first) ∧ (bit flag 1 = true → id ∈ done')).
    { destruct Hcase as [(-> & -> & _ & -> & _)|(-> & _ & ->)]; split_and!; try done. intros _. rewrite elem_of_app, list_elem_of_singleton. auto. }
    destruct Hfl as (Hfr & Hf2 & Hf3 & Hf0 & Hf1b). destruct (lor_flags _ _ Hd Hfr) as (Hr & _). split.
    + apply consistent_insert; [apply Hst|done|done].
    + intros k x [[= -> ->]|Hin]%elem_of_cons; [split; [rewrite lookup_insert_eq; eauto|eauto]|].
      destruct (s_queue _ _ _ _ Hst _ _ Hin) as [? ?]. split; [|done]. rewrite lookup_insert_is_Some'. auto.
    + intros x. rewrite flags_insert. case_decide as Hx; [subst x; rewrite lor_bit, orb_true_iff; intros [H|H]; [|auto]|intros H];
        destruct (s_first _ _ _ _ Hst _ H); auto.
    + intros x. rewrite flags_insert. case_decide as Hx; [subst x; rewrite lor_bit, orb_true_iff; intros [H|H]; [|auto]|intros H];
        by apply Hdone, (s_others _ _ _ _ Hst).
    + intros x. rewrite flags_insert. case_decide as Hx; [subst x|apply Hst]. rewrite !lor_bit, Hf2, Hf3, !orb_false_r. apply Hst.
    + intros H1 Hs. rewrite flags_insert. case_decide as Hx.
      * subst id. rewrite lor_bit. destruct Hcase as [(-> & _)|(_ & -> & _)]; [apply orb_true_r|]. by rewrite (s_tip _ _ _ _ Hst).
      * destruct Hcase as [(_ & -> & _)|(_ & -> & _)]; [done|]. by apply (s_tip _ _ _ _ Hst).
    + intros o Ho Hs. rewrite flags_insert. case_decide as Hx; [subst o; rewrite lor_bit|]; destruct Hcase as [(_ & _ & _ & _ & ->)|(-> & _ & ->)].
      * by rewrite (s_tips _ _ _ _ Hst).
      * apply orb_true_r.
      * by apply (s_tips _ _ _ _ Hst).
      * apply elem_of_app in Ho as [Ho|Ho%list_elem_of_singleton]; [by apply (s_tips _ _ _ _ Hst)|done].
    + intros x. rewrite flags_insert. case_decide as Hx; [subst x; intros _; exists (key_of i); by left|]. intros H.
      destruct (s_queued _ _ _ _ Hst _ H) as [k Hk]. exists k. by right.
    + cbn [length]. pose proof (s_length _ _ _ _ Hst). lia.
  - split; try apply Hst.
    + intros x Hx. destruct (s_first _ _ _ _ Hst _ Hx). auto.
    + intros x Hx. by apply Hdone, (s_others _ _ _ _ Hst).
    + intros H1 Hs. destruct Hcase as [(_ & -> & _)|(_ & -> & _)]; [rewrite Hi in Hs; by destruct Hs|by apply (s_tip _ _ _ _ Hst)].
    + intros o Ho Hs. destruct Hcase as [(_ & _ & _ & _ & ->)|(_ & _ & ->)]; [by apply (s_tips _ _ _ _ Hst)|].
      apply elem_of_app in Ho as [Ho| ->%list_elem_of_singleton]; [by apply (s_tips _ _ _ _ Hst)|]. rewrite Hi in Hs. by destruct Hs.
    + pose proof (s_length _ _ _ _ Hst). lia.
Qed.
Lemma others_started os done_ map queue : started true done_ map queue →
  ∃ map' queue', paint_others try_find cache os map queue = Ok (map', queue') ∧ started true (done_ ++ os) map' queue'.
Proof.
  revert done_ map queue. induction os as [|o os IH]; intros done_ map queue Hst; [exists map, queue; by rewrite app_nil_r|].
  destruct (tip_started true done_ COMMIT2 true (done_ ++ [o]) o map queue Hst) as (m1 & q1 & E1 & H1); [by right|].
  destruct (IH _ _ _ H1) as (m2 & q2 & E2 & H2). exists m2, q2. cbn [paint_others]. rewrite E1, bind_Ok. cbv beta iota.
  split; [done|]. by rewrite <- app_assoc in H2.
Qed.
Lemma started_invariant map queue : started true others map queue → invariant map queue [].
Proof.
  intros Hst. assert (Hin : ∀ x k, bit (flags_of map x) k = true → is_Some (repo !! x)).
  { intros x k H. eapply in_repo; [apply Hst|]. by eapply bit_in_map. }
  split; try apply Hst; try done.
  - intros x H. destruct (s_first _ _ _ _ Hst _ H) as [_ ->]. split; [by eapply Hin|apply rtc_refl].
  - intros x H. exists x. split_and!; [by apply (s_others _ _ _ _ Hst)|by eapply Hin|apply rtc_refl].
  - intros x H. destruct (s_no_more _ _ _ _ Hst x) as [H2 _]. congruence.
  - intros x i Hi _. destruct (decide (flags_of map x = 0)) as [->|Hne]; [right|left; by apply (s_queued _ _ _ _ Hst)].
    intros p _ _. by rewrite Z.land_0_r.
  - intros x H0 _. left. apply (s_queued _ _ _ _ Hst). intros E. rewrite E in H0. done.
  - intros x k Hx. by apply elem_of_nil in Hx.
  - intros x H. destruct (s_no_more _ _ _ _ Hst x) as [_ H3]. congruence.
  - constructor.
  - intros _ x Hx. by apply elem_of_nil in Hx.
Qed.

Definition paint_fuel : nat := 6 * size repo + S (length others).
Lemma paint_down_ok fuel map : consistent repo map → (∀ id, flags_of map id = 0) → (paint_fuel ≤ fuel)%nat →
  ∃ map' queue' out, paint_down_to_common try_find cache fuel first others map = Ok (map', out) ∧
    invariant map' queue' out ∧ has_non_stale map' queue' = false.
Proof.
  intros Hm H0 Hf. assert (Hst : started false [] map []).
  { split; try done; try (intros x H; by rewrite H0 in H).
    - intros k x Hx. by apply elem_of_nil in Hx.
    - intros x. by rewrite !H0.
    - intros o Ho. by apply elem_of_nil in Ho. }
  destruct (tip_started false [] COMMIT1 true [] first map [] Hst) as (m1 & q1 & E1 & H1); [by left|].
  destruct (others_started others [] m1 q1 H1) as (m2 & q2 & E2 & H2). apply started_invariant in H2 as Hinv.
  destruct (paint_loop_ok fuel m2 q2 [] Hinv) as (m3 & q3 & out & E3 & Hinv3 & Hns).
  { pose proof (s_length _ _ _ _ H2). pose proof (deficit_bound repo m2). unfold paint_fuel in Hf. cbn in *. lia. }
  exists m3, q3, out. unfold paint_down_to_common. rewrite E1, bind_Ok. cbv beta iota. rewrite E2, bind_Ok. cbv beta iota. done.
Qed.
End Painting.

(** ** Removing what is in the history of another result *)

Section Redundant.
Context `{BA : !bstr.Api} `{WA : !winnow.Api} `{FA : !faster_hex.Api}.
Context {Fe : Type} (try_find : ObjectId → res Fe (option Data)) (cache : option GraphFiles.Graph).
Context (repo : gmap ObjectId (GCommit unit)) (Hload : loads try_find cache repo).
Abbreviation Walk := (list (ObjectId * GenThenTime)) (only parsing).

Lemma remove_flag d f : 0 ≤ d < 16 → f = STALE ∨ f = RESULT →
  0 ≤ remove d f < 16 ∧ (bit (remove d f) 2 = true → bit d 2 = true) ∧ (f = RESULT → bit (remove d f) 2 = bit d 2).
Proof.
  intros Hd Hf. pose proof (all_flags_spec (λ d _, (0 <=? remove d STALE) && (remove d STALE <? 16) && (0 <=? remove d RESULT) && (remove d RESULT <? 16) &&
    negb (bit (remove d STALE) 2) && Bool.eqb (bit (remove d RESULT) 2) (bit d 2)) d 0 ltac:(by vm_compute) Hd ltac:(lia)) as H.
  cbv beta in H. repeat (apply andb_true_iff in H as [H ?]). rewrite ?Bool.eqb_true_iff, ?negb_true_iff, ?Z.leb_le, ?Z.ltb_lt in *.
  destruct Hf as [-> | ->]; split_and!; try done; congruence.
Qed.

(** The number of commits that are not stale. *)
Definition nonstale (map : Map) : nat := sum_list_with (λ id, if bit (flags_of map id) 2 then 0 else 1)%nat (elements (dom repo)).
Lemma nonstale_bound map : (nonstale map ≤ size repo)%nat.
Proof.
  unfold nonstale. rewrite <- size_dom. change (size (dom repo)) with (length (elements (dom repo))). induction (elements (dom repo)) as [|x l IH]; cbn [sum_list_with length]; [done|].
  destruct (bit (flags_of map x) 2); lia.
Qed.
Lemma nonstale_le map map' : (∀ id, bit (flags_of map id) 2 = true → bit (flags_of map' id) 2 = true) → (nonstale map' ≤ nonstale map)%nat.
Proof.
  intros H. apply sum_list_with_le. intros x _. specialize (H x). destruct (bit (flags_of map x) 2); [by rewrite H|]. destruct (bit (flags_of map' x) 2); lia.
Qed.
Lemma nonstale_lt map map' id : is_Some (repo !! id) → (∀ id, bit (flags_of map id) 2 = true → bit (flags_of map' id) 2 = true) →
  bit (flags_of map id) 2 = false → bit (flags_of map' id) 2 = true → (nonstale map' < nonstale map)%nat.
Proof.
  intros Hid H H1 H2. apply (sum_list_with_lt _ _ _ id); [by apply elem_of_elements, elem_of_dom| |by rewrite H1, H2; lia].
  intros x _. specialize (H x). destruct (bit (flags_of map x) 2); [by rewrite H|]. destruct (bit (flags_of map' x) 2); lia.
Qed.

(** What marking the commits [ps] does: the new ones are pushed. *)
Record marks (ps : list ObjectId) (map : Map) (walk : Walk) (map' : Map) (walk' : Walk) : Prop := {
  m_consistent : consistent repo map';
  m_kept : ∀ id, is_Some (map !! id) → is_Some (map' !! id);
  m_flags : ∀ id, bit (flags_of map' id) 2 = true → bit (flags_of map id) 2 = true ∨ id ∈ ps ∧ is_Some (repo !! id);
  m_mono : ∀ id, bit (flags_of map id) 2 = true → bit (flags_of map' id) 2 = true;
  m_walk : ∀ id k, (id, k) ∈ walk' → (id, k) ∈ walk ∨ id ∈ ps ∧ is_Some (map' !! id);
  m_length : (length walk ≤ length walk')%nat;
  m_measure : (nonstale map' + length walk' ≤ nonstale map + length walk)%nat }.
Lemma marks_refl ps map walk : consistent repo map → marks ps map walk map walk.
Proof. intros Hm. split; auto. Qed.
Lemma marks_trans ps1 ps2 ps m w m1 w1 m2 w2 : (∀ x, x ∈ ps1 ∨ x ∈ ps2 → x ∈ ps) → marks ps1 m w m1 w1 → marks ps2 m1 w1 m2 w2 → marks ps m w m2 w2.
Proof.
  intros Hps H1 H2. split; try apply H2.
  - intros id Hid. by apply H2, H1.
  - intros id H. destruct (m_flags _ _ _ _ _ H2 id H) as [H'|[? ?]]; [|auto]. destruct (m_flags _ _ _ _ _ H1 id H') as [|[? ?]]; auto.
  - intros id H. by apply H2, H1.
  - intros id k H. destruct (m_walk _ _ _ _ _ H2 id k H) as [H'|[? ?]]; [|auto]. destruct (m_walk _ _ _ _ _ H1 id k H') as [|[? ?]]; [auto|].
    right. split; [auto|]. by apply H2.
  - pose proof (m_length _ _ _ _ _ H1). pose proof (m_length _ _ _ _ _ H2). lia.
  - pose proof (m_measure _ _ _ _ _ H1). pose proof (m_measure _ _ _ _ _ H2). lia.
Qed.
Lemma mark_stale_ok p map walk : consistent repo map →
  ∃ map' walk', mark_stale try_find cache p map walk = Ok (bool_decide (is_Some (repo !! p)), map', walk') ∧ marks [p] map walk map' walk'.
Proof.
  intros Hm. unfold mark_stale. destruct (repo !! p) as [i|] eqn:Hp.
  2: { rewrite (visit_missing try_find cache repo Hload) by done. exists map, walk. rewrite bool_decide_eq_false_2 by (by intros []).
       split; [done|by apply marks_refl]. }
  rewrite (visit_found try_find cache repo Hload _ _ i) by done. rewrite bool_decide_eq_true_2 by eauto.
  pose proof (consistent_flags repo map p Hm) as Hd. cbn [g_data with_data]. change STALE with (2 ^ 2). rewrite contains_bit by lia.
  destruct (bit (flags_of map p) 2) eqn:E; cbn [negb].
  - exists (<[p := with_data (flags_of map p) i]> map), walk. split; [done|].
    assert (Hfl : ∀ id, flags_of (<[p := with_data (flags_of map p) i]> map) id = flags_of map id).
    { intros id. rewrite flags_insert. case_decide; by subst. }
    split; try (intros id; rewrite Hfl; by auto); try done.
    + by apply consistent_insert.
    + intros id. rewrite lookup_insert_is_Some'. auto.
    + auto.
    + apply Nat.add_le_mono_r, nonstale_le. intros id. by rewrite Hfl.
  - exists (<[p := with_data (Z.lor (flags_of map p) (2 ^ 2)) i]> map), ((p, key_of i) :: walk). split; [done|].
    destruct (lor_flags _ 4 Hd ltac:(lia)) as (Hr & _).
    assert (Hfl : ∀ id, bit (flags_of (<[p := with_data (Z.lor (flags_of map p) (2 ^ 2)) i]> map) id) 2 = bool_decide (id = p) || bit (flags_of map id) 2).
    { intros id. rewrite flags_insert. case_decide as Hx; [subst id|by rewrite bool_decide_eq_false_2].
      rewrite lor_bit, bool_decide_eq_true_2 by done. apply orb_true_r. }
    split.
    + by apply consistent_insert.
    + intros id. rewrite lookup_insert_is_Some'. auto.
    + intros id. rewrite Hfl. case_bool_decide as Hx; [subst id; intros _; right; split; [by left|eauto]|by left].
    + intros id H. by rewrite Hfl, H, orb_true_r.
    + intros id k [[= -> ->]|]%elem_of_cons; [right; split; [by left|rewrite lookup_insert_eq; eauto]|by left].
    + cbn. lia.
    + cbn [length]. pose proof (nonstale_lt map (<[p := with_data (Z.lor (flags_of map p) (2 ^ 2)) i]> map) p ltac:(eauto)) as Hlt.
      specialize (Hlt ltac:(intros id H; by rewrite Hfl, H, orb_true_r) E ltac:(rewrite Hfl; by rewrite bool_decide_eq_true_2)). lia.
Qed.
Lemma mark_parents_ok ps map walk : consistent repo map →
  ∃ map' walk', mark_parents try_find cache ps map walk = Ok (map', walk') ∧ marks ps map walk map' walk'.
Proof.
  revert map walk. induction ps as [|p ps IH]; intros map walk Hm; [exists map, walk; split; [done|by apply marks_refl]|].
  destruct (mark_stale_ok p map walk Hm) as (m1 & w1 & E1 & H1). destruct (IH m1 w1 (m_consistent _ _ _ _ _ H1)) as (m2 & w2 & E2 & H2).
  exists m2, w2. cbn [mark_parents]. rewrite E1, bind_Ok. cbv beta iota. split; [done|]. eapply marks_trans; [|done..].
  intros x [->%list_elem_of_singleton|]; by constructor.
Qed.
Lemma push_parent_ok ps map stack : consistent repo map →
  ∃ map' stack', push_parent try_find cache ps map stack = Ok (map', stack') ∧ marks ps map stack map' stack'.
Proof.
  revert map stack. induction ps as [|p ps IH]; intros map stack Hm; [exists map, stack; split; [done|by apply marks_refl]|].
  destruct (mark_stale_ok p map stack Hm) as (m1 & w1 & E1 & H1). cbn [push_parent]. rewrite E1, bind_Ok. cbv beta iota.
  case_bool_decide.
  - exists m1, w1. split; [done|]. eapply marks_trans; [|exact H1|apply (marks_refl [])]; [|apply H1].
    intros x [->%list_elem_of_singleton|Hx]; [by constructor|by apply elem_of_nil in Hx].
  - destruct (IH m1 w1 (m_consistent _ _ _ _ _ H1)) as (m2 & w2 & E2 & H2). exists m2, w2. split; [done|]. eapply marks_trans; [|done..].
    intros x [->%list_elem_of_singleton|]; by constructor.
Qed.

(** *** The walk marks only what is in the history of a commit *)

Context (commits sorted_commits : Walk) (Hsorted : sorted_commits ≡ₚ commits).
Definition below (x : ObjectId) : Prop := ∃ c p, c ∈ commits.*1 ∧ edge repo c p ∧ reach repo p x.
Definition walk_ok (map : Map) (walk : Walk) : Prop := ∀ id k, (id, k) ∈ walk → is_Some (map !! id) ∧ below id.
Record good (map : Map) : Prop := {
  good_consistent : consistent repo map;
  good_below : ∀ x, bit (flags_of map x) 2 = true → below x;
  good_commits : ∀ id, id ∈ commits.*1 → is_Some (map !! id) }.
Definition kept (map map' : Map) : Prop := ∀ id, is_Some (map !! id) → is_Some (map' !! id).

Lemma below_edge x p : below x → edge repo x p → below p.
Proof. intros (c & q & Hc & Hq & Hr) He. exists c, q. split_and!; [done..|]. by eapply rtc_r. Qed.
Lemma walk_ok_kept map map' walk : kept map map' → walk_ok map walk → walk_ok map' walk.
Proof. intros Hk Hw id k H. destruct (Hw id k H). auto. Qed.
(** Changing the flags of a commit in the map, without marking it stale. *)
Lemma good_update map id c f : good map → map !! id = Some c → (0 ≤ g_data c < 16 → 0 ≤ f (g_data c) < 16) →
  (bit (f (g_data c)) 2 = true → below id) → good (<[id := set_data f c]> map) ∧ kept map (<[id := set_data f c]> map).
Proof.
  intros Hg Hc Hr Hb. destruct (good_consistent _ Hg _ _ Hc) as (i & Hi & Ec & Hd).
  assert (E : set_data f c = with_data (f (g_data c)) i) by (rewrite Ec at 1; done). rewrite E.
  assert (Hk : kept map (<[id := with_data (f (g_data c)) i]> map)) by (intros x; rewrite lookup_insert_is_Some'; auto).
  split; [|done]. split.
  - apply consistent_insert; [apply Hg|done|auto].
  - intros x. rewrite flags_insert. case_decide as Hx; [subst x; auto|apply Hg].
  - intros x Hx. apply Hk. by apply Hg.
Qed.
Lemma good_marks ps map walk map' walk' x : good map → walk_ok map walk → marks ps map walk map' walk' →
  (∀ p, p ∈ ps → is_Some (repo !! p) → edge repo x p) → below x ∨ x ∈ commits.*1 → good map' ∧ kept map map' ∧ walk_ok map' walk'.
Proof.
  intros Hg Hw Hm Hps Hx. assert (Hb : ∀ p, p ∈ ps → is_Some (repo !! p) → below p).
  { intros p Hp Hs. destruct Hx as [Hx|Hx]; [eapply below_edge; eauto|]. exists x, p. split_and!; [done|auto|apply rtc_refl]. }
  split_and!; [split| |].
  - apply Hm.
  - intros y Hy. destruct (m_flags _ _ _ _ _ Hm y Hy) as [|[? ?]]; [by apply Hg|auto].
  - intros y Hy. by apply Hm, Hg.
  - intros y. apply Hm.
  - intros y k Hy. destruct (m_walk _ _ _ _ _ Hm y k Hy) as [H|[Hp Hs]].
    + destruct (Hw y k H). split; [by apply Hm|done].
    + split; [done|]. apply Hb; [done|]. eapply in_repo; [apply Hm|done].
Qed.
Lemma edge_parent map id c p : consistent repo map → map !! id = Some c → p ∈ g_parents c → is_Some (repo !! p) → edge repo id p.
Proof. intros Hm Hc Hp Hs. destruct (Hm _ _ Hc) as (i & Hi & Ec & _). exists i. rewrite Ec in Hp. auto. Qed.

Lemma mark_commits_ok cs map walk : (∀ id, id ∈ cs.*1 → id ∈ commits.*1) → good map → walk_ok map walk →
  ∃ map' walk', mark_commits try_find cache cs map walk = Ok (map', walk') ∧ good map' ∧ walk_ok map' walk'.
Proof.
  revert map walk. induction cs as [|[id k] cs IH]; intros map walk Hcs Hg Hw; [by exists map, walk|].
  assert (Hid : id ∈ commits.*1) by (apply Hcs; by left). destruct (good_commits _ Hg id Hid) as [c Hc].
  destruct (good_update map id c (λ d, Z.lor d RESULT) Hg Hc) as [Hg1 Hk1].
  { intros Hd. by apply lor_result. }
  { intros Hb. apply (good_below _ Hg). destruct (good_consistent _ Hg _ _ Hc) as (i & _ & _ & Hd).
    destruct (lor_result _ Hd) as (_ & _ & _ & _ & _ & E & _). unfold flags_of. by rewrite Hc, <- E. }
  destruct (mark_parents_ok (g_parents c) _ walk (good_consistent _ Hg1)) as (m2 & w2 & E2 & H2).
  destruct (good_marks _ _ _ _ _ id Hg1 (walk_ok_kept _ _ _ Hk1 Hw) H2) as (Hg2 & _ & Hw2); [|by right|].
  { intros p Hp Hs. by eapply edge_parent; [apply Hg|..]. }
  destruct (IH m2 w2) as (m3 & w3 & E3 & Hg3 & Hw3); [intros x Hx; apply Hcs; by right|done|done|].
  exists m3, w3. cbn [mark_commits]. rewrite Hc. cbn [expect]. rewrite bind_Ok, E2, bind_Ok. cbv beta iota. done.
Qed.
Lemma update_flags_ok f id map : good map → is_Some (map !! id) → (∀ d, 0 ≤ d < 16 → 0 ≤ f d < 16) →
  (∀ d, 0 ≤ d < 16 → bit (f d) 2 = true → bit d 2 = true ∨ below id) →
  ∃ map', update_flags (Fe := Fe) f id map = Ok map' ∧ good map' ∧ kept map map'.
Proof.
  intros Hg [c Hc] Hr Hb. unfold update_flags. rewrite Hc. cbn [expect]. rewrite bind_Ok. eexists. split; [done|].
  destruct (good_consistent _ Hg _ _ Hc) as (i & _ & _ & Hd). apply good_update; [done..|auto|]. intros H.
  destruct (Hb _ Hd H) as [H2|]; [|done]. apply (good_below _ Hg). unfold flags_of. by rewrite Hc.
Qed.
Lemma unmark_ok walk map : good map → (∀ id k, (id, k) ∈ walk → is_Some (map !! id)) →
  ∃ map', unmark (Fe := Fe) walk map = Ok map' ∧ good map' ∧ kept map map'.
Proof.
  revert map. induction walk as [|[id k] walk IH]; intros map Hg Hw; [exists map; split_and!; [done..|by intros ?]|].
  destruct (update_flags_ok (λ d, remove d STALE) id map Hg) as (m1 & E1 & Hg1 & Hk1).
  { apply (Hw id k). by left. }
  { intros d Hd. apply remove_flag; auto. }
  { intros d Hd H. left. apply (remove_flag d STALE Hd) in H; auto. }
  destruct (IH m1 Hg1) as (m2 & E2 & Hg2 & Hk2). { intros x kx Hx. apply Hk1, (Hw x kx). by right. }
  exists m2. cbn [unmark]. rewrite E1, bind_Ok. split_and!; [done..|]. intros x Hx. auto.
Qed.
Lemma advance_ok fuel pos map : good map → (pos < length sorted_commits)%nat → (length sorted_commits ≤ pos + fuel)%nat →
  ∃ pos', advance (Fe := Fe) sorted_commits fuel pos map = Ok pos' ∧ (pos' < length sorted_commits)%nat.
Proof.
  intros Hg. revert pos. induction fuel as [|fuel IH]; intros pos Hp Hf; [lia|]. cbn [advance].
  destruct (Nat.ltb_spec pos (length sorted_commits - 1)); [|eauto].
  destruct (lookup_lt_is_Some_2 _ _ Hp) as [[id k] Hid]. rewrite Hid. cbn [expect]. rewrite bind_Ok. cbv beta iota.
  destruct (good_commits _ Hg id) as [c Hc]. { rewrite <- Hsorted. apply list_elem_of_fmap. exists (id, k). split; [done|]. by eapply list_elem_of_lookup_2. }
  rewrite Hc. cbn [expect]. rewrite bind_Ok. destruct (contains (g_data c) STALE); [|eauto]. apply IH; lia.
Qed.

Lemma sorted_at map pos : good map → (pos < length sorted_commits)%nat → ∃ id k, sorted_commits !! pos = Some (id, k).
Proof. intros _ Hp. destruct (lookup_lt_is_Some_2 _ _ Hp) as [[id k] Hid]. eauto. Qed.
(** The next position and generation to stop at. *)
Lemma min_gen_ok (b : bool) map pos gen : good map → (pos < length sorted_commits)%nat →
  ∃ pos' gen', (if b then pos ← advance (Fe := Fe) sorted_commits (length sorted_commits) pos map;
                          '(_, info) ← expect (sorted_commits !! pos); Ok (pos, gt_generation info)
                else Ok (pos, gen)) = Ok (pos', gen') ∧ (pos' < length sorted_commits)%nat.
Proof.
  intros Hg Hp. destruct b; [|eauto]. destruct (advance_ok (length sorted_commits) pos map Hg Hp ltac:(lia)) as (p' & -> & Hp').
  rewrite bind_Ok. destruct (sorted_at map p' Hg Hp') as (id & k & ->). cbn [expect]. rewrite bind_Ok. cbv beta iota. eauto.
Qed.
Lemma stack_loop_ok fuel st stack : good (w_map st) → (w_min_gen_pos st < length sorted_commits)%nat → walk_ok (w_map st) stack →
  (2 * nonstale (w_map st) + length stack ≤ fuel)%nat →
  ∃ st', stack_loop try_find cache sorted_commits fuel st stack = Ok st' ∧ good (w_map st') ∧ (w_min_gen_pos st' < length sorted_commits)%nat ∧
    kept (w_map st) (w_map st').
Proof.
  revert st stack. induction fuel as [|fuel IH]; intros st [|[id k] below_] Hg Hp Hw Hf;
    [exists st; split_and!; [done..|by intros ?]|cbn in Hf; lia|exists st; split_and!; [done..|by intros ?]|].
  destruct (Hw id k ltac:(by left)) as [[c Hc] Hb]. cbn [stack_loop]. rewrite Hc. cbn [expect]. rewrite bind_Ok.
  set (is_result := contains (g_data c) RESULT).
  set (map1 := if is_result then <[id := set_data (λ d, remove d RESULT) c]> (w_map st) else w_map st).
  assert (H1 : good map1 ∧ kept (w_map st) map1 ∧ nonstale map1 = nonstale (w_map st)).
  { unfold map1. destruct is_result; [|split_and!; [done|by intros ?|done]].
    destruct (good_consistent _ Hg _ _ Hc) as (i & Hi & Ec & Hd). destruct (remove_flag _ RESULT Hd ltac:(by right)) as (Hr & Hb2 & He).
    destruct (good_update (w_map st) id c (λ d, remove d RESULT) Hg Hc) as [Hg1 Hk1]; [auto|auto|].
    split_and!; [done|done|]. assert (Hfl : ∀ x, bit (flags_of (<[id := set_data (λ d, remove d RESULT) c]> (w_map st)) x) 2 = bit (flags_of (w_map st) x) 2).
    { intros x. unfold flags_of. destruct (decide (x = id)) as [->|Hx]; [rewrite lookup_insert_eq, Hc; by apply He|by rewrite lookup_insert_ne]. }
    apply Nat.le_antisymm; apply nonstale_le; intros x; by rewrite Hfl. }
  destruct H1 as (Hg1 & Hk1 & Hn1). set (count := if is_result then w_count st - 1 else w_count st).
  destruct (is_result && (count <=? 1)); [exists (mkWalk map1 count (w_min_gen_pos st) (w_min_gen st)); done|].
  destruct (sorted_at map1 (w_min_gen_pos st) Hg1 Hp) as (mid & mk & ->). cbn [expect]. rewrite bind_Ok. cbv beta iota.
  destruct (min_gen_ok (is_result && bool_decide (id = mid)) map1 (w_min_gen_pos st) (w_min_gen st) Hg1 Hp) as (pos' & gen' & -> & Hp').
  rewrite bind_Ok. cbv beta iota. destruct (gt_generation k <? gen').
  - destruct (IH (mkWalk map1 count pos' gen') below_) as (st' & E & Hg' & Hpos & Hk'); cbn [w_map w_min_gen_pos] in *; [done|done| |cbn in Hf; lia|].
    { eapply walk_ok_kept; [exact Hk1|]. intros x kx Hx. apply (Hw x kx). by right. }
    exists st'. split_and!; [done..|]. intros x Hx. auto.
  - destruct (push_parent_ok (g_parents c) map1 ((id, k) :: below_) (good_consistent _ Hg1)) as (m2 & s2 & -> & Hm). rewrite bind_Ok. cbv beta iota.
    destruct (good_marks _ _ _ _ _ id Hg1 (walk_ok_kept _ _ _ Hk1 Hw) Hm) as (Hg2 & Hk2 & Hw2); [|by left|].
    { intros p Hpp Hs. eapply edge_parent; [apply Hg|done..]. }
    pose proof (m_measure _ _ _ _ _ Hm) as Hmm. pose proof (m_length _ _ _ _ _ Hm) as Hml. pose proof (nonstale_le map1 m2 (m_mono _ _ _ _ _ Hm)) as Hnl.
    destruct (IH (mkWalk m2 count pos' gen') (if (length s2 =? length ((id, k) :: below_))%nat then below_ else s2)) as (st' & E & Hg' & Hpos & Hk');
      cbn [w_map w_min_gen_pos] in *; [done|done| | |].
    + case_match; [|done]. eapply walk_ok_kept; [exact Hk2|]. eapply walk_ok_kept; [exact Hk1|]. intros x kx Hx. apply (Hw x kx). by right.
    + destruct (Nat.eqb_spec (length s2) (length ((id, k) :: below_))); cbn [length] in *; lia.
    + exists st'. split_and!; [done..|]. intros x Hx. auto.
Qed.
Lemma walk_loop_ok fuel walk st : good (w_map st) → (w_min_gen_pos st < length sorted_commits)%nat → walk_ok (w_map st) walk →
  (2 * size repo + 1 ≤ fuel)%nat →
  ∃ st', walk_loop try_find cache sorted_commits fuel walk st = Ok st' ∧ good (w_map st').
Proof.
  intros Hg Hp Hw Hf. revert st Hg Hp Hw. induction walk as [|[id k] walk IH]; intros st Hg Hp Hw; [eauto|]. cbn [walk_loop].
  destruct (1 <? w_count st); [|eauto]. destruct (Hw id k ltac:(by left)) as [Hs Hb].
  destruct (update_flags_ok (λ d, Z.lor d STALE) id (w_map st) Hg Hs) as (m1 & -> & Hg1 & Hk1).
  { intros d Hd. by apply (lor_flags d STALE Hd). }
  { auto. }
  rewrite bind_Ok. destruct (stack_loop_ok fuel (mkWalk m1 (w_count st) (w_min_gen_pos st) (w_min_gen st)) [(id, k)]) as (st' & -> & Hg' & Hp' & Hk');
    cbn [w_map w_min_gen_pos] in *; [done|done| | |].
  - intros x kx [= -> ->]%list_elem_of_singleton. auto.
  - pose proof (nonstale_bound m1). cbn [length]. lia.
  - rewrite bind_Ok. apply IH; [done|done|]. intros x kx Hx. destruct (Hw x kx ltac:(by right)). auto.
Qed.
End Redundant.

Section RemoveRedundant.
Context `{BA : !bstr.Api} `{WA : !winnow.Api} `{FA : !faster_hex.Api}.
Context {Fe : Type} (try_find : ObjectId → res Fe (option Data)) (cache : option GraphFiles.Graph).
Context (repo : gmap ObjectId (GCommit unit)) (Hload : loads try_find cache repo).

(** What is removed is in the history of a commit. *)
Lemma remove_redundant_ok fuel (commits : list (ObjectId * GenThenTime)) map : consistent repo map → (∀ id, id ∈ commits.*1 → is_Some (map !! id)) →
  (2 * size repo + 1 ≤ fuel)%nat →
  ∃ map' ids, remove_redundant try_find cache fuel commits map = Ok (map', ids) ∧ consistent repo map' ∧
    sublist ids commits.*1 ∧ (∀ x, x ∈ commits.*1 → x ∈ ids ∨ below repo commits x).
Proof.
  intros Hm Hin Hf. unfold remove_redundant. case_bool_decide as Hc; [exists map, []; subst; split_and!; [done|done|constructor|]|].
  { intros x Hx. by apply elem_of_nil in Hx. }
  set (sorted := sort_by _ commits). assert (Hs : sorted ≡ₚ commits) by apply sort_by_perm.
  destruct (clear_consistent repo map Hm) as [Hm0 H0]. set (map0 := clear_commit_data (λ _, 0) map) in *.
  assert (Hg0 : good repo commits map0).
  { split; [done| |]; [intros x; by rewrite H0|]. intros id Hid. destruct (Hin id Hid) as [c Hcc]. unfold map0, clear_commit_data. rewrite lookup_fmap, Hcc. eauto. }
  assert (Hlen : (0 < length sorted)%nat) by (rewrite Hs; destruct commits; [done|cbn; lia]).
  destruct (lookup_lt_is_Some_2 _ _ Hlen) as [[id0 k0] E0]. rewrite E0. cbn [expect]. rewrite bind_Ok. cbv beta iota.
  destruct (mark_commits_ok try_find cache repo Hload commits commits map0 []) as (m1 & w1 & -> & Hg1 & Hw1); [done|done|by intros x k Hx%elem_of_nil|].
  rewrite bind_Ok. cbv beta iota. assert (Hw : walk_ok repo commits m1 (sort_by id_cmp (reverse w1))).
  { intros x k Hx. rewrite sort_by_perm, elem_of_reverse in Hx. by apply (Hw1 x k). }
  destruct (unmark_ok (Fe := Fe) repo commits (sort_by id_cmp (reverse w1)) m1 Hg1) as (m2 & E2 & Hg2 & Hk2); [intros x k Hx; by apply (Hw x k)|].
  rewrite E2, bind_Ok.
  destruct (walk_loop_ok try_find cache repo Hload commits sorted Hs fuel (reverse (sort_by id_cmp (reverse w1)))
    (mkWalk m2 (Z.of_nat (length commits)) 0 (gt_generation k0))) as (st & -> & Hg3); cbn [w_map w_min_gen_pos]; [done|done| |done|].
  { intros x k Hx. rewrite elem_of_reverse in Hx. destruct (Hw x k Hx). split; [by apply Hk2|done]. }
  rewrite bind_Ok. eexists _, _. split; [done|]. split; [apply Hg3|]. set (f := λ '(id, _), _). split.
  - clear -f. induction commits as [|[x k] cs IH]; [constructor|]. cbn. destruct (w_map st !! x) as [c|]; [|by constructor].
    destruct (negb _); by constructor.
  - intros x Hx. apply list_elem_of_fmap in Hx as ([y k] & -> & Hy). cbn. destruct (bit (flags_of (w_map st) y) 2) eqn:E; [right; by apply Hg3|left].
    apply list_elem_of_omap. exists (y, k). split; [done|]. cbn. destruct (good_commits _ _ _ Hg3 y) as [c Hcc].
    { apply list_elem_of_fmap. by exists (y, k). }
    unfold flags_of in E. rewrite Hcc in *. change STALE with (2 ^ 2). rewrite contains_bit by lia. by rewrite E.
Qed.
End RemoveRedundant.

(** ** The merge bases *)

Section Correct.
Context `{BA : !bstr.Api} `{WA : !winnow.Api} `{FA : !faster_hex.Api} `{HA : !heap.Api GenThenTime ObjectId} `{HL : !heap.Laws gtt_le}.
Context {Fe : Type} (try_find : ObjectId → res Fe (option Data)) (cache : option GraphFiles.Graph).
Context (repo : gmap ObjectId (GCommit unit)) (Hload : loads try_find cache repo).
Context (first : ObjectId) (others : list ObjectId).

Definition acyclic : Prop := ∃ rank : ObjectId → nat, ∀ x y, edge repo x y → (rank y < rank x)%nat.

(** Both phases, with what they establish. *)
Lemma merge_base_phases fuel map : others ≠ [] → first ∉ others → consistent repo map → (paint_fuel repo others ≤ fuel)%nat → ∃ map' queue' out ids map'',
  merge_base try_find cache fuel first others map = Ok (if bool_decide (ids = []) then None else Some ids, map'') ∧
  consistent repo map'' ∧ invariant repo first others map' queue' out ∧ has_non_stale map' queue' = false ∧
  sublist ids out.*1 ∧ ∀ x, x ∈ out.*1 → x ∈ ids ∨ below repo out x.
Proof.
  intros Hothers Hfirst Hm Hf. destruct (clear_consistent repo map Hm) as [Hm0 H0].
  destruct (paint_down_ok try_find cache repo Hload first others fuel _ Hm0 H0 Hf) as (map' & queue' & out & E & Hinv & Hns).
  destruct (remove_redundant_ok try_find cache repo Hload fuel out map') as (map'' & ids & E2 & Hm2 & Hsub & Hrem); [apply Hinv| | |].
  { intros id Hid. apply list_elem_of_fmap in Hid as ([x k] & -> & Hx). by destruct (i_out _ _ _ _ _ _ Hinv _ _ Hx) as (_ & ? & _). }
  { unfold paint_fuel in Hf. lia. }
  exists map', queue', out, ids, map''. split_and!; [|done..]. unfold merge_base.
  rewrite bool_decide_eq_false_2, bool_decide_eq_false_2 by done. cbn [orb]. by rewrite E, bind_Ok, E2.
Qed.

Lemma merge_base_at_once fuel map : others = [] ∨ first ∈ others → merge_base try_find cache fuel first others map = Ok (Some [first], map).
Proof. intros H. unfold merge_base. rewrite <- bool_decide_or, bool_decide_eq_true_2 by done. done. Qed.

Lemma first_is_best b : dates_decrease repo → first ∈ others → is_Some (repo !! first) → best repo first others b ↔ b = first.
Proof.
  intros Hd Hin [i Hi]. assert (Hself : common repo first others first).
  { split; [|exists first; split; [done|]]; (split; [by eexists|apply rtc_refl]). }
  split.
  - intros [[[_ Hr] _] Hbest]. symmetry. by apply Hbest.
  - intros ->. split; [done|]. intros w [[_ Hw] _] Hr. destruct (reach_older repo first w Hd Hw) as [|H1]; [done|].
    destruct (reach_older repo w first Hd Hr) as [|H2]; [done|]. exfalso.
    assert (is_Some (repo !! w)) as [j Hj].
    { apply rtc_inv_r in Hw as [<-|(v & _ & (c & _ & _ & ?))]; [by eexists|done]. }
    specialize (H1 _ _ Hj Hi). specialize (H2 _ _ Hi Hj). rewrite gtt_cmp_antisym, H1 in H2. done.
Qed.

(** In an acyclic history, what covers everything still does without what is in
    the history of another result. *)
Lemma cover_without_below (out : list (ObjectId * GenThenTime)) (ids : list ObjectId) z : acyclic → (∀ x, x ∈ out.*1 → x ∈ ids ∨ below repo out x) → covered repo out z →
  ∃ b, b ∈ ids ∧ reach repo b z.
Proof.
  intros [rank Hrank] Hrem (o & Ho & Hr).
  assert (Hreach : ∀ x y, reach repo x y → (rank y ≤ rank x)%nat) by (induction 1 as [|x y w He _ IH]; [done|apply Hrank in He; lia]).
  (* the ranks of results are bounded *)
  assert (Hmax : ∃ n, ∀ x, x ∈ out.*1 → (rank x ≤ n)%nat).
  { clear. induction (out.*1) as [|x l [n Hn]]; [exists 0%nat; by intros x Hx%elem_of_nil|]. exists (rank x + n)%nat.
    intros y [->|Hy]%elem_of_cons; [lia|]. specialize (Hn y Hy). lia. }
  destruct Hmax as [n Hn]. remember (n - rank o)%nat as k eqn:Hk. revert o Ho Hr Hk. induction k as [k IH] using lt_wf_ind. intros o Ho Hr ->.
  destruct (Hrem o Ho) as [|(c & p & Hc & He & Hpo)]; [eauto|]. apply (IH (n - rank c)%nat) with c; [|done| |done].
  - pose proof (Hn c Hc). pose proof (Hrank _ _ He). pose proof (Hreach _ _ Hpo). lia.
  - etrans; [|exact Hr]. by eapply rtc_l.
Qed.

(** C4: Merge bases are common ancestors, and all of them are covered.  For a
    repository without cycles, of which every lookup succeeds, a graph whose
    commits, if any, are those of the repository, and every choice of a binary
    heap among commits of the same date: [merge_base] ends (within six rounds
    per commit).  Without others, or if the first commit is one of them, it
    returns the first commit right away and leaves the graph as it is.
    Otherwise it returns none if the first commit has no ancestor in common
    with any of the others, and else commits that are in the history of the
    first and of one of the others, each once, such that every commit in both
    histories is in the history of one of them. *)
Theorem merge_base_correct fuel map : acyclic → consistent repo map → (paint_fuel repo others ≤ fuel)%nat →
  ∃ r map', merge_base try_find cache fuel first others map = Ok (r, map') ∧ consistent repo map' ∧
    (others = [] ∨ first ∈ others → r = Some [first] ∧ map' = map) ∧
    (others ≠ [] → first ∉ others →
     match r with
     | Some bases => bases ≠ [] ∧ NoDup bases ∧ (∀ b, b ∈ bases → common repo first others b) ∧
         ∀ z, common repo first others z → ∃ b, b ∈ bases ∧ reach repo b z
     | None => ∀ z, ¬ common repo first others z
     end).
Proof.
  intros Ha Hm Hf. destruct (decide (others = [] ∨ first ∈ others)) as [Hnow|Hwork].
  { rewrite merge_base_at_once by done. exists (Some [first]), map. split_and!; [done..|tauto]. }
  destruct (merge_base_phases fuel map) as (map1 & queue1 & out & ids & map2 & E & Hm2 & Hinv & Hns & Hsub & Hrem); [tauto..|done|done|].
  eexists _, _. split; [exact E|]. split; [done|]. split; [done|]. intros _ _.
  assert (Hcov : ∀ z, common repo first others z → ∃ b, b ∈ ids ∧ reach repo b z).
  { intros z Hz. eapply cover_without_below; [done..|]. by eapply exit_covers. }
  case_bool_decide as Hids.
  - intros z Hz. destruct (Hcov z Hz) as (b & Hb & _). subst ids. by apply elem_of_nil in Hb.
  - split_and!; [done|eapply sublist_NoDup; [apply Hinv|exact Hsub]| |done]. intros b Hb.
    assert (Hb' : b ∈ out.*1) by (by eapply elem_of_sublist).
    apply list_elem_of_fmap in Hb' as ([x k] & -> & Hx). by destruct (i_out _ _ _ _ _ _ Hinv _ _ Hx) as (? & _).
Qed.

(** C5: With dates that decrease the merge bases are exact.  When every commit
    is older than its children, by generation and then by time, there is at
    least one other commit and the first is none of them, the result of
    [merge_base] holds exactly the best common ancestors, each once: those that
    are not in the history of another common ancestor.  Without others, or if
    the first commit is one of them, it is the first commit - which, if it is
    one of them and exists, is the only best common ancestor. *)
Theorem merge_base_best fuel map : dates_decrease repo → consistent repo map → (paint_fuel repo others ≤ fuel)%nat →
  ∃ r map', merge_base try_find cache fuel first others map = Ok (r, map') ∧ NoDup (default [] r) ∧
    (others ≠ [] → first ∉ others → ∀ b, b ∈ default [] r ↔ best repo first others b) ∧
    (others = [] ∨ first ∈ others → default [] r = [first]) ∧
    (first ∈ others → is_Some (repo !! first) → ∀ b, best repo first others b ↔ b = first).
Proof.
  intros Hd Hm Hf. destruct (decide (others = [] ∨ first ∈ others)) as [Hnow|Hwork].
  { rewrite merge_base_at_once by done. exists (Some [first]), map. split_and!; [done|apply NoDup_singleton|tauto|done|].
    intros. by apply first_is_best. }
  destruct (merge_base_phases fuel map) as (map1 & queue1 & out & ids & map2 & E & Hm2 & Hinv & Hns & Hsub & Hrem); [tauto..|done|done|].
  eexists _, _. split; [exact E|].
  replace (default [] (if bool_decide (ids = []) then None else Some ids)) with ids by (case_bool_decide; by subst).
  split; [eapply sublist_NoDup; [apply Hinv|exact Hsub]|]. split; [|tauto]. intros _ _ b. split.
  - intros Hb. apply (i_best _ _ _ _ _ _ Hinv Hd). by eapply elem_of_sublist.
  - intros [Hb Hbest]. destruct (exit_covers repo first others _ _ _ b Hinv Hns Hb) as (o & Ho & Hr).
    assert (Hbo : best repo first others o) by (by apply (i_best _ _ _ _ _ _ Hinv Hd)).
    assert (o = b) as -> by (by apply Hbest; [apply Hbo|]).
    destruct (Hrem b Ho) as [|(c & p & Hc & He & Hpb)]; [done|exfalso].
    assert (c = b) as ->. { apply Hbest; [by apply (i_best _ _ _ _ _ _ Hinv Hd)|]. by eapply rtc_l. }
    destruct He as (i & Hi & Hp & j & Hj). assert (He : edge repo b p) by (exists i; eauto). pose proof (Hd _ _ He _ _ Hj Hi) as H1.
    destruct (reach_older repo p b Hd Hpb) as [->|H2].
    + rewrite Hi in Hj. injection Hj as ->. pose proof (gtt_cmp_antisym (key_of j) (key_of j)) as Hanti. by rewrite H1 in Hanti.
    + specialize (H2 _ _ Hi Hj). rewrite gtt_cmp_antisym, H1 in H2. done.
Qed.
End Correct.

(** ** A heap, and concrete repositories *)

Definition heap_impl : heap.Api GenThenTime ObjectId := heap_by gtt_cmp.
Lemma gtt_le_trans a b c : gtt_le a b → gtt_le b c → gtt_le a c.
Proof.
  unfold gtt_le, gtt_cmp, ord_then. destruct (Z.compare_spec (gt_generation a) (gt_generation b)), (Z.compare_spec (gt_generation b) (gt_generation c)),
    (Z.compare_spec (gt_generation a) (gt_generation c)); try done; try lia; rewrite !Z.compare_gt_iff; lia.
Qed.
Lemma heap_impl_laws : @heap.Laws _ _ gtt_le heap_impl.
Proof. apply heap_by_laws; [apply gtt_cmp_antisym|apply gtt_le_trans]. Qed.

(** Repositories of commits with a number for an id, parents and a time. *)
Definition repo_of (l : list (Z * (list Z * Z))) : gmap ObjectId (GCommit unit) :=
  list_to_map ((λ '(n, (ps, t)), (num_id n, mkGCommit (num_id <$> ps) t None tt)) <$> l).
Definition owned (ps : list Z) (t : Z) : res ToOwnedError (GCommit Z) :=
  lazy_to_owned (BA := bstr_impl) (WA := winnow_impl) (FA := hex_impl) (FromBuffer (commit_object ps t)) 0.
Lemma objects_load l : Forall (λ x, owned x.2.1 x.2.2 = Ok (mkGCommit (num_id <$> x.2.1) x.2.2 None 0)) l →
  loads (BA := bstr_impl) (WA := winnow_impl) (FA := hex_impl) (objects_of l) None (repo_of l).
Proof.
  intros Hl id. unfold load, try_lookup. induction Hl as [|[n [ps t]] l Hx _ IH]; [done|]. cbn [objects_of].
  unfold repo_of. rewrite fmap_cons. cbn [list_to_map foldr curry]. case_bool_decide as E.
  - subst id. cbn [list_to_map foldr uncurry fst snd]. rewrite lookup_insert_eq. cbn [map_err]. rewrite bind_Ok. cbn [data_kind data_bytes].
    rewrite bool_decide_eq_true_2 by done. cbn [map_err]. rewrite bind_Ok. cbn [fst snd] in Hx.
    change (lazy_to_owned (FromBuffer (commit_object ps t)) 0) with (owned ps t). by rewrite Hx.
  - cbn [list_to_map foldr uncurry fst snd]. rewrite lookup_insert_ne by done. exact IH.
Qed.
Definition impl_merge_base (l : list (Z * (list Z * Z))) (fuel : nat) (first : Z) (others : list Z) :=
  merge_base (BA := bstr_impl) (WA := winnow_impl) (FA := hex_impl) (HA := heap_impl) (objects_of l) None fuel (num_id first) (num_id <$> others) ∅.

(** Two branches, 4 and 5, that were each merged into the other's history from
    2 and 3. *)
Definition criss_cross : list (Z * (list Z * Z)) := [(5, ([2; 3], 50)); (4, ([3; 2], 40)); (3, ([1], 30)); (2, ([1], 20)); (1, ([], 10))].
Lemma criss_cross_loads : loads (BA := bstr_impl) (WA := winnow_impl) (FA := hex_impl) (objects_of criss_cross) None (repo_of criss_cross).
Proof. apply objects_load. repeat constructor; vm_compute; reflexivity. Qed.
Lemma criss_cross_edge x y : edge (repo_of criss_cross) x y →
  ∃ n m, x = num_id n ∧ y = num_id m ∧ (n, m) ∈ [(5, 2); (5, 3); (4, 3); (4, 2); (3, 1); (2, 1)].
Proof.
  intros (c & Hc & Hy & _). apply elem_of_list_to_map_2 in Hc. apply list_elem_of_fmap in Hc as ([n [ps t]] & [= -> ->] & Hx). cbn in Hy.
  apply list_elem_of_fmap in Hy as (m & -> & Hm). exists n, m. split_and!; [done..|].
  unfold criss_cross in Hx. rewrite !elem_of_cons, elem_of_nil in Hx. destruct Hx as [E|[E|[E|[E|[E|[]]]]]]; injection E as -> -> ->;
    rewrite ?elem_of_cons, ?elem_of_nil in Hm; destruct_or?; subst; try done; apply (bool_decide_unpack _); by vm_compute.
Qed.
Lemma criss_cross_dates : dates_decrease (repo_of criss_cross).
Proof.
  intros x y He i j Hi Hj. apply criss_cross_edge in He as (n & m & -> & -> & Hnm).
  rewrite !elem_of_cons, elem_of_nil in Hnm. destruct_or?; simplify_eq; vm_compute in Hi, Hj; simplify_eq; by vm_compute.
Qed.
Lemma consistent_empty repo : consistent repo ∅.
Proof. intros id c H. by rewrite lookup_empty in H. Qed.
Lemma merge_base_correct_witness :
  acyclic (repo_of criss_cross) ∧
  ∃ r map', impl_merge_base criss_cross 40 5 [4] = Ok (r, map') ∧ consistent (repo_of criss_cross) map' ∧
    match r with
    | Some bases => bases ≠ [] ∧ NoDup bases ∧ (∀ b, b ∈ bases → common (repo_of criss_cross) (num_id 5) [num_id 4] b) ∧
        ∀ z, common (repo_of criss_cross) (num_id 5) [num_id 4] z → ∃ b, b ∈ bases ∧ reach (repo_of criss_cross) b z
    | None => ∀ z, ¬ common (repo_of criss_cross) (num_id 5) [num_id 4] z
    end.
Proof.
  assert (Ha : acyclic (repo_of criss_cross)).
  { exists (λ x, match as_slice x with n :: _ => Z.to_nat n | [] => 0%nat end). intros x y He.
    apply criss_cross_edge in He as (n & m & -> & -> & Hnm). rewrite !elem_of_cons, elem_of_nil in Hnm. destruct_or?; simplify_eq; cbn; lia. }
  split; [exact Ha|].
  destruct (merge_base_correct (BA := bstr_impl) (WA := winnow_impl) (FA := hex_impl) (HA := heap_impl) (HL := heap_impl_laws) (objects_of criss_cross) None
    (repo_of criss_cross) criss_cross_loads (num_id 5) [num_id 4] 40 ∅ Ha (consistent_empty _)) as (r & map' & H1 & H2 & _ & H3); [apply Nat.leb_le; by vm_compute|]. exists r, map'. split_and!; [exact H1|exact H2|]. apply H3; [done|].
  apply (bool_decide_unpack _). by vm_compute.
Defined.
Lemma merge_base_best_witness :
  dates_decrease (repo_of criss_cross) ∧
  ∃ r map', impl_merge_base criss_cross 40 5 [4] = Ok (r, map') ∧ NoDup (default [] r) ∧
    ∀ b, b ∈ default [] r ↔ best (repo_of criss_cross) (num_id 5) [num_id 4] b.
Proof.
  split; [exact criss_cross_dates|].
  destruct (merge_base_best (BA := bstr_impl) (WA := winnow_impl) (FA := hex_impl) (HA := heap_impl) (HL := heap_impl_laws) (objects_of criss_cross) None
    (repo_of criss_cross) criss_cross_loads (num_id 5) [num_id 4] 40 ∅ criss_cross_dates (consistent_empty _)) as (r & map' & H1 & H2 & H3 & _); [apply Nat.leb_le; by vm_compute|]. exists r, map'. split_and!; [exact H1|exact H2|]. apply H3; [done|].
  apply (bool_decide_unpack _). by vm_compute.
Defined.
Example criss_cross_bases : fst <$> impl_merge_base criss_cross 40 5 [4] = Ok (Some [num_id 3; num_id 2]).
Proof. vm_compute. reflexivity. Qed.

(** When dates do not decrease a redundant result can remain: [remove_redundant]
    follows the first parent that exists, marked or not, so that what is only
    in the history of a second parent is not found.  Here 5 is in the history
    of 4, through the second parent of 3. *)
Definition skewed : list (Z * (list Z * Z)) :=
  [(7, ([4; 5], 70)); (6, ([4; 5], 60)); (5, ([1], 50)); (4, ([3], 40)); (3, ([2; 5], 30)); (2, ([1], 20)); (1, ([], 10))].
Example redundant_base_kept :
  fst <$> impl_merge_base skewed 60 7 [6] = Ok (Some [num_id 5; num_id 4]) ∧ reach (repo_of skewed) (num_id 4) (num_id 5).
Proof.
  split; [vm_compute; reflexivity|]. apply (rtc_l _ _ (num_id 3)); [|apply rtc_once].
  - eexists. split; [by vm_compute|]. split; [by left|]. by eexists.
  - eexists. split; [by vm_compute|]. split; [by right; left|]. by eexists.
Qed.
