(* ===== verification/Traverse.v ===== *)
(** * Ancestors of commits: [gix-traverse/src/commit/simple.rs]

    The iterator [Simple] over the ancestors of tips, breadth first or by the
    time of commits, through all or only first parents, with an optional
    commit-graph cache.

    The object database is the parameter [try_find], as in [RevGraph]; the
    predicate is a function of the id. *)

From S2P Require Import Prelude External Winnow Hash PackEntry Btoi Actor ObjectParse CommitObject ObjectTree ObjectFind RevGraph.
From S2P Require CommitGraph GraphFiles.
Import winnow.

(** ** [simple.rs], [commit/mod.rs] *)

Inductive Sorting := BreadthFirst | ByCommitTimeNewestFirst | ByCommitTimeNewestFirstCutoffOlderThan (seconds : Z).
#[global] Instance Sorting_eq_dec : EqDecision Sorting.
Proof. solve_decision. Defined.
Definition cutoff_time (s : Sorting) : option Z :=
  match s with ByCommitTimeNewestFirstCutoffOlderThan seconds => Some seconds | _ => None end.
Inductive Parents := All | First.
Record Info := mkInfo { info_id : ObjectId; parent_ids : list ObjectId; commit_time : option Z }.
Inductive SimpleError (Fe : Type) := FindError (e : @ExistingIterError Fe) | ObjectDecode (e : ErrMode).
Arguments FindError {Fe}. Arguments ObjectDecode {Fe}.

(** [State], without the buffers, which hold nothing between two calls. *)
Abbreviation Queue := (list (Z * ObjectId)) (only parsing).
Record State := mkState { next_ : list ObjectId; queue : Queue; seen : gset ObjectId }.
Record Simple := mkSimple {
  cache : option GraphFiles.Graph; state : State; parents : Parents; sorting : Sorting }.
Definition with_state (s : State) (w : Simple) : Simple := mkSimple (cache w) s (parents w) (sorting w).
Definition without_cache (w : Simple) : Simple := mkSimple None (state w) (parents w) (sorting w).

Section Simple.
Context `{BA : !bstr.Api} `{WA : !winnow.Api} `{FA : !faster_hex.Api} `{HA : !heap.Api Z ObjectId}.
Context {Fe : Type} (try_find : ObjectId → res Fe (option Data)) (predicate : ObjectId → bool).
Abbreviation Error := (SimpleError Fe) (only parsing).

(** ** Builder *)

(** [filtered]: the tips that were not seen before and that the predicate
    accepts. *)
Fixpoint filtered_tips (tips : list ObjectId) (s : State) : State :=
  match tips with
  | [] => s
  | tip :: tips =>
      let was_inserted := bool_decide (tip ∉ seen s) in
      let next := if was_inserted && predicate tip then next_ s ++ [tip] else next_ s in
      filtered_tips tips (mkState next (queue s) ({[tip]} ∪ seen s))
  end.
Definition filtered (tips : list ObjectId) : Simple :=
  mkSimple None (filtered_tips tips (mkState [] [] ∅)) All BreadthFirst.

Definition queue_to_vecdeque (w : Simple) : Simple :=
  let s := state w in with_state (mkState (next_ s ++ (heap.into_vec (queue s)).*2) [] (seen s)) w.
(** The tips go to the queue; the iterator is consumed when that fails. *)
Fixpoint sort_tips (cutoff : option Z) (tips : list ObjectId) (q : Queue) : res Error Queue :=
  match tips with
  | [] => Ok q
  | commit_id :: tips =>
      commit_iter ← map_err FindError (find_commit_iter try_find commit_id);
      committer ← map_err ObjectDecode (iter_committer (all_tokens commit_iter));
      let t := seconds (time committer) in
      sort_tips cutoff tips
        (match cutoff with
         | Some cutoff => if cutoff <=? t then queue_insert t commit_id q else q
         | None => queue_insert t commit_id q
         end)
  end.
Definition set_sorting (srt : Sorting) (w : Simple) : res Error Simple :=
  let w := mkSimple (cache w) (state w) (parents w) srt in
  match srt with
  | BreadthFirst => Ok (queue_to_vecdeque w)
  | _ =>
      q ← sort_tips (cutoff_time srt) (next_ (state w)) (queue (state w));
      Ok (with_state (mkState [] q (seen (state w))) w)
  end.
Definition set_parents (mode : Parents) (w : Simple) : Simple :=
  let w := mkSimple (cache w) (state w) mode (sorting w) in
  match mode with First => queue_to_vecdeque w | All => w end.
Definition commit_graph (c : option GraphFiles.Graph) (w : Simple) : Simple := mkSimple c (state w) (parents w) (sorting w).

(** ** Iteration *)

Inductive Either := IterOf (buf : bytes) | CachedCommit (c : CommitGraph.Commit).
Definition find (cache : option GraphFiles.Graph) (id : ObjectId) : res (@ExistingIterError Fe) Either :=
  cached ← match cache with Some cache => lift (GraphFiles.commit_by_id cache (as_slice id)) | None => Ok None end;
  match cached with
  | Some c => Ok (CachedCommit c)
  | None => IterOf <$> find_commit_iter try_find id
  end.
(** The parents with their times, or nothing if the cache is corrupt. *)
Definition collect_parents (cache : option GraphFiles.Graph) (commit : CommitGraph.Commit)
  : res Empty_set (option (list (ObjectId * Z))) :=
  cache ← expect cache;
  match CommitGraph.fold_parents (E := unit)
          (λ dest pos,
             parent ← lift (GraphFiles.graph_commit_at cache pos);
             id ← lift (CommitGraph.commit_id parent);
             id ← lift (to_owned id);
             Ok (dest ++ [(id, as_i64 (CommitGraph.commit_timestamp parent))]))
          (λ _, tt) commit (CommitGraph.parents_fuel commit) CommitGraph.First [] with
  | Ok dest => Ok (Some dest)
  | Err _ => Ok None
  | Panic => Panic
  end.

(** [state.seen.insert]. *)
Definition was_inserted (id : ObjectId) (s : State) : bool := bool_decide (id ∉ seen s).
Definition insert_seen (id : ObjectId) (s : State) : State := mkState (next_ s) (queue s) ({[id]} ∪ seen s).

(** *** By commit date *)

Definition parent_commit_time (id : ObjectId) : res Empty_set Z :=
  match find_commit_iter try_find id with
  | Ok parent =>
      match iter_committer (all_tokens parent) with
      | Ok committer => Ok (seconds (time committer))
      | Err _ => Ok 0
      | Panic => Panic
      end
  | Err _ => Ok 0
  | Panic => Panic
  end.
(** A parent; its time is only looked up if it is accepted. *)
Definition schedule_by_date (cutoff : option Z) (id : ObjectId) (parent_time : res Empty_set Z) (s : State) : res Empty_set State :=
  let new := was_inserted id s && predicate id in
  let s := insert_seen id s in
  if new then
    t ← parent_time;
    let inserted := mkState (next_ s) (queue_insert t id (queue s)) (seen s) in
    Ok (match cutoff with Some cutoff => if t <? cutoff then s else inserted | None => inserted end)
  else Ok s.
Fixpoint by_date_cached (cutoff : option Z) (ids : list (ObjectId * Z)) (ps : list ObjectId) (s : State)
  : res Empty_set (list ObjectId * State) :=
  match ids with
  | [] => Ok (ps, s)
  | (id, t) :: ids => s ← schedule_by_date cutoff id (Ok t) s; by_date_cached cutoff ids (ps ++ [id]) s
  end.
(** What the tokens yield, and the state, which a failure does not take back. *)
Fixpoint by_date_tokens (cutoff : option Z) (ts : list (res ErrMode Token)) (ps : list ObjectId) (s : State)
  : res Error (list ObjectId) * State :=
  match ts with
  | Ok (TTree _) :: ts => by_date_tokens cutoff ts ps s
  | Ok (TParent id) :: ts =>
      match schedule_by_date cutoff id (parent_commit_time id) s with
      | Ok s => by_date_tokens cutoff ts (ps ++ [id]) s
      | _ => (Panic, s)
      end
  | Err err :: _ => (Err (ObjectDecode err), s)
  | Panic :: _ => (Panic, s)
  | Ok _ :: _ | [] => (Ok ps, s)
  end.
Abbreviation Step := (option (res Error Info) * Simple)%type (only parsing).
(** [again] is the recursive call, without a cache. *)
Definition by_date (again : Simple → Step) (cutoff : option Z) (w : Simple) : Step :=
  match heap.pop (queue (state w)) with
  | None => (None, w)
  | Some (t, oid, q) =>
      let s := mkState (next_ (state w)) q (seen (state w)) in
      let item ps := mkInfo oid ps (Some t) in
      match find (cache w) oid with
      | Ok (CachedCommit commit) =>
          match collect_parents (cache w) commit with
          | Ok (Some ids) =>
              match by_date_cached cutoff ids [] s with
              | Ok (ps, s) => (Some (Ok (item ps)), with_state s w)
              | _ => (Some Panic, with_state s w)
              end
          | Ok None => again (without_cache (with_state s w))
          | _ => (Some Panic, with_state s w)
          end
      | Ok (IterOf buf) =>
          let '(ps, s) := by_date_tokens cutoff (all_tokens buf) [] s in (Some (item <$> ps), with_state s w)
      | Err err => (Some (Err (FindError err)), with_state s w)
      | Panic => (Some Panic, with_state s w)
      end
  end.
Definition next_by_commit_date (cutoff : option Z) (w : Simple) : Step :=
  by_date (by_date (λ w, (Some Panic, w)) cutoff) cutoff w.

(** *** By topology *)

Definition schedule (id : ObjectId) (s : State) : State :=
  let new := was_inserted id s && predicate id in
  let s := insert_seen id s in
  if new then mkState (next_ s ++ [id]) (queue s) (seen s) else s.
Fixpoint by_topology_cached (mode : Parents) (ids : list (ObjectId * Z)) (ps : list ObjectId) (s : State) : list ObjectId * State :=
  match ids with
  | [] => (ps, s)
  | (id, _) :: ids =>
      let ps := ps ++ [id] in
      let s := schedule id s in
      match mode with First => (ps, s) | All => by_topology_cached mode ids ps s end
  end.
Fixpoint by_topology_tokens (mode : Parents) (ts : list (res ErrMode Token)) (ps : list ObjectId) (s : State)
  : res Error (list ObjectId) * State :=
  match ts with
  | Ok (TTree _) :: ts => by_topology_tokens mode ts ps s
  | Ok (TParent id) :: ts =>
      let ps := ps ++ [id] in
      let s := schedule id s in
      match mode with First => (Ok ps, s) | All => by_topology_tokens mode ts ps s end
  | Err err :: _ => (Err (ObjectDecode err), s)
  | Panic :: _ => (Panic, s)
  | Ok _ :: _ | [] => (Ok ps, s)
  end.
Definition by_topology (again : Simple → Step) (w : Simple) : Step :=
  match next_ (state w) with
  | [] => (None, w)
  | oid :: rest =>
      let s := mkState rest (queue (state w)) (seen (state w)) in
      let item ps := mkInfo oid ps None in
      match find (cache w) oid with
      | Ok (CachedCommit commit) =>
          match collect_parents (cache w) commit with
          | Ok (Some ids) =>
              let '(ps, s) := by_topology_cached (parents w) ids [] s in (Some (Ok (item ps)), with_state s w)
          | Ok None => again (without_cache (with_state s w))
          | _ => (Some Panic, with_state s w)
          end
      | Ok (IterOf buf) =>
          let '(ps, s) := by_topology_tokens (parents w) (all_tokens buf) [] s in (Some (item <$> ps), with_state s w)
      | Err err => (Some (Err (FindError err)), with_state s w)
      | Panic => (Some Panic, with_state s w)
      end
  end.
Definition next_by_topology (w : Simple) : Step := by_topology (by_topology (λ w, (Some Panic, w))) w.

(** [Iterator::next]. *)
Definition next (w : Simple) : Step :=
  match parents w, sorting w with
  | First, _ | All, BreadthFirst => next_by_topology w
  | All, srt => next_by_commit_date (cutoff_time srt) w
  end.
(** The first items of the iterator. *)
Fixpoint items (n : nat) (w : Simple) : list (res Error Info) :=
  match n with
  | O => []
  | S n => match next w with (Some item, w) => item :: items n w | (None, _) => [] end
  end.
End Simple.

(** ** A worklist

    What the two ways of walking share: ids wait in [work], each is taken out
    once, in any order, and what is fresh among its successors is added. *)

Section Worklist.
Context (accept : ObjectId → bool).

(** The accepted ones that were not seen, without duplicates. *)
Fixpoint fresh (seen : gset ObjectId) (ids : list ObjectId) : list ObjectId :=
  match ids with
  | [] => []
  | id :: ids => (if bool_decide (id ∉ seen) && accept id then [id] else []) ++ fresh ({[id]} ∪ seen) ids
  end.
Lemma elem_of_fresh s ids x : x ∈ fresh s ids ↔ x ∈ ids ∧ x ∉ s ∧ accept x = true.
Proof.
  revert s. induction ids as [|id ids IH]; intros s; cbn [fresh]; [rewrite elem_of_nil; naive_solver|].
  rewrite elem_of_app, IH, elem_of_cons, not_elem_of_union, not_elem_of_singleton.
  case_bool_decide as E; destruct (accept id) eqn:Ea; cbn [andb]; rewrite ?list_elem_of_singleton, ?elem_of_nil;
    destruct (decide (x = id)) as [->|]; naive_solver congruence.
Qed.
Lemma NoDup_fresh s ids : NoDup (fresh s ids).
Proof.
  revert s. induction ids as [|id ids IH]; intros s; cbn [fresh]; [constructor|]. apply NoDup_app. split_and!; [|intros x Hx|apply IH].
  - destruct (_ && _); [apply NoDup_singleton|constructor].
  - rewrite elem_of_fresh, not_elem_of_union, not_elem_of_singleton. destruct (_ && _); [|by apply elem_of_nil in Hx].
    apply list_elem_of_singleton in Hx as ->. naive_solver.
Qed.

Context (succ : ObjectId → list ObjectId) (tips : list ObjectId).

(** What can be reached from the tips through accepted ids. *)
Inductive reachable : ObjectId → Prop :=
| reach_tip x : x ∈ tips → accept x = true → reachable x
| reach_step x y : reachable x → y ∈ succ x → accept y = true → reachable y.

Record progress (work out : list ObjectId) (s : gset ObjectId) : Prop := {
  p_nodup : NoDup (work ++ out);
  p_seen x : x ∈ work ++ out → x ∈ s;
  p_all x : x ∈ s → accept x = true → x ∈ work ++ out;
  p_reach x : x ∈ work ++ out → reachable x;
  p_closed x y : x ∈ out → y ∈ succ x → y ∈ s;
  p_tips x : x ∈ tips → x ∈ s }.
Lemma progress_perm work work' out s : work ≡ₚ work' → progress work out s → progress work' out s.
Proof. intros Hp [H1 H2 H3 H4 H5 H6]. split; try done; setoid_rewrite <- Hp; done. Qed.
Lemma progress_step x rest out s :
  progress (x :: rest) out s → progress (rest ++ fresh s (succ x)) (out ++ [x]) (list_to_set (succ x) ∪ s).
Proof.
  intros [H1 H2 H3 H4 H5 H6].
  assert (Hp : (rest ++ fresh s (succ x)) ++ (out ++ [x]) ≡ₚ fresh s (succ x) ++ ((x :: rest) ++ out)) by solve_Permutation.
  assert (Hx : reachable x) by (apply H4; by left).
  split.
  - rewrite Hp. apply NoDup_app. split_and!; [apply NoDup_fresh| |done]. intros y Hy Hin. apply elem_of_fresh in Hy as (_ & Hy & _). by apply Hy, H2.
  - intros y. rewrite Hp, elem_of_app, elem_of_fresh, elem_of_union, elem_of_list_to_set. intros [(? & _)|?]; [by left|right; by apply H2].
  - intros y Hy Ha. rewrite Hp, elem_of_app, elem_of_fresh. apply elem_of_union in Hy as [Hy|Hy]; [|right; by apply H3].
    apply elem_of_list_to_set in Hy. destruct (decide (y ∈ s)); [right; by apply H3|by left].
  - intros y. rewrite Hp, elem_of_app, elem_of_fresh. intros [(Hy & _ & Ha)|Hy]; [by eapply reach_step|by apply H4].
  - intros y z Hy Hz. rewrite elem_of_union, elem_of_list_to_set. apply elem_of_app in Hy as [Hy|Hy]; [right; by eapply H5|].
    left. by apply list_elem_of_singleton in Hy as ->.
  - intros y Hy. apply elem_of_union. right. by apply H6.
Qed.
Lemma progress_done out s x : progress [] out s → x ∈ out ↔ reachable x.
Proof.
  intros [H1 H2 H3 H4 H5 H6]. split; [apply (H4 x)|]. induction 1 as [y Hy Ha|y z _ IH Hz Ha]; apply H3; [by apply H6|done|by eapply H5|done].
Qed.

(** In how many steps an id is reached, and a queue whose ids carry the number
    of steps in which they were found. *)
Inductive reached_in : nat → ObjectId → Prop :=
| reached_tip x : x ∈ tips → accept x = true → reached_in 0 x
| reached_step n x y : reached_in n x → y ∈ succ x → accept y = true → reached_in (S n) y.
Record layers (work out : list (ObjectId * nat)) : Prop := {
  l_sorted : StronglySorted (λ a b, a.2 ≤ b.2)%nat (out ++ work);
  l_ahead x rest y : work = x :: rest → y ∈ out ++ work → (y.2 ≤ S x.2)%nat;
  l_reached x : x ∈ out ++ work → reached_in x.2 x.1;
  l_succ x d y : (x, d) ∈ out → y ∈ succ x → accept y = true → ∃ d', (y, d') ∈ out ++ work ∧ (d' ≤ S d)%nat;
  l_tips x : x ∈ tips → accept x = true → (x, 0%nat) ∈ out ++ work }.
Lemma StronglySorted_end {A} (R : A → A → Prop) l1 l2 :
  StronglySorted R l1 → StronglySorted R l2 → (∀ x y, x ∈ l1 → y ∈ l2 → R x y) → StronglySorted R (l1 ++ l2).
Proof.
  intros H1 H2 H. induction H1 as [|x l1 _ IH Hx]; [done|]. cbn. constructor; [apply IH; intros; apply H; [by right|done]|].
  apply Forall_app. split; [done|]. apply Forall_forall. intros y. apply H. by left.
Qed.
Lemma StronglySorted_le {A} (R : A → A → Prop) l x r y : StronglySorted R (l ++ x :: r) → y ∈ l → R y x.
Proof.
  induction l as [|z l IH]; cbn; intros H Hy; [by apply elem_of_nil in Hy|]. inversion H as [|? ? Hs Hz]. subst.
  apply elem_of_cons in Hy as [->|Hy]; [|by apply IH]. rewrite Forall_forall in Hz. apply Hz. set_solver.
Qed.
Lemma layers_step x d rest out s :
  layers ((x, d) :: rest) out → progress (x :: rest.*1) out.*1 s →
  layers (rest ++ ((λ y, (y, S d)) <$> fresh s (succ x))) (out ++ [(x, d)]).
Proof.
  intros [H1 H2 H3 H4 H5] Hp. set (new := (λ y, (y, S d)) <$> fresh s (succ x)).
  assert (Heq : (out ++ [(x, d)]) ++ rest ++ new = (out ++ (x, d) :: rest) ++ new) by (rewrite <- !app_assoc; reflexivity).
  assert (Hnew : ∀ y, y ∈ new → y.2 = S d ∧ y.1 ∈ succ x ∧ accept y.1 = true).
  { intros y Hy. apply list_elem_of_fmap in Hy as (z & -> & Hz). apply elem_of_fresh in Hz. naive_solver. }
  assert (Hle : ∀ y, y ∈ out ++ (x, d) :: rest → (y.2 ≤ S d)%nat) by (intros y Hy; by apply (H2 (x, d) rest y)).
  split; rewrite ?Heq.
  - apply StronglySorted_end; [done| |].
    + unfold new. generalize (fresh s (succ x)) as l. induction l; cbn; constructor; [done|]. apply Forall_fmap, Forall_true. cbn. lia.
    + intros a b Ha Hb. rewrite (proj1 (Hnew b Hb)). by apply Hle.
  - intros a r b Hr Hb. assert (Ha : (d ≤ a.2)%nat).
    { assert (Hin : a ∈ rest ++ new) by (rewrite Hr; by left). apply elem_of_app in Hin as [Hin|Hin]; [|rewrite (proj1 (Hnew a Hin)); lia].
      apply list_elem_of_split in Hin as (r1 & r2 & Hr'). rewrite Hr' in H1.
      apply (StronglySorted_le (λ a b, a.2 ≤ b.2)%nat (out ++ (x, d) :: r1) a r2 (x, d)); [by rewrite <- app_assoc|set_solver]. }
    apply elem_of_app in Hb as [Hb|Hb]; [specialize (Hle b Hb); lia|]. rewrite (proj1 (Hnew b Hb)). lia.
  - intros y Hy. apply elem_of_app in Hy as [Hy|Hy]; [by apply H3|]. destruct (Hnew y Hy) as (-> & Hs & Ha).
    apply (reached_step d x); [|done|done]. apply (H3 (x, d)). set_solver.
  - intros y e z Hy Hz Ha. apply elem_of_app in Hy as [Hy|Hy].
    + destruct (H4 y e z Hy Hz Ha) as (d' & Hd & Hle'). exists d'. split; [set_solver|done].
    + apply list_elem_of_singleton in Hy. injection Hy as -> ->. destruct (decide (z ∈ s)) as [Hs|Hs].
      * assert (Hin : z ∈ (out ++ (x, d) :: rest).*1).
        { pose proof (p_all _ _ _ Hp z Hs Ha) as Hin. rewrite fmap_app. cbn. set_solver. }
        apply list_elem_of_fmap in Hin as ([z' d'] & -> & Hin). exists d'. split; [set_solver|by apply (Hle (z', d'))].
      * exists (S d). split; [|done]. apply elem_of_app. right. unfold new. apply list_elem_of_fmap. exists z. split; [done|].
        by apply elem_of_fresh.
  - intros y Hy Ha. apply elem_of_app. left. by apply H5.
Qed.
Lemma layers_start : layers ((λ x, (x, 0%nat)) <$> fresh ∅ tips) [].
Proof.
  assert (H : ∀ x, x ∈ (λ x, (x, 0%nat)) <$> fresh ∅ tips → x.2 = 0%nat ∧ x.1 ∈ tips ∧ accept x.1 = true).
  { intros x Hx. apply list_elem_of_fmap in Hx as (y & -> & Hy). apply elem_of_fresh in Hy. naive_solver. }
  split; cbn [app].
  - generalize (fresh ∅ tips) as l. induction l; cbn; constructor; [done|]. apply Forall_fmap, Forall_true. cbn. lia.
  - intros x rest y _ Hy. rewrite (proj1 (H y Hy)). lia.
  - intros x Hx. destruct (H x Hx) as (-> & Ht & Ha). by apply reached_tip.
  - intros x d y Hx. by apply elem_of_nil in Hx.
  - intros x Hx Ha. apply list_elem_of_fmap. exists x. split; [done|]. apply elem_of_fresh. split_and!; [done|apply not_elem_of_empty|done].
Qed.
(** An earlier one is not farther from the tips. *)
Lemma layers_done out i j x y m : layers [] out → NoDup out.*1 →
  out.*1 !! i = Some x → out.*1 !! j = Some y → (i ≤ j)%nat → reached_in m y → ∃ k, (k ≤ m)%nat ∧ reached_in k x.
Proof.
  intros [H1 _ H3 H4 H5] Hnd Hx Hy Hij Hm. rewrite app_nil_r in *.
  assert (Hbest : ∃ d, (y, d) ∈ out ∧ (d ≤ m)%nat).
  { clear -Hm H4 H5. induction Hm as [y Hy Ha|n z y _ (d & Hd & Hle) Hy Ha]; [exists 0%nat; split; [by apply H5|lia]|].
    destruct (H4 z d y Hd Hy Ha) as (d' & Hd' & Hle'). exists d'. split; [done|lia]. }
  destruct Hbest as (d & Hd & Hle). rewrite !list_lookup_fmap in *.
  destruct (out !! i) as [[x' dx]|] eqn:Ei; [|done]. destruct (out !! j) as [[y' dy]|] eqn:Ej; [|done]. cbn in Hx, Hy. injection Hx as ->. injection Hy as ->.
  assert (dy = d) as ->.
  { apply list_elem_of_lookup in Hd as (j' & Hj'). assert (j' = j) as ->; [|congruence].
    apply (NoDup_lookup out.*1 j' j y Hnd); rewrite list_lookup_fmap; [by rewrite Hj'|by rewrite Ej]. }
  exists dx. split; [|apply (H3 (x, dx)); by eapply list_elem_of_lookup_2]. etransitivity; [|exact Hle].
  destruct (decide (i = j)) as [->|]; [rewrite Ei in Ej; injection Ej as _ ->; lia|].
  pose proof (list_elem_of_split_length _ _ _ Ej) as (l1 & l2 & -> & Hlen). rewrite lookup_app_l in Ei by lia.
  apply (StronglySorted_le (λ a b, a.2 ≤ b.2)%nat l1 (y, d) l2 (x, dx) H1). by eapply list_elem_of_lookup_2.
Qed.
End Worklist.

(** ** A call of [next] is a step of the worklist *)

Section Walk.
Context `{BA : !bstr.Api} `{WA : !winnow.Api} `{FA : !faster_hex.Api} `{HA : !heap.Api Z ObjectId} `{HL : !heap.Laws Z.le}.
Context {Fe : Type} (try_find : ObjectId → res Fe (option Data)) (predicate : ObjectId → bool).
(** The repository: the parents of each commit, and its time. *)
Context (repo : gmap ObjectId (list ObjectId * Z)).
Definition time_of (id : ObjectId) : Z := match repo !! id with Some (_, t) => t | None => 0 end.
Definition parents_in (id : ObjectId) : list ObjectId := match repo !! id with Some (ps, _) => ps | None => [] end.
Definition followed (mode : Parents) (ps : list ObjectId) : list ObjectId := match mode with All => ps | First => take 1 ps end.

(** The tokens of a commit, as far as they are read. *)
Definition commit_head (ps : list ObjectId) (t : Z) (ts : list (res ErrMode Token)) : Prop :=
  ∃ tree author committer rest,
    ts = Ok (TTree tree) :: ((λ p, Ok (TParent p)) <$> ps) ++ Ok (TAuthor author) :: Ok (TCommitter committer) :: rest ∧
    seconds (time committer) = t.
(** The database holds all commits, and a cache says the same about those that
    it holds. *)
Record reads (g : option GraphFiles.Graph) : Prop := {
  r_objects id ps t : repo !! id = Some (ps, t) → ∃ buf, find_commit_iter try_find id = Ok buf ∧ commit_head ps t (all_tokens buf);
  r_cache graph id ps t : g = Some graph → repo !! id = Some (ps, t) →
    ∃ c, GraphFiles.commit_by_id graph (as_slice id) = Ok c ∧
      ∀ commit, c = Some commit → collect_parents g commit = Ok (Some ((λ p, (p, time_of p)) <$> ps));
  r_closed id p : p ∈ parents_in id → is_Some (repo !! p) }.

Lemma find_commit g id ps t : reads g → repo !! id = Some (ps, t) →
  (∃ c, find try_find g id = Ok (CachedCommit c) ∧ collect_parents g c = Ok (Some ((λ p, (p, time_of p)) <$> ps))) ∨
  (∃ buf, find try_find g id = Ok (IterOf buf) ∧ commit_head ps t (all_tokens buf)).
Proof.
  intros [Ho Hc _] Hid. destruct (Ho _ _ _ Hid) as (buf & Hb & Hts). unfold find. destruct g as [graph|].
  - destruct (Hc graph _ _ _ eq_refl Hid) as (c & -> & Hcp). cbn [lift]. rewrite bind_Ok. destruct c as [c|].
    + left. eauto.
    + right. exists buf. by rewrite Hb.
  - right. exists buf. cbn. by rewrite Hb.
Qed.
Lemma head_committer ps t ts : commit_head ps t ts → ∃ s, iter_committer ts = Ok s ∧ seconds (time s) = t.
Proof.
  intros (tree & author & committer & rest & -> & Ht). exists committer. split; [|done]. unfold iter_committer. cbn [find_token].
  assert (H : ∀ ps l, find_token (λ t, match t with TCommitter s => Some s | _ => None end) (((λ p, Ok (TParent p)) <$> ps) ++ l) =
    find_token (λ t, match t with TCommitter s => Some s | _ => None end) l) by (induction ps0; [done|exact IHps0]).
  by rewrite H.
Qed.
Lemma parent_time g p : reads g → is_Some (repo !! p) → parent_commit_time try_find p = Ok (time_of p).
Proof.
  intros Hg [[ps t] Hp]. destruct (r_objects _ Hg _ _ _ Hp) as (buf & Hb & Hts). unfold parent_commit_time. rewrite Hb.
  apply head_committer in Hts as (s & -> & Hs). unfold time_of. by rewrite Hp, Hs.
Qed.

(** The effect of the parents on the state. *)
Definition seen_with (ids : list ObjectId) (s : gset ObjectId) : gset ObjectId := list_to_set ids ∪ s.
Lemma seen_with_cons id ids s : seen_with (id :: ids) s = seen_with ids ({[id]} ∪ s).
Proof. unfold seen_with. cbn. set_solver. Qed.

(** Which ids are accepted, with a cutoff. *)
Definition young (cutoff : option Z) (id : ObjectId) : bool := match cutoff with Some c => c <=? time_of id | None => true end.
Definition accepted (cutoff : option Z) (id : ObjectId) : bool := predicate id && young cutoff id.
Lemma accepted_none id : accepted None id = predicate id.
Proof. apply andb_true_r. Qed.
Definition appended (ids : list ObjectId) (s : State) : State :=
  mkState (next_ s ++ fresh (accepted None) (seen s) ids) (queue s) (seen_with ids (seen s)).
Lemma appended_cons id ids s : appended (id :: ids) s = appended ids (schedule predicate id s).
Proof.
  unfold appended, schedule, was_inserted, insert_seen. cbn [fresh]. rewrite seen_with_cons, accepted_none.
  destruct (_ && _); cbn; [by rewrite <- app_assoc|done].
Qed.
Lemma topology_cached mode ids ps s :
  by_topology_cached predicate mode ((λ p, (p, time_of p)) <$> ids) ps s = (ps ++ followed mode ids, appended (followed mode ids) s).
Proof.
  assert (H0 : ∀ s, appended [] s = s).
  { intros [n q se]. unfold appended, seen_with. cbn. by rewrite app_nil_r, (left_id_L ∅ (∪)). }
  revert ps s. induction ids as [|id ids IH]; intros ps s; [destruct mode; cbn; by rewrite app_nil_r, H0|].
  cbn [by_topology_cached fmap list_fmap]. destruct mode; cbn [followed take].
  - rewrite IH, <- app_assoc. cbn [followed]. by rewrite <- appended_cons.
  - by rewrite appended_cons, H0.
Qed.
Lemma topology_tokens mode ids t ts ps s : commit_head ids t ts →
  by_topology_tokens (Fe := Fe) predicate mode ts ps s =
    let '(ps, s) := by_topology_cached predicate mode ((λ p, (p, time_of p)) <$> ids) ps s in (Ok ps, s).
Proof.
  intros (tree & author & committer & rest & -> & _). cbn [by_topology_tokens]. revert ps s.
  induction ids as [|id ids IH]; intros ps s; [done|]. cbn [fmap list_fmap app by_topology_tokens by_topology_cached].
  destruct mode; [apply IH|done].
Qed.

Definition keyed (id : ObjectId) : Z * ObjectId := (time_of id, id).
Definition dated (cutoff : option Z) (ids : list ObjectId) (s : State) : State :=
  mkState (next_ s) (reverse (keyed <$> fresh (accepted cutoff) (seen s) ids) ++ queue s) (seen_with ids (seen s)).
Lemma dated_cons cutoff id ids s : ∃ s',
  schedule_by_date predicate cutoff id (Ok (time_of id)) s = Ok s' ∧ dated cutoff (id :: ids) s = dated cutoff ids s'.
Proof.
  unfold dated, schedule_by_date, was_inserted, insert_seen, accepted, young. cbn [fresh]. rewrite seen_with_cons, fmap_app, reverse_app.
  destruct (bool_decide (id ∉ seen s)), (predicate id); cbn [andb next_ queue seen]; try (eexists; split; [reflexivity|]; cbn; by rewrite app_nil_r).
  rewrite bind_Ok. destruct cutoff as [c|]; [rewrite Z.leb_antisym; destruct (time_of id <? c)|]; cbn [negb next_ queue seen];
    (eexists; split; [reflexivity|]; cbn; by rewrite <- ?app_assoc, ?app_nil_r).
Qed.
Lemma date_cached cutoff ids ps s :
  by_date_cached predicate cutoff ((λ p, (p, time_of p)) <$> ids) ps s = Ok (ps ++ ids, dated cutoff ids s).
Proof.
  revert ps s. induction ids as [|id ids IH]; intros ps s.
  { cbn. destruct s. unfold dated, seen_with. cbn. by rewrite app_nil_r, (left_id_L ∅ (∪)). }
  cbn [by_date_cached fmap list_fmap]. destruct (dated_cons cutoff id ids s) as (s' & -> & ->). rewrite bind_Ok, IH. by rewrite <- app_assoc.
Qed.
Lemma date_tokens g cutoff ids t ts ps s : reads g → Forall (λ p, is_Some (repo !! p)) ids → commit_head ids t ts →
  by_date_tokens try_find predicate cutoff ts ps s = (Ok (ps ++ ids), dated cutoff ids s).
Proof.
  intros Hg Hids (tree & author & committer & rest & -> & _). cbn [by_date_tokens]. revert ps s.
  induction Hids as [|id ids Hid _ IH]; intros ps s.
  { cbn. destruct s. unfold dated, seen_with. cbn. by rewrite app_nil_r, (left_id_L ∅ (∪)). }
  cbn [fmap list_fmap app by_date_tokens]. rewrite (parent_time _ _ Hg Hid).
  destruct (dated_cons cutoff id ids s) as (s' & -> & ->). rewrite IH. by rewrite <- app_assoc.
Qed.

(** What is waiting, and which ids are accepted, for both ways of walking. *)
Definition dated_walk (mode : Parents) (srt : Sorting) : bool :=
  match mode, srt with All, BreadthFirst | First, _ => false | All, _ => true end.
Definition info_of (mode : Parents) (srt : Sorting) (id : ObjectId) : Info :=
  mkInfo id (followed mode (parents_in id)) (if dated_walk mode srt then Some (time_of id) else None).
Definition by_dates (w : Simple) : bool := dated_walk (parents w) (sorting w).
Definition pending (w : Simple) : list ObjectId := if by_dates w then (queue (state w)).*2 else next_ (state w).
Definition accepts (w : Simple) : ObjectId → bool := accepted (if by_dates w then cutoff_time (sorting w) else None).
Definition successors (w : Simple) (id : ObjectId) : list ObjectId := followed (parents w) (parents_in id).
Definition keys_ok (w : Simple) : Prop := Forall (λ x, x.1 = time_of x.2) (queue (state w)).

Record stepped (w w' : Simple) (id : ObjectId) (rest : list ObjectId) : Prop := {
  st_state : w' = with_state (state w') w;
  st_pending : pending w ≡ₚ id :: rest;
  st_pending' : if by_dates w then pending w' ≡ₚ rest ++ fresh (accepts w) (seen (state w)) (successors w id)
                else pending w = id :: rest ∧ pending w' = rest ++ fresh (accepts w) (seen (state w)) (successors w id);
  st_newest : by_dates w = true → Forall (λ x, time_of x ≤ time_of id) rest;
  st_seen : seen (state w') = seen_with (successors w id) (seen (state w));
  st_keys : keys_ok w' }.
Lemma next_done w : pending w = [] → next try_find predicate w = (None, w).
Proof.
  unfold pending, by_dates, dated_walk, next. intros H. destruct (parents w), (sorting w); cbn in H;
    try (unfold next_by_topology, by_topology; by rewrite H);
    (apply fmap_nil_inv in H; unfold next_by_commit_date, by_date; rewrite H, (heap.pop_nil Z.le); done).
Qed.
Lemma topology_step w id rest : reads (cache w) → next_ (state w) = id :: rest → is_Some (repo !! id) →
  next_by_topology try_find predicate w =
    (Some (Ok (mkInfo id (successors w id) None)), with_state (appended (successors w id) (mkState rest (queue (state w)) (seen (state w)))) w).
Proof.
  intros Hg Hn [[ps t] Hid]. unfold next_by_topology, by_topology. rewrite Hn. cbn zeta.
  assert (Hs : successors w id = followed (parents w) ps) by (unfold successors, parents_in; by rewrite Hid).
  destruct (find_commit _ _ _ _ Hg Hid) as [(c & -> & ->)|(buf & -> & Hts)]; [|rewrite (topology_tokens _ _ _ _ _ _ Hts)];
    by rewrite topology_cached, Hs.
Qed.
Lemma date_step cutoff w t id q : reads (cache w) → heap.pop (queue (state w)) = Some (t, id, q) → is_Some (repo !! id) →
  next_by_commit_date try_find predicate cutoff w =
    (Some (Ok (mkInfo id (parents_in id) (Some t))), with_state (dated cutoff (parents_in id) (mkState (next_ (state w)) q (seen (state w)))) w).
Proof.
  intros Hg Hn [[ps t'] Hid]. unfold next_by_commit_date, by_date. rewrite Hn. cbn zeta.
  assert (Hp : parents_in id = ps) by (unfold parents_in; by rewrite Hid). rewrite Hp.
  destruct (find_commit _ _ _ _ Hg Hid) as [(c & -> & ->)|(buf & -> & Hts)].
  - by rewrite date_cached.
  - rewrite (date_tokens _ cutoff ps t' _ _ _ Hg); [done| |done]. apply Forall_forall. intros p Hin. apply (r_closed _ Hg id). by rewrite Hp.
Qed.
Lemma next_eq w : next try_find predicate w =
  if by_dates w then next_by_commit_date try_find predicate (cutoff_time (sorting w)) w else next_by_topology try_find predicate w.
Proof. unfold next, by_dates, dated_walk. by destruct (parents w), (sorting w). Qed.
Lemma next_step w : reads (cache w) → keys_ok w → Forall (λ id, is_Some (repo !! id)) (pending w) → pending w ≠ [] →
  ∃ id rest w', next try_find predicate w = (Some (Ok (info_of (parents w) (sorting w) id)), w') ∧ stepped w w' id rest.
Proof.
  intros Hg Hk Hin Hne. unfold info_of. fold (by_dates w) (successors w). destruct (by_dates w) eqn:Hd.
  - destruct (heap.pop_some Z.le (queue (state w))) as (t & id & q & Hpop & Hp & Hmax).
    { intros E. apply Hne. unfold pending. by rewrite Hd, E. }
    assert (Hall : Forall (λ x, x.1 = time_of x.2) ((t, id) :: q)) by (by rewrite <- Hp).
    inversion Hall as [|? ? Ht Hq]. cbn in Ht. subst t.
    assert (Hpend : pending w ≡ₚ id :: q.*2) by (unfold pending; rewrite Hd; by rewrite Hp).
    assert (Hid : is_Some (repo !! id)) by (rewrite Hpend in Hin; by inversion Hin).
    assert (Hs : successors w id = parents_in id) by (unfold successors; unfold by_dates, dated_walk in Hd; by destruct (parents w)).
    exists id, q.*2. eexists. fold (successors w id). rewrite Hs. split.
    { rewrite next_eq, Hd. by apply date_step. }
    split; cbn.
    + done.
    + done.
    + rewrite Hd. unfold pending, accepts. unfold by_dates in *. cbn [parents sorting with_state]. rewrite Hd, Hs. cbn.
      rewrite fmap_app, fmap_reverse, <- list_fmap_compose, list_fmap_id, reverse_Permutation. solve_Permutation.
    + intros _. apply Forall_fmap. clear -Hmax Hq Hp. rewrite Forall_forall in *. intros x Hx. cbn. rewrite <- (Hq x Hx). apply Hmax. rewrite Hp. by right.
    + by rewrite Hs.
    + unfold keys_ok. cbn. apply Forall_app. split; [|done]. apply Forall_reverse, Forall_fmap, Forall_true. done.
  - destruct (next_ (state w)) as [|id rest] eqn:En; [unfold pending in Hne; by rewrite Hd, En in Hne|].
    assert (Hpend : pending w = id :: rest) by (unfold pending; by rewrite Hd).
    assert (Hid : is_Some (repo !! id)) by (rewrite Hpend in Hin; by inversion Hin).
    exists id, rest. eexists. split.
    { rewrite next_eq, Hd. by apply topology_step. }
    split; cbn; [done|by rewrite Hpend| |by rewrite Hd|done|done].
    rewrite Hd. split; [done|]. unfold pending, accepts, by_dates in *. cbn [parents sorting with_state]. by rewrite Hd.
Qed.

(** ** Whole walks *)

Inductive runs : Simple → list Info → Prop :=
| runs_end w : next try_find predicate w = (None, w) → runs w []
| runs_next w w' i l : next try_find predicate w = (Some (Ok i), w') → runs w' l → runs w (i :: l).
Lemma runs_items w l n : runs w l → (length l < n)%nat → items try_find predicate n w = Ok <$> l.
Proof.
  intros H. revert n. induction H as [w H|w w' i l H _ IH]; intros [|n] Hn; cbn [length] in Hn; try lia; cbn [items]; rewrite H; [done|].
  cbn. f_equal. apply IH. lia.
Qed.

Section Tips.
Context (tips : list ObjectId) (Hknown : Forall (λ id, is_Some (repo !! id)) tips).
Record walking (w : Simple) (out : list ObjectId) : Prop := {
  w_reads : reads (cache w);
  w_keys : keys_ok w;
  w_progress : progress (accepts w) (successors w) tips (pending w) out (seen (state w)) }.
Lemma followed_in mode ps x : x ∈ followed mode ps → x ∈ ps.
Proof. destruct mode; [done|]. cbn. intros H. destruct ps as [|p ps]; [done|]. cbn in H. apply list_elem_of_singleton in H as ->. by left. Qed.
Lemma known_reachable g accept mode x : reads g → reachable accept (λ id, followed mode (parents_in id)) tips x → is_Some (repo !! x).
Proof.
  intros Hg. induction 1 as [x Hx _|x y _ _ Hy _]; [by rewrite Forall_forall in Hknown; apply Hknown|].
  apply (r_closed _ Hg x). by apply followed_in in Hy.
Qed.
Lemma walking_known w out : walking w out → Forall (λ id, is_Some (repo !! id)) (pending w ++ out).
Proof.
  intros [Hr _ Hp]. apply Forall_forall. intros x Hx. apply (known_reachable _ (accepts w) (parents w) _ Hr). by apply (p_reach _ _ _ _ _ _ Hp).
Qed.
Lemma walking_length w out : walking w out → (length (pending w ++ out) ≤ size repo)%nat.
Proof.
  intros Hw. pose proof (walking_known _ _ Hw) as Hk. rewrite <- size_dom, <- (size_list_to_set (C := gset ObjectId)) by apply (p_nodup _ _ _ _ _ _ (w_progress _ _ Hw)).
  apply subseteq_size. intros x Hx. apply elem_of_list_to_set in Hx. rewrite elem_of_dom. by rewrite Forall_forall in Hk; apply Hk.
Qed.
Lemma walking_step w out : walking w out → pending w ≠ [] →
  ∃ id rest w', next try_find predicate w = (Some (Ok (info_of (parents w) (sorting w) id)), w') ∧ stepped w w' id rest ∧ walking w' (out ++ [id]).
Proof.
  intros Hw Hne. pose proof Hw as [Hr Hk Hp]. pose proof (walking_known _ _ Hw) as [Hin _]%Forall_app.
  destruct (next_step w Hr Hk Hin Hne) as (id & rest & w' & Hn & Hs). exists id, rest, w'. split_and!; [done..|].
  pose proof Hs as [Hst Hpend Hpend' _ Hseen Hk']. rewrite Hst. split; [done|by rewrite Hst in Hk'|].
  change (accepts (with_state _ w)) with (accepts w). change (successors (with_state _ w)) with (successors w). rewrite <- Hst, Hseen.
  eapply progress_perm; [|eapply progress_step, progress_perm; [exact Hpend|exact Hp]].
  destruct (by_dates w); [by rewrite Hpend'|by rewrite (proj2 Hpend')].
Qed.
Lemma walking_runs w out : walking w out → ∃ ids, runs w (info_of (parents w) (sorting w) <$> ids) ∧ NoDup (out ++ ids) ∧
  (length (out ++ ids) ≤ size repo)%nat ∧ ∀ x, x ∈ out ++ ids ↔ reachable (accepts w) (successors w) tips x.
Proof.
  remember (size repo - length out)%nat as n eqn:Hn. revert w out Hn. induction n as [n IH] using lt_wf_ind. intros w out -> Hw.
  pose proof (walking_length _ _ Hw) as Hlen. rewrite length_app in Hlen. destruct (pending w) as [|x work] eqn:Hpend.
  - exists []. rewrite app_nil_r. pose proof (w_progress _ _ Hw) as Hp. rewrite Hpend in Hp. split_and!.
    + by apply runs_end, next_done.
    + apply (p_nodup _ _ _ _ _ _ Hp).
    + done.
    + intros y. by eapply progress_done.
  - destruct (walking_step _ _ Hw) as (id & rest & w' & Hnext & Hs & Hw'); [by rewrite Hpend|].
    destruct (IH (size repo - length (out ++ [id]))%nat) with (w := w') (out := out ++ [id]) as (ids & Hruns & Hnd & Hl & Hmem); [|done|done|].
    { rewrite length_app. cbn in *. lia. }
    rewrite (st_state _ _ _ _ Hs) in Hruns, Hmem. rewrite <- app_assoc in Hnd, Hl, Hmem. exists (id :: ids). split_and!; [|done..].
    cbn. eapply runs_next; [exact Hnext|]. rewrite (st_state _ _ _ _ Hs). exact Hruns.
Qed.

(** *** The start *)

Definition build (mode : Parents) (srt : Sorting) (g : option GraphFiles.Graph) : res (SimpleError Fe) Simple :=
  w ← set_sorting try_find srt (commit_graph g (filtered predicate tips)); Ok (set_parents mode w).
Lemma filtered_appended ids s : filtered_tips predicate ids s = appended ids s.
Proof.
  revert s. induction ids as [|id ids IH]; intros s; [destruct s; unfold appended, seen_with; cbn; by rewrite app_nil_r, (left_id_L ∅ (∪))|].
  rewrite appended_cons, <- IH. cbn [filtered_tips]. unfold schedule, was_inserted, insert_seen. by destruct (_ && _).
Qed.
Lemma sort_tips_ok g cutoff ids q : reads g → Forall (λ id, is_Some (repo !! id)) ids →
  sort_tips try_find cutoff ids q = Ok (reverse (keyed <$> filter (λ id, young cutoff id = true) ids) ++ q).
Proof.
  intros Hg H. revert q. induction H as [|id ids [[ps t] Hid] _ IH]; intros q; [done|]. cbn [sort_tips].
  destruct (r_objects _ Hg _ _ _ Hid) as (buf & -> & Hts). apply head_committer in Hts as (s & Hc & Hs).
  cbn [map_err]. rewrite bind_Ok, Hc. cbn [map_err]. rewrite bind_Ok, IH, Hs.
  assert (Ht : time_of id = t) by (unfold time_of; by rewrite Hid). rewrite filter_cons. unfold queue_insert.
  assert (Hkey : keyed id = (t, id)) by (unfold keyed; by rewrite Ht).
  case_decide as Hy; unfold young in Hy at 1; rewrite Ht in Hy.
  - cbn [fmap list_fmap]. rewrite reverse_cons, <- app_assoc, Hkey. by destruct cutoff as [c|]; [rewrite Hy|].
  - destruct cutoff as [c|]; [|done]. by destruct (c <=? t).
Qed.
Lemma progress_start accept succ work : NoDup work → (∀ x, x ∈ work ↔ x ∈ tips ∧ accept x = true) →
  progress accept succ tips work [] (seen_with tips ∅).
Proof.
  intros Hnd Hin. unfold seen_with.
  assert (Hs : ∀ x, x ∈ list_to_set tips ∪ (∅ : gset ObjectId) ↔ x ∈ tips) by (intros x; rewrite elem_of_union, elem_of_list_to_set, elem_of_empty; naive_solver).
  split; rewrite ?app_nil_r; [done|..].
  - intros x Hx. apply Hs. by apply Hin.
  - intros x Hx Ha. apply Hin. by rewrite Hs in Hx.
  - intros x [Hx Ha]%Hin. by apply reach_tip.
  - intros x y Hx. by apply elem_of_nil in Hx.
  - intros x Hx. by apply Hs.
Qed.
Lemma build_walking mode srt g : reads g → (mode = First → cutoff_time srt = None) →
  ∃ w, build mode srt g = Ok w ∧ parents w = mode ∧ sorting w = srt ∧ walking w [] ∧
    (srt = BreadthFirst → pending w = fresh (accepted None) ∅ tips).
Proof.
  intros Hg Hmode. unfold build, filtered. rewrite filtered_appended. unfold commit_graph, appended. cbn [state next_ queue seen parents sorting app].
  set (ids := fresh (accepted None) ∅ tips).
  assert (Hids : ∀ x, x ∈ ids ↔ x ∈ tips ∧ accepted None x = true) by (intros x; unfold ids; rewrite elem_of_fresh; pose proof (not_elem_of_empty (C := gset ObjectId) x); tauto).
  assert (Hnd : NoDup ids) by apply NoDup_fresh.
  assert (Hk : Forall (λ id, is_Some (repo !! id)) ids).
  { rewrite Forall_forall in *. intros x Hx. apply Hknown. by apply Hids. }
  set (young_ids := filter (λ id, young (cutoff_time srt) id = true) ids).
  assert (Hyoung : NoDup young_ids ∧ ∀ x, x ∈ young_ids ↔ x ∈ tips ∧ accepted (cutoff_time srt) x = true).
  { split; [by apply NoDup_filter|]. intros x. unfold young_ids. rewrite list_elem_of_filter, Hids. unfold accepted. rewrite !andb_true_iff. cbn. naive_solver. }
  assert (Hinto : heap.into_vec [] = @nil (Z * ObjectId)).
  { apply Permutation_nil. by rewrite (heap.into_vec_perm Z.le). }
  destruct (decide (srt = BreadthFirst)) as [->|Hsrt].
  - cbn [set_sorting]. rewrite bind_Ok. exists (mkSimple g (mkState ids [] (seen_with tips ∅)) mode BreadthFirst).
    unfold set_parents, queue_to_vecdeque, with_state. cbn. rewrite Hinto, app_nil_r. split_and!; [by destruct mode; cbn; rewrite ?Hinto, ?app_nil_r|done|done| |].
    + split; [done|by constructor|]. unfold pending, accepts, by_dates, dated_walk. cbn.
      destruct mode; by apply progress_start.
    + intros _. by destruct mode.
  - set (q := reverse (keyed <$> young_ids)).
    assert (Hset : set_sorting try_find srt (mkSimple g (mkState ids [] (seen_with tips ∅)) All BreadthFirst) =
      Ok (mkSimple g (mkState [] q (seen_with tips ∅)) All srt)).
    { unfold set_sorting. destruct srt; [done|..]; cbn [state next_ queue seen with_state cache parents sorting];
        rewrite (sort_tips_ok g) by done; rewrite bind_Ok; unfold q; by rewrite app_nil_r. }
    assert (Hq : q.*2 ≡ₚ young_ids).
    { unfold q. rewrite fmap_reverse, <- list_fmap_compose, list_fmap_id. apply reverse_Permutation. }
    rewrite Hset, bind_Ok. eexists. split; [reflexivity|]. destruct Hyoung as [Hnd' Hin]. destruct mode; cbn; split_and!; try done.
    + split; [done| |].
      * unfold keys_ok. cbn. apply Forall_reverse, Forall_fmap, Forall_true. done.
      * unfold pending, accepts, by_dates, dated_walk. cbn.
        destruct srt; [done|..]; (eapply progress_perm; [symmetry; exact Hq|]; by apply progress_start).
    + split; [done|by constructor|]. unfold pending, accepts, by_dates, queue_to_vecdeque. cbn. rewrite Hmode in Hin by done.
      eapply (progress_perm _ _ _ young_ids); [|by apply progress_start]. by rewrite (heap.into_vec_perm Z.le), Hq.
Qed.

(** *** The order of the items *)

Lemma infos_cons mode srt id ids id' l :
  info_of mode srt <$> (id :: ids) = info_of mode srt id' :: l → id = id' ∧ l = info_of mode srt <$> ids.
Proof. intros H. split; [by apply (f_equal (λ l, info_id <$> head l)) in H; injection H|by apply (f_equal tail) in H]. Qed.
Lemma runs_step w w' i l : next try_find predicate w = (Some (Ok i), w') → runs w l → ∃ l', l = i :: l' ∧ runs w' l'.
Proof. intros Hn Hr. inversion Hr as [? H|? w'' i' l' H Hr']; subst; rewrite Hn in H; [done|]. injection H as -> ->. eauto. Qed.
Lemma runs_end_inv w l : pending w = [] → runs w l → l = [].
Proof. intros Hp Hr. apply next_done in Hp. inversion Hr as [|? ? ? ? H]; subst; [done|]. by rewrite Hp in H. Qed.

Definition dates_ordered : Prop := ∀ x p, p ∈ parents_in x → time_of p ≤ time_of x.
Definition not_newer (t : Z) (id : ObjectId) : Prop := time_of id ≤ t.
Lemma runs_newest_first w out ids t : dates_ordered → walking w out → by_dates w = true →
  runs w (info_of (parents w) (sorting w) <$> ids) → Forall (not_newer t) (pending w) →
  Forall (not_newer t) ids ∧ StronglySorted (λ a b, not_newer (time_of a) b) ids.
Proof.
  intros Hdates. revert w out t. induction ids as [|id ids IH]; intros w out t Hw Hd Hr Ht; [by repeat constructor|].
  destruct (decide (pending w = [])) as [Hp|Hp]; [by apply (runs_end_inv w) in Hr|].
  destruct (walking_step _ _ Hw Hp) as (id' & rest & w' & Hn & Hs & Hw'). destruct (runs_step _ _ _ _ Hn Hr) as (l' & Hl & Hr').
  pose proof Hs as [Hst Hpend Hpend' Hnew _ _]. apply infos_cons in Hl as [-> ->]. rewrite Hpend in Ht. inversion Ht as [|? ? Hid Hrest].
  assert (Hnext : Forall (not_newer (time_of id')) (pending w')).
  { rewrite Hd in Hpend'. rewrite Hpend'. apply Forall_app. split; [by apply Hnew|]. apply Forall_forall. intros y Hy. apply elem_of_fresh in Hy as (Hy & _).
    apply Hdates. by eapply followed_in. }
  rewrite Hst in Hr'. destruct (IH w' (out ++ [id']) (time_of id') Hw') as (Hle & Hsorted); [by rewrite Hst|by rewrite Hst|done|].
  split; [constructor; [done|]|by constructor]. eapply Forall_impl; [exact Hle|]. intros y. unfold not_newer in *. lia.
Qed.
Lemma runs_layers w work out ids : walking w out.*1 → by_dates w = false → pending w = work.*1 →
  layers (accepts w) (successors w) tips work out → runs w (info_of (parents w) (sorting w) <$> ids) →
  ∃ out', out'.*1 = out.*1 ++ ids ∧ layers (accepts w) (successors w) tips [] out'.
Proof.
  revert w work out. induction ids as [|id ids IH]; intros w work out Hw Hd Hp Hlay Hr.
  - exists out. rewrite app_nil_r. split; [done|]. destruct (decide (pending w = [])) as [H|H].
    + rewrite H in Hp. symmetry in Hp. apply fmap_nil_inv in Hp as ->. done.
    + destruct (walking_step _ _ Hw H) as (id & rest & w' & Hn & _). by destruct (runs_step _ _ _ _ Hn Hr) as (? & ? & _).
  - destruct (decide (pending w = [])) as [H|H]; [by apply (runs_end_inv w) in Hr|].
    destruct (walking_step _ _ Hw H) as (id' & rest & w' & Hn & Hs & Hw'). destruct (runs_step _ _ _ _ Hn Hr) as (l' & Hl & Hr').
    pose proof Hs as [Hst _ Hpend' _ _ _]. rewrite Hd in Hpend'. destruct Hpend' as [Hpend Hpend']. apply infos_cons in Hl as [-> ->].
    rewrite Hpend in Hp. destruct work as [|[x d] work]; [done|]. injection Hp as -> Hp. rewrite Hst in Hr'.
    destruct (IH w' (work ++ ((λ y, (y, S d)) <$> fresh (accepts w) (seen (state w)) (successors w x))) (out ++ [(x, d)])) as (out' & Ho & Hlay').
    + by rewrite fmap_app.
    + by rewrite Hst.
    + rewrite Hpend', Hp, fmap_app, <- list_fmap_compose. f_equal. symmetry. apply list_fmap_id.
    + rewrite Hst. apply (layers_step _ _ _ _ _ _ _ _ Hlay). pose proof (w_progress _ _ Hw) as Hpr. by rewrite Hpend, Hp in Hpr.
    + by rewrite Hst.
    + exists out'. rewrite Hst in Hlay'. split; [|done]. by rewrite Ho, fmap_app, <- app_assoc.
Qed.

Abbreviation walked mode srt w ids := (∀ n, (size repo < n)%nat →
  items try_find predicate n w = (λ id, Ok (info_of mode srt id)) <$> ids) (only parsing).
Lemma build_runs mode srt g : reads g → (mode = First → cutoff_time srt = None) →
  ∃ w ids, build mode srt g = Ok w ∧ parents w = mode ∧ sorting w = srt ∧ walking w [] ∧
    runs w (info_of mode srt <$> ids) ∧ walked mode srt w ids ∧ NoDup ids ∧ (length ids ≤ size repo)%nat ∧
    (∀ x, x ∈ ids ↔ reachable (accepted (cutoff_time srt)) (λ id, followed mode (parents_in id)) tips x) ∧
    (srt = BreadthFirst → pending w = fresh (accepted None) ∅ tips).
Proof.
  intros Hg Hmode. destruct (build_walking mode srt g Hg Hmode) as (w & Hb & <- & <- & Hw & Hbf).
  destruct (walking_runs w [] Hw) as (ids & Hr & Hnd & Hl & Hmem). exists w, ids. split_and!; try done.
  - intros n Hn. rewrite (runs_items _ _ _ Hr) by (rewrite length_fmap; cbn in Hl; lia). by rewrite <- list_fmap_compose.
  - intros x. rewrite (Hmem x). unfold successors, accepts, by_dates, dated_walk. destruct (parents w) eqn:E; [by destruct (sorting w)|by rewrite Hmode].
Qed.

(** The other order of the two calls. *)
Definition build_parents_first (mode : Parents) (srt : Sorting) (g : option GraphFiles.Graph) : res (SimpleError Fe) Simple :=
  set_sorting try_find srt (set_parents mode (commit_graph g (filtered predicate tips))).
Lemma into_vec_nil : heap.into_vec [] = @nil (Z * ObjectId).
Proof. apply Permutation_nil. by rewrite (heap.into_vec_perm Z.le). Qed.
Lemma build_orders mode srt g : mode = All ∨ srt = BreadthFirst → build_parents_first mode srt g = build mode srt g.
Proof.
  intros H. unfold build, build_parents_first, filtered. rewrite filtered_appended. unfold commit_graph, appended. cbn [state next_ queue seen parents sorting app].
  destruct mode; cbn [set_parents cache state parents sorting].
  - destruct (set_sorting _ _ _) as [w|e|] eqn:E; [|done..]. rewrite bind_Ok. destruct w as [c st ps so]. unfold set_parents. cbn. unfold set_sorting in E.
    destruct srt; cbn in E; [|destruct (sort_tips _ _ _ _); [|done..]..]; by injection E as <- <- <- <-.
  - destruct H as [| ->]; [done|]. cbn. by rewrite !into_vec_nil.
Qed.
Lemma build_nothing srt g : reads g → srt ≠ BreadthFirst → ∃ w, build_parents_first First srt g = Ok w ∧ ∀ n, items try_find predicate n w = [].
Proof.
  intros Hg Hs. unfold build_parents_first, filtered. rewrite filtered_appended. unfold commit_graph, appended. cbn [set_parents state next_ queue seen parents sorting cache app].
  unfold queue_to_vecdeque, with_state. cbn [state queue next_ seen cache parents sorting]. rewrite into_vec_nil. cbn [fmap list_fmap]. rewrite app_nil_r.
  assert (Hk : Forall (λ id, is_Some (repo !! id)) (fresh (accepted None) ∅ tips)).
  { rewrite Forall_forall in *. intros x Hx. apply elem_of_fresh in Hx as (? & _). by apply Hknown. }
  destruct srt as [| |c]; [done|..]; unfold set_sorting; cbn [state next_ queue seen cutoff_time]; rewrite (sort_tips_ok g) by done; cbn [mbind res_bind];
    (eexists; split; [done|]; intros [|n]; done).
Qed.

(** C16: Every ancestor is yielded, exactly once.  For a repository whose commits
    can be read, known tips, no cache or one that agrees with the repository on
    the commits it holds, and every sorting and choice of parents (a cutoff only
    with all parents): if the sorting is set first and the parents then, the
    iterator ends after at most as many calls as there are commits, and each
    commit that is reached from the tips through commits that the predicate
    accepts and that are not older than the cutoff is yielded by one of the
    calls, with its parents and its time, and nothing else is.  Setting the
    parents first and the sorting then is the same, with one exception: with
    first parents only and a sorting by time nothing is yielded at all. *)
Theorem every_ancestor_yielded mode srt g :
  reads g → (mode = First → cutoff_time srt = None) →
  (∃ w ids, build mode srt g = Ok w ∧ NoDup ids ∧ (length ids ≤ size repo)%nat ∧
    (∀ x, x ∈ ids ↔ reachable (accepted (cutoff_time srt)) (λ id, followed mode (parents_in id)) tips x) ∧
    walked mode srt w ids) ∧
  (mode = All ∨ srt = BreadthFirst → build_parents_first mode srt g = build mode srt g) ∧
  (mode = First → srt ≠ BreadthFirst → ∃ w, build_parents_first mode srt g = Ok w ∧ ∀ n, items try_find predicate n w = []).
Proof.
  intros Hg Hmode. split_and!; [|apply build_orders|intros ->; by apply build_nothing].
  destruct (build_runs mode srt g Hg Hmode) as (w & ids & Hb & _ & _ & _ & _ & Hi & Hnd & Hl & Hmem & _). eauto 10.
Qed.

(** By commit time, newest first.  When no commit is older than its parents
    the commits are yielded from the newest to the oldest. *)
Theorem newest_first_sorted srt g :
  reads g → dates_ordered → srt ≠ BreadthFirst →
  ∃ w ids, build All srt g = Ok w ∧ walked All srt w ids ∧ StronglySorted (λ a b, time_of b ≤ time_of a) ids.
Proof.
  intros Hg Hd Hsrt. destruct (build_runs All srt g Hg) as (w & ids & Hb & Hp & Hs & Hw & Hr & Hi & _); [done|].
  exists w, ids. split_and!; [done..|].
  destruct (runs_newest_first w [] ids (foldr Z.max 0 (time_of <$> pending w)) Hd Hw) as [_ H]; [|by rewrite Hp, Hs| |done].
  - unfold by_dates. rewrite Hp, Hs. by destruct srt.
  - apply Forall_forall. intros x Hx. unfold not_newer. induction (pending w) as [|y l IH]; [by apply elem_of_nil in Hx|].
    apply elem_of_cons in Hx as [->|Hx]; cbn; [lia|]. specialize (IH Hx). cbn in IH. lia.
Qed.

(** Breadth first means closest first.  A commit that is yielded before
    another one is not more steps away from the tips. *)
Theorem breadth_first_closest_first mode g :
  reads g →
  ∃ w ids, build mode BreadthFirst g = Ok w ∧ walked mode BreadthFirst w ids ∧
    ∀ i j x y m, ids !! i = Some x → ids !! j = Some y → (i ≤ j)%nat →
      reached_in (accepted None) (λ id, followed mode (parents_in id)) tips m y →
      ∃ k, (k ≤ m)%nat ∧ reached_in (accepted None) (λ id, followed mode (parents_in id)) tips k x.
Proof.
  intros Hg. destruct (build_runs mode BreadthFirst g Hg) as (w & ids & Hb & Hp & Hs & Hw & Hr & Hi & Hnd & _ & _ & Hbf); [done|].
  exists w, ids. split_and!; [done..|]. specialize (Hbf eq_refl).
  assert (Hd : by_dates w = false) by (unfold by_dates; rewrite Hp, Hs; by destruct mode).
  assert (Ha : accepts w = accepted None) by (unfold accepts; by rewrite Hd).
  destruct (runs_layers w ((λ x, (x, 0%nat)) <$> pending w) [] ids Hw Hd) as (out & Ho & Hlay).
  - rewrite <- list_fmap_compose. symmetry. apply list_fmap_id.
  - rewrite Ha, Hbf. apply layers_start.
  - by rewrite Hp, Hs.
  - cbn in Ho. subst ids. intros i j x y m Hx Hy Hij Hm. unfold successors in Hlay. rewrite Ha, Hp in Hlay.
    by eapply layers_done.
Qed.
End Tips.
End Walk.

(** ** Examples *)

Definition date_heap : heap.Api Z ObjectId := heap_by Z.compare.
Lemma date_heap_laws : @heap.Laws _ _ Z.le date_heap.
Proof. apply (heap_by_laws (V := ObjectId) Z.compare); [intros a b; apply Z.compare_antisym|intros a b c; apply Z.le_trans]. Qed.
Definition history_of (l : list (Z * (list Z * Z))) : gmap ObjectId (list ObjectId * Z) :=
  list_to_map ((λ x : Z * (list Z * Z), (num_id x.1, (num_id <$> x.2.1, x.2.2))) <$> l).
Definition impl_build := build (BA := bstr_impl) (WA := winnow_impl) (FA := hex_impl) (HA := date_heap) (Fe := Empty_set).
Definition impl_items := items (BA := bstr_impl) (WA := winnow_impl) (FA := hex_impl) (HA := date_heap) (Fe := Empty_set).
Definition impl_reads := reads (BA := bstr_impl) (WA := winnow_impl) (FA := hex_impl) (Fe := Empty_set).
Abbreviation impl_tokens ps t := (all_tokens (BA := bstr_impl) (WA := winnow_impl) (FA := hex_impl) (commit_object ps t)).

(** The example graph with one more commit, which only the database has. *)
Definition sample_history : list (Z * (list Z * Z)) :=
  [(5, ([4; 1], 1010)); (4, ([3; 2; 1], 1003)); (3, ([2; 1], 1002)); (2, ([1], 1001)); (1, ([], 1000))].
Definition sample_graph : GraphFiles.Graph :=
  match CommitGraph.file_new GraphFiles.example_data [] with Ok f => GraphFiles.mkGraph [f] | _ => GraphFiles.mkGraph [] end.
Lemma history_cases l id ps t : history_of l !! id = Some (ps, t) →
  ∃ n ms, (n, (ms, t)) ∈ l ∧ id = num_id n ∧ ps = num_id <$> ms.
Proof.
  intros H. apply elem_of_list_to_map_2 in H. apply list_elem_of_fmap in H as ([n [ms u]] & [= -> -> ->] & Hin). eauto.
Qed.
Lemma objects_found l : Forall (λ x, commit_head (num_id <$> x.2.1) x.2.2 (impl_tokens x.2.1 x.2.2)) l →
  ∀ id ps t, history_of l !! id = Some (ps, t) → ∃ buf, find_commit_iter (objects_of l) id = Ok buf ∧
    commit_head ps t (all_tokens (BA := bstr_impl) (WA := winnow_impl) (FA := hex_impl) buf).
Proof.
  intros Hl id ps t. unfold find_commit_iter, find_iter. induction Hl as [|[n [ms u]] l Hx _ IH]; [done|]. cbn [objects_of].
  unfold history_of. rewrite fmap_cons. cbn [list_to_map foldr uncurry fst snd]. case_bool_decide as E.
  - subst id. rewrite lookup_insert_eq. intros [= <- <-]. exists (commit_object ms u). split; [done|exact Hx].
  - rewrite lookup_insert_ne by done. exact IH.
Qed.
Lemma cache_agrees (g : GraphFiles.Graph) id (expected : list (ObjectId * Z)) :
  match GraphFiles.commit_by_id g (as_slice id) with
  | Ok None => True
  | Ok (Some commit) => collect_parents (Some g) commit = Ok (Some expected)
  | _ => False
  end →
  ∃ c, GraphFiles.commit_by_id g (as_slice id) = Ok c ∧ ∀ commit, c = Some commit → collect_parents (Some g) commit = Ok (Some expected).
Proof. destruct (GraphFiles.commit_by_id g (as_slice id)) as [[c|]| |]; intros H; [|by eexists|done..]. exists (Some c). split; [done|]. by intros ? [= <-]. Qed.
Lemma sample_reads : impl_reads (objects_of sample_history) (history_of sample_history) (Some sample_graph).
Proof.
  split.
  - apply objects_found. repeat constructor; do 4 eexists; split; vm_compute; reflexivity.
  - intros graph id ps t Hg H. apply (inj Some) in Hg as <-. apply history_cases in H as (n & ms & Hin & -> & ->).
    unfold sample_history in Hin. rewrite !elem_of_cons, elem_of_nil in Hin. destruct_or?; simplify_eq; apply cache_agrees;
      (vm_compute; (reflexivity || exact I)).
  - intros id p. unfold parents_in. destruct (history_of sample_history !! id) as [[ps t]|] eqn:H; [|by rewrite elem_of_nil].
    apply history_cases in H as (n & ms & Hin & -> & ->). unfold sample_history in Hin. rewrite !elem_of_cons, elem_of_nil in Hin.
    destruct_or?; simplify_eq; cbn [fmap list_fmap]; rewrite ?elem_of_cons, ?elem_of_nil; intros ?; destruct_or?; subst; try done; by_decision.
Qed.
Lemma sample_dates : dates_ordered (history_of sample_history).
Proof.
  intros x p. unfold parents_in, time_of at 2. destruct (history_of sample_history !! x) as [[ps t]|] eqn:H; [|by rewrite elem_of_nil].
  apply history_cases in H as (n & ms & Hin & -> & ->). unfold sample_history in Hin. rewrite !elem_of_cons, elem_of_nil in Hin.
  destruct_or?; simplify_eq; cbn [fmap list_fmap]; rewrite ?elem_of_cons, ?elem_of_nil; intros ?; destruct_or?; subst; try done;
    vm_compute; discriminate.
Qed.
Definition numbered (l : list (res (SimpleError Empty_set) Info)) : list (list Z * list (list Z)) :=
  omap (λ i, match i with Ok i => Some (take 1 (as_slice (info_id i)), take 1 ∘ as_slice <$> parent_ids i) | _ => None end) l.
Definition everything (_ : ObjectId) : bool := true.
Definition sample_walk (mode : Parents) (srt : Sorting) : list (list Z) :=
  match impl_build (objects_of sample_history) everything [num_id 5] mode srt (Some sample_graph) with
  | Ok w => fst <$> numbered (impl_items (objects_of sample_history) everything 9 w)
  | _ => []
  end.
(** Commit 1 is a parent of commit 5: breadth first it is found before 3 and 2. *)
Example sample_walks :
  sample_walk All BreadthFirst = [[5]; [4]; [1]; [3]; [2]] ∧
  sample_walk All ByCommitTimeNewestFirst = [[5]; [4]; [3]; [2]; [1]] ∧
  sample_walk All (ByCommitTimeNewestFirstCutoffOlderThan 1002) = [[5]; [4]; [3]] ∧
  sample_walk First BreadthFirst = [[5]; [4]; [3]; [2]; [1]].
Proof. by vm_compute. Qed.

(** [parents(First)] before [sorting(ByCommitTimeNewestFirst)], instead of
    behind it, moves the tips where the walk does not look for them. *)
Example first_parents_then_sorting_is_empty :
  match set_sorting (BA := bstr_impl) (WA := winnow_impl) (FA := hex_impl) (HA := date_heap) (objects_of sample_history) ByCommitTimeNewestFirst
          (set_parents (HA := date_heap) First (filtered everything [num_id 5])) with
  | Ok w => impl_items (objects_of sample_history) everything 9 w = [] ∧ (queue (state w)).*2 = [num_id 5]
  | _ => False
  end.
Proof. by vm_compute. Qed.

(** A graph whose second commit has a parent that is an extended edge: the
    cache is dropped when this shows, and with it the commit that was just
    taken, which is not looked up in the database. *)
Definition corrupt_graph : GraphFiles.Graph :=
  match CommitGraph.file_new (CommitGraph.graph_file
          [CommitGraph.mkStored (replicate 20 1) (replicate 20 9) [] 1 1000;
           CommitGraph.mkStored (replicate 20 2) (replicate 20 9) [2147483648] 2 1001] [] (replicate 20 7)) [] with
  | Ok f => GraphFiles.mkGraph [f]
  | _ => GraphFiles.mkGraph []
  end.
Definition walk_from (n : Z) (g : option GraphFiles.Graph) : list (list Z) :=
  match impl_build (objects_of sample_history) everything [num_id n] All BreadthFirst g with
  | Ok w => fst <$> numbered (impl_items (objects_of sample_history) everything 9 w)
  | _ => []
  end.
Example corrupt_cache_loses_commit : walk_from 2 None = [[2]; [1]] ∧ walk_from 2 (Some corrupt_graph) = [].
Proof. by vm_compute. Qed.
Lemma sample_tips : Forall (λ id, is_Some (history_of sample_history !! id)) [num_id 5].
Proof. by_decision. Qed.
Lemma every_ancestor_yielded_witness :
  impl_reads (objects_of sample_history) (history_of sample_history) (Some sample_graph) ∧
  ∃ w ids, impl_build (objects_of sample_history) everything [num_id 5] First BreadthFirst (Some sample_graph) = Ok w ∧
    num_id 4 ∈ ids ∧ NoDup ids ∧
    impl_items (objects_of sample_history) everything 6 w = (λ id, Ok (info_of (history_of sample_history) First BreadthFirst id)) <$> ids.
Proof.
  split; [exact sample_reads|].
  destruct (every_ancestor_yielded (HL := date_heap_laws) (objects_of sample_history) everything (history_of sample_history) [num_id 5] sample_tips
    First BreadthFirst (Some sample_graph) sample_reads) as [(w & ids & Hb & Hnd & _ & Hmem & Hi) _]; [done|].
  exists w, ids. split_and!; [exact Hb| |done|apply Hi; by_decision]. apply Hmem. apply (reach_step _ _ _ (num_id 5)).
  - apply reach_tip; [by left|done].
  - vm_compute. by left.
  - done.
Defined.
Lemma newest_first_sorted_witness :
  dates_ordered (history_of sample_history) ∧
  ∃ w ids, impl_build (objects_of sample_history) everything [num_id 5] All ByCommitTimeNewestFirst (Some sample_graph) = Ok w ∧
    impl_items (objects_of sample_history) everything 6 w = (λ id, Ok (info_of (history_of sample_history) All ByCommitTimeNewestFirst id)) <$> ids ∧
    StronglySorted (λ a b, time_of (history_of sample_history) b ≤ time_of (history_of sample_history) a) ids.
Proof.
  split; [exact sample_dates|].
  destruct (newest_first_sorted (HL := date_heap_laws) (objects_of sample_history) everything (history_of sample_history) [num_id 5] sample_tips
    ByCommitTimeNewestFirst (Some sample_graph) sample_reads sample_dates) as (w & ids & Hb & Hi & Hs); [done|].
  exists w, ids. split_and!; [exact Hb|apply Hi; by_decision|exact Hs].
Defined.
Lemma breadth_first_closest_first_witness :
  ∃ w ids, impl_build (objects_of sample_history) everything [num_id 5] All BreadthFirst (Some sample_graph) = Ok w ∧
    impl_items (objects_of sample_history) everything 6 w = (λ id, Ok (info_of (history_of sample_history) All BreadthFirst id)) <$> ids ∧
    ∀ i j x, ids !! i = Some x → ids !! j = Some (num_id 1) → (i ≤ j)%nat →
      ∃ k, (k ≤ 1)%nat ∧ reached_in (accepted everything (history_of sample_history) None)
        (λ id, followed All (parents_in (history_of sample_history) id)) [num_id 5] k x.
Proof.
  destruct (breadth_first_closest_first (HL := date_heap_laws) (objects_of sample_history) everything (history_of sample_history) [num_id 5] sample_tips
    All (Some sample_graph) sample_reads) as (w & ids & Hb & Hi & Hs).
  exists w, ids. split_and!; [exact Hb|apply Hi; by_decision|]. intros i j x Hx Hy Hij. apply (Hs i j x (num_id 1) 1%nat Hx Hy Hij).
  apply (reached_step _ _ _ 0 (num_id 5)); [by apply reached_tip; [left|]| |done]. vm_compute. right. by left.
Defined.
