(* ===== verification/PackedRefs.v ===== *)
(** * Packed references: [gix-ref/src/store/packed]

    The file [packed-refs]: parsing ([decode.rs]), opening and sorting
    ([buffer.rs]), searching ([find.rs]), iterating ([iter.rs]), and the
    transactions that rewrite it ([transaction.rs]).

    A memory map is the bytes of the file.  The lock file of a transaction is
    the text that is written to it. *)

From S2P Require Import Prelude Slices External Winnow Hash Paths PackEntry Btoi Actor ObjectParse CommitObject ObjectTree ObjectFind Validate TagObject RefName.
Import winnow.

(** ** [parse.rs], [decode.rs] *)

Section Parse.
Context `{BA : !bstr.Api} `{WA : !winnow.Api}.

Definition is_hex_digit_lc (b : Z) : bool := between (ch "0") (ch "9") b || between (ch "a") (ch "f") b.
Definition hex_hash : parser bytes := take_while (len_in_hex shortest) (Some (len_in_hex longest)) is_hex_digit_lc.
Definition newline : parser bytes := alt (literal [13; 10]) (literal [10]).

Inductive Peeled := Unspecified | Partial | Fully.
Record Header := mkHeader { peeled : Peeled; sorted_ : bool }.
Definition until_newline : parser bytes :=
  terminated (take_while 0 None (λ b, negb (b =? 13) && negb (b =? 10))) newline.
Definition header_traits (traits : bytes) : Header :=
  foldl (λ h token,
           if bool_decide (token = bs "fully-peeled") then mkHeader Fully (sorted_ h)
           else if bool_decide (token = bs "peeled") then mkHeader Partial (sorted_ h)
           else if bool_decide (token = bs "sorted") then mkHeader (peeled h) true
           else h)
    (mkHeader Unspecified false) (bstr.split_str traits [32]).
Definition header : parser Header := map (preceded (literal (bs "# pack-refs with: ")) until_newline) header_traits.

(** The target and the peeled object are in hexadecimal. *)
Record Reference := mkReference { r_name : bytes; r_target : bytes; r_object : option bytes }.
Definition reference : parser Reference :=
  map (pair (pair (terminated hex_hash (literal [32])) (try_map until_newline ref_name))
         (opt (delimited (literal (bs "^")) hex_hash newline)))
    (λ '(target, name, object), mkReference name target object).
Definition reference_target `{!faster_hex.Api} {E} (r : Reference) : res E ObjectId := from_hex_expect (r_target r).
Definition reference_object `{!faster_hex.Api} {E} (r : Reference) : res E ObjectId :=
  match r_object r with None => reference_target r | Some id => from_hex_expect id end.

(** ** [iter.rs] *)

Record Iter := mkIter { cursor : bytes; current_line : Z; iter_prefix : option bytes }.
Inductive IterError := HeaderLine (invalid_first_line : bytes) | ReferenceLine (invalid_line : bytes) (line_number : Z).

Definition iter_new_with_prefix (packed : bytes) (prefix : option bytes) : res IterError Iter :=
  match packed with
  | [] => Ok (mkIter packed 1 prefix)
  | b :: _ =>
      if b =? ch "#" then
        match preceded header rest packed with
        | Ok (refs, _) => Ok (mkIter refs 2 prefix)
        | Err _ => Err (HeaderLine (match bstr.lines packed with l :: _ => l | [] => packed end))
        | Panic => Panic
        end
      else Ok (mkIter packed 1 prefix)
  end.
Definition iter_new (packed : bytes) : res IterError Iter := iter_new_with_prefix packed None.
(** A line that is not a reference is skipped with an error. *)
Definition iter_next (it : Iter) : option (res IterError Reference) * Iter :=
  if bool_decide (cursor it = []) then (None, it)
  else
    let line := wrap 64 (current_line it + 1) in
    match reference (cursor it) with
    | Ok (r, rest) =>
        match iter_prefix it with
        | Some prefix =>
            if starts_with (r_name r) prefix then (Some (Ok r), mkIter rest line (iter_prefix it))
            else (None, mkIter [] line (iter_prefix it))
        | None => (Some (Ok r), mkIter rest line (iter_prefix it))
        end
    | Err _ =>
        let '(failed_line, next_cursor) :=
          match bstr.find_byte (cursor it) 10 with
          | Some pos => (take (pos + 1) (cursor it), drop (pos + 1) (cursor it))
          | None => (cursor it, [])
          end in
        (Some (Err (ReferenceLine (take (length failed_line - 1) failed_line) (current_line it))), mkIter next_cursor line (iter_prefix it))
    | Panic => (Some Panic, it)
    end.
(** All items; every one consumes input, so its length bounds their number. *)
Fixpoint iter_items_fuel (fuel : nat) (it : Iter) : list (res IterError Reference) :=
  match iter_next it with
  | (None, _) => []
  | (Some item, it) => item :: match fuel with O => [Panic] | S fuel => iter_items_fuel fuel it end
  end.
Definition iter_items (it : Iter) : list (res IterError Reference) := iter_items_fuel (length (cursor it)) it.

(** ** [buffer.rs] *)

Record Buffer := mkBuffer { b_data : bytes; b_offset : nat }.
Definition as_ref {E} (b : Buffer) : res E bytes := slice_from (b_data b) (b_offset b).
Inductive OpenError := IterFailed (e : IterError) | HeaderParsing.

Definition serialize (entry : Reference) : bytes :=
  r_target entry ++ [32] ++ r_name entry ++ [10] ++
  match r_object entry with Some object => bs "^" ++ object ++ [10] | None => [] end.
Definition name_cmp (a b : Reference) : comparison := bytes_cmp (r_name a) (r_name b).
(** [open_with_backing], and [from_bytes]. *)
Definition from_bytes (backing : bytes) : res OpenError Buffer :=
  '(offset, srt) ←
    match backing with
    | b :: _ =>
        if b =? ch "#" then
          match header backing with
          | Ok (h, rest) => Ok ((length backing - length rest)%nat, sorted_ h)
          | Err _ => Err HeaderParsing
          | Panic => Panic
          end
        else Ok (0%nat, false)
    | [] => Ok (0%nat, false)
    end;
  if (srt : bool) then Ok (mkBuffer backing offset)
  else
    tail ← slice_from backing offset;
    it ← map_err IterFailed (iter_new tail);
    entries ← map_err IterFailed (mapM_res (λ item, item) (iter_items it));
    Ok (mkBuffer (concat (serialize <$> sort_by name_cmp entries)) 0).

(** ** [find.rs] *)

Inductive FindError := RefnameValidation (e : ref_error) | ParseFailed.

Definition search_start_of_record (a : bytes) (ofs : nat) : res Empty_set nat :=
  before ← slice_to a ofs;
  match bstr.rfind before [10] with
  | Some pos =>
      let candidate := (pos + 1)%nat in
      match a !! candidate with
      | Some b =>
          if b =? ch "^" then
            before ← slice_to a pos;
            Ok (match bstr.rfind before [10] with Some pos => (pos + 1)%nat | None => 0%nat end)
          else Ok candidate
      | None => Ok 0%nat
      end
  | None => Ok 0%nat
  end.
(** The name of the record that a byte belongs to; the captured variable is set
    when it cannot be parsed. *)
Definition record_key (a : bytes) (encountered_parse_failure : bool) (ofs : nat) : res Empty_set (bool * bytes) :=
  start ← search_start_of_record a ofs;
  line ← slice_from a start;
  match reference line with
  | Ok (r, _) => Ok (encountered_parse_failure, r_name r)
  | Err _ => Ok (true, [])
  | Panic => Panic
  end.
(** The bytes are searched by their offsets. *)
Definition binary_search_by_name (a full_name : bytes) : res Empty_set (nat + bool * nat) :=
  '(failure, r) ← binary_search_by
    (λ failure ofs, '(failure, key) ← record_key a failure ofs; Ok (failure, bytes_cmp key full_name)) (seq 0 (length a)) false;
  match r with
  | inl ofs => start ← search_start_of_record a ofs; Ok (inl start)
  | inr pos => start ← search_start_of_record a pos; Ok (inr (failure, start))
  end.
Definition try_find_full_name (b : Buffer) (name : bytes) : res FindError (option Reference) :=
  a ← as_ref b;
  r ← lift (binary_search_by_name a name);
  match r with
  | inl line_start =>
      input ← slice_from a line_start;
      match reference input with
      | Ok (r, _) => Ok (Some r)
      | Err _ => Err ParseFailed
      | Panic => Panic
      end
  | inr (parse_failure, _) => if (parse_failure : bool) then Err ParseFailed else Ok None
  end.
Definition transform_full_name_for_lookup (name : bytes) : res Empty_set (option bytes) :=
  c ← category_and_short_name name;
  Ok (match c with
      | Some (c, sn) =>
          match c with
          | MainRef | LinkedRef _ => Some sn
          | CTag | RemoteBranch | LocalBranch | Bisect | Rewritten | Note => Some name
          | MainPseudoRef | PseudoRef | LinkedPseudoRef _ | WorktreePrivate => None
          end
      | None => Some name
      end).
Fixpoint try_find_loop (b : Buffer) (partial_name : bytes) (inbetweens : list bytes) : res FindError (option Reference) :=
  match inbetweens with
  | [] => Ok None
  | inbetween :: inbetweens =>
      if looks_like_full_name partial_name then
        name ← lift (transform_full_name_for_lookup partial_name);
        match name with
        | None => Ok None
        | Some name => try_find_full_name b name
        end
      else
        r ← try_find_full_name b (construct_full_name_ref partial_name inbetween);
        match r with
        | Some r => Ok (Some r)
        | None => try_find_loop b partial_name inbetweens
        end
  end.
(** For a partial name that was validated. *)
Definition try_find (b : Buffer) (partial_name : bytes) : res FindError (option Reference) :=
  try_find_loop b partial_name [[]; bs "tags"; bs "heads"; bs "remotes"].
Inductive ExistingError := FindFailed (e : FindError) | NotExisting.
Definition find (b : Buffer) (partial_name : bytes) : res ExistingError Reference :=
  match try_find b partial_name with
  | Ok (Some r) => Ok r
  | Ok None => Err NotExisting
  | Err e => Err (FindFailed e)
  | Panic => Panic
  end.
Definition iter (b : Buffer) : res IterError Iter := a ← as_ref b; iter_new a.
Definition iter_prefixed (b : Buffer) (prefix : bytes) : res IterError Iter :=
  a ← as_ref b;
  r ← lift (binary_search_by_name a prefix);
  tail ← slice_from a (match r with inl start | inr (_, start) => start end);
  iter_new_with_prefix tail (Some prefix).
End Parse.

(** ** [gix-ref/src/transaction/mod.rs] *)

(** [Target] of a reference. *)
Inductive Target := Object (id : ObjectId) | Symbolic (name : bytes).
Inductive RefLog := AndReference | Only.
Record LogChange := mkLogChange { log_mode : RefLog; force_create_reflog : bool; log_message : bytes }.
Definition log_change_default : LogChange := mkLogChange AndReference false [].
Inductive PreviousValue :=
| Any | MustExist | MustNotExist | MustExistAndMatch (target : Target) | ExistingMustMatch (target : Target).
Inductive Change :=
| Update (log : LogChange) (expected : PreviousValue) (new : Target)
| Delete (expected : PreviousValue) (log : RefLog).
Definition new_value (c : Change) : option Target := match c with Update _ _ new => Some new | Delete _ _ => None end.
Definition previous_value (c : Change) : option Target :=
  match c with
  | Update _ (MustExistAndMatch previous | ExistingMustMatch previous) _
  | Delete (MustExistAndMatch previous | ExistingMustMatch previous) _ => Some previous
  | _ => None
  end.
Record RefEdit := mkRefEdit { change : Change; edit_name : bytes; deref : bool }.
Record Edit := mkEdit { inner : RefEdit; edit_peeled : option ObjectId }.

(** ** [transaction.rs] *)

Definition HEADER_LINE : bytes := bs "# pack-refs with: peeled fully-peeled sorted " ++ [10].

(** The lock is held and written by one transaction only; whether it is still
    open to be committed is part of the state. *)
Record Transaction := mkTransaction {
  t_buffer : option Buffer; t_edits : option (list Edit); t_lock_open : bool;
  precompose_unicode : bool; t_namespace : option bytes }.
Definition new_from_pack_and_lock (buffer : option Buffer) (precompose_unicode : bool) (namespace : option bytes) : Transaction :=
  mkTransaction buffer None true precompose_unicode namespace.

Section Prepare.
Context `{BA : !bstr.Api} `{WA : !winnow.Api} `{HA : !faster_hex.Api}.
(** [gix_utils::str::precompose] of another crate of characters: the new name,
    if the text changes; and the objects. *)
Context (precompose : bytes → option bytes) {Fe : Type} (try_find_object : ObjectId → res Fe (option Data)).

Inductive PrepareError := ObjectLookup (e : Fe) | TagWithoutTarget (id : ObjectId) | ObjectMissing (id : ObjectId).

(** Tags are followed to what they point to.  The loop ends with the chain of
    tags, of which the fuel is a bound. *)
Fixpoint peel_loop (fuel : nat) (new next_id : ObjectId) : res PrepareError (option ObjectId) :=
  match fuel with
  | O => Panic
  | S fuel =>
      d ← map_err ObjectLookup (try_find_object next_id);
      match d with
      | Some d =>
          if bool_decide (data_kind d = PackEntry.Entry.KTag) then
            next_id' ← map_err (λ _, TagWithoutTarget next_id) (target_id (tag_iter_from_bytes (data_bytes d)));
            peel_loop fuel new next_id'
          else Ok (if bool_decide (next_id = new) then None else Some next_id)
      | None => Err (ObjectMissing next_id)
      end
  end.
Definition precomposed_name (precompose_unicode : bool) (name : bytes) : bytes :=
  if precompose_unicode then
    match Paths.to_str name with Some s => default name (precompose s) | None => name end
  else name.
Definition namespaced (namespace : option bytes) (name : bytes) : bytes :=
  match namespace with Some namespace => into_namespaced_name namespace name | None => name end.
Definition prepared_edit (t : Transaction) (edit : RefEdit) : RefEdit :=
  mkRefEdit (change edit) (namespaced (t_namespace t) (precomposed_name (precompose_unicode t) (edit_name edit))) (deref edit).
(** Deletions are kept if their name can be found, or if there is no buffer. *)
Fixpoint applicable (buffer : option Buffer) (edits : list RefEdit) : res PrepareError (list RefEdit) :=
  match edits with
  | [] => Ok []
  | edit :: edits =>
      keep ← match change edit, buffer with
             | Delete _ _, Some b => match find b (edit_name edit) with Ok _ => Ok true | Err _ => Ok false | Panic => Panic end
             | _, _ => Ok true
             end;
      edits ← applicable buffer edits;
      Ok (if (keep : bool) then edit :: edits else edits)
  end.
Definition peel_edit (fuel : nat) (edit : RefEdit) : res PrepareError Edit :=
  match change edit with
  | Update _ _ (Object new) => peeled ← peel_loop fuel new new; Ok (mkEdit edit peeled)
  | _ => Ok (mkEdit edit None)
  end.
Definition prepare (fuel : nat) (t : Transaction) (edits : list RefEdit) : res PrepareError Transaction :=
  match t_edits t with
  | Some _ => Panic
  | None =>
      edits ← applicable (t_buffer t) (prepared_edit t <$> edits);
      edits ← mapM_res (peel_edit fuel) edits;
      Ok (mkTransaction (t_buffer t) (Some edits)
            (if bool_decide (edits = []) then false else t_lock_open t) (precompose_unicode t) (t_namespace t))
  end.
End Prepare.

Section Commit.
Context `{BA : !bstr.Api} `{WA : !winnow.Api} `{HA : !faster_hex.Api}.

Inductive CommitError := Iteration (e : IterError).
Definition write_packed_ref (pref : Reference) : bytes :=
  r_target pref ++ [32] ++ r_name pref ++ [10] ++
  match r_object pref with Some object => bs "^" ++ object ++ [10] | None => [] end.
(** What is written, and how many lines more. *)
Definition write_edit (edit : Edit) : res CommitError (bytes * Z) :=
  match change (inner edit) with
  | Delete _ _ => Ok ([], 0)
  | Update _ _ (Object target_oid) =>
      target ← lift (to_hex (as_slice target_oid));
      peeled ← match edit_peeled edit with
               | Some object => object ← lift (to_hex (as_slice object)); Ok (bs "^" ++ object ++ [10])
               | None => Ok []
               end;
      Ok (target ++ [32] ++ edit_name (inner edit) ++ [10] ++ peeled, 1)
  | Update _ _ (Symbolic _) => Panic
  end.
(** References and edits are merged by name; both are at an end when the loop
    ends. *)
Fixpoint commit_loop (refs_sorted : list (res IterError Reference)) : list Edit → bytes → Z → res CommitError (bytes * Z) :=
  fix with_edits (edits : list Edit) (out : bytes) (num_written_lines : Z) {struct edits} :=
    match refs_sorted, edits with
    | Err err :: _, _ => Err (Iteration err)
    | Panic :: _, _ => Panic
    | [], [] => Ok (out, num_written_lines)
    | Ok pref :: refs_sorted, [] => commit_loop refs_sorted [] (out ++ write_packed_ref pref) (wrap 32 (num_written_lines + 1))
    | Ok pref :: refs_sorted, edit :: rest =>
        match bytes_cmp (r_name pref) (edit_name (inner edit)) with
        | Lt => commit_loop refs_sorted edits (out ++ write_packed_ref pref) (wrap 32 (num_written_lines + 1))
        | Gt => '(text, n) ← write_edit edit; with_edits rest (out ++ text) (wrap 32 (num_written_lines + n))
        | Eq => '(text, n) ← write_edit edit; commit_loop refs_sorted rest (out ++ text) (wrap 32 (num_written_lines + n))
        end
    | [], edit :: rest => '(text, n) ← write_edit edit; with_edits rest (out ++ text) (wrap 32 (num_written_lines + n))
    end.
(** What becomes of the file [packed-refs]. *)
Inductive Committed := Untouched | Removed | Written (content : bytes).
Definition edit_cmp (l r : Edit) : comparison := bytes_cmp (edit_name (inner l)) (edit_name (inner r)).
Definition commit (t : Transaction) : res CommitError Committed :=
  edits ← expect (t_edits t);
  if bool_decide (edits = []) then Ok Untouched
  else
    _ ← assert_ (t_lock_open t);
    refs_sorted ← match t_buffer t with
                  | Some buffer => it ← map_err Iteration (iter buffer); Ok (iter_items it)
                  | None => Ok []
                  end;
    '(content, num_written_lines) ← commit_loop refs_sorted (sort_by edit_cmp edits) HEADER_LINE 0;
    Ok (if num_written_lines =? 0 then Removed else Written content).
End Commit.

(** ** Theorems: records *)

Section Records.
Context `{BA : !bstr.Api} `{BL : !bstr.Laws} `{WA : !winnow.Api} `{WL : !winnow.Laws}.

(** A record that can be in a file: ids in lowercase, and a valid name. *)
Definition hex_id (h : bytes) : Prop := ∃ id, wf_id id ∧ h = hex (as_slice id).
Definition valid_record (r : Reference) : Prop :=
  hex_id (r_target r) ∧ ref_name (r_name r) = Ok (r_name r) ∧ ∀ h, r_object r = Some h → hex_id h.
(** The text of records, and their order. *)
Definition text (rs : list Reference) : bytes := concat (serialize <$> rs).
Definition names (rs : list Reference) : list bytes := r_name <$> rs.
Definition sorted_records (rs : list Reference) : Prop := StronglySorted bytes_lt (names rs).

Lemma text_cons r rs : text (r :: rs) = serialize r ++ text rs.
Proof. done. Qed.
Lemma text_app rs1 rs2 : text (rs1 ++ rs2) = text rs1 ++ text rs2.
Proof. unfold text. by rewrite fmap_app, concat_app. Qed.

Lemma hex_id_digits h : hex_id h → length h = 40%nat ∧ Forall (λ b, is_hex_digit_lc b = true) h.
Proof.
  intros (id & [Hl Hd] & ->). split; [rewrite length_hex; lia|]. apply Forall_fmap. eapply Forall_impl; [by apply nibbles_range|].
  intros n Hn. cbv beta in Hn. cbn. unfold is_hex_digit_lc, hex_digit, between.
  destruct (Z.ltb_spec n 10); apply orb_true_iff; [left|right]; apply andb_true_iff; rewrite !Z.leb_le; lia.
Qed.
Lemma hex_id_read h rest : hex_id h → hex_hash (h ++ rest) = Ok (h, rest).
Proof. intros [Hl Hd]%hex_id_digits. by apply take_while_max. Qed.
Lemma hex_id_no_byte h b : hex_id h → is_hex_digit_lc b = false → b ∉ h.
Proof. intros [_ Hd]%hex_id_digits Hb Hin. rewrite Forall_forall in Hd. specialize (Hd _ Hin). congruence. Qed.

(** The first line of a record, which has no newline, and the second one. *)
Definition first_line (r : Reference) : bytes := r_target r ++ [32] ++ r_name r.
Definition second_line (r : Reference) : option bytes := (λ h, bs "^" ++ h) <$> r_object r.
Lemma serialize_lines r :
  serialize r = first_line r ++ [10] ++ match second_line r with Some l => l ++ [10] | None => [] end.
Proof. unfold serialize, first_line, second_line. rewrite <- !app_assoc. by destruct (r_object r). Qed.
Lemma name_no_byte r b : valid_record r → is_invalid_byte b = true → b ∉ r_name r.
Proof. intros (_ & [_ H]%ref_name_ok & _). by apply clean_no_byte. Qed.
Lemma first_line_no_newline r : valid_record r → 10 ∉ first_line r.
Proof.
  intros Hr. unfold first_line. rewrite !elem_of_app, list_elem_of_singleton. intros [H|[H|H]]; [|done|].
  - by apply (hex_id_no_byte (r_target r) 10 (proj1 Hr)) in H.
  - by apply (name_no_byte r 10) in H.
Qed.
Lemma second_line_no_newline r l : valid_record r → second_line r = Some l → 10 ∉ l.
Proof.
  intros (_ & _ & Ho). unfold second_line. destruct (r_object r) as [h|]; [|done]. intros [= <-].
  intros [H|H]%elem_of_cons; [done|]. by apply (hex_id_no_byte h 10 (Ho h eq_refl)) in H.
Qed.
(** A record begins with a digit. *)
Lemma serialize_head r : valid_record r → ∃ c t, serialize r = c :: t ∧ is_hex_digit_lc c = true ∧ first_line r = c :: tail (first_line r).
Proof.
  intros ([Hl Hd]%hex_id_digits & _). unfold serialize, first_line. destruct (r_target r) as [|c h]; [done|]. apply Forall_cons in Hd as [Hc _].
  by exists c, (h ++ [32] ++ r_name r ++ [10] ++ match r_object r with Some object => bs "^" ++ object ++ [10] | None => [] end).
Qed.
Lemma text_head rs : Forall valid_record rs → match text rs with b :: _ => is_hex_digit_lc b = true | [] => rs = [] end.
Proof. intros [|r rs' (c & t & E & Hc & _)%serialize_head _]; [done|]. rewrite text_cons, E. done. Qed.

Lemma until_newline_read s rest : 10 ∉ s → 13 ∉ s → until_newline (s ++ 10 :: rest) = Ok (s, rest).
Proof.
  intros Hn Hc. unfold until_newline. rewrite terminated_spec, (take_while_app 0 _ s); [|lia| |done].
  - rewrite bind_Ok. unfold newline. rewrite alt_spec, literal_cons_ne by done. by rewrite literal_one, bind_Ok.
  - apply Forall_forall. intros b Hb. apply andb_true_iff. rewrite !negb_true_iff, !Z.eqb_neq. split; intros ->; done.
Qed.
(** Reading what was written gives the record back, and leaves what follows. *)
Lemma reference_read r rest :
  valid_record r → (match rest with b :: _ => b ≠ ch "^" | [] => True end) → reference (serialize r ++ rest) = Ok (r, rest).
Proof.
  intros Hr Hrest. destruct Hr as (Ht & Hn & Ho) eqn:EHr. clear EHr. unfold reference, serialize. change (bs "^") with [94]. rewrite map_spec, !pair_spec, terminated_spec.
  rewrite <- !app_assoc. rewrite hex_id_read by done. winnow_run. rewrite literal_app. winnow_run.
  rewrite try_map_spec. cbn [app]. rewrite until_newline_read by (by apply (name_no_byte r)). winnow_run. rewrite Hn. winnow_run.
  rewrite opt_spec, delimited_spec. destruct r as [name target [h|]]; cbn in *.
  - rewrite <- app_assoc. change (bs "^") with [94].
    rewrite literal_one. winnow_run. rewrite hex_id_read by (by apply Ho). winnow_run.
    unfold newline. cbn [app]. rewrite alt_spec, literal_cons_ne by done. rewrite literal_one. by winnow_run.
  - destruct rest as [|b rest].
    + rewrite literal_spec. cbn. done.
    + rewrite literal_cons_ne by (intros ->; by apply Hrest). cbn. done.
Qed.
Lemma reference_text r rs : Forall valid_record (r :: rs) → reference (text (r :: rs)) = Ok (r, text rs).
Proof.
  intros [Hr Hrs]%Forall_cons. rewrite text_cons. apply reference_read; [done|]. pose proof (text_head rs Hrs) as H.
  destruct (text rs); [done|]. by intros ->.
Qed.

(** Iterating over the text of records gives the records. *)
Lemma iter_next_text r rs line prefix :
  Forall valid_record (r :: rs) →
  iter_next (mkIter (text (r :: rs)) line prefix) =
    let next := wrap 64 (line + 1) in
    match prefix with
    | Some p => if starts_with (r_name r) p then (Some (Ok r), mkIter (text rs) next prefix) else (None, mkIter [] next prefix)
    | None => (Some (Ok r), mkIter (text rs) next prefix)
    end.
Proof.
  intros Hrs. unfold iter_next. cbn [cursor iter_prefix current_line]. rewrite reference_text by done.
  rewrite bool_decide_eq_false_2; [done|]. apply Forall_cons in Hrs as [(c & t & E & _)%serialize_head _].
  rewrite text_cons, E. done.
Qed.
(** The records in front that have a prefix. *)
Fixpoint leading (p : option bytes) (rs : list Reference) : list Reference :=
  match rs with
  | [] => []
  | r :: rs => if match p with Some p => starts_with (r_name r) p | None => true end then r :: leading p rs else []
  end.
Lemma text_length rs : (length rs ≤ length (text rs))%nat.
Proof.
  induction rs as [|r rs IH]; [done|]. rewrite text_cons, length_app, serialize_lines, !length_app. cbn. lia.
Qed.
Lemma iter_items_fuel_text fuel rs line p :
  Forall valid_record rs → (length rs ≤ fuel)%nat → iter_items_fuel fuel (mkIter (text rs) line p) = Ok <$> leading p rs.
Proof.
  revert fuel line. induction rs as [|r rs IH]; intros fuel line Hrs Hf.
  - destruct fuel; unfold iter_items_fuel, iter_next; cbn [cursor text concat fmap list_fmap]; by rewrite bool_decide_eq_true_2.
  - pose proof (iter_next_text r rs line p Hrs) as E. destruct fuel as [|fuel]; cbn [length] in Hf; [lia|].
    cbn [iter_items_fuel]. rewrite E. cbn zeta. cbn [leading]. apply Forall_cons in Hrs as [_ Hrs].
    assert (H := IH fuel (wrap 64 (line + 1)) Hrs ltac:(lia)). destruct p as [p|]; [|by rewrite H, fmap_cons].
    destruct (starts_with (r_name r) p); [by rewrite H, fmap_cons|done].
Qed.
Lemma iter_items_text rs line p : Forall valid_record rs → iter_items (mkIter (text rs) line p) = Ok <$> leading p rs.
Proof. intros Hrs. apply iter_items_fuel_text; [done|apply text_length]. Qed.
Lemma leading_all rs : leading None rs = rs.
Proof. induction rs as [|r rs IH]; [done|]. cbn. by rewrite IH. Qed.
Lemma iter_new_text rs p : Forall valid_record rs → iter_new_with_prefix (text rs) p = Ok (mkIter (text rs) 1 p).
Proof.
  intros Hrs. pose proof (text_head rs Hrs) as H. unfold iter_new_with_prefix. destruct (text rs) as [|b t]; [done|].
  destruct (Z.eqb_spec b (ch "#")) as [->|]; [done|done].
Qed.

(** *** The record of a byte *)

Lemma rfind_index_snoc u v : 10 ∉ v → bstr.rfind_index (Z.eqb 10) (u ++ 10 :: v) = Some (length u).
Proof. intros Hv. pose proof (rfind_byte_app u 10 v Hv) as H. by rewrite bstr.rfind_byte_spec in H. Qed.
Lemma text_end rs : text rs = [] ∨ ∃ t, text rs = t ++ [10].
Proof.
  destruct rs as [|r rs _] using rev_ind; [by left|]. right. rewrite text_app, text_cons, serialize_lines.
  destruct (second_line r) as [l|].
  - exists (text rs ++ first_line r ++ [10] ++ l). cbn. by rewrite app_nil_r, <- !app_assoc.
  - exists (text rs ++ first_line r). cbn. by rewrite <- !app_assoc.
Qed.
Lemma rfind_text rs v : 10 ∉ v →
  bstr.rfind (text rs ++ v) [10] = match length (text rs) with O => None | S pos => Some pos end.
Proof.
  intros Hv. rewrite bstr.rfind_spec. destruct (text_end rs) as [E|[t E]]; rewrite E.
  - cbn [app]. rewrite rfind_index_none; [done|]. by apply byte_not_in.
  - rewrite <- app_assoc. cbn [app]. rewrite rfind_index_snoc by done. by rewrite length_app, Nat.add_comm.
Qed.
Lemma text_at rs1 r rs2 : text (rs1 ++ r :: rs2) = text rs1 ++ serialize r ++ text rs2.
Proof. by rewrite text_app, text_cons. Qed.
Lemma take_no_byte b n (s : bytes) : b ∉ s → b ∉ take n s.
Proof. intros Hs Hin. apply Hs. rewrite <- (take_drop n s), elem_of_app. by left. Qed.
Lemma start_in_first_line rs1 r rs2 k :
  valid_record r → (k ≤ length (first_line r))%nat →
  search_start_of_record (text (rs1 ++ r :: rs2)) (length (text rs1) + k) = Ok (length (text rs1)).
Proof.
  intros Hr Hk. unfold search_start_of_record. rewrite text_at, slice_to_le by (rewrite serialize_lines, !length_app; lia). rewrite bind_Ok.
  rewrite take_app_add, serialize_lines, <- app_assoc, take_app_le by done.
  rewrite rfind_text by (by apply take_no_byte, first_line_no_newline).
  destruct (length (text rs1)) as [|pos] eqn:E; [done|]. rewrite lookup_app_r by lia. rewrite E, Nat.add_1_r, Nat.sub_diag.
  destruct (serialize_head r Hr) as (c & t & _ & Hc & Efl). rewrite Efl. cbn [app lookup list_lookup].
  destruct (Z.eqb_spec c (ch "^")) as [->|]; done.
Qed.
Lemma start_in_second_line rs1 r rs2 l k :
  valid_record r → second_line r = Some l → (k ≤ length l)%nat →
  search_start_of_record (text (rs1 ++ r :: rs2)) (length (text rs1) + (S (length (first_line r)) + k)) = Ok (length (text rs1)).
Proof.
  intros Hr Hl Hk. unfold search_start_of_record.
  assert (E : text (rs1 ++ r :: rs2) = (text rs1 ++ first_line r) ++ 10 :: l ++ [10] ++ text rs2).
  { rewrite text_at, serialize_lines, Hl, <- !app_assoc. done. }
  rewrite E, slice_to_le by (rewrite !length_app; cbn; rewrite length_app; lia). rewrite bind_Ok.
  replace (length (text rs1) + (S (length (first_line r)) + k))%nat with (length (text rs1 ++ first_line r) + S k)%nat
    by (rewrite length_app; lia).
  rewrite take_app_add. cbn [take]. rewrite take_app_le by done.
  rewrite bstr.rfind_spec, rfind_index_snoc by (by eapply take_no_byte, second_line_no_newline).
  rewrite lookup_app_r by lia. replace (_ + 1 - _)%nat with 1%nat by lia. cbn [lookup list_lookup].
  assert (Hh : ∃ h, l = ch "^" :: h). { unfold second_line in Hl. destruct (r_object r) as [h|]; [|done]. injection Hl as <-. by exists h. }
  destruct Hh as [h ->]. cbn [app lookup list_lookup]. change (94 =? 94) with true. cbn match. rewrite slice_to_app by done. rewrite bind_Ok.
  rewrite rfind_text by (by apply first_line_no_newline). by destruct (length (text rs1)) as [|pos]; [|rewrite Nat.add_1_r].
Qed.
(** At every byte of a record, the search for its start ends at its first byte. *)
Lemma search_start_spec rs1 r rs2 k :
  valid_record r → (k < length (serialize r))%nat →
  search_start_of_record (text (rs1 ++ r :: rs2)) (length (text rs1) + k) = Ok (length (text rs1)).
Proof.
  intros Hr Hk. destruct (decide (k ≤ length (first_line r))%nat) as [|Hgt]; [by apply start_in_first_line|].
  rewrite serialize_lines, !length_app in Hk. cbn [length] in Hk. destruct (second_line r) as [l|] eqn:El; [|cbn in Hk; lia].
  rewrite length_app in Hk. cbn in Hk. replace k with (S (length (first_line r)) + (k - S (length (first_line r))))%nat by lia.
  eapply start_in_second_line; [done..|lia].
Qed.
(** Behind all records it ends at the first one. *)
Lemma search_start_end rs : search_start_of_record (text rs) (length (text rs)) = Ok 0%nat.
Proof.
  unfold search_start_of_record. rewrite slice_to_le, bind_Ok, firstn_all by done. rewrite <- (app_nil_r (text rs)) at 1.
  rewrite rfind_text by set_solver. destruct (length (text rs)) as [|pos] eqn:E; [done|].
  by rewrite lookup_ge_None_2 by lia.
Qed.

(** The name that the search compares at a byte. *)
Fixpoint key_at (rs : list Reference) (ofs : nat) : bytes :=
  match rs with
  | [] => []
  | r :: rs => if (ofs <? length (serialize r))%nat then r_name r else key_at rs (ofs - length (serialize r))
  end.
Lemma key_at_app rs1 r rs2 k : (k < length (serialize r))%nat → key_at (rs1 ++ r :: rs2) (length (text rs1) + k) = r_name r.
Proof.
  intros Hk. induction rs1 as [|r1 rs1 IH]; cbn [key_at app]; [by rewrite (proj2 (Nat.ltb_lt _ _))|].
  rewrite text_cons, length_app, (proj2 (Nat.ltb_ge _ _)) by lia. rewrite <- IH. f_equal. lia.
Qed.
Lemma at_split rs ofs : (ofs < length (text rs))%nat →
  ∃ rs1 r rs2 k, rs = rs1 ++ r :: rs2 ∧ ofs = (length (text rs1) + k)%nat ∧ (k < length (serialize r))%nat.
Proof.
  revert ofs. induction rs as [|r rs IH]; intros ofs; [cbn; lia|]. rewrite text_cons, length_app. intros Hofs.
  destruct (decide (ofs < length (serialize r)))%nat; [by exists [], r, rs, ofs|].
  destruct (IH (ofs - length (serialize r))%nat) as (rs1 & r' & rs2 & k & -> & E & Hk); [lia|].
  exists (r :: rs1), r', rs2, k. split_and!; [done| |done]. rewrite text_cons, length_app. lia.
Qed.
Lemma key_at_in rs ofs : (ofs < length (text rs))%nat → key_at rs ofs ∈ names rs.
Proof.
  intros (rs1 & r & rs2 & k & -> & -> & Hk)%at_split. rewrite key_at_app by done. unfold names. rewrite fmap_app, elem_of_app. right. by left.
Qed.
Lemma key_at_mono rs i j : sorted_records rs → (i < j)%nat → (j < length (text rs))%nat → bytes_le (key_at rs i) (key_at rs j).
Proof.
  intros Hs. revert i j. unfold sorted_records, names in Hs. induction rs as [|r rs IH]; intros i j Hij Hj; [cbn in Hj; lia|].
  rewrite text_cons, length_app in Hj. rewrite fmap_cons in Hs. apply StronglySorted_inv in Hs as [Hs Hr]. cbn [key_at].
  destruct (Nat.ltb_spec j (length (serialize r))).
  - rewrite (proj2 (Nat.ltb_lt _ _)) by lia. apply bytes_le_iff. by left.
  - destruct (Nat.ltb_spec i (length (serialize r))); [|apply IH; [done|lia..]]. apply bytes_le_iff. right.
    rewrite Forall_forall in Hr. apply Hr, key_at_in. lia.
Qed.
Lemma record_key_spec rs failure ofs : Forall valid_record rs → (ofs < length (text rs))%nat →
  record_key (text rs) failure ofs = Ok (failure, key_at rs ofs).
Proof.
  intros Hrs (rs1 & r & rs2 & k & -> & -> & Hk)%at_split. rewrite key_at_app by done.
  apply Forall_app in Hrs as [_ Hrs]. unfold record_key. rewrite search_start_spec by (done || by apply Forall_cons in Hrs as [? _]).
  rewrite bind_Ok, text_app, slice_from_app, bind_Ok. by rewrite reference_text.
Qed.
Lemma lookup_seq_0 n i x : seq 0 n !! i = Some x → x = i ∧ (i < n)%nat.
Proof. rewrite lookup_seq. lia. Qed.
(** The search finds the record of a name, or where it would have to be. *)
Definition searched (rs : list Reference) (name : bytes) (r : nat + bool * nat) : Prop :=
  (∃ rs1 x rs2, rs = rs1 ++ x :: rs2 ∧ r_name x = name ∧ r = inl (length (text rs1))) ∨
  (∃ rs1 rs2, rs = rs1 ++ rs2 ∧ Forall (λ x, bytes_lt (r_name x) name) rs1 ∧ Forall (λ x, bytes_lt name (r_name x)) rs2 ∧
              r = inr (false, match rs2 with [] => 0%nat | _ => length (text rs1) end)).
Lemma serialize_pos r : (0 < length (serialize r))%nat.
Proof. rewrite serialize_lines, !length_app. cbn. lia. Qed.
Lemma search_missed rs name i :
  (i ≤ length (text rs))%nat →
  (∀ j, (j < length (text rs))%nat → bytes_cmp (key_at rs j) name = if (j <? i)%nat then Lt else Gt) →
  ∃ rs1 rs2, rs = rs1 ++ rs2 ∧ i = length (text rs1) ∧
    Forall (λ x, bytes_lt (r_name x) name) rs1 ∧ Forall (λ x, bytes_lt name (r_name x)) rs2.
Proof.
  intros Hi Hcmp.
  assert (Hall : ∀ rs1 r rs2 k, rs = rs1 ++ r :: rs2 → (k < length (serialize r))%nat →
            bytes_cmp (r_name r) name = if (length (text rs1) + k <? i)%nat then Lt else Gt).
  { intros rs1 r rs2 k -> Hk. rewrite <- Hcmp, key_at_app; [done..|]. rewrite text_at, !length_app. lia. }
  assert (Hsplit : ∃ rs1 rs2, rs = rs1 ++ rs2 ∧ i = length (text rs1)).
  { destruct (decide (i = length (text rs))) as [->|]; [exists rs, []; by rewrite app_nil_r|].
    destruct (at_split rs i) as (rs1 & r & rs2 & k & -> & -> & Hk); [lia|]. exists rs1, (r :: rs2). split; [done|].
    pose proof (Hall rs1 r rs2 k eq_refl Hk) as H1. pose proof (Hall rs1 r rs2 0%nat eq_refl (serialize_pos r)) as H2.
    rewrite H1, Nat.ltb_irrefl in H2. destruct (Nat.ltb_spec (length (text rs1) + 0) (length (text rs1) + k)); [done|lia]. }
  destruct Hsplit as (rs1 & rs2 & -> & ->). exists rs1, rs2. split_and!; [done|done|..]; apply Forall_forall; intros r Hr;
    apply list_elem_of_split in Hr as (l1 & l2 & ->).
  - unfold bytes_lt. rewrite (Hall l1 r (l2 ++ rs2) 0%nat); [|by rewrite <- app_assoc|by apply serialize_pos].
    rewrite text_at, !length_app. pose proof (serialize_pos r). by rewrite (proj2 (Nat.ltb_lt _ _)) by lia.
  - unfold bytes_lt. rewrite bytes_cmp_antisym, (Hall (rs1 ++ l1) r l2 0%nat); [|by rewrite <- app_assoc|by apply serialize_pos].
    rewrite text_app, length_app. by rewrite (proj2 (Nat.ltb_ge _ _)) by lia.
Qed.
Lemma search_records rs name : Forall valid_record rs → sorted_records rs →
  ∃ r, binary_search_by_name (text rs) name = Ok r ∧ searched rs name r.
Proof.
  intros Hrs Hs. set (cmp := λ ofs, bytes_cmp (key_at rs ofs) name).
  set (f := λ failure ofs, '(failure, key) ← record_key (text rs) failure ofs; Ok (failure, bytes_cmp key name)).
  assert (Hf : ∀ s x, x ∈ seq 0 (length (text rs)) → f s x = Ok (s, cmp x)).
  { intros s x [_ Hx]%elem_of_seq. unfold f. by rewrite record_key_spec. }
  assert (Hmono : monotone cmp (seq 0 (length (text rs)))).
  { intros i j x y Hij [-> _]%lookup_seq_0 [-> Hj]%lookup_seq_0. pose proof (key_at_mono rs i j Hs Hij Hj) as Hle. unfold cmp. split; intros H.
    - by apply (bytes_le_lt_trans _ _ _ Hle) in H.
    - rewrite bytes_cmp_antisym in H |- *. apply CompOpp_iff in H. cbn in H. by rewrite (bytes_lt_le_trans _ _ _ H Hle). }
  unfold binary_search_by_name. fold f. destruct (binary_search_spec f (seq 0 (length (text rs))) cmp (λ s _, s) Hf Hmono false) as ([s r] & E & Hr).
  assert (Hfalse : s = false).
  { apply (binary_search_loop_state f (λ s, s = false) _ _ _ _ _ (s, r)) in E; [done| |done].
    intros s1 x s2 c Hx -> H. rewrite Hf in H by done. by injection H as <- _. }
  rewrite E, bind_Ok. subst s. destruct r as [i|i]; cbn [search_result snd fst] in Hr.
  - destruct Hr as (x & s & [-> Hi]%lookup_seq_0 & Hc & _). destruct (at_split rs i Hi) as (rs1 & r & rs2 & k & -> & -> & Hk).
    assert (valid_record r) by (apply Forall_app in Hrs as [_ [? _]%Forall_cons]; done).
    rewrite search_start_spec, bind_Ok by done. eexists. split; [done|]. left. exists rs1, r, rs2. split_and!; [done| |done].
    unfold cmp in Hc. rewrite key_at_app in Hc by done. by apply bytes_cmp_eq in Hc.
  - destruct Hr as [Hi Hr]. rewrite length_seq in Hi. destruct (search_missed rs name i Hi) as (rs1 & rs2 & -> & -> & H1 & H2).
    { intros j Hj. apply (Hr j). rewrite lookup_seq. lia. }
    eexists. split; [|right; exists rs1, rs2; split_and!; [done..|reflexivity]]. destruct rs2 as [|r rs2].
    + by rewrite app_nil_r, search_start_end.
    + assert (valid_record r) by (apply Forall_app in Hrs as [_ [? _]%Forall_cons]; done).
      rewrite <- (Nat.add_0_r (length (text rs1))) at 1. by rewrite search_start_spec by (done || apply serialize_pos).
Qed.

(** *** The map that a file stands for *)

Definition refs_map (rs : list Reference) : gmap bytes Reference := list_to_map ((λ r, (r_name r, r)) <$> rs).
Lemma names_pairs rs : ((λ r, (r_name r, r)) <$> rs).*1 = names rs.
Proof. unfold names. by rewrite <- list_fmap_compose. Qed.
Lemma sorted_NoDup l : StronglySorted bytes_lt l → NoDup l.
Proof.
  induction 1 as [|x l Hs IH Hx]; constructor; [|done]. intros Hin. rewrite Forall_forall in Hx.
  by destruct (irreflexivity bytes_lt x (Hx _ Hin)).
Qed.
Lemma refs_map_lookup rs name r : sorted_records rs → refs_map rs !! name = Some r ↔ r ∈ rs ∧ r_name r = name.
Proof.
  intros Hs. unfold refs_map. rewrite <- elem_of_list_to_map by (rewrite names_pairs; by apply sorted_NoDup).
  rewrite list_elem_of_fmap. naive_solver.
Qed.
Lemma refs_map_none rs name : sorted_records rs → refs_map rs !! name = None ↔ name ∉ names rs.
Proof.
  intros _. unfold refs_map. rewrite <- not_elem_of_list_to_map. by rewrite names_pairs.
Qed.
(** What is behind the header of a buffer. *)
Definition holds (b : Buffer) (rs : list Reference) : Prop :=
  (∃ h, b_data b = h ++ text rs ∧ b_offset b = length h) ∧ Forall valid_record rs ∧ sorted_records rs.
Lemma as_ref_holds {E} b rs : holds b rs → @as_ref E b = Ok (text rs).
Proof. intros ((h & E1 & E2) & _). unfold as_ref. by rewrite E1, E2, slice_from_app. Qed.
Lemma not_between rs1 rs2 name : Forall (λ x, bytes_lt (r_name x) name) rs1 → Forall (λ x, bytes_lt name (r_name x)) rs2 → name ∉ names (rs1 ++ rs2).
Proof.
  rewrite !Forall_forall. intros H1 H2. unfold names. rewrite list_elem_of_fmap. intros (r & -> & [Hr|Hr]%elem_of_app).
  - by destruct (irreflexivity bytes_lt _ (H1 _ Hr)).
  - by destruct (irreflexivity bytes_lt _ (H2 _ Hr)).
Qed.
Lemma find_full_name b rs name : holds b rs → try_find_full_name b name = Ok (refs_map rs !! name).
Proof.
  intros Hb. pose proof Hb as (_ & Hrs & Hs). unfold try_find_full_name. rewrite (as_ref_holds b rs), bind_Ok by done.
  destruct (search_records rs name Hrs Hs) as (r & -> & [(rs1 & x & rs2 & -> & Hx & ->)|(rs1 & rs2 & -> & H1 & H2 & ->)]);
    cbn [lift]; rewrite bind_Ok.
  - apply Forall_app in Hrs as [_ Hrs]. rewrite text_app, slice_from_app, bind_Ok, reference_text by done. f_equal. symmetry.
    apply refs_map_lookup; [done|]. split; [|done]. apply elem_of_app. right. by left.
  - f_equal. symmetry. apply refs_map_none; [done|]. by apply not_between.
Qed.

(** C8: Looking up a full name in a buffer of packed references finds exactly
    the record of that name: the search by bytes, which repairs every probe to
    the start of its record - be it a line of a peeled object - is the lookup
    in the map that the sorted file stands for.  It never fails and never
    panics, whatever the name. *)
Theorem packed_find_correct b rs name : holds b rs → try_find_full_name b name = Ok (refs_map rs !! name).
Proof. apply find_full_name. Qed.

(** A partial name is looked up as it is below [refs/], then as a tag, a
    branch and a remote branch, and the first of these records is found. *)
Theorem packed_partial_lookup b rs name : holds b rs → looks_like_full_name name = false →
  try_find b name =
    Ok (head (omap (λ p, refs_map rs !! (bs p ++ name)) ["refs/"; "refs/tags/"; "refs/heads/"; "refs/remotes/"])).
Proof.
  intros Hb Hname. unfold try_find. cbn [try_find_loop omap list_omap]. rewrite Hname.
  assert (E : ∀ i p, bs "refs/" ++ (if bool_decide (i = []) then [] else i ++ [ch "/"]) = p → construct_full_name_ref name i = p ++ name).
  { intros i p <-. unfold construct_full_name_ref. by rewrite Hname, <- app_assoc. }
  rewrite (E [] (bs "refs/")), (E (bs "tags") (bs "refs/tags/")), (E (bs "heads") (bs "refs/heads/")),
    (E (bs "remotes") (bs "refs/remotes/")) by done.
  rewrite !(find_full_name b rs) by done. repeat (rewrite bind_Ok; destruct (refs_map rs !! _); [done|]). done.
Qed.

(** *** Iteration *)

Lemma leading_filter p rs : sorted_records rs → (∀ r, r ∈ rs → bytes_le p (r_name r)) →
  leading (Some p) rs = filter (λ r, p `prefix_of` r_name r) rs.
Proof.
  unfold sorted_records, names. intros Hs Hp. induction rs as [|r rs IH]; [done|]. rewrite fmap_cons in Hs.
  apply StronglySorted_inv in Hs as [Hs Hr]. cbn [leading]. destruct (starts_with (r_name r) p) eqn:E.
  - rewrite filter_cons_True by (by apply starts_with_spec in E). f_equal. apply IH; [done|]. intros x Hx. apply Hp. by right.
  - assert (Hn : ¬ p `prefix_of` r_name r) by (intros H; apply starts_with_spec in H; congruence).
    rewrite filter_cons_False by done. symmetry. apply filter_keep_none. rewrite Forall_fmap, Forall_forall in Hr. apply Forall_forall.
    intros x Hx Hpx. apply Hn, (prefix_interval p (r_name r) (r_name x)); [apply Hp; by left| |done].
    apply bytes_le_iff. right. by apply Hr.
Qed.

Lemma lt_no_prefix p x : bytes_lt x p → ¬ p `prefix_of` x.
Proof. intros Hx Hp%bytes_le_prefix. by destruct (irreflexivity bytes_lt _ (bytes_lt_le_trans _ _ _ Hx Hp)). Qed.
Lemma leading_none p rs : Forall (λ x, bytes_lt (r_name x) p) rs → leading (Some p) rs = [].
Proof.
  intros [|r rs' Hr _]; [done|]. cbn. destruct (starts_with (r_name r) p) eqn:E; [|done]. apply starts_with_spec in E.
  by destruct (lt_no_prefix _ _ Hr).
Qed.
Lemma filter_below p rs : Forall (λ x, bytes_lt (r_name x) p) rs → filter (λ r, p `prefix_of` r_name r) rs = [].
Proof. intros H. apply filter_keep_none. eapply Forall_impl; [exact H|]. intros x. apply lt_no_prefix. Qed.
Lemma iter_from rs1 rs2 p : Forall valid_record (rs1 ++ rs2) → sorted_records (rs1 ++ rs2) →
  Forall (λ x, bytes_lt (r_name x) p) rs1 → (∀ x, x ∈ rs2 → bytes_le p (r_name x)) →
  ∃ it, (tail ← slice_from (text (rs1 ++ rs2)) (length (text rs1)); iter_new_with_prefix tail (Some p)) = Ok it ∧
        iter_items it = Ok <$> filter (λ r, p `prefix_of` r_name r) (rs1 ++ rs2).
Proof.
  intros [_ Hrs]%Forall_app Hs H1 H2. rewrite text_app, slice_from_app, bind_Ok, iter_new_text by done.
  eexists. split; [done|]. rewrite iter_items_text, filter_app, filter_below, leading_filter; [done| |done..].
  unfold sorted_records, names in Hs. rewrite fmap_app in Hs. by apply StronglySorted_app in Hs as (_ & _ & Hs).
Qed.

(** Iterating over the references of a prefix yields exactly those records
    of which the name begins with it, in the order of their names, and no
    errors, wherever the prefix itself would be in that order. *)
Theorem packed_prefix_iteration b rs p : holds b rs →
  ∃ it, iter_prefixed b p = Ok it ∧ iter_items it = Ok <$> filter (λ r, p `prefix_of` r_name r) rs.
Proof.
  intros Hb. pose proof Hb as (_ & Hrs & Hs). unfold iter_prefixed. rewrite (as_ref_holds b rs), bind_Ok by done.
  destruct (search_records rs p Hrs Hs) as (r & -> & [(rs1 & x & rs2 & -> & Hx & ->)|(rs1 & rs2 & -> & H1 & H2 & ->)]);
    cbn [lift]; rewrite bind_Ok.
  - pose proof Hs as Hs'. unfold sorted_records, names in Hs'. rewrite fmap_app, fmap_cons, Hx in Hs'.
    apply StronglySorted_app in Hs' as (H1 & _ & [_ H2]%StronglySorted_inv). apply iter_from; [done..| |].
    + apply Forall_forall. intros y Hy. apply H1; [by apply list_elem_of_fmap_2|by left].
    + intros y [->|Hy]%elem_of_cons; apply bytes_le_iff; [by left|]. right. rewrite Forall_fmap, Forall_forall in H2. by apply H2.
  - destruct rs2 as [|r rs2].
    + rewrite app_nil_r in *. change (slice_from (text rs1) 0) with (@Ok IterError _ (text rs1)). rewrite bind_Ok, iter_new_text by done.
      eexists. split; [done|]. by rewrite iter_items_text, filter_below, leading_none.
    + apply iter_from; [done..|]. intros y Hy. apply bytes_le_iff. right. rewrite Forall_forall in H2. by apply H2.
Qed.
End Records.

(** ** Theorems: opening *)

Section Open.
Context `{BA : !bstr.Api} `{BL : !bstr.Laws} `{WA : !winnow.Api} `{WL : !winnow.Laws}.

Lemma mapM_res_oks {E A} (l : list A) : mapM_res (λ item, item) (@Ok E A <$> l) = Ok l.
Proof. induction l as [|a l IH]; [done|]. cbn. by rewrite IH. Qed.
Lemma traits_sorted traits : sorted_ (header_traits traits) = bool_decide (bs "sorted" ∈ bstr.split_byte 32 traits).
Proof.
  unfold header_traits. rewrite bstr.split_str_spec. set (f := λ h token, _).
  cut (∀ l h, sorted_ (foldl f h l) = sorted_ h || bool_decide (bs "sorted" ∈ l)).
  { intros H. apply H. }
  induction l as [|t l IH]; intros h; cbn [foldl]; [by rewrite orb_comm|]. rewrite IH. unfold f. repeat case_bool_decide; cbn; subst;
    try (by rewrite ?orb_true_r); exfalso; set_solver.
Qed.
Lemma starts_hash {X} (file : bytes) (f g : X) : head file = Some (ch "#") →
  match file with b :: _ => if b =? ch "#" then f else g | [] => g end = f.
Proof. destruct file as [|b file]; [done|]. intros [= ->]. by rewrite Z.eqb_refl. Qed.
(** The header line of a file. *)
Definition header_line (traits : bytes) : bytes := bs "# pack-refs with: " ++ traits ++ [10].
Lemma header_read traits rest : 10 ∉ traits → 13 ∉ traits →
  header (header_line traits ++ rest) = Ok (header_traits traits, rest).
Proof.
  intros Hn Hc. unfold header, header_line. rewrite map_spec, preceded_spec, <- app_assoc, literal_app. winnow_run.
  rewrite <- app_assoc. cbn [app]. rewrite until_newline_read by done. by winnow_run.
Qed.
Lemma from_bytes_sorts rs h : Forall valid_record rs → NoDup (names rs) →
  ∃ b, (tail ← slice_from (h ++ text rs) (length h);
        it ← map_err IterFailed (iter_new tail);
        entries ← map_err IterFailed (mapM_res (λ item, item) (iter_items it));
        Ok (mkBuffer (concat (serialize <$> sort_by name_cmp entries)) 0)) = Ok b ∧ holds b (sort_by name_cmp rs).
Proof.
  intros Hrs Hd. rewrite slice_from_app, bind_Ok. unfold iter_new. rewrite iter_new_text by done. cbn [map_err]. rewrite bind_Ok.
  rewrite iter_items_text, leading_all, mapM_res_oks by done. cbn [map_err]. rewrite bind_Ok. eexists. split; [done|]. split_and!.
  - by exists [].
  - by rewrite (sort_by_perm name_cmp rs).
  - by apply (sort_by_keys r_name).
Qed.

(** Opening a file of records with distinct names, in any order and with
    or without a header, gives a buffer that holds these records sorted by
    name; a header that claims the file is sorted is believed. *)
Theorem packed_open_sorts traits rs :
  Forall valid_record rs → NoDup (names rs) →
  match traits with
  | Some traits => 10 ∉ traits ∧ 13 ∉ traits ∧ (bs "sorted" ∈ bstr.split_byte 32 traits → sorted_records rs)
  | None => True
  end →
  ∃ b rs', from_bytes (match traits with Some traits => header_line traits | None => [] end ++ text rs) = Ok b ∧
    holds b rs' ∧ rs' ≡ₚ rs.
Proof.
  intros Hrs Hd Ht. unfold from_bytes. destruct traits as [traits|].
  - destruct Ht as (Hn & Hc & Hs). rewrite starts_hash, header_read by done.
    rewrite bind_Ok, traits_sorted. replace (_ - _)%nat with (length (header_line traits)) by (rewrite length_app; lia).
    destruct (bool_decide_reflect (bs "sorted" ∈ bstr.split_byte 32 traits)) as [Hin|_].
    + eexists _, rs. split_and!; [done| |done]. split_and!; [by exists (header_line traits)|done|by apply Hs].
    + destruct (from_bytes_sorts rs (header_line traits) Hrs Hd) as (b & -> & Hb). exists b, (sort_by name_cmp rs). split_and!; [done..|].
      apply sort_by_perm.
  - cbn [app]. assert (E : ∀ {X} (f g : X), match text rs with b :: _ => if b =? ch "#" then f else g | [] => g end = g).
    { intros X f g. pose proof (text_head rs Hrs) as H. destruct (text rs) as [|b t]; [done|]. by destruct (Z.eqb_spec b (ch "#")) as [->|]. }
    rewrite E, bind_Ok. destruct (from_bytes_sorts rs [] Hrs Hd) as (b & Eb & Hb). cbn [app length] in Eb. rewrite Eb. exists b, (sort_by name_cmp rs). split_and!; [done..|].
    apply sort_by_perm.
Qed.
End Open.

(** ** Theorems: transactions *)

Section Transactions.
Context `{BA : !bstr.Api} `{BL : !bstr.Laws} `{WA : !winnow.Api} `{WL : !winnow.Laws} `{HA : !faster_hex.Api} `{HL : !faster_hex.Laws}.

Definition ename (e : Edit) : bytes := edit_name (inner e).
(** The record that an edit leaves behind. *)
Definition edit_ref (e : Edit) : option Reference :=
  match change (inner e) with
  | Update _ _ (Object id) => Some (mkReference (ename e) (hex (as_slice id)) ((λ id, hex (as_slice id)) <$> edit_peeled e))
  | _ => None
  end.
Definition valid_edit (e : Edit) : Prop :=
  ref_name (ename e) = Ok (ename e) ∧ (∀ id, edit_peeled e = Some id → wf_id id) ∧
  match change (inner e) with Update _ _ (Object id) => wf_id id | Update _ _ (Symbolic _) => False | Delete _ _ => True end.
Definition edited (e : Edit) : list Reference := match edit_ref e with Some r => [r] | None => [] end.

Lemma to_hex_hex id : wf_id id → to_hex (as_slice id) = Ok (hex (as_slice id)).
Proof.
  intros Hid. destruct Hid as [Hl Hb]. unfold to_hex. rewrite Hl, hex_display_ok by (done || lia). unfold abbrev, hex.
  by rewrite take_ge by (rewrite length_nibbles; lia).
Qed.
Lemma edit_ref_name e r : edit_ref e = Some r → r_name r = ename e.
Proof. unfold edit_ref. destruct (change (inner e)) as [? ? [id|]|]; [|done..]. by intros [= <-]. Qed.
Lemma edit_ref_valid e r : valid_edit e → edit_ref e = Some r → valid_record r.
Proof.
  unfold edit_ref, valid_edit. intros (Hn & Hp & Hi). destruct (change (inner e)) as [? ? [id|]|]; [|done..]. intros [= <-].
  split_and!; cbn; [by exists id|done|]. intros h. destruct (edit_peeled e) as [o|]; [|done]. intros [= <-]. exists o. split; [by apply Hp|done].
Qed.
Lemma write_edit_ok e : valid_edit e → write_edit e = Ok (text (edited e), Z.of_nat (length (edited e))).
Proof.
  intros (Hn & Hp & Hi). unfold write_edit, edited, edit_ref. destruct (change (inner e)) as [? ? [id|]|]; [|done..].
  rewrite to_hex_hex by done. cbn [lift]. rewrite bind_Ok. destruct (edit_peeled e) as [o|]; [rewrite to_hex_hex by (by apply Hp)|];
    cbn; rewrite ?bind_Ok; by rewrite ?app_nil_r.
Qed.

(** What the merge of a file and of edits is to be. *)
Definition merged (rs : list Reference) (es : list Edit) (rs' : list Reference) : Prop :=
  Forall valid_record rs' ∧ sorted_records rs' ∧
  ∀ r, r ∈ rs' ↔ (r ∈ rs ∧ r_name r ∉ ename <$> es) ∨ ∃ e, e ∈ es ∧ edit_ref e = Some r.
Lemma merged_below rs es rs' n : merged rs es rs' →
  (∀ m, m ∈ names rs → bytes_lt n m) → (∀ m, m ∈ ename <$> es → bytes_lt n m) → Forall (bytes_lt n) (names rs').
Proof.
  intros (_ & _ & Hin) Hrs Hes. apply Forall_forall. intros m (r & -> & [[Hr _]|(e & He & Hr)]%Hin)%list_elem_of_fmap.
  - apply Hrs. by apply list_elem_of_fmap_2.
  - rewrite (edit_ref_name e r Hr). apply Hes. by apply list_elem_of_fmap_2.
Qed.
Lemma merged_nil : merged [] [] [].
Proof. split_and!; [done|constructor|set_solver]. Qed.
Lemma merged_keep r rs es rs' : valid_record r → (∀ m, m ∈ names rs → bytes_lt (r_name r) m) →
  (∀ m, m ∈ ename <$> es → bytes_lt (r_name r) m) → merged rs es rs' → merged (r :: rs) es (r :: rs').
Proof.
  intros Hr Hrs Hes Hm. pose proof (merged_below _ _ _ _ Hm Hrs Hes) as Hlt. destruct Hm as (Hv & Hs & Hin). split_and!.
  - by constructor.
  - by constructor.
  - intros x. rewrite !elem_of_cons, Hin. assert (r_name r ∉ ename <$> es) by (intros H; by destruct (irreflexivity bytes_lt _ (Hes _ H))).
    naive_solver.
Qed.
Lemma merged_edit rs e es rs' : valid_edit e → (∀ m, m ∈ names rs → bytes_lt (ename e) m) →
  (∀ m, m ∈ ename <$> es → bytes_lt (ename e) m) → merged rs es rs' → merged rs (e :: es) (edited e ++ rs').
Proof.
  intros He Hrs Hes Hm. pose proof (merged_below _ _ _ _ Hm Hrs Hes) as Hlt. destruct Hm as (Hv & Hs & Hin).
  assert (Hne : ∀ r, r ∈ rs → r_name r ≠ ename e).
  { intros r Hr E. assert (bytes_lt (ename e) (r_name r)) as H by (by apply Hrs, list_elem_of_fmap_2). rewrite E in H.
    by destruct (irreflexivity bytes_lt _ H). }
  assert (Hmem : ∀ r, r ∈ edited e ++ rs' ↔ (r ∈ rs ∧ r_name r ∉ ename <$> e :: es) ∨ ∃ e', e' ∈ e :: es ∧ edit_ref e' = Some r).
  { intros r. rewrite elem_of_app, Hin, fmap_cons. setoid_rewrite elem_of_cons. unfold edited. destruct (edit_ref e) as [x|] eqn:Ex.
    - rewrite list_elem_of_singleton. naive_solver.
    - rewrite elem_of_nil. naive_solver. }
  unfold edited in *. destruct (edit_ref e) as [r|] eqn:Er; [|done]. split_and!; [|  |done].
  - constructor; [by eapply edit_ref_valid|done].
  - constructor; [done|]. by rewrite (edit_ref_name e r Er).
Qed.
Lemma merged_replace r rs e es rs' : r_name r = ename e → merged rs (e :: es) rs' → merged (r :: rs) (e :: es) rs'.
Proof.
  intros Hr (Hv & Hs & Hin). split_and!; [done..|]. intros x. rewrite Hin, elem_of_cons, fmap_cons, not_elem_of_cons. naive_solver.
Qed.
Lemma text_single r : text [r] = write_packed_ref r.
Proof. unfold text. cbn. by rewrite app_nil_r. Qed.
Lemma wrap_wrap_add n a b : wrap 32 (wrap 32 (n + a) + b) = wrap 32 (n + (a + b)).
Proof. unfold wrap. rewrite Zplus_mod_idemp_l. f_equal. lia. Qed.

(** The state of the loop: [n] lines written, and what is still to be done
    appends the merge. *)
Definition appends (o : bytes) (n : Z) (rs' : list Reference) : res CommitError (bytes * Z) :=
  Ok (o ++ text rs', wrap 32 (n + Z.of_nat (length rs'))).
Lemma appends_edit e o n rs' : valid_edit e →
  appends (o ++ text (edited e)) (wrap 32 (n + Z.of_nat (length (edited e)))) rs' = appends o n (edited e ++ rs').
Proof. intros _. unfold appends. by rewrite wrap_wrap_add, text_app, length_app, <- app_assoc, Nat2Z.inj_add. Qed.
Lemma appends_keep r o n rs' : appends (o ++ write_packed_ref r) (wrap 32 (n + 1)) rs' = appends o n (r :: rs').
Proof. unfold appends. rewrite wrap_wrap_add, <- text_single, <- app_assoc, <- text_app. cbn [length]. by rewrite Nat2Z.inj_succ, Z.add_1_l. Qed.
Lemma commit_loop_edits es o n : 0 ≤ n < 2 ^ 32 → Forall valid_edit es → StronglySorted bytes_lt (ename <$> es) →
  ∃ rs', commit_loop [] es o n = appends o n rs' ∧ merged [] es rs'.
Proof.
  revert o n. induction es as [|e es IH]; intros o n Hn Hv Hs.
  - exists []. split; [|apply merged_nil]. unfold appends. cbn. by rewrite app_nil_r, Z.add_0_r, wrap_small.
  - apply Forall_cons in Hv as [He Hv]. rewrite fmap_cons in Hs. apply StronglySorted_inv in Hs as [Hs Hlt]. rewrite Forall_forall in Hlt.
    cbn [commit_loop]. rewrite write_edit_ok, bind_Ok by done.
    destruct (IH (o ++ text (edited e)) (wrap 32 (n + Z.of_nat (length (edited e))))) as (rs' & E & Hm); [by apply wrap_range|done..|].
    exists (edited e ++ rs'). split; [rewrite <- appends_edit by done; exact E|]. apply merged_edit; [done|set_solver|done..].
Qed.
Lemma commit_loop_spec rs es o n : 0 ≤ n < 2 ^ 32 → Forall valid_record rs → sorted_records rs →
  Forall valid_edit es → StronglySorted bytes_lt (ename <$> es) →
  ∃ rs', commit_loop (Ok <$> rs) es o n = appends o n rs' ∧ merged rs es rs'.
Proof.
  unfold sorted_records, names. intros Hn Hrs Hs. revert es o n Hn.
  induction rs as [|r rs IH]; [intros es o n ? ? ?; by apply commit_loop_edits|].
  apply Forall_cons in Hrs as [Hr Hrs]. rewrite fmap_cons in Hs. apply StronglySorted_inv in Hs as [Hs Hlt]. rewrite Forall_forall in Hlt.
  specialize (IH Hrs Hs). intros es. induction es as [|e es IHes]; intros o n Hn Hv Hes; rewrite fmap_cons.
  - destruct (IH [] (o ++ write_packed_ref r) (wrap 32 (n + 1))) as (rs' & E & Hm); [by apply wrap_range|done..|].
    exists (r :: rs'). split; [rewrite <- appends_keep; exact E|]. apply merged_keep; [done..|set_solver|done].
  - pose proof Hv as [He Hv']%Forall_cons. pose proof Hes as Hes'. rewrite fmap_cons in Hes'. apply StronglySorted_inv in Hes' as [Hes' Hlt'].
    rewrite Forall_forall in Hlt'. cbn [commit_loop]. destruct (bytes_cmp (r_name r) (edit_name (inner e))) eqn:C.
    + apply bytes_cmp_eq in C. rewrite write_edit_ok, bind_Ok by done.
      destruct (IH es (o ++ text (edited e)) (wrap 32 (n + Z.of_nat (length (edited e))))) as (rs' & E & Hm); [by apply wrap_range|done..|].
      exists (edited e ++ rs'). split; [rewrite <- appends_edit by done; exact E|]. apply merged_replace; [done|].
      apply merged_edit; [done| |done..]. unfold ename. by rewrite <- C.
    + destruct (IH (e :: es) (o ++ write_packed_ref r) (wrap 32 (n + 1))) as (rs' & E & Hm); [by apply wrap_range|done..|].
      exists (r :: rs'). split; [rewrite <- appends_keep; exact E|]. apply merged_keep; [done..| |done].
      rewrite fmap_cons. intros m [->|Hm']%elem_of_cons; [done|]. by transitivity (ename e); [|apply Hlt'].
    + rewrite write_edit_ok, bind_Ok by done.
      destruct (IHes (o ++ text (edited e)) (wrap 32 (n + Z.of_nat (length (edited e))))) as (rs' & E & Hm); [by apply wrap_range|done..|].
      exists (edited e ++ rs'). split; [rewrite <- appends_edit by done; exact E|].
      assert (Hc : bytes_lt (ename e) (r_name r)) by (unfold bytes_lt; rewrite bytes_cmp_antisym; unfold ename; by rewrite C).
      apply merged_edit; [done| |done..]. unfold names. rewrite fmap_cons. intros m [->|Hm']%elem_of_cons; [done|]. by transitivity (r_name r); [|apply Hlt].
Qed.

(** *** The map after the edits *)

Definition apply_edit (e : Edit) (m : gmap bytes Reference) : gmap bytes Reference :=
  match edit_ref e with Some r => <[ename e:=r]> m | None => delete (ename e) m end.
Lemma apply_edits_lookup es m n r : NoDup (ename <$> es) →
  foldr apply_edit m es !! n = Some r ↔ (m !! n = Some r ∧ n ∉ ename <$> es) ∨ ∃ e, e ∈ es ∧ edit_ref e = Some r ∧ ename e = n.
Proof.
  induction es as [|e es IH]; cbn [foldr]; [set_solver|]. rewrite fmap_cons. intros [He Hd]%NoDup_cons. specialize (IH Hd).
  setoid_rewrite elem_of_cons. unfold apply_edit at 1. destruct (decide (ename e = n)) as [<-|Hn].
  - assert (∀ e', e' ∈ es → ename e' ≠ ename e) by (intros e' He' E; apply He; rewrite <- E; by apply list_elem_of_fmap_2).
    destruct (edit_ref e) as [x|] eqn:Ex; [rewrite lookup_insert_eq|rewrite lookup_delete_eq]; naive_solver.
  - assert (∀ e', e' = e ∨ e' ∈ es → ename e' = n → e' ∈ es) by naive_solver.
    destruct (edit_ref e) as [x|] eqn:Ex; [rewrite lookup_insert_ne by done|rewrite lookup_delete_ne by done]; rewrite IH; naive_solver.
Qed.
Lemma merged_map rs es es' rs' : sorted_records rs → NoDup (ename <$> es) → es' ≡ₚ es → merged rs es' rs' →
  refs_map rs' = foldr apply_edit (refs_map rs) es.
Proof.
  intros Hs Hd Hp (Hv & Hs' & Hin). apply map_eq. intros n. apply option_eq. intros r.
  rewrite refs_map_lookup, apply_edits_lookup, refs_map_lookup, Hin by done. setoid_rewrite Hp.
  split; [intros [[[??]|(e & He & Er)] <-]|intros [[[? <-] ?]|(e & He & Er & <-)]].
  - left. done.
  - right. exists e. by rewrite (edit_ref_name e r).
  - split; [by left|done].
  - split; [right; by exists e|]. by apply edit_ref_name.
Qed.
Lemma merged_length rs es rs' : merged rs es rs' → (length rs' ≤ length rs + length es)%nat.
Proof.
  intros (_ & Hs & Hin). replace (length rs + length es)%nat with (length (names rs ++ (ename <$> es))) by (unfold names; by rewrite length_app, !length_fmap).
  rewrite <- (length_fmap r_name rs'). apply submseteq_length, NoDup_submseteq; [by apply sorted_NoDup|].
  intros n (r & -> & [[Hr _]|(e & He & Er)]%Hin)%list_elem_of_fmap; apply elem_of_app; [left|right].
  - by apply list_elem_of_fmap_2.
  - rewrite (edit_ref_name e r) by done. by apply list_elem_of_fmap_2.
Qed.
Lemma refs_map_empty rs : sorted_records rs → refs_map rs = ∅ ↔ rs = [].
Proof.
  intros Hs. split; [|by intros ->]. destruct rs as [|r rs]; [done|]. intros E.
  assert (refs_map (r :: rs) !! r_name r = Some r) as H by (apply refs_map_lookup; [done|]; split; [by left|done]). by rewrite E in H.
Qed.
Lemma reopen rs : Forall valid_record rs → sorted_records rs → ∃ b, from_bytes (HEADER_LINE ++ text rs) = Ok b ∧ holds b rs.
Proof.
  intros Hrs Hs. change HEADER_LINE with (header_line (bs "peeled fully-peeled sorted ")). unfold from_bytes.
  rewrite starts_hash, header_read by (done || by apply (bool_decide_unpack _); vm_compute). rewrite bind_Ok, traits_sorted.
  change (bool_decide _) with true. replace (_ - _)%nat with (length (header_line (bs "peeled fully-peeled sorted "))) by (rewrite length_app; lia).
  eexists. split; [done|]. split_and!; [by eexists|done..].
Qed.
(** Committing prepared edits. *)
Lemma commit_prepared t rs edits :
  t_edits t = Some edits → (edits ≠ [] → t_lock_open t = true) →
  match t_buffer t with Some b => holds b rs | None => rs = [] end →
  Forall valid_edit edits → NoDup (ename <$> edits) → Z.of_nat (length rs + length edits) < 2 ^ 32 →
  ∃ out, commit t = Ok out ∧
    match out with
    | Untouched => edits = []
    | Removed => foldr apply_edit (refs_map rs) edits = ∅
    | Written content => ∃ b rs', from_bytes content = Ok b ∧ holds b rs' ∧ rs' ≠ [] ∧ refs_map rs' = foldr apply_edit (refs_map rs) edits
    end.
Proof.
  intros Ht Hopen Hb Hv Hd Hlen. unfold commit. rewrite Ht. cbn [expect]. rewrite bind_Ok. case_bool_decide as He; [by exists Untouched|].
  rewrite Hopen by done. cbn [assert_]. rewrite bind_Ok.
  assert (Hit : Forall valid_record rs ∧ sorted_records rs ∧
    match t_buffer t with Some buffer => it ← map_err Iteration (iter buffer); Ok (iter_items it) | None => Ok [] end =
    @Ok CommitError _ (Ok <$> rs)).
  { destruct (t_buffer t) as [b|]; [|subst rs; split_and!; [done|constructor|done]]. pose proof Hb as (_ & Hrs & Hs). split_and!; [done..|].
    unfold iter. rewrite (as_ref_holds b rs), bind_Ok by done. unfold iter_new. rewrite iter_new_text by done. cbn [map_err].
    by rewrite bind_Ok, iter_items_text, leading_all. }
  destruct Hit as (Hrs & Hs & ->). rewrite bind_Ok.
  pose proof (sort_by_perm edit_cmp edits) as Hp. pose proof (sort_by_keys ename edits Hd) as Hes.
  destruct (commit_loop_spec rs (sort_by edit_cmp edits) HEADER_LINE 0) as (rs' & E & Hm); [lia|done|done|by rewrite Hp|done|].
  rewrite E. unfold appends. rewrite bind_Ok, Z.add_0_l. eexists. split; [done|]. pose proof (merged_length _ _ _ Hm) as Hl. rewrite Hp in Hl.
  rewrite wrap_small by lia. pose proof (merged_map rs edits _ rs' Hs Hd Hp Hm) as Hmap. destruct Hm as (Hv' & Hs' & _).
  destruct (Z.eqb_spec (Z.of_nat (length rs')) 0) as [E0|E0].
  - rewrite <- Hmap. apply refs_map_empty; [done|]. by destruct rs'.
  - destruct (reopen rs' Hv' Hs') as (b & Eb & Hb'). exists b, rs'. split_and!; [done..| |done]. by intros ->.
Qed.

(** *** Preparation *)

Section Preparation.
Context (precompose : bytes → option bytes) {Fe : Type} (try_find_object : ObjectId → res Fe (option Data)).

(** A chain of [n] tags leads from an object to one that is not a tag. *)
Inductive tag_chain : ObjectId → nat → ObjectId → Prop :=
| chain_end id d : try_find_object id = Ok (Some d) → data_kind d ≠ PackEntry.Entry.KTag → tag_chain id 0 id
| chain_tag id d id' n final :
    try_find_object id = Ok (Some d) → data_kind d = PackEntry.Entry.KTag → target_id (tag_iter_from_bytes (data_bytes d)) = Ok id' →
    tag_chain id' n final → tag_chain id (S n) final.
Lemma peel_loop_spec fuel new id n final : tag_chain id n final → (n < fuel)%nat →
  peel_loop try_find_object fuel new id = Ok (if bool_decide (final = new) then None else Some final).
Proof.
  intros Hc. revert fuel. induction Hc as [id d Hd Hk|id d id' n final Hd Hk Ht _ IH]; intros [|fuel] Hf; [lia| |lia|]; cbn [peel_loop];
    rewrite Hd; cbn [map_err]; rewrite bind_Ok.
  - by rewrite bool_decide_eq_false_2.
  - rewrite bool_decide_eq_true_2, Ht by done. cbn [map_err]. rewrite bind_Ok. apply IH. lia.
Qed.

(** A name that is looked up as it is. *)
Definition full_lookup (name : bytes) : Prop :=
  ref_name name = Ok name ∧ looks_like_full_name name = true ∧ transform_full_name_for_lookup name = Ok (Some name).
Lemma find_full b rs name : holds b rs → full_lookup name →
  find b name = match refs_map rs !! name with Some r => Ok r | None => Err NotExisting end.
Proof.
  intros Hb (_ & Hl & Ht). unfold find, try_find. cbn [try_find_loop]. rewrite Hl, Ht. cbn [lift]. rewrite bind_Ok, (find_full_name b rs) by done.
  by destruct (refs_map rs !! name).
Qed.

(** An edit of the caller, and what it asks for: [final] is what an object is
    peeled to. *)
Context (fuel : nat) (final : ObjectId → ObjectId).
Definition valid_ref_edit (e : RefEdit) : Prop :=
  full_lookup (edit_name e) ∧
  match change e with
  | Update _ _ (Object id) => wf_id id ∧ wf_id (final id) ∧ ∃ n, tag_chain id n (final id) ∧ (n < fuel)%nat
  | Update _ _ (Symbolic _) => False
  | Delete _ _ => True
  end.
Definition asked (e : RefEdit) (m : gmap bytes Reference) : gmap bytes Reference :=
  match change e with
  | Update _ _ (Object id) =>
      <[edit_name e := mkReference (edit_name e) (hex (as_slice id))
                         (if bool_decide (final id = id) then None else Some (hex (as_slice (final id))))]> m
  | _ => delete (edit_name e) m
  end.
Definition peeled_edit (e : RefEdit) : Edit :=
  mkEdit e (match change e with Update _ _ (Object id) => if bool_decide (final id = id) then None else Some (final id) | _ => None end).
Lemma peel_edit_ok e : valid_ref_edit e → peel_edit try_find_object fuel e = Ok (peeled_edit e).
Proof.
  intros (_ & H). unfold peel_edit, peeled_edit. destruct (change e) as [? ? [id|]|] eqn:E; [|done..].
  destruct H as (_ & _ & n & Hc & Hn). by rewrite (peel_loop_spec _ _ _ n (final id)), bind_Ok.
Qed.
Lemma peeled_edit_valid e : valid_ref_edit e → valid_edit (peeled_edit e).
Proof.
  intros ((Hn & _) & H). unfold valid_edit, peeled_edit, ename. cbn. split_and!; [done|intros id'|]; destruct (change e) as [? ? [id|]|]; try done.
  - case_bool_decide; [done|]. intros [= <-]. apply H.
  - apply H.
Qed.
Lemma apply_peeled e m : valid_ref_edit e → apply_edit (peeled_edit e) m = asked e m.
Proof.
  intros (_ & H). unfold apply_edit, asked, edit_ref, peeled_edit, ename. cbn. destruct (change e) as [? ? [id|]|]; [|done..].
  by case_bool_decide.
Qed.
(** The edits that are kept: deletions of what is not there ask for nothing. *)
Definition kept (rs : list Reference) (buffer : option Buffer) (e : RefEdit) : bool :=
  match change e, buffer with Delete _ _, Some _ => bool_decide (is_Some (refs_map rs !! edit_name e)) | _, _ => true end.
Lemma applicable_ok buffer rs es : match buffer with Some b => holds b rs | None => True end → Forall valid_ref_edit es →
  applicable (Fe := Fe) buffer es = Ok (filter (λ e, kept rs buffer e = true) es).
Proof.
  intros Hb. induction 1 as [|e es [Hn He] _ IH]; [done|]. cbn [applicable]. rewrite filter_cons, IH.
  assert (E : match change e, buffer with
              | Delete _ _, Some b => match find b (edit_name e) with Ok _ => Ok true | Err _ => Ok false | Panic => Panic end
              | _, _ => Ok true
              end = @Ok (PrepareError (Fe := Fe)) _ (kept rs buffer e)).
  { unfold kept. destruct (change e); [done|]. destruct buffer as [b|]; [|done]. rewrite (find_full b rs) by done.
    destruct (refs_map rs !! edit_name e) eqn:E; [by rewrite bool_decide_eq_true_2|by rewrite bool_decide_eq_false_2 by (by intros [])]. }
  rewrite E, !bind_Ok. by destruct (kept rs buffer e).
Qed.
Lemma asked_kept rs buffer es m : NoDup (edit_name <$> es) → (∀ e, e ∈ es → m !! edit_name e = refs_map rs !! edit_name e) →
  foldr asked m (filter (λ e, kept rs buffer e = true) es) = foldr asked m es.
Proof.
  intros Hd Hm. induction es as [|e es IH]; [done|]. rewrite fmap_cons in Hd. apply NoDup_cons in Hd as [He Hd].
  specialize (IH Hd ltac:(intros; apply Hm; by right)). rewrite filter_cons. cbn [foldr]. rewrite <- IH. case_decide as Hk; [done|].
  assert (Hsame : ∀ l, edit_name e ∉ edit_name <$> l → foldr asked m l !! edit_name e = m !! edit_name e).
  { induction l as [|x l IHl]; [done|]. rewrite fmap_cons, not_elem_of_cons. intros [Hx Hl]. cbn [foldr]. rewrite <- IHl by done. unfold asked at 1.
    destruct (change x) as [? ? [id|]|]; [rewrite lookup_insert_ne by done|rewrite lookup_delete_ne by done..]; done. }
  unfold kept in Hk. unfold asked at 2. destruct (change e); [done|]. destruct buffer; [|done]. symmetry. apply delete_id.
  rewrite IH, Hsame, (Hm e) by (done || by left). destruct (refs_map rs !! edit_name e) eqn:E; [|done]. by rewrite bool_decide_eq_true_2 in Hk.
Qed.
Lemma foldr_peeled es m : Forall valid_ref_edit es → foldr apply_edit m (peeled_edit <$> es) = foldr (asked) m es.
Proof. induction 1 as [|e es He _ IH]; [done|]. cbn. by rewrite IH, apply_peeled. Qed.

(** C7: A transaction on packed references does what its edits ask for.
    Preparing edits with distinct names and committing them gives a file that,
    opened again, is the old map with the updated references inserted - their
    tags peeled to the object at the end of the chain - and the deleted ones
    gone, as every lookup by a full name observes; the file is removed if no
    record remains, and left alone only if that changes nothing. *)
Theorem packed_transaction_correct t rs edits :
  let es := prepared_edit precompose t <$> edits in
  let m := foldr asked (refs_map rs) es in
  t_edits t = None → t_lock_open t = true →
  match t_buffer t with Some b => holds b rs | None => rs = [] end →
  Forall valid_ref_edit es → NoDup (edit_name <$> es) → Z.of_nat (length rs + length edits) < 2 ^ 32 →
  ∃ t' out, prepare precompose try_find_object fuel t edits = Ok t' ∧ commit t' = Ok out ∧
    match out with
    | Untouched => m = refs_map rs
    | Removed => m = ∅
    | Written content => m ≠ ∅ ∧ ∃ b, from_bytes content = Ok b ∧ ∀ name, try_find_full_name b name = Ok (m !! name)
    end.
Proof.
  intros es m Ht Hopen Hb Hv Hd Hlen. set (ks := filter (λ e, kept rs (t_buffer t) e = true) es).
  assert (Hks : ks `sublist_of` es) by apply sublist_filter.
  assert (Hvk : Forall valid_ref_edit ks) by (rewrite Forall_forall in *; intros e [_ He]%list_elem_of_filter; by apply Hv).
  unfold prepare. rewrite Ht, (applicable_ok _ rs es) by (done || by destruct (t_buffer t)). rewrite bind_Ok. fold ks.
  rewrite (mapM_res_ok _ peeled_edit ks) by (eapply Forall_impl; [exact Hvk|]; apply peel_edit_ok).
  rewrite bind_Ok. set (t' := mkTransaction _ _ _ _ _). exists t'.
  assert (Hm : foldr apply_edit (refs_map rs) (peeled_edit <$> ks) = m).
  { rewrite foldr_peeled by done. by apply asked_kept. }
  assert (Hs : sorted_records rs).
  { destruct (t_buffer t) as [b|]; [apply Hb|]. subst rs. constructor. }
  destruct (commit_prepared t' rs (peeled_edit <$> ks) eq_refl) as (out & E & Hout); [..|exists out; split; [done|split; [exact E|]]]; cbn.
  - intros Hne. by rewrite bool_decide_eq_false_2.
  - done.
  - apply Forall_fmap. eapply Forall_impl; [exact Hvk|]. apply peeled_edit_valid.
  - rewrite <- list_fmap_compose. eapply sublist_NoDup; [exact Hd|]. by apply fmap_sublist.
  - pose proof (sublist_length _ _ Hks) as Hl. unfold es in Hl. rewrite length_fmap in Hl. rewrite length_fmap. clear -Hl Hlen. lia.
  - rewrite Hm in Hout. destruct out as [| |content]; [|done|].
    + rewrite <- Hm. by rewrite Hout.
    + destruct Hout as (b & rs' & Eb & Hb' & Hne & E'). rewrite <- E'. split; [by intros H%refs_map_empty; [|apply Hb']|]. exists b.
      split; [done|]. intros name. by apply find_full_name.
Qed.
End Preparation.
End Transactions.

(** ** Witnesses *)

#[local] Existing Instances bstr_impl bstr_impl_laws winnow_impl winnow_impl_laws hex_impl hex_impl_laws.

Definition sample_id (n : Z) : ObjectId := Sha1 (replicate 20 n).
Definition sample_main : Reference := mkReference (bs "refs/heads/main") (hex (replicate 20 1)) None.
Definition sample_tag : Reference := mkReference (bs "refs/tags/v1") (hex (replicate 20 2)) (Some (hex (replicate 20 1))).
Definition samples : list Reference := [sample_main; sample_tag].
Definition sample_buffer : Buffer := mkBuffer (HEADER_LINE ++ text samples) (length HEADER_LINE).
Lemma packed_sample_wf n : 0 ≤ n < 256 → wf_id (sample_id n).
Proof. intros Hn. split; [done|]. by apply Forall_replicate. Qed.
Lemma samples_valid : Forall valid_record samples.
Proof.
  repeat constructor; unfold valid_record; cbn [samples sample_main sample_tag r_target r_name r_object].
  - exists (sample_id 1). split; [by apply packed_sample_wf|done].
  - done.
  - exists (sample_id 2). split; [by apply packed_sample_wf|done].
  - intros h [= <-]. exists (sample_id 1). split; [by apply packed_sample_wf|done].
Qed.
Lemma samples_hold : holds sample_buffer samples.
Proof. split_and!; [by exists HEADER_LINE|apply samples_valid|]. repeat constructor. Qed.
(** The text of the file, and lookups by partial and full names. *)
Example sample_lookups :
  (name ← [bs "v1"; bs "main"; bs "refs/tags/v1"; bs "refs/tags/v2"; bs "HEAD"]; [try_find sample_buffer name]) =
    [Ok (Some sample_tag); Ok (Some sample_main); Ok (Some sample_tag); Ok None; Ok None].
Proof. by vm_compute. Qed.
Lemma packed_find_correct_witness :
  holds sample_buffer samples ∧
  try_find_full_name sample_buffer (bs "refs/tags/v1") = Ok (refs_map samples !! bs "refs/tags/v1").
Proof. split; [apply samples_hold|]. apply (packed_find_correct sample_buffer samples), samples_hold. Defined.
Lemma packed_partial_lookup_witness :
  looks_like_full_name (bs "v1") = false ∧
  try_find sample_buffer (bs "v1") =
    Ok (head (omap (λ p, refs_map samples !! (bs p ++ bs "v1")) ["refs/"; "refs/tags/"; "refs/heads/"; "refs/remotes/"])).
Proof. split; [by vm_compute|]. apply (packed_partial_lookup sample_buffer samples); [apply samples_hold|by vm_compute]. Defined.
Lemma packed_prefix_iteration_witness :
  ∃ it, iter_prefixed sample_buffer (bs "refs/t") = Ok it ∧
        iter_items it = Ok <$> filter (λ r, bs "refs/t" `prefix_of` r_name r) samples.
Proof. apply (packed_prefix_iteration sample_buffer samples), samples_hold. Defined.
Lemma packed_open_sorts_witness :
  ∃ b rs', from_bytes (header_line (bs "peeled ") ++ text [sample_tag; sample_main]) = Ok b ∧ holds b rs' ∧ rs' ≡ₚ [sample_tag; sample_main].
Proof.
  apply (packed_open_sorts (Some (bs "peeled "))).
  - pose proof samples_valid as [H1 [H2 _]%Forall_cons]%Forall_cons. constructor; [exact H2|constructor; [exact H1|constructor]].
  - by_decision.
  - split_and!; [by_decision..|]. intros H. by destruct ((ltac:(by_decision) : bs "sorted" ∉ bstr.split_byte 32 (bs "peeled ")) H).
Defined.

(** The branch is deleted, and a tag of a commit is created. *)
Definition sample_objects (id : ObjectId) : res unit (option Data) :=
  Ok (if bool_decide (id = sample_id 3) then Some (mkData PackEntry.Entry.KTag (bs "object " ++ hex (replicate 20 1) ++ [10]))
      else if bool_decide (id = sample_id 1) then Some (mkData PackEntry.Entry.KCommit []) else None).
Definition sample_final (id : ObjectId) : ObjectId := if bool_decide (id = sample_id 3) then sample_id 1 else id.
Definition sample_edits : list RefEdit :=
  [mkRefEdit (Update log_change_default Any (Object (sample_id 3))) (bs "refs/tags/v0") false;
   mkRefEdit (Delete Any AndReference) (bs "refs/heads/main") false;
   mkRefEdit (Delete Any AndReference) (bs "refs/heads/gone") false].
Definition sample_transaction : Transaction := new_from_pack_and_lock (Some sample_buffer) false None.
Definition new_tag : Reference := mkReference (bs "refs/tags/v0") (hex (replicate 20 3)) (Some (hex (replicate 20 1))).
Example sample_committed :
  match prepare (λ _, None) sample_objects 2 sample_transaction sample_edits with
  | Ok t => commit t = Ok (Written (HEADER_LINE ++ text [new_tag; sample_tag]))
  | _ => False
  end.
Proof. by vm_compute. Qed.
(** Without any record left the file is removed; a symbolic reference is not
    expected. *)
Example sample_removed :
  match prepare (λ _, None) sample_objects 2 (new_from_pack_and_lock None false None) [mkRefEdit (Delete Any AndReference) (bs "refs/heads/gone") false] with
  | Ok t => commit t = Ok Removed
  | _ => False
  end.
Proof. by vm_compute. Qed.
Lemma sample_edits_valid : Forall (valid_ref_edit sample_objects 2 sample_final) (prepared_edit (λ _, None) sample_transaction <$> sample_edits).
Proof.
  constructor; [|constructor; [|constructor; [|constructor]]]; (split; [split_and!; by vm_compute|]); [|done..].
  split_and!; [by apply packed_sample_wf..|]. exists 1%nat. split; [|lia]. eapply chain_tag; [done..|by vm_compute|]. by eapply chain_end.
Qed.
Lemma packed_transaction_correct_witness :
  let m := foldr (asked sample_final) (refs_map samples) (prepared_edit (λ _, None) sample_transaction <$> sample_edits) in
  ∃ t out, prepare (λ _, None) sample_objects 2 sample_transaction sample_edits = Ok t ∧ commit t = Ok out ∧
    match out with
    | Untouched => m = refs_map samples
    | Removed => m = ∅
    | Written content => m ≠ ∅ ∧ ∃ b, from_bytes content = Ok b ∧ ∀ name, try_find_full_name b name = Ok (m !! name)
    end.
Proof.
  apply (packed_transaction_correct (λ _, None) sample_objects 2 sample_final sample_transaction samples sample_edits);
    [done|done|apply samples_hold|apply sample_edits_valid|by_decision|done].
Defined.
