(* ===== verification/ConfigParse.v ===== *)
(** * Configuration files: [gix-config/src/parse]

    The parser of [git-config] files, which turns a file into events
    ([nom/mod.rs], [mod.rs], [events.rs]), and the text of events ([event.rs],
    [comment.rs], [section/header.rs]).

    A parser that calls [dispatch] is a function on the state that the closure
    and the parser change: the events given so far, and the node that is
    attempted.  Where it fails, the error is the input where it was left. *)

From S2P Require Import Prelude External Winnow.
Import winnow.

(** ** Data *)

Record Header := mkHeader { name : bytes; separator : option bytes; subsection_name : option bytes }.
Record Comment := mkComment { tag : Z; comment_text : bytes }.
Inductive Event :=
| EComment (c : Comment)
| SectionHeader (h : Header)
| SectionValueName (n : bytes)
| Value (v : bytes)
| Newline (s : bytes)
| ValueNotDone (v : bytes)
| ValueDone (v : bytes)
| Whitespace (s : bytes)
| KeyValueSeparator.
Inductive ParseNode := NodeSectionHeader | NodeName | NodeValue.
Record ParseError := mkParseError { line_number : nat; last_attempted_parser : ParseNode; parsed_until : bytes }.
#[global] Instance Header_eq_dec : EqDecision Header.
Proof. solve_decision. Defined.
#[global] Instance Comment_eq_dec : EqDecision Comment.
Proof. solve_decision. Defined.
#[global] Instance Event_eq_dec : EqDecision Event.
Proof. solve_decision. Defined.
#[global] Instance ParseNode_eq_dec : EqDecision ParseNode.
Proof. solve_decision. Defined.

(** What the closure and the parsers of a section change. *)
Record St := mkSt { events : list Event; node : ParseNode }.
Definition M (A : Type) : Type := St → St * res bytes A.
Definition ret {A} (a : A) : M A := λ st, (st, Ok a).
Definition bind {A B} (m : M A) (f : A → M B) : M B := λ st,
  let '(st, r) := m st in
  match r with Ok a => f a st | Err i => (st, Err i) | Panic => (st, Panic) end.
Declare Scope config_scope.
Delimit Scope config_scope with config.
Notation "'let!' p := m 'in' k" := (bind m (λ x, match x with p => k end))
  (at level 200, p pattern, m at level 200, k at level 200) : config_scope.
#[local] Open Scope config_scope.
Definition dispatch (e : Event) : M unit := λ st, (mkSt (events st ++ [e]) (node st), Ok tt).
Definition set_node (n : ParseNode) : M unit := λ st, (mkSt (events st) n, Ok tt).
Definition fail {A} (i : bytes) : M A := λ st, (st, Err i).
Definition lift_res {A} (i : bytes) {E} (r : res E A) : M A :=
  λ st, (st, match r with Ok a => Ok a | Err _ => Err i | Panic => Panic end).

(** ** The parser: [nom/mod.rs] *)

Section Nom.
Context `{BA : !bstr.Api} `{WA : !winnow.Api}.

(** A parser without effects, at an input that it leaves as it is on failure. *)
Definition run {A} (p : parser A) (i : bytes) : M (A * bytes) := lift_res i (p i).

Definition is_space (b : Z) : bool := (b =? 32) || (b =? 9).
Definition take_spaces1 : parser bytes := take_while 1 None is_space.
Definition take_newlines1 : parser bytes := taken (repeat_mn 1 1023 (alt (literal [13; 10]) (literal [10]))).
Definition comment : parser Comment :=
  map (pair (one_of (λ c, (c =? ch ";") || (c =? ch "#"))) (take_till 0 [10])) (λ '(tag, text), mkComment tag text).

Definition is_section_char (c : Z) : bool := is_ascii_alphanumeric c || (c =? ch "-") || (c =? ch ".").
Definition is_subsection_escapable_char (c : Z) : bool := negb (c =? 10).
Definition is_subsection_unescaped_char (c : Z) : bool := negb (c =? 34) && negb (c =? 92) && negb (c =? 10) && negb (c =? 0).
Definition subsection_unescaped : parser bytes := take_while 1 None is_subsection_unescaped_char.
Definition subsection_escaped_char : parser bytes := preceded (literal [92]) (taken (one_of is_subsection_escapable_char)).
Definition subsection_subset : parser bytes := alt subsection_unescaped subsection_escaped_char.
(** Every part consumes input, so its length bounds their number. *)
Fixpoint sub_section_loop (fuel : nat) (output : bytes) (i : bytes) : res ErrMode (bytes * bytes) :=
  '(sub, i) ← opt subsection_subset i;
  match sub with
  | Some sub => match fuel with O => Panic | S fuel => sub_section_loop fuel (output ++ sub) i end
  | None => Ok (output, i)
  end.
Definition sub_section : parser bytes := λ i,
  '(sub, i) ← opt subsection_subset i;
  let output := default [] sub in
  sub_section_loop (length i) output i.

(** [memchr::memrchr] is what [bstr] calls. *)
Definition section_header : parser Header := λ i,
  '(name, i) ← preceded (literal [ch "["]) (take_while 1 None is_section_char) i;
  '(close, i) ← opt (one_of (Z.eqb (ch "]"))) i;
  match close with
  | Some _ =>
      header ← match bstr.rfind_byte name (ch ".") with
               | Some index =>
                   start ← lift (slice_to name index);
                   Ok (mkHeader start (get_range name index (index + 1)) (get_from name (index + 1)))
               | None => Ok (mkHeader name None None)
               end;
      if bool_decide (ConfigParse.name header = []) then Err Backtrack else Ok (header, i)
  | None =>
      map (pair take_spaces1 (delimited (literal [34]) (opt sub_section) (literal [34; ch "]"])))
        (λ '(whitespace, subsection_name), mkHeader name (Some whitespace) subsection_name) i
  end.

Definition config_name : parser bytes :=
  taken (pair (one_of is_ascii_alphabetic) (take_while 0 None (λ c, is_ascii_alphanumeric c || (c =? ch "-")))).

(** [value_impl]: checkpoints are the input at their place, and offsets the
    difference of lengths.  Every round consumes input. *)
Definition is_value_char (c : Z) : bool :=
  negb (c =? 10) && negb (c =? 92) && negb (c =? 34) && negb (c =? ch ";") && negb (c =? ch "#").
Definition offset_from (i start : bytes) : nat := length start - length i.
Record ValueSt := mkValueSt { value_start : bytes; value_end : option nat; is_in_quotes : bool; partial_value_found : bool }.
(** The token behind a backslash, and a newline behind a carriage return. *)
Definition escaped_token (start i : bytes) : M (Z * nat * bytes) :=
  match i with
  | [] => fail start
  | c :: i =>
      if c =? 13 then
        match i with
        | [] => fail start
        | c :: i => if negb (c =? 10) then fail start else ret (c, 2%nat, i)
        end
      else ret (c, 1%nat, i)
  end.
(** A backslash in front of a newline, at [escape_index]: the input is that
    behind the newline. *)
Definition continue_value (s : ValueSt) (escape_index consumed : nat) : M (ValueSt * bytes) :=
  let! (value, i) := lift_res [] (split_at (E := Empty_set) (value_start s) escape_index) in
  let! _ := dispatch (ValueNotDone value) in
  let i := drop 1 i in
  let! (nl, i) := lift_res [] (split_at (E := Empty_set) i consumed) in
  let! _ := dispatch (Newline nl) in
  ret (mkValueSt i None (is_in_quotes s) true, i).
(** A token that does not end the value. *)
Definition value_token (start : bytes) (s : ValueSt) (c : Z) (i : bytes) : M (ValueSt * bytes) :=
  if c =? 92 then
    let escape_index := (offset_from i (value_start s) - 1)%nat in
    let! (c, consumed, i) := escaped_token start i in
    if c =? 10 then continue_value s escape_index consumed
    else if (c =? ch "n") || (c =? ch "t") || (c =? 92) || (c =? ch "b") || (c =? 34) then ret (s, i)
    else fail start
  else if c =? 34 then ret (mkValueSt (value_start s) (value_end s) (negb (is_in_quotes s)) (partial_value_found s), i)
  else ret (s, i).
Fixpoint value_loop (fuel : nat) (start : bytes) (s : ValueSt) (i : bytes) : M (ValueSt * bytes) :=
  let! (_, i) := run (take_while 0 None is_value_char) i in
  match i with
  | [] => ret (s, i)
  | c :: i =>
      let at_end := mkValueSt (value_start s) (Some (offset_from i (value_start s) - 1)%nat) (is_in_quotes s) (partial_value_found s) in
      if c =? 10 then ret (at_end, i)
      else if ((c =? ch ";") || (c =? ch "#")) && negb (is_in_quotes s) then ret (at_end, i)
      else
        let! (s, i) := value_token start s c i in
        match fuel with O => λ st, (st, Panic) | S fuel => value_loop fuel start s i end
  end.
Definition value_impl (i : bytes) : M bytes :=
  let start := i in
  let! (s, i) := value_loop (length i) start (mkValueSt i None false false) i in
  if is_in_quotes s then fail start
  else
    let finish (value_end : nat) : M bytes :=
      let! value := lift_res [] (slice_to (E := Empty_set) (value_start s) value_end) in
      let trimmed := match bstr.rfind_index (λ b, negb (is_ascii_whitespace b)) value with Some idx => (idx + 1)%nat | None => 0%nat end in
      let! (remainder_value, i) := lift_res [] (split_at (E := Empty_set) (value_start s) trimmed) in
      let! _ := dispatch (if partial_value_found s then ValueDone remainder_value else Value remainder_value) in
      ret i in
    match value_end s with
    | None =>
        let last_value_index := offset_from i (value_start s) in
        if (last_value_index =? 0)%nat then let! _ := dispatch (Value []) in ret i
        else finish last_value_index
    | Some idx => finish idx
    end.
(** [opt(take_spaces1)] and the event for what it takes. *)
Definition opt_dispatch {A} (p : parser A) (event : A → Event) (i : bytes) : M bytes :=
  let! (v, i) := run (opt p) i in
  match v with Some v => let! _ := dispatch (event v) in ret i | None => ret i end.
Definition config_value (i : bytes) : M bytes :=
  let! (sep, i) := run (opt (literal [ch "="])) i in
  match sep with
  | Some _ => let! _ := dispatch KeyValueSeparator in let! i := opt_dispatch take_spaces1 Whitespace i in value_impl i
  | None => let! _ := dispatch (Value []) in ret i
  end.
Definition key_value_pair (i : bytes) : M bytes :=
  let! _ := set_node NodeName in
  let! (name, i) := run (opt config_name) i in
  match name with
  | Some name =>
      let! _ := dispatch (SectionValueName name) in
      let! i := opt_dispatch take_spaces1 Whitespace i in
      let! _ := set_node NodeValue in
      config_value i
  | None => ret i
  end.
Fixpoint section_loop (fuel : nat) (i : bytes) : M bytes :=
  let start := i in
  let! i := opt_dispatch take_spaces1 Whitespace i in
  let! i := opt_dispatch take_newlines1 Newline i in
  let! i := key_value_pair i in
  let! i := opt_dispatch comment EComment i in
  if (offset_from i start =? 0)%nat then ret i
  else match fuel with O => λ st, (st, Panic) | S fuel => section_loop fuel i end.
Definition section (i : bytes) : M bytes :=
  let! (header, i) := run section_header i in
  let! _ := dispatch (SectionHeader header) in
  section_loop (length i) i.

Definition newlines_from (input start : bytes) : nat := length (filter (λ c, c = 10) (take (offset_from input start) start)).
(** The closure that [repeat] calls: a failure leaves the input where the
    section left it. *)
Definition section_closure : St * bytes → bytes → (St * bytes) * res ErrMode (unit * bytes) := λ '(st, _) i,
  let '(st, r) := section i st in
  match r with
  | Ok i => ((st, i), Ok (tt, i))
  | Err rest => ((st, rest), Err Backtrack)
  | Panic => ((st, i), Panic)
  end.
Definition front_matter : parser (list Event) :=
  repeat 0 (alt (map comment EComment) (alt (map take_spaces1 Whitespace) (map take_newlines1 Newline))).

(** [bom_len] is [unicode_bom::Bom::from(input).len()]. *)
Context (bom_len : bytes → nat).
(** The events that are dispatched, and the result. *)
Definition from_bytes (input : bytes) : list Event * res ParseError unit :=
  let start := input in
  match slice_from (E := Empty_set) input (bom_len input) with
  | Ok input =>
      match front_matter input with
      | Ok (front, input) =>
          if bool_decide (input = []) then (front, Ok tt)
          else
            let '((st, rest), r) := repeat_mut 1 section_closure (mkSt front NodeSectionHeader, input) input in
            let error (input : bytes) : res ParseError unit :=
              Err (mkParseError (newlines_from input start) (node st) input) in
            match r with
            | Ok (_, input) => (events st, if bool_decide (input = []) then Ok tt else error input)
            | Err _ => (events st, error rest)
            | Panic => (events st, Panic)
            end
      | _ => ([], Panic)
      end
  | _ => ([], Panic)
  end.
End Nom.

(** ** The text of events *)

Definition escape_subsection_byte (b : Z) : bytes := if b =? 92 then [92; 92] else if b =? 34 then [92; 34] else [b].
Definition escape_subsection (n : bytes) : bytes :=
  if existsb (λ b, (b =? 92) || (b =? 34)) n then concat (escape_subsection_byte <$> n) else n.
Definition header_write_to (h : Header) : bytes :=
  [ch "["] ++ name h ++
  match separator h, subsection_name h with
  | Some sep, Some subsection =>
      sep ++ (if bool_decide (sep = [ch "."]) then subsection else [34] ++ escape_subsection subsection ++ [34])
  | _, _ => []
  end ++ [ch "]"].
Definition comment_write_to (c : Comment) : bytes := tag c :: comment_text c.
Definition event_write_to (e : Event) : bytes :=
  match e with
  | ValueNotDone e => e ++ [92]
  | Whitespace e | Newline e | Value e | ValueDone e => e
  | KeyValueSeparator => [ch "="]
  | SectionValueName k => k
  | SectionHeader h => header_write_to h
  | EComment c => comment_write_to c
  end.
Definition to_bstr_lossy (e : Event) : bytes :=
  match e with
  | ValueNotDone e | Whitespace e | Newline e | Value e | ValueDone e => e
  | KeyValueSeparator => [ch "="]
  | SectionValueName k => k
  | SectionHeader h => name h
  | EComment c => comment_text c
  end.
Definition text (es : list Event) : bytes := concat (event_write_to <$> es).

(** ** Headers: [section/header.rs], and their names *)

Inductive HeaderError := InvalidName | InvalidSubSection.
Section Headers.
Context `{BA : !bstr.Api}.
Definition is_valid_subsection (n : bytes) : bool := bool_decide (bstr.find_byteset n [10; 0] = None).
Definition validated_subsection (n : bytes) : res HeaderError bytes := if is_valid_subsection n then Ok n else Err InvalidSubSection.
Definition validated_name (n : bytes) : res HeaderError bytes :=
  if forallb (λ b, is_ascii_alphanumeric b || (b =? ch "-")) n then Ok n else Err InvalidName.
Definition header_new (n : bytes) (subsection : option bytes) : res HeaderError Header :=
  n ← validated_name n;
  match subsection with
  | Some subsection_name => s ← validated_subsection subsection_name; Ok (mkHeader n (Some [32]) (Some s))
  | None => Ok (mkHeader n None None)
  end.
Definition is_legacy (h : Header) : bool := bool_decide (separator h = Some [ch "."]).
Definition is_valid_name (n : bytes) : bool := negb (bool_decide (n = [])) && forallb (λ b, is_ascii_alphanumeric b || (b =? ch "-")) n.
Definition is_valid_value_name (n : bytes) : bool :=
  is_valid_name n && match n with b :: _ => is_ascii_alphabetic b | [] => false end.
End Headers.

(** ** Theorems: nothing is lost *)

Section Lossless.
Context `{BA : !bstr.Api} `{BL : !bstr.Laws} `{WA : !winnow.Api} `{WL : !winnow.Laws}.

(** The text of a subsection in quotes, where a backslash may be in front of
    every character, and the name it stands for. *)
Inductive unescapes : bytes → bytes → Prop :=
| unescapes_nil : unescapes [] []
| unescapes_char c raw s : is_subsection_unescaped_char c = true → unescapes raw s → unescapes (c :: raw) (c :: s)
| unescapes_escape c raw s : c ≠ 10 → unescapes raw s → unescapes (92 :: c :: raw) (c :: s).
(** What an event is in a file: the text that is written for it, or, for a
    header, another spelling of its subsection. *)
Inductive spelled : Event → bytes → Prop :=
| spelled_text e : spelled e (event_write_to e)
| spelled_header n ws raw s : unescapes raw s →
    spelled (SectionHeader (mkHeader n (Some ws) (Some s))) ([ch "["] ++ n ++ ws ++ [34] ++ raw ++ [34; ch "]"]).
Definition consumed (i i' : bytes) (es : list Event) : Prop := ∃ ps, Forall2 spelled es ps ∧ i = concat ps ++ i'.
Lemma consumed_nil i : consumed i i [].
Proof. by exists []. Qed.
Lemma consumed_app i i' i'' es es' : consumed i i' es → consumed i' i'' es' → consumed i i'' (es ++ es').
Proof. intros (ps & H & ->) (ps' & H' & ->). exists (ps ++ ps'). split; [by apply Forall2_app|]. by rewrite concat_app, <- app_assoc. Qed.
Lemma consumed_one e p i : spelled e p → consumed (p ++ i) i [e].
Proof. intros H. exists [p]. split; [by repeat constructor|]. cbn. by rewrite app_nil_r. Qed.
Lemma consumed_text e i : consumed (event_write_to e ++ i) i [e].
Proof. apply consumed_one. constructor. Qed.
Lemma consumed_length i i' es : consumed i i' es → (length i' ≤ length i)%nat.
Proof. intros (ps & _ & ->). rewrite length_app. lia. Qed.

(** A computation that gives events and, if it succeeds, what [Q] says; it does
    not panic. *)
Definition gives {A} (m : M A) (Q : A → list Event → Prop) : Prop :=
  ∀ st, ∃ es, events (m st).1 = events st ++ es ∧ match (m st).2 with Ok a => Q a es | Err _ => True | Panic => False end.
Lemma gives_ret {A} (a : A) (Q : A → list Event → Prop) : Q a [] → gives (ret a) Q.
Proof. intros H st. exists []. cbn. split; [by rewrite app_nil_r|done]. Qed.
Lemma gives_fail {A} i (Q : A → list Event → Prop) : gives (fail i) Q.
Proof. intros st. exists []. cbn. split; [by rewrite app_nil_r|done]. Qed.
Lemma gives_dispatch e (Q : unit → list Event → Prop) : Q tt [e] → gives (dispatch e) Q.
Proof. intros H st. by exists [e]. Qed.
Lemma gives_bind {A B} (m : M A) (f : A → M B) (P : A → list Event → Prop) (Q : B → list Event → Prop) :
  gives m P → (∀ a es, P a es → gives (f a) (λ b es', Q b (es ++ es'))) → gives (bind m f) Q.
Proof.
  intros Hm Hf st. destruct (Hm st) as (es & E & H). unfold bind. destruct (m st) as [st' [a|e|]]; cbn in *; [|by exists es|done].
  destruct (Hf a es H st') as (es' & E' & H'). exists (es ++ es'). split; [by rewrite E', E, app_assoc|done].
Qed.
Lemma gives_mono {A} (m : M A) (P Q : A → list Event → Prop) : gives m P → (∀ a es, P a es → Q a es) → gives m Q.
Proof. intros Hm HPQ st. destruct (Hm st) as (es & E & H). exists es. split; [done|]. destruct (m st).2; [by apply HPQ|done..]. Qed.
Lemma gives_run {A} (p : parser A) i (Q : A * bytes → list Event → Prop) :
  p i ≠ Panic → (∀ a i', p i = Ok (a, i') → Q (a, i') []) → gives (run p i) Q.
Proof. intros Hp HQ st. exists []. unfold run, lift_res. cbn. rewrite app_nil_r. split; [done|]. destruct (p i) as [[a i']| |]; [by apply HQ|done..]. Qed.
Lemma gives_lift {A E} i (r : res E A) a (Q : A → list Event → Prop) : r = Ok a → Q a [] → gives (lift_res i r) Q.
Proof. intros -> H st. exists []. cbn. split; [by rewrite app_nil_r|done]. Qed.
Lemma gives_set_node n (Q : unit → list Event → Prop) : Q tt [] → gives (set_node n) Q.
Proof. intros H st. exists []. cbn. split; [by rewrite app_nil_r|done]. Qed.

Lemma rfind_index_bound {A} (f : A → bool) l k : bstr.rfind_index f l = Some k → (k < length l)%nat.
Proof.
  revert k. induction l as [|x l IH]; intros k; cbn; [done|]. destruct (bstr.rfind_index f l) as [j|]; [|destruct (f x); [|done]]; intros [= <-].
  - specialize (IH j eq_refl). lia.
  - lia.
Qed.

(** *** Parsers without effects *)

(** A parser that returns what it takes. *)
Definition takes (p : parser bytes) : Prop := ∀ i s i', p i = Ok (s, i') → i = s ++ i' ∧ s ≠ [].
Lemma takes_while f : takes (take_while 1 None f).
Proof.
  intros i s i'. rewrite take_while_spec. cbv zeta. destruct (Nat.leb_spec 1 (count_while f i)); [|done]. intros [= <- <-]. rewrite take_drop.
  split; [done|]. intros E. apply (f_equal length) in E. rewrite length_take in E. pose proof (count_while_le f i). cbn in E. lia.
Qed.
Lemma takes_taken {A} n (p : parser A) : total (S n) p → takes (taken p).
Proof.
  intros Hp i s i'. rewrite taken_spec. specialize (Hp i). destruct (p i) as [[a j]| |]; [|done..]. destruct Hp as (t & -> & Hl).
  winnow_run. rewrite length_app. intros [= <- <-]. rewrite Nat.add_sub, take_app_length. split; [done|]. intros ->. cbn in Hl. lia.
Qed.
Lemma total_one_of f : total 1 (one_of f).
Proof. intros i. rewrite one_of_spec. destruct i as [|b i]; [done|]. destruct (f b); [by exists [b]|done]. Qed.
Lemma total_repeat_mn {A} n (p : parser A) max : total n p → total 0 (repeat_mn 0 max p).
Proof.
  intros Hp. induction max as [|max IH]; intros i; [rewrite repeat_mn_0_spec; by exists []|]. rewrite repeat_mn_S_spec. specialize (Hp i).
  destruct (p i) as [[a i']|[]|]; try done; [|by exists []]. destruct (length i' <? length i)%nat; [|done]. specialize (IH i'). cbn [Nat.sub].
  destruct (repeat_mn 0 max p i') as [[l i'']| |]; [|done..]. destruct Hp as (s & -> & _), IH as (s' & -> & _). cbn.
  exists (s ++ s'). rewrite <- app_assoc. split; [done|lia].
Qed.
Lemma total_repeat_mn_1 {A} n (p : parser A) max : total (S n) p → total (S n) (repeat_mn 1 (S max) p).
Proof.
  intros Hp i. rewrite repeat_mn_S_spec. pose proof (Hp i) as Hpi. destruct (p i) as [[a i']|[]|]; try done.
  destruct (length i' <? length i)%nat; [|done]. pose proof (total_repeat_mn (S n) p max Hp i') as IH. cbn [Nat.sub].
  destruct (repeat_mn 0 max p i') as [[l i'']| |]; [|done..]. destruct Hpi as (s & -> & Hl), IH as (s' & -> & _). cbn.
  exists (s ++ s'). rewrite <- app_assoc, length_app. split; [done|lia].
Qed.
Lemma newlines_total : total 1 (repeat_mn 1 1023 (alt (literal [13; 10]) (literal [10]))).
Proof. apply (total_repeat_mn_1 0 _ 1022). apply total_alt; [eapply total_le; [apply total_literal|cbn; lia]|apply total_literal]. Qed.
Lemma takes_newlines : takes take_newlines1.
Proof. apply (takes_taken 0), newlines_total. Qed.
Lemma takes_config_name : takes config_name.
Proof. apply (takes_taken 0). apply (total_pair 1 0); [apply total_one_of|apply total_take_while]. Qed.
Lemma no_panic_total {A} n (p : parser A) i : total n p → p i ≠ Panic.
Proof. intros Hp. specialize (Hp i). by destruct (p i) as [[]| |]. Qed.
Lemma total_newlines1 : total 1 take_newlines1.
Proof. apply total_taken, newlines_total. Qed.
Lemma total_spaces1 : total 1 take_spaces1.
Proof. apply total_take_while. Qed.
Lemma total_comment : total 1 comment.
Proof. unfold comment. apply total_map, (total_pair 1 0); [apply total_one_of|apply total_take_till]. Qed.
Lemma comment_inv i c i' : comment i = Ok (c, i') → i = comment_write_to c ++ i'.
Proof.
  unfold comment. rewrite map_spec, pair_spec, one_of_spec. destruct i as [|b i]; [done|]. destruct (_ || _); [|done]. winnow_run.
  destruct (take_till 0 [10] i) as [[t j]| |] eqn:E; [|done..]. winnow_run. intros [= <- <-]. apply take_till_inv in E as (-> & _). done.
Qed.
(** *** Headers *)

Lemma subset_inv i s i' : subsection_subset i = Ok (s, i') →
  ∃ raw, i = raw ++ i' ∧ raw ≠ [] ∧ ∀ raw' s', unescapes raw' s' → unescapes (raw ++ raw') (s ++ s').
Proof.
  unfold subsection_subset. rewrite alt_spec. unfold subsection_unescaped. rewrite take_while_spec. cbv zeta.
  set (f := is_subsection_unescaped_char). destruct (Nat.leb_spec 1 (count_while f i)) as [Hl|_].
  - intros [= <- <-]. exists (take (count_while f i) i). rewrite take_drop. split_and!; [done| |].
    + intros E. apply (f_equal length) in E. rewrite length_take in E. pose proof (count_while_le f i). cbn in E. lia.
    + intros raw' s' H. induction (count_while_take f i) as [|c r Hc _ IH]; [done|]. cbn. by constructor.
  - unfold subsection_escaped_char. rewrite preceded_spec, literal_spec. destruct (starts_with i [92]) eqn:E; [|done].
    apply starts_with_spec in E as [k ->]. winnow_run. rewrite drop_app_length, taken_spec, one_of_spec. destruct k as [|c k]; [done|].
    destruct (is_subsection_escapable_char c) eqn:Ec; [|done]. winnow_run.
    replace (length (c :: k) - length k)%nat with 1%nat by (cbn; lia). intros [= <- <-].
    exists [92; c]. split_and!; [done|done|]. intros raw' s' H. cbn. constructor; [|done]. intros ->. done.
Qed.
Lemma subset_no_panic i : subsection_subset i ≠ Panic.
Proof.
  apply (no_panic_total 1). apply total_alt; [apply total_take_while|].
  eapply total_le; [apply (total_preceded 1 1); [apply total_literal|apply total_taken, total_one_of]|lia].
Qed.
Lemma sub_section_loop_inv fuel out raw i : unescapes raw out → (length i ≤ fuel)%nat →
  match sub_section_loop fuel out i with Ok (s, i') => ∃ raw', i = raw' ++ i' ∧ unescapes (raw ++ raw') s | Err e => e = Cut | Panic => False end.
Proof.
  revert out raw i. induction fuel as [|fuel IH]; intros out raw i Hraw Hf; cbn [sub_section_loop]; rewrite opt_spec;
    pose proof (subset_no_panic i) as Hp; destruct (subsection_subset i) as [[s j]|[]|] eqn:E; try done; winnow_run;
    try (exists []; by rewrite app_nil_r).
  - apply subset_inv in E as (r & -> & Hr & _). rewrite length_app in Hf. destruct r; [done|cbn in Hf; lia].
  - apply subset_inv in E as (r & -> & Hr & Hs). specialize (IH (out ++ s) (raw ++ r) j).
    assert (Happ : unescapes (raw ++ r) (out ++ s)).
    { specialize (Hs [] []). rewrite !app_nil_r in Hs. clear -Hraw Hs. specialize (Hs unescapes_nil).
      induction Hraw; cbn; [done|by constructor..]. }
    assert (Hl : (length j ≤ fuel)%nat). { rewrite length_app in Hf. destruct r; [done|cbn in Hf; lia]. }
    specialize (IH Happ Hl). destruct (sub_section_loop fuel (out ++ s) j) as [[s' i']| |]; [|done..]. destruct IH as (raw' & -> & H).
    exists (r ++ raw'). by rewrite !app_assoc in *.
Qed.
Lemma sub_section_inv i : match sub_section i with Ok (s, i') => ∃ raw, i = raw ++ i' ∧ unescapes raw s | Err e => e = Cut | Panic => False end.
Proof.
  unfold sub_section. rewrite opt_spec. pose proof (subset_no_panic i) as Hp.
  destruct (subsection_subset i) as [[s j]|[]|] eqn:E; try done; winnow_run; unfold default; cbn [from_option id].
  - apply subset_inv in E as (r & -> & Hr & Hs). pose proof (sub_section_loop_inv (length j) s r j) as H.
    specialize (Hs [] [] unescapes_nil). rewrite !app_nil_r in Hs. specialize (H Hs (Nat.le_refl _)).
    destruct (sub_section_loop (length j) s j) as [[s' i']| |]; [|done..]. destruct H as (raw' & -> & H). exists (r ++ raw'). by rewrite app_assoc.
  - pose proof (sub_section_loop_inv (length i) [] [] i unescapes_nil (Nat.le_refl _)) as H. by destruct (sub_section_loop (length i) [] i).
Qed.
Lemma rfind_dot n k : bstr.rfind_byte n (ch ".") = Some k → ∃ a b, n = a ++ ch "." :: b ∧ k = length a.
Proof.
  rewrite bstr.rfind_byte_spec. revert k. induction n as [|c n IH]; intros k; cbn [bstr.rfind_index]; [done|].
  destruct (bstr.rfind_index _ n) as [j|].
  - intros [= <-]. destruct (IH j eq_refl) as (a & b & -> & ->). by exists (c :: a), b.
  - destruct (Z.eqb_spec (ch ".") c) as [<-|]; [|done]. intros [= <-]. by exists [], n.
Qed.
(** A header is a spelling of what it is parsed to. *)
Lemma section_header_inv i :
  match section_header i with Ok (h, i') => ∃ p, spelled (SectionHeader h) p ∧ i = p ++ i' ∧ p ≠ [] | Err _ => True | Panic => False end.
Proof.
  unfold section_header. rewrite preceded_spec, literal_spec. destruct (starts_with i [ch "["]) eqn:E; [|done].
  apply starts_with_spec in E as [k ->]. winnow_run. rewrite drop_app_length.
  destruct (take_while 1 None is_section_char k) as [[n i]|e|] eqn:En; [|done|by destruct (no_panic_total 1 _ _ (total_take_while 1 None is_section_char) En)].
  winnow_run. apply takes_while in En as [-> Hn]. rewrite opt_spec, one_of_spec.
  destruct i as [|c i]; [|destruct (Z.eqb_spec (ch "]") c) as [<-|Hc]]; winnow_run.
  - rewrite map_spec, pair_spec. unfold take_spaces1. rewrite take_while_spec. done.
  - destruct (bstr.rfind_byte n (ch ".")) as [k|] eqn:Ed.
    + apply rfind_dot in Ed as (a & b & -> & ->). rewrite slice_to_app by done. cbn [lift]. winnow_run.
      replace (get_range _ _ _) with (Some [ch "."]) by (symmetry; by apply (get_range_app a [ch "."] b)).
      replace (get_from _ _) with (Some b) by (symmetry; change (a ++ ch "." :: b) with (a ++ [ch "."] ++ b); rewrite app_assoc; apply get_from_app; by rewrite length_app).
      case_bool_decide; [done|]. eexists. split; [apply spelled_text|]. split; [|done]. cbn. rewrite bool_decide_eq_true_2 by done.
      rewrite <- !app_assoc. cbn. by rewrite <- app_assoc.
    + winnow_run. case_bool_decide; [done|]. eexists. split; [apply spelled_text|]. split; [|done]. cbn. by rewrite <- !app_assoc.
  - rewrite map_spec, pair_spec. destruct (take_spaces1 (c :: i)) as [[ws j]|e|] eqn:Ew; [|done|by destruct (no_panic_total 1 _ _ total_spaces1 Ew)].
    apply takes_while in Ew as [-> Hw]. winnow_run. rewrite delimited_spec, literal_spec. destruct (starts_with j [34]) eqn:Eq; [|done].
    apply starts_with_spec in Eq as [j' ->]. winnow_run. rewrite drop_app_length, opt_spec. pose proof (sub_section_inv j') as Hs.
    destruct (sub_section j') as [[s j]|[]|]; try done; winnow_run.
    + destruct Hs as (raw & -> & Hs). rewrite literal_spec. destruct (starts_with j [34; ch "]"]) eqn:Ee; [|done]. apply starts_with_spec in Ee as [r ->].
      winnow_run. rewrite drop_app_length. eexists. split; [by apply (spelled_header n ws raw s)|]. split; [|done].
      cbn. rewrite <- !app_assoc. cbn. by rewrite <- !app_assoc.
Qed.

(** *** Values *)

Lemma escaped_token_gives start i : gives (escaped_token start i) (λ '(c, n, i') es, es = [] ∧
  ((n = 1%nat ∧ i = c :: i') ∨ (n = 2%nat ∧ c = 10 ∧ i = 13 :: 10 :: i'))).
Proof.
  unfold escaped_token. destruct i as [|c i]; [apply gives_fail|]. destruct (Z.eqb_spec c 13) as [->|].
  - destruct i as [|c i]; [apply gives_fail|]. destruct (Z.eqb_spec c 10) as [->|]; cbn [negb]; [|apply gives_fail]. apply gives_ret. naive_solver.
  - apply gives_ret. naive_solver.
Qed.
Lemma offset_app w i : offset_from i (w ++ i) = length w.
Proof. unfold offset_from. rewrite length_app. lia. Qed.
(** Where a value begins and what is left. *)
Definition inside (s : ValueSt) (i : bytes) : Prop := ∃ w, value_start s = w ++ i.
Lemma value_token_gives start s c i : value_end s = None → inside s (c :: i) →
  gives (value_token start s c i) (λ '(s', i') es,
    consumed (value_start s) (value_start s') es ∧ inside s' i' ∧ value_end s' = None ∧ (length i' ≤ length i)%nat).
Proof.
  intros He (w & Hw). assert (Hin : inside s i) by (exists (w ++ [c]); by rewrite <- app_assoc). unfold value_token.
  destruct (Z.eqb_spec c 92) as [->|].
  - eapply gives_bind; [apply escaped_token_gives|]. intros [[c' n] i'] es (-> & Hi). cbn [app].
    assert (Hi' : (length i' ≤ length i)%nat) by (destruct Hi as [[_ ->]|(_ & _ & ->)]; cbn; lia).
    assert (Hin' : inside s i').
    { destruct Hin as [w' Hw']. destruct Hi as [[_ ->]|(_ & _ & ->)]; [exists (w' ++ [c'])|exists (w' ++ [13; 10])]; by rewrite <- app_assoc. }
    destruct (Z.eqb_spec c' 10) as [->|]; [|destruct (_ || _); [apply gives_ret; split_and!; [apply consumed_nil|done..]|apply gives_fail]].
    unfold continue_value. replace (offset_from i (value_start s) - 1)%nat with (length w)
      by (rewrite Hw; change (w ++ 92 :: i) with (w ++ [92] ++ i); rewrite app_assoc, offset_app, length_app; cbn; lia).
    rewrite Hw. eapply gives_bind; [eapply (gives_lift _ _ _ (λ r es, es = [] ∧ r = (w, 92 :: i))); [by apply split_at_app|done]|].
    intros r es' (-> & ->). cbn [app]. eapply gives_bind; [by apply (gives_dispatch _ (λ _ es, es = [ValueNotDone w]))|]. intros _ ? ->. cbn [drop].
    assert (Hnl : ∃ nl, i = nl ++ i' ∧ n = length nl) by (destruct Hi as [[-> ->]|(-> & _ & ->)]; [by exists [10]|by exists [13; 10]]).
    destruct Hnl as (nl & -> & ->).
    eapply gives_bind; [eapply (gives_lift _ _ _ (λ r es, es = [] ∧ r = (nl, i'))); [by apply split_at_app|done]|]. intros r es' (-> & ->). cbn [app].
    eapply gives_bind; [by apply (gives_dispatch _ (λ _ es, es = [Newline nl]))|]. intros _ ? ->. apply gives_ret. cbn [value_start value_end app].
    split_and!; [|by exists []|done|done].
    change (w ++ 92 :: nl ++ i') with (w ++ [92] ++ nl ++ i'). rewrite (app_assoc w). apply (consumed_app _ (nl ++ i') _ [ValueNotDone w] [Newline nl]).
    + apply (consumed_text (ValueNotDone w)).
    + apply (consumed_text (Newline nl)).
  - destruct (Z.eqb_spec c 34); apply gives_ret; (split_and!; [apply consumed_nil|exact Hin|done|done]).
Qed.
Lemma value_loop_gives fuel start s i : value_end s = None → inside s i → (length i ≤ fuel)%nat →
  gives (value_loop fuel start s i) (λ '(s', i') es,
    consumed (value_start s) (value_start s') es ∧ inside s' i' ∧
    match value_end s' with Some n => (n ≤ length (value_start s'))%nat | None => True end).
Proof.
  revert s i. induction fuel as [|fuel IH]; intros s i He Hin Hf; cbn [value_loop].
  all: eapply gives_bind;
    [apply (gives_run _ _ (λ '(_, i') es, es = [] ∧ inside s i' ∧ (length i' ≤ length i)%nat)); [apply (no_panic_total 0), total_take_while|]|].
  1, 3: intros v i' Hv; pose proof (total_take_while 0 None is_value_char i) as Ht; rewrite Hv in Ht; destruct Ht as (t & -> & _), Hin as [w Hw];
    (split_and!; [done|exists (w ++ t); by rewrite Hw, <- app_assoc|rewrite length_app; lia]).
  all: intros [v i'] es (-> & Hin' & Hl); cbn [app]; destruct i' as [|c i']; [apply gives_ret; split_and!; [apply consumed_nil|done|by rewrite He]|].
  all: assert (Hend : inside s i') by (destruct Hin' as [w Hw]; exists (w ++ [c]); by rewrite Hw, <- app_assoc).
  all: assert (Hoff : (offset_from i' (value_start s) - 1 ≤ length (value_start s))%nat) by (unfold offset_from; lia).
  all: destruct (c =? 10); [apply gives_ret; split_and!; [apply consumed_nil|done|done]|].
  all: destruct (_ && _); [apply gives_ret; split_and!; [apply consumed_nil|done|done]|].
  - cbn in Hl. lia.
  - eapply gives_bind; [by apply value_token_gives|]. intros [s' j] es (Hc & Hin2 & He2 & Hl2). cbn in Hl.
    eapply gives_mono; [apply IH; [done|done|lia]|]. intros [s2 j2] es2 (Hc2 & H2 & H3). split_and!; [by eapply consumed_app|done|done].
Qed.
Lemma value_impl_gives i : gives (value_impl i) (consumed i).
Proof.
  unfold value_impl. eapply gives_bind; [apply value_loop_gives; [done|by exists []|done]|]. intros [s j] es (Hc & [w Hw] & He). cbn [value_start] in Hc.
  destruct (is_in_quotes s); [apply gives_fail|].
  assert (Hfin : ∀ n, (n ≤ length (value_start s))%nat →
    gives (let! value := lift_res [] (slice_to (E := Empty_set) (value_start s) n) in
           let trimmed := match bstr.rfind_index (λ b, negb (is_ascii_whitespace b)) value with Some idx => (idx + 1)%nat | None => 0%nat end in
           let! (remainder_value, i) := lift_res [] (split_at (E := Empty_set) (value_start s) trimmed) in
           let! _ := dispatch (if partial_value_found s then ValueDone remainder_value else Value remainder_value) in ret i)
      (λ i' es', consumed i i' (es ++ es'))).
  { intros n Hn. eapply gives_bind; [eapply (gives_lift _ _ _ (λ r es, es = [] ∧ r = take n (value_start s))); [by apply slice_to_le|done]|].
    intros ? ? (-> & ->). cbv zeta. set (k := match bstr.rfind_index _ _ with Some _ => _ | None => _ end).
    assert (Hk : (k ≤ length (value_start s))%nat).
    { unfold k. destruct (bstr.rfind_index _ _) as [j0|] eqn:Ej; [|lia]. apply rfind_index_bound in Ej. rewrite length_take in Ej. lia. }
    eapply gives_bind; [eapply (gives_lift _ _ _ (λ r es, es = [] ∧ r = (take k (value_start s), drop k (value_start s)))); [by apply split_at_le|done]|].
    intros ? ? (-> & ->). eapply gives_bind; [by apply (gives_dispatch _ (λ _ es, es = [if partial_value_found s then ValueDone (take k (value_start s)) else Value (take k (value_start s))]))|].
    intros _ ? ->. apply gives_ret. cbn [app]. eapply consumed_app; [exact Hc|]. rewrite <- (take_drop k (value_start s)) at 1.
    destruct (partial_value_found s); apply consumed_one; [apply (spelled_text (ValueDone _))|apply (spelled_text (Value _))]. }
  destruct (value_end s) as [n|]; [by apply Hfin|].
  destruct (Nat.eqb_spec (offset_from j (value_start s)) 0) as [E|_]; [|apply Hfin; unfold offset_from; lia].
  rewrite Hw, offset_app in E. destruct w; [|done]. cbn [app] in Hw.
  eapply gives_bind; [by apply (gives_dispatch _ (λ _ es, es = [Value []]))|]. intros _ ? ->. apply gives_ret. cbn [app].
  eapply consumed_app; [exact Hc|]. rewrite Hw. apply (consumed_text (Value [])).
Qed.

(** *** Sections *)

Lemma opt_dispatch_gives {A} n (p : parser A) event i :
  total n p → (∀ a i', p i = Ok (a, i') → i = event_write_to (event a) ++ i') → gives (opt_dispatch p event i) (consumed i).
Proof.
  intros Ht Hp. unfold opt_dispatch. eapply gives_bind.
  - apply (gives_run _ _ (λ '(v, i') es, es = [] ∧ match v with Some a => i = event_write_to (event a) ++ i' | None => i' = i end)).
    + eapply no_panic_total, total_opt, Ht.
    + intros v i'. rewrite opt_spec. destruct (p i) as [[a j]|[]|] eqn:E; try done; intros [= <- <-]; [|done]. split; [done|by apply Hp].
  - intros [v i'] es (-> & H). destruct v as [a|]; [|subst i'; apply gives_ret, consumed_nil].
    eapply gives_bind; [by apply (gives_dispatch _ (λ _ es, es = [event a]))|]. intros _ ? ->. apply gives_ret. rewrite H. cbn [app]. apply consumed_text.
Qed.
Lemma opt_spaces_gives i : gives (opt_dispatch take_spaces1 Whitespace i) (consumed i).
Proof. apply (opt_dispatch_gives 1); [apply total_spaces1|]. intros s i' H. by apply takes_while in H as [-> _]. Qed.
Lemma opt_newlines_gives i : gives (opt_dispatch take_newlines1 Newline i) (consumed i).
Proof. apply (opt_dispatch_gives 1); [apply total_newlines1|]. intros s i' H. by apply takes_newlines in H as [-> _]. Qed.
Lemma opt_comment_gives i : gives (opt_dispatch comment EComment i) (consumed i).
Proof. apply (opt_dispatch_gives 1); [apply total_comment|]. intros c i' H. by apply comment_inv. Qed.
Lemma config_value_gives i : gives (config_value i) (consumed i).
Proof.
  unfold config_value. eapply gives_bind.
  - apply (gives_run _ _ (λ '(v, i') es, es = [] ∧ match v with Some _ => i = [ch "="] ++ i' | None => i' = i end)).
    + eapply no_panic_total, total_opt, total_literal.
    + intros v i'. rewrite opt_spec, literal_spec. destruct (starts_with i [ch "="]) eqn:E; intros [= <- <-]; [|done].
      apply starts_with_spec in E as [k ->]. done.
  - intros [v i'] es (-> & H). destruct v as [v|].
    + rewrite H. eapply gives_bind; [by apply (gives_dispatch _ (λ _ es, es = [KeyValueSeparator]))|]. intros _ ? ->.
      eapply gives_bind; [apply opt_spaces_gives|]. intros j es Hj. eapply gives_mono; [apply value_impl_gives|]. intros j' es' Hj'. cbn beta.
      apply (consumed_app _ i' _ [KeyValueSeparator]); [apply (consumed_text KeyValueSeparator)|by eapply consumed_app].
    + subst i'. eapply gives_bind; [by apply (gives_dispatch _ (λ _ es, es = [Value []]))|]. intros _ ? ->. apply gives_ret. apply (consumed_text (Value [])).
Qed.
Lemma key_value_pair_gives i : gives (key_value_pair i) (consumed i).
Proof.
  unfold key_value_pair. eapply gives_bind; [by apply (gives_set_node _ (λ _ es, es = []))|]. intros _ ? ->. eapply gives_bind.
  - apply (gives_run _ _ (λ '(v, i') es, es = [] ∧ match v with Some n => i = n ++ i' | None => i' = i end)).
    + eapply no_panic_total, total_opt, total_taken, (total_pair 1 0); [apply total_one_of|apply total_take_while].
    + intros v i'. rewrite opt_spec. destruct (config_name i) as [[n j]|[]|] eqn:E; try done; intros [= <- <-]; [|done].
      by apply takes_config_name in E as [-> _].
  - intros [v i'] es (-> & H). cbn [app]. destruct v as [n|]; [|subst i'; apply gives_ret, consumed_nil]. rewrite H.
    eapply gives_bind; [by apply (gives_dispatch _ (λ _ es, es = [SectionValueName n]))|]. intros _ ? ->.
    eapply gives_bind; [apply opt_spaces_gives|]. intros j es Hj. eapply gives_bind; [by apply (gives_set_node _ (λ _ es, es = []))|]. intros _ ? ->.
    eapply gives_mono; [apply config_value_gives|]. intros j' es' Hj'. cbn beta.
    apply (consumed_app _ i' _ [SectionValueName n]); [apply (consumed_text (SectionValueName n))|by eapply consumed_app].
Qed.
Lemma section_loop_gives fuel i : (length i ≤ fuel)%nat → gives (section_loop fuel i) (consumed i).
Proof.
  revert i. induction fuel as [|fuel IH]; intros i Hf; cbn [section_loop].
  all: eapply gives_bind; [apply opt_spaces_gives|]; intros i1 es1 H1; eapply gives_bind; [apply opt_newlines_gives|]; intros i2 es2 H2.
  all: eapply gives_bind; [apply key_value_pair_gives|]; intros i3 es3 H3; eapply gives_bind; [apply opt_comment_gives|]; intros i4 es4 H4.
  all: assert (H : consumed i i4 (es1 ++ es2 ++ es3 ++ es4)) by
    (eapply consumed_app; [exact H1|eapply consumed_app; [exact H2|eapply consumed_app; [exact H3|exact H4]]]).
  all: pose proof (consumed_length _ _ _ H) as Hl; unfold offset_from; destruct (Nat.eqb_spec (length i - length i4) 0) as [E|E].
  1, 3: apply gives_ret; by rewrite app_nil_r.
  - lia.
  - eapply gives_mono; [apply IH; lia|]. intros i5 es5 H5. cbn beta. rewrite !app_assoc in *. by eapply consumed_app.
Qed.
Lemma section_gives i : gives (section i) (λ i' es, consumed i i' es ∧ (length i' < length i)%nat).
Proof.
  unfold section. pose proof (section_header_inv i) as Hh. eapply gives_bind.
  - apply (gives_run _ _ (λ '(h, i') es, es = [] ∧ ∃ p, spelled (SectionHeader h) p ∧ i = p ++ i' ∧ p ≠ [])); [by destruct (section_header i) as [[]| |]|].
    intros h i' E. by rewrite E in Hh.
  - intros [h i'] es (-> & p & Hp & -> & Hne). eapply gives_bind; [by apply (gives_dispatch _ (λ _ es, es = [SectionHeader h]))|]. intros _ ? ->.
    eapply gives_mono; [by apply section_loop_gives|]. intros i'' es Hc. cbn beta. split.
    + apply (consumed_app _ i' _ [SectionHeader h]); [by apply consumed_one|done].
    + apply consumed_length in Hc. rewrite length_app. destruct p; [done|]. cbn. lia.
Qed.

(** *** Files *)

Lemma front_event_inv i e i' :
  alt (map comment EComment) (alt (map take_spaces1 Whitespace) (map take_newlines1 Newline)) i = Ok (e, i') → i = event_write_to e ++ i'.
Proof.
  rewrite !alt_spec, !map_spec. destruct (comment i) as [[c j]|[]|] eqn:Ec; [|..|done]; winnow_run; try done.
  { intros [= <- <-]. by apply comment_inv in Ec. }
  destruct (take_spaces1 i) as [[s j]|[]|] eqn:Es; [|..|done]; winnow_run; try done.
  { intros [= <- <-]. by apply takes_while in Es as [-> _]. }
  destruct (take_newlines1 i) as [[s j]|[]|] eqn:En; [|done..]. winnow_run. intros [= <- <-]. by apply takes_newlines in En as [-> _].
Qed.
Lemma front_event_total : total 1 (alt (map comment EComment) (alt (map take_spaces1 Whitespace) (map take_newlines1 Newline))).
Proof. apply total_alt; [apply total_map, total_comment|]. apply total_alt; apply total_map; [apply total_spaces1|apply total_newlines1]. Qed.
(** Parsers that fail only so that alternatives are tried. *)
Definition soft {A} (p : parser A) : Prop := ∀ i, p i ≠ Err Cut.
Lemma soft_map {A B} (p : parser A) (f : A → B) : soft p → soft (map p f).
Proof. intros H i. rewrite map_spec. specialize (H i). by destruct (p i) as [[]|[]|]. Qed.
Lemma soft_taken {A} (p : parser A) : soft p → soft (taken p).
Proof. intros H i. rewrite taken_spec. specialize (H i). by destruct (p i) as [[]|[]|]. Qed.
Lemma soft_pair {A B} (p : parser A) (q : parser B) : soft p → soft q → soft (pair p q).
Proof. intros Hp Hq i. rewrite pair_spec. specialize (Hp i). destruct (p i) as [[a j]|[]|]; try done. specialize (Hq j). cbn. by destruct (q j) as [[]|[]|]. Qed.
Lemma soft_alt {A} (p q : parser A) : soft p → soft q → soft (alt p q).
Proof. intros Hp Hq i. rewrite alt_spec. specialize (Hp i). specialize (Hq i). by destruct (p i) as [[]|[]|]. Qed.
Lemma soft_literal l : soft (literal l).
Proof. intros i. rewrite literal_spec. by destruct (starts_with i l). Qed.
Lemma soft_one_of f : soft (one_of f).
Proof. intros i. rewrite one_of_spec. destruct i; [done|]. by destruct (f _). Qed.
Lemma soft_take_while m f : soft (take_while m None f).
Proof. intros i. rewrite take_while_spec. cbv zeta. by destruct (_ <=? _)%nat. Qed.
Lemma soft_take_till m set : soft (take_till m set).
Proof. intros i. rewrite take_till_spec. cbv zeta. by destruct (_ <=? _)%nat. Qed.
Lemma soft_repeat_mn {A} m n (p : parser A) : soft p → soft (repeat_mn m n p).
Proof.
  intros Hp. revert m. induction n as [|n IH]; intros m i; [by rewrite repeat_mn_0_spec|]. rewrite repeat_mn_S_spec. specialize (Hp i).
  destruct (p i) as [[a j]|[]|]; try done; [|by destruct (m =? 0)%nat]. destruct (_ <? _)%nat; [|done]. specialize (IH (m - 1)%nat j). by destruct (repeat_mn _ _ _ _) as [[]|[]|].
Qed.
Lemma front_event_no_cut : soft (alt (map comment EComment) (alt (map take_spaces1 Whitespace) (map take_newlines1 Newline))).
Proof.
  apply soft_alt; [|apply soft_alt]; apply soft_map.
  - apply soft_map, soft_pair; [apply soft_one_of|apply soft_take_till].
  - apply soft_take_while.
  - apply soft_taken, soft_repeat_mn, soft_alt; apply soft_literal.
Qed.
Lemma front_matter_gives i : ∃ es i', front_matter i = Ok (es, i') ∧ i = text es ++ i'.
Proof.
  unfold front_matter. set (p := alt _ _). remember (length i) as n eqn:Hn. revert i Hn. induction n as [n IH] using lt_wf_ind. intros i ->.
  rewrite repeat_0_spec. pose proof (front_event_total i) as Ht. fold p in Ht. pose proof (front_event_no_cut i) as Hc. fold p in Hc.
  destruct (p i) as [[e j]|[]|] eqn:E; [|by exists [], i|done|done]. apply front_event_inv in E. destruct Ht as (s & Hs & Hl).
  assert (Hj : (length j < length i)%nat) by (rewrite Hs, length_app; lia). rewrite (proj2 (Nat.ltb_lt _ _) Hj).
  destruct (IH (length j) Hj j eq_refl) as (es & i' & -> & Hi). winnow_run. exists (e :: es), i'. split; [done|]. rewrite E, Hi. unfold text. cbn.
  by rewrite app_assoc.
Qed.
Lemma text_consumed es i : consumed (text es ++ i) i es.
Proof.
  exists (event_write_to <$> es). split; [|done]. induction es as [|e es IH]; [constructor|]. cbn. constructor; [constructor|done].
Qed.
Lemma closure_gives st l i :
  ∃ es, events ((section_closure (st, l) i).1).1 = events st ++ es ∧
    match (section_closure (st, l) i).2 with Ok (_, i') => consumed i i' es ∧ (length i' < length i)%nat | Err e => e = Backtrack | Panic => False end.
Proof.
  unfold section_closure. destruct (section_gives i st) as (es & E & H). exists es. by destruct (section i st) as [st' [i'|e|]].
Qed.
Lemma closure_empty st l : ∃ i, section_closure (st, l) [] = ((st, i), Err Backtrack).
Proof.
  unfold section_closure, section, bind, run, lift_res, section_header. rewrite preceded_spec, literal_spec. by exists [].
Qed.
(** A run over all sections that reaches the end of the file. *)
Definition ran (st : St) (i : bytes) (r : (St * bytes) * res ErrMode (list unit * bytes)) : Prop :=
  ∃ es, events r.1.1 = events st ++ es ∧ match r.2 with Ok (_, i') => i' = [] → consumed i [] es | Err _ => True | Panic => False end.
Lemma sections_0 st l i : ran st i (repeat_mut 0 section_closure (st, l) i).
Proof.
  remember (length i) as n eqn:Hn. revert st l i Hn. induction n as [n IH] using lt_wf_ind. intros st l i ->.
  rewrite repeat_mut_0_spec. destruct (closure_gives st l i) as (es & E & H). destruct (section_closure (st, l) i) as [[st1 l1] [[u j]|e|]] eqn:Ec;
    cbn [fst snd] in *; [|subst e|done].
  - destruct H as [Hc Hl]. rewrite (proj2 (Nat.ltb_lt _ _) Hl). destruct (IH _ Hl st1 l1 j eq_refl) as (es' & E' & H').
    destruct (repeat_mut 0 section_closure (st1, l1) j) as [[st2 l2] [[us k]|e|]]; cbn [fst snd] in *; exists (es ++ es'); cbn;
      rewrite E', E, <- app_assoc; (split; [done|]); try done. intros ->. eapply consumed_app; [exact Hc|by apply H'].
  - exists es. split; [done|]. cbn. intros ->. destruct (closure_empty st l) as [k Hk]. rewrite Hk in Ec. injection Ec as <- <-.
    rewrite <- (app_nil_r (events st)) in E at 1. apply app_inv_head in E as <-. apply consumed_nil.
Qed.
Lemma sections_1 st l i : ran st i (repeat_mut 1 section_closure (st, l) i).
Proof.
  rewrite repeat_mut_S_spec. destruct (closure_gives st l i) as (es & E & H). destruct (section_closure (st, l) i) as [[st1 l1] [[u j]|e|]];
    cbn [fst snd] in *; [|by exists es|done].
  destruct H as [Hc Hl]. rewrite (proj2 (Nat.ltb_lt _ _) Hl). destruct (sections_0 st1 l1 j) as (es' & E' & H').
  destruct (repeat_mut 0 section_closure (st1, l1) j) as [[st2 l2] [[us k]|e|]]; cbn [fst snd] in *; exists (es ++ es'); cbn;
    rewrite E', E, <- app_assoc; (split; [done|]); try done. intros ->. eapply consumed_app; [exact Hc|by apply H'].
Qed.

(** C15: Parsing a configuration file never panics, and loses nothing: if it
    succeeds, the file behind its byte order mark is the text of the events one
    after the other, where only the name of a quoted subsection can be spelled
    with more backslashes than are written for it. *)
Theorem config_lossless (bom_len : bytes → nat) (input : bytes) : (bom_len input ≤ length input)%nat →
  match from_bytes bom_len input with
  | (es, Ok _) => ∃ ps, Forall2 spelled es ps ∧ drop (bom_len input) input = concat ps
  | (_, Err _) => True
  | (_, Panic) => False
  end.
Proof.
  intros Hb. unfold from_bytes. rewrite slice_from_le by done. destruct (front_matter_gives (drop (bom_len input) input)) as (front & i & -> & Hi).
  assert (Hfront : consumed (drop (bom_len input) input) i front) by (rewrite Hi; apply text_consumed).
  assert (Hend : ∀ es, consumed (drop (bom_len input) input) [] es → ∃ ps, Forall2 spelled es ps ∧ drop (bom_len input) input = concat ps).
  { intros es (ps & H & ->). exists ps. by rewrite app_nil_r. }
  case_bool_decide as Hempty; [subst i; by apply Hend|].
  destruct (sections_1 (mkSt front NodeSectionHeader) i i) as (es & E & H). unfold ran in *.
  destruct (repeat_mut 1 section_closure (mkSt front NodeSectionHeader, i) i) as [[st l] [[us j]|e|]]; cbn [fst snd events] in *; [|done|done].
  case_bool_decide; [|done]. apply Hend. rewrite E. eapply consumed_app; [exact Hfront|by apply H].
Qed.
End Lossless.

(** ** Examples *)

Section Examples.
#[local] Existing Instances bstr_impl bstr_impl_laws winnow_impl winnow_impl_laws.

(** The mark of UTF-8, one of those that [unicode_bom] knows. *)
Definition utf8_bom (i : bytes) : nat := if bool_decide (take 3 i = [239; 187; 191]) then 3 else 0.
Lemma utf8_bom_le i : (utf8_bom i ≤ length i)%nat.
Proof. unfold utf8_bom. case_bool_decide as H; [|lia]. apply (f_equal length) in H. rewrite length_take in H. change (length [239; 187; 191]) with 3%nat in H. lia. Qed.
Definition sample_config : bytes := [239; 187; 191] ++ bs "# note" ++ [10] ++ bs "[a " ++ [34] ++ bs "b\c" ++ [34] ++ bs "] k = x\" ++ [10] ++ bs " y ; z".
Example sample_parses :
  from_bytes utf8_bom sample_config =
    ([EComment (mkComment (ch "#") (bs " note")); Newline [10]; SectionHeader (mkHeader (bs "a") (Some (bs " ")) (Some (bs "bc"))); Whitespace (bs " ");
      SectionValueName (bs "k"); Whitespace (bs " "); KeyValueSeparator; Whitespace (bs " "); ValueNotDone (bs "x"); Newline [10]; ValueDone (bs " y");
      Whitespace (bs " "); EComment (mkComment (ch ";") (bs " z"))], Ok tt).
Proof. vm_compute. reflexivity. Qed.
(** A value that goes on at the end of the file is finished by an empty
    [Value], not by a [ValueDone]. *)
Example continued_at_end : (from_bytes (λ _, 0%nat) (bs "[a]k=b\" ++ [10])).1 =
  [SectionHeader (mkHeader (bs "a") None None); SectionValueName (bs "k"); KeyValueSeparator; ValueNotDone (bs "b"); Newline [10]; Value []].
Proof. vm_compute. reflexivity. Qed.
(** The empty name of a section is valid, but a file cannot have it. *)
Example empty_section_name : header_new [] None = Ok (mkHeader [] None None) ∧
  (from_bytes (λ _, 0%nat) (header_write_to (mkHeader [] None None))).2 = Err (mkParseError 0 NodeSectionHeader (bs "[]")).
Proof. split; by vm_compute. Qed.
(** The name of a subsection with a NUL is parsed if it is escaped, and its own text is not parsed. *)
Example escaped_nul : section_header (bs "[a " ++ [34; 92; 0; 34] ++ bs "]") = Ok (mkHeader (bs "a") (Some (bs " ")) (Some [0]), []) ∧
  section_header (header_write_to (mkHeader (bs "a") (Some (bs " ")) (Some [0]))) = Err Backtrack.
Proof. split; by vm_compute. Qed.
Lemma config_lossless_witness :
  (utf8_bom sample_config ≤ length sample_config)%nat ∧
  match from_bytes utf8_bom sample_config with
  | (es, Ok _) => ∃ ps, Forall2 spelled es ps ∧ drop (utf8_bom sample_config) sample_config = concat ps
  | (_, Err _) => True
  | (_, Panic) => False
  end.
Proof. split; [apply utf8_bom_le|]. exact (config_lossless utf8_bom sample_config (utf8_bom_le _)). Defined.
End Examples.
