(* ===== verification/ConfigSection.v ===== *)
(** * Sections of configuration files: [gix-config/src]

    What is done with the events of [ConfigParse]: values without their quotes
    and escapes ([value/normalize.rs]), reading the body of a section
    ([file/section/body.rs]), changing it ([file/mutable]), writing a section
    ([file/section/mod.rs]), and the events of a file by section
    ([parse/events.rs]). *)

From S2P Require Import Prelude Slices External Winnow ConfigParse.
Import winnow.

(** ** [value/normalize.rs] *)

(** The text between quotes, and [None] where only quotes are left. *)
Definition enclosed (input : bytes) : bool :=
  (3 <=? length input)%nat && bool_decide (input !! 0%nat = Some 34) && bool_decide (input !! (length input - 1)%nat = Some 34) &&
  negb (bool_decide (input !! (length input - 2)%nat = Some 92)).
Fixpoint strip_loop (fuel : nat) (input : bytes) : res Empty_set (option bytes) :=
  if enclosed input then
    match fuel with
    | O => Panic
    | S fuel =>
        input ← slice input 1 (length input - 1);
        if bool_decide (input = [34; 34]) then Ok None else strip_loop fuel input
    end
  else Ok (Some input).
Fixpoint unescape_loop (out input : bytes) : bytes :=
  match input with
  | [] => out
  | c :: input =>
      if c =? 92 then
        match input with
        | [] => out
        | c :: input =>
            if c =? ch "n" then unescape_loop (out ++ [10]) input
            else if c =? ch "t" then unescape_loop (out ++ [9]) input
            else if c =? ch "b" then unescape_loop (removelast out) input
            else unescape_loop (out ++ [c]) input
        end
      else if c =? 34 then unescape_loop out input
      else unescape_loop (out ++ [c]) input
  end.

Section Body.
Context `{BA : !bstr.Api}.

Definition normalize (input : bytes) : res Empty_set bytes :=
  if bool_decide (input = [34; 34]) then Ok []
  else
    input ← strip_loop (length input) input;
    match input with
    | None => Ok []
    | Some input => if bool_decide (bstr.find_byteset input [92; 34] = None) then Ok input else Ok (unescape_loop [] input)
    end.

(** ** [file/section/body.rs] *)

(** Names are compared without their case. *)
Definition same_name (a b : bytes) : bool := eq_ignore_ascii_case a b.
Fixpoint key_range_loop (value_name : bytes) (l : list (nat * Event)) (value_start value_end : nat) : option (nat * (nat * nat)) :=
  match l with
  | [] => None
  | (i, e) :: l =>
      match e with
      | SectionValueName k =>
          if same_name k value_name then Some (i, (value_start, value_end)) else key_range_loop value_name l 0 0
      | Value _ => key_range_loop value_name l i i
      | ValueNotDone _ | ValueDone _ =>
          if (value_end =? 0)%nat then key_range_loop value_name l value_start i else key_range_loop value_name l i value_end
      | _ => key_range_loop value_name l value_start value_end
      end
  end.
Definition enumerate_events (l : list Event) : list (nat * Event) := zip (seq 0 (length l)) l.
Definition key_and_value_range_by (body : list Event) (value_name : bytes) : option ((nat * nat) * option (nat * nat)) :=
  match key_range_loop value_name (rev (enumerate_events body)) 0 0 with
  | None => None
  | Some (key_start, (value_start, value_end)) =>
      let value_end := S value_end in
      Some ((key_start, value_end), if (value_start =? key_start + 1)%nat then None else Some (value_start, value_end))
  end.
Fixpoint concat_value (concatenated : bytes) (es : list Event) : res Empty_set (option bytes) :=
  match es with
  | [] => Ok None
  | Value v :: _ => v ← normalize v; Ok (Some v)
  | ValueNotDone v :: es => concat_value (concatenated ++ v) es
  | ValueDone v :: _ => v ← normalize (concatenated ++ v); Ok (Some v)
  | _ :: es => concat_value concatenated es
  end.
Definition value_implicit (body : list Event) (value_name : bytes) : res Empty_set (option (option bytes)) :=
  match key_and_value_range_by body value_name with
  | None => Ok None
  | Some (_, None) => Ok (Some None)
  | Some (_, Some (a, b)) => es ← slice body a b; v ← concat_value [] es; Ok (option_map Some v)
  end.
Definition value (body : list Event) (value_name : bytes) : res Empty_set (option bytes) :=
  v ← value_implicit body value_name; Ok (match v with Some v => v | None => None end).
Fixpoint values_loop (key : bytes) (expect_value : bool) (concatenated : bytes) (es : list Event) : res Empty_set (list bytes) :=
  match es with
  | [] => Ok []
  | e :: es =>
      match e with
      | SectionValueName k => values_loop key (if same_name k key then true else expect_value) concatenated es
      | Value v =>
          if expect_value then v ← normalize v; vs ← values_loop key false concatenated es; Ok (v :: vs)
          else values_loop key expect_value concatenated es
      | ValueNotDone v => values_loop key expect_value (if expect_value then concatenated ++ v else concatenated) es
      | ValueDone v =>
          if expect_value then v ← normalize (concatenated ++ v); vs ← values_loop key false [] es; Ok (v :: vs)
          else values_loop key expect_value concatenated es
      | _ => values_loop key expect_value concatenated es
      end
  end.
Definition values (body : list Event) (value_name : bytes) : res Empty_set (list bytes) := values_loop value_name false [] body.
Definition value_names (body : list Event) : list bytes := omap (λ e, match e with SectionValueName k => Some k | _ => None end) body.
Definition contains_value_name (body : list Event) (value_name : bytes) : bool :=
  existsb (λ e, match e with SectionValueName k => same_name k value_name | _ => false end) body.
Definition num_values (body : list Event) : nat := length (value_names body).
(** [BodyIter::next]: the pair, and the events that are left. *)
Fixpoint body_next_loop (key : option bytes) (partial_value : bytes) (es : list Event) : option bytes * option bytes * list Event :=
  match es with
  | [] => (key, None, [])
  | SectionValueName k :: es => body_next_loop (Some k) partial_value es
  | Value v :: es => (key, Some v, es)
  | ValueNotDone v :: es => body_next_loop key (partial_value ++ v) es
  | ValueDone v :: es => (key, Some (partial_value ++ v), es)
  | _ :: es => body_next_loop key partial_value es
  end.
Definition body_next (es : list Event) : res Empty_set (option (bytes * bytes) * list Event) :=
  let '(key, v, es) := body_next_loop None [] es in
  v ← match v with Some v => v ← normalize v; Ok (Some v) | None => Ok None end;
  Ok (match key, v with Some key, Some v => Some (key, v) | _, _ => None end, es).

(** ** [file/mutable/mod.rs] *)

Definition escape_byte (b : Z) : bytes :=
  if b =? 10 then [92; ch "n"] else if b =? 9 then [92; ch "t"] else if b =? 34 then [92; 34] else if b =? 92 then [92; 92] else [b].
Definition escape_value (v : bytes) : bytes :=
  let is_whitespace (b : option Z) := match b with Some b => is_ascii_whitespace b | None => false end in
  let quote := is_whitespace (head v) || is_whitespace (v !! (length v - 1)%nat) ||
               negb (bool_decide (bstr.find_byteset v [ch ";"; ch "#"] = None)) in
  (if quote then [34] else []) ++ concat (escape_byte <$> v) ++ (if quote then [34] else []).
Record Whitespaces := mkWhitespaces { pre_key : option bytes; pre_sep : option bytes; post_sep : option bytes }.
Definition whitespace_default : Whitespaces := mkWhitespaces (Some [9]) (Some [32]) (Some [32]).
Definition ws_events (ws : option bytes) : list Event := match ws with Some ws => [Whitespace ws] | None => [] end.
Definition key_value_separators (w : Whitespaces) : list Event := ws_events (pre_sep w) ++ [KeyValueSeparator] ++ ws_events (post_sep w).
Definition as_whitespace (e : option Event) : option bytes := match e with Some (Whitespace s) => Some s | _ => None end.
Definition from_body (body : list Event) : Whitespaces :=
  match find_index (λ e, match e with SectionValueName _ => true | _ => false end) body with
  | None => whitespace_default
  | Some key_pos =>
      let from_key := drop key_pos body in
      let '(pre, post) :=
        match find_index (λ e, match e with KeyValueSeparator => true | _ => false end) from_key with
        | Some sep_pos => (as_whitespace (from_key !! (sep_pos - 1)%nat), as_whitespace (from_key !! (sep_pos + 1)%nat))
        | None => (None, None)
        end in
      mkWhitespaces (as_whitespace (last (take key_pos body))) pre post
  end.

(** ** [file/mutable/section.rs] *)

Record SectionMut := mkSectionMut { sbody : list Event; implicit_newline : bool; swhitespace : Whitespaces; snewline : bytes }.
Definition with_body (s : SectionMut) (b : list Event) : SectionMut := mkSectionMut b (implicit_newline s) (swhitespace s) (snewline s).
Definition section_mut_new (body : list Event) (newline : bytes) : SectionMut := mkSectionMut body true (from_body body) newline.
Definition comment_event (comment : bytes) : Event :=
  EComment (mkComment (ch "#")
    ((match comment with b :: _ => if negb (is_ascii_whitespace b) then [32] else [] | [] => [] end) ++
     ((λ b, if b =? 10 then 32 else b) <$> comment))).
Definition push_with_comment_inner (s : SectionMut) (value_name : bytes) (v comment : option bytes) : SectionMut :=
  with_body s (sbody s ++ ws_events (pre_key (swhitespace s)) ++ [SectionValueName value_name] ++
    match v with Some v => key_value_separators (swhitespace s) ++ [Value (escape_value v)] | None => [Value []] end ++
    match comment with Some comment => [Whitespace [32]; comment_event comment] | None => [] end ++
    (if implicit_newline s then [Newline (snewline s)] else [])).
Definition push (s : SectionMut) (value_name : bytes) (v : option bytes) : SectionMut := push_with_comment_inner s value_name v None.
Definition push_with_comment (s : SectionMut) (value_name : bytes) (v : option bytes) (comment : bytes) : SectionMut :=
  push_with_comment_inner s value_name v (Some comment).
(** Events are popped in reverse order. *)
Fixpoint pop_loop (rbody : list Event) (values : list bytes) : res Empty_set (option (bytes * bytes) * list Event) :=
  match rbody with
  | [] => Ok (None, [])
  | SectionValueName k :: rbody =>
      let rbody := match rbody with Whitespace _ :: rbody => rbody | _ => rbody end in
      v ← normalize (concat (rev values));
      Ok (Some (k, v), rbody)
  | (Value v | ValueNotDone v | ValueDone v) :: rbody => pop_loop rbody (values ++ [v])
  | _ :: rbody => pop_loop rbody values
  end.
Definition pop (s : SectionMut) : res Empty_set (option (bytes * bytes) * SectionMut) :=
  '(r, rbody) ← pop_loop (rev (sbody s)) []; Ok (r, with_body s (rev rbody)).
Definition value_text (e : Event) : bytes := match e with Value v | ValueNotDone v | ValueDone v => v | _ => [] end.
Definition is_newline (e : option Event) : bool := match e with Some (Newline _) => true | _ => false end.
Definition is_whitespace_event (e : option Event) : bool := match e with Some (Whitespace _) => true | _ => false end.
Definition remove_internal (s : SectionMut) (range : nat * nat) (fix_whitespace : bool) : res Empty_set (bytes * SectionMut) :=
  let '(start, end_) := range in
  events ← (if fix_whitespace && is_newline (sbody s !! end_) then vec_remove end_ (sbody s) else Ok (sbody s));
  '(drained, events) ← vec_drain start end_ events;
  events ← (if fix_whitespace && negb (start =? 0)%nat && is_whitespace_event (events !! (start - 1)%nat)
            then vec_remove (start - 1) events else Ok events);
  Ok (concat (value_text <$> drained), with_body s events).
Definition set (s : SectionMut) (value_name v : bytes) : res Empty_set (option bytes * SectionMut) :=
  match key_and_value_range_by (sbody s) value_name with
  | None => Ok (None, push s value_name (Some v))
  | Some (key_range, value_range) =>
      let value_range := default ((key_range.2 - 1)%nat, key_range.2) value_range in
      '(ret, s) ← remove_internal s value_range false;
      events ← vec_insert value_range.1 (Value (escape_value v)) (sbody s);
      Ok (Some ret, with_body s events)
  end.
Definition remove (s : SectionMut) (value_name : bytes) : res Empty_set (option bytes * SectionMut) :=
  match key_and_value_range_by (sbody s) value_name with
  | None => Ok (None, s)
  | Some (key_range, _) => '(v, s) ← remove_internal s key_range true; Ok (Some v, s)
  end.
Definition push_newline (s : SectionMut) : SectionMut := with_body s (sbody s ++ [Newline (snewline s)]).
Definition set_implicit_newline (s : SectionMut) (on : bool) : SectionMut := mkSectionMut (sbody s) on (swhitespace s) (snewline s).
Definition set_leading_whitespace (s : SectionMut) (w : option bytes) : res Empty_set SectionMut :=
  _ ← assert_ (match w with Some w => forallb is_ascii_whitespace w | None => true end);
  Ok (mkSectionMut (sbody s) (implicit_newline s) (mkWhitespaces w (pre_sep (swhitespace s)) (post_sep (swhitespace s))) (snewline s)).
Fixpoint get_loop (key : bytes) (expect_value : bool) (concatenated : bytes) (es : list Event) : res unit bytes :=
  match es with
  | [] => Err tt
  | e :: es =>
      match e with
      | SectionValueName k => get_loop key (if same_name k key then true else expect_value) concatenated es
      | Value v => if expect_value then lift (normalize v) else get_loop key expect_value concatenated es
      | ValueNotDone v => get_loop key expect_value (if expect_value then concatenated ++ v else concatenated) es
      | ValueDone v => if expect_value then lift (normalize (concatenated ++ v)) else get_loop key expect_value concatenated es
      | _ => get_loop key expect_value concatenated es
      end
  end.
(** The error says that the key is missing. *)
Definition get (s : SectionMut) (key : bytes) (start end_ : nat) : res unit bytes :=
  es ← slice (sbody s) start end_; get_loop key false [] es.
Definition delete (s : SectionMut) (start end_ : nat) : res Empty_set SectionMut :=
  '(_, b) ← vec_drain start end_ (sbody s); Ok (with_body s b).
Definition set_internal (s : SectionMut) (index : nat) (key v : bytes) : res Empty_set (nat * SectionMut) :=
  body ← vec_insert index (Value (escape_value v)) (sbody s);
  let sep_events := key_value_separators (swhitespace s) in
  let body := take index body ++ rev sep_events ++ drop index body in
  body ← vec_insert index (SectionValueName key) body;
  Ok ((1 + length sep_events + 1)%nat, with_body s body).

(** ** [file/mutable/value.rs] *)

Record ValueMut := mkValueMut { vsection : SectionMut; vkey : bytes; vindex : nat; vsize : nat }.
Definition value_mut_get (v : ValueMut) : res unit bytes := get (vsection v) (vkey v) (vindex v) (vindex v + vsize v).
Definition value_mut_delete (v : ValueMut) : res Empty_set ValueMut :=
  if (0 <? vsize v)%nat then
    s ← delete (vsection v) (vindex v) (vindex v + vsize v); Ok (mkValueMut s (vkey v) (vindex v) 0)
  else Ok v.
Definition value_mut_set (v : ValueMut) (input : bytes) : res Empty_set ValueMut :=
  v ← value_mut_delete v;
  '(size, s) ← set_internal (vsection v) (vindex v) (vkey v) input;
  Ok (mkValueMut s (vkey v) (vindex v) size).

(** ** [file/write.rs], [file/section/mod.rs] *)

Definition extract_newline (e : Event) : option bytes :=
  match e with Newline b => Some (if mem 13 b then [13; 10] else [10]) | _ => None end.
(** The newline of the platform, for Unix. *)
Definition platform_newline : bytes := [10].
Definition is_value_name (e : Event) : bool := match e with SectionValueName _ => true | _ => false end.
Fixpoint take_until_name (es : list Event) : list Event :=
  match es with e :: es => if is_value_name e then [] else e :: take_until_name es | [] => [] end.
Definition first_newline (es : list Event) : bytes := default platform_newline (head (omap extract_newline es)).
Fixpoint write_loop (nl : bytes) (saw_newline_after_value in_key_value_pair : bool) (es : list Event) : bytes :=
  match es with
  | [] => []
  | event :: es =>
      let '(before, saw, pair) :=
        match event with
        | SectionValueName _ => (if saw_newline_after_value then [] else nl, false, true)
        | Newline _ => ([], if in_key_value_pair then saw_newline_after_value else true, in_key_value_pair)
        | Value _ | ValueDone _ => ([], saw_newline_after_value, false)
        | _ => ([], saw_newline_after_value, in_key_value_pair)
        end in
      before ++ event_write_to event ++
      match event with ValueNotDone _ => if is_newline (head es) then [] else nl | _ => [] end ++
      write_loop nl saw pair es
  end.
Definition section_write_to (h : Header) (body : list Event) : bytes :=
  header_write_to h ++
  match body with
  | [] => []
  | _ =>
      let nl := first_newline body in
      (if existsb (λ e, match bstr.find (to_bstr_lossy e) nl with Some _ => true | None => false end) (take_until_name body) then [] else nl) ++
      write_loop nl true false body
  end.

(** ** [parse/events.rs] *)

Record Events := mkEvents { frontmatter : list Event; sections : list (Header * list Event) }.
Record EventsSt := mkEventsSt { es_header : option Header; es_events : list Event; es_front : list Event; es_sections : list (Header * list Event) }.
Definition collect_event (keep : Event → bool) (s : EventsSt) (e : Event) : EventsSt :=
  match e with
  | SectionHeader next_header =>
      match es_header s with
      | None => mkEventsSt (Some next_header) [] (es_events s) (es_sections s)
      | Some prev_header => mkEventsSt (Some next_header) [] (es_front s) (es_sections s ++ [(prev_header, es_events s)])
      end
  | event => if keep event then mkEventsSt (es_header s) (es_events s ++ [event]) (es_front s) (es_sections s) else s
  end.
Definition events_from_bytes `{WA : !winnow.Api} (bom_len : bytes → nat) (filter : option (Event → bool)) (input : bytes) : res ParseError Events :=
  let '(es, r) := from_bytes bom_len input in
  _ ← r;
  let s := foldl (collect_event (default (λ _, true) filter)) (mkEventsSt None [] [] []) es in
  Ok (match es_header s with
      | None => mkEvents (es_events s) (es_sections s)
      | Some prev_header => mkEvents (es_front s) (es_sections s ++ [(prev_header, es_events s)])
      end).
Definition into_vec (e : Events) : list Event := frontmatter e ++ concat ((λ '(h, es), SectionHeader h :: es) <$> sections e).
End Body.

(** ** Theorems: values *)

Section Values.
Context `{BA : !bstr.Api} `{BL : !bstr.Laws}.

Lemma unescape_plain out s : Forall (λ b, b ≠ 92 ∧ b ≠ 34) s → unescape_loop out s = out ++ s.
Proof.
  intros Hs. revert out. induction Hs as [|b s [H1 H2] _ IH]; intros out; cbn [unescape_loop]; [by rewrite app_nil_r|].
  rewrite (proj2 (Z.eqb_neq _ _) H1), (proj2 (Z.eqb_neq _ _) H2), IH. by rewrite <- app_assoc.
Qed.
(** A quote at the end that is not escaped is dropped. *)
Lemma unescape_last_quote out m : list.last m ≠ Some 92 → unescape_loop out (m ++ [34]) = unescape_loop out m.
Proof.
  remember (length m) as n eqn:Hn. revert out m Hn. induction n as [n IH] using lt_wf_ind. intros out m -> Hl.
  destruct m as [|c m]; [done|]. cbn [app unescape_loop].
  assert (Hm : ∀ out, (m = [] ∨ list.last m ≠ Some 92) → unescape_loop out (m ++ [34]) = unescape_loop out m).
  { intros out' [->|H]; [done|]. apply (IH (length m)); [cbn; lia|done|done]. }
  assert (Hm' : m = [] ∨ list.last m ≠ Some 92) by (destruct m; [by left|right; exact Hl]).
  destruct (Z.eqb_spec c 92) as [->|]; [|destruct (c =? 34); by apply Hm].
  destruct m as [|d m]; [done|]. cbn [app].
  assert (Hd : ∀ out, unescape_loop out (m ++ [34]) = unescape_loop out m).
  { intros out'. destruct m as [|e m]; [done|]. apply (IH (length (e :: m))); [cbn; lia|done|exact Hl]. }
  destruct (d =? ch "n"); [apply Hd|]. destruct (d =? ch "t"); [apply Hd|]. destruct (d =? ch "b"); apply Hd.
Qed.
Lemma enclosed_inv input : enclosed input = true → ∃ m, input = 34 :: m ++ [34] ∧ m ≠ [] ∧ list.last m ≠ Some 92.
Proof.
  unfold enclosed. rewrite !andb_true_iff, Nat.leb_le, !bool_decide_eq_true, negb_true_iff, bool_decide_eq_false. intros [[[Hl H0] H1] H2].
  destruct input as [|x l _] using rev_ind; [done|]. rewrite length_app in *. cbn [length] in *.
  rewrite lookup_app_r in H1 by lia. replace (length l + 1 - 1 - length l)%nat with 0%nat in H1 by lia. injection H1 as ->.
  rewrite lookup_app_l in H0 by lia. rewrite lookup_app_l in H2 by lia. destruct l as [|c m]; [done|]. injection H0 as ->.
  exists m. destruct m as [|y m _] using rev_ind; [cbn in Hl; lia|]. split_and!; [done|by destruct m|]. rewrite last_snoc. intros [= ->]. apply H2.
  cbn [length]. rewrite length_app. cbn [length]. replace (S (length m + 1) + 1 - 2)%nat with (S (length m)) by lia. cbn [lookup list_lookup].
  change ((m ++ [92]) !! length m = Some 92). rewrite lookup_app_r, Nat.sub_diag by lia. done.
Qed.
Lemma strip_loop_unescape fuel input : (length input ≤ fuel)%nat →
  ∃ r, strip_loop fuel input = Ok r ∧ unescape_loop [] input = match r with Some i => unescape_loop [] i | None => [] end.
Proof.
  revert input. induction fuel as [|fuel IH]; intros input Hf; cbn [strip_loop]; destruct (enclosed input) eqn:E; try (by exists (Some input)).
  - apply enclosed_inv in E as (m & -> & _). cbn in Hf. lia.
  - apply enclosed_inv in E as (m & -> & Hm & Hl).
    assert (Hs : slice (E := Empty_set) (34 :: m ++ [34]) 1 (length (34 :: m ++ [34]) - 1) = Ok m).
    { apply (slice_app [34] m [34]); [done|]. cbn. rewrite length_app. cbn. lia. }
    rewrite Hs, bind_Ok. cbn [unescape_loop]. change (34 =? 92) with false. change (34 =? 34) with true. cbn match. rewrite unescape_last_quote by done.
    case_bool_decide as Hq; [subst m; by exists None|]. apply IH. cbn in Hf. rewrite length_app in Hf. cbn in Hf. lia.
Qed.

(** Normalizing a value removes its quotes and resolves its escapes, one after
    the other: the shortcuts for values in quotes and for plain ones, which do
    not copy, change nothing. *)
Lemma normalize_unescapes input : normalize input = Ok (unescape_loop [] input).
Proof.
  unfold normalize. case_bool_decide as Hq; [by subst input|]. destruct (strip_loop_unescape (length input) input) as (r & -> & ->); [done|].
  rewrite bind_Ok. destruct r as [i|]; [|done]. case_bool_decide as Hf; [|done]. f_equal. rewrite unescape_plain; [done|].
  rewrite bstr.find_byteset_spec in Hf. apply find_index_None in Hf. eapply Forall_impl; [exact Hf|]. intros b Hb. cbv beta in Hb.
  apply not_true_iff_false in Hb. rewrite mem_spec in Hb. set_solver.
Qed.
Lemma unescape_escaped out v rest : unescape_loop out (concat (escape_byte <$> v) ++ rest) = unescape_loop (out ++ v) rest.
Proof.
  revert out. induction v as [|b v IH]; intros out; cbn [fmap list_fmap concat app]; [by rewrite app_nil_r|].
  replace (out ++ b :: v) with ((out ++ [b]) ++ v) by (by rewrite <- app_assoc). rewrite <- IH. unfold escape_byte.
  destruct (Z.eqb_spec b 10) as [->|]; [done|]. destruct (Z.eqb_spec b 9) as [->|]; [done|]. destruct (Z.eqb_spec b 34) as [->|]; [done|].
  destruct (Z.eqb_spec b 92) as [->|]; [done|]. cbn [app unescape_loop]. by rewrite !(proj2 (Z.eqb_neq _ _)) by done.
Qed.
(** What is escaped is normalized to what it was. *)
Lemma normalize_escaped v : normalize (escape_value v) = Ok v.
Proof.
  rewrite normalize_unescapes. f_equal. unfold escape_value. cbv zeta. destruct (_ || _).
  - change ([34] ++ concat (escape_byte <$> v) ++ [34]) with (34 :: (concat (escape_byte <$> v) ++ [34])).
    transitivity (unescape_loop [] (concat (escape_byte <$> v) ++ [34])); [done|]. by rewrite unescape_escaped.
  - cbn [app]. by rewrite unescape_escaped.
Qed.

(** normalizing a value gives what removing its quotes and resolving its
    escapes one character after the other gives: the shortcuts for values in
    quotes and for plain ones, that do not copy, change nothing. And the text
    that is written for any value is normalized to that value. *)
Theorem normalize_correct (input v : bytes) : normalize input = Ok (unescape_loop [] input) ∧ normalize (escape_value v) = Ok v.
Proof. split; [apply normalize_unescapes|apply normalize_escaped]. Qed.
End Values.

(** ** Theorems: what is written is read *)

Section WriteRead.
#[local] Open Scope config_scope.
Context `{BA : !bstr.Api} `{BL : !bstr.Laws} `{WA : !winnow.Api} `{WL : !winnow.Laws}.

(** A computation that succeeds with these events. *)
Definition does {A} (m : M A) (es : list Event) (a : A) : Prop := ∀ st, ∃ n, m st = (mkSt (events st ++ es) n, Ok a).
Lemma does_ret {A} (a : A) : does (ret a) [] a.
Proof. intros [es n]. exists n. unfold ret. cbn. by rewrite app_nil_r. Qed.
Lemma does_bind {A B} (m : M A) (f : A → M B) es es' a b : does m es a → does (f a) es' b → does (bind m f) (es ++ es') b.
Proof. intros Hm Hf st. destruct (Hm st) as [n E]. destruct (Hf (mkSt (events st ++ es) n)) as [n' E']. exists n'. unfold bind. rewrite E, E'. cbn. by rewrite app_assoc. Qed.
Lemma does_bind_nil {A B} (m : M A) (f : A → M B) es a b : does m [] a → does (f a) es b → does (bind m f) es b.
Proof. apply (does_bind m f []). Qed.
Lemma does_dispatch e : does (dispatch e) [e] tt.
Proof. intros [es n]. by exists n. Qed.
Lemma does_node n : does (set_node n) [] tt.
Proof. intros [es m]. exists n. unfold set_node. cbn. by rewrite app_nil_r. Qed.
Lemma does_run {A} (p : parser A) i a i' : p i = Ok (a, i') → does (run p i) [] (a, i').
Proof. intros E [es n]. exists n. unfold run, lift_res. rewrite E. cbn. by rewrite app_nil_r. Qed.
Lemma does_lift {A E} i (r : res E A) a : r = Ok a → does (lift_res i r) [] a.
Proof. intros -> [es n]. exists n. unfold lift_res. cbn. by rewrite app_nil_r. Qed.
Lemma does_opt {A} (p : parser A) event i a i' : p i = Ok (a, i') → does (opt_dispatch p event i) [event a] i'.
Proof.
  intros E. unfold opt_dispatch. eapply does_bind_nil; [apply does_run; rewrite opt_spec, E; done|]. cbn.
  rewrite <- (app_nil_r [event a]). eapply does_bind; [apply does_dispatch|apply does_ret].
Qed.
Lemma does_opt_none {A} (p : parser A) event i : p i = Err Backtrack → does (opt_dispatch p event i) [] i.
Proof. intros E. unfold opt_dispatch. eapply does_bind_nil; [apply does_run; rewrite opt_spec, E; done|]. apply does_ret. Qed.

(** *** Nothing to parse *)

(** What the parser of a section has in front of it where something ends. *)
Definition no_head (f : Z → bool) (i : bytes) : Prop := match i with b :: _ => f b = false | [] => True end.
Lemma count_no_head f i : no_head f i → count_while f i = 0%nat.
Proof. destruct i as [|b i]; [done|]. cbn. by intros ->. Qed.
Lemma spaces_none i : no_head is_space i → take_spaces1 i = Err Backtrack.
Proof. intros H. unfold take_spaces1. rewrite take_while_spec. cbv zeta. by rewrite count_no_head. Qed.
Lemma spaces_read s i : s ≠ [] → Forall (λ b, is_space b = true) s → no_head is_space i → take_spaces1 (s ++ i) = Ok (s, i).
Proof. intros Hs Hf Hi. apply take_while_app; [destruct s; [done|cbn; lia]|done|exact Hi]. Qed.
Definition starts_newline (b : Z) : bool := (b =? 10) || (b =? 13).
Lemma newline_none i : no_head starts_newline i → alt (literal [13; 10]) (literal [10]) i = Err Backtrack.
Proof.
  intros H. rewrite alt_spec, !literal_spec. destruct i as [|b i]; [done|]. cbn in H. apply orb_false_iff in H as [H1 H2].
  apply Z.eqb_neq in H1, H2. cbn. by rewrite !(proj2 (Z.eqb_neq _ _)) by done.
Qed.
Lemma newlines_none i : no_head starts_newline i → take_newlines1 i = Err Backtrack.
Proof. intros H. unfold take_newlines1. rewrite taken_spec, repeat_mn_S_spec, newline_none by done. done. Qed.
Lemma newlines_read i : no_head starts_newline i → take_newlines1 (10 :: i) = Ok ([10], i).
Proof.
  intros H. unfold take_newlines1. rewrite taken_spec, repeat_mn_S_spec, alt_spec, literal_cons_ne by done. rewrite literal_one. cbn [length].
  rewrite (proj2 (Nat.ltb_lt _ _)) by lia. cbn [Nat.sub]. rewrite repeat_mn_S_spec, newline_none by done.
  cbn [Nat.eqb]. winnow_run. by replace (S (length i) - length i)%nat with 1%nat by lia.
Qed.
Lemma comment_none i : no_head (λ c, (c =? ch ";") || (c =? ch "#")) i → comment i = Err Backtrack.
Proof. intros H. unfold comment. rewrite map_spec, pair_spec, one_of_spec. destruct i as [|b i]; [done|]. cbn in H. by rewrite H. Qed.
Lemma name_none i : no_head is_ascii_alphabetic i → config_name i = Err Backtrack.
Proof. intros H. unfold config_name. rewrite taken_spec, pair_spec, one_of_spec. destruct i as [|b i]; [done|]. cbn in H. by rewrite H. Qed.
Definition is_name_char (c : Z) : bool := is_ascii_alphanumeric c || (c =? ch "-").
Lemma config_name_read k i : is_valid_value_name k = true → no_head is_name_char i → config_name (k ++ i) = Ok (k, i).
Proof.
  unfold is_valid_value_name, is_valid_name. rewrite !andb_true_iff. intros [[_ Hk] Ha] Hi. destruct k as [|b k]; [done|].
  unfold config_name. rewrite taken_spec, pair_spec, one_of_spec. cbn [app]. rewrite Ha. winnow_run. cbn in Hk. apply andb_true_iff in Hk as [_ Hk].
  rewrite (take_while_app 0 is_name_char k i); [|lia|by apply forallb_Forall|exact Hi]. winnow_run. cbn [length]. rewrite length_app.
  replace (S (length k + length i) - length i)%nat with (S (length k)) by lia. cbn. by rewrite take_app_length.
Qed.
Lemma pair_none i : no_head is_ascii_alphabetic i → does (key_value_pair i) [] i.
Proof.
  intros H. unfold key_value_pair. eapply does_bind_nil; [apply does_node|]. eapply does_bind_nil; [apply does_run; rewrite opt_spec, name_none by done; done|].
  apply does_ret.
Qed.

(** *** Values *)

Lemma value_loop_plain fuel start s c i : is_value_char c = true → value_loop fuel start s (c :: i) = value_loop fuel start s i.
Proof.
  intros Hc. destruct fuel; cbn [value_loop]; unfold bind, run; rewrite !take_while_spec; cbn [count_while]; rewrite Hc; done.
Qed.
Lemma value_loop_stop fuel start s c i : is_value_char c = false →
  value_loop (S fuel) start s (c :: i) =
    let at_end := mkValueSt (value_start s) (Some (offset_from i (value_start s) - 1)%nat) (is_in_quotes s) (partial_value_found s) in
    if c =? 10 then ret (at_end, i)
    else if ((c =? ch ";") || (c =? ch "#")) && negb (is_in_quotes s) then ret (at_end, i)
    else bind (value_token start s c i) (λ x, match x with (s, i) => value_loop fuel start s i end).
Proof. intros Hc. cbn [value_loop]. unfold bind at 1, run. rewrite take_while_spec. cbn [count_while]. rewrite Hc. done. Qed.
Definition toggled (s : ValueSt) : ValueSt := mkValueSt (value_start s) (value_end s) (negb (is_in_quotes s)) (partial_value_found s).
Lemma value_loop_quote fuel start s i : value_loop (S fuel) start s (34 :: i) = value_loop fuel start (toggled s) i.
Proof. rewrite value_loop_stop by done. done. Qed.
Lemma value_loop_comment fuel start s c i : c = ch ";" ∨ c = ch "#" → is_in_quotes s = true →
  value_loop (S fuel) start s (c :: i) = value_loop fuel start s i.
Proof. intros [-> | ->] Hq; rewrite value_loop_stop by done; cbv zeta; rewrite Hq; done. Qed.
Lemma value_loop_escape fuel start s c i : c = ch "n" ∨ c = ch "t" ∨ c = 92 ∨ c = 34 →
  value_loop (S fuel) start s (92 :: c :: i) = value_loop fuel start s i.
Proof. intros [-> | [-> | [-> | ->]]]; rewrite value_loop_stop by done; done. Qed.
(** Characters that have to be in quotes are. *)
Definition needs_quotes (v : bytes) : bool := negb (bool_decide (bstr.find_byteset v [ch ";"; ch "#"] = None)).
Lemma value_loop_escaped fuel start s v tail :
  (is_in_quotes s = true ∨ Forall (λ b, b ≠ ch ";" ∧ b ≠ ch "#") v) → (length (concat (escape_byte <$> v) ++ tail) ≤ fuel)%nat →
  ∃ fuel', (length tail ≤ fuel')%nat ∧ value_loop fuel start s (concat (escape_byte <$> v) ++ tail) = value_loop fuel' start s tail.
Proof.
  revert fuel. induction v as [|b v IH]; intros fuel Hq Hf; [by exists fuel|].
  assert (Hq' : is_in_quotes s = true ∨ Forall (λ b, b ≠ ch ";" ∧ b ≠ ch "#") v) by (destruct Hq as [|[_ ?]%Forall_cons]; tauto).
  cbn [fmap list_fmap concat] in *. rewrite <- app_assoc in *. rewrite length_app in Hf. unfold escape_byte in *.
  destruct (Z.eqb_spec b 10) as [->|]; [|destruct (Z.eqb_spec b 9) as [->|]; [|destruct (Z.eqb_spec b 34) as [->|]; [|destruct (Z.eqb_spec b 92) as [->|]]]]; cbn [app length] in *.
  1-4: destruct fuel as [|fuel]; [lia|]; rewrite value_loop_escape by tauto; apply IH; [done|lia].
  destruct (is_value_char b) eqn:Hb; [rewrite value_loop_plain by done; apply IH; [done|lia]|].
  assert (Hc : b = ch ";" ∨ b = ch "#").
  { unfold is_value_char in Hb. rewrite !andb_false_iff, !negb_false_iff, !Z.eqb_eq in Hb. tauto. }
  destruct Hq as [Hq|[Hq _]%Forall_cons]; [|naive_solver]. destruct fuel as [|fuel]; [lia|]. rewrite value_loop_comment by done. apply IH; [done|lia].
Qed.
Lemma rfind_index_end {A} (f : A → bool) l x : f x = true → bstr.rfind_index f (l ++ [x]) = Some (length l).
Proof. intros Hx. induction l as [|y l IH]; cbn; [by rewrite Hx|]. by rewrite IH. Qed.
Lemma escape_byte_last b : is_ascii_whitespace b = false → ∃ l x, escape_byte b = l ++ [x] ∧ is_ascii_whitespace x = false.
Proof.
  intros Hb. unfold escape_byte. repeat case_match; [by exists [92], (ch "n")|by exists [92], (ch "t")|by exists [92], 34|by exists [92], 92|by exists [], b].
Qed.
Lemma escape_byte_first b : is_ascii_whitespace b = false → ∃ x l, escape_byte b = x :: l ∧ is_ascii_whitespace x = false.
Proof. intros Hb. unfold escape_byte. repeat case_match; by do 2 eexists. Qed.
(** An escaped value does not begin or end with whitespace. *)
Lemma escape_value_first v : no_head is_ascii_whitespace (escape_value v).
Proof.
  unfold escape_value. cbv zeta. destruct (_ || _) eqn:E; [done|]. apply orb_false_iff in E as [[E _]%orb_false_iff _].
  destruct v as [|b v]; [done|]. cbn in *. destruct (escape_byte_first b E) as (x & l & -> & Hx). done.
Qed.
Lemma escape_value_last v : escape_value v = [] ∨ ∃ l x, escape_value v = l ++ [x] ∧ is_ascii_whitespace x = false.
Proof.
  unfold escape_value. cbv zeta. destruct (_ || _) eqn:E.
  { right. exists ([34] ++ concat (escape_byte <$> v)), 34. by rewrite <- app_assoc. }
  apply orb_false_iff in E as [[_ E]%orb_false_iff _]. destruct v as [|b v _] using rev_ind; [by left|]. right. rewrite length_app in E. cbn in E.
  rewrite lookup_app_r in E by lia. replace (length v + 1 - 1 - length v)%nat with 0%nat in E by lia. cbn in E.
  destruct (escape_byte_last b E) as (l & x & Hb & Hx). exists (concat (escape_byte <$> v) ++ l), x. rewrite fmap_app, concat_app. cbn.
  by rewrite Hb, !app_nil_r, <- app_assoc.
Qed.
Lemma value_read v rest : does (value_impl (escape_value v ++ 10 :: rest)) [Value (escape_value v)] (10 :: rest).
Proof.
  set (i := escape_value v ++ 10 :: rest). set (s0 := mkValueSt i None false false).
  assert (Hloop : value_loop (length i) i s0 i = ret (mkValueSt i (Some (length (escape_value v))) false false, rest)).
  { assert (Hoff : (offset_from rest i - 1)%nat = length (escape_value v)) by (unfold offset_from, i; rewrite length_app; cbn; lia).
    assert (Hend : ∀ fuel s, value_start s = i → partial_value_found s = false → (1 ≤ fuel)%nat → is_in_quotes s = false →
      value_loop fuel i s (10 :: rest) = ret (mkValueSt i (Some (length (escape_value v))) false false, rest)).
    { intros [|fuel] s Hs Hp Hf Hq; [lia|]. rewrite value_loop_stop by done. cbn. by rewrite Hs, Hp, Hq, Hoff. }
    revert Hend Hoff. generalize (length (escape_value v)) as n. intros n Hend _.
    assert (Hi : i = escape_value v ++ 10 :: rest) by done. revert Hi. unfold escape_value. cbv zeta. destruct (_ || _) eqn:E; intros Hi.
    - rewrite Hi at 1 3. cbn [app length]. rewrite value_loop_quote, <- !app_assoc.
      destruct (value_loop_escaped (length (concat (escape_byte <$> v) ++ [34] ++ 10 :: rest)) i (toggled s0) v ([34] ++ 10 :: rest)) as (fuel & Hf & E1);
        [by left|done|].
      + rewrite E1. cbn [app length] in *. destruct fuel as [|fuel]; [lia|]. rewrite value_loop_quote. apply Hend; [done|done|lia|done].
    - rewrite Hi at 1 3. cbn [app]. rewrite app_nil_r.
      destruct (value_loop_escaped (length (concat (escape_byte <$> v) ++ 10 :: rest)) i s0 v (10 :: rest)) as (fuel & Hf & E1); [|done|].
      + right. apply orb_false_iff in E as [_ E%negb_false_iff%bool_decide_eq_true]. rewrite bstr.find_byteset_spec in E. apply find_index_None in E.
        eapply Forall_impl; [exact E|]. intros b Hb. cbv beta in Hb. apply not_true_iff_false in Hb. rewrite mem_spec in Hb. set_solver.
      + rewrite E1. apply Hend; [done|done|cbn in Hf; lia|done]. }
  unfold value_impl. cbv zeta. fold s0. intros st. unfold bind at 1. rewrite Hloop. unfold ret at 1. cbn [is_in_quotes value_end value_start partial_value_found].
  cut (does (A := bytes) (let! value := lift_res [] (slice_to (E := Empty_set) i (length (escape_value v))) in
        let trimmed := match bstr.rfind_index (λ b, negb (is_ascii_whitespace b)) value with Some idx => (idx + 1)%nat | None => 0%nat end in
        let! (remainder_value, i) := lift_res [] (split_at (E := Empty_set) i trimmed) in
        let! _ := dispatch (Value remainder_value) in ret i) [Value (escape_value v)] (10 :: rest)); [intros H; apply H|].
  eapply does_bind_nil; [apply does_lift; unfold i; by apply slice_to_app|]. cbv zeta.
  replace (match bstr.rfind_index _ (escape_value v) with Some idx => (idx + 1)%nat | None => 0%nat end) with (length (escape_value v)).
  - eapply does_bind_nil; [apply does_lift; unfold i; by apply split_at_app|]. cbv beta iota. rewrite <- (app_nil_r [Value _]).
    eapply does_bind; [apply does_dispatch|apply does_ret].
  - destruct (escape_value_last v) as [->|(l & x & -> & Hx)]; [done|]. rewrite rfind_index_end by (by rewrite Hx). rewrite length_app. cbn. lia.
Qed.

(** *** Keys and sections *)

Definition kv_events (k : bytes) (v : option bytes) : list Event :=
  [Whitespace [9]; SectionValueName k] ++ match v with Some v => [Whitespace [32]; KeyValueSeparator; Whitespace [32]; Value (escape_value v)] | None => [Value []] end.
Lemma does_eq {A} (m : M A) es es' a : does m es a → es = es' → does m es' a.
Proof. by intros H <-. Qed.
Lemma no_head_value rest v : no_head is_space (escape_value v ++ 10 :: rest).
Proof.
  pose proof (escape_value_first v) as H. destruct (escape_value v) as [|b e]; [done|]. cbn in *. unfold is_space.
  unfold is_ascii_whitespace in H. apply orb_false_iff. rewrite !Z.eqb_neq. split; intros ->; done.
Qed.
Lemma pair_read k v rest : is_valid_value_name k = true →
  does (key_value_pair (text (drop 1 (kv_events k v)) ++ 10 :: rest)) (drop 1 (kv_events k v)) (10 :: rest).
Proof.
  intros Hk. unfold key_value_pair. eapply does_bind_nil; [apply does_node|]. destruct v as [v|]; cbn [kv_events drop app].
  - eapply does_bind_nil.
    { apply does_run. change (text _ ++ 10 :: rest) with ((k ++ [32] ++ [ch "="] ++ [32] ++ escape_value v ++ []) ++ 10 :: rest).
      rewrite app_nil_r, <- !app_assoc. by rewrite opt_spec, config_name_read. }
    cbv beta iota. eapply (does_bind _ _ [SectionValueName k]); [apply does_dispatch|].
    eapply (does_bind _ _ [Whitespace [32]]); [apply does_opt; apply (spaces_read [32]); [done|by repeat constructor|done]|].
    eapply does_bind_nil; [apply does_node|]. unfold config_value.
    eapply does_bind_nil; [apply does_run; rewrite opt_spec; cbn [app]; rewrite literal_one; done|]. cbv beta iota.
    eapply (does_bind _ _ [KeyValueSeparator]); [apply does_dispatch|].
    eapply (does_bind _ _ [Whitespace [32]]); [apply does_opt; apply (spaces_read [32]); [done|by repeat constructor|apply no_head_value]|].
    apply value_read.
  - eapply does_bind_nil.
    { apply does_run. change (text _ ++ 10 :: rest) with ((k ++ [] ++ []) ++ 10 :: rest). rewrite !app_nil_r. by rewrite opt_spec, config_name_read. }
    cbv beta iota. eapply (does_bind _ _ [SectionValueName k]); [apply does_dispatch|].
    eapply does_bind_nil; [by apply does_opt_none, spaces_none|]. eapply does_bind_nil; [apply does_node|]. unfold config_value.
    eapply does_bind_nil; [apply does_run; rewrite opt_spec, literal_cons_ne by done; done|]. cbv beta iota.
    eapply (does_bind _ _ [Value []]); [apply does_dispatch|apply does_ret].
Qed.
(** Where a section ends, or a key begins. *)
Definition at_boundary (i : bytes) : Prop := i = [] ∨ ∃ b t, i = b :: t ∧ (b = 9 ∨ b = ch "[").
Lemma boundary_no_head f i : f 9 = false → f (ch "[") = false → at_boundary i → no_head f i.
Proof. intros H1 H2 [->|(b & t & -> & [-> | ->])]; done. Qed.
Lemma loop_newline fuel i es a : at_boundary i → does (section_loop fuel i) es a → does (section_loop (S fuel) (10 :: i)) (Newline [10] :: es) a.
Proof.
  intros Hi Hd. cbn [section_loop]. eapply does_bind_nil; [by apply does_opt_none, spaces_none|].
  eapply (does_bind _ _ [Newline [10]]); [apply does_opt; by apply newlines_read, boundary_no_head|].
  eapply does_bind_nil; [by apply pair_none, boundary_no_head|]. eapply does_bind_nil; [by apply does_opt_none, comment_none, boundary_no_head|].
  replace (offset_from i (10 :: i)) with 1%nat by (unfold offset_from; cbn [length]; lia). exact Hd.
Qed.
Lemma loop_pair fuel k v i es a : is_valid_value_name k = true → does (section_loop fuel (10 :: i)) es a →
  does (section_loop (S fuel) (text (kv_events k v) ++ 10 :: i)) (kv_events k v ++ es) a.
Proof.
  intros Hk Hd. cbn [section_loop]. change (text (kv_events k v) ++ 10 :: i) with ([9] ++ text (drop 1 (kv_events k v)) ++ 10 :: i).
  change (kv_events k v ++ es) with ([Whitespace [9]] ++ drop 1 (kv_events k v) ++ es).
  assert (Hname : ∃ b t, text (drop 1 (kv_events k v)) ++ 10 :: i = b :: t ∧ is_ascii_alphabetic b = true).
  { unfold is_valid_value_name in Hk. apply andb_true_iff in Hk as [_ Hk]. destruct k as [|b k]; [done|]. by eexists b, _. }
  assert (Hno : ∀ f, (∀ b, is_ascii_alphabetic b = true → f b = false) → no_head f (text (drop 1 (kv_events k v)) ++ 10 :: i)).
  { intros f Hf. destruct Hname as (b & t & -> & Hb). by apply Hf. }
  eapply does_bind; [apply does_opt, spaces_read; [done|by repeat constructor|apply Hno]|].
  { intros b Hb. unfold is_space. apply orb_false_iff. rewrite !Z.eqb_neq. split; intros ->; done. }
  eapply does_bind_nil; [apply does_opt_none, newlines_none, Hno|].
  { intros b Hb. unfold starts_newline. apply orb_false_iff. rewrite !Z.eqb_neq. split; intros ->; done. }
  eapply does_bind; [by apply pair_read|]. eapply does_bind_nil; [by apply does_opt_none, comment_none|].
  destruct (Nat.eqb_spec (offset_from (10 :: i) ([9] ++ text (drop 1 (kv_events k v)) ++ 10 :: i)) 0) as [E|_]; [|exact Hd].
  exfalso. unfold offset_from in E. rewrite !length_app in E. cbn [length] in E. lia.
Qed.
Lemma loop_end fuel i : i = [] ∨ head i = Some (ch "[") → does (section_loop fuel i) [] i.
Proof.
  intros Hi. assert (Hb : at_boundary i) by (destruct Hi as [->|Hi]; [by left|right; destruct i; [done|injection Hi as ->; eauto]]).
  destruct fuel; cbn [section_loop]; (eapply does_bind_nil; [by apply does_opt_none, spaces_none; destruct Hi as [->|Hi]; [|destruct i; [|injection Hi as ->]]|]);
    (eapply does_bind_nil; [by apply does_opt_none, newlines_none, boundary_no_head|]); (eapply does_bind_nil; [by apply pair_none, boundary_no_head|]);
    (eapply does_bind_nil; [by apply does_opt_none, comment_none, boundary_no_head|]); unfold offset_from; rewrite Nat.sub_diag; apply does_ret.
Qed.
(** The body of a section to which keys were pushed. *)
Definition body_events (kvs : list (bytes * option bytes)) : list Event := Newline [10] :: concat ((λ '(k, v), kv_events k v ++ [Newline [10]]) <$> kvs).
Lemma events_text_app es es' : text (es ++ es') = text es ++ text es'.
Proof. unfold text. by rewrite fmap_app, concat_app. Qed.
Lemma section_body_read kvs fuel rest : Forall (λ kv, is_valid_value_name kv.1 = true) kvs → rest = [] ∨ head rest = Some (ch "[") →
  (length (text (body_events kvs)) ≤ fuel)%nat → does (section_loop fuel (text (body_events kvs) ++ rest)) (body_events kvs) rest.
Proof.
  intros Hk Hr. revert fuel. induction Hk as [|[k v] kvs Hk _ IH]; intros fuel Hf.
  - destruct fuel as [|fuel]; [cbn in Hf; lia|]. change (text (body_events []) ++ rest) with (10 :: rest). apply loop_newline; [|by apply loop_end].
    destruct Hr as [->|Hr]; [by left|right; destruct rest; [done|injection Hr as ->; eauto]].
  - unfold body_events in *. cbn [fmap list_fmap concat] in *. cbn [fst] in Hk.
    change (Newline [10] :: (kv_events k v ++ [Newline [10]]) ++ ?x) with ([Newline [10]] ++ (kv_events k v ++ [Newline [10]]) ++ x) in Hf.
    set (tl := concat ((λ '(k, v), kv_events k v ++ [Newline [10]]) <$> kvs)) in *. rewrite !events_text_app, !length_app in Hf. cbn [text] in Hf.
    rewrite <- app_assoc. change (text (Newline [10] :: kv_events k v ++ [Newline [10]] ++ tl) ++ rest)
      with (10 :: text (kv_events k v ++ [Newline [10]] ++ tl) ++ rest).
    rewrite events_text_app, <- app_assoc. change (text ([Newline [10]] ++ tl) ++ rest) with (10 :: text tl ++ rest).
    change (length (text (Newline [10] :: tl))) with (S (length (text tl))) in IH. change (length (text [Newline [10]])) with 1%nat in Hf.
    destruct fuel as [|[|fuel]]; [lia|lia|]. apply loop_newline; [right; eexists 9, _; split; [done|by left]|].
    apply loop_pair; [done|].
    apply IH. assert (1 ≤ length (text (kv_events k v)))%nat by (cbn; lia). lia.
Qed.

(** *** Headers *)

Lemma unescaped_or_special b : b ≠ 10 → b ≠ 0 → is_subsection_unescaped_char b = false → b = 92 ∨ b = 34.
Proof. intros H1 H2. unfold is_subsection_unescaped_char. rewrite !andb_false_iff, !negb_false_iff, !Z.eqb_eq. tauto. Qed.
(** The bytes of a name, escaped one after the other. *)
Definition escaped_subsection (n : bytes) : bytes := concat (escape_subsection_byte <$> n).
Lemma escape_subsection_spec n : escape_subsection n = escaped_subsection n.
Proof.
  unfold escape_subsection, escaped_subsection. destruct (existsb _ n) eqn:E; [done|]. induction n as [|b n IH]; [done|].
  cbn in E. apply orb_false_iff in E as [[E1 E2]%orb_false_iff E]. cbn. unfold escape_subsection_byte at 1. rewrite E1, E2. cbn. by rewrite <- IH.
Qed.
Lemma escaped_subsection_app a b : escaped_subsection (a ++ b) = escaped_subsection a ++ escaped_subsection b.
Proof. unfold escaped_subsection. by rewrite fmap_app, concat_app. Qed.
Lemma escape_plain s : Forall (λ b, is_subsection_unescaped_char b = true) s → escaped_subsection s = s.
Proof.
  induction 1 as [|b s Hb _ IH]; [done|]. change (escaped_subsection (b :: s)) with (escaped_subsection ([b] ++ s)). rewrite escaped_subsection_app, IH.
  unfold is_subsection_unescaped_char in Hb. unfold escaped_subsection, escape_subsection_byte. cbn. destruct (b =? 92), (b =? 34); try done; by destruct (b =? 10).
Qed.
Definition subsection_ok (s : bytes) : Prop := Forall (λ b, b ≠ 10 ∧ b ≠ 0) s.
(** The first part that is taken of an escaped name: characters up to the next
    one that is escaped, or that one. *)
Lemma subset_read s rest : subsection_ok s → s ≠ [] →
  ∃ a b, s = a ++ b ∧ a ≠ [] ∧ subsection_subset (escaped_subsection s ++ 34 :: rest) = Ok (a, escaped_subsection b ++ 34 :: rest).
Proof.
  intros Hs Hne. set (n := count_while is_subsection_unescaped_char s). rewrite <- (take_drop n s) in Hs. apply Forall_app in Hs as [_ Hs].
  destruct (decide (n = 0%nat)) as [En|En].
  - destruct s as [|b s]; [done|]. rewrite En in Hs. cbn in Hs. apply Forall_cons in Hs as [[H1 H2] _].
    assert (Hb : is_subsection_unescaped_char b = false) by (unfold n in En; cbn in En; by destruct (is_subsection_unescaped_char b)).
    exists [b], s. split_and!; [done|done|]. apply unescaped_or_special in Hb; [|done|done].
    assert (E : escaped_subsection (b :: s) ++ 34 :: rest = 92 :: b :: escaped_subsection s ++ 34 :: rest) by (destruct Hb as [-> | ->]; done).
    rewrite E. unfold subsection_subset. rewrite alt_spec. unfold subsection_unescaped. rewrite take_while_spec. cbn [count_while].
    change (is_subsection_unescaped_char 92) with false. cbn match. cbv zeta. cbn [Nat.leb].
    unfold subsection_escaped_char. rewrite preceded_spec, literal_one. winnow_run. rewrite taken_spec, one_of_spec.
    assert (He : is_subsection_escapable_char b = true) by (destruct Hb as [-> | ->]; done). rewrite He. winnow_run. cbn [length].
    set (t := escaped_subsection s ++ 34 :: rest). by replace (S (length t) - length t)%nat with 1%nat by lia.
  - exists (take n s), (drop n s). rewrite take_drop. split_and!; [done| |].
    + intros E. apply (f_equal length) in E. rewrite length_take in E. cbn in E. unfold n in *. pose proof (count_while_le is_subsection_unescaped_char s). lia.
    + rewrite <- (take_drop n s) at 1. rewrite escaped_subsection_app, escape_plain by apply count_while_take. rewrite <- app_assoc.
      unfold subsection_subset. rewrite alt_spec. unfold subsection_unescaped. rewrite (take_while_app 1); [done| |apply count_while_take|].
      * rewrite length_take. unfold n in *. pose proof (count_while_le is_subsection_unescaped_char s). lia.
      * assert (Hd : no_head is_subsection_unescaped_char (drop n s)).
        { unfold n. clear. induction s as [|b s IH]; [done|]. cbn. destruct (is_subsection_unescaped_char b) eqn:E; [apply IH|exact E]. }
        destruct (drop n s) as [|b t]; [done|]. apply Forall_cons in Hs as [[H1 H2] _]. cbn in Hd. apply unescaped_or_special in Hd; [|done|done].
        by destruct Hd as [-> | ->].
Qed.
Lemma subset_stop rest : subsection_subset (34 :: rest) = Err Backtrack.
Proof.
  unfold subsection_subset, subsection_unescaped, subsection_escaped_char. rewrite alt_spec, take_while_spec, preceded_spec, literal_cons_ne by done. done.
Qed.
Lemma sub_section_loop_read s fuel out rest : subsection_ok s → (length s ≤ fuel)%nat →
  sub_section_loop fuel out (escaped_subsection s ++ 34 :: rest) = Ok (out ++ s, 34 :: rest).
Proof.
  remember (length s) as n eqn:Hn. revert s Hn fuel out. induction n as [n IH] using lt_wf_ind. intros s -> fuel out Hs Hf.
  destruct (decide (s = [])) as [->|Hne].
  - cbn [escaped_subsection fmap list_fmap concat app]. rewrite app_nil_r. destruct fuel; cbn [sub_section_loop]; by rewrite opt_spec, subset_stop.
  - destruct (subset_read s rest Hs Hne) as (a & b & -> & Ha & E). apply Forall_app in Hs as [_ Hs].
    assert (Hl : (length b < length (a ++ b))%nat) by (rewrite length_app; destruct a; [done|cbn; lia]).
    destruct fuel as [|fuel]; [lia|]. cbn [sub_section_loop]. rewrite opt_spec, E. winnow_run. rewrite (IH (length b)) by (done || lia). by rewrite <- app_assoc.
Qed.
Lemma escape_length s : (length s ≤ length (escaped_subsection s))%nat.
Proof.
  induction s as [|b s IH]; [done|]. change (escaped_subsection (b :: s)) with (escaped_subsection ([b] ++ s)). rewrite escaped_subsection_app, length_app. cbn [length].
  assert (1 ≤ length (escaped_subsection [b]))%nat; [|lia]. unfold escaped_subsection, escape_subsection_byte. cbn. repeat case_match; cbn; lia.
Qed.
Lemma sub_section_read s rest : subsection_ok s → sub_section (escaped_subsection s ++ 34 :: rest) = Ok (s, 34 :: rest).
Proof.
  intros Hs. unfold sub_section. rewrite opt_spec. destruct (decide (s = [])) as [->|Hne].
  - cbn [escaped_subsection fmap list_fmap concat app]. rewrite subset_stop. winnow_run. unfold default. cbn [from_option].
    apply (sub_section_loop_read [] _ [] rest Hs). cbn. lia.
  - destruct (subset_read s rest Hs Hne) as (a & b & -> & Ha & E). apply Forall_app in Hs as [_ Hs]. rewrite E. winnow_run. unfold default. cbn [from_option id].
    rewrite sub_section_loop_read; [done|done|]. rewrite length_app. pose proof (escape_length b). lia.
Qed.
(** A header that [Header::new] makes is read back, if it has a name. *)
Lemma section_header_read n subsection h rest : header_new n subsection = Ok h → n ≠ [] → section_header (header_write_to h ++ rest) = Ok (h, rest).
Proof.
  unfold header_new, validated_name. destruct (forallb _ n) eqn:Hn; [|done]. cbn [mbind res_bind]. rewrite forallb_Forall in Hn. intros Hh Hne.
  assert (Hsec : Forall (λ b, is_section_char b = true) n).
  { eapply Forall_impl; [exact Hn|]. intros b Hb. unfold is_section_char. by rewrite Hb. }
  assert (Hdot : bstr.rfind_byte n (ch ".") = None).
  { rewrite bstr.rfind_byte_spec. apply rfind_index_none. eapply Forall_impl; [exact Hn|]. intros b Hb. apply Z.eqb_neq. by intros <-. }
  assert (Hname : ∀ c t, is_section_char c = false → preceded (literal [ch "["]) (take_while 1 None is_section_char) (ch "[" :: n ++ c :: t) = Ok (n, c :: t)).
  { intros c t Hc. rewrite preceded_spec, literal_one. winnow_run. apply take_while_app; [destruct n; [done|cbn; lia]|done|done]. }
  unfold section_header. destruct subsection as [s|].
  - unfold validated_subsection in Hh. destruct (is_valid_subsection s) eqn:Hs; [|done]. injection Hh as <-.
    unfold header_write_to. cbn [name separator subsection_name]. rewrite bool_decide_eq_false_2, escape_subsection_spec by done.
    rewrite <- !app_assoc. cbn [app]. rewrite Hname by done. winnow_run. rewrite opt_spec, one_of_spec. change (ch "]" =? 32) with false. winnow_run.
    rewrite map_spec, pair_spec. assert (Hsp : ∀ t, take_spaces1 (32 :: 34 :: t) = Ok ([32], 34 :: t)).
    { intros t. apply (spaces_read [32]); [done|by repeat constructor|done]. }
    rewrite Hsp. winnow_run.
    rewrite delimited_spec, literal_one. winnow_run. rewrite opt_spec, sub_section_read.
    + winnow_run. change (34 :: 93 :: rest) with ([34; 93] ++ rest). rewrite literal_app. by winnow_run.
    + unfold is_valid_subsection in Hs. apply bool_decide_eq_true in Hs. rewrite bstr.find_byteset_spec in Hs. apply find_index_None in Hs.
      eapply Forall_impl; [exact Hs|]. intros b Hb. cbv beta in Hb. apply not_true_iff_false in Hb. rewrite mem_spec in Hb. set_solver.
  - injection Hh as <-. unfold header_write_to. cbn [name separator subsection_name]. rewrite <- !app_assoc. cbn [app]. rewrite Hname by done. winnow_run.
    rewrite opt_spec, one_of_spec, Z.eqb_refl. winnow_run. rewrite Hdot. winnow_run. cbn [name]. by rewrite bool_decide_eq_false_2.
Qed.

(** *** Files *)

Definition new_section (kvs : list (bytes * option bytes)) : SectionMut :=
  foldl (λ s '(k, v), push s k v) (push_newline (section_mut_new [] [10])) kvs.
Lemma pushed_body kvs : sbody (new_section kvs) = body_events kvs.
Proof.
  unfold new_section, body_events. set (s0 := push_newline _). change (Newline [10] :: ?l) with (sbody s0 ++ l).
  assert (H : swhitespace s0 = whitespace_default ∧ implicit_newline s0 = true ∧ snewline s0 = [10]) by done. clearbody s0. revert s0 H.
  induction kvs as [|[k v] kvs IH]; intros s0 (Hw & Hi & Hn); cbn [foldl fmap list_fmap concat]; [by rewrite app_nil_r|].
  rewrite (IH (push s0 k v)) by done. unfold push, push_with_comment_inner. cbn [sbody with_body]. rewrite Hw, Hi, Hn, <- !app_assoc. by destruct v.
Qed.
Lemma lines_written kvs : write_loop [10] true false (concat ((λ '(k, v), kv_events k v ++ [Newline [10]]) <$> kvs)) =
  text (concat ((λ '(k, v), kv_events k v ++ [Newline [10]]) <$> kvs)).
Proof.
  induction kvs as [|[k v] kvs IH]; [done|]. cbn [fmap list_fmap concat]. rewrite events_text_app, <- IH.
  destruct v as [v|]; cbn; rewrite ?app_nil_r, <- ?app_assoc; cbn; rewrite <- ?app_assoc; done.
Qed.
Lemma section_written h kvs : section_write_to h (body_events kvs) = header_write_to h ++ text (body_events kvs).
Proof.
  unfold section_write_to, body_events. f_equal. change (first_newline _) with [10]. cbn [take_until_name is_value_name existsb].
  replace (bstr.find _ _) with (Some 0%nat) by (symmetry; by rewrite bstr.find_spec). cbn [app orb write_loop is_newline]. by rewrite lines_written.
Qed.
(** The sections of a file: a header, and what was pushed. *)
Definition file_ok (f : Header * list (bytes * option bytes)) : Prop :=
  (∃ n subsection, header_new n subsection = Ok f.1 ∧ n ≠ []) ∧ Forall (λ kv, is_valid_value_name kv.1 = true) f.2.
Definition file_text (fs : list (Header * list (bytes * option bytes))) : bytes :=
  concat ((λ '(h, kvs), section_write_to h (sbody (new_section kvs))) <$> fs).
Definition section_events (f : Header * list (bytes * option bytes)) : list Event := SectionHeader f.1 :: body_events f.2.
Lemma file_text_cons h kvs fs : file_text ((h, kvs) :: fs) = header_write_to h ++ text (body_events kvs) ++ file_text fs.
Proof. unfold file_text. cbn [fmap list_fmap concat]. by rewrite pushed_body, section_written, <- app_assoc. Qed.
Lemma file_text_head fs : file_text fs = [] ∨ head (file_text fs) = Some (ch "[").
Proof. destruct fs as [|[h kvs] fs]; [by left|]. right. by rewrite file_text_cons. Qed.
Lemma section_read h kvs rest : file_ok (h, kvs) → rest = [] ∨ head rest = Some (ch "[") →
  does (section (header_write_to h ++ text (body_events kvs) ++ rest)) (section_events (h, kvs)) rest.
Proof.
  intros [(n & sub & Hh & Hn) Hk] Hr. unfold section. eapply does_bind_nil; [apply does_run; by eapply section_header_read|]. cbv beta iota.
  unfold section_events. cbn [fst snd]. change (SectionHeader h :: ?l) with ([SectionHeader h] ++ l). eapply does_bind; [apply does_dispatch|].
  apply section_body_read; [done|done|]. rewrite length_app. lia.
Qed.
Lemma section_longer h kvs rest : (length rest < length (header_write_to h ++ text (body_events kvs) ++ rest))%nat.
Proof. rewrite !length_app. cbn [length header_write_to app]. lia. Qed.
Lemma sections_read fs st l : Forall file_ok fs →
  ∃ st' l' us, repeat_mut 0 section_closure (st, l) (file_text fs) = ((st', l'), Ok (us, [])) ∧ events st' = events st ++ concat (section_events <$> fs).
Proof.
  intros Hfs. revert st l. induction Hfs as [|[h kvs] fs Hf _ IH]; intros st l; rewrite repeat_mut_0_spec.
  - destruct (closure_empty st l) as [i Hi]. change (file_text []) with (@nil Z). rewrite Hi. exists st, i, []. by rewrite app_nil_r.
  - rewrite file_text_cons. unfold section_closure at 1. destruct (section_read h kvs (file_text fs) Hf (file_text_head fs) st) as [n ->].
    rewrite (proj2 (Nat.ltb_lt _ _)) by apply section_longer. cbn [fst].
    destruct (IH (mkSt (events st ++ section_events (h, kvs)) n) (file_text fs)) as (st' & l' & us & -> & E). cbn [mbind res_bind].
    exists st', l', (tt :: us). split; [done|]. rewrite E. cbn [events fmap list_fmap concat]. by rewrite <- app_assoc.
Qed.
Lemma front_none i : i = [] ∨ head i = Some (ch "[") → front_matter i = Ok ([], i).
Proof.
  intros Hi. assert (H : ∀ f, f (ch "[") = false → no_head f i) by (intros f Hf; destruct Hi as [->|Hi]; [|destruct i; [|injection Hi as ->]]; done).
  unfold front_matter. apply repeat_0_stop. rewrite !alt_spec, !map_spec, comment_none by by apply H. cbn [mbind res_bind].
  rewrite spaces_none by by apply H. cbn [mbind res_bind]. by rewrite newlines_none by by apply H.
Qed.
Lemma collect_body keep h es s : Forall (λ e, match e with SectionHeader _ => False | _ => keep e = true end) es → es_header s = Some h →
  foldl (collect_event keep) s es = mkEventsSt (Some h) (es_events s ++ es) (es_front s) (es_sections s).
Proof.
  intros Hes. revert s. induction Hes as [|e es He _ IH]; intros s Hh; cbn [foldl]; [destruct s; cbn in *; subst; by rewrite app_nil_r|].
  assert (E : collect_event keep s e = mkEventsSt (Some h) (es_events s ++ [e]) (es_front s) (es_sections s)).
  { destruct e; try done; unfold collect_event; rewrite He, Hh; done. }
  rewrite E, IH by done. cbn. by rewrite <- app_assoc.
Qed.
Lemma body_events_kept kvs : Forall (λ e, match e with SectionHeader _ => False | _ => true = true end) (body_events kvs).
Proof.
  unfold body_events. constructor; [done|]. induction kvs as [|[k v] kvs IH]; [constructor|]. cbn [fmap list_fmap concat]. apply Forall_app. split; [|exact IH].
  destruct v; repeat constructor.
Qed.
Lemma collect_sections fs s h : es_header s = Some h →
  let s' := foldl (collect_event (λ _, true)) s (concat (section_events <$> fs)) in
  ∃ h', es_header s' = Some h' ∧ es_front s' = es_front s ∧
    es_sections s' ++ [(h', es_events s')] = es_sections s ++ [(h, es_events s)] ++ ((λ f, (f.1, body_events f.2)) <$> fs).
Proof.
  revert s h. induction fs as [|[h1 kvs] fs IH]; intros s h Hh; cbn [fmap list_fmap concat foldl section_events fst snd].
  - exists h. by rewrite app_nil_r.
  - cbn [app foldl]. rewrite foldl_app. 
    assert (E : collect_event (λ _, true) s (SectionHeader h1) = mkEventsSt (Some h1) [] (es_front s) (es_sections s ++ [(h, es_events s)])).
    { unfold collect_event. by rewrite Hh. }
    change (foldl ?f s (section_events (h1, kvs))) with (foldl f (f s (SectionHeader h1)) (body_events kvs)).
    rewrite E, (collect_body _ h1 (body_events kvs)); [|apply body_events_kept|done]. cbn [es_events es_front es_sections app].
    destruct (IH (mkEventsSt (Some h1) (body_events kvs) (es_front s) (es_sections s ++ [(h, es_events s)])) h1 eq_refl) as (h' & E1 & E2 & E3).
    exists h'. split_and!; [done|done|]. rewrite E3. cbn. by rewrite <- !app_assoc.
Qed.
Lemma events_read bom_len fs : (∀ i, (bom_len i ≤ length i)%nat ∧ (head i = Some (ch "[") → bom_len i = 0%nat)) → Forall file_ok fs →
  events_from_bytes bom_len None (file_text fs) = Ok (mkEvents [] ((λ f, (f.1, body_events f.2)) <$> fs)).
Proof.
  intros Hbom Hfs. assert (Hb : bom_len (file_text fs) = 0%nat).
  { destruct (file_text_head fs) as [E|E]; [|by apply Hbom]. rewrite E. destruct (Hbom []) as [H _]. cbn in H. lia. }
  unfold events_from_bytes, from_bytes. rewrite Hb, slice_from_le by lia. rewrite drop_0. destruct Hfs as [|[h kvs] fs Hf Hfs].
  - change (file_text []) with (@nil Z). rewrite front_none by by left. done.
  - assert (Hh : head (file_text ((h, kvs) :: fs)) = Some (ch "[")) by (by rewrite file_text_cons). rewrite (front_none _ (or_intror Hh)).
    rewrite bool_decide_eq_false_2 by (by intros E; rewrite E in Hh). rewrite repeat_mut_S_spec, file_text_cons. unfold section_closure at 1.
    destruct (section_read h kvs (file_text fs) Hf (file_text_head fs) (mkSt [] NodeSectionHeader)) as [n ->].
    rewrite (proj2 (Nat.ltb_lt _ _)) by apply section_longer. cbn [fst Nat.sub].
    destruct (sections_read fs (mkSt (events (mkSt [] NodeSectionHeader) ++ section_events (h, kvs)) n) (file_text fs) Hfs) as (st' & l' & us & -> & E).
    cbn [mbind res_bind]. rewrite E. cbn [events app default from_option]. rewrite bool_decide_eq_true_2 by done. cbn [mbind res_bind].
    rewrite foldl_app. change (foldl ?f ?s (section_events (h, kvs))) with (foldl f (mkEventsSt (Some h) [] [] []) (body_events kvs)).
    rewrite (collect_body _ h (body_events kvs)); [|apply body_events_kept|done]. cbn [es_events es_front es_sections app].
    destruct (collect_sections fs (mkEventsSt (Some h) (body_events kvs) [] []) h eq_refl) as (h' & E1 & E2 & E3). rewrite E1, E2. cbn in E3. by rewrite E3.
Qed.

(** *** Reading what was pushed *)

Lemma values_read kvs k : values (body_events kvs) k = Ok (omap (λ '(n, v), if same_name n k then Some (default [] v) else None) kvs).
Proof.
  unfold values, body_events. cbn [values_loop]. induction kvs as [|[n v] kvs IH]; [done|]. cbn [fmap list_fmap concat omap list_omap].
  set (tl := concat _) in *. assert (Hl : ∀ b es, values_loop k b [] ((match v with Some v => [Whitespace [32]; KeyValueSeparator; Whitespace [32]; Value (escape_value v)]
      | None => [Value []] end ++ [Newline [10]]) ++ es) =
    vs ← values_loop k false [] es; Ok ((if b then [default [] v] else []) ++ vs)).
  { intros [] es; destruct v as [v|]; cbn; rewrite ?normalize_escaped, ?normalize_unescapes; cbn; try done; by destruct (values_loop k false [] es). }
  unfold kv_events. rewrite <- !app_assoc. cbn [app values_loop]. change (Newline [10] :: tl) with ([Newline [10]] ++ tl). rewrite (app_assoc _ [Newline [10]]), Hl, IH. cbn. by destruct (same_name n k).
Qed.
(** The events of the keys before this one, and of this one. *)
Lemma body_events_snoc kvs n v : body_events (kvs ++ [(n, v)]) = body_events kvs ++ kv_events n v ++ [Newline [10]].
Proof. unfold body_events. rewrite fmap_app, concat_app. cbn. by rewrite app_nil_r. Qed.
Lemma enumerate_events_app a b : enumerate_events (a ++ b) = enumerate_events a ++ zip (seq (length a) (length b)) b.
Proof.
  cut (∀ m, zip (seq m (length (a ++ b))) (a ++ b) = zip (seq m (length a)) a ++ zip (seq (m + length a) (length b)) b); [intros H; apply (H 0%nat)|].
  induction a as [|e a IH]; intros m; cbn; [by rewrite Nat.add_0_r|]. f_equal. rewrite <- Nat.add_succ_comm. apply IH.
Qed.
Lemma key_range_line kvs n v k : let p := length (body_events kvs) in
  key_range_loop k (rev (enumerate_events (body_events (kvs ++ [(n, v)])))) 0 0 =
    if same_name n k then Some (S p, match v with Some _ => ((p + 5)%nat, (p + 5)%nat) | None => ((p + 2)%nat, (p + 2)%nat) end)
    else key_range_loop k (rev (enumerate_events (body_events kvs))) 0 0.
Proof.
  cbv zeta. rewrite body_events_snoc, enumerate_events_app, rev_app_distr. generalize (length (body_events kvs)) as p. intros p.
  replace (p + 5)%nat with (S (S (S (S (S p))))) by lia. replace (p + 2)%nat with (S (S p)) by lia.
  destruct v as [v|]; cbn; destruct (same_name n k); done.
Qed.
Lemma slice_line es n v rest p : p = length es →
  slice (E := Empty_set) (es ++ kv_events n (Some v) ++ rest) (p + 5) (S (p + 5)) = Ok [Value (escape_value v)].
Proof.
  intros ->. unfold kv_events. change (es ++ (?l ++ ?l') ++ rest) with (es ++ ([Whitespace [9]; SectionValueName n; Whitespace [32]; KeyValueSeparator; Whitespace [32]] ++ [Value (escape_value v)]) ++ rest).
  rewrite <- app_assoc, (app_assoc es). apply slice_app; rewrite !length_app; cbn; lia.
Qed.
(** The last of the values. *)
Definition last_value (kvs : list (bytes * option bytes)) (k : bytes) : option (option bytes) :=
  last (omap (λ '(n, v), if same_name n k then Some v else None) kvs).
Lemma last_value_snoc kvs n v k : last_value (kvs ++ [(n, v)]) k = if same_name n k then Some v else last_value kvs k.
Proof. unfold last_value. rewrite omap_app. cbn. destruct (same_name n k); [by rewrite last_snoc|by rewrite app_nil_r]. Qed.
Lemma value_implicit_app body rest k (x : option (option bytes)) : value_implicit body k = Ok x →
  key_range_loop k (rev (enumerate_events (body ++ rest))) 0 0 = key_range_loop k (rev (enumerate_events body)) 0 0 →
  value_implicit (body ++ rest) k = Ok x.
Proof.
  unfold value_implicit, key_and_value_range_by. intros H ->. destruct (key_range_loop _ _ _ _) as [[ks [a b]]|]; [|done].
  cbv zeta in *. destruct (_ =? _)%nat; [done|]. unfold slice, get_range in *. destruct (Nat.leb_spec (S b) (length body)) as [Hb|Hb];
    [|by rewrite andb_false_r in H]. rewrite length_app, (proj2 (Nat.leb_le (S b) (_ + _))) by lia. destruct (Nat.leb_spec a (S b)) as [Ha|Ha]; [|done].
  cbn [andb] in *. by rewrite drop_app_le, take_app_le by (rewrite ?length_drop; lia).
Qed.
Lemma value_read_implicit kvs k : value_implicit (body_events kvs) k = Ok (last_value kvs k).
Proof.
  induction kvs as [|[n v] kvs IH] using rev_ind; [done|]. rewrite last_value_snoc. pose proof (key_range_line kvs n v k) as E. cbv zeta in E.
  destruct (same_name n k) eqn:En.
  - unfold value_implicit, key_and_value_range_by. rewrite E. destruct v as [v|]; cbv zeta.
    + rewrite (proj2 (Nat.eqb_neq _ _)) by lia. rewrite body_events_snoc, slice_line by done. cbn [mbind res_bind concat_value]. by rewrite normalize_escaped.
    + by rewrite (proj2 (Nat.eqb_eq _ _)) by lia.
  - rewrite body_events_snoc in *. by apply value_implicit_app.
Qed.

(** *** Changing what was pushed *)

Lemma new_section_body kvs : new_section kvs = mkSectionMut (body_events kvs) true whitespace_default [10].
Proof.
  rewrite <- pushed_body. unfold new_section. set (s0 := push_newline _).
  assert (H : s0 = mkSectionMut (sbody s0) true whitespace_default [10]) by done. clearbody s0. revert s0 H.
  induction kvs as [|[k v] kvs IH]; intros s0 H; [exact H|]. cbn [foldl]. apply IH. by rewrite H.
Qed.
Lemma push_new kvs k v : push (new_section kvs) k v = new_section (kvs ++ [(k, v)]).
Proof. unfold new_section. by rewrite foldl_app. Qed.
Lemma body_events_line pre n v post :
  body_events (pre ++ (n, v) :: post) = body_events pre ++ kv_events n v ++ Newline [10] :: drop 1 (body_events post).
Proof. unfold body_events. rewrite fmap_app, concat_app. cbn. by rewrite <- app_assoc. Qed.
Lemma body_events_app pre post : body_events (pre ++ post) = body_events pre ++ drop 1 (body_events post).
Proof. unfold body_events. by rewrite fmap_app, concat_app. Qed.
(** No line has this name. *)
Definition no_key (k : bytes) (kvs : list (bytes * option bytes)) : Prop := Forall (λ kv, same_name kv.1 k = false) kvs.
Lemma key_range_none k kvs : no_key k kvs → key_and_value_range_by (body_events kvs) k = None.
Proof.
  unfold key_and_value_range_by. intros Hk. cut (key_range_loop k (rev (enumerate_events (body_events kvs))) 0 0 = None); [by intros ->|].
  induction kvs as [|[n v] kvs IH] using rev_ind; [done|]. apply Forall_app in Hk as [Hk [Hn _]%Forall_cons].
  rewrite key_range_line. cbn [fst] in Hn. rewrite Hn. by apply IH.
Qed.
Lemma key_range_last pre n v post k : same_name n k = true → no_key k post → let p := length (body_events pre) in
  key_and_value_range_by (body_events (pre ++ (n, v) :: post)) k =
    Some (match v with Some _ => ((S p, S (p + 5)), Some ((p + 5)%nat, S (p + 5))) | None => ((S p, S (p + 2)), None) end).
Proof.
  cbv zeta. unfold key_and_value_range_by. intros Hn Hk.
  cut (key_range_loop k (rev (enumerate_events (body_events (pre ++ (n, v) :: post)))) 0 0 =
    Some (S (length (body_events pre)), match v with Some _ => ((length (body_events pre) + 5)%nat, (length (body_events pre) + 5)%nat)
      | None => ((length (body_events pre) + 2)%nat, (length (body_events pre) + 2)%nat) end)).
  { intros ->. cbv zeta. destruct v; [rewrite (proj2 (Nat.eqb_neq _ _)) by lia|rewrite (proj2 (Nat.eqb_eq _ _)) by lia]; done. }
  induction post as [|[n' v'] post IH] using rev_ind; [by rewrite key_range_line, Hn|]. apply Forall_app in Hk as [Hk [Hn' _]%Forall_cons].
  rewrite app_comm_cons, app_assoc, key_range_line. cbn [fst] in Hn'. rewrite Hn'. by apply IH.
Qed.
Lemma vec_insert_app {E A} (l : list A) x r i : i = length l → vec_insert (E := E) i x (l ++ r) = Ok (l ++ x :: r).
Proof. intros ->. unfold vec_insert. rewrite length_app, (proj2 (Nat.leb_le _ _)) by lia. by rewrite take_app_length, drop_app_length. Qed.
Lemma vec_remove_app {E A} (l : list A) x r i : i = length l → vec_remove (E := E) i (l ++ x :: r) = Ok (l ++ r).
Proof. intros ->. unfold vec_remove. rewrite length_app, (proj2 (Nat.ltb_lt _ _)) by (cbn; lia). by rewrite delete_middle. Qed.
Lemma vec_drain_app {E A} (l m r : list A) i j : i = length l → j = (length l + length m)%nat → vec_drain (E := E) i j (l ++ m ++ r) = Ok (m, l ++ r).
Proof.
  intros -> ->. unfold vec_drain. rewrite !length_app, !(proj2 (Nat.leb_le _ _)) by lia. cbn [andb]. rewrite take_app_length, drop_app_length.
  replace (length l + length m - length l)%nat with (length m) by lia. rewrite take_app_length. by rewrite <- (length_app l m), app_assoc, drop_app_length.
Qed.
(** A key and its value are removed together with their line. *)
Lemma remove_line s pre m rest i j : i = S (length pre) → j = (S (length pre) + length m)%nat → sbody s = pre ++ [Whitespace [9]] ++ m ++ Newline [10] :: rest →
  remove_internal s (i, j) true = Ok (concat (value_text <$> m), with_body s (pre ++ rest)).
Proof.
  intros -> -> Hs. unfold remove_internal. rewrite Hs.
  replace (pre ++ [Whitespace [9]] ++ m ++ Newline [10] :: rest) with ((pre ++ [Whitespace [9]] ++ m) ++ Newline [10] :: rest) by (by rewrite <- !app_assoc).
  assert (Hl : (S (length pre) + length m)%nat = length (pre ++ [Whitespace [9]] ++ m)) by (rewrite !length_app; cbn; lia).
  rewrite Hl at 1. rewrite list_lookup_middle by done. cbn [is_newline andb]. rewrite (vec_remove_app _ _ _ _ Hl). cbn [mbind res_bind].
  replace ((pre ++ [Whitespace [9]] ++ m) ++ rest) with ((pre ++ [Whitespace [9]]) ++ m ++ rest) by (by rewrite <- !app_assoc).
  rewrite vec_drain_app by (rewrite length_app; cbn; lia). cbn [mbind res_bind Nat.eqb negb andb]. rewrite <- app_assoc, Nat.sub_succ, Nat.sub_0_r.
  cbn [app]. rewrite list_lookup_middle by done. cbn [is_whitespace_event]. by rewrite vec_remove_app.
Qed.
(** The value that is replaced, and the one that replaces it. *)
Lemma replace_value s pre e rest v i : i = length pre → sbody s = pre ++ e :: rest →
  ('(ret, s) ← remove_internal s (i, S i) false; events ← vec_insert i (Value (escape_value v)) (sbody s); Ok (Some ret, with_body s events)) =
    Ok (E := Empty_set) (Some (value_text e), with_body s (pre ++ Value (escape_value v) :: rest)).
Proof.
  intros -> Hs. unfold remove_internal. rewrite Hs. cbn [andb mbind res_bind]. change (e :: rest) with ([e] ++ rest).
  rewrite vec_drain_app by (cbn; lia). cbn [mbind res_bind sbody with_body]. rewrite vec_insert_app by done. cbn. by rewrite app_nil_r.
Qed.

Lemma set_replaces pre n old post k new : same_name n k = true → no_key k post →
  set (new_section (pre ++ (n, Some old) :: post)) k new = Ok (Some (escape_value old), new_section (pre ++ (n, Some new) :: post)).
Proof.
  intros Hn Hk. rewrite !new_section_body. unfold set. cbn [sbody]. rewrite (key_range_last pre n _ post k Hn Hk). unfold default. cbn [from_option fst id].
  erewrite (replace_value _ (body_events pre ++ take 5 (kv_events n (Some old)))); [|rewrite length_app; cbn; lia|cbn [sbody]; rewrite body_events_line; by rewrite <- app_assoc].
  unfold with_body. cbn [implicit_newline swhitespace snewline value_text]. do 3 f_equal. rewrite (body_events_line pre n (Some new) post), <- app_assoc. done.
Qed.
Lemma set_pushes kvs k new : no_key k kvs → set (new_section kvs) k new = Ok (None, new_section (kvs ++ [(k, Some new)])).
Proof. intros Hk. unfold set. rewrite new_section_body. cbn [sbody]. rewrite key_range_none by done. rewrite <- new_section_body. by rewrite push_new. Qed.

(** in a section to which values were pushed, removing a name removes the
    line that has it last, with its whitespace and its newline, and nothing
    else; setting it replaces the value of that line, or pushes a line where there
    is none. What is returned is the text of the old value as it was written. *)
Theorem section_set_remove pre n v post k :
  same_name n k = true → no_key k post →
  remove (new_section (pre ++ (n, v) :: post)) k = Ok (Some (match v with Some v => escape_value v | None => [] end), new_section (pre ++ post)) ∧
  (∀ old new, v = Some old → set (new_section (pre ++ (n, v) :: post)) k new = Ok (Some (escape_value old), new_section (pre ++ (n, Some new) :: post))) ∧
  (∀ new, set (new_section post) k new = Ok (None, new_section (post ++ [(k, Some new)])) ∧ remove (new_section post) k = Ok (None, new_section post)).
Proof.
  intros Hn Hk. split_and!.
  - rewrite !new_section_body. unfold remove. cbn [sbody]. rewrite (key_range_last pre n v post k Hn Hk), (body_events_app pre post).
    assert (Hr : ∀ i j, i = S (length (body_events pre)) → j = (i + length (drop 1 (kv_events n v)))%nat →
      remove_internal (mkSectionMut (body_events (pre ++ (n, v) :: post)) true whitespace_default [10]) (i, j) true =
        Ok (concat (value_text <$> drop 1 (kv_events n v)), mkSectionMut (body_events pre ++ drop 1 (body_events post)) true whitespace_default [10])).
    { intros i j -> ->. eapply remove_line; [done|done|]. cbn [sbody]. rewrite body_events_line. by destruct v. }
    destruct v as [v|]; cbv beta iota; rewrite Hr by (cbn; lia); cbn; by rewrite ?app_nil_r.
  - intros old new ->. by apply set_replaces.
  - intros new. split; [by apply set_pushes|]. unfold remove. rewrite new_section_body. cbn [sbody]. by rewrite key_range_none.
Qed.

(** C14: a file of sections that were made with valid headers and to which
    values were pushed is written as a text that is parsed into the same
    sections, with nothing before them: the quotes and escapes that are written
    for names of subsections and for values are the ones that are understood.
    Then every pushed value is read again as it was, in the order of the
    lines, and the last one, or that it has none, for a name that is there more than once. *)
Theorem config_write_read bom_len fs : (∀ i, (bom_len i ≤ length i)%nat ∧ (head i = Some (ch "[") → bom_len i = 0%nat)) → Forall file_ok fs →
  events_from_bytes bom_len None (file_text fs) = Ok (mkEvents [] ((λ '(h, kvs), (h, sbody (new_section kvs))) <$> fs)) ∧
  ∀ kvs k, values (sbody (new_section kvs)) k = Ok (omap (λ '(n, v), if same_name n k then Some (default [] v) else None) kvs) ∧
    value_implicit (sbody (new_section kvs)) k = Ok (last_value kvs k).
Proof.
  intros Hbom Hfs. split.
  - rewrite events_read by done. do 2 f_equal. apply list_fmap_ext. intros _ [h kvs] _. by rewrite pushed_body.
  - intros kvs k. rewrite pushed_body. split; [apply values_read|apply value_read_implicit].
Qed.
End WriteRead.

(** ** Examples *)

Section Examples.
#[local] Existing Instances bstr_impl bstr_impl_laws winnow_impl winnow_impl_laws.

Definition sample_remote : Header := mkHeader (bs "remote") (Some [32]) (Some (bs "a\b")).
Definition sample_core : Header := mkHeader (bs "core") None None.
Definition sample_urls : list (bytes * option bytes) := [(bs "url", Some (bs " x;y")); (bs "tag", None); (bs "URL", Some [34; 9])].
Definition sample_file : list (Header * list (bytes * option bytes)) := [(sample_remote, sample_urls); (sample_core, [])].
Example sample_file_text : file_text sample_file =
  bs "[remote " ++ [34] ++ bs "a\\b" ++ [34] ++ bs "]" ++ [10; 9] ++ bs "url = " ++ [34] ++ bs " x;y" ++ [34] ++ [10; 9] ++ bs "tag" ++ [10; 9] ++
  bs "URL = " ++ [34; 92; 34] ++ bs "\t" ++ [34; 10] ++ bs "[core]" ++ [10].
Proof. vm_compute. reflexivity. Qed.
Lemma sample_file_ok : Forall file_ok sample_file.
Proof.
  constructor; [|constructor; [|constructor]]; split.
  - exists (bs "remote"), (Some (bs "a\b")). split; [vm_compute; reflexivity|discriminate].
  - repeat constructor.
  - exists (bs "core"), None. split; [vm_compute; reflexivity|discriminate].
  - constructor.
Qed.
Lemma utf8_bom_ok i : (utf8_bom i ≤ length i)%nat ∧ (head i = Some (ch "[") → utf8_bom i = 0%nat).
Proof. split; [apply utf8_bom_le|]. unfold utf8_bom. destruct i as [|b i]; [done|]. by intros [= ->]. Qed.

(** A continued value at the end of a file: what was read of it is lost. *)
Example continued_value_lost : let body := [SectionValueName (bs "k"); KeyValueSeparator; ValueNotDone (bs "b"); Newline [10]; Value []] in
  value body (bs "k") = Ok (Some []) ∧ value (removelast body ++ [ValueDone []]) (bs "k") = Ok (Some (bs "b")).
Proof. split; by vm_compute. Qed.
(** Setting a name that has no separator gives a name that is longer. *)
Example set_without_separator :
  match set (section_mut_new [SectionValueName (bs "a"); Value []] [10]) (bs "a") (bs "x") with
  | Ok (_, s) => section_write_to sample_core (sbody s) = bs "[core]" ++ [10] ++ bs "ax"
  | _ => False
  end.
Proof. vm_compute. reflexivity. Qed.
(** The whitespace around the separator is swapped when a value is set again. *)
Example set_swaps_whitespace :
  let s := section_mut_new [SectionValueName (bs "a"); Whitespace [32]; KeyValueSeparator; Whitespace [9]; Value (bs "x")] [10] in
  match value_mut_set (mkValueMut s (bs "a") 0 5) (bs "y") with
  | Ok v => sbody (vsection v) = [SectionValueName (bs "a"); Whitespace [9]; KeyValueSeparator; Whitespace [32]; Value (bs "y")]
  | _ => False
  end.
Proof. vm_compute. reflexivity. Qed.
(** What [remove] returns is not what [pop] returns. *)
Example remove_is_raw : let s := new_section [(bs "a", Some [34])] in
  match remove s (bs "a"), pop s with
  | Ok (r, _), Ok (p, _) => r = Some [92; 34] ∧ p = Some (bs "a", [34])
  | _, _ => False
  end.
Proof. by vm_compute. Qed.

Lemma normalize_correct_witness :
  normalize ([34] ++ bs "a\n" ++ [34; 92; 34]) = Ok (unescape_loop [] ([34] ++ bs "a\n" ++ [34; 92; 34])) ∧ normalize (escape_value (bs " a#")) = Ok (bs " a#").
Proof. exact (normalize_correct ([34] ++ bs "a\n" ++ [34; 92; 34]) (bs " a#")). Defined.
Lemma config_write_read_witness :
  Forall file_ok sample_file ∧
  events_from_bytes utf8_bom None (file_text sample_file) = Ok (mkEvents [] ((λ '(h, kvs), (h, sbody (new_section kvs))) <$> sample_file)) ∧
  values (sbody (new_section sample_urls)) (bs "Url") = Ok [bs " x;y"; [34; 9]] ∧ value_implicit (sbody (new_section sample_urls)) (bs "tag") = Ok (Some None).
Proof.
  split; [apply sample_file_ok|]. destruct (config_write_read utf8_bom sample_file utf8_bom_ok sample_file_ok) as [H1 H2].
  split; [exact H1|]. split; [exact (proj1 (H2 sample_urls (bs "Url")))|exact (proj2 (H2 sample_urls (bs "tag")))].
Defined.
Lemma section_set_remove_witness :
  let s := new_section [(bs "a", Some (bs "1")); (bs "A", Some (bs "2")); (bs "b", None)] in
  remove s (bs "a") = Ok (Some (bs "2"), new_section [(bs "a", Some (bs "1")); (bs "b", None)]) ∧
  set s (bs "a") (bs "3") = Ok (Some (bs "2"), new_section [(bs "a", Some (bs "1")); (bs "A", Some (bs "3")); (bs "b", None)]).
Proof.
  assert (Hk : no_key (bs "a") [(bs "b", None)]) by (constructor; [by vm_compute|constructor]).
  destruct (section_set_remove [(bs "a", Some (bs "1"))] (bs "A") (Some (bs "2")) [(bs "b", None)] (bs "a") eq_refl Hk) as (H1 & H2 & _).
  split; [exact H1|exact (H2 (bs "2") (bs "3") eq_refl)].
Defined.
End Examples.
