(* ===== verification/ConfigFile.v ===== *)
(** * Configuration files as a whole: [gix-config/src/file]

    A file is its sections by id, the order they are in, and a tree by which
    they are looked up by name and subsection: [file/mod.rs], [file/util.rs],
    [file/access], [file/init/mod.rs], [file/write.rs], and values at several
    places in [file/mutable/multi_value.rs]. Sections and their values are those
    of [ConfigSection]. *)

From stdpp Require Import gmap.
From S2P Require Import Prelude Slices External Winnow ConfigParse ConfigSection.

(** ** Data: [file/mod.rs], [types.rs], [lookup.rs] *)

Inductive LookupError := SectionMissing | SubSectionMissing | KeyMissing.
(** The identifiers of sections count up from 0; the one of a section that is
    in no file is the largest [usize]. *)
Definition SectionId : Type := Z.
Definition no_section_id : SectionId := 2 ^ 64 - 1.
(** The sections by their name alone, or by the name of the subsection. *)
Inductive SectionBodyIdsLut := Terminal (ids : list SectionId) | NonTerminal (m : gmap bytes (list SectionId)).
(** Names of sections are compared, and hashed, without their case. *)
Definition name_key (n : bytes) : bytes := to_ascii_lowercase <$> n.
Record ConfSection (Meta : Type) := mkConfSection { header : Header; body : list Event; meta : Meta; section_id : SectionId }.
Arguments mkConfSection {Meta}.
Arguments header {Meta}.
Arguments body {Meta}.
Arguments meta {Meta}.
Arguments section_id {Meta}.
Record File (Meta : Type) := mkFile {
  frontmatter_events : list Event;
  frontmatter_post_section : gmap SectionId (list Event);
  section_lookup_tree : gmap bytes (list SectionBodyIdsLut);
  file_sections : gmap SectionId (ConfSection Meta);
  section_id_counter : Z;
  section_order : list SectionId;
  file_meta : Meta }.
Arguments mkFile {Meta}.
Arguments frontmatter_events {Meta}.
Arguments frontmatter_post_section {Meta}.
Arguments section_lookup_tree {Meta}.
Arguments file_sections {Meta}.
Arguments section_id_counter {Meta}.
Arguments section_order {Meta}.
Arguments file_meta {Meta}.

Section Files.
Context `{BA : !bstr.Api} {Meta : Type}.
#[local] Notation File := (File Meta).
#[local] Notation ConfSection := (ConfSection Meta).
Implicit Types f other : File.

(** ** [file/util.rs] *)

(** The lists of ids of a subsection, or of none, after a change of it; a node
    is added where there is none of the kind. *)
Fixpoint lookup_add {E} (subsection_name : option bytes) (new_id : SectionId) (change : list SectionId → res E (list SectionId))
    (lookup : list SectionBodyIdsLut) : res E (list SectionBodyIdsLut) :=
  match lookup with
  | [] => Ok [match subsection_name with Some s => NonTerminal {[s := [new_id]]} | None => Terminal [new_id] end]
  | node :: lookup =>
      match subsection_name, node with
      | Some s, NonTerminal subsections =>
          ids ← change (default [] (subsections !! s)); Ok (NonTerminal (<[s := ids]> subsections) :: lookup)
      | None, Terminal v => ids ← change v; Ok (Terminal ids :: lookup)
      | _, _ => lookup ← lookup_add subsection_name new_id change lookup; Ok (node :: lookup)
      end
  end.
Definition with_id (s : ConfSection) (id : SectionId) : ConfSection := mkConfSection (header s) (body s) (meta s) id.
Definition add_section {E} (f : File) (section : ConfSection) (change : list SectionId → res E (list SectionId))
    (change_order : list SectionId → res E (list SectionId)) : res E (SectionId * File) :=
  let new_section_id := section_id_counter f in
  let section := with_id section new_section_id in
  let sections := <[new_section_id := section]> (file_sections f) in
  let key := name_key (name (header section)) in
  lookup ← lookup_add (subsection_name (header section)) new_section_id change (default [] (section_lookup_tree f !! key));
  order ← change_order (section_order f);
  Ok (new_section_id,
      mkFile (frontmatter_events f) (frontmatter_post_section f) (<[key := lookup]> (section_lookup_tree f)) sections
        (section_id_counter f + 1) order (file_meta f)).
Definition push_section_internal (f : File) (section : ConfSection) : res Empty_set (SectionId * File) :=
  add_section f section (λ ids, Ok (ids ++ [section_id_counter f])) (λ order, Ok (order ++ [section_id_counter f])).
Definition lookup_section_order (order : list SectionId) (id : SectionId) : res Empty_set nat := expect (find_index (λ i, bool_decide (i = id)) order).
Fixpoint find_insert_pos_loop (order : list SectionId) (before_order idx : nat) (sections_with_name : list SectionId) : res Empty_set nat :=
  match sections_with_name with
  | [] => Ok idx
  | candidate_id :: sections_with_name =>
      candidate_order ← lookup_section_order order candidate_id;
      match (candidate_order ?= before_order)%nat with
      | Lt => find_insert_pos_loop order before_order (idx + 1) sections_with_name
      | Eq => Ok (idx + 1)%nat
      | Gt => Ok idx
      end
  end.
Definition find_insert_pos_by_order (order : list SectionId) (sections_with_name : list SectionId) (before_order : nat) : res Empty_set nat :=
  find_insert_pos_loop order before_order 0 sections_with_name.
Definition insert_section_after (f : File) (section : ConfSection) (before : SectionId) : res Empty_set (SectionId * File) :=
  before_order ← lookup_section_order (section_order f) before;
  add_section f section
    (λ ids, insert_pos ← find_insert_pos_by_order (section_order f) ids before_order; vec_insert insert_pos (section_id_counter f) ids)
    (λ order, vec_insert (before_order + 1) (section_id_counter f) order).

(** The ids in a node of the wanted kind, of which the first counts. *)
Fixpoint node_ids (subsection_name : option bytes) (nodes : list SectionBodyIdsLut) : option (list SectionId) :=
  match nodes with
  | [] => None
  | node :: nodes =>
      match subsection_name, node with
      | Some s, NonTerminal subsection_lookup => subsection_lookup !! s
      | None, Terminal ids => Some ids
      | _, _ => node_ids subsection_name nodes
      end
  end.
Definition section_ids_by_name_and_subname (f : File) (section_name : bytes) (subsection_name : option bytes) : res LookupError (list SectionId) :=
  match section_lookup_tree f !! name_key section_name with
  | None => Err SectionMissing
  | Some nodes => match node_ids subsection_name nodes with Some ids => Ok ids | None => Err SubSectionMissing end
  end.
Definition all_node_ids (node : SectionBodyIdsLut) : list SectionId :=
  match node with Terminal v => v | NonTerminal v => concat (map_to_list v).*2 end.
Definition section_ids_by_name (f : File) (section_name : bytes) : res LookupError (list SectionId) :=
  match section_lookup_tree f !! name_key section_name with
  | None => Err SectionMissing
  | Some lookup => let lut := concat (all_node_ids <$> lookup) in Ok (filter (λ id, id ∈ lut) (section_order f))
  end.

(** ** [file/access/read_only.rs] *)

(** Indexing the sections. *)
Definition section_at {E} (f : File) (id : SectionId) : res E ConfSection := expect (file_sections f !! id).
Fixpoint detect_loop (f : File) (order : list SectionId) : res Empty_set bytes :=
  match order with
  | [] => Ok platform_newline
  | id :: order =>
      s ← section_at f id;
      match head (omap extract_newline (body s)) with Some nl => Ok nl | None => detect_loop f order end
  end.
Definition detect_newline_style (f : File) : res Empty_set bytes :=
  match head (omap extract_newline (frontmatter_events f)) with Some nl => Ok nl | None => detect_loop f (section_order f) end.
(** The first of the ids of which the section passes the filter. *)
Fixpoint find_filtered {E} (f : File) (keep : Meta → bool) (ids : list SectionId) : res E (option SectionId) :=
  match ids with
  | [] => Ok None
  | id :: ids => s ← section_at f id; if keep (meta s) then Ok (Some id) else find_filtered f keep ids
  end.
Definition section_filter (f : File) (n : bytes) (subsection : option bytes) (keep : Meta → bool) : res LookupError (option ConfSection) :=
  ids ← section_ids_by_name_and_subname f n subsection;
  id ← find_filtered f keep (rev ids);
  match id with Some id => s ← section_at f id; Ok (Some s) | None => Ok None end.
Definition section_by_name (f : File) (n : bytes) (subsection : option bytes) : res LookupError ConfSection :=
  s ← section_filter f n subsection (λ _, true);
  match s with Some s => Ok s | None => Err SectionMissing end.
Definition sections_and_ids_by_name (f : File) (n : bytes) : res Empty_set (option (list (ConfSection * SectionId))) :=
  match section_ids_by_name f n with
  | Ok ids => l ← mapM (λ id, s ← section_at f id; Ok (s, id)) ids; Ok (Some l)
  | Err _ => Ok None
  | Panic => Panic
  end.
Definition sections_by_name_and_filter (f : File) (n : bytes) (keep : Meta → bool) : res Empty_set (option (list ConfSection)) :=
  l ← sections_and_ids_by_name f n;
  Ok (match l with Some l => Some (filter (λ s, keep (meta s) = true) l.*1) | None => None end).
Definition file_num_values (f : File) : nat := list_sum ((λ s, num_values (body s)) <$> (map_to_list (file_sections f)).*2).
Definition file_is_void (f : File) : bool := forallb (λ s, bool_decide (body s = [])) (map_to_list (file_sections f)).*2.
(** The sections in their order. *)
Definition in_order (f : File) : res Empty_set (list (ConfSection * SectionId)) := mapM (λ id, s ← section_at f id; Ok (s, id)) (section_order f).

(** ** [file/access/mutate.rs] *)

(** A section is changed through [SectionMut]; when the borrow ends, its events
    are in the file. *)
Definition to_mut (s : ConfSection) (nl : bytes) : SectionMut := section_mut_new (body s) nl.
Definition put_back (f : File) (id : SectionId) (s : SectionMut) : File :=
  mkFile (frontmatter_events f) (frontmatter_post_section f) (section_lookup_tree f)
    (alter (λ c, mkConfSection (header c) (sbody s) (meta c) (section_id c)) id (file_sections f)) (section_id_counter f) (section_order f) (file_meta f).
Definition section_mut_at {E} (f : File) (id : SectionId) : res E (SectionId * SectionMut) :=
  nl ← lift (detect_newline_style f);
  s ← section_at f id;
  Ok (id, to_mut s nl).
Definition section_mut (f : File) (n : bytes) (subsection : option bytes) : res LookupError (SectionId * SectionMut) :=
  ids ← section_ids_by_name_and_subname f n subsection;
  id ← expect (last ids);
  section_mut_at f id.
Definition section_mut_by_id (f : File) (id : SectionId) : res Empty_set (option SectionMut) :=
  nl ← detect_newline_style f;
  Ok ((λ s, to_mut s nl) <$> file_sections f !! id).
Definition section_mut_filter (f : File) (n : bytes) (subsection : option bytes) (keep : Meta → bool) : res LookupError (option (SectionId * SectionMut)) :=
  ids ← section_ids_by_name_and_subname f n subsection;
  id ← find_filtered f keep (rev ids);
  nl ← lift (detect_newline_style f);
  Ok (match id with Some id => (λ s, (id, to_mut s nl)) <$> file_sections f !! id | None => None end).
Definition conf_section_new (n : bytes) (subsection : option bytes) (m : Meta) : res HeaderError ConfSection :=
  h ← header_new n subsection; Ok (mkConfSection h [] m no_section_id).
Definition new_conf_section (f : File) (n : bytes) (subsection : option bytes) : res HeaderError (SectionId * SectionMut * File) :=
  section ← conf_section_new n subsection (file_meta f);
  '(id, f) ← lift (push_section_internal f section);
  '(id, s) ← section_mut_at f id;
  let s := push_newline s in
  Ok (id, s, put_back f id s).
Definition section_mut_or_create_new_filter (f : File) (n : bytes) (subsection : option bytes) (keep : Meta → bool) :
    res HeaderError (SectionId * SectionMut * File) :=
  id ← match section_ids_by_name_and_subname f n subsection with
       | Ok ids => find_filtered f keep (rev ids)
       | Err _ => Ok None
       | Panic => Panic
       end;
  match id with
  | Some id => '(id, s) ← section_mut_at f id; Ok (id, s, f)
  | None => new_conf_section f n subsection
  end.
Definition position (id : SectionId) (ids : list SectionId) : option nat := find_index (λ i, bool_decide (i = id)) ids.
(** The first entry that has the id in the list of the subsection. *)
Fixpoint lookup_remove (subsection_name : option bytes) (id : SectionId) (lut : list SectionBodyIdsLut) : res Empty_set (list SectionBodyIdsLut) :=
  match lut with
  | [] => Ok []
  | entry :: lut =>
      let skip := lut ← lookup_remove subsection_name id lut; Ok (entry :: lut) in
      match subsection_name, entry with
      | Some s, NonTerminal m =>
          match m !! s with
          | Some ids => i ← expect (position id ids); ids ← vec_remove i ids; Ok (NonTerminal (<[s := ids]> m) :: lut)
          | None => skip
          end
      | None, Terminal ids => i ← expect (position id ids); ids ← vec_remove i ids; Ok (Terminal ids :: lut)
      | _, _ => skip
      end
  end.
Definition with_order (f : File) (sections : gmap SectionId ConfSection) (order : list SectionId) : File :=
  mkFile (frontmatter_events f) (frontmatter_post_section f) (section_lookup_tree f) sections (section_id_counter f) order (file_meta f).
Definition with_tree (f : File) (tree : gmap bytes (list SectionBodyIdsLut)) : File :=
  mkFile (frontmatter_events f) (frontmatter_post_section f) tree (file_sections f) (section_id_counter f) (section_order f) (file_meta f).
Definition remove_section_by_id (f : File) (id : SectionId) : res Empty_set (option ConfSection * File) :=
  match position id (section_order f) with
  | None => Ok (None, f)
  | Some i =>
      order ← vec_remove i (section_order f);
      let f := with_order f (file_sections f) order in
      match file_sections f !! id with
      | None => Ok (None, f)
      | Some section =>
          let f := with_order f (base.delete id (file_sections f)) order in
          let key := name_key (name (header section)) in
          lut ← expect (section_lookup_tree f !! key);
          lut ← lookup_remove (subsection_name (header section)) id lut;
          Ok (Some section, with_tree f (<[key := lut]> (section_lookup_tree f)))
      end
  end.
Definition remove_section (f : File) (n : bytes) (subsection : option bytes) : res Empty_set (option ConfSection * File) :=
  match section_ids_by_name_and_subname f n subsection with
  | Ok ids => match last ids with Some id => remove_section_by_id f id | None => Ok (None, f) end
  | Err _ => Ok (None, f)
  | Panic => Panic
  end.
Definition remove_section_filter (f : File) (n : bytes) (subsection : option bytes) (keep : Meta → bool) : res Empty_set (option ConfSection * File) :=
  match section_ids_by_name_and_subname f n subsection with
  | Ok ids =>
      id ← find_filtered f keep (rev ids);
      match id with
      | Some id =>
          i ← expect (position id (section_order f));
          order ← vec_remove i (section_order f);
          Ok (file_sections f !! id, with_order f (base.delete id (file_sections f)) order)
      | None => Ok (None, f)
      end
  | Err _ => Ok (None, f)
  | Panic => Panic
  end.
Definition push_section (f : File) (section : ConfSection) : res Empty_set (SectionId * SectionMut * File) :=
  '(id, f) ← push_section_internal f section; '(id, s) ← section_mut_at f id; Ok (id, s, f).
Inductive RenameError := RenameLookup (e : LookupError) | RenameSection (e : HeaderError).
Definition set_header (f : File) (id : SectionId) (n : bytes) (subsection : option bytes) : res RenameError File :=
  _ ← section_at f id;
  h ← map_err RenameSection (header_new n subsection);
  Ok (with_order f (alter (λ c, mkConfSection h (body c) (meta c) (section_id c)) id (file_sections f)) (section_order f)).
Definition rename_section (f : File) (n : bytes) (subsection : option bytes) (new_name : bytes) (new_subsection : option bytes) : res RenameError File :=
  ids ← map_err RenameLookup (section_ids_by_name_and_subname f n subsection);
  id ← expect (last ids);
  set_header f id new_name new_subsection.
Definition rename_section_filter (f : File) (n : bytes) (subsection : option bytes) (new_name : bytes) (new_subsection : option bytes)
    (keep : Meta → bool) : res RenameError File :=
  ids ← map_err RenameLookup (section_ids_by_name_and_subname f n subsection);
  id ← find_filtered f keep (rev ids);
  match id with Some id => set_header f id new_name new_subsection | None => Err (RenameLookup KeyMissing) end.

(** ** [file/write.rs] *)

Fixpoint ends_loop (nl : bytes) (revents : list Event) : bool :=
  match revents with
  | [] => false
  | e :: revents =>
      if forallb is_ascii_whitespace (to_bstr_lossy e) then
        match bstr.find (to_bstr_lossy e) nl with Some _ => true | None => ends_loop nl revents end
      else false
  end.
Definition ends_with_newline (e : list Event) (nl : bytes) (default_ : bool) : bool :=
  match e with [] => default_ | _ => ends_loop nl (rev e) end.
Fixpoint write_sections (f : File) (nl : bytes) (keep : ConfSection → bool) (prev_section_ended_with_newline : bool) (order : list SectionId) :
    res Empty_set (bytes * bool) :=
  match order with
  | [] => Ok ([], prev_section_ended_with_newline)
  | section_id :: order =>
      let out := if prev_section_ended_with_newline then [] else nl in
      section ← section_at f section_id;
      if negb (keep section) then
        '(rest, ended) ← write_sections f nl keep prev_section_ended_with_newline order; Ok (out ++ rest, ended)
      else
        let ended := ends_with_newline (body section) nl false in
        let '(post, ended) :=
          match frontmatter_post_section f !! section_id with
          | Some post_matter => ((if ended then [] else nl) ++ text post_matter, ends_with_newline post_matter nl ended)
          | None => ([], ended)
          end in
        '(rest, ended) ← write_sections f nl keep ended order;
        Ok (out ++ section_write_to (header section) (body section) ++ post ++ rest, ended)
  end.
Definition write_to_filter (f : File) (keep : ConfSection → bool) : res Empty_set bytes :=
  nl ← detect_newline_style f;
  let front := text (frontmatter_events f) ++
    (if negb (ends_with_newline (frontmatter_events f) nl true) && existsb keep (map_to_list (file_sections f)).*2 then nl else []) in
  '(out, ended) ← write_sections f nl keep true (section_order f);
  Ok (front ++ out ++ (if (ended : bool) then [] else nl)).
Definition file_write_to (f : File) : res Empty_set bytes := write_to_filter f (λ _, true).

(** ** Appending: [file/access/mutate.rs] *)

Definition extend_and_assure_newline (lhs rhs : list Event) (nl : bytes) : list Event :=
  lhs ++ (if negb (ends_with_newline lhs nl true) && negb (match rhs with e :: _ => starts_with nl (to_bstr_lossy e) | [] => true end)
          then [Newline nl] else []) ++ rhs.
Definition with_post (f : File) (post : gmap SectionId (list Event)) : File :=
  mkFile (frontmatter_events f) post (section_lookup_tree f) (file_sections f) (section_id_counter f) (section_order f) (file_meta f).
Definition with_front (f : File) (front : list Event) : File :=
  mkFile front (frontmatter_post_section f) (section_lookup_tree f) (file_sections f) (section_id_counter f) (section_order f) (file_meta f).
Fixpoint append_loop (f : File) (sections : gmap SectionId ConfSection) (post : gmap SectionId (list Event)) (insert_after : option SectionId)
    (order : list SectionId) : res Empty_set File :=
  match order with
  | [] => Ok f
  | id :: order =>
      section ← expect (sections !! id);
      '(new_id, insert_after, f) ←
        (match insert_after with
         | Some id => '(new_id, f) ← insert_section_after f section id; Ok (new_id, Some new_id, f)
         | None => '(new_id, f) ← push_section_internal f section; Ok (new_id, None, f)
         end : res Empty_set (SectionId * option SectionId * File));
      let f := match post !! id with Some post_matter => with_post f (<[new_id := post_matter]> (frontmatter_post_section f)) | None => f end in
      append_loop f (base.delete id sections) (base.delete id post) insert_after order
  end.
Definition append_or_insert (f other : File) (insert_after : option SectionId) : res Empty_set File :=
  nl ← detect_newline_style f;
  let our_last_section_before_append :=
    match insert_after with
    | Some id => Some id
    | None => if bool_decide (section_id_counter f ≠ 0) then Some (section_id_counter f - 1) else None
    end in
  f ← append_loop f (file_sections other) (frontmatter_post_section other) insert_after (section_order other);
  match frontmatter_events other with
  | [] => Ok f
  | front =>
      match our_last_section_before_append with
      | Some last_id =>
          let post := frontmatter_post_section f in
          Ok (with_post f (<[last_id := extend_and_assure_newline (default [] (post !! last_id)) front nl]> post))
      | None => Ok (with_front f (extend_and_assure_newline (frontmatter_events f) front nl))
      end
  end.
Definition append (f other : File) : res Empty_set File := append_or_insert f other None.

(** ** [file/init/mod.rs], [file/init/types.rs] *)

Definition file_new (m : Meta) : File := mkFile [] ∅ ∅ ∅ 0 [] m.
Fixpoint push_parsed (f : File) (m : Meta) (l : list (Header * list Event)) : res Empty_set File :=
  match l with
  | [] => Ok f
  | (h, es) :: l => '(_, f) ← push_section_internal f (mkConfSection h es m no_section_id); push_parsed f m l
  end.
Definition from_parse_events_no_includes (e : Events) (m : Meta) : res Empty_set File :=
  push_parsed (with_front (file_new m) (frontmatter e)) m (sections e).
Definition discard_nonessential_events (e : Event) : bool :=
  match e with Whitespace _ | EComment _ | Newline _ => false | _ => true end.
Definition to_event_filter (lossy : bool) : option (Event → bool) := if lossy then Some discard_nonessential_events else None.
Definition from_bytes_no_includes `{WA : !winnow.Api} (bom_len : bytes → nat) (input : bytes) (m : Meta) (lossy : bool) : res ParseError File :=
  e ← events_from_bytes bom_len (to_event_filter lossy) input;
  lift (from_parse_events_no_includes e m).

(** ** [file/access/raw.rs] *)

Fixpoint raw_value_loop (f : File) (value_name : bytes) (keep : Meta → bool) (ids : list SectionId) : res LookupError bytes :=
  match ids with
  | [] => Err KeyMissing
  | section_id :: ids =>
      section ← section_at f section_id;
      if keep (meta section) then
        v ← lift (value (body section) value_name);
        match v with Some v => Ok v | None => raw_value_loop f value_name keep ids end
      else raw_value_loop f value_name keep ids
  end.
Definition raw_value_filter_by (f : File) (section_name : bytes) (subsection_name : option bytes) (value_name : bytes) (keep : Meta → bool) :
    res LookupError bytes :=
  section_ids ← section_ids_by_name_and_subname f section_name subsection_name;
  raw_value_loop f value_name keep (rev section_ids).
Fixpoint raw_values_loop (f : File) (value_name : bytes) (keep : Meta → bool) (ids : list SectionId) : res LookupError (list bytes) :=
  match ids with
  | [] => Ok []
  | section_id :: ids =>
      section ← section_at f section_id;
      vs ← (if keep (meta section) then lift (values (body section) value_name) else Ok []);
      rest ← raw_values_loop f value_name keep ids;
      Ok (vs ++ rest)
  end.
Definition raw_values_filter_by (f : File) (section_name : bytes) (subsection_name : option bytes) (value_name : bytes) (keep : Meta → bool) :
    res LookupError (list bytes) :=
  section_ids ← section_ids_by_name_and_subname f section_name subsection_name;
  vs ← raw_values_loop f value_name keep section_ids;
  match vs with [] => Err KeyMissing | _ => Ok vs end.
(** The index and the number of the events of the last pair with the name. *)
Fixpoint pair_range (key : bytes) (i index size : nat) (found_key : bool) (es : list Event) : nat * nat :=
  match es with
  | [] => (index, size)
  | e :: es =>
      match e with
      | SectionValueName k => if same_name k key then pair_range key (S i) i 1 true es else pair_range key (S i) index size found_key es
      | Newline _ | Whitespace _ | ValueNotDone _ | KeyValueSeparator => pair_range key (S i) index (if found_key then S size else size) found_key es
      | ValueDone _ | Value _ => pair_range key (S i) index (if found_key then S size else size) false es
      | _ => pair_range key (S i) index size found_key es
      end
  end.
Fixpoint raw_value_mut_loop (f : File) (key : bytes) (keep : Meta → bool) (ids : list SectionId) : res LookupError (SectionId * ValueMut) :=
  match ids with
  | [] => Err KeyMissing
  | section_id :: ids =>
      section ← section_at f section_id;
      if keep (meta section) then
        let '(index, size) := pair_range key 0 0 0 false (body section) in
        if (size =? 0)%nat then raw_value_mut_loop f key keep ids
        else '(id, s) ← section_mut_at f section_id; Ok (id, mkValueMut s key index size)
      else raw_value_mut_loop f key keep ids
  end.
Definition raw_value_mut_filter (f : File) (section_name : bytes) (subsection_name : option bytes) (value_name : bytes) (keep : Meta → bool) :
    res LookupError (SectionId * ValueMut) :=
  section_ids ← section_ids_by_name_and_subname f section_name subsection_name;
  raw_value_mut_loop f value_name keep (rev section_ids).
Definition set_existing_raw_value_by (f : File) (section_name : bytes) (subsection_name : option bytes) (value_name new_value : bytes) : res LookupError File :=
  '(id, entry) ← raw_value_mut_filter f section_name subsection_name value_name (λ _, true);
  entry ← lift (value_mut_set entry new_value);
  Ok (put_back f id (vsection entry)).
(** The error of a key that is not valid comes after the section was made, so
    the file is part of either result. *)
Inductive SetRawValueError := SetHeader (e : HeaderError) | SetValueName.
Definition set_raw_value_filter_by (f : File) (section_name : bytes) (subsection_name : option bytes) (key new_value : bytes) (keep : Meta → bool) :
    res Empty_set (File * (SetRawValueError + option bytes)) :=
  match section_mut_or_create_new_filter f section_name subsection_name keep with
  | Panic => Panic
  | Err e => Ok (f, inl (SetHeader e))
  | Ok (id, s, f) =>
      if is_valid_value_name key then '(old, s) ← set s key new_value; Ok (put_back f id s, inr old)
      else Ok (f, inl SetValueName)
  end.

(** ** [file/mutable/multi_value.rs] *)

Definition EntryData : Type := SectionId * nat.
Record MultiValueMut := mkMultiValueMut {
  mv_section : gmap SectionId ConfSection; mv_key : bytes; indices_and_sizes : list EntryData; offsets : gmap SectionId (list nat) }.
(** Of a body: the gaps and the sizes of the pairs with the name in turn, and
    the positions of the sizes. *)
Fixpoint multi_scan (key : bytes) (i last_boundary : nat) (expect_value : bool) (offset_list entries : list nat) (es : list Event) : list nat * list nat :=
  match es with
  | [] => (offset_list, entries)
  | e :: es =>
      match e with
      | SectionValueName k =>
          if same_name k key then multi_scan key (S i) i true (offset_list ++ [(i - last_boundary)%nat]) entries es
          else multi_scan key (S i) last_boundary expect_value offset_list entries es
      | Value _ | ValueDone _ =>
          if expect_value then
            multi_scan key (S i) (S i) false (offset_list ++ [(i - last_boundary + 1)%nat]) (entries ++ [length offset_list]) es
          else multi_scan key (S i) last_boundary expect_value offset_list entries es
      | _ => multi_scan key (S i) last_boundary expect_value offset_list entries es
      end
  end.
Fixpoint multi_loop (f : File) (key : bytes) (keep : Meta → bool) (offs : gmap SectionId (list nat)) (entries : list EntryData) (ids : list SectionId) :
    res LookupError (gmap SectionId (list nat) * list EntryData) :=
  match ids with
  | [] => Ok (offs, entries)
  | section_id :: ids =>
      section ← section_at f section_id;
      if keep (meta section) then
        let '(offset_list, found) := multi_scan key 0 0 false [] [] (body section) in
        multi_loop f key keep (<[section_id := offset_list]> offs) (entries ++ (pair section_id <$> found)) ids
      else multi_loop f key keep offs entries ids
  end.
Definition entry_cmp (a b : EntryData) : comparison := match a.1 ?= b.1 with Eq => (a.2 ?= b.2)%nat | c => c end.
Definition raw_values_mut_filter_by (f : File) (section_name : bytes) (subsection_name : option bytes) (value_name : bytes) (keep : Meta → bool) :
    res LookupError MultiValueMut :=
  section_ids ← section_ids_by_name_and_subname f section_name subsection_name;
  '(offs, entries) ← multi_loop f value_name keep ∅ [] (rev section_ids);
  let entries := sort_by entry_cmp entries in
  match entries with [] => Err KeyMissing | _ => Ok (mkMultiValueMut (file_sections f) value_name entries offs) end.
(** The end of the borrow. *)
Definition put_sections (f : File) (m : MultiValueMut) : File := with_order f (mv_section m) (section_order f).
Definition index_and_size (offs : gmap SectionId (list nat)) (id : SectionId) (offset_index : nat) : res Empty_set (nat * nat) :=
  l ← expect (offs !! id);
  Ok (foldl (λ '(total_ofs, ofs) size, ((total_ofs + ofs)%nat, size)) (0%nat, 0%nat) (take (offset_index + 1) l)).
Definition set_offset (offs : gmap SectionId (list nat)) (id : SectionId) (offset_index v : nat) : res Empty_set (gmap SectionId (list nat)) :=
  l ← expect (offs !! id);
  _ ← expect (l !! offset_index);
  Ok (<[id := <[offset_index := v]> l]> offs).
Definition with_events (s : ConfSection) (es : list Event) : ConfSection := mkConfSection (header s) es (meta s) (section_id s).
Definition set_value_inner (m : MultiValueMut) (e : EntryData) (v : bytes) : res Empty_set MultiValueMut :=
  let '(id, offset_index) := e in
  s ← expect (mv_section m !! id);
  '(offset, size) ← index_and_size (offsets m) id offset_index;
  let whitespace := from_body (body s) in
  '(_, es) ← vec_drain offset (offset + size) (body s);
  let key_sep_events := key_value_separators whitespace in
  offs ← set_offset (offsets m) id offset_index (2 + length key_sep_events);
  es ← vec_insert offset (Value (escape_value v)) es;
  let es := take offset es ++ rev key_sep_events ++ drop offset es in
  es ← vec_insert offset (SectionValueName (mv_key m)) es;
  Ok (mkMultiValueMut (<[id := with_events s es]> (mv_section m)) (mv_key m) (indices_and_sizes m) offs).
Definition set_at (m : MultiValueMut) (index : nat) (v : bytes) : res Empty_set MultiValueMut :=
  e ← expect (indices_and_sizes m !! index); set_value_inner m e v.
Fixpoint set_entries (m : MultiValueMut) (l : list (EntryData * bytes)) : res Empty_set MultiValueMut :=
  match l with [] => Ok m | (e, v) :: l => m ← set_value_inner m e v; set_entries m l end.
Definition set_values (m : MultiValueMut) (vs : list bytes) : res Empty_set MultiValueMut := set_entries m (zip (indices_and_sizes m) vs).
Definition set_all (m : MultiValueMut) (v : bytes) : res Empty_set MultiValueMut := set_entries m ((λ e, (e, v)) <$> indices_and_sizes m).
(** Draining the events of an entry. *)
Definition drain_entry (m : MultiValueMut) (e : EntryData) (offset size : nat) (entries : list EntryData) : res Empty_set MultiValueMut :=
  s ← expect (mv_section m !! e.1);
  '(_, es) ← vec_drain offset (offset + size) (body s);
  offs ← set_offset (offsets m) e.1 e.2 0;
  Ok (mkMultiValueMut (<[e.1 := with_events s es]> (mv_section m)) (mv_key m) entries offs).
Definition mv_delete (m : MultiValueMut) (index : nat) : res Empty_set MultiValueMut :=
  e ← expect (indices_and_sizes m !! index);
  '(offset, size) ← index_and_size (offsets m) e.1 e.2;
  if (size =? 0)%nat then Ok m
  else entries ← vec_remove index (indices_and_sizes m); drain_entry m e offset size entries.
Fixpoint delete_loop (m : MultiValueMut) (l : list EntryData) : res Empty_set MultiValueMut :=
  match l with
  | [] => Ok m
  | e :: l =>
      '(offset, size) ← index_and_size (offsets m) e.1 e.2;
      if (size =? 0)%nat then delete_loop m l else m ← drain_entry m e offset size (indices_and_sizes m); delete_loop m l
  end.
Definition delete_all (m : MultiValueMut) : res Empty_set MultiValueMut :=
  m ← delete_loop m (indices_and_sizes m); Ok (mkMultiValueMut (mv_section m) (mv_key m) [] (offsets m)).
(** One entry after the other, with the state of the loop over them. *)
Fixpoint mv_get_events (key : bytes) (st : bool * list bytes * bytes) (es : list Event) : res Empty_set (bool * list bytes * bytes) :=
  match es with
  | [] => Ok st
  | e :: es =>
      let '(expect_value, values, concatenated_value) := st in
      st ← match e with
           | SectionValueName k => Ok (if same_name k key then true else expect_value, values, concatenated_value)
           | Value v => if expect_value then v ← normalize v; Ok (false, values ++ [v], concatenated_value) else Ok st
           | ValueNotDone v => Ok (expect_value, values, if expect_value then concatenated_value ++ v else concatenated_value)
           | ValueDone v => if expect_value then v ← normalize (concatenated_value ++ v); Ok (false, values ++ [v], []) else Ok st
           | _ => Ok st
           end;
      mv_get_events key st es
  end.
Fixpoint mv_get_loop (m : MultiValueMut) (st : bool * list bytes * bytes) (l : list EntryData) : res Empty_set (list bytes) :=
  match l with
  | [] => Ok st.1.2
  | e :: l =>
      '(offset, size) ← index_and_size (offsets m) e.1 e.2;
      s ← expect (mv_section m !! e.1);
      es ← slice (body s) offset (offset + size);
      st ← mv_get_events (mv_key m) st es;
      mv_get_loop m st l
  end.
Definition mv_get (m : MultiValueMut) : res LookupError (list bytes) :=
  vs ← lift (mv_get_loop m (false, [], []) (indices_and_sizes m));
  match vs with [] => Err KeyMissing | _ => Ok vs end.
Definition set_existing_raw_multi_value_by (f : File) (section_name : bytes) (subsection_name : option bytes) (value_name : bytes) (new_values : list bytes) :
    res LookupError File :=
  m ← raw_values_mut_filter_by f section_name subsection_name value_name (λ _, true);
  m ← lift (set_values m new_values);
  Ok (put_sections f m).

(** ** [file/impls.rs]: equality of files *)

Fixpoint find_key (es : list Event) : option (bytes * list Event) :=
  match es with [] => None | SectionValueName k :: es => Some (k, es) | _ :: es => find_key es end.
Fixpoint collect_value (partial_value : bytes) (es : list Event) : res Empty_set (bytes * list Event) :=
  match es with
  | [] => Ok ([], [])
  | SectionValueName _ :: es => Ok ([], es)
  | Value v :: es => v ← normalize v; Ok (v, es)
  | ValueNotDone v :: es => collect_value (partial_value ++ v) es
  | ValueDone v :: es => v ← normalize (partial_value ++ v); Ok (v, es)
  | _ :: es => collect_value partial_value es
  end.
Fixpoint bodies_eq (fuel : nat) (lhs rhs : list Event) : res Empty_set bool :=
  match find_key lhs, find_key rhs with
  | Some (lhs_key, lhs), Some (rhs_key, rhs) =>
      if same_name lhs_key rhs_key then
        '(v, lhs) ← collect_value [] lhs;
        '(w, rhs) ← collect_value [] rhs;
        if bool_decide (v = w) then match fuel with O => Panic | S fuel => bodies_eq fuel lhs rhs end else Ok false
      else Ok false
  | _, _ => Ok true
  end.
Fixpoint sections_eq (f other : File) (l : list (SectionId * SectionId)) : res Empty_set bool :=
  match l with
  | [] => Ok true
  | (lhs, rhs) :: l =>
      lhs ← section_at f lhs;
      rhs ← section_at other rhs;
      if same_name (name (header lhs)) (name (header rhs)) && bool_decide (subsection_name (header lhs) = subsection_name (header rhs)) then
        b ← bodies_eq (length (body lhs)) (body lhs) (body rhs); if (b : bool) then sections_eq f other l else Ok false
      else Ok false
  end.
Definition file_eq (f other : File) : res Empty_set bool :=
  if (length (section_order f) =? length (section_order other))%nat then sections_eq f other (zip (section_order f) (section_order other)) else Ok false.
End Files.
Arguments mkMultiValueMut {Meta}.

(** ** Keys: [key.rs], [parse/section/unvalidated.rs] *)

Section Keys.
(** [is_utf8] is [str::from_utf8]. *)
Context `{BA : !bstr.Api} {Meta : Type} (is_utf8 : bytes → bool).
Definition is_dot (b : Z) : bool := b =? ch ".".
(** [splitn(2, …)] and [rsplitn(2, …)]: the first token, and the rest. *)
Definition splitn_2 (input : bytes) : bytes * option bytes :=
  match find_index is_dot input with Some i => (take i input, Some (drop (i + 1) input)) | None => (input, None) end.
Definition rsplitn_2 (input : bytes) : bytes * option bytes :=
  match bstr.rfind_index is_dot input with Some i => (drop (i + 1) input, Some (take i input)) | None => (input, None) end.
Record KeyRef := mkKeyRef { key_section : bytes; key_subsection : option bytes; key_value : bytes }.
Definition parse_unvalidated (input : bytes) : option KeyRef :=
  let '(section_name, rest) := splitn_2 input in
  subsection_or_key ← rest;
  let '(value_name, subsection) := rsplitn_2 subsection_or_key in
  if is_utf8 section_name && is_utf8 value_name then Some (mkKeyRef section_name subsection value_name) else None.
Definition as_key {E} (input : bytes) : res E KeyRef := expect (parse_unvalidated input).
Definition key_parse (input : bytes) : option (bytes * option bytes) :=
  let '(section_name, subsection) := splitn_2 input in if is_utf8 section_name then Some (section_name, subsection) else None.
Definition section_by_key (f : File Meta) (section_key : bytes) : res LookupError (ConfSection Meta) :=
  match key_parse section_key with Some (n, s) => section_by_name f n s | None => Err KeyMissing end.
Definition section_mut_by_key (f : File Meta) (section_key : bytes) : res LookupError (SectionId * SectionMut) :=
  match key_parse section_key with Some (n, s) => section_mut f n s | None => Err KeyMissing end.
Definition raw_value_filter (f : File Meta) (key : bytes) (keep : Meta → bool) : res LookupError bytes :=
  key ← as_key key; raw_value_filter_by f (key_section key) (key_subsection key) (key_value key) keep.
Definition raw_values_filter (f : File Meta) (key : bytes) (keep : Meta → bool) : res LookupError (list bytes) :=
  key ← as_key key; raw_values_filter_by f (key_section key) (key_subsection key) (key_value key) keep.

(** The subsection is between the first dot and the last one, whatever is in it. *)
Lemma key_read n s k : Forall (λ b, is_dot b = false) n → Forall (λ b, is_dot b = false) k → is_utf8 n = true → is_utf8 k = true →
  parse_unvalidated (n ++ ch "." :: match s with Some s => s ++ ch "." :: k | None => k end) = Some (mkKeyRef n s k).
Proof.
  intros Hn Hk Un Uk. unfold parse_unvalidated, splitn_2. rewrite find_index_app by done.
  rewrite take_app_length, drop_app_ge, (Nat.add_sub_swap _ _ (length n)), Nat.sub_diag by lia. cbn [drop Nat.add mbind option_bind]. rewrite drop_0.
  unfold rsplitn_2. destruct s as [s|].
  - assert (H : bstr.rfind_index is_dot (s ++ ch "." :: k) = Some (length s)).
    { induction s as [|b s IH]; cbn [app bstr.rfind_index length]; [|by rewrite IH]. by rewrite rfind_index_none. }
    rewrite H. rewrite take_app_length, drop_app_ge, (Nat.add_sub_swap _ _ (length s)), Nat.sub_diag by lia. cbn [drop Nat.add]. by rewrite drop_0, Un, Uk.
  - rewrite rfind_index_none by done. by rewrite Un, Uk.
Qed.
End Keys.

(** ** Theorems: the invariant *)

Section Wf.
Context `{BA : !bstr.Api} {Meta : Type}.
#[local] Notation File := (File Meta).
#[local] Notation ConfSection := (ConfSection Meta).
Implicit Types f other : File.

(** The header of a section is that of a name and a subsection. *)
Definition has_name (n : bytes) (s : option bytes) (h : Header) : bool := bool_decide (name_key (name h) = name_key n ∧ subsection_name h = s).
Definition matches f (n : bytes) (s : option bytes) (id : SectionId) : bool :=
  match file_sections f !! id with Some c => has_name n s (header c) | None => false end.
Definition ids_of f (n : bytes) (s : option bytes) : list SectionId := filter (λ id, matches f n s id = true) (section_order f).
Definition tree_ids f (n : bytes) (s : option bytes) : list SectionId := default [] (section_lookup_tree f !! name_key n ≫= node_ids s).
Definition is_terminal (node : SectionBodyIdsLut) : bool := match node with Terminal _ => true | NonTerminal _ => false end.
(** The order holds exactly the sections there are, each once; and the tree has
    for each name and subsection their ids in that order. *)
Record wf f : Prop := {
  wf_nodup : NoDup (section_order f);
  wf_dom id : id ∈ section_order f ↔ is_Some (file_sections f !! id);
  wf_counter id : id ∈ section_order f → 0 ≤ id < section_id_counter f;
  wf_positive : 0 ≤ section_id_counter f;
  wf_tree n s : tree_ids f n s = ids_of f n s;
  wf_nodes n nodes : section_lookup_tree f !! n = Some nodes → NoDup (is_terminal <$> nodes) }.

(** *** The nodes of the tree *)

Lemma node_ids_add {E} s id (change : list SectionId → res E (list SectionId)) nodes ids :
  change [] = Ok [id] → change (default [] (node_ids s nodes)) = Ok ids →
  ∃ nodes', lookup_add s id change nodes = Ok nodes' ∧ node_ids s nodes' = Some ids ∧ (∀ s', s' ≠ s → node_ids s' nodes' = node_ids s' nodes) ∧
    (NoDup (is_terminal <$> nodes) → NoDup (is_terminal <$> nodes')) ∧ (∀ b, b ∈ is_terminal <$> nodes' → b ∈ is_terminal <$> nodes ∨ b = bool_decide (s = None)).
Proof.
  intros H0 H. revert H. induction nodes as [|node nodes IH]; intros H.
  - cbn in H. rewrite H0 in H. injection H as <-. destruct s as [s|]; eexists; (split; [done|]); cbn.
    + rewrite lookup_singleton_eq. split_and!; [done| |intros _; by repeat constructor; set_solver|set_solver].
      intros [s'|] Hs; [|done]. by rewrite lookup_singleton_ne by congruence.
    + split_and!; [done| |intros _; by repeat constructor; set_solver|set_solver]. by intros [s'|] Hs.
  - assert (Hskip : node_ids s (node :: nodes) = node_ids s nodes → is_terminal node ≠ bool_decide (s = None) →
      lookup_add s id change (node :: nodes) = (nodes ← lookup_add s id change nodes; Ok (node :: nodes)) →
      ∃ nodes', lookup_add s id change (node :: nodes) = Ok nodes' ∧ node_ids s nodes' = Some ids ∧ (∀ s', s' ≠ s → node_ids s' nodes' = node_ids s' (node :: nodes)) ∧
        (NoDup (is_terminal <$> node :: nodes) → NoDup (is_terminal <$> nodes')) ∧
        (∀ b, b ∈ is_terminal <$> nodes' → b ∈ is_terminal <$> node :: nodes ∨ b = bool_decide (s = None))).
    { intros En Ht Ha. rewrite En in H. destruct (IH H) as (nodes' & E1 & E2 & E3 & E4 & E5). rewrite Ha, E1. eexists. split; [done|].
      destruct s as [s|], node as [v|m]; try done; cbn; (split_and!; [done| | |]).
      1,4: intros [s'|] Hs'; cbn; try done; by apply E3.
      1,3: intros [Hn1 Hn2]%NoDup_cons; apply NoDup_cons; split; [intros [?|?]%E5; [done|by subst]|by apply E4].
      all: intros b [->|Hb]%elem_of_cons; [left; by left|apply E5 in Hb; set_solver]. }
    destruct s as [s|], node as [v|m]; try by apply Hskip.
    + cbn in H. cbn [lookup_add]. rewrite H. eexists. split; [done|]. cbn. rewrite lookup_insert_eq. split_and!; [done| |done|set_solver].
      intros [s'|] Hs; [|done]. by rewrite lookup_insert_ne by congruence.
    + cbn in H. cbn [lookup_add]. rewrite H. eexists. split; [done|]. cbn. split_and!; [done| |done|set_solver]. by intros [s'|] Hs.
Qed.
Lemma position_app id x y : id ∉ x → position id (x ++ id :: y) = Some (length x).
Proof.
  intros Hx. apply find_index_app; [|by apply bool_decide_eq_true_2]. apply Forall_forall. intros i Hi. apply bool_decide_eq_false_2. by intros ->.
Qed.
Lemma node_ids_remove s id nodes x y : node_ids s nodes = Some (x ++ id :: y) → id ∉ x →
  ∃ nodes', lookup_remove s id nodes = Ok nodes' ∧ node_ids s nodes' = Some (x ++ y) ∧ (∀ s', s' ≠ s → node_ids s' nodes' = node_ids s' nodes) ∧
    is_terminal <$> nodes' = is_terminal <$> nodes.
Proof.
  intros H Hx. induction nodes as [|node nodes IH]; [done|].
  assert (Hpos : expect (E := Empty_set) (position id (x ++ id :: y)) = Ok (length x)) by (by rewrite position_app).
  destruct s as [s|], node as [v|m]; cbn [node_ids] in H; cbn [lookup_remove].
  1,4: destruct (IH H) as (nodes' & E1 & E2 & E3 & E4); rewrite E1; eexists; (split; [done|]); cbn; rewrite E4;
    (split_and!; [done| |done]); intros [s'|] Hs'; cbn; try done; by apply E3.
  - rewrite H, Hpos, bind_Ok, vec_remove_app by done. eexists. split; [done|]. cbn. rewrite lookup_insert_eq. split_and!; [done| |done].
    intros [s'|] Hs; [|done]. by rewrite lookup_insert_ne by congruence.
  - injection H as ->. rewrite Hpos, bind_Ok, vec_remove_app by done. eexists. split; [done|]. cbn. split_and!; [done| |done]. by intros [s'|] Hs.
Qed.

(** *** Ids by name *)

Lemma filter_ext_in {A} (p q : A → bool) (l : list A) : (∀ x, x ∈ l → p x = q x) → filter (λ x, p x = true) l = filter (λ x, q x = true) l.
Proof.
  induction l as [|x l IH]; intros H; [done|]. rewrite !filter_cons, H by left. rewrite IH; [done|]. intros y Hy. apply H. by right.
Qed.
Lemma filter_one {A} (p : A → bool) (x : list A) y z : filter (λ x, p x = true) (x ++ y :: z) =
  filter (λ x, p x = true) x ++ (if p y then [y] else []) ++ filter (λ x, p x = true) z.
Proof. rewrite filter_app, filter_cons. destruct (p y); by rewrite ?decide_True, ?decide_False by done. Qed.
(** A section is new in the order. *)
Lemma add_section_wf {E} f (c : ConfSection) (change change_order : list SectionId → res E (list SectionId)) a b :
  let id := section_id_counter f in
  let ids := filter (λ i, matches f (name (header c)) (subsection_name (header c)) i = true) in
  wf f → section_order f = a ++ b → change [] = Ok [id] → change (ids a ++ ids b) = Ok (ids a ++ id :: ids b) →
  change_order (section_order f) = Ok (a ++ id :: b) →
  ∃ f', add_section f c change change_order = Ok (id, f') ∧ wf f' ∧ section_order f' = a ++ id :: b ∧
    file_sections f' = <[id := with_id c id]> (file_sections f) ∧ section_id_counter f' = id + 1 ∧
    frontmatter_events f' = frontmatter_events f ∧ frontmatter_post_section f' = frontmatter_post_section f ∧ file_meta f' = file_meta f.
Proof.
  intros id ids Hwf Ho H0 Hids Horder. set (n := name (header c)) in *. set (s := subsection_name (header c)) in *.
  assert (Hnew : id ∉ a ++ b) by (rewrite <- Ho; intros H%(wf_counter _ Hwf); lia).
  assert (Ht : default [] (node_ids s (default [] (section_lookup_tree f !! name_key n))) = ids a ++ ids b).
  { unfold ids. rewrite <- filter_app, <- Ho. change (filter _ (section_order f)) with (ids_of f n s). rewrite <- (wf_tree _ Hwf). unfold tree_ids.
    by destruct (section_lookup_tree f !! name_key n). }
  rewrite <- Ht in Hids. destruct (node_ids_add s id change _ _ H0 Hids) as (nodes & E1 & E2 & E3 & E4 & E5).
  unfold add_section. cbn [with_id header]. fold n s id. rewrite E1, bind_Ok, Horder, bind_Ok. eexists. split; [done|]. split; [|done].
  split; cbn [section_order file_sections section_id_counter section_lookup_tree].
  - rewrite <- Permutation_middle. apply NoDup_cons. split; [done|]. rewrite <- Ho. apply (wf_nodup _ Hwf).
  - intros i. pose proof (wf_dom _ Hwf i) as Hd. rewrite Ho in Hd. rewrite <- Permutation_middle, elem_of_cons, Hd, lookup_insert_is_Some'. naive_solver.
  - intros i Hi. pose proof (wf_counter _ Hwf i) as Hd. rewrite Ho in Hd. pose proof (wf_positive _ Hwf). rewrite <- Permutation_middle, elem_of_cons in Hi.
    unfold id in *. destruct Hi as [->|Hi]; [lia|]. specialize (Hd Hi). lia.
  - pose proof (wf_positive _ Hwf). lia.
  - intros n' s'. set (f' := mkFile _ _ _ _ _ _ _).
    assert (Hm : ∀ i, i ∈ a ++ b → matches f' n' s' i = matches f n' s' i).
    { intros i Hi. unfold matches, f'. cbn [file_sections]. rewrite lookup_insert_ne; [done|]. intros <-. done. }
    assert (Hi : matches f' n' s' id = has_name n' s' (header c)) by (unfold matches, f'; cbn [file_sections]; by rewrite lookup_insert_eq).
    unfold ids_of. cbn [section_order f']. rewrite filter_one, Hi, (filter_ext_in _ (matches f n' s') a), (filter_ext_in _ (matches f n' s') b) by
      (intros i Hi'; apply Hm; set_solver).
    pose proof (wf_tree _ Hwf n' s') as Hold. unfold ids_of in Hold. rewrite Ho, filter_app in Hold.
    unfold tree_ids in *. cbn [section_lookup_tree f']. unfold has_name. fold n s.
    destruct (decide (name_key n' = name_key n)) as [En|En]; [|rewrite lookup_insert_ne, bool_decide_eq_false_2 by naive_solver; exact Hold].
    rewrite En in *. rewrite lookup_insert_eq. cbn [mbind option_bind]. destruct (decide (s' = s)) as [->|Es].
    + rewrite E2, bool_decide_eq_true_2 by done. cbn. unfold ids, matches, has_name. by rewrite En.
    + rewrite E3, bool_decide_eq_false_2 by naive_solver. cbn [app]. rewrite <- Hold. by destruct (section_lookup_tree f !! name_key n).
  - intros k nodes'. destruct (decide (k = name_key n)) as [->|Hk]; [|rewrite lookup_insert_ne by done; apply (wf_nodes _ Hwf)].
    rewrite lookup_insert_eq. intros [= <-]. apply E4. destruct (section_lookup_tree f !! name_key n) as [nodes0|] eqn:Et; [by apply (wf_nodes _ Hwf (name_key n))|constructor].
Qed.

(** What a change of the sections leaves as it is. *)
Definition rest_kept f f' : Prop :=
  frontmatter_events f' = frontmatter_events f ∧ frontmatter_post_section f' = frontmatter_post_section f ∧ file_meta f' = file_meta f.
Lemma push_section_internal_ok f (c : ConfSection) : wf f → let id := section_id_counter f in
  ∃ f', push_section_internal f c = Ok (id, f') ∧ wf f' ∧ section_order f' = section_order f ++ [id] ∧
    file_sections f' = <[id := with_id c id]> (file_sections f) ∧ section_id_counter f' = id + 1 ∧ rest_kept f f'.
Proof.
  intros Hwf id. apply (add_section_wf f c _ _ (section_order f) []); [done|by rewrite app_nil_r|done| |done]. by rewrite filter_nil, app_nil_r.
Qed.
Lemma order_position (order : list SectionId) i id : NoDup order → order !! i = Some id → lookup_section_order order id = Ok i.
Proof.
  intros Hn Hi. unfold lookup_section_order. replace (find_index _ order) with (Some i); [done|]. symmetry. apply find_index_Some. split.
  - exists id. split; [done|by apply bool_decide_eq_true_2].
  - intros j x Hj Hx. apply bool_decide_eq_false_2. intros ->. pose proof (NoDup_lookup _ _ _ _ Hn Hx Hi). lia.
Qed.
Lemma find_pos_ok (order : list SectionId) before idx l1 l2 :
  (∀ id, id ∈ l1 → ∃ i, lookup_section_order order id = Ok i ∧ (i < before)%nat) →
  match l2 with [] => True | id :: _ => ∃ i, lookup_section_order order id = Ok i ∧ (before < i)%nat end →
  find_insert_pos_loop order before idx (l1 ++ l2) = Ok (idx + length l1)%nat.
Proof.
  intros H1 H2. revert idx. induction l1 as [|id l1 IH]; intros idx; cbn [app find_insert_pos_loop length].
  - rewrite Nat.add_0_r. destruct l2 as [|id l2]; [done|]. destruct H2 as (i & E & Hi). cbn [find_insert_pos_loop]. rewrite E, bind_Ok. by rewrite (proj2 (Nat.compare_gt_iff _ _)).
  - destruct (H1 id) as (i & E & Hi); [by left|]. rewrite E, bind_Ok, (proj2 (Nat.compare_lt_iff _ _)) by done. rewrite IH by (intros j Hj; apply H1; by right). f_equal. lia.
Qed.
Lemma find_pos_at (order : list SectionId) before idx l1 id l2 :
  (∀ id, id ∈ l1 → ∃ i, lookup_section_order order id = Ok i ∧ (i < before)%nat) → lookup_section_order order id = Ok before →
  find_insert_pos_loop order before idx (l1 ++ id :: l2) = Ok (idx + length l1 + 1)%nat.
Proof.
  intros H1 E. revert idx. induction l1 as [|id1 l1 IH]; intros idx; cbn [app find_insert_pos_loop length].
  - rewrite E, bind_Ok, Nat.compare_refl. f_equal. lia.
  - destruct (H1 id1) as (i & E1 & Hi); [by left|]. rewrite E1, bind_Ok, (proj2 (Nat.compare_lt_iff _ _)) by done. rewrite IH by (intros j Hj; apply H1; by right). f_equal. lia.
Qed.
Lemma insert_section_after_ok f (c : ConfSection) a before b : wf f → section_order f = a ++ before :: b → let id := section_id_counter f in
  ∃ f', insert_section_after f c before = Ok (id, f') ∧ wf f' ∧ section_order f' = a ++ before :: id :: b ∧
    file_sections f' = <[id := with_id c id]> (file_sections f) ∧ section_id_counter f' = id + 1 ∧ rest_kept f f'.
Proof.
  intros Hwf Ho id. pose proof (wf_nodup _ Hwf) as Hn. unfold insert_section_after.
  rewrite (order_position _ (length a) before Hn) by (rewrite Ho; by apply list_lookup_middle). rewrite bind_Ok.
  assert (Ho' : section_order f = (a ++ [before]) ++ b) by (by rewrite <- app_assoc).
  destruct (add_section_wf f c (λ ids, insert_pos ← find_insert_pos_by_order (section_order f) ids (length a); vec_insert insert_pos id ids)
    (λ order, vec_insert (length a + 1) id order) (a ++ [before]) b Hwf Ho') as (f' & E & Hw & Hord & H).
  - done.
  - set (p := matches f (name (header c)) (subsection_name (header c))). unfold find_insert_pos_by_order. rewrite filter_app, filter_cons, filter_nil.
    assert (Ha : ∀ i, i ∈ filter (λ i, p i = true) a → ∃ k, lookup_section_order (section_order f) i = Ok k ∧ (k < length a)%nat).
    { intros i [_ [k Hk]%list_elem_of_lookup]%list_elem_of_filter. exists k. pose proof (lookup_lt_Some _ _ _ Hk). split; [|done].
      apply order_position; [done|]. rewrite Ho. by rewrite lookup_app_l. }
    case_decide as Hp.
    + rewrite <- app_assoc. cbn [app]. rewrite (find_pos_at _ _ 0) by first [done|apply order_position; [done|rewrite Ho; by apply list_lookup_middle]].
      rewrite bind_Ok. change (before :: ?l) with ([before] ++ l). rewrite app_assoc, vec_insert_app by (rewrite length_app; cbn; lia). by rewrite <- !app_assoc.
    + rewrite app_nil_r, (find_pos_ok _ _ 0); [by rewrite bind_Ok, vec_insert_app|done|]. destruct (filter _ b) as [|i l] eqn:Eb; [done|].
      assert (Hi : i ∈ b) by (assert (i ∈ filter (λ i, p i = true) b) as [_ ?]%list_elem_of_filter by (rewrite Eb; by left); done).
      apply list_elem_of_lookup in Hi as [k Hk]. exists (length a + S k)%nat. split; [|lia]. apply order_position; [done|]. rewrite Ho, lookup_app_r by lia.
      by replace (length a + S k - length a)%nat with (S k) by lia.
  - rewrite Ho'. apply vec_insert_app. rewrite length_app. cbn. lia.
  - exists f'. split; [exact E|]. split; [done|]. split; [by rewrite Hord, <- app_assoc|done].
Qed.
Lemma remove_section_by_id_ok f id (c : ConfSection) a b : wf f → section_order f = a ++ id :: b → file_sections f !! id = Some c →
  ∃ f', remove_section_by_id f id = Ok (Some c, f') ∧ wf f' ∧ section_order f' = a ++ b ∧ file_sections f' = base.delete id (file_sections f) ∧
    section_id_counter f' = section_id_counter f ∧ rest_kept f f'.
Proof.
  intros Hwf Ho Hc. pose proof (wf_nodup _ Hwf) as Hn. rewrite Ho in Hn. apply NoDup_app in Hn as (Hna & Hnd & [Hnb Hn]%NoDup_cons).
  assert (Hia : id ∉ a) by (intros Hi; apply (Hnd id Hi); by left).
  set (n := name (header c)). set (s := subsection_name (header c)).
  assert (Hids : ids_of f n s = filter (λ i, matches f n s i = true) a ++ id :: filter (λ i, matches f n s i = true) b).
  { unfold ids_of. rewrite Ho, filter_one. assert (matches f n s id = true) as ->; [|done]. unfold matches. rewrite Hc. by apply bool_decide_eq_true_2. }
  pose proof (wf_tree _ Hwf n s) as Ht. rewrite Hids in Ht. unfold tree_ids in Ht.
  destruct (section_lookup_tree f !! name_key n) as [nodes|] eqn:Hk; [|by apply (f_equal length) in Ht; rewrite length_app in Ht; cbn in Ht; lia].
  cbn [mbind option_bind] in Ht. destruct (node_ids s nodes) as [ids|] eqn:Hnode; [|by apply (f_equal length) in Ht; rewrite length_app in Ht; cbn in Ht; lia].
  cbn in Ht. subst ids. destruct (node_ids_remove _ _ _ _ _ Hnode) as (nodes' & E1 & E2 & E3 & E4); [by intros [_ Hi]%list_elem_of_filter|].
  unfold remove_section_by_id. rewrite Ho, position_app, vec_remove_app by done. rewrite bind_Ok. cbn [file_sections with_order section_lookup_tree].
  rewrite Hc. fold n s. rewrite Hk. cbn [expect]. rewrite bind_Ok, E1, bind_Ok. eexists. split; [done|]. split; [|done].
  split; cbn [section_order file_sections section_id_counter section_lookup_tree with_tree with_order].
  - apply NoDup_app. split_and!; [done| |done]. intros i Hi Hi'. apply (Hnd i Hi). by right.
  - intros i. pose proof (wf_dom _ Hwf i) as Hd. rewrite Ho in Hd. rewrite lookup_delete_is_Some, <- Hd. set_solver.
  - intros i Hi. apply (wf_counter _ Hwf). rewrite Ho. set_solver.
  - apply (wf_positive _ Hwf).
  - intros n' s'. set (f' := with_tree _ _).
    assert (Hm : ∀ i, i ∈ a ++ b → matches f' n' s' i = matches f n' s' i).
    { intros i Hi. unfold matches, f'. cbn. rewrite lookup_delete_ne; [done|]. intros <-. set_solver. }
    assert (Hf : ids_of f' n' s' = filter (λ i, matches f n' s' i = true) a ++ filter (λ i, matches f n' s' i = true) b).
    { unfold ids_of. cbn [section_order f' with_tree with_order]. rewrite filter_app. f_equal; apply filter_ext_in; intros i Hi; apply Hm; set_solver. }
    rewrite Hf. pose proof (wf_tree _ Hwf n' s') as Hold. unfold ids_of in Hold. rewrite Ho, filter_one in Hold.
    unfold tree_ids in *. cbn [section_lookup_tree f' with_tree with_order].
    assert (Hi : matches f n' s' id = has_name n' s' (header c)) by (unfold matches; by rewrite Hc).
    rewrite Hi in Hold. unfold has_name in Hold. fold n s in Hold.
    destruct (decide (name_key n' = name_key n)) as [En|En]; [|rewrite lookup_insert_ne by done; rewrite bool_decide_eq_false_2 in Hold by naive_solver; exact Hold].
    rewrite En in *. rewrite lookup_insert_eq. cbn [mbind option_bind]. destruct (decide (s' = s)) as [->|Es].
    + rewrite E2. cbn. unfold matches, has_name. by rewrite En.
    + rewrite E3 by done. rewrite bool_decide_eq_false_2 in Hold by naive_solver. rewrite Hk in Hold. exact Hold.
  - intros k nodes0. destruct (decide (k = name_key n)) as [->|Hne]; [|rewrite lookup_insert_ne by done; apply (wf_nodes _ Hwf)].
    rewrite lookup_insert_eq. intros [= <-]. rewrite E4. by apply (wf_nodes _ Hwf (name_key n)).
Qed.
(** Changing the events of a section, or what is between the sections, changes
    no name. *)
Lemma wf_matches f f' : wf f → section_order f' = section_order f → section_lookup_tree f' = section_lookup_tree f → section_id_counter f' = section_id_counter f →
  (∀ id, is_Some (file_sections f' !! id) ↔ is_Some (file_sections f !! id)) → (∀ n s i, matches f' n s i = matches f n s i) → wf f'.
Proof.
  intros Hwf Ho Ht Hc Hs Hm. split.
  - rewrite Ho. apply (wf_nodup _ Hwf).
  - intros id. by rewrite Ho, (wf_dom _ Hwf), Hs.
  - intros id. rewrite Ho, Hc. apply (wf_counter _ Hwf).
  - rewrite Hc. apply (wf_positive _ Hwf).
  - intros n s. pose proof (wf_tree _ Hwf n s) as H. unfold tree_ids, ids_of in *. rewrite Ht, Ho, H. apply filter_ext_in. intros i _. by rewrite Hm.
  - intros n nodes. rewrite Ht. apply (wf_nodes _ Hwf).
Qed.
Lemma wf_kept f f' : wf f → section_order f' = section_order f → section_lookup_tree f' = section_lookup_tree f → section_id_counter f' = section_id_counter f →
  (∀ id, header <$> file_sections f' !! id = header <$> file_sections f !! id) → wf f'.
Proof.
  intros Hwf Ho Ht Hc Hs. apply (wf_matches f); [done..| |].
  - intros id. rewrite <- (fmap_is_Some header (file_sections f' !! id)), Hs. apply fmap_is_Some.
  - intros n s i. specialize (Hs i). unfold matches. destruct (file_sections f' !! i), (file_sections f !! i); cbn in Hs; try done. by injection Hs as ->.
Qed.
Lemma put_back_wf f id s : wf f → wf (put_back f id s).
Proof.
  intros Hwf. apply (wf_kept f); [done..|]. intros i. unfold put_back. cbn [file_sections]. destruct (decide (i = id)) as [->|Hi].
  - rewrite lookup_alter_eq. by destruct (file_sections f !! id).
  - by rewrite lookup_alter_ne.
Qed.

(** *** The contents of a file *)

Definition content (c : ConfSection) : Header * list Event * Meta := (header c, body c, meta c).
Definition views (m : gmap SectionId ConfSection) (order : list SectionId) : list (Header * list Event * Meta) := omap (λ id, content <$> m !! id) order.
(** The sections in their order, without their ids. *)
Definition view f : list (Header * list Event * Meta) := views (file_sections f) (section_order f).
Lemma views_ext m m' order : (∀ id, id ∈ order → content <$> m' !! id = content <$> m !! id) → views m' order = views m order.
Proof.
  intros H. unfold views. induction order as [|i order IH]; [done|]. cbn. rewrite H by left. rewrite IH; [done|]. intros j Hj. apply H. by right.
Qed.
Lemma views_app m a b : views m (a ++ b) = views m a ++ views m b.
Proof. apply omap_app. Qed.
Lemma views_insert m (id : SectionId) (c : ConfSection) a b : id ∉ a ++ b →
  views (<[id := with_id c id]> m) (a ++ id :: b) = views m a ++ content c :: views m b.
Proof.
  intros Hid. rewrite views_app. cbn. rewrite lookup_insert_eq. cbn. f_equal; [|f_equal]; apply views_ext; intros i Hi; (rewrite lookup_insert_ne; [done|intros <-; set_solver]).
Qed.
Lemma views_delete m (id : SectionId) a b : id ∉ a ++ b → views (base.delete id m) (a ++ b) = views m (a ++ b).
Proof. intros Hid. apply views_ext. intros i Hi. rewrite lookup_delete_ne; [done|]. by intros <-. Qed.
Lemma views_length m order : (∀ id, id ∈ order → is_Some (m !! id)) → length (views m order) = length order.
Proof.
  induction order as [|i order IH]; intros H; [done|]. cbn. destruct (H i) as [c Hc]; [by left|]. rewrite Hc. cbn. f_equal. apply IH. intros j Hj. apply H. by right.
Qed.
Lemma push_view f (c : ConfSection) f' : wf f → section_order f' = section_order f ++ [section_id_counter f] →
  file_sections f' = <[section_id_counter f := with_id c (section_id_counter f)]> (file_sections f) → view f' = view f ++ [content c].
Proof.
  intros Hwf Ho Hs. unfold view. rewrite Ho, Hs. rewrite views_insert; [done|]. rewrite app_nil_r. intros H%(wf_counter _ Hwf). lia.
Qed.
Lemma wf_section f id : wf f → id ∈ section_order f → ∃ c, file_sections f !! id = Some c.
Proof. intros Hwf. by rewrite (wf_dom _ Hwf). Qed.
Lemma wf_split f id : wf f → id ∈ section_order f → ∃ a b c, section_order f = a ++ id :: b ∧ file_sections f !! id = Some c ∧ id ∉ a ∧ id ∉ b ∧
  view f = views (file_sections f) a ++ content c :: views (file_sections f) b.
Proof.
  intros Hwf Hid. destruct (wf_section f id Hwf Hid) as [c Hc]. apply list_elem_of_split in Hid as (a & b & Ho). exists a, b, c. split; [done|]. split; [done|].
  pose proof (wf_nodup _ Hwf) as Hn. rewrite Ho in Hn. apply NoDup_app in Hn as (_ & Hnd & [Hnb _]%NoDup_cons). split_and!; [|done|].
  - intros Hi. apply (Hnd id Hi). by left.
  - unfold view. rewrite Ho, views_app. cbn. by rewrite Hc.
Qed.

(** *** Looking up *)

Lemma ids_of_in f n s id : id ∈ ids_of f n s → id ∈ section_order f ∧ matches f n s id = true.
Proof. intros [H1 H2]%list_elem_of_filter. done. Qed.
Lemma section_ids_ok f n s : wf f →
  section_ids_by_name_and_subname f n s = Ok (ids_of f n s) ∨
  ids_of f n s = [] ∧ ∃ e, section_ids_by_name_and_subname f n s = Err e ∧ e ≠ KeyMissing.
Proof.
  intros Hwf. rewrite <- (wf_tree _ Hwf). unfold tree_ids, section_ids_by_name_and_subname. destruct (section_lookup_tree f !! name_key n) as [nodes|]; cbn.
  - destruct (node_ids s nodes) as [ids|]; [by left|right]. split; [done|]. by exists SubSectionMissing.
  - right. split; [done|]. by exists SectionMissing.
Qed.
Lemma section_at_ok {E} f id : wf f → id ∈ section_order f → ∃ c, section_at (E := E) f id = Ok c ∧ file_sections f !! id = Some c.
Proof. intros Hwf Hid. destruct (wf_section f id Hwf Hid) as [c Hc]. exists c. unfold section_at. by rewrite Hc. Qed.
(** The sections of the ids are those of the view that have the name. *)
Lemma views_ids f n s : views (file_sections f) (ids_of f n s) = filter (λ x, has_name n s x.1.1 = true) (view f).
Proof.
  unfold ids_of, view. generalize (section_order f) as order. induction order as [|id order IH]; [done|].
  change (views (file_sections f) (id :: order)) with (views (file_sections f) ([id] ++ order)). rewrite views_app, filter_app, <- IH, filter_cons.
  assert (Hm : matches f n s id = match file_sections f !! id with Some c => has_name n s (header c) | None => false end) by done.
  unfold views at 3. cbn. destruct (file_sections f !! id) as [c|] eqn:Hc; cbn.
  - repeat case_decide; try congruence; [|done]. unfold views. cbn. by rewrite Hc.
  - case_decide; [congruence|done].
Qed.
End Wf.

(** ** Theorems: values *)

Section Values.
Context `{BA : !bstr.Api} `{BL : !bstr.Laws} {Meta : Type}.
#[local] Notation File := (File Meta).
Implicit Types f other : File.

(** Reading a value never panics, whatever the events are. *)
Lemma key_range_bounds k len l vs ve ks a b : key_range_loop k l vs ve = Some (ks, (a, b)) → StronglySorted (λ x y, y.1 < x.1)%nat l →
  Forall (λ x, x.1 < len)%nat l → (vs ≤ ve)%nat → (ve = 0 ∨ ve < len ∧ Forall (λ x, x.1 < ve) l)%nat → (a ≤ b ∧ (b = 0 ∨ b < len) ∧ ks < len)%nat.
Proof.
  revert vs ve. induction l as [|[i e] l IH]; intros vs ve H Hs Hl Hle Hve; [done|].
  apply StronglySorted_inv in Hs as [Hs Hlt]. apply Forall_cons in Hl as [Hi Hl]. cbn in H, Hi. assert (Hve' : ve = 0%nat ∨ (ve < len)%nat ∧ Forall (λ x, x.1 < ve)%nat l) by (destruct Hve as [|[? [_ ?]%Forall_cons]]; tauto).
  assert (Hlt' : Forall (λ x : nat * Event, x.1 < i)%nat l) by exact Hlt.
  destruct e as [| |n|v| |v|v| |]; try by apply (IH _ _ H). 
  - destruct (same_name n k); [|by apply (IH _ _ H); try done; left]. injection H as <- <- <-. split_and!; [done| |done]. tauto.
  - apply (IH _ _ H); try done. by right.
  - destruct (Nat.eqb_spec ve 0) as [Ez|Hne]; [rewrite Ez in *|]; apply (IH _ _ H); try done.
    + lia.
    + right. split; [done|]. exact Hlt'.
    + destruct Hve as [|[_ [Hv _]%Forall_cons]]; [done|]. cbn in Hv. lia.
  - destruct (Nat.eqb_spec ve 0) as [Ez|Hne]; [rewrite Ez in *|]; apply (IH _ _ H); try done.
    + lia.
    + right. split; [done|]. exact Hlt'.
    + destruct Hve as [|[_ [Hv _]%Forall_cons]]; [done|]. cbn in Hv. lia.
Qed.
Lemma enumerate_sorted (l : list Event) : StronglySorted (λ x y, y.1 < x.1)%nat (rev (enumerate_events l)) ∧
  Forall (λ x, x.1 < length l)%nat (rev (enumerate_events l)).
Proof.
  induction l as [|e l [IH1 IH2]] using rev_ind; [by split; constructor|]. rewrite enumerate_events_app, rev_app_distr, length_app. cbn. rewrite Nat.add_1_r.
  split; constructor; [done|done|cbn; lia|]. eapply Forall_impl; [exact IH2|]. intros x Hx. cbn in *. lia.
Qed.
Definition value_of (body : list Event) (k : bytes) : option bytes := match value body k with Ok v => v | _ => None end.
Lemma concat_value_total c es : ∃ v, concat_value c es = Ok v.
Proof.
  revert c. induction es as [|e es IH]; intros c; [by exists None|].
  destruct e; cbn [concat_value]; rewrite ?normalize_unescapes; cbn; eauto.
Qed.
Lemma value_total body k : value body k = Ok (value_of body k).
Proof.
  unfold value_of, value, value_implicit, key_and_value_range_by.
  destruct (key_range_loop k (rev (enumerate_events body)) 0 0) as [[ks [a b]]|] eqn:E; [|done]. cbv zeta.
  destruct (enumerate_sorted body) as [Hs Hl]. destruct (key_range_bounds k (length body) _ _ _ _ _ _ E Hs Hl) as (H1 & H2 & H3); [lia|by left|].
  destruct (a =? ks + 1)%nat; [done|]. unfold slice, get_range. rewrite (proj2 (Nat.leb_le a (S b))), (proj2 (Nat.leb_le (S b) (length body))) by lia. cbn [andb expect mbind res_bind].
  destruct (concat_value_total [] (take (S b - a) (drop a body))) as [v ->]. done.
Qed.
Definition values_of (body : list Event) (k : bytes) : list bytes := match values body k with Ok vs => vs | _ => [] end.
Lemma values_total body k : values body k = Ok (values_of body k).
Proof.
  unfold values_of. cut (∃ vs, values body k = Ok vs); [by intros [vs ->]|]. unfold values. generalize false as b. generalize (@nil Z) as c.
  induction body as [|e body IH]; intros c b; [by exists []|].
  assert (IH' : ∀ c b x, ∃ vs, (vs ← values_loop k b c body; Ok (x :: vs)) = Ok vs) by (intros c' b' x; destruct (IH c' b') as [vs ->]; by exists (x :: vs)).
  destruct e; cbn [values_loop]; try apply IH; destruct b; rewrite ?normalize_unescapes; cbn; try apply IH; apply IH'.
Qed.

(** Neither does setting one. *)
Lemma replace_total sm a b v : (a ≤ b)%nat → (b < length (sbody sm))%nat →
  ∃ old sm', remove_internal sm (a, S b) false ≫= (λ '(ret, s), events ← vec_insert a v (sbody s); Ok (Some ret, with_body s events)) =
    Ok (Some old, sm' : SectionMut).
Proof.
  intros Hab Hb. unfold remove_internal. cbn [andb]. rewrite bind_Ok. unfold vec_drain.
  rewrite (proj2 (Nat.leb_le a (S b))), (proj2 (Nat.leb_le (S b) _)) by lia. cbn [andb mbind res_bind with_body sbody].
  unfold vec_insert. rewrite (proj2 (Nat.leb_le a _)); [by do 2 eexists|]. rewrite length_app, length_take, length_drop. lia.
Qed.
Lemma set_total (sm : SectionMut) k v : ∃ old sm', set sm k v = Ok (old, sm').
Proof.
  unfold set, key_and_value_range_by.
  destruct (key_range_loop k (rev (enumerate_events (sbody sm))) 0 0) as [[ks [a b]]|] eqn:E; [|by do 2 eexists].
  destruct (enumerate_sorted (sbody sm)) as [Hs Hl]. destruct (key_range_bounds k (length (sbody sm)) _ _ _ _ _ _ E Hs Hl) as (H1 & H2 & H3); [lia|by left|].
  cbv zeta beta. destruct (a =? ks + 1)%nat; cbn [default from_option fst snd id].
  - rewrite Nat.sub_succ, Nat.sub_0_r. destruct (replace_total sm b b (Value (escape_value v))) as (old & sm' & ->); [lia|lia|by do 2 eexists].
  - destruct (replace_total sm a b (Value (escape_value v))) as (old & sm' & ->); [lia|lia|by do 2 eexists].
Qed.

(** *** The last one wins *)

(** The contents of the sections with a name that are looked at, in order. *)
Definition candidates (n : bytes) (s : option bytes) (keep : Meta → bool) (v : list (Header * list Event * Meta)) : list (Header * list Event * Meta) :=
  filter (λ x, keep x.2 = true) (filter (λ x, has_name n s x.1.1 = true) v).
Lemma raw_value_loop_ok f k keep ids : wf f → (∀ id, id ∈ ids → id ∈ section_order f) →
  raw_value_loop f k keep ids =
    match head (omap (λ x, value_of x.1.2 k) (filter (λ x, keep x.2 = true) (views (file_sections f) ids))) with Some v => Ok v | None => Err KeyMissing end.
Proof.
  intros Hwf. induction ids as [|id ids IH]; intros H; [done|]. cbn [raw_value_loop].
  destruct (section_at_ok (E := LookupError) f id Hwf) as (c & -> & Hc); [apply H; by left|]. rewrite bind_Ok.
  unfold views. cbn [omap list_omap]. rewrite Hc. cbn [fmap option_fmap option_map]. change (omap _ ids) with (views (file_sections f) ids).
  rewrite filter_cons. change (content c).2 with (meta c). rewrite IH by (intros i Hi; apply H; by right).
  destruct (keep (meta c)); case_decide; try done. rewrite value_total. cbn. by destruct (value_of (body c) k).
Qed.
Lemma raw_values_loop_ok f k keep ids : wf f → (∀ id, id ∈ ids → id ∈ section_order f) →
  raw_values_loop f k keep ids = Ok (concat ((λ x, values_of x.1.2 k) <$> filter (λ x, keep x.2 = true) (views (file_sections f) ids))).
Proof.
  intros Hwf. induction ids as [|id ids IH]; intros H; [done|]. cbn [raw_values_loop].
  destruct (section_at_ok (E := LookupError) f id Hwf) as (c & -> & Hc); [apply H; by left|]. rewrite bind_Ok.
  unfold views. cbn [omap list_omap]. rewrite Hc. cbn [fmap option_fmap option_map]. change (omap _ ids) with (views (file_sections f) ids).
  rewrite filter_cons. change (content c).2 with (meta c). rewrite IH by (intros i Hi; apply H; by right).
  destruct (keep (meta c)); case_decide; try done. by rewrite values_total.
Qed.
Lemma views_rev (m : gmap SectionId (ConfSection Meta)) ids : views m (rev ids) = rev (views m ids).
Proof.
  induction ids as [|id ids IH]; [done|]. cbn [rev]. rewrite views_app, IH. unfold views at 2 3. cbn. destruct (m !! id); cbn; [done|by rewrite app_nil_r].
Qed.
Lemma filter_rev {A} (p : A → bool) (l : list A) : filter (λ x, p x = true) (rev l) = rev (filter (λ x, p x = true) l).
Proof. induction l as [|x l IH]; [done|]. cbn [rev]. rewrite filter_app, IH, !filter_cons, filter_nil. by case_decide; cbn; rewrite ?app_nil_r. Qed.
Lemma omap_rev {A B} (g : A → option B) (l : list A) : omap g (rev l) = rev (omap g l).
Proof. induction l as [|x l IH]; [done|]. cbn [rev]. rewrite omap_app, IH. cbn. by destruct (g x); cbn; rewrite ?app_nil_r. Qed.
Lemma head_rev {A} (l : list A) : head (rev l) = last l.
Proof. induction l as [|x l _] using rev_ind; [done|]. rewrite rev_app_distr, last_snoc. done. Qed.

Lemma elem_of_rev {A} (x : A) l : x ∈ rev l → x ∈ l.
Proof. rewrite !list_elem_of_In. apply in_rev. Qed.

Lemma raw_value_ok f n s k keep : wf f →
  match last (omap (λ x, value_of x.1.2 k) (candidates n s keep (view f))) with
  | Some v => raw_value_filter_by f n s k keep = Ok v
  | None => ∃ e, raw_value_filter_by f n s k keep = Err e
  end.
Proof.
  intros Hwf. unfold candidates. rewrite <- views_ids. unfold raw_value_filter_by.
  destruct (section_ids_ok f n s Hwf) as [->|(-> & e & -> & _)]; [|by exists e]. rewrite bind_Ok, raw_value_loop_ok by
    (try done; by intros id [? _]%elem_of_rev%ids_of_in).
  rewrite views_rev, filter_rev, omap_rev, head_rev. destruct (last _); [done|by exists KeyMissing].
Qed.

(** C11: In a file that has the invariant - its sections, their order and the tree
    for looking them up agree, as in every file that no section was renamed in
    or removed from with a filter -, looking up a value gives that of the last section, in the order of the
    file, that has the name and the subsection, passes the filter, and has a
    value for the key; and looking up all of them gives those of all of these
    sections, in order. It fails exactly if there are none, and never panics. *)
Theorem raw_value_last_wins f n s k keep : wf f →
  (let found := omap (λ x, value_of x.1.2 k) (candidates n s keep (view f)) in
   match last found with Some v => raw_value_filter_by f n s k keep = Ok v | None => ∃ e, raw_value_filter_by f n s k keep = Err e end) ∧
  (let found := concat ((λ x, values_of x.1.2 k) <$> candidates n s keep (view f)) in
   match found with [] => ∃ e, raw_values_filter_by f n s k keep = Err e | _ => raw_values_filter_by f n s k keep = Ok found end) ∧
  ∀ body, value body k = Ok (value_of body k) ∧ values body k = Ok (values_of body k).
Proof.
  intros Hwf. split_and!.
  - by apply raw_value_ok.
  - unfold candidates. rewrite <- views_ids. unfold raw_values_filter_by. cbv zeta.
    destruct (section_ids_ok f n s Hwf) as [->|(-> & e & -> & _)]; [|by exists e]. rewrite bind_Ok, raw_values_loop_ok by
      (try done; by intros id [? _]%ids_of_in). rewrite bind_Ok. destruct (concat _); [by exists KeyMissing|done].
  - intros b. split; [apply value_total|apply values_total].
Qed.
End Values.

(** ** Theorems: operations on the list of sections *)

Section Edits.
Context `{BA : !bstr.Api} {Meta : Type}.
#[local] Notation File := (File Meta).
#[local] Notation ConfSection := (ConfSection Meta).
#[local] Notation View := (list (Header * list Event * Meta)).
Implicit Types f other : File.

(** The newline that is used for what is added. *)
Definition newline_of (front : list Event) (v : View) : bytes := default platform_newline (head (omap extract_newline (front ++ concat ((λ x, x.1.2) <$> v)))).
Lemma head_app {A} (a b : list A) : head (a ++ b) = match head a with Some x => Some x | None => head b end.
Proof. by destruct a. Qed.
Lemma detect_ok f : wf f → detect_newline_style f = Ok (newline_of (frontmatter_events f) (view f)).
Proof.
  intros Hwf. unfold detect_newline_style, newline_of. rewrite omap_app, head_app. destruct (head (omap _ (frontmatter_events f))); [done|].
  unfold view. assert (H : ∀ id, id ∈ section_order f → is_Some (file_sections f !! id)) by (intros id; apply (wf_dom _ Hwf)).
  induction (section_order f) as [|id order IH]; [done|]. cbn [detect_loop]. destruct (H id) as [c Hc]; [by left|]. unfold section_at. rewrite Hc. cbn [expect mbind res_bind].
  change (id :: order) with ([id] ++ order). rewrite views_app. unfold views at 1. cbn. rewrite Hc. cbn. rewrite omap_app, head_app.
  destruct (head (omap extract_newline (body c))); [done|]. apply IH. intros i Hi. apply H. by right.
Qed.
Lemma section_mut_at_ok {E} f id c : wf f → file_sections f !! id = Some c →
  section_mut_at (E := E) f id = Ok (id, to_mut c (newline_of (frontmatter_events f) (view f))).
Proof. intros Hwf Hc. unfold section_mut_at, section_at. by rewrite (detect_ok f Hwf), Hc. Qed.

(** Taking the last element that is wanted out of a list, or changing it. *)
Fixpoint take_last {A} (p : A → bool) (l : list A) : option (A * list A) :=
  match l with
  | [] => None
  | x :: l => match take_last p l with Some (y, l') => Some (y, x :: l') | None => if p x then Some (x, l) else None end
  end.
Fixpoint update_last {A} (p : A → bool) (g : A → A) (l : list A) : option (list A) :=
  match l with
  | [] => None
  | x :: l => match update_last p g l with Some l' => Some (x :: l') | None => if p x then Some (g x :: l) else None end
  end.
Lemma take_last_none {A} (p : A → bool) l : Forall (λ x, p x = false) l → take_last p l = None.
Proof. induction 1 as [|x l Hx _ IH]; [done|]. cbn. by rewrite IH, Hx. Qed.
Lemma update_last_none {A} (p : A → bool) g l : Forall (λ x, p x = false) l → update_last p g l = None.
Proof. induction 1 as [|x l Hx _ IH]; [done|]. cbn. by rewrite IH, Hx. Qed.
Lemma take_last_app {A} (p : A → bool) a x b : p x = true → Forall (λ x, p x = false) b → take_last p (a ++ x :: b) = Some (x, a ++ b).
Proof. intros Hx Hb. induction a as [|y a IH]; cbn; [by rewrite take_last_none, Hx|by rewrite IH]. Qed.
Lemma update_last_app {A} (p : A → bool) g a x b : p x = true → Forall (λ x, p x = false) b → update_last p g (a ++ x :: b) = Some (a ++ g x :: b).
Proof. intros Hx Hb. induction a as [|y a IH]; cbn; [by rewrite update_last_none, Hx|by rewrite IH]. Qed.
Lemma filter_last {A} (p : A → bool) (l : list A) :
  match last (filter (λ x, p x = true) l) with
  | Some x => ∃ a b, l = a ++ x :: b ∧ p x = true ∧ Forall (λ x, p x = false) b
  | None => Forall (λ x, p x = false) l
  end.
Proof.
  induction l as [|x l IH] using rev_ind; [by constructor|]. rewrite filter_app, filter_cons, filter_nil. case_decide as Hx.
  - rewrite last_snoc. exists l, []. by split_and!.
  - rewrite app_nil_r. apply not_true_is_false in Hx. destruct (last (filter _ l)) as [y|].
    + destruct IH as (a & b & -> & Hp & Hb). exists a, (b ++ [x]). rewrite <- app_assoc. split_and!; [done|done|]. apply Forall_app. by split; [|constructor].
    + apply Forall_app. by split; [|constructor].
Qed.
(** A section that is the last with some property. *)
Lemma views_split f (p : Header * list Event * Meta → bool) id a b c : wf f → section_order f = a ++ id :: b → file_sections f !! id = Some c →
  Forall (λ i, match file_sections f !! i with Some c => p (content c) = false | None => True end) b →
  Forall (λ x, p x = false) (views (file_sections f) b) ∧ view f = views (file_sections f) a ++ content c :: views (file_sections f) b ∧ id ∉ a ∧ id ∉ b.
Proof.
  intros Hwf Ho Hc Hb. pose proof (wf_nodup _ Hwf) as Hn. rewrite Ho in Hn. apply NoDup_app in Hn as (_ & Hnd & [Hnb _]%NoDup_cons). split_and!; [| | |done].
  - unfold views. apply Forall_forall. intros x (i & Hi & Hx)%list_elem_of_omap. rewrite Forall_forall in Hb. specialize (Hb i Hi). cbv beta in *.
    destruct (file_sections f !! i); [|done]. injection Hx as <-. done.
  - unfold view. rewrite Ho, views_app. cbn. by rewrite Hc.
  - intros Hi. apply (Hnd id Hi). by left.
Qed.
(** The section that is found for a name, a subsection and a filter. *)
Definition wanted (n : bytes) (s : option bytes) (keep : Meta → bool) (x : Header * list Event * Meta) : bool := has_name n s x.1.1 && keep x.2.
Definition kept f (keep : Meta → bool) (id : SectionId) : bool := match file_sections f !! id with Some c => keep (meta c) | None => false end.
Lemma find_filtered_ok {E} f keep ids : wf f → (∀ id, id ∈ ids → id ∈ section_order f) →
  find_filtered (E := E) f keep (rev ids) = Ok (last (filter (λ id, kept f keep id = true) ids)).
Proof.
  intros Hwf. induction ids as [|id ids IH] using rev_ind; intros H; [done|]. rewrite rev_app_distr, filter_app, filter_cons, filter_nil. cbn [rev app find_filtered].
  assert (Hid : id ∈ section_order f) by (apply H; set_solver). destruct (section_at_ok (E := E) f id Hwf Hid) as (c & -> & Hc). rewrite bind_Ok.
  assert (Hk : kept f keep id = keep (meta c)) by (unfold kept; by rewrite Hc). rewrite <- Hk. destruct (kept f keep id); case_decide; try done.
  - by rewrite last_snoc.
  - rewrite app_nil_r. apply IH. intros i Hi. apply H. set_solver.
Qed.
Lemma wanted_last f n s keep : wf f →
  match last (filter (λ id, kept f keep id = true) (ids_of f n s)) with
  | Some id => ∃ a b c, section_order f = a ++ id :: b ∧ file_sections f !! id = Some c ∧ wanted n s keep (content c) = true ∧
      Forall (λ x, wanted n s keep x = false) (views (file_sections f) b) ∧ view f = views (file_sections f) a ++ content c :: views (file_sections f) b ∧
      id ∉ a ∧ id ∉ b
  | None => Forall (λ x, wanted n s keep x = false) (view f)
  end.
Proof.
  intros Hwf. unfold ids_of. rewrite list_filter_filter.
  rewrite (list_filter_iff _ (λ id, matches f n s id && kept f keep id = true)) by (intros id; rewrite andb_true_iff; tauto).
  assert (Hw : ∀ i, match file_sections f !! i with
    | Some c => wanted n s keep (content c) = matches f n s i && kept f keep i | None => matches f n s i && kept f keep i = false end).
  { intros i. unfold matches, kept. by destruct (file_sections f !! i). }
  pose proof (filter_last (λ id, matches f n s id && kept f keep id) (section_order f)) as H. cbv beta in H. destruct (last _) as [id|].
  - destruct H as (a & b & Ho & Hid & Hb). pose proof (Hw id) as Hwid. destruct (file_sections f !! id) as [c|] eqn:Hc; [|congruence]. exists a, b, c.
    split; [done|]. split; [done|]. split; [by rewrite Hwid|]. apply (views_split f (wanted n s keep) id a b c Hwf Ho Hc).
    eapply Forall_impl; [exact Hb|]. intros i Hi. cbv beta in *. specialize (Hw i). destruct (file_sections f !! i); [congruence|done].
  - unfold view, views. apply Forall_forall. intros x (i & Hi & Hx)%list_elem_of_omap. rewrite Forall_forall in H. specialize (H i Hi). specialize (Hw i). cbv beta in *.
    destruct (file_sections f !! i); [|done]. injection Hx as <-. congruence.
Qed.
Lemma all_kept f n s : wf f → filter (λ id, kept f (λ _, true) id = true) (ids_of f n s) = ids_of f n s.
Proof.
  intros Hwf. unfold ids_of. rewrite list_filter_filter. apply list_filter_iff. intros id. unfold kept, matches. destruct (file_sections f !! id); naive_solver.
Qed.

(** All sections of a name. *)
Definition has_section_name (n : bytes) (x : Header * list Event * Meta) : bool := bool_decide (name_key (name x.1.1) = name_key n).
Lemma node_ids_nodes nodes id : NoDup (is_terminal <$> nodes) → id ∈ concat (all_node_ids <$> nodes) ↔ ∃ s ids, node_ids s nodes = Some ids ∧ id ∈ ids.
Proof.
  induction nodes as [|node nodes IH]; intros Hn; [split; [set_solver|by intros (s & ids & ? & _)]|]. apply NoDup_cons in Hn as [Hnode Hn].
  cbn [fmap list_fmap concat]. rewrite elem_of_app, (IH Hn). destruct node as [v|m]; cbn [all_node_ids is_terminal] in *.
  - split.
    + intros [Hv|([s|] & ids & E & Hi)]; [by exists None, v|by exists (Some s), ids|]. exfalso. apply Hnode.
      clear -E. induction nodes as [|[v'|m'] nodes IH]; cbn in *; [done|by left|right; by apply IH].
    + intros ([s|] & ids & E & Hi); cbn in E; [right; by exists (Some s), ids|left; by injection E as ->].
  - rewrite list_elem_of_In, in_concat. split.
    + intros [(l & (p & <- & Hp%list_elem_of_In)%in_map_iff & Hi%list_elem_of_In)|([s|] & ids & E & Hi)].
      * destruct p as [s l]. apply elem_of_map_to_list in Hp. exists (Some s), l. done.
      * exfalso. apply Hnode. clear -E. induction nodes as [|[v'|m'] nodes IH]; cbn in *; [done|right; by apply IH|by left].
      * by exists None, ids.
    + intros ([s|] & ids & E & Hi); cbn in E; [left|right; by exists None, ids]. exists ids. split; [|by apply list_elem_of_In]. apply in_map_iff. exists (s, ids). split; [done|].
      apply list_elem_of_In. by apply elem_of_map_to_list.
Qed.
Lemma section_ids_by_name_ok f n ids : wf f → section_ids_by_name f n = Ok ids →
  views (file_sections f) ids = filter (λ x, has_section_name n x = true) (view f) ∧ (∀ id, id ∈ ids → id ∈ section_order f).
Proof.
  intros Hwf. unfold section_ids_by_name. destruct (section_lookup_tree f !! name_key n) as [nodes|] eqn:Et; [|done]. intros [= <-]. split; [|by intros id [_ H]%list_elem_of_filter].
  assert (Hin : ∀ id c, id ∈ section_order f → file_sections f !! id = Some c → id ∈ concat (all_node_ids <$> nodes) ↔ has_section_name n (content c) = true).
  { intros id c Hid Hc. rewrite node_ids_nodes by by apply (wf_nodes _ Hwf (name_key n)).
    assert (Ht : ∀ s, default [] (node_ids s nodes) = ids_of f n s) by (intros s; rewrite <- (wf_tree _ Hwf); unfold tree_ids; by rewrite Et).
    assert (Hm : ∀ s, id ∈ ids_of f n s ↔ has_name n s (header c) = true) by (intros s; unfold ids_of; rewrite list_elem_of_filter; unfold matches; rewrite Hc; tauto).
    unfold has_section_name. rewrite bool_decide_eq_true. split.
    - intros (s & ids & E & Hi). specialize (Ht s). rewrite E in Ht. cbn in Ht. subst ids. apply Hm in Hi. apply bool_decide_eq_true in Hi as [Hi _]. exact Hi.
    - intros Hn. exists (subsection_name (header c)). assert (H : id ∈ ids_of f n (subsection_name (header c))) by (apply Hm, bool_decide_eq_true_2; done).
      rewrite <- Ht in H. destruct (node_ids _ nodes) as [ids|]; [by exists ids|by apply elem_of_nil in H]. }
  unfold view. assert (Hs : ∀ id, id ∈ section_order f → ∃ c, file_sections f !! id = Some c) by (intros id; apply (wf_dom _ Hwf)).
  induction (section_order f) as [|id order IH]; [done|]. destruct (Hs id) as [c Hc]; [by left|]. rewrite filter_cons.
  change (id :: order) with ([id] ++ order). rewrite (views_app _ [id]), filter_app, <- IH by
    (intros i; first [intros c' Hi; apply Hin; by right|intros Hi; apply Hs; by right]).
  assert (Hv1 : views (file_sections f) [id] = [content c]) by (unfold views; cbn; by rewrite Hc). specialize (Hin id c ltac:(by left) Hc).
  rewrite Hv1, filter_cons, filter_nil. repeat case_decide; try tauto. unfold views. cbn. by rewrite Hc.
Qed.

(** *** Appending *)

(** The sections of a file that are still to be added. *)
Lemma append_loop_push f sections post order : wf f → NoDup order → (∀ id, id ∈ order → is_Some (sections !! id)) →
  ∃ f', append_loop f sections post None order = Ok f' ∧ wf f' ∧ view f' = view f ++ views sections order ∧ frontmatter_events f' = frontmatter_events f.
Proof.
  revert f sections post. induction order as [|id order IH]; intros f secs post Hwf Hn Hs; [exists f; by rewrite app_nil_r|].
  apply NoDup_cons in Hn as [Hid Hn]. destruct (Hs id) as [c Hc]; [by left|]. cbn [append_loop]. rewrite Hc. cbn [expect]. rewrite bind_Ok.
  destruct (push_section_internal_ok f c Hwf) as (f1 & -> & Hw1 & Ho1 & Hs1 & _ & Hr1). cbn [mbind res_bind].
  set (f2 := match post !! id with Some _ => _ | None => _ end).
  assert (H2 : wf f2 ∧ view f2 = view f1 ∧ frontmatter_events f2 = frontmatter_events f1).
  { unfold f2. destruct (post !! id); [|done]. split; [|done]. by apply (wf_kept f1). }
  destruct H2 as (Hw2 & Hv2 & Hf2). destruct (IH f2 (base.delete id secs) (base.delete id post) Hw2 Hn) as (f' & -> & Hw & Hv & Hf).
  - intros i Hi. rewrite lookup_delete_ne by (by intros <-). apply Hs. by right.
  - exists f'. split; [done|]. split; [done|]. split; [|destruct Hr1 as [Hr1 _]; congruence].
    rewrite Hv, Hv2, (push_view f c f1 Hwf Ho1 Hs1), <- app_assoc. f_equal. change (id :: order) with ([id] ++ order). rewrite (views_app secs). f_equal.
    + unfold views. cbn. by rewrite Hc.
    + apply views_ext. intros i Hi. rewrite lookup_delete_ne; [done|]. by intros <-.
Qed.
Lemma append_loop_insert f sections post order a before b : wf f → section_order f = a ++ before :: b → NoDup order → (∀ id, id ∈ order → is_Some (sections !! id)) →
  ∃ f', append_loop f sections post (Some before) order = Ok f' ∧ wf f' ∧ frontmatter_events f' = frontmatter_events f ∧
    view f' = views (file_sections f) (a ++ [before]) ++ views sections order ++ views (file_sections f) b.
Proof.
  revert f sections post a before b. induction order as [|id order IH]; intros f secs post a before b Hwf Ho Hn Hs.
  { exists f. split_and!; [done|done|done|]. unfold view. rewrite Ho. change (before :: b) with ([before] ++ b). by rewrite app_assoc, views_app. }
  apply NoDup_cons in Hn as [Hid Hn]. destruct (Hs id) as [c Hc]; [by left|]. cbn [append_loop]. rewrite Hc. cbn [expect]. rewrite bind_Ok.
  destruct (insert_section_after_ok f c a before b Hwf Ho) as (f1 & -> & Hw1 & Ho1 & Hs1 & _ & Hr1). cbn [mbind res_bind].
  set (new := section_id_counter f) in *. set (f2 := match post !! id with Some _ => _ | None => _ end).
  assert (H2 : wf f2 ∧ section_order f2 = section_order f1 ∧ file_sections f2 = file_sections f1 ∧ frontmatter_events f2 = frontmatter_events f1).
  { unfold f2. destruct (post !! id); [|done]. split; [|done]. by apply (wf_kept f1). }
  destruct H2 as (Hw2 & Ho2 & Hs2 & Hf2). rewrite Ho1 in Ho2. change (before :: new :: b) with ([before] ++ new :: b) in Ho2. rewrite app_assoc in Ho2.
  destruct (IH f2 (base.delete id secs) (base.delete id post) (a ++ [before]) new b Hw2 Ho2 Hn) as (f' & -> & Hw & Hf & Hv).
  - intros i Hi. rewrite lookup_delete_ne by (by intros <-). apply Hs. by right.
  - exists f'. split; [done|]. split; [done|]. split; [destruct Hr1 as [Hr1 _]; congruence|].
    assert (Hnew : ∀ i, i ∈ (a ++ [before]) ++ b → i ≠ new) by (intros i Hi ->; rewrite <- app_assoc in Hi; cbn in Hi; rewrite <- Ho in Hi; apply (wf_counter _ Hwf) in Hi; unfold new in Hi; lia).
    assert (Hold : ∀ l, l ⊆ (a ++ [before]) ++ b → views (file_sections f2) l = views (file_sections f) l).
    { intros l Hl. apply views_ext. intros i Hi. rewrite Hs2, Hs1, lookup_insert_ne; [done|]. intros En. by apply (Hnew i); [apply Hl|]. }
    rewrite Hv, views_app, (Hold b), (Hold (a ++ [before])) by set_solver. rewrite <- app_assoc. f_equal.
    change (id :: order) with ([id] ++ order). rewrite (views_app secs), <- app_assoc. f_equal.
    + unfold views. cbn. by rewrite Hs2, Hs1, lookup_insert_eq, Hc.
    + f_equal. apply views_ext. intros i Hi. rewrite lookup_delete_ne; [done|]. by intros <-.
Qed.
Lemma append_or_insert_ok f other (before : option SectionId) a b : wf f → wf other →
  match before with Some id => section_order f = a ++ id :: b | None => a = section_order f ∧ b = [] end →
  ∃ f', append_or_insert f other before = Ok f' ∧ wf f' ∧
    view f' = views (file_sections f) (a ++ match before with Some id => [id] | None => [] end) ++ view other ++ views (file_sections f) b.
Proof.
  intros Hwf Hoth Hb. pose proof (wf_nodup _ Hoth) as Hn. assert (Hs : ∀ id, id ∈ section_order other → is_Some (file_sections other !! id)) by (intros id; apply (wf_dom _ Hoth)).
  unfold append_or_insert. rewrite (detect_ok f Hwf), bind_Ok. cbv zeta.
  set (nl := newline_of _ _). set (last_id := match before with Some id => Some id | None => _ end).
  assert (Hloop : ∃ f1, append_loop f (file_sections other) (frontmatter_post_section other) before (section_order other) = Ok f1 ∧ wf f1 ∧
    view f1 = views (file_sections f) (a ++ match before with Some id => [id] | None => [] end) ++ view other ++ views (file_sections f) b).
  { destruct before as [id|].
    - destruct (append_loop_insert f (file_sections other) (frontmatter_post_section other) _ a id b Hwf Hb Hn Hs) as (f1 & E & Hw & _ & Hv). by exists f1.
    - destruct Hb as [-> ->]. destruct (append_loop_push f (file_sections other) (frontmatter_post_section other) _ Hwf Hn Hs) as (f1 & E & Hw & Hv & _).
      exists f1. split_and!; [done|done|]. by rewrite Hv, !app_nil_r. }
  destruct Hloop as (f1 & -> & Hw & Hv). rewrite bind_Ok, <- Hv.
  destruct (frontmatter_events other) as [|e front] eqn:Ef; [by exists f1|].
  destruct last_id as [lid|]; eexists; (split; [done|]); (split; [by apply (wf_kept f1)|done]).
Qed.

(** *** The other changes *)

Lemma put_back_view f id s a b c : wf f → section_order f = a ++ id :: b → file_sections f !! id = Some c →
  view (put_back f id s) = views (file_sections f) a ++ (header c, sbody s, meta c) :: views (file_sections f) b.
Proof.
  intros Hwf Ho Hc. pose proof (wf_nodup _ Hwf) as Hn. rewrite Ho in Hn. apply NoDup_app in Hn as (_ & Hnd & [Hnb _]%NoDup_cons).
  unfold view, put_back. cbn [file_sections section_order]. rewrite Ho, views_app. f_equal.
  - apply views_ext. intros i Hi. rewrite lookup_alter_ne; [done|]. intros <-. apply (Hnd id Hi). by left.
  - unfold views at 1. cbn. rewrite lookup_alter_eq, Hc. cbn. f_equal. apply views_ext. intros i Hi. rewrite lookup_alter_ne; [done|]. by intros <-.
Qed.
Lemma pushed_at f c f1 : wf f → section_order f1 = section_order f ++ [section_id_counter f] →
  file_sections f1 = <[section_id_counter f := with_id c (section_id_counter f)]> (file_sections f) →
  file_sections f1 !! section_id_counter f = Some (with_id c (section_id_counter f)) ∧ views (file_sections f1) (section_order f) = view f.
Proof.
  intros Hwf Ho Hs. rewrite Hs, lookup_insert_eq. split; [done|]. apply views_ext. intros i Hi. rewrite lookup_insert_ne; [done|]. intros <-.
  apply (wf_counter _ Hwf) in Hi. lia.
Qed.
Lemma new_conf_section_ok f n s h : wf f → header_new n s = Ok h →
  let nl := newline_of (frontmatter_events f) (view f ++ [(h, [], file_meta f)]) in
  ∃ f', new_conf_section f n s = Ok (section_id_counter f, push_newline (section_mut_new [] nl), f') ∧ wf f' ∧
    view f' = view f ++ [(h, [Newline nl], file_meta f)] ∧ section_order f' = section_order f ++ [section_id_counter f] ∧
    frontmatter_events f' = frontmatter_events f ∧ file_meta f' = file_meta f ∧
    (∃ c, file_sections f' !! section_id_counter f = Some c ∧ content c = (h, [Newline nl], file_meta f)) ∧
    views (file_sections f') (section_order f) = view f.
Proof.
  intros Hwf Hh nl. unfold new_conf_section, conf_section_new. rewrite Hh. cbn [mbind res_bind]. set (c := mkConfSection h [] _ _).
  destruct (push_section_internal_ok f c Hwf) as (f1 & -> & Hw1 & Ho1 & Hs1 & _ & Hr1). cbn [lift mbind res_bind].
  destruct (pushed_at f c f1 Hwf Ho1 Hs1) as [Hc1 Hv1]. rewrite (section_mut_at_ok f1 _ _ Hw1 Hc1), bind_Ok.
  rewrite (push_view f c f1 Hwf Ho1 Hs1). destruct Hr1 as (Hf1 & _ & Hm1). rewrite Hf1. change (content c) with (h, @nil Event, file_meta f). fold nl. cbv zeta.
  eexists. split; [done|]. split; [by apply put_back_wf|]. split; [by rewrite (put_back_view f1 _ _ (section_order f) [] _ Hw1 Ho1 Hc1), Hv1|].
  split_and!; [exact Ho1|exact Hf1|exact Hm1| |].
  - unfold put_back. cbn [file_sections]. rewrite lookup_alter_eq, Hc1. by eexists.
  - rewrite <- Hv1. unfold put_back. cbn [file_sections]. apply views_ext. intros i Hi. rewrite lookup_alter_ne; [done|]. intros <-.
    apply (wf_counter _ Hwf) in Hi. lia.
Qed.
Lemma remove_section_ok f n s : wf f →
  match take_last (λ x, has_name n s x.1.1) (view f) with
  | Some (x, rest) => ∃ c f', remove_section f n s = Ok (Some c, f') ∧ content c = x ∧ wf f' ∧ view f' = rest
  | None => remove_section f n s = Ok (None, f)
  end.
Proof.
  intros Hwf. assert (Hp : ∀ l, Forall (λ x, wanted n s (λ _, true) x = false) l → Forall (λ x : Header * list Event * Meta, has_name n s x.1.1 = false) l).
  { intros l Hl. eapply Forall_impl; [exact Hl|]. intros x Hx. unfold wanted in Hx. by rewrite andb_true_r in Hx. }
  pose proof (wanted_last f n s (λ _, true) Hwf) as H. rewrite all_kept in H by done. unfold remove_section.
  destruct (section_ids_ok f n s Hwf) as [->|(E & e & -> & _)]; [|rewrite E in H; by rewrite take_last_none by by apply Hp].
  destruct (last (ids_of f n s)) as [id|]; [|by rewrite take_last_none by by apply Hp].
  destruct H as (a & b & c & Ho & Hc & Hw & Hb & Hv & Ha & Hb'). unfold wanted in Hw. rewrite andb_true_r in Hw.
  rewrite Hv, take_last_app by (done || by apply Hp).
  destruct (remove_section_by_id_ok f id c a b Hwf Ho Hc) as (f' & -> & Hw' & Ho' & Hs' & _ & _). exists c, f'. split_and!; [done|done|done|].
  unfold view. rewrite Ho', Hs', <- views_app. apply views_delete. set_solver.
Qed.

(** Removing with a filter and renaming leave the tree as it is. *)
Lemma tree_outdated f f' n s id : wf f → id ∈ ids_of f n s → section_lookup_tree f' = section_lookup_tree f → id ∉ ids_of f' n s → ¬ wf f'.
Proof.
  intros Hwf Hid Ht Hid' Hwf'. apply Hid'. rewrite <- (wf_tree _ Hwf'). unfold tree_ids. rewrite Ht.
  pose proof (wf_tree _ Hwf n s) as H. unfold tree_ids in H. by rewrite H.
Qed.
Lemma ids_of_intro f n s id a b c : section_order f = a ++ id :: b → file_sections f !! id = Some c → has_name n s (header c) = true → id ∈ ids_of f n s.
Proof. intros Ho Hc Hn. apply list_elem_of_filter. unfold matches. rewrite Hc, Ho. split; [done|set_solver]. Qed.
Lemma remove_section_filter_ok f n s keep : wf f →
  match take_last (wanted n s keep) (view f) with
  | Some (x, rest) => ∃ c f', remove_section_filter f n s keep = Ok (Some c, f') ∧ content c = x ∧ view f' = rest ∧ ¬ wf f'
  | None => remove_section_filter f n s keep = Ok (None, f)
  end.
Proof.
  intros Hwf. pose proof (wanted_last f n s keep Hwf) as H. unfold remove_section_filter.
  destruct (section_ids_ok f n s Hwf) as [->|(E & e & -> & _)]; [|rewrite E in H; by rewrite take_last_none].
  rewrite find_filtered_ok by (done || by intros id [? _]%ids_of_in). cbn [mbind res_bind].
  destruct (last _) as [id|]; [|by rewrite take_last_none].
  destruct H as (a & b & c & Ho & Hc & Hw & Hb & Hv & Ha & Hb'). rewrite Hv, take_last_app by done.
  rewrite Ho, position_app by done. cbn [expect mbind res_bind]. rewrite vec_remove_app by done. cbn [mbind res_bind]. rewrite Hc. exists c. eexists. split_and!; [done|done| |].
  - unfold view. cbn [section_order file_sections with_order]. rewrite <- views_app. apply views_delete. set_solver.
  - apply andb_true_iff in Hw as [Hw _]. apply (tree_outdated f _ n s id Hwf); [by apply (ids_of_intro f n s id a b c)|done|].
    intros [Hi _]%ids_of_in. cbn [section_order with_order] in Hi. set_solver.
Qed.
Lemma set_header_ok f id c a b n s n' s' h : wf f → section_order f = a ++ id :: b → file_sections f !! id = Some c → has_name n s (header c) = true →
  header_new n' s' = Ok h → ∃ f', set_header f id n' s' = Ok f' ∧
    view f' = views (file_sections f) a ++ (h, body c, meta c) :: views (file_sections f) b ∧ (wf f' ↔ has_name n s h = true).
Proof.
  intros Hwf Ho Hc Hn Hh. unfold set_header, section_at. rewrite Hc, Hh. cbn [expect map_err mbind res_bind]. eexists. split; [done|]. split.
  - pose proof (wf_nodup _ Hwf) as Hnd. rewrite Ho in Hnd. apply NoDup_app in Hnd as (_ & Hnd & [Hnb _]%NoDup_cons).
    unfold view. cbn [file_sections section_order with_order]. rewrite Ho, views_app. f_equal.
    + apply views_ext. intros i Hi. rewrite lookup_alter_ne; [done|]. intros <-. apply (Hnd id Hi). by left.
    + unfold views at 1. cbn. rewrite lookup_alter_eq, Hc. cbn. f_equal. apply views_ext. intros i Hi. rewrite lookup_alter_ne; [done|]. by intros <-.
  - split.
    + intros Hwf'. destruct (has_name n s h) eqn:Hnh; [done|]. exfalso. eapply (tree_outdated f _ n s id Hwf); [by apply (ids_of_intro f n s id a b c)| | |exact Hwf']; [done|].
      intros [_ Hi]%ids_of_in. unfold matches in Hi. cbn [file_sections with_order] in Hi. rewrite lookup_alter_eq, Hc in Hi. cbn in Hi. congruence.
    + intros Hnh. apply (wf_matches f); [done..| |]; cbn [file_sections with_order].
      * intros i. apply lookup_alter_is_Some.
      * intros n1 s1 i. unfold matches. cbn [file_sections with_order]. destruct (decide (i = id)) as [->|Hi]; [|by rewrite lookup_alter_ne].
        rewrite lookup_alter_eq, Hc. cbn. apply bool_decide_eq_true in Hn as [Hn1 Hn2]. apply bool_decide_eq_true in Hnh as [Hh1 Hh2]. unfold has_name. by rewrite Hn1, Hn2, Hh1, Hh2.
Qed.
Lemma header_new_total n s : (∃ h, header_new n s = Ok h) ∨ ∃ e, header_new n s = Err e.
Proof.
  unfold header_new, validated_name, validated_subsection. destruct (forallb _ n); [|right; by eexists]. destruct s as [s|]; [|left; by eexists].
  destruct (is_valid_subsection s); [left|right]; by eexists.
Qed.
Lemma set_header_error f id c n s e : file_sections f !! id = Some c → header_new n s = Err e → set_header f id n s = Err (RenameSection e).
Proof. intros Hc He. unfold set_header, section_at. by rewrite Hc, He. Qed.
(** The header of the section that was found is exchanged. *)
Definition renamed f n s keep (n' : bytes) (s' : option bytes) (r : res RenameError File) : Prop :=
  match header_new n' s' with
  | Ok h => ∃ f', r = Ok f' ∧ update_last (wanted n s keep) (λ x, (h, x.1.2, x.2)) (view f) = Some (view f') ∧ (wf f' ↔ has_name n s h = true)
  | Err e => r = Err (RenameSection e)
  | Panic => False
  end.
Lemma renamed_ok f n s keep n' s' id a b c : wf f → section_order f = a ++ id :: b → file_sections f !! id = Some c → wanted n s keep (content c) = true →
  Forall (λ x, wanted n s keep x = false) (views (file_sections f) b) → view f = views (file_sections f) a ++ content c :: views (file_sections f) b →
  renamed f n s keep n' s' (set_header f id n' s').
Proof.
  intros Hwf Ho Hc Hw Hb Hv. unfold renamed. destruct (header_new_total n' s') as [[h Hh]|[e He]].
  - rewrite Hh. pose proof Hw as Hn. apply andb_true_iff in Hn as [Hn _]. destruct (set_header_ok f id c a b n s n' s' h Hwf Ho Hc Hn Hh) as (f' & -> & Hv' & Hwf').
    exists f'. split; [done|]. split; [|done]. by rewrite Hv, update_last_app, Hv'.
  - rewrite He. by eapply set_header_error.
Qed.
Lemma rename_section_filter_ok f n s keep n' s' : wf f →
  match take_last (wanted n s keep) (view f) with
  | Some _ => renamed f n s keep n' s' (rename_section_filter f n s n' s' keep)
  | None => ∃ e, rename_section_filter f n s n' s' keep = Err (RenameLookup e)
  end.
Proof.
  intros Hwf. pose proof (wanted_last f n s keep Hwf) as H. unfold rename_section_filter.
  destruct (section_ids_ok f n s Hwf) as [->|(E & e & -> & _)]; [|rewrite E in H; rewrite take_last_none by done; by exists e].
  cbn [map_err mbind res_bind]. rewrite find_filtered_ok by (done || by intros id [? _]%ids_of_in). cbn [mbind res_bind].
  destruct (last _) as [id|]; [|rewrite take_last_none by done; by exists KeyMissing].
  destruct H as (a & b & c & Ho & Hc & Hw & Hb & Hv & _). rewrite Hv, take_last_app by done. by apply (renamed_ok f n s keep n' s' id a b c).
Qed.
Lemma rename_section_ok f n s n' s' : wf f →
  match take_last (wanted n s (λ _, true)) (view f) with
  | Some _ => renamed f n s (λ _, true) n' s' (rename_section f n s n' s')
  | None => rename_section f n s n' s' = match section_ids_by_name_and_subname f n s with Err e => Err (RenameLookup e) | _ => Panic end
  end.
Proof.
  intros Hwf. pose proof (wanted_last f n s (λ _, true) Hwf) as H. rewrite all_kept in H by done. unfold rename_section.
  destruct (section_ids_ok f n s Hwf) as [->|(E & e & -> & _)]; [|rewrite E in H; by rewrite take_last_none].
  cbn [map_err mbind res_bind]. destruct (last (ids_of f n s)) as [id|]; [|by rewrite take_last_none].
  destruct H as (a & b & c & Ho & Hc & Hw & Hb & Hv & _). rewrite Hv, take_last_app by done. by apply (renamed_ok f n s (λ _, true) n' s' id a b c).
Qed.

(** *** Files from their events *)

Lemma push_parsed_ok (f : File) m l : wf f →
  ∃ f', push_parsed f m l = Ok f' ∧ wf f' ∧ view f' = view f ++ ((λ '(h, es), (h, es, m)) <$> l) ∧ frontmatter_events f' = frontmatter_events f.
Proof.
  revert f. induction l as [|[h es] l IH]; intros f Hwf; [exists f; by rewrite app_nil_r|]. cbn [push_parsed].
  set (c := mkConfSection h es m _). destruct (push_section_internal_ok f c Hwf) as (f1 & -> & Hw1 & Ho1 & Hs1 & _ & Hr1). cbn [mbind res_bind].
  destruct (IH f1 Hw1) as (f' & -> & Hw & Hv & Hf). exists f'. split; [done|]. split; [done|]. split; [|destruct Hr1; congruence].
  by rewrite Hv, (push_view f c f1 Hwf Ho1 Hs1), <- app_assoc.
Qed.
Lemma file_new_wf m front : wf (with_front (file_new m) front : File).
Proof.
  split; cbn; [constructor| |set_solver|done|done|done]. intros id. rewrite lookup_empty, elem_of_nil. split; [done|by intros []].
Qed.

(** C9: In a file that has the invariant - its sections, their order and the tree
    for looking them up agree - changing the sections is changing their list.
    A section that is pushed or new is the last one, removing takes out the last
    one that has the name, appending a file adds its sections at the end and
    inserting it does so behind a section, and changing the events of a section
    changes no other. These keep the invariant and do not panic, and only a
    header that is not valid is refused. Two more change the list as they
    should, but not the tree: removing with a filter takes out the last section
    that has the name and that the filter accepts, and always loses the
    invariant when it does; renaming, with or without a filter, exchanges the
    header of that section, and loses the invariant unless the new header has
    the same name, up to case, and subsection. Where there is no section to
    rename both fail, and without a filter renaming panics if there was one
    before. *)
Theorem section_edits_refine f : wf f →
  (∀ c, ∃ id s f', push_section f c = Ok (id, s, f') ∧ wf f' ∧ view f' = view f ++ [content c]) ∧
  (∀ n s, match header_new n s with
          | Ok h => ∃ id sm f', new_conf_section f n s = Ok (id, sm, f') ∧ wf f' ∧
              view f' = view f ++ [(h, [Newline (newline_of (frontmatter_events f) (view f ++ [(h, [], file_meta f)]))], file_meta f)]
          | Err e => new_conf_section f n s = Err e
          | Panic => False
          end) ∧
  (∀ n s, match take_last (λ x, has_name n s x.1.1) (view f) with
          | Some (x, rest) => ∃ c f', remove_section f n s = Ok (Some c, f') ∧ content c = x ∧ wf f' ∧ view f' = rest
          | None => remove_section f n s = Ok (None, f)
          end) ∧
  (∀ other, wf other → ∃ f', append f other = Ok f' ∧ wf f' ∧ view f' = view f ++ view other) ∧
  (∀ other a before b, wf other → section_order f = a ++ before :: b → ∃ f', append_or_insert f other (Some before) = Ok f' ∧ wf f' ∧
     view f' = views (file_sections f) (a ++ [before]) ++ view other ++ views (file_sections f) b) ∧
  (∀ id s a b c, section_order f = a ++ id :: b → file_sections f !! id = Some c → wf (put_back f id s) ∧
     view (put_back f id s) = views (file_sections f) a ++ (header c, sbody s, meta c) :: views (file_sections f) b) ∧
  (∀ n s keep, match take_last (wanted n s keep) (view f) with
               | Some (x, rest) => ∃ c f', remove_section_filter f n s keep = Ok (Some c, f') ∧ content c = x ∧ view f' = rest ∧ ¬ wf f'
               | None => remove_section_filter f n s keep = Ok (None, f)
               end) ∧
  (∀ n s n' s' keep, match take_last (wanted n s keep) (view f) with
               | Some _ => renamed f n s keep n' s' (rename_section_filter f n s n' s' keep)
               | None => ∃ e, rename_section_filter f n s n' s' keep = Err (RenameLookup e)
               end) ∧
  (∀ n s n' s', match take_last (wanted n s (λ _, true)) (view f) with
                | Some _ => renamed f n s (λ _, true) n' s' (rename_section f n s n' s')
                | None => rename_section f n s n' s' = match section_ids_by_name_and_subname f n s with Err e => Err (RenameLookup e) | _ => Panic end
                end).
Proof.
  intros Hwf. split_and!.
  - intros c. unfold push_section. destruct (push_section_internal_ok f c Hwf) as (f1 & -> & Hw1 & Ho1 & Hs1 & _). cbn [mbind res_bind].
    destruct (pushed_at f c f1 Hwf Ho1 Hs1) as [Hc1 _]. rewrite (section_mut_at_ok f1 _ _ Hw1 Hc1), bind_Ok. do 3 eexists. split; [done|].
    split; [done|]. by apply push_view.
  - intros n s. destruct (header_new n s) as [h|e|] eqn:Hh.
    + destruct (new_conf_section_ok f n s h Hwf Hh) as (f' & E & Hw & Hv & _). by do 3 eexists.
    + unfold new_conf_section, conf_section_new. by rewrite Hh.
    + unfold header_new, validated_name, validated_subsection in Hh. destruct (forallb _ n); [|done]. destruct s as [s|]; [|done]. by destruct (is_valid_subsection s).
  - intros n s. by apply remove_section_ok.
  - intros other Ho. destruct (append_or_insert_ok f other None (section_order f) [] Hwf Ho) as (f' & E & Hw & Hv); [done|].
    exists f'. split_and!; [done|done|]. by rewrite Hv, !app_nil_r.
  - intros other a before b Ho Hb. apply (append_or_insert_ok f other (Some before) a b Hwf Ho Hb).
  - intros id s a b c Ho Hc. split; [by apply put_back_wf|by apply put_back_view].
  - intros n s keep. by apply remove_section_filter_ok.
  - intros n s n' s' keep. by apply rename_section_filter_ok.
  - intros n s n' s'. by apply rename_section_ok.
Qed.
End Edits.

(** ** Theorems: setting values, and the text of a file *)

Section Represented.
Context `{BA : !bstr.Api} `{BL : !bstr.Laws} {Meta : Type}.
#[local] Notation File := (File Meta).
Implicit Types f other : File.

(** Sections as their headers and the values that were put into them. *)
Definition with_values (kvs : list (bytes * bytes)) : list (bytes * option bytes) := (λ '(k, v), (k, Some v)) <$> kvs.
Definition represents (f : File) (fs : list (Header * list (bytes * bytes) * Meta)) : Prop :=
  frontmatter_events f = [] ∧ view f = (λ '(h, kvs, m), (h, sbody (new_section (with_values kvs)), m)) <$> fs.
(** Setting a value: the last line with the name is changed, or one is added at
    the end; and it is done in the last section that is found, or in a new one. *)
Definition set_line (kvs : list (bytes * bytes)) (k v : bytes) : list (bytes * bytes) :=
  default (kvs ++ [(k, v)]) (update_last (λ kv, same_name kv.1 k) (λ kv, (kv.1, v)) kvs).
Definition old_line (kvs : list (bytes * bytes)) (k : bytes) : option bytes := (λ '(kv, _), escape_value kv.2) <$> take_last (λ kv, same_name kv.1 k) kvs.
Definition found_by (n : bytes) (s : option bytes) (keep : Meta → bool) (x : Header * list (bytes * bytes) * Meta) : bool := has_name n s x.1.1 && keep x.2.
Definition set_in (fs : list (Header * list (bytes * bytes) * Meta)) (n : bytes) (s : option bytes) (keep : Meta → bool) (k v : bytes) (new : Header) (m : Meta) :
    list (Header * list (bytes * bytes) * Meta) :=
  default (fs ++ [(new, [(k, v)], m)]) (update_last (found_by n s keep) (λ x, (x.1.1, set_line x.1.2 k v, x.2)) fs).

(** The whitespace around the keys of such a section is the default one. *)
Lemma from_body_values kvs : from_body (body_events (with_values kvs)) = whitespace_default.
Proof. destruct kvs as [|[k v] kvs]; [done|]. reflexivity. Qed.
Lemma section_mut_values kvs : section_mut_new (body_events (with_values kvs)) [10] = new_section (with_values kvs).
Proof. rewrite new_section_body. unfold section_mut_new. by rewrite from_body_values. Qed.
Lemma last_line (kvs : list (bytes * bytes)) k :
  (∃ a n v b, kvs = a ++ (n, v) :: b ∧ same_name n k = true ∧ Forall (λ kv, same_name kv.1 k = false) b) ∨ Forall (λ kv, same_name kv.1 k = false) kvs.
Proof.
  pose proof (filter_last (λ kv : bytes * bytes, same_name kv.1 k) kvs) as H. destruct (last _) as [[n v]|]; [left|by right].
  destruct H as (a & b & -> & Hn & Hb). by exists a, n, v, b.
Qed.
Lemma no_key_values kvs k : Forall (λ kv, same_name kv.1 k = false) kvs → no_key k (with_values kvs).
Proof. intros H. apply Forall_fmap. eapply Forall_impl; [exact H|]. by intros [n v]. Qed.
Lemma set_values_line kvs k v : set (new_section (with_values kvs)) k v = Ok (old_line kvs k, new_section (with_values (set_line kvs k v))).
Proof.
  unfold set_line, old_line, with_values. destruct (last_line kvs k) as [(a & n & w & b & -> & Hn & Hb)|Hk].
  - rewrite update_last_app, take_last_app by done. cbn [default from_option id fmap option_fmap option_map snd fst]. rewrite !fmap_app, !fmap_cons.
    exact (set_replaces (with_values a) n w (with_values b) k v Hn (no_key_values _ _ Hb)).
  - rewrite update_last_none, take_last_none by done. cbn [default from_option fmap option_fmap option_map]. rewrite fmap_app.
    exact (set_pushes (with_values kvs) k v (no_key_values _ _ Hk)).
Qed.
Lemma newline_values (fs : list (Header * list (bytes * bytes) * Meta)) rest :
  newline_of [] (((λ '(h, kvs, m), (h, sbody (new_section (with_values kvs)), m)) <$> fs) ++ rest) =
  match fs with [] => newline_of [] rest | _ => [10] end.
Proof. destruct fs as [|[[h kvs] m] fs]; [done|]. unfold newline_of. cbn. by rewrite pushed_body. Qed.
Lemma wanted_values n s keep h kvs (m : Meta) es : wanted n s keep (h, es, m) = found_by n s keep (h, kvs, m).
Proof. done. Qed.
Lemma value_of_values kvs k : value_of (sbody (new_section (with_values kvs))) k = match last_value (with_values kvs) k with Some v => v | None => None end.
Proof. unfold value_of, value. by rewrite pushed_body, value_read_implicit. Qed.
Lemma set_line_value kvs k v : value_of (sbody (new_section (with_values (set_line kvs k v)))) k = Some v.
Proof.
  rewrite value_of_values. unfold set_line, with_values.
  assert (Hlast : ∀ a n b, same_name n k = true → Forall (λ kv : bytes * bytes, same_name kv.1 k = false) b →
    last_value ((λ '(k, v), (k, Some v)) <$> (a ++ (n, v) :: b)) k = Some (Some v)).
  { intros a n b Hn Hb. rewrite fmap_app, fmap_cons. unfold last_value. rewrite omap_app. cbn [omap list_omap]. rewrite Hn.
    replace (omap _ ((λ '(k0, v0), (k0, Some v0)) <$> b)) with (@nil (option bytes)); [by rewrite last_snoc|].
    clear -Hb. induction Hb as [|[n' v'] b Hn' _ IH]; [done|]. cbn in *. by rewrite Hn'. }
  destruct (last_line kvs k) as [(a & n & w & b & -> & Hn & Hb)|Hk].
  - rewrite update_last_app by done. cbn [default from_option id fst]. by rewrite Hlast.
  - rewrite update_last_none by done. cbn [default from_option]. rewrite Hlast; [done| |constructor]. apply bool_decide_eq_true_2. done.
Qed.
(** The last section that is looked at decides. *)
Lemma last_candidate n s keep (va vb : list (Header * list Event * Meta)) x k v : wanted n s keep x = true → Forall (λ x, wanted n s keep x = false) vb → value_of x.1.2 k = Some v →
  last (omap (λ x, value_of x.1.2 k) (candidates n s keep (va ++ x :: vb))) = Some v.
Proof.
  intros Hx Hb Hv. assert (Hc : ∀ l, candidates n s keep l = filter (λ x, wanted n s keep x = true) l).
  { intros l. unfold candidates. rewrite list_filter_filter. apply list_filter_iff. intros y. unfold wanted. rewrite andb_true_iff. tauto. }
  rewrite Hc, filter_app, filter_cons, decide_True by done. replace (filter _ vb) with (@nil (Header * list Event * Meta)).
  - rewrite omap_app. cbn. rewrite Hv. by rewrite last_snoc.
  - clear -Hb. induction Hb as [|y vb Hy _ IH]; [done|]. rewrite filter_cons, decide_False by (by rewrite Hy). exact IH.
Qed.
Lemma found_by_last n s keep (fs : list (Header * list (bytes * bytes) * Meta)) l : l = ((λ '(h, kvs, m), (h, sbody (new_section (with_values kvs)), m)) <$> fs) →
  Forall (λ x, wanted n s keep x = false) l → Forall (λ x, found_by n s keep x = false) fs.
Proof. intros -> H. apply Forall_fmap in H. eapply Forall_impl; [exact H|]. by intros [[h kvs] m]. Qed.
Definition represented (fs : list (Header * list (bytes * bytes) * Meta)) : list (Header * list Event * Meta) :=
  (λ '(h, kvs, m), (h, sbody (new_section (with_values kvs)), m)) <$> fs.
Lemma put_back_values f fs n s keep id a b c fa h kvs m fb k v : wf f → frontmatter_events f = [] →
  section_order f = a ++ id :: b → file_sections f !! id = Some c → views (file_sections f) a = represented fa → content c = (h, sbody (new_section (with_values kvs)), m) →
  views (file_sections f) b = represented fb → found_by n s keep (h, kvs, m) = true → Forall (λ x, found_by n s keep x = false) fb → fs = fa ++ (h, set_line kvs k v, m) :: fb →
  let f' := put_back f id (new_section (with_values (set_line kvs k v))) in
  wf f' ∧ represents f' fs ∧ raw_value_filter_by f' n s k keep = Ok v.
Proof.
  intros Hwf Hf Ho Hc Ha Hcc Hb Hw Hfb -> f'. assert (Hw' : wf f') by by apply put_back_wf.
  assert (Hv : view f' = represented (fa ++ (h, set_line kvs k v, m) :: fb)).
  { unfold f'. rewrite (put_back_view f id _ a b c Hwf Ho Hc), Ha, Hb. unfold content in Hcc. injection Hcc as -> _ ->. unfold represented. by rewrite fmap_app. }
  split_and!; [done|by split|]. pose proof (raw_value_ok f' n s k keep Hw') as Hr. rewrite Hv in Hr. unfold represented in Hr. rewrite fmap_app, fmap_cons in Hr.
  rewrite (last_candidate n s keep _ _ _ k v) in Hr; [exact Hr|exact Hw| |apply set_line_value]. apply Forall_fmap. eapply Forall_impl; [exact Hfb|]. by intros [[h' kvs'] m'].
Qed.

(** What setting a value does to the list of sections, whatever they hold: only
    the events of the one section that is found change, or a section is added. *)
Definition sets_in_one f n s k v keep h (r : res Empty_set (File * (SetRawValueError + option bytes))) : Prop :=
  ∃ old sm f', r = Ok (f', inr old) ∧ wf f' ∧ frontmatter_events f' = frontmatter_events f ∧
  match take_last (wanted n s keep) (view f) with
  | Some (x, _) =>
      set (section_mut_new x.1.2 (newline_of (frontmatter_events f) (view f))) k v = Ok (old, sm) ∧
      update_last (wanted n s keep) (λ x, (x.1.1, sbody sm, x.2)) (view f) = Some (view f')
  | None =>
      set (push_newline (section_mut_new [] (newline_of (frontmatter_events f) (view f ++ [(h, [], file_meta f)])))) k v = Ok (old, sm) ∧
      view f' = view f ++ [(h, sbody sm, file_meta f)]
  end.
Lemma find_section f n s keep : wf f →
  (match section_ids_by_name_and_subname f n s with Ok ids => find_filtered f keep (rev ids) | Err _ => Ok None | Panic => Panic end : res HeaderError _) =
    Ok (last (filter (λ id, kept f keep id = true) (ids_of f n s))).
Proof.
  intros Hwf. destruct (section_ids_ok f n s Hwf) as [->|(E & e & -> & _)]; [|by rewrite E]. apply find_filtered_ok; [done|]. by intros id [? _]%ids_of_in.
Qed.
Lemma set_raw_value_one f n s k v keep h : wf f → header_new n s = Ok h → is_valid_value_name k = true →
  sets_in_one f n s k v keep h (set_raw_value_filter_by f n s k v keep).
Proof.
  intros Hwf Hh Hk. unfold sets_in_one, set_raw_value_filter_by, section_mut_or_create_new_filter. rewrite Hk, find_section, bind_Ok by done.
  pose proof (wanted_last f n s keep Hwf) as Hlast. destruct (last _) as [id|].
  - destruct Hlast as (a & b & c & Ho & Hc & Hw & Hb & Hvc & _).
    assert (Ht : take_last (wanted n s keep) (view f) = Some (content c, views (file_sections f) a ++ views (file_sections f) b)) by (rewrite Hvc; by apply take_last_app).
    assert (Hu : ∀ g, update_last (wanted n s keep) g (view f) = Some (views (file_sections f) a ++ g (content c) :: views (file_sections f) b)) by (intros g; rewrite Hvc; by apply update_last_app).
    setoid_rewrite Ht. setoid_rewrite Hu.
    rewrite (section_mut_at_ok f id c Hwf Hc), bind_Ok. change (to_mut c ?nl) with (section_mut_new (content c).1.2 nl).
    destruct (set_total (section_mut_new (content c).1.2 (newline_of (frontmatter_events f) (view f))) k v) as (old & sm & Hset).
    exists old, sm. rewrite Hset, bind_Ok. eexists. split; [done|]. split; [by apply put_back_wf|]. split; [done|]. split; [done|].
    by rewrite (put_back_view f id sm a b c Hwf Ho Hc).
  - rewrite take_last_none by done. destruct (new_conf_section_ok f n s h Hwf Hh) as (f1 & -> & Hw1 & Hv1 & Ho1 & Hf1 & Hm1 & (c & Hc & Hcc) & Hold). cbv beta iota zeta.
    match goal with |- context [set ?sm0 k v] => destruct (set_total sm0 k v) as (old & sm & Hset) end.
    exists old, sm. rewrite Hset, bind_Ok. eexists. split; [done|]. split; [by apply put_back_wf|]. split; [exact Hf1|]. split; [done|].
    rewrite (put_back_view f1 _ sm (section_order f) [] c Hw1 Ho1 Hc), Hold. unfold content in Hcc. by injection Hcc as -> _ ->.
Qed.
Lemma set_raw_value_represented f fs n s k v keep h : wf f → represents f fs → header_new n s = Ok h → is_valid_value_name k = true → keep (file_meta f) = true →
  ∃ f', set_raw_value_filter_by f n s k v keep =
      Ok (f', inr (match take_last (found_by n s keep) fs with Some (x, _) => old_line x.1.2 k | None => None end)) ∧
    wf f' ∧ represents f' (set_in fs n s keep k v h (file_meta f)) ∧ raw_value_filter_by f' n s k keep = Ok v.
Proof.
  intros Hwf [Hf Hv] Hh Hk Hm. change (view f = represented fs) in Hv. unfold set_raw_value_filter_by, section_mut_or_create_new_filter, set_in. rewrite Hk.
  pose proof (wanted_last f n s keep Hwf) as Hlast.
  rewrite find_section, bind_Ok by done. destruct (last _) as [id|].
  - destruct Hlast as (a & b & c & Ho & Hc & Hw & Hb & Hvc & _). rewrite Hv in Hvc. symmetry in Hvc.
    unfold represented in Hvc. symmetry in Hvc. apply fmap_app_inv in Hvc as (fa & fb' & Ha & Hb' & ->). symmetry in Hb'. apply fmap_cons_inv in Hb' as ([[h' kvs] m] & fb & Hcc & Hb2 & ->).
    assert (Hw' : found_by n s keep (h', kvs, m) = true) by (rewrite Hcc in Hw; exact Hw). assert (Hfb : Forall (λ x, found_by n s keep x = false) fb) by by eapply found_by_last.
    rewrite update_last_app, take_last_app by done. cbn [default from_option Datatypes.id fst snd].
    rewrite (section_mut_at_ok f id c Hwf Hc), bind_Ok, Hf, Hv. unfold represented at 1. rewrite <- (app_nil_r (_ <$> _)), newline_values.
    replace (match fa ++ (h', kvs, m) :: fb with [] => newline_of [] [] | _ => [10] end) with [10] by by destruct fa.
    unfold to_mut. pose proof Hcc as Hbody. unfold content in Hbody. injection Hbody as _ -> _. rewrite pushed_body, section_mut_values, set_values_line, bind_Ok.
    eexists. split; [done|]. by apply (put_back_values f _ n s keep id a b c fa h' kvs m fb).
  - assert (Hfb : Forall (λ x, found_by n s keep x = false) fs) by (by eapply found_by_last; [exact Hv|]).
    rewrite update_last_none, take_last_none by done. cbn [default from_option].
    destruct (new_conf_section_ok f n s h Hwf Hh) as (f1 & -> & Hw1 & Hv1 & Ho1 & Hf1 & Hm1 & (c & Hc & Hcc) & Hold). cbv beta iota zeta.
    assert (Hnl : newline_of (frontmatter_events f) (view f ++ [(h, [], file_meta f)]) = [10]) by (rewrite Hf, Hv; unfold represented; rewrite newline_values; by destruct fs).
    rewrite Hnl in *. change (push_newline (section_mut_new [] [10])) with (new_section (with_values [])). rewrite set_values_line, bind_Ok. eexists. split; [done|].
    apply (put_back_values f1 _ n s keep _ (section_order f) [] c fs h [] (file_meta f) []); try done; [congruence|by rewrite Hold|].
    unfold found_by. cbn [fst snd]. rewrite Hm. unfold has_name. apply andb_true_iff. split; [|done]. apply bool_decide_eq_true_2.
    unfold header_new, validated_name, validated_subsection in Hh. destruct (forallb _ n); [|done]. destruct s as [s|]; [destruct (is_valid_subsection s); [|done]|]; by injection Hh as <-.
Qed.

(** C10: Setting a value changes one section. In every file that has the
    invariant, for a valid header and a valid key: what changes are the events
    of the last section that has the name and the subsection and that the filter
    accepts, or a new section is added at the end where there is none; the other
    sections, their order and what is in front of them stay, the invariant is
    kept, and nothing panics. If moreover nothing is in front of the sections,
    and these hold keys with values as this library lays them out - one line per
    key, with the default whitespace, no comments, no continued lines and no
    keys without a value -, and the filter accepts a new section, then the last
    line with the key gets the new value, or a line is added at the end of the
    section, what is returned is the text of the old value, and the value can be
    looked up afterwards. *)
Theorem set_raw_value_correct f n s k v keep h : wf f → header_new n s = Ok h → is_valid_value_name k = true →
  sets_in_one f n s k v keep h (set_raw_value_filter_by f n s k v keep) ∧
  ∀ fs, represents f fs → keep (file_meta f) = true →
    ∃ f', set_raw_value_filter_by f n s k v keep =
        Ok (f', inr (match take_last (found_by n s keep) fs with Some (x, _) => old_line x.1.2 k | None => None end)) ∧
      wf f' ∧ represents f' (set_in fs n s keep k v h (file_meta f)) ∧ raw_value_filter_by f' n s k keep = Ok v.
Proof.
  intros Hwf Hh Hk. split; [by apply set_raw_value_one|]. intros fs Hfs Hm. by apply set_raw_value_represented.
Qed.

(** *** The text of a file *)

Lemma values_end_with_newline kvs d : ends_with_newline (body_events kvs) [10] d = true.
Proof.
  unfold ends_with_newline. assert (H : ∃ l, body_events kvs = l ++ [Newline [10]]).
  { induction kvs as [|[k v] kvs _] using rev_ind; [by exists []|]. exists (body_events kvs ++ kv_events k v). by rewrite body_events_snoc, <- app_assoc. }
  destruct H as (l & H). rewrite H. replace (match l ++ [Newline [10]] with [] => d | _ => ends_loop [10] (rev (l ++ [Newline [10]])) end)
    with (ends_loop [10] (rev (l ++ [Newline [10]]))) by by destruct l.
  rewrite rev_app_distr. cbn. by rewrite bstr.find_spec.
Qed.
Definition sections_text (fs : list (Header * list (bytes * bytes) * Meta)) : bytes := file_text ((λ '(h, kvs, _), (h, with_values kvs)) <$> fs).
Lemma write_sections_ok f order fs : frontmatter_post_section f = ∅ → (∀ id, id ∈ order → is_Some (file_sections f !! id)) → views (file_sections f) order = represented fs →
  write_sections f [10] (λ _, true) true order = Ok (sections_text fs, true).
Proof.
  intros Hp. revert fs. induction order as [|id order IH]; intros fs Hs Hv.
  - destruct fs; [done|]. discriminate Hv.
  - destruct (Hs id) as [c Hc]; [by left|]. change (id :: order) with ([id] ++ order) in Hv. rewrite views_app in Hv. unfold views in Hv at 1. cbn in Hv. rewrite Hc in Hv. cbn in Hv.
    destruct fs as [|[[h kvs] m] fs]; [done|]. unfold represented in Hv. cbn in Hv. injection Hv as Hh Hb _ Hv. cbn [write_sections]. unfold section_at. rewrite Hc. cbn [expect mbind res_bind negb].
    rewrite Hp, lookup_empty. rewrite pushed_body in Hb. rewrite Hb, values_end_with_newline, (IH fs) by (done || intros i Hi; apply Hs; by right). cbn [mbind res_bind app].
    unfold sections_text. rewrite fmap_cons. unfold file_text. cbn [fmap list_fmap concat]. by rewrite pushed_body, Hh.
Qed.
Definition valid_section (x : Header * list (bytes * bytes) * Meta) : Prop :=
  (∃ n s, header_new n s = Ok x.1.1 ∧ n ≠ []) ∧ Forall (λ kv, is_valid_value_name kv.1 = true) x.1.2.
End Represented.

Section FileText.
Context `{BA : !bstr.Api} `{BL : !bstr.Laws} `{WA : !winnow.Api} `{WL : !winnow.Laws} {Meta : Type}.
#[local] Notation File := (File Meta).

(** C12: A file of sections with valid names to which values were put is written,
    and what is written is loaded again as a file with the same sections in the
    same order and with the same values, that has the invariant. *)
Theorem config_file_write_read bom_len (f : File) fs (m : Meta) : (∀ i, (bom_len i ≤ length i)%nat ∧ (head i = Some (ch "[") → bom_len i = 0%nat)) →
  wf f → represents f fs → frontmatter_post_section f = ∅ → Forall valid_section fs →
  ∃ text f', file_write_to f = Ok text ∧ from_bytes_no_includes bom_len text m false = Ok f' ∧ wf f' ∧
    represents f' ((λ '(h, kvs, _), (h, kvs, m)) <$> fs).
Proof.
  intros Hbom Hwf [Hf Hv] Hp Hfs. change (view f = represented fs) in Hv. exists (sections_text fs).
  assert (Hnl : newline_of [] (represented fs) = [10]) by (rewrite <- (app_nil_r (represented fs)); unfold represented; rewrite newline_values; by destruct fs).
  assert (Hw : file_write_to f = Ok (sections_text fs)).
  { unfold file_write_to, write_to_filter. rewrite (detect_ok f Hwf), bind_Ok, Hf, Hv, Hnl. cbn [ends_with_newline negb andb text app]. 
    rewrite (write_sections_ok f _ fs Hp); [|by intros id; apply (wf_dom _ Hwf)|exact Hv]. cbn. by rewrite app_nil_r. }
  assert (Hok : Forall file_ok ((λ '(h, kvs, _), (h, with_values kvs)) <$> fs)).
  { apply Forall_fmap. eapply Forall_impl; [exact Hfs|]. intros [[h kvs] m'] [Hh Hk]. split; [exact Hh|]. cbn in *. unfold with_values. apply Forall_fmap.
    eapply Forall_impl; [exact Hk|]. by intros [k v]. }
  unfold from_bytes_no_includes, sections_text. cbn [to_event_filter]. rewrite (events_read bom_len _ Hbom Hok), bind_Ok. unfold from_parse_events_no_includes. cbn [frontmatter sections].
  destruct (push_parsed_ok (with_front (file_new m) []) m ((λ f0 : Header * list (bytes * option bytes), (f0.1, body_events f0.2)) <$> ((λ '(h, kvs, _), (h, with_values kvs)) <$> fs)) (file_new_wf m [])) as (f' & -> & Hw' & Hv' & Hf').
  exists f'. split_and!; [exact Hw|done|done|split; [exact Hf'|]]. rewrite Hv'. cbn [app view views file_sections section_order with_front file_new omap list_omap].
  rewrite <- !list_fmap_compose. apply list_fmap_ext. intros _ [[h kvs] m'] _. cbn. by rewrite pushed_body.
Qed.
End FileText.

(** ** Theorems: files that can be made *)

Section Reachable.
Context `{BA : !bstr.Api} {Meta : Type}.
#[local] Notation File := (File Meta).
Implicit Types f other : File.

(** The files that come from parsing and from the operations that add, remove
    and change sections and values. [remove_section_filter] is not among them,
    and renaming only if the name stays the same up to case. *)
Inductive reachable : File → Prop :=
| reach_new m : reachable (file_new m)
| reach_parsed e m f : from_parse_events_no_includes e m = Ok f → reachable f
| reach_push f c id s f' : reachable f → push_section f c = Ok (id, s, f') → reachable f'
| reach_section f n s id sm f' : reachable f → new_conf_section f n s = Ok (id, sm, f') → reachable f'
| reach_or_create f n s keep id sm f' : reachable f → section_mut_or_create_new_filter f n s keep = Ok (id, sm, f') → reachable f'
| reach_change f id s : reachable f → reachable (put_back f id s)
| reach_remove f n s c f' : reachable f → remove_section f n s = Ok (c, f') → reachable f'
| reach_remove_id f id c f' : reachable f → remove_section_by_id f id = Ok (c, f') → reachable f'
| reach_rename f n s n' s' keep f' : reachable f → rename_section_filter f n s n' s' keep = Ok f' →
    name_key n' = name_key n → s' = s → reachable f'
| reach_append f other before f' : reachable f → reachable other → append_or_insert f other before = Ok f' → reachable f'
| reach_set f n s k v keep f' r : reachable f → set_raw_value_filter_by f n s k v keep = Ok (f', r) → reachable f'
| reach_set_existing f n s k v f' : reachable f → set_existing_raw_value_by f n s k v = Ok f' → reachable f'
| reach_set_multi f n s k vs f' : reachable f → set_existing_raw_multi_value_by f n s k vs = Ok f' → reachable f'.

Lemma bind_inv {E A B} (m : res E A) (g : A → res E B) b : (m ≫= g) = Ok b → ∃ a, m = Ok a ∧ g a = Ok b.
Proof. destruct m; [|done..]. by eauto. Qed.
Lemma expect_inv {E A} (o : option A) (a : A) : expect (E := E) o = Ok a → o = Some a.
Proof. by destruct o; [intros [= ->]|]. Qed.
Lemma order_of_inv (order : list SectionId) id i : lookup_section_order order id = Ok i → ∃ a b, order = a ++ id :: b.
Proof.
  unfold lookup_section_order. destruct (find_index _ order) as [j|] eqn:E; [|done]. intros _. apply find_index_split in E as (x & E & Hx & _). apply bool_decide_eq_true in Hx. subst x. eauto.
Qed.
Lemma section_mut_at_inv {E} f id (r : SectionId * SectionMut) : section_mut_at (E := E) f id = Ok r → r.1 = id.
Proof.
  unfold section_mut_at. intros H. apply bind_inv in H as (nl & _ & H). apply bind_inv in H as (c & _ & H). by injection H as <-.
Qed.
Lemma new_conf_section_wf f n s id sm f' : wf f → new_conf_section f n s = Ok (id, sm, f') → wf f'.
Proof.
  intros Hwf. unfold new_conf_section. intros H. apply bind_inv in H as (c & _ & H). destruct (push_section_internal_ok f c Hwf) as (f1 & E & Hw1 & _). rewrite E in H. cbn in H.
  apply bind_inv in H as ([i s1] & _ & H). injection H as _ _ <-. by apply put_back_wf.
Qed.
Lemma or_create_wf f n s keep id sm f' : wf f → section_mut_or_create_new_filter f n s keep = Ok (id, sm, f') → wf f'.
Proof.
  intros Hwf. unfold section_mut_or_create_new_filter. intros H. apply bind_inv in H as ([i|] & _ & H); [|by eapply new_conf_section_wf].
  apply bind_inv in H as ([i1 s1] & _ & H). by injection H as _ _ <-.
Qed.
Lemma remove_by_id_wf f id c f' : wf f → remove_section_by_id f id = Ok (c, f') → wf f'.
Proof.
  intros Hwf H. destruct (decide (id ∈ section_order f)) as [Hid|Hid].
  - destruct (wf_split f id Hwf Hid) as (a & b & c1 & Ho & Hc & _). destruct (remove_section_by_id_ok f id c1 a b Hwf Ho Hc) as (f1 & E & Hw & _). rewrite E in H. by injection H as _ <-.
  - unfold remove_section_by_id, position in H. rewrite (proj2 (find_index_None _ _)) in H; [by injection H as _ <-|]. apply Forall_forall. intros i Hi. apply bool_decide_eq_false_2. by intros ->.
Qed.
Lemma remove_section_wf f n s c f' : wf f → remove_section f n s = Ok (c, f') → wf f'.
Proof.
  intros Hwf. unfold remove_section. destruct (section_ids_by_name_and_subname f n s) as [ids| |]; [|by intros [= _ <-]|done].
  destruct (last ids); [by apply remove_by_id_wf|by intros [= _ <-]].
Qed.
Lemma rename_same_wf f n s n' s' keep f' : wf f → rename_section_filter f n s n' s' keep = Ok f' → name_key n' = name_key n → s' = s → wf f'.
Proof.
  intros Hwf H Hn Hs. pose proof (rename_section_filter_ok f n s keep n' s' Hwf) as Hr. destruct (take_last _ _); [|destruct Hr; congruence].
  unfold renamed in Hr. destruct (header_new n' s') as [h|e|] eqn:Hh; [|congruence|done]. destruct Hr as (f1 & E & _ & Hiff). rewrite H in E. injection E as <-.
  apply Hiff. apply bool_decide_eq_true_2. rewrite <- Hn, <- Hs.
  unfold header_new, validated_name, validated_subsection in Hh. destruct (forallb _ n'); [|done]. destruct s' as [s'|]; [destruct (is_valid_subsection s'); [|done]|]; by injection Hh as <-.
Qed.
Lemma append_or_insert_wf f other before f' : wf f → wf other → append_or_insert f other before = Ok f' → wf f'.
Proof.
  intros Hwf Hoth H. destruct before as [id|].
  - destruct (decide (id ∈ section_order f)) as [Hid|Hid].
    + apply list_elem_of_split in Hid as (a & b & Ho). destruct (append_or_insert_ok f other (Some id) a b Hwf Hoth Ho) as (f1 & E & Hw & _). rewrite E in H. by injection H as <-.
    + unfold append_or_insert in H. apply bind_inv in H as (nl & _ & H). cbv zeta in H. apply bind_inv in H as (f1 & Hl & H).
      assert (f1 = f) as ->.
      { destruct (section_order other) as [|i order]; [by injection Hl as <-|]. cbn [append_loop] in Hl. apply bind_inv in Hl as (c & _ & Hl).
        apply bind_inv in Hl as ([[? ?] ?] & Hi & _). apply bind_inv in Hi as ([? ?] & Hi & _). unfold insert_section_after in Hi. apply bind_inv in Hi as (p & Hp & _).
        apply order_of_inv in Hp as (a & b & Ho). exfalso. apply Hid. rewrite Ho. set_solver. }
      destruct (frontmatter_events other); injection H as <-; [done|]. by apply (wf_kept f).
  - destruct (append_or_insert_ok f other None (section_order f) [] Hwf Hoth) as (f1 & E & Hw & _); [done|]. rewrite E in H. by injection H as <-.
Qed.
Lemma set_entries_headers (m m' : MultiValueMut (Meta := Meta)) l : set_entries m l = Ok m' → ∀ id, header <$> mv_section m' !! id = header <$> mv_section m !! id.
Proof.
  revert m. induction l as [|[e v] l IH]; intros m H id; [by injection H as <-|]. cbn [set_entries] in H. apply bind_inv in H as (m1 & H1 & H). rewrite (IH m1 H).
  unfold set_value_inner in H1. destruct e as [i o]. apply bind_inv in H1 as (s & Hs & H1). apply expect_inv in Hs. apply bind_inv in H1 as ([? ?] & _ & H1). apply bind_inv in H1 as ([? ?] & _ & H1).
  apply bind_inv in H1 as (offs & _ & H1). apply bind_inv in H1 as (es & _ & H1). apply bind_inv in H1 as (es' & _ & H1). injection H1 as <-. cbn [mv_section].
  destruct (decide (id = i)) as [->|Hi]; [by rewrite lookup_insert_eq, Hs|by rewrite lookup_insert_ne].
Qed.

(** C13: In every file that can be made by loading events, by pushing and making
    sections, removing them by name or id, appending and inserting other such
    files, changing the events of sections, setting values, one or several,
    existing or not, and changing the case of names, the sections, their order
    and the tree for looking them up agree. Left out are renaming to another name
    and removing with a filter, after which they do not agree. *)
Theorem reachable_wf f : reachable f → wf f.
Proof.
  induction 1 as [m|e m f H|f c id s f' _ IH H|f n s id sm f' _ IH H|f n s keep id sm f' _ IH H|f id s _ IH|f n s c f' _ IH H|f id c f' _ IH H|f n s n' s' keep f' _ IH H Hn Hs|f other before f' _ IH _ IH2 H
    |f n s k v keep f' r _ IH H|f n s k v f' _ IH H|f n s k vs f' _ IH H].
  - apply (file_new_wf m []).
  - destruct (push_parsed_ok (with_front (file_new m) (frontmatter e)) m (sections e) (file_new_wf m _)) as (f1 & E & Hw & _). unfold from_parse_events_no_includes in H. rewrite E in H. by injection H as <-.
  - unfold push_section in H. destruct (push_section_internal_ok f c IH) as (f1 & E & Hw & _). rewrite E in H. cbn in H. apply bind_inv in H as ([? ?] & _ & H). by injection H as _ _ <-.
  - by eapply new_conf_section_wf.
  - by eapply or_create_wf.
  - by apply put_back_wf.
  - by eapply remove_section_wf.
  - by eapply remove_by_id_wf.
  - by eapply rename_same_wf.
  - exact (append_or_insert_wf _ _ _ _ IH IH2 H).
  - unfold set_raw_value_filter_by in H. destruct (section_mut_or_create_new_filter f n s keep) as [[[id sm] f1]| |] eqn:E; [|by injection H as <- _|done].
    pose proof (or_create_wf _ _ _ _ _ _ _ IH E) as Hw. destruct (is_valid_value_name k); [|by injection H as <- _]. apply bind_inv in H as ([old s'] & _ & H). injection H as <- _. by apply put_back_wf.
  - unfold set_existing_raw_value_by in H. apply bind_inv in H as ([id e] & _ & H). apply bind_inv in H as (e' & _ & H). injection H as <-. by apply put_back_wf.
  - unfold set_existing_raw_multi_value_by in H. apply bind_inv in H as (m & Hm & H). apply bind_inv in H as (m' & Hm' & H). injection H as <-.
    apply (wf_kept f); [done..|]. intros id. unfold put_sections. cbn [file_sections with_order]. unfold set_values in Hm'. destruct (set_entries m _) as [m1| |] eqn:E; [|done..].
    injection Hm' as <-. rewrite (set_entries_headers _ _ _ E). unfold raw_values_mut_filter_by in Hm. apply bind_inv in Hm as (ids & _ & Hm). apply bind_inv in Hm as ([offs es] & _ & Hm).
    cbv zeta in Hm. destruct (sort_by entry_cmp es); [done|]. by injection Hm as <-.
Qed.
End Reachable.

(** ** Examples *)

Section Examples.
#[local] Existing Instances bstr_impl bstr_impl_laws winnow_impl winnow_impl_laws.

(** Two sections of one name, and one with a subsection. *)
Definition loaded : Events :=
  mkEvents [] [(sample_core, body_events [(bs "a", Some (bs "1")); (bs "b", Some (bs "2"))]); (sample_remote, body_events [(bs "url", Some (bs "x"))]);
    (sample_core, body_events [(bs "A", Some (bs "3"))])].
Definition sample_loaded : File unit := match from_parse_events_no_includes loaded tt with Ok f => f | _ => file_new tt end.
Lemma sample_loaded_reachable : reachable sample_loaded.
Proof. apply (reach_parsed loaded tt). vm_compute. reflexivity. Qed.
Definition sample_values : list (Header * list (bytes * bytes) * unit) :=
  [(sample_core, [(bs "a", bs "1"); (bs "b", bs "2")], tt); (sample_remote, [(bs "url", bs "x")], tt); (sample_core, [(bs "A", bs "3")], tt)].
Lemma sample_represents : represents sample_loaded sample_values.
Proof. split; vm_compute; reflexivity. Qed.
Example sample_raw_values :
  raw_value_filter_by sample_loaded (bs "CORE") None (bs "a") (λ _, true) = Ok (bs "3") ∧
  raw_values_filter_by sample_loaded (bs "core") None (bs "a") (λ _, true) = Ok [bs "1"; bs "3"] ∧
  raw_value_filter_by sample_loaded (bs "remote") (Some (bs "A\b")) (bs "url") (λ _, true) = Err SubSectionMissing.
Proof. by vm_compute. Qed.

(** When the last section of a name is removed its list of ids is empty, and
    asking for the section is a panic and not an error. *)
Example section_mut_panics_after_remove :
  match remove_section sample_loaded (bs "remote") (Some (bs "a\b")) with
  | Ok (Some _, f) => section_mut f (bs "remote") (Some (bs "a\b")) = Panic ∧ rename_section f (bs "remote") (Some (bs "a\b")) (bs "x") None = Panic
  | _ => False
  end.
Proof. by vm_compute. Qed.
(** Removing with a filter leaves the id in the tree: the next lookup panics. *)
Example lookup_panics_after_filtered_remove :
  match remove_section_filter sample_loaded (bs "core") None (λ _, true) with
  | Ok (Some _, f) => raw_value_filter_by f (bs "core") None (bs "a") (λ _, true) = Panic
  | _ => False
  end.
Proof. by vm_compute. Qed.
(** A renamed section is found by its old name only, and removing it panics. *)
Example renamed_section_not_found :
  match rename_section sample_loaded (bs "remote") (Some (bs "a\b")) (bs "branch") None with
  | Ok f =>
      raw_value_filter_by f (bs "branch") None (bs "url") (λ _, true) = Err SectionMissing ∧
      raw_value_filter_by f (bs "remote") (Some (bs "a\b")) (bs "url") (λ _, true) = Ok (bs "x") ∧
      remove_section f (bs "remote") (Some (bs "a\b")) = Panic
  | _ => False
  end.
Proof. by vm_compute. Qed.
(** What is in front of the sections of an appended file is attached to the
    section that was added last, also if it is not there anymore: then it is
    not written. *)
Example appended_comment_lost :
  match remove_section sample_loaded (bs "core") None with
  | Ok (_, f) =>
      match append f (with_front (file_new tt) [EComment (mkComment (ch "#") (bs "note")); Newline [10]]) with
      | Ok f' => file_write_to f' = file_write_to f
      | _ => False
      end
  | _ => False
  end.
Proof. by vm_compute. Qed.
(** Two files that are inserted behind one section, as for two paths to include
    in it, are in reverse order: the first one wins. *)
Definition included (v : bytes) : File unit :=
  match from_parse_events_no_includes (mkEvents [] [(sample_core, body_events [(bs "k", Some v)])]) tt with Ok f => f | _ => file_new tt end.
Example included_in_reverse :
  match append_or_insert sample_loaded (included (bs "first")) (Some 2) with
  | Ok f => match append_or_insert f (included (bs "second")) (Some 2) with
            | Ok f => raw_value_filter_by f (bs "core") None (bs "k") (λ _, true) = Ok (bs "first")
            | _ => False
            end
  | _ => False
  end.
Proof. by vm_compute. Qed.
(** Files are equal if the values of one are the first ones of the other. *)
Example longer_file_is_equal :
  match from_parse_events_no_includes (mkEvents [] [(sample_core, body_events [(bs "a", Some (bs "1"))])]) tt,
        from_parse_events_no_includes (mkEvents [] [(sample_core, body_events [(bs "a", Some (bs "1")); (bs "b", Some (bs "2"))])]) tt with
  | Ok f, Ok g => file_eq f g = Ok true
  | _, _ => False
  end.
Proof. by vm_compute. Qed.
(** A key that is not valid is refused after its section was made. *)
Example invalid_key_makes_section :
  match set_raw_value_filter_by (file_new tt) (bs "core") None (bs "1") (bs "v") (λ _, true) with
  | Ok (f, inl SetValueName) => file_write_to f = Ok (bs "[core]" ++ [10])
  | _ => False
  end.
Proof. by vm_compute. Qed.
(** Changing several values, which stay the only change. *)
Example sample_multi :
  match set_existing_raw_multi_value_by sample_loaded (bs "core") None (bs "a") [bs "7"; bs "8"] with
  | Ok f => raw_values_filter_by f (bs "core") None (bs "a") (λ _, true) = Ok [bs "7"; bs "8"] ∧
      view f = (λ '(h, kvs, m), (h, sbody (new_section (with_values kvs)), m)) <$>
        [(sample_core, [(bs "a", bs "7"); (bs "b", bs "2")], tt); (sample_remote, [(bs "url", bs "x")], tt); (sample_core, [(bs "a", bs "8")], tt)]
  | _ => False
  end.
Proof. by vm_compute. Qed.

Lemma sample_loaded_wf : wf sample_loaded.
Proof.
  destruct (push_parsed_ok (with_front (file_new tt) []) tt (sections loaded) (file_new_wf tt [])) as (f & E & Hw & _).
  assert (Hf : push_parsed (with_front (file_new tt) []) tt (sections loaded) = Ok sample_loaded) by (vm_compute; reflexivity). rewrite E in Hf. injection Hf as <-. exact Hw.
Qed.
Lemma sample_values_valid : Forall valid_section sample_values.
Proof.
  unfold sample_values. assert (Hc : ∃ n s, header_new n s = Ok sample_core ∧ n ≠ []) by (exists (bs "core"), None; split; [vm_compute; reflexivity|discriminate]).
  assert (Hr : ∃ n s, header_new n s = Ok sample_remote ∧ n ≠ []) by (exists (bs "remote"), (Some (bs "a\b")); split; [vm_compute; reflexivity|discriminate]).
  constructor; [|constructor; [|constructor; [|constructor]]]; (split; [assumption|repeat constructor]).
Qed.
Lemma raw_value_last_wins_witness :
  wf sample_loaded ∧ raw_value_filter_by sample_loaded (bs "core") None (bs "a") (λ _, true) = Ok (bs "3").
Proof.
  split; [exact sample_loaded_wf|]. destruct (raw_value_last_wins sample_loaded (bs "core") None (bs "a") (λ _, true) sample_loaded_wf) as [H _]. exact H.
Defined.
Lemma section_edits_refine_witness :
  wf sample_loaded ∧ ∃ f, append sample_loaded sample_loaded = Ok f ∧ wf f ∧ view f = view sample_loaded ++ view sample_loaded.
Proof.
  split; [exact sample_loaded_wf|]. destruct (section_edits_refine sample_loaded sample_loaded_wf) as (_ & _ & _ & H & _). exact (H sample_loaded sample_loaded_wf).
Defined.
Lemma set_raw_value_correct_witness :
  ∃ f, set_raw_value_filter_by sample_loaded (bs "core") None (bs "b") (bs "9") (λ _, true) = Ok (f, inr None) ∧ wf f ∧
    represents f [(sample_core, [(bs "a", bs "1"); (bs "b", bs "2")], tt); (sample_remote, [(bs "url", bs "x")], tt); (sample_core, [(bs "A", bs "3"); (bs "b", bs "9")], tt)] ∧
    raw_value_filter_by f (bs "core") None (bs "b") (λ _, true) = Ok (bs "9").
Proof.
  exact (proj2 (set_raw_value_correct sample_loaded (bs "core") None (bs "b") (bs "9") (λ _, true) sample_core
    sample_loaded_wf eq_refl eq_refl) sample_values sample_represents eq_refl).
Defined.
Lemma config_file_write_read_witness :
  Forall valid_section sample_values ∧ ∃ text f', file_write_to sample_loaded = Ok text ∧ from_bytes_no_includes utf8_bom text tt false = Ok f' ∧ wf f' ∧ represents f' sample_values.
Proof.
  split; [exact sample_values_valid|].
  exact (config_file_write_read utf8_bom sample_loaded sample_values tt utf8_bom_ok sample_loaded_wf sample_represents eq_refl sample_values_valid).
Defined.
Lemma reachable_wf_witness : reachable (put_back sample_loaded 1 (new_section [])) ∧ wf (put_back sample_loaded 1 (new_section [])).
Proof. split; [apply reach_change, sample_loaded_reachable|]. exact (reachable_wf _ (reach_change _ _ _ sample_loaded_reachable)). Defined.
End Examples.
