(* ===== verification/RevSpec.v ===== *)
(** * Revision specifications: [gix-revision/src/spec/]

    [spec/mod.rs] (the [Spec] type and its [Display]), [spec/parse/delegate.rs]
    (the trait through which the parser reports what it finds),
    [spec/parse/function.rs] (the parser) and the [Display] of the [Format] of
    [describe.rs].

    The methods of the delegate are the constructors of [Call]; a delegate is
    an instance of the class [Delegate], with a state of its own, which answers
    each call with [Some(())] or [None].  The parser is a state monad over the
    intercepting delegate [InterceptRev] that the code wraps around it. *)

From S2P Require Import Prelude External Hash Actor PackEntry Validate.

(** ** [delegate.rs] *)

Inductive SpecKind :=
| IncludeReachable | ExcludeReachable | RangeBetween | ReachableToMergeBase
| IncludeReachableFromParents | ExcludeReachableFromParents.
Inductive PrefixHint := MustBeCommit | DescribeAnchor (ref_name : bytes) (generation : Z).
Inductive ReflogLookup := ReflogEntry (n : Z) | ReflogDate (t : Time).
Inductive Traversal := NthParent (n : Z) | NthAncestor (n : Z).
Inductive PeelTo := PeelObjectKind (k : Entry.Kind) | ValidObject | RecursiveTagObject | PeelPath (path : bytes).
Inductive SiblingBranch := Upstream | SiblingPush.
#[global] Instance SpecKind_eq_dec : EqDecision SpecKind.
Proof. solve_decision. Defined.
#[global] Instance PrefixHint_eq_dec : EqDecision PrefixHint.
Proof. solve_decision. Defined.

(** [SiblingBranch::parse]. *)
Definition sibling_parse (input : bytes) : option SiblingBranch :=
  if eq_ignore_ascii_case input (bs "u") || eq_ignore_ascii_case input (bs "upstream") then Some Upstream
  else if eq_ignore_ascii_case input (bs "push") then Some SiblingPush
  else None.

(** The methods of the traits [Revision], [Kind] and [Navigate]. *)
Inductive Call :=
| FindRef (name : bytes)
| DisambiguatePrefix (prefix : Prefix) (hint : option PrefixHint)
| Reflog (query : ReflogLookup)
| NthCheckedOutBranch (branch_no : Z)
| SiblingBranchOf (kind : SiblingBranch)
| KindIs (kind : SpecKind)
| Traverse (kind : Traversal)
| PeelUntil (kind : PeelTo)
| Find (regex : bytes) (negated : bool)
| IndexLookup (path : bytes) (stage : Z).

(** The trait [Delegate]: every method takes the delegate mutably. *)
Class Delegate (D : Type) := {
  call : Call → D → option unit * D;
  done : D → D }.

(** ** [spec/mod.rs] *)

Inductive Spec :=
| Include (id : ObjectId)
| Exclude (id : ObjectId)
| Range (from to : ObjectId)
| Merge (theirs ours : ObjectId)
| IncludeOnlyParents (id : ObjectId)
| ExcludeParents (id : ObjectId).

Definition spec_kind (s : Spec) : SpecKind :=
  match s with
  | Include _ => IncludeReachable
  | Exclude _ => ExcludeReachable
  | Range _ _ => RangeBetween
  | Merge _ _ => ReachableToMergeBase
  | IncludeOnlyParents _ => IncludeReachableFromParents
  | ExcludeParents _ => ExcludeReachableFromParents
  end.

(** ** [parse/mod.rs]: errors

    The source of a [Time] error is kept as whether there is one. *)

Inductive ParseError :=
| MissingTildeAnchor
| MissingColonSuffix
| EmptyTopLevelRegex
| UnspecifiedRegexModifier (regex : bytes)
| InvalidObject (input : bytes)
| TimeError (input : bytes) (source : bool)
| SiblingBranchNeedsBranchName (name : bytes)
| ReflogLookupNeedsRefName (name : bytes)
| RefnameNeedsPositiveReflogEntries (nav : bytes)
| SignedNumber (input : bytes)
| InvalidNumber (input : bytes)
| NegativeZero (input : bytes)
| UnclosedBracePair (input : bytes)
| KindSetTwice (prev_kind kind : SpecKind)
| AtNeedsCurlyBrackets (input : bytes)
| UnconsumedInput (input : bytes)
| DelegateFailed.

(** ** What the parser uses of the standard library *)

(** [str::from_utf8] succeeds. *)
Definition is_cont (b : Z) : bool := between 128 191 b.
Fixpoint is_utf8 (s : bytes) : bool :=
  match s with
  | [] => true
  | a :: s1 =>
      if between 0 127 a then is_utf8 s1
      else if between 194 223 a then
        match s1 with b :: s2 => is_cont b && is_utf8 s2 | _ => false end
      else if between 224 239 a then
        match s1 with
        | b :: c :: s3 =>
            between (if a =? 224 then 160 else 128) (if a =? 237 then 159 else 191) b && is_cont c && is_utf8 s3
        | _ => false
        end
      else if between 240 244 a then
        match s1 with
        | b :: c :: d :: s4 =>
            between (if a =? 240 then 144 else 128) (if a =? 244 then 143 else 191) b && is_cont c && is_cont d && is_utf8 s4
        | _ => false
        end
      else false
  end.

(** [<isize as FromStr>::from_str] and [<usize as FromStr>::from_str]. *)
Definition digits_value (d : bytes) : option Z :=
  if bool_decide (d ≠ []) && forallb is_ascii_digit d
  then Some (foldl (λ v c, v * 10 + (c - ch "0")) 0 d) else None.
Definition in_range (lo hi : Z) (n : Z) : option Z := if (lo <=? n) && (n <? hi) then Some n else None.
Definition parse_usize (s : bytes) : option Z :=
  n ← digits_value (default s (strip_prefix s (bs "+"))); in_range 0 (2 ^ 64) n.
Definition parse_isize (s : bytes) : option Z :=
  match strip_prefix s (bs "-") with
  | Some d => n ← digits_value d; in_range (- 2 ^ 63) (2 ^ 63) (- n)
  | None => n ← digits_value (default s (strip_prefix s (bs "+"))); in_range (- 2 ^ 63) (2 ^ 63) n
  end.

(** [slice.split(|b| b == sep)], each piece with the offset of its pointer. *)
Fixpoint split_ofs (sep : Z) (ofs : nat) (s : bytes) : list (nat * bytes) :=
  match s with
  | [] => [(ofs, [])]
  | c :: s =>
      if c =? sep then (ofs, []) :: split_ofs sep (S ofs) s
      else match split_ofs sep (S ofs) s with (_, l) :: ls => (ofs, c :: l) :: ls | [] => [(ofs, [c])] end
  end.

(** [iter.take_while(p).count()]. *)
Fixpoint count_while (p : Z → bool) (s : bytes) : nat :=
  match s with b :: s => if p b then S (count_while p s) else 0 | [] => 0 end.

(** ** [parse/function.rs]: helpers without the delegate *)

(** [long_describe_prefix]: the candidate is the right-most piece that is a
    [g] and hexadecimal digits. *)
Definition describe_candidate (substr : bytes) : option bytes :=
  c ← head substr;
  if c =? ch "g" then
    rest ← get_from substr 1;
    if forallb is_ascii_hexdigit rest then Some rest else None
  else None.
Fixpoint find_candidate (iter : list (nat * bytes)) : option (bytes * list (nat * bytes)) :=
  match iter with
  | [] => None
  | (_, substr) :: iter =>
      match describe_candidate substr with
      | Some rest => Some (rest, iter)
      | None => find_candidate iter
      end
  end.
Definition describe_hint (name : bytes) (iter : list (nat * bytes)) : res ParseError PrefixHint :=
  match iter with
  | (_, gen) :: (ptr, token) :: iter =>
      match (if is_utf8 gen then parse_usize gen else None) with
      | Some generation =>
          let first_token_ptr := match list.last iter with Some (p, _) => p | None => ptr end in
          if (first_token_ptr <=? ptr)%nat then
            let prior_tokens_len := (ptr - first_token_ptr)%nat in
            ref_name ← slice_to name (prior_tokens_len + length token);
            Ok (DescribeAnchor ref_name generation)
          else Panic
      | None => Ok MustBeCommit
      end
  | _ => Ok MustBeCommit
  end.
Definition long_describe_prefix (name : bytes) : res ParseError (option (bytes * PrefixHint)) :=
  match find_candidate (rev (split_ofs (ch "-") 0 name)) with
  | None => Ok None
  | Some (candidate, iter) =>
      hint ← describe_hint name iter;
      Ok (if existsb (λ t, bool_decide (t.2 ≠ [])) iter then Some (candidate, hint) else None)
  end.

Definition short_describe_prefix (name : bytes) : option bytes :=
  match split_ofs (ch "-") 0 name with
  | (_, prefix) :: iter =>
      let candidate := if forallb is_ascii_hexdigit prefix then Some prefix else None in
      if (length iter =? 1)%nat then candidate else None
  | [] => None
  end.

(** [parens]: the text between matching braces, with the backslashes that
    escape a brace or a backslash removed. *)
Fixpoint cut_skipped (input : bytes) (from : nat) (skip_list : list nat) (buf : bytes) : res ParseError (nat * bytes) :=
  match skip_list with
  | [] => Ok (from, buf)
  | next :: skip_list =>
      part ← slice input from next;
      cut_skipped input (next + 1) skip_list (buf ++ part)
  end.
Definition parens_inner (input : bytes) (idx : nat) (skip_list : list nat) : res ParseError bytes :=
  match skip_list with
  | [] => slice input 1 idx
  | _ =>
      '(from, buf) ← cut_skipped input 1 skip_list [];
      Ok match get_range input from idx with Some rest => buf ++ rest | None => buf end
  end.
(** One byte: the new [open_braces], [ignore_next] and [skip_list]. *)
Definition parens_step (idx : nat) (b : Z) (st : Z * bool * list nat) : Z * bool * list nat :=
  let '(open_braces, ignore_next, skip_list) := st in
  if b =? ch "{" then if ignore_next then (open_braces, false, skip_list) else (open_braces + 1, false, skip_list)
  else if b =? ch "}" then if ignore_next then (open_braces, false, skip_list) else (open_braces - 1, false, skip_list)
  else if b =? ch "\" then
    if ignore_next then (open_braces, false, removelast (skip_list ++ [idx])) else (open_braces, true, skip_list ++ [idx])
  else (open_braces, false, if ignore_next then removelast skip_list else skip_list).
Fixpoint parens_loop (input rest : bytes) (idx : nat) (st : Z * bool * list nat)
    : res ParseError (option (bytes * bytes * nat)) :=
  match rest with
  | [] => Err (UnclosedBracePair input)
  | b :: rest =>
      let st := parens_step idx b st in
      if st.1.1 =? 0 then
        inner ← parens_inner input idx st.2;
        after ← slice_from input (idx + 1);
        Ok (Some (inner, after, (idx + 1)%nat))
      else parens_loop input rest (S idx) st
  end.
Definition parens (input : bytes) : res ParseError (option (bytes * bytes * nat)) :=
  if bool_decide (head input ≠ Some (ch "{")) then Ok None
  else parens_loop input input 0 (0, false, []).

(** [try_parse::<T>] for the [FromStr] of [T]. *)
Definition try_parse (from_str : bytes → option Z) (input : bytes) : res ParseError (option Z) :=
  match (if is_utf8 input then from_str input else None) with
  | None => Ok None
  | Some n =>
      if n =? 0 then
        b ← idx input 0;
        if b =? ch "-" then Err (NegativeZero input) else Ok (Some n)
      else Ok (Some n)
  end.

Definition parse_regex_prefix (regex : bytes) : res ParseError (bytes * bool) :=
  match strip_prefix regex (bs "!") with
  | Some stripped =>
      if bool_decide (head stripped = Some (ch "!")) then Ok (stripped, false)
      else if bool_decide (head stripped = Some (ch "-")) then
        rest ← slice_from stripped 1; Ok (rest, true)
      else Err (UnspecifiedRegexModifier regex)
  | None => Ok (regex, false)
  end.

(** The value, and the number of bytes it takes. *)
Definition try_parse_usize (input : bytes) : res ParseError (option (Z * nat)) :=
  if match head input with Some b => (b =? ch "-") || (b =? ch "+") | None => false end
  then Err (SignedNumber input)
  else
    let num_digits := count_while is_ascii_digit input in
    if (num_digits =? 0)%nat then Ok None
    else
      input ← slice_to input num_digits;
      number ← try_parse parse_usize input;
      number ← ok_or number (InvalidNumber input);
      Ok (Some (number, num_digits)).
Definition try_parse_isize (input : bytes) : res ParseError (option (Z * bool * nat)) :=
  if bool_decide (head input = Some (ch "+")) then Err (SignedNumber input)
  else
    let negative := bool_decide (head input = Some (ch "-")) in
    let num_digits := count_while (λ b, is_ascii_digit b || (b =? ch "-")) input in
    if (num_digits =? 0)%nat then Ok None
    else if (num_digits =? 1)%nat && negative then Ok (Some (-1, negative, num_digits))
    else
      input ← slice_to input num_digits;
      number ← try_parse parse_isize input;
      number ← ok_or number (InvalidNumber input);
      Ok (Some (number, negative, num_digits)).

Definition try_range (input : bytes) : option (bytes * SpecKind) :=
  match strip_prefix input (bs "...") with
  | Some rest => Some (rest, ReachableToMergeBase)
  | None => (λ rest, (rest, RangeBetween)) <$> strip_prefix input (bs "..")
  end.
Definition next (i : bytes) : res ParseError (Z * bytes) :=
  b ← idx i 0; rest ← slice_from i 1; Ok (b, rest).

(** The search for the separator after the name: [SEPARATORS] is [~^:.], and
    the closure that finds a candidate also counts the hexadecimal digits. *)
Definition SEPARATORS : bytes := bs "~^:.".
Definition is_separator (cursor : bytes) (pos : nat) (b : Z) : bool :=
  if b =? ch "@" then
    if (length cursor =? 1)%nat then true
    else
      let next := cursor !! (pos + 1)%nat in
      let next_next := cursor !! (pos + 2)%nat in
      if bool_decide (pos ≠ 0%nat) && bool_decide (next = Some (ch ".") ∧ next_next = Some (ch ".")) then false
      else bool_decide (next = Some (ch "{")) || match next with Some b => mem b SEPARATORS | None => false end
  else mem b SEPARATORS.
Definition count_hex (b : Z) (consecutive_hex_chars : option nat) : option nat :=
  if b =? ch "@" then consecutive_hex_chars
  else if mem b SEPARATORS then consecutive_hex_chars
  else num ← consecutive_hex_chars; if is_ascii_hexdigit b then Some (S num) else None.
Fixpoint find_sep (cursor rest : bytes) (pos : nat) (hex_chars : option nat) : option (nat * Z) * option nat :=
  match rest with
  | [] => (None, hex_chars)
  | b :: rest =>
      let hex_chars := count_hex b hex_chars in
      if is_separator cursor pos b then (Some (pos, b), hex_chars)
      else find_sep cursor rest (S pos) hex_chars
  end.
(** The [while let]; every round shortens the cursor. *)
Fixpoint scan (fuel : nat) (cursor : bytes) (ofs : nat) (hex_chars : option nat) : res ParseError (option nat * option nat) :=
  match fuel with
  | O => Panic
  | S fuel =>
      match find_sep cursor cursor 0 hex_chars with
      | (None, hex_chars) => Ok (None, hex_chars)
      | (Some (pos, b), hex_chars) =>
          if negb (b =? ch ".") || bool_decide (cursor !! (pos + 1)%nat = Some (ch "."))
          then Ok (Some (ofs + pos)%nat, hex_chars)
          else
            cursor ← slice_from cursor (pos + 1);
            scan fuel cursor (ofs + (pos + 1)) hex_chars
      end
  end.
Definition find_separator (input : bytes) : res ParseError (option nat * option nat) :=
  scan (S (length input)) input 0 (Some 0%nat).

(** ** The parser *)

Section Parse.
Context `{HX : !faster_hex.Api} {D : Type} {DEL : Delegate D}.
(** [gix_date::parse] at the current time, which relies on the [jiff] crate. *)
Context (date_parse : bytes → option Time).

(** [InterceptRev]. *)
Record InterceptRev := mkIntercept {
  inner : D;
  last_ref : option bytes;
  last_prefix : option (Prefix * option PrefixHint);
  is_done : bool }.
Definition intercept_new (delegate : D) : InterceptRev := mkIntercept delegate None None false.
Definition intercept_call (c : Call) (s : InterceptRev) : option unit * InterceptRev :=
  let s :=
    match c with
    | FindRef name => mkIntercept (inner s) (Some name) (last_prefix s) (is_done s)
    | DisambiguatePrefix prefix hint => mkIntercept (inner s) (last_ref s) (Some (prefix, hint)) (is_done s)
    | _ => s
    end in
  let '(r, d) := call c (inner s) in
  (r, mkIntercept d (last_ref s) (last_prefix s) (is_done s)).
Definition intercept_done (s : InterceptRev) : InterceptRev :=
  mkIntercept (done (inner s)) (last_ref s) (last_prefix s) true.

(** Computations with the delegate: a result and the delegate afterwards,
    which keeps what an unsuccessful computation has told it. *)
Definition M (A : Type) : Type := InterceptRev → res ParseError A * InterceptRev.
#[global] Instance M_ret : MRet M := λ A a s, (Ok a, s).
#[global] Instance M_bind : MBind M := λ A B f m s,
  match m s with (Ok a, s) => f a s | (Err e, s) => (Err e, s) | (Panic, s) => (Panic, s) end.
Definition of_res {A} (r : res ParseError A) : M A := λ s, (r, s).
Definition fail {A} (e : ParseError) : M A := of_res (Err e).
(** A method of the delegate, and its use with [.ok_or(Error::Delegate)?]. *)
Definition ask (c : Call) : M (option unit) := λ s, let '(r, s) := intercept_call c s in (Ok r, s).
Definition demand (c : Call) : M unit :=
  r ← ask c; match r with Some _ => mret tt | None => fail DelegateFailed end.
Definition finish : M unit := λ s, (Ok tt, intercept_done s).
(** [delegate.last_prefix.take()], [delegate.last_ref.take()] and the flag. *)
Definition take_last_prefix : M (option (Prefix * option PrefixHint)) :=
  λ s, (Ok (last_prefix s), mkIntercept (inner s) (last_ref s) None (is_done s)).
Definition take_last_ref : M (option bytes) :=
  λ s, (Ok (last_ref s), mkIntercept (inner s) None (last_prefix s) (is_done s)).
Definition get_done : M bool := λ s, (Ok (is_done s), s).

Definition try_set_prefix (hex_name : bytes) (hint : option PrefixHint) : M (option unit) :=
  if is_utf8 hex_name then
    match prefix_from_hex hex_name with
    | Ok prefix => ask (DisambiguatePrefix prefix hint)
    | Err _ => mret None
    | Panic => of_res Panic
    end
  else of_res Panic.

(** The [while let] of [navigate]; every round advances the cursor. *)
Definition peel_target (kind : bytes) : option PeelTo :=
  if bool_decide (kind = bs "commit") then Some (PeelObjectKind Entry.KCommit)
  else if bool_decide (kind = bs "tag") then Some (PeelObjectKind Entry.KTag)
  else if bool_decide (kind = bs "tree") then Some (PeelObjectKind Entry.KTree)
  else if bool_decide (kind = bs "blob") then Some (PeelObjectKind Entry.KBlob)
  else if bool_decide (kind = bs "object") then Some ValidObject
  else if bool_decide (kind = []) then Some RecursiveTagObject
  else None.
(** [^{..}]. *)
Definition peel_parens (kind : bytes) : M unit :=
  match peel_target kind with
  | Some target => demand (PeelUntil target)
  | None =>
      if starts_with kind (bs "/") then
        regex ← of_res (slice_from kind 1);
        '(regex, negated) ← of_res (parse_regex_prefix regex);
        if bool_decide (regex = []) then mret tt else demand (Find regex negated)
      else fail (InvalidObject kind)
  end.
(** [^-<n>]: the range from a parent to the revision itself. *)
Definition exclude_parent (input : bytes) (cursor : nat) (past_sep : option bytes) (number : Z) : M unit :=
  number ← of_res (match in_range (- 2 ^ 63) (2 ^ 63) (number * -1) with
                   | Some n => if n <? 0 then Panic else Ok n
                   | None => p ← expect past_sep; Err (InvalidNumber p)
                   end);
  _ ← demand (Traverse (NthParent number));
  _ ← demand (KindIs RangeBetween);
  p ← take_last_prefix;
  _ ← (match p with
       | Some (prefix, hint) => demand (DisambiguatePrefix prefix hint)
       | None =>
           r ← take_last_ref;
           match r with
           | Some name => demand (FindRef name)
           | None => rest ← of_res (slice_from input cursor); fail (UnconsumedInput rest)
           end
       end);
  finish.
(** One round: the new cursor, or the rest that [navigate] returns. *)
Definition navigate_step (input : bytes) (cursor : nat) (b : Z) : M (nat + bytes) :=
  if b =? ch "~" then
    n ← of_res (match get_from input cursor with Some past_sep => try_parse_usize past_sep | None => Ok None end);
    let '(number, consumed) := default (1, 0%nat) n in
    _ ← (if number =? 0 then mret tt else demand (Traverse (NthAncestor number)));
    mret (inl (cursor + consumed)%nat)
  else if b =? ch "^" then
    let past_sep := get_from input cursor in
    n ← of_res (match past_sep with Some past_sep => try_parse_isize past_sep | None => Ok None end);
    match n with
    | Some (number, negative, consumed) =>
        if negative : bool then
          _ ← exclude_parent input cursor past_sep number;
          rest ← of_res (slice_from input (cursor + consumed));
          mret (inr rest)
        else
          _ ← (if number =? 0 then demand (PeelUntil (PeelObjectKind Entry.KCommit))
               else if number <? 0 then of_res Panic
               else demand (Traverse (NthParent number)));
          mret (inl (cursor + consumed)%nat)
    | None =>
        p ← of_res (match past_sep with Some past_sep => parens past_sep | None => Ok None end);
        match p with
        | Some (kind, _, consumed) =>
            _ ← peel_parens kind;
            mret (inl (cursor + consumed)%nat)
        | None =>
            if bool_decide ((past_sep ≫= head) = Some (ch "!")) then
              _ ← demand (KindIs ExcludeReachableFromParents);
              _ ← finish;
              rest ← of_res (slice_from input (cursor + 1));
              mret (inr rest)
            else if bool_decide ((past_sep ≫= head) = Some (ch "@")) then
              _ ← demand (KindIs IncludeReachableFromParents);
              _ ← finish;
              rest ← of_res (slice_from input (cursor + 1));
              mret (inr rest)
            else
              _ ← demand (Traverse (NthParent 1));
              mret (inl cursor)
        end
    end
  else if b =? ch ":" then
    path ← of_res (slice_from input cursor);
    _ ← demand (PeelUntil (PeelPath path));
    mret (inr [])
  else
    rest ← of_res (slice_from input (cursor - 1));
    mret (inr rest).
Fixpoint navigate_loop (fuel : nat) (input : bytes) (cursor : nat) : M bytes :=
  match fuel with
  | O => of_res Panic
  | S fuel =>
      match input !! cursor with
      | None => mret []
      | Some b =>
          r ← navigate_step input (cursor + 1) b;
          match r with
          | inl cursor => navigate_loop fuel input cursor
          | inr rest => mret rest
          end
      end
  end.
Definition navigate (input : bytes) : M bytes := navigate_loop (S (length input)) input 0.

(** The name in front of the separator: an object prefix, the output of
    [git describe] or a reference; whether there is a name or an implied one. *)
Definition anchor (name : bytes) (hex_chars : option nat) : M bool :=
  r ← (if (MIN_HEX_LEN <=? default 0%nat hex_chars)%nat then try_set_prefix name None else mret None);
  match r with
  | Some _ => mret (bool_decide (name = []))
  | None =>
      long ← of_res (long_describe_prefix name);
      r ← (match long with
           | Some (prefix, hint) => try_set_prefix prefix (Some hint)
           | None =>
               match short_describe_prefix name with
               | Some prefix => try_set_prefix prefix None
               | None => mret None
               end
           end);
      match r with
      | Some _ => mret (bool_decide (name = []))
      | None =>
          if bool_decide (name = []) then mret true
          else _ ← demand (FindRef name); mret true
      end
  end.

(** [@{..}]: what follows the name in braces. *)
Definition curly (name nav : bytes) (has_ref_or_implied_name : bool) : M unit :=
  n ← of_res (try_parse parse_isize nav);
  match n with
  | Some n =>
      if n <? 0 then
        if bool_decide (name = []) then demand (NthCheckedOutBranch (- n))
        else fail (RefnameNeedsPositiveReflogEntries nav)
      else if has_ref_or_implied_name then demand (Reflog (ReflogEntry n))
      else fail (ReflogLookupNeedsRefName name)
  | None =>
      match sibling_parse nav with
      | Some kind =>
          if has_ref_or_implied_name then demand (SiblingBranchOf kind)
          else fail (SiblingBranchNeedsBranchName name)
      | None =>
          if has_ref_or_implied_name then
            if is_utf8 nav then
              match date_parse nav with
              | Some time => demand (Reflog (ReflogDate time))
              | None => fail (TimeError nav true)
              end
            else fail (TimeError nav false)
          else fail (ReflogLookupNeedsRefName name)
      end
  end.

(** What remains of [revision] once the anchor is set. *)
Definition after_anchor (input name : bytes) (sep_pos : option nat) (sep : option Z) (has_ref_or_implied_name : bool) : M bytes :=
  if bool_decide (sep = Some (ch "@")) then
    past_sep ← of_res (slice_from input (match sep_pos with Some pos => pos + 1 | None => length input end)%nat);
    p ← of_res (parens past_sep);
    match p with
    | None =>
        at_ ← of_res (slice_from input (default (length input) sep_pos));
        fail (AtNeedsCurlyBrackets at_)
    | Some (nav, rest, _) =>
        _ ← curly name nav has_ref_or_implied_name;
        navigate rest
    end
  else if bool_decide (sep_pos = Some 0%nat) && bool_decide (sep = Some (ch "~")) then fail MissingTildeAnchor
  else
    rest ← of_res (slice_from input (default (length input) sep_pos));
    navigate rest.

Definition consume_all (c : Call) : M bytes := _ ← demand c; mret [].

(** [revision] on input that does not start with a colon. *)
Definition revision_named (input : bytes) : M bytes :=
  '(sep_pos, hex_chars) ← of_res (find_separator input);
  name ← of_res (slice_to input (default (length input) sep_pos));
  sep ← of_res (match sep_pos with Some pos => b ← idx input pos; Ok (Some b) | None => Ok None end);
  if bool_decide (name = []) && bool_decide (sep = Some (ch "@"))
     && bool_decide ((sep_pos ≫= λ pos, input !! (pos + 1)%nat) ≠ Some (ch "{")) then
    _ ← demand (FindRef (bs "HEAD"));
    let sep_pos := (λ pos, (pos + 1)%nat) <$> sep_pos in
    match (sep_pos ≫= λ pos, input !! pos) with
    | None => mret []
    | Some b => after_anchor input name sep_pos (Some b) (bool_decide (name = []))
    end
  else
    has_ref_or_implied_name ← anchor name hex_chars;
    after_anchor input name sep_pos sep has_ref_or_implied_name.
Definition revision (input : bytes) : M bytes :=
  if bool_decide (input = bs ":") then fail MissingColonSuffix
  else if bool_decide (input = bs ":/") then fail EmptyTopLevelRegex
  else match strip_prefix input (bs ":/") with
  | Some regex =>
      '(regex, negated) ← of_res (parse_regex_prefix regex);
      if bool_decide (regex = []) then fail (UnconsumedInput input)
      else consume_all (Find regex negated)
  | None =>
  match strip_prefix input (bs ":0:") with
  | Some path => consume_all (IndexLookup path 0)
  | None =>
  match strip_prefix input (bs ":1:") with
  | Some path => consume_all (IndexLookup path 1)
  | None =>
  match strip_prefix input (bs ":2:") with
  | Some path => consume_all (IndexLookup path 2)
  | None =>
  match strip_prefix input (bs ":") with
  | Some path => consume_all (IndexLookup path 0)
  | None => revision_named input
  end end end end end.

(** [parse], with its start, the range and the end of the input as functions
    of their own. *)
Definition parse_end (input : bytes) : M unit :=
  if bool_decide (input = []) then finish else fail (UnconsumedInput input).
Definition head_unless (found_revision : bool) : M unit :=
  if found_revision then mret tt else demand (FindRef (bs "HEAD")).
Definition parse_range (input : bytes) (found_revision : bool) (prev_kind : option SpecKind) : M unit :=
  match try_range input with
  | None => parse_end input
  | Some (rest, kind) =>
      match prev_kind with
      | Some prev_kind => fail (KindSetTwice prev_kind kind)
      | None =>
          _ ← head_unless found_revision;
          _ ← demand (KindIs kind);
          remainder ← revision rest;
          _ ← head_unless (bool_decide (remainder ≠ rest));
          parse_end remainder
      end
  end.
Definition parse_caret (input : bytes) : M (bytes * option SpecKind) :=
  if bool_decide (head input = Some (ch "^")) then
    '(_, input) ← of_res (next input);
    _ ← demand (KindIs ExcludeReachable);
    mret (input, Some ExcludeReachable)
  else mret (input, None).
Definition parse_body (input : bytes) : M unit :=
  '(input, prev_kind) ← parse_caret input;
  rest ← revision input;
  is_done ← get_done;
  if is_done : bool then
    if bool_decide (rest = []) then mret tt else fail (UnconsumedInput rest)
  else parse_range rest (bool_decide (rest ≠ input)) prev_kind.
Definition parse (input : bytes) (delegate : D) : res ParseError unit * D :=
  let '(r, s) := parse_body input (intercept_new delegate) in (r, inner s).

End Parse.
Arguments InterceptRev : clear implicits.
Arguments M : clear implicits.
Arguments mkIntercept {D}.
Arguments inner {D}.
Arguments last_ref {D}.
Arguments last_prefix {D}.
Arguments is_done {D}.

(** ** Revisions as text: [Display] of [Spec] and of [describe::Format]

    [bstr_display] is the [Display] of a [BStr]. *)

Section Display.
Context `{HX : !faster_hex.Api} (bstr_display : bytes → bytes).

Definition id_display (id : ObjectId) : res Empty_set bytes := to_hex (as_slice id).
Definition spec_display (s : Spec) : res Empty_set bytes :=
  match s with
  | Include oid => id_display oid
  | Exclude oid => t ← id_display oid; Ok (bs "^" ++ t)
  | Range from to => f ← id_display from; t ← id_display to; Ok (f ++ bs ".." ++ t)
  | Merge theirs ours => t ← id_display theirs; o ← id_display ours; Ok (t ++ bs "..." ++ o)
  | IncludeOnlyParents from_exclusive => t ← id_display from_exclusive; Ok (t ++ bs "^@")
  | ExcludeParents oid => t ← id_display oid; Ok (t ++ bs "^!")
  end.

(** [depth] is a [u32]. *)
Record Format := mkFormat {
  f_name : option bytes;
  f_id : ObjectId;
  f_hex_len : nat;
  f_depth : Z;
  f_long : bool;
  f_dirty_suffix : option bytes }.
Definition into_format (name : option bytes) (id : ObjectId) (depth : Z) (hex_len : nat) : Format :=
  mkFormat name id hex_len depth false None.
Definition is_exact_match (f : Format) : bool := f_depth f =? 0.
Definition set_long (f : Format) (long : bool) : Format :=
  mkFormat (f_name f) (f_id f) (f_hex_len f) (f_depth f) long (f_dirty_suffix f).
Definition format_display (f : Format) : res Empty_set bytes :=
  body ← match f_name f with
         | Some name =>
             if negb (f_long f) && is_exact_match f then Ok (bstr_display name)
             else
               hex ← hex_display (as_slice (f_id f)) (f_hex_len f);
               Ok (bstr_display name ++ bs "-" ++ itoa.decimal (f_depth f) ++ bs "-g" ++ hex)
         | None => hex_display (as_slice (f_id f)) (f_hex_len f)
         end;
  Ok (body ++ match f_dirty_suffix f with Some suffix => bs "-" ++ suffix | None => [] end).
End Display.

(** ** Lemmas: prefixes from text *)

Lemma unhex_spec s d : unhex s = Some d → is_bytes d ∧ Forall2 (λ c n, hex_val c = Some n) s (nibbles d).
Proof.
  remember (length s) as n eqn:Hn. revert s d Hn.
  induction (lt_wf n) as [n _ IH]. intros [|h [|l s]] d Hn H; cbn [unhex] in H; [by simplify_eq|done|].
  destruct (hex_val h) as [a|] eqn:Ha, (hex_val l) as [b|] eqn:Hb; simplify_eq/=.
  destruct (unhex s) as [d'|] eqn:Hd; simplify_eq/=.
  edestruct (IH (length s)) as [Hbs Hf]; [|done..|]; [lia|].
  pose proof (hex_val_range _ _ Ha). pose proof (hex_val_range _ _ Hb).
  split; [constructor; [lia|done]|].
  rewrite Z.div_add_l, Z.div_small, Z.add_0_r by lia.
  rewrite Z.add_comm, Z.mod_add, Z.mod_small by lia. by repeat constructor.
Qed.
Lemma nibbles_last s d : unhex (s ++ [ch "0"]) = Some d → ∃ ns, nibbles d = ns ++ [0] ∧ length ns = length s.
Proof.
  intros [_ Hf]%unhex_spec. apply Forall2_app_inv_l in Hf as (ns & z & Hns & Hz & ->).
  inversion Hz as [|x y ? ? Hxy Hn]; subst. inversion Hn; subst.
  assert (y = 0) as -> by (vm_compute in Hxy; congruence).
  exists ns. split; [done|]. by symmetry; eapply Forall2_length.
Qed.
Lemma even_snoc {A} (s : list A) x : (length s mod 2 =? 0)%nat = false → Nat.even (length (s ++ [x])) = true.
Proof.
  intros H. rewrite length_app, Nat.add_1_r, Nat.even_succ, <- Nat.negb_even. apply Nat.eqb_neq in H.
  destruct (Nat.even (length s)) eqn:He; [|done]. apply Nat.even_spec in He as [k Hk]. rewrite Hk, Nat.mul_comm, Nat.Div0.mod_mul in H. lia.
Qed.
Lemma even_mod n : (n mod 2 =? 0)%nat = true → Nat.even n = true.
Proof. intros H%Nat.eqb_eq. apply Nat.Div0.mod_divides in H as [k ->]. by rewrite Nat.even_mul. Qed.

Section PrefixText.
Context `{HX : !faster_hex.Api} `{HXL : !faster_hex.Laws}.

(** What [Prefix::from_hex] decodes: whole bytes, the last digit a zero that
    was appended if the number of digits is odd. *)
Lemma prefix_digits value :
  match (if (length value mod 2 =? 0)%nat then faster_hex.hex_decode value else faster_hex.hex_decode (value ++ [ch "0"])) with
  | Ok src => is_bytes src ∧ ∃ ns, length ns = length value ∧
      nibbles src = ns ++ if (length value mod 2 =? 0)%nat then [] else [0]
  | Err (faster_hex.InvalidLength _) | Panic => False
  | Err _ => True
  end.
Proof.
  destruct (_ =? 0)%nat eqn:Hm.
  - rewrite faster_hex.hex_decode_spec by by apply even_mod. destruct (unhex value) as [d|] eqn:Hd; [|done].
    apply unhex_spec in Hd as [Hb Hf]. split; [done|]. exists (nibbles d). rewrite app_nil_r. split; [|done].
    symmetry. by eapply Forall2_length.
  - rewrite faster_hex.hex_decode_spec by by apply even_snoc. destruct (unhex _) as [d|] eqn:Hd; [|done].
    split; [by apply unhex_spec in Hd as [? _]|]. apply nibbles_last in Hd as (ns & -> & Hl). eauto.
Qed.
Lemma prefix_from_hex_safe value : safe wf_prefix (prefix_from_hex value).
Proof.
  unfold prefix_from_hex. cbn [len_in_hex longest]. unfold MIN_HEX_LEN.
  destruct (Nat.ltb_spec 40 (length value)) as [|Hmax]; [done|].
  destruct (Nat.ltb_spec (length value) 4) as [|Hmin]; [done|].
  pose proof (prefix_digits value) as H. destruct (if (length value mod 2 =? 0)%nat then _ else _) as [src|[| |]|]; try done.
  destruct H as (Hb & ns & Hl & Hns).
  rewrite bind_Ok. unfold from_hex_len. rewrite (proj2 (Nat.leb_le _ _)) by lia. cbn [expect null as_slice]. rewrite bind_Ok.
  assert (Hle : (length src ≤ 20)%nat).
  { apply (f_equal length) in Hns. rewrite length_nibbles, length_app, Hl in Hns.
    destruct (Nat.eqb_spec (length value mod 2) 0) as [He|Ho]; cbn [length] in Hns; [lia|].
    destruct (decide (length value = 40)%nat) as [Hv|]; [|lia]. by rewrite Hv in Ho. }
  cbn [null as_slice]. rewrite slice_to_ok by (rewrite length_replicate; lia). rewrite bind_Ok. rewrite drop_replicate. cbn.
  split; [|split]; cbn.
  - split; cbn; [rewrite length_app, length_replicate; lia|]. apply Forall_app; split; [done|]. apply Forall_replicate. lia.
  - unfold MIN_HEX_LEN. lia.
  - unfold as_oid. cbn. rewrite nibbles_app, Hns, nibbles_zeros, <- app_assoc, drop_app_length' by done.
    assert (Hlen : length (nibbles src) = (2 * length src)%nat) by apply length_nibbles. rewrite Hns, length_app in Hlen.
    destruct (_ =? 0)%nat; cbn [length app] in *.
    + f_equal. lia.
    + change (0 :: replicate (2 * (20 - length src)) 0) with (replicate (S (2 * (20 - length src))) 0). f_equal. lia.
Qed.
End PrefixText.

(** ** Lemmas: the helpers do not panic, and what they return *)

Lemma slice_from_safe {E A} (d : list A) n : (n ≤ length d)%nat → safe (λ r, r = drop n d) (@slice_from E A d n).
Proof. intros. by rewrite slice_from_le. Qed.
Lemma slice_le {E A} (d : list A) a b : (a ≤ b ≤ length d)%nat → @slice E A d a b = Ok (take (b - a) (drop a d)).
Proof. intros. apply slice_ok_iff. split_and!; [lia|lia|done]. Qed.
Lemma idx_is_safe {E} (d : bytes) i b : d !! i = Some b → @idx E d i = Ok b.
Proof. unfold idx. by intros ->. Qed.
Lemma strip_prefix_Some s p r : strip_prefix s p = Some r → s = p ++ r.
Proof.
  unfold strip_prefix. destruct (starts_with s p) eqn:Hs; [|done]. intros [= <-]. apply starts_with_spec in Hs as [k ->].
  by rewrite drop_app_length.
Qed.

(** *** Pieces of a name *)
Lemma split_ofs_head sep ofs s : ∃ l ls, split_ofs sep ofs s = (ofs, l) :: ls.
Proof.
  revert ofs. induction s as [|c s IH]; intros ofs; cbn [split_ofs]; [eauto|].
  destruct (c =? sep); [eauto|]. destruct (IH (S ofs)) as (l & ls & ->). eauto.
Qed.
Lemma split_ofs_bounds sep ofs s :
  Forall (λ t, (ofs ≤ t.1 ∧ t.1 + length t.2 ≤ ofs + length s)%nat) (split_ofs sep ofs s).
Proof.
  revert ofs. induction s as [|c s IH]; intros ofs; cbn [split_ofs length].
  { repeat constructor; cbn; lia. }
  specialize (IH (S ofs)). destruct (c =? sep).
  - constructor; [cbn; lia|]. eapply Forall_impl; [exact IH|]. intros [p l]; cbn. lia.
  - destruct (split_ofs_head sep (S ofs) s) as (l & ls & Hs). rewrite Hs in *. inversion IH as [|? ? Hl Hls]; subst. cbn in Hl.
    constructor; [cbn; lia|]. eapply Forall_impl; [exact Hls|]. intros [p l']; cbn. lia.
Qed.
Lemma find_candidate_suffix l c iter :
  find_candidate l = Some (c, iter) → iter `suffix_of` l ∧ forallb is_ascii_hexdigit c = true.
Proof.
  induction l as [|[p t] l IH]; cbn [find_candidate]; [done|].
  destruct (describe_candidate t) as [rest|] eqn:Hd.
  - intros [= <- <-]. split; [by exists [(p, t)]|]. unfold describe_candidate in Hd.
    destruct (head t) as [h|]; simplify_eq/=. destruct (h =? ch "g"); simplify_eq/=.
    destruct (get_from t 1); simplify_eq/=. by case_match; simplify_eq.
  - intros [[k ->] Hc]%IH. split; [|done]. by exists ((p, t) :: k).
Qed.
Lemma suffix_last_head {A} (l iter : list A) x : iter `suffix_of` rev (x :: l) → iter ≠ [] → list.last iter = Some x.
Proof.
  intros [k Hk] Hne. cbn in Hk. destruct iter as [|y iter _] using rev_ind; [done|].
  rewrite app_assoc in Hk. apply app_inj_tail in Hk as [_ ->]. by rewrite last_snoc.
Qed.

Lemma in_range_Some lo hi n m : in_range lo hi n = Some m → m = n ∧ lo ≤ n < hi.
Proof. unfold in_range. destruct (_ && _) eqn:H; intros; simplify_eq. bool_simpl. lia. Qed.
Lemma digits_value_nonneg d n : digits_value d = Some n → 0 ≤ n ∧ d ≠ [] ∧ forallb is_ascii_digit d = true.
Proof.
  unfold digits_value. destruct (bool_decide _) eqn:Hne; [|done]. destruct (forallb _ d) eqn:Hd; [|done].
  intros [= <-]. apply bool_decide_eq_true in Hne. split; [|done].
  apply forallb_Forall in Hd. clear Hne.
  enough (∀ acc, 0 ≤ acc → 0 ≤ foldl (λ v c, v * 10 + (c - ch "0")) acc d) by auto with lia.
  induction Hd as [|c d Hc _ IH]; intros acc Hacc; [done|]. apply IH. unfold is_ascii_digit, between in Hc. bool_simpl. lia.
Qed.
Lemma parse_usize_Some s n : parse_usize s = Some n → 0 ≤ n < 2 ^ 64 ∧ s ≠ [].
Proof.
  unfold parse_usize. destruct (digits_value _) as [v|] eqn:Hv; [|done]. intros [-> Hn]%in_range_Some.
  split; [done|]. intros ->. by vm_compute in Hv.
Qed.
Lemma parse_isize_Some s n :
  parse_isize s = Some n → - 2 ^ 63 ≤ n < 2 ^ 63 ∧ s ≠ [] ∧ (head s = Some (ch "-") → n ≤ 0) ∧ (head s ≠ Some (ch "-") → 0 ≤ n).
Proof.
  unfold parse_isize. destruct (strip_prefix s (bs "-")) as [d|] eqn:Hs.
  - apply strip_prefix_Some in Hs as ->. destruct (digits_value d) as [v|] eqn:Hv; [|done].
    apply digits_value_nonneg in Hv as [Hv _]. intros [-> Hn]%in_range_Some. cbn. split_and!; [lia|lia|done|lia|done].
  - destruct (digits_value _) as [v|] eqn:Hv; [|done]. pose proof Hv as [Hv0 _]%digits_value_nonneg.
    intros [-> Hn]%in_range_Some. split_and!; [lia|lia| | |done].
    + intros ->. by vm_compute in Hv.
    + intros Hh. destruct s as [|c s]; simplify_eq/=.
Qed.
Lemma long_describe_safe name :
  safe (λ o, ∀ c h, o = Some (c, h) → forallb is_ascii_hexdigit c = true ∧
          match h with DescribeAnchor _ g => 0 ≤ g < 2 ^ 64 | MustBeCommit => True end) (long_describe_prefix name).
Proof.
  unfold long_describe_prefix. destruct (find_candidate _) as [[c iter]|] eqn:Hf; [|by cbn].
  apply find_candidate_suffix in Hf as [Hsuf Hc].
  destruct (split_ofs_head (ch "-") 0 name) as (l & ls & Hs). pose proof (split_ofs_bounds (ch "-") 0 name) as Hb.
  assert (Hib : Forall (λ t : nat * bytes, (0 ≤ t.1 ∧ t.1 + length t.2 ≤ 0 + length name)%nat) iter).
  { destruct Hsuf as [k Hk]. apply List.Forall_rev in Hb. rewrite Hk in Hb. by apply Forall_app in Hb as [_ ?]. }
  eapply (safe_bind (λ h, match h with DescribeAnchor _ g => 0 ≤ g < 2 ^ 64 | MustBeCommit => True end)).
  - unfold describe_hint. destruct iter as [|[p1 gen] [|[ptr token] iter]]; [by cbn..|].
    destruct (if is_utf8 gen then parse_usize gen else None) as [g|] eqn:Hg; [|by cbn].
    assert (Hlast : match list.last iter with Some (p, _) => p | None => ptr end = 0%nat).
    { rewrite Hs in Hsuf. apply suffix_last_head in Hsuf; [|done]. rewrite !last_cons in Hsuf.
      destruct (list.last iter) as [[p t]|]; by simplify_eq/=. }
    rewrite Hlast. cbn [Nat.leb]. rewrite slice_to_le.
    + cbn. destruct (is_utf8 gen); [|done]. by apply parse_usize_Some in Hg as [? _].
    + inversion Hib as [|? ? _ Hib']; subst. inversion Hib' as [|? ? Ht _]; subst. cbn in Ht. lia.
  - intros h _ Hh. cbn. destruct (existsb _ iter); [|done]. by intros c' h' [= <- <-].
Qed.

(** *** Braces *)

(** Offsets to skip, in ascending order in front of [hi]. *)
Fixpoint asc (from : nat) (l : list nat) (hi : nat) : Prop :=
  match l with [] => True | n :: l => (from ≤ n < hi)%nat ∧ asc (S n) l hi end.
Lemma asc_le from l hi hi' : asc from l hi → (hi ≤ hi')%nat → asc from l hi'.
Proof. revert from. induction l as [|n l IH]; cbn; intros from H Hle; [done|]. destruct H as [? H]. split; [lia|eauto]. Qed.
Lemma asc_snoc from l hi : asc from l hi → (from ≤ hi)%nat → asc from (l ++ [hi]) (S hi).
Proof. revert from. induction l as [|n l IH]; cbn; intros from H Hle; [lia|]. destruct H as [? H]. split; [lia|]. apply IH; [done|lia]. Qed.
Lemma asc_removelast from l hi : asc from l hi → asc from (removelast l) hi.
Proof.
  revert from. induction l as [|n l IH]; intros from H; [done|]. destruct H as [? H]. destruct l as [|n' l]; [done|].
  split; [done|]. by apply IH.
Qed.
Lemma cut_skipped_safe input from l hi buf :
  asc from l hi → (hi ≤ length input)%nat → safe (λ _, True) (cut_skipped input from l buf).
Proof.
  revert from buf. induction l as [|n l IH]; intros from buf H Hhi; cbn [cut_skipped]; [done|]. destruct H as [Hn H].
  eapply safe_bind with (P := λ _, True).
  - by rewrite slice_le by lia.
  - intros part _ _. rewrite Nat.add_1_r. by apply IH.
Qed.
Lemma parens_inner_safe input i l : asc 1 l i → (1 ≤ i ≤ length input)%nat → safe (λ _, True) (parens_inner input i l).
Proof.
  intros Hl Hi. unfold parens_inner. destruct l as [|n l].
  - by rewrite slice_le by lia.
  - eapply safe_bind; [by eapply cut_skipped_safe; [exact Hl|lia]|]. by intros [from buf] _ _.
Qed.
Lemma parens_step_asc i b st : asc 1 st.2 i → (1 ≤ i)%nat → asc 1 (parens_step i b st).2 (S i).
Proof.
  destruct st as [[o ig] l]. cbn. intros Hl Hi. pose proof (asc_le _ _ _ (S i) Hl ltac:(lia)). pose proof (asc_snoc _ _ _ Hl Hi).
  unfold parens_step. repeat case_match; cbn; try done; by apply asc_removelast.
Qed.
Lemma parens_step_zero i b o ig l : (parens_step i b (o, ig, l)).1.1 = 0 → 0 < o → b = ch "}" ∧ ig = false ∧ (parens_step i b (o, ig, l)).2 = l.
Proof. unfold parens_step. intros H Ho. repeat case_match; simplify_eq/=; bool_simpl; try done; try lia. Qed.
(** [open_braces] is positive between the first brace and its partner. *)
Lemma parens_step_pos i b o ig l : 0 < o → 0 ≤ (parens_step i b (o, ig, l)).1.1.
Proof. unfold parens_step. intros. repeat case_match; cbn; lia. Qed.
Definition parens_result (input : bytes) (lo : nat) (o : option (bytes * bytes * nat)) : Prop :=
  ∀ i a n, o = Some (i, a, n) → (lo < n ≤ length input)%nat ∧ a = drop n input.
Lemma parens_loop_safe input rest idx st :
  drop idx input = rest → (1 ≤ idx)%nat → asc 1 st.2 idx → 0 < st.1.1 →
  safe (parens_result input idx) (parens_loop input rest idx st).
Proof.
  revert idx st. induction rest as [|b rest IH]; intros idx [[o ig] l] Hd Hi Hl Ho; cbn [parens_loop]; [done|].
  cbn [fst snd] in *. assert (Hlen : (idx < length input)%nat).
  { apply (f_equal length) in Hd. rewrite length_drop in Hd. cbn in Hd. lia. }
  destruct (Z.eqb_spec (parens_step idx b (o, ig, l)).1.1 0) as [Hz|Hz].
  - destruct (parens_step_zero _ _ _ _ _ Hz ltac:(lia)) as (_ & _ & ->).
    eapply safe_bind; [apply parens_inner_safe; [done|lia]|]. intros inner _ _.
    rewrite slice_from_le, bind_Ok by lia. cbn. intros i a n [= <- <- <-]. split; [lia|done].
  - eapply safe_mono; [apply IH|].
    + rewrite <- Nat.add_1_r, <- drop_drop, Hd. done.
    + lia.
    + by apply parens_step_asc.
    + pose proof (parens_step_pos idx b o ig l Ho). lia.
    + intros o' H i a n Heq. destruct (H i a n Heq). split; [lia|done].
Qed.
Lemma parens_safe input : safe (parens_result input 0) (parens input).
Proof.
  unfold parens. case_bool_decide as Hh; [by intros ? ? ?|]. destruct input as [|b rest]; [done|]. injection Hh as ->.
  change (parens_loop (ch "{" :: rest) (ch "{" :: rest) 0 (0, false, [])) with (parens_loop (ch "{" :: rest) rest 1 (1, false, [])).
  eapply safe_mono; [by apply parens_loop_safe|]. intros o H i a n Heq. destruct (H i a n Heq). split; [lia|done].
Qed.

(** *** Numbers *)
Lemma count_while_bound p s : (count_while p s ≤ length s)%nat.
Proof. induction s as [|b s IH]; cbn; [done|]. destruct (p b); lia. Qed.
Lemma try_parse_safe from_str (P : Z → Prop) input :
  (∀ n, from_str input = Some n → P n ∧ input ≠ []) →
  safe (λ o, ∀ n, o = Some n → P n ∧ (head input = Some (ch "-") → n ≠ 0)) (try_parse from_str input).
Proof.
  intros Hfs. unfold try_parse. destruct (if is_utf8 input then from_str input else None) as [n|] eqn:Hn; [|by cbn].
  assert (P n ∧ input ≠ []) as [HP Hne] by (apply Hfs; by destruct (is_utf8 input)).
  destruct (Z.eqb_spec n 0) as [->|Hz].
  - destruct input as [|b input]; [done|]. rewrite idx_cons, bind_Ok. destruct (Z.eqb_spec b (ch "-")) as [|Hb]; [done|].
    cbn. intros n [= <-]. split; [done|]. congruence.
  - cbn. by intros m [= <-].
Qed.
Lemma try_parse_isize_text_safe input :
  safe (λ o, ∀ n, o = Some n → - 2 ^ 63 ≤ n < 2 ^ 63 ∧ (head input = Some (ch "-") → n < 0) ∧ (head input ≠ Some (ch "-") → 0 ≤ n))
    (try_parse parse_isize input).
Proof.
  eapply safe_mono.
  - apply (try_parse_safe _ (λ n, - 2 ^ 63 ≤ n < 2 ^ 63 ∧ (head input = Some (ch "-") → n ≤ 0) ∧ (head input ≠ Some (ch "-") → 0 ≤ n))).
    intros n Hn%parse_isize_Some. naive_solver.
  - intros o H n Hn. destruct (H n Hn) as ((? & Hneg & ?) & Hz). split_and!; [lia|lia| |done].
    intros Hd. specialize (Hneg Hd). specialize (Hz Hd). lia.
Qed.
Lemma try_parse_usize_safe input :
  safe (λ o, ∀ n k, o = Some (n, k) → 0 ≤ n < 2 ^ 64 ∧ (k ≤ length input)%nat) (try_parse_usize input).
Proof.
  unfold try_parse_usize. case_match; [done|]. pose proof (count_while_bound is_ascii_digit input) as Hc.
  destruct (_ =? 0)%nat; [by cbn|]. rewrite slice_to_le, bind_Ok by done.
  eapply safe_bind; [apply (try_parse_safe _ (λ n, 0 ≤ n < 2 ^ 64)); apply parse_usize_Some|].
  intros [n|] _ Hn; cbn; [|done]. intros m k [= <- <-]. by destruct (Hn n).
Qed.
Lemma head_take {A} (l : list A) n : (n ≠ 0)%nat → head (take n l) = head l.
Proof. by destruct n, l. Qed.
Lemma try_parse_isize_safe input :
  safe (λ o, ∀ n neg k, o = Some (n, neg, k) → - 2 ^ 63 ≤ n < 2 ^ 63 ∧ (if neg : bool then n < 0 else 0 ≤ n) ∧ (k ≤ length input)%nat)
    (try_parse_isize input).
Proof.
  unfold try_parse_isize. case_bool_decide; [done|]. set (neg := bool_decide (head input = Some (ch "-"))).
  pose proof (count_while_bound (λ b, is_ascii_digit b || (b =? ch "-")) input) as Hc. set (c := count_while _ input) in *.
  destruct (Nat.eqb_spec c 0) as [|Hc0]; [by cbn|]. destruct (_ && neg) eqn:Hone.
  { apply andb_true_iff in Hone as [Hc1%Nat.eqb_eq Hn]. rewrite Hn. cbn. intros n ng k [= <- <- <-]. split_and!; lia. }
  rewrite slice_to_le, bind_Ok by done.
  eapply safe_bind; [apply try_parse_isize_text_safe|].
  intros [n|] _ Hn; cbn; [|done]. intros m ng k [= <- <- <-]. destruct (Hn n eq_refl) as (Hr & Hneg & Hpos).
  rewrite head_take in Hneg, Hpos by done. subst neg. split_and!; [lia|lia| |done].
  case_bool_decide; auto.
Qed.
Lemma parse_regex_prefix_safe regex : safe (λ _, True) (parse_regex_prefix regex).
Proof.
  unfold parse_regex_prefix. destruct (strip_prefix _ _) as [[|b s]|]; [done| |done].
  repeat case_bool_decide; [done| |done]. by rewrite slice_from_le by (cbn; lia).
Qed.

(** *** The separator *)
Lemma hexdigit_ascii b : is_ascii_hexdigit b = true → 0 ≤ b < 128.
Proof. unfold is_ascii_hexdigit, is_ascii_digit, between. intros H. repeat (apply orb_true_iff in H as [H|H]); bool_simpl; lia. Qed.
Definition ascii (s : bytes) : Prop := Forall (λ b, 0 ≤ b < 128) s.
Lemma ascii_utf8 s : ascii s → is_utf8 s = true.
Proof.
  induction 1 as [|b s Hb _ IH]; [done|]. cbn [is_utf8]. unfold between.
  by rewrite (proj2 (Z.leb_le 0 b)), (proj2 (Z.leb_le b 127)) by lia.
Qed.
Lemma count_hex_ascii b h : count_hex b h ≠ None → h ≠ None ∧ 0 ≤ b < 128.
Proof.
  unfold count_hex. destruct (Z.eqb_spec b (ch "@")) as [->|]; [by intros ?; split|].
  destruct (mem b SEPARATORS) eqn:Hm.
  - intros ?. split; [done|]. apply mem_spec in Hm. change SEPARATORS with [126; 94; 58; 46] in Hm.
    rewrite !elem_of_cons, elem_of_nil in Hm. lia.
  - destruct h as [m|]; cbn; [|done]. destruct (is_ascii_hexdigit b) eqn:Hb; [|done].
    intros _. split; [done|]. by apply hexdigit_ascii.
Qed.
Lemma find_sep_spec cursor rest pos h r h' :
  find_sep cursor rest pos h = (r, h') → drop pos cursor = rest →
  (∀ p b, r = Some (p, b) → (pos ≤ p)%nat ∧ cursor !! p = Some b) ∧
  (h' ≠ None → h ≠ None ∧ ascii (match r with Some (p, _) => take (p - pos) rest | None => rest end)).
Proof.
  revert pos h. induction rest as [|b rest IH]; intros pos h Hf Hd; cbn [find_sep] in Hf.
  { simplify_eq. split; [done|]. intros. by split; [|constructor]. }
  assert (Hb : cursor !! pos = Some b) by (by rewrite <- (Nat.add_0_r pos), <- lookup_drop, Hd).
  destruct (is_separator cursor pos b).
  - simplify_eq. split; [intros p c [= <- <-]; by split|]. rewrite Nat.sub_diag. intros [Hh _]%count_hex_ascii. by split; [|constructor].
  - apply IH in Hf as [H1 H2]; [|by rewrite <- Nat.add_1_r, <- drop_drop, Hd].
    split; [intros p c Hr; destruct (H1 p c Hr); split; [lia|done]|].
    intros Hh'. destruct (H2 Hh') as [[Hh Hbr]%count_hex_ascii Ha]. split; [done|].
    destruct r as [[p c]|]; [|by constructor]. destruct (H1 p c eq_refl) as [Hle _].
    replace (p - pos)%nat with (S (p - S pos)) by lia. by constructor.
Qed.
Definition sep_ok (input : bytes) (r : option nat * option nat) : Prop :=
  (∀ p, r.1 = Some p → (p < length input)%nat) ∧
  (r.2 ≠ None → ascii (take (default (length input) r.1) input)).
Lemma scan_safe fuel input cursor ofs h :
  drop ofs input = cursor → (length cursor < fuel)%nat → (ofs ≤ length input)%nat →
  (h ≠ None → ascii (take ofs input)) →
  safe (sep_ok input) (scan fuel cursor ofs h).
Proof.
  revert cursor ofs h. induction fuel as [|fuel IH]; intros cursor ofs h Hd Hf Hle Hh; [lia|]. cbn [scan].
  destruct (find_sep cursor cursor 0 h) as [r h'] eqn:Hr. apply find_sep_spec in Hr as [H1 H2]; [|done].
  destruct r as [[p b]|].
  - destruct (H1 p b eq_refl) as [_ Hb]. rewrite Nat.sub_0_r in H2.
    assert (Hp : (p < length cursor)%nat) by (by eapply lookup_lt_Some).
    assert (Hlc : length cursor = (length input - ofs)%nat) by (rewrite <- Hd; apply length_drop).
    assert (Ha : h' ≠ None → ascii (take (ofs + p) input)).
    { intros Hh'. destruct (H2 Hh') as [? ?]. rewrite <- take_take_drop, Hd. apply Forall_app. split; [by apply Hh|done]. }
    destruct (_ || _) eqn:Hstop.
    + cbn. split; cbn; [intros ? [= <-]; lia|done].
    + rewrite slice_from_le, bind_Ok by lia. apply orb_false_iff in Hstop as [Hdot%negb_false_iff%Z.eqb_eq _]. subst b.
      apply IH; [by rewrite <- drop_drop, Hd|rewrite length_drop; lia|lia|].
      intros Hh'. rewrite Nat.add_assoc, Nat.add_1_r.
      assert (Hi : input !! (ofs + p)%nat = Some (ch ".")) by (by rewrite <- lookup_drop, Hd).
      rewrite (take_S_r _ _ _ Hi). apply Forall_app. split; [by apply Ha|]. repeat constructor; lia.
  - cbn. split; [done|]. cbn. intros Hh'. destruct (H2 Hh') as [Hn Ha].
    cbn. rewrite take_ge, <- (take_drop ofs input), Hd by done. apply Forall_app. split; [by apply Hh|done].
Qed.
Lemma find_separator_safe input : safe (sep_ok input) (find_separator input).
Proof. apply scan_safe; [done|lia|lia|constructor]. Qed.

(** ** What a delegate may rely on

    The documentation of the traits: numbers that are never zero, regular
    expressions that are never empty, stages from 0 to 2. *)

Definition contract (c : Call) : Prop :=
  match c with
  | FindRef name => name ≠ []
  | DisambiguatePrefix prefix hint =>
      wf_prefix prefix ∧ ∀ r g, hint = Some (DescribeAnchor r g) → 0 ≤ g < 2 ^ 64
  | Reflog (ReflogEntry n) => 0 ≤ n < 2 ^ 63
  | NthCheckedOutBranch n => 1 ≤ n ≤ 2 ^ 63
  | Traverse (NthParent n | NthAncestor n) => 1 ≤ n < 2 ^ 64
  | Find regex _ => regex ≠ []
  | IndexLookup _ stage => 0 ≤ stage ≤ 2
  | Reflog (ReflogDate _) | SiblingBranchOf _ | KindIs _ | PeelUntil _ => True
  end.

Section Contract.
Context `{HX : !faster_hex.Api} `{HXL : !faster_hex.Laws} {D : Type} {DEL : Delegate D}.
Context (date_parse : bytes → option Time).
(** An invariant of the delegate that calls within the contract preserve. *)
Context (I : D → Prop).
Context (HI_call : ∀ c d, contract c → I d → I (call c d).2).
Context (HI_done : ∀ d, I d → I (done d)).

Definition ok_state (s : InterceptRev D) : Prop :=
  I (inner s) ∧ (∀ n, last_ref s = Some n → n ≠ []) ∧
  (∀ p h, last_prefix s = Some (p, h) → contract (DisambiguatePrefix p h)).
(** The computation preserves the invariant and does not panic. *)
Definition keeps {A} (m : M D A) (Q : A → Prop) : Prop := ∀ s, ok_state s → ok_state (m s).2 ∧ safe Q (m s).1.

Lemma keeps_ret {A} (a : A) (Q : A → Prop) : Q a → keeps (mret a) Q.
Proof. by split. Qed.
Lemma keeps_of_res {A} (r : res ParseError A) Q : safe Q r → keeps (of_res r) Q.
Proof. by split. Qed.
Lemma keeps_fail {A} e (Q : A → Prop) : keeps (fail e) Q.
Proof. by split. Qed.
Lemma keeps_bind {A B} (m : M D A) (f : A → M D B) P Q :
  keeps m P → (∀ a, P a → keeps (f a) Q) → keeps (m ≫= f) Q.
Proof.
  intros Hm Hf s Hs. destruct (Hm s Hs) as [Hs' Hp]. unfold mbind, M_bind.
  destruct (m s) as [[a|e|] s']; [|by split..]. by apply Hf.
Qed.
Lemma keeps_mono {A} (m : M D A) (P Q : A → Prop) : keeps m P → (∀ a, P a → Q a) → keeps m Q.
Proof. intros H HPQ s Hs. destruct (H s Hs). split; [done|]. by eapply safe_mono. Qed.
Lemma keeps_bind_res {A B} (r : res ParseError A) (f : A → M D B) (P : A → Prop) Q :
  safe P r → (∀ a, P a → keeps (f a) Q) → keeps (of_res r ≫= f) Q.
Proof. intros H. apply keeps_bind. by apply keeps_of_res. Qed.
Lemma keeps_ask c : contract c → keeps (ask c) (λ _, True).
Proof.
  intros Hc s (Hi & Hr & Hp). unfold ask, intercept_call.
  assert (H : ok_state (match c with
    | FindRef name => mkIntercept (inner s) (Some name) (last_prefix s) (is_done s)
    | DisambiguatePrefix prefix hint => mkIntercept (inner s) (last_ref s) (Some (prefix, hint)) (is_done s)
    | _ => s end)).
  { destruct c; (split; [|split]); cbn; try done; intros; simplify_eq; done. }
  destruct c; cbn in H |- *; specialize (HI_call _ (inner s) Hc Hi); destruct (call _ (inner s)) as [r d];
    split; try done; destruct H as (? & ? & ?); split; cbn; auto.
Qed.
Lemma keeps_demand c : contract c → keeps (demand c) (λ _, True).
Proof. intros Hc. eapply keeps_bind; [by apply keeps_ask|]. intros [u|] _; [by apply keeps_ret|apply keeps_fail]. Qed.
Lemma keeps_finish : keeps (finish (DEL := DEL)) (λ _, True).
Proof. intros s (Hi & Hr & Hp). split; [|done]. split; cbn; auto. Qed.
Lemma keeps_take_prefix : keeps take_last_prefix (λ o, ∀ p h, o = Some (p, h) → contract (DisambiguatePrefix p h)).
Proof. intros s (Hi & Hr & Hp). split; [by split|done]. Qed.
Lemma keeps_take_ref : keeps take_last_ref (λ o, ∀ n, o = Some n → n ≠ []).
Proof. intros s (Hi & Hr & Hp). split; [by split|done]. Qed.
Lemma keeps_get_done : keeps get_done (λ _, True).
Proof. by split. Qed.
Hint Resolve keeps_ret keeps_fail keeps_demand keeps_finish : core.

Lemma keeps_try_set_prefix hex_name hint :
  ascii hex_name → (∀ r g, hint = Some (DescribeAnchor r g) → 0 ≤ g < 2 ^ 64) →
  keeps (try_set_prefix hex_name hint) (λ _, True).
Proof.
  intros Ha Hh. unfold try_set_prefix. rewrite ascii_utf8 by done. pose proof (prefix_from_hex_safe hex_name) as Hs.
  destruct (prefix_from_hex hex_name); [|by apply keeps_ret|done]. by apply keeps_ask.
Qed.
Lemma hexdigits_ascii s : forallb is_ascii_hexdigit s = true → ascii s.
Proof. intros H%forallb_Forall. eapply Forall_impl; [exact H|]. apply hexdigit_ascii. Qed.
Lemma short_describe_hex name p : short_describe_prefix name = Some p → ascii p.
Proof.
  unfold short_describe_prefix. destruct (split_ofs _ _ _) as [|[o t] l]; [done|].
  destruct (forallb _ t) eqn:Ht; case_match; intros; simplify_eq. by apply hexdigits_ascii.
Qed.
Lemma keeps_anchor name hex_chars : (hex_chars ≠ None → ascii name) → keeps (anchor name hex_chars) (λ _, True).
Proof.
  intros Ha. unfold anchor. eapply keeps_bind with (P := λ _, True).
  { case_match eqn:Hm; [|by apply keeps_ret]. apply keeps_try_set_prefix; [|done]. apply Ha. by intros ->. }
  intros [u|] _; [by apply keeps_ret|]. eapply keeps_bind_res; [apply long_describe_safe|]. intros long Hl.
  eapply keeps_bind with (P := λ _, True).
  - destruct long as [[p h]|].
    + destruct (Hl p h eq_refl) as [Hp Hh]. apply keeps_try_set_prefix; [by apply hexdigits_ascii|]. intros r g [= ->]. done.
    + destruct (short_describe_prefix name) as [p|] eqn:Hs; [|by apply keeps_ret].
      apply keeps_try_set_prefix; [by eapply short_describe_hex|done].
  - intros [u|] _; [by apply keeps_ret|]. case_bool_decide; [by apply keeps_ret|].
    eapply keeps_bind; [by apply keeps_demand|]. intros _ _. by apply keeps_ret.
Qed.
Lemma keeps_curly name nav has : keeps (curly date_parse name nav has) (λ _, True).
Proof.
  unfold curly. eapply keeps_bind_res; [apply try_parse_isize_text_safe|]. intros [n|] Hn.
  - destruct (Hn n eq_refl) as (Hr & _ & _). destruct (Z.ltb_spec n 0); [case_bool_decide|destruct has]; auto; apply keeps_demand; cbn; lia.
  - destruct (sibling_parse nav); [destruct has; auto; by apply keeps_demand|]. destruct has; [|done].
    destruct (is_utf8 nav); [|done]. destruct (date_parse nav); [by apply keeps_demand|done].
Qed.
Lemma keeps_peel_parens kind : keeps (peel_parens kind) (λ _, True).
Proof.
  unfold peel_parens. destruct (peel_target kind); [by apply keeps_demand|]. destruct (starts_with kind (bs "/")) eqn:Hs; [|done].
  apply starts_with_spec in Hs as [k ->].
  eapply keeps_bind_res; [apply slice_from_safe; cbn; lia|]. intros regex _.
  eapply keeps_bind_res; [apply parse_regex_prefix_safe|]. intros [r neg] _. case_bool_decide; [by apply keeps_ret|by apply keeps_demand].
Qed.
Lemma keeps_exclude_parent input cursor past_sep number :
  - 2 ^ 63 ≤ number < 0 → is_Some past_sep → (cursor ≤ length input)%nat →
  keeps (exclude_parent input cursor past_sep number) (λ _, True).
Proof.
  intros Hn [p ->] Hc. unfold exclude_parent.
  eapply keeps_bind_res with (P := λ n, 1 ≤ n < 2 ^ 64).
  { destruct (in_range _ _ _) as [n|] eqn:Hr; [|by cbn]. apply in_range_Some in Hr as [-> Hr].
    rewrite (proj2 (Z.ltb_ge _ _)) by lia. cbn. lia. }
  intros n Hn'. eapply keeps_bind; [by apply keeps_demand|]. intros _ _. eapply keeps_bind; [by apply keeps_demand|]. intros _ _.
  eapply keeps_bind; [apply keeps_take_prefix|]. intros o Ho. eapply keeps_bind with (P := λ _, True); [|by intros].
  destruct o as [[q h]|]; [by apply keeps_demand, Ho|].
  eapply keeps_bind; [apply keeps_take_ref|]. intros [name|] Hname; [by apply keeps_demand, Hname|].
  eapply keeps_bind_res; [by apply slice_from_safe|]. by intros.
Qed.
Definition step_ok (input : bytes) (cursor : nat) (r : nat + bytes) : Prop :=
  match r with inl c => (cursor ≤ c ≤ length input)%nat | inr _ => True end.
Lemma keeps_navigate_step input cursor b :
  (1 ≤ cursor)%nat → input !! (cursor - 1)%nat = Some b → keeps (navigate_step input cursor b) (step_ok input cursor).
Proof.
  intros H1 Hb. apply lookup_lt_Some in Hb. assert (Hc : (cursor ≤ length input)%nat) by lia.
  assert (Hps : get_from input cursor = Some (drop cursor input)).
  { unfold get_from. by rewrite (proj2 (Nat.leb_le _ _)). }
  unfold navigate_step. rewrite Hps. destruct (b =? ch "~"); [|destruct (b =? ch "^"); [|destruct (b =? ch ":")]].
  - eapply keeps_bind_res; [apply try_parse_usize_safe|]. intros o Ho.
    assert (Hd : 0 ≤ (default (1%Z, 0%nat) o).1 < 2 ^ 64 ∧ ((default (1%Z, 0%nat) o).2 ≤ length (drop cursor input))%nat).
    { destruct o as [[n k]|]; [by apply Ho|]. cbn. lia. }
    destruct (default (1%Z, 0%nat) o) as [n k]. cbn in Hd. rewrite length_drop in Hd.
    eapply keeps_bind with (P := λ _, True).
    + destruct (Z.eqb_spec n 0); [by apply keeps_ret|]. apply keeps_demand. cbn. lia.
    + intros _ _. apply keeps_ret. cbn. lia.
  - eapply keeps_bind_res; [apply try_parse_isize_safe|]. intros [[[n neg] k]|] Ho.
    + destruct (Ho n neg k eq_refl) as (Hr & Hs & Hk). rewrite length_drop in Hk. destruct neg.
      * eapply keeps_bind; [by apply keeps_exclude_parent; [lia|eauto|]|]. intros _ _.
        eapply keeps_bind_res; [apply slice_from_safe; lia|]. intros rest _. by apply keeps_ret.
      * eapply keeps_bind with (P := λ _, True); [|intros _ _; apply keeps_ret; cbn; lia].
        destruct (Z.eqb_spec n 0); [by apply keeps_demand|]. rewrite (proj2 (Z.ltb_ge _ _)) by lia. apply keeps_demand. cbn. lia.
    + eapply keeps_bind_res; [apply parens_safe|]. intros [[[kind rest] k]|] Hp.
      * destruct (Hp kind rest k eq_refl) as [Hk _]. rewrite length_drop in Hk.
        eapply keeps_bind; [apply keeps_peel_parens|]. intros _ _. apply keeps_ret. cbn. lia.
      * assert (Hnext : ∀ x, (Some (drop cursor input) ≫= head) = Some x → (cursor + 1 ≤ length input)%nat).
        { cbn. intros x. destruct (drop cursor input) as [|y l] eqn:Hd; [done|]. intros _.
          apply (f_equal length) in Hd. rewrite length_drop in Hd. cbn in Hd. lia. }
        case_bool_decide as Hx; [|clear Hx; case_bool_decide as Hx].
        1-2: eapply keeps_bind; [by apply keeps_demand|]; intros _ _; eapply keeps_bind; [apply keeps_finish|]; intros _ _;
          eapply keeps_bind_res; [apply slice_from_safe; by eapply Hnext|]; intros; by apply keeps_ret.
        eapply keeps_bind; [apply keeps_demand; cbn; lia|]. intros _ _. apply keeps_ret. cbn. lia.
  - eapply keeps_bind_res; [by apply slice_from_safe|]. intros path _. eapply keeps_bind; [by apply keeps_demand|].
    intros _ _. by apply keeps_ret.
  - eapply keeps_bind_res; [apply slice_from_safe; lia|]. intros rest _. by apply keeps_ret.
Qed.
Lemma keeps_navigate_loop fuel input cursor :
  (cursor ≤ length input)%nat → (length input - cursor < fuel)%nat → keeps (navigate_loop fuel input cursor) (λ _, True).
Proof.
  revert cursor. induction fuel as [|fuel IH]; intros cursor Hc Hf; [lia|]. cbn [navigate_loop].
  destruct (input !! cursor) as [b|] eqn:Hb; [|by apply keeps_ret]. pose proof (lookup_lt_Some _ _ _ Hb).
  eapply keeps_bind.
  - apply keeps_navigate_step; [lia|]. by rewrite Nat.add_sub.
  - intros [c|rest] Hs; [|by apply keeps_ret]. cbn in Hs. apply IH; lia.
Qed.
Lemma keeps_navigate input : keeps (navigate input) (λ _, True).
Proof. apply keeps_navigate_loop; lia. Qed.
Lemma keeps_after_anchor input name sep_pos sep has :
  (∀ p, sep_pos = Some p → (p < length input)%nat) → keeps (after_anchor date_parse input name sep_pos sep has) (λ _, True).
Proof.
  intros Hp. assert (Hle : (default (length input) sep_pos ≤ length input)%nat).
  { destruct sep_pos as [p|]; cbn; [|lia]. specialize (Hp p eq_refl). lia. }
  unfold after_anchor. case_bool_decide.
  - eapply keeps_bind_res.
    { apply slice_from_safe. destruct sep_pos as [p|]; [|lia]. specialize (Hp p eq_refl). lia. }
    intros past_sep _. eapply keeps_bind_res; [apply parens_safe|]. intros [[[nav rest] k]|] _.
    + eapply keeps_bind; [apply keeps_curly|]. intros _ _. apply keeps_navigate.
    + eapply keeps_bind_res; [by apply slice_from_safe|]. intros; by apply keeps_fail.
  - case_match; [by apply keeps_fail|]. eapply keeps_bind_res; [by apply slice_from_safe|]. intros. apply keeps_navigate.
Qed.
Lemma keeps_consume_all c : contract c → keeps (consume_all c) (λ _, True).
Proof. intros Hc. eapply keeps_bind; [by apply keeps_demand|]. intros. by apply keeps_ret. Qed.
Lemma keeps_revision_named input : keeps (revision_named date_parse input) (λ _, True).
Proof.
  unfold revision_named. eapply keeps_bind_res; [apply find_separator_safe|]. intros [sep_pos hex_chars] [Hp Ha]. cbn [fst snd] in *.
  assert (Hle : (default (length input) sep_pos ≤ length input)%nat).
  { destruct sep_pos as [p|]; cbn; [|lia]. specialize (Hp p eq_refl). lia. }
  rewrite slice_to_le by done. eapply keeps_bind_res with (P := λ n, n = take (default (length input) sep_pos) input); [done|]. intros name ->.
  eapply keeps_bind_res with (P := λ _, True).
  { destruct sep_pos as [p|]; [|done]. destruct (lookup_lt_is_Some_2 input p) as [b Hb]; [by apply Hp|]. by rewrite (idx_is_safe _ _ _ Hb). }
  intros sep _. case_match.
  - eapply keeps_bind; [by apply keeps_demand|]. intros _ _. destruct ((_ <$> sep_pos) ≫= _) as [b|] eqn:Hb; [|by apply keeps_ret].
    apply keeps_after_anchor. intros q Hq. rewrite Hq in Hb. cbn in Hb. by eapply lookup_lt_Some.
  - eapply keeps_bind; [by apply keeps_anchor|]. intros has _. by apply keeps_after_anchor.
Qed.
Lemma keeps_revision input : keeps (revision date_parse input) (λ _, True).
Proof.
  unfold revision. do 2 (case_bool_decide; [by apply keeps_fail|]).
  destruct (strip_prefix input (bs ":/")).
  { eapply keeps_bind_res; [apply parse_regex_prefix_safe|]. intros [r neg] _. case_bool_decide; [by apply keeps_fail|]. by apply keeps_consume_all. }
  repeat (case_match; [by apply keeps_consume_all|]). apply keeps_revision_named.
Qed.
Lemma keeps_parse_end input : keeps (parse_end input) (λ _, True).
Proof. unfold parse_end. case_bool_decide; auto. Qed.
Lemma keeps_head_unless b : keeps (head_unless b) (λ _, True).
Proof. destruct b; [by apply keeps_ret|by apply keeps_demand]. Qed.
Lemma keeps_parse_body input : keeps (parse_body date_parse input) (λ _, True).
Proof.
  unfold parse_body. eapply keeps_bind with (P := λ _, True).
  { unfold parse_caret. case_bool_decide as Hh; [|by apply keeps_ret]. destruct input as [|b input]; [done|].
    eapply keeps_bind_res with (P := λ _, True).
    - unfold next. rewrite idx_cons, bind_Ok. rewrite slice_from_le by (cbn; lia). done.
    - intros [b' input'] _. eapply keeps_bind; [by apply keeps_demand|]. intros; by apply keeps_ret. }
  intros [input' prev] _. eapply keeps_bind; [apply keeps_revision|]. intros rest _. eapply keeps_bind; [apply keeps_get_done|].
  intros [] _; [case_bool_decide; auto|]. unfold parse_range. destruct (try_range rest) as [[rest' kind]|]; [|apply keeps_parse_end].
  destruct prev; [by apply keeps_fail|]. eapply keeps_bind; [apply keeps_head_unless|]. intros _ _.
  eapply keeps_bind; [by apply keeps_demand|]. intros _ _. eapply keeps_bind; [apply keeps_revision|]. intros remainder _.
  eapply keeps_bind; [apply keeps_head_unless|]. intros _ _. apply keeps_parse_end.
Qed.

(** C19: The parser of revision specifications does not panic, whatever the
    input and the answers of the delegate, and the delegate may rely on the
    documented contract: an invariant which every call with arguments within
    the contract preserves - non-empty names and regular expressions,
    well-formed prefixes, parents, ancestors and checkouts numbered from one,
    reflog entries of non-negative numbers, stages from 0 to 2 - holds of the
    delegate after parsing. *)
Theorem delegate_contract input d :
  I d → no_panic (parse date_parse input d).1 ∧ I (parse date_parse input d).2.
Proof.
  intros Hd. unfold parse. destruct (keeps_parse_body input (intercept_new d)) as [(Hi & _) Hs]; [by split|].
  destruct (parse_body _ _ _) as [r s]. split; [by eapply safe_no_panic|done].
Qed.
End Contract.

(** ** The end of parsing *)

Section Ends.
Context `{HX : !faster_hex.Api} {D : Type} {DEL : Delegate D}.
Context (date_parse : bytes → option Time).

(** If the computation marks the delegate as done, then as the last thing it
    does, and with a result in [C]. *)
Definition ends {A} (m : M D A) (C : A → Prop) : Prop :=
  ∀ s a, is_done s = false → (m s).1 = Ok a → is_done (m s).2 = false ∨ C a ∧ ∃ d, inner (m s).2 = done d.
Abbreviation never := (λ _, False).
(** The computation leaves the delegate alone. *)
Definition untouched {A} (m : M D A) (C : A → Prop) : Prop := ∀ s, (m s).2 = s ∧ ∀ a, (m s).1 = Ok a → C a.

Lemma ends_of_res {A} (r : res ParseError A) C : ends (of_res r) C.
Proof. intros s a Hs _. by left. Qed.
Lemma ends_ret {A} (a : A) C : ends (mret a) C.
Proof. intros s b Hs _. by left. Qed.
Lemma ends_fail {A} e (C : A → Prop) : ends (fail e) C.
Proof. apply ends_of_res. Qed.
Lemma ends_bind_done {A B} (m : M D A) (f : A → M D B) P C :
  ends m P → (∀ a, ends (f a) C) → (∀ a, P a → untouched (f a) C) → ends (m ≫= f) C.
Proof.
  intros Hm Hf Hp s b Hs. specialize (Hm s). unfold mbind, M_bind. destruct (m s) as [[a|e|] s']; [|done..]. cbn in Hm |- *.
  destruct (Hm a Hs eq_refl) as [Hs'|[Ha [d Hd]]]; [by apply Hf|].
  intros Hb. destruct (Hp a Ha s') as [He HC]. right. split; [by apply HC|]. exists d. by rewrite He.
Qed.
Lemma ends_bind {A B} (m : M D A) (f : A → M D B) C : ends m never → (∀ a, ends (f a) C) → ends (m ≫= f) C.
Proof. intros Hm Hf. eapply ends_bind_done; [exact Hm|exact Hf|]. by intros. Qed.
Lemma ends_ask c (C : option unit → Prop) : ends (ask c) C.
Proof.
  intros s a Hs. unfold ask, intercept_call.
  destruct c; cbn; destruct (call _ _) as [r d]; intros _; by left.
Qed.
Lemma ends_demand c C : ends (demand c) C.
Proof. apply ends_bind; [apply ends_ask|]. intros [u|]; [apply ends_ret|apply ends_fail]. Qed.
Lemma ends_finish (C : unit → Prop) : C tt → ends (finish (DEL := DEL)) C.
Proof. intros HC s [] Hs _. right. split; [done|]. cbn. by eexists. Qed.
Lemma ends_take_prefix : ends take_last_prefix never.
Proof. intros s a Hs _. by left. Qed.
Lemma ends_take_ref : ends take_last_ref never.
Proof. intros s a Hs _. by left. Qed.
Lemma untouched_ret {A} (a : A) (C : A → Prop) : C a → untouched (mret a) C.
Proof. intros HC s. split; [done|]. by intros b [= <-]. Qed.
Lemma untouched_of_res {A B} (r : res ParseError A) (f : A → M D B) C : (∀ a, untouched (f a) C) → untouched (of_res r ≫= f) C.
Proof. intros Hf s. unfold mbind, M_bind, of_res. destruct r as [a|e|]; [by apply Hf|by split..]. Qed.

(** Computations without [finish] in them. *)
Ltac ends :=
  repeat first
    [ done | apply ends_ret | apply ends_fail | apply ends_of_res | apply ends_demand | apply ends_ask
    | apply ends_take_prefix | apply ends_take_ref
    | apply ends_bind | progress intros | case_match | case_bool_decide ].

Lemma ends_try_set_prefix hex_name hint C : ends (try_set_prefix hex_name hint) C.
Proof. unfold try_set_prefix. ends. Qed.
Lemma ends_anchor name h : ends (anchor name h) never.
Proof.
  unfold anchor. apply ends_bind; [case_match; [apply ends_try_set_prefix|ends]|]. intros [u|]; [ends|].
  apply ends_bind; [ends|]. intros long. apply ends_bind; [repeat case_match; first [apply ends_try_set_prefix|ends]|]. ends.
Qed.
Lemma ends_curly name nav has : ends (curly date_parse name nav has) never.
Proof. unfold curly. ends. Qed.
Lemma ends_peel_parens kind : ends (peel_parens kind) never.
Proof. unfold peel_parens. ends. Qed.
Lemma ends_exclude_parent input cursor past_sep number : ends (exclude_parent input cursor past_sep number) (λ _, True).
Proof. unfold exclude_parent. do 4 (apply ends_bind; [ends|intros]). apply ends_bind; [ends|]. intros _. by apply ends_finish. Qed.
Abbreviation returned := (λ r : nat + bytes, ∃ rest, r = inr rest).
Lemma ends_finish_rest (r : res ParseError bytes) :
  ends (finish (DEL := DEL) ≫= λ _, of_res r ≫= λ rest, mret (inr rest : nat + bytes)) returned.
Proof.
  eapply ends_bind_done; [by apply (ends_finish (λ _, True))|ends|].
  intros _ _. apply untouched_of_res. intros rest. apply untouched_ret. eauto.
Qed.
Lemma ends_navigate_step input cursor b : ends (navigate_step input cursor b) returned.
Proof.
  unfold navigate_step. destruct (b =? ch "~"); [ends|]. destruct (b =? ch "^"); [|destruct (b =? ch ":"); ends].
  apply ends_bind; [ends|]. intros [[[n []] k]|].
  - eapply ends_bind_done; [apply ends_exclude_parent|ends|].
    intros _ _. apply untouched_of_res. intros rest. apply untouched_ret. eauto.
  - ends.
  - apply ends_bind; [ends|]. intros [[[kind rest] k]|].
    + apply ends_bind; [apply ends_peel_parens|ends].
    + case_bool_decide; [apply ends_bind; [ends|intros; apply ends_finish_rest]|].
      case_bool_decide; [apply ends_bind; [ends|intros; apply ends_finish_rest]|]. ends.
Qed.
Lemma ends_navigate_loop fuel input cursor : ends (navigate_loop fuel input cursor) (λ _, True).
Proof.
  revert cursor. induction fuel as [|fuel IH]; intros cursor; cbn [navigate_loop]; [ends|].
  destruct (input !! cursor) as [b|]; [|ends]. eapply ends_bind_done; [apply ends_navigate_step| |].
  - intros [c|rest]; [apply IH|ends].
  - intros r [rest ->]. by apply untouched_ret.
Qed.
Lemma ends_after_anchor input name sep_pos sep has : ends (after_anchor date_parse input name sep_pos sep has) (λ _, True).
Proof.
  unfold after_anchor. case_bool_decide.
  - do 2 (apply ends_bind; [ends|]; intros). case_match; [|ends]. repeat case_match.
    apply ends_bind; [apply ends_curly|]. intros. apply ends_navigate_loop.
  - case_match; [ends|]. apply ends_bind; [ends|]. intros. apply ends_navigate_loop.
Qed.
Lemma ends_revision input : ends (revision date_parse input) (λ _, True).
Proof.
  unfold revision, consume_all. do 2 (case_bool_decide; [ends|]).
  destruct (strip_prefix input (bs ":/")); [ends|]. do 4 (destruct (strip_prefix input _); [ends|]).
  unfold revision_named. apply ends_bind; [ends|]. intros [sp hc]. do 2 (apply ends_bind; [ends|]; intros).
  destruct (_ && _ && _); (apply ends_bind; [first [apply ends_demand|apply ends_anchor]|]; intros); [|apply ends_after_anchor].
  destruct (_ ≫= _); [apply ends_after_anchor|ends].
Qed.

Lemma ends_parse_caret input : ends (parse_caret input) never.
Proof. unfold parse_caret. ends. Qed.

(** The computation ends with [done] if it succeeds. *)
Definition closes {A} (m : M D A) : Prop := ∀ s a, (m s).1 = Ok a → ∃ d, inner (m s).2 = done d.
Lemma closes_bind {A B} (m : M D A) (f : A → M D B) : (∀ a, closes (f a)) → closes (m ≫= f).
Proof. intros Hf s b. unfold mbind, M_bind. destruct (m s) as [[a|e|] s']; [|done..]. apply Hf. Qed.
Lemma closes_parse_end input : closes (parse_end input).
Proof. unfold parse_end. case_bool_decide; intros ? ? ?; cbn in *; [by eexists|done]. Qed.
Lemma closes_parse_range input found prev : closes (parse_range date_parse input found prev).
Proof.
  unfold parse_range. destruct (try_range input) as [[rest kind]|]; [|apply closes_parse_end].
  destruct prev; [by intros ? ? [=]|]. repeat (apply closes_bind; intros). apply closes_parse_end.
Qed.

(** Successful parsing ends with the delegate being told so: [done] is the
    last call it gets, on every path that returns [Ok] - after a plain revision,
    after a range, and after the suffixes that finish parsing by themselves. *)
Theorem parse_ends_with_done input d :
  (parse date_parse input d).1 = Ok tt → ∃ d', (parse date_parse input d).2 = done d'.
Proof.
  unfold parse. enough (∀ s a, is_done s = false → (parse_body date_parse input s).1 = Ok a → ∃ d', inner (parse_body date_parse input s).2 = done d') as H.
  { specialize (H (intercept_new d) tt eq_refl). destruct (parse_body _ _ _) as [r s]. exact H. }
  intros s [] Hs. unfold parse_body, mbind, M_bind. pose proof (ends_parse_caret input s) as Hm.
  destruct (parse_caret input s) as [[[input' prev]|e|] s1]; [|done..].
  destruct (Hm _ Hs eq_refl) as [Hs1|[[] _]]. cbn in Hs1.
  pose proof (ends_revision input' s1) as Hr. destruct (revision date_parse input' s1) as [[rest|e|] s2]; [|done..].
  cbn. destruct (is_done s2) eqn:Hd2.
  - destruct (Hr _ Hs1 eq_refl) as [Hf|[_ Hdone]]; cbn in *; [congruence|]. case_bool_decide; [done|]. by cbn.
  - apply closes_parse_range.
Qed.
End Ends.

(** ** Braces and their escapes *)

Definition special (b : Z) : bool := (b =? ch "{") || (b =? ch "}") || (b =? ch "\").
(** A backslash in front of every brace and every backslash. *)
Definition escape (s : bytes) : bytes := s ≫= λ b, if special b then [ch "\"; b] else [b].

Lemma cut_snoc input from l n buf :
  cut_skipped input from (l ++ [n]) buf =
  ('(f, b) ← cut_skipped input from l buf; part ← slice input f n; Ok ((n + 1)%nat, b ++ part)).
Proof.
  revert from buf. induction l as [|m l IH]; intros from buf; cbn [cut_skipped app].
  - rewrite bind_Ok. by destruct (slice input from n).
  - destruct (slice input from m) as [part|e|]; [|done..]. rewrite !bind_Ok. apply IH.
Qed.
(** What [parens_inner] returns if the closing brace is at [i]. *)
Definition content (input : bytes) (l : list nat) (i : nat) (s : bytes) : Prop :=
  ∃ from buf, cut_skipped input 1 l [] = Ok (from, buf) ∧ (from ≤ i ≤ length input)%nat ∧
    s = buf ++ take (i - from) (drop from input).
Lemma content_inner input l i s : content input l i s → parens_inner input i l = Ok s.
Proof.
  intros (from & buf & Hc & Hi & ->). unfold parens_inner. destruct l as [|n l].
  - cbn in Hc. simplify_eq. by rewrite slice_le by lia.
  - rewrite Hc, bind_Ok. unfold get_range. by rewrite (proj2 (Nat.leb_le from i)), (proj2 (Nat.leb_le i _)) by lia.
Qed.
Lemma content_step input l i s b : content input l i s → input !! i = Some b → content input l (S i) (s ++ [b]).
Proof.
  intros (from & buf & Hc & Hi & ->) Hb. exists from, buf. pose proof (lookup_lt_Some _ _ _ Hb).
  split_and!; [done|lia|lia|]. rewrite <- app_assoc. f_equal. replace (S i - from)%nat with (S (i - from)) by lia.
  symmetry. apply take_S_r. rewrite lookup_drop. by replace (from + (i - from))%nat with i by lia.
Qed.
Lemma content_skip input l i s : content input l i s → (i < length input)%nat → content input (l ++ [i]) (S i) s.
Proof.
  intros (from & buf & Hc & Hi & ->) Hlt. exists (S i), (buf ++ take (i - from) (drop from input)).
  rewrite cut_snoc, Hc, bind_Ok, slice_le by lia. rewrite bind_Ok, Nat.add_1_r.
  split_and!; [done|lia|lia|]. by rewrite Nat.sub_diag, take_0, app_nil_r.
Qed.
Lemma special_cases b : special b = true → b = ch "{" ∨ b = ch "}" ∨ b = ch "\".
Proof. unfold special. intros H. repeat (apply orb_true_iff in H as [H|H]); apply Z.eqb_eq in H; auto. Qed.
Lemma step_plain i b l : special b = false → parens_step i b (1, false, l) = (1, false, l).
Proof. unfold special, parens_step. intros H. apply orb_false_iff in H as [H H3]. apply orb_false_iff in H as [H1 H2]. by rewrite H1, H2, H3. Qed.
Lemma step_escaped i b l : special b = true → parens_step (S i) b (parens_step i (ch "\") (1, false, l)) = (1, false, l ++ [i]).
Proof.
  intros [-> | [-> | ->]]%special_cases; cbn; [done..|].
  by rewrite removelast_app, app_nil_r by done.
Qed.
Lemma parens_loop_escape input s rest idx l pre :
  drop idx input = escape s ++ ch "}" :: rest → content input l idx pre →
  parens_loop input (escape s ++ ch "}" :: rest) idx (1, false, l) =
    Ok (Some (pre ++ s, rest, (idx + length (escape s) + 1)%nat)).
Proof.
  revert idx l pre. induction s as [|b s IH]; intros idx l pre Hd Hc.
  - cbn in *. rewrite (content_inner _ _ _ _ Hc), bind_Ok.
    assert (idx < length input)%nat by (apply (f_equal length) in Hd; rewrite length_drop in Hd; cbn in Hd; lia).
    rewrite slice_from_le, <- drop_drop, Hd, bind_Ok by lia. by rewrite app_nil_r, Nat.add_0_r.
  - change (escape (b :: s)) with ((if special b then [ch "\"; b] else [b]) ++ escape s) in *.
    assert (Hl : ∀ k x, drop idx input !! k = Some x → input !! (idx + k)%nat = Some x) by (intros; by rewrite <- lookup_drop).
    rewrite Hd in Hl. destruct (special b) eqn:Hs; rewrite <- app_assoc; cbn [app].
    + assert (H0 : input !! idx = Some (ch "\")) by (rewrite <- (Nat.add_0_r idx); by apply Hl).
      assert (H1 : input !! S idx = Some b) by (rewrite <- Nat.add_1_r; by apply Hl).
      cbn [parens_loop]. rewrite step_escaped by done. cbn [fst snd parens_step Z.eqb].
      replace ((parens_step idx (ch "\") (1, false, l)).1.1 =? 0) with false by done. change (1 =? 0) with false. cbn [negb].
      rewrite (IH (S (S idx)) (l ++ [idx]) (pre ++ [b])).
      * rewrite <- app_assoc. do 4 f_equal; cbn; lia.
      * replace (S (S idx)) with (idx + 2)%nat by lia. by rewrite <- drop_drop, Hd.
      * apply content_step; [|done]. apply content_skip; [done|]. by eapply lookup_lt_Some.
    + assert (H0 : input !! idx = Some b) by (rewrite <- (Nat.add_0_r idx); by apply Hl).
      cbn [parens_loop]. rewrite step_plain by done. change ((1, false, l).1.1 =? 0) with false. cbn iota.
      rewrite (IH (S idx) l (pre ++ [b])).
      * rewrite <- app_assoc. do 4 f_equal; cbn; lia.
      * rewrite <- Nat.add_1_r, <- drop_drop, Hd. done.
      * by apply content_step.
Qed.

(** Text between braces comes back as it was: if every brace and every
    backslash of a text is escaped with a backslash and the result is put in
    braces, the parser returns the text, what follows the closing brace, and
    the length of both braces and what is between them. *)
Theorem parens_unescapes s rest :
  parens (ch "{" :: escape s ++ ch "}" :: rest) = Ok (Some (s, rest, (length (escape s) + 2)%nat)).
Proof.
  unfold parens. cbn [head]. rewrite bool_decide_eq_false_2 by (intros H; by apply H).
  set (input := ch "{" :: escape s ++ ch "}" :: rest).
  change (parens_loop input input 0 (0, false, [])) with (parens_loop input (escape s ++ ch "}" :: rest) 1 (1, false, [])).
  rewrite (parens_loop_escape input s rest 1 [] []).
  - do 3 f_equal; lia.
  - done.
  - exists 1%nat, []. cbn. split_and!; [done|lia|lia|done].
Qed.

(** ** Text that names one revision *)

(** A delegate that writes down what it is told. *)
Inductive Event := Called (c : Call) | CalledDone.
Definition recorder (answer : Call → bool) : Delegate (list Event) := {|
  call c log := (if answer c then Some tt else None, log ++ [Called c]);
  done log := log ++ [CalledDone] |}.

(** No byte that separates a name from what follows, no two dots. *)
Definition plain (t : bytes) : Prop :=
  Forall (λ b, b ∉ bs "@~^:") t ∧ ¬ contains t (bs "..").
(** The text ends here, or something follows that is not part of a name. *)
Definition stops (tail : bytes) : Prop :=
  tail = [] ∨ (∃ c r, tail = c :: r ∧ c ∈ bs "~^:") ∨ ∃ r, tail = bs ".." ++ r.
Definition hex_count (h : option nat) (t : bytes) : option nat := foldl (λ h b, count_hex b h) h t.

Lemma find_sep_skip cursor t rest pos h :
  Forall (λ b, b ∉ bs "@~^:.") t →
  find_sep cursor (t ++ rest) pos h = find_sep cursor rest (pos + length t) (hex_count h t).
Proof.
  intros Ht. revert pos h. induction Ht as [|b t Hb _ IH]; intros pos h; [cbn; by rewrite Nat.add_0_r|].
  cbn [find_sep app length hex_count foldl]. assert (Hs : is_separator cursor pos b = false).
  { unfold is_separator. destruct (Z.eqb_spec b (ch "@")) as [->|]; [destruct Hb; by_decision|].
    destruct (mem b SEPARATORS) eqn:Hm; [|done]. apply mem_spec in Hm. destruct Hb. by right. }
  rewrite Hs, IH. f_equal. lia.
Qed.
Lemma split_dot t :
  (Forall (λ b, b ≠ ch ".") t) ∨ ∃ t1 t2, t = t1 ++ ch "." :: t2 ∧ Forall (λ b, b ≠ ch ".") t1.
Proof.
  induction t as [|b t IH]; [by left|]. destruct (decide (b = ch ".")) as [->|Hb]; [right; by exists [], t|].
  destruct IH as [IH|(t1 & t2 & -> & IH)]; [left; by constructor|]. right. exists (b :: t1), t2. split; [done|by constructor].
Qed.
Lemma hex_count_app h t1 t2 : hex_count h (t1 ++ t2) = hex_count (hex_count h t1) t2.
Proof. apply foldl_app. Qed.
Lemma contains_cons_r a t p : contains t p → contains (a ++ t) p.
Proof. intros (x & y & ->). exists (a ++ x), y. by rewrite <- app_assoc. Qed.
Lemma not_sep b : b ∉ bs "@~^:" → b ≠ ch "." → b ∉ bs "@~^:.".
Proof. intros H Hd Hin. apply H. revert Hin. change (bs "@~^:.") with (bs "@~^:" ++ [ch "."]). rewrite elem_of_app, list_elem_of_singleton. by intros [?|?]. Qed.
Lemma scan_plain fuel t tail ofs h :
  (length t < fuel)%nat → plain t → stops tail → (tail = [] ∨ list.last t ≠ Some (ch ".")) →
  scan fuel (t ++ tail) ofs h = Ok (match tail with [] => None | _ => Some (ofs + length t)%nat end, hex_count h t).
Proof.
  revert t ofs h. induction fuel as [|fuel IH]; intros t ofs h Hf [Ht Hdd] Htail Hlast; [lia|]. cbn [scan].
  destruct (split_dot t) as [Hnd|(t1 & t2 & -> & Hnd)].
  - rewrite find_sep_skip.
    2: { apply Forall_forall. intros b Hb. apply not_sep; [by eapply Forall_forall in Ht|by eapply Forall_forall in Hnd]. }
    destruct Htail as [->|[(c & r & -> & Hc)|(r & ->)]]; [done| |]; cbn [find_sep].
    + assert (Hs : is_separator (t ++ c :: r) (0 + length t) c = true ∧ count_hex c (hex_count h t) = hex_count h t ∧ c ≠ ch ".").
      { change (bs "~^:") with [126; 94; 58] in Hc. rewrite !elem_of_cons, elem_of_nil in Hc.
        destruct Hc as [-> |[-> |[-> |[]]]]; by split_and!. }
      destruct Hs as (-> & -> & Hc'%Z.eqb_neq). by rewrite Hc'.
    + change (bs ".." ++ r) with (ch "." :: ch "." :: r). cbn [find_sep].
      change (is_separator (t ++ ch "." :: ch "." :: r) (0 + length t) (ch ".")) with true. cbn [Z.eqb negb orb].
      rewrite lookup_app_r by lia. replace (0 + length t + 1 - length t)%nat with 1%nat by lia. done.
  - apply Forall_app in Ht as [Ht1 Ht2]. rewrite <- app_assoc, find_sep_skip.
    2: { apply Forall_forall. intros b Hb. apply not_sep; [by eapply Forall_forall in Ht1|by eapply Forall_forall in Hnd]. }
    cbn [app find_sep]. change (is_separator (t1 ++ ch "." :: t2 ++ tail) (0 + length t1) (ch ".")) with true. cbn iota.
    assert (Hnext : (t1 ++ ch "." :: t2 ++ tail) !! (0 + length t1 + 1)%nat ≠ Some (ch ".")).
    { rewrite lookup_app_r by lia. replace (0 + length t1 + 1 - length t1)%nat with 1%nat by lia. cbn.
      intros H. destruct t2 as [|c t2]; cbn in H.
      - destruct Hlast as [->|Hl]; [done|]. apply Hl. by rewrite last_snoc.
      - simplify_eq. apply Hdd. by exists t1, t2. }
    rewrite (bool_decide_eq_false_2 _ Hnext). change (negb (ch "." =? ch ".")) with false. cbn [orb].
    rewrite slice_from_le by (rewrite length_app; cbn; lia). rewrite bind_Ok.
    replace (drop (0 + length t1 + 1) (t1 ++ ch "." :: t2 ++ tail)) with (t2 ++ tail).
    2: { rewrite <- drop_drop, (drop_app_length t1). done. }
    rewrite IH.
    + f_equal. f_equal.
      * destruct tail; [done|]. f_equal. rewrite length_app. cbn. lia.
      * rewrite hex_count_app. done.
    + rewrite length_app in Hf. cbn in Hf. lia.
    + split; [by inversion Ht2|]. intros Hc. apply Hdd. apply (contains_cons_r (t1 ++ [ch "."])) in Hc. by rewrite <- app_assoc in Hc.
    + done.
    + destruct Hlast as [|Hl]; [by left|]. right. intros H. apply Hl. rewrite last_app, last_cons, H. done.
Qed.
Lemma find_separator_plain t tail :
  plain t → stops tail → (tail = [] ∨ list.last t ≠ Some (ch ".")) →
  find_separator (t ++ tail) = Ok (match tail with [] => None | _ => Some (length t) end, hex_count (Some 0%nat) t).
Proof. intros. unfold find_separator. rewrite scan_plain; [done|rewrite length_app; lia|done..]. Qed.

Section Run.
Context `{HX : !faster_hex.Api} {D : Type} {DEL : Delegate D} (date_parse : bytes → option Time).

Lemma bind_at {A B} (m : M D A) (f : A → M D B) a s s' : m s = (Ok a, s') → (m ≫= f) s = f a s'.
Proof. intros H. unfold mbind, M_bind. by rewrite H. Qed.
Lemma strip_prefix_head s c p : head s ≠ Some c → strip_prefix s (c :: p) = None.
Proof.
  intros H. destruct (strip_prefix s (c :: p)) as [r|] eqn:Hs; [|done]. apply strip_prefix_Some in Hs as ->. by destruct H.
Qed.
Lemma slice_to_prefix {E} (a b : bytes) : @slice_to E Z (a ++ b) (length a) = Ok a.
Proof. by apply slice_to_app. Qed.

(** A plain name in front of what is not part of it. *)
Lemma revision_plain t tail s :
  plain t → t ≠ [] → stops tail → (tail = [] ∨ list.last t ≠ Some (ch ".")) →
  revision date_parse (t ++ tail) s = (_ ← anchor t (hex_count (Some 0%nat) t); navigate tail) s.
Proof.
  intros Ht Hne Htail Hlast.
  assert (Hh : head (t ++ tail) ≠ Some (ch ":")).
  { destruct t as [|b t]; [done|]. cbn. intros [= ->]. destruct Ht as [Ht _]. inversion Ht as [|? ? Hb _]; subst. apply Hb. by_decision. }
  unfold revision. rewrite !bool_decide_eq_false_2 by (intros He; rewrite He in Hh; by apply Hh).
  change (bs ":/") with (ch ":" :: bs "/"). change (bs ":0:") with (ch ":" :: bs "0:"). change (bs ":1:") with (ch ":" :: bs "1:").
  change (bs ":2:") with (ch ":" :: bs "2:"). change (bs ":") with (ch ":" :: []). rewrite !(strip_prefix_head (t ++ tail) (ch ":")) by done.
  unfold revision_named. rewrite find_separator_plain by done. erewrite bind_at by reflexivity. cbn beta iota.
  assert (Hpos : default (length (t ++ tail)) (match tail with [] => None | _ => Some (length t) end) = length t).
  { destruct tail; [by rewrite app_nil_r|done]. }
  rewrite Hpos, slice_to_prefix. erewrite bind_at by reflexivity. cbn beta.
  rewrite (bool_decide_eq_false_2 (t = [])) by done. cbn [andb].
  destruct tail as [|c r]; (erewrite bind_at; [|first [reflexivity|by rewrite (idx_is_safe (t ++ c :: r) (length t) c) by (by rewrite lookup_app_r, Nat.sub_diag by lia)]]); cbn beta iota.
  - unfold mbind, M_bind. destruct (anchor t _ s) as [[has|e|] s']; [|done..].
    unfold after_anchor. cbn [default]. rewrite bool_decide_eq_false_2 by done.
    rewrite bool_decide_eq_false_2 by done. cbn [andb]. unfold mbind, M_bind, of_res.
    rewrite app_nil_r, slice_from_le by lia. cbn. by rewrite drop_ge.
  - assert (Hc : c ≠ ch "@").
    { destruct Htail as [|[(c' & r' & [= -> ->] & Hc)|(r' & [= -> ->])]]; [done| |done]. intros ->. revert Hc. by_decision. }
    unfold mbind, M_bind. destruct (anchor t _ s) as [[has|e|] s']; [|done..].
    unfold after_anchor. cbn [default]. rewrite bool_decide_eq_false_2 by congruence.
    rewrite bool_decide_eq_false_2 by (intros [= Hl]; by destruct t). cbn [andb]. unfold mbind, M_bind, of_res.
    unfold id. by rewrite slice_from_app.
Qed.
Lemma navigate_nil s : navigate [] s = (Ok [], s).
Proof. reflexivity. Qed.
Lemma navigate_dots r s : navigate (bs ".." ++ r) s = (Ok (bs ".." ++ r), s).
Proof. reflexivity. Qed.
End Run.

(** *** Digits *)
Lemma hex_digit_class n : 0 ≤ n < 16 → is_ascii_hexdigit (hex_digit n) = true.
Proof. intros H. assert (Hn : n ∈ seqZ 0 16) by (apply elem_of_seqZ; lia). clear H. revert n Hn. apply Forall_forall. by_decision. Qed.
Lemma hexdigit_not_special b : is_ascii_hexdigit b = true → b ∉ bs "@~^:." ∧ b ≠ ch "-" ∧ b ≠ ch "g".
Proof.
  intros H. pose proof (hexdigit_ascii b H) as Hr. assert (Hn : b ∈ seqZ 0 128) by (apply elem_of_seqZ; lia).
  clear Hr. revert b Hn H.
  refine (proj1 (Forall_forall (λ b, is_ascii_hexdigit b = true → b ∉ bs "@~^:." ∧ b ≠ ch "-" ∧ b ≠ ch "g") (seqZ 0 128)) _). by_decision.
Qed.
Definition hex_text (n : nat) (id : ObjectId) : bytes := hex_digit <$> abbrev n (as_slice id).
Lemma hex_text_digits n id : is_bytes (as_slice id) → Forall (λ b, is_ascii_hexdigit b = true) (hex_text n id).
Proof. intros H. apply Forall_fmap. unfold abbrev. apply Forall_take. eapply Forall_impl; [by apply nibbles_range|]. apply hex_digit_class. Qed.
Lemma length_hex_text n id : wf_id id → (n ≤ 40)%nat → length (hex_text n id) = n.
Proof. intros [Hl _] Hn. unfold hex_text, abbrev. rewrite length_fmap, length_take, length_nibbles, Hl. lia. Qed.
Lemma hex_count_digits t n : Forall (λ b, is_ascii_hexdigit b = true) t → hex_count (Some n) t = Some (n + length t)%nat.
Proof.
  intros Ht. revert n. induction Ht as [|b t Hb _ IH]; intros n; [cbn; f_equal; lia|].
  cbn. unfold count_hex. destruct (hexdigit_not_special b Hb) as (Hs & _).
  assert (b ≠ ch "@" ∧ b ∉ SEPARATORS) as [Ha Hsep].
  { change (bs "@~^:.") with (ch "@" :: SEPARATORS) in Hs. by apply not_elem_of_cons in Hs. }
  rewrite (proj2 (Z.eqb_neq _ _)) by done. destruct (mem b SEPARATORS) eqn:Hm; [by apply mem_spec in Hm|]. cbn. rewrite Hb, IH.
  f_equal. lia.
Qed.
Lemma plain_no_dots t : Forall (λ b, b ∉ bs "@~^:.") t → plain t.
Proof.
  intros Ht. split.
  - eapply Forall_impl; [exact Ht|]. intros b Hb Hin. apply Hb. change (bs "@~^:.") with (bs "@~^:" ++ [ch "."]). apply elem_of_app. by left.
  - intros (a & b & ->). apply Forall_app in Ht as [_ Ht]. inversion Ht as [|? ? H _]; subst. apply H. by_decision.
Qed.
Lemma hex_text_plain n id : wf_id id → plain (hex_text n id).
Proof.
  intros [_ Hb]. apply plain_no_dots. eapply Forall_impl; [by apply hex_text_digits|]. intros b H. by apply hexdigit_not_special.
Qed.
Lemma hex_text_no_dot n id : wf_id id → list.last (hex_text n id) ≠ Some (ch ".").
Proof.
  intros [_ Hb] H. apply last_Some_elem_of in H. eapply Forall_forall in H; [|by apply hex_text_digits]. done.
Qed.

Section RoundTrip.
Context `{HX : !faster_hex.Api} `{HXL : !faster_hex.Laws} (date_parse : bytes → option Time).
#[local] Instance accepting : Delegate (list Event) := recorder (λ _, true).

Lemma demand_accepting c s :
  demand c s = (Ok tt, mkIntercept (inner s ++ [Called c])
    (match c with FindRef n => Some n | _ => last_ref s end)
    (match c with DisambiguatePrefix p h => Some (p, h) | _ => last_prefix s end) (is_done s)).
Proof. by destruct c. Qed.
(** The prefix of an id of [n] digits, and its text. *)
Definition id_prefix (n : nat) (id : ObjectId) : Prefix := mkPrefix (Sha1 (truncated n (as_slice id))) n.
Lemma prefix_from_text n id : wf_id id → (4 ≤ n ≤ 40)%nat → prefix_from_hex (hex_text n id) = Ok (id_prefix n id).
Proof.
  intros Hid Hn. apply prefix_from_hex_ok; [by apply wf_truncated|]. unfold hex_text.
  change (as_oid _) with (truncated n (as_slice id)). change (hex_len (id_prefix n id)) with n.
  destruct (truncated_spec n (as_slice id) Hid) as (_ & -> & _); [lia|done].
Qed.
Lemma set_prefix_text n id hint s :
  wf_id id → (4 ≤ n ≤ 40)%nat →
  try_set_prefix (hex_text n id) hint s =
    (Ok (Some tt), mkIntercept (inner s ++ [Called (DisambiguatePrefix (id_prefix n id) hint)]) (last_ref s) (Some (id_prefix n id, hint)) (is_done s)).
Proof.
  intros Hid Hn. unfold try_set_prefix. rewrite ascii_utf8, prefix_from_text by (done || by apply hexdigits_ascii, forallb_Forall, hex_text_digits, Hid).
  done.
Qed.
Lemma id_display_ok id : wf_id id → id_display id = Ok (hex_text 40 id).
Proof. intros [Hl Hb]. unfold id_display, to_hex. rewrite hex_display_ok by (split || lia; done). by rewrite Hl. Qed.
(** A full id in front of what is not part of it. *)
Definition seen_id (id : ObjectId) (s : InterceptRev (list Event)) : InterceptRev (list Event) :=
  mkIntercept (inner s ++ [Called (DisambiguatePrefix (id_prefix 40 id) None)]) (last_ref s) (Some (id_prefix 40 id, None)) (is_done s).
Lemma revision_id id tail s :
  wf_id id → stops tail → revision date_parse (hex_text 40 id ++ tail) s = navigate tail (seen_id id s).
Proof.
  intros Hid Htail. pose proof (length_hex_text 40 id Hid ltac:(lia)) as Hl.
  rewrite revision_plain; [|by apply hex_text_plain|by intros Hn; rewrite Hn in Hl|done|right; by apply hex_text_no_dot].
  rewrite hex_count_digits by (apply hex_text_digits, Hid). rewrite Hl.
  assert (Ha : anchor (hex_text 40 id) (Some 40%nat) s = (Ok (bool_decide (hex_text 40 id = [])), seen_id id s)).
  { unfold anchor. change (MIN_HEX_LEN <=? default 0 (Some 40))%nat with true. cbn iota.
    by erewrite bind_at by (apply set_prefix_text; [done|lia]). }
  change (0 + 40)%nat with 40%nat. by erewrite bind_at by exact Ha.
Qed.
Lemma head_hex_text id : wf_id id → ∃ b t, hex_text 40 id = b :: t ∧ is_ascii_hexdigit b = true.
Proof.
  intros Hid. pose proof (length_hex_text 40 id Hid ltac:(lia)) as Hl. pose proof (hex_text_digits 40 id (proj2 Hid)) as Hf.
  destruct (hex_text 40 id) as [|b t]; [done|]. inversion Hf; subst. eauto.
Qed.

(** What the delegate is told about a specification. *)
Definition spec_events (s : Spec) : list Event :=
  let id_ id := Called (DisambiguatePrefix (id_prefix 40 id) None) in
  match s with
  | Include id => [id_ id]
  | Exclude id => [Called (KindIs ExcludeReachable); id_ id]
  | Range from to => [id_ from; Called (KindIs RangeBetween); id_ to]
  | Merge theirs ours => [id_ theirs; Called (KindIs ReachableToMergeBase); id_ ours]
  | IncludeOnlyParents id => [id_ id; Called (KindIs IncludeReachableFromParents)]
  | ExcludeParents id => [id_ id; Called (KindIs ExcludeReachableFromParents)]
  end ++ [CalledDone].
Definition wf_spec (s : Spec) : Prop :=
  match s with
  | Include id | Exclude id | IncludeOnlyParents id | ExcludeParents id => wf_id id
  | Range a b | Merge a b => wf_id a ∧ wf_id b
  end.
Lemma caret_none t s : wf_spec (Include t) → ∀ r, parse_caret (hex_text 40 t ++ r) s = (Ok (hex_text 40 t ++ r, None), s).
Proof.
  intros Hid r. destruct (head_hex_text t Hid) as (b & u & -> & Hb). unfold parse_caret. cbn [app head].
  rewrite bool_decide_eq_false_2; [done|]. by intros [= ->].
Qed.
Lemma caret_some t s : parse_caret (bs "^" ++ t) s =
  (Ok (t, Some ExcludeReachable), mkIntercept (inner s ++ [Called (KindIs ExcludeReachable)]) (last_ref s) (last_prefix s) (is_done s)).
Proof. unfold parse_caret, next. rewrite bool_decide_eq_true_2 by done. erewrite bind_at; [|by rewrite slice_from_le by (cbn; lia)]. done. Qed.
Lemma hex_text_ne id r : wf_id id → hex_text 40 id ++ r ≠ r.
Proof.
  intros Hid H. pose proof (length_hex_text 40 id Hid ltac:(lia)) as Hl. apply (f_equal length) in H. rewrite length_app in H. lia.
Qed.
(** What is left after a full id: the end, a suffix that finishes parsing, or
    a range. *)
Definition after_id (id : ObjectId) : InterceptRev (list Event) := seen_id id (intercept_new []).
Lemma body_id id tail rest s :
  wf_id id → stops tail → navigate tail (after_id id) = (Ok rest, s) →
  parse_body date_parse (hex_text 40 id ++ tail) (intercept_new []) =
    (if is_done s then if bool_decide (rest = []) then mret tt else fail (UnconsumedInput rest)
     else parse_range date_parse rest (bool_decide (rest ≠ hex_text 40 id ++ tail)) None) s.
Proof.
  intros Hid Htail Hn. unfold parse_body. erewrite bind_at by by apply caret_none. cbn beta iota.
  erewrite bind_at by (rewrite revision_id by done; exact Hn). by destruct s as [? ? ? []].
Qed.
Lemma range_id id dots kind s :
  wf_id id → try_range (dots ++ hex_text 40 id) = Some (hex_text 40 id, kind) →
  parse_range date_parse (dots ++ hex_text 40 id) true None s =
    (Ok tt, intercept_done (seen_id id (mkIntercept (inner s ++ [Called (KindIs kind)]) (last_ref s) (last_prefix s) (is_done s)))).
Proof.
  intros Hid Ht. unfold parse_range. rewrite Ht. erewrite bind_at by reflexivity. erewrite bind_at by apply demand_accepting.
  erewrite bind_at by (rewrite <- (app_nil_r (hex_text 40 id)), revision_id by (done || by left); reflexivity).
  assert (Hne : [] ≠ hex_text 40 id) by (intros H; destruct (hex_text_ne id [] Hid); by rewrite app_nil_r).
  rewrite (bool_decide_eq_true_2 _ Hne). by erewrite bind_at by reflexivity.
Qed.
Lemma try_range_dots id : wf_id id → try_range (bs ".." ++ hex_text 40 id) = Some (hex_text 40 id, RangeBetween).
Proof.
  intros Hid. destruct (head_hex_text id Hid) as (b & u & -> & Hb). unfold try_range, strip_prefix.
  change (bs "...") with [ch "."; ch "."; ch "."]. change (bs "..") with [ch "."; ch "."].
  assert (b ≠ ch ".") as Hd%Z.eqb_neq by (by intros ->). cbn [app starts_with]. by rewrite Hd.
Qed.

(** C18: A specification survives being printed and parsed: for every [Spec] of
    well-formed ids the delegate is told exactly what it is - the full ids in
    order, between them or in front of them or after them the kind of the
    specification, and finally that parsing is done. *)
Theorem spec_display_parse s :
  wf_spec s → ∃ text, spec_display s = Ok text ∧ parse date_parse text [] = (Ok tt, spec_events s).
Proof.
  intros Hs. unfold parse. destruct s as [id|id|a b|a b|id|id]; cbn [spec_display wf_spec] in *;
    [| |destruct Hs as [Ha Hb]|destruct Hs as [Ha Hb]| |].
  - exists (hex_text 40 id). split; [by apply id_display_ok|]. rewrite <- (app_nil_r (hex_text 40 id)).
    rewrite body_id with (rest := []) (s := after_id id) by (done || by left). reflexivity.
  - exists (bs "^" ++ hex_text 40 id). rewrite id_display_ok by done. split; [done|]. unfold parse_body.
    erewrite bind_at by apply caret_some. cbn beta iota.
    erewrite bind_at by (rewrite <- (app_nil_r (hex_text 40 id)), revision_id by (done || by left); reflexivity). reflexivity.
  - exists (hex_text 40 a ++ bs ".." ++ hex_text 40 b). rewrite !id_display_ok by done. split; [done|].
    rewrite body_id with (rest := bs ".." ++ hex_text 40 b) (s := after_id a) by (done || right; right; by eexists).
    rewrite (bool_decide_eq_true_2 (_ ≠ _)) by (apply not_eq_sym, hex_text_ne; done). cbn [is_done after_id seen_id intercept_new].
    by erewrite range_id by (done || by apply try_range_dots).
  - exists (hex_text 40 a ++ bs "..." ++ hex_text 40 b). rewrite !id_display_ok by done. split; [done|].
    rewrite body_id with (rest := bs "..." ++ hex_text 40 b) (s := after_id a) by (done || right; right; by eexists).
    rewrite (bool_decide_eq_true_2 (_ ≠ _)) by (apply not_eq_sym, hex_text_ne; done). cbn [is_done after_id seen_id intercept_new].
    by erewrite range_id by done.
  - exists (hex_text 40 id ++ bs "^@"). rewrite id_display_ok by done. split; [done|].
    erewrite body_id; [|done|right; left; eexists _, _; split; [reflexivity|by_decision]|reflexivity]. reflexivity.
  - exists (hex_text 40 id ++ bs "^!"). rewrite id_display_ok by done. split; [done|].
    erewrite body_id; [|done|right; left; eexists _, _; split; [reflexivity|by_decision]|reflexivity]. reflexivity.
Qed.
End RoundTrip.

(** ** The output of [git describe] *)

Lemma split_ofs_app sep ofs s t :
  split_ofs sep ofs (s ++ sep :: t) = split_ofs sep ofs s ++ split_ofs sep (ofs + length s + 1) t.
Proof.
  revert ofs. induction s as [|c s IH]; intros ofs; cbn [split_ofs app length].
  - rewrite Z.eqb_refl. cbn. do 2 f_equal. lia.
  - rewrite IH. replace (S ofs + length s + 1)%nat with (ofs + S (length s) + 1)%nat by lia. destruct (c =? sep); [done|].
    by destruct (split_ofs_head sep (S ofs) s) as (l & ls & ->).
Qed.
Lemma split_ofs_none sep ofs t : sep ∉ t → split_ofs sep ofs t = [(ofs, t)].
Proof.
  revert ofs. induction t as [|c t IH]; intros ofs Ht; cbn [split_ofs]; [done|]. apply not_elem_of_cons in Ht as [Hc Ht].
  rewrite (proj2 (Z.eqb_neq c sep)) by congruence. by rewrite IH.
Qed.
Lemma split_ofs_last sep ofs s : ∃ ls p t, split_ofs sep ofs s = ls ++ [(p, t)] ∧ (p + length t = ofs + length s)%nat.
Proof.
  revert ofs. induction s as [|c s IH]; intros ofs; cbn [split_ofs].
  { exists [], ofs, []. split; [done|cbn; lia]. }
  destruct (IH (S ofs)) as (ls & p & t & Hs & Hp). rewrite Hs. destruct (c =? sep).
  - exists ((ofs, []) :: ls), p, t. split; [done|cbn; lia].
  - destruct ls as [|[q u] ls]; cbn.
    + destruct (split_ofs_head sep (S ofs) s) as (l & ls & Hh). rewrite Hs in Hh. injection Hh as -> _ _.
      exists [], ofs, (c :: t). cbn in *. split; [done|lia].
    + exists ((ofs, c :: u) :: ls), p, t. split; [done|cbn; lia].
Qed.

Definition describe_text (name : bytes) (depth : Z) (hex : bytes) : bytes :=
  name ++ ch "-" :: itoa.decimal depth ++ ch "-" :: ch "g" :: hex.
Lemma decimal_text depth :
  0 ≤ depth < 2 ^ 64 → Forall (λ b, is_ascii_digit b = true) (itoa.decimal depth) ∧ parse_usize (itoa.decimal depth) = Some depth ∧
  itoa.decimal depth ≠ [].
Proof.
  intros Hd. destruct (decimal_digits depth Hd) as (Hne & Hf & Hv).
  assert (Hdig : Forall (λ b, is_ascii_digit b = true) (itoa.decimal depth)).
  { eapply Forall_impl; [exact Hf|]. intros b Hb. unfold is_dec in Hb. unfold is_ascii_digit, between. apply andb_true_iff. lia. }
  split_and!; [done| |done]. unfold parse_usize. change (bs "+") with [ch "+"]. rewrite strip_prefix_head.
  - cbn [default]. unfold digits_value. rewrite bool_decide_eq_true_2 by done. rewrite (proj2 (forallb_Forall _ _) Hdig). cbn [andb].
    rewrite Hv. cbn. unfold in_range. by rewrite (proj2 (Z.leb_le _ _)), (proj2 (Z.ltb_lt _ _)) by lia.
  - destruct (itoa.decimal depth); [done|]. inversion Hdig; subst. by intros [= ->].
Qed.
Lemma digit_hexdigit b : is_ascii_digit b = true → is_ascii_hexdigit b = true.
Proof. unfold is_ascii_hexdigit. by intros ->. Qed.
Lemma no_dash t : Forall (λ b, is_ascii_hexdigit b = true) t → ch "-" ∉ t.
Proof. intros Ht Hin. eapply Forall_forall in Ht; [|exact Hin]. done. Qed.
Lemma describe_candidate_hex hex : Forall (λ b, is_ascii_hexdigit b = true) hex → describe_candidate (ch "g" :: hex) = Some hex.
Proof. intros Hh. unfold describe_candidate. cbn. rewrite drop_0. by rewrite (proj2 (forallb_Forall _ _) Hh). Qed.
Lemma long_describe_text name depth hex :
  0 ≤ depth < 2 ^ 64 → Forall (λ b, is_ascii_hexdigit b = true) hex →
  long_describe_prefix (describe_text name depth hex) = Ok (Some (hex, DescribeAnchor name depth)).
Proof.
  intros Hd Hhex. destruct (decimal_text depth Hd) as (Hdig & Hp & Hne). unfold long_describe_prefix, describe_text.
  assert (Hdec : Forall (λ b, is_ascii_hexdigit b = true) (itoa.decimal depth)) by (eapply Forall_impl; [exact Hdig|exact digit_hexdigit]).
  rewrite !split_ofs_app, (split_ofs_none _ _ (itoa.decimal depth)), (split_ofs_none _ _ (ch "g" :: hex)).
  2: { apply not_elem_of_cons. split; [done|by apply no_dash]. }
  2: { by apply no_dash. }
  rewrite !rev_app_distr. cbn [rev app find_candidate]. rewrite describe_candidate_hex by done.
  destruct (split_ofs_last (ch "-") 0 name) as (ls & p & t & Hs & Hl). destruct (split_ofs_head (ch "-") 0 name) as (u & us & Hh).
  assert (Hlast : list.last (rev (split_ofs (ch "-") 0 name)) = Some (0%nat, u)).
  { rewrite Hh. apply (suffix_last_head us); [done|]. cbn. by destruct (rev us). }
  rewrite Hs, rev_app_distr in Hlast |- *. cbn [rev app] in Hlast |- *. rewrite last_cons in Hlast.
  assert (Hfirst : match list.last (rev ls) with Some (q, _) => q | None => p end = 0%nat).
  { destruct (list.last (rev ls)) as [[q w]|]; by simplify_eq. }
  unfold describe_hint. rewrite ascii_utf8 by (by apply hexdigits_ascii, forallb_Forall). rewrite Hp, Hfirst. cbn [Nat.leb].
  rewrite slice_to_app by lia. rewrite !bind_Ok. cbn [existsb snd]. by rewrite bool_decide_eq_true_2.
Qed.

Lemma hex_count_None t : hex_count None t = None.
Proof. induction t as [|b t IH]; [done|]. cbn. unfold count_hex at 2. repeat case_match; done. Qed.
Lemma no_dots_app t1 t2 : ¬ contains t1 (bs "..") → Forall (λ b, b ≠ ch ".") t2 → ¬ contains (t1 ++ t2) (bs "..").
Proof.
  intros H1 H2 (a & b & He). apply H1. rewrite app_assoc in He. apply app_eq_inv in He as [(k & -> & _)|(k & Ha & ->)].
  - exists a, k. by rewrite <- app_assoc.
  - destruct k as [|c k _] using rev_ind; [exists a, []; by rewrite app_nil_r in Ha |- *|].
    change (bs "..") with ([ch "."] ++ [ch "."]) in Ha. rewrite !app_assoc in Ha. apply app_inj_tail in Ha as [_ <-].
    apply Forall_app in H2 as [[_ H2]%Forall_app _]. by inversion H2.
Qed.
Lemma describe_plain name depth hex :
  ref_format name → ch "@" ∉ name → 0 ≤ depth < 2 ^ 64 → Forall (λ b, is_ascii_hexdigit b = true) hex →
  plain (describe_text name depth hex).
Proof.
  intros (Hne & [Hgood Hforb] & _) Hat Hd Hhex. destruct (decimal_text depth Hd) as (Hdig & _). unfold describe_text.
  assert (Hrest : Forall (λ b, b ∉ bs "@~^:.") (ch "-" :: itoa.decimal depth ++ ch "-" :: ch "g" :: hex)).
  { constructor; [by_decision|]. apply Forall_app. split; [|constructor; [by_decision|constructor; [by_decision|]]].
    - eapply Forall_impl; [exact Hdig|]. intros b Hb%digit_hexdigit. by apply hexdigit_not_special.
    - eapply Forall_impl; [exact Hhex|]. intros b Hb. by apply hexdigit_not_special. }
  split.
  - apply Forall_app. split.
    + apply Forall_forall. intros b Hb Hin. eapply Forall_forall in Hgood; [|exact Hb]. apply good_byte_iff in Hgood as [Hv _].
      change (bs "@~^:") with [ch "@"; 126; 94; 58] in Hin. rewrite !elem_of_cons, elem_of_nil in Hin.
      destruct Hin as [-> |[-> |[-> |[-> |[]]]]]; done.
    + eapply Forall_impl; [exact Hrest|]. intros b Hb Hin. apply Hb. change (bs "@~^:.") with (bs "@~^:" ++ [ch "."]). apply elem_of_app. by left.
  - apply no_dots_app; [apply Hforb; left|]. eapply Forall_impl; [exact Hrest|]. intros b Hb ->. apply Hb. by_decision.
Qed.

Section DescribeRoundTrip.
Context `{HX : !faster_hex.Api} `{HXL : !faster_hex.Laws} (date_parse : bytes → option Time).
Context (bstr_display : bytes → bytes) (Hdisplay : ∀ s, is_utf8 s = true → bstr_display s = s).
#[local] Existing Instance accepting.

(** The long form of [git describe] survives being printed and parsed: for
    a valid reference name without an at sign, any number of commits that fits
    a [u32] and an abbreviation of at least four digits, the delegate is asked
    for the prefix of the described commit and gets as a hint the name of the
    anchor and the number of commits; nothing else is asked. *)
Theorem describe_format_parse f name :
  f_name f = Some name → ref_format name → ch "@" ∉ name → is_utf8 name = true → wf_id (f_id f) →
  (4 ≤ f_hex_len f ≤ 40)%nat → 0 ≤ f_depth f < 2 ^ 32 → f_dirty_suffix f = None → f_long f = true ∨ f_depth f ≠ 0 →
  ∃ text, format_display bstr_display f = Ok text ∧
    parse date_parse text [] =
      (Ok tt, [Called (DisambiguatePrefix (id_prefix (f_hex_len f) (f_id f)) (Some (DescribeAnchor name (f_depth f)))); CalledDone]).
Proof.
  intros Hname Hf Hat Hu Hid Hn Hd Hds Hlong. set (hex := hex_text (f_hex_len f) (f_id f)).
  assert (Hhex : Forall (λ b, is_ascii_hexdigit b = true) hex) by apply hex_text_digits, Hid.
  assert (Hd64 : 0 ≤ f_depth f < 2 ^ 64) by lia.
  exists (describe_text name (f_depth f) hex). split.
  - unfold format_display. rewrite Hname, Hds. assert (negb (f_long f) && is_exact_match f = false) as ->.
    { unfold is_exact_match. destruct Hlong as [->|Hz%Z.eqb_neq]; [done|]. by rewrite Hz, andb_false_r. }
    rewrite hex_display_ok by (done || lia). rewrite bind_Ok. rewrite bind_Ok, app_nil_r, Hdisplay by done. done.
  - pose proof (describe_plain name (f_depth f) hex Hf Hat Hd64 Hhex) as Hplain.
    set (text := describe_text name (f_depth f) hex) in *.
    assert (Hne : text ≠ []) by (unfold text, describe_text; by destruct name).
    assert (Hhead : head text ≠ Some (ch "^")).
    { destruct text as [|b t]; [done|]. intros [= ->]. destruct Hplain as [Hp _]. inversion Hp as [|? ? Hb _]; subst. apply Hb. by_decision. }
    unfold parse, parse_body, parse_caret. rewrite bool_decide_eq_false_2 by done. erewrite bind_at by reflexivity. cbn beta iota.
    assert (Ha : anchor text None (intercept_new []) =
      (Ok (bool_decide (text = [])), mkIntercept [Called (DisambiguatePrefix (id_prefix (f_hex_len f) (f_id f)) (Some (DescribeAnchor name (f_depth f))))]
         None (Some (id_prefix (f_hex_len f) (f_id f), Some (DescribeAnchor name (f_depth f)))) false)).
    { unfold anchor. change (MIN_HEX_LEN <=? default 0 None)%nat with false. cbn iota. erewrite bind_at by reflexivity. cbn beta iota.
      erewrite bind_at by (unfold text; by rewrite long_describe_text). cbn beta iota.
      by erewrite bind_at by by apply set_prefix_text. }
    erewrite bind_at.
    2: { rewrite <- (app_nil_r text), revision_plain by (done || by left).
      assert (hex_count (Some 0%nat) text = None) as ->; [|erewrite bind_at by exact Ha; reflexivity].
      unfold text, describe_text. rewrite hex_count_app. cbn [hex_count foldl].
      replace (count_hex (ch "-") (hex_count (Some 0%nat) name)) with (@None nat); [apply hex_count_None|].
      unfold count_hex. cbn. by destruct (hex_count _ name). }
    reflexivity.
Qed.
End DescribeRoundTrip.

(** ** Where the parser departs from its documentation *)

Section Findings.
#[local] Existing Instance hex_impl.
Definition no_date : bytes → option Time := λ _, None.
(** A repository with all references and no object that matches a prefix. *)
Definition only_refs : Delegate (list Event) :=
  recorder (λ c, match c with DisambiguatePrefix _ _ => false | _ => true end).
Definition all_found : Delegate (list Event) := recorder (λ _, true).

(** [last_prefix] is set before the delegate answers and never cleared: the
    suffix [^-] of a reference whose name looks like a prefix asks for the
    prefix again, which the delegate has rejected, and after a range it asks
    for the prefix of the other side. *)
Lemma stale_prefix :
  (parse (DEL := only_refs) no_date (bs "beef") []).1 = Ok tt ∧
  (parse (DEL := only_refs) no_date (bs "main^-") []).1 = Ok tt ∧
  (parse (DEL := only_refs) no_date (bs "beef^-") []).1 = Err DelegateFailed ∧
  ∃ p, prefix_from_hex (bs "abcd") = Ok p ∧
    parse (DEL := all_found) no_date (bs "abcd..main^-") [] =
      (Ok tt, [Called (DisambiguatePrefix p None); Called (KindIs RangeBetween); Called (FindRef (bs "main"));
               Called (Traverse (NthParent 1)); Called (KindIs RangeBetween); Called (DisambiguatePrefix p None);
               CalledDone; CalledDone]).
Proof. split_and!; [vm_compute; reflexivity..|]. eexists. split; vm_compute; reflexivity. Qed.

(** The kind is set twice, [done] is called although input remains. *)
Lemma kind_set_twice :
  parse (DEL := all_found) no_date (bs "^main^!") [] =
    (Ok tt, [Called (KindIs ExcludeReachable); Called (FindRef (bs "main")); Called (KindIs ExcludeReachableFromParents); CalledDone]) ∧
  parse (DEL := all_found) no_date (bs "main^!x") [] =
    (Err (UnconsumedInput (bs "x")), [Called (FindRef (bs "main")); Called (KindIs ExcludeReachableFromParents); CalledDone]).
Proof. split; vm_compute; reflexivity. Qed.

(** After a dot an at sign is taken for the start of braces, although the name
    is valid and is accepted without the dot. *)
Lemma dot_at_rejected :
  (parse (DEL := all_found) no_date (bs "v@") []).1 = Ok tt ∧
  (parse (DEL := all_found) no_date (bs "v1.@") []).1 = Err (AtNeedsCurlyBrackets (bs "@")) ∧
  @name_partial bstr_impl (bs "v1.@") = Ok (bs "v1.@").
Proof. split_and!; vm_compute; reflexivity. Qed.
End Findings.

(** ** Witnesses *)

Lemma delegate_contract_witness :
  let log := (parse (HX := hex_impl) (DEL := all_found) no_date (bs "abcd..main~2^2@{1}") []).2 in
  Forall (λ e, match e with Called c => contract c | CalledDone => True end) log ∧ log ≠ [].
Proof.
  split; [|vm_compute; done].
  apply (delegate_contract (HXL := hex_impl_laws) (DEL := all_found) no_date (Forall (λ e, match e with Called c => contract c | CalledDone => True end))).
  - intros c d Hc Hd. apply Forall_app. by repeat constructor.
  - intros d Hd. apply Forall_app. by repeat constructor.
  - constructor.
Defined.
Lemma parse_ends_with_done_witness :
  ∃ d', (parse (HX := hex_impl) (DEL := all_found) no_date (bs "main^!") []).2 = @done _ all_found d'.
Proof. apply (parse_ends_with_done (HX := hex_impl) (DEL := all_found) no_date (bs "main^!") []). vm_compute. reflexivity. Defined.
Lemma spec_display_parse_witness :
  wf_spec (Merge sample_id (empty_tree KSha1)) ∧
  ∃ text, @spec_display hex_impl (Merge sample_id (empty_tree KSha1)) = Ok text ∧
    parse (HX := hex_impl) (DEL := accepting) no_date text [] = (Ok tt, spec_events (Merge sample_id (empty_tree KSha1))).
Proof.
  assert (H : wf_spec (Merge sample_id (empty_tree KSha1))).
  { split; (split; [reflexivity|]); apply (bool_decide_unpack _); vm_compute; exact Logic.I. }
  split; [exact H|]. exact (spec_display_parse (HX := hex_impl) (HXL := hex_impl_laws) no_date _ H).
Defined.
Definition sample_format : Format := mkFormat (Some (bs "v1.2.3")) sample_id 7 12 false None.
Lemma sample_tag_valid : ref_format (bs "v1.2.3").
Proof. pose proof (name_inner_validate (bs "v1.2.3")) as H. vm_compute (name_inner _ _) in H. by destruct H. Qed.
Lemma describe_format_parse_witness :
  ∃ text, @format_display hex_impl (λ s, s) sample_format = Ok text ∧
    parse (HX := hex_impl) (DEL := accepting) no_date text [] =
      (Ok tt, [Called (DisambiguatePrefix (id_prefix 7 sample_id) (Some (DescribeAnchor (bs "v1.2.3") 12))); CalledDone]).
Proof.
  apply (describe_format_parse (HX := hex_impl) (HXL := hex_impl_laws) no_date (λ s, s) (λ _ _, eq_refl) sample_format (bs "v1.2.3") eq_refl
    sample_tag_valid).
  - vm_compute. intros H. repeat (apply elem_of_cons in H as [H|H]; [discriminate|]). by apply elem_of_nil in H.
  - reflexivity.
  - exact sample_wf.
  - cbn. lia.
  - cbn. lia.
  - reflexivity.
  - right. done.
Defined.
