(* ===== verification/RefSpec.v ===== *)
(** * Refspecs: [gix-refspec/src/]

    [types.rs], [instruction.rs], [lib.rs], [parse.rs], [spec.rs] and [write.rs]:
    refspecs, their parser, the instruction they stand for and their text.
    References are checked with [Validate] and revisions with [RevSpec]. *)

From S2P Require Import Prelude External Hash Actor PackEntry Validate RevSpec.

(** ** [types.rs], [instruction.rs], [lib.rs] *)

Inductive Mode := Normal | Force | Negative.
Inductive Operation := OpPush | OpFetch.
#[global] Instance Mode_eq_dec : EqDecision Mode.
Proof. solve_decision. Defined.
#[global] Instance Operation_eq_dec : EqDecision Operation.
Proof. solve_decision. Defined.

Inductive Push :=
| AllMatchingBranches (allow_non_fast_forward : bool)
| Delete (ref_or_pattern : bytes)
| Matching (src dst : bytes) (allow_non_fast_forward : bool).
Inductive Fetch :=
| Only (src : bytes)
| ExcludeSrc (src : bytes)
| AndUpdate (src dst : bytes) (allow_non_fast_forward : bool).
Inductive Instruction := IPush (p : Push) | IFetch (f : Fetch).
#[global] Instance Push_eq_dec : EqDecision Push.
Proof. solve_decision. Defined.
#[global] Instance Fetch_eq_dec : EqDecision Fetch.
Proof. solve_decision. Defined.
#[global] Instance Instruction_eq_dec : EqDecision Instruction.
Proof. solve_decision. Defined.
Definition operation (i : Instruction) : Operation := match i with IPush _ => OpPush | IFetch _ => OpFetch end.

(** [RefSpecRef], and [RefSpec], which owns what the former borrows. *)
Record RefSpecRef := mkRefSpec { mode : Mode; op : Operation; src : option bytes; dst : option bytes }.
#[global] Instance RefSpecRef_eq_dec : EqDecision RefSpecRef.
Proof. solve_decision. Defined.

(** ** [parse.rs] *)

Inductive Error :=
| EmptySpec
| NegativeWithDestination | NegativeEmpty | NegativeUnsupported | NegativeObjectHash
| NegativePartialName | NegativeGlobPattern
| InvalidFetchDestination | PushToEmpty
| PatternUnsupported (pattern : bytes)
| PatternUnbalanced
| ReferenceName (e : ref_error)
| RevSpecError (e : ParseError).

(** [revparse::Noop]: a delegate that accepts everything. *)
Definition Noop : Delegate unit := {| call _ d := (Some tt, d); done d := d |}.

Definition REFS : bytes := bs "refs/".
Definition HEAD : bytes := bs "HEAD".

Section Parse.
Context {BS : bstr.Api} {HX : faster_hex.Api} (date_parse : bytes → option Time).

Definition fetch_head_only (mode : Mode) : RefSpecRef := mkRefSpec mode OpFetch (Some HEAD) None.
Definition looks_like_object_hash (spec : bytes) : bool :=
  (len_in_hex shortest <=? length spec)%nat && forallb is_ascii_hexdigit spec.

(** [validated]: the result is the specification itself, with whether it has
    a glob. *)
Definition validated (spec : option bytes) (allow_revspecs : bool) : res Error (option bytes * bool) :=
  match spec with
  | None => Ok (None, false)
  | Some spec =>
      let glob_count := length (take 2 (filter (λ b, b = ch "*") spec)) in
      if (1 <? glob_count)%nat then Err (PatternUnsupported spec)
      else
        let has_globs := (glob_count =? 1)%nat in
        _ ← (if has_globs then
               glob_pos ← expect (bstr.find_byte spec (ch "*"));
               map_err ReferenceName (name_partial (<[glob_pos := ch "a"]> spec))
             else
               match map_err ReferenceName (name_partial spec) with
               | Err err =>
                   if allow_revspecs then
                     _ ← map_err RevSpecError (RevSpec.parse (DEL := Noop) date_parse spec tt).1; Ok spec
                   else Err err
               | r => r
               end);
        Ok (Some spec, has_globs)
  end.

(** The match on the first byte: the mode and the rest, or what [parse]
    returns for the empty specification. *)
Definition parse_mode (spec : bytes) (operation : Operation) : res Error (Mode * bytes + RefSpecRef) :=
  match head spec with
  | Some b =>
      if b =? ch "^" then
        spec ← slice_from spec 1;
        if bool_decide (operation = OpPush) then Err NegativeUnsupported else Ok (inl (Negative, spec))
      else if b =? ch "+" then spec ← slice_from spec 1; Ok (inl (Force, spec))
      else Ok (inl (Normal, spec))
  | None =>
      match operation with
      | OpPush => Err EmptySpec
      | OpFetch => Ok (inr (fetch_head_only Normal))
      end
  end.
(** [(!s.is_empty()).then_some(s)]. *)
Definition non_empty (s : bytes) : option bytes := if bool_decide (s = []) then None else Some s.
(** Both sides of the colon. *)
Definition split_sides (spec : bytes) (mode : Mode) (operation : Operation)
    : res Error (option bytes * option bytes + RefSpecRef) :=
  match bstr.find_byte spec (ch ":") with
  | Some pos =>
      if bool_decide (mode = Negative) then Err NegativeWithDestination
      else
        '(src, dst) ← split_at spec pos;
        dst ← slice_from dst 1;
        match non_empty src, non_empty dst, operation with
        | None, None, OpPush => Ok (inl (None, None))
        | None, None, OpFetch => Ok (inl (Some HEAD, None))
        | None, Some dst, OpPush => Ok (inl (None, Some dst))
        | None, Some dst, OpFetch => Ok (inl (Some HEAD, Some dst))
        | Some src, None, OpPush => Err PushToEmpty
        | Some src, None, OpFetch => Ok (inl (Some src, None))
        | Some src, Some dst, _ => Ok (inl (Some src, Some dst))
        end
  | None =>
      let src := non_empty spec in
      if bool_decide (operation = OpFetch) && bool_decide (mode ≠ Negative) && bool_decide (src = None)
      then Ok (inr (fetch_head_only mode))
      else Ok (inl (src, None))
  end.
Definition check_negative (src : option bytes) (src_had_pattern : bool) : res Error unit :=
  match src with
  | Some spec =>
      if src_had_pattern then Err NegativeGlobPattern
      else if looks_like_object_hash spec then Err NegativeObjectHash
      else if negb (starts_with spec REFS) && bool_decide (spec ≠ HEAD) then Err NegativePartialName
      else Ok tt
  | None => Err NegativeEmpty
  end.
Definition parse_sides (mode : Mode) (operation : Operation) (src dst : option bytes) : res Error RefSpecRef :=
  let src := if bool_decide (src = Some (bs "@")) then Some HEAD else src in
  '(src, src_had_pattern) ← validated src (bool_decide (operation = OpPush) && bool_decide (dst ≠ None));
  '(dst, dst_had_pattern) ← validated dst false;
  if bool_decide (mode ≠ Negative) && negb (Bool.eqb src_had_pattern dst_had_pattern) then Err PatternUnbalanced
  else
    _ ← (if bool_decide (mode = Negative) then check_negative src src_had_pattern else Ok tt);
    Ok (mkRefSpec mode operation src dst).
Definition parse (spec : bytes) (operation : Operation) : res Error RefSpecRef :=
  m ← parse_mode spec operation;
  match m with
  | inr r => Ok r
  | inl (mode, spec) =>
      sides ← split_sides spec mode operation;
      match sides with
      | inr r => Ok r
      | inl (src, dst) => parse_sides mode operation src dst
      end
  end.

(** ** [spec.rs] *)

Definition allow_non_fast_forward (r : RefSpecRef) : bool := bool_decide (mode r = Force).
Definition source (r : RefSpecRef) : option bytes := src r.
Definition destination (r : RefSpecRef) : option bytes := dst r.
Definition remote (r : RefSpecRef) : option bytes := match op r with OpPush => dst r | OpFetch => src r end.
Definition local (r : RefSpecRef) : option bytes := match op r with OpPush => src r | OpFetch => dst r end.

Definition prefix (r : RefSpecRef) : res Empty_set (option bytes) :=
  if bool_decide (mode r = Negative) then Ok None
  else
    match (match op r with OpFetch => source r | OpPush => destination r end) with
    | None => Ok None
    | Some source =>
        if bool_decide (source = HEAD) then Ok (Some source)
        else
          match strip_prefix source REFS with
          | None => Ok None
          | Some suffix =>
              match bstr.find_byte suffix (ch "/") with
              | None => Ok None
              | Some slash_pos =>
                  prefix ← slice_to source (length REFS + slash_pos + 1);
                  Ok (if mem (ch "*") prefix then None else Some prefix)
              end
          end
    end.

(** [expand_partial_name]: the names in the order in which the callback sees
    them; [find_expanded] is its use with a callback that may stop. *)
Definition expansions : list (bytes * bool) :=
  [(bs "", false); (bs "refs/", false); (bs "refs/tags/", false); (bs "refs/heads/", false);
   (bs "refs/remotes/", false); (bs "refs/remotes/", true)].
Definition expand (name : bytes) (e : bytes * bool) : bytes :=
  let '(base, append_head) := e in base ++ name ++ (if append_head then bs "/HEAD" else []).
Fixpoint expand_partial_name {S T} (l : list (bytes * bool)) (name : bytes) (cb : bytes → S → option T * S) (st : S) : option T * S :=
  match l with
  | [] => (None, st)
  | e :: l =>
      match cb (expand name e) st with
      | (Some res, st) => (Some res, st)
      | (None, st) => expand_partial_name l name cb st
      end
  end.
Definition expand_prefixes (r : RefSpecRef) (out : list bytes) : res Empty_set (list bytes) :=
  p ← prefix r;
  match p with
  | Some prefix => Ok (out ++ [prefix])
  | None =>
      match (match op r with OpFetch => source r | OpPush => destination r end) with
      | None => Ok out
      | Some source =>
          match strip_prefix source REFS with
          | Some rest => Ok (if negb (mem (ch "/") rest) then out ++ [source] else out)
          | None =>
              match from_hex source with
              | Ok _ => Ok out
              | Err _ => Ok (expand_partial_name expansions source (λ expanded out, (@None unit, out ++ [expanded])) out).2
              | Panic => Panic
              end
          end
      end
  end.

(** [instruction]; the [unreachable!] arms panic. *)
Definition instruction (r : RefSpecRef) : res Empty_set Instruction :=
  let force := bool_decide (mode r = Force) in
  match op r with
  | OpFetch =>
      match mode r, src r, dst r with
      | (Normal | Force), Some src, None => Ok (IFetch (Only src))
      | (Normal | Force), Some src, Some dst => Ok (IFetch (AndUpdate src dst force))
      | Negative, Some src, None => Ok (IFetch (ExcludeSrc src))
      | _, _, _ => Panic
      end
  | OpPush =>
      match mode r, src r, dst r with
      | (Normal | Force), Some src, None => Ok (IPush (Matching src src force))
      | (Normal | Force), None, Some dst => Ok (IPush (Delete dst))
      | (Normal | Force), None, None => Ok (IPush (AllMatchingBranches force))
      | (Normal | Force), Some src, Some dst => Ok (IPush (Matching src dst force))
      | Negative, _, _ => Panic
      end
  end.
(** [PartialEq]: specs are equal if their instructions are. *)
Definition spec_eq (a b : RefSpecRef) : res Empty_set bool :=
  x ← instruction a; y ← instruction b; Ok (bool_decide (x = y)).

(** ** [write.rs] *)

Definition plus (force : bool) : bytes := if force then bs "+" else [].
Definition instruction_write_to (i : Instruction) : bytes :=
  match i with
  | IPush (Matching src dst force) => plus force ++ src ++ bs ":" ++ dst
  | IPush (AllMatchingBranches force) => plus force ++ bs ":"
  | IPush (Delete ref_or_pattern) => bs ":" ++ ref_or_pattern
  | IFetch (Only src) => src
  | IFetch (ExcludeSrc src) => bs "^" ++ src
  | IFetch (AndUpdate src dst force) => plus force ++ src ++ bs ":" ++ dst
  end.
Definition write_to (r : RefSpecRef) : res Empty_set bytes := i ← instruction r; Ok (instruction_write_to i).
Definition to_bstring (r : RefSpecRef) : res Empty_set bytes := write_to r.
End Parse.

(** ** Lemmas: checked sides *)

Section Sides.
Context {BS : bstr.Api} {BSL : bstr.Laws} {HX : faster_hex.Api} {HXL : faster_hex.Laws} (date_parse : bytes → option Time).

Lemma name_partial_cases s :
  name_partial s = Ok s ∧ ref_format s ∨ ∃ e, name_partial s = Err e ∧ ¬ ref_format s.
Proof.
  unfold name_partial, validate. pose proof (name_inner_validate s) as H.
  destruct (name_inner s TagValidate) as [o|e|]; [destruct H as [-> H]; by left|right; by exists (Tag e)|done].
Qed.
Lemma ref_format_bytes s b : ref_format s → b ∈ s → is_invalid_byte b = false ∧ b ≠ ch "*".
Proof. intros (_ & [Hg _] & _) Hb. eapply Forall_forall in Hg; [|done]. by apply good_byte_iff. Qed.
Lemma ref_format_nonempty s : ref_format s → s ≠ [].
Proof. by intros [? _]. Qed.
(** No panic in the revision parser. *)
Lemma revspec_no_panic s : (RevSpec.parse (DEL := Noop) date_parse s tt).1 ≠ Panic.
Proof.
  pose proof (keeps_parse_body (DEL := Noop) date_parse (λ _, True) (λ _ _ _ _, Logic.I) (λ _ _, Logic.I) s (intercept_new tt)) as H.
  destruct H as [_ H]; [by split|]. unfold RevSpec.parse. destruct (parse_body (DEL := Noop) date_parse s (intercept_new tt)) as [r st].
  by eapply safe_no_panic.
Qed.

(** What the checks establish of a side with or without a pattern: a name in
    which the star, if there is one, stands for some text, or, where revisions
    are allowed, a revision. *)
Definition revision_text (s : bytes) : Prop := (RevSpec.parse (DEL := Noop) date_parse s tt).1 = Ok tt.
Definition side_ok (s : bytes) (glob allow_revspecs : bool) : Prop :=
  if glob then ∃ a b, s = a ++ ch "*" :: b ∧ ch "*" ∉ a ∧ ch "*" ∉ b ∧ ref_format (a ++ ch "a" :: b)
  else ch "*" ∉ s ∧ (ref_format s ∨ allow_revspecs = true ∧ revision_text s).

Lemma filter_star_none s : ch "*" ∉ s → filter (λ b, b = ch "*") s = [].
Proof. intros Hs. apply filter_keep_none. apply Forall_forall. intros b Hb ->. done. Qed.
Lemma stars_cases s :
  (ch "*" ∉ s ∧ length (take 2 (filter (λ b, b = ch "*") s)) = 0%nat) ∨
  (∃ a b, s = a ++ ch "*" :: b ∧ ch "*" ∉ a ∧ ch "*" ∉ b ∧ length (take 2 (filter (λ b, b = ch "*") s)) = 1%nat) ∨
  length (take 2 (filter (λ b, b = ch "*") s)) = 2%nat.
Proof.
  destruct (decide (ch "*" ∈ s)) as [Hin|Hout]; [|left; split; [done|by rewrite filter_star_none]].
  right. apply list_elem_of_split_l in Hin as (a & b & -> & Ha).
  rewrite filter_app, filter_star_none, filter_cons_True by done. cbn [app].
  destruct (decide (ch "*" ∈ b)) as [Hb|Hb].
  - right. apply list_elem_of_split_l in Hb as (c & d & -> & Hc). by rewrite filter_app, filter_star_none, filter_cons_True by done.
  - left. exists a, b. rewrite filter_star_none by done. done.
Qed.
Lemma validated_spec s allow :
  match validated date_parse (Some s) allow with
  | Ok (t, glob) => t = Some s ∧ side_ok s glob allow
  | Err _ => ∀ glob, ¬ side_ok s glob allow
  | Panic => False
  end.
Proof.
  unfold validated. destruct (stars_cases s) as [[Hs ->]|[(a & b & -> & Ha & Hb & Hl)|Hl]].
  - cbn [Nat.ltb Nat.leb Nat.eqb]. destruct (name_partial_cases s) as [[-> Hf]|(e & -> & Hf)]; cbn [map_err].
    + rewrite bind_Ok. split; [done|]. split; [done|by left].
    + destruct allow.
      * pose proof (revspec_no_panic s) as Hnp. unfold side_ok, revision_text.
        destruct (RevSpec.parse date_parse s tt).1 as [[]|e'|]; [| |done]; cbn.
        -- split; [done|]. split; [done|by right].
        -- intros [] H; [destruct H as (a & b & -> & _); apply Hs; set_solver|]. destruct H as [_ [H|[_ H]]]; done.
      * cbn. intros [] H; [destruct H as (a & b & -> & _); apply Hs; set_solver|]. by destruct H as [_ [H|[H _]]].
  - rewrite Hl. cbn [Nat.ltb Nat.leb Nat.eqb]. rewrite find_byte_app by done. cbn [expect]. rewrite bind_Ok.
    rewrite insert_app_r_alt, Nat.sub_diag by lia. cbn [list_insert insert].
    destruct (name_partial_cases (a ++ ch "a" :: b)) as [[-> Hf]|(e & -> & Hf)]; cbn.
    + split; [done|]. exists a, b. done.
    + intros [] H; [|destruct H as [H _]; apply H; set_solver]. destruct H as (a' & b' & He & Ha' & Hb' & Hf').
      assert (a = a' ∧ b = b') as [-> ->]; [|done].
      clear -He Ha Hb Ha' Hb'. revert a' He Ha'. induction a as [|x a IH]; intros [|x' a'] He Ha'; cbn in He; simplify_eq.
      * done.
      * apply not_elem_of_cons in Ha' as [Hne _]. done.
      * apply not_elem_of_cons in Ha as [Hne _]. done.
      * apply not_elem_of_cons in Ha as [_ Ha]. apply not_elem_of_cons in Ha' as [_ Ha']. destruct (IH Ha a') as [-> ->]; done.
  - rewrite Hl. cbn. intros [] H.
    + destruct H as (a & b & -> & Ha & Hb & _). rewrite filter_app, filter_cons_True, !filter_star_none in Hl by done. done.
    + destruct H as [H _]. by rewrite filter_star_none in Hl.
Qed.

Lemma side_ok_star s glob allow : side_ok s glob allow → if glob then ch "*" ∈ s else ch "*" ∉ s.
Proof. destruct glob; [intros (a & b & -> & _); set_solver|by intros [H _]]. Qed.
Lemma side_ok_validated s glob allow : side_ok s glob allow → validated date_parse (Some s) allow = Ok (Some s, glob).
Proof.
  intros H. pose proof (validated_spec s allow) as Hv. destruct (validated _ _ _) as [[t g]|e|]; [|by destruct (Hv glob)|done].
  destruct Hv as [-> Hg]. apply side_ok_star in H, Hg. by destruct g, glob.
Qed.
Lemma side_ok_mono s glob allow : side_ok s glob false → side_ok s glob allow.
Proof. destruct glob; [done|]. intros [H [?|[? _]]]; [|done]. split; [done|by left]. Qed.
(** The bytes of a side: no colon unless it is a revision, no caret in front. *)
Lemma side_ok_bytes s glob b : side_ok s glob false → b ∈ s → is_invalid_byte b = false.
Proof.
  destruct glob.
  - intros (x & y & -> & _ & _ & Hf) Hb. apply elem_of_app in Hb as [Hb|[->|Hb]%elem_of_cons]; [|done|];
      (eapply ref_format_bytes; [exact Hf|]; set_solver).
  - intros [_ [Hf|[? _]]] Hb; [|done]. by eapply ref_format_bytes.
Qed.
Lemma side_ok_nonempty s glob : side_ok s glob false → s ≠ [].
Proof.
  destruct glob; [intros (a & b & -> & _); by destruct a|]. intros [_ [Hf|[? _]]]; [|done]. by apply ref_format_nonempty.
Qed.

(** ** What a parsed specification looks like *)

Definition allows_revspecs (r : RefSpecRef) : bool := bool_decide (op r = OpPush) && bool_decide (dst r ≠ None).
Definition wf_spec (r : RefSpecRef) : Prop :=
  match mode r with
  | Negative =>
      op r = OpFetch ∧ dst r = None ∧
      ∃ s, src r = Some s ∧ side_ok s false false ∧ looks_like_object_hash s = false ∧ (starts_with s REFS = true ∨ s = HEAD)
  | _ =>
      (op r = OpFetch → src r ≠ None) ∧
      ∃ glob, (src r = None ∨ dst r = None → glob = false) ∧
        (∀ s, src r = Some s → side_ok s glob (allows_revspecs r)) ∧ (∀ d, dst r = Some d → side_ok d glob false)
  end.
(** What allows the source to be written in front of a colon. *)
Definition text_ok (r : RefSpecRef) : Prop :=
  ∀ s, src r = Some s → s ≠ [] ∧ s ≠ bs "@" ∧ ch ":" ∉ s ∧ (mode r = Normal → head s ≠ Some (ch "+") ∧ head s ≠ Some (ch "^")).

Lemma head_ref_format : side_ok HEAD false false.
Proof.
  split; [by_decision|]. left. pose proof (name_inner_validate HEAD) as H. vm_compute (name_inner _ _) in H. by destruct H.
Qed.
Lemma head_only_ok mode : mode ≠ Negative → wf_spec (fetch_head_only mode) ∧ text_ok (fetch_head_only mode).
Proof.
  intros Hm. split.
  - unfold wf_spec. cbn. assert (H : (OpFetch = OpFetch → Some HEAD ≠ None) ∧ ∃ glob, (Some HEAD = None ∨ @None bytes = None → glob = false) ∧
      (∀ s, Some HEAD = Some s → side_ok s glob (allows_revspecs (fetch_head_only mode))) ∧ (∀ d, None = Some d → side_ok d glob false)).
    { split; [done|]. exists false. split_and!; [done| |done]. intros s [= <-]. apply side_ok_mono, head_ref_format. }
    destruct mode; done.
  - intros s [= <-]. split_and!; [done|done|by_decision|]. intros _. by split.
Qed.

(** What the sides are before they are checked. *)
Definition raw_ok (mode : Mode) (operation : Operation) (src dst : option bytes) : Prop :=
  (∀ s, src = Some s → s ≠ [] ∧ ch ":" ∉ s ∧ (mode = Normal → head s ≠ Some (ch "+") ∧ head s ≠ Some (ch "^"))) ∧
  (operation = OpFetch → mode ≠ Negative → src ≠ None) ∧
  (mode = Negative → operation = OpFetch ∧ dst = None).
Lemma parse_mode_safe spec operation :
  safe (λ r, match r with
    | inl (mode, rest) =>
        (mode = Normal → head rest ≠ Some (ch "+") ∧ head rest ≠ Some (ch "^")) ∧ (mode = Negative → operation = OpFetch)
    | inr r => r = fetch_head_only Normal ∧ operation = OpFetch
    end) (parse_mode spec operation).
Proof.
  unfold parse_mode. destruct spec as [|b spec]; cbn [head]; [by destruct operation|].
  destruct (Z.eqb_spec b (ch "^")) as [|Hb]; [|destruct (Z.eqb_spec b (ch "+")) as [|Hb']].
  - rewrite slice_from_le, bind_Ok by (cbn; lia). case_bool_decide; [done|]. cbn. split; [done|]. by destruct operation.
  - by rewrite slice_from_le, bind_Ok by (cbn; lia).
  - cbn. split; [|done]. intros _. split; congruence.
Qed.
Lemma non_empty_Some s t : non_empty s = Some t → t = s ∧ s ≠ [].
Proof. unfold non_empty. case_bool_decide; [done|]. by intros [= <-]. Qed.
Lemma raw_head mode dst : mode ≠ Negative → raw_ok mode OpFetch (Some HEAD) dst.
Proof. intros Hm. split_and!; [|done|done]. intros s [= <-]. split_and!; [done|by_decision|done]. Qed.
Lemma split_sides_safe spec mode operation :
  (mode = Normal → head spec ≠ Some (ch "+") ∧ head spec ≠ Some (ch "^")) → (mode = Negative → operation = OpFetch) →
  safe (λ r, match r with
    | inl (src, dst) => raw_ok mode operation src dst
    | inr r => r = fetch_head_only mode ∧ operation = OpFetch ∧ mode ≠ Negative
    end) (split_sides spec mode operation).
Proof.
  intros Hhead Hneg. unfold split_sides. rewrite bstr.find_byte_spec. destruct (find_index _ spec) as [pos|] eqn:Hf.
  - case_bool_decide as Hm; [done|]. apply find_index_Some in Hf as [(x & Hx & <-%Z.eqb_eq) Hmin].
    pose proof (lookup_lt_Some _ _ _ Hx). rewrite split_at_le, bind_Ok by lia.
    rewrite slice_from_le, bind_Ok by (rewrite length_drop; lia).
    assert (Hsrc : ∀ s, non_empty (take pos spec) = Some s → s ≠ [] ∧ ch ":" ∉ s ∧ (mode = Normal → head s ≠ Some (ch "+") ∧ head s ≠ Some (ch "^"))).
    { intros s [-> Hne]%non_empty_Some. split_and!; [done| |].
      - intros [i Hi]%list_elem_of_lookup_1. apply lookup_take_Some in Hi as [Hi Hlt]. specialize (Hmin i _ Hlt Hi). by rewrite Z.eqb_refl in Hmin.
      - rewrite head_take by (by intros ->). done. }
    destruct (non_empty (take pos spec)) as [s|], (non_empty (drop 1 _)) as [d|], operation; cbn; try done;
      try (by apply raw_head); split_and!; try done; auto.
  - assert (Hcolon : ch ":" ∉ spec).
    { intros Hin. eapply find_index_None in Hf. eapply Forall_forall in Hf; [|exact Hin]. done. }
    destruct (bool_decide (operation = OpFetch) && bool_decide (mode ≠ Negative) && bool_decide (non_empty spec = None)) eqn:Hc.
    + rewrite !andb_true_iff, !bool_decide_eq_true in Hc. destruct Hc as [[? ?] ?]. done.
    + cbn. split_and!; [| |by split; [apply Hneg|]].
      * by intros s [-> Hne]%non_empty_Some.
      * intros -> Hm Hn. by rewrite !bool_decide_eq_true_2 in Hc by done.
Qed.
Lemma parse_sides_safe mode operation src dst :
  raw_ok mode operation src dst → safe (λ r, op r = operation ∧ wf_spec r ∧ text_ok r) (parse_sides date_parse mode operation src dst).
Proof.
  intros (Hsrc & Hfetch & Hneg). unfold parse_sides.
  set (src' := if bool_decide (src = Some (bs "@")) then Some HEAD else src).
  assert (Htext : ∀ s, src' = Some s → s ≠ [] ∧ s ≠ bs "@" ∧ ch ":" ∉ s ∧ (mode = Normal → head s ≠ Some (ch "+") ∧ head s ≠ Some (ch "^"))).
  { subst src'. intros s. case_bool_decide as Ha; [intros [= <-]; by split_and!; [..|by_decision|done]|].
    intros Hs. destruct (Hsrc s Hs) as (? & ? & ?). split_and!; try done. by intros ->. }
  assert (Hnone : operation = OpFetch → mode ≠ Negative → src' ≠ None) by (subst src'; case_bool_decide; auto).
  clearbody src'. clear Hsrc Hfetch. set (allow := bool_decide (operation = OpPush) && bool_decide (dst ≠ None)).
  assert (Hs : safe (λ '(t, g), t = src' ∧ (t = None → g = false) ∧ ∀ s, t = Some s → side_ok s g allow) (validated date_parse src' allow)).
  { destruct src' as [s|]; [|by cbn]. pose proof (validated_spec s allow) as H. destruct (validated _ _ _) as [[t g]|e|]; [|done|done].
    destruct H as [-> H]. cbn. split_and!; [done|done|]. by intros ? [= <-]. }
  eapply safe_bind; [exact Hs|]. intros [t g] _ (-> & Hg & Hsok).
  assert (Hd : safe (λ '(t, g), t = dst ∧ (t = None → g = false) ∧ ∀ d, t = Some d → side_ok d g false) (validated date_parse dst false)).
  { destruct dst as [s|]; [|by cbn]. pose proof (validated_spec s false) as H. destruct (validated date_parse (Some s) false) as [[t g']|e|]; [|done|done].
    destruct H as [-> H]. cbn. split_and!; [done|done|]. by intros ? [= <-]. }
  eapply safe_bind; [exact Hd|]. intros [t g'] _ (-> & Hg' & Hdok).
  destruct (bool_decide (mode ≠ Negative) && negb (Bool.eqb g g')) eqn:Hbal; [done|].
  destruct (decide (mode = Negative)) as [Hm|Hm]; [rewrite (bool_decide_eq_true_2 _ Hm)|rewrite (bool_decide_eq_false_2 _ Hm)].
  - subst mode. destruct (Hneg eq_refl) as [-> ->]. unfold check_negative. destruct src' as [s|]; [|done].
    destruct g; [done|]. destruct (looks_like_object_hash s) eqn:Hh; [done|]. destruct (negb _ && _) eqn:Hp; [done|].
    cbn [safe]. split; [done|]. split; [|exact Htext]. split; [done|]. split; [done|].
    exists s. split_and!; [done|by apply Hsok|done|].
    apply andb_false_iff in Hp as [Hp%negb_false_iff|Hp%bool_decide_eq_false]; [by left|]. right. by destruct (decide (s = HEAD)).
  - rewrite bind_Ok. cbn [safe]. split; [done|]. split; [|exact Htext]. rewrite bool_decide_eq_true_2 in Hbal by done. cbn in Hbal.
    apply negb_false_iff, eqb_prop in Hbal as <-.
    assert (H : (operation = OpFetch → src' ≠ None) ∧ ∃ glob, (src' = None ∨ dst = None → glob = false) ∧
      (∀ s, src' = Some s → side_ok s glob allow) ∧ (∀ d, dst = Some d → side_ok d glob false)).
    { split; [auto|]. exists g. split_and!; [naive_solver|done|done]. }
    unfold wf_spec. cbn. by destruct mode.
Qed.
Lemma parse_safe spec operation : safe (λ r, op r = operation ∧ wf_spec r ∧ text_ok r) (parse date_parse spec operation).
Proof.
  unfold parse. eapply safe_bind; [apply parse_mode_safe|]. intros [[mode rest]|r] _ Hm.
  - destruct Hm as [Hh Hn]. eapply safe_bind; [by apply split_sides_safe|]. intros [[s d]|r] _ Hr; [by apply parse_sides_safe|].
    destruct Hr as (-> & -> & Hr). cbn. destruct (head_only_ok mode Hr). done.
  - destruct Hm as (-> & ->). cbn. by destruct (head_only_ok Normal ltac:(done)).
Qed.

(** ** Instructions and their text *)

Lemma instruction_wf r : wf_spec r → ∃ i, instruction r = Ok i ∧ operation i = op r.
Proof.
  unfold wf_spec, instruction. destruct r as [m o sr ds]. cbn. destruct m.
  1-2: intros [Hf _]; destruct o, sr, ds; eauto; by destruct (Hf eq_refl).
  intros (-> & -> & s & -> & _). eauto.
Qed.

Lemma parse_mode_force rest operation : parse_mode (plus true ++ rest) operation = Ok (inl (Force, rest)).
Proof. unfold parse_mode. change (head (plus true ++ rest)) with (Some (ch "+")). cbn iota beta. rewrite Z.eqb_refl.
  by rewrite (slice_from_at (plus true) rest 1).
Qed.
Lemma parse_mode_normal rest operation :
  rest ≠ [] → head rest ≠ Some (ch "+") → head rest ≠ Some (ch "^") → parse_mode rest operation = Ok (inl (Normal, rest)).
Proof.
  intros Hne Hp Hc. unfold parse_mode. destruct rest as [|b rest]; [done|]. cbn [head] in *.
  by rewrite !(proj2 (Z.eqb_neq _ _)) by congruence.
Qed.
Lemma non_empty_ne s : s ≠ [] → non_empty s = Some s.
Proof. intros H. unfold non_empty. by rewrite bool_decide_eq_false_2. Qed.
Lemma split_sides_colon a b mode operation :
  ch ":" ∉ a → mode ≠ Negative →
  split_sides (a ++ ch ":" :: b) mode operation =
    match non_empty a, non_empty b, operation with
    | None, None, OpPush => Ok (inl (None, None))
    | None, None, OpFetch => Ok (inl (Some HEAD, None))
    | None, Some dst, OpPush => Ok (inl (None, Some dst))
    | None, Some dst, OpFetch => Ok (inl (Some HEAD, Some dst))
    | Some src, None, OpPush => Err PushToEmpty
    | Some src, None, OpFetch => Ok (inl (Some src, None))
    | Some src, Some dst, _ => Ok (inl (Some src, Some dst))
    end.
Proof.
  intros Ha Hm. unfold split_sides. rewrite find_byte_app by done. rewrite bool_decide_eq_false_2 by done.
  rewrite split_at_app, bind_Ok by done. rewrite slice_from_le, bind_Ok by (cbn; lia). cbn [drop]. by rewrite drop_0.
Qed.
Lemma split_sides_plain a mode operation :
  ch ":" ∉ a → a ≠ [] → split_sides a mode operation = Ok (inl (Some a, None)).
Proof.
  intros Ha Hne. unfold split_sides. rewrite find_byte_none by done. rewrite non_empty_ne by done.
  by rewrite (bool_decide_eq_false_2 (Some a = None)), andb_false_r by done.
Qed.
Lemma validated_opt t glob allow :
  (t = None → glob = false) → (∀ s, t = Some s → side_ok s glob allow) → validated date_parse t allow = Ok (t, glob).
Proof. intros Hn Hs. destruct t as [s|]; [by apply side_ok_validated, Hs|]. by rewrite Hn. Qed.
Lemma parse_sides_ok mode operation src dst glob :
  mode ≠ Negative → src ≠ Some (bs "@") → (src = None ∨ dst = None → glob = false) →
  (∀ s, src = Some s → side_ok s glob (bool_decide (operation = OpPush) && bool_decide (dst ≠ None))) →
  (∀ d, dst = Some d → side_ok d glob false) →
  parse_sides date_parse mode operation src dst = Ok (mkRefSpec mode operation src dst).
Proof.
  intros Hm Ha Hg Hs Hd. unfold parse_sides. rewrite (bool_decide_eq_false_2 (src = _)) by done.
  rewrite (validated_opt src glob), bind_Ok by auto. rewrite (validated_opt dst glob), bind_Ok by auto.
  rewrite eqb_reflx, andb_false_r, (bool_decide_eq_false_2 (mode = _)) by done. done.
Qed.

(** Both sides with a colon between them: [mode] is not negative. *)
Lemma parse_colon m o sr d glob :
  m ≠ Negative → side_ok sr glob (bool_decide (o = OpPush)) → side_ok d glob false → text_ok (mkRefSpec m o (Some sr) (Some d)) →
  parse date_parse (plus (bool_decide (m = Force)) ++ sr ++ bs ":" ++ d) o = Ok (mkRefSpec m o (Some sr) (Some d)).
Proof.
  intros Hm Hs Hd Ht. destruct (Ht sr eq_refl) as (Hne & Hat & Hcol & Hhead). cbn [mode] in Hhead.
  pose proof (side_ok_nonempty d glob Hd) as Hdne. unfold parse.
  assert (parse_mode (plus (bool_decide (m = Force)) ++ sr ++ bs ":" ++ d) o = Ok (inl (m, sr ++ ch ":" :: d))) as ->.
  { destruct m; [|by rewrite bool_decide_eq_true_2, parse_mode_force|done]. destruct (Hhead eq_refl). rewrite bool_decide_eq_false_2 by done.
    destruct sr; [done|]. by apply parse_mode_normal. }
  rewrite bind_Ok, split_sides_colon by done. rewrite !non_empty_ne, bind_Ok by done.
  apply (parse_sides_ok _ _ _ _ glob); [done|by intros [= ->]|by intros [?|?]| |by intros ? [= <-]].
  intros ? [= <-]. by rewrite (bool_decide_eq_true_2 (Some d ≠ None)), andb_true_r.
Qed.
Lemma parse_all_matching m : m ≠ Negative → parse date_parse (plus (bool_decide (m = Force)) ++ bs ":") OpPush = Ok (mkRefSpec m OpPush None None).
Proof.
  intros Hm. unfold parse. destruct m; [| |done].
  - change (plus _ ++ bs ":") with (bs ":"). rewrite parse_mode_normal, bind_Ok by done.
    by rewrite (split_sides_colon [] []) by (done || apply not_elem_of_nil).
  - change (plus _ ++ bs ":") with (plus true ++ bs ":"). rewrite parse_mode_force, bind_Ok.
    by rewrite (split_sides_colon [] []) by (done || apply not_elem_of_nil).
Qed.
Lemma parse_delete d : side_ok d false false → parse date_parse (bs ":" ++ d) OpPush = Ok (mkRefSpec Normal OpPush None (Some d)).
Proof.
  intros Hd. pose proof (side_ok_nonempty d false Hd). unfold parse. rewrite parse_mode_normal, bind_Ok by done.
  rewrite (split_sides_colon [] d), (non_empty_ne d) by (done || apply not_elem_of_nil). change (non_empty []) with (@None bytes). cbn iota. rewrite bind_Ok.
  apply (parse_sides_ok Normal OpPush None (Some d) false); try done. by intros ? [= <-].
Qed.
Lemma parse_only s :
  side_ok s false false → s ≠ bs "@" → ch ":" ∉ s → head s ≠ Some (ch "+") → parse date_parse s OpFetch = Ok (mkRefSpec Normal OpFetch (Some s) None).
Proof.
  intros Hs Ha Hc Hp. pose proof (side_ok_nonempty s false Hs) as Hne. unfold parse. rewrite parse_mode_normal, bind_Ok; [|done|done|].
  - rewrite split_sides_plain, bind_Ok by done. apply (parse_sides_ok Normal OpFetch (Some s) None false); try done; [by intros [= ->]|by intros ? [= <-]].
  - intros Hh. destruct s as [|b s]; [done|]. injection Hh as ->. pose proof (side_ok_bytes _ _ (ch "^") Hs ltac:(by left)). done.
Qed.
Lemma parse_exclude s :
  side_ok s false false → looks_like_object_hash s = false → (starts_with s REFS = true ∨ s = HEAD) → s ≠ bs "@" → ch ":" ∉ s →
  parse date_parse (bs "^" ++ s) OpFetch = Ok (mkRefSpec Negative OpFetch (Some s) None).
Proof.
  intros Hs Hh Hp Ha Hc. pose proof (side_ok_nonempty s false Hs) as Hne. unfold parse, parse_mode.
  change (head (bs "^" ++ s)) with (Some (ch "^")). cbn iota beta. rewrite Z.eqb_refl.
  rewrite (slice_from_at (bs "^") s 1), bind_Ok by done. rewrite bool_decide_eq_false_2, bind_Ok by done.
  rewrite split_sides_plain, bind_Ok by done. unfold parse_sides. rewrite (bool_decide_eq_false_2 (Some s = _)) by (by intros [= ->]).
  assert (Hc' : check_negative (Some s) false = Ok tt).
  { unfold check_negative. rewrite Hh. destruct Hp as [->| ->]; [done|]. by rewrite (bool_decide_eq_false_2 (HEAD ≠ HEAD)), andb_false_r by auto. }
  rewrite (validated_opt (Some s) false), bind_Ok by (done || by intros ? [= <-]). rewrite (validated_opt None false), bind_Ok by done.
  rewrite (bool_decide_eq_false_2 (Negative ≠ Negative)), (bool_decide_eq_true_2 (Negative = Negative)), Hc' by auto. done.
Qed.

(** C23: What the parser accepts is meaningful: parsing never panics, and a
    parsed refspec is well formed - both sides are reference names or, on the
    source side of a push, revisions, with one star on both sides or on none;
    an exclusion is a single full name; a fetch has a source - so that deriving
    its instruction does not reach the unreachable cases, and the instruction is
    one of the operation asked for. *)
Theorem refspec_parse_well_formed spec o :
  no_panic (parse date_parse spec o) ∧
  ∀ r, parse date_parse spec o = Ok r → wf_spec r ∧ ∃ i, instruction r = Ok i ∧ operation i = o.
Proof.
  pose proof (parse_safe spec o) as H. split; [by eapply safe_no_panic|]. intros r Hr. rewrite Hr in H. destruct H as (Ho & Hwf & _).
  split; [done|]. rewrite <- Ho. by apply instruction_wf.
Qed.

(** C20: Refspecs survive being written and parsed: the text of a parsed refspec
    parses to an equal one, equality being that of the instructions.  The one
    exception is a forced fetch without a destination whose source starts with
    a plus sign, because the sign of the mode is not written for it. *)
Theorem refspec_write_parse spec o r :
  parse date_parse spec o = Ok r →
  ∃ i text, instruction r = Ok i ∧ to_bstring r = Ok text ∧
    ((∃ s, i = IFetch (Only s) ∧ head s = Some (ch "+")) ∨
     ∃ r', parse date_parse text o = Ok r' ∧ instruction r' = Ok i ∧ spec_eq r r' = Ok true).
Proof.
  intros Hr. pose proof (parse_safe spec o) as H. rewrite Hr in H. destruct H as (<- & Hwf & Htext). clear Hr spec.
  destruct (instruction_wf r Hwf) as (i & Hi & _). exists i, (instruction_write_to i). unfold to_bstring, write_to. rewrite Hi.
  split; [done|]. split; [done|].
  enough (H : (∃ s, i = IFetch (Only s) ∧ head s = Some (ch "+")) ∨
     ∃ r', parse date_parse (instruction_write_to i) (op r) = Ok r' ∧ instruction r' = Ok i).
  { destruct H as [?|(r' & Hp & Hi')]; [by left|]. right. exists r'. split_and!; [done..|]. unfold spec_eq. rewrite Hi, Hi'.
    cbn. by rewrite bool_decide_eq_true_2. }
  destruct r as [m o sr ds]. unfold wf_spec, allows_revspecs in Hwf. cbn [mode op src dst] in *.
  destruct (decide (m = Negative)) as [->|Hm].
  { destruct Hwf as (-> & -> & s & -> & Hs & Hh & Hp). destruct (Htext s eq_refl) as (_ & Ha & Hc & _). injection Hi as <-.
    right. eexists. split; [by apply parse_exclude|done]. }
  assert (Hwf' : (o = OpFetch → sr ≠ None) ∧ ∃ glob, (sr = None ∨ ds = None → glob = false) ∧
    (∀ s, sr = Some s → side_ok s glob (bool_decide (o = OpPush) && bool_decide (ds ≠ None))) ∧ (∀ d, ds = Some d → side_ok d glob false)).
  { by destruct m. }
  clear Hwf. destruct Hwf' as (Hf & glob & Hg & Hs & Hd).
  assert (Hcolon : ∀ s d, sr = Some s → side_ok s glob (bool_decide (o = OpPush)) → side_ok d glob false →
    parse date_parse (plus (bool_decide (m = Force)) ++ s ++ bs ":" ++ d) o = Ok (mkRefSpec m o (Some s) (Some d))).
  { intros s d -> Hsok Hdok. by eapply parse_colon. }
  destruct sr as [s|].
  - specialize (Hs s eq_refl). destruct ds as [d|].
    + rewrite (bool_decide_eq_true_2 (Some d ≠ None)), andb_true_r in Hs by done. right.
      destruct o, m; try done; injection Hi as <-; cbn [instruction_write_to]; eexists; (split; [apply Hcolon; auto|reflexivity]).
    + rewrite Hg in * by auto. rewrite (bool_decide_eq_false_2 (None ≠ None)), andb_false_r in Hs by auto.
      destruct (Htext s eq_refl) as (_ & Ha & Hc & _). destruct o.
      * right. destruct m; try done; injection Hi as <-; cbn [instruction_write_to]; eexists;
           (split; [apply Hcolon; [done|by apply side_ok_mono|done]|reflexivity]).
      * assert (i = IFetch (Only s)) as -> by (destruct m; try done; by injection Hi).
        destruct (decide (head s = Some (ch "+"))); [left; by exists s|]. right. eexists. split; [by apply parse_only|done].
  - destruct o; [|by destruct (Hf eq_refl)]. right. destruct ds as [d|].
    + rewrite Hg in * by auto. destruct m; try done; injection Hi as <-; eexists; (split; [by apply parse_delete, Hd|reflexivity]).
    + pose proof (parse_all_matching m Hm) as Hp. destruct m; try done; injection Hi as <-; eexists; (split; [exact Hp|reflexivity]).
Qed.
End Sides.

(** ** Where refspecs depart from their documentation *)

Section Findings.
#[local] Existing Instance hex_impl.
#[local] Existing Instance bstr_impl.
Definition no_dates : bytes → option Time := λ _, None.

(** The source of a forced fetch without destination loses its own plus sign. *)
Lemma plus_lost :
  ∃ r, parse no_dates (bs "++a") OpFetch = Ok r ∧ instruction r = Ok (IFetch (Only (bs "+a"))) ∧
    ∃ r', parse no_dates (bs "+a") OpFetch = Ok r' ∧ to_bstring r = Ok (bs "+a") ∧ instruction r' = Ok (IFetch (Only (bs "a"))).
Proof. eexists. split; [vm_compute; reflexivity|]. split; [vm_compute; reflexivity|]. eexists. split_and!; vm_compute; reflexivity. Qed.
(** Patterns to delete or to exclude are documented and refused. *)
Lemma patterns_refused :
  parse no_dates (bs ":refs/heads/*") OpPush = Err PatternUnbalanced ∧
  parse no_dates (bs "^refs/heads/*") OpFetch = Err NegativeGlobPattern.
Proof. split; vm_compute; reflexivity. Qed.
(** The prefix of a pattern right below [refs/] is the pattern itself, star
    included; exclusions have prefixes, too. *)
Lemma pattern_as_prefix :
  (∃ r, parse no_dates (bs "+refs/*:refs/*") OpFetch = Ok r ∧ expand_prefixes r [] = Ok [bs "refs/*"]) ∧
  (∃ r, parse no_dates (bs "^refs/short") OpFetch = Ok r ∧ expand_prefixes r [] = Ok [bs "refs/short"]).
Proof. split; eexists; split; vm_compute; reflexivity. Qed.
End Findings.

(** ** Witnesses *)

Lemma refspec_parse_well_formed_witness :
  no_panic (parse (BS := bstr_impl) (HX := hex_impl) no_dates (bs "+refs/heads/*:refs/remotes/origin/*") OpFetch).
Proof. exact (proj1 (refspec_parse_well_formed (BSL := bstr_impl_laws) (HXL := hex_impl_laws) no_dates _ _)). Defined.
Definition sample_refspec : RefSpecRef :=
  mkRefSpec Force OpFetch (Some (bs "refs/heads/*")) (Some (bs "refs/remotes/origin/*")).
Lemma refspec_write_parse_witness :
  parse (BS := bstr_impl) (HX := hex_impl) no_dates (bs "+refs/heads/*:refs/remotes/origin/*") OpFetch = Ok sample_refspec ∧
  ∃ i text, instruction sample_refspec = Ok i ∧ to_bstring sample_refspec = Ok text ∧
    ((∃ s, i = IFetch (Only s) ∧ head s = Some (ch "+")) ∨
     ∃ r', parse (BS := bstr_impl) (HX := hex_impl) no_dates text OpFetch = Ok r' ∧ instruction r' = Ok i ∧ spec_eq sample_refspec r' = Ok true).
Proof.
  assert (H : parse (BS := bstr_impl) (HX := hex_impl) no_dates (bs "+refs/heads/*:refs/remotes/origin/*") OpFetch = Ok sample_refspec)
    by (vm_compute; reflexivity).
  split; [exact H|]. exact (refspec_write_parse (BSL := bstr_impl_laws) (HXL := hex_impl_laws) no_dates _ _ _ H).
Defined.
