(* ===== verification/RefMatch.v ===== *)
(** * Matching references with refspecs: [gix-refspec/src/match_group/]

    [types.rs], [util.rs], [mod.rs] and [validate.rs]: the references a remote
    advertises are matched with the refspecs of a group, which maps each of them
    to the name it is stored under; exclusions remove mappings, and validation
    finds destinations that more than one source would be written to. *)

From S2P Require Import Prelude External Hash Actor PackEntry Validate RevSpec RefSpec.

(** ** [types.rs] *)

Record Item := mkItem { full_ref_name : bytes; target : bytes; object : option bytes }.
(** [SourceRef], and [Source], which owns the name. *)
Inductive SourceRef := SFullName (name : bytes) | SObjectId (id : ObjectId).
#[global] Instance SourceRef_eq_dec : EqDecision SourceRef.
Proof. solve_decision. Defined.
Record Mapping := mkMapping { item_index : option nat; lhs : SourceRef; rhs : option bytes; spec_index : nat }.
Abbreviation MatchGroup := (list RefSpecRef) (only parsing).
Record Outcome := mkOutcome { group : MatchGroup; mappings : list Mapping }.

(** ** [util.rs] *)

Inductive Needle :=
| NFullName (name : bytes)
| NPartialName (name : bytes)
| NGlob (name : bytes) (asterisk_pos : nat)
| NObject (id : ObjectId).
Record Matcher := mkMatcher { m_lhs : option Needle; m_rhs : option Needle }.
Inductive Match := NoMatch | NormalMatch | GlobRange (start end_ : nat).

Section Util.
Context {BS : bstr.Api} {HX : faster_hex.Api}.

(** [From<&BStr> for Needle], [From<RefSpecRef> for Matcher]. *)
Definition needle_from (v : bytes) : res Empty_set Needle :=
  match bstr.find_byte v (ch "*") with
  | Some pos => Ok (NGlob v pos)
  | None =>
      if starts_with v REFS then Ok (NFullName v)
      else match from_hex v with
           | Ok id => Ok (NObject id)
           | Err _ => Ok (NPartialName v)
           | Panic => Panic
           end
  end.
Definition needle_opt (v : option bytes) : res Empty_set (option Needle) :=
  match v with Some v => n ← needle_from v; Ok (Some n) | None => Ok None end.
Definition matcher_from (v : RefSpecRef) : res Empty_set Matcher :=
  l ← needle_opt (src v); r ← needle_opt (dst v); Ok (mkMatcher l r).

(** [Needle::matches]. *)
Definition needle_matches (n : Needle) (item : Item) : res Empty_set Match :=
  match n with
  | NFullName name => Ok (if bool_decide (name = full_ref_name item) then NormalMatch else NoMatch)
  | NPartialName name =>
      Ok (default NoMatch (expand_partial_name expansions name
        (λ expanded st, (if bool_decide (expanded = full_ref_name item) then Some NormalMatch else None, st)) tt).1)
  | NGlob name asterisk_pos =>
      match get_to (full_ref_name item) asterisk_pos with
      | None => Ok NoMatch
      | Some full_name_portion =>
          head ← slice_to name asterisk_pos;
          if bool_decide (full_name_portion ≠ head) then Ok NoMatch
          else
            tail ← slice_from name (asterisk_pos + 1);
            if negb (ends_with (full_ref_name item) tail) then Ok NoMatch
            else Ok (GlobRange asterisk_pos (length (full_ref_name item) - length tail))
      end
  | NObject id =>
      Ok (if bool_decide (as_slice id = target item) then NormalMatch
          else match object item with
               | Some object => if bool_decide (object = as_slice id) then NormalMatch else NoMatch
               | None => NoMatch
               end)
  end.
(** [Needle::to_bstr_replace], [Needle::to_bstr]. *)
Definition to_bstr_replace (n : Needle) (range : option (nat * nat * Item)) : res Empty_set bytes :=
  match n, range with
  | NFullName name, None => Ok name
  | NPartialName name, None =>
      Ok (REFS ++ (if negb (starts_with name (bs "tags/") || starts_with name (bs "remotes/")) then bs "heads/" else []) ++ name)
  | NGlob name asterisk_pos, Some (start, end_, item) =>
      a ← slice_to name asterisk_pos;
      b ← slice (full_ref_name item) start end_;
      c ← slice_from name (asterisk_pos + 1);
      Ok (a ++ b ++ c)
  | NObject id, None => name ← id_display id; Ok (bs "refs/heads/" ++ name)
  | NGlob _ _, None => Panic
  | _, Some _ => Panic
  end.
Definition to_bstr (n : Needle) : res Empty_set bytes := to_bstr_replace n None.

Definition is_match (m : Match) : bool := match m with NoMatch => false | _ => true end.
Definition into_match_outcome (m : Match) (destination : Needle) (item : Item) : res Empty_set (bool * option bytes) :=
  match m with
  | NoMatch => Ok (false, None)
  | NormalMatch => d ← to_bstr_replace destination None; Ok (true, Some d)
  | GlobRange s e => d ← to_bstr_replace destination (Some (s, e, item)); Ok (true, Some d)
  end.
Definition matches_lhs (m : Matcher) (item : Item) : res Empty_set (bool * option bytes) :=
  match m_lhs m, m_rhs m with
  | Some lhs, None => r ← needle_matches lhs item; Ok (is_match r, None)
  | Some lhs, Some rhs => r ← needle_matches lhs item; into_match_outcome r rhs item
  | None, _ => Ok (false, None)
  end.
End Util.

(** ** [mod.rs] *)

Section Group.
Context {BS : bstr.Api} {HX : faster_hex.Api}.
(** [calculate_hash] of a mapping, which hashes both sides with the hasher of
    the standard library. *)
Context (calculate_hash : SourceRef → option bytes → Z).

Definition from_fetch_specs (specs : list RefSpecRef) : MatchGroup := filter (λ s, op s = OpFetch) specs.
Definition from_push_specs (specs : list RefSpecRef) : MatchGroup := filter (λ s, op s = OpPush) specs.

(** [seen] and [out], and the closure [push_unique]. *)
Definition pushed : Type := gset Z * list Mapping.
Definition push_unique (st : pushed) (m : Mapping) : pushed :=
  let h := calculate_hash (lhs m) (rhs m) in
  if decide (h ∈ st.1) then st else ({[h]} ∪ st.1, st.2 ++ [m]).

(** The matchers of the specs; a spec whose source is an object is mapped at
    once and has no matcher. *)
Fixpoint build_matchers (idx : nat) (specs : list RefSpecRef) (st : pushed) : res Empty_set (list (option Matcher) * pushed) :=
  match specs with
  | [] => Ok ([], st)
  | s :: specs =>
      m ← matcher_from s;
      '(m, st) ←
        (match m_lhs m with
         | Some (NObject id) =>
             rhs ← (match m_rhs m with Some n => r ← to_bstr n; Ok (Some r) | None => Ok None end);
             Ok (None, push_unique st (mkMapping None (SObjectId id) rhs idx))
         | _ => Ok (Some m, st)
         end);
      '(ms, st) ← build_matchers (S idx) specs st;
      Ok (m :: ms, st)
  end.
(** The items in turn for one spec. *)
Fixpoint match_items (spec_index item_index : nat) (matcher : option Matcher) (items : list Item) (st : pushed) : res Empty_set pushed :=
  match items with
  | [] => Ok st
  | item :: items =>
      st ← (match matcher with
            | Some matcher =>
                '(matched, rhs) ← matches_lhs matcher item;
                Ok (if matched : bool then push_unique st (mkMapping (Some item_index) (SFullName (full_ref_name item)) rhs spec_index) else st)
            | None => Ok st
            end);
      match_items spec_index (S item_index) matcher items st
  end.
Fixpoint match_specs (spec_index : nat) (l : list (RefSpecRef * option Matcher)) (items : list Item) (st : pushed) (has_negation : bool)
    : res Empty_set (pushed * bool) :=
  match l with
  | [] => Ok (st, has_negation)
  | (spec, matcher) :: l =>
      if bool_decide (mode spec = Negative) then match_specs (S spec_index) l items st true
      else
        st ← match_items spec_index 0 matcher items st;
        match_specs (S spec_index) l items st has_negation
  end.
(** [Vec::retain] with a predicate that may panic. *)
Fixpoint retain {A} (f : A → res Empty_set bool) (l : list A) : res Empty_set (list A) :=
  match l with
  | [] => Ok []
  | x :: l => b ← f x; l ← retain f l; Ok (if b : bool then x :: l else l)
  end.
Definition not_excluded (matcher : Matcher) (null_id : ObjectId) (m : Mapping) : res Empty_set bool :=
  match lhs m with
  | SObjectId _ => Ok true
  | SFullName name => '(matched, _) ← matches_lhs matcher (mkItem name (as_slice null_id) None); Ok (negb matched)
  end.
Fixpoint exclude (l : list (option Matcher * RefSpecRef)) (null_id : ObjectId) (out : list Mapping) : res Empty_set (list Mapping) :=
  match l with
  | [] => Ok out
  | (m, spec) :: l =>
      out ← (match m with
             | Some matcher => if bool_decide (mode spec = Negative) then retain (not_excluded matcher null_id) out else Ok out
             | None => Ok out
             end);
      exclude l null_id out
  end.
Definition match_remotes (specs : MatchGroup) (items : list Item) : res Empty_set Outcome :=
  '(matchers, st) ← build_matchers 0 specs (∅, []);
  '(st, has_negation) ← match_specs 0 (zip specs matchers) items st false;
  let out := st.2 in
  hash_kind ← (if has_negation : bool then
                 match items with i :: _ => k ← oid_kind (target i); Ok (Some k) | [] => Ok None end
               else Ok None);
  out ← (match hash_kind with
         | Some k => exclude (zip matchers specs) (null k) out
         | None => Ok out
         end);
  Ok (mkOutcome specs out).

(** ** [validate.rs] *)

Inductive Issue := Conflict (destination_full_ref_name : bytes) (sources : list SourceRef) (specs : list bytes).
Inductive Fix := MappingWithPartialDestinationRemoved (name : bytes) (spec : RefSpecRef).

(** [sources_by_destinations.entry(dst).or_insert_with(Vec::new)] and the push
    of a source that is not among them: a map is a list in ascending order. *)
Definition destinations : Type := list (bytes * list (nat * SourceRef)).
Fixpoint add_source (dst : bytes) (spec_index : nat) (src : SourceRef) (m : destinations) : destinations :=
  match m with
  | [] => [(dst, [(spec_index, src)])]
  | (k, sources) :: m' =>
      match bytes_cmp dst k with
      | Lt => (dst, [(spec_index, src)]) :: m
      | Eq => (k, if existsb (λ s, bool_decide (s.2 = src)) sources then sources else sources ++ [(spec_index, src)]) :: m'
      | Gt => (k, sources) :: add_source dst spec_index src m'
      end
  end.
Definition collect_destinations (l : list Mapping) : destinations :=
  foldl (λ m p, match rhs p with Some dst => add_source dst (spec_index p) (lhs p) m | None => m end) [] l.
Definition issue_of (specs : MatchGroup) (c : bytes * list (nat * SourceRef)) : res Empty_set Issue :=
  specs ← mapM_res (λ '(spec_idx, _), s ← expect (specs !! spec_idx); to_bstring s) c.2;
  Ok (Conflict c.1 (snd <$> c.2) specs).
(** The closure of [retain]: whether the mapping stays, and the fix if not. *)
Definition keep_full (dst : bytes) : bool := starts_with dst REFS || bool_decide (dst = HEAD).
Fixpoint fix_partial (specs : MatchGroup) (l : list Mapping) : res Empty_set (list Mapping * list Fix) :=
  match l with
  | [] => Ok ([], [])
  | m :: l =>
      fixed ← (match rhs m with
               | Some dst =>
                   if keep_full dst then Ok None
                   else spec ← expect (specs !! spec_index m); Ok (Some (MappingWithPartialDestinationRemoved dst spec))
               | None => Ok None
               end);
      '(kept, fixes) ← fix_partial specs l;
      Ok (match fixed with Some f => (kept, f :: fixes) | None => (m :: kept, fixes) end)
  end.
(** The error carries the issues. *)
Definition outcome_validated (o : Outcome) : res (list Issue) (Outcome * list Fix) :=
  issues ← lift (mapM_res (issue_of (group o)) (filter (λ c, (1 < length c.2)%nat) (collect_destinations (mappings o))));
  if bool_decide (issues ≠ []) then Err issues
  else
    '(kept, fixed) ← lift (fix_partial (group o) (mappings o));
    Ok (mkOutcome (group o) kept, fixed).
End Group.

(** ** Lemmas: patterns *)

Section Needles.
Context {BS : bstr.Api} {BSL : bstr.Laws} {HX : faster_hex.Api} {HXL : faster_hex.Laws}.

Lemma from_hex_cases v :
  (∃ id, from_hex v = Ok id ∧ wf_id id) ∨ (∃ e, from_hex v = Err e).
Proof.
  unfold from_hex. destruct (Nat.eqb_spec (length v) 40) as [Hl|]; [|right; by eexists].
  rewrite faster_hex.hex_decode_spec by by rewrite Hl. destruct (unhex v) as [d|] eqn:Hd; [|right; by eexists].
  left. exists (Sha1 d). split; [done|]. apply unhex_spec in Hd as [Hb Hf]. split; [|done]. cbn.
  apply Forall2_length in Hf. rewrite length_nibbles in Hf. lia.
Qed.
Definition is_glob (n : Needle) : bool := match n with NGlob _ _ => true | _ => false end.
Definition wf_needle (n : Needle) : Prop :=
  match n with
  | NGlob name pos => ∃ a b, name = a ++ ch "*" :: b ∧ pos = length a
  | NObject id => wf_id id
  | _ => True
  end.
Lemma needle_from_glob a b : ch "*" ∉ a → needle_from (a ++ ch "*" :: b) = Ok (NGlob (a ++ ch "*" :: b) (length a)).
Proof. intros Ha. unfold needle_from. by rewrite find_byte_app. Qed.
Lemma needle_from_plain v : ch "*" ∉ v → ∃ n, needle_from v = Ok n ∧ is_glob n = false ∧ wf_needle n.
Proof.
  intros Hv. unfold needle_from. rewrite find_byte_none by done. destruct (starts_with v REFS); [by eexists|].
  destruct (from_hex_cases v) as [(id & -> & Hid)|(e & ->)]; by eexists.
Qed.

(** A name that begins and ends like the pattern. *)
Lemma glob_matches a b item :
  needle_matches (NGlob (a ++ ch "*" :: b) (length a)) item =
    Ok (if starts_with (full_ref_name item) a && ends_with (full_ref_name item) b
        then GlobRange (length a) (length (full_ref_name item) - length b) else NoMatch).
Proof.
  unfold needle_matches. set (f := full_ref_name item). unfold get_to.
  destruct (Nat.leb_spec (length a) (length f)) as [Hle|Hlt].
  - rewrite slice_to_app, bind_Ok by done.
    assert (Hs : starts_with f a = bool_decide (take (length a) f = a)).
    { apply eq_true_iff_eq. rewrite starts_with_spec, bool_decide_eq_true. split.
      - intros [k ->]. apply take_app_length.
      - intros Ht. exists (drop (length a) f). by rewrite <- Ht at 1; rewrite take_drop. }
    rewrite Hs. destruct (decide (take (length a) f = a)) as [H1|H1].
    + rewrite bool_decide_eq_false_2, (bool_decide_eq_true_2 (_ = a)) by auto. cbn [andb].
      replace (length a + 1)%nat with (length (a ++ [ch "*"])) by (rewrite length_app; cbn; lia).
      replace (a ++ ch "*" :: b) with ((a ++ [ch "*"]) ++ b) by (by rewrite <- app_assoc).
      rewrite slice_from_app, bind_Ok. by destruct (ends_with f b).
    + rewrite bool_decide_eq_true_2, (bool_decide_eq_false_2 (_ = a)) by done. done.
  - destruct (starts_with f a) eqn:Hs; [|done]. apply starts_with_spec in Hs as [k Hk].
    apply (f_equal length) in Hk. rewrite length_app in Hk. lia.
Qed.
(** The pattern's two ends overlap in the name. *)
Definition overlaps (a b f : bytes) : Prop :=
  starts_with f a = true ∧ ends_with f b = true ∧ (length f < length a + length b)%nat.
Lemma glob_split a b f :
  starts_with f a = true → ends_with f b = true → (length a + length b ≤ length f)%nat →
  ∃ mid, f = a ++ mid ++ b.
Proof.
  intros [k ->]%starts_with_spec [k' Hk']%ends_with_spec Hl. rewrite length_app in Hl.
  apply app_eq_inv in Hk' as [(x & -> & ->)|(x & -> & ->)]; [|by exists x].
  rewrite !length_app in Hl. assert (x = []) as -> by (destruct x; [done|cbn in Hl; lia]). exists []. by rewrite app_nil_r.
Qed.
Lemma replace_glob c d s e item :
  to_bstr_replace (NGlob (c ++ ch "*" :: d) (length c)) (Some (s, e, item)) =
    (b ← slice (full_ref_name item) s e; Ok (c ++ b ++ d)).
Proof.
  unfold to_bstr_replace. rewrite slice_to_app, bind_Ok by done. destruct (slice _ s e) as [b|e'|]; [|done..]. rewrite !bind_Ok.
  replace (length c + 1)%nat with (length (c ++ [ch "*"])) by (rewrite length_app; cbn; lia).
  replace (c ++ ch "*" :: d) with ((c ++ [ch "*"]) ++ d) by (by rewrite <- app_assoc). by rewrite slice_from_app.
Qed.

(** A pattern on both sides: with [a*b] as source and [c*d] as destination, a
    reference named [a], some text, [b] is mapped to [c], the same text, [d]; a
    reference that does not begin with [a] or does not end with [b] does not
    match; and a reference in which the two ends overlap, which is too short to
    match, makes the matcher panic. *)
Theorem glob_mapping a b c d r item :
  src r = Some (a ++ ch "*" :: b) → dst r = Some (c ++ ch "*" :: d) → ch "*" ∉ a → ch "*" ∉ c →
  ∃ m, matcher_from r = Ok m ∧
    (∀ mid, full_ref_name item = a ++ mid ++ b → matches_lhs m item = Ok (true, Some (c ++ mid ++ d))) ∧
    (starts_with (full_ref_name item) a = false ∨ ends_with (full_ref_name item) b = false → matches_lhs m item = Ok (false, None)) ∧
    (overlaps a b (full_ref_name item) → matches_lhs m item = Panic).
Proof.
  intros Hs Hd Ha Hc. unfold matcher_from, needle_opt. rewrite Hs, Hd, !needle_from_glob by done. rewrite !bind_Ok. eexists.
  split; [done|]. unfold matches_lhs. cbn [m_lhs m_rhs]. rewrite glob_matches, bind_Ok. split_and!.
  - intros mid Hf. rewrite Hf.
    assert (starts_with (a ++ mid ++ b) a = true) as -> by (apply starts_with_spec; by exists (mid ++ b)).
    assert (ends_with (a ++ mid ++ b) b = true) as -> by (apply ends_with_spec; exists (a ++ mid); by rewrite <- app_assoc).
    cbn [andb into_match_outcome]. rewrite replace_glob, Hf.
    rewrite slice_app with (d2 := mid); [done|done|rewrite !length_app; lia].
  - intros [->| ->]; [done|]. by rewrite andb_false_r.
  - intros (-> & He & Hl). rewrite He. apply ends_with_spec in He as [k Hk]. rewrite Hk, length_app in Hl |- *. cbn [andb into_match_outcome]. rewrite replace_glob. unfold slice, get_range.
    by rewrite (proj2 (Nat.leb_gt _ _)) by lia.
Qed.
End Needles.

(** ** Lemmas: the matchers of well-formed specs *)

Section Matchers.
Context {BS : bstr.Api} {BSL : bstr.Laws} {HX : faster_hex.Api} {HXL : faster_hex.Laws} (date_parse : bytes → option Time).

(** Both needles agree on being patterns, and ids are ids. *)
Definition wf_matcher (m : Matcher) : Prop :=
  (∀ n, m_lhs m = Some n → wf_needle n) ∧ (∀ n, m_rhs m = Some n → wf_needle n) ∧
  (∀ n k, m_lhs m = Some n → m_rhs m = Some k → is_glob n = is_glob k).
Lemma side_needle s glob allow : side_ok date_parse s glob allow → ∃ n, needle_from s = Ok n ∧ is_glob n = glob ∧ wf_needle n.
Proof.
  destruct glob.
  - intros (a & b & -> & Ha & _). rewrite needle_from_glob by done. eexists. split_and!; [done|done|]. by exists a, b.
  - intros [Hs _]. by apply needle_from_plain.
Qed.
Lemma opt_needle o glob allow :
  (∀ s, o = Some s → side_ok date_parse s glob allow) →
  ∃ n, needle_opt o = Ok n ∧ ∀ k, n = Some k → is_glob k = glob ∧ wf_needle k.
Proof.
  intros H. destruct o as [s|]; [|by exists None]. destruct (side_needle s glob allow (H s eq_refl)) as (n & Hn & ? & ?).
  exists (Some n). unfold needle_opt. rewrite Hn. split; [done|]. by intros k [= <-].
Qed.
Lemma matcher_from_wf r : wf_spec date_parse r → ∃ m, matcher_from r = Ok m ∧ wf_matcher m.
Proof.
  intros Hwf. assert (H : ∃ glob allow, (∀ s, src r = Some s → side_ok date_parse s glob allow) ∧ (∀ s, dst r = Some s → side_ok date_parse s glob false)).
  { unfold wf_spec in Hwf. destruct (mode r).
    1-2: destruct Hwf as (_ & glob & _ & Hs & Hd); by exists glob, (allows_revspecs r).
    destruct Hwf as (_ & Hd & s & Hs & Hok & _). exists false, false. split; [|by rewrite Hd]. by rewrite Hs; intros ? [= <-]. }
  destruct H as (glob & allow & Hs & Hd). destruct (opt_needle _ _ _ Hs) as (l & Hl & Hlg). destruct (opt_needle _ _ _ Hd) as (k & Hk & Hkg).
  exists (mkMatcher l k). unfold matcher_from. rewrite Hl, bind_Ok, Hk. split; [done|]. split_and!; cbn.
  - intros n Hn. by apply Hlg.
  - intros n Hn. by apply Hkg.
  - intros n n' Hn Hn'. destruct (Hlg n Hn), (Hkg n' Hn'). congruence.
Qed.
(** The two ends of the pattern do not overlap in the name. *)
Definition no_overlap (m : Matcher) (f : bytes) : Prop :=
  ∀ a b, m_lhs m = Some (NGlob (a ++ ch "*" :: b) (length a)) → m_rhs m ≠ None → ¬ overlaps a b f.
Lemma plain_matches n item : is_glob n = false → ∃ r, needle_matches n item = Ok r ∧ (r = NormalMatch ∨ r = NoMatch).
Proof.
  destruct n as [name|name|name pos|id]; intros Hg; [| |done|]; cbn [needle_matches]; eexists; (split; [reflexivity|]).
  - case_bool_decide; auto.
  - cbn [expand_partial_name expansions]. repeat (case_bool_decide; cbn; auto).
  - repeat case_match; auto.
Qed.
Lemma to_bstr_plain n : is_glob n = false → wf_needle n → ∃ v, to_bstr n = Ok v.
Proof.
  destruct n as [name|name|name pos|id]; intros Hg Hwf; [by eexists|by eexists|done|].
  unfold to_bstr, to_bstr_replace. rewrite id_display_ok by done. by eexists.
Qed.
Lemma matches_total m item :
  wf_matcher m → no_overlap m (full_ref_name item) → ∃ b v, matches_lhs m item = Ok (b, v).
Proof.
  intros (Hl & Hr & Hg) Hov. unfold matches_lhs. destruct m as [[n|] rh]; cbn [m_lhs m_rhs] in *; [|destruct rh; by eexists _, _].
  destruct (is_glob n) eqn:Hn.
  - destruct n as [| |name pos|]; try done. destruct (Hl _ eq_refl) as (a & b & -> & ->). rewrite glob_matches.
    destruct rh as [k|]; rewrite bind_Ok; [|by eexists _, _].
    destruct k as [| |name' pos'|]; try (by specialize (Hg _ _ eq_refl eq_refl)). destruct (Hr _ eq_refl) as (c & d & -> & ->).
    destruct (_ && _) eqn:Hm; [|by eexists _, _]. cbn [into_match_outcome]. rewrite replace_glob.
    apply andb_true_iff in Hm as [Hs He]. assert (Hlen : (length a + length b ≤ length (full_ref_name item))%nat).
    { destruct (decide (length a + length b ≤ length (full_ref_name item))%nat) as [|Hlt]; [done|].
      destruct (Hov a b eq_refl); [done|]. split_and!; [done|done|lia]. }
    rewrite slice_le by lia. by eexists _, _.
  - destruct (plain_matches n item Hn) as (r & -> & Hc). destruct rh as [k|]; rewrite bind_Ok; [|by eexists _, _].
    destruct Hc as [-> | ->]; cbn [into_match_outcome]; [|by eexists _, _].
    destruct (to_bstr_plain k) as [v Hv]; [by rewrite <- (Hg _ _ eq_refl eq_refl)|by apply Hr|]. unfold to_bstr in Hv. rewrite Hv. by eexists _, _.
Qed.
Lemma matches_source_total m item : wf_matcher m → m_rhs m = None → ∃ b v, matches_lhs m item = Ok (b, v).
Proof. intros Hm Hr. apply matches_total; [done|]. intros a b _ Hn. done. Qed.
End Matchers.

(** ** Lemmas: pushing each pair of sides once *)

Section Pushing.
Context (calculate_hash : SourceRef → option bytes → Z).
Definition sides (m : Mapping) : SourceRef * option bytes := (lhs m, rhs m).
Definition hash_of (p : SourceRef * option bytes) : Z := calculate_hash p.1 p.2.
(** [seen] holds the hashes of what was pushed, each once. *)
Definition pushed_ok (st : pushed) : Prop := (∀ h, h ∈ st.1 ↔ h ∈ hash_of <$> (sides <$> st.2)) ∧ NoDup (hash_of <$> (sides <$> st.2)).
Lemma push_unique_ok st m : pushed_ok st → pushed_ok (push_unique calculate_hash st m).
Proof.
  intros [Hs Hd]. unfold push_unique. case_decide as Hin; [done|]. split; cbn.
  - intros h. rewrite !fmap_app, elem_of_union, elem_of_singleton, elem_of_app, Hs. cbn. rewrite list_elem_of_singleton. tauto.
  - rewrite !fmap_app. apply NoDup_app. split_and!; [done| |apply NoDup_singleton].
    intros h Hh. cbn. rewrite list_elem_of_singleton. intros ->. by apply Hin, Hs.
Qed.
Lemma push_all_ok l st : pushed_ok st → pushed_ok (foldl (push_unique calculate_hash) st l).
Proof. revert st. induction l as [|m l IH]; intros st Hst; [done|]. by apply IH, push_unique_ok. Qed.
Lemma push_all_sides l st p :
  pushed_ok st →
  (∀ q q', (q ∈ sides <$> st.2 ∨ q ∈ sides <$> l) → (q' ∈ sides <$> st.2 ∨ q' ∈ sides <$> l) → hash_of q = hash_of q' → q = q') →
  p ∈ sides <$> (foldl (push_unique calculate_hash) st l).2 ↔ p ∈ sides <$> st.2 ∨ p ∈ sides <$> l.
Proof.
  revert st. induction l as [|m l IH]; intros st Hst Hinj; cbn [foldl]; [rewrite fmap_nil, elem_of_nil; tauto|].
  assert (Hm : ∀ q, q ∈ sides <$> (push_unique calculate_hash st m).2 ↔ q ∈ sides <$> st.2 ∨ q = sides m).
  { intros q. unfold push_unique. case_decide as Hin.
    - split; [auto|]. intros [? | ->]; [done|]. apply (proj1 Hst) in Hin. apply list_elem_of_fmap in Hin as (q' & Hh & Hq').
      rewrite (Hinj (sides m) q'); [done|right; by left|by left|done].
    - cbn. rewrite fmap_app, elem_of_app. cbn. by rewrite list_elem_of_singleton. }
  rewrite IH.
  - rewrite Hm. cbn [fmap list_fmap]. rewrite elem_of_cons. tauto.
  - by apply push_unique_ok.
  - intros q q'. rewrite !Hm. intros Hq Hq'. apply Hinj; cbn [fmap list_fmap]; rewrite elem_of_cons; tauto.
Qed.
End Pushing.

(** ** What a match of remotes returns *)

Section Remotes.
Context {BS : bstr.Api} {BSL : bstr.Laws} {HX : faster_hex.Api} {HXL : faster_hex.Laws} (date_parse : bytes → option Time).
Context (calculate_hash : SourceRef → option bytes → Z).
Abbreviation push_all := (foldl (push_unique calculate_hash)).

(** A spec whose source is an object maps the object, a reference that matches
    a spec is mapped as the matcher says. *)
Definition object_pair (r : RefSpecRef) (p : SourceRef * option bytes) : Prop :=
  ∃ m id, matcher_from r = Ok m ∧ m_lhs m = Some (NObject id) ∧ p.1 = SObjectId id ∧
    match m_rhs m with None => p.2 = None | Some k => ∃ v, to_bstr k = Ok v ∧ p.2 = Some v end.
Definition ref_pair (r : RefSpecRef) (item : Item) (p : SourceRef * option bytes) : Prop :=
  mode r ≠ Negative ∧ ∃ m v, matcher_from r = Ok m ∧ (∀ id, m_lhs m ≠ Some (NObject id)) ∧
    matches_lhs m item = Ok (true, v) ∧ p = (SFullName (full_ref_name item), v).
Definition candidate (specs : list RefSpecRef) (items : list Item) (p : SourceRef * option bytes) : Prop :=
  (∃ r, r ∈ specs ∧ object_pair r p) ∨ ∃ r item, r ∈ specs ∧ item ∈ items ∧ ref_pair r item p.
(** An exclusion matches the name. *)
Definition excluded (specs : list RefSpecRef) (p : SourceRef * option bytes) : Prop :=
  ∃ r name m v, r ∈ specs ∧ mode r = Negative ∧ p.1 = SFullName name ∧ matcher_from r = Ok m ∧
    matches_lhs m (mkItem name (replicate 20 0) None) = Ok (true, v).

(** The entry for a spec in the list of matchers. *)
Definition matcher_of (r : RefSpecRef) (om : option Matcher) : Prop :=
  ∃ m, matcher_from r = Ok m ∧ wf_matcher m ∧
    ((∃ id, m_lhs m = Some (NObject id)) ∧ om = None ∨ (∀ id, m_lhs m ≠ Some (NObject id)) ∧ om = Some m).

Lemma build_matchers_ok specs idx st :
  (∀ r, r ∈ specs → wf_spec date_parse r) →
  ∃ ms cands, build_matchers calculate_hash idx specs st = Ok (ms, push_all st cands) ∧ Forall2 matcher_of specs ms ∧
    ∀ p, p ∈ sides <$> cands ↔ ∃ r, r ∈ specs ∧ object_pair r p.
Proof.
  revert idx st. induction specs as [|r specs IH]; intros idx st Hwf; cbn [build_matchers].
  { exists [], []. split_and!; [done|constructor|]. intros p. cbn. split; [by intros H%elem_of_nil|]. by intros (r & H%elem_of_nil & _). }
  destruct (matcher_from_wf date_parse r) as (m & Hm & Hwm); [by apply Hwf; left|]. rewrite Hm, bind_Ok.
  assert (H : ∃ om cs, (match m_lhs m with
      | Some (NObject id) =>
          rhs ← (match m_rhs m with Some n => r ← to_bstr n; Ok (Some r) | None => Ok None end);
          Ok (None, push_unique calculate_hash st (mkMapping None (SObjectId id) rhs idx))
      | _ => Ok (Some m, st) end) = @Ok Empty_set _ (om, push_all st cs) ∧ matcher_of r om ∧
      ∀ p, p ∈ sides <$> cs ↔ object_pair r p).
  { destruct (m_lhs m) as [[name|name|name pos|id]|] eqn:Hl.
    1-3, 5: exists (Some m), []; split_and!; [done|exists m; split_and!; [done..|]; right; split; [by rewrite Hl|done]|];
      intros p; cbn; split; [by intros ?%elem_of_nil|]; intros (m' & id & Hm' & Hl' & _); congruence.
    assert (Hr : ∃ v, (match m_rhs m with Some n => r ← to_bstr n; Ok (Some r) | None => Ok None end) = @Ok Empty_set _ v ∧
      match m_rhs m with None => v = None | Some k => ∃ w, to_bstr k = Ok w ∧ v = Some w end).
    { destruct (m_rhs m) as [k|] eqn:Hk; [|by exists None]. destruct Hwm as (_ & Hr & Hg).
      destruct (to_bstr_plain k) as [w Hw]; [by rewrite <- (Hg _ _ Hl Hk)|by apply Hr|]. exists (Some w). rewrite Hw. split; [done|by exists w]. }
    destruct Hr as (v & Hv & Hvp). rewrite Hv, bind_Ok. exists None, [mkMapping None (SObjectId id) v idx]. split_and!; [done| |].
    - exists m. split_and!; [done..|]. left. split; [by exists id|done].
    - intros p. cbn. rewrite list_elem_of_singleton. split.
      + intros ->. exists m, id. done.
      + intros (m' & id' & Hm' & Hl' & H1 & H2). assert (m' = m) as -> by congruence. assert (id' = id) as -> by congruence.
        destruct p as [p1 p2]. cbn in *. subst p1. unfold sides. cbn. f_equal.
        destruct (m_rhs m) as [k|]; [|congruence]. destruct Hvp as (w & Hw & ->), H2 as (w' & Hw' & ->). congruence. }
  destruct H as (om & cs & -> & Hom & Hcs). rewrite bind_Ok.
  destruct (IH (S idx) (push_all st cs)) as (ms & cands & -> & Hms & Hp); [intros r' Hr'; apply Hwf; by right|].
  rewrite bind_Ok. exists (om :: ms), (cs ++ cands). rewrite foldl_app. split_and!; [done|by constructor|].
  intros p. rewrite fmap_app, elem_of_app, Hcs, Hp. setoid_rewrite elem_of_cons. split.
  - intros [?|(r' & ? & ?)]; [by exists r; auto|exists r'; auto].
  - intros (r' & [-> |?] & ?); [by left|right; eauto].
Qed.

Lemma match_items_ok r om items spec_index item_index st :
  matcher_of r om → mode r ≠ Negative →
  (∀ m item, matcher_from r = Ok m → item ∈ items → no_overlap m (full_ref_name item)) →
  ∃ cands, match_items calculate_hash spec_index item_index om items st = Ok (push_all st cands) ∧
    ∀ p, p ∈ sides <$> cands ↔ ∃ item, item ∈ items ∧ ref_pair r item p.
Proof.
  intros (m & Hm & Hwm & Hom) Hmode. revert item_index st. induction items as [|item items IH]; intros item_index st Hov; cbn [match_items].
  { exists []. split; [done|]. intros p. cbn. split; [by intros ?%elem_of_nil|]. by intros (i & ?%elem_of_nil & _). }
  assert (H : ∃ cs, (match om with
      | Some matcher =>
          '(matched, rhs) ← matches_lhs matcher item;
          Ok (if matched : bool then push_unique calculate_hash st (mkMapping (Some item_index) (SFullName (full_ref_name item)) rhs spec_index) else st)
      | None => Ok st end) = @Ok Empty_set _ (push_all st cs) ∧ ∀ p, p ∈ sides <$> cs ↔ ref_pair r item p).
  { destruct Hom as [[[id Hid] ->]|[Hno ->]].
    - exists []. split; [done|]. intros p. cbn. split; [by intros ?%elem_of_nil|]. intros (_ & m' & v & Hm' & Hno & _).
      assert (m' = m) as -> by congruence. by destruct (Hno id).
    - destruct (matches_total m item) as (b & v & Hbv); [done|by apply Hov; [|left]|]. rewrite Hbv, bind_Ok.
      exists (if b then [mkMapping (Some item_index) (SFullName (full_ref_name item)) v spec_index] else []). split; [by destruct b|].
      intros p. split.
      + destruct b; [|by intros ?%elem_of_nil]. cbn. intros ->%list_elem_of_singleton. split; [done|]. by exists m, v.
      + intros (_ & m' & v' & Hm' & _ & Hmv & ->). assert (m' = m) as -> by congruence.
        rewrite Hbv in Hmv. simplify_eq. cbn. by apply list_elem_of_singleton. }
  destruct H as (cs & -> & Hcs). rewrite bind_Ok. destruct (IH (S item_index) (push_all st cs)) as (cands & -> & Hp).
  { intros m' i Hm' Hi. apply Hov; [done|by right]. }
  exists (cs ++ cands). rewrite foldl_app. split; [done|]. intros p. rewrite fmap_app, elem_of_app, Hcs, Hp. setoid_rewrite elem_of_cons. split.
  - intros [?|(i & ? & ?)]; [by exists item; auto|exists i; auto].
  - intros (i & [-> |?] & ?); [by left|right; eauto].
Qed.

Lemma match_specs_ok specs ms items spec_index st has_negation :
  Forall2 matcher_of specs ms →
  (∀ r m item, r ∈ specs → matcher_from r = Ok m → item ∈ items → no_overlap m (full_ref_name item)) →
  ∃ cands, match_specs calculate_hash spec_index (zip specs ms) items st has_negation =
      Ok (push_all st cands, has_negation || existsb (λ r, bool_decide (mode r = Negative)) specs) ∧
    ∀ p, p ∈ sides <$> cands ↔ ∃ r item, r ∈ specs ∧ item ∈ items ∧ ref_pair r item p.
Proof.
  intros Hms. revert spec_index st has_negation. induction Hms as [|r om specs ms Hom Hms IH]; intros spec_index st has_negation Hov; cbn [match_specs zip zip_with existsb].
  { exists []. rewrite orb_false_r. split; [done|]. intros p. cbn. split; [by intros ?%elem_of_nil|]. by intros (r & i & ?%elem_of_nil & _). }
  assert (Hov' : ∀ r m item, r ∈ specs → matcher_from r = Ok m → item ∈ items → no_overlap m (full_ref_name item)).
  { intros r' m i Hr'. apply Hov. by right. }
  destruct (decide (mode r = Negative)) as [Hn|Hn].
  - rewrite !bool_decide_eq_true_2 by done. destruct (IH (S spec_index) st true Hov') as (cands & -> & Hp). exists cands.
    rewrite orb_true_r. split; [done|]. intros p. rewrite Hp. setoid_rewrite elem_of_cons. split.
    + intros (r' & i & ? & ?). exists r', i. auto.
    + intros (r' & i & [-> |?] & Hi & Hp'); [by destruct Hp' as [? _]|]. eauto.
  - rewrite !bool_decide_eq_false_2 by done. cbn [orb].
    destruct (match_items_ok r om items spec_index 0 st Hom Hn) as (cs & -> & Hcs); [intros m i Hm Hi; eapply Hov; [by left|done|done]|].
    rewrite bind_Ok. destruct (IH (S spec_index) (push_all st cs) has_negation Hov') as (cands & -> & Hp). exists (cs ++ cands).
    rewrite foldl_app. split; [done|]. intros p. rewrite fmap_app, elem_of_app, Hcs, Hp. setoid_rewrite elem_of_cons. split.
    + intros [(i & ? & ?)|(r' & i & ? & ?)]; [by exists r, i; auto|exists r', i; auto].
    + intros (r' & i & [-> |?] & ? & ?); [left; eauto|right; eauto].
Qed.

Lemma retain_ok {A} (f : A → res Empty_set bool) l :
  (∀ x, x ∈ l → ∃ b, f x = Ok b) →
  ∃ l', retain f l = Ok l' ∧ l' `sublist_of` l ∧ ∀ x, x ∈ l' ↔ x ∈ l ∧ f x = Ok true.
Proof.
  induction l as [|x l IH]; intros Hf; cbn [retain]; [exists []; split_and!; [done|done|set_solver]|].
  destruct (Hf x) as [b Hb]; [by left|]. destruct IH as (l' & -> & Hsub & Hin); [intros y Hy; apply Hf; by right|].
  rewrite Hb, !bind_Ok. exists (if b then x :: l' else l'). split_and!; [done|by destruct b; constructor|].
  intros y. destruct b; rewrite ?elem_of_cons, Hin; split; try naive_solver.
  intros [[-> |?] ?]; [congruence|done].
Qed.
(** An exclusion has a matcher without a destination. *)
Lemma negative_matcher r om :
  wf_spec date_parse r → mode r = Negative → matcher_of r om → ∃ m, matcher_from r = Ok m ∧ om = Some m ∧ wf_matcher m ∧ m_rhs m = None.
Proof.
  intros Hwf Hn (m & Hm & Hwm & Hom). exists m. unfold wf_spec in Hwf. rewrite Hn in Hwf.
  destruct Hwf as (_ & Hd & s & Hs & [Hstar _] & _ & Hfull).
  assert (Hneedle : ∃ n, needle_from s = Ok n ∧ ∀ id, n ≠ NObject id).
  { unfold needle_from. rewrite find_byte_none by done. destruct (starts_with s REFS) eqn:Hst; [by eexists|].
    destruct Hfull as [| ->]; [done|]. by eexists. }
  destruct Hneedle as (n & Hn' & Hno). unfold matcher_from, needle_opt in Hm. rewrite Hs, Hd, Hn' in Hm. cbn in Hm. injection Hm as Hm.
  rewrite <- Hm in *. split_and!; [unfold matcher_from, needle_opt; by rewrite Hs, Hd, Hn'| |done|done].
  destruct Hom as [[[id Hid] _]|[_ ->]]; [|done]. cbn in Hid. destruct (Hno id). congruence.
Qed.
Lemma excluded_cons r specs p : excluded (r :: specs) p ↔ excluded [r] p ∨ excluded specs p.
Proof.
  unfold excluded. split.
  - intros (r' & name & m & v & [Hr|Hr]%elem_of_cons & H); [left|right]; exists r', name, m, v; [|done]. split; [|done]. rewrite Hr. by left.
  - intros [(r' & name & m & v & Hr & H)|(r' & name & m & v & Hr & H)]; exists r', name, m, v; (split; [|done]); [|by right].
    apply list_elem_of_singleton in Hr as ->. by left.
Qed.
Lemma exclude_ok specs ms out :
  (∀ r, r ∈ specs → wf_spec date_parse r) → Forall2 matcher_of specs ms →
  ∃ out', exclude (zip ms specs) (null KSha1) out = Ok out' ∧ out' `sublist_of` out ∧
    ∀ x, x ∈ out' ↔ x ∈ out ∧ ¬ excluded specs (sides x).
Proof.
  intros Hwf Hms. revert out. induction Hms as [|r om specs ms Hom Hms IH]; intros out; cbn [exclude zip zip_with].
  { exists out. split_and!; [done|done|]. intros x. split; [intros Hx; split; [done|]|by intros [? _]]. by intros (r & n & m & v & ?%elem_of_nil & _). }
  assert (H : ∃ o, (match om with
      | Some matcher => if bool_decide (mode r = Negative) then retain (not_excluded matcher (null KSha1)) out else Ok out
      | None => Ok out end) = @Ok Empty_set _ o ∧ o `sublist_of` out ∧ ∀ x, x ∈ o ↔ x ∈ out ∧ ¬ excluded [r] (sides x)).
  { destruct (decide (mode r = Negative)) as [Hn|Hn].
    - destruct (negative_matcher r om) as (m & Hm & -> & Hwm & Hr); [by apply Hwf; left|done|done|]. rewrite bool_decide_eq_true_2 by done.
      destruct (retain_ok (not_excluded m (null KSha1)) out) as (o & Ho & Hsub & Hin).
      { intros x _. unfold not_excluded. destruct (lhs x) as [name|id]; [|by eexists].
        destruct (matches_source_total m (mkItem name (as_slice (null KSha1)) None) Hwm Hr) as (b & v & ->). by eexists. }
      exists o. split_and!; [done|done|]. intros x. rewrite Hin. unfold not_excluded, excluded. split; (intros [Hx H]; split; [done|]).
      + intros (r' & name & m' & v & ->%list_elem_of_singleton & _ & Hl & Hm' & Hmatch). cbn in Hl. rewrite Hl in H.
        assert (m' = m) as -> by congruence. cbn [as_slice null] in H. by rewrite Hmatch in H.
      + destruct (lhs x) as [name|id] eqn:Hl; [|done].
        destruct (matches_source_total m (mkItem name (as_slice (null KSha1)) None) Hwm Hr) as (b & v & Hbv). rewrite Hbv. cbn. destruct b; [|done].
        destruct H. exists r, name, m, v. split_and!; [by apply list_elem_of_singleton|done|done|done|done].
    - rewrite bool_decide_eq_false_2 by done. exists out. split_and!; [by destruct om|done|]. intros x. split; [|by intros [? _]].
      intros Hx. split; [done|]. intros (r' & name & m & v & ->%list_elem_of_singleton & Hn' & _). done. }
  destruct H as (o & -> & Hsub & Ho). rewrite bind_Ok.
  destruct (IH (λ r' Hr', Hwf r' (list_elem_of_further _ _ _ Hr')) o) as (out' & -> & Hsub' & Hout').
  exists out'. split_and!; [done|by etrans|]. intros x. rewrite Hout', Ho, (excluded_cons r specs). tauto.
Qed.

(** C17: Matching a remote's references: for well-formed specs and references in
    which no pattern's ends overlap, matching does not panic, and, as long as
    the 64-bit hashes of different mappings differ, its result has each mapping
    once and consists of exactly the objects that specs name and the references
    that specs match, mapped as the matcher says, without the references that an
    exclusion matches, wherever in the group it stands. *)
Theorem match_remotes_correct specs items :
  (∀ r, r ∈ specs → wf_spec date_parse r) →
  (∀ r m item, r ∈ specs → matcher_from r = Ok m → item ∈ items → no_overlap m (full_ref_name item)) →
  (∀ item, item ∈ items → length (target item) = 20%nat) →
  (∀ p q, candidate specs items p → candidate specs items q → hash_of calculate_hash p = hash_of calculate_hash q → p = q) →
  ∃ out, match_remotes calculate_hash specs items = Ok (mkOutcome specs out) ∧ NoDup (sides <$> out) ∧
    ∀ p, p ∈ sides <$> out ↔ candidate specs items p ∧ ¬ excluded specs p.
Proof.
  intros Hwf Hov Htarget Hinj. unfold match_remotes.
  destruct (build_matchers_ok specs 0 (∅, []) Hwf) as (ms & c1 & -> & Hms & Hc1). rewrite bind_Ok.
  destruct (match_specs_ok specs ms items 0 (push_all (∅, []) c1) false Hms Hov) as (c2 & -> & Hc2). rewrite bind_Ok. rewrite <- foldl_app.
  assert (H0 : pushed_ok calculate_hash (∅, [])) by (split; [intros h; cbn; set_solver|constructor]).
  set (st := push_all (∅, []) (c1 ++ c2)).
  assert (Hst : pushed_ok calculate_hash st) by by apply push_all_ok.
  assert (Hcand : ∀ p, p ∈ sides <$> (c1 ++ c2) ↔ candidate specs items p).
  { intros p. rewrite fmap_app, elem_of_app, Hc1, Hc2. done. }
  assert (Hin : ∀ p, p ∈ sides <$> st.2 ↔ candidate specs items p).
  { intros p. unfold st. rewrite push_all_sides; [rewrite Hcand; cbn; rewrite elem_of_nil; tauto|done|].
    cbn. intros q q'. rewrite !Hcand, !elem_of_nil. intros [[]|?] [[]|?]. auto. }
  assert (Hnd : NoDup (sides <$> st.2)) by (destruct Hst as [_ Hst]; by eapply NoDup_fmap_1).
  cbn [orb]. destruct (existsb _ specs) eqn:Hneg.
  - destruct items as [|item items].
    + rewrite !bind_Ok. exists st.2. split_and!; [done|done|]. intros p. rewrite Hin. split; [|by intros [? _]]. intros Hp. split; [done|].
      intros (r & name & m & v & _ & _ & Hl & _). destruct Hp as [(r' & _ & m' & id & _ & _ & Hl' & _)|(r' & i & _ & ?%elem_of_nil & _)]; [congruence|done].
    + unfold oid_kind. rewrite Htarget by by left. cbn [from_len_in_bytes Nat.eqb]. rewrite !bind_Ok.
      destruct (exclude_ok specs ms st.2 Hwf Hms) as (out & -> & Hsub & Hout). exists out. split_and!; [done| |].
      * eapply sublist_NoDup; [exact Hnd|]. by apply fmap_sublist.
      * intros p. rewrite <- Hin. rewrite !list_elem_of_fmap. setoid_rewrite Hout. naive_solver.
  - rewrite !bind_Ok. exists st.2. split_and!; [done|done|]. intros p. rewrite Hin. split; [|by intros [? _]]. intros Hp. split; [done|].
    intros (r & name & m & v & Hr & Hn & _). apply not_true_iff_false in Hneg. apply Hneg. apply existsb_exists. exists r.
    split; [by apply list_elem_of_In|]. by apply bool_decide_eq_true.
Qed.
End Remotes.

(** ** Validation *)

Section Validate.
Context {BS : bstr.Api} {HX : faster_hex.Api}.

(** Two sources would be written to the same destination. *)
Definition conflict (l : list Mapping) (dst : bytes) : Prop :=
  ∃ m m', m ∈ l ∧ m' ∈ l ∧ rhs m = Some dst ∧ rhs m' = Some dst ∧ lhs m ≠ lhs m'.

(** The entries of a destination, in the order of the mappings. *)
Definition add_entry (v : list (nat * SourceRef)) (m : Mapping) : list (nat * SourceRef) :=
  if existsb (λ s, bool_decide (s.2 = lhs m)) v then v else v ++ [(spec_index m, lhs m)].
Definition sources_of (dst : bytes) (l : list Mapping) : list (nat * SourceRef) :=
  foldl add_entry [] (filter (λ m, rhs m = Some dst) l).

Lemma existsb_source v src : existsb (λ s : nat * SourceRef, bool_decide (s.2 = src)) v = bool_decide (src ∈ v.*2).
Proof.
  apply eq_true_iff_eq. rewrite existsb_exists, bool_decide_eq_true, list_elem_of_fmap. setoid_rewrite bool_decide_eq_true.
  setoid_rewrite <- list_elem_of_In. naive_solver.
Qed.
Lemma add_entry_spec v m :
  NoDup v.*2 → NoDup (add_entry v m).*2 ∧ (∀ s, s ∈ (add_entry v m).*2 ↔ s ∈ v.*2 ∨ s = lhs m) ∧
  (∀ e, e ∈ add_entry v m → e ∈ v ∨ e = (spec_index m, lhs m)).
Proof.
  intros Hv. unfold add_entry. rewrite existsb_source. case_bool_decide as Hin; [split_and!; [done|naive_solver|auto]|].
  rewrite fmap_app. cbn. split_and!.
  - apply NoDup_app. split_and!; [done| |apply NoDup_singleton]. intros s Hs ->%list_elem_of_singleton. done.
  - intros s. by rewrite elem_of_app, list_elem_of_singleton.
  - intros e. by rewrite elem_of_app, list_elem_of_singleton.
Qed.
Lemma sources_of_snoc dst l m :
  sources_of dst (l ++ [m]) = if decide (rhs m = Some dst) then add_entry (sources_of dst l) m else sources_of dst l.
Proof.
  unfold sources_of. rewrite filter_app, foldl_app. case_decide as Hd.
  - by rewrite filter_cons_True.
  - by rewrite filter_cons_False.
Qed.
Lemma sources_of_spec dst l :
  NoDup (sources_of dst l).*2 ∧ (∀ s, s ∈ (sources_of dst l).*2 ↔ ∃ m, m ∈ l ∧ rhs m = Some dst ∧ lhs m = s) ∧
  (∀ e, e ∈ sources_of dst l → ∃ m, m ∈ l ∧ e = (spec_index m, lhs m)).
Proof.
  induction l as [|m l IH] using rev_ind.
  { split_and!; [constructor| |]; cbn; [|by intros e ?%elem_of_nil]. intros s. split; [by intros ?%elem_of_nil|]. by intros (m & ?%elem_of_nil & _). }
  destruct IH as (Hn & Hs & He). rewrite sources_of_snoc. setoid_rewrite elem_of_app. setoid_rewrite list_elem_of_singleton. case_decide as Hd.
  - destruct (add_entry_spec (sources_of dst l) m Hn) as (Hn' & Hs' & He'). split_and!; [done| |].
    + intros s. rewrite Hs', Hs. naive_solver.
    + intros e [H| ->]%He'; [destruct (He e H) as (m' & ? & ?); eauto|eauto].
  - split_and!; [done| |].
    + intros s. rewrite Hs. naive_solver.
    + intros e H%He. naive_solver.
Qed.
Lemma long_conflict dst l : (1 < length (sources_of dst l))%nat ↔ conflict l dst.
Proof.
  destruct (sources_of_spec dst l) as (Hn & Hs & _). rewrite <- (length_fmap snd). split.
  - destruct ((sources_of dst l).*2) as [|a [|b v]]; cbn; [lia..|]. intros _.
    destruct (proj1 (Hs a)) as (m & Hm & Hr & Ha); [by left|]. destruct (proj1 (Hs b)) as (m' & Hm' & Hr' & Hb); [by right; left|].
    exists m, m'. split_and!; [done..|]. apply NoDup_cons in Hn as [Hn _]. rewrite Ha, Hb. intros ->. apply Hn. by left.
  - intros (m & m' & Hm & Hm' & Hr & Hr' & Hne).
    assert (H1 : lhs m ∈ (sources_of dst l).*2) by (apply Hs; eauto). assert (H2 : lhs m' ∈ (sources_of dst l).*2) by (apply Hs; eauto).
    destruct ((sources_of dst l).*2) as [|a [|b v]]; [by apply elem_of_nil in H1| |cbn; lia].
    apply list_elem_of_singleton in H1, H2. congruence.
Qed.

(** The map of destinations: ascending keys, each with its entries. *)
Definition ascending (m : destinations) : Prop := StronglySorted bytes_lt m.*1.
Definition entry_add (v : list (nat * SourceRef)) (i : nat) (src : SourceRef) : list (nat * SourceRef) :=
  if existsb (λ s, bool_decide (s.2 = src)) v then v else v ++ [(i, src)].
Fixpoint get (k : bytes) (m : destinations) : option (list (nat * SourceRef)) :=
  match m with [] => None | (k', v) :: m => if decide (k = k') then Some v else get k m end.
Lemma get_elem k v m : ascending m → (k, v) ∈ m ↔ get k m = Some v.
Proof.
  unfold ascending. induction m as [|[k' v'] m IH]; cbn [get]; intros Hs; [by rewrite elem_of_nil|].
  apply StronglySorted_cons in Hs as [Hlt Hs]. cbn in Hlt. rewrite elem_of_cons, IH by done. case_decide as Hk; [subst k'|naive_solver].
  split; [|naive_solver]. intros [?|Hin]; [naive_solver|]. rewrite <- IH in Hin by done.
  eapply Forall_forall in Hlt; [by apply bytes_lt_irrefl in Hlt|]. apply list_elem_of_fmap. by exists (k, v).
Qed.
Lemma get_above k m : Forall (bytes_lt k) m.*1 → get k m = None.
Proof.
  induction m as [|[k' v] m IH]; cbn; [done|]. intros [Hk Hm]%Forall_cons. case_decide as He; [|auto]. subst. by apply bytes_lt_irrefl in Hk.
Qed.
Lemma add_source_keys dst i src m : ∀ k, k ∈ (add_source dst i src m).*1 ↔ k = dst ∨ k ∈ m.*1.
Proof.
  intros k. induction m as [|[k' v] m IH]; cbn; [by rewrite list_elem_of_singleton, elem_of_nil; tauto|].
  destruct (bytes_cmp dst k') eqn:Hc; cbn; rewrite !elem_of_cons.
  - apply bytes_cmp_eq in Hc as ->. tauto.
  - tauto.
  - rewrite IH. tauto.
Qed.
Lemma add_source_spec dst i src m :
  ascending m → ascending (add_source dst i src m) ∧
    ∀ k, get k (add_source dst i src m) = if decide (k = dst) then Some (entry_add (default [] (get dst m)) i src) else get k m.
Proof.
  unfold ascending. induction m as [|[k' v] m IH]; cbn [add_source]; intros Hs.
  { split; [repeat constructor|]. intros k. cbn [get]. case_decide; done. }
  pose proof Hs as [Hlt Hs']%StronglySorted_cons. cbn in Hlt. destruct (bytes_cmp dst k') eqn:Hc; cbn [fmap list_fmap fst].
  - apply bytes_cmp_eq in Hc as ->. split; [done|]. intros k. cbn [get]. destruct (decide (k' = k')); [|done]. cbn [default]. by case_decide.
  - split; [|].
    + constructor; [done|]. constructor; [done|]. eapply Forall_impl; [exact Hlt|]. intros x Hx. by etrans.
    + intros k. cbn [get]. case_decide as Hk; [|done]. assert (Hd : get dst ((k', v) :: m) = None).
      { apply get_above. constructor; [done|]. eapply Forall_impl; [exact Hlt|]. intros x Hx. by etrans. }
      cbn [get] in Hd. by rewrite Hd.
  - apply bytes_cmp_gt in Hc. destruct (IH Hs') as [Ha Hg]. split.
    + constructor; [done|]. apply Forall_forall. intros k [-> |Hk]%add_source_keys; [done|]. by eapply Forall_forall in Hlt.
    + intros k. cbn [get]. rewrite Hg. destruct (decide (dst = k')) as [->|]; [by apply bytes_lt_irrefl in Hc|].
      destruct (decide (k = k')) as [->|]; [|done]. by rewrite decide_False by congruence.
Qed.
Lemma destinations_spec l :
  ascending (collect_destinations l) ∧
  ∀ k, get k (collect_destinations l) = if decide (sources_of k l = []) then None else Some (sources_of k l).
Proof.
  induction l as [|m l IH] using rev_ind; [split; [constructor|by intros k; cbn]|]. destruct IH as [Ha Hg].
  unfold collect_destinations. rewrite foldl_app. cbn [foldl]. fold (collect_destinations l). destruct (rhs m) as [dst|] eqn:Hr.
  - destruct (add_source_spec dst (spec_index m) (lhs m) (collect_destinations l) Ha) as [Ha' Hg']. split; [done|]. intros k.
    rewrite Hg', sources_of_snoc, Hr. destruct (decide (k = dst)) as [->|Hk].
    + rewrite (decide_True (P := Some dst = Some dst)) by done. assert (Hd : default [] (get dst (collect_destinations l)) = sources_of dst l).
      { rewrite Hg. by case_decide. }
      rewrite Hd. change (entry_add (sources_of dst l) (spec_index m) (lhs m)) with (add_entry (sources_of dst l) m).
      rewrite decide_False; [done|]. unfold add_entry. destruct (existsb _ _) eqn:He; [by intros Hn; rewrite Hn in He|by destruct (sources_of dst l)].
    + rewrite (decide_False (P := Some dst = Some k)) by congruence. apply Hg.
  - split; [done|]. intros k. rewrite sources_of_snoc, Hr, (decide_False (P := None = Some k)) by done. apply Hg.
Qed.
Lemma collect_elem l k v : (k, v) ∈ collect_destinations l ↔ v = sources_of k l ∧ v ≠ [].
Proof.
  destruct (destinations_spec l) as [Ha Hg]. rewrite get_elem, Hg by done. case_decide; naive_solver.
Qed.

Lemma StronglySorted_sublist {A} (R : A → A → Prop) l l' : StronglySorted R l → l' `sublist_of` l → StronglySorted R l'.
Proof.
  intros Hl Hsub. induction Hsub as [|x l1 l2 Hsub IH|x l1 l2 Hsub IH]; [done| |]; apply StronglySorted_cons in Hl as [Hx Hl]; [|auto].
  constructor; [auto|]. apply Forall_forall. intros y Hy. eapply Forall_forall in Hx; [exact Hx|]. by eapply elem_of_sublist.
Qed.

(** The issues of the conflicting destinations. *)
Definition issue_dst (i : Issue) : bytes := let 'Conflict d _ _ := i in d.
Lemma mapM_res_total {E A B} (f : A → res E B) l :
  (∀ x, x ∈ l → ∃ y, f x = Ok y) → ∃ ys, mapM_res f l = Ok ys ∧ Forall2 (λ x y, f x = Ok y) l ys.
Proof.
  induction l as [|x l IH]; intros Hf; cbn [mapM_res]; [exists []; split; [done|constructor]|].
  destruct (Hf x) as [y Hy]; [by left|]. destruct IH as (ys & Hys & Hall); [intros z Hz; apply Hf; by right|].
  exists (y :: ys). rewrite Hy, bind_Ok, Hys, bind_Ok. split; [done|by constructor].
Qed.
Definition keeps_mapping (m : Mapping) : bool := match rhs m with Some d => keep_full d | None => true end.
Lemma fix_partial_ok specs l :
  (∀ m, m ∈ l → ∃ s, specs !! spec_index m = Some s) →
  ∃ fixes, fix_partial specs l = Ok (filter (λ m, keeps_mapping m = true) l, fixes) ∧
    ∀ d s, MappingWithPartialDestinationRemoved d s ∈ fixes ↔
      ∃ m, m ∈ l ∧ rhs m = Some d ∧ keep_full d = false ∧ specs !! spec_index m = Some s.
Proof.
  induction l as [|m l IH]; intros Hs; cbn [fix_partial].
  { exists []. split; [done|]. intros d s. split; [by intros ?%elem_of_nil|]. by intros (m & ?%elem_of_nil & _). }
  destruct IH as (fixes & Hf & Hfix); [intros m' Hm'; apply Hs; by right|]. destruct (Hs m) as [s Hm]; [by left|].
  destruct (rhs m) as [d|] eqn:Hr; [destruct (keep_full d) eqn:Hk|]; rewrite ?Hm; cbn [expect]; rewrite ?bind_Ok, Hf, bind_Ok.
  - rewrite filter_cons_True by (unfold keeps_mapping; by rewrite Hr). exists fixes. split; [done|]. intros d' s'. rewrite Hfix.
    setoid_rewrite elem_of_cons. split; [intros (m' & ? & ?); eauto|]. intros (m' & [-> |?] & Hd' & Hk' & ?); [congruence|eauto].
  - rewrite filter_cons_False by (unfold keeps_mapping; rewrite Hr, Hk; done). exists (MappingWithPartialDestinationRemoved d s :: fixes).
    split; [done|]. intros d' s'. rewrite elem_of_cons, Hfix. setoid_rewrite elem_of_cons. split.
    + intros [[= -> ->]|(m' & ? & ?)]; [exists m; auto|eauto].
    + intros (m' & [-> |?] & Hd' & Hk' & Hs'); [left; congruence|right; eauto].
  - rewrite filter_cons_True by (unfold keeps_mapping; by rewrite Hr). exists fixes. split; [done|]. intros d' s'. rewrite Hfix.
    setoid_rewrite elem_of_cons. split; [intros (m' & ? & ?); eauto|]. intros (m' & [-> |?] & Hd' & Hk' & ?); [congruence|eauto].
Qed.

(** The mappings to a destination, each source once: where it comes first. *)
Fixpoint first_mappings (dst : bytes) (seen : list SourceRef) (l : list Mapping) : list Mapping :=
  match l with
  | [] => []
  | m :: l =>
      if decide (rhs m = Some dst ∧ lhs m ∉ seen) then m :: first_mappings dst (lhs m :: seen) l
      else first_mappings dst seen l
  end.
Lemma first_mappings_snoc dst seen l m :
  first_mappings dst seen (l ++ [m]) = first_mappings dst seen l ++
    (if decide (rhs m = Some dst ∧ lhs m ∉ seen ∧ lhs m ∉ lhs <$> first_mappings dst seen l) then [m] else []).
Proof.
  revert seen. induction l as [|m' l IH]; intros seen; cbn [app first_mappings].
  - cbn. repeat case_decide; try done; exfalso; rewrite ?elem_of_nil in *; tauto.
  - destruct (decide (rhs m' = Some dst ∧ lhs m' ∉ seen)) as [H|H]; rewrite IH; [|done]. cbn [app fmap list_fmap]. f_equal. f_equal.
    repeat case_decide; try done; exfalso; rewrite ?elem_of_cons in *; tauto.
Qed.
Lemma sources_first dst l : sources_of dst l = (λ m, (spec_index m, lhs m)) <$> first_mappings dst [] l.
Proof.
  induction l as [|m l IH] using rev_ind; [done|]. rewrite sources_of_snoc, first_mappings_snoc, IH, fmap_app.
  unfold add_entry. rewrite existsb_source, <- list_fmap_compose.
  change (snd ∘ (λ m, (spec_index m, lhs m))) with lhs.
  case_decide as Hr; [case_bool_decide|]; case_decide; rewrite ?app_nil_r; try done; exfalso; rewrite ?elem_of_nil in *; tauto.
Qed.
(** A full name. *)
Definition is_full (d : bytes) : bool := bool_decide (take 5 d = bs "refs/") || bool_decide (d = bs "HEAD").
Lemma keep_full_is d : keep_full d = is_full d.
Proof.
  unfold keep_full, is_full. f_equal. apply eq_true_iff_eq. rewrite starts_with_spec, bool_decide_eq_true. split.
  - by intros [r ->].
  - intros H. exists (drop 5 d). rewrite <- (take_drop 5 d) at 1. by rewrite H.
Qed.
Definition full_or_none (m : Mapping) : bool := match rhs m with Some d => is_full d | None => true end.

(** C21: Validation reports exactly the conflicts: for mappings whose specs can
    be written it does not panic; it fails if and only if two sources would be
    written to one destination, with one issue per such destination, in
    ascending order, that lists every source of it once, in the order in which
    the mappings have them first, each with the text of the spec of that first
    mapping; otherwise it keeps the mappings in order without those whose
    destination is neither [HEAD] nor starts with [refs/], and reports each of
    these as fixed. *)
Theorem validated_reports_conflicts o :
  (∀ m, m ∈ mappings o → ∃ s t, group o !! spec_index m = Some s ∧ to_bstring s = Ok t) →
  match outcome_validated o with
  | Ok (o', fixes) =>
      (∀ dst, ¬ conflict (mappings o) dst) ∧ group o' = group o ∧
      mappings o' = filter (λ m, full_or_none m = true) (mappings o) ∧
      ∀ d s, MappingWithPartialDestinationRemoved d s ∈ fixes ↔
        ∃ m, m ∈ mappings o ∧ rhs m = Some d ∧ is_full d = false ∧ group o !! spec_index m = Some s
  | Err issues =>
      issues ≠ [] ∧ StronglySorted bytes_lt (issue_dst <$> issues) ∧
      (∀ dst, dst ∈ issue_dst <$> issues ↔ conflict (mappings o) dst) ∧
      ∀ dst sources specs, Conflict dst sources specs ∈ issues →
        NoDup sources ∧ (∀ s, s ∈ sources ↔ ∃ m, m ∈ mappings o ∧ rhs m = Some dst ∧ lhs m = s) ∧
        sources = lhs <$> first_mappings dst [] (mappings o) ∧
        Forall2 (λ m t, ∃ s, group o !! spec_index m = Some s ∧ to_bstring s = Ok t) (first_mappings dst [] (mappings o)) specs
  | Panic => False
  end.
Proof.
  intros Hspec. unfold outcome_validated. set (l := mappings o) in *. set (cs := filter _ (collect_destinations l)).
  assert (Hcs : ∀ k v, (k, v) ∈ cs ↔ v = sources_of k l ∧ conflict l k).
  { intros k v. unfold cs. rewrite list_elem_of_filter, collect_elem. cbn. split.
    - intros (Hl & -> & _). split; [done|]. by apply long_conflict.
    - intros (-> & Hc). apply long_conflict in Hc. split_and!; [done|done|]. by destruct (sources_of k l); [cbn in Hc; lia|]. }
  assert (Hsorted : StronglySorted bytes_lt cs.*1).
  { destruct (destinations_spec l) as [Ha _]. eapply StronglySorted_sublist; [exact Ha|]. apply fmap_sublist, sublist_filter. }
  assert (Hissue : ∀ c, c ∈ cs → ∃ texts, issue_of (group o) c = Ok (Conflict c.1 (c.2).*2 texts) ∧
      Forall2 (λ e t, ∃ s, group o !! e.1 = Some s ∧ to_bstring s = Ok t) c.2 texts).
  { intros [k v] [-> _]%Hcs. unfold issue_of. cbn [fst snd]. destruct (sources_of_spec k l) as (_ & _ & He).
    destruct (mapM_res_total (E := Empty_set) (λ '(spec_idx, _), s ← expect (group o !! spec_idx); to_bstring s) (sources_of k l)) as (texts & -> & Ht).
    - intros [i src] Hin. destruct (He _ Hin) as (m & Hm & [= -> ->]). destruct (Hspec m Hm) as (s & t & Hs & Hst). exists t. by rewrite Hs.
    - exists texts. split; [done|]. eapply Forall2_impl; [exact Ht|]. intros [i src] t. cbn.
      destruct (group o !! i) as [s|]; cbn; [|done]. intros H. by exists s. }
  destruct (mapM_res_total (E := Empty_set) (issue_of (group o)) cs) as (issues & -> & Hall).
  { intros c Hc. destruct (Hissue c Hc) as (texts & -> & _). by eexists. }
  cbn [lift]. rewrite bind_Ok.
  assert (Hdst : issue_dst <$> issues = cs.*1).
  { clear -Hall. induction Hall as [|[k v] i cs issues Hi _ IH]; [done|]. cbn. rewrite IH. f_equal.
    unfold issue_of in Hi. destruct (mapM_res _ _); cbn in Hi; [|done..]. by injection Hi as <-. }
  case_bool_decide as Hne.
  - split_and!; [done|by rewrite Hdst| |].
    + intros dst. rewrite Hdst, list_elem_of_fmap. split; [intros ([k v] & -> & [_ H]%Hcs); done|].
      intros Hc. exists (dst, sources_of dst l). split; [done|]. by apply Hcs.
    + intros dst sources specs Hin. apply list_elem_of_lookup_1 in Hin as [i Hi]. destruct (Forall2_lookup_r _ _ _ _ _ Hall Hi) as ([k v] & Hc & Hi''). clear Hi. rename Hi'' into Hi.
      apply list_elem_of_lookup_2 in Hc. destruct (Hissue _ Hc) as (texts & Hi' & Ht). apply Hcs in Hc as [-> _].
      rewrite Hi in Hi'. injection Hi' as -> -> ->. destruct (sources_of_spec k l) as (Hn & Hs & _).
      split; [done|]. split; [done|]. rewrite sources_first in Ht |- *. rewrite <- list_fmap_compose. split; [done|]. by apply Forall2_fmap_l in Ht.
  - destruct (fix_partial_ok (group o) l) as (fixes & -> & Hfix).
    { intros m Hm. destruct (Hspec m Hm) as (s & t & Hs & _). eauto. }
    cbn [lift]. rewrite bind_Ok. split_and!; [|done| |].
    2: { cbn [mappings]. apply list_filter_iff. intros m. unfold keeps_mapping, full_or_none. destruct (rhs m); [by rewrite keep_full_is|done]. }
    2: { intros d s. rewrite Hfix. by setoid_rewrite keep_full_is. }
    intros dst Hc. assert (issues = []) as -> by (by destruct issues). inversion Hall as [Hnil|]. 
    assert (Hin : (dst, sources_of dst l) ∈ cs) by by apply Hcs. rewrite <- Hnil in Hin. by apply elem_of_nil in Hin.
Qed.
End Validate.

(** ** The prefixes of a spec *)

Section Prefixes.
Context {BS : bstr.Api} {BSL : bstr.Laws} {HX : faster_hex.Api} {HXL : faster_hex.Laws}.

Lemma expand_prefixes_all l name out :
  (expand_partial_name l name (λ expanded out, (@None unit, out ++ [expanded])) out).2 = out ++ (expand name <$> l).
Proof.
  revert out. induction l as [|e l IH]; intros out; cbn; [by rewrite app_nil_r|]. by rewrite IH, <- app_assoc.
Qed.
Lemma expand_find l name f st :
  (expand_partial_name l name (λ expanded st, (if bool_decide (expanded = f) then Some NormalMatch else None, st)) (st : unit)).1 ≠ None →
  f ∈ expand name <$> l.
Proof.
  induction l as [|e l IH]; cbn; [done|]. rewrite elem_of_cons. case_bool_decide; [by left|]. intros Hx. right. by apply IH.
Qed.
Lemma prefix_fetch r s :
  op r = OpFetch → mode r ≠ Negative → src r = Some s → s ≠ HEAD →
  prefix r = Ok match strip_prefix s REFS with
    | None => None
    | Some suffix =>
        match bstr.find_byte suffix (ch "/") with
        | None => None
        | Some pos => let p := take (length REFS + pos + 1) s in if mem (ch "*") p then None else Some p
        end
    end.
Proof.
  intros Ho Hm Hs Hh. unfold prefix. rewrite Ho, bool_decide_eq_false_2 by done. unfold source. rewrite Hs, bool_decide_eq_false_2 by done.
  destruct (strip_prefix s REFS) as [suffix|] eqn:Hp; [|done]. apply strip_prefix_Some in Hp. rewrite bstr.find_byte_spec.
  destruct (find_index _ suffix) as [pos|] eqn:Hf; [|done]. apply find_index_Some in Hf as [(x & Hx & _) _]. apply lookup_lt_Some in Hx.
  rewrite slice_to_le, bind_Ok; [done|]. rewrite Hp, length_app. lia.
Qed.
Lemma starts_with_take f s n : take n f = take n s → (n ≤ length f)%nat → starts_with f (take n s) = true.
Proof. intros Ht _. apply starts_with_spec. exists (drop n f). rewrite <- Ht. symmetry. apply take_drop. Qed.
Lemma ok_inj {E A} (a b : A) : @Ok E A a = Ok b → a = b.
Proof. congruence. Qed.
(** What a matching name has in common with the source. *)
Lemma match_source s n item r :
  needle_from s = Ok n → needle_matches n item = Ok r → is_match r = true → (∀ id, n ≠ NObject id) →
  (∃ pos, bstr.find_byte s (ch "*") = Some pos ∧ starts_with (full_ref_name item) (take pos s) = true) ∨
  (bstr.find_byte s (ch "*") = None ∧ starts_with s REFS = true ∧ full_ref_name item = s) ∨
  (bstr.find_byte s (ch "*") = None ∧ starts_with s REFS = false ∧ (∃ e, from_hex s = Err e) ∧ full_ref_name item ∈ expand s <$> expansions).
Proof.
  intros Hn Hm Hr Hno. unfold needle_from in Hn. destruct (bstr.find_byte s (ch "*")) as [pos|] eqn:Hf.
  - injection Hn as <-. left. exists pos. split; [done|]. cbn [needle_matches] in Hm. unfold get_to in Hm.
    destruct (Nat.leb_spec pos (length (full_ref_name item))); [|by simplify_eq]. rewrite bstr.find_byte_spec in Hf.
    apply find_index_Some in Hf as [(x & Hx & _) _]. apply lookup_lt_Some in Hx. rewrite slice_to_le, bind_Ok in Hm by lia.
    case_bool_decide as He; [by simplify_eq|]. apply starts_with_take; [|done]. by destruct (decide (take pos (full_ref_name item) = take pos s)).
  - right. destruct (starts_with s REFS) eqn:Hs.
    + injection Hn as <-. left. cbn in Hm. injection Hm as <-. case_bool_decide as He; [|done]. done.
    + destruct (from_hex_cases s) as [(id & Hid & _)|(e & He)]; [rewrite Hid in Hn; injection Hn as <-; by destruct (Hno id)|].
      rewrite He in Hn. injection Hn as <-. right. split_and!; [done|done|eauto|]. cbn [needle_matches] in Hm. apply ok_inj in Hm as <-.
      apply (expand_find expansions s _ tt). intros Hnone. by rewrite Hnone in Hr.
Qed.

(** C22: The prefixes cover what a spec matches: the name of every reference that
    a fetch spec matches starts with one of the prefixes the server is asked
    for, if the spec is not [HEAD], not an object and, should it be a pattern,
    has a prefix at all; asking for them loses no reference. *)
Theorem prefixes_cover r s m item v :
  op r = OpFetch → mode r ≠ Negative → src r = Some s → s ≠ HEAD →
  (ch "*" ∈ s → prefix r ≠ Ok None) →
  matcher_from r = Ok m → (∀ id, m_lhs m ≠ Some (NObject id)) → matches_lhs m item = Ok (true, v) →
  ∃ ps p, expand_prefixes r [] = Ok ps ∧ p ∈ ps ∧ starts_with (full_ref_name item) p = true.
Proof.
  intros Ho Hneg Hs Hh Hstar Hm Hno Hmatch.
  unfold matcher_from, needle_opt in Hm. rewrite Hs in Hm. destruct (needle_from s) as [n|e|] eqn:Hn; [|done..]. rewrite !bind_Ok in Hm.
  apply bind_ok in Hm as (rh & _ & [= <-]). cbn in Hno.
  assert (Hr : ∃ q, needle_matches n item = Ok q ∧ is_match q = true).
  { unfold matches_lhs in Hmatch. cbn [m_lhs m_rhs] in Hmatch. destruct rh as [k|]; apply bind_ok in Hmatch as (q & Hq & Hq').
    - exists q. split; [done|]. destruct q; cbn in Hq' |- *; [congruence|done|done].
    - exists q. split; [done|]. congruence. }
  destruct Hr as (q & Hq & Hqm). assert (Hno' : ∀ id, n ≠ NObject id) by (intros id ->; by apply (Hno id)).
  pose proof (prefix_fetch r s Ho Hneg Hs Hh) as Hp. unfold expand_prefixes. rewrite Hp, bind_Ok in *. rewrite Ho. unfold source. rewrite Hs.
  assert (Hfind : bstr.find_byte s (ch "*") = None → ch "*" ∉ s).
  { rewrite bstr.find_byte_spec, find_index_None, Forall_forall. intros H Hin. specialize (H _ Hin). done. }
  destruct (strip_prefix s REFS) as [suffix|] eqn:Hst.
  - pose proof (strip_prefix_Some _ _ _ Hst) as Hsuf. destruct (match_source s n item q Hn Hq Hqm Hno') as [(pos & Hpos & Hf)|[(Hnone & _ & Hf)|(_ & Hnot & _)]].
    + assert (Hin : ch "*" ∈ s).
      { rewrite bstr.find_byte_spec in Hpos. apply find_index_Some in Hpos as [(x & Hx & <-%Z.eqb_eq) _]. by eapply list_elem_of_lookup_2. }
      specialize (Hstar Hin). destruct (bstr.find_byte suffix (ch "/")) as [sl|]; [|done]. cbv zeta in *.
      destruct (mem _ _) eqn:Hmem; [done|]. eexists _, _. split; [reflexivity|]. cbn [app]. rewrite list_elem_of_singleton. split; [reflexivity|].
      assert (Hle : (length REFS + sl + 1 ≤ pos)%nat).
      { destruct (decide (pos < length REFS + sl + 1)%nat) as [Hlt|]; [|lia]. apply not_true_iff_false in Hmem. destruct Hmem. apply mem_spec.
        rewrite bstr.find_byte_spec in Hpos. apply find_index_Some in Hpos as [(x & Hx & <-%Z.eqb_eq) _].
        eapply list_elem_of_lookup_2. by rewrite lookup_take_lt. }
      apply starts_with_spec in Hf as [k Hk]. apply starts_with_spec. rewrite Hk.
      exists (drop (length REFS + sl + 1) (take pos s) ++ k). rewrite app_assoc. f_equal.
      rewrite <- (take_drop (length REFS + sl + 1) (take pos s)) at 1. f_equal. rewrite take_take. f_equal. lia.
    + assert (Hnostar : ch "*" ∉ s) by auto. destruct (bstr.find_byte suffix (ch "/")) as [sl|] eqn:Hsl; cbv zeta.
      * replace (mem (ch "*") (take (length REFS + sl + 1) s)) with false.
        2: { symmetry. apply not_true_iff_false. rewrite mem_spec. intros Hin. apply Hnostar. by eapply elem_of_take in Hin as (? & ? & _); eapply list_elem_of_lookup_2. }
        eexists _, _. split; [reflexivity|]. cbn [app]. rewrite list_elem_of_singleton. split; [reflexivity|]. rewrite Hf. apply starts_with_spec.
        exists (drop (length REFS + sl + 1) s). symmetry. apply take_drop.
      * assert (mem (ch "/") suffix = false) as ->.
        { apply not_true_iff_false. rewrite mem_spec. intros Hin. rewrite bstr.find_byte_spec in Hsl.
          eapply find_index_None in Hsl. eapply Forall_forall in Hsl; [|exact Hin]. done. }
        cbn [negb app]. eexists _, s. split; [reflexivity|]. rewrite list_elem_of_singleton. split; [done|]. rewrite Hf. apply starts_with_spec.
        exists []. by rewrite app_nil_r.
    + unfold strip_prefix in Hst. by rewrite Hnot in Hst.
  - destruct (match_source s n item q Hn Hq Hqm Hno') as [(pos & Hpos & Hf)|[(_ & Hyes & _)|(_ & _ & [e He] & Hf)]].
    + destruct Hstar; [|done]. rewrite bstr.find_byte_spec in Hpos. apply find_index_Some in Hpos as [(x & Hx & <-%Z.eqb_eq) _]. by eapply list_elem_of_lookup_2.
    + unfold strip_prefix in Hst. by rewrite Hyes in Hst.
    + rewrite He. eexists _, _. split; [reflexivity|]. rewrite expand_prefixes_all. cbn [app]. split; [exact Hf|]. apply starts_with_spec. exists []. by rewrite app_nil_r.
Qed.
End Prefixes.

(** ** A pattern with overlapping ends *)

Lemma overlap_panics :
  parse (BS := bstr_impl) (HX := hex_impl) no_dates (bs "refs/heads/a*a:refs/remotes/a*a") OpFetch =
    Ok (mkRefSpec Normal OpFetch (Some (bs "refs/heads/a*a")) (Some (bs "refs/remotes/a*a"))) ∧
  match_remotes (BS := bstr_impl) (HX := hex_impl) (λ _ _, 0)
    [mkRefSpec Normal OpFetch (Some (bs "refs/heads/a*a")) (Some (bs "refs/remotes/a*a"))]
    [mkItem (bs "refs/heads/a") (replicate 20 1) None] = Panic.
Proof. split; vm_compute; reflexivity. Qed.

(** ** Witnesses *)

Section Witnesses.
#[local] Existing Instance bstr_impl.
#[local] Existing Instance hex_impl.
Definition head_item (name : bytes) : Item := mkItem (bs "refs/heads/" ++ name) (replicate 20 1) None.
Lemma glob_mapping_witness :
  ∃ m, matcher_from (BS := bstr_impl) (HX := hex_impl) sample_refspec = Ok m ∧
    matches_lhs (HX := hex_impl) m (head_item (bs "main")) = Ok (true, Some (bs "refs/remotes/origin/main")).
Proof.
  destruct (glob_mapping (BSL := bstr_impl_laws) (HX := hex_impl) (bs "refs/heads/") [] (bs "refs/remotes/origin/") [] sample_refspec (head_item (bs "main")))
    as (m & Hm & H & _); [vm_compute; reflexivity|vm_compute; reflexivity|by_decision|by_decision|].
  exists m. split; [exact Hm|]. apply (H (bs "main")). vm_compute. reflexivity.
Defined.

Definition not_b : RefSpecRef := mkRefSpec Negative OpFetch (Some (bs "refs/heads/b")) None.
Definition sample_specs : list RefSpecRef := [sample_refspec; not_b].
Definition sample_items : list Item := [head_item (bs "a"); head_item (bs "b")].
(** A hash that tells the sample apart. *)
Definition sample_hash (l : SourceRef) (_ : option bytes) : Z :=
  match l with SFullName n => default 0 (list.last n) | SObjectId _ => 0 end.
Lemma sample_specs_wf r : r ∈ sample_specs → wf_spec no_dates r.
Proof.
  unfold sample_specs. rewrite !elem_of_cons, elem_of_nil. intros [-> |[-> |[]]].
  - pose proof (parse_safe (BSL := bstr_impl_laws) (HXL := hex_impl_laws) no_dates (bs "+refs/heads/*:refs/remotes/origin/*") OpFetch) as H.
    vm_compute (parse _ _ _) in H. apply H.
  - pose proof (parse_safe (BSL := bstr_impl_laws) (HXL := hex_impl_laws) no_dates (bs "^refs/heads/b") OpFetch) as H.
    vm_compute (parse _ _ _) in H. apply H.
Qed.
Lemma sample_candidate p :
  candidate (BS := bstr_impl) (HX := hex_impl) sample_specs sample_items p →
  p = (SFullName (bs "refs/heads/a"), Some (bs "refs/remotes/origin/a")) ∨ p = (SFullName (bs "refs/heads/b"), Some (bs "refs/remotes/origin/b")).
Proof.
  intros [(r & Hr & (m & id & Hm & Hid & _))|(r & i & Hr & Hi & (Hn & m & v & Hm & _ & Hv & ->))];
    unfold sample_specs in Hr; rewrite !elem_of_cons, elem_of_nil in Hr.
  - destruct Hr as [-> |[-> |[]]]; vm_compute in Hm; injection Hm as <-; discriminate Hid.
  - unfold sample_items in Hi; rewrite !elem_of_cons, elem_of_nil in Hi. destruct Hr as [-> |[-> |[]]]; [|by destruct Hn].
    destruct Hi as [-> |[-> |[]]]; vm_compute in Hm; injection Hm as <-; vm_compute in Hv; injection Hv as <-; [left|right]; vm_compute; reflexivity.
Qed.
Lemma match_remotes_correct_witness :
  ∃ out, match_remotes (BS := bstr_impl) (HX := hex_impl) sample_hash sample_specs sample_items = Ok (mkOutcome sample_specs out) ∧ NoDup (sides <$> out) ∧
    ∀ p, p ∈ sides <$> out ↔ candidate (BS := bstr_impl) (HX := hex_impl) sample_specs sample_items p ∧ ¬ excluded (BS := bstr_impl) (HX := hex_impl) sample_specs p.
Proof.
  apply (match_remotes_correct (BSL := bstr_impl_laws) (HXL := hex_impl_laws) no_dates sample_hash sample_specs sample_items sample_specs_wf).
  - intros r m item Hr Hm Hi a b Hl Hrhs (_ & _ & Hlen). unfold sample_specs in Hr. rewrite !elem_of_cons, elem_of_nil in Hr.
    destruct Hr as [-> |[-> |[]]]; vm_compute in Hm; injection Hm as <-; cbn in Hl; [|by destruct Hrhs].
    injection Hl as Hname Hpos. assert (Hb : b = []).
    { apply (f_equal length) in Hname. rewrite length_app in Hname. cbn in Hname. destruct b; [done|cbn in Hname; lia]. }
    subst b. rewrite <- Hpos in Hlen. unfold sample_items in Hi. rewrite !elem_of_cons, elem_of_nil in Hi.
    destruct Hi as [-> |[-> |[]]]; vm_compute in Hlen; lia.
  - intros item Hi. unfold sample_items in Hi. rewrite !elem_of_cons, elem_of_nil in Hi. by destruct Hi as [-> |[-> |[]]].
  - intros p q [-> | ->]%sample_candidate [-> | ->]%sample_candidate Hh; try reflexivity; vm_compute in Hh; discriminate.
Defined.

Definition two_sources : Outcome := mkOutcome [sample_refspec; mkRefSpec Normal OpFetch (Some (bs "refs/heads/c")) (Some (bs "refs/remotes/origin/a"))]
  [mkMapping (Some 0%nat) (SFullName (bs "refs/heads/a")) (Some (bs "refs/remotes/origin/a")) 0;
   mkMapping (Some 1%nat) (SFullName (bs "refs/heads/c")) (Some (bs "refs/remotes/origin/a")) 1].
Lemma validated_reports_conflicts_witness :
  match outcome_validated two_sources with
  | Err issues => ∀ dst, dst ∈ issue_dst <$> issues ↔ conflict (mappings two_sources) dst
  | _ => False
  end.
Proof.
  assert (H : ∀ m, m ∈ mappings two_sources → ∃ s t, group two_sources !! spec_index m = Some s ∧ to_bstring s = Ok t).
  { intros m Hm. cbn in Hm. rewrite !elem_of_cons, elem_of_nil in Hm. destruct Hm as [-> |[-> |[]]]; eexists _, _; split; vm_compute; reflexivity. }
  pose proof (validated_reports_conflicts two_sources H) as Hv. destruct (outcome_validated two_sources) as [[o f]|issues|] eqn:He.
  - vm_compute in He. discriminate.
  - apply Hv.
  - exact Hv.
Defined.

Lemma prefixes_cover_witness :
  let r := mkRefSpec Normal OpFetch (Some (bs "main")) None in
  ∃ ps p, expand_prefixes (BS := bstr_impl) (HX := hex_impl) r [] = Ok ps ∧ p ∈ ps ∧ starts_with (full_ref_name (head_item (bs "main"))) p = true.
Proof.
  intros r. apply (prefixes_cover (BSL := bstr_impl_laws) (HXL := hex_impl_laws) r (bs "main") (mkMatcher (Some (NPartialName (bs "main"))) None) (head_item (bs "main")) None).
  - reflexivity.
  - discriminate.
  - reflexivity.
  - discriminate.
  - intros H. exfalso. revert H. by_decision.
  - vm_compute. reflexivity.
  - discriminate.
  - vm_compute. reflexivity.
Defined.
End Witnesses.
